(* ===== verification/_CoqProject ===== *)
-Q . S2P
Prelude.v
Varint.v
Format.v
Dict.v
Columns.v
Psort.v
Entity.v
Encode.v
EncodeSpec.v
Reader.v
ReaderSafe.v
ReaderCache.v
Container.v
RoundTripAux.v
RoundTrip.v
EncodeAccepts.v
Bfs.v
TargetDiff.v
GraphReader.v
TgbDiff.v
TgbAlign.v
TgbHash.v
TgbReverse.v
TgbCompare.v
TgbResult.v
TgbAgree.v
TgbAdapt.v
TgbSample.v
IdMapper.v
Streaming.v
Chunks.v
DiffGraph.v
Responses.v
CompareGraphs.v
CompareSample.v
Race.v
Fetch.v
RuleHash.v
SourceHash.v
TargetHasher.v
HasherSpec.v
Mapper.v
Toposort.v
Itg.v
ItgUpdate.v
ItgInvalidate.v
ItgInvariant.v
ItgNames.v
ItgOps.v
ItgRemove.v
ItgBuild.v
ItgHash.v
ItgRun.v
ItgFull.v
ItgSpec.v
ItgSample.v
Text.v
Storage.v
CacheKeys.v
ItgCache.v
Config.v
ResponseCache.v
GraphStore.v
GetGraph.v
RepoPool.v
Handler.v
Git.v
Changes.v
Packages.v
Url.v
Workspace.v
Runner.v
