(* ===== verification/Prelude.v ===== *)
(** * Tango: computing target graphs of Bazel repositories and comparing them

    Tango serves two RPCs: [GetTargetGraph] streams the target graph of a revision (every
    Bazel target with its dependencies and a hash that covers everything it is built from),
    and [GetChangedTargets] streams the targets whose hashes differ between two revisions,
    with their distance from a direct change.  A request passes through

      handler -> controller -> orchestrator -> repository manager and workspace -> graph runner
                                            -> target hasher -> mapper -> TGB encoder -> storage

    and a comparison reads two graphs back, compares them, and streams the result.  This
    library models these parts as executable definitions, and proves what they promise.
    A name in brackets below is a file of the library; the paths are those of [src/].

    ** Shared

    - [Prelude] (this file): bytes, results ([res]: a value, an error, a panic), indexing and
      slicing that panic as in Go, fixed-width integers with their wrap-around ([i32], [i64],
      [u64]), loops over slices, comparison functions, and the tactics that invert a
      run ([res_inv]) and evaluate guards.
    - [Text], [Url]: what the code uses of [strconv], [strings], [path], [time] and [net/url].
    - [Entity]: the ID-mapped graph ([entity/], [internal/tgb/graph.go]).

    ** The TGB format ([internal/tgb/])

    - [Varint], [Format], [Dict], [Columns], [Psort], [Encode] are [varint.go], [format.go],
      [dict.go], the column coders, [psort.go] and [encode.go]; [Reader] is [reader.go] with
      its lazily filled caches as state.
    - [EncodeSpec], [EncodeAccepts], [Container], [RoundTripAux], [RoundTrip]: the encoder
      computes a sorted and deduplicated graph, accepts exactly the graphs without dangling
      references, and what it writes is read back, equal up to the order that the format
      does not keep.
    - [ReaderSafe], [ReaderCache]: on arbitrary bytes the reader does not panic and stays in
      its budget; its caches are not observable.

    ** Comparing graphs

    - [Bfs], [TargetDiff]: [internal/targetdiff/compare.go], the comparison of semantic
      graphs: exactly the changed targets, with shortest distances.
    - [GraphReader], [TgbDiff], [TgbAlign], [TgbHash], [TgbReverse], [TgbCompare],
      [TgbResult], [TgbAdapt], [TgbAgree], [TgbSample]: [internal/tgbdiff/], the comparison
      of two blobs without decoding them.  [GraphReader] is the interface between the two:
      a class of what the comparison asks of a reader, so that its theorems hold of every
      reader that presents a graph.  Alignment by block digests is exact, hashes are compared
      exactly, and the result is the one of [TargetDiff].
    - [IdMapper], [Streaming], [Chunks], [DiffGraph], [Responses], [CompareGraphs],
      [CompareSample]: [internal/mapper/idmapper], [internal/streaming], the streams of graph
      chunks and of responses, and the comparison paths of
      [controller/getchangedtargets.go].

    ** Hashing targets

    - [RuleHash], [SourceHash], [TargetHasher], [HasherSpec], [Toposort], [Mapper]:
      [core/targethasher/], [mapper/mapper.go].  The encoding of a rule is canonical, hashing
      ends on every graph and gives the Merkle hash on acyclic ones, in any order of visits.
    - [Runner]: [graphrunner/native.go], the commands of [core/bazel/] and
      [core/targethasher/markers.go]: the graph does not depend on the environment that
      external modules were fetched in.
    - [Itg], [ItgUpdate], [ItgInvariant], [ItgInvalidate], [ItgNames], [ItgOps], [ItgRemove],
      [ItgBuild], [ItgHash], [ItgRun], [ItgFull], [ItgSpec], [ItgSample]: the incremental
      target graph ([core/itg/graph/]).  After a full hashing and any updates every hash is
      the digest of what its target describes, and [ItgFull] proves that the full hashing
      ([fromProto]) of the same description gives that digest.  Both are for full hashings in
      Bzlmod mode without cycles and exclusions that give no generated file the hash of its
      repository: an update is not given the markers of repositories, and [ItgSample] shows a
      hash that it changes.
    - [ItgCache], [Changes], [Packages]: [core/itg/cache], [core/itg/changeanalyzer],
      [core/itg/workspaceutils].

    ** The service

    - [Storage]: [core/storage/], a class of operations with laws ([Storage],
      [StorageLaws]), with the store in memory and the one on disk as instances; the clients
      below are proved against the laws.  A write on disk is a list of states, one for each
      system call, so that atomicity is about every point where it may be interrupted.
    - [CacheKeys]: [core/cachekey], [internal/url]: which inputs a key tells apart.
    - [Race], [Fetch]: the concurrent fetch of both revisions, as steps of two goroutines and
      a collector.
    - [Config]: [config/].  [ResponseCache], [GetGraph]: the caches of the controller.
      [GraphStore]: [core/storage/tgbgraph.go], [core/errors], [orchestrator/].
    - [RepoPool], [Workspace], [Git]: [core/repomanager], [core/workspace], [core/git]: leases
      as steps of concurrent calls, change URIs and the application of pull requests, and
      what is parsed of git's output.
    - [Handler]: [handler/], [internal/mapper], [mapper/proto].

    ** How the model reads

    A Go function is a function on the same data.  Errors are [Err] with the constant part of
    their text, or a [gerror] (code, sentinel, text) where the code asks for them; a panic is
    [Panic].  State is passed explicitly; the hasher and the incremental graph use a state and
    error monad of their own.  A map that is ranged over has its order as a parameter
    ([range]), and theorems quantify over it.  A context is a function from the number of the
    poll to whether it is done.  Fuel replaces recursion that is not structural, [None] being
    its end; a theorem says which fuel is enough and that there is a result with it: the
    number of unhashed targets and two for [HashRecursively] and the sorting, of unhashed
    targets for the incremental hashing, the number of segments for a search upwards, the
    length of the input for the decoders.  Integers that can overflow are written with
    [i32], [i64], [u64].  Concurrency is a step relation or a list of steps; goroutines that
    touch disjoint data are run one after the other.

    Parameters are code that is not under [src/] or that the operating system runs: SHA-1,
    MD5 and SHA-256 (collisions are explicit alternatives in the statements), zstd, gob, YAML,
    JSON and regular expressions, git, Bazel, the file system.  The documented behaviour that
    a theorem needs of them is a hypothesis or a class with a concrete instance.

    ** Not modelled

    Metrics, logging and timings ([observability/], and their calls), as they do not change
    results; starting processes and streaming Bazel's protobuf output ([core/bazel/stream.go],
    [core/execcmd]), the download of bazelisk, the generated code of [tangopb/], and the
    example server, client and benchmark ([example/]), which are I/O or glue.  The log fields
    of errors are left out of [core/errors]. *)
From Stdlib Require Export Strings.Byte.
From Stdlib Require Import ZArith Lia.
From stdpp Require Export base list gmap strings sorting numbers fin_maps.

#[export] Set Default Goal Selector "!".
#[export] Set Warnings "-clear-no-such-hyp".
Local Open Scope Z_scope.

(** * Bytes and Go strings

    A Go [string] and a Go [[]byte] are both a sequence of bytes, and the code
    converts freely between the two; [bytes] models both. *)

Abbreviation bytes := (list byte).

#[export] Instance byte_eq_decision : EqDecision byte := Byte.byte_eq_dec.
#[export] Program Instance byte_countable : Countable byte :=
  inj_countable Byte.to_N Byte.of_N _.
Next Obligation. intros b. apply Byte.of_to_N. Qed.

(** The bytes of a literal. *)
Definition bs (s : string) : bytes := String.list_byte_of_string s.
Arguments bs _%_string_scope.

(** Go's [uint8] value of a byte, and the conversion [byte(z)]. *)
Definition b2z (b : byte) : Z := Z.of_N (Byte.to_N b).
Definition z2b (z : Z) : byte :=
  match Byte.of_N (Z.to_N (z mod 256)) with Some b => b | None => x00 end.

Lemma b2z_bound b : 0 <= b2z b < 256.
Proof. unfold b2z. pose proof (Byte.to_N_bounded b). lia. Qed.

Lemma z2b_b2z b : z2b (b2z b) = b.
Proof.
  unfold z2b. rewrite Z.mod_small by apply b2z_bound.
  unfold b2z. by rewrite N2Z.id, Byte.of_to_N.
Qed.

Lemma b2z_z2b z : b2z (z2b z) = z mod 256.
Proof.
  unfold z2b, b2z. pose proof (Z.mod_pos_bound z 256 eq_refl) as Hb.
  destruct (Byte.of_N _) as [b|] eqn:E.
  - apply Byte.to_of_N in E. rewrite E. lia.
  - apply Byte.of_N_None_iff in E. lia.
Qed.

Lemma b2z_z2b_small z : 0 <= z < 256 -> b2z (z2b z) = z.
Proof. intros H. rewrite b2z_z2b. by apply Z.mod_small. Qed.

Lemma b2z_inj a b : b2z a = b2z b -> a = b.
Proof. intros H. by rewrite <- (z2b_b2z a), <- (z2b_b2z b), H. Qed.

(** * Results

    A Go call returns a value or an error, or it panics (an index or a slice
    bound out of range).  The text of an error is the constant part of its
    format string. *)

Inductive res (A : Type) : Type :=
  | Ok (a : A)
  | Err (msg : string)
  | Panic.
Arguments Ok {A} a.
Arguments Err {A} msg%_string_scope.
Arguments Panic {A}.

#[export] Instance res_ret : MRet res := @Ok.
#[export] Instance res_bind : MBind res := fun A B f r =>
  match r with Ok a => f a | Err e => Err e | Panic => Panic end.
#[export] Instance res_fmap : FMap res := fun A B f r =>
  match r with Ok a => Ok (f a) | Err e => Err e | Panic => Panic end.

#[export] Instance res_eq_decision `{EqDecision A} : EqDecision (res A).
Proof. solve_decision. Defined.

Lemma bind_Ok {A B} (r : res A) (f : A -> res B) b :
  r ≫= f = Ok b <-> exists a, r = Ok a /\ f a = Ok b.
Proof.
  destruct r; cbn; split; try (intros (?&?&?); by simplify_eq); intros; simplify_eq; eauto.
Qed.

Lemma fmap_Ok {A B} (r : res A) (f : A -> B) b :
  f <$> r = Ok b <-> exists a, r = Ok a /\ b = f a.
Proof.
  destruct r; cbn; split; try (intros (?&?&?); by simplify_eq); intros; simplify_eq; eauto.
Qed.

Definition is_ok {A} (r : res A) : bool := if r is Ok _ then true else false.

(** [if bad { return nil, errorf(msg) }] *)
Definition guard_err (bad : bool) (msg : string) : res unit :=
  if bad then Err msg else Ok ().
Arguments guard_err bad msg%_string_scope.

Lemma guard_err_Ok b m x : guard_err b m = Ok x <-> b = false.
Proof. destruct b; cbn; destruct x; naive_solver. Qed.

Lemma bind_Err {A B} (r : res A) (f : A -> res B) e :
  r ≫= f = Err e -> r = Err e \/ exists a, r = Ok a /\ f a = Err e.
Proof. destruct r; cbn; naive_solver. Qed.

Lemma bind_Panic {A B} (r : res A) (f : A -> res B) :
  r ≫= f = Panic -> r = Panic \/ exists a, r = Ok a /\ f a = Panic.
Proof. destruct r; cbn; naive_solver. Qed.

Lemma guard_err_bind_Panic {B} b m (f : unit -> res B) :
  guard_err b m ≫= f = Panic -> b = false /\ f () = Panic.
Proof. destruct b; cbn; naive_solver. Qed.

Lemma guard_err_Err b m e : guard_err b m = Err e -> e = m.
Proof. unfold guard_err. destruct b; congruence. Qed.

(** Invert a successful run: every bind succeeded and every guard passed. *)
Ltac res_step :=
  match goal with
  | H : _ ≫= _ = Ok _ |- _ =>
      let x := fresh "x" in let E := fresh "E" in
      apply bind_Ok in H as (x & E & H)
  | H : _ <$> _ = Ok _ |- _ =>
      let x := fresh "x" in let E := fresh "E" in
      apply fmap_Ok in H as (x & E & H)
  | H : guard_err _ _ = Ok _ |- _ => apply guard_err_Ok in H
  | H : bool_decide _ = false |- _ => apply bool_decide_eq_false in H
  | H : bool_decide _ = true |- _ => apply bool_decide_eq_true in H
  | H : Ok _ = Ok _ |- _ => injection H as H
  | H : Err _ = Ok _ |- _ => discriminate H
  | H : Panic = Ok _ |- _ => discriminate H
  | H : mret _ = Ok _ |- _ => injection H as H
  | H : (_, _) = (_, _) |- _ => injection H as H
  | H : (match ?p with (_, _) => _ end) = Ok _ |- _ => is_var p; destruct p
  | H : unit |- _ => destruct H
  end.
Ltac res_inv := repeat (res_step; cbn beta iota in * ); subst.

(** Run the outermost guard of the goal, whose condition [tac] refutes. *)
Ltac guard_pass_by tac :=
  match goal with
  | |- context [guard_err (bool_decide ?P) _ ≫= _] =>
      rewrite (bool_decide_false P) by tac; cbn [guard_err mbind res_bind]
  end.
Tactic Notation "guard_pass" "by" tactic3(tac) := guard_pass_by tac.
Tactic Notation "guard_pass" := guard_pass_by lia.

(** * Slices *)

(** [s[i]] *)
Definition index {A} (s : list A) (i : Z) : res A :=
  if decide (0 <= i) then
    match s !! Z.to_nat i with Some x => Ok x | None => Panic end
  else Panic.

(** [s[lo:hi]] for a slice whose capacity is its length. *)
Definition slice {A} (s : list A) (lo hi : Z) : res (list A) :=
  if decide (0 <= lo <= hi /\ hi <= Z.of_nat (length s))
  then Ok (take (Z.to_nat (hi - lo)) (drop (Z.to_nat lo) s))
  else Panic.

(** [len(s)] as a Go [int]. *)
Definition zlen {A} (s : list A) : Z := Z.of_nat (length s).

Lemma zlen_nonneg {A} (s : list A) : 0 <= zlen s.
Proof. unfold zlen. lia. Qed.

Lemma zlen_app {A} (s t : list A) : zlen (s ++ t) = zlen s + zlen t.
Proof. unfold zlen. rewrite length_app. lia. Qed.

Lemma zlen_cons {A} (x : A) s : zlen (x :: s) = 1 + zlen s.
Proof. unfold zlen. cbn [length]. lia. Qed.

Lemma zlen_nil {A} : zlen (@nil A) = 0.
Proof. done. Qed.

Lemma to_nat_zlen {A} (s : list A) : Z.to_nat (zlen s) = length s.
Proof. unfold zlen. lia. Qed.

Lemma slice_Ok {A} (s : list A) lo hi :
  0 <= lo <= hi -> hi <= zlen s ->
  slice s lo hi = Ok (take (Z.to_nat (hi - lo)) (drop (Z.to_nat lo) s)).
Proof. intros H1 H2. unfold slice, zlen in *. by rewrite decide_True. Qed.

Lemma slice_not_Err {A} (s : list A) lo hi e : slice s lo hi <> Err e.
Proof. unfold slice. by case_decide. Qed.

Lemma slice_app_mid {A} (p m t : list A) :
  slice (p ++ m ++ t) (zlen p) (zlen p + zlen m) = Ok m.
Proof.
  rewrite slice_Ok; rewrite ?zlen_app.
  - unfold zlen. f_equal.
    rewrite Nat2Z.id, drop_app_length.
    replace (Z.to_nat _) with (length m) by lia. by rewrite take_app_length.
  - pose proof (zlen_nonneg p). pose proof (zlen_nonneg m). lia.
  - pose proof (zlen_nonneg t). lia.
Qed.

Lemma index_lookup {A} (s : list A) (k : nat) :
  index s (Z.of_nat k) = match s !! k with Some x => Ok x | None => Panic end.
Proof. unfold index. rewrite decide_True by lia. by rewrite Nat2Z.id. Qed.

(** [s[i:]] *)
Lemma slice_from {A} (s : list A) pos :
  0 <= pos <= zlen s -> slice s pos (zlen s) = Ok (drop (Z.to_nat pos) s).
Proof.
  intros H. rewrite slice_Ok by lia. f_equal. apply take_ge. rewrite length_drop.
  unfold zlen in *. lia.
Qed.

Lemma slice_suffix {A} (p t : list A) : slice (p ++ t) (zlen p) (zlen (p ++ t)) = Ok t.
Proof.
  rewrite slice_from.
  - unfold zlen. by rewrite Nat2Z.id, drop_app_length.
  - rewrite zlen_app. pose proof (zlen_nonneg p). pose proof (zlen_nonneg t). lia.
Qed.

(** ** Loops over slices and indices *)

(** The integers [lo, lo+1, ..., hi-1]. *)
Definition zrange (lo hi : Z) : list Z := (fun k => lo + Z.of_nat k) <$> seq 0 (Z.to_nat (hi - lo)).

(** [for _, x := range s { y, err := f(x); ... }] *)
Fixpoint each {A B} (f : A -> res B) (s : list A) : res (list B) :=
  match s with
  | [] => Ok []
  | x :: s => y ← f x; ys ← each f s; Ok (y :: ys)
  end.

(** [for _, x := range s { st = f(st, x) }] with a body that may panic. *)
Fixpoint fold_res {A S} (f : S -> A -> res S) (st : S) (s : list A) : res S :=
  match s with
  | [] => Ok st
  | x :: s => st ← f st x; fold_res f st s
  end.

(** [s[i] = x] *)
Definition set_index {A} (s : list A) (i : Z) (x : A) : res (list A) :=
  if decide (0 <= i < zlen s) then Ok (<[Z.to_nat i := x]> s) else Panic.

(** [make([]T, n)] filled with [x]. *)
Definition make_slice {A} (n : Z) (x : A) : res (list A) :=
  if decide (0 <= n) then Ok (replicate (Z.to_nat n) x) else Panic.

(** The element at an index, if it is in range. *)
Definition at_ {A} (l : list A) (i : Z) : option A :=
  if decide (0 <= i) then l !! Z.to_nat i else None.

Lemma at_Some_range {A} (l : list A) i x : at_ l i = Some x -> 0 <= i < zlen l.
Proof.
  unfold at_, zlen. case_decide; [|done]. intros H1%lookup_lt_Some. lia.
Qed.

Lemma at_is_Some {A} (l : list A) i : 0 <= i < zlen l -> exists x, at_ l i = Some x.
Proof.
  intros Hi. unfold at_. rewrite decide_True by lia. apply lookup_lt_is_Some. unfold zlen in Hi. lia.
Qed.

Lemma index_at {A} (l : list A) i : index l i = match at_ l i with Some x => Ok x | None => Panic end.
Proof. unfold index, at_. by case_decide. Qed.

Lemma elem_of_zrange i lo hi : i ∈ zrange lo hi <-> lo <= i < hi.
Proof.
  unfold zrange. rewrite list_elem_of_fmap. split.
  - intros (k & -> & Hk%elem_of_seq). lia.
  - intros Hi. exists (Z.to_nat (i - lo)). split; [lia|]. apply elem_of_seq. lia.
Qed.

Lemma zrange_empty lo hi : hi <= lo -> zrange lo hi = [].
Proof. intros H. unfold zrange. by replace (Z.to_nat (hi - lo)) with 0%nat by lia. Qed.

Lemma zlen_zrange lo hi : lo <= hi -> zlen (zrange lo hi) = hi - lo.
Proof. intros H. unfold zrange, zlen. rewrite length_fmap, length_seq. lia. Qed.

Lemma at_zrange lo hi k : 0 <= k < hi - lo -> at_ (zrange lo hi) k = Some (lo + k).
Proof.
  intros Hk. unfold at_, zrange. rewrite decide_True by lia. rewrite list_lookup_fmap, lookup_seq_lt by lia.
  cbn. f_equal. lia.
Qed.

Lemma set_index_Ok {A} (s : list A) i x :
  0 <= i < zlen s ->
  exists s', set_index s i x = Ok s' /\ zlen s' = zlen s /\
    forall j, at_ s' j = if decide (j = i) then Some x else at_ s j.
Proof.
  intros Hi. unfold set_index. rewrite decide_True by done. eexists. split; [done|].
  split; [unfold zlen; by rewrite length_insert|]. intros j. unfold at_, zlen in *.
  destruct (decide (j = i)) as [->|Hne].
  - rewrite decide_True by lia. apply list_lookup_insert_eq. lia.
  - case_decide; [|done]. apply list_lookup_insert_ne. lia.
Qed.

Lemma at_replicate {A} n (x : A) j : at_ (replicate n x) j = if decide (0 <= j < Z.of_nat n) then Some x else None.
Proof.
  unfold at_. destruct (decide (0 <= j < Z.of_nat n)).
  - rewrite decide_True by lia. apply lookup_replicate_2. lia.
  - case_decide; [|done]. apply lookup_replicate_None. lia.
Qed.

Lemma at_ext {A} (l1 l2 : list A) : (forall i, at_ l1 i = at_ l2 i) -> l1 = l2.
Proof.
  intros H. apply list_eq. intros k. specialize (H (Z.of_nat k)). unfold at_ in H.
  rewrite !decide_True, Nat2Z.id in H by lia. done.
Qed.

Lemma at_elem {A} (l : list A) i x : at_ l i = Some x -> x ∈ l.
Proof. unfold at_. case_decide; [|done]. apply list_elem_of_lookup_2. Qed.

Lemma elem_at {A} (l : list A) x : x ∈ l -> exists i, at_ l i = Some x.
Proof.
  intros [k Hk]%list_elem_of_lookup_1. exists (Z.of_nat k). unfold at_.
  by rewrite decide_True, Nat2Z.id by lia.
Qed.

Lemma zlen_fmap {A B} (f : A -> B) (l : list A) : zlen (f <$> l) = zlen l.
Proof. unfold zlen. by rewrite length_fmap. Qed.

Lemma at_fmap {A B} (f : A -> B) (l : list A) i : at_ (f <$> l) i = f <$> at_ l i.
Proof. unfold at_. case_decide; [|done]. apply list_lookup_fmap. Qed.

Lemma at_app {A} (l1 l2 : list A) k :
  at_ (l1 ++ l2) k = if decide (k < zlen l1) then at_ l1 k else at_ l2 (k - zlen l1).
Proof.
  unfold at_, zlen. destruct (decide (k < Z.of_nat (length l1))).
  - destruct (decide (0 <= k)); [|done]. apply lookup_app_l. lia.
  - rewrite !decide_True by lia. rewrite lookup_app_r by lia. f_equal. lia.
Qed.

Lemma slice_at {A} (s r : list A) lo :
  0 <= lo -> lo + zlen r <= zlen s ->
  (forall k, 0 <= k < zlen r -> at_ s (lo + k) = at_ r k) -> slice s lo (lo + zlen r) = Ok r.
Proof.
  intros Hlo Hhi Hat. pose proof (zlen_nonneg r). rewrite slice_Ok by lia. f_equal.
  apply list_eq. intros k. destruct (decide (k < length r)%nat) as [Hk|Hk].
  - rewrite lookup_take_lt, lookup_drop by (unfold zlen; lia). specialize (Hat (Z.of_nat k)).
    unfold at_, zlen in *. rewrite !decide_True, Nat2Z.id in Hat by lia. rewrite <- Hat by lia.
    f_equal. lia.
  - rewrite lookup_take_ge by (unfold zlen; lia). symmetry. apply lookup_ge_None. lia.
Qed.

Lemma zrange_nodup lo hi : NoDup (zrange lo hi).
Proof. apply NoDup_fmap_2; [intros ???; lia|apply NoDup_seq]. Qed.

Lemma lookup_zrange_Some lo hi k x : zrange lo hi !! k = Some x -> x = lo + Z.of_nat k /\ lo <= x < hi.
Proof.
  unfold zrange. rewrite list_lookup_fmap. intros (y & Hy & ->)%fmap_Some.
  apply lookup_seq in Hy as [-> ?]. lia.
Qed.

Lemma at_cons {A} (x : A) l k : 0 <= k -> at_ (x :: l) k = if decide (k = 0) then Some x else at_ l (k - 1).
Proof.
  intros Hk. unfold at_. rewrite decide_True by lia. destruct (decide (k = 0)) as [->|]; [done|].
  rewrite decide_True by lia. replace (Z.to_nat k) with (S (Z.to_nat (k - 1))) by lia. done.
Qed.

(** Run a loop by an invariant on the elements passed. *)
Lemma fold_res_inv {A S} (f : S -> A -> res S) (I : list A -> S -> Prop) (s : list A) st :
  I [] st ->
  (forall past x later st, s = past ++ x :: later -> I past st ->
     exists st', f st x = Ok st' /\ I (past ++ [x]) st') ->
  exists st', fold_res f st s = Ok st' /\ I s st'.
Proof.
  intros H0 Hstep.
  assert (forall later past st, s = past ++ later -> I past st ->
    exists st', fold_res f st later = Ok st' /\ I s st') as H; [|by apply (H s [])].
  clear st H0. induction later as [|x later IH]; intros past st Hs HI; cbn [fold_res].
  { rewrite app_nil_r in Hs. subst. eauto. }
  destruct (Hstep past x later st Hs HI) as (st1 & -> & H1). cbn [mbind res_bind].
  apply (IH (past ++ [x])); [by rewrite <- app_assoc|done].
Qed.

Lemma each_at {A B} (f : A -> res B) (s : list A) (ys : list B) :
  Forall2 (fun x y => f x = Ok y) s ys -> each f s = Ok ys.
Proof. induction 1 as [|x y s ys Hf _ IH]; [done|]. cbn [each]. by rewrite Hf, IH. Qed.

Lemma each_fmap {A B} (f : A -> res B) (g : A -> B) (s : list A) :
  (forall x, x ∈ s -> f x = Ok (g x)) -> each f s = Ok (g <$> s).
Proof.
  intros H. apply each_at, Forall2_fmap_r, Forall_Forall2_diag, Forall_forall. exact H.
Qed.

Lemma each_Forall2 {A B} (f : A -> res B) (Q : A -> B -> Prop) (s : list A) :
  (forall x, x ∈ s -> exists y, f x = Ok y /\ Q x y) -> exists ys, each f s = Ok ys /\ Forall2 Q s ys.
Proof.
  induction s as [|x s IH]; intros H; [by exists []|]. destruct (H x) as (y & Hy & HQ); [by left|].
  destruct IH as (ys & Hys & HF); [intros z Hz; apply H; by right|]. cbn [each]. rewrite Hy, Hys. eauto.
Qed.

Lemma Forall2_elem_l {A B} (P : A -> B -> Prop) l k x : Forall2 P l k -> x ∈ l -> exists y, y ∈ k /\ P x y.
Proof.
  intros HF [i Hi]%list_elem_of_lookup_1. destruct (Forall2_lookup_l _ _ _ _ _ HF Hi) as (y & Hy & ?).
  exists y. split; [by eapply list_elem_of_lookup_2|done].
Qed.

Lemma Forall2_elem_r {A B} (P : A -> B -> Prop) l k y : Forall2 P l k -> y ∈ k -> exists x, x ∈ l /\ P x y.
Proof. intros HF%Forall2_flip Hy. by apply (Forall2_elem_l _ _ _ _ HF). Qed.

(** * Machine integers *)

Definition u64 (z : Z) : Z := z mod 2^64.
Definition u32 (z : Z) : Z := z mod 2^32.
Definition u16 (z : Z) : Z := z mod 2^16.
Definition i64 (z : Z) : Z := (z + 2^63) mod 2^64 - 2^63.
Definition i32 (z : Z) : Z := (z + 2^31) mod 2^32 - 2^31.

Lemma u64_range z : 0 <= u64 z < 2^64.
Proof. apply Z.mod_pos_bound. lia. Qed.

Lemma u64_small z : 0 <= z < 2^64 -> u64 z = z.
Proof. apply Z.mod_small. Qed.

Lemma i64_range z : -2^63 <= i64 z < 2^63.
Proof. unfold i64. pose proof (Z.mod_pos_bound (z + 2^63) (2^64) eq_refl). lia. Qed.

Lemma i64_small z : -2^63 <= z < 2^63 -> i64 z = z.
Proof. intros H. unfold i64. rewrite Z.mod_small; lia. Qed.

Lemma i32_range z : -2^31 <= i32 z < 2^31.
Proof. unfold i32. pose proof (Z.mod_pos_bound (z + 2^31) (2^32) eq_refl). lia. Qed.

Lemma i32_small z : -2^31 <= z < 2^31 -> i32 z = z.
Proof. intros H. unfold i32. rewrite Z.mod_small; lia. Qed.

(** [int64(u)] and [uint64(v)] are inverse reinterpretations of 64 bits. *)
Lemma i64_u64 z : -2^63 <= z < 2^63 -> i64 (u64 z) = z.
Proof.
  intros H. unfold i64, u64.
  rewrite Zplus_mod_idemp_l, Z.mod_small; lia.
Qed.

Lemma i32_idemp_add a b : i32 (i32 a + b) = i32 (a + b).
Proof.
  unfold i32.
  replace ((a + 2^31) mod 2^32 - 2^31 + b + 2^31) with ((a + 2^31) mod 2^32 + b) by lia.
  rewrite Zplus_mod_idemp_l. f_equal. f_equal. lia.
Qed.

Lemma i32_u64 z : i32 (u64 z) = i32 z.
Proof.
  unfold i32, u64. f_equal.
  rewrite <- (Zplus_mod_idemp_l (z mod 2^64)).
  rewrite <- (Zplus_mod_idemp_l z).
  f_equal. f_equal.
  change (2^64) with (2^32 * 2^32).
  rewrite Z.rem_mul_r by lia. rewrite Z.mul_comm, Z.mod_add by lia. by rewrite Z.mod_mod by lia.
Qed.

(** * Fixed-width little-endian integers ([binary.LittleEndian]) *)

Fixpoint put_le (n : nat) (z : Z) : bytes :=
  match n with
  | O => []
  | S n => z2b z :: put_le n (z / 256)
  end.

Fixpoint get_le (b : bytes) : Z :=
  match b with
  | [] => 0
  | x :: b => b2z x + 256 * get_le b
  end.

Lemma length_put_le n z : length (put_le n z) = n.
Proof. revert z. induction n as [|n IH]; intros z; cbn; [done|]. by rewrite IH. Qed.

Lemma get_put_le n z : get_le (put_le n z) = z mod 256 ^ Z.of_nat n.
Proof.
  revert z. induction n as [|n IH]; intros z; cbn [put_le get_le].
  - by rewrite Z.mod_1_r.
  - rewrite IH, b2z_z2b, Nat2Z.inj_succ, Z.pow_succ_r by lia.
    rewrite Z.rem_mul_r by lia. done.
Qed.

Lemma get_put_le_small n z : 0 <= z < 256 ^ Z.of_nat n -> get_le (put_le n z) = z.
Proof. intros H. rewrite get_put_le. by apply Z.mod_small. Qed.

Lemma get_le_bound b : 0 <= get_le b < 256 ^ zlen b.
Proof.
  induction b as [|x b IH]; cbn [get_le].
  - unfold zlen; cbn. lia.
  - rewrite zlen_cons. rewrite Z.pow_add_r by (pose proof (zlen_nonneg b); lia).
    pose proof (b2z_bound x). lia.
Qed.

(** * Byte-string order ([strings.Compare], [<] on strings)

    Go compares strings bytewise and lexicographically. *)

Fixpoint bcompare (a b : bytes) : comparison :=
  match a, b with
  | [], [] => Eq
  | [], _ :: _ => Lt
  | _ :: _, [] => Gt
  | x :: a, y :: b =>
      match b2z x ?= b2z y with
      | Eq => bcompare a b
      | c => c
      end
  end.

Definition bltb (a b : bytes) : bool :=
  match bcompare a b with Lt => true | _ => false end.

(** A comparison function returning a sign, as [slices.SortFunc] wants it, is
    a total order up to the equivalence [cmp a b = Eq]. *)
Class TotalCmp {A} (cmp : A -> A -> comparison) : Prop := {
  cmp_anti : forall a b, cmp b a = CompOpp (cmp a b);
  cmp_eq_l : forall a b c, cmp a b = Eq -> cmp a c = cmp b c;
  cmp_lt_trans : forall a b c, cmp a b = Lt -> cmp b c = Lt -> cmp a c = Lt;
}.

(** When equivalent elements are equal, sorting has a unique result. *)
Class LinearCmp {A} (cmp : A -> A -> comparison) : Prop := {
  linear_total :: TotalCmp cmp;
  cmp_eq : forall a b, cmp a b = Eq -> a = b;
}.

Lemma bcompare_refl a : bcompare a a = Eq.
Proof. induction a as [|x a IH]; cbn; [done|]. by rewrite Z.compare_refl. Qed.

Lemma bcompare_eq a b : bcompare a b = Eq <-> a = b.
Proof.
  split; [|intros ->; apply bcompare_refl].
  revert b. induction a as [|x a IH]; intros [|y b]; cbn; try done.
  destruct (Z.compare_spec (b2z x) (b2z y)) as [E|?|?]; try done.
  intros H. f_equal; [by apply b2z_inj|by apply IH].
Qed.

Lemma bcompare_antisym a b : bcompare b a = CompOpp (bcompare a b).
Proof.
  revert b. induction a as [|x a IH]; intros [|y b]; cbn; try done.
  rewrite (Z.compare_antisym (b2z x) (b2z y)).
  destruct (b2z x ?= b2z y); cbn; auto.
Qed.

Lemma bcompare_lt_trans a b c :
  bcompare a b = Lt -> bcompare b c = Lt -> bcompare a c = Lt.
Proof.
  revert b c. induction a as [|x a IH]; intros [|y b] [|z c]; cbn; try done.
  destruct (Z.compare_spec (b2z x) (b2z y)) as [E1|E1|E1];
    destruct (Z.compare_spec (b2z y) (b2z z)) as [E2|E2|E2]; intros H1 H2; try done.
  - rewrite (proj2 (Z.compare_eq_iff _ _)) by lia. eauto.
  - by rewrite (proj2 (Z.compare_lt_iff _ _)) by lia.
  - by rewrite (proj2 (Z.compare_lt_iff _ _)) by lia.
  - by rewrite (proj2 (Z.compare_lt_iff _ _)) by lia.
Qed.

#[export] Instance bcompare_linear : LinearCmp bcompare.
Proof.
  split; [split|].
  - intros a b. apply bcompare_antisym.
  - intros a b c ->%bcompare_eq. done.
  - intros a b c. apply bcompare_lt_trans.
  - intros a b. apply bcompare_eq.
Qed.

(** Lexicographic combination: [if c := cmp1; c != 0 { return c }; return cmp2]. *)
Definition lex_cmp {A B} (f : A -> A -> comparison) (g : B -> B -> comparison)
  (x y : A * B) : comparison :=
  match f x.1 y.1 with Eq => g x.2 y.2 | c => c end.

Lemma cmp_refl `{TotalCmp A cmp} a : cmp a a = Eq.
Proof. pose proof (cmp_anti a a). by destruct (cmp a a). Qed.

Lemma cmp_eq_r `{TotalCmp A cmp} a b c : cmp a b = Eq -> cmp c a = cmp c b.
Proof. intros E. rewrite (cmp_anti a c), (cmp_anti b c). f_equal. by apply cmp_eq_l. Qed.

#[export] Instance lex_cmp_total {A B} (f : A -> A -> comparison) (g : B -> B -> comparison)
  `{!TotalCmp f, !TotalCmp g} : TotalCmp (lex_cmp f g).
Proof.
  unfold lex_cmp. split.
  - intros [a1 b1] [a2 b2]; cbn. rewrite (cmp_anti a1 a2).
    destruct (f a1 a2); cbn; [apply cmp_anti|done..].
  - intros [a1 b1] [a2 b2] [a3 b3]; cbn. destruct (f a1 a2) eqn:E; try done.
    intros E2. rewrite (cmp_eq_l _ _ a3 E). destruct (f a2 a3); auto using cmp_eq_l.
  - intros [a1 b1] [a2 b2] [a3 b3]; cbn.
    destruct (f a1 a2) eqn:E1; try done; intros H1.
    + rewrite (cmp_eq_l _ _ a3 E1). destruct (f a2 a3); try done. by apply cmp_lt_trans.
    + destruct (f a2 a3) eqn:E2; try done; intros H2.
      * by rewrite <- (cmp_eq_r _ _ a1 E2), E1.
      * by rewrite (cmp_lt_trans _ _ _ E1 E2).
Qed.

#[export] Instance lex_cmp_linear {A B} (f : A -> A -> comparison) (g : B -> B -> comparison)
  `{!LinearCmp f, !LinearCmp g} : LinearCmp (lex_cmp f g).
Proof.
  split; [apply _|]. intros [a1 b1] [a2 b2]; unfold lex_cmp; cbn.
  destruct (f a1 a2) eqn:E1; try done. intros E2.
  by rewrite (cmp_eq _ _ E1), (cmp_eq _ _ E2).
Qed.

(** Comparing through a key. *)
#[export] Instance on_cmp_total {A B} (k : A -> B) (f : B -> B -> comparison)
  `{!TotalCmp f} : TotalCmp (fun x y => f (k x) (k y)).
Proof.
  split; intros.
  - apply cmp_anti.
  - by apply cmp_eq_l.
  - by eapply cmp_lt_trans.
Qed.

#[export] Instance Zcompare_linear : LinearCmp Z.compare.
Proof.
  split; [split|].
  - intros a b. apply Z.compare_antisym.
  - intros a b c ->%Z.compare_eq_iff. done.
  - intros a b c. rewrite !Z.compare_lt_iff. lia.
  - intros a b. apply Z.compare_eq_iff.
Qed.

(** * Sorting ([slices.Sort], [slices.SortFunc], [sort.Strings], [sort.Slice])

    The order of equivalent elements is left open by Go's sorts; where the code
    relies on it nothing can be proved, and a theorem about such a call states
    its result up to that choice.  The model is stdpp's (stable) merge sort. *)

Definition cle {A} (cmp : A -> A -> comparison) (a b : A) : Prop := cmp a b <> Gt.

#[export] Instance cle_dec {A} (cmp : A -> A -> comparison) a b : Decision (cle cmp a b).
Proof. unfold cle. apply _. Defined.

Definition sort_func {A} (cmp : A -> A -> comparison) (l : list A) : list A :=
  merge_sort (cle cmp) l.

Section sort_func.
Context {A : Type} (cmp : A -> A -> comparison) `{!TotalCmp cmp}.

#[export] Instance cle_total : Total (cle cmp).
Proof.
  intros a b. unfold cle. rewrite (cmp_anti (cmp:=cmp) a b).
  destruct (cmp a b); cbn; [left|left|right]; done.
Qed.

#[export] Instance cle_trans : Transitive (cle cmp).
Proof.
  intros a b c. unfold cle.
  destruct (cmp a b) eqn:E1; try done; intros _.
  - by rewrite (cmp_eq_l (cmp:=cmp) _ _ c E1).
  - destruct (cmp b c) eqn:E2; try done; intros _.
    + by rewrite <- (cmp_eq_r (cmp:=cmp) _ _ a E2), E1.
    + by rewrite (cmp_lt_trans (cmp:=cmp) _ _ _ E1 E2).
Qed.

Lemma sort_func_perm l : sort_func cmp l ≡ₚ l.
Proof. apply merge_sort_Permutation. Qed.

Lemma sort_func_sorted l : StronglySorted (cle cmp) (sort_func cmp l).
Proof. apply StronglySorted_merge_sort; apply _. Qed.

Lemma sort_func_length l : length (sort_func cmp l) = length l.
Proof. by rewrite (sort_func_perm l). Qed.

Lemma elem_of_sort_func x l : x ∈ sort_func cmp l <-> x ∈ l.
Proof. by rewrite (sort_func_perm l). Qed.
End sort_func.

#[export] Instance cle_antisym `{LinearCmp A cmp} : AntiSymm (=) (cle cmp).
Proof.
  intros a b. unfold cle. rewrite (cmp_anti (cmp:=cmp) a b).
  destruct (cmp a b) eqn:E; cbn; try done. intros _ _. by apply cmp_eq.
Qed.

Lemma sort_func_unique `{LinearCmp A cmp} (l1 l2 : list A) :
  StronglySorted (cle cmp) l2 -> l1 ≡ₚ l2 -> sort_func cmp l1 = l2.
Proof.
  intros Hs Hp. eapply (StronglySorted_unique (cle cmp)).
  - apply sort_func_sorted, _.
  - done.
  - by rewrite (sort_func_perm cmp).
Qed.

(** Orders that agree on the elements of a list sort it alike. *)
Section sort_agree.
Context {A : Type} (R R' : A -> A -> Prop) `{forall x y, Decision (R x y)} `{forall x y, Decision (R' x y)} (P : A -> Prop).
Context (RR' : forall x y, P x -> P y -> R x y <-> R' x y).

Lemma list_merge_agree l1 l2 : Forall P l1 -> Forall P l2 ->
  list_merge R l1 l2 = list_merge R' l1 l2 /\ Forall P (list_merge R l1 l2).
Proof.
  intros H1 H2. split; [|by rewrite merge_Permutation, Forall_app].
  revert l2 H2. induction H1 as [|x l1 Hx Hl1 IH1]; intros l2 H2; [by rewrite !list_merge_nil_l|].
  induction H2 as [|y l2 Hy Hl2 IH2]; [done|]. rewrite !list_merge_cons.
  destruct (decide (R x y)), (decide (R' x y)) as [|]; try (exfalso; by rewrite RR' in *).
  - f_equal. apply IH1. by constructor.
  - by f_equal.
Qed.

Lemma merge_list_to_stack_agree st l : Forall (from_option (Forall P) True) st -> Forall P l ->
  merge_list_to_stack R st l = merge_list_to_stack R' st l /\ Forall (from_option (Forall P) True) (merge_list_to_stack R st l).
Proof.
  intros Hst. revert l. induction Hst as [|[l'|] st Hl' Hst IH]; intros l Hl; cbn [merge_list_to_stack].
  - split; [done|]. by repeat constructor.
  - destruct (list_merge_agree l' l) as [<- Hm]; [done..|]. destruct (IH _ Hm) as [<- ?]. split; [done|]. by constructor.
  - split; [done|]. by constructor.
Qed.

Lemma merge_stack_agree st : Forall (from_option (Forall P) True) st ->
  merge_stack R st = merge_stack R' st /\ Forall P (merge_stack R st).
Proof.
  induction 1 as [|[l'|] st Hl' Hst [IH IH']]; cbn [merge_stack]; [done| |done]. rewrite <- IH. by apply list_merge_agree.
Qed.

Lemma merge_sort_agree l : Forall P l -> merge_sort R l = merge_sort R' l.
Proof.
  unfold merge_sort. intros Hl. assert (Forall (from_option (Forall P) True) []) as Hst by constructor. revert Hst.
  generalize (@nil (option (list A))) as st. induction Hl as [|x l Hx Hl IH]; intros st Hst; cbn [merge_sort_aux].
  - by apply merge_stack_agree.
  - destruct (merge_list_to_stack_agree st [x]) as [<- ?]; [done|by repeat constructor|]. by apply IH.
Qed.
End sort_agree.

Lemma sort_func_agree {A} (cmp cmp' : A -> A -> comparison) l :
  (forall x y, x ∈ l -> y ∈ l -> cmp x y = cmp' x y) -> sort_func cmp l = sort_func cmp' l.
Proof.
  intros H. apply (merge_sort_agree _ _ (fun x => x ∈ l)); [|by apply Forall_forall].
  intros x y Hx Hy. unfold cle. by rewrite H.
Qed.

(** Reordering one side of a pointwise relation reorders the other. *)
Lemma Forall2_perm_l {A B} (P : A -> B -> Prop) l l' k :
  l' ≡ₚ l -> Forall2 P l k -> exists k', k' ≡ₚ k /\ Forall2 P l' k'.
Proof.
  intros Hp HF. destruct (Permutation.Permutation_Forall2 (symmetry Hp) HF) as (k' & Hk & HF').
  exists k'. split; [by symmetry|done].
Qed.

(** Lists sorted by distinct keys have one order. *)
Lemma sorted_by_key_unique {A} (key : A -> bytes) (l k : list A) :
  StronglySorted (fun x y => bcompare (key x) (key y) <> Gt) l ->
  StronglySorted (fun x y => bcompare (key x) (key y) <> Gt) k ->
  NoDup (key <$> l) -> l ≡ₚ k -> l = k.
Proof.
  intros Hl Hk Hnd Hp. eapply (StronglySorted_unique_strong (fun x y => bcompare (key x) (key y) <> Gt)); [|done..].
  intros x y Hx Hy Hxy Hyx. rewrite (cmp_anti (cmp:=bcompare) (key x) (key y)) in Hyx.
  assert (key x = key y) as E.
  { apply bcompare_eq. by destruct (bcompare (key x) (key y)). }
  rewrite <- Hp in Hy. apply list_elem_of_lookup_1 in Hx as [i Hi], Hy as [j Hj]. rewrite NoDup_alt in Hnd.
  assert (i = j) as ->; [|congruence].
  apply (Hnd _ _ (key x)); rewrite list_lookup_fmap; [by rewrite Hi|rewrite Hj; cbn; by rewrite E].
Qed.

(** [slices.Compact]: drop consecutive repetitions. *)
Fixpoint compact `{EqDecision A} (l : list A) : list A :=
  match l with
  | [] => []
  | x :: l =>
      match l with
      | [] => [x]
      | y :: _ => if decide (x = y) then compact l else x :: compact l
      end
  end.

Lemma elem_of_compact `{EqDecision A} (x : A) l : x ∈ compact l <-> x ∈ l.
Proof.
  induction l as [|y l IH]; [done|]. cbn [compact]. destruct l as [|z l]; [done|].
  case_decide as E; rewrite ?elem_of_cons, IH, !elem_of_cons; naive_solver.
Qed.

Lemma put_get_le b : put_le (length b) (get_le b) = b.
Proof.
  induction b as [|x b IH]; [done|]. cbn [length put_le get_le]. pose proof (b2z_bound x).
  f_equal.
  - rewrite <- (z2b_b2z x) at 2. unfold z2b. f_equal. f_equal. f_equal.
    replace (b2z x + 256 * get_le b) with (b2z x + get_le b * 256) by lia.
    by rewrite Z.mod_add by lia.
  - replace (b2z x + 256 * get_le b) with (b2z x + get_le b * 256) by lia.
    rewrite Z.div_add, Z.div_small by lia. done.
Qed.

(** [binary.LittleEndian.UintN(b[off:])] of a fixed-size array. *)
Definition le_at (off n : nat) (b : bytes) : Z := get_le (take n (drop off b)).

Lemma le_at_app p z n t off :
  off = length p -> 0 <= z < 256 ^ Z.of_nat n -> le_at off n (p ++ put_le n z ++ t) = z.
Proof.
  intros -> Hz. unfold le_at. rewrite drop_app_length.
  rewrite take_app_length' by by rewrite length_put_le. by apply get_put_le_small.
Qed.

Lemma lxor_range a b n : 0 <= n -> 0 <= a < 2^n -> 0 <= b < 2^n -> 0 <= Z.lxor a b < 2^n.
Proof.
  intros Hn Ha Hb. split; [by apply Z.lxor_nonneg; lia|].
  rewrite <- (Z.mod_small a (2^n)), <- (Z.mod_small b (2^n)) by done.
  rewrite <- !Z.land_ones by done.
  assert (Z.lxor (Z.land a (Z.ones n)) (Z.land b (Z.ones n)) =
          Z.land (Z.lxor a b) (Z.ones n)) as ->.
  { apply Z.bits_inj'. intros k Hk. rewrite Z.lxor_spec, !Z.land_spec, Z.lxor_spec.
    by destruct (Z.testbit a k), (Z.testbit b k), (Z.testbit (Z.ones n) k). }
  rewrite Z.land_ones by done. apply Z.mod_pos_bound. lia.
Qed.

Arguments zlen : simpl never.
Arguments slice : simpl never.
Arguments index : simpl never.
Arguments le_at : simpl never.
Arguments u64 : simpl never.
Arguments i64 : simpl never.
Arguments i32 : simpl never.

(** Keys without duplicates tell the elements apart. *)
Lemma NoDup_fmap_inj {A B} (f : A -> B) (l : list A) x y :
  NoDup (f <$> l) -> x ∈ l -> y ∈ l -> f x = f y -> x = y.
Proof.
  induction l as [|z l IH]; [by intros _ Hx%elem_of_nil|]. cbn. intros [Hz Hnd]%NoDup_cons Hx Hy E.
  apply elem_of_cons in Hx as [->|Hx]; apply elem_of_cons in Hy as [->|Hy]; [done| | |by apply IH].
  - destruct Hz. rewrite E. by apply list_elem_of_fmap_2.
  - destruct Hz. rewrite <- E. by apply list_elem_of_fmap_2.
Qed.

(** * Automation

    [autorewrite with zlen] computes lengths; [auto with go] knows the ranges of lengths,
    bytes and fixed-width integers, for [lia]. *)
Create HintDb go.
#[export] Hint Resolve zlen_nonneg b2z_bound u64_range i64_range i32_range b2z_inj : go.
Create Rewrite HintDb zlen.
#[export] Hint Rewrite @zlen_app @zlen_cons @zlen_nil @zlen_fmap : zlen.

(** Linear arithmetic on lengths. *)
Ltac zlen_lia := autorewrite with zlen in *; repeat match goal with
  | |- context [zlen ?l] => lazymatch goal with _ : 0 <= zlen l |- _ => fail | _ => pose proof (zlen_nonneg l) end
  | _ : context [zlen ?l] |- _ => lazymatch goal with _ : 0 <= zlen l |- _ => fail | _ => pose proof (zlen_nonneg l) end
  end; lia.
