(* ===== verification/Varint.v ===== *)
(** Variable-length integers.

    [internal/tgb/varint.go]: the thin wrappers around Go's [encoding/binary]
    varints and the zigzag mapping; [internal/streaming/wire/wire.go]: the size
    of a varint.  [AppendUvarint] and [Uvarint] are Go's standard library, with
    its loops, its 10-byte limit and its overflow check. *)
From Stdlib Require Import ZArith Lia.
From S2P Require Import Prelude.

Local Open Scope Z_scope.

(** [binary.MaxVarintLen64] *)
Definition MaxVarintLen64 : nat := 10.

(** [for x >= 0x80 { b = append(b, byte(x)|0x80); x >>= 7 }; append(b, byte(x))]
    on a [uint64]: ten rounds are enough. *)
Fixpoint uvarint_bytes (fuel : nat) (x : Z) : bytes :=
  match fuel with
  | O => []
  | S fuel =>
      if decide (128 <= x)
      then z2b (Z.lor (x mod 256) 128) :: uvarint_bytes fuel (Z.shiftr x 7)
      else [z2b x]
  end.

Definition AppendUvarint (b : bytes) (x : Z) : bytes :=
  b ++ uvarint_bytes MaxVarintLen64 x.

(** The loop of [binary.Uvarint] from its [i]-th byte, with accumulator [x]
    and shift [s]; the second component is the number of bytes read, zero when
    the input is too short and negative on overflow. *)
Fixpoint uvarint_loop (buf : bytes) (i : nat) (x s : Z) : Z * Z :=
  match buf with
  | [] => (0, 0)
  | b :: buf =>
      if decide (i = MaxVarintLen64) then (0, - (Z.of_nat i + 1))
      else if decide (b2z b < 128) then
        if decide (i = Nat.pred MaxVarintLen64 /\ 1 < b2z b)
        then (0, - (Z.of_nat i + 1))
        else (Z.lor x (u64 (Z.shiftl (b2z b) s)), Z.of_nat i + 1)
      else uvarint_loop buf (S i)
             (Z.lor x (u64 (Z.shiftl (Z.land (b2z b) 127) s))) (s + 7)
  end.

Definition Uvarint (buf : bytes) : Z * Z := uvarint_loop buf 0 0 0.

Definition appendUvarint (b : bytes) (v : Z) : bytes := AppendUvarint b v.

Definition readUvarint (b : bytes) : Z * Z := Uvarint b.

(** [u := uint64((v << 1) ^ (v >> 63))] on an [int64]. *)
Definition appendZigzag (b : bytes) (v : Z) : bytes :=
  let u := u64 (Z.lxor (i64 (Z.shiftl v 1)) (Z.shiftr v 63)) in
  AppendUvarint b u.

(** [int64((u >> 1) ^ -(u & 1))], the negation being on [uint64]. *)
Definition readZigzag (b : bytes) : Z * Z :=
  let '(u, n) := Uvarint b in
  (i64 (Z.lxor (Z.shiftr u 1) (u64 (- Z.land u 1))), n).

(** [wire.VarintSize]: [n := 1; for x >= 0x80 { x >>= 7; n++ }]. *)
Fixpoint varint_size_loop (fuel : nat) (x n : Z) : Z :=
  match fuel with
  | O => n
  | S fuel => if decide (128 <= x) then varint_size_loop fuel (Z.shiftr x 7) (n + 1) else n
  end.

Definition VarintSize (x : Z) : Z := varint_size_loop MaxVarintLen64 x 1.

(** * The loops in arithmetic form *)

(** Or-ing digits that do not overlap adds them. *)
Lemma lor_add_pow2 x d s :
  0 <= s -> 0 <= x < 2^s -> Z.lor x (d * 2^s) = x + d * 2^s.
Proof.
  intros Hs Hx. symmetry. apply Z.add_nocarry_lor, Z.bits_inj'. intros n Hn.
  rewrite Z.land_spec, Z.bits_0. destruct (Z.ltb_spec n s).
  - by rewrite Z.mul_pow2_bits_low, andb_false_r by lia.
  - rewrite <- (Z.mod_small x (2^s)) by lia. by rewrite Z.mod_pow2_bits_high by lia.
Qed.

Lemma low7_byte x : 0 <= x -> Z.lor (x mod 256) 128 = 128 + x mod 128.
Proof.
  intros Hx.
  assert (Hlow : forall y, 0 <= y < 128 -> Z.lor y 128 = y + 128).
  { intros y Hy. apply (lor_add_pow2 y 1 7); lia. }
  replace (x mod 256) with (x mod 128 + 128 * ((x / 128) mod 2)).
  2: { change 256 with (128 * 2). by rewrite Z.rem_mul_r by lia. }
  pose proof (Z.mod_pos_bound x 128 eq_refl).
  destruct (Z.mod_pos_bound (x / 128) 2 eq_refl) as [H0 H1].
  assert ((x / 128) mod 2 = 0 \/ (x / 128) mod 2 = 1) as [->| ->] by lia.
  - rewrite Z.mul_0_r, Z.add_0_r, Hlow; lia.
  - rewrite Z.mul_1_r, <- (Hlow (x mod 128)), <- Z.lor_assoc by lia.
    change (Z.lor 128 128) with 128. rewrite Hlow; lia.
Qed.

Lemma uvarint_bytes_S fuel x :
  0 <= x ->
  uvarint_bytes (S fuel) x =
    if decide (128 <= x) then z2b (128 + x mod 128) :: uvarint_bytes fuel (x / 128)
    else [z2b x].
Proof.
  intros Hx. cbn [uvarint_bytes]. case_decide; [|done].
  by rewrite low7_byte, Z.shiftr_div_pow2 by lia.
Qed.

(** Accumulating a 7-bit digit above what was read so far is an addition. *)
Lemma lor_digit x d s :
  0 <= s -> 0 <= x < 2^s -> 0 <= d -> d * 2^s < 2^64 ->
  Z.lor x (u64 (Z.shiftl d s)) = x + d * 2^s.
Proof.
  intros Hs Hx Hd Hb. rewrite Z.shiftl_mul_pow2 by lia.
  rewrite u64_small by lia. by apply lor_add_pow2.
Qed.

(** * Round trip *)

(** From the [i]-th byte on, the loop reads back the digits that
    [uvarint_bytes] writes for [v], stops there, and leaves [rest] unread. *)
Lemma uvarint_loop_bytes fuel i x v rest :
  (i + fuel = MaxVarintLen64)%nat -> (0 < fuel)%nat ->
  0 <= v -> v * 2^(7 * Z.of_nat i) < 2^64 -> 0 <= x < 2^(7 * Z.of_nat i) ->
  uvarint_loop (uvarint_bytes fuel v ++ rest) i x (7 * Z.of_nat i) =
    (x + v * 2^(7 * Z.of_nat i),
     Z.of_nat i + zlen (uvarint_bytes fuel v)).
Proof.
  unfold MaxVarintLen64. revert i x v.
  induction fuel as [|fuel IH]; intros i x v Hi Hf Hv Hb Hx; [lia|].
  rewrite uvarint_bytes_S by done.
  set (s := 7 * Z.of_nat i) in *. assert (0 <= s) by lia.
  pose proof (Z.mod_pos_bound v 128 eq_refl).
  case_decide as Hbig; cbn [app uvarint_loop]; unfold MaxVarintLen64;
    rewrite (decide_False (P := i = 10%nat)) by lia;
    rewrite b2z_z2b_small by lia.
  - rewrite decide_False by lia.
    assert (v = 128 * (v / 128) + v mod 128) as Hdiv by (apply Z.div_mod; lia).
    assert (0 <= v / 128) by (apply Z.div_pos; lia).
    assert (2^(s + 7) = 2^s * 128) as Hpow by (rewrite Z.pow_add_r by lia; lia).
    assert (0 < 2^s) by lia.
    assert (Z.land (128 + v mod 128) 127 = v mod 128) as ->.
    { change 127 with (Z.ones 7). rewrite Z.land_ones by lia.
      change (2^7) with 128. replace (128 + v mod 128) with (v mod 128 + 1 * 128) by lia.
      rewrite Z.mod_add by lia. by apply Z.mod_small. }
    rewrite lor_digit by nia.
    assert (v / 128 * 2^(s + 7) < 2^64) by (rewrite Hpow; nia).
    assert (1 <= fuel)%nat.
    { destruct fuel; [|lia]. exfalso. subst s. assert (i = 9%nat) as -> by lia.
      change (2^(7 * Z.of_nat 9)) with (2^63) in *. lia. }
    assert (s + 7 = 7 * Z.of_nat (S i)) as Hs by lia.
    rewrite Hs in *. rewrite IH by (try rewrite Hpow; nia). rewrite zlen_cons.
    f_equal; [rewrite Hpow; nia|lia].
  - rewrite decide_True by lia.
    rewrite decide_False.
    2: { intros [-> Hv1]. subst s. cbn [Nat.pred] in *.
         change (2^(7 * Z.of_nat 9)) with (2^63) in *. lia. }
    rewrite lor_digit by lia. unfold zlen; cbn [length]. f_equal; lia.
Qed.

(** [Uvarint(AppendUvarint(nil, x) ++ rest)] reads [x] back and leaves [rest]. *)
Lemma Uvarint_bytes x rest :
  0 <= x < 2^64 ->
  Uvarint (uvarint_bytes MaxVarintLen64 x ++ rest) =
    (x, zlen (uvarint_bytes MaxVarintLen64 x)).
Proof.
  intros Hx. unfold Uvarint. change 0 with (7 * Z.of_nat 0) at 2.
  rewrite uvarint_loop_bytes; unfold MaxVarintLen64; cbn -[uvarint_bytes]; try lia.
  f_equal. lia.
Qed.

Lemma zlen_uvarint_bytes_pos x : 0 < zlen (uvarint_bytes MaxVarintLen64 x).
Proof.
  unfold MaxVarintLen64. cbn [uvarint_bytes]. case_decide; rewrite zlen_cons;
  match goal with |- context [zlen ?l] => pose proof (zlen_nonneg l) end; lia.
Qed.

Lemma uvarint_bytes_nonempty x : (0 < length (uvarint_bytes MaxVarintLen64 x))%nat.
Proof. pose proof (zlen_uvarint_bytes_pos x). unfold zlen in *. lia. Qed.

Lemma drop_uvarint x rest :
  drop (Z.to_nat (zlen (uvarint_bytes MaxVarintLen64 x)))
    (uvarint_bytes MaxVarintLen64 x ++ rest) = rest.
Proof. unfold zlen. by rewrite Nat2Z.id, drop_app_length. Qed.

(** * Zigzag *)

(** The zigzag image of an [int64]: non-negative numbers map to the even
    [uint64]s and negative ones to the odd ones. *)
Definition zigzag_spec (v : Z) : Z := if decide (0 <= v) then 2 * v else - 2 * v - 1.

Lemma i64_cong z : exists k, i64 z = z + k * 2^64.
Proof.
  exists (- ((z + 2^63) / 2^64)). unfold i64.
  pose proof (Z.div_mod (z + 2^63) (2^64)). lia.
Qed.

Lemma u64_cong z k : u64 (z + k * 2^64) = u64 z.
Proof. unfold u64. by rewrite Z.mod_add by lia. Qed.

Lemma zigzag_encode v :
  -2^63 <= v < 2^63 ->
  u64 (Z.lxor (i64 (Z.shiftl v 1)) (Z.shiftr v 63)) = zigzag_spec v.
Proof.
  intros Hv. rewrite Z.shiftl_mul_pow2, Z.shiftr_div_pow2 by lia.
  change (2^1) with 2. unfold zigzag_spec. destruct (i64_cong (v * 2)) as [k Hk].
  case_decide.
  - rewrite Z.div_small, Z.lxor_0_r, Hk, u64_cong by lia. rewrite u64_small; lia.
  - assert (v / 2^63 = -1) as -> by (symmetry; apply (Z.div_unique _ _ _ (v + 2^63)); lia).
    rewrite Z.lxor_m1_r, Hk. unfold Z.lnot.
    replace (Z.pred (- (v * 2 + k * 2^64))) with (-2 * v - 1 + (-k) * 2^64) by lia.
    rewrite u64_cong, u64_small; lia.
Qed.

Lemma lxor_ones64 x : 0 <= x < 2^64 -> Z.lxor x (2^64 - 1) = 2^64 - 1 - x.
Proof.
  intros Hx. change (2^64 - 1) with (Z.ones 64).
  enough (x + Z.lxor x (Z.ones 64) = Z.ones 64) by lia.
  rewrite Z.add_nocarry_lxor.
  - by rewrite <- Z.lxor_assoc, Z.lxor_nilpotent, Z.lxor_0_l.
  - rewrite <- (Z.mod_small x (2^64)) by lia. rewrite <- Z.land_ones by lia.
    apply Z.bits_inj'. intros n Hn. rewrite !Z.land_spec, Z.lxor_spec, Z.land_spec, Z.bits_0.
    destruct (Z.testbit x n), (Z.testbit (Z.ones 64) n); done.
Qed.

Lemma zigzag_decode v :
  -2^63 <= v < 2^63 ->
  i64 (Z.lxor (Z.shiftr (zigzag_spec v) 1) (u64 (- Z.land (zigzag_spec v) 1))) = v.
Proof.
  intros Hv. rewrite Z.shiftr_div_pow2 by lia. change (2^1) with 2.
  change 1 with (Z.ones 1) at 1. rewrite Z.land_ones by lia. change (2^1) with 2.
  unfold zigzag_spec. case_decide.
  - replace (2 * v) with (v * 2) by lia. rewrite Z.div_mul, Z.mod_mul by lia.
    change (u64 (-0)) with 0. rewrite Z.lxor_0_r. apply i64_small. lia.
  - replace (-2 * v - 1) with (1 + (- v - 1) * 2) by lia.
    rewrite Z.div_add, Z.mod_add by lia. change (1 / 2) with 0. change (1 mod 2) with 1.
    change (u64 (-1)) with (2^64 - 1). rewrite lxor_ones64 by lia.
    replace (2^64 - 1 - (0 + (- v - 1))) with (v + 1 * 2^64) by lia.
    unfold i64. replace (v + 1 * 2^64 + 2^63) with (v + 2^63 + 1 * 2^64) by lia.
    rewrite Z.mod_add by lia. rewrite Z.mod_small; lia.
Qed.

Lemma zigzag_spec_range v : -2^63 <= v < 2^63 -> 0 <= zigzag_spec v < 2^64.
Proof. unfold zigzag_spec. case_decide; lia. Qed.

(** The bytes [appendZigzag] writes. *)
Definition zigzag_bytes (v : Z) : bytes := uvarint_bytes MaxVarintLen64 (zigzag_spec v).

Lemma appendZigzag_bytes b v : -2^63 <= v < 2^63 -> appendZigzag b v = b ++ zigzag_bytes v.
Proof. intros Hv. unfold appendZigzag, AppendUvarint. by rewrite zigzag_encode. Qed.

Lemma readZigzag_bytes v rest :
  -2^63 <= v < 2^63 ->
  readZigzag (zigzag_bytes v ++ rest) = (v, zlen (zigzag_bytes v)).
Proof.
  intros Hv. unfold readZigzag, zigzag_bytes.
  rewrite Uvarint_bytes by by apply zigzag_spec_range.
  by rewrite zigzag_decode.
Qed.

(** * Sizes *)

Lemma varint_size_loop_bytes fuel x n :
  (0 < fuel)%nat -> 0 <= x -> x < 2^(7 * Z.of_nat fuel) ->
  varint_size_loop fuel x n = n - 1 + zlen (uvarint_bytes fuel x).
Proof.
  revert x n. induction fuel as [|fuel IH]; intros x n Hf Hx Hb; [lia|].
  rewrite uvarint_bytes_S by done. cbn [varint_size_loop]. case_decide.
  - rewrite Z.shiftr_div_pow2 by lia. change (2^7) with 128.
    rewrite zlen_cons. destruct fuel as [|fuel].
    { change (2^(7 * Z.of_nat 1)) with 128 in Hb. lia. }
    rewrite IH; try lia.
    + apply Z.div_pos; lia.
    + apply Z.div_lt_upper_bound; [lia|].
      rewrite (Nat2Z.inj_succ (S fuel)), Z.mul_succ_r, Z.pow_add_r in Hb by lia. lia.
  - unfold zlen; cbn [length]. lia.
Qed.

(** A varint takes between one and ten bytes, one per seven bits. *)
Lemma zlen_uvarint_bytes_le fuel x : zlen (uvarint_bytes fuel x) <= Z.of_nat fuel.
Proof.
  revert x. induction fuel as [|fuel IH]; intros x; [unfold zlen; cbn; lia|].
  cbn [uvarint_bytes]. case_decide; rewrite zlen_cons.
  - specialize (IH (Z.shiftr x 7)). lia.
  - unfold zlen; cbn [length]. lia.
Qed.

(** * The decoder on arbitrary input *)

(** Whatever the input, a successful read consumes between one byte and the
    smaller of ten bytes and the whole input, and yields a [uint64]. *)
Lemma uvarint_loop_bound buf i x s :
  0 <= x < 2^64 -> (i <= 10)%nat ->
  let '(v, n) := uvarint_loop buf i x s in
  0 <= v < 2^64 /\ (0 < n -> Z.of_nat i < n <= Z.of_nat i + zlen buf /\ n <= 10).
Proof.
  revert i x s. induction buf as [|b buf IH]; intros i x s Hx Hi; cbn [uvarint_loop].
  { unfold zlen; cbn. lia. }
  assert (Hor : forall d, 0 <= Z.lor x (u64 d) < 2^64).
  { intros d. pose proof (u64_range d). split; [apply Z.lor_nonneg; lia|].
    destruct (decide (Z.lor x (u64 d) = 0)) as [->|]; [lia|].
    assert (0 <= Z.lor x (u64 d)) by (apply Z.lor_nonneg; lia).
    apply Z.log2_lt_pow2; [lia|]. rewrite Z.log2_lor by lia.
    apply Z.max_lub_lt.
    - destruct (decide (x = 0)) as [->|]; [cbn; lia|]. apply Z.log2_lt_pow2; lia.
    - destruct (decide (u64 d = 0)) as [->|]; [cbn; lia|]. apply Z.log2_lt_pow2; lia. }
  pose proof (zlen_nonneg buf). unfold MaxVarintLen64; rewrite zlen_cons.
  case_decide; [lia|]. case_decide; [case_decide; [lia|split; [apply Hor|lia]]|].
  specialize (IH (S i) (Z.lor x (u64 (Z.shiftl (Z.land (b2z b) 127) s))) (s + 7)).
  destruct (uvarint_loop _ _ _ _) as [v n]. destruct IH as [? IH]; [apply Hor|lia|].
  split; [done|]. intros Hn. specialize (IH Hn). lia.
Qed.

Lemma Uvarint_bound buf v n :
  Uvarint buf = (v, n) -> 0 <= v < 2^64 /\ (0 < n -> 1 <= n <= zlen buf /\ n <= 10).
Proof.
  intros E. unfold Uvarint in E.
  pose proof (uvarint_loop_bound buf 0 0 0 ltac:(lia) ltac:(lia)) as Hb.
  rewrite E in Hb. lia.
Qed.

(** * Properties *)

(** Both varint codecs of a blob are lossless on their whole 64-bit range,
    whatever precedes the number in the output buffer and whatever follows it
    in the input: reading back at the position where it was appended yields the
    number and the exact count of bytes appended; and [VarintSize] predicts that
    count, between 1 and 10. *)
Theorem varint_roundtrip (b rest : bytes) (x v : Z) :
  0 <= x < 2^64 -> -2^63 <= v < 2^63 ->
  readUvarint (drop (length b) (appendUvarint b x) ++ rest)
    = (x, zlen (appendUvarint b x) - zlen b) /\
  readZigzag (drop (length b) (appendZigzag b v) ++ rest)
    = (v, zlen (appendZigzag b v) - zlen b) /\
  VarintSize x = zlen (appendUvarint b x) - zlen b /\
  1 <= VarintSize x <= 10.
Proof.
  intros Hx Hv. unfold appendUvarint. rewrite appendZigzag_bytes by done.
  unfold AppendUvarint. rewrite !drop_app_length, !zlen_app, !Z.add_simpl_l.
  assert (VarintSize x = zlen (uvarint_bytes MaxVarintLen64 x)) as ->.
  { unfold VarintSize. rewrite varint_size_loop_bytes; unfold MaxVarintLen64; lia. }
  split; [by apply Uvarint_bytes|]. split; [by apply readZigzag_bytes|].
  split; [done|]. pose proof (zlen_uvarint_bytes_pos x).
  pose proof (zlen_uvarint_bytes_le MaxVarintLen64 x). unfold MaxVarintLen64 in *. lia.
Qed.

Lemma varint_roundtrip_witness :
  readZigzag (drop 1 (appendZigzag [xff] (-2^63)) ++ [x01]) = (-2^63, 10) /\ VarintSize 300 = 2.
Proof.
  pose proof (varint_roundtrip [xff] [x01] 300 (-2^63) ltac:(lia) ltac:(lia)) as H.
  split; [exact (proj1 (proj2 H))|exact (proj1 (proj2 (proj2 H)))].
Defined.

Arguments uvarint_bytes : simpl never.
Arguments Uvarint : simpl never.
