(* ===== verification/Format.v ===== *)
(** The TGB container: header, footer and column directory
    ([internal/tgb/format.go]), with the CRC-32C of Go's [hash/crc32]. *)
From Stdlib Require Import ZArith Lia.
From S2P Require Import Prelude Varint.

Local Open Scope Z_scope.

(** * Constants *)

Definition magic : bytes := bs "TGB1".
Definition formatVersion : Z := 3.
Definition headerSize : Z := 64.
Definition footerSize : Z := 16.
Definition maxDirectoryEntries : Z := 64.
Definition maxColumnRawSize : Z := Z.shiftl 1 30.
Definition maxTotalRawFactor : Z := 16.
Definition maxTotalRawFloor : Z := Z.shiftl 4 20.
Definition maxDictExpansionFactor : Z := 32.
Definition maxDictExpansionFloor : Z := Z.shiftl 1 20.
Definition flagRevCSR : Z := Z.shiftl 1 1.

Definition colPkgDict : Z := 1.
Definition colNameDict : Z := 2.
Definition colNodePkg : Z := 3.
Definition colNodeName : Z := 4.
Definition colHash : Z := 5.
Definition colDeg : Z := 6.
Definition colDeps : Z := 7.
Definition colRuleType : Z := 8.
Definition colRuleTypeDict : Z := 9.
Definition colTagDeg : Z := 10.
Definition colTags : Z := 11.
Definition colTagDict : Z := 12.
Definition colAttrDeg : Z := 13.
Definition colAttrName : Z := 14.
Definition colAttrValue : Z := 15.
Definition colAttrNameDict : Z := 16.
Definition colAttrValueDict : Z := 17.
Definition colFlags : Z := 18.
Definition colBlockDigest : Z := 19.
Definition colBlockStart : Z := 20.
Definition colNodeIndex : Z := 21.
Definition colAllTargetsFileHashes : Z := 22.

Definition codecRaw : Z := 0.
Definition codecZstd : Z := 1.

(** [crc32.Checksum(b, crc32.MakeTable(crc32.Castagnoli))], bit by bit with
    the reversed Castagnoli polynomial. *)
Definition castagnoli : Z := 0x82F63B78.

Definition crc_bit (crc : Z) : Z :=
  if decide (crc mod 2 = 1)
  then Z.lxor (Z.shiftr crc 1) castagnoli
  else Z.shiftr crc 1.

Definition crc_byte (crc : Z) (b : byte) : Z :=
  Nat.iter 8 crc_bit (Z.lxor crc (b2z b)).

Definition crc32c (b : bytes) : Z :=
  Z.lxor (foldl crc_byte 0xFFFFFFFF b) 0xFFFFFFFF.

(** * Header *)

Record fileHeader := {
  nodeCount : Z;
  edgeCount : Z;
  blockSize : Z;
  flags : Z;
  hashBytes : Z;
}.

#[export] Instance fileHeader_eq_dec : EqDecision fileHeader.
Proof. solve_decision. Defined.

(** Bytes 0..55: the part the checksum covers. *)
Definition header_body (h : fileHeader) : bytes :=
  magic ++ put_le 2 formatVersion ++ put_le 2 (flags h) ++
  put_le 8 (nodeCount h) ++ put_le 8 (edgeCount h) ++ put_le 8 (blockSize h) ++
  put_le 2 (hashBytes h) ++ replicate 22 x00.

Definition encodeHeader (h : fileHeader) : bytes :=
  header_body h ++ put_le 4 (crc32c (header_body h)) ++ replicate 4 x00.

Definition decodeHeader (b : bytes) : res fileHeader :=
  if decide (take 4 b = magic) then
    let ver := le_at 4 2 b in
    _ ← guard_err (bool_decide (ver <> formatVersion)) "unsupported version";
    let crc := crc32c (take 56 b) in
    let stored := le_at 56 4 b in
    _ ← guard_err (bool_decide (crc <> stored)) "header CRC mismatch";
    let hb := le_at 32 2 b in
    if decide (hb = 8 \/ hb = 16 \/ hb = 20) then
      Ok {| nodeCount := le_at 8 8 b; edgeCount := le_at 16 8 b;
            blockSize := le_at 24 8 b; flags := le_at 6 2 b; hashBytes := hb |}
    else Err "invalid hash stride"
  else Err "bad magic".

(** * Footer *)

Record fileFooter := { dirOffset : Z; dirCRC : Z }.

Definition encodeFooter (f : fileFooter) : bytes :=
  put_le 8 (dirOffset f) ++ put_le 4 (dirCRC f) ++ magic.

Definition decodeFooter (b : bytes) : res fileFooter :=
  if decide (take 4 (drop 12 b) = magic)
  then Ok {| dirOffset := le_at 0 8 b; dirCRC := le_at 8 4 b |}
  else Err "bad footer magic".

(** * Column directory *)

Record colEntry := {
  ce_id : Z;
  ce_codec : Z;
  ce_offset : Z;
  ce_compressedSize : Z;
  ce_rawSize : Z;
}.

#[export] Instance colEntry_eq_dec : EqDecision colEntry.
Proof. solve_decision. Defined.

Definition encode_entry (e : colEntry) : bytes :=
  uvarint_bytes MaxVarintLen64 (ce_id e) ++ [z2b (ce_codec e)] ++
  uvarint_bytes MaxVarintLen64 (ce_offset e) ++
  uvarint_bytes MaxVarintLen64 (ce_compressedSize e) ++
  uvarint_bytes MaxVarintLen64 (ce_rawSize e).

Definition encodeDirectory (entries : list colEntry) : bytes :=
  uvarint_bytes MaxVarintLen64 (zlen entries) ++ concat (encode_entry <$> entries).

(** [v, sz := binary.Uvarint(b); if sz <= 0 { return err }; b = b[sz:]] *)
Definition take_uvarint (msg : string) (b : bytes) : res (Z * bytes) :=
  let '(v, sz) := Uvarint b in
  if decide (sz <= 0) then Err msg else Ok (v, drop (Z.to_nat sz) b).
Arguments take_uvarint msg%_string_scope b.

Definition decode_entry (b : bytes) : res (colEntry * bytes) :=
  '(id, b) ← take_uvarint "truncated column id" b;
  match b with
  | [] => Err "truncated codec byte"
  | codec :: b =>
      '(off, b) ← take_uvarint "truncated offset" b;
      '(comp, b) ← take_uvarint "truncated compressedSize" b;
      '(raw, b) ← take_uvarint "truncated rawSize" b;
      Ok ({| ce_id := id; ce_codec := b2z codec; ce_offset := off;
             ce_compressedSize := comp; ce_rawSize := raw |}, b)
  end.

Fixpoint decode_entries (n : nat) (b : bytes) : res (list colEntry) :=
  match n with
  | O => Ok []
  | S n =>
      '(e, b) ← decode_entry b;
      es ← decode_entries n b;
      Ok (e :: es)
  end.

Definition decodeDirectory (b : bytes) : res (list colEntry) :=
  '(n, b) ← take_uvarint "truncated directory count" b;
  _ ← guard_err (bool_decide (maxDirectoryEntries < n)) "directory claims too many columns";
  decode_entries (Z.to_nat n) b.

Arguments take_uvarint : simpl never.
Arguments decode_entry : simpl never.

(** * Lemmas *)

(** The check value published for CRC-32C. *)
Lemma crc32c_check_value : crc32c (bs "123456789") = 0xE3069283.
Proof. vm_compute. reflexivity. Qed.

Lemma take_uvarint_bytes msg x rest :
  0 <= x < 2^64 -> take_uvarint msg (uvarint_bytes MaxVarintLen64 x ++ rest) = Ok (x, rest).
Proof.
  intros Hx. unfold take_uvarint. rewrite Uvarint_bytes by done.
  rewrite decide_False by (pose proof (zlen_uvarint_bytes_pos x); lia).
  by rewrite drop_uvarint.
Qed.

Lemma take_uvarint_Ok msg b v rest :
  take_uvarint msg b = Ok (v, rest) ->
  0 <= v < 2^64 /\ (length rest < length b)%nat /\ exists k, rest = drop k b.
Proof.
  unfold take_uvarint. destruct (Uvarint b) as [v' n] eqn:E. case_decide; [done|].
  intros [= -> <-]. destruct (Uvarint_bound _ _ _ E) as [Hv Hn].
  split; [done|]. rewrite length_drop. unfold zlen in Hn. split; [lia|eauto].
Qed.

Lemma take_uvarint_not_panic msg b : take_uvarint msg b <> Panic.
Proof. unfold take_uvarint. destruct (Uvarint b). by case_decide. Qed.


#[local] Opaque crc_bit.

Lemma crc_bit_range c : 0 <= c < 2^32 -> 0 <= crc_bit c < 2^32.
Proof.
  intros Hc. Local Transparent crc_bit. unfold crc_bit. rewrite Z.shiftr_div_pow2 by lia. change (2^1) with 2.
  pose proof (Z.div_pos c 2 ltac:(lia) ltac:(lia)).
  assert (c / 2 < 2^32) by (apply Z.div_lt_upper_bound; lia).
  case_decide; [|lia]. apply lxor_range; unfold castagnoli; lia.
Qed.

Lemma crc_byte_range c b : 0 <= c < 2^32 -> 0 <= crc_byte c b < 2^32.
Proof.
  intros Hc. unfold crc_byte. pose proof (b2z_bound b).
  assert (0 <= Z.lxor c (b2z b) < 2^32) by (apply lxor_range; lia).
  cbn [Nat.iter nat_rect]. by do 8 apply crc_bit_range.
Qed.

Lemma crc32c_range b : 0 <= crc32c b < 2^32.
Proof.
  unfold crc32c. apply lxor_range; [lia| |lia].
  assert (forall c, 0 <= c < 2^32 -> 0 <= foldl crc_byte c b < 2^32) as H.
  { induction b as [|x b IH]; intros c Hc; [exact Hc|]. apply IH, crc_byte_range, Hc. }
  apply H. lia.
Qed.

#[local] Opaque crc32c.

(** A header whose fields fit their widths and whose stride is one of the
    three the format allows. *)
Definition header_ok (h : fileHeader) : Prop :=
  0 <= nodeCount h < 2^64 /\ 0 <= edgeCount h < 2^64 /\ 0 <= blockSize h < 2^64 /\
  0 <= flags h < 2^16 /\ (hashBytes h = 8 \/ hashBytes h = 16 \/ hashBytes h = 20).

#[export] Instance header_ok_dec h : Decision (header_ok h).
Proof. unfold header_ok. apply _. Defined.

Lemma header_body_length h : length (header_body h) = 56%nat.
Proof. reflexivity. Qed.

Lemma encodeHeader_length h : length (encodeHeader h) = 64%nat.
Proof. reflexivity. Qed.

(** [le_at off n] reads the field that the encoder placed there. *)
Ltac read_field pre :=
  match goal with |- le_at ?off ?n ?l = ?z =>
    let E := fresh in
    eassert (l = pre ++ put_le n z ++ _) as E by
      (unfold encodeHeader, header_body, encodeFooter; rewrite <- ?app_assoc; reflexivity);
    rewrite E; apply le_at_app; [reflexivity|lia]
  end.

Lemma decode_encode_header h : header_ok h -> decodeHeader (encodeHeader h) = Ok h.
Proof.
  intros (Hn & He & Hb & Hf & Hh). pose proof (crc32c_range (header_body h)).
  assert (le_at 4 2 (encodeHeader h) = formatVersion) as Hver.
  { unfold formatVersion. read_field magic. }
  assert (le_at 6 2 (encodeHeader h) = flags h) as Hfl.
  { read_field (magic ++ put_le 2 formatVersion). }
  assert (le_at 8 8 (encodeHeader h) = nodeCount h) as Hnc.
  { read_field (magic ++ put_le 2 formatVersion ++ put_le 2 (flags h)). }
  assert (le_at 16 8 (encodeHeader h) = edgeCount h) as Hec.
  { read_field (magic ++ put_le 2 formatVersion ++ put_le 2 (flags h) ++
      put_le 8 (nodeCount h)). }
  assert (le_at 24 8 (encodeHeader h) = blockSize h) as Hbs.
  { read_field (magic ++ put_le 2 formatVersion ++ put_le 2 (flags h) ++
      put_le 8 (nodeCount h) ++ put_le 8 (edgeCount h)). }
  assert (le_at 32 2 (encodeHeader h) = hashBytes h) as Hhb.
  { read_field (magic ++ put_le 2 formatVersion ++ put_le 2 (flags h) ++
      put_le 8 (nodeCount h) ++ put_le 8 (edgeCount h) ++ put_le 8 (blockSize h)). }
  assert (le_at 56 4 (encodeHeader h) = crc32c (header_body h)) as Hcrc.
  { read_field (header_body h). }
  assert (take 56 (encodeHeader h) = header_body h) as Hbody by reflexivity.
  unfold decodeHeader. rewrite decide_True by done.
  rewrite Hver, Hbody, Hcrc, Hhb, Hfl, Hnc, Hec, Hbs, !bool_decide_false by (intros []; done).
  cbn. rewrite decide_True by done. by destruct h.
Qed.

Lemma take_drop_app k n m (b : bytes) :
  take n (drop k b) ++ take m (drop (k + n) b) = take (n + m) (drop k b).
Proof. by rewrite <- drop_drop, take_take_drop. Qed.

Lemma put_le_at off n b :
  (off + n <= length b)%nat -> put_le n (le_at off n b) = take n (drop off b).
Proof.
  intros Hl. unfold le_at.
  assert (length (take n (drop off b)) = n) as E by (rewrite length_take, length_drop; lia).
  rewrite <- E at 1. apply put_get_le.
Qed.

Lemma le_at_range off n b m :
  m = 256 ^ Z.of_nat n -> 0 <= le_at off n b < m.
Proof.
  intros ->. unfold le_at. pose proof (get_le_bound (take n (drop off b))) as Hb.
  assert (zlen (take n (drop off b)) <= Z.of_nat n) by (unfold zlen; rewrite length_take; lia).
  pose proof (Z.pow_le_mono_r 256 _ _ ltac:(lia) H). lia.
Qed.

(** What [decodeHeader] accepts is, on every byte that is not reserved, what
    [encodeHeader] writes for the header it returns. *)
Lemma decodeHeader_Ok b h :
  length b = 64%nat -> decodeHeader b = Ok h ->
  header_ok h /\ take 34 b = take 34 (encodeHeader h) /\ le_at 56 4 b = crc32c (take 56 b).
Proof.
  intros Hlen. unfold decodeHeader. case_decide as Hm; [|done]. intros H. res_inv.
  rename E into Hver, E0 into Hcrc. case_decide as Hhb; [|done]. injection H as <-.
  split; [|split].
  - refine (conj _ (conj _ (conj _ (conj _ Hhb)))); by apply le_at_range.
  - apply dec_stable in Hver, Hcrc.
    transitivity (magic ++ put_le 2 (le_at 4 2 b) ++ put_le 2 (le_at 6 2 b) ++
      put_le 8 (le_at 8 8 b) ++ put_le 8 (le_at 16 8 b) ++ put_le 8 (le_at 24 8 b) ++
      put_le 2 (le_at 32 2 b)).
    + rewrite !put_le_at by lia. rewrite <- Hm.
      rewrite (take_drop_app 24 8 2), (take_drop_app 16 8 10), (take_drop_app 8 8 18),
        (take_drop_app 6 2 26), (take_drop_app 4 2 28). symmetry. apply (take_drop_app 0 4 30).
    + rewrite Hver. reflexivity.
  - by apply dec_stable in Hcrc.
Qed.

Definition footer_ok (f : fileFooter) : Prop :=
  0 <= dirOffset f < 2^64 /\ 0 <= dirCRC f < 2^32.

#[export] Instance footer_ok_dec f : Decision (footer_ok f).
Proof. unfold footer_ok. apply _. Defined.

Lemma decode_encode_footer f : footer_ok f -> decodeFooter (encodeFooter f) = Ok f.
Proof.
  intros [Ho Hc].
  assert (le_at 0 8 (encodeFooter f) = dirOffset f) as H1 by read_field (@nil byte).
  assert (le_at 8 4 (encodeFooter f) = dirCRC f) as H2 by read_field (put_le 8 (dirOffset f)).
  unfold decodeFooter. rewrite decide_True, H1, H2 by reflexivity. by destruct f.
Qed.

Lemma encodeFooter_length f : length (encodeFooter f) = 16%nat.
Proof. reflexivity. Qed.

Definition entry_ok (e : colEntry) : Prop :=
  0 <= ce_id e < 2^64 /\ 0 <= ce_codec e < 256 /\ 0 <= ce_offset e < 2^64 /\
  0 <= ce_compressedSize e < 2^64 /\ 0 <= ce_rawSize e < 2^64.

#[export] Instance entry_ok_dec e : Decision (entry_ok e).
Proof. unfold entry_ok. apply _. Defined.

Lemma decode_encode_entry e rest :
  entry_ok e -> decode_entry (encode_entry e ++ rest) = Ok (e, rest).
Proof.
  intros (Hi & Hc & Ho & Hz & Hr). unfold encode_entry, decode_entry.
  rewrite <- !app_assoc, take_uvarint_bytes by done. cbn.
  rewrite take_uvarint_bytes by done. cbn. rewrite take_uvarint_bytes by done. cbn.
  rewrite take_uvarint_bytes by done. cbn.
  rewrite b2z_z2b_small by done. by destruct e.
Qed.

Lemma decode_encode_entries es rest :
  Forall entry_ok es ->
  decode_entries (length es) (concat (encode_entry <$> es) ++ rest) = Ok es.
Proof.
  induction 1 as [|e es He _ IH]; [done|].
  cbn [fmap list_fmap concat length decode_entries]. rewrite <- app_assoc.
  rewrite decode_encode_entry by done. cbn. by rewrite IH.
Qed.

Lemma decode_encode_directory es rest :
  Forall entry_ok es -> zlen es <= maxDirectoryEntries ->
  decodeDirectory (encodeDirectory es ++ rest) = Ok es.
Proof.
  intros Hes Hlen. unfold encodeDirectory, decodeDirectory. rewrite <- app_assoc.
  unfold maxDirectoryEntries in *. pose proof (zlen_nonneg es).
  rewrite take_uvarint_bytes by lia. cbn. rewrite bool_decide_false by lia. cbn.
  unfold zlen. rewrite Nat2Z.id. by apply decode_encode_entries.
Qed.

Lemma decode_entry_Ok b e rest :
  decode_entry b = Ok (e, rest) -> entry_ok e /\ (length rest + 5 <= length b)%nat.
Proof.
  unfold decode_entry. intros ([id b1] & E1 & H)%bind_Ok.
  apply take_uvarint_Ok in E1 as (? & ? & _).
  destruct b1 as [|codec b1]; [done|].
  apply bind_Ok in H as ([off b2] & E2 & H). apply take_uvarint_Ok in E2 as (? & ? & _).
  apply bind_Ok in H as ([comp b3] & E3 & H). apply take_uvarint_Ok in E3 as (? & ? & _).
  apply bind_Ok in H as ([raw b4] & E4 & H). apply take_uvarint_Ok in E4 as (? & ? & _).
  injection H as <- <-. cbn [length] in *. pose proof (b2z_bound codec).
  unfold entry_ok; cbn. lia.
Qed.

Lemma decode_entries_Ok n b es :
  decode_entries n b = Ok es ->
  length es = n /\ Forall entry_ok es /\ (5 * n <= length b)%nat.
Proof.
  revert b es. induction n as [|n IH]; intros b es; cbn [decode_entries].
  { intros [= <-]. split; [done|]. split; [done|lia]. }
  intros ([e b1] & He & (es' & Hes & [= <-])%bind_Ok)%bind_Ok.
  apply decode_entry_Ok in He as [? ?]. apply IH in Hes as (? & ? & ?).
  cbn [length]. split; [lia|]. split; [by constructor|lia].
Qed.

Lemma decode_entry_not_panic b : decode_entry b <> Panic.
Proof.
  unfold decode_entry.
  destruct (take_uvarint "truncated column id" b) as [[? [|? b1]]| |] eqn:E1; cbn; try done.
  - destruct (take_uvarint "truncated offset" b1) as [[? b2]| |] eqn:E2; cbn; try done.
    + destruct (take_uvarint "truncated compressedSize" b2) as [[? b3]| |] eqn:E3; cbn; try done.
      * destruct (take_uvarint "truncated rawSize" b3) as [[? b4]| |] eqn:E4; cbn; try done.
        by apply take_uvarint_not_panic in E4.
      * by apply take_uvarint_not_panic in E3.
    + by apply take_uvarint_not_panic in E2.
  - by apply take_uvarint_not_panic in E1.
Qed.

Lemma decode_entries_not_panic n b : decode_entries n b <> Panic.
Proof.
  revert b. induction n as [|n IH]; intros b; cbn; [done|].
  pose proof (decode_entry_not_panic b). destruct (decode_entry b) as [[e b1]| |]; cbn; try done.
  specialize (IH b1). by destruct (decode_entries n b1).
Qed.

(** * Properties *)

(** The TGB container round-trips: the header, the footer and the column
    directory decode to exactly the records they were encoded from, for every
    value their fixed-width and varint fields can hold; the two fixed blocks are
    64 and 16 bytes long, and the directory is self-delimiting. *)
Theorem container_roundtrip (h : fileHeader) (f : fileFooter) (es : list colEntry) (rest : bytes) :
  header_ok h -> footer_ok f -> Forall entry_ok es -> zlen es <= maxDirectoryEntries ->
  decodeHeader (encodeHeader h) = Ok h /\ zlen (encodeHeader h) = headerSize /\
  decodeFooter (encodeFooter f) = Ok f /\ zlen (encodeFooter f) = footerSize /\
  decodeDirectory (encodeDirectory es ++ rest) = Ok es.
Proof.
  intros. split; [by apply decode_encode_header|].
  split; [unfold zlen; by rewrite encodeHeader_length|].
  split; [by apply decode_encode_footer|].
  split; [unfold zlen; by rewrite encodeFooter_length|].
  by apply decode_encode_directory.
Qed.

Definition sample_header : fileHeader :=
  {| nodeCount := 3; edgeCount := 2; blockSize := 512; flags := 0; hashBytes := 20 |}.
Definition sample_entry : colEntry :=
  {| ce_id := colHash; ce_codec := codecRaw; ce_offset := 64;
     ce_compressedSize := 60; ce_rawSize := 60 |}.

Lemma container_roundtrip_witness :
  decodeHeader (encodeHeader sample_header) = Ok sample_header /\
  decodeDirectory (encodeDirectory [sample_entry] ++ [x2a]) = Ok [sample_entry].
Proof.
  destruct (container_roundtrip sample_header {| dirOffset := 124; dirCRC := 7 |}
              [sample_entry] [x2a]) as (H1 & _ & _ & _ & H2);
    [unfold header_ok; cbn; lia|unfold footer_ok; cbn; lia| |vm_compute; discriminate|].
  - constructor; [|constructor]. apply (bool_decide_unpack _). vm_compute. exact I.
  - exact (conj H1 H2).
Defined.

(** Whatever 64 bytes a hostile blob starts with, what [decodeHeader]
    accepts is a well-formed header (so the stride is 8, 16 or 20), its checksum
    is right, and the 34 meaningful bytes are the ones [encodeHeader] would write
    for the result: no two different headers decode alike. *)
Theorem decodeHeader_sound (b : bytes) (h : fileHeader) :
  length b = 64%nat -> decodeHeader b = Ok h ->
  header_ok h /\ take 34 b = take 34 (encodeHeader h) /\ le_at 56 4 b = crc32c (take 56 b).
Proof. apply decodeHeader_Ok. Qed.

Lemma decodeHeader_sound_witness :
  header_ok sample_header /\ le_at 4 2 (encodeHeader sample_header) = formatVersion.
Proof.
  destruct (decodeHeader_sound (encodeHeader sample_header) sample_header) as [H _];
    [vm_compute; reflexivity..|].
  split; [exact H|vm_compute; reflexivity].
Defined.

(** On arbitrary bytes [decodeDirectory] never panics, and what it accepts
    has at most 64 columns, every field in its width, and at least five bytes of
    input behind each entry: a directory cannot claim more than it carries. *)
Theorem decodeDirectory_bounded (b : bytes) :
  match decodeDirectory b with
  | Ok es => zlen es <= maxDirectoryEntries /\ Forall entry_ok es /\ 5 * zlen es < zlen b
  | Err _ => True
  | Panic => False
  end.
Proof.
  unfold decodeDirectory.
  destruct (take_uvarint "truncated directory count" b) as [[n b1]| |] eqn:E; cbn;
    [|done|by apply take_uvarint_not_panic in E].
  apply take_uvarint_Ok in E as (? & ? & _).
  case_bool_decide; cbn; [done|].
  pose proof (decode_entries_not_panic (Z.to_nat n) b1).
  destruct (decode_entries _ b1) as [es| |] eqn:E2; [|done|done].
  apply decode_entries_Ok in E2 as (? & ? & ?). unfold zlen.
  split; [lia|]. split; [done|lia].
Qed.
