(* ===== verification/Dict.v ===== *)
(** Front-coded string dictionaries ([internal/tgb/dict.go]). *)
From Stdlib Require Import ZArith Lia ZifyNat.
From S2P Require Import Prelude Varint Format.

Local Open Scope Z_scope.

(** * Definitions *)

Definition restartInterval : nat := 1024.

(** The number of leading bytes [a] and [b] share. *)
Fixpoint commonPrefixLen (a b : bytes) : nat :=
  match a, b with
  | x :: a, y :: b => if decide (x = y) then S (commonPrefixLen a b) else O
  | _, _ => O
  end.

(** One entry: shared prefix length, suffix length, suffix. *)
Definition dict_entry (shared : nat) (suffix : bytes) : bytes :=
  uvarint_bytes MaxVarintLen64 (Z.of_nat shared) ++
  uvarint_bytes MaxVarintLen64 (zlen suffix) ++ suffix.

(** The loop of [buildFrontCodedDict] from entry [i], [prev] being the entry
    before it: the string data and the restart offsets it has accumulated. *)
Fixpoint front_code (i : nat) (prev : bytes) (strs : list bytes)
  (strData : bytes) (restartOffsets : list Z) : bytes * list Z :=
  match strs with
  | [] => (strData, restartOffsets)
  | s :: strs =>
      let entryOffset := zlen strData in
      let restart := bool_decide (i mod restartInterval = 0)%nat in
      let shared := if restart then O else commonPrefixLen prev s in
      let restartOffsets :=
        if restart then restartOffsets ++ [entryOffset] else restartOffsets in
      front_code (S i) s strs (strData ++ dict_entry shared (drop shared s)) restartOffsets
  end.

Definition buildFrontCodedDict (strs : list bytes) : bytes :=
  match strs with
  | [] => uvarint_bytes MaxVarintLen64 0
  | _ =>
      let '(strData, restartOffsets) := front_code 0 [] strs [] [] in
      uvarint_bytes MaxVarintLen64 (zlen restartOffsets) ++
      concat (put_le 8 <$> restartOffsets) ++ strData
  end.

(** The expansion budget for [n] encoded bytes. *)
Definition dict_budget (n : Z) : Z :=
  let budget := n * maxDictExpansionFactor in
  if decide (budget < maxDictExpansionFloor) then maxDictExpansionFloor else budget.

(** One round of the decoding loop: the string read and the rest of the data.
    [int(shared)] is a conversion to a signed 64-bit integer, and the slice
    expression [prev[:shared]] panics when [shared] exceeds [len(prev)]. *)
Definition expand_entry (prev data : bytes) : res (bytes * bytes) :=
  '(shared, data) ← take_uvarint "dict: truncated sharedPrefixLen" data;
  '(suffLen, data) ← take_uvarint "dict: truncated suffixLen" data;
  _ ← guard_err (bool_decide (zlen data < suffLen)) "dict: suffix truncated";
  let suf := take (Z.to_nat suffLen) data in
  let data := drop (Z.to_nat suffLen) data in
  _ ← guard_err (bool_decide (zlen prev < i64 shared)) "dict: shared prefix > prev len";
  pre ← slice prev 0 shared;
  Ok (pre ++ suf, data).

(** [for len(data) > 0 { ... }]; every round consumes at least two bytes, so
    [len(data)] rounds are enough. *)
Fixpoint expand_loop (fuel : nat) (budget : Z) (data prev : bytes) (total : Z)
  (out : list bytes) : res (list bytes) :=
  match data, fuel with
  | [], _ => Ok out
  | _, O => Err "out of fuel"
  | _, S fuel =>
      '(s, data) ← expand_entry prev data;
      let total := total + zlen s in
      _ ← guard_err (bool_decide (budget < total)) "dict: expands past its budget";
      expand_loop fuel budget data s total (out ++ [s])
  end.

Definition expandDict (data : bytes) : res (list bytes) :=
  match data with
  | [] => Ok []
  | _ =>
      '(rc, data) ← take_uvarint "dict: truncated restartCount" data;
      _ ← guard_err (bool_decide (zlen data / 8 < rc)) "dict: restartCount exceeds data";
      data ← slice data (rc * 8) (zlen data);
      expand_loop (length data) (dict_budget (zlen data)) data [] 0 []
  end.

(** The restart-offset table and the string data behind it. *)
Definition restartTable (data : bytes) : res (list Z * bytes) :=
  '(rc, data) ← take_uvarint "dict: truncated restartCount" data;
  _ ← guard_err (bool_decide (zlen data / 8 < rc)) "dict: restartCount exceeds data";
  let tableBytes := rc * 8 in
  let offsets := (fun i => le_at (i * 8) 8 data) <$> seq 0 (Z.to_nat rc) in
  rest ← slice data tableBytes (zlen data);
  Ok (offsets, rest).

Definition lookupDictEntry (expanded : list bytes) (idx : Z) : res bytes :=
  if decide (idx < 0 \/ zlen expanded <= idx) then Err "dict: index out of range"
  else index expanded idx.

Arguments expand_entry : simpl never.
Arguments dict_budget : simpl never.

(** * Common prefixes *)

Lemma commonPrefixLen_le_l a b : (commonPrefixLen a b <= length a)%nat.
Proof.
  revert b. induction a as [|x a IH]; intros [|y b]; cbn; try lia.
  case_decide; [|lia]. specialize (IH b). lia.
Qed.

Lemma commonPrefixLen_take a b :
  take (commonPrefixLen a b) a = take (commonPrefixLen a b) b.
Proof.
  revert b. induction a as [|x a IH]; intros [|y b]; cbn; try done.
  case_decide as E; [|done]. subst. cbn. by rewrite IH.
Qed.

(** It is the longest one. *)
Lemma commonPrefixLen_max a b k :
  take k a = take k b -> (k <= length a)%nat -> (k <= length b)%nat ->
  (k <= commonPrefixLen a b)%nat.
Proof.
  revert b k. induction a as [|x a IH]; intros [|y b] [|k]; cbn; try lia.
  intros [= -> E] ??. rewrite decide_True by done. apply le_n_S, IH; [done|lia..].
Qed.

(** * Decoding what was encoded *)

Lemma expand_entry_dict_entry prev s shared rest :
  (shared <= length prev)%nat -> take shared prev = take shared s ->
  zlen s < 2^63 -> zlen prev < 2^63 ->
  expand_entry prev (dict_entry shared (drop shared s) ++ rest) = Ok (s, rest).
Proof.
  intros Hsh Htake Hs Hp. unfold expand_entry, dict_entry.
  assert (0 <= Z.of_nat shared < 2^63) by (unfold zlen in Hp; lia).
  assert (zlen (drop shared s) <= zlen s) by (unfold zlen; rewrite length_drop; lia).
  pose proof (zlen_nonneg (drop shared s)).
  rewrite <- !app_assoc, take_uvarint_bytes by lia. cbn.
  rewrite take_uvarint_bytes by lia. cbn.
  rewrite zlen_app. pose proof (zlen_nonneg rest).
  guard_pass. rewrite i64_small by lia. guard_pass by (unfold zlen; lia).
  rewrite slice_Ok by (unfold zlen; lia). cbn.
  rewrite Z.sub_0_r, Nat2Z.id, drop_0, Htake. unfold zlen. rewrite Nat2Z.id.
  by rewrite take_app_length, drop_app_length, take_drop.
Qed.

(** The bytes that [front_code] appends, without its accumulators. *)
Fixpoint dict_data (i : nat) (prev : bytes) (strs : list bytes) : bytes :=
  match strs with
  | [] => []
  | s :: strs =>
      let shared := if bool_decide (i mod restartInterval = 0)%nat then O
                    else commonPrefixLen prev s in
      dict_entry shared (drop shared s) ++ dict_data (S i) s strs
  end.

Lemma front_code_data i prev strs d offs :
  (front_code i prev strs d offs).1 = d ++ dict_data i prev strs.
Proof.
  revert i prev d offs. induction strs as [|s strs IH]; intros i prev d offs;
    cbn [front_code dict_data]; [by rewrite app_nil_r|].
  by rewrite IH, <- app_assoc.
Qed.

Lemma dict_entry_length shared suffix : (2 <= length (dict_entry shared suffix))%nat.
Proof.
  unfold dict_entry. rewrite !length_app.
  pose proof (zlen_uvarint_bytes_pos (Z.of_nat shared)).
  pose proof (zlen_uvarint_bytes_pos (zlen suffix)). unfold zlen in *. lia.
Qed.

Lemma dict_data_length i prev strs : (2 * length strs <= length (dict_data i prev strs))%nat.
Proof.
  revert i prev. induction strs as [|s strs IH]; intros i prev; cbn [dict_data length]; [lia|].
  rewrite length_app. specialize (IH (S i) s).
  pose proof (dict_entry_length (if bool_decide (i mod restartInterval = 0)%nat then O
                    else commonPrefixLen prev s)
    (drop (if bool_decide (i mod restartInterval = 0)%nat then O
                    else commonPrefixLen prev s) s)). lia.
Qed.

(** The total size of the strings of a dictionary. *)
Definition total_len (strs : list bytes) : Z := zlen (concat strs).

Lemma total_len_cons s strs : total_len (s :: strs) = zlen s + total_len strs.
Proof. unfold total_len. cbn. apply zlen_app. Qed.

Lemma total_len_nonneg strs : 0 <= total_len strs.
Proof. apply zlen_nonneg. Qed.

Lemma expand_loop_dict_data fuel budget i prev strs total out :
  (length strs <= fuel)%nat -> zlen prev < 2^63 ->
  Forall (fun s => zlen s < 2^63) strs -> total + total_len strs <= budget ->
  expand_loop fuel budget (dict_data i prev strs) prev total out = Ok (out ++ strs).
Proof.
  revert i prev fuel total out.
  induction strs as [|s strs IH]; intros i prev fuel total out Hf Hp Hs Hb;
    cbn [dict_data length] in *.
  { destruct fuel; by rewrite app_nil_r. }
  destruct fuel as [|fuel]; [lia|]. inversion Hs as [|? ? Hs1 Hs2]; subst.
  rewrite total_len_cons in Hb. pose proof (total_len_nonneg strs).
  set (shared := if bool_decide (i mod restartInterval = 0)%nat then O
                 else commonPrefixLen prev s).
  assert (shared <= length prev /\ take shared prev = take shared s)%nat as [Hsh Htk].
  { subst shared. case_bool_decide; [cbn; split; [lia|done]|].
    split; [apply commonPrefixLen_le_l|apply commonPrefixLen_take]. }
  pose proof (dict_entry_length shared (drop shared s)) as Hlen.
  pose proof (expand_entry_dict_entry prev s shared (dict_data (S i) s strs) Hsh Htk Hs1 Hp)
    as Hent.
  destruct (dict_entry shared (drop shared s) ++ dict_data (S i) s strs) as [|b data] eqn:Hd.
  { apply (f_equal length) in Hd. rewrite length_app in Hd. cbn in Hd. lia. }
  cbn [expand_loop]. rewrite Hent. cbn. guard_pass.
  rewrite IH by (done || lia). by rewrite <- app_assoc.
Qed.

Lemma dict_nonempty_eq strs :
  strs <> [] ->
  buildFrontCodedDict strs =
    let offs := (front_code 0 [] strs [] []).2 in
    uvarint_bytes MaxVarintLen64 (zlen offs) ++ concat (put_le 8 <$> offs) ++ dict_data 0 [] strs.
Proof.
  intros Hne. unfold buildFrontCodedDict.
  pose proof (front_code_data 0 [] strs [] []) as Hd.
  destruct (front_code 0 [] strs [] []) as [d offs]. cbn in *. subst d. by destruct strs.
Qed.

Lemma front_code_offsets_length i prev strs d offs :
  (length (front_code i prev strs d offs).2 <= length offs + length strs)%nat.
Proof.
  revert i prev d offs. induction strs as [|s strs IH]; intros i prev d offs;
    cbn [front_code length]; [cbn; lia|].
  etransitivity; [apply IH|]. case_bool_decide; rewrite ?length_app; cbn; lia.
Qed.

Lemma zlen_offset_table (offs : list Z) : zlen (concat (put_le 8 <$> offs)) = 8 * zlen offs.
Proof.
  induction offs as [|o offs IH]; [done|].
  rewrite fmap_cons. cbn [concat]. rewrite zlen_app, zlen_cons, IH.
  unfold zlen. rewrite length_put_le. lia.
Qed.

Lemma take_uvarint_bytes_ne msg x rest :
  0 <= x < 2^64 ->
  exists c cs, uvarint_bytes MaxVarintLen64 x ++ rest = c :: cs /\
    take_uvarint msg (c :: cs) = Ok (x, rest).
Proof.
  intros Hx. pose proof (take_uvarint_bytes msg x rest Hx) as H.
  destruct (uvarint_bytes MaxVarintLen64 x ++ rest) as [|c cs] eqn:E; [|eauto].
  apply (f_equal length) in E. rewrite length_app in E.
  pose proof (zlen_uvarint_bytes_pos x). unfold zlen in *. cbn in E. lia.
Qed.

(** The round trip, with the decoder's expansion budget as a condition on the
    strings: dictionaries it would refuse exist. *)
Lemma expand_build strs :
  zlen strs < 2^60 -> Forall (fun s => zlen s < 2^63) strs ->
  total_len strs <= dict_budget (zlen (dict_data 0 [] strs)) ->
  expandDict (buildFrontCodedDict strs) = Ok strs.
Proof.
  intros Hn Hs Hb. destruct (decide (strs = [])) as [->|Hne]; [done|].
  rewrite dict_nonempty_eq by done. cbn zeta.
  set (offs := (front_code 0 [] strs [] []).2).
  assert (zlen offs <= zlen strs).
  { pose proof (front_code_offsets_length 0 [] strs [] []). subst offs. unfold zlen. cbn in *. lia. }
  pose proof (zlen_nonneg offs). pose proof (zlen_offset_table offs) as Htab.
  set (tab := concat (put_le 8 <$> offs)) in *. clearbody tab.
  pose proof (zlen_nonneg (dict_data 0 [] strs)). pose proof (dict_data_length 0 [] strs).
  set (data := dict_data 0 [] strs) in *.
  destruct (take_uvarint_bytes_ne "dict: truncated restartCount" (zlen offs)
    (tab ++ data) ltac:(lia)) as (c & cs & -> & Hrc).
  unfold expandDict. rewrite Hrc. cbn. guard_pass by (rewrite zlen_app, Htab; pose proof (Z.div_le_lower_bound (8 * zlen offs + zlen data) 8 (zlen offs)); lia).
  assert (slice (tab ++ data) (zlen offs * 8) (zlen (tab ++ data)) = Ok data) as ->.
  { replace (zlen offs * 8) with (zlen tab) by lia.
    rewrite zlen_app, <- (app_nil_r data) at 1. apply slice_app_mid. }
  cbn. apply (expand_loop_dict_data _ _ 0 []); [lia|done|done|by rewrite Z.add_0_l].
Qed.

(** An entry costs at least two bytes. *)
Lemma dict_count_le strs : zlen strs <= zlen (buildFrontCodedDict strs).
Proof.
  destruct (decide (strs = [])) as [->|Hne]; [unfold zlen; cbn; lia|].
  rewrite dict_nonempty_eq by done. cbn zeta. rewrite !zlen_app.
  pose proof (dict_data_length 0 [] strs). unfold zlen. lia.
Qed.

(** * The restart table *)

(** The offsets [front_code] records, the string data starting at [base]. *)
Fixpoint restart_offs (i : nat) (prev : bytes) (strs : list bytes) (base : Z) : list Z :=
  match strs with
  | [] => []
  | s :: strs =>
      let restart := bool_decide (i mod restartInterval = 0)%nat in
      let shared := if restart then O else commonPrefixLen prev s in
      (if restart then [base] else []) ++
      restart_offs (S i) s strs (base + zlen (dict_entry shared (drop shared s)))
  end.

Lemma front_code_offs i prev strs d offs :
  (front_code i prev strs d offs).2 = offs ++ restart_offs i prev strs (zlen d).
Proof.
  revert i prev d offs. induction strs as [|s strs IH]; intros i prev d offs;
    cbn [front_code restart_offs]; [by rewrite app_nil_r|].
  rewrite IH, zlen_app. case_bool_decide; [by rewrite <- app_assoc|done].
Qed.

(** The restart point of the [k]-th group of [restartInterval] strings is where
    the data of the strings from there on begins. *)
Lemma restart_offs_lookup i prev strs base k j :
  (i + j = k * restartInterval)%nat -> (j < length strs)%nat ->
  exists off prev',
    restart_offs i prev strs base !! (k - (i + 1023) / restartInterval)%nat = Some (base + off) /\
    0 <= off /\
    drop (Z.to_nat off) (dict_data i prev strs) = dict_data (k * restartInterval) prev' (drop j strs).
Proof.
  unfold restartInterval. revert i prev base j.
  induction strs as [|s strs IH]; intros i prev base j Hj Hl; [cbn in Hl; lia|].
  cbn [restart_offs dict_data length] in *. unfold restartInterval.
  set (restart := bool_decide (i mod 1024 = 0)%nat).
  set (shared := if restart then 0%nat else commonPrefixLen prev s).
  destruct j as [|j].
  - exists 0, prev. assert (i mod 1024 = 0)%nat as Hi by lia.
    subst restart. rewrite bool_decide_true by done.
    replace (k - (i + 1023) / 1024)%nat with 0%nat by lia.
    split; [by rewrite Z.add_0_r|]. split; [lia|].
    rewrite !drop_0. replace (k * 1024)%nat with i by lia.
    subst shared. cbn [dict_data]. unfold restartInterval. by rewrite !bool_decide_true by done.
  - destruct (IH (S i) s (base + zlen (dict_entry shared (drop shared s))) j)
      as (off & prev' & Hlk & Hoff & Hdrop); [lia|lia|].
    exists (zlen (dict_entry shared (drop shared s)) + off), prev'.
    pose proof (zlen_nonneg (dict_entry shared (drop shared s))).
    split; [|split; [lia|]].
    + rewrite Z.add_assoc, <- Hlk. subst restart. case_bool_decide as Hi.
      * replace (k - (i + 1023) / 1024)%nat with (S (k - (S i + 1023) / 1024)) by lia. done.
      * cbn [app]. f_equal. lia.
    + cbn [skipn]. rewrite <- Hdrop. unfold zlen. rewrite Z2Nat.inj_add, Nat2Z.id by lia.
      by rewrite <- drop_drop, drop_app_length.
Qed.

Lemma dict_data_restart k prev prev' strs :
  dict_data (k * restartInterval) prev strs = dict_data (k * restartInterval) prev' strs.
Proof.
  destruct strs as [|s strs]; [done|]. cbn [dict_data].
  rewrite !bool_decide_true by (unfold restartInterval; apply Nat.Div0.mod_mul). done.
Qed.

Lemma get_offset_table offs i rest :
  Forall (fun o => 0 <= o < 2^64) offs -> (i < length offs)%nat ->
  Some (le_at (i * 8) 8 (concat (put_le 8 <$> offs) ++ rest)) = offs !! i.
Proof.
  intros Hoffs. revert i. induction Hoffs as [|o offs Ho Hoffs IH]; intros i Hi; [cbn in Hi; lia|].
  rewrite fmap_cons. cbn [concat]. rewrite <- app_assoc. destruct i as [|i].
  - change (0 * 8)%nat with 0%nat. unfold le_at. rewrite drop_0.
    rewrite take_app_length' by by rewrite length_put_le.
    by rewrite get_put_le_small by lia.
  - cbn [length] in Hi. change ((o :: offs) !! S i) with (offs !! i). by rewrite <- IH by lia.
Qed.

Lemma restart_offs_bound i prev strs base :
  0 <= base ->
  Forall (fun o => 0 <= o <= base + zlen (dict_data i prev strs)) (restart_offs i prev strs base).
Proof.
  revert i prev base. induction strs as [|s strs IH]; intros i prev base Hb;
    cbn [restart_offs dict_data]; [constructor|].
  set (e := dict_entry _ _). rewrite zlen_app. pose proof (zlen_nonneg e).
  pose proof (zlen_nonneg (dict_data (S i) s strs)).
  apply Forall_app. split; [case_bool_decide; constructor; [lia|constructor]|].
  eapply Forall_impl; [apply IH; lia|]. intros o; cbn beta. lia.
Qed.

Lemma restartTable_build strs :
  strs <> [] -> zlen strs < 2^60 -> zlen (dict_data 0 [] strs) < 2^63 ->
  restartTable (buildFrontCodedDict strs) =
    Ok (restart_offs 0 [] strs 0, dict_data 0 [] strs).
Proof.
  intros Hne Hn Hd. rewrite dict_nonempty_eq by done. cbn zeta.
  pose proof (front_code_offsets_length 0 [] strs [] []) as Hle.
  rewrite !front_code_offs in *. cbn [app length] in *. change (zlen []) with 0 in *.
  pose proof (restart_offs_bound 0 [] strs 0 ltac:(lia)) as Hoffs.
  set (offs := restart_offs 0 [] strs 0) in *. set (data := dict_data 0 [] strs) in *.
  pose proof (zlen_nonneg offs). pose proof (zlen_nonneg data).
  assert (zlen offs <= zlen strs) by (unfold zlen; lia).
  pose proof (zlen_offset_table offs) as Htab.
  assert (Hget : forall i, (i < length offs)%nat ->
    Some (le_at (i * 8) 8 (concat (put_le 8 <$> offs) ++ data)) = offs !! i).
  { intros i Hi. apply get_offset_table; [|done].
    eapply Forall_impl; [exact Hoffs|]. cbn; intros; lia. }
  set (tab := concat (put_le 8 <$> offs)) in *. clearbody tab.
  unfold restartTable. rewrite take_uvarint_bytes by lia. cbn.
  guard_pass by (rewrite zlen_app, Htab;
    pose proof (Z.div_le_lower_bound (8 * zlen offs + zlen data) 8 (zlen offs)); lia).
  assert (slice (tab ++ data) (zlen offs * 8) (zlen (tab ++ data)) = Ok data) as ->.
  { replace (zlen offs * 8) with (zlen tab) by lia.
    rewrite zlen_app, <- (app_nil_r data) at 1. apply slice_app_mid. }
  cbn. f_equal. f_equal. unfold zlen. rewrite Nat2Z.id.
  apply list_eq. intros i. rewrite list_lookup_fmap.
  destruct (decide (i < length offs)%nat) as [Hi|Hi].
  - by rewrite lookup_seq_lt, <- Hget.
  - rewrite (lookup_ge_None_2 offs), (lookup_ge_None_2 (seq _ _)); rewrite ?length_seq; [done|lia..].
Qed.

(** * The decoder on arbitrary input *)

Lemma expand_entry_Ok prev data s rest :
  expand_entry prev data = Ok (s, rest) ->
  (length rest + 2 <= length data)%nat /\ exists k, rest = drop k data.
Proof.
  unfold expand_entry. intros H. res_step. destruct x as [shared d1]. res_step.
  destruct x as [sl d2]. res_inv.
  apply take_uvarint_Ok in E as (? & ? & k1 & ->), E0 as (? & ? & k2 & ->).
  rewrite !length_drop in *. split; [lia|]. rewrite !drop_drop. eauto.
Qed.

Lemma expand_loop_Ok fuel budget data prev total out out' :
  expand_loop fuel budget data prev total out = Ok out' ->
  exists strs, out' = out ++ strs /\ (total <= budget -> total + total_len strs <= budget) /\
    (2 * length strs <= length data)%nat.
Proof.
  revert data prev total out. induction fuel as [|fuel IH]; intros data prev total out;
    destruct data as [|b data]; cbn [expand_loop]; try done.
  1,2: intros [= <-]; exists []; rewrite app_nil_r; unfold total_len, zlen; cbn; split_and!; try done; lia.
  intros H. res_step. destruct x as [s rest]. res_inv.
  apply IH in H as (strs & -> & Hb & Hl). apply expand_entry_Ok in E as [? _].
  exists (s :: strs). rewrite <- app_assoc, total_len_cons. cbn [length] in *.
  pose proof (zlen_nonneg s). split; [done|]. split; [intros; specialize (Hb ltac:(lia))|]; lia.
Qed.

Lemma expand_entry_panic prev data :
  zlen prev < 2^63 -> expand_entry prev data = Panic ->
  exists v n, Uvarint data = (v, n) /\ 2^63 <= v.
Proof.
  intros Hp. unfold expand_entry. intros [H'|([v d1] & E & H')]%bind_Panic.
  { by apply take_uvarint_not_panic in H'. }
  assert (exists n, Uvarint data = (v, n) /\ 0 <= v) as (n & Hn & Hv).
  { pose proof (take_uvarint_Ok _ _ _ _ E) as [? _]. unfold take_uvarint in E.
    destruct (Uvarint data). case_decide; simplify_eq. eauto with lia. }
  apply bind_Panic in H' as [H'|([sl d2] & _ & H')]; [by apply take_uvarint_not_panic in H'|].
  apply guard_err_bind_Panic in H' as [_ H'].
  apply guard_err_bind_Panic in H' as [Hsh H'].
  destruct (decide (v < 2^63)); [|eauto with lia].
  rewrite i64_small in Hsh by lia. apply bool_decide_eq_false in Hsh.
  by rewrite slice_Ok in H' by lia.
Qed.

Lemma take_uvarint_Err msg b e : take_uvarint msg b = Err e -> e = msg.
Proof. unfold take_uvarint. destruct (Uvarint b). case_decide; congruence. Qed.

Lemma expand_entry_fuel prev data : expand_entry prev data <> Err "out of fuel".
Proof.
  unfold expand_entry. intros H.
  apply bind_Err in H as [H|([shared d1] & _ & H)]; [by apply take_uvarint_Err in H|].
  apply bind_Err in H as [H|([sl d2] & _ & H)]; [by apply take_uvarint_Err in H|].
  apply bind_Err in H as [H|([] & _ & H)]; [by apply guard_err_Err in H|].
  apply bind_Err in H as [H|([] & _ & H)]; [by apply guard_err_Err in H|].
  apply bind_Err in H as [H|(pre & _ & H)]; [by apply slice_not_Err in H|done].
Qed.

(** [len(data)] rounds are enough. *)
Lemma expand_loop_fuel fuel budget data prev total out :
  (length data <= fuel)%nat -> expand_loop fuel budget data prev total out <> Err "out of fuel".
Proof.
  revert data prev total out. induction fuel as [|fuel IH]; intros data prev total out Hf;
    destruct data as [|b data]; cbn [expand_loop length] in *; try done; [lia|].
  intros H. apply bind_Err in H as [H|([s rest] & E & H)]; [by apply expand_entry_fuel in H|].
  apply expand_entry_Ok in E as [Hl _]. cbn [length] in Hl.
  apply bind_Err in H as [H|([] & _ & H)]; [by apply guard_err_Err in H|].
  apply IH in H; [done|lia].
Qed.

Lemma expand_loop_panic fuel budget data prev total out :
  budget < 2^63 -> zlen prev <= total -> total <= budget ->
  expand_loop fuel budget data prev total out = Panic ->
  exists k v n, Uvarint (drop k data) = (v, n) /\ 2^63 <= v.
Proof.
  intros Hb. revert data prev total out. induction fuel as [|fuel IH]; intros data prev total out Hp Ht;
    destruct data as [|b data]; cbn [expand_loop]; try done.
  intros [E|([s rest] & E & H)]%bind_Panic.
  { apply expand_entry_panic in E as (v & n & ? & ?); [exists 0%nat; eauto|lia]. }
  apply guard_err_bind_Panic in H as [Hle H]. apply bool_decide_eq_false in Hle.
  pose proof (zlen_nonneg prev). apply IH in H as (k & v & n & ? & ?); [|lia..].
  apply expand_entry_Ok in E as (_ & k' & ->).
  exists (k' + k)%nat, v, n. by rewrite <- drop_drop.
Qed.

Lemma dict_budget_mono m n : 0 <= m <= n -> dict_budget m <= dict_budget n.
Proof. unfold dict_budget, maxDictExpansionFactor. intros. repeat case_decide; lia. Qed.

Lemma dict_budget_bound n : n < 2^58 -> dict_budget n < 2^63.
Proof.
  unfold dict_budget, maxDictExpansionFactor. intros.
  case_decide; [vm_compute; done|lia].
Qed.

(** * Properties *)

(** A dictionary whose only entry claims a shared prefix of 2^63 bytes. *)
Definition hostile_dict : bytes := x00 :: replicate 9 x80 ++ [x01; x00].

Definition sample_dict : list bytes := [bs "//a"; bs "//a/b"; bs "//c"].

(** Front coding and expansion are inverse on every dictionary within the
    decoder's budget, and the restart table lets a reader start decoding at any
    [restartInterval]-th string without the strings before it. *)
Theorem dict_roundtrip (strs : list bytes) :
  zlen strs < 2^60 -> Forall (fun s => zlen s < 2^63) strs ->
  total_len strs <= dict_budget (zlen (dict_data 0 [] strs)) ->
  zlen (dict_data 0 [] strs) < 2^63 ->
  expandDict (buildFrontCodedDict strs) = Ok strs /\
  (strs <> [] ->
   exists offs data, restartTable (buildFrontCodedDict strs) = Ok (offs, data) /\
     forall k, (k * restartInterval < length strs)%nat ->
       exists off, offs !! k = Some off /\
         expand_loop (length data) (dict_budget (zlen data)) (drop (Z.to_nat off) data) [] 0 [] =
           Ok (drop (k * restartInterval) strs)).
Proof.
  intros Hn Hs Hb Hd. split; [by apply expand_build|].
  intros Hne. exists (restart_offs 0 [] strs 0), (dict_data 0 [] strs).
  split; [by apply restartTable_build|]. intros k Hk.
  destruct (restart_offs_lookup 0 [] strs 0 k (k * restartInterval) eq_refl Hk)
    as (off & prev' & Hlk & _ & Hdrop).
  change ((0 + 1023) / restartInterval)%nat with 0%nat in Hlk.
  rewrite Nat.sub_0_r, Z.add_0_l in Hlk. exists off. split; [done|].
  rewrite Hdrop, (dict_data_restart k _ []).
  pose proof (dict_data_length 0 [] strs).
  apply (expand_loop_dict_data _ _ _ []).
  - rewrite length_drop. lia.
  - done.
  - by apply Forall_drop.
  - assert (total_len (drop (k * restartInterval) strs) <= total_len strs); [|lia].
    rewrite <- (take_drop (k * restartInterval) strs) at 2. unfold total_len.
    rewrite concat_app, zlen_app. pose proof (zlen_nonneg (concat (take (k * restartInterval) strs))).
    lia.
Qed.

Lemma dict_roundtrip_witness :
  Forall (fun s => zlen s < 2^63) sample_dict /\
  expandDict (buildFrontCodedDict sample_dict) = Ok sample_dict.
Proof.
  assert (H : Forall (fun s => zlen s < 2^63) sample_dict) by (repeat constructor).
  split; [exact H|].
  exact (proj1 (dict_roundtrip sample_dict eq_refl H ltac:(vm_compute; discriminate) eq_refl)).
Defined.

(** On any input of fewer than 2^58 bytes the decoder terminates, and either
    rejects the input, or returns at most half as many strings as there are
    bytes with a total size within the expansion budget, or panics on an entry
    that claims a shared prefix of 2^63 bytes or more. *)
Theorem expandDict_safe (data : bytes) :
  zlen data < 2^58 ->
  match expandDict data with
  | Ok strs => total_len strs <= dict_budget (zlen data) /\ 2 * zlen strs <= zlen data
  | Err e => e <> "out of fuel"%string
  | Panic => exists k v n, Uvarint (drop k data) = (v, n) /\ 2^63 <= v
  end.
Proof.
  intros Hlen. destruct data as [|b data]; [by vm_compute|].
  unfold expandDict. set (data0 := b :: data) in *.
  destruct (take_uvarint "dict: truncated restartCount" data0) as [[rc d1]| |] eqn:E1; cbn.
  2: { apply take_uvarint_Err in E1. by subst. }
  2: { by apply take_uvarint_not_panic in E1. }
  apply take_uvarint_Ok in E1 as (Hrc & Hl1 & k1 & Hd1). case_bool_decide as Hbig; cbn; [done|].
  pose proof (zlen_nonneg d1). rewrite slice_Ok by lia. cbn.
  assert (exists k, take (Z.to_nat (zlen d1 - rc * 8)) (drop (Z.to_nat (rc * 8)) d1) = drop k data0)
    as [k ->].
  { exists (k1 + Z.to_nat (rc * 8))%nat. rewrite Hd1, drop_drop. apply take_ge.
    unfold zlen in *. rewrite Hd1 in *. rewrite !length_drop in *. lia. }
  assert (zlen (drop k data0) <= zlen data0) as Hk by (unfold zlen; rewrite length_drop; lia).
  pose proof (zlen_nonneg (drop k data0)) as Hk0.
  set (d := drop k data0) in *. pose proof (dict_budget_bound (zlen d) ltac:(lia)).
  assert (0 <= dict_budget (zlen d)) by (unfold dict_budget, maxDictExpansionFactor;
    case_decide; [vm_compute; done|lia]).
  destruct (expand_loop _ _ _ _ _ _) as [out|e|] eqn:E.
  - apply expand_loop_Ok in E as (strs & -> & Hb & Hl). cbn.
    pose proof (dict_budget_mono (zlen d) (zlen data0) ltac:(lia)). unfold zlen in *. lia.
  - intros ->. by apply expand_loop_fuel in E.
  - apply expand_loop_panic in E as (k2 & v & n & Hv & ?); [|done|done|done].
    exists (k + k2)%nat, v, n. by rewrite <- drop_drop.
Qed.

Lemma expandDict_safe_witness :
  expandDict hostile_dict = Panic /\ exists k v n, Uvarint (drop k hostile_dict) = (v, n) /\ 2^63 <= v.
Proof.
  assert (H : expandDict hostile_dict = Panic) by (vm_compute; reflexivity).
  pose proof (expandDict_safe hostile_dict eq_refl) as Hs. rewrite H in Hs.
  exact (conj H Hs).
Defined.

(** [expandDict] panics on [hostile_dict]: the conversion [int(shared)] makes the claim
    negative, so the check against [len(prev)] lets it through to the slice
    expression. *)
Theorem expandDict_hostile_panics : expandDict hostile_dict = Panic.
Proof. vm_compute. reflexivity. Qed.
