(* ===== verification/Columns.v ===== *)
(** The integer columns of a TGB blob: the coders of [internal/tgb/encode.go]
    and the decoders of [internal/tgb/reader.go], as functions of the raw bytes
    of a column.  Values are Go [int32]s. *)
From Stdlib Require Import ZArith Lia ZifyNat.
From S2P Require Import Prelude Varint.

Local Open Scope Z_scope.

(** * Encoders *)

(** [encodeDeltas] of [write]; the difference is an [int32] subtraction. *)
Fixpoint encode_deltas (prev : Z) (vals : list Z) : bytes :=
  match vals with
  | [] => []
  | v :: vals =>
      uvarint_bytes MaxVarintLen64 (u64 (i32 (v - prev))) ++ encode_deltas v vals
  end.
Definition encodeDeltas (vals : list Z) : bytes := encode_deltas 0 vals.

(** [encodePlain] of [write]. *)
Definition encodePlain (vals : list Z) : bytes :=
  concat ((fun v => uvarint_bytes MaxVarintLen64 (u64 v)) <$> vals).

(** [nodeNameRaw] of [write]: within a package the delta of the name ID,
    across packages the name ID itself. *)
Fixpoint node_name_raw (prevPkg prevName : Z) (ids : list (Z * Z)) : bytes :=
  match ids with
  | [] => []
  | (pid, nid) :: ids =>
      if decide (pid <> prevPkg)
      then uvarint_bytes MaxVarintLen64 (u64 nid) ++ node_name_raw pid nid ids
      else uvarint_bytes MaxVarintLen64 (u64 (i32 (nid - prevName))) ++
           node_name_raw prevPkg nid ids
  end.
Definition nodeNameRaw (pkgIDs nameIDs : list Z) : bytes :=
  node_name_raw (-1) 0 (zip pkgIDs nameIDs).

(** The sorted dependencies of node [i]: the first relative to [i], zigzag, the
    others as differences. *)
Definition dep_bytes (i : Z) (deps : list Z) : bytes :=
  match deps with
  | [] => []
  | d :: ds => appendZigzag [] (d - i) ++ encode_deltas d ds
  end.

(** The sorted tags of a node. *)
Definition tag_bytes (tags : list Z) : bytes :=
  match tags with
  | [] => []
  | t :: ts => uvarint_bytes MaxVarintLen64 (u64 t) ++ encode_deltas t ts
  end.

(** * Decoders *)

(** [for len(data) > 0 { v, n := binary.Uvarint(data); if n <= 0 { break };
    data = data[n:]; step }]: the loop the integer decoders share.  A round
    consumes at least a byte, so [len(data)] rounds are enough. *)
Fixpoint uvarint_fold {S} (fuel : nat) (step : S -> Z -> S) (data : bytes) (s : S) : S :=
  match data, fuel with
  | [], _ | _, O => s
  | _, S fuel =>
      let '(v, n) := Uvarint data in
      if decide (n <= 0) then s
      else uvarint_fold fuel step (drop (Z.to_nat n) data) (step s v)
  end.

Definition decodeDeltaInts (data : bytes) : list Z :=
  (uvarint_fold (length data)
     (fun '(prev, out) v => let prev := i32 (prev + i32 v) in (prev, out ++ [prev]))
     data (0, [])).2.

Definition decodePlainInts (data : bytes) : list Z :=
  uvarint_fold (length data) (fun out v => out ++ [i32 v]) data [].

(** The state of [decodeNameIDs]: [prevPkg], [prevName] and the names so far,
    whose number is the loop variable [i]. *)
Definition name_step (pkgIDs : list Z) (st : Z * Z * list Z) (v : Z) : Z * Z * list Z :=
  let '(prevPkg, prevName, out) := st in
  match pkgIDs !! length out with
  | Some p =>
      if decide (p <> prevPkg) then (p, i32 v, out ++ [i32 v])
      else let nid := i32 (prevName + i32 v) in (prevPkg, nid, out ++ [nid])
  | None => let nid := i32 (prevName + i32 v) in (prevPkg, nid, out ++ [nid])
  end.

Definition decodeNameIDs (data : bytes) (pkgIDs : list Z) : list Z :=
  (uvarint_fold (length data) (name_step pkgIDs) data (-1, 0, [])).2.

(** Byte conservation: every list entry costs at least one byte. *)
Fixpoint validate_degs (degs : list Z) (listLen total : Z) : res unit :=
  match degs with
  | [] => Ok ()
  | d :: degs =>
      _ ← guard_err (bool_decide (d < 0)) "negative degree";
      let total := total + d in
      _ ← guard_err (bool_decide (listLen < total)) "degrees claim too many entries";
      validate_degs degs listLen total
  end.
Definition validateDegs (degs : list Z) (listLen : Z) : res unit := validate_degs degs listLen 0.

(** One entry of a list column: the value and the number of bytes read. *)
Definition rd_dep (i : Z) (j : nat) (prev : Z) (b : bytes) : Z * Z :=
  match j with
  | O => let '(v, n) := readZigzag b in (i32 (i32 v + i32 i), n)
  | S _ => let '(v, n) := readUvarint b in (i32 (prev + i32 v), n)
  end.

Definition rd_tag (j : nat) (prev : Z) (b : bytes) : Z * Z :=
  let '(v, n) := readUvarint b in (i32 (prev + i32 v), n).

Definition rd_plain (j : nat) (prev : Z) (b : bytes) : Z * Z :=
  let '(v, n) := readUvarint b in (i32 v, n).

(** [for j := 0; j < deg; j++ { ... data[pos:] ... }] *)
Fixpoint read_run (rd : nat -> Z -> bytes -> Z * Z) (msg : string) (data : bytes)
  (k j : nat) (prev pos : Z) : res (list Z * Z) :=
  match k with
  | O => Ok ([], pos)
  | S k =>
      rest ← slice data pos (zlen data);
      let '(d, n) := rd j prev rest in
      _ ← guard_err (bool_decide (n <= 0)) msg;
      '(ds, pos) ← read_run rd msg data k (S j) d (pos + n);
      Ok (d :: ds, pos)
  end.

(** The runs of the nodes from [i] on, and where each starts. *)
Fixpoint read_runs (rd : Z -> nat -> Z -> bytes -> Z * Z) (msg : string) (data : bytes)
  (degs : list Z) (i pos : Z) : res (list (list Z)) :=
  match degs with
  | [] => Ok []
  | deg :: degs =>
      '(l, pos) ← read_run (rd i) msg data (Z.to_nat deg) 0 0 pos;
      ls ← read_runs rd msg data degs (i + 1) pos;
      Ok (l :: ls)
  end.

Definition list_column (rd : Z -> nat -> Z -> bytes -> Z * Z) (msg : string)
  (degData data : bytes) : res (list Z * list (list Z)) :=
  let degs := decodePlainInts degData in
  _ ← validateDegs degs (zlen data);
  lists ← read_runs rd msg data degs 0 0;
  Ok (degs, lists).

Definition msg_deps : string := "truncated DEPS column".
Definition msg_tags : string := "truncated TAGS column".

(** [decodeDepColumns], [decodeTagColumns]. *)
Definition decodeDepColumns (degData depsData : bytes) : res (list Z * list (list Z)) :=
  list_column rd_dep msg_deps degData depsData.
Definition decodeTagColumns (degData tagsData : bytes) : res (list Z * list (list Z)) :=
  list_column (fun _ => rd_tag) msg_tags degData tagsData.

(** [decodeAttrColumns] reads the two parallel streams in step. *)
Fixpoint read_attr_run (nmData vlData : bytes) (k : nat) (nmPos vlPos : Z) :
  res (list Z * list Z * Z * Z) :=
  match k with
  | O => Ok ([], [], nmPos, vlPos)
  | S k =>
      rest ← slice nmData nmPos (zlen nmData);
      let '(nv, n) := readUvarint rest in
      _ ← guard_err (bool_decide (n <= 0)) "truncated ATTR_NAME column";
      rest ← slice vlData vlPos (zlen vlData);
      let '(vv, m) := readUvarint rest in
      _ ← guard_err (bool_decide (m <= 0)) "truncated ATTR_VALUE column";
      '(nms, vls, nmPos, vlPos) ← read_attr_run nmData vlData k (nmPos + n) (vlPos + m);
      Ok (i32 nv :: nms, i32 vv :: vls, nmPos, vlPos)
  end.

Fixpoint read_attr_runs (nmData vlData : bytes) (degs : list Z) (nmPos vlPos : Z) :
  res (list (list Z) * list (list Z)) :=
  match degs with
  | [] => Ok ([], [])
  | deg :: degs =>
      '(nms, vls, nmPos, vlPos) ← read_attr_run nmData vlData (Z.to_nat deg) nmPos vlPos;
      '(names, vals) ← read_attr_runs nmData vlData degs nmPos vlPos;
      Ok (nms :: names, vls :: vals)
  end.

Definition decodeAttrColumns (degData nmData vlData : bytes) :
  res (list Z * list (list Z) * list (list Z)) :=
  let degs := decodePlainInts degData in
  _ ← validateDegs degs (zlen nmData);
  _ ← validateDegs degs (zlen vlData);
  '(names, vals) ← read_attr_runs nmData vlData degs 0 0;
  Ok (degs, names, vals).


(** * Random access to a list column

    [ensureDepOffsets], [ensureTagOffsets] and [ensureAttrOffsets] only skip
    over the entries; [Deps] and [Tags] then read the run of one node without
    checking the varints again. *)

Definition skip_dep (j : nat) (b : bytes) : Z :=
  match j with O => (readZigzag b).2 | S _ => (readUvarint b).2 end.
Definition skip_plain (j : nat) (b : bytes) : Z := (readUvarint b).2.

Fixpoint skip_run (sk : nat -> bytes -> Z) (msg : string) (data : bytes)
  (k j : nat) (pos : Z) : res Z :=
  match k with
  | O => Ok pos
  | S k =>
      rest ← slice data pos (zlen data);
      let n := sk j rest in
      _ ← guard_err (bool_decide (n <= 0)) msg;
      skip_run sk msg data k (S j) (pos + n)
  end.

Fixpoint offset_loop (sk : nat -> bytes -> Z) (msg : string) (data : bytes)
  (degs : list Z) (pos : Z) (offsets : list Z) : res (list Z) :=
  match degs with
  | [] => Ok (offsets ++ [i32 pos])
  | deg :: degs =>
      let offsets := offsets ++ [i32 pos] in
      pos ← skip_run sk msg data (Z.to_nat deg) 0 pos;
      offset_loop sk msg data degs pos offsets
  end.

Definition column_offsets (sk : nat -> bytes -> Z) (msg : string)
  (degData data : bytes) : res (list Z * list Z) :=
  let degs := decodePlainInts degData in
  _ ← validateDegs degs (zlen data);
  offsets ← offset_loop sk msg data degs 0 [];
  Ok (degs, offsets).

Definition dep_offsets (degData depsData : bytes) : res (list Z * list Z) :=
  column_offsets skip_dep msg_deps degData depsData.
Definition tag_offsets (degData tagsData : bytes) : res (list Z * list Z) :=
  column_offsets skip_plain msg_tags degData tagsData.

(** The loop of [Deps] and [Tags]: no check that the varint is complete. *)
Fixpoint run_from (rd : nat -> Z -> bytes -> Z * Z) (data : bytes)
  (k j : nat) (prev pos : Z) (buf : list Z) : res (list Z) :=
  match k with
  | O => Ok buf
  | S k =>
      rest ← slice data pos (zlen data);
      let '(d, n) := rd j prev rest in
      run_from rd data k (S j) d (pos + n) (buf ++ [d])
  end.

Definition node_run (rd : Z -> nat -> Z -> bytes -> Z * Z) (data : bytes)
  (degs offsets : list Z) (node : Z) (buf : list Z) : res (list Z) :=
  if decide (zlen degs <= node) then Ok buf
  else
    pos ← index offsets node;
    deg ← index degs node;
    run_from (rd node) data (Z.to_nat deg) 0 0 pos buf.

(** [DepsCSR]: the whole column in compressed-sparse-row form. *)
Fixpoint csr_loop (data : bytes) (degs : list Z) (i pos : Z)
  (offsets targets : list Z) : res (list Z * list Z) :=
  match degs with
  | [] => Ok (offsets ++ [i32 (zlen targets)], targets)
  | deg :: degs =>
      let offsets := offsets ++ [i32 (zlen targets)] in
      '(l, pos) ← read_run (rd_dep i) msg_deps data (Z.to_nat deg) 0 0 pos;
      csr_loop data degs (i + 1) pos offsets (targets ++ l)
  end.

Definition deps_csr (degData depsData : bytes) : res (list Z * list Z) :=
  let degs := decodePlainInts degData in
  _ ← validateDegs degs (zlen depsData);
  csr_loop depsData degs 0 0 [] [].

Arguments decodePlainInts : simpl never.
Arguments decodeDeltaInts : simpl never.

(** * Round trips of the integer columns *)

Definition is_i32 (z : Z) : Prop := -2^31 <= z < 2^31.

Lemma uvarint_fold_bytes {S} (step : S -> Z -> S) xs fuel s :
  Forall (fun x => 0 <= x < 2^64) xs ->
  (length (concat (uvarint_bytes MaxVarintLen64 <$> xs)) <= fuel)%nat ->
  uvarint_fold fuel step (concat (uvarint_bytes MaxVarintLen64 <$> xs)) s = foldl step s xs.
Proof.
  intros Hxs. revert fuel s. induction Hxs as [|x xs Hx _ IH]; intros fuel s Hf.
  { by destruct fuel. }
  rewrite fmap_cons in *. cbn [concat foldl] in *. rewrite length_app in Hf.
  pose proof (zlen_uvarint_bytes_pos x) as Hpos. unfold zlen in Hpos.
  set (rest := concat _) in *. destruct fuel as [|fuel]; [lia|].
  destruct (uvarint_bytes MaxVarintLen64 x ++ rest) as [|b l] eqn:E.
  { apply (f_equal length) in E. rewrite length_app in E. cbn in E. lia. }
  cbn [uvarint_fold]. rewrite <- E, Uvarint_bytes by done.
  rewrite decide_False by (unfold zlen; lia).
  rewrite drop_uvarint. apply IH. lia.
Qed.

Fixpoint deltas (prev : Z) (vals : list Z) : list Z :=
  match vals with
  | [] => []
  | v :: vals => u64 (i32 (v - prev)) :: deltas v vals
  end.

Lemma encode_deltas_concat prev vals :
  encode_deltas prev vals = concat (uvarint_bytes MaxVarintLen64 <$> deltas prev vals).
Proof.
  revert prev. induction vals as [|v vals IH]; intros prev; [done|].
  cbn [encode_deltas deltas]. rewrite fmap_cons. cbn [concat]. by rewrite IH.
Qed.

Lemma deltas_u64 prev vals : Forall (fun x => 0 <= x < 2^64) (deltas prev vals).
Proof.
  revert prev. induction vals as [|v vals IH]; intros prev; constructor; [apply u64_range|apply IH].
Qed.

(** Adding back, modulo 2^32, the difference that was stored. *)
Lemma delta_step prev v : is_i32 v -> i32 (prev + i32 (u64 (i32 (v - prev)))) = v.
Proof.
  intros Hv. rewrite Z.add_comm, i32_u64, i32_idemp_add, i32_idemp_add.
  replace (v - prev + prev) with v by lia. by apply i32_small.
Qed.

Lemma decode_encode_deltas vals : Forall is_i32 vals -> decodeDeltaInts (encodeDeltas vals) = vals.
Proof.
  intros Hv. unfold decodeDeltaInts, encodeDeltas. rewrite encode_deltas_concat.
  rewrite uvarint_fold_bytes by (done || apply deltas_u64).
  enough (forall prev out, (foldl (fun '(prev, out) v =>
      let prev := i32 (prev + i32 v) in (prev, out ++ [prev])) (prev, out) (deltas prev vals)).2
    = out ++ vals) as E by by rewrite E.
  induction Hv as [|v vals Hv _ IH]; intros prev out; cbn [deltas foldl].
  { by rewrite app_nil_r. }
  rewrite delta_step by done. rewrite IH, <- app_assoc. done.
Qed.

Lemma decode_encode_plain vals : Forall is_i32 vals -> decodePlainInts (encodePlain vals) = vals.
Proof.
  intros Hv. unfold decodePlainInts, encodePlain.
  rewrite (list_fmap_compose u64 (uvarint_bytes MaxVarintLen64)), uvarint_fold_bytes;
    [|apply Forall_fmap, Forall_true; intros; apply u64_range|done].
  enough (forall out, foldl (fun out v => out ++ [i32 v]) out (u64 <$> vals) = out ++ vals)
    as -> by done.
  induction Hv as [|v vals Hv _ IH]; intros out; cbn [foldl fmap list_fmap].
  { by rewrite app_nil_r. }
  rewrite i32_u64, i32_small, IH, <- app_assoc by done. done.
Qed.

(** The uvarints [nodeNameRaw] writes. *)
Fixpoint name_deltas (prevPkg prevName : Z) (ids : list (Z * Z)) : list Z :=
  match ids with
  | [] => []
  | (pid, nid) :: ids =>
      (if decide (pid <> prevPkg) then u64 nid else u64 (i32 (nid - prevName)))
      :: name_deltas pid nid ids
  end.

Lemma node_name_raw_concat prevPkg prevName ids :
  node_name_raw prevPkg prevName ids =
    concat (uvarint_bytes MaxVarintLen64 <$> name_deltas prevPkg prevName ids).
Proof.
  revert prevPkg prevName. induction ids as [|[pid nid] ids IH]; intros pp pn; [done|].
  cbn [node_name_raw name_deltas]. rewrite fmap_cons. cbn [concat].
  case_decide as Hp; rewrite IH; [done|]. by rewrite Hp.
Qed.

Lemma name_deltas_u64 prevPkg prevName ids :
  Forall (fun x => 0 <= x < 2^64) (name_deltas prevPkg prevName ids).
Proof.
  revert prevPkg prevName. induction ids as [|[pid nid] ids IH]; intros pp pn; [constructor|].
  cbn [name_deltas]. constructor; [|apply IH]. case_decide; apply u64_range.
Qed.

Lemma decode_names_fold pre pkgs names pp pn out :
  Forall is_i32 names -> length pkgs = length names -> length pre = length out ->
  (foldl (name_step (pre ++ pkgs)) (pp, pn, out) (name_deltas pp pn (zip pkgs names))).2
    = out ++ names.
Proof.
  intros Hn. revert pre pkgs pp pn out.
  induction Hn as [|nid names Hnid _ IH]; intros pre [|pid pkgs] pp pn out Hl Hpre; try done.
  { cbn. by rewrite app_nil_r. }
  cbn [zip zip_with name_deltas foldl]. injection Hl as Hl.
  assert (name_step (pre ++ pid :: pkgs) (pp, pn, out)
    (if decide (pid <> pp) then u64 nid else u64 (i32 (nid - pn))) = (pid, nid, out ++ [nid])) as ->.
  { unfold name_step. rewrite <- Hpre, list_lookup_middle by done.
    case_decide as Hp.
    - by rewrite i32_u64, i32_small.
    - rewrite Hp. by rewrite delta_step. }
  rewrite (cons_middle pid pre), app_assoc, IH.
  - by rewrite <- app_assoc.
  - done.
  - rewrite !length_app. cbn. lia.
Qed.

Lemma decode_encode_names pkgIDs nameIDs :
  Forall is_i32 nameIDs -> length pkgIDs = length nameIDs ->
  decodeNameIDs (nodeNameRaw pkgIDs nameIDs) pkgIDs = nameIDs.
Proof.
  intros Hn Hl. unfold decodeNameIDs, nodeNameRaw. rewrite node_name_raw_concat.
  rewrite uvarint_fold_bytes by (apply name_deltas_u64 || done).
  by apply (decode_names_fold []).
Qed.

(** * Round trips of the list columns *)

(** [run_enc rd j prev l b]: from entry [j] with previous value [prev], the
    reader [rd] finds the entries [l] in the bytes [b], whatever follows. *)
Inductive run_enc (rd : nat -> Z -> bytes -> Z * Z) : nat -> Z -> list Z -> bytes -> Prop :=
  | run_enc_nil j prev : run_enc rd j prev [] []
  | run_enc_cons j prev d ds e b :
      (forall rest, rd j prev (e ++ rest) = (d, zlen e)) -> 0 < zlen e ->
      run_enc rd (S j) d ds b -> run_enc rd j prev (d :: ds) (e ++ b).

Lemma read_run_enc rd msg j prev l b pre post :
  run_enc rd j prev l b ->
  read_run rd msg (pre ++ b ++ post) (length l) j prev (zlen pre) = Ok (l, zlen pre + zlen b).
Proof.
  intros H. revert pre. induction H as [j prev|j prev d ds e b Hrd Hpos _ IH]; intros pre;
    cbn [length read_run].
  { by rewrite zlen_nil, Z.add_0_r. }
  rewrite slice_suffix. cbn [mbind res_bind]. rewrite <- app_assoc, Hrd. guard_pass.
  replace (zlen pre + zlen e) with (zlen (pre ++ e)) by apply zlen_app.
  rewrite (app_assoc pre), IH. cbn. by rewrite !zlen_app, Z.add_assoc.
Qed.

(** The column a writer of runs produces, node by node from [i]. *)
Fixpoint write_runs {A} (wr : Z -> A -> bytes) (i : Z) (ls : list A) : bytes :=
  match ls with
  | [] => []
  | l :: ls => wr i l ++ write_runs wr (i + 1) ls
  end.

Lemma read_runs_enc rd wr msg ls i pre post :
  (forall k l, ls !! k = Some l -> run_enc (rd (i + Z.of_nat k)) 0 0 l (wr (i + Z.of_nat k) l)) ->
  read_runs rd msg (pre ++ write_runs wr i ls ++ post) (zlen <$> ls) i (zlen pre) = Ok ls.
Proof.
  revert i pre. induction ls as [|l ls IH]; intros i pre H; [done|].
  rewrite fmap_cons. cbn [write_runs read_runs]. rewrite to_nat_zlen.
  rewrite <- (app_assoc (wr i l)).
  pose proof (H 0%nat l eq_refl) as H0. rewrite Z.add_0_r in H0.
  rewrite (read_run_enc _ _ _ _ _ _ pre _ H0). cbn [mbind res_bind].
  rewrite <- zlen_app, (app_assoc pre), IH; [done|].
  intros k l' Hk. replace (i + 1 + Z.of_nat k) with (i + Z.of_nat (S k)) by lia. by apply H.
Qed.

Lemma delta_run_enc rd j prev vals :
  (forall k p b, rd (j + k)%nat p b = let '(v, n) := readUvarint b in (i32 (p + i32 v), n)) ->
  Forall is_i32 vals -> run_enc rd j prev vals (encode_deltas prev vals).
Proof.
  intros Hrd Hv. revert j prev Hrd.
  induction Hv as [|v vals Hv _ IH]; intros j prev Hrd; cbn [encode_deltas]; constructor.
  - intros rest. pose proof (Hrd 0%nat prev) as H. rewrite Nat.add_0_r in H. rewrite H.
    unfold readUvarint. rewrite Uvarint_bytes by apply u64_range. by rewrite delta_step.
  - apply zlen_uvarint_bytes_pos.
  - apply IH. intros k. specialize (Hrd (S k)). by rewrite <- plus_n_Sm in Hrd.
Qed.

Lemma dep_run_enc i deps :
  0 <= i < 2^31 -> Forall is_i32 deps -> run_enc (rd_dep i) 0 0 deps (dep_bytes i deps).
Proof.
  intros Hi Hd. destruct Hd as [|d ds Hd Hds]; cbn [dep_bytes]; [constructor|].
  unfold is_i32 in Hd. rewrite appendZigzag_bytes by lia. cbn [app]. constructor.
  - intros rest. cbn [rd_dep]. rewrite readZigzag_bytes by lia.
    rewrite Z.add_comm, (i32_small i) by lia. rewrite Z.add_comm, i32_idemp_add.
    replace (d - i + i) with d by lia. by rewrite i32_small.
  - apply zlen_uvarint_bytes_pos.
  - by apply delta_run_enc.
Qed.

Lemma tag_run_enc tags : Forall is_i32 tags -> run_enc rd_tag 0 0 tags (tag_bytes tags).
Proof.
  intros Ht. destruct Ht as [|t ts Ht Hts]; cbn [tag_bytes]; constructor.
  - intros rest. unfold rd_tag, readUvarint. rewrite Uvarint_bytes by apply u64_range.
    by rewrite Z.add_0_l, i32_u64, !(i32_small t).
  - apply zlen_uvarint_bytes_pos.
  - by apply delta_run_enc.
Qed.

Lemma plain_run_enc j prev vals :
  Forall is_i32 vals -> run_enc rd_plain j prev vals (encodePlain vals).
Proof.
  intros Hv. unfold encodePlain. revert j prev.
  induction Hv as [|v vals Hv _ IH]; intros j prev; [constructor|].
  rewrite fmap_cons. cbn [concat]. constructor.
  - intros rest. unfold rd_plain, readUvarint. rewrite Uvarint_bytes by apply u64_range.
    by rewrite i32_u64, i32_small.
  - apply zlen_uvarint_bytes_pos.
  - apply IH.
Qed.

Lemma run_enc_length rd j prev l b : run_enc rd j prev l b -> zlen l <= zlen b.
Proof.
  induction 1 as [|j prev d ds e b _ He _ IH]; [done|]. rewrite zlen_cons, zlen_app. lia.
Qed.

Definition zsum (l : list Z) : Z := foldr Z.add 0 l.

Lemma write_runs_length rd wr i ls :
  (forall k l, ls !! k = Some l -> run_enc (rd (i + Z.of_nat k)) 0 0 l (wr (i + Z.of_nat k) l)) ->
  zsum (zlen <$> ls) <= zlen (write_runs wr i ls).
Proof.
  revert i. induction ls as [|l ls IH]; intros i H; [done|].
  rewrite fmap_cons. cbn [zsum foldr write_runs]. rewrite zlen_app.
  pose proof (H 0%nat l eq_refl) as H0. rewrite Z.add_0_r in H0. apply run_enc_length in H0.
  unfold zsum in IH. enough (foldr Z.add 0 (zlen <$> ls) <= zlen (write_runs wr (i + 1) ls)) by lia.
  apply IH. intros k l' Hk. replace (i + 1 + Z.of_nat k) with (i + Z.of_nat (S k)) by lia.
  by apply H.
Qed.

Lemma validate_degs_lens {A} (ls : list (list A)) listLen total :
  total + zsum (zlen <$> ls) <= listLen -> validate_degs (zlen <$> ls) listLen total = Ok ().
Proof.
  revert total. induction ls as [|l ls IH]; intros total H; [done|].
  rewrite fmap_cons in *. cbn [zsum foldr validate_degs] in *. pose proof (zlen_nonneg l).
  assert (forall ns, Forall (fun n => 0 <= n) ns -> 0 <= foldr Z.add 0 ns) as Hnn.
  { induction 1; cbn; lia. }
  specialize (Hnn (zlen <$> ls) ltac:(apply Forall_fmap, Forall_true; intros; apply zlen_nonneg)).
  guard_pass. guard_pass. apply IH. unfold zsum. lia.
Qed.

Lemma list_column_enc rd wr msg ls :
  (forall k l, ls !! k = Some l -> run_enc (rd (Z.of_nat k)) 0 0 l (wr (Z.of_nat k) l)) ->
  Forall (fun l => zlen l < 2^31) ls ->
  list_column rd msg (encodePlain (zlen <$> ls)) (write_runs wr 0 ls) = Ok (zlen <$> ls, ls).
Proof.
  intros H Hl. unfold list_column. rewrite decode_encode_plain.
  2: { apply Forall_fmap. eapply Forall_impl; [exact Hl|]. intros l Hs; cbn in *.
       unfold is_i32. pose proof (zlen_nonneg l). lia. }
  unfold validateDegs. rewrite validate_degs_lens by (by apply (write_runs_length rd)).
  cbn [mbind res_bind].
  pose proof (read_runs_enc rd wr msg ls 0 [] [] H) as E.
  cbn [app] in E. rewrite app_nil_r in E. change (zlen []) with 0 in E. by rewrite E.
Qed.

Lemma read_attr_run_enc ns vs pre1 post1 pre2 post2 :
  Forall is_i32 ns -> Forall is_i32 vs -> length ns = length vs ->
  read_attr_run (pre1 ++ encodePlain ns ++ post1) (pre2 ++ encodePlain vs ++ post2)
    (length ns) (zlen pre1) (zlen pre2)
  = Ok (ns, vs, zlen (pre1 ++ encodePlain ns), zlen (pre2 ++ encodePlain vs)).
Proof.
  intros Hn. revert vs pre1 pre2.
  induction Hn as [|n ns Hn _ IH]; intros vs pre1 pre2 [|v vs' Hv Hvs] Hl; try done.
  { cbn. by rewrite !app_nil_r. }
  injection Hl as Hl. unfold encodePlain. rewrite !fmap_cons. cbn [concat length read_attr_run].
  rewrite <- !app_assoc, !slice_suffix. cbn [mbind res_bind].
  unfold readUvarint. rewrite Uvarint_bytes by apply u64_range.
  pose proof (zlen_uvarint_bytes_pos (u64 n)). pose proof (zlen_uvarint_bytes_pos (u64 v)).
  guard_pass.
  rewrite Uvarint_bytes by apply u64_range. guard_pass.
  rewrite <- !zlen_app, !(app_assoc pre1), !(app_assoc pre2).
  fold (encodePlain ns) (encodePlain vs'). rewrite (IH vs') by done. cbn [mbind res_bind].
  by rewrite !i32_u64, !i32_small.
Qed.

Lemma read_attr_runs_enc names vals i pre1 pre2 :
  Forall (Forall is_i32) names -> Forall (Forall is_i32) vals ->
  Forall2 (fun ns vs => length ns = length vs) names vals ->
  read_attr_runs (pre1 ++ write_runs (fun _ => encodePlain) i names)
    (pre2 ++ write_runs (fun _ => encodePlain) i vals) (zlen <$> names) (zlen pre1) (zlen pre2)
  = Ok (names, vals).
Proof.
  intros Hn Hv HF. revert i pre1 pre2 Hn Hv.
  induction HF as [|ns vs names vals Hl _ IH]; intros i pre1 pre2 Hn Hv; [done|].
  inversion Hn; inversion Hv; subst. rewrite fmap_cons. cbn [write_runs read_attr_runs].
  rewrite to_nat_zlen, read_attr_run_enc by done. cbn [mbind res_bind].
  by rewrite !app_assoc, IH.
Qed.

Lemma decode_encode_attrs names vals :
  Forall (Forall is_i32) names -> Forall (Forall is_i32) vals ->
  Forall2 (fun ns vs => length ns = length vs) names vals ->
  Forall (fun l => zlen l < 2^31) names ->
  decodeAttrColumns (encodePlain (zlen <$> names))
    (write_runs (fun _ => encodePlain) 0 names) (write_runs (fun _ => encodePlain) 0 vals)
  = Ok (zlen <$> names, names, vals).
Proof.
  intros Hn Hv HF Hl. unfold decodeAttrColumns. rewrite decode_encode_plain.
  2: { apply Forall_fmap. eapply Forall_impl; [exact Hl|]. intros l Hs; cbn in *.
       unfold is_i32. pose proof (zlen_nonneg l). lia. }
  assert (zlen <$> names = zlen <$> vals) as E.
  { clear -HF. induction HF as [|ns vs ? ? Hl]; [done|]. rewrite !fmap_cons, IHHF. f_equal.
    unfold zlen. by rewrite Hl. }
  assert (forall ls, Forall (Forall is_i32) ls ->
    validateDegs (zlen <$> ls) (zlen (write_runs (fun _ => encodePlain) 0 ls)) = Ok ()) as Hval.
  { intros ls Hls. apply validate_degs_lens, (write_runs_length (fun _ => rd_plain)).
    intros k l Hk. apply plain_run_enc. by eapply Forall_lookup_1 in Hk. }
  rewrite (Hval names) by done. pose proof (Hval vals Hv) as Hval2. rewrite <- E in Hval2. rewrite Hval2. cbn [mbind res_bind].
  pose proof (read_attr_runs_enc names vals 0 [] [] Hn Hv HF) as R. cbn [app] in R.
  change (zlen []) with 0 in R. by rewrite R.
Qed.

(** * The decoders on arbitrary bytes *)

(** A reader of entries never claims more bytes than it was given. *)
Definition rd_bounded (rd : nat -> Z -> bytes -> Z * Z) : Prop :=
  forall j prev b d n, rd j prev b = (d, n) -> 0 < n -> n <= zlen b.

Lemma rd_dep_bounded i : rd_bounded (rd_dep i).
Proof.
  intros [|j] prev b d n; cbn [rd_dep]; unfold readZigzag, readUvarint;
    destruct (Uvarint b) as [v m] eqn:E; intros [= <- <-] Hn;
    pose proof (Uvarint_bound _ _ _ E); lia.
Qed.

Lemma rd_tag_bounded : rd_bounded rd_tag.
Proof.
  intros j prev b d n. unfold rd_tag, readUvarint.
  destruct (Uvarint b) as [v m] eqn:E. intros [= <- <-] Hn.
  pose proof (Uvarint_bound _ _ _ E). lia.
Qed.

Section runs.
Context (msg : string) (data : bytes).
Context (rd : Z -> nat -> Z -> bytes -> Z * Z) (sk : nat -> bytes -> Z).
Context (Hrd : forall i, rd_bounded (rd i)).
Context (Hsk : forall i j prev b, sk j b = (rd i j prev b).2).

(** Reading a run: it never panics, and what it reads is what skipping skips
    and what the unchecked loop of the accessors reads again. *)
Lemma read_run_spec i k j prev pos :
  0 <= pos <= zlen data ->
  match read_run (rd i) msg data k j prev pos with
  | Ok (l, pos') =>
      skip_run sk msg data k j pos = Ok pos' /\ pos <= pos' <= zlen data /\ length l = k /\
      forall buf, run_from (rd i) data k j prev pos buf = Ok (buf ++ l)
  | Err e => skip_run sk msg data k j pos = Err e
  | Panic => False
  end.
Proof.
  revert j prev pos. induction k as [|k IH]; intros j prev pos Hpos; cbn [read_run skip_run run_from].
  { split; [done|]. split; [lia|]. split; [done|]. intros buf. by rewrite app_nil_r. }
  rewrite slice_from by done. cbn [mbind res_bind].
  rewrite (Hsk i j prev). destruct (rd i j prev _) as [d n] eqn:E. cbn [snd].
  case_bool_decide as Hn; [done|]. cbn [guard_err mbind res_bind].
  assert (0 <= pos + n <= zlen data) as Hpos'.
  { pose proof (Hrd _ _ _ _ _ _ E ltac:(lia)) as Hb. unfold zlen in *. rewrite length_drop in Hb. lia. }
  specialize (IH (S j) d (pos + n) Hpos').
  destruct (read_run _ _ _ _ _ _ _) as [[l pos']|e|]; [|done|done].
  destruct IH as (Hs & Hb & Hl & Hr). split; [done|]. split; [lia|]. split; [cbn; lia|].
  intros buf. by rewrite Hr, <- app_assoc.
Qed.

(** Reading all runs: the offset table holds where each run starts, and random
    access at that offset reads the same run. *)
Lemma read_runs_spec degs i pos offs :
  0 <= pos <= zlen data ->
  match read_runs rd msg data degs i pos with
  | Ok ls =>
      exists starts, offset_loop sk msg data degs pos offs = Ok (offs ++ (i32 <$> starts)) /\
        length starts = S (length degs) /\
        Forall2 (fun deg l => zlen l = Z.of_nat (Z.to_nat deg)) degs ls /\
        forall k l, ls !! k = Some l -> exists deg p,
          degs !! k = Some deg /\ starts !! k = Some p /\ 0 <= p <= zlen data /\
          forall buf, run_from (rd (i + Z.of_nat k)) data (Z.to_nat deg) 0 0 p buf = Ok (buf ++ l)
  | Err e => offset_loop sk msg data degs pos offs = Err e
  | Panic => False
  end.
Proof.
  revert i pos offs. induction degs as [|deg degs IH]; intros i pos offs Hpos;
    cbn [read_runs offset_loop].
  { exists [pos]. split; [done|]. split; [done|]. split; [constructor|]. done. }
  pose proof (read_run_spec i (Z.to_nat deg) 0 0 pos Hpos) as H.
  destruct (read_run _ _ _ _ _ _ _) as [[l pos']|e|]; [|by rewrite H|done].
  destruct H as (-> & Hb & Hl & Hr). cbn [mbind res_bind].
  specialize (IH (i + 1) pos' (offs ++ [i32 pos]) ltac:(lia)).
  destruct (read_runs _ _ _ _ _ _) as [ls|e|]; [|done|done]. cbn [mbind res_bind].
  destruct IH as (starts & Ho & Hls & HF & Hk). exists (pos :: starts).
  split; [by rewrite Ho, <- app_assoc|]. split; [cbn; lia|].
  split; [constructor; [unfold zlen; lia|done]|].
  intros [|k] l' Hlk; cbn in Hlk.
  - injection Hlk as <-. exists deg, pos. rewrite Z.add_0_r. auto.
  - destruct (Hk k l' Hlk) as (deg' & p & ? & ? & ? & Hrun). exists deg', p.
    replace (i + Z.of_nat (S k)) with (i + 1 + Z.of_nat k) by lia. auto.
Qed.
End runs.

Lemma validate_degs_Ok degs listLen total :
  total <= listLen -> validate_degs degs listLen total = Ok () ->
  Forall (fun d => 0 <= d) degs /\ total + zsum degs <= listLen.
Proof.
  revert total. induction degs as [|d degs IH]; intros total Ht; cbn [validate_degs zsum foldr].
  { intros _. split; [constructor|lia]. }
  intros H. res_inv. apply IH in H as [? ?]; [|lia]. unfold zsum in *.
  split; [constructor; [lia|done]|lia].
Qed.

Lemma validate_degs_not_panic degs listLen total : validate_degs degs listLen total <> Panic.
Proof.
  revert total. induction degs as [|d degs IH]; intros total; cbn [validate_degs]; [done|].
  intros [_ H]%guard_err_bind_Panic. apply guard_err_bind_Panic in H as [_ H]. by apply IH in H.
Qed.

(** The number of list entries the degrees of a valid column claim. *)
Lemma concat_length degs (ls : list (list Z)) :
  Forall (fun d => 0 <= d) degs -> Forall2 (fun deg l => zlen l = Z.of_nat (Z.to_nat deg)) degs ls ->
  zlen (concat ls) = zsum degs.
Proof.
  intros Hd HF. induction HF as [|deg l degs ls Hl _ IH]; [done|].
  inversion Hd; subst. cbn [concat zsum foldr]. rewrite zlen_app, IH by done. unfold zsum. lia.
Qed.

(** The row offsets of a CSR whose first row starts at [t]. *)
Fixpoint csr_offs (t : Z) (ls : list (list Z)) : list Z :=
  match ls with
  | [] => [i32 t]
  | l :: ls => i32 t :: csr_offs (t + zlen l) ls
  end.

Lemma csr_loop_spec data degs i pos offs targets :
  csr_loop data degs i pos offs targets =
    (fun ls => (offs ++ csr_offs (zlen targets) ls, targets ++ concat ls)) <$>
      read_runs rd_dep msg_deps data degs i pos.
Proof.
  revert i pos offs targets. induction degs as [|deg degs IH]; intros i pos offs targets;
    cbn [csr_loop read_runs].
  { cbn. by rewrite app_nil_r. }
  destruct (read_run _ _ _ _ _ _ _) as [[l pos']|e|]; [|done|done]. cbn [mbind res_bind].
  rewrite IH. destruct (read_runs _ _ _ _ _ _) as [ls|e|]; [|done|done].
  cbn. by rewrite zlen_app, <- !app_assoc.
Qed.

Lemma csr_offs_lookup t ls k :
  (k <= length ls)%nat -> csr_offs t ls !! k = Some (i32 (t + zlen (concat (take k ls)))).
Proof.
  revert t k. induction ls as [|l ls IH]; intros t [|k] Hk; cbn in Hk |- *; try lia.
  - by rewrite zlen_nil, Z.add_0_r.
  - by rewrite zlen_nil, Z.add_0_r.
  - rewrite IH by lia. by rewrite zlen_app, Z.add_assoc.
Qed.

Lemma csr_row ls k l :
  zlen (concat ls) < 2^31 -> ls !! k = Some l ->
  exists lo hi, csr_offs 0 ls !! k = Some lo /\ csr_offs 0 ls !! S k = Some hi /\
    slice (concat ls) lo hi = Ok l.
Proof.
  intros Hlen Hk. pose proof (lookup_lt_Some _ _ _ Hk) as Hlt.
  assert (concat ls = concat (take k ls) ++ l ++ concat (drop (S k) ls)) as E.
  { rewrite <- (take_drop_middle ls k l Hk) at 1. by rewrite concat_app. }
  exists (zlen (concat (take k ls))), (zlen (concat (take k ls)) + zlen l).
  pose proof (zlen_nonneg (concat (take k ls))). pose proof (zlen_nonneg l).
  pose proof (zlen_nonneg (concat (drop (S k) ls))).
  rewrite !csr_offs_lookup, (take_S_r _ _ _ Hk), concat_app by lia. cbn [concat].
  rewrite app_nil_r, zlen_app, !Z.add_0_l.
  rewrite E in *. rewrite !zlen_app in Hlen. rewrite !i32_small by lia.
  split; [done|]. split; [done|]. apply slice_app_mid.
Qed.

(** * Properties *)

(** The integer columns are lossless on every [int32]: plain and delta-coded
    columns, and the name column, whose deltas restart at every change of the
    package column, decode to the values they were written from. *)
Theorem int_columns_roundtrip (vals pkgIDs nameIDs : list Z) :
  Forall is_i32 vals -> Forall is_i32 nameIDs -> length pkgIDs = length nameIDs ->
  decodePlainInts (encodePlain vals) = vals /\
  decodeDeltaInts (encodeDeltas vals) = vals /\
  decodeNameIDs (nodeNameRaw pkgIDs nameIDs) pkgIDs = nameIDs.
Proof.
  intros. split; [by apply decode_encode_plain|].
  split; [by apply decode_encode_deltas|by apply decode_encode_names].
Qed.

Ltac dec_closed := apply (bool_decide_unpack _); vm_compute; exact I.

Lemma int_columns_roundtrip_witness :
  decodeDeltaInts (encodeDeltas [2^31 - 1; -2^31; 5]) = [2^31 - 1; -2^31; 5] /\
  decodeNameIDs (nodeNameRaw [0; 0; 3] [7; 9; 2]) [0; 0; 3] = [7; 9; 2].
Proof.
  destruct (int_columns_roundtrip [2^31 - 1; -2^31; 5] [0; 0; 3] [7; 9; 2]) as (_ & H1 & H2);
    [unfold is_i32; repeat (constructor; [lia|]); constructor..|reflexivity|].
  exact (conj H1 H2).
Defined.

(** The list columns are lossless: for any per-node dependency lists (coded
    relative to the node), tag lists and parallel attribute lists of [int32]s,
    the decoders accept the encoded columns -- their byte-conservation check on
    the degrees included -- and return the degrees and the lists. *)
Theorem list_columns_roundtrip (deps tags names vals : list (list Z)) :
  Forall (Forall is_i32) (deps ++ tags ++ names ++ vals) ->
  Forall (fun l => zlen l < 2^31) (deps ++ tags ++ names) ->
  zlen deps < 2^31 -> Forall2 (fun ns vs => length ns = length vs) names vals ->
  decodeDepColumns (encodePlain (zlen <$> deps)) (write_runs dep_bytes 0 deps)
    = Ok (zlen <$> deps, deps) /\
  decodeTagColumns (encodePlain (zlen <$> tags)) (write_runs (fun _ => tag_bytes) 0 tags)
    = Ok (zlen <$> tags, tags) /\
  decodeAttrColumns (encodePlain (zlen <$> names)) (write_runs (fun _ => encodePlain) 0 names)
    (write_runs (fun _ => encodePlain) 0 vals) = Ok (zlen <$> names, names, vals).
Proof.
  rewrite !Forall_app. intros (Hd & Ht & Hn & Hv) (Hld & Hlt & Hln) Hlen HF.
  split; [|split].
  - apply list_column_enc; [|done]. intros k l Hk. apply dep_run_enc.
    + apply lookup_lt_Some in Hk. unfold zlen in Hlen. lia.
    + by eapply Forall_lookup_1 in Hk.
  - apply (list_column_enc (fun _ => rd_tag)); [|done]. intros k l Hk.
    apply tag_run_enc. by eapply Forall_lookup_1 in Hk.
  - by apply decode_encode_attrs.
Qed.

Lemma list_columns_roundtrip_witness :
  decodeDepColumns (encodePlain [2; 0; 1]) (write_runs dep_bytes 0 [[1; 2]; []; [0]])
    = Ok ([2; 0; 1], [[1; 2]; []; [0]]).
Proof.
  refine (proj1 (list_columns_roundtrip [[1; 2]; []; [0]] [[4]] [[1]] [[3]] _ _ _ _)).
  - cbn. repeat (constructor || unfold is_i32); lia.
  - repeat constructor.
  - reflexivity.
  - repeat constructor.
Defined.

(** The three readers of the dependency column agree on every input, hostile
    ones included: if the bulk decoder accepts, so do the offset index and the
    CSR decoder, and on each node both the random access through the index
    ([Deps]) and the CSR row give the list the bulk decoder gives, the [int32]
    offsets not overflowing; if it rejects, all reject with the same error; and
    none panics. *)
Theorem dep_decoders_agree (degData depsData : bytes) :
  zlen depsData < 2^31 ->
  match decodeDepColumns degData depsData with
  | Ok (degs, lists) =>
      length lists = length degs /\
      exists offs csrOffs,
        dep_offsets degData depsData = Ok (degs, offs) /\
        deps_csr degData depsData = Ok (csrOffs, concat lists) /\
        forall k l buf, lists !! k = Some l ->
          node_run rd_dep depsData degs offs (Z.of_nat k) buf = Ok (buf ++ l) /\
          exists lo hi, csrOffs !! k = Some lo /\ csrOffs !! S k = Some hi /\
            slice (concat lists) lo hi = Ok l
  | Err e => dep_offsets degData depsData = Err e /\ deps_csr degData depsData = Err e
  | Panic => False
  end.
Proof.
  intros Hlen. unfold decodeDepColumns, list_column, dep_offsets, column_offsets, deps_csr.
  set (degs := decodePlainInts degData). pose proof (zlen_nonneg depsData).
  destruct (validateDegs degs (zlen depsData)) as [[]|e|] eqn:Hval; cbn [mbind res_bind];
    [|done|by apply validate_degs_not_panic in Hval].
  rewrite csr_loop_spec.
  pose proof (read_runs_spec msg_deps depsData rd_dep skip_dep rd_dep_bounded) as Hspec.
  specialize (Hspec ltac:(intros i [|j] prev b; cbn; unfold readZigzag, readUvarint;
    by destruct (Uvarint b)) degs 0 0 [] ltac:(lia)).
  destruct (read_runs _ _ _ _ _ _) as [ls|e|]; cbn [mbind res_bind]; [|by rewrite Hspec|done].
  destruct Hspec as (starts & Ho & Hls & HF & Hk).
  apply validate_degs_Ok in Hval as [Hnn Hsum]; [|done].
  split; [by rewrite (Forall2_length _ _ _ HF)|].
  exists (i32 <$> starts), (csr_offs 0 ls).
  rewrite Ho. split; [done|]. split; [done|]. intros k l buf Hkl. split.
  - destruct (Hk k l Hkl) as (deg & p & Hdeg & Hp & Hpb & Hrun).
    pose proof (lookup_lt_Some _ _ _ Hdeg). unfold node_run.
    rewrite decide_False by (unfold zlen; lia). rewrite !index_lookup, list_lookup_fmap, Hp, Hdeg.
    cbn. rewrite i32_small by lia. apply Hrun.
  - apply csr_row; [|done]. rewrite (concat_length degs) by done. lia.
Qed.

Lemma dep_decoders_agree_witness :
  exists offs, dep_offsets [x01; x01] [x02; x01] = Ok ([1; 1], offs) /\
    node_run rd_dep [x02; x01] [1; 1] offs 1 [] = Ok [0].
Proof.
  pose proof (dep_decoders_agree [x01; x01] [x02; x01] eq_refl) as H.
  assert (E : decodeDepColumns [x01; x01] [x02; x01] = Ok ([1; 1], [[1]; [0]]))
    by (vm_compute; reflexivity).
  rewrite E in H. destruct H as (_ & offs & csr & Ho & _ & H). exists offs.
  split; [exact Ho|exact (proj1 (H 1%nat [0] [] eq_refl))].
Defined.
