(* ===== verification/Psort.v ===== *)
(** The parallel merge sort of the encoder ([internal/tgb/psort.go]).

    The two halves of [sortMerge] are disjoint slices, so the goroutine that
    sorts the first and the caller that sorts the second do not interact, and
    [wg.Wait] orders both before the merge. *)
From Stdlib Require Import ZArith Lia.
From S2P Require Import Prelude.

Local Open Scope Z_scope.

Section psort.
Context {A : Type} (cmp : A -> A -> comparison).

(** [slices.SortFunc] leaves the order of equivalent elements open. *)
Context (SortFunc : list A -> list A).

(** The merge of [s[i:m]] and [s[j:]] into [buf], and the two [copy]s that move
    what is left of either half: [c <= 0] takes from the left one. *)
Fixpoint merge_halves (l : list A) : list A -> list A :=
  fix go (r : list A) : list A :=
    match l, r with
    | [], _ => r
    | _, [] => l
    | x :: l', y :: r' =>
        match cmp x y with
        | Gt => y :: go r'
        | _ => x :: merge_halves l' r
        end
    end.

Fixpoint sortMerge (depth : nat) (s : list A) : list A :=
  match depth with
  | O => SortFunc s
  | S depth =>
      if decide (zlen s < 4096) then SortFunc s
      else
        let m := Nat.div (length s) 2 in
        merge_halves (sortMerge depth (take m s)) (sortMerge depth (drop m s))
  end.

(** [for c := GOMAXPROCS(0); c > 1 && depth < 4; c >>= 1 { depth++ }]: the
    bound on [depth] is the fuel. *)
Fixpoint sort_depth (fuel : nat) (c : Z) : nat :=
  match fuel with
  | O => O
  | S fuel => if decide (1 < c) then S (sort_depth fuel (Z.shiftr c 1)) else O
  end.

Definition parallelSortFunc (procs : Z) (s : list A) : list A :=
  if decide (zlen s < Z.shiftl 1 15) then SortFunc s
  else sortMerge (sort_depth 4 procs) s.

(** * Lemmas *)

Context `{!TotalCmp cmp}.
Context (SortFunc_perm : forall s, SortFunc s ≡ₚ s).
Context (SortFunc_sorted : forall s, StronglySorted (cle cmp) (SortFunc s)).

Lemma merge_halves_nil_r l : merge_halves l [] = l.
Proof. by destruct l. Qed.

Lemma merge_halves_cons x l y r :
  merge_halves (x :: l) (y :: r) =
    match cmp x y with
    | Gt => y :: merge_halves (x :: l) r
    | _ => x :: merge_halves l (y :: r)
    end.
Proof. done. Qed.

Lemma merge_halves_perm l r : merge_halves l r ≡ₚ l ++ r.
Proof.
  revert r. induction l as [|x l IHl]; intros r; [by destruct r|].
  induction r as [|y r IHr]; [by rewrite merge_halves_nil_r, app_nil_r|].
  rewrite merge_halves_cons. destruct (cmp x y).
  - by rewrite IHl.
  - by rewrite IHl.
  - by rewrite IHr, <- Permutation_middle.
Qed.

Lemma merge_halves_sorted l r :
  StronglySorted (cle cmp) l -> StronglySorted (cle cmp) r ->
  StronglySorted (cle cmp) (merge_halves l r).
Proof.
  intros Hl. revert r. induction Hl as [|x l Hl IHl Hx]; intros r Hr; [by destruct r|].
  induction Hr as [|y r Hr IHr Hy]; [rewrite merge_halves_nil_r; by constructor|].
  rewrite merge_halves_cons. destruct (cmp x y) eqn:E.
  1, 2: constructor; [apply IHl; by constructor|];
    rewrite merge_halves_perm; apply Forall_app; split; [done|];
    assert (cle cmp x y) as Hxy by (unfold cle; by rewrite E);
    constructor; [done|]; eapply Forall_impl; [exact Hy|]; intros z Hz; by trans y.
  constructor; [done|]. rewrite merge_halves_perm.
  assert (cle cmp y x) as Hyx by (unfold cle; rewrite (cmp_anti (cmp:=cmp)), E; done).
  constructor; [done|]. apply Forall_app; split; [|done].
  eapply Forall_impl; [exact Hx|]. intros z Hz. by trans x.
Qed.

Lemma sortMerge_perm depth s : sortMerge depth s ≡ₚ s.
Proof.
  revert s. induction depth as [|depth IH]; intros s; cbn [sortMerge]; [apply SortFunc_perm|].
  case_decide; [apply SortFunc_perm|]. by rewrite merge_halves_perm, !IH, take_drop.
Qed.

Lemma sortMerge_sorted depth s : StronglySorted (cle cmp) (sortMerge depth s).
Proof.
  revert s. induction depth as [|depth IH]; intros s; cbn [sortMerge]; [apply SortFunc_sorted|].
  case_decide; [apply SortFunc_sorted|]. by apply merge_halves_sorted.
Qed.

Lemma parallelSortFunc_perm procs s : parallelSortFunc procs s ≡ₚ s.
Proof. unfold parallelSortFunc. case_decide; [apply SortFunc_perm|apply sortMerge_perm]. Qed.

Lemma parallelSortFunc_sorted procs s : StronglySorted (cle cmp) (parallelSortFunc procs s).
Proof. unfold parallelSortFunc. case_decide; [apply SortFunc_sorted|apply sortMerge_sorted]. Qed.
End psort.

Arguments parallelSortFunc : simpl never.

(** * Properties *)

(** Whatever the number of processors and whatever [slices.SortFunc] does with
    equivalent elements, [parallelSortFunc] returns a sorted permutation of its
    input; when the comparison is linear, that is the list a sequential sort
    returns, so the parallelism is not observable. *)
Theorem parallelSortFunc_correct {A} (cmp : A -> A -> comparison) (SortFunc : list A -> list A)
  (procs : Z) (s : list A) :
  TotalCmp cmp ->
  (forall s, SortFunc s ≡ₚ s /\ StronglySorted (cle cmp) (SortFunc s)) ->
  parallelSortFunc cmp SortFunc procs s ≡ₚ s /\
  StronglySorted (cle cmp) (parallelSortFunc cmp SortFunc procs s) /\
  (LinearCmp cmp -> parallelSortFunc cmp SortFunc procs s = sort_func cmp s).
Proof.
  intros Hc H.
  assert (Hp : parallelSortFunc cmp SortFunc procs s ≡ₚ s)
    by (apply parallelSortFunc_perm; intros; apply H).
  assert (Hs : StronglySorted (cle cmp) (parallelSortFunc cmp SortFunc procs s))
    by (apply parallelSortFunc_sorted; [done|intros; apply H]).
  split; [done|]. split; [done|]. intros ?. symmetry. by apply sort_func_unique.
Qed.

Lemma parallelSortFunc_correct_witness :
  parallelSortFunc Z.compare (sort_func Z.compare) 8 [3; 1; 2] = [1; 2; 3] /\
  LinearCmp Z.compare.
Proof.
  split; [|apply _].
  destruct (parallelSortFunc_correct Z.compare (sort_func Z.compare) 8 [3; 1; 2]) as (_ & _ & H).
  - apply _.
  - intros s. split; [apply sort_func_perm|apply sort_func_sorted; apply _].
  - rewrite H by apply _. vm_compute. reflexivity.
Defined.
