(* ===== verification/Entity.v ===== *)
(** The ID-mapped target graph: [entity/optimized_target.go],
    [entity/changed_targets.go], [internal/tgb/graph.go], and the label
    splitting of [internal/tgb/encode.go]. *)
From Stdlib Require Import ZArith Lia.
From S2P Require Import Prelude Varint.

Local Open Scope Z_scope.

(** * Targets and metadata *)

Record OptimizedTarget := {
  ot_ID : Z;
  ot_Hash : bytes;
  ot_DirectDependencies : list Z;
  ot_RuleType : Z;
  ot_Tags : list Z;
  ot_Root : bool;
  ot_External : bool;
  ot_Attributes : gmap Z Z;
}.

(** A nil map and an empty one read the same; both are [∅]. *)
Record Metadata := {
  TargetIDMapping : gmap Z bytes;
  RuleTypeMapping : gmap Z bytes;
  TagMapping : gmap Z bytes;
  AttributeNameMapping : gmap Z bytes;
  AttributeStringValueMapping : gmap Z bytes;
  AllTargetsFileHashes : gmap bytes bytes;
}.

(** [ChangeType] as its [int32] values. *)
Record ChangedTarget := {
  ct_ChangeType : Z;
  ct_OldTarget : option OptimizedTarget;
  ct_NewTarget : option OptimizedTarget;
  ct_Distance : Z;
}.

Record Graph := { Targets : list OptimizedTarget; Meta : Metadata }.

#[export] Instance OptimizedTarget_eq_dec : EqDecision OptimizedTarget.
Proof. solve_decision. Defined.
#[export] Instance Metadata_eq_dec : EqDecision Metadata.
Proof. solve_decision. Defined.
#[export] Instance ChangedTarget_eq_dec : EqDecision ChangedTarget.
Proof. solve_decision. Defined.

(** * Wire size estimates *)

(** [n += 1 + wire.VarintSize(uint64(len)) + len]: a length-delimited field. *)
Definition delimited (len : Z) : Z := 1 + VarintSize (u64 len) + len.

Definition packed_size (l : list Z) : Z :=
  foldl (fun n d => n + VarintSize (u64 d)) 0 l.

Definition attr_entry_size (kv : Z * Z) : Z :=
  1 + VarintSize (u64 kv.1) + 1 + VarintSize (u64 kv.2).

Definition OptimizedTarget_Size (t : OptimizedTarget) : Z :=
  let n := 0 in
  let n := if decide (ot_ID t <> 0) then n + (1 + VarintSize (u64 (ot_ID t))) else n in
  let n := if decide (0 < zlen (ot_Hash t)) then n + delimited (zlen (ot_Hash t)) else n in
  let n := if decide (0 < zlen (ot_DirectDependencies t))
           then n + delimited (packed_size (ot_DirectDependencies t)) else n in
  let n := if decide (ot_RuleType t <> 0) then n + (1 + VarintSize (u64 (ot_RuleType t))) else n in
  let n := if decide (0 < zlen (ot_Tags t)) then n + delimited (packed_size (ot_Tags t)) else n in
  let n := if ot_Root t then n + (1 + 1) else n in
  let n := if ot_External t then n + (1 + 1) else n in
  foldl (fun n kv => n + delimited (attr_entry_size kv)) n (map_to_list (ot_Attributes t)).

Definition ChangedTarget_Size (ct : ChangedTarget) : Z :=
  let n := 0 in
  let n := if decide (ct_ChangeType ct <> 0)
           then n + (1 + VarintSize (u64 (ct_ChangeType ct))) else n in
  let n := if ct_OldTarget ct is Some t then n + delimited (OptimizedTarget_Size t) else n in
  let n := if ct_NewTarget ct is Some t then n + delimited (OptimizedTarget_Size t) else n in
  if decide (ct_Distance ct <> 0) then n + (1 + VarintSize (u64 (ct_Distance ct))) else n.

(** * Labels *)

Definition colon : byte := x3a.

(** [strings.LastIndex(label, ":")] and the two sides of it. *)
Fixpoint split_last_colon (l : bytes) : option (bytes * bytes) :=
  match l with
  | [] => None
  | c :: l' =>
      match split_last_colon l' with
      | Some (p, n) => Some (c :: p, n)
      | None => if decide (c = colon) then Some ([], l') else None
      end
  end.

Definition splitLabel (label : bytes) : bytes * bytes :=
  match split_last_colon label with
  | None => ([], label)
  | Some (pkg, name) => (pkg, name)
  end.

Definition SplitLabelString (label : bytes) : bytes * bytes := splitLabel label.

Definition joinLabel (pkg name : bytes) : bytes :=
  match pkg with [] => name | _ => pkg ++ [colon] ++ name end.

Lemma split_last_colon_Some l p n :
  split_last_colon l = Some (p, n) -> l = p ++ colon :: n /\ colon ∉ n.
Proof.
  revert p n. induction l as [|c l IH]; intros p n; cbn; [done|].
  destruct (split_last_colon l) as [[p' n']|] eqn:E.
  - intros [= <- <-]. destruct (IH _ _ eq_refl) as [-> ?]. done.
  - case_decide as Hc; [|done]. intros [= <- <-]. subst. split; [done|].
    clear IH. induction l as [|d l IH]; [by apply not_elem_of_nil|]. cbn in E.
    destruct (split_last_colon l) as [[??]|]; [done|]. case_decide; [done|].
    apply not_elem_of_cons. split; [done|]. by apply IH.
Qed.

Lemma split_last_colon_None l : split_last_colon l = None <-> colon ∉ l.
Proof.
  induction l as [|c l IH]; cbn.
  - split; [intros _; apply not_elem_of_nil|done].
  - rewrite not_elem_of_cons. destruct (split_last_colon l) as [[p n]|].
    + split; [done|]. intros [_ H]. by apply IH in H.
    + case_decide as Hc; [split; [done|intros []; congruence]|].
      split; [intros _; split; [congruence|by apply IH]|done].
Qed.

Lemma split_app_colon p n : colon ∉ n -> split_last_colon (p ++ colon :: n) = Some (p, n).
Proof.
  intros Hn. induction p as [|c p IH]; cbn [app split_last_colon].
  - apply split_last_colon_None in Hn. rewrite Hn. by rewrite decide_True.
  - by rewrite IH.
Qed.

(** A label is lost by splitting exactly when its last colon is its first byte. *)
Definition label_ok (label : bytes) : Prop :=
  match splitLabel label with ([], n) => n = label | _ => True end.

#[export] Instance label_ok_dec label : Decision (label_ok label).
Proof. unfold label_ok. destruct (splitLabel label) as [[|] ?]; apply _. Defined.

Lemma join_split label : label_ok label -> joinLabel (splitLabel label).1 (splitLabel label).2 = label.
Proof.
  unfold label_ok, splitLabel. destruct (split_last_colon label) as [[p n]|] eqn:E; [|done].
  apply split_last_colon_Some in E as [-> _]. by destruct p.
Qed.

(** * Properties *)

(** Splitting a label at its last colon and joining the halves gives the label
    back exactly when the label does not start with its last colon; and a
    package with a colon-free name joins to a label that splits into them, so
    the pair is as good a key as the label. *)
Theorem split_join_label (label pkg name : bytes) :
  (joinLabel (splitLabel label).1 (splitLabel label).2 = label <->
     forall n, label = colon :: n -> colon ∈ n) /\
  (colon ∉ name -> pkg <> [] -> splitLabel (joinLabel pkg name) = (pkg, name)).
Proof.
  split.
  - unfold splitLabel. destruct (split_last_colon label) as [[p n]|] eqn:E.
    + apply split_last_colon_Some in E as [-> Hn]. destruct p as [|c p]; cbn.
      * split.
        -- intros H. apply (f_equal length) in H. cbn in H. lia.
        -- intros H. destruct Hn. by apply H.
      * split; [|done]. intros _ n' [= -> <-]. set_solver.
    + apply split_last_colon_None in E. cbn. split; [|done]. intros _ n ->. set_solver.
  - intros Hn Hp. destruct pkg as [|c p]; [done|]. unfold joinLabel, splitLabel.
    pose proof (split_app_colon (c :: p) name Hn) as E. cbn [app] in *. by rewrite E.
Qed.

Lemma split_join_label_witness : splitLabel (joinLabel (bs "//a/b") (bs "t")) = (bs "//a/b", bs "t").
Proof.
  apply (proj2 (split_join_label [] (bs "//a/b") (bs "t"))).
  - apply (bool_decide_unpack _). vm_compute. exact I.
  - discriminate.
Defined.

(** The witness of the loss: the label [":foo"]. *)
Theorem splitLabel_lossy : joinLabel (splitLabel (bs ":foo")).1 (splitLabel (bs ":foo")).2 = bs "foo".
Proof. reflexivity. Qed.
