(* ===== verification/Encode.v ===== *)
(** The TGB encoder ([internal/tgb/encode.go]). *)
From Stdlib Require Import ZArith Lia ZifyNat.
From S2P Require Import Prelude Varint Format Dict Columns Psort Entity.

Local Open Scope Z_scope.

(** * Environment

    What the encoder takes from outside the repository: the number of
    processors, the xxhash64 of [cespare/xxhash], the zstd of
    [klauspost/compress] at a level, and the two choices the Go language leaves
    open: the order in which [slices.SortFunc] leaves nodes with equal labels
    and the order in which [range] visits the attributes of a target. *)

Record nodeInfo := {
  ni_label : bytes;
  ni_pkg : bytes;
  ni_name : bytes;
  ni_origIdx : Z;
  ni_origID : Z;
}.

Record encode_env := {
  procs : Z;
  xxhash64 : bytes -> Z;
  zstd_compress : Z -> bytes -> bytes;
  sort_nodes : list nodeInfo -> list nodeInfo;
  range_attrs : gmap Z Z -> list (Z * Z);
}.

Record EncodeOptions := {
  ZstdLevel : Z;
  HashBytes : Z;
  BlockSize : Z;
  Serial : bool;
}.

Definition fillDefaults (o : EncodeOptions) : EncodeOptions :=
  {| ZstdLevel := ZstdLevel o;
     HashBytes := if decide (HashBytes o = 0) then 8 else HashBytes o;
     BlockSize := if decide (BlockSize o = 0) then 512 else BlockSize o;
     Serial := Serial o |}.

(** * Nodes and dictionaries *)

Definition node_cmp (a b : nodeInfo) : comparison :=
  match bcompare (ni_pkg a) (ni_pkg b) with
  | Eq => bcompare (ni_name a) (ni_name b)
  | c => c
  end.

(** [if !ok { return errorf(msg) }] after a comma-ok lookup. *)
Definition comma_ok {A} (o : option A) (msg : string) : res A :=
  match o with Some a => Ok a | None => Err msg end.
Arguments comma_ok {A} o msg%_string_scope.

(** [for i, x := range s { y, err := f(i, x); if err != nil { return err }; ... }] *)
Fixpoint for_each {A B} (f : Z -> A -> res B) (i : Z) (s : list A) : res (list B) :=
  match s with
  | [] => Ok []
  | x :: s => y ← f i x; ys ← for_each f (i + 1) s; Ok (y :: ys)
  end.

Definition build_node (meta : Metadata) (i : Z) (t : OptimizedTarget) : res nodeInfo :=
  label ← comma_ok (TargetIDMapping meta !! ot_ID t) "target ID has no label";
  let '(pkg, name) := splitLabel label in
  Ok {| ni_label := label; ni_pkg := pkg; ni_name := name;
        ni_origIdx := i; ni_origID := ot_ID t |}.

Definition buildNodes (env : encode_env) (g : Graph) : res (list nodeInfo) :=
  nodes ← for_each (build_node (Meta g)) 0 (Targets g);
  Ok (parallelSortFunc node_cmp (sort_nodes env) (procs env) nodes).

(** The values of a map, in whatever order: they are sorted next. *)
Definition sortedUniqueStrings (m : gmap Z bytes) : list bytes :=
  compact (sort_func bcompare ((map_to_list m).*2)).

Definition buildStrIndex (strs : list bytes) : gmap bytes Z :=
  (foldl (fun '(i, m) s => (i + 1, <[s := i32 i]> m)) (0, ∅) strs).2.

(** A string without an index reads as the zero value. *)
Definition remapTable (mapping : gmap Z bytes) (dictIdx : gmap bytes Z) : gmap Z Z :=
  (fun s => default 0 (dictIdx !! s)) <$> mapping.

(** The package dictionary and the package IDs: nodes are sorted, so a package
    is a run.  [first] is [i == 0]. *)
Fixpoint pkg_runs (first : bool) (prevPkg : bytes) (curPkgID : Z) (nodes : list nodeInfo) :
  list bytes * list Z :=
  match nodes with
  | [] => ([], [])
  | n :: nodes =>
      if decide (first = true \/ ni_pkg n <> prevPkg) then
        let cur := i32 (curPkgID + 1) in
        let '(dict, ids) := pkg_runs false (ni_pkg n) cur nodes in
        (ni_pkg n :: dict, cur :: ids)
      else
        let '(dict, ids) := pkg_runs false prevPkg curPkgID nodes in
        (dict, curPkgID :: ids)
  end.

Record dicts := {
  e_pkgDict : list bytes;
  e_pkgIDs : list Z;
  e_nameDict : list bytes;
  e_ruleTypeDict : list bytes;
  e_tagDict : list bytes;
  e_attrNameDict : list bytes;
  e_attrValDict : list bytes;
}.

Definition buildDicts (env : encode_env) (meta : Metadata) (nodes : list nodeInfo) : dicts :=
  let '(pkgDict, pkgIDs) := pkg_runs true [] (-1) nodes in
  {| e_pkgDict := pkgDict; e_pkgIDs := pkgIDs;
     e_nameDict := compact (parallelSortFunc bcompare (sort_func bcompare) (procs env)
                              (ni_name <$> nodes));
     e_ruleTypeDict := sortedUniqueStrings (RuleTypeMapping meta);
     e_tagDict := sortedUniqueStrings (TagMapping meta);
     e_attrNameDict := sortedUniqueStrings (AttributeNameMapping meta);
     e_attrValDict := sortedUniqueStrings (AttributeStringValueMapping meta) |}.

(** * Hashes *)

Definition hexNibble (c : byte) : option Z :=
  let c := b2z c in
  if decide (48 <= c <= 57) then Some (c - 48)
  else if decide (97 <= c <= 102) then Some (c - 97 + 10)
  else if decide (65 <= c <= 70) then Some (c - 65 + 10)
  else None.

(** The first [n] bytes that the hex string [s] spells. *)
Fixpoint hex_pairs (n : nat) (s : bytes) : res bytes :=
  match n, s with
  | O, _ => Ok []
  | S n, a :: b :: s =>
      match hexNibble a, hexNibble b with
      | Some hi, Some lo =>
          rest ← hex_pairs n s; Ok (z2b (Z.lor (Z.shiftl hi 4) lo) :: rest)
      | _, _ => Err "hash is not hex"
      end
  | S _, _ => Panic
  end.

Definition hexDecodeInto (n : Z) (s : bytes) : res bytes :=
  _ ← guard_err (bool_decide (zlen s mod 2 <> 0)) "hash has odd hex length";
  _ ← guard_err (bool_decide (zlen s / 2 < n)) "hash is too short";
  dst ← hex_pairs (Z.to_nat n) s;
  _ ← guard_err (negb (forallb (fun c => bool_decide (is_Some (hexNibble c)))
                         (drop (2 * Z.to_nat n) s))) "hash is not hex";
  Ok dst.

(** [hex.EncodeToString] *)
Definition hex_digit (v : Z) : byte := if decide (v < 10) then z2b (48 + v) else z2b (97 + (v - 10)).
Definition hexEncode (b : bytes) : bytes :=
  concat ((fun c => [hex_digit (Z.shiftr (b2z c) 4); hex_digit (Z.land (b2z c) 15)]) <$> b).

(** [hex.DecodeString]: the bytes, unless the string has an odd length or a
    byte that is not a hex digit. *)
Definition hexDecodeString (s : bytes) : res bytes :=
  if decide (forallb (fun c => bool_decide (is_Some (hexNibble c))) s = true /\ zlen s mod 2 = 0)
  then hex_pairs (Nat.div (length s) 2) s
  else Err "encoding/hex: invalid string".

(** [copy(out, raw)] into [n] zero bytes. *)
Definition decodeHashHex (h : bytes) (n : Z) : bytes :=
  let out := replicate (Z.to_nat n) x00 in
  match hexDecodeString h with
  | Ok raw => take (Z.to_nat n) raw ++ drop (length raw) out
  | _ => out
  end.

Definition truncate_target (n : Z) (t : OptimizedTarget) : OptimizedTarget :=
  if decide (ot_Hash t <> []) then
    {| ot_ID := ot_ID t; ot_Hash := hexEncode (decodeHashHex (ot_Hash t) n);
       ot_DirectDependencies := ot_DirectDependencies t; ot_RuleType := ot_RuleType t;
       ot_Tags := ot_Tags t; ot_Root := ot_Root t; ot_External := ot_External t;
       ot_Attributes := ot_Attributes t |}
  else t.

Definition TruncateHashes (g : Graph) (n : Z) : Graph :=
  {| Targets := truncate_target n <$> Targets g; Meta := Meta g |}.

(** * Columns *)

(** [origID -> node index], as a slice for dense IDs and a map for sparse ones. *)
Inductive id_table :=
  | IdSlice (s : list Z)
  | IdMap (m : gmap Z Z).

Definition max_orig_id (nodes : list nodeInfo) : Z :=
  foldl (fun maxID n => if decide (maxID < ni_origID n) then ni_origID n else maxID) 0 nodes.

Definition build_id_table (nodes : list nodeInfo) : res id_table :=
  let maxID := max_orig_id nodes in
  if decide (maxID < 2 * zlen nodes + 16) then
    let size := i32 (maxID + 1) in
    if decide (size < 0) then Panic
    else
      Ok (IdSlice (foldl (fun '(i, s) n =>
            (i + 1, if decide (0 <= ni_origID n) then <[Z.to_nat (ni_origID n) := i32 i]> s else s))
          (0, replicate (Z.to_nat size) (-1)) nodes).2)
  else
    Ok (IdMap (foldl (fun '(i, m) n => (i + 1, <[ni_origID n := i32 i]> m)) (0, ∅) nodes).2).

Definition resolveID (tab : id_table) (id : Z) : option Z :=
  match tab with
  | IdSlice s =>
      if decide (id < 0) then None
      else match s !! Z.to_nat id with
           | Some i => if decide (i < 0) then None else Some i
           | None => None
           end
  | IdMap m => m !! id
  end.

(** What the per-node pass computes for one node. *)
Record node_out := {
  no_name : Z; no_rt : Z; no_hash : bytes; no_empty : bool;
  no_deg : Z; no_deps : bytes;
  no_tagDeg : Z; no_tags : bytes;
  no_attrDeg : Z; no_nms : bytes; no_vls : bytes;
  no_root : bool; no_ext : bool;
}.

Record tables := {
  t_nameIdx : gmap bytes Z;
  t_rt : gmap Z Z; t_tag : gmap Z Z; t_an : gmap Z Z; t_av : gmap Z Z;
  t_ids : id_table;
}.

Definition build_tables (meta : Metadata) (d : dicts) (nodes : list nodeInfo) : res tables :=
  ids ← build_id_table nodes;
  Ok {| t_nameIdx := buildStrIndex (e_nameDict d);
        t_rt := remapTable (RuleTypeMapping meta) (buildStrIndex (e_ruleTypeDict d));
        t_tag := remapTable (TagMapping meta) (buildStrIndex (e_tagDict d));
        t_an := remapTable (AttributeNameMapping meta) (buildStrIndex (e_attrNameDict d));
        t_av := remapTable (AttributeStringValueMapping meta) (buildStrIndex (e_attrValDict d));
        t_ids := ids |}.

Definition encode_attr (tabs : tables) (_ : Z) (kv : Z * Z) : res (Z * Z) :=
  nid ← comma_ok (t_an tabs !! kv.1) "attribute name ID has no mapping";
  vid ← comma_ok (t_av tabs !! kv.2) "attribute value ID has no mapping";
  Ok (nid, vid).

Definition encode_hash (hb : Z) (h : bytes) : res (bytes * bool) :=
  match h with
  | [] => Ok (replicate (Z.to_nat hb) x00, true)
  | _ => raw ← hexDecodeInto hb h; Ok (raw, false)
  end.

(** The per-node loop body resolves the IDs of a target ... *)
Record node_res := {
  nr_name : Z; nr_rt : Z; nr_hash : bytes; nr_empty : bool;
  nr_deps : list Z; nr_tags : list Z; nr_attrs : list (Z * Z); nr_attrCount : Z;
  nr_root : bool; nr_ext : bool;
}.

Definition resolve_node (env : encode_env) (g : Graph) (hb : Z) (tabs : tables) (nd : nodeInfo) :
  res node_res :=
  t ← index (Targets g) (ni_origIdx nd);
  rtID ← comma_ok (t_rt tabs !! ot_RuleType t) "rule type ID has no mapping";
  '(hash, empty) ← encode_hash hb (ot_Hash t);
  depsBuf ← for_each (fun _ id => comma_ok (resolveID (t_ids tabs) id)
                        "dependency ID has no target in the graph") 0 (ot_DirectDependencies t);
  tagsBuf ← for_each (fun _ id => comma_ok (t_tag tabs !! id) "tag ID has no mapping") 0 (ot_Tags t);
  kvsBuf ← for_each (encode_attr tabs) 0 (range_attrs env (ot_Attributes t));
  Ok {| nr_name := default 0 (t_nameIdx tabs !! ni_name nd); nr_rt := rtID;
        nr_hash := hash; nr_empty := empty;
        nr_deps := sort_func Z.compare depsBuf; nr_tags := sort_func Z.compare tagsBuf;
        nr_attrs := sort_func (fun a b => a.1 ?= b.1) kvsBuf;
        nr_attrCount := Z.of_nat (size (ot_Attributes t));
        nr_root := ot_Root t; nr_ext := ot_External t |}.

(** ... and writes them: the contribution of node [i] to each column. *)
Definition node_output (i : Z) (r : node_res) : node_out :=
  {| no_name := nr_name r; no_rt := nr_rt r; no_hash := nr_hash r; no_empty := nr_empty r;
     no_deg := i32 (zlen (nr_deps r)); no_deps := dep_bytes i (nr_deps r);
     no_tagDeg := i32 (zlen (nr_tags r)); no_tags := tag_bytes (nr_tags r);
     no_attrDeg := i32 (nr_attrCount r);
     no_nms := encodePlain ((nr_attrs r).*1); no_vls := encodePlain ((nr_attrs r).*2);
     no_root := nr_root r; no_ext := nr_ext r |}.

Definition encode_node (env : encode_env) (g : Graph) (hb : Z) (tabs : tables)
  (i : Z) (nd : nodeInfo) : res node_out :=
  r ← resolve_node env g hb tabs nd;
  Ok (node_output i r).

(** The shards: [shardLen] is a multiple of eight, or the whole graph. *)
Definition shardLen (n procs : Z) : Z :=
  let shards := procs in
  let shards := if decide (32 < shards) then 32 else shards in
  let len := Z.ldiff (n / shards + 8) 7 in
  if decide (len < 4096) then n else len.

(** [for lo := 0; lo < n; lo += shardLen]: the nodes of each shard and the
    index of the first.  A shard is not empty, so [n] rounds are enough. *)
Fixpoint split_shards (fuel : nat) (len : Z) (lo : Z) (nodes : list nodeInfo) :
  list (Z * list nodeInfo) :=
  match nodes, fuel with
  | [], _ | _, O => []
  | _, S fuel =>
      (lo, take (Z.to_nat len) nodes) ::
      split_shards fuel len (lo + len) (drop (Z.to_nat len) nodes)
  end.

(** [bits[i/8] |= 1 << (uint(i) % 8)] *)
Definition set_bit (bits : bytes) (i : Z) : bytes :=
  alter (fun b => z2b (Z.lor (b2z b) (Z.shiftl 1 (i mod 8)))) (Z.to_nat (i / 8)) bits.

(** The bitset of the nodes from [i] on for which [f] holds. *)
Fixpoint fill_bits {A} (f : A -> bool) (i : Z) (outs : list A) (bits : bytes) : bytes :=
  match outs with
  | [] => bits
  | o :: outs => fill_bits f (i + 1) outs (if f o then set_bit bits i else bits)
  end.

Definition bitset {A} (f : A -> bool) (outs : list A) : bytes :=
  fill_bits f 0 outs (replicate (Z.to_nat ((zlen outs + 7) / 8)) x00).

Record columns := {
  e_nameIDs : list Z; e_ruleTypeIDs : list Z; e_hashRaw : bytes;
  e_depDeg : list Z; e_depList : bytes; e_tagDeg : list Z; e_tagList : bytes;
  e_attrDeg : list Z; e_attrNms : bytes; e_attrVls : bytes;
  e_rootBits : bytes; e_extBits : bytes; e_hashEmptyBits : bytes;
}.

(** The columns of the nodes' outputs.  The arrays and bitsets are indexed by
    node; the streams are appended per shard and the shards' streams then
    concatenated in order. *)
Definition assemble (shards : list (list node_out)) : columns :=
  let outs := concat shards in
  let stream (f : node_out -> bytes) := concat ((fun shard => concat (f <$> shard)) <$> shards) in
  {| e_nameIDs := no_name <$> outs; e_ruleTypeIDs := no_rt <$> outs;
     e_hashRaw := concat (no_hash <$> outs);
     e_depDeg := no_deg <$> outs; e_depList := stream no_deps;
     e_tagDeg := no_tagDeg <$> outs; e_tagList := stream no_tags;
     e_attrDeg := no_attrDeg <$> outs; e_attrNms := stream no_nms; e_attrVls := stream no_vls;
     e_rootBits := bitset no_root outs; e_extBits := bitset no_ext outs;
     e_hashEmptyBits := bitset no_empty outs |}.

(** Each shard stops at its own first error; the error returned is that of the
    first shard that has one. *)
Definition buildColumns (env : encode_env) (g : Graph) (hb : Z) (nodes : list nodeInfo)
  (d : dicts) : res columns :=
  tabs ← build_tables (Meta g) d nodes;
  let n := zlen nodes in
  shards ← for_each (fun _ '(lo, shard) => for_each (encode_node env g hb tabs) lo shard) 0
             (split_shards (length nodes) (shardLen n (procs env)) 0 nodes);
  Ok (assemble shards).

(** * Digest blocks *)

(** [xxhash] over the labels of a block, each followed by a NUL. *)
Definition blockDigest (env : encode_env) (labels : list bytes) : Z :=
  xxhash64 env (concat ((fun l => l ++ [x00]) <$> labels)).

(** The loop of [buildBlocks] from node [i]: [block] holds the labels since
    [blockStart], and [n] is the number of nodes. *)
Fixpoint build_blocks (env : encode_env) (bsz n : Z) (i blockStart : Z) (block : list bytes)
  (labels : list bytes) (starts digests : list Z) : list Z * list Z :=
  match labels with
  | [] => (starts, digests)
  | label :: labels =>
      let block := block ++ [label] in
      let sz := i - blockStart + 1 in
      let cut := bool_decide (Z.land (xxhash64 env label) (u64 (bsz - 1)) = 0) in
      let cut := if decide (i64 (bsz * 8) <= sz) then true else cut in
      if cut || bool_decide (i = n - 1) then
        build_blocks env bsz n (i + 1) (i + 1) [] labels
          (starts ++ [i32 blockStart]) (digests ++ [blockDigest env block])
      else build_blocks env bsz n (i + 1) blockStart block labels starts digests
  end.

Definition buildBlocks (env : encode_env) (bsz : Z) (nodes : list nodeInfo) : list Z * list Z :=
  build_blocks env bsz (zlen nodes) 0 0 [] (ni_label <$> nodes) [] [].

(** * Writing *)

Definition encodeStringMap (m : gmap bytes bytes) : bytes :=
  let keys := sort_func bcompare ((map_to_list m).*1) in
  uvarint_bytes MaxVarintLen64 (zlen keys) ++
  concat ((fun k =>
    let v := default [] (m !! k) in
    uvarint_bytes MaxVarintLen64 (zlen k) ++ k ++
    uvarint_bytes MaxVarintLen64 (zlen v) ++ v) <$> keys).

(** The fields of [encoder] that [write] reads. *)
Record encoder := {
  e_opts : EncodeOptions;
  e_meta : Metadata;
  e_nodes : list nodeInfo;
  e_dicts : dicts;
  e_columns : columns;
  e_blockStarts : list Z;
  e_blockDigests : list Z;
}.

Definition newEncoder (env : encode_env) (g : Graph) (opts : EncodeOptions) : res encoder :=
  nodes ← buildNodes env g;
  let d := buildDicts env (Meta g) nodes in
  c ← buildColumns env g (HashBytes opts) nodes d;
  let '(blockStarts, blockDigests) := buildBlocks env (BlockSize opts) nodes in
  Ok {| e_opts := opts; e_meta := Meta g; e_nodes := nodes; e_dicts := d; e_columns := c;
        e_blockStarts := blockStarts; e_blockDigests := blockDigests |}.

Record rawCol := { rc_id : Z; rc_codec : Z; rc_data : bytes }.

Definition rawCols (e : encoder) : list rawCol :=
  let d := e_dicts e in
  let c := e_columns e in
  let meta := e_meta e in
  let col id codec data := {| rc_id := id; rc_codec := codec; rc_data := data |} in
  [ col colPkgDict codecZstd (buildFrontCodedDict (e_pkgDict d));
    col colNameDict codecZstd (buildFrontCodedDict (e_nameDict d));
    col colNodePkg codecZstd (encodeDeltas (e_pkgIDs d));
    col colNodeName codecZstd (nodeNameRaw (e_pkgIDs d) (e_nameIDs c));
    col colHash codecRaw (e_hashRaw c);
    col colDeg codecZstd (encodePlain (e_depDeg c));
    col colDeps codecZstd (e_depList c);
    col colRuleType codecZstd (encodePlain (e_ruleTypeIDs c));
    col colRuleTypeDict codecZstd (buildFrontCodedDict (e_ruleTypeDict d));
    col colTagDeg codecZstd (encodePlain (e_tagDeg c));
    col colTags codecZstd (e_tagList c);
    col colTagDict codecZstd (buildFrontCodedDict (e_tagDict d));
    col colAttrDeg codecZstd (encodePlain (e_attrDeg c));
    col colAttrName codecZstd (e_attrNms c);
    col colAttrValue codecZstd (e_attrVls c);
    col colAttrNameDict codecZstd (buildFrontCodedDict (e_attrNameDict d));
    col colAttrValueDict codecZstd (buildFrontCodedDict (e_attrValDict d));
    col colFlags codecZstd (e_rootBits c ++ e_extBits c ++ e_hashEmptyBits c);
    col colBlockDigest codecRaw (concat (put_le 8 <$> e_blockDigests e));
    col colBlockStart codecZstd (encodeDeltas (e_blockStarts e)) ] ++
  (if decide (AllTargetsFileHashes meta = ∅) then []
   else [col colAllTargetsFileHashes codecZstd (encodeStringMap (AllTargetsFileHashes meta))]).

(** A column with its stored bytes. *)
Definition compress_col (env : encode_env) (level : Z) (rc : rawCol) : rawCol * bytes :=
  (rc, if decide (rc_codec rc = codecZstd /\ 0 < zlen (rc_data rc))
       then zstd_compress env level (rc_data rc) else rc_data rc).

(** The directory entries from [offset] on, and where the last column ends. *)
Fixpoint assign_offsets (offset : Z) (results : list (rawCol * bytes)) : list colEntry * Z :=
  match results with
  | [] => ([], offset)
  | (rc, comp) :: results =>
      let e := {| ce_id := rc_id rc; ce_codec := rc_codec rc; ce_offset := offset;
                  ce_compressedSize := zlen comp; ce_rawSize := zlen (rc_data rc) |} in
      let '(es, last) := assign_offsets (u64 (offset + zlen comp)) results in
      (e :: es, last)
  end.

(** The file: header, columns, directory, footer. *)
Definition write_file (hdr : fileHeader) (results : list (rawCol * bytes)) : bytes :=
  let '(entries, offset) := assign_offsets headerSize results in
  let dirBytes := encodeDirectory entries in
  let ftr := {| dirOffset := offset; dirCRC := crc32c dirBytes |} in
  encodeHeader hdr ++ concat (results.*2) ++ dirBytes ++ encodeFooter ftr.

Definition zstd_SpeedDefault : Z := 2.

Definition zstd_level (opts : EncodeOptions) : Z :=
  if decide (ZstdLevel opts <> 0) then ZstdLevel opts else zstd_SpeedDefault.

Definition edge_count (depDeg : list Z) : Z := foldl (fun n d => u64 (n + u64 d)) 0 depDeg.

Definition file_header (e : encoder) : fileHeader :=
  {| nodeCount := zlen (e_nodes e); edgeCount := edge_count (e_depDeg (e_columns e));
     blockSize := u64 (BlockSize (e_opts e)); flags := 0;
     hashBytes := u16 (HashBytes (e_opts e)) |}.

(** [write]: compressing the columns in parallel or not ([Serial]) puts each
    result at its column's index. *)
Definition write (env : encode_env) (e : encoder) : bytes :=
  write_file (file_header e) (compress_col env (zstd_level (e_opts e)) <$> rawCols e).

(** [Encode], returning what it writes. *)
Definition Encode (env : encode_env) (g : Graph) (opts : EncodeOptions) : res bytes :=
  let opts := fillDefaults opts in
  _ ← guard_err (bool_decide (HashBytes opts <> 8 /\ HashBytes opts <> 16 /\ HashBytes opts <> 20))
        "HashBytes must be 8, 16, or 20";
  _ ← guard_err (bool_decide (BlockSize opts <= 0 \/
                               Z.land (BlockSize opts) (BlockSize opts - 1) <> 0))
        "BlockSize must be a power of two";
  e ← newEncoder env g opts;
  Ok (write env e).
