(* ===== verification/EncodeSpec.v ===== *)
(** What the stages of the encoder compute. *)
From Stdlib Require Import ZArith Lia ZifyNat.
From S2P Require Import Prelude Varint Format Dict Columns Psort Entity Encode.

Local Open Scope Z_scope.

(** * Loops *)

Lemma for_each_length {A B} (f : Z -> A -> res B) i s ys :
  for_each f i s = Ok ys -> length ys = length s.
Proof.
  revert i ys. induction s as [|x s IH]; intros i ys; cbn [for_each]; [by intros [= <-]|].
  intros H. res_inv. cbn. by erewrite IH.
Qed.

Lemma for_each_lookup {A B} (f : Z -> A -> res B) i s ys k x :
  for_each f i s = Ok ys -> s !! k = Some x ->
  exists y, ys !! k = Some y /\ f (i + Z.of_nat k) x = Ok y.
Proof.
  revert i ys k. induction s as [|x' s IH]; intros i ys k; [done|]. cbn [for_each].
  intros H. res_inv. destruct k as [|k]; cbn.
  - intros [= ->]. rewrite Z.add_0_r. eauto.
  - intros Hk. destruct (IH _ _ _ E0 Hk) as (y & Hy & Hf). exists y. split; [done|].
    by replace (i + Z.of_nat (S k)) with (i + 1 + Z.of_nat k) by lia.
Qed.

Lemma for_each_app {A B} (f : Z -> A -> res B) i s t :
  for_each f i (s ++ t) =
    (ys ← for_each f i s; zs ← for_each f (i + zlen s) t; Ok (ys ++ zs)).
Proof.
  revert i. induction s as [|x s IH]; intros i; cbn [app for_each].
  - rewrite zlen_nil, Z.add_0_r. cbn. by destruct (for_each f i t).
  - rewrite zlen_cons. destruct (f i x); cbn; [|done..]. rewrite IH.
    replace (i + (1 + zlen s)) with (i + 1 + zlen s) by lia.
    destruct (for_each f (i + 1) s); cbn; [|done..].
    by destruct (for_each f (i + 1 + zlen s) t).
Qed.

Lemma for_each_Forall2 {A B} (f : A -> res B) i s ys :
  for_each (fun _ => f) i s = Ok ys -> Forall2 (fun x y => f x = Ok y) s ys.
Proof.
  revert i ys. induction s as [|x s IH]; intros i ys; cbn [for_each]; intros H; res_inv; eauto.
Qed.

Lemma for_each_total {A B} (f : Z -> A -> res B) i s :
  (forall k x, s !! k = Some x -> exists y, f (i + Z.of_nat k) x = Ok y) ->
  exists ys, for_each f i s = Ok ys.
Proof.
  revert i. induction s as [|x s IH]; intros i H; cbn [for_each]; [eauto|].
  destruct (H 0%nat x eq_refl) as [y Hy]. rewrite Z.add_0_r in Hy. rewrite Hy. cbn.
  destruct (IH (i + 1)) as [ys ->]; [|cbn; eauto].
  intros k x' Hk. replace (i + 1 + Z.of_nat k) with (i + Z.of_nat (S k)) by lia. by apply H.
Qed.

(** * Shards *)

Lemma split_shards_for_each {B} (f : Z -> nodeInfo -> res B) fuel len lo nodes :
  0 < len -> (length nodes <= fuel)%nat ->
  (fun outs => concat outs) <$> for_each (fun _ '(lo, shard) => for_each f lo shard) 0 (split_shards fuel len lo nodes)
  = for_each f lo nodes.
Proof.
  intros Hlen. generalize 0 at 1.
  revert lo nodes. induction fuel as [|fuel IH]; intros lo nodes i Hf.
  { destruct nodes; [done|cbn in Hf; lia]. }
  destruct nodes as [|nd nodes]; [done|]. set (all := nd :: nodes) in *.
  rewrite <- (take_drop (Z.to_nat len) all) at 2. unfold all at 1. cbn [split_shards for_each].
  fold all.
  rewrite for_each_app. destruct (for_each f lo (take (Z.to_nat len) all)) as [ys| |]; cbn; [|done..].
  assert (length (drop (Z.to_nat len) all) <= fuel)%nat as Hf'.
  { rewrite length_drop. unfold all in *. cbn [length] in *. lia. }
  destruct (decide (length all <= Z.to_nat len)%nat) as [Hle|Hgt].
  - rewrite drop_ge by done. destruct fuel; cbn; by rewrite app_nil_r.
  - assert (zlen (take (Z.to_nat len) all) = len) as ->.
    { unfold zlen. rewrite length_take. lia. }
    rewrite <- (IH (lo + len) (drop (Z.to_nat len) all) (i + 1)) by done.
    by destruct (for_each _ (i + 1) _).
Qed.

Lemma shardLen_pos n procs : 0 < n -> 0 < shardLen n procs.
Proof. intros Hn. unfold shardLen. case_decide; case_decide; lia. Qed.

(** Shards start at multiples of eight, so that no two touch the same byte of a
    bitset. *)
Lemma shardLen_mod8 n procs : shardLen n procs = n \/ shardLen n procs mod 8 = 0.
Proof.
  unfold shardLen. case_decide; case_decide; try (by left); right.
  all: rewrite <- (Z.land_ones _ 3) by lia; change (Z.ones 3) with 7;
    apply Z.bits_inj'; intros k Hk; rewrite Z.land_spec, Z.ldiff_spec, Z.bits_0;
    by destruct (Z.testbit 7 k); rewrite ?andb_false_r, ?andb_true_r.
Qed.

Lemma split_shards_starts fuel len lo nodes :
  0 < len -> zlen nodes <= len \/ len mod 8 = 0 -> lo mod 8 = 0 ->
  Forall (fun s => s.1 mod 8 = 0 /\ s.2 <> []) (split_shards fuel len lo nodes).
Proof.
  intros Hpos Hlen. revert lo nodes Hlen. induction fuel as [|fuel IH]; intros lo nodes Hlen Hlo.
  { by destruct nodes. }
  destruct nodes as [|nd nodes]; [constructor|]. cbn [split_shards]. constructor.
  - split; [done|]. cbn. destruct (Z.to_nat len) eqn:E; [lia|done].
  - destruct Hlen as [Hlen|Hlen].
    + rewrite drop_ge by (unfold zlen in Hlen; lia). by destruct fuel.
    + apply IH; [by right|]. rewrite Z.add_mod, Hlo, Hlen by lia. done.
Qed.

Lemma assemble_flatten shards : assemble shards = assemble [concat shards].
Proof.
  unfold assemble. cbn [concat fmap list_fmap]. rewrite !app_nil_r.
  assert (forall f : node_out -> bytes,
    concat ((fun shard => concat (f <$> shard)) <$> shards) = concat (f <$> concat shards)) as H.
  { intros f. induction shards as [|s shards IH]; [done|]. rewrite fmap_cons. cbn [concat].
    by rewrite fmap_app, concat_app, IH. }
  by rewrite !H.
Qed.

Lemma buildColumns_sequential env g hb nodes d :
  1 <= procs env ->
  buildColumns env g hb nodes d =
    (tabs ← build_tables (Meta g) d nodes;
     outs ← for_each (encode_node env g hb tabs) 0 nodes;
     Ok (assemble [outs])).
Proof.
  intros Hp. unfold buildColumns. destruct (build_tables _ _ _) as [tabs| |]; cbn; [|done..].
  destruct (decide (nodes = [])) as [->|Hne]; [done|].
  assert (0 < zlen nodes) as Hn.
  { destruct nodes; [done|]. rewrite zlen_cons. pose proof (zlen_nonneg nodes). lia. }
  rewrite <- (split_shards_for_each _ (length nodes) (shardLen (zlen nodes) (procs env)))
    by (done || by apply shardLen_pos).
  destruct (for_each _ 0 (split_shards _ _ _ _)); cbn; [|done..]. by rewrite assemble_flatten.
Qed.

(** * Dictionary IDs *)

(** [ids] names the strings of [dict]. *)
Definition names_in (dict : list bytes) (id : Z) (s : bytes) : Prop :=
  0 <= id < 2^31 /\ dict !! Z.to_nat id = Some s.

Lemma pkg_runs_spec first prev cur nodes pre dict ids :
  pkg_runs first prev cur nodes = (dict, ids) ->
  zlen pre = cur + 1 -> (first = false -> names_in pre cur prev) ->
  zlen pre + zlen nodes < 2^31 ->
  Forall2 (fun n id => names_in (pre ++ dict) id (ni_pkg n)) nodes ids.
Proof.
  revert first prev cur pre dict ids.
  induction nodes as [|n nodes IH]; intros first prev cur pre dict ids; cbn [pkg_runs].
  { intros [= <- <-]. constructor. }
  intros E Hpre Hprev Hlen. rewrite zlen_cons in Hlen.
  pose proof (zlen_nonneg pre). pose proof (zlen_nonneg nodes). case_decide as Hc.
  - destruct (pkg_runs false (ni_pkg n) (i32 (cur + 1)) nodes) as [dict' ids'] eqn:E'.
    injection E as <- <-. rewrite i32_small in * by lia.
    assert (names_in (pre ++ [ni_pkg n]) (cur + 1) (ni_pkg n)) as Hn.
    { split; [lia|]. rewrite <- Hpre, to_nat_zlen. by apply list_lookup_middle. }
    rewrite (cons_middle _ pre), app_assoc.
    specialize (IH _ _ _ (pre ++ [ni_pkg n]) _ _ E').
    constructor; [|apply IH].
    + destruct Hn as [Hr Hl]. split; [done|]. by apply lookup_app_l_Some.
    + rewrite zlen_app, zlen_cons, zlen_nil. lia.
    + done.
    + rewrite zlen_app, zlen_cons, zlen_nil. lia.
  - destruct (pkg_runs false prev cur nodes) as [dict' ids'] eqn:E'. injection E as <- <-.
    destruct first; [naive_solver|].
    assert (ni_pkg n = prev) as Hpn by (apply dec_stable; naive_solver).
    constructor; [|apply (IH _ _ _ _ _ _ E'); [done|by auto|lia]].
    rewrite Hpn. destruct (Hprev eq_refl) as [Hr Hl]. split; [done|]. by apply lookup_app_l_Some.
Qed.

Lemma buildStrIndex_spec strs :
  zlen strs < 2^31 ->
  (forall s j, buildStrIndex strs !! s = Some j -> names_in strs j s) /\
  (forall s, s ∈ strs -> is_Some (buildStrIndex strs !! s)).
Proof.
  intros Hlen. unfold buildStrIndex.
  assert (forall (pre : list bytes) (m : gmap bytes Z) (i : Z),
    i = zlen pre -> zlen pre + zlen strs < 2^31 ->
    (forall s j, m !! s = Some j -> names_in (pre ++ strs) j s) ->
    (forall s j, (foldl (fun '(i, m) s => (i + 1, <[s := i32 i]> m)) (i, m) strs).2 !! s = Some j ->
       names_in (pre ++ strs) j s) /\
    (forall s, s ∈ strs \/ is_Some (m !! s) ->
       is_Some ((foldl (fun '(i, m) s => (i + 1, <[s := i32 i]> m)) (i, m) strs).2 !! s))) as H.
  { clear Hlen. induction strs as [|s strs IH]; intros pre m i Hi Hlen Hm; cbn [foldl].
    { split; [done|]. intros s' [Hs|Hs]; [by apply elem_of_nil in Hs|done]. }
    rewrite zlen_cons in Hlen. pose proof (zlen_nonneg pre). pose proof (zlen_nonneg strs).
    rewrite (cons_middle s pre), app_assoc in *.
    destruct (IH (pre ++ [s]) (<[s := i32 i]> m) (i + 1)) as [H1 H2].
    - rewrite zlen_app, zlen_cons, zlen_nil. lia.
    - rewrite zlen_app, zlen_cons, zlen_nil. lia.
    - intros s' j. destruct (decide (s' = s)) as [->|Hne].
      + rewrite lookup_insert_eq. intros [= <-]. rewrite i32_small by lia. split; [lia|].
        rewrite <- app_assoc. subst i. rewrite to_nat_zlen. by apply list_lookup_middle.
      + rewrite lookup_insert_ne by done. apply Hm.
    - split; [done|]. intros s' Hs'. apply H2. destruct (decide (s' = s)) as [->|Hne].
      + right. by rewrite lookup_insert_eq.
      + rewrite lookup_insert_ne by done. destruct Hs' as [Hs'|]; [|by right].
        apply elem_of_cons in Hs' as [|]; [done|by left]. }
  destruct (H [] ∅ 0) as [H1 H2]; [done|by rewrite zlen_nil|done|].
  split; [done|]. intros s Hs. apply H2. by left.
Qed.

Lemma elem_of_sortedUniqueStrings (m : gmap Z bytes) id s :
  m !! id = Some s -> s ∈ sortedUniqueStrings m.
Proof.
  intros Hs. unfold sortedUniqueStrings. rewrite elem_of_compact, elem_of_sort_func.
  apply list_elem_of_fmap. exists (id, s). split; [done|]. by apply elem_of_map_to_list.
Qed.

(** A remapped ID names, in the sorted dictionary, the string the old ID named. *)
Lemma remapTable_spec (m : gmap Z bytes) id j :
  zlen (sortedUniqueStrings m) < 2^31 ->
  remapTable m (buildStrIndex (sortedUniqueStrings m)) !! id = Some j ->
  exists s, m !! id = Some s /\ names_in (sortedUniqueStrings m) j s.
Proof.
  intros Hlen. unfold remapTable. rewrite lookup_fmap.
  destruct (m !! id) as [s|] eqn:Es; [|done]. cbn. intros [= <-]. exists s. split; [done|].
  destruct (buildStrIndex_spec _ Hlen) as [H1 H2].
  destruct (H2 s) as [j Hj]; [by eapply elem_of_sortedUniqueStrings|].
  rewrite Hj. cbn. by apply H1.
Qed.

(** * Node IDs *)

(** [names_node nodes i id]: node [i] has the original ID [id]. *)
Definition names_node (nodes : list nodeInfo) (i id : Z) : Prop :=
  0 <= i < 2^31 /\ exists nd, nodes !! Z.to_nat i = Some nd /\ ni_origID nd = id.

Lemma names_node_here pre nd nodes :
  zlen pre < 2^31 -> names_node (pre ++ nd :: nodes) (i32 (zlen pre)) (ni_origID nd).
Proof.
  intros Hl. pose proof (zlen_nonneg pre). rewrite i32_small by lia. split; [lia|].
  exists nd. split; [|done]. rewrite to_nat_zlen. by apply list_lookup_middle.
Qed.

Lemma id_slice_spec nodes pre (s : list Z) i :
  i = zlen pre -> zlen pre + zlen nodes < 2^31 ->
  (forall id j, s !! Z.to_nat id = Some j -> 0 <= id -> 0 <= j -> names_node (pre ++ nodes) j id) ->
  forall id j,
    (foldl (fun '(i, s) n =>
       (i + 1, if decide (0 <= ni_origID n) then <[Z.to_nat (ni_origID n) := i32 i]> s else s))
      (i, s) nodes).2 !! Z.to_nat id = Some j ->
    0 <= id -> 0 <= j -> names_node (pre ++ nodes) j id.
Proof.
  revert pre s i. induction nodes as [|nd nodes IH]; intros pre s i -> Hlen Hs; [done|].
  cbn [foldl]. rewrite zlen_cons in Hlen. pose proof (zlen_nonneg nodes).
  intros id j. rewrite (cons_middle nd pre), app_assoc in *. apply IH.
  - rewrite zlen_app, zlen_cons, zlen_nil. lia.
  - rewrite zlen_app, zlen_cons, zlen_nil. lia.
  - clear id j. intros id j. case_decide as Hp; [|apply Hs].
    destruct (decide (id = ni_origID nd)) as [->|Hne].
    + intros [(_ & <- & _)|[? _]]%list_lookup_insert_Some _ _; [|done].
      rewrite <- app_assoc. apply names_node_here. lia.
    + intros Hl Hid. rewrite list_lookup_insert_ne in Hl by lia. by apply Hs.
Qed.

Lemma id_map_spec nodes pre (m : gmap Z Z) i :
  i = zlen pre -> zlen pre + zlen nodes < 2^31 ->
  (forall id j, m !! id = Some j -> names_node (pre ++ nodes) j id) ->
  forall id j,
    (foldl (fun '(i, m) n => (i + 1, <[ni_origID n := i32 i]> m)) (i, m) nodes).2 !! id = Some j ->
    names_node (pre ++ nodes) j id.
Proof.
  revert pre m i. induction nodes as [|nd nodes IH]; intros pre m i -> Hlen Hm; [done|].
  cbn [foldl]. rewrite zlen_cons in Hlen. pose proof (zlen_nonneg nodes).
  intros id j. rewrite (cons_middle nd pre), app_assoc in *. apply IH.
  - rewrite zlen_app, zlen_cons, zlen_nil. lia.
  - rewrite zlen_app, zlen_cons, zlen_nil. lia.
  - clear id j. intros id j. destruct (decide (id = ni_origID nd)) as [->|Hne].
    + rewrite lookup_insert_eq. intros [= <-]. rewrite <- app_assoc. apply names_node_here. lia.
    + rewrite lookup_insert_ne by done. apply Hm.
Qed.

(** Dense or sparse, the table resolves an ID to a node that has it. *)
Lemma resolveID_spec nodes tab id j :
  zlen nodes < 2^31 -> build_id_table nodes = Ok tab -> resolveID tab id = Some j ->
  names_node nodes j id.
Proof.
  intros Hlen. unfold build_id_table. case_decide.
  - case_decide; [done|]. intros [= <-]. cbn [resolveID]. case_decide as Hid; [done|].
    destruct (_ !! Z.to_nat id) as [j'|] eqn:El; [|done]. case_decide; [done|]. intros [= ->].
    apply (id_slice_spec nodes [] (replicate (Z.to_nat (i32 (max_orig_id nodes + 1))) (-1)) 0)
      with (id := id) (j := j); try done; try lia.
    intros id' j' Hr _ Hj. apply lookup_replicate in Hr as [-> _]. lia.
  - intros [= <-] Hl. cbn in Hl. by apply (id_map_spec nodes [] ∅ 0) in Hl.
Qed.

(** * Bitsets *)

Definition get_bit (bits : bytes) (j : Z) : bool :=
  match bits !! Z.to_nat (j / 8) with
  | Some b => Z.testbit (b2z b) (j mod 8)
  | None => false
  end.

Lemma set_bit_byte b k j :
  0 <= k < 8 -> 0 <= j < 8 ->
  Z.testbit (b2z (z2b (Z.lor (b2z b) (Z.shiftl 1 k)))) j = bool_decide (k = j) || Z.testbit (b2z b) j.
Proof.
  intros Hk Hj. pose proof (b2z_bound b).
  assert (0 <= Z.lor (b2z b) (Z.shiftl 1 k) < 2^8) as Hr.
  { rewrite Z.shiftl_mul_pow2, Z.mul_1_l by lia.
    pose proof (Z.pow_pos_nonneg 2 k). assert (2^k < 2^8) by (apply Z.pow_lt_mono_r; lia).
    split; [apply Z.lor_nonneg; lia|].
    destruct (decide (Z.lor (b2z b) (2^k) = 0)) as [->|]; [lia|].
    apply Z.log2_lt_pow2; [pose proof (Z.lor_nonneg (b2z b) (2^k)); lia|].
    rewrite Z.log2_lor by lia. apply Z.max_lub_lt.
    - destruct (decide (b2z b = 0)) as [->|]; [done|]. apply Z.log2_lt_pow2; lia.
    - apply Z.log2_lt_pow2; lia. }
  rewrite b2z_z2b_small by lia. rewrite Z.lor_spec, orb_comm. f_equal.
  rewrite Z.shiftl_mul_pow2, Z.mul_1_l by lia.
  rewrite Z.pow2_bits_eqb by lia. case_bool_decide; [by apply Z.eqb_eq|by apply Z.eqb_neq].
Qed.

Lemma get_set_bit bits i j :
  0 <= i -> 0 <= j -> i < 8 * zlen bits ->
  get_bit (set_bit bits i) j = bool_decide (i = j) || get_bit bits j.
Proof.
  intros Hi Hj Hlen. unfold get_bit, set_bit.
  pose proof (Z.div_mod i 8 ltac:(lia)). pose proof (Z.div_mod j 8 ltac:(lia)).
  pose proof (Z.mod_pos_bound i 8 eq_refl). pose proof (Z.mod_pos_bound j 8 eq_refl).
  pose proof (Z.div_pos i 8 ltac:(lia) ltac:(lia)). pose proof (Z.div_pos j 8 ltac:(lia) ltac:(lia)).
  destruct (decide (i / 8 = j / 8)) as [E|E].
  - rewrite E, list_lookup_alter_eq.
    destruct (lookup_lt_is_Some_2 bits (Z.to_nat (j / 8))) as [b ->]; [unfold zlen in Hlen; lia|].
    cbn. rewrite set_bit_byte by lia. f_equal. apply bool_decide_ext. lia.
  - rewrite list_lookup_alter_ne by lia. rewrite bool_decide_false; [done|].
    intros ->. done.
Qed.

Lemma set_bit_length bits i : zlen (set_bit bits i) = zlen bits.
Proof. unfold zlen, set_bit. by rewrite length_alter. Qed.

Lemma fill_bits_spec {A} (f : A -> bool) i outs bits j :
  0 <= i -> 0 <= j -> i + zlen outs <= 8 * zlen bits ->
  get_bit (fill_bits f i outs bits) j =
    (if decide (i <= j) then match outs !! Z.to_nat (j - i) with Some o => f o | None => false end
     else false) || get_bit bits j.
Proof.
  revert i bits. induction outs as [|o outs IH]; intros i bits Hi Hj Hlen; cbn [fill_bits].
  { by case_decide. }
  rewrite zlen_cons in Hlen. pose proof (zlen_nonneg outs).
  rewrite IH; [|lia|lia|by destruct (f o); rewrite ?set_bit_length; lia].
  assert (get_bit (if f o then set_bit bits i else bits) j =
          (f o && bool_decide (i = j)) || get_bit bits j) as ->.
  { destruct (f o); [|done]. rewrite get_set_bit by lia. done. }
  destruct (decide (i = j)) as [->|Hne].
  - rewrite decide_False, decide_True by lia. rewrite Z.sub_diag. cbn.
    rewrite bool_decide_true by done. by rewrite andb_true_r.
  - rewrite (bool_decide_false (i = j)), andb_false_r by done. cbn [orb].
    case_decide as H1; case_decide as H2; try lia; [|done].
    replace (Z.to_nat (j - i)) with (S (Z.to_nat (j - (i + 1)))) by lia. done.
Qed.

Lemma fill_bits_length {A} (f : A -> bool) i outs bits : zlen (fill_bits f i outs bits) = zlen bits.
Proof.
  revert i bits. induction outs as [|o outs IH]; intros i bits; cbn [fill_bits]; [done|].
  rewrite IH. destruct (f o); [apply set_bit_length|done].
Qed.

Lemma bitset_length {A} (f : A -> bool) outs : zlen (bitset f outs) = (zlen outs + 7) / 8.
Proof.
  unfold bitset. rewrite fill_bits_length. unfold zlen. rewrite length_replicate.
  pose proof (Z.div_pos (Z.of_nat (length outs) + 7) 8). lia.
Qed.

Lemma get_bit_bitset {A} (f : A -> bool) outs (j : nat) o :
  outs !! j = Some o -> get_bit (bitset f outs) (Z.of_nat j) = f o.
Proof.
  intros Ho. unfold bitset. rewrite fill_bits_spec; [|lia|lia|].
  - rewrite decide_True, Z.sub_0_r, Nat2Z.id, Ho by lia.
    unfold get_bit. destruct (replicate _ _ !! _) as [b|] eqn:E; [|by rewrite orb_false_r].
    apply lookup_replicate in E as [-> _]. change (b2z x00) with 0.
    by rewrite Z.bits_0, orb_false_r.
  - unfold zlen. rewrite length_replicate. pose proof (Z.div_mod (Z.of_nat (length outs) + 7) 8).
    pose proof (Z.mod_pos_bound (Z.of_nat (length outs) + 7) 8 eq_refl).
    pose proof (Z.div_pos (Z.of_nat (length outs) + 7) 8). lia.
Qed.

(** * Hashes *)

Lemma hex_pairs_take n m s raw :
  hex_pairs n s = Ok raw -> (m <= n)%nat -> hex_pairs m s = Ok (take m raw).
Proof.
  revert m s raw. induction n as [|n IH]; intros m s raw.
  - intros [= <-] Hm. assert (m = 0)%nat as -> by lia. done.
  - destruct s as [|a [|b s]]; [done..|]. cbn [hex_pairs].
    destruct (hexNibble a) as [hi|] eqn:Ea, (hexNibble b) as [lo|] eqn:Eb; try done.
    intros H Hm. res_inv. destruct m as [|m]; [done|]. cbn [hex_pairs].
    rewrite Ea, Eb, (IH m s x) by (done || lia). done.
Qed.

Lemma hex_pairs_length n s raw : hex_pairs n s = Ok raw -> length raw = n.
Proof.
  revert s raw. induction n as [|n IH]; intros s raw; cbn [hex_pairs]; [by intros [= <-]|].
  destruct s as [|a [|b s]]; [done..|].
  destruct (hexNibble a), (hexNibble b); try done. intros H; res_inv. cbn. by erewrite IH.
Qed.

Lemma hex_pairs_total n s :
  length s = (2 * n)%nat -> forallb (fun c => bool_decide (is_Some (hexNibble c))) s = true ->
  exists raw, hex_pairs n s = Ok raw.
Proof.
  revert s. induction n as [|n IH]; intros s Hl Hs; [by exists []|].
  destruct s as [|a [|b s]]; [cbn in Hl; lia..|]. cbn [forallb] in Hs.
  apply andb_prop in Hs as [Ha Hs]. apply andb_prop in Hs as [Hb Hs].
  apply bool_decide_eq_true in Ha as [hi Ha], Hb as [lo Hb].
  destruct (IH s) as [raw Hraw]; [cbn in Hl; lia|done|]. cbn [hex_pairs].
  rewrite Ha, Hb, Hraw. cbn. eauto.
Qed.

Lemma hex_pairs_valid n s raw :
  hex_pairs n s = Ok raw ->
  forallb (fun c => bool_decide (is_Some (hexNibble c))) (take (2 * n) s) = true.
Proof.
  revert s raw. induction n as [|n IH]; intros s raw; cbn [hex_pairs]; [done|].
  destruct s as [|a [|b s]]; [done..|].
  destruct (hexNibble a) as [hi|] eqn:Ea, (hexNibble b) as [lo|] eqn:Eb; try done.
  intros H; res_inv. replace (2 * S n)%nat with (S (S (2 * n))) by lia. cbn [take forallb].
  rewrite Ea, Eb, !bool_decide_true by done. cbn. by eapply IH.
Qed.

(** Where [hexDecodeInto] accepts a hash, truncating it yields the same bytes. *)
Lemma decodeHashHex_spec n s raw :
  hexDecodeInto n s = Ok raw -> 0 <= n -> decodeHashHex s n = raw /\ zlen raw = n.
Proof.
  intros H Hn. unfold hexDecodeInto in H. apply bind_Ok in H as ([] & Hodd & H).
  apply bind_Ok in H as ([] & Hshort & H). apply bind_Ok in H as (dst & Hdst & H).
  apply bind_Ok in H as ([] & Hrest & [= <-]). apply guard_err_Ok in Hodd, Hshort, Hrest.
  apply bool_decide_eq_false in Hodd, Hshort. apply negb_false_iff in Hrest. apply dec_stable in Hodd.
  pose proof (hex_pairs_valid _ _ _ Hdst) as Hfirst.
  assert (forallb (fun c => bool_decide (is_Some (hexNibble c))) s = true) as Hall.
  { rewrite <- (take_drop (2 * Z.to_nat n) s), forallb_app, Hfirst. done. }
  pose proof (hex_pairs_length _ _ _ Hdst) as Hlen.
  unfold decodeHashHex, hexDecodeString. rewrite decide_True by done.
  destruct (hex_pairs_total (Nat.div (length s) 2) s) as [full Hfull]; [unfold zlen in Hodd; lia|done|].
  rewrite Hfull. pose proof (hex_pairs_length _ _ _ Hfull) as Hfl.
  pose proof (hex_pairs_take _ (Z.to_nat n) _ _ Hfull ltac:(unfold zlen in *; lia)) as Ht.
  rewrite Hdst in Ht. injection Ht as Ht. split; [|unfold zlen; lia].
  rewrite <- Ht, drop_ge, app_nil_r; [done|]. rewrite length_replicate. unfold zlen in *. lia.
Qed.

(** * Blocks *)

Lemma build_blocks_counts env bsz n i bstart block labels starts digests starts' digests' :
  build_blocks env bsz n i bstart block labels starts digests = (starts', digests') ->
  zlen starts = zlen digests ->
  zlen starts' = zlen digests' /\ zlen digests' <= zlen digests + zlen labels.
Proof.
  revert i bstart block starts digests.
  induction labels as [|l labels IH]; intros i bstart block starts digests; cbn [build_blocks].
  { intros [= <- <-] ?. rewrite zlen_nil. lia. }
  rewrite zlen_cons. case_match.
  - intros E Hl. apply IH in E as [? ?]; [rewrite !zlen_app, ?zlen_cons, ?zlen_nil in *; lia|].
    rewrite !zlen_app, !zlen_cons, !zlen_nil. lia.
  - intros E Hl. apply IH in E as [? ?]; [lia|done].
Qed.

(** * Property *)

Lemma split_shards_concat fuel len lo nodes :
  0 < len -> (length nodes <= fuel)%nat -> concat ((split_shards fuel len lo nodes).*2) = nodes.
Proof.
  intros Hlen. revert lo nodes. induction fuel as [|fuel IH]; intros lo nodes Hf.
  { destruct nodes; [done|cbn in Hf; lia]. }
  destruct nodes as [|nd nodes]; [done|]. cbn [split_shards fmap list_fmap concat snd].
  rewrite IH; [apply take_drop|]. destruct (Z.to_nat len) eqn:E; [lia|].
  rewrite length_drop. cbn [length] in *. lia.
Qed.

(** The shards of [buildColumns], each with the index of its first node. *)
Definition node_shards (env : encode_env) (nodes : list nodeInfo) : list (Z * list nodeInfo) :=
  split_shards (length nodes) (shardLen (zlen nodes) (procs env)) 0 nodes.

(** Sharding is not observable.  The parallel pass over the nodes returns what the
    sequential loop over all nodes returns, errors included (the first shard's error
    is the first node's), for any number of processors; the shards partition the
    nodes, none is empty, and each starts at a multiple of eight, so that no two
    goroutines write the same byte of a bitset. *)
Theorem buildColumns_sharding (env : encode_env) (g : Graph) (hb : Z) (nodes : list nodeInfo) (d : dicts) :
  1 <= procs env ->
  buildColumns env g hb nodes d =
    (tabs ← build_tables (Meta g) d nodes;
     outs ← for_each (encode_node env g hb tabs) 0 nodes;
     Ok (assemble [outs])) /\
  concat (node_shards env nodes).*2 = nodes /\
  Forall (fun s => s.1 mod 8 = 0 /\ s.2 <> []) (node_shards env nodes).
Proof.
  intros Hp. split; [by apply buildColumns_sequential|]. unfold node_shards.
  destruct (decide (nodes = [])) as [->|Hne]; [done|].
  assert (0 < zlen nodes) as Hn by (destruct nodes; [done|]; rewrite zlen_cons;
    pose proof (zlen_nonneg nodes); lia).
  split.
  - apply split_shards_concat; [by apply shardLen_pos|done].
  - apply split_shards_starts; [by apply shardLen_pos| |done].
    destruct (shardLen_mod8 (zlen nodes) (procs env)) as [E|E]; [left; lia|by right].
Qed.
