(* ===== verification/Reader.v ===== *)
(** The lazy TGB reader ([internal/tgb/reader.go]).

    A [Reader] is a blob with caches.  Every exported method locks the mutex
    around each access to the caches; here a method is a function from the
    reader to a result and the reader after it, that is, a critical section or a
    sequence of them run without interference.  zstd is a parameter. *)
From Stdlib Require Import ZArith Lia ZifyNat.
From S2P Require Import Prelude Varint Format Dict Columns Entity Encode.

Local Open Scope Z_scope.

(** * The parts of a reader *)

(** What [NewReader] fixes. *)
Record core := {
  rd_data : bytes;
  rd_hdr : fileHeader;
  rd_cols : gmap Z colEntry;
}.

(** The caches; a nil field is an absent key.  [rd_dicts] holds the six
    dictionaries ([pkgDict], ..., [attrValDict]) by column; [rd_ints] holds
    [pkgIDsCache], [nameIDsCache], [ruleTypeIDsCache] and [blockStartsCache] by
    column; [rd_offs] holds the degree and offset arrays of DEPS, TAGS and
    ATTR_NAME (with those of ATTR_VALUE). *)
Record Reader := {
  rd_core : core;
  rd_decompressed : gmap Z bytes;
  DecompressionCount : Z;
  rd_dicts : gmap Z (list bytes);
  rd_ints : gmap Z (list Z);
  rd_offs : gmap Z (list Z * list Z * list Z);
}.

Definition fresh (c : core) : Reader :=
  {| rd_core := c; rd_decompressed := ∅; DecompressionCount := 0;
     rd_dicts := ∅; rd_ints := ∅; rd_offs := ∅ |}.

(** * Opening a blob *)

(** The per-column checks of [validateColumns], accumulating [totalRaw]. *)
Definition validate_column (dirOff totalRaw : Z) (id : Z) (e : colEntry) : res Z :=
  let end_ := u64 (ce_offset e + ce_compressedSize e) in
  _ ← guard_err (bool_decide (end_ < ce_offset e \/ ce_offset e < headerSize \/ dirOff < end_))
        "column spans outside data region";
  _ ← (if decide (ce_codec e = codecRaw) then
         guard_err (bool_decide (ce_rawSize e <> ce_compressedSize e)) "raw column size mismatch"
       else if decide (ce_codec e = codecZstd) then
         guard_err (bool_decide (0 < ce_rawSize e /\ ce_compressedSize e = 0))
           "column claims raw bytes from empty data"
       else Err "unknown codec");
  _ ← guard_err (bool_decide (maxColumnRawSize < ce_rawSize e)) "column claims too many raw bytes";
  Ok (u64 (totalRaw + ce_rawSize e)).

Fixpoint validate_entries (dirOff : Z) (es : list (Z * colEntry)) (totalRaw : Z) : res Z :=
  match es with
  | [] => Ok totalRaw
  | (id, e) :: es =>
      totalRaw ← validate_column dirOff totalRaw id e;
      validate_entries dirOff es totalRaw
  end.

(** [c, ok := cols[id]; if !ok || bad(c) { return err }] *)
Definition need_column (cols : gmap Z colEntry) (id : Z) (bad : colEntry -> bool) (msg : string) :
  res unit :=
  match cols !! id with
  | None => Err msg
  | Some e => guard_err (bad e) msg
  end.
Arguments need_column cols id bad msg%_string_scope.

Definition validateColumns (hdr : fileHeader) (cols : gmap Z colEntry) (fileSize dirOff : Z) :
  res unit :=
  _ ← guard_err (bool_decide (Z.ldiff (flags hdr) flagRevCSR <> 0)) "unknown header flag bits";
  _ ← guard_err (bool_decide (blockSize hdr <> 0 /\
                               Z.land (blockSize hdr) (u64 (blockSize hdr - 1)) <> 0))
        "blockSize is not a power of two";
  totalRaw ← validate_entries dirOff (map_to_list cols) 0;
  let budget := Z.max (u64 (fileSize * maxTotalRawFactor)) maxTotalRawFloor in
  _ ← guard_err (bool_decide (budget < totalRaw)) "columns claim too many total raw bytes";
  let n := nodeCount hdr in
  _ ← (if decide (0 < n) then
         _ ← need_column cols colDeg (fun e => bool_decide (ce_rawSize e < n))
               "nodeCount inconsistent with DEG column";
         need_column cols colHash (fun e => bool_decide (ce_rawSize e <> u64 (n * hashBytes hdr)))
           "HASH column size mismatch"
       else Ok ());
  _ ← (if decide (0 < edgeCount hdr) then
         need_column cols colDeps (fun e => bool_decide (ce_rawSize e < edgeCount hdr))
           "edgeCount inconsistent with DEPS column"
       else Ok ());
  match cols !! colBlockDigest with
  | None => Ok ()
  | Some e =>
      _ ← guard_err (bool_decide (ce_rawSize e mod 8 <> 0)) "BLOCK_DIGEST size not a multiple of 8";
      guard_err (bool_decide (n < ce_rawSize e / 8)) "more digest blocks than nodes"
  end.

(** [cols[e.id] = e], rejecting duplicates. *)
Fixpoint index_entries (entries : list colEntry) (cols : gmap Z colEntry) : res (gmap Z colEntry) :=
  match entries with
  | [] => Ok cols
  | e :: entries =>
      _ ← guard_err (bool_decide (is_Some (cols !! ce_id e))) "duplicate directory entry";
      index_entries entries (<[ce_id e := e]> cols)
  end.

Definition NewReader (data : bytes) : res Reader :=
  _ ← guard_err (bool_decide (zlen data < headerSize + footerSize)) "data too short";
  hdrArr ← slice data 0 headerSize;
  hdr ← decodeHeader hdrArr;
  ftrArr ← slice data (zlen data - footerSize) (zlen data);
  ftr ← decodeFooter ftrArr;
  let dirEnd := zlen data - footerSize in
  _ ← guard_err (bool_decide (dirEnd < dirOffset ftr)) "directory offset out of range";
  dirData ← slice data (dirOffset ftr) dirEnd;
  _ ← guard_err (bool_decide (crc32c dirData <> dirCRC ftr)) "directory CRC mismatch";
  entries ← decodeDirectory dirData;
  cols ← index_entries entries ∅;
  _ ← validateColumns hdr cols (zlen data) (dirOffset ftr);
  Ok (fresh {| rd_data := data; rd_hdr := hdr; rd_cols := cols |}).

(** * Methods *)

(** A method of a reader. *)
Definition RM (A : Type) : Type := Reader -> res A * Reader.

#[export] Instance RM_ret : MRet RM := fun A a r => (Ok a, r).
#[export] Instance RM_bind : MBind RM := fun A B f m r =>
  match m r with
  | (Ok a, r) => f a r
  | (Err e, r) => (Err e, r)
  | (Panic, r) => (Panic, r)
  end.

Definition lift {A} (x : res A) : RM A := fun r => (x, r).
Definition get_core : RM core := fun r => (Ok (rd_core r), r).

(** [x, err := m(); if err != nil { ... } else { ... }] *)
Definition attempt {A} (m : RM A) : RM (option A) := fun r =>
  match m r with
  | (Ok a, r) => (Ok (Some a), r)
  | (Err _, r) => (Ok None, r)
  | (Panic, r) => (Panic, r)
  end.

Section methods.
(** [zstd.NewReader(WithDecoderMaxMemory(maxMem)).DecodeAll(data)] *)
Context (zstd_decompress : Z -> bytes -> res bytes).

Definition decompressZstd (data : bytes) (rawSize : Z) : res bytes :=
  let minDecoderMemory := Z.shiftl 8 20 in
  let maxMem := if decide (rawSize < minDecoderMemory) then minDecoderMemory else rawSize in
  zstd_decompress maxMem data.

(** The stored bytes of a column, decompressed. *)
Definition column_bytes (data : bytes) (e : colEntry) : res bytes :=
  raw ← slice data (ce_offset e) (u64 (ce_offset e + ce_compressedSize e));
  if decide (ce_codec e = codecZstd) then
    out ← decompressZstd raw (ce_rawSize e);
    _ ← guard_err (bool_decide (zlen out <> ce_rawSize e)) "decompressed size mismatch";
    Ok out
  else Ok raw.

Definition set_column (id : Z) (count : Z) (out : option bytes) (r : Reader) : Reader :=
  {| rd_core := rd_core r;
     rd_decompressed := match out with
                        | Some v => <[id := v]> (rd_decompressed r)
                        | None => rd_decompressed r
                        end;
     DecompressionCount := DecompressionCount r + count;
     rd_dicts := rd_dicts r; rd_ints := rd_ints r; rd_offs := rd_offs r |}.

(** [getColumn] and [getColumnLocked]. *)
Definition getColumn (id : Z) : RM bytes := fun r =>
  match rd_decompressed r !! id with
  | Some v => (Ok v, r)
  | None =>
      match rd_cols (rd_core r) !! id with
      | None => (Ok [], set_column id 0 (Some []) r)
      | Some e =>
          let count := if decide (ce_codec e = codecZstd) then 1 else 0 in
          match column_bytes (rd_data (rd_core r)) e with
          | Ok out => (Ok out, set_column id count (Some out) r)
          | Err m => (Err m, set_column id count None r)
          | Panic => (Panic, r)
          end
      end
  end.

Definition set_dict (id : Z) (d : list bytes) (r : Reader) : Reader :=
  {| rd_core := rd_core r; rd_decompressed := rd_decompressed r;
     DecompressionCount := DecompressionCount r;
     rd_dicts := match d with [] => rd_dicts r | _ => <[id := d]> (rd_dicts r) end;
     rd_ints := rd_ints r; rd_offs := rd_offs r |}.

Definition put {A} (a : A) (f : Reader -> Reader) : RM A := fun r => (Ok a, f r).

Definition expand_column (id : Z) : RM (list bytes) :=
  data ← getColumn id;
  strs ← lift (expandDict data);
  put strs (set_dict id strs).

(** [ensurePkgDict], ..., [ensureAttrValDict], which differ in the column. *)
Definition ensureDict (id : Z) : RM (list bytes) := fun r =>
  match rd_dicts r !! id with
  | Some d => (Ok d, r)
  | None => expand_column id r
  end.

Definition ensurePkgDict : RM (list bytes) := ensureDict colPkgDict.
Definition ensureNameDict : RM (list bytes) := ensureDict colNameDict.
Definition ensureRuleTypeDict : RM (list bytes) := ensureDict colRuleTypeDict.
Definition ensureTagDict : RM (list bytes) := ensureDict colTagDict.
Definition ensureAttrNameDict : RM (list bytes) := ensureDict colAttrNameDict.
Definition ensureAttrValDict : RM (list bytes) := ensureDict colAttrValueDict.

Definition set_ints (id : Z) (l : option (list Z)) (r : Reader) : Reader :=
  {| rd_core := rd_core r; rd_decompressed := rd_decompressed r;
     DecompressionCount := DecompressionCount r; rd_dicts := rd_dicts r;
     rd_ints := match l with Some l => <[id := l]> (rd_ints r) | None => rd_ints r end;
     rd_offs := rd_offs r |}.

(** A decoder that appends to a nil slice returns nil when there is nothing. *)
Definition nilable {A} (l : list A) : option (list A) :=
  match l with [] => None | _ => Some l end.

Definition store_ints (id : Z) (compute : RM (list Z * option (list Z))) : RM (list Z) :=
  '(l, cache) ← compute; put l (set_ints id cache).

Definition cached_ints (id : Z) (compute : RM (list Z * option (list Z))) : RM (list Z) := fun r =>
  match rd_ints r !! id with
  | Some l => (Ok l, r)
  | None => store_ints id compute r
  end.

Definition getPkgIDColumn : RM (list Z) :=
  cached_ints colNodePkg
    (data ← getColumn colNodePkg;
     let ids := decodeDeltaInts data in mret (ids, nilable ids)).

Definition getNameIDColumn : RM (list Z) :=
  cached_ints colNodeName
    (pkgIDs ← getPkgIDColumn;
     data ← getColumn colNodeName;
     let ids := decodeNameIDs data pkgIDs in
     mret (ids, if decide (data = []) then None else Some ids)).

Definition getRuleTypeIDColumn : RM (list Z) :=
  cached_ints colRuleType
    (data ← getColumn colRuleType;
     let ids := decodePlainInts data in mret (ids, nilable ids)).

Definition RuleTypeIDs : RM (list Z) := getRuleTypeIDColumn.

(** ** Header and raw columns *)

Definition NodeCount (c : core) : Z := i64 (nodeCount (rd_hdr c)).
Definition HashStride (c : core) : Z := hashBytes (rd_hdr c).

Definition raw_column (c : core) (e : colEntry) : res bytes :=
  slice (rd_data c) (ce_offset e) (u64 (ce_offset e + ce_compressedSize e)).

Definition Hashes (c : core) : res bytes :=
  match rd_cols c !! colHash with
  | None => Ok []
  | Some e => if decide (ce_rawSize e = 0) then Ok [] else raw_column c e
  end.

Definition BlockCount (c : core) : Z :=
  match rd_cols c !! colBlockDigest with None => 0 | Some e => ce_rawSize e / 8 end.

Definition BlockDigests (c : core) : res (list Z) :=
  match rd_cols c !! colBlockDigest with
  | None => Ok []
  | Some e =>
      raw ← raw_column c e;
      Ok ((fun i => le_at (i * 8) 8 raw) <$> seq 0 (length raw / 8))
  end.

Definition BlockStart (i : Z) : RM Z :=
  data ← attempt (getColumn colBlockStart);
  match data with
  | None | Some [] => mret 0
  | Some data =>
      starts ← cached_ints colBlockStart
        (let l := decodeDeltaInts data in mret (l, nilable l));
      if decide (zlen starts <= i) then mret 0 else lift (index starts i)
  end.

(** ** Labels *)

(** [if node < len(ids) { return ids[node] }; return 0], an error reading as
    no IDs. *)
Definition id_at (m : RM (list Z)) (node : Z) : RM Z :=
  ids ← attempt m;
  let ids := default [] ids in
  if decide (node < zlen ids) then lift (index ids node) else mret 0.

Definition PackageID (node : Z) : RM Z := id_at getPkgIDColumn node.
Definition NameID (node : Z) : RM Z := id_at getNameIDColumn node.

(** [if int(id) < len(dict) { s = dict[id] }] *)
Definition dict_get (dict : list bytes) (id : Z) : res bytes :=
  if decide (id < zlen dict) then index dict id else Ok [].

Definition split_label (node : Z) : RM (option (bytes * bytes)) :=
  pid ← PackageID node;
  nid ← NameID node;
  dicts ← attempt (pkgDict ← ensurePkgDict; nameDict ← ensureNameDict; mret (pkgDict, nameDict));
  match dicts with
  | None => mret None
  | Some (pkgDict, nameDict) =>
      pkg ← lift (dict_get pkgDict pid);
      name ← lift (dict_get nameDict nid);
      mret (Some (pkg, name))
  end.

Definition Label (node : Z) : RM bytes :=
  s ← split_label node;
  mret (match s with None => [] | Some (pkg, name) => joinLabel pkg name end).

Definition SplitLabel (node : Z) : RM (bytes * bytes) :=
  s ← split_label node;
  mret (default ([], []) s).

(** [sort.Search(n, f)] on [[i, j)]: every round halves the interval. *)
Fixpoint sort_search (fuel : nat) (f : Z -> RM bool) (i j : Z) : RM Z :=
  match fuel with
  | O => mret i
  | S fuel =>
      if decide (i < j) then
        let h := Z.shiftr (i + j) 1 in
        b ← f h;
        if b : bool then sort_search fuel f i h else sort_search fuel f (h + 1) j
      else mret i
  end.

Definition key_reached (pkg name : bytes) (i : Z) : RM bool :=
  '(p, nm) ← SplitLabel i;
  mret (if decide (p <> pkg) then bltb pkg p else negb (bltb nm name)).

Definition FindNode (pkg name : bytes) : RM Z :=
  c ← get_core;
  let n := NodeCount c in
  i ← sort_search (Z.to_nat n) (key_reached pkg name) 0 n;
  if decide (i < n) then
    '(p, nm) ← SplitLabel i;
    mret (if decide (p = pkg /\ nm = name) then i else -1)
  else mret (-1).

(** ** Rule types, tags, attributes *)

Definition RuleType (node : Z) : RM bytes :=
  ids ← attempt getRuleTypeIDColumn;
  match ids with
  | None => mret []
  | Some ids =>
      if decide (zlen ids <= node) then mret []
      else
        dict ← attempt ensureRuleTypeDict;
        idx ← lift (index ids node);
        lift (dict_get (default [] dict) idx)
  end.

(** [for i, s := range dict { if s == name { return int32(i) } }] *)
Fixpoint find_string (name : bytes) (i : Z) (dict : list bytes) : Z :=
  match dict with
  | [] => -1
  | s :: dict => if decide (s = name) then i32 i else find_string name (i + 1) dict
  end.

Definition RuleTypeDictID (name : bytes) : RM Z :=
  dict ← attempt ensureRuleTypeDict;
  mret (match dict with None => -1 | Some dict => find_string name 0 dict end).

Definition TagName (id : Z) : RM bytes :=
  dict ← attempt ensureTagDict;
  let dict := default [] dict in
  if decide (id < 0 \/ zlen dict <= id) then mret [] else lift (index dict id).

Definition set_offs (id : Z) (o : list Z * list Z * list Z) (r : Reader) : Reader :=
  {| rd_core := rd_core r; rd_decompressed := rd_decompressed r;
     DecompressionCount := DecompressionCount r; rd_dicts := rd_dicts r; rd_ints := rd_ints r;
     rd_offs := <[id := o]> (rd_offs r) |}.

Definition store_offs (id : Z) (compute : res (list Z * list Z * list Z)) :
  RM (list Z * list Z * list Z) :=
  o ← lift compute; put o (set_offs id o).

Definition cached_offs (id : Z) (compute : res (list Z * list Z * list Z)) :
  RM (list Z * list Z * list Z) := fun r =>
  match rd_offs r !! id with
  | Some o => (Ok o, r)
  | None => store_offs id compute r
  end.

Definition ensureDepOffsets : RM (list Z * list Z * bytes) :=
  degData ← getColumn colDeg;
  depsData ← getColumn colDeps;
  '(degs, offsets, _) ← cached_offs colDeps
    ('(degs, offsets) ← dep_offsets degData depsData; Ok (degs, offsets, []));
  mret (degs, offsets, depsData).

Definition ensureTagOffsets : RM (list Z * list Z * bytes) :=
  degData ← getColumn colTagDeg;
  tagsData ← getColumn colTags;
  '(degs, offsets, _) ← cached_offs colTags
    ('(degs, offsets) ← tag_offsets degData tagsData; Ok (degs, offsets, []));
  mret (degs, offsets, tagsData).

Definition Deps (node : Z) (buf : list Z) : RM (list Z) :=
  o ← attempt ensureDepOffsets;
  match o with
  | None => mret buf
  | Some (degs, offsets, depsData) => lift (node_run rd_dep depsData degs offsets node buf)
  end.

Definition Tags (node : Z) (buf : list Z) : RM (list Z) :=
  o ← attempt ensureTagOffsets;
  match o with
  | None => mret buf
  | Some (degs, offsets, tagsData) =>
      lift (node_run (fun _ => rd_tag) tagsData degs offsets node buf)
  end.

Definition DepsCSR : RM (list Z * list Z) :=
  degData ← getColumn colDeg;
  depsData ← getColumn colDeps;
  lift (deps_csr degData depsData).

(** The loop of [ensureAttrOffsets] over one node. *)
Fixpoint skip_attrs (nmData vlData : bytes) (k : nat) (nmPos vlPos : Z) : res (Z * Z) :=
  match k with
  | O => Ok (nmPos, vlPos)
  | S k =>
      rest ← slice nmData nmPos (zlen nmData);
      let n := (readUvarint rest).2 in
      _ ← guard_err (bool_decide (n <= 0)) "truncated ATTR_NAME column";
      rest ← slice vlData vlPos (zlen vlData);
      let m := (readUvarint rest).2 in
      _ ← guard_err (bool_decide (m <= 0)) "truncated ATTR_VALUE column";
      skip_attrs nmData vlData k (nmPos + n) (vlPos + m)
  end.

Fixpoint attr_offset_loop (nmData vlData : bytes) (degs : list Z) (nmPos vlPos : Z)
  (nmOff vlOff : list Z) : res (list Z * list Z) :=
  match degs with
  | [] => Ok (nmOff ++ [i32 nmPos], vlOff ++ [i32 vlPos])
  | deg :: degs =>
      let nmOff := nmOff ++ [i32 nmPos] in
      let vlOff := vlOff ++ [i32 vlPos] in
      '(nmPos, vlPos) ← skip_attrs nmData vlData (Z.to_nat deg) nmPos vlPos;
      attr_offset_loop nmData vlData degs nmPos vlPos nmOff vlOff
  end.

Definition attr_offsets (degData nmData vlData : bytes) : res (list Z * list Z * list Z) :=
  let degs := decodePlainInts degData in
  _ ← validateDegs degs (zlen nmData);
  _ ← validateDegs degs (zlen vlData);
  '(nmOff, vlOff) ← attr_offset_loop nmData vlData degs 0 0 [] [];
  Ok (degs, nmOff, vlOff).

Definition ensureAttrOffsets : RM (list Z * list Z * list Z * bytes * bytes) :=
  degData ← getColumn colAttrDeg;
  nmData ← getColumn colAttrName;
  vlData ← getColumn colAttrValue;
  '(degs, nmOff, vlOff) ← cached_offs colAttrName (attr_offsets degData nmData vlData);
  mret (degs, nmOff, vlOff, nmData, vlData).

(** [if int(id) < len(dict) { s = dict[id] }] for a [uint64]: the conversion
    may be negative, and then the index is out of range. *)
Definition dict_get_u64 (dict : list bytes) (id : Z) : res bytes :=
  if decide (i64 id < zlen dict) then index dict id else Ok [].

Fixpoint read_attr_map (nmData vlData : bytes) (anDict avDict : list bytes) (k : nat)
  (nmPos vlPos : Z) (out : gmap bytes bytes) : res (gmap bytes bytes) :=
  match k with
  | O => Ok out
  | S k =>
      rest ← slice nmData nmPos (zlen nmData);
      let '(nid, n) := readUvarint rest in
      rest ← slice vlData vlPos (zlen vlData);
      let '(vid, m) := readUvarint rest in
      aname ← dict_get_u64 anDict nid;
      aval ← dict_get_u64 avDict vid;
      read_attr_map nmData vlData anDict avDict k (nmPos + n) (vlPos + m) (<[aname := aval]> out)
  end.

Definition Attrs (node : Z) : RM (gmap bytes bytes) :=
  o ← attempt ensureAttrOffsets;
  match o with
  | None => mret ∅
  | Some (degs, nmOff, vlOff, nmData, vlData) =>
      if decide (zlen degs <= node) then mret ∅
      else
        anDict ← attempt ensureAttrNameDict;
        avDict ← attempt ensureAttrValDict;
        deg ← lift (index degs node);
        if decide (deg = 0) then mret ∅
        else
          nmPos ← lift (index nmOff node);
          vlPos ← lift (index vlOff node);
          lift (read_attr_map nmData vlData (default [] anDict) (default [] avDict)
                  (Z.to_nat deg) nmPos vlPos ∅)
  end.

(** ** Flags and hashes *)

(** [bits[i/8] & (1 << (uint(i) % 8)) != 0] *)
Definition test_bit (bits : bytes) (i : Z) : res bool :=
  b ← index bits (i / 8);
  Ok (negb (bool_decide (Z.land (b2z b) (Z.shiftl 1 (i mod 8)) = 0))).

(** The root, external and hash-empty bitsets; an absent one is nil. *)
Definition split_flags (n : Z) (data : bytes) :
  option bytes * option bytes * option bytes :=
  let nb := Z.to_nat ((n + 7) / 8) in
  match data with
  | [] => (None, None, None)
  | _ =>
      if decide (length data < nb)%nat then (Some data, None, None)
      else if decide (length data < 2 * nb)%nat then (Some (take nb data), Some (drop nb data), None)
      else if decide (length data < 3 * nb)%nat then
        (Some (take nb data), Some (take nb (drop nb data)), None)
      else (Some (take nb data), Some (take nb (drop nb data)), Some (take nb (drop (2 * nb) data)))
  end.

Definition decodeFlags : RM (option bytes * option bytes * option bytes) :=
  data ← getColumn colFlags;
  c ← get_core;
  mret (split_flags (NodeCount c) data).

Definition Root (node : Z) : RM bool :=
  data ← attempt (getColumn colFlags);
  match data with
  | None => mret false
  | Some data =>
      c ← get_core;
      if decide (zlen data < (NodeCount c + 7) / 8) then mret false
      else lift (test_bit data node)
  end.

Definition External (node : Z) : RM bool :=
  data ← attempt (getColumn colFlags);
  match data with
  | None => mret false
  | Some data =>
      c ← get_core;
      extData ← lift (slice data ((NodeCount c + 7) / 8) (zlen data));
      if decide (zlen extData <= node / 8) then mret false else lift (test_bit extData node)
  end.

Definition HashEmptyBits : RM (option bytes) :=
  '(_, _, hashEmptyBits) ← decodeFlags; mret hashEmptyBits.

Definition HashEmpty (node : Z) : RM bool :=
  f ← attempt HashEmptyBits;
  match f with
  | None | Some None => mret false
  | Some (Some bits) => if decide (zlen bits <= node / 8) then mret false else lift (test_bit bits node)
  end.

Definition Hash (node : Z) : RM bytes :=
  empty ← HashEmpty node;
  if empty : bool then mret []
  else
    c ← get_core;
    let hb := HashStride c in
    hashes ← lift (Hashes c);
    let lo := node * hb in
    if decide (lo < 0 \/ zlen hashes < lo + hb) then mret []
    else h ← lift (slice hashes lo (lo + hb)); mret (hexEncode h).

Definition OriginalID (node : Z) : Z := i32 node.

(** ** The file-hash sidecar *)

(** One (length, string) item. *)
Definition read_string (msg : string) (data : bytes) : res (bytes * bytes) :=
  let '(len, sz) := Uvarint data in
  if decide (sz <= 0 \/ zlen data - sz < len) then Err msg
  else
    let data := drop (Z.to_nat sz) data in
    Ok (take (Z.to_nat len) data, drop (Z.to_nat len) data).
Arguments read_string msg%_string_scope data.

(** [for i := 0; i < n; i++]: an entry takes at least two bytes, so [len(data)]
    rounds are enough to reach the end of the data. *)
Fixpoint read_pairs (fuel : nat) (n : Z) (data : bytes) (m : gmap bytes bytes) :
  res (gmap bytes bytes) :=
  if decide (n <= 0) then Ok m
  else
    match fuel with
    | O => Err "truncated key"
    | S fuel =>
        '(key, data) ← read_string "truncated key" data;
        '(v, data) ← read_string "truncated value" data;
        read_pairs fuel (n - 1) data (<[key := v]> m)
    end.

Definition decodeStringMap (data : bytes) : res (gmap bytes bytes) :=
  '(n, data) ← take_uvarint "truncated count" data;
  read_pairs (length data) n data ∅.

Definition ReadAllTargetsFileHashes : RM (option (gmap bytes bytes)) :=
  c ← get_core;
  match rd_cols c !! colAllTargetsFileHashes with
  | None => mret None
  | Some _ =>
      data ← getColumn colAllTargetsFileHashes;
      m ← lift (decodeStringMap data);
      mret (Some m)
  end.

(** ** Decoding the whole graph *)

Definition expandAllDicts : RM (list bytes * list bytes * list bytes * list bytes * list bytes * list bytes) :=
  pkg ← ensurePkgDict;
  name ← ensureNameDict;
  rt ← ensureRuleTypeDict;
  tag ← ensureTagDict;
  an ← ensureAttrNameDict;
  av ← ensureAttrValDict;
  mret (pkg, name, rt, tag, an, av).

Fixpoint get_columns (ids : list Z) : RM unit :=
  match ids with
  | [] => mret ()
  | id :: ids => _ ← getColumn id; get_columns ids
  end.

Definition decompressAll : RM unit :=
  get_columns [colNodePkg; colNodeName; colRuleType; colDeg; colDeps; colTagDeg; colTags;
               colAttrDeg; colAttrName; colAttrValue; colFlags; colBlockStart].

Definition decodePkgIDs : RM (list Z) :=
  data ← getColumn colNodePkg; mret (decodeDeltaInts data).
Definition read_nameIDs (pkgIDs : list Z) : RM (list Z) :=
  data ← getColumn colNodeName; mret (decodeNameIDs data pkgIDs).
Definition decodeRuleTypeIDs : RM (list Z) :=
  data ← getColumn colRuleType; mret (decodePlainInts data).
Definition read_dep_columns : RM (list Z * list (list Z)) :=
  degData ← getColumn colDeg; depsData ← getColumn colDeps;
  lift (decodeDepColumns degData depsData).
Definition read_tag_columns : RM (list Z * list (list Z)) :=
  degData ← getColumn colTagDeg; tagsData ← getColumn colTags;
  lift (decodeTagColumns degData tagsData).
Definition read_attr_columns : RM (list Z * list (list Z) * list (list Z)) :=
  degData ← getColumn colAttrDeg; nmData ← getColumn colAttrName; vlData ← getColumn colAttrValue;
  lift (decodeAttrColumns degData nmData vlData).

(** [m[int32(i)] = s] over a dictionary. *)
Definition dict_map (dict : list bytes) : gmap Z bytes :=
  (foldl (fun '(i, m) s => (i + 1, <[i32 i := s]> m)) (0, ∅) dict).2.

(** The decoded columns that the per-node loop reads. *)
Record decoded := {
  dc_pkgDict : list bytes; dc_nameDict : list bytes;
  dc_pkgIDs : list Z; dc_nameIDs : list Z; dc_rtIDs : list Z;
  dc_depLists : list (list Z); dc_tagLists : list (list Z);
  dc_attrNames : list (list Z); dc_attrVals : list (list Z);
  dc_rootBits : option bytes; dc_extBits : option bytes; dc_emptyBits : option bytes;
  dc_hb : Z; dc_hashData : bytes;
}.

Definition opt_bit (bits : option bytes) (i : Z) : res bool :=
  match bits with None => Ok false | Some bits => test_bit bits i end.

(** [attrs[attrNames[i][j]] = attrVals[i][j]] *)
Fixpoint zip_attrs (names vals : list Z) (m : gmap Z Z) : res (gmap Z Z) :=
  match names, vals with
  | [], _ => Ok m
  | _ :: _, [] => Panic
  | n :: names, v :: vals => zip_attrs names vals (<[n := v]> m)
  end.

(** The body of the per-node loop: the label and the target of node [i]. *)
Definition decode_node (dc : decoded) (i : Z) : res (bytes * OptimizedTarget) :=
  pid ← index (dc_pkgIDs dc) i;
  nid ← index (dc_nameIDs dc) i;
  pkg ← lookupDictEntry (dc_pkgDict dc) pid;
  name ← lookupDictEntry (dc_nameDict dc) nid;
  let label := joinLabel pkg name in
  empty ← opt_bit (dc_emptyBits dc) i;
  hash ← (if empty : bool then Ok []
          else h ← slice (dc_hashData dc) (i * dc_hb dc) ((i + 1) * dc_hb dc); Ok (hexEncode h));
  rtID ← index (dc_rtIDs dc) i;
  deps ← index (dc_depLists dc) i;
  tags ← index (dc_tagLists dc) i;
  names ← index (dc_attrNames dc) i;
  vals ← index (dc_attrVals dc) i;
  attrs ← zip_attrs names vals ∅;
  root ← opt_bit (dc_rootBits dc) i;
  ext ← opt_bit (dc_extBits dc) i;
  Ok (label, {| ot_ID := i32 i; ot_Hash := hash; ot_DirectDependencies := deps;
                ot_RuleType := rtID; ot_Tags := tags; ot_Root := root; ot_External := ext;
                ot_Attributes := attrs |}).

Definition decode_nodes (dc : decoded) (n : Z) : res (list (bytes * OptimizedTarget)) :=
  for_each (fun i (_ : unit) => decode_node dc i) 0 (replicate (Z.to_nat n) ()).

Definition DecodeGraph : RM Graph :=
  '(pkgDict, nameDict, rtDict, tagDict, anDict, avDict) ← expandAllDicts;
  c ← get_core;
  let n := NodeCount c in
  _ ← decompressAll;
  pkgIDs ← decodePkgIDs;
  nameIDs ← read_nameIDs pkgIDs;
  rtIDs ← decodeRuleTypeIDs;
  '(_, depLists) ← read_dep_columns;
  '(_, tagLists) ← read_tag_columns;
  '(_, attrNames, attrVals) ← read_attr_columns;
  '(rootBits, extBits, emptyBits) ← decodeFlags;
  hashData ← lift (Hashes c);
  nodes ← lift (decode_nodes
    {| dc_pkgDict := pkgDict; dc_nameDict := nameDict; dc_pkgIDs := pkgIDs; dc_nameIDs := nameIDs;
       dc_rtIDs := rtIDs; dc_depLists := depLists; dc_tagLists := tagLists;
       dc_attrNames := attrNames; dc_attrVals := attrVals; dc_rootBits := rootBits;
       dc_extBits := extBits; dc_emptyBits := emptyBits; dc_hb := HashStride c;
       dc_hashData := hashData |} n);
  atfh ← ReadAllTargetsFileHashes;
  mret {| Targets := nodes.*2;
          Meta := {| TargetIDMapping := dict_map (nodes.*1); RuleTypeMapping := dict_map rtDict;
                     TagMapping := dict_map tagDict; AttributeNameMapping := dict_map anDict;
                     AttributeStringValueMapping := dict_map avDict;
                     AllTargetsFileHashes := default ∅ atfh |} |}.

Definition Decode (data : bytes) : res Graph :=
  r ← NewReader data;
  (DecodeGraph r).1.

Record ColumnStat := { cs_ID : Z; cs_RawSize : Z; cs_CompressedSize : Z }.

Definition ColumnStats (data : bytes) : res (list ColumnStat) :=
  r ← NewReader data;
  Ok (sort_func (fun a b => cs_ID a ?= cs_ID b)
    ((fun '(id, e) => {| cs_ID := id; cs_RawSize := ce_rawSize e;
                         cs_CompressedSize := ce_compressedSize e |}) <$>
      map_to_list (rd_cols (rd_core r)))).
End methods.
