(* ===== verification/ReaderSafe.v ===== *)
(** What opening a TGB blob establishes, and why the caches of a reader are not
    observable. *)
From Stdlib Require Import ZArith Lia ZifyNat.
From S2P Require Import Prelude Varint Format Dict Columns Entity Encode Reader.

Local Open Scope Z_scope.

#[local] Opaque crc32c.

(** * The invariant [NewReader] establishes *)

(** One directory entry: inside the data region, of a known codec and of a
    bounded size. *)
Record column_ok (data : bytes) (id : Z) (e : colEntry) : Prop := {
  col_id : ce_id e = id;
  col_lo : headerSize <= ce_offset e;
  col_size : 0 <= ce_compressedSize e;
  col_hi : ce_offset e + ce_compressedSize e <= zlen data - footerSize;
  col_codec : ce_codec e = codecRaw /\ ce_rawSize e = ce_compressedSize e \/
              ce_codec e = codecZstd /\ (0 < ce_rawSize e -> 0 < ce_compressedSize e);
  col_raw : 0 <= ce_rawSize e <= maxColumnRawSize;
}.

Definition total_raw (cols : gmap Z colEntry) : Z :=
  zsum ((fun ie => ce_rawSize ie.2) <$> map_to_list cols).

Record core_ok (c : core) : Prop := {
  core_hdr : header_ok (rd_hdr c);
  core_cols : map_Forall (column_ok (rd_data c)) (rd_cols c);
  core_nodes : nodeCount (rd_hdr c) <= maxColumnRawSize;
  core_deg : 0 < nodeCount (rd_hdr c) -> exists e,
    rd_cols c !! colDeg = Some e /\ nodeCount (rd_hdr c) <= ce_rawSize e;
  core_hash : 0 < nodeCount (rd_hdr c) -> exists e,
    rd_cols c !! colHash = Some e /\ ce_rawSize e = nodeCount (rd_hdr c) * hashBytes (rd_hdr c);
  core_edges : 0 < edgeCount (rd_hdr c) -> exists e,
    rd_cols c !! colDeps = Some e /\ edgeCount (rd_hdr c) <= ce_rawSize e;
  core_blocks : forall e, rd_cols c !! colBlockDigest = Some e ->
    ce_rawSize e = 8 * (ce_rawSize e / 8) /\ ce_rawSize e / 8 <= nodeCount (rd_hdr c);
  core_budget : total_raw (rd_cols c) <=
    Z.max (zlen (rd_data c) * maxTotalRawFactor) maxTotalRawFloor;
}.

Lemma index_entries_Ok entries cols cols' :
  index_entries entries cols = Ok cols' ->
  map_Forall (fun id e => ce_id e = id) cols ->
  map_Forall (fun id e => ce_id e = id) cols' /\
  (forall id e, cols' !! id = Some e -> cols !! id = Some e \/ e ∈ entries) /\
  size cols' = (size cols + length entries)%nat.
Proof.
  revert cols. induction entries as [|e entries IH]; intros cols; cbn [index_entries].
  { intros [= <-] ?. split; [done|]. split; [auto|cbn; lia]. }
  intros H Hid. res_inv. apply eq_None_not_Some in E.
  apply IH in H as (H1 & H2 & H3); [|by apply map_Forall_insert_2].
  split; [done|]. split.
  - intros id e' He'. destruct (H2 _ _ He') as [Hc|Hc]; [|right; by constructor].
    destruct (decide (id = ce_id e)) as [->|Hne].
    + rewrite lookup_insert_eq in Hc. injection Hc as ->. right. constructor.
    + rewrite lookup_insert_ne in Hc by done. by left.
  - rewrite H3, map_size_insert_None by done. cbn. lia.
Qed.

Lemma index_entries_not_panic entries cols : index_entries entries cols <> Panic.
Proof.
  revert cols. induction entries as [|e entries IH]; intros cols; cbn [index_entries]; [done|].
  intros [_ H]%guard_err_bind_Panic. by apply IH in H.
Qed.

Lemma validate_column_Ok data dirOff total id e total' :
  entry_ok e -> ce_id e = id -> dirOff <= zlen data - footerSize -> zlen data < 2^63 ->
  validate_column dirOff total id e = Ok total' ->
  column_ok data id e /\ total' = u64 (total + ce_rawSize e).
Proof.
  intros (Hi & Hc & Ho & Hz & Hr) Hid Hdir Hlen H. unfold validate_column in H. res_inv.
  assert (ce_offset e + ce_compressedSize e < 2^64) as Hw.
  { destruct (decide (ce_offset e + ce_compressedSize e < 2^64)); [done|].
    exfalso. apply E. left. unfold u64.
    rewrite <- (Z.mod_add _ (-1)) by lia. rewrite Z.mod_small; lia. }
  rewrite u64_small in E by lia. split; [|done].
  split; try lia.
  case_decide as Hraw; [left; split; [done|]|].
  { res_inv. lia. }
  case_decide as Hz2; [|done]. res_inv. right. split; [done|]. lia.
Qed.

Lemma validate_entries_Ok data dirOff es total total' :
  Forall (fun ie => entry_ok ie.2 /\ ce_id ie.2 = ie.1) es ->
  dirOff <= zlen data - footerSize -> zlen data < 2^63 ->
  0 <= total -> total + maxColumnRawSize * zlen es < 2^64 ->
  validate_entries dirOff es total = Ok total' ->
  Forall (fun ie => column_ok data ie.1 ie.2) es /\
  total' = total + zsum ((fun ie => ce_rawSize ie.2) <$> es).
Proof.
  intros Hes Hdir Hlen. revert total. induction Hes as [|[id e] es [He Hid] _ IH];
    intros total Htot Hb H; cbn [validate_entries] in H.
  { injection H as ->. split; [constructor|]. cbn. lia. }
  apply bind_Ok in H as (t & Hv & H). rewrite zlen_cons in Hb. pose proof (zlen_nonneg es).
  apply (validate_column_Ok data) in Hv as [Hcol ->]; [|done..].
  pose proof (col_raw _ _ _ Hcol) as Hraw. cbn [snd] in *.
  assert (0 <= maxColumnRawSize) by done.
  rewrite u64_small in H by nia. apply IH in H as [? ->]; [|lia|nia].
  split; [by constructor|]. rewrite fmap_cons. cbn [zsum foldr snd]. unfold zsum. lia.
Qed.

Lemma need_column_Ok cols id bad msg :
  need_column cols id bad msg = Ok () -> exists e, cols !! id = Some e /\ bad e = false.
Proof.
  unfold need_column. destruct (cols !! id) as [e|]; [|done]. intros H. res_inv. eauto.
Qed.

Lemma zlen_map_to_list (cols : gmap Z colEntry) : zlen (map_to_list cols) = Z.of_nat (size cols).
Proof. unfold zlen. by rewrite length_map_to_list. Qed.

Lemma validateColumns_Ok data hdr cols dirOff :
  header_ok hdr -> map_Forall (fun id e => entry_ok e /\ ce_id e = id) cols ->
  (size cols <= 64)%nat -> dirOff <= zlen data - footerSize -> zlen data < 2^59 ->
  validateColumns hdr cols (zlen data) dirOff = Ok () ->
  core_ok {| rd_data := data; rd_hdr := hdr; rd_cols := cols |}.
Proof.
  intros Hh Hcols Hsize Hdir Hlen H. unfold validateColumns in H.
  apply bind_Ok in H as ([] & _ & H). apply bind_Ok in H as ([] & _ & H).
  apply bind_Ok in H as (total & Hv & H). apply bind_Ok in H as ([] & Hbud & H).
  apply bind_Ok in H as ([] & Hn & H). apply bind_Ok in H as ([] & He & Hbd).
  pose proof (zlen_nonneg data).
  apply (validate_entries_Ok data) in Hv as [Hall Htot]; try lia.
  2: { apply Forall_forall. intros [id e] Hin%elem_of_map_to_list. by apply Hcols in Hin. }
  2: { rewrite zlen_map_to_list. change maxColumnRawSize with (2^30). lia. }
  assert (Hcol : map_Forall (column_ok data) cols).
  { intros id e Hl. rewrite Forall_forall in Hall.
    apply (Hall (id, e)). by apply elem_of_map_to_list. }
  assert (Hdeg : 0 < nodeCount hdr -> exists e,
    cols !! colDeg = Some e /\ nodeCount hdr <= ce_rawSize e).
  { intros Hpos. rewrite decide_True in Hn by done. apply bind_Ok in Hn as ([] & Hd & _).
    apply need_column_Ok in Hd as (e & ? & Hbad). res_inv. exists e. split; [done|lia]. }
  assert (Hnode : nodeCount hdr <= maxColumnRawSize).
  { destruct (decide (0 < nodeCount hdr)) as [Hpos|]; [|change maxColumnRawSize with (2^30); lia].
    destruct (Hdeg Hpos) as (e & Hl & ?). pose proof (col_raw _ _ _ (Hcol _ _ Hl)). lia. }
  split; cbn; try done.
  - intros Hpos. rewrite decide_True in Hn by done. apply bind_Ok in Hn as ([] & _ & Hd).
    apply need_column_Ok in Hd as (e & ? & Hbad). res_inv. exists e. split; [done|].
    apply dec_stable in Hbad. rewrite Hbad. apply u64_small.
    change maxColumnRawSize with (2^30) in Hnode. destruct Hh as (? & _ & _ & _ & Hst). nia.
  - intros Hpos. rewrite decide_True in He by done.
    apply need_column_Ok in He as (e & ? & Hbad). res_inv. exists e. split; [done|lia].
  - intros e Hl. rewrite Hl in Hbd. res_inv. apply dec_stable in E.
    pose proof (Z.div_mod (ce_rawSize e) 8 ltac:(lia)). lia.
  - res_inv. unfold total_raw. rewrite u64_small in Hbud; unfold maxTotalRawFactor in *; lia.
Qed.

(** ** No step of [NewReader] panics *)

Lemma guard_err_not_panic b m : guard_err b m <> Panic.
Proof. by destruct b. Qed.

Lemma bind_not_panic {A B} (m : res A) (f : A -> res B) :
  m <> Panic -> (forall a, m = Ok a -> f a <> Panic) -> m ≫= f <> Panic.
Proof. intros Hm Hf. destruct m; cbn; [by apply Hf|done|done]. Qed.

Lemma decodeHeader_not_panic b : decodeHeader b <> Panic.
Proof.
  unfold decodeHeader. case_decide; [|done].
  apply bind_not_panic; [apply guard_err_not_panic|intros _ _].
  apply bind_not_panic; [apply guard_err_not_panic|intros _ _]. by case_decide.
Qed.

Lemma validate_entries_not_panic dirOff es total : validate_entries dirOff es total <> Panic.
Proof.
  revert total. induction es as [|[id e] es IH]; intros total; cbn [validate_entries]; [done|].
  apply bind_not_panic; [|intros; apply IH]. unfold validate_column.
  apply bind_not_panic; [apply guard_err_not_panic|intros _ _].
  apply bind_not_panic.
  { case_decide; [apply guard_err_not_panic|]. case_decide; [apply guard_err_not_panic|done]. }
  intros _ _. apply bind_not_panic; [apply guard_err_not_panic|done].
Qed.

Lemma need_column_not_panic cols id bad msg : need_column cols id bad msg <> Panic.
Proof. unfold need_column. destruct (cols !! id); [apply guard_err_not_panic|done]. Qed.

Lemma validateColumns_not_panic hdr cols fileSize dirOff :
  validateColumns hdr cols fileSize dirOff <> Panic.
Proof.
  unfold validateColumns.
  repeat (apply bind_not_panic;
    [solve [apply guard_err_not_panic|apply validate_entries_not_panic|
            case_decide; [|done]; repeat (apply bind_not_panic || apply need_column_not_panic || intros)]
    |intros ? _]).
  destruct (cols !! colBlockDigest); [|done].
  apply bind_not_panic; [apply guard_err_not_panic|intros; apply guard_err_not_panic].
Qed.

Lemma decodeDirectory_not_panic b : decodeDirectory b <> Panic.
Proof.
  unfold decodeDirectory. apply bind_not_panic; [apply take_uvarint_not_panic|].
  intros [n b'] _. apply bind_not_panic; [apply guard_err_not_panic|].
  intros _ _. apply decode_entries_not_panic.
Qed.

Lemma decodeDirectory_Ok b es :
  decodeDirectory b = Ok es -> Forall entry_ok es /\ (length es <= 64)%nat.
Proof.
  unfold decodeDirectory. intros ([n b'] & E & H)%bind_Ok. apply bind_Ok in H as ([] & Hn & H).
  apply take_uvarint_Ok in E as (? & _). res_inv.
  apply decode_entries_Ok in H as (? & ? & _). unfold maxDirectoryEntries in *.
  split; [done|lia].
Qed.

(** * Properties of [NewReader] *)

(** C2: On any blob of fewer than 2^59 bytes [NewReader] does not panic, and a blob
    it accepts satisfies everything the lazy accessors rely on: the header is
    well formed; every column lies inside the file between the header and the
    directory, has a known codec and claims at most 2^30 raw bytes; the node
    count is backed by DEG bytes and by a HASH column of exactly
    [nodeCount * stride] bytes, the edge count by DEPS bytes; there are at most
    as many digest blocks as nodes; and all the raw sizes together stay within
    the budget.  The reader starts with empty caches. *)
Theorem NewReader_sound (data : bytes) :
  zlen data < 2^59 ->
  match NewReader data with
  | Ok r => core_ok (rd_core r) /\ rd_data (rd_core r) = data /\ r = fresh (rd_core r)
  | Err _ => True
  | Panic => False
  end.
Proof.
  intros Hlen. unfold NewReader, headerSize, footerSize.
  case_bool_decide as Hshort; [done|]. cbn [guard_err mbind res_bind].
  rewrite !slice_Ok by lia. cbn [mbind res_bind].
  destruct (decodeHeader _) as [hdr|e|] eqn:Eh; cbn [mbind res_bind];
    [|done|by apply decodeHeader_not_panic in Eh].
  apply decodeHeader_Ok in Eh as (Hh & _ & _).
  2: { rewrite length_take, length_drop. unfold zlen in Hshort. lia. }
  destruct (decodeFooter _) as [ftr|e|] eqn:Ef; cbn [mbind res_bind]; [|done|].
  2: { unfold decodeFooter in Ef. by case_decide. }
  assert (0 <= dirOffset ftr) as Hoff.
  { unfold decodeFooter in Ef. case_decide; [|done]. injection Ef as <-. cbn.
    by apply (le_at_range 0 8 _ (2^64)). }
  case_bool_decide as Hdir; [done|]. cbn [guard_err mbind res_bind].
  rewrite slice_Ok by lia. cbn [mbind res_bind]. set (dirData := take _ _).
  case_bool_decide; [done|]. cbn [guard_err mbind res_bind].
  destruct (decodeDirectory dirData) as [es|e|] eqn:Ed; cbn [mbind res_bind];
    [|done|by apply decodeDirectory_not_panic in Ed].
  apply decodeDirectory_Ok in Ed as [Hes Hnum].
  destruct (index_entries es ∅) as [cols|e|] eqn:Ei; cbn [mbind res_bind];
    [|done|by apply index_entries_not_panic in Ei].
  apply index_entries_Ok in Ei as (Hid & Hin & Hsz); [|apply map_Forall_empty].
  destruct (validateColumns _ _ _ _) as [[]|e|] eqn:Ev; cbn [mbind res_bind];
    [|done|by apply validateColumns_not_panic in Ev].
  split; [|done]. eapply validateColumns_Ok; [done| |rewrite Hsz, map_size_empty; lia| |done|exact Ev].
  - intros id e Hl. split; [|by apply Hid]. destruct (Hin _ _ Hl) as [Hc|Hc]; [done|].
    rewrite Forall_forall in Hes. by apply Hes.
  - unfold footerSize. lia.
Qed.

(** An empty graph's blob: a header, an empty directory, a footer. *)
Definition empty_blob : bytes :=
  write_file {| nodeCount := 0; edgeCount := 0; blockSize := 512; flags := 0; hashBytes := 8 |} [].

Lemma NewReader_sound_witness :
  zlen empty_blob < 2^59 /\ exists r, NewReader empty_blob = Ok r /\ core_ok (rd_core r).
Proof.
  assert (Hl : zlen empty_blob < 2^59) by (vm_compute; reflexivity).
  split; [exact Hl|]. pose proof (NewReader_sound empty_blob Hl) as H.
  destruct (NewReader empty_blob) as [r|e|] eqn:E.
  - exists r. split; [reflexivity|exact (proj1 H)].
  - exfalso. vm_compute in E. discriminate E.
  - destruct H.
Defined.
