(* ===== verification/ReaderCache.v ===== *)
(** The caches of a reader are transparent: after any sequence of calls a
    method returns what it returns on a reader just opened. *)
From Stdlib Require Import ZArith Lia.
From S2P Require Import Prelude Varint Format Dict Columns Entity Encode Reader.

Local Open Scope Z_scope.

(** * The methods as calls *)

Inductive call :=
  | CLabel (node : Z) | CSplitLabel (node : Z) | CFindNode (pkg name : bytes) | CHash (node : Z)
  | CTagName (id : Z) | CPackageID (node : Z) | CNameID (node : Z) | CRuleType (node : Z)
  | CDeps (node : Z) (buf : list Z) | CDepsCSR | CTags (node : Z) (buf : list Z)
  | CAttrs (node : Z) | CRoot (node : Z) | CExternal (node : Z) | CHashEmpty (node : Z)
  | CHashEmptyBits | CAllTargetsFileHashes | CRuleTypeIDs | CRuleTypeDictID (name : bytes)
  | CBlockStart (i : Z) | CDecodeGraph.

Inductive value :=
  | VBytes (b : bytes) | VPair (p n : bytes) | VInt (z : Z) | VInts (l : list Z)
  | VCSR (offs targets : list Z) | VMap (m : gmap bytes bytes) | VBool (b : bool)
  | VBits (b : option bytes) | VOptMap (m : option (gmap bytes bytes)) | VGraph (g : Graph).

Section cache.
Context (zstd : Z -> bytes -> res bytes).

Definition run_call (k : call) : RM value :=
  match k with
  | CLabel node => b ← Label zstd node; mret (VBytes b)
  | CSplitLabel node => '(p, n) ← SplitLabel zstd node; mret (VPair p n)
  | CFindNode pkg name => i ← FindNode zstd pkg name; mret (VInt i)
  | CHash node => b ← Hash zstd node; mret (VBytes b)
  | CTagName id => b ← TagName zstd id; mret (VBytes b)
  | CPackageID node => i ← PackageID zstd node; mret (VInt i)
  | CNameID node => i ← NameID zstd node; mret (VInt i)
  | CRuleType node => b ← RuleType zstd node; mret (VBytes b)
  | CDeps node buf => l ← Deps zstd node buf; mret (VInts l)
  | CDepsCSR => '(o, t) ← DepsCSR zstd; mret (VCSR o t)
  | CTags node buf => l ← Tags zstd node buf; mret (VInts l)
  | CAttrs node => m ← Attrs zstd node; mret (VMap m)
  | CRoot node => b ← Root zstd node; mret (VBool b)
  | CExternal node => b ← External zstd node; mret (VBool b)
  | CHashEmpty node => b ← HashEmpty zstd node; mret (VBool b)
  | CHashEmptyBits => b ← HashEmptyBits zstd; mret (VBits b)
  | CAllTargetsFileHashes => m ← ReadAllTargetsFileHashes zstd; mret (VOptMap m)
  | CRuleTypeIDs => l ← RuleTypeIDs zstd; mret (VInts l)
  | CRuleTypeDictID name => i ← RuleTypeDictID zstd name; mret (VInt i)
  | CBlockStart i => z ← BlockStart zstd i; mret (VInt z)
  | CDecodeGraph => g ← DecodeGraph zstd; mret (VGraph g)
  end.

(** The results of a sequence of calls on one reader. *)
Fixpoint run_calls (ks : list call) (r : Reader) : list (res value) :=
  match ks with
  | [] => []
  | k :: ks => let '(v, r) := run_call k r in v :: run_calls ks r
  end.

(** * What the caches hold *)

(** The values the caches stand for, computed from the blob alone. *)
Definition s_column (c : core) (id : Z) : res bytes :=
  match rd_cols c !! id with
  | None => Ok []
  | Some e => column_bytes zstd (rd_data c) e
  end.

Definition s_dict (c : core) (id : Z) : res (list bytes) := s_column c id ≫= expandDict.

Definition s_ints (c : core) (id : Z) : res (list Z) :=
  if decide (id = colNodeName) then
    pkgIDs ← decodeDeltaInts <$> s_column c colNodePkg;
    data ← s_column c colNodeName;
    Ok (decodeNameIDs data pkgIDs)
  else if decide (id = colRuleType) then decodePlainInts <$> s_column c colRuleType
  else decodeDeltaInts <$> s_column c id.

Definition s_offs (c : core) (id : Z) : res (list Z * list Z * list Z) :=
  if decide (id = colDeps) then
    degData ← s_column c colDeg; depsData ← s_column c colDeps;
    '(degs, offsets) ← dep_offsets degData depsData; Ok (degs, offsets, [])
  else if decide (id = colTags) then
    degData ← s_column c colTagDeg; tagsData ← s_column c colTags;
    '(degs, offsets) ← tag_offsets degData tagsData; Ok (degs, offsets, [])
  else
    degData ← s_column c colAttrDeg; nmData ← s_column c colAttrName;
    vlData ← s_column c colAttrValue; attr_offsets degData nmData vlData.

Record coherent (r : Reader) : Prop := {
  coh_col : map_Forall (fun id v => s_column (rd_core r) id = Ok v) (rd_decompressed r);
  coh_dict : map_Forall (fun id v => s_dict (rd_core r) id = Ok v) (rd_dicts r);
  coh_ints : map_Forall (fun id v => s_ints (rd_core r) id = Ok v) (rd_ints r);
  coh_offs : map_Forall (fun id v => s_offs (rd_core r) id = Ok v) (rd_offs r);
}.

Lemma coherent_fresh c : coherent (fresh c).
Proof. split; apply map_Forall_empty. Qed.

(** [computes c m x]: on every coherent reader of [c], [m] returns [x] and
    leaves a coherent reader of [c]. *)
Definition computes {A} (c : core) (m : RM A) (x : res A) : Prop :=
  forall r, coherent r -> rd_core r = c ->
  (m r).1 = x /\ coherent (m r).2 /\ rd_core (m r).2 = c.

Definition det {A} (c : core) (m : RM A) : Prop := exists x, computes c m x.

Lemma det_fresh {A} c (m : RM A) : det c m -> computes c m (m (fresh c)).1.
Proof.
  intros [x Hx]. destruct (Hx (fresh c) (coherent_fresh c) eq_refl) as (-> & _). exact Hx.
Qed.

Lemma computes_ret {A} c (a : A) : computes c (mret a) (Ok a).
Proof. intros r Hr Hc. done. Qed.

Lemma computes_lift {A} c (x : res A) : computes c (lift x) x.
Proof. intros r Hr Hc. done. Qed.

Lemma computes_bind {A B} c (m : RM A) (f : A -> RM B) x y :
  computes c m x -> (forall a, x = Ok a -> computes c (f a) (y a)) ->
  computes c (m ≫= f) (x ≫= y).
Proof.
  intros Hm Hf r Hr Hc. destruct (Hm r Hr Hc) as (E & Hr' & Hc').
  unfold mbind, RM_bind. destruct (m r) as [[a|e|] r']; cbn in *; subst x; try done.
  by apply Hf.
Qed.

Lemma det_bind' {A B} c (m : RM A) (f : A -> RM B) x :
  computes c m x -> (forall a, x = Ok a -> det c (f a)) -> det c (m ≫= f).
Proof.
  intros Hm Hf. destruct x as [a|e|].
  - destruct (Hf a eq_refl) as [y Hy]. eexists.
    apply (computes_bind c m f (Ok a) (fun _ => y)); [done|]. by intros ? [= <-].
  - eexists. by apply (computes_bind c m f (Err e) (fun _ => Panic)).
  - eexists. by apply (computes_bind c m f Panic (fun _ => Panic)).
Qed.

Lemma det_bind {A B} c (m : RM A) (f : A -> RM B) :
  det c m -> (forall a, det c (f a)) -> det c (m ≫= f).
Proof. intros [x Hm] Hf. by apply (det_bind' c m f x). Qed.

Lemma det_ret {A} c (a : A) : det c (mret a).
Proof. eexists. apply computes_ret. Qed.

Lemma det_lift {A} c (x : res A) : det c (lift x).
Proof. eexists. apply computes_lift. Qed.

Lemma det_core c : det c get_core.
Proof. exists (Ok c). by intros r Hr <-. Qed.

Definition attempted {A} (x : res A) : res (option A) :=
  match x with Ok a => Ok (Some a) | Err _ => Ok None | Panic => Panic end.

Lemma computes_attempt {A} c (m : RM A) x : computes c m x -> computes c (attempt m) (attempted x).
Proof.
  intros Hm r Hr Hc. destruct (Hm r Hr Hc) as (E & Hr' & Hc'). unfold attempt.
  by destruct (m r) as [[a|e|] r']; cbn in *; subst x.
Qed.

Lemma det_attempt {A} c (m : RM A) : det c m -> det c (attempt m).
Proof. intros [x Hm]. eexists. by apply computes_attempt. Qed.

(** * The cached getters *)

Lemma getColumn_computes c id : computes c (getColumn zstd id) (s_column c id).
Proof.
  intros r Hr <-. unfold getColumn. destruct (rd_decompressed r !! id) as [v|] eqn:Ev.
  { rewrite (coh_col _ Hr _ _ Ev). done. }
  assert (Hset : forall n v, s_column (rd_core r) id = Ok v -> coherent (set_column id n (Some v) r)).
  { intros n v Hv. destruct Hr. split; cbn; try done. by apply map_Forall_insert_2. }
  assert (Hset' : forall n, coherent (set_column id n None r)) by (intros; by destruct Hr).
  destruct (rd_cols (rd_core r) !! id) as [e|] eqn:Ee.
  - assert (s_column (rd_core r) id = column_bytes zstd (rd_data (rd_core r)) e) as Es
      by (unfold s_column; by rewrite Ee).
    destruct (column_bytes _ _ _) as [out|m|] eqn:Eb; rewrite Es; cbn; auto.
  - assert (s_column (rd_core r) id = Ok []) as Es by (unfold s_column; by rewrite Ee).
    rewrite Es. cbn; auto.
Qed.

Lemma ensureDict_computes c id : computes c (ensureDict zstd id) (s_dict c id).
Proof.
  intros r Hr Hc. unfold ensureDict. destruct (rd_dicts r !! id) as [d|] eqn:Ed.
  { cbn. rewrite <- Hc, (coh_dict _ Hr _ _ Ed). done. }
  assert (computes c (expand_column zstd id) (s_dict c id)) as H; [|by apply H].
  clear r Hr Hc Ed. intros r Hr Hc. unfold expand_column.
  destruct (getColumn_computes c id r Hr Hc) as (E & Hr' & Hc').
  unfold s_dict. rewrite <- E. unfold mbind, RM_bind.
  destruct (getColumn zstd id r) as [[data|e|] r'] eqn:Eg; cbn in *; try done.
  unfold lift. destruct (expandDict data) as [d|e|] eqn:Ed; cbn; try done.
  split; [done|]. split; [|done]. destruct Hr' as [H1 H2 H3 H4]. split; cbn; try done.
  destruct d as [|s d]; [done|]. apply map_Forall_insert_2; [|done].
  unfold s_dict. by rewrite Hc', <- E.
Qed.

Lemma cached_ints_computes c id compute :
  (exists x, computes c compute x /\
     match x with
     | Ok (l, cache) => s_ints c id = Ok l /\ (cache = None \/ cache = Some l)
     | Err e => s_ints c id = Err e
     | Panic => s_ints c id = Panic
     end) -> computes c (cached_ints id compute) (s_ints c id).
Proof.
  intros (x & Hx & Hs) r Hr Hc. unfold cached_ints. destruct (rd_ints r !! id) as [l|] eqn:El.
  { cbn. rewrite <- Hc, (coh_ints _ Hr _ _ El). done. }
  unfold store_ints, mbind, RM_bind. destruct (Hx r Hr Hc) as (E & Hr' & Hc').
  destruct (compute r) as [[[l cache]|e|] r'] eqn:Eg; cbn in *; subst x; [|done..].
  destruct Hs as [Hs Hcache]. split; [done|]. split; [|done].
  destruct Hr' as [H1 H2 H3 H4]. split; cbn; try done.
  destruct Hcache as [-> | ->]; [done|]. apply map_Forall_insert_2; [by rewrite Hc'|done].
Qed.

Lemma nilable_spec {A} (l : list A) : nilable l = None \/ nilable l = Some l.
Proof. destruct l; auto. Qed.

Lemma getPkgIDColumn_computes c : computes c (getPkgIDColumn zstd) (s_ints c colNodePkg).
Proof.
  apply cached_ints_computes. eexists. split.
  { apply computes_bind; [apply getColumn_computes|]. intros data _. apply computes_ret. }
  change (s_ints c colNodePkg) with (decodeDeltaInts <$> s_column c colNodePkg).
  destruct (s_column c colNodePkg); cbn; auto using nilable_spec.
Qed.

Lemma getNameIDColumn_computes c : computes c (getNameIDColumn zstd) (s_ints c colNodeName).
Proof.
  apply cached_ints_computes. eexists. split.
  { apply computes_bind; [apply getPkgIDColumn_computes|]. intros pkgIDs _.
    apply computes_bind; [apply getColumn_computes|]. intros data _. apply computes_ret. }
  change (s_ints c colNodePkg) with (decodeDeltaInts <$> s_column c colNodePkg).
  change (s_ints c colNodeName) with
    (pkgIDs ← decodeDeltaInts <$> s_column c colNodePkg;
     data ← s_column c colNodeName; Ok (decodeNameIDs data pkgIDs)).
  destruct (s_column c colNodePkg); cbn; try done.
  destruct (s_column c colNodeName) as [data| |]; cbn; try done.
  case_decide; auto.
Qed.

Lemma getRuleTypeIDColumn_computes c : computes c (getRuleTypeIDColumn zstd) (s_ints c colRuleType).
Proof.
  apply cached_ints_computes. eexists. split.
  { apply computes_bind; [apply getColumn_computes|]. intros data _. apply computes_ret. }
  change (s_ints c colRuleType) with (decodePlainInts <$> s_column c colRuleType).
  destruct (s_column c colRuleType); cbn; auto using nilable_spec.
Qed.

Lemma cached_offs_computes c id compute :
  compute = s_offs c id -> computes c (cached_offs id compute) (s_offs c id).
Proof.
  intros -> r Hr Hc. unfold cached_offs. destruct (rd_offs r !! id) as [o|] eqn:Eo.
  { cbn. rewrite <- Hc, (coh_offs _ Hr _ _ Eo). done. }
  unfold store_offs, mbind, RM_bind, lift.
  destruct (s_offs c id) as [o|e|] eqn:Es; cbn; try done.
  split; [done|]. split; [|done]. destruct Hr as [H1 H2 H3 H4]. split; cbn; try done.
  apply map_Forall_insert_2; [by rewrite Hc|done].
Qed.

(** A getter of offsets: read the columns, then index them. *)
Ltac offsets_det :=
  repeat (eapply det_bind'; [apply getColumn_computes|intros ? ?]);
  eapply det_bind'; [apply cached_offs_computes|intros [[??]?] _; eexists; apply computes_ret];
  unfold s_offs; repeat first [rewrite decide_True by done|rewrite decide_False by done];
  repeat match goal with H : s_column _ _ = _ |- _ => rewrite H; clear H end; reflexivity.

Lemma ensureDepOffsets_det c : det c (ensureDepOffsets zstd).
Proof. offsets_det. Qed.

Lemma ensureTagOffsets_det c : det c (ensureTagOffsets zstd).
Proof. offsets_det. Qed.

Lemma ensureAttrOffsets_det c : det c (ensureAttrOffsets zstd).
Proof. offsets_det. Qed.

(** * Every method is a function of the blob *)

Lemma getColumn_det c id : det c (getColumn zstd id).
Proof. eexists. apply getColumn_computes. Qed.
Lemma ensureDict_det c id : det c (ensureDict zstd id).
Proof. eexists. apply ensureDict_computes. Qed.
Lemma getPkgIDColumn_det c : det c (getPkgIDColumn zstd).
Proof. eexists. apply getPkgIDColumn_computes. Qed.
Lemma getNameIDColumn_det c : det c (getNameIDColumn zstd).
Proof. eexists. apply getNameIDColumn_computes. Qed.
Lemma getRuleTypeIDColumn_det c : det c (getRuleTypeIDColumn zstd).
Proof. eexists. apply getRuleTypeIDColumn_computes. Qed.

Create HintDb reader_det.
#[local] Hint Resolve det_bind det_ret det_lift det_core det_attempt getColumn_det ensureDict_det
  getPkgIDColumn_det getNameIDColumn_det getRuleTypeIDColumn_det ensureDepOffsets_det
  ensureTagOffsets_det ensureAttrOffsets_det : reader_det.

(** Follow the structure of a method. *)
Ltac det_solve :=
  repeat first
    [ progress intros
    | solve [eauto with reader_det nocore]
    | apply det_bind
    | case_decide
    | match goal with
      | |- det _ (match ?x with _ => _ end) => destruct x
      | |- det _ (let '(_, _) := ?x in _) => destruct x
      end ].

Lemma BlockStart_det c i : det c (BlockStart zstd i).
Proof.
  unfold BlockStart. eapply det_bind'; [apply computes_attempt, getColumn_computes|].
  intros data Hd. destruct data as [[|b data]|]; [apply det_ret| |apply det_ret].
  unfold attempted in Hd. destruct (s_column c colBlockStart) as [data'|e|] eqn:Es; [|done..].
  injection Hd as ->. eapply det_bind'.
  - apply cached_ints_computes. eexists. split; [apply computes_ret|].
    change (s_ints c colBlockStart) with (decodeDeltaInts <$> s_column c colBlockStart).
    rewrite Es. split; [done|apply nilable_spec].
  - intros starts _. case_decide; [apply det_ret|apply det_lift].
Qed.

Lemma id_at_det c m node : det c m -> det c (id_at m node).
Proof. intros Hm. unfold id_at. det_solve. Qed.

Lemma split_label_det c node : det c (split_label zstd node).
Proof.
  unfold split_label, PackageID, NameID. apply det_bind; [apply id_at_det; det_solve|].
  intros pid. apply det_bind; [apply id_at_det; det_solve|]. intros nid.
  unfold ensurePkgDict, ensureNameDict. apply det_bind; det_solve.
Qed.

Lemma SplitLabel_det c node : det c (SplitLabel zstd node).
Proof. unfold SplitLabel. apply det_bind; [apply split_label_det|]. det_solve. Qed.

Lemma sort_search_det c f fuel i j : (forall i, det c (f i)) -> det c (sort_search fuel f i j).
Proof.
  intros Hf. revert i j. induction fuel as [|fuel IH]; intros i j; cbn [sort_search]; [det_solve|].
  case_decide; [|det_solve]. apply det_bind; [done|]. intros []; apply IH.
Qed.

Lemma FindNode_det c pkg name : det c (FindNode zstd pkg name).
Proof.
  unfold FindNode. apply det_bind; [apply det_core|]. intros c'. apply det_bind.
  - apply sort_search_det. intros i. unfold key_reached.
    apply det_bind; [apply SplitLabel_det|]. det_solve.
  - intros i. case_decide; [|det_solve]. apply det_bind; [apply SplitLabel_det|]. det_solve.
Qed.

Lemma decodeFlags_det c : det c (decodeFlags zstd).
Proof. unfold decodeFlags. det_solve. Qed.

Lemma HashEmpty_det c node : det c (HashEmpty zstd node).
Proof.
  unfold HashEmpty, HashEmptyBits. apply det_bind; [|det_solve]. apply det_attempt.
  apply det_bind; [apply decodeFlags_det|]. det_solve.
Qed.

Lemma Hash_det c node : det c (Hash zstd node).
Proof. unfold Hash. apply det_bind; [apply HashEmpty_det|]. det_solve. Qed.

Lemma ReadAllTargetsFileHashes_det c : det c (ReadAllTargetsFileHashes zstd).
Proof. unfold ReadAllTargetsFileHashes. det_solve. Qed.

Lemma get_columns_det c ids : det c (get_columns zstd ids).
Proof. induction ids; cbn [get_columns]; det_solve. Qed.

Lemma DecodeGraph_det c : det c (DecodeGraph zstd).
Proof.
  unfold DecodeGraph. apply det_bind.
  { unfold expandAllDicts, ensurePkgDict, ensureNameDict, ensureRuleTypeDict, ensureTagDict,
      ensureAttrNameDict, ensureAttrValDict. det_solve. }
  intros [[[[[pkg name] rt] tag] an] av]. apply det_bind; [apply det_core|]. intros c'.
  apply det_bind; [apply get_columns_det|]. intros _.
  unfold decodePkgIDs, read_nameIDs, decodeRuleTypeIDs, read_dep_columns, read_tag_columns,
    read_attr_columns, decodeFlags.
  repeat (apply det_bind; [det_solve|intros; repeat case_match]).
  det_solve.
Qed.

#[local] Hint Resolve BlockStart_det SplitLabel_det split_label_det id_at_det FindNode_det
  decodeFlags_det HashEmpty_det Hash_det ReadAllTargetsFileHashes_det DecodeGraph_det : reader_det.

Lemma run_call_det c k : det c (run_call k).
Proof.
  destruct k; cbn [run_call]; unfold Label, PackageID, NameID, RuleType, Deps, Tags, Attrs, Root,
    External, HashEmptyBits, RuleTypeDictID, TagName, ensureTagDict, ensureRuleTypeDict,
    ensureAttrNameDict, ensureAttrValDict, DepsCSR, RuleTypeIDs; det_solve.
Qed.

Lemma run_calls_det c ks r :
  coherent r -> rd_core r = c -> run_calls ks r = (fun k => (run_call k (fresh c)).1) <$> ks.
Proof.
  revert r. induction ks as [|k ks IH]; intros r Hr Hc; [done|].
  cbn [run_calls]. rewrite fmap_cons.
  destruct (det_fresh c _ (run_call_det c k) r Hr Hc) as (E & Hr' & Hc').
  destruct (run_call k r) as [v r']. cbn in *. subst v. by rewrite IH.
Qed.

(** The laziness: once a column has been read, reading it again neither
    decompresses nor changes the reader. *)
Lemma getColumn_again id r v r1 :
  getColumn zstd id r = (Ok v, r1) -> getColumn zstd id r1 = (Ok v, r1).
Proof.
  unfold getColumn. destruct (rd_decompressed r !! id) as [w|] eqn:E.
  { intros [= -> <-]. by rewrite E. }
  destruct (rd_cols (rd_core r) !! id) as [e|].
  - destruct (column_bytes _ _ _) as [out|m|]; [|done..].
    intros [= -> <-]. cbn. by rewrite lookup_insert_eq.
  - intros [= <- <-]. cbn. by rewrite lookup_insert_eq.
Qed.
End cache.

(** * Property *)

(** Caching is not observable.  Whatever methods have been called on a reader,
    with whatever results (errors of the decompressor included), each call
    returns exactly what it would return as the first call on a reader just
    opened on the same blob; and a column that was read once is never
    decompressed again. *)
Theorem reader_caching_transparent (zstd : Z -> bytes -> res bytes) (c : core) (ks : list call) :
  run_calls zstd ks (fresh c) = (fun k => (run_call zstd k (fresh c)).1) <$> ks /\
  forall id r v r1, getColumn zstd id r = (Ok v, r1) -> getColumn zstd id r1 = (Ok v, r1).
Proof.
  split; [apply run_calls_det; [apply coherent_fresh|done]|].
  intros id r v r1. apply getColumn_again.
Qed.

(** A blob whose only column is the raw TAG_DICT with one entry "a"; the decompressor
    always fails. *)
Definition one_column_core : core :=
  {| rd_data := buildFrontCodedDict [[z2b 97]];
     rd_hdr := {| nodeCount := 0; edgeCount := 0; blockSize := 512; flags := 0; hashBytes := 8 |};
     rd_cols := {[ colTagDict := {| ce_id := colTagDict; ce_codec := codecRaw; ce_offset := 0;
                                   ce_compressedSize := zlen (buildFrontCodedDict [[z2b 97]]);
                                   ce_rawSize := zlen (buildFrontCodedDict [[z2b 97]]) |} ]} |}.

Lemma reader_caching_transparent_witness :
  exists r1, getColumn (fun _ _ => Err "zstd") colTagDict (fresh one_column_core)
               = (Ok (rd_data one_column_core), r1) /\
    getColumn (fun _ _ => Err "zstd") colTagDict r1 = (Ok (rd_data one_column_core), r1) /\
    run_calls (fun _ _ => Err "zstd") [CTagName 0; CTagName 0; CTagName 1] (fresh one_column_core) =
      [Ok (VBytes [z2b 97]); Ok (VBytes [z2b 97]); Ok (VBytes [])].
Proof.
  eexists. split; [vm_compute; reflexivity|]. split.
  - apply (reader_caching_transparent (fun _ _ => Err "zstd") one_column_core []) with
      (r := fresh one_column_core).
    vm_compute. reflexivity.
  - rewrite (proj1 (reader_caching_transparent _ _ _)). vm_compute. reflexivity.
Defined.
