(* ===== verification/Container.v ===== *)
(** Writing columns to a file and opening it: [encoder.write] against
    [NewReader] and [getColumn]. *)
From Stdlib Require Import ZArith Lia ZifyNat.
From S2P Require Import Prelude Varint Format Dict Columns Entity Encode Reader ReaderSafe ReaderCache.

Local Open Scope Z_scope.

#[local] Opaque crc32c encodeHeader encodeFooter encodeDirectory.

(** * The directory the writer builds *)

(** The results of compressing: stored sizes and codecs are consistent. *)
Definition stored_ok (rc : rawCol) (comp : bytes) : Prop :=
  0 <= rc_id rc < 2^64 /\ zlen (rc_data rc) <= maxColumnRawSize /\
  (rc_codec rc = codecRaw /\ comp = rc_data rc \/
   rc_codec rc = codecZstd /\ (0 < zlen (rc_data rc) -> 0 < zlen comp)).

Definition entry_at (offset : Z) (rc : rawCol) (comp : bytes) : colEntry :=
  {| ce_id := rc_id rc; ce_codec := rc_codec rc; ce_offset := offset;
     ce_compressedSize := zlen comp; ce_rawSize := zlen (rc_data rc) |}.

Fixpoint entries_at (offset : Z) (results : list (rawCol * bytes)) : list colEntry :=
  match results with
  | [] => []
  | (rc, comp) :: results => entry_at offset rc comp :: entries_at (offset + zlen comp) results
  end.

Definition stored_len (results : list (rawCol * bytes)) : Z := zlen (concat (results.*2)).

Lemma stored_len_cons rc comp results :
  stored_len ((rc, comp) :: results) = zlen comp + stored_len results.
Proof. unfold stored_len. rewrite fmap_cons. cbn [concat]. apply zlen_app. Qed.

Lemma stored_len_nonneg results : 0 <= stored_len results.
Proof. apply zlen_nonneg. Qed.

Lemma assign_offsets_spec offset results :
  0 <= offset -> offset + stored_len results < 2^64 ->
  assign_offsets offset results = (entries_at offset results, offset + stored_len results).
Proof.
  revert offset. induction results as [|[rc comp] results IH]; intros offset Ho Hl.
  { cbn. by rewrite Z.add_0_r. }
  rewrite stored_len_cons in *. cbn [assign_offsets entries_at].
  pose proof (zlen_nonneg comp). pose proof (stored_len_nonneg results).
  rewrite u64_small, IH by lia. by rewrite Z.add_assoc.
Qed.

Lemma entries_at_length offset results : length (entries_at offset results) = length results.
Proof.
  revert offset. induction results as [|[rc comp] results IH]; intros offset; [done|].
  cbn. by rewrite IH.
Qed.

Lemma entries_at_ids offset results :
  ce_id <$> entries_at offset results = (fun r => rc_id r.1) <$> results.
Proof.
  revert offset. induction results as [|[rc comp] results IH]; intros offset; [done|].
  cbn [entries_at]. rewrite !fmap_cons. by rewrite IH.
Qed.

Lemma entries_at_raw offset results :
  ce_rawSize <$> entries_at offset results = (fun r => zlen (rc_data r.1)) <$> results.
Proof.
  revert offset. induction results as [|[rc comp] results IH]; intros offset; [done|].
  cbn [entries_at]. rewrite !fmap_cons. by rewrite IH.
Qed.

(** Every entry locates its column's stored bytes. *)
Lemma entries_at_locate pre results post k rc comp :
  results !! k = Some (rc, comp) ->
  exists off, entries_at (zlen pre) results !! k = Some (entry_at off rc comp) /\
    zlen pre <= off /\ off + zlen comp <= zlen pre + stored_len results /\
    slice (pre ++ concat (results.*2) ++ post) off (off + zlen comp) = Ok comp.
Proof.
  revert pre k. induction results as [|[rc' comp'] results IH]; intros pre k; [done|].
  pose proof (zlen_nonneg comp'). pose proof (stored_len_nonneg results).
  rewrite fmap_cons, stored_len_cons. cbn [entries_at concat snd].
  rewrite <- (app_assoc comp'). destruct k as [|k]; cbn [lookup list_lookup].
  - intros [= -> ->]. exists (zlen pre). split; [done|]. split; [lia|]. split; [lia|].
    apply slice_app_mid.
  - intros Hk. destruct (IH (pre ++ comp') k Hk) as (off & He & Hlo & Hhi & Hs).
    rewrite zlen_app in *. exists off. split; [done|]. split; [lia|]. split; [lia|].
    by rewrite <- app_assoc in Hs.
Qed.

Lemma entries_at_ok offset results :
  Forall (fun r => stored_ok r.1 r.2) results -> 0 <= offset -> offset + stored_len results < 2^64 ->
  Forall entry_ok (entries_at offset results).
Proof.
  intros Hr. revert offset. induction Hr as [|[rc comp] results (Hid & Hlen & Hc) _ IH];
    intros offset Ho Hl; cbn [entries_at]; [constructor|].
  rewrite stored_len_cons in Hl. pose proof (zlen_nonneg comp). pose proof (stored_len_nonneg results).
  cbn [fst snd] in *. change maxColumnRawSize with (2^30) in Hlen. pose proof (zlen_nonneg (rc_data rc)).
  constructor; [|apply IH; lia]. unfold entry_ok, entry_at; cbn.
  destruct Hc as [[-> _]|[-> _]]; unfold codecRaw, codecZstd; lia.
Qed.

(** * [NewReader] accepts what the writer writes *)

Definition cols_of (entries : list colEntry) : gmap Z colEntry :=
  list_to_map ((fun e => (ce_id e, e)) <$> entries).

Lemma index_entries_complete entries cols :
  NoDup (ce_id <$> entries) -> (forall e, e ∈ entries -> cols !! ce_id e = None) ->
  exists cols', index_entries entries cols = Ok cols' /\
    forall id, cols' !! id = match cols_of entries !! id with Some e => Some e | None => cols !! id end.
Proof.
  revert cols. induction entries as [|e entries IH]; intros cols Hnd Hfresh.
  { exists cols. split; [done|]. intros id.
    change (cols_of []) with (∅ : gmap Z colEntry). by rewrite lookup_empty. }
  rewrite fmap_cons in Hnd. apply NoDup_cons in Hnd as [Hni Hnd]. cbn [index_entries].
  rewrite bool_decide_false by (rewrite Hfresh by constructor; by intros []).
  cbn [guard_err mbind res_bind].
  destruct (IH (<[ce_id e := e]> cols)) as (cols' & Hok & Hl); [done| |].
  { intros e' He'. rewrite lookup_insert_ne; [apply Hfresh; by constructor|].
    intros E. apply Hni. rewrite E. by apply list_elem_of_fmap_2. }
  exists cols'. split; [done|]. intros id. rewrite Hl. unfold cols_of. rewrite fmap_cons. cbn [list_to_map foldr fst snd uncurry].
  destruct (decide (id = ce_id e)) as [->|Hne].
  - rewrite !lookup_insert_eq. destruct (list_to_map _ !! ce_id e) as [e'|] eqn:E; [|done].
    exfalso. apply elem_of_list_to_map_2 in E. apply list_elem_of_fmap in E as (e2 & [= E1 ->] & Hin).
    apply Hni. rewrite E1. by apply list_elem_of_fmap_2.
  - by rewrite !lookup_insert_ne.
Qed.

Lemma index_entries_cols_of entries :
  NoDup (ce_id <$> entries) -> index_entries entries ∅ = Ok (cols_of entries).
Proof.
  intros Hnd. destruct (index_entries_complete entries ∅ Hnd) as (cols' & -> & Hl); [done|].
  f_equal. apply map_eq. intros id. rewrite Hl, lookup_empty. by destruct (cols_of entries !! id).
Qed.

Lemma cols_of_lookup entries id e :
  NoDup (ce_id <$> entries) -> cols_of entries !! id = Some e <-> e ∈ entries /\ ce_id e = id.
Proof.
  intros Hnd. unfold cols_of. split.
  - intros H%elem_of_list_to_map_2. apply list_elem_of_fmap in H as (e' & [= -> ->] & ?). done.
  - intros [He <-]. apply elem_of_list_to_map_1.
    + by rewrite <- list_fmap_compose.
    + by apply (list_elem_of_fmap_2 (fun e => (ce_id e, e))).
Qed.

Lemma total_raw_cols_of entries :
  NoDup (ce_id <$> entries) -> total_raw (cols_of entries) = zsum (ce_rawSize <$> entries).
Proof.
  intros Hnd. unfold total_raw, cols_of.
  assert (forall l1 l2, l1 ≡ₚ l2 -> zsum l1 = zsum l2) as Hperm.
  { unfold zsum. induction 1; cbn; lia. }
  rewrite (Hperm _ ((fun ie => ce_rawSize ie.2) <$> ((fun e => (ce_id e, e)) <$> entries))).
  - by rewrite <- list_fmap_compose.
  - apply Permutation_map. apply map_to_list_to_map. by rewrite <- list_fmap_compose.
Qed.

(** The checks pass on columns that are [column_ok]. *)
Lemma validate_entries_complete data dirOff es total :
  Forall (fun ie => column_ok data ie.1 ie.2 /\ 0 <= ce_offset ie.2 + ce_compressedSize ie.2 <= dirOff) es ->
  dirOff < 2^64 -> 0 <= total -> total + maxColumnRawSize * zlen es < 2^64 ->
  validate_entries dirOff es total = Ok (total + zsum ((fun ie => ce_rawSize ie.2) <$> es)).
Proof.
  intros Hes Hd. revert total. induction Hes as [|[id e] es [Hc Ho] _ IH]; intros total Ht Hb;
    cbn [validate_entries].
  { cbn. by rewrite Z.add_0_r. }
  rewrite zlen_cons in Hb. pose proof (zlen_nonneg es). destruct Hc as [Hid Hlo Hsz Hhi Hcod Hraw].
  cbn [fst snd] in *. change maxColumnRawSize with (2^30) in *.
  assert (validate_column dirOff total id e = Ok (total + ce_rawSize e)) as ->.
  { unfold validate_column. rewrite (u64_small (ce_offset e + ce_compressedSize e)) by lia. guard_pass.
    change maxColumnRawSize with (2^30).
    destruct Hcod as [[-> Heq]|[-> Hz]].
    - rewrite decide_True by done. rewrite (bool_decide_false (ce_rawSize e <> ce_compressedSize e)) by (intros Hne; by apply Hne).
      cbn [guard_err mbind res_bind]. guard_pass. by rewrite u64_small by lia.
    - rewrite decide_False, decide_True by done. rewrite (bool_decide_false (0 < ce_rawSize e /\ _)) by lia.
      cbn [guard_err mbind res_bind]. guard_pass. by rewrite u64_small by lia. }
  cbn [mbind res_bind]. rewrite IH by lia. rewrite fmap_cons. cbn [zsum foldr snd]. unfold zsum.
  f_equal. lia.
Qed.

(** * Opening a written file *)

(** What a writer's columns and header must satisfy to be accepted: the sizes
    stay within the reader's limits and the counts of the header match the
    columns. *)
Record file_ok (hdr : fileHeader) (results : list (rawCol * bytes)) : Prop := {
  fo_hdr : header_ok hdr;
  fo_flags : flags hdr = 0;
  fo_block : blockSize hdr < 2^63 /\
    (blockSize hdr <> 0 -> Z.land (blockSize hdr) (blockSize hdr - 1) = 0);
  fo_stored : Forall (fun r => stored_ok r.1 r.2) results;
  fo_ids : NoDup ((fun r => rc_id r.1) <$> results);
  fo_count : zlen results <= maxDirectoryEntries;
  fo_budget : zsum ((fun r => zlen (rc_data r.1)) <$> results) <=
    Z.max (zlen (write_file hdr results) * maxTotalRawFactor) maxTotalRawFloor;
  fo_len : zlen (write_file hdr results) < 2^59;
  fo_deg : 0 < nodeCount hdr -> exists rc comp, (rc, comp) ∈ results /\ rc_id rc = colDeg /\
    nodeCount hdr <= zlen (rc_data rc);
  fo_hash : 0 < nodeCount hdr -> exists rc comp, (rc, comp) ∈ results /\ rc_id rc = colHash /\
    zlen (rc_data rc) = nodeCount hdr * hashBytes hdr;
  fo_edges : 0 < edgeCount hdr -> exists rc comp, (rc, comp) ∈ results /\ rc_id rc = colDeps /\
    edgeCount hdr <= zlen (rc_data rc);
  fo_blocks : forall rc comp, (rc, comp) ∈ results -> rc_id rc = colBlockDigest ->
    exists b, zlen (rc_data rc) = 8 * b /\ b <= nodeCount hdr;
}.

Definition file_core (hdr : fileHeader) (results : list (rawCol * bytes)) : core :=
  {| rd_data := write_file hdr results; rd_hdr := hdr;
     rd_cols := cols_of (entries_at headerSize results) |}.

(** [NewReader] when its steps succeed. *)
Lemma NewReader_parts data hdr h ftr f dir entries cols :
  slice data 0 headerSize = Ok h ->
  slice data (zlen data - footerSize) (zlen data) = Ok f ->
  slice data (dirOffset ftr) (zlen data - footerSize) = Ok dir ->
  headerSize + footerSize <= zlen data ->
  decodeHeader h = Ok hdr -> decodeFooter f = Ok ftr ->
  dirOffset ftr <= zlen data - footerSize -> crc32c dir = dirCRC ftr ->
  decodeDirectory dir = Ok entries -> index_entries entries ∅ = Ok cols ->
  validateColumns hdr cols (zlen data) (dirOffset ftr) = Ok () ->
  NewReader data = Ok (fresh {| rd_data := data; rd_hdr := hdr; rd_cols := cols |}).
Proof.
  intros Hh Hf Hd Hlen Ehdr Eftr Hoff Hcrc Edir Eidx Eval. unfold NewReader.
  guard_pass. rewrite Hh. cbn [mbind res_bind]. rewrite Ehdr. cbn [mbind res_bind].
  rewrite Hf. cbn [mbind res_bind]. rewrite Eftr. cbn [mbind res_bind].
  guard_pass. rewrite Hd. cbn [mbind res_bind]. guard_pass by (intros Hne; by apply Hne).
  rewrite Edir. cbn [mbind res_bind]. rewrite Eidx. cbn [mbind res_bind]. by rewrite Eval.
Qed.

Section file.
Context (hdr : fileHeader) (results : list (rawCol * bytes)) (Hok : file_ok hdr results).

#[local] Abbreviation entries := (entries_at headerSize results).
#[local] Abbreviation dirBytes := (encodeDirectory entries).
#[local] Abbreviation dirOff := (headerSize + stored_len results).

Lemma header_length : zlen (encodeHeader hdr) = headerSize.
Proof. unfold zlen. by rewrite encodeHeader_length. Qed.

Lemma write_file_eq :
  exists post, write_file hdr results = encodeHeader hdr ++ concat (results.*2) ++ post /\
    post = dirBytes ++ encodeFooter {| dirOffset := dirOff; dirCRC := crc32c dirBytes |} /\
    stored_len results < 2^59.
Proof.
  pose proof (fo_len _ _ Hok) as Hl. unfold write_file in *.
  destruct (assign_offsets headerSize results) as [es off] eqn:E.
  assert (stored_len results < 2^59) as Hs.
  { rewrite !zlen_app in Hl. unfold stored_len.
    pose proof (zlen_nonneg (encodeHeader hdr)). pose proof (zlen_nonneg (encodeDirectory es)).
    pose proof (zlen_nonneg (encodeFooter {| dirOffset := off; dirCRC := crc32c (encodeDirectory es) |})).
    lia. }
  rewrite assign_offsets_spec in E by (unfold headerSize; lia). injection E as <- <-.
  eexists. split; [reflexivity|]. done.
Qed.

Lemma write_file_length :
  zlen (write_file hdr results) = headerSize + stored_len results + zlen dirBytes + footerSize.
Proof.
  destruct write_file_eq as (post & -> & -> & _). rewrite !zlen_app, header_length.
  unfold stored_len. unfold zlen at 3. rewrite encodeFooter_length. unfold footerSize. lia.
Qed.

Lemma entries_nodup : NoDup (ce_id <$> entries).
Proof. rewrite entries_at_ids. apply (fo_ids _ _ Hok). Qed.

Lemma entries_cols_ok :
  Forall (fun e => column_ok (write_file hdr results) (ce_id e) e /\
    0 <= ce_offset e + ce_compressedSize e <= dirOff) entries.
Proof.
  apply Forall_lookup_2. intros k e Hk.
  assert (exists rc comp, results !! k = Some (rc, comp)) as (rc & comp & Hr).
  { apply lookup_lt_Some in Hk. rewrite entries_at_length in Hk.
    destruct (lookup_lt_is_Some_2 results k Hk) as [[rc comp] ?]; eauto. }
  destruct (entries_at_locate (encodeHeader hdr) results [] k rc comp Hr) as (off & He & Hlo & Hhi & _).
  rewrite header_length in *. rewrite Hk in He. injection He as ->.
  pose proof (fo_stored _ _ Hok) as Hst. eapply Forall_lookup_1 in Hst; [|exact Hr].
  destruct Hst as (Hid & Hraw & Hcod). cbn [fst snd] in *.
  pose proof write_file_length. pose proof (zlen_nonneg dirBytes). pose proof (zlen_nonneg comp).
  pose proof (zlen_nonneg (rc_data rc)). unfold headerSize in *. split; [|cbn; lia].
  split; cbn; try lia; [done|].
  destruct Hcod as [[-> ->]|[-> Hz]]; [by left|by right].
Qed.

Lemma raw_in_cols rc comp : (rc, comp) ∈ results ->
  exists off, rd_cols (file_core hdr results) !! rc_id rc = Some (entry_at off rc comp) /\
    slice (write_file hdr results) off (off + zlen comp) = Ok comp /\
    0 <= off /\ off + zlen comp < 2^64.
Proof.
  intros [k Hk]%list_elem_of_lookup_1. destruct write_file_eq as (post & Heq & _ & Hs).
  destruct (entries_at_locate (encodeHeader hdr) results post k rc comp Hk)
    as (off & He & Hlo & Hhi & Hsl).
  rewrite header_length in *. exists off. cbn [rd_cols file_core]. rewrite Heq.
  split; [|split; [done|unfold headerSize in *; lia]].
  apply cols_of_lookup; [apply entries_nodup|]. split; [|done]. by eapply list_elem_of_lookup_2.
Qed.

Lemma need_column_complete id bad msg rc comp :
  (rc, comp) ∈ results -> rc_id rc = id -> (forall off, bad (entry_at off rc comp) = false) ->
  need_column (cols_of entries) id bad msg = Ok ().
Proof.
  intros Hin <- Hbad. destruct (raw_in_cols rc comp Hin) as (off & Hl & _).
  unfold need_column. cbn in Hl. by rewrite Hl, Hbad.
Qed.

(** The entry of a column is about a result. *)
Lemma entry_result e : e ∈ entries -> exists rc comp, (rc, comp) ∈ results /\ rc_id rc = ce_id e /\ zlen (rc_data rc) = ce_rawSize e.
Proof.
  intros Hin. apply list_elem_of_lookup_1 in Hin as [k Hk].
  assert (k < length results)%nat as Hkl.
  { apply lookup_lt_Some in Hk. by rewrite entries_at_length in Hk. }
  destruct (lookup_lt_is_Some_2 results k Hkl) as [[rc comp] Hr]. exists rc, comp.
  destruct (entries_at_locate [] results [] k rc comp Hr) as (off & _).
  assert ((ce_id <$> entries) !! k = Some (ce_id e)) as Hi1 by (by rewrite list_lookup_fmap, Hk).
  assert ((ce_rawSize <$> entries) !! k = Some (ce_rawSize e)) as Hi2 by (by rewrite list_lookup_fmap, Hk).
  rewrite entries_at_ids, list_lookup_fmap, Hr in Hi1. injection Hi1 as Hi1.
  rewrite entries_at_raw, list_lookup_fmap, Hr in Hi2. injection Hi2 as Hi2.
  split; [by eapply list_elem_of_lookup_2|]. done.
Qed.

(** The columns of degrees and of hashes have the lengths that the header tells. *)
Lemma node_columns_valid :
  (if decide (0 < nodeCount hdr) then
         _ ← need_column (cols_of entries) colDeg (fun e => bool_decide (ce_rawSize e < nodeCount hdr))
               "nodeCount inconsistent with DEG column";
         need_column (cols_of entries) colHash
           (fun e => bool_decide (ce_rawSize e <> u64 (nodeCount hdr * hashBytes hdr)))
           "HASH column size mismatch"
       else Ok ()) = Ok ().
Proof.
  destruct Hok as [Hh Hfl [Hbs1 Hbs2] Hst Hids Hcnt Hbud Hlen Hdeg Hhash Hedges Hblocks]. destruct Hh as (Hn & He & Hb & _ & Hst8).
  case_decide as Hpos; [|done]. destruct (Hdeg Hpos) as (rc & comp & Hin & Hid & Hsz).
  rewrite (need_column_complete colDeg _ _ rc comp) by
    first [done|intros; apply bool_decide_eq_false; cbn; lia]. cbn [mbind res_bind].
  pose proof Hst as Hst'. rewrite Forall_forall in Hst'.
  destruct (Hst' (rc, comp) Hin) as (_ & Hmax & _). cbn [fst] in Hmax.
  change maxColumnRawSize with (2^30) in Hmax.
  destruct (Hhash Hpos) as (rc' & comp' & Hin' & Hid' & Hsz').
  apply (need_column_complete _ _ _ rc' comp'); [done..|].
  intros off. apply bool_decide_eq_false. cbn. rewrite Hsz', u64_small by nia. by intros [].
Qed.

Lemma validate_file :
  validateColumns hdr (cols_of entries) (zlen (write_file hdr results)) dirOff = Ok ().
Proof.
  destruct Hok as [Hh Hfl [Hbs1 Hbs2] Hst Hids Hcnt Hbud Hlen Hdeg Hhash Hedges Hblocks].
  pose proof write_file_length as Hwl. pose proof (zlen_nonneg dirBytes).
  pose proof (stored_len_nonneg results).
  pose proof (eq_refl : headerSize = 64). pose proof (eq_refl : footerSize = 16).
  destruct Hh as (Hn & He & Hb & _ & Hst8).
  unfold validateColumns. rewrite Hfl. guard_pass by (intros Hne; by apply Hne).
  guard_pass by (intros [Hne Hl]; apply Hl; rewrite u64_small by lia; by apply Hbs2).
  rewrite (validate_entries_complete (write_file hdr results)); [|apply Forall_forall|lia|lia|].
  2: { intros [id e] Hin%elem_of_map_to_list. apply cols_of_lookup in Hin as [Hin <-]; [|apply entries_nodup].
       pose proof entries_cols_ok as Hc. rewrite Forall_forall in Hc. apply (Hc e Hin). }
  2: { rewrite zlen_map_to_list. change maxColumnRawSize with (2^30).
       assert (size (cols_of entries) <= length entries)%nat as Hsz.
       { unfold cols_of. rewrite map_size_list_to_map; [by rewrite length_fmap|].
         rewrite <- list_fmap_compose. apply entries_nodup. }
       rewrite entries_at_length in *. unfold zlen, maxDirectoryEntries in Hcnt. lia. }
  cbn [mbind res_bind].
  assert (zsum ((fun ie => ce_rawSize ie.2) <$> map_to_list (cols_of entries)) =
          zsum ((fun r => zlen (rc_data r.1)) <$> results)) as ->.
  { rewrite <- (entries_at_raw headerSize). apply total_raw_cols_of, entries_nodup. }
  rewrite (u64_small (zlen (write_file hdr results) * _)) by (unfold maxTotalRawFactor; lia).
  guard_pass.

  rewrite node_columns_valid.
  cbn [mbind res_bind].
  assert ((if decide (0 < edgeCount hdr) then
         need_column (cols_of entries) colDeps (fun e => bool_decide (ce_rawSize e < edgeCount hdr))
           "edgeCount inconsistent with DEPS column"
       else Ok ()) = Ok ()) as ->.
  { case_decide as Hpos; [|done]. destruct (Hedges Hpos) as (rc & comp & Hin & Hid & Hsz).
    apply (need_column_complete _ _ _ rc comp); [done..|].
    intros off. apply bool_decide_eq_false. cbn. lia. }
  cbn [mbind res_bind].
  destruct (cols_of entries !! colBlockDigest) as [e|] eqn:Ebd; [|done].
  apply cols_of_lookup in Ebd as [Hin Hid]; [|apply entries_nodup].
  destruct (entry_result e Hin) as (rc & comp & Hr & Hide & Hraw).
  destruct (Hblocks rc comp Hr ltac:(by rewrite Hide)) as (b & Hb8 & Hbn).
  rewrite <- Hraw, Hb8.
  replace (8 * b) with (b * 8) by lia. rewrite Z.mod_mul, Z.div_mul by lia.
  guard_pass by (intros Hne; by apply Hne).
  rewrite bool_decide_false by lia. done.
Qed.

Lemma write_file_slices :
  slice (write_file hdr results) 0 headerSize = Ok (encodeHeader hdr) /\
  slice (write_file hdr results) dirOff (zlen (write_file hdr results) - footerSize) = Ok dirBytes /\
  slice (write_file hdr results) (zlen (write_file hdr results) - footerSize)
    (zlen (write_file hdr results)) = Ok (encodeFooter {| dirOffset := dirOff; dirCRC := crc32c dirBytes |}).
Proof.
  pose proof write_file_length as Hwl. destruct write_file_eq as (post & Heq & Hpost & _).
  set (ftr := encodeFooter _) in *. rewrite Hwl, Heq, Hpost. split; [|split].
  - rewrite <- header_length. apply (slice_app_mid []).
  - pose proof (slice_app_mid (encodeHeader hdr ++ concat results.*2) dirBytes ftr) as E.
    rewrite zlen_app, header_length, <- app_assoc in E. unfold stored_len. rewrite <- E. f_equal. lia.
  - pose proof (slice_suffix (encodeHeader hdr ++ concat results.*2 ++ dirBytes) ftr) as E.
    rewrite <- !app_assoc, !zlen_app, header_length in E. unfold stored_len. rewrite <- E.
    assert (zlen ftr = footerSize) as Hf by (unfold zlen, ftr; by rewrite encodeFooter_length).
    f_equal; lia.
Qed.

Lemma NewReader_write_file : NewReader (write_file hdr results) = Ok (fresh (file_core hdr results)).
Proof.
  pose proof (fo_len _ _ Hok) as Hlen. pose proof write_file_length as Hwl.
  pose proof (zlen_nonneg dirBytes). pose proof (stored_len_nonneg results).
  pose proof (eq_refl : headerSize = 64). pose proof (eq_refl : footerSize = 16).
  destruct write_file_slices as (Hs1 & Hs2 & Hs3).
  apply (NewReader_parts _ _ _ {| dirOffset := dirOff; dirCRC := crc32c dirBytes |} _ _ entries _
    Hs1 Hs3 Hs2).
  - lia.
  - apply decode_encode_header, (fo_hdr _ _ Hok).
  - apply decode_encode_footer. split; [cbn; lia|apply crc32c_range].
  - cbn. lia.
  - done.
  - pose proof (decode_encode_directory entries []) as Hd. rewrite app_nil_r in Hd. apply Hd.
    + apply entries_at_ok; [apply (fo_stored _ _ Hok)|lia|lia].
    + unfold zlen. rewrite entries_at_length. apply (fo_count _ _ Hok).
  - apply index_entries_cols_of, entries_nodup.
  - apply validate_file.
Qed.
End file.

(** * Columns survive the file *)

(** What the code relies on of zstd: decoding what was encoded, given enough
    memory for the content and for the default window; an empty input decodes to
    nothing; and a frame is not empty. *)
Class ZstdLaws (compress : Z -> bytes -> bytes) (decompress : Z -> bytes -> res bytes) : Prop := {
  zstd_roundtrip : forall level maxMem b,
    zlen b <= maxMem -> Z.shiftl 8 20 <= maxMem -> decompress maxMem (compress level b) = Ok b;
  zstd_empty : forall maxMem, decompress maxMem [] = Ok [];
  zstd_frame : forall level b, 0 < zlen b -> 0 < zlen (compress level b);
}.

Section columns.
Context (env : encode_env) (zstd : Z -> bytes -> res bytes) `{!ZstdLaws (zstd_compress env) zstd}.

Definition codec_ok (rc : rawCol) : Prop := rc_codec rc = codecRaw \/ rc_codec rc = codecZstd.

Lemma compress_col_stored level rc :
  codec_ok rc -> 0 <= rc_id rc < 2^64 -> zlen (rc_data rc) <= maxColumnRawSize ->
  stored_ok (compress_col env level rc).1 (compress_col env level rc).2.
Proof.
  intros Hc Hid Hlen. unfold compress_col; cbn. split; [done|]. split; [done|].
  destruct Hc as [Hc|Hc]; rewrite Hc.
  - left. split; [done|]. by rewrite decide_False by (intros []; done).
  - right. split; [done|]. intros Hpos. rewrite decide_True by done. by apply zstd_frame.
Qed.

Lemma decompressZstd_compress level rc :
  0 <= zlen (rc_data rc) -> rc_codec rc = codecZstd ->
  decompressZstd zstd (compress_col env level rc).2 (zlen (rc_data rc)) = Ok (rc_data rc).
Proof.
  intros Hlen Hc. unfold decompressZstd, compress_col; cbn [snd].
  destruct (decide (rc_codec rc = codecZstd /\ 0 < zlen (rc_data rc))) as [Hp|Hp].
  - apply zstd_roundtrip; case_decide; lia.
  - assert (rc_data rc = []) as ->; [|apply zstd_empty].
    destruct (rc_data rc) as [|b l]; [done|]. exfalso. apply Hp. split; [done|].
    rewrite zlen_cons. pose proof (zlen_nonneg l). lia.
Qed.

Lemma s_column_file hdr level rcs rc :
  file_ok hdr (compress_col env level <$> rcs) -> rc ∈ rcs -> codec_ok rc ->
  s_column zstd (file_core hdr (compress_col env level <$> rcs)) (rc_id rc) = Ok (rc_data rc).
Proof.
  intros Hok Hin Hc. set (results := compress_col env level <$> rcs) in *.
  destruct (raw_in_cols hdr results Hok rc (compress_col env level rc).2) as (off & Hl & Hs & Ho & Hb).
  { replace (rc, (compress_col env level rc).2) with (compress_col env level rc) by done.
    by apply list_elem_of_fmap_2. }
  unfold s_column. rewrite Hl. unfold column_bytes. cbn [ce_offset ce_compressedSize ce_codec ce_rawSize entry_at].
  pose proof (zlen_nonneg (compress_col env level rc).2). rewrite u64_small by lia.
  cbn [rd_data file_core]. rewrite Hs. cbn [mbind res_bind].
  destruct Hc as [Hc|Hc]; rewrite Hc.
  - rewrite decide_False by done. unfold compress_col; cbn. rewrite decide_False; [done|].
    rewrite Hc. by intros [].
  - rewrite decide_True by done. rewrite decompressZstd_compress by (done || apply zlen_nonneg).
    cbn [mbind res_bind]. guard_pass by (intros Hne; by apply Hne). done.
Qed.

Lemma s_column_absent hdr results id :
  file_ok hdr results -> id ∉ (fun r => rc_id r.1) <$> results ->
  rd_cols (file_core hdr results) !! id = None.
Proof.
  intros Hok Hni. cbn. destruct (cols_of _ !! id) as [e|] eqn:E; [|done].
  apply cols_of_lookup in E as [Hin Hid]; [|by apply (entries_nodup hdr)].
  exfalso. apply Hni. rewrite <- (entries_at_ids headerSize). rewrite <- Hid.
  by apply list_elem_of_fmap_2.
Qed.
End columns.

(** * Property *)

(** The container is lossless.  Take any columns with distinct IDs, compressed
    or not, and a header whose counts match them, within the reader's size
    limits: [NewReader] accepts the file the encoder writes -- so its own checks
    never reject the encoder's output within those limits --, recovers the
    header, and on the reader [getColumn] returns each column's raw bytes and
    nothing for the others. *)
Theorem written_file_opens (env : encode_env) (zstd : Z -> bytes -> res bytes) (level : Z)
  (hdr : fileHeader) (rcs : list rawCol) :
  ZstdLaws (zstd_compress env) zstd -> Forall codec_ok rcs ->
  file_ok hdr (compress_col env level <$> rcs) ->
  exists r, NewReader (write_file hdr (compress_col env level <$> rcs)) = Ok r /\
    rd_hdr (rd_core r) = hdr /\
    (forall rc, rc ∈ rcs -> (getColumn zstd (rc_id rc) r).1 = Ok (rc_data rc)) /\
    (forall id, id ∉ rc_id <$> rcs -> (getColumn zstd id r).1 = Ok []).
Proof.
  intros Hz Hcod Hok. eexists. split; [by apply NewReader_write_file|].
  split; [done|]. split.
  - intros rc Hin. rewrite Forall_forall in Hcod.
    destruct (getColumn_computes zstd (file_core hdr (compress_col env level <$> rcs)) (rc_id rc)
      (fresh _) (coherent_fresh zstd _) eq_refl) as (-> & _).
    apply s_column_file; auto.
  - intros id Hni.
    destruct (getColumn_computes zstd (file_core hdr (compress_col env level <$> rcs)) id
      (fresh _) (coherent_fresh zstd _) eq_refl) as (-> & _).
    unfold s_column. cbn [fresh rd_core]. rewrite s_column_absent; [done|done|].
    by rewrite <- list_fmap_compose.
Qed.

(** A toy zstd: a one-byte frame header. *)
Definition toy_compress (_ : Z) (b : bytes) : bytes := x28 :: b.
Definition toy_decompress (_ : Z) (b : bytes) : res bytes :=
  match b with [] => Ok [] | x28 :: b => Ok b | _ => Err "bad frame" end.

#[export] Instance toy_zstd_laws : ZstdLaws toy_compress toy_decompress.
Proof.
  split; [done..|]. intros level b _. unfold toy_compress. rewrite zlen_cons.
  pose proof (zlen_nonneg b). lia.
Qed.

Definition toy_env : encode_env :=
  {| procs := 4; xxhash64 := fun b => foldl (fun h c => u64 (h * 31 + b2z c)) 7 b;
     zstd_compress := toy_compress; sort_nodes := sort_func node_cmp;
     range_attrs := map_to_list |}.

Lemma written_file_opens_witness :
  exists r, NewReader (write_file
      {| nodeCount := 0; edgeCount := 0; blockSize := 512; flags := 0; hashBytes := 8 |}
      (compress_col toy_env 2 <$> [{| rc_id := colTagDict; rc_codec := codecZstd; rc_data := [x01; x02] |}]))
    = Ok r /\ (getColumn toy_decompress colTagDict r).1 = Ok [x01; x02].
Proof.
  destruct (written_file_opens toy_env toy_decompress 2
    {| nodeCount := 0; edgeCount := 0; blockSize := 512; flags := 0; hashBytes := 8 |}
    [{| rc_id := colTagDict; rc_codec := codecZstd; rc_data := [x01; x02] |}]) as (r & Hr & _ & Hc & _).
  - apply toy_zstd_laws.
  - constructor; [by right|constructor].
  - split.
    + apply (bool_decide_unpack _). vm_compute. exact I.
    + reflexivity.
    + split; [reflexivity|]. intros _. reflexivity.
    + constructor; [|constructor]. split; [cbn; unfold colTagDict; lia|].
      split; [vm_compute; discriminate|]. right. split; [reflexivity|]. intros _. vm_compute. reflexivity.
    + apply (bool_decide_unpack _). vm_compute. exact I.
    + vm_compute. discriminate.
    + vm_compute. discriminate.
    + vm_compute. reflexivity.
    + cbn. lia.
    + cbn. lia.
    + cbn. lia.
    + intros rc comp Hin. apply list_elem_of_singleton in Hin. injection Hin as -> _. discriminate.
  - exists r. split; [exact Hr|]. apply (Hc {| rc_id := colTagDict; rc_codec := codecZstd; rc_data := [x01; x02] |}).
    left.
Defined.
