(* ===== verification/RoundTripAux.v ===== *)
(** Lemmas of the round trip about the reader's side: bits, strides, attribute
    maps, dictionary maps and the file-hash sidecar. *)
From Stdlib Require Import ZArith Lia ZifyNat.
From S2P Require Import Prelude Varint Format Dict Columns Entity Encode EncodeSpec Reader.

Local Open Scope Z_scope.

(** * Bits *)

Lemma land_bit_zero x k : 0 <= k -> Z.land x (Z.shiftl 1 k) = 0 <-> Z.testbit x k = false.
Proof.
  intros Hk. rewrite Z.shiftl_mul_pow2, Z.mul_1_l by done. split.
  - intros H. apply (f_equal (fun z => Z.testbit z k)) in H.
    by rewrite Z.land_spec, Z.pow2_bits_true, andb_true_r, Z.bits_0 in H by done.
  - intros H. apply Z.bits_inj'. intros j Hj. rewrite Z.land_spec, Z.bits_0, Z.pow2_bits_eqb by done.
    destruct (Z.eqb_spec k j) as [<-|]; [by rewrite H|by rewrite andb_false_r].
Qed.

Lemma test_bit_spec bits j : 0 <= j < 8 * zlen bits -> test_bit bits j = Ok (get_bit bits j).
Proof.
  intros Hj. pose proof (Z.div_pos j 8 ltac:(lia) ltac:(lia)).
  pose proof (Z.div_mod j 8 ltac:(lia)). pose proof (Z.mod_pos_bound j 8 eq_refl).
  unfold test_bit, get_bit.
  destruct (lookup_lt_is_Some_2 bits (Z.to_nat (j / 8))) as [b Hb]; [unfold zlen in Hj; lia|].
  rewrite <- (Z2Nat.id (j / 8)) at 1 by done. rewrite index_lookup, Hb. cbn [mbind res_bind].
  f_equal. case_bool_decide as E.
  - by apply land_bit_zero in E as ->; [|lia].
  - rewrite land_bit_zero in E by lia. by destruct (Z.testbit _ _).
Qed.

Lemma test_bitset {A} (f : A -> bool) outs (k : nat) o :
  outs !! k = Some o -> test_bit (bitset f outs) (Z.of_nat k) = Ok (f o).
Proof.
  intros Ho. rewrite test_bit_spec.
  - by rewrite (get_bit_bitset f outs k o).
  - rewrite bitset_length. apply lookup_lt_Some in Ho. unfold zlen.
    pose proof (Z.div_mod (Z.of_nat (length outs) + 7) 8).
    pose proof (Z.mod_pos_bound (Z.of_nat (length outs) + 7) 8 eq_refl). lia.
Qed.

(** Three bitsets of equal size are split where they were joined. *)
Lemma split_flags_join n a b c :
  0 < n -> zlen a = (n + 7) / 8 -> zlen b = (n + 7) / 8 -> zlen c = (n + 7) / 8 ->
  split_flags n (a ++ b ++ c) = (Some a, Some b, Some c).
Proof.
  intros Hn Ha Hb Hc. unfold split_flags. rewrite <- Ha, to_nat_zlen. unfold zlen in *.
  assert (length b = length a /\ length c = length a) as [Eb Ec] by lia.
  assert (0 < length a)%nat as Hpos.
  { pose proof (Z.div_le_lower_bound (n + 7) 8 1). lia. }
  destruct (a ++ b ++ c) as [|x l] eqn:E.
  { apply (f_equal length) in E. rewrite length_app in E. cbn in E. lia. }
  rewrite <- E, !length_app, Eb, Ec, !decide_False by lia.
  rewrite take_app_length, drop_app_length, take_app_length' by done.
  replace (2 * length a)%nat with (length (a ++ b)) by (rewrite length_app; lia).
  rewrite (app_assoc a b c), drop_app_length, take_ge by lia. done.
Qed.

(** * Fixed strides *)

Lemma slice_stride (hs : list bytes) hb k h :
  0 <= hb -> Forall (fun h => zlen h = hb) hs -> hs !! k = Some h ->
  slice (concat hs) (Z.of_nat k * hb) ((Z.of_nat k + 1) * hb) = Ok h.
Proof.
  intros Hhb Hs Hk.
  assert (forall l : list bytes, Forall (fun h => zlen h = hb) l -> zlen (concat l) = zlen l * hb) as Hcat.
  { induction 1 as [|h' l Hh _ IH]; [done|]. cbn [concat]. rewrite zlen_app, zlen_cons. lia. }
  rewrite <- (take_drop_middle hs k h Hk), concat_app. cbn [concat].
  pose proof (Hcat (take k hs) ltac:(by apply Forall_take)) as Ht.
  rewrite Forall_forall in Hs. specialize (Hs h ltac:(by eapply list_elem_of_lookup_2)).
  pose proof (lookup_lt_Some _ _ _ Hk) as Hlt. unfold zlen in Ht at 2. rewrite length_take in Ht.
  replace (Z.of_nat k * hb) with (zlen (concat (take k hs))) by nia.
  replace ((Z.of_nat k + 1) * hb) with (zlen (concat (take k hs)) + zlen h) by nia.
  apply slice_app_mid.
Qed.

(** * Maps rebuilt from lists *)

Lemma zip_attrs_spec (kvs : list (Z * Z)) m :
  zip_attrs kvs.*1 kvs.*2 m = Ok (foldl (fun m kv => <[kv.1 := kv.2]> m) m kvs).
Proof. revert m. induction kvs as [|[k v] kvs IH]; intros m; cbn; [done|]. apply IH. Qed.

Lemma foldl_insert {K} `{Countable K} {V} (kvs : list (K * V)) (m : gmap K V) :
  NoDup kvs.*1 -> foldl (fun m kv => <[kv.1 := kv.2]> m) m kvs = list_to_map kvs ∪ m.
Proof.
  revert m. induction kvs as [|[k v] kvs IH]; intros m Hnd; cbn [foldl].
  { change (list_to_map []) with (∅ : gmap K V). by rewrite map_empty_union. }
  rewrite fmap_cons in Hnd. apply NoDup_cons in Hnd as [Hni Hnd]. rewrite IH by done. cbn [fst snd].
  change (list_to_map ((k, v) :: kvs)) with (<[k := v]> (list_to_map kvs) : gmap K V).
  rewrite <- insert_union_l, insert_union_r; [done|]. by apply not_elem_of_list_to_map_1.
Qed.

Lemma zip_attrs_perm (kvs : list (Z * Z)) :
  NoDup kvs.*1 -> exists m, zip_attrs kvs.*1 kvs.*2 ∅ = Ok m /\ map_to_list m ≡ₚ kvs.
Proof.
  intros Hnd. eexists. split; [apply zip_attrs_spec|].
  rewrite foldl_insert, map_union_empty by done. by apply map_to_list_to_map.
Qed.

Lemma dict_map_lookup dict i s : zlen dict < 2^31 -> names_in dict i s -> dict_map dict !! i = Some s.
Proof.
  intros Hlen. unfold dict_map.
  enough (forall (pre : list bytes) (m : gmap Z bytes) (j : Z),
    j = zlen pre -> zlen pre + zlen dict < 2^31 ->
    (forall i s, names_in pre i s -> m !! i = Some s) ->
    forall i s, names_in (pre ++ dict) i s ->
      (foldl (fun '(i, m) s => (i + 1, <[i32 i := s]> m)) (j, m) dict).2 !! i = Some s) as H.
  { apply (H [] ∅ 0); [done|by rewrite zlen_nil|]. intros i' s' [_ Hl]. done. }
  clear. induction dict as [|s dict IH]; intros pre m j -> Hlen Hm; cbn [foldl].
  { intros i s. rewrite app_nil_r. apply Hm. }
  rewrite zlen_cons in Hlen. pose proof (zlen_nonneg dict). pose proof (zlen_nonneg pre).
  rewrite (cons_middle s pre), app_assoc. apply IH.
  - rewrite zlen_app, zlen_cons, zlen_nil. lia.
  - rewrite zlen_app, zlen_cons, zlen_nil. lia.
  - intros i' s' [Hr Hl]. rewrite i32_small by lia. destruct (decide (i' = zlen pre)) as [->|Hne].
    + rewrite to_nat_zlen, list_lookup_middle in Hl by done. injection Hl as ->.
      by rewrite lookup_insert_eq.
    + rewrite lookup_insert_ne by done. apply Hm. split; [done|].
      apply lookup_app_Some in Hl as [Hl|[Hge Hl]]; [done|].
      apply list_lookup_singleton_Some in Hl as [Hk _]. unfold zlen in *. lia.
Qed.

(** * The file-hash sidecar *)

Lemma read_string_bytes msg s rest :
  zlen s < 2^63 ->
  read_string msg (uvarint_bytes MaxVarintLen64 (zlen s) ++ s ++ rest) = Ok (s, rest).
Proof.
  intros Hs. pose proof (zlen_nonneg s). pose proof (zlen_nonneg rest).
  unfold read_string. rewrite Uvarint_bytes by lia.
  pose proof (zlen_uvarint_bytes_pos (zlen s)).
  rewrite decide_False by (rewrite !zlen_app; lia).
  by rewrite drop_uvarint, to_nat_zlen, take_app_length, drop_app_length.
Qed.

Definition map_entry (m : gmap bytes bytes) (k : bytes) : bytes :=
  let v := default [] (m !! k) in
  uvarint_bytes MaxVarintLen64 (zlen k) ++ k ++ uvarint_bytes MaxVarintLen64 (zlen v) ++ v.

Lemma read_pairs_entries (m : gmap bytes bytes) keys fuel acc :
  (length keys <= fuel)%nat ->
  Forall (fun k => zlen k < 2^63 /\ zlen (default [] (m !! k)) < 2^63) keys ->
  read_pairs fuel (zlen keys) (concat (map_entry m <$> keys)) acc =
    Ok (foldl (fun acc k => <[k := default [] (m !! k)]> acc) acc keys).
Proof.
  revert fuel acc. induction keys as [|k keys IH]; intros fuel acc Hf HF.
  { by destruct fuel. }
  destruct fuel as [|fuel]; [cbn in Hf; lia|].
  apply Forall_cons in HF as [[Hk Hv] HF]. rewrite fmap_cons. cbn [concat read_pairs foldl].
  rewrite zlen_cons. pose proof (zlen_nonneg keys). rewrite decide_False by lia.
  unfold map_entry at 1. rewrite <- !app_assoc, read_string_bytes by done. cbn [mbind res_bind].
  rewrite read_string_bytes by done. cbn [mbind res_bind].
  replace (1 + zlen keys - 1) with (zlen keys) by lia. apply IH; [cbn in Hf; lia|done].
Qed.

Lemma foldl_insert_keys (m acc : gmap bytes bytes) keys :
  (forall k, is_Some (m !! k) -> k ∈ keys \/ acc !! k = m !! k) ->
  (forall k, k ∈ keys -> is_Some (m !! k)) -> acc ⊆ m ->
  foldl (fun acc k => <[k := default [] (m !! k)]> acc) acc keys = m.
Proof.
  revert acc. induction keys as [|k keys IH]; intros acc H1 H2 Hsub; cbn [foldl].
  - apply map_eq. intros k. destruct (m !! k) as [v|] eqn:E.
    + destruct (H1 k ltac:(by rewrite E)) as [Hin|Heq]; [by apply elem_of_nil in Hin|by rewrite Heq].
    + destruct (acc !! k) as [v|] eqn:Ea; [|done]. by rewrite (lookup_weaken _ _ _ _ Ea Hsub) in E.
  - destruct (H2 k ltac:(left)) as [v Hv]. rewrite Hv. cbn [default]. apply IH.
    + intros k' Hk'. destruct (decide (k' = k)) as [->|Hne].
      * right. by rewrite lookup_insert_eq.
      * rewrite lookup_insert_ne by done. destruct (H1 k' Hk') as [Hin|]; [|by right].
        apply elem_of_cons in Hin as [|]; [done|by left].
    + intros k' Hk'. apply H2. by right.
    + by apply insert_subseteq_l.
Qed.

Lemma decode_encode_stringmap (m : gmap bytes bytes) :
  map_Forall (fun k v => zlen k < 2^63 /\ zlen v < 2^63) m ->
  zlen (encodeStringMap m) < 2^63 -> decodeStringMap (encodeStringMap m) = Ok m.
Proof.
  intros Hm Hlen. unfold decodeStringMap, encodeStringMap in *.
  set (keys := sort_func bcompare ((map_to_list m).*1)) in *.
  change (concat _) with (concat (map_entry m <$> keys)) in *.
  assert (Hkeys : forall k, k ∈ keys <-> is_Some (m !! k)).
  { intros k. unfold keys. rewrite elem_of_sort_func, list_elem_of_fmap. split.
    - intros ([k' v] & -> & Hin%elem_of_map_to_list). cbn. by rewrite Hin.
    - intros [v Hv]. exists (k, v). split; [done|]. by apply elem_of_map_to_list. }
  assert (length keys <= length (concat (map_entry m <$> keys)))%nat as Hcount.
  { clear. induction keys as [|k keys IH]; [done|]. rewrite fmap_cons. cbn [concat length].
    rewrite length_app. unfold map_entry at 1. rewrite length_app.
    pose proof (uvarint_bytes_nonempty (zlen k)). lia. }
  pose proof (zlen_nonneg keys).
  rewrite zlen_app in Hlen. rewrite take_uvarint_bytes.
  2: { pose proof (zlen_uvarint_bytes_pos (zlen keys)).
       assert (zlen keys <= zlen (concat (map_entry m <$> keys))) by (unfold zlen at 1 2; lia). lia. }
  cbn [mbind res_bind]. rewrite read_pairs_entries; [|done|].
  - rewrite foldl_insert_keys; [done| | |apply map_empty_subseteq].
    + intros k Hk. left. by apply Hkeys.
    + intros k Hk. by apply Hkeys.
  - apply Forall_forall. intros k Hk. apply Hkeys in Hk as [v Hv]. rewrite Hv. cbn. by apply Hm.
Qed.
