(* ===== verification/RoundTrip.v ===== *)
(** The round trip: decoding what the encoder wrote. *)
From Stdlib Require Import ZArith Lia ZifyNat.
From S2P Require Import Prelude Varint Format Dict Columns Psort Entity Encode EncodeSpec Reader ReaderSafe ReaderCache Container RoundTripAux.

Local Open Scope Z_scope.

(** * What a graph says, independently of its IDs *)

(** A target with every ID resolved.  The dependencies, the tags and the
    attributes are multisets: the codec sorts them. *)
Record rtarget := {
  v_label : option bytes;
  v_hash : bytes;
  v_deps : list (option bytes);
  v_ruleType : option bytes;
  v_tags : list (option bytes);
  v_root : bool;
  v_external : bool;
  v_attrs : list (option bytes * option bytes);
}.

Definition resolve_target (meta : Metadata) (t : OptimizedTarget) : rtarget :=
  {| v_label := TargetIDMapping meta !! ot_ID t;
     v_hash := ot_Hash t;
     v_deps := (fun d => TargetIDMapping meta !! d) <$> ot_DirectDependencies t;
     v_ruleType := RuleTypeMapping meta !! ot_RuleType t;
     v_tags := (fun d => TagMapping meta !! d) <$> ot_Tags t;
     v_root := ot_Root t;
     v_external := ot_External t;
     v_attrs := (fun kv => (AttributeNameMapping meta !! kv.1,
                            AttributeStringValueMapping meta !! kv.2)) <$>
                  map_to_list (ot_Attributes t) |}.

#[export] Instance rtarget_equiv : Equiv rtarget := fun a b =>
  v_label a = v_label b /\ v_hash a = v_hash b /\ v_deps a ≡ₚ v_deps b /\
  v_ruleType a = v_ruleType b /\ v_tags a ≡ₚ v_tags b /\ v_root a = v_root b /\
  v_external a = v_external b /\ v_attrs a ≡ₚ v_attrs b.

#[export] Instance rtarget_equivalence : Equivalence (≡@{rtarget}).
Proof.
  split.
  - by intros a.
  - intros a b (?&?&?&?&?&?&?&?). unfold equiv, rtarget_equiv. by repeat split; symmetry.
  - intros a b c (?&?&?&?&?&?&?&?) (?&?&?&?&?&?&?&?). unfold equiv, rtarget_equiv.
    repeat split; etrans; eauto.
Qed.

(** Two graphs carry the same information: the same resolved targets, in
    whatever order, and the same file hashes. *)
Definition graph_equiv (g1 g2 : Graph) : Prop :=
  (exists ts, ts ≡ₚ Targets g1 /\
     Forall2 (fun t1 t2 => resolve_target (Meta g1) t1 ≡ resolve_target (Meta g2) t2)
       ts (Targets g2)) /\
  AllTargetsFileHashes (Meta g1) = AllTargetsFileHashes (Meta g2).

(** * Hypotheses *)

(** Go's side: at least one processor; the sort and [range] visit everything. *)
Class EncodeEnvOk (env : encode_env) : Prop := {
  env_procs : 1 <= procs env;
  env_sort_perm : forall l, sort_nodes env l ≡ₚ l;
  env_range : forall m, range_attrs env m ≡ₚ map_to_list m;
}.

(** A graph the format can represent: no label starts with its last colon, and
    no target has two attributes whose names are the same string. *)
Record graph_ok (g : Graph) : Prop := {
  go_labels : forall t label, t ∈ Targets g ->
    TargetIDMapping (Meta g) !! ot_ID t = Some label -> label_ok label;
  go_attrs : forall t, t ∈ Targets g ->
    NoDup ((fun kv => AttributeNameMapping (Meta g) !! kv.1) <$> map_to_list (ot_Attributes t));
}.

(** A dictionary within the limits of the decoder. *)
Definition dict_fits (strs : list bytes) : Prop :=
  Forall (fun s => zlen s < 2^63) strs /\
  total_len strs <= dict_budget (zlen (dict_data 0 [] strs)).

Definition all_dicts (d : dicts) : list (list bytes) :=
  [e_pkgDict d; e_nameDict d; e_ruleTypeDict d; e_tagDict d; e_attrNameDict d; e_attrValDict d].

(** The encoded graph stays within the limits a reader enforces. *)
Record fits (env : encode_env) (e : encoder) : Prop := {
  fit_block : BlockSize (e_opts e) < 2^63;
  fit_raw : Forall (fun rc => zlen (rc_data rc) <= maxColumnRawSize) (rawCols e);
  fit_total : zsum ((fun rc => zlen (rc_data rc)) <$> rawCols e) <=
    Z.max (zlen (write env e) * maxTotalRawFactor) maxTotalRawFloor;
  fit_len : zlen (write env e) < 2^59;
  fit_dicts : Forall dict_fits (all_dicts (e_dicts e));
  fit_hashes : map_Forall (fun k v => zlen k < 2^63 /\ zlen v < 2^63)
                 (AllTargetsFileHashes (e_meta e));
}.

(** * The encoder, stage by stage *)

Fixpoint outputs (i : Z) (rs : list node_res) : list node_out :=
  match rs with
  | [] => []
  | r :: rs => node_output i r :: outputs (i + 1) rs
  end.

Lemma encode_nodes_resolve env g hb tabs i nodes outs :
  for_each (encode_node env g hb tabs) i nodes = Ok outs ->
  exists rs, for_each (fun _ => resolve_node env g hb tabs) i nodes = Ok rs /\ outs = outputs i rs.
Proof.
  revert i outs. induction nodes as [|nd nodes IH]; intros i outs; cbn [for_each].
  { intros [= <-]. by exists []. }
  intros (out & E & (outs' & E0 & [= <-])%bind_Ok)%bind_Ok.
  destruct (IH _ _ E0) as (rs & Hrs & ->). apply bind_Ok in E as (r & Hr & [= <-]).
  exists (r :: rs). by rewrite Hr, Hrs.
Qed.

Lemma outputs_length i rs : length (outputs i rs) = length rs.
Proof. revert i. induction rs as [|r rs IH]; intros i; cbn; [done|]. by rewrite IH. Qed.

Lemma outputs_lookup i rs k r :
  rs !! k = Some r -> outputs i rs !! k = Some (node_output (i + Z.of_nat k) r).
Proof.
  revert i k. induction rs as [|r' rs IH]; intros i k; [done|]. cbn [outputs].
  destruct k as [|k]; cbn.
  - intros [= ->]. by rewrite Z.add_0_r.
  - intros Hk. rewrite (IH _ _ Hk).
    by replace (i + 1 + Z.of_nat k) with (i + Z.of_nat (S k)) by lia.
Qed.

(** A projection that does not depend on the node index. *)
Lemma outputs_fmap {A} (f : node_out -> A) (h : node_res -> A) i rs :
  (forall i r, f (node_output i r) = h r) -> f <$> outputs i rs = h <$> rs.
Proof.
  intros Hf. revert i. induction rs as [|r rs IH]; intros i; [done|].
  cbn [outputs]. by rewrite !fmap_cons, Hf, IH.
Qed.

Lemma outputs_runs {A} (f : node_out -> bytes) (wr : Z -> A -> bytes) (h : node_res -> A) i rs :
  (forall i r, f (node_output i r) = wr i (h r)) ->
  concat (f <$> outputs i rs) = write_runs wr i (h <$> rs).
Proof.
  intros Hf. revert i. induction rs as [|r rs IH]; intros i; [done|].
  cbn [outputs]. rewrite !fmap_cons. cbn [concat write_runs]. by rewrite Hf, IH.
Qed.

Record stages (env : encode_env) (g : Graph) (opts : EncodeOptions) (e : encoder)
  (tabs : tables) (rs : list node_res) : Prop := {
  sg_nodes : buildNodes env g = Ok (e_nodes e);
  sg_dicts : e_dicts e = buildDicts env (Meta g) (e_nodes e);
  sg_tabs : build_tables (Meta g) (e_dicts e) (e_nodes e) = Ok tabs;
  sg_rs : for_each (fun _ => resolve_node env g (HashBytes opts) tabs) 0 (e_nodes e) = Ok rs;
  sg_cols : e_columns e = assemble [outputs 0 rs];
  sg_opts : e_opts e = opts;
  sg_meta : e_meta e = Meta g;
  sg_blocks : zlen (e_blockDigests e) <= zlen (e_nodes e);
}.

Lemma newEncoder_stages env g opts e :
  1 <= procs env -> newEncoder env g opts = Ok e ->
  exists tabs rs, stages env g opts e tabs rs.
Proof.
  intros Hp H. unfold newEncoder in H. apply bind_Ok in H as (nodes & Hn & H).
  apply bind_Ok in H as (c & Hc & H). rewrite buildColumns_sequential in Hc by done.
  apply bind_Ok in Hc as (tabs & Ht & Hc). apply bind_Ok in Hc as (outs & Ho & [= <-]).
  apply encode_nodes_resolve in Ho as (rs & Hrs & ->). exists tabs, rs.
  destruct (buildBlocks env (BlockSize opts) nodes) as [starts digests] eqn:Eb.
  injection H as <-. split; cbn; try done.
  apply build_blocks_counts in Eb as [_ Hd]; [|done].
  unfold zlen in *. rewrite length_fmap in Hd. cbn in Hd. lia.
Qed.

(** ** Nodes *)

(** Node [nd] stands for the target [t]. *)
Definition node_of (g : Graph) (nd : nodeInfo) (t : OptimizedTarget) : Prop :=
  Targets g !! Z.to_nat (ni_origIdx nd) = Some t /\ 0 <= ni_origIdx nd /\
  TargetIDMapping (Meta g) !! ot_ID t = Some (ni_label nd) /\
  splitLabel (ni_label nd) = (ni_pkg nd, ni_name nd) /\ ni_origID nd = ot_ID t.

Lemma buildNodes_spec env g nodes :
  EncodeEnvOk env -> buildNodes env g = Ok nodes ->
  exists ts, ts ≡ₚ Targets g /\ Forall2 (node_of g) nodes ts.
Proof.
  intros Henv H. unfold buildNodes in H. apply bind_Ok in H as (nodes0 & H0 & [= <-]).
  assert (Forall2 (node_of g) nodes0 (Targets g)) as HF.
  { apply Forall2_same_length_lookup_2; [by eapply for_each_length|].
    intros k nd t Hnd Ht. destruct (for_each_lookup _ _ _ _ _ _ H0 Ht) as (nd' & Hnd' & Hb).
    rewrite Hnd in Hnd'. injection Hnd' as <-. unfold build_node in Hb.
    apply bind_Ok in Hb as (label & Hl & Hb).
    destruct (TargetIDMapping (Meta g) !! ot_ID t) as [l|] eqn:El; [|done]. injection Hl as ->.
    destruct (splitLabel label) as [pkg name] eqn:Es. injection Hb as <-.
    unfold node_of; cbn [ni_origIdx ni_label ni_pkg ni_name ni_origID].
    rewrite Z.add_0_l, Nat2Z.id. repeat split; auto. lia. }
  pose proof (parallelSortFunc_perm node_cmp (sort_nodes env) (env_sort_perm (env:=env))
    (procs env) nodes0) as Hperm.
  destruct (Forall2_perm_l _ _ _ _ Hperm HF) as (ts & Hts & HF').
  exists ts. by split.
Qed.

(** ** What resolving a node yields *)

Lemma comma_ok_Ok {A} (o : option A) m a : comma_ok o m = Ok a -> o = Some a.
Proof. destruct o; cbn; [by intros [= ->]|done]. Qed.

Record resolved (env : encode_env) (g : Graph) (opts : EncodeOptions) (e : encoder)
  (nd : nodeInfo) (t : OptimizedTarget) (r : node_res) : Prop := {
  rv_name : names_in (e_nameDict (e_dicts e)) (nr_name r) (ni_name nd);
  rv_rt : exists s, RuleTypeMapping (Meta g) !! ot_RuleType t = Some s /\
            names_in (e_ruleTypeDict (e_dicts e)) (nr_rt r) s;
  rv_hash : zlen (nr_hash r) = HashBytes opts;
  rv_empty : nr_empty r = true -> ot_Hash t = [];
  rv_full : nr_empty r = false -> ot_Hash t <> [] /\ decodeHashHex (ot_Hash t) (HashBytes opts) = nr_hash r;
  rv_deps : exists js, nr_deps r ≡ₚ js /\
              Forall2 (fun id j => names_node (e_nodes e) j id) (ot_DirectDependencies t) js;
  rv_tags : exists js, nr_tags r ≡ₚ js /\
              Forall2 (fun id j => exists s, TagMapping (Meta g) !! id = Some s /\
                         names_in (e_tagDict (e_dicts e)) j s) (ot_Tags t) js;
  rv_attrs : exists kvs, nr_attrs r ≡ₚ kvs /\
               Forall2 (fun old new =>
                  (exists s, AttributeNameMapping (Meta g) !! old.1 = Some s /\
                     names_in (e_attrNameDict (e_dicts e)) new.1 s) /\
                  (exists s, AttributeStringValueMapping (Meta g) !! old.2 = Some s /\
                     names_in (e_attrValDict (e_dicts e)) new.2 s))
                 (map_to_list (ot_Attributes t)) kvs;
  rv_count : nr_attrCount r = zlen (nr_attrs r);
  rv_root : nr_root r = ot_Root t;
  rv_ext : nr_ext r = ot_External t;
}.

(** The dictionaries are short enough for [int32] IDs. *)
Definition dicts_short (d : dicts) : Prop := Forall (fun strs => zlen strs < 2^31) (all_dicts d).

Lemma resolve_node_spec env g opts e tabs rs nd t r :
  EncodeEnvOk env -> stages env g opts e tabs rs -> dicts_short (e_dicts e) ->
  zlen (e_nodes e) < 2^31 -> 0 <= HashBytes opts ->
  nd ∈ e_nodes e -> node_of g nd t ->
  resolve_node env g (HashBytes opts) tabs nd = Ok r ->
  resolved env g opts e nd t r.
Proof.
  intros Henv Hst Hshort Hn Hhb Hin (Hidx & Hpos & Hlab & Hsplit & Hid) H.
  pose proof (sg_tabs _ _ _ _ _ _ Hst) as Htabs. unfold build_tables in Htabs.
  apply bind_Ok in Htabs as (ids & Hids & [= <-]).
  unfold dicts_short, all_dicts in Hshort. rewrite !Forall_cons in Hshort.
  destruct Hshort as (_ & Hname & Hrt & Htag & Han & Hav & _).
  pose proof (sg_dicts _ _ _ _ _ _ Hst) as Hd.
  assert (Hnm : ni_name nd ∈ e_nameDict (e_dicts e)).
  { rewrite Hd. unfold buildDicts. destruct (pkg_runs _ _ _ _). cbn.
    rewrite elem_of_compact, (parallelSortFunc_perm bcompare (sort_func bcompare) (sort_func_perm bcompare)).
    by apply list_elem_of_fmap_2. }
  assert (Hdr : e_ruleTypeDict (e_dicts e) = sortedUniqueStrings (RuleTypeMapping (Meta g)) /\
    e_tagDict (e_dicts e) = sortedUniqueStrings (TagMapping (Meta g)) /\
    e_attrNameDict (e_dicts e) = sortedUniqueStrings (AttributeNameMapping (Meta g)) /\
    e_attrValDict (e_dicts e) = sortedUniqueStrings (AttributeStringValueMapping (Meta g))).
  { rewrite Hd. unfold buildDicts. by destruct (pkg_runs _ _ _ _). }
  destruct Hdr as (Edr & Edt & Edn & Edv).
  unfold resolve_node in H. cbn [t_rt t_tag t_an t_av t_ids t_nameIdx] in H.
  apply bind_Ok in H as (t' & Ht' & H).
  rewrite <- (Z2Nat.id (ni_origIdx nd)), index_lookup, Hidx in Ht' by done. injection Ht' as <-.
  apply bind_Ok in H as (rtID & Hrtid & H). apply bind_Ok in H as ([hash empty] & Hhash & H).
  apply bind_Ok in H as (depsBuf & Hdeps & H). apply bind_Ok in H as (tagsBuf & Htags & H).
  apply bind_Ok in H as (kvs & Hkvs & [= <-]).
  apply comma_ok_Ok in Hrtid. rewrite Edr in Hrtid, Hrt. rewrite Edt in Htags, Htag.
  apply for_each_Forall2 in Hdeps, Htags.
  split; cbn [nr_name nr_rt nr_hash nr_empty nr_deps nr_tags nr_attrs nr_attrCount nr_root nr_ext]; try done.
  - destruct (buildStrIndex_spec _ Hname) as [H1 H2]. destruct (H2 _ Hnm) as [j Hj].
    rewrite Hj. by apply H1.
  - rewrite Edr. apply remapTable_spec in Hrtid; [|done]. done.
  - unfold encode_hash in Hhash. destruct (ot_Hash t) as [|b h].
    + injection Hhash as <- <-. unfold zlen. rewrite length_replicate. lia.
    + apply bind_Ok in Hhash as (raw & Hraw & [= <- <-]). by eapply decodeHashHex_spec in Hraw as [_ ?].
  - unfold encode_hash in Hhash. destruct (ot_Hash t) as [|b h]; [done|].
    apply bind_Ok in Hhash as (raw & Hraw & [= <- <-]). done.
  - unfold encode_hash in Hhash. destruct (ot_Hash t) as [|b h].
    + injection Hhash as <- <-. done.
    + apply bind_Ok in Hhash as (raw & Hraw & [= <- <-]). intros _. split; [done|].
      by eapply decodeHashHex_spec in Hraw as [? _].
  - exists depsBuf. split; [apply sort_func_perm|]. eapply Forall2_impl; [exact Hdeps|].
    intros id j Hj. apply comma_ok_Ok in Hj. by eapply resolveID_spec.
  - exists tagsBuf. split; [apply sort_func_perm|]. eapply Forall2_impl; [exact Htags|].
    intros id j Hj. apply comma_ok_Ok in Hj. rewrite Edt. by apply remapTable_spec.
  - unfold encode_attr in Hkvs. apply for_each_Forall2 in Hkvs.
    destruct (Forall2_perm_l _ _ _ _ (symmetry (env_range (ot_Attributes t))) Hkvs) as (kvs' & Hp & HF).
    exists kvs'. split; [rewrite sort_func_perm; by symmetry|]. eapply Forall2_impl; [exact HF|].
    intros [on ov] [nn nv] Hkv. cbn in *. rewrite Edn, Edv in *.
    apply bind_Ok in Hkv as (nid & H1 & Hkv). apply bind_Ok in Hkv as (vid & H2 & [= -> ->]).
    apply comma_ok_Ok in H1, H2. split; by apply remapTable_spec.
  - unfold zlen. rewrite sort_func_length, (for_each_length _ _ _ _ Hkvs), (env_range (ot_Attributes t)).
    by rewrite length_map_to_list.
Qed.

(** ** The columns *)

Lemma encodePlain_length vals : zlen vals <= zlen (encodePlain vals).
Proof.
  unfold encodePlain. induction vals as [|v vals IH]; [done|].
  rewrite fmap_cons. cbn [concat]. rewrite zlen_app, zlen_cons.
  pose proof (zlen_uvarint_bytes_pos (u64 v)). lia.
Qed.

Lemma zsum_perm l1 l2 : l1 ≡ₚ l2 -> zsum l1 = zsum l2.
Proof. unfold zsum. induction 1; cbn; lia. Qed.

Lemma zsum_elem (l : list Z) x : Forall (fun n => 0 <= n) l -> x ∈ l -> x <= zsum l.
Proof.
  unfold zsum. induction 1 as [|n l Hn Hl IH]; [by intros ?%elem_of_nil|].
  assert (0 <= foldr Z.add 0 l) by (clear IH; induction Hl; cbn; lia).
  intros [->|Hin]%elem_of_cons; cbn; [lia|]. specialize (IH Hin). lia.
Qed.

Lemma zlens_nonneg {A} (ls : list (list A)) : Forall (fun n => 0 <= n) (zlen <$> ls).
Proof. apply Forall_fmap, Forall_true. intros l; apply zlen_nonneg. Qed.

(** Degrees that fit are stored as they are. *)
Lemma degrees_i32 {A} (ls : list (list A)) :
  Forall (fun l => zlen l < 2^31) ls -> (fun l => i32 (zlen l)) <$> ls = zlen <$> ls.
Proof.
  induction 1 as [|l ls Hl _ IH]; [done|]. rewrite !fmap_cons, IH.
  pose proof (zlen_nonneg l). by rewrite i32_small by lia.
Qed.

Lemma runs_bounded rd wr (ls : list (list Z)) bound :
  (forall k l, ls !! k = Some l -> run_enc (rd (Z.of_nat k)) 0 0 l (wr (Z.of_nat k) l)) ->
  zlen (write_runs wr 0 ls) <= bound -> Forall (fun l => zlen l <= bound) ls.
Proof.
  intros H Hb. pose proof (write_runs_length rd wr 0 ls H).
  apply Forall_forall. intros l Hl.
  pose proof (zsum_elem (zlen <$> ls) (zlen l) (zlens_nonneg ls) ltac:(by apply list_elem_of_fmap_2)).
  lia.
Qed.

Lemma edge_count_sum acc (degs : list Z) :
  Forall (fun d => 0 <= d) degs -> 0 <= acc -> acc + zsum degs < 2^64 ->
  foldl (fun n d => u64 (n + u64 d)) acc degs = acc + zsum degs.
Proof.
  intros Hd. revert acc. induction Hd as [|d degs Hd Hds IH]; intros acc Ha Hs; cbn [foldl zsum foldr].
  { by rewrite Z.add_0_r. }
  change (zsum (d :: degs)) with (d + zsum degs) in Hs. fold (zsum degs).
  assert (0 <= zsum degs) by (unfold zsum; clear -Hds; induction Hds; cbn; lia).
  rewrite (u64_small d), u64_small, IH by lia. lia.
Qed.

Lemma rawCols_elem e id codec data :
  {| rc_id := id; rc_codec := codec; rc_data := data |} ∈ rawCols e ->
  Forall (fun rc => zlen (rc_data rc) <= maxColumnRawSize) (rawCols e) -> zlen data <= 2^30.
Proof. intros Hin HF. rewrite Forall_forall in HF. by apply HF in Hin. Qed.

(** Find a column in the list. *)
Ltac col_in := unfold rawCols; apply elem_of_app; left; cbn zeta; repeat first [left|right].

Lemma surjective_pairing_3 {A B C} (p : A * B * C) : p = (p.1.1, p.1.2, p.2).
Proof. by destruct p as [[??]?]. Qed.

Section encoded.
Context (env : encode_env) (g : Graph) (opts : EncodeOptions) (e : encoder).
Context (tabs : tables) (rs : list node_res) (ts : list OptimizedTarget).
Context (Henv : EncodeEnvOk env) (Hst : stages env g opts e tabs rs) (Hfit : fits env e).
Context (Hhb : HashBytes opts = 8 \/ HashBytes opts = 16 \/ HashBytes opts = 20).
Context (Hts : Forall2 (node_of g) (e_nodes e) ts).

#[local] Abbreviation cols := (e_columns e).
#[local] Abbreviation ds := (e_dicts e).

Lemma cols_eq :
  e_nameIDs cols = nr_name <$> rs /\ e_ruleTypeIDs cols = nr_rt <$> rs /\
  e_hashRaw cols = concat (nr_hash <$> rs) /\
  e_depDeg cols = (fun l => i32 (zlen l)) <$> (nr_deps <$> rs) /\
  e_depList cols = write_runs dep_bytes 0 (nr_deps <$> rs) /\
  e_tagDeg cols = (fun l => i32 (zlen l)) <$> (nr_tags <$> rs) /\
  e_tagList cols = write_runs (fun _ => tag_bytes) 0 (nr_tags <$> rs) /\
  e_attrDeg cols = (fun r => i32 (nr_attrCount r)) <$> rs /\
  e_attrNms cols = write_runs (fun _ => encodePlain) 0 ((fun r => (nr_attrs r).*1) <$> rs) /\
  e_attrVls cols = write_runs (fun _ => encodePlain) 0 ((fun r => (nr_attrs r).*2) <$> rs).
Proof.
  rewrite (sg_cols _ _ _ _ _ _ Hst). unfold assemble.
  cbn [concat fmap list_fmap e_nameIDs e_ruleTypeIDs e_hashRaw e_depDeg e_depList e_tagDeg e_tagList
       e_attrDeg e_attrNms e_attrVls].
  rewrite !app_nil_r, <- !list_fmap_compose.
  repeat split; try (by apply outputs_fmap); try (by apply outputs_runs).
  by rewrite (outputs_fmap no_hash nr_hash).
Qed.

Lemma rs_length : length rs = length (e_nodes e).
Proof. eapply for_each_length, (sg_rs _ _ _ _ _ _ Hst). Qed.

Lemma col_le id codec data :
  {| rc_id := id; rc_codec := codec; rc_data := data |} ∈ rawCols e -> zlen data <= 2^30.
Proof. intros Hin. by eapply rawCols_elem, (fit_raw _ _ Hfit). Qed.

Lemma nodes_short : zlen (e_nodes e) <= 2^30.
Proof.
  assert (zlen (encodePlain (e_depDeg cols)) <= 2^30) as Hdeg.
  { eapply (col_le colDeg codecZstd). col_in. }
  pose proof (encodePlain_length (e_depDeg cols)) as Hl.
  destruct cols_eq as (_ & _ & _ & Ed & _). rewrite Ed in Hl at 1.
  unfold zlen in *. rewrite !length_fmap, rs_length in Hl. lia.
Qed.


Lemma dicts_fit d :
  d ∈ all_dicts ds -> zlen d < 2^31 /\ expandDict (buildFrontCodedDict d) = Ok d.
Proof.
  intros Hin. assert (zlen (buildFrontCodedDict d) <= 2^30) as Hl.
  { unfold all_dicts in Hin. rewrite !elem_of_cons in Hin.
    destruct Hin as [->|[->|[->|[->|[->|[->|Hin]]]]]]; [..|by apply elem_of_nil in Hin].
    - eapply (col_le colPkgDict codecZstd). col_in.
    - eapply (col_le colNameDict codecZstd). col_in.
    - eapply (col_le colRuleTypeDict codecZstd). col_in.
    - eapply (col_le colTagDict codecZstd). col_in.
    - eapply (col_le colAttrNameDict codecZstd). col_in.
    - eapply (col_le colAttrValueDict codecZstd). col_in. }
  pose proof (dict_count_le d). split; [lia|].
  pose proof (fit_dicts _ _ Hfit) as Hd. rewrite Forall_forall in Hd.
  destruct (Hd d Hin) as [Hs Hb]. apply expand_build; [lia|done|done].
Qed.

Lemma all_dicts_short : dicts_short ds.
Proof. apply Forall_forall. intros d Hd. by apply dicts_fit. Qed.

Lemma node_resolved k nd t r :
  e_nodes e !! k = Some nd -> ts !! k = Some t -> rs !! k = Some r ->
  resolved env g opts e nd t r.
Proof.
  intros Hnd Ht Hr.
  destruct (for_each_lookup _ _ _ _ _ _ (sg_rs _ _ _ _ _ _ Hst) Hnd) as (r' & Hr' & Hres).
  rewrite Hr in Hr'. injection Hr' as <-.
  eapply resolve_node_spec; [done|exact Hst|apply all_dicts_short| |lia| | |exact Hres].
  - pose proof nodes_short. lia.
  - by eapply list_elem_of_lookup_2.
  - by eapply Forall2_lookup_lr in Hts.
Qed.

Lemma rs_forall (P : node_res -> Prop) :
  (forall nd t r, resolved env g opts e nd t r -> P r) -> Forall P rs.
Proof.
  intros HP. apply Forall_lookup_2. intros k r Hr. pose proof (lookup_lt_Some _ _ _ Hr) as Hk.
  rewrite rs_length in Hk. destruct (lookup_lt_is_Some_2 (e_nodes e) k Hk) as [nd Hnd].
  destruct (Forall2_lookup_l _ _ _ _ _ Hts Hnd) as (t & Ht & _).
  eapply HP, node_resolved; eauto.
Qed.

Lemma names_in_i32 d i s : names_in d i s -> is_i32 i.
Proof. intros [H _]. unfold is_i32. lia. Qed.

Lemma deps_i32 : Forall (Forall is_i32) (nr_deps <$> rs).
Proof.
  apply Forall_fmap, rs_forall. intros nd t r Hr. cbn.
  destruct (rv_deps _ _ _ _ _ _ _ Hr) as (js & -> & HF).
  clear -HF. induction HF as [|id j ids js [H _] _ IH]; constructor; [unfold is_i32; lia|done].
Qed.

Lemma tags_i32 : Forall (Forall is_i32) (nr_tags <$> rs).
Proof.
  apply Forall_fmap, rs_forall. intros nd t r Hr. cbn.
  destruct (rv_tags _ _ _ _ _ _ _ Hr) as (js & -> & HF).
  clear -HF. induction HF as [|id j ids js (s & _ & H) _ IH]; constructor; eauto using names_in_i32.
Qed.

Lemma attrs_i32 :
  Forall (Forall is_i32) ((fun r => (nr_attrs r).*1) <$> rs) /\
  Forall (Forall is_i32) ((fun r => (nr_attrs r).*2) <$> rs).
Proof.
  split; apply Forall_fmap, rs_forall; intros nd t r Hr; cbn;
    destruct (rv_attrs _ _ _ _ _ _ _ Hr) as (kvs & -> & HF); clear -HF;
    induction HF as [|old new olds news [(s1 & _ & H1) (s2 & _ & H2)] _ IH]; constructor;
    eauto using names_in_i32.
Qed.

Lemma names_i32 : Forall is_i32 (e_nameIDs cols) /\ Forall is_i32 (e_ruleTypeIDs cols).
Proof.
  destruct cols_eq as (-> & -> & _). split; apply Forall_fmap, rs_forall; intros nd t r Hr; cbn.
  - eapply names_in_i32, (rv_name _ _ _ _ _ _ _ Hr).
  - destruct (rv_rt _ _ _ _ _ _ _ Hr) as (s & _ & H). by eapply names_in_i32.
Qed.

Lemma pkg_ids : Forall2 (fun nd id => names_in (e_pkgDict ds) id (ni_pkg nd)) (e_nodes e) (e_pkgIDs ds).
Proof.
  rewrite (sg_dicts _ _ _ _ _ _ Hst). unfold buildDicts.
  destruct (pkg_runs true [] (-1) (e_nodes e)) as [dict ids] eqn:E. cbn.
  apply (pkg_runs_spec _ _ _ _ [] _ _ E); [done..|].
  pose proof nodes_short. rewrite zlen_nil. lia.
Qed.

(** ** What the column decoders return *)

Lemma decoded_ints :
  decodeDeltaInts (encodeDeltas (e_pkgIDs ds)) = e_pkgIDs ds /\
  decodeNameIDs (nodeNameRaw (e_pkgIDs ds) (e_nameIDs cols)) (e_pkgIDs ds) = nr_name <$> rs /\
  decodePlainInts (encodePlain (e_ruleTypeIDs cols)) = nr_rt <$> rs.
Proof.
  pose proof names_i32 as [Hn Hr]. pose proof pkg_ids as Hp.
  rewrite decode_encode_deltas.
  2: { clear -Hp. induction Hp; constructor; eauto using names_in_i32. }
  rewrite decode_encode_plain by done. destruct cols_eq as (En & Er & _).
  rewrite decode_encode_names; [by rewrite En, Er|done|].
  rewrite En, length_fmap, rs_length. by rewrite (Forall2_length _ _ _ Hp).
Qed.

Lemma dep_run k l :
  (nr_deps <$> rs) !! k = Some l -> run_enc (rd_dep (Z.of_nat k)) 0 0 l (dep_bytes (Z.of_nat k) l).
Proof.
  intros Hk. pose proof nodes_short as Hn. apply dep_run_enc.
  - apply lookup_lt_Some in Hk. rewrite length_fmap, rs_length in Hk. unfold zlen in Hn. lia.
  - pose proof deps_i32 as HF. by eapply Forall_lookup_1 in Hk.
Qed.

Lemma tag_run k l : (nr_tags <$> rs) !! k = Some l -> run_enc rd_tag 0 0 l (tag_bytes l).
Proof. intros Hk. apply tag_run_enc. pose proof tags_i32 as HF. by eapply Forall_lookup_1 in Hk. Qed.

Lemma deps_bounded : Forall (fun l => zlen l <= 2^30) (nr_deps <$> rs).
Proof.
  apply (runs_bounded rd_dep dep_bytes); [apply dep_run|].
  destruct cols_eq as (_ & _ & _ & _ & <- & _).
  eapply (col_le colDeps codecZstd). col_in.
Qed.

Lemma bounded_short (ls : list (list Z)) :
  Forall (fun l => zlen l <= 2^30) ls -> Forall (fun l => zlen l < 2^31) ls.
Proof. intros H. eapply Forall_impl; [exact H|]. intros l Hl; cbn in *. lia. Qed.

Lemma decoded_deps :
  decodeDepColumns (encodePlain (e_depDeg cols)) (e_depList cols) =
    Ok (zlen <$> (nr_deps <$> rs), nr_deps <$> rs).
Proof.
  pose proof (bounded_short _ deps_bounded) as Hs.
  destruct cols_eq as (_ & _ & _ & -> & -> & _). rewrite degrees_i32 by done.
  apply list_column_enc; [apply dep_run|done].
Qed.

Lemma decoded_tags :
  decodeTagColumns (encodePlain (e_tagDeg cols)) (e_tagList cols) =
    Ok (zlen <$> (nr_tags <$> rs), nr_tags <$> rs).
Proof.
  assert (zlen (e_tagList cols) <= 2^30) as Hl by (eapply (col_le colTags codecZstd); col_in).
  destruct cols_eq as (_ & _ & _ & _ & _ & -> & Et & _). rewrite Et in *.
  pose proof (runs_bounded (fun _ => rd_tag) (fun _ => tag_bytes) _ _ tag_run Hl) as Hb.
  rewrite degrees_i32 by by apply bounded_short.
  apply (list_column_enc (fun _ => rd_tag)); [apply tag_run|by apply bounded_short].
Qed.

Lemma decoded_attrs :
  decodeAttrColumns (encodePlain (e_attrDeg cols)) (e_attrNms cols) (e_attrVls cols) =
    Ok (zlen <$> ((fun r => (nr_attrs r).*1) <$> rs),
        (fun r => (nr_attrs r).*1) <$> rs, (fun r => (nr_attrs r).*2) <$> rs).
Proof.
  assert (zlen (e_attrNms cols) <= 2^30) as Hl by (eapply (col_le colAttrName codecZstd); col_in).
  pose proof attrs_i32 as [Hn Hv].
  destruct cols_eq as (_ & _ & _ & _ & _ & _ & _ & -> & Enm & ->). rewrite Enm in *.
  assert (forall k l, ((fun r => (nr_attrs r).*1) <$> rs) !! k = Some l ->
    run_enc rd_plain 0 0 l (encodePlain l)) as Hrun.
  { intros k l Hk. apply plain_run_enc. by eapply Forall_lookup_1 in Hk. }
  pose proof (runs_bounded (fun _ => rd_plain) (fun _ => encodePlain) _ _ Hrun Hl) as Hb.
  assert ((fun r => i32 (nr_attrCount r)) <$> rs = zlen <$> ((fun r => (nr_attrs r).*1) <$> rs)) as ->.
  { rewrite <- degrees_i32 by by apply bounded_short. rewrite <- list_fmap_compose.
    apply list_fmap_ext. intros k r Hk. cbn.
    pose proof (rs_forall (fun r => nr_attrCount r = zlen (nr_attrs r))) as HF.
    specialize (HF ltac:(intros nd t r' Hr'; apply (rv_count _ _ _ _ _ _ _ Hr'))).
    eapply Forall_lookup_1 in HF; [|exact Hk]. rewrite HF. unfold zlen. by rewrite length_fmap. }
  apply decode_encode_attrs; [done..| |by apply bounded_short].
  clear. induction rs as [|r l IH]; [constructor|]. rewrite !fmap_cons. constructor; [|done].
  by rewrite !length_fmap.
Qed.

(** ** The file the encoder writes is one the reader accepts *)

Lemma rawCols_static :
  Forall (fun rc => codec_ok rc /\ 0 <= rc_id rc < 2^64) (rawCols e) /\
  NoDup (rc_id <$> rawCols e) /\ zlen (rawCols e) <= maxDirectoryEntries.
Proof.
  unfold rawCols. case_decide; cbn [app fmap list_fmap rc_id].
  - split; [repeat (constructor; [split; [unfold codec_ok; cbn; auto|split; [vm_compute; discriminate|reflexivity]]|]); constructor|].
    split; [apply (bool_decide_unpack _); vm_compute; exact I|vm_compute; discriminate].
  - split; [repeat (constructor; [split; [unfold codec_ok; cbn; auto|split; [vm_compute; discriminate|reflexivity]]|]); constructor|].
    split; [apply (bool_decide_unpack _); vm_compute; exact I|vm_compute; discriminate].
Qed.

Lemma edges_le :
  edge_count (e_depDeg cols) = zsum (zlen <$> (nr_deps <$> rs)) /\
  0 <= edge_count (e_depDeg cols) <= zlen (e_depList cols) /\ zlen (e_depList cols) <= 2^30.
Proof.
  assert (zlen (e_depList cols) <= 2^30) as Hl by (eapply (col_le colDeps codecZstd); col_in).
  pose proof (bounded_short _ deps_bounded) as Hs.
  destruct cols_eq as (_ & _ & _ & Ed & El & _). rewrite Ed, El in *. rewrite degrees_i32 by done.
  pose proof (write_runs_length rd_dep dep_bytes 0 (nr_deps <$> rs) dep_run) as Hsum.
  assert (0 <= zsum (zlen <$> (nr_deps <$> rs))) as Hnn.
  { pose proof (zlens_nonneg (nr_deps <$> rs)) as HF. unfold zsum. clear -HF. induction HF; cbn; lia. }
  unfold edge_count. rewrite edge_count_sum; [lia|apply zlens_nonneg|lia|lia].
Qed.

Lemma hash_strides : Forall (fun h => zlen h = HashBytes opts) (nr_hash <$> rs).
Proof. apply Forall_fmap, rs_forall. intros nd t r Hr. apply (rv_hash _ _ _ _ _ _ _ Hr). Qed.

Lemma hash_total : zlen (e_hashRaw cols) = zlen (e_nodes e) * HashBytes opts.
Proof.
  destruct cols_eq as (_ & _ & -> & _). pose proof hash_strides as HF.
  assert (zlen (e_nodes e) = zlen (nr_hash <$> rs)) as ->.
  { unfold zlen. by rewrite length_fmap, rs_length. }
  clear -HF. induction HF as [|h l Hh _ IH]; [done|]. cbn [concat]. rewrite zlen_app, zlen_cons. lia.
Qed.

Context (zstd : Z -> bytes -> res bytes) (Hz : ZstdLaws (zstd_compress env) zstd).
Context (Hbs : 0 < BlockSize opts /\ Z.land (BlockSize opts) (BlockSize opts - 1) = 0).

#[local] Abbreviation results := (compress_col env (zstd_level (e_opts e)) <$> rawCols e).
#[local] Abbreviation fcore := (file_core (file_header e) results).

Lemma in_results rc : rc ∈ rawCols e -> exists comp, (rc, comp) ∈ results.
Proof.
  intros Hin. exists (compress_col env (zstd_level (e_opts e)) rc).2.
  replace (rc, _) with (compress_col env (zstd_level (e_opts e)) rc) by done.
  by apply list_elem_of_fmap_2.
Qed.

Lemma results_inv rc comp : (rc, comp) ∈ results -> rc ∈ rawCols e.
Proof. intros Hin. apply list_elem_of_fmap in Hin as (rc' & [= -> _] & ?). done. Qed.

Lemma rawCols_unique rc1 rc2 :
  rc1 ∈ rawCols e -> rc2 ∈ rawCols e -> rc_id rc1 = rc_id rc2 -> rc1 = rc2.
Proof.
  intros [i Hi]%list_elem_of_lookup_1 [j Hj]%list_elem_of_lookup_1 Heq.
  destruct rawCols_static as (_ & Hnd & _).
  assert (i = j) as <-; [|by rewrite Hi in Hj; injection Hj].
  eapply (NoDup_lookup (rc_id <$> rawCols e) i j (rc_id rc1)); [done|..];
    rewrite list_lookup_fmap; [by rewrite Hi|by rewrite Hj, Heq].
Qed.

Lemma encoded_file_ok : file_ok (file_header e) results.
Proof.
  pose proof nodes_short as Hn. pose proof edges_le as (_ & He & Hel).
  pose proof (zlen_nonneg (e_nodes e)). destruct rawCols_static as (Hsta & Hnd & Hcnt).
  pose proof (fit_block _ _ Hfit) as Hblk. pose proof (sg_opts _ _ _ _ _ _ Hst) as Eo.
  rewrite Eo in Hblk. destruct Hbs as [Hb1 Hb2].
  split; cbn [nodeCount edgeCount blockSize flags hashBytes file_header].
  - unfold header_ok; cbn. rewrite Eo. pose proof (u64_range (BlockSize opts)).
    assert (u16 (HashBytes opts) = HashBytes opts) as ->.
    { unfold u16. destruct Hhb as [->|[->| ->]]; done. }
    lia.
  - done.
  - rewrite Eo, u64_small by lia. auto.
  - apply Forall_fmap. pose proof (fit_raw _ _ Hfit) as Hraw. rewrite Forall_forall in *.
    intros rc Hin. destruct (Hsta rc Hin). apply (compress_col_stored env zstd); auto.
  - rewrite <- list_fmap_compose. apply Hnd.
  - unfold zlen. rewrite length_fmap. apply Hcnt.
  - rewrite <- list_fmap_compose. apply (fit_total _ _ Hfit).
  - apply (fit_len _ _ Hfit).
  - intros _. destruct (in_results {| rc_id := colDeg; rc_codec := codecZstd;
      rc_data := encodePlain (e_depDeg cols) |}) as [comp Hc]; [col_in|].
    eexists _, comp. split; [exact Hc|]. split; [done|]. cbn.
    pose proof (encodePlain_length (e_depDeg cols)) as Hl.
    destruct cols_eq as (_ & _ & _ & Ed & _). rewrite Ed in Hl at 1.
    unfold zlen in *. rewrite !length_fmap, rs_length in Hl. lia.
  - intros _. destruct (in_results {| rc_id := colHash; rc_codec := codecRaw;
      rc_data := e_hashRaw cols |}) as [comp Hc]; [col_in|].
    eexists _, comp. split; [exact Hc|]. split; [done|]. cbn. rewrite Eo, hash_total. f_equal.
    unfold u16. destruct Hhb as [->|[->| ->]]; done.
  - intros _. destruct (in_results {| rc_id := colDeps; rc_codec := codecZstd;
      rc_data := e_depList cols |}) as [comp Hc]; [col_in|].
    eexists _, comp. split; [exact Hc|]. split; [done|]. cbn. lia.
  - intros rc comp Hin Hid. apply results_inv in Hin.
    assert (rc = {| rc_id := colBlockDigest; rc_codec := codecRaw;
      rc_data := concat (put_le 8 <$> e_blockDigests e) |}) as ->.
    { apply rawCols_unique; [done|col_in|done]. }
    exists (zlen (e_blockDigests e)). cbn. split; [|apply (sg_blocks _ _ _ _ _ _ Hst)].
    apply zlen_offset_table.
Qed.

Lemma open_encoded : NewReader (write env e) = Ok (fresh fcore).
Proof. apply NewReader_write_file, encoded_file_ok. Qed.

Lemma column_encoded id codec data :
  {| rc_id := id; rc_codec := codec; rc_data := data |} ∈ rawCols e ->
  computes zstd fcore (getColumn zstd id) (Ok data).
Proof.
  intros Hin. destruct rawCols_static as (Hsta & _). rewrite Forall_forall in Hsta.
  pose proof (s_column_file env zstd (file_header e) (zstd_level (e_opts e)) (rawCols e) _
    encoded_file_ok Hin ltac:(by apply Hsta)) as E. cbn [rc_id rc_data] in E. rewrite <- E.
  apply getColumn_computes.
Qed.

Lemma dict_encoded id d :
  {| rc_id := id; rc_codec := codecZstd; rc_data := buildFrontCodedDict d |} ∈ rawCols e ->
  d ∈ all_dicts ds -> computes zstd fcore (ensureDict zstd id) (Ok d).
Proof.
  intros Hin Hd. destruct rawCols_static as (Hsta & _). rewrite Forall_forall in Hsta.
  destruct (dicts_fit d Hd) as [_ He]. rewrite <- He.
  replace (expandDict (buildFrontCodedDict d)) with (s_dict zstd fcore id).
  { apply ensureDict_computes. }
  pose proof (s_column_file env zstd (file_header e) (zstd_level (e_opts e)) (rawCols e) _
    encoded_file_ok Hin ltac:(by apply Hsta)) as E. cbn [rc_id rc_data] in E.
  unfold s_dict. by rewrite E.
Qed.

(** ** Decoding the nodes *)

Lemma node_count_encoded : NodeCount fcore = zlen (e_nodes e).
Proof.
  unfold NodeCount. cbn. pose proof nodes_short. pose proof (zlen_nonneg (e_nodes e)).
  by rewrite i64_small by lia.
Qed.

Lemma stride_encoded : HashStride fcore = HashBytes opts.
Proof.
  unfold HashStride. cbn. rewrite (sg_opts _ _ _ _ _ _ Hst). unfold u16.
  destruct Hhb as [->|[->| ->]]; done.
Qed.

Lemma flags_encoded :
  exists rb xb hb,
    split_flags (NodeCount fcore) (e_rootBits cols ++ e_extBits cols ++ e_hashEmptyBits cols)
      = (rb, xb, hb) /\
    forall k r, rs !! k = Some r ->
      opt_bit rb (Z.of_nat k) = Ok (nr_root r) /\ opt_bit xb (Z.of_nat k) = Ok (nr_ext r) /\
      opt_bit hb (Z.of_nat k) = Ok (nr_empty r).
Proof.
  rewrite node_count_encoded, (sg_cols _ _ _ _ _ _ Hst). unfold assemble.
  cbn [e_rootBits e_extBits e_hashEmptyBits concat]. rewrite app_nil_r.
  assert (forall f, zlen (bitset f (outputs 0 rs)) = (zlen (e_nodes e) + 7) / 8) as Hl.
  { intros f. rewrite bitset_length. unfold zlen. by rewrite outputs_length, rs_length. }
  destruct (decide (0 < zlen (e_nodes e))) as [Hpos|Hz0].
  - rewrite split_flags_join by (done || apply Hl). do 3 eexists. split; [done|].
    intros k r Hr. pose proof (outputs_lookup 0 rs k r Hr) as Ho. cbn [opt_bit].
    by rewrite !(test_bitset _ _ _ _ Ho).
  - do 3 eexists. split; [apply surjective_pairing_3|]. intros k r Hr.
    apply lookup_lt_Some in Hr. rewrite rs_length in Hr. unfold zlen in Hz0. lia.
Qed.

Lemma hashes_encoded :
  exists hd, Hashes fcore = Ok hd /\
    forall k r, rs !! k = Some r ->
      slice hd (Z.of_nat k * HashBytes opts) ((Z.of_nat k + 1) * HashBytes opts) = Ok (nr_hash r).
Proof.
  destruct (in_results {| rc_id := colHash; rc_codec := codecRaw; rc_data := e_hashRaw cols |})
    as [comp Hc]; [col_in|].
  assert (comp = e_hashRaw cols) as ->.
  { apply list_elem_of_fmap in Hc as (rc & E & _). unfold compress_col in E. injection E as <- ->.
    cbn. by rewrite decide_False by (intros []; done). }
  destruct (raw_in_cols _ _ encoded_file_ok _ _ Hc) as (off & Hl & Hs & Ho & Hb).
  pose proof (zlen_nonneg (e_hashRaw cols)).
  unfold Hashes. cbn [rc_id] in Hl. rewrite Hl. cbn [ce_rawSize entry_at rc_data].
  destruct cols_eq as (_ & _ & Eh & _).
  case_decide as Hsz.
  - exists []. split; [done|]. intros k r Hr. rewrite hash_total in Hsz.
    apply lookup_lt_Some in Hr. rewrite rs_length in Hr. unfold zlen in Hsz. nia.
  - exists (e_hashRaw cols). split.
    + unfold raw_column. cbn [ce_offset ce_compressedSize rd_data file_core entry_at]. by rewrite u64_small by lia.
    + intros k r Hr. rewrite Eh. apply slice_stride; [lia|apply hash_strides|].
      by rewrite list_lookup_fmap, Hr.
Qed.

Context (Hg : graph_ok g).

(** The result of decoding node [k]. *)
Definition decoded_target (k : nat) (r : node_res) (attrs : gmap Z Z) : OptimizedTarget :=
  {| ot_ID := i32 (Z.of_nat k); ot_Hash := if nr_empty r then [] else hexEncode (nr_hash r);
     ot_DirectDependencies := nr_deps r; ot_RuleType := nr_rt r; ot_Tags := nr_tags r;
     ot_Root := nr_root r; ot_External := nr_ext r; ot_Attributes := attrs |}.

Lemma lookup_dict_names d i s : names_in d i s -> lookupDictEntry d i = Ok s.
Proof.
  intros [Hr Hl]. unfold lookupDictEntry. pose proof (lookup_lt_Some _ _ _ Hl).
  rewrite decide_False by (unfold zlen; lia).
  rewrite <- (Z2Nat.id i), index_lookup, Hl by lia. done.
Qed.

Lemma attrs_nodup nd t r :
  resolved env g opts e nd t r -> t ∈ Targets g -> NoDup (nr_attrs r).*1.
Proof.
  intros Hr Ht. destruct (rv_attrs _ _ _ _ _ _ _ Hr) as (kvs & Hp & HF). rewrite Hp.
  pose proof (go_attrs _ Hg t Ht) as Hnd. apply NoDup_alt. intros i j x Hi Hj.
  rewrite list_lookup_fmap in Hi, Hj.
  destruct (kvs !! i) as [kv1|] eqn:E1; [|done]. destruct (kvs !! j) as [kv2|] eqn:E2; [|done].
  injection Hi as Hi. injection Hj as Hj.
  destruct (Forall2_lookup_r _ _ _ _ _ HF E1) as (o1 & Ho1 & (s1 & Hs1 & [_ Hn1]) & _).
  destruct (Forall2_lookup_r _ _ _ _ _ HF E2) as (o2 & Ho2 & (s2 & Hs2 & [_ Hn2]) & _).
  rewrite Hi in Hn1. rewrite Hj, Hn1 in Hn2. injection Hn2 as <-.
  eapply (NoDup_lookup _ i j (Some s1)); [exact Hnd|..]; rewrite list_lookup_fmap.
  - by rewrite Ho1, <- Hs1.
  - by rewrite Ho2, <- Hs2.
Qed.

Lemma ts_in k t : ts !! k = Some t -> t ∈ Targets g.
Proof.
  intros Hk. destruct (Forall2_lookup_r _ _ _ _ _ Hts Hk) as (nd & _ & Hidx & _).
  by eapply list_elem_of_lookup_2.
Qed.

Lemma decode_node_encoded rb xb hb hd k nd t r :
  (forall k r, rs !! k = Some r ->
      opt_bit rb (Z.of_nat k) = Ok (nr_root r) /\ opt_bit xb (Z.of_nat k) = Ok (nr_ext r) /\
      opt_bit hb (Z.of_nat k) = Ok (nr_empty r)) ->
  (forall k r, rs !! k = Some r ->
      slice hd (Z.of_nat k * HashBytes opts) ((Z.of_nat k + 1) * HashBytes opts) = Ok (nr_hash r)) ->
  e_nodes e !! k = Some nd -> ts !! k = Some t -> rs !! k = Some r ->
  exists attrs, map_to_list attrs ≡ₚ nr_attrs r /\
  decode_node
    {| dc_pkgDict := e_pkgDict ds; dc_nameDict := e_nameDict ds; dc_pkgIDs := e_pkgIDs ds;
       dc_nameIDs := nr_name <$> rs; dc_rtIDs := nr_rt <$> rs; dc_depLists := nr_deps <$> rs;
       dc_tagLists := nr_tags <$> rs; dc_attrNames := (fun r => (nr_attrs r).*1) <$> rs;
       dc_attrVals := (fun r => (nr_attrs r).*2) <$> rs; dc_rootBits := rb; dc_extBits := xb;
       dc_emptyBits := hb; dc_hb := HashBytes opts; dc_hashData := hd |} (Z.of_nat k)
  = Ok (ni_label nd, decoded_target k r attrs).
Proof.
  intros Hbits Hhash Hnd Ht Hr. pose proof (node_resolved k nd t r Hnd Ht Hr) as Hres.
  destruct (Hbits k r Hr) as (Hrb & Hxb & Hhb'). pose proof (Hhash k r Hr) as Hh.
  destruct (Forall2_lookup_l _ _ _ _ _ pkg_ids Hnd) as (pid & Hpid & Hpkg).
  destruct (zip_attrs_perm (nr_attrs r)) as (attrs & Hza & Hperm).
  { eapply attrs_nodup; [exact Hres|by eapply ts_in]. }
  exists attrs. split; [done|]. unfold decode_node.
  cbn [dc_pkgDict dc_nameDict dc_pkgIDs dc_nameIDs dc_rtIDs dc_depLists dc_tagLists dc_attrNames
       dc_attrVals dc_rootBits dc_extBits dc_emptyBits dc_hb dc_hashData].
  rewrite !index_lookup, !list_lookup_fmap, Hpid, Hr. cbn [fmap option_fmap option_map mbind res_bind].
  rewrite (lookup_dict_names _ _ _ Hpkg). cbn [mbind res_bind].
  rewrite (lookup_dict_names _ _ _ (rv_name _ _ _ _ _ _ _ Hres)). cbn [mbind res_bind].
  rewrite Hhb', Hrb, Hxb, Hh, Hza. cbn [mbind res_bind].
  destruct (Forall2_lookup_lr _ _ _ _ _ _ Hts Hnd Ht) as (_ & _ & Hlab & Hsplit & _).
  assert (joinLabel (ni_pkg nd) (ni_name nd) = ni_label nd) as ->.
  { pose proof (join_split (ni_label nd)) as Hj. rewrite Hsplit in Hj. apply Hj.
    eapply (go_labels _ Hg t); [by eapply ts_in|done]. }
  unfold decoded_target. by destruct (nr_empty r).
Qed.

(** ** The decoded graph *)

Lemma dict_in_all :
  e_pkgDict ds ∈ all_dicts ds /\ e_nameDict ds ∈ all_dicts ds /\ e_ruleTypeDict ds ∈ all_dicts ds /\
  e_tagDict ds ∈ all_dicts ds /\ e_attrNameDict ds ∈ all_dicts ds /\ e_attrValDict ds ∈ all_dicts ds.
Proof. unfold all_dicts. set_solver. Qed.

(** The nodes decoded so far, against the nodes they came from. *)
Definition decoded_nodes (out : list (bytes * OptimizedTarget)) : Prop :=
  length out = length rs /\
  forall k nd t r, e_nodes e !! k = Some nd -> ts !! k = Some t -> rs !! k = Some r ->
    exists attrs, map_to_list attrs ≡ₚ nr_attrs r /\
      out !! k = Some (ni_label nd, decoded_target k r attrs).

Definition decoded_graph (out : list (bytes * OptimizedTarget)) : Graph :=
  {| Targets := out.*2;
     Meta := {| TargetIDMapping := dict_map (out.*1);
                RuleTypeMapping := dict_map (e_ruleTypeDict ds);
                TagMapping := dict_map (e_tagDict ds);
                AttributeNameMapping := dict_map (e_attrNameDict ds);
                AttributeStringValueMapping := dict_map (e_attrValDict ds);
                AllTargetsFileHashes := AllTargetsFileHashes (Meta g) |} |}.

Lemma computes_step {A B} c (m : RM A) (f : A -> RM B) a x :
  computes zstd c m (Ok a) -> computes zstd c (f a) x -> computes zstd c (m ≫= f) x.
Proof.
  intros Hm Hf. apply (computes_bind zstd c m f (Ok a) (fun _ => x)); [done|].
  by intros ? [= <-].
Qed.

Lemma computes_core {B} c (f : core -> RM B) x :
  computes zstd c (f c) x -> computes zstd c (get_core ≫= f) x.
Proof. intros Hf r Hr Hc. unfold mbind, RM_bind, get_core. rewrite Hc. by apply Hf. Qed.

Lemma computes_lifted {A B} c (y : res A) (f : A -> RM B) a x :
  y = Ok a -> computes zstd c (f a) x -> computes zstd c (lift y ≫= f) x.
Proof. intros -> Hf. eapply computes_step; [apply computes_lift|done]. Qed.

Lemma file_hashes_encoded :
  computes zstd fcore (ReadAllTargetsFileHashes zstd)
    (Ok (if decide (AllTargetsFileHashes (Meta g) = ∅) then None
         else Some (AllTargetsFileHashes (Meta g)))).
Proof.
  unfold ReadAllTargetsFileHashes. apply computes_core. pose proof (sg_meta _ _ _ _ _ _ Hst) as Em.
  case_decide as Hemp.
  - rewrite (s_column_absent (file_header e) results); [apply computes_ret|apply encoded_file_ok|].
    rewrite <- list_fmap_compose. unfold rawCols. rewrite Em, decide_True by done.
    apply (bool_decide_unpack _). vm_compute. exact I.
  - set (rc := {| rc_id := colAllTargetsFileHashes; rc_codec := codecZstd;
                  rc_data := encodeStringMap (AllTargetsFileHashes (Meta g)) |}).
    assert (rc ∈ rawCols e) as Hin.
    { unfold rawCols. rewrite Em, decide_False by done. apply elem_of_app. right. left. }
    destruct (in_results rc Hin) as [comp Hc].
    destruct (raw_in_cols _ _ encoded_file_ok _ _ Hc) as (off & Hl & _). cbn [rc_id rc] in Hl.
    rewrite Hl. eapply computes_step; [by apply (column_encoded _ codecZstd)|].
    eapply computes_lifted; [|apply computes_ret].
    apply decode_encode_stringmap.
    + rewrite <- Em. apply (fit_hashes _ _ Hfit).
    + pose proof (col_le _ _ _ Hin). lia.
Qed.

(** All nodes are decoded. *)
Lemma decode_nodes_encoded rb xb hb hd :
  (forall k r, rs !! k = Some r ->
      opt_bit rb (Z.of_nat k) = Ok (nr_root r) /\ opt_bit xb (Z.of_nat k) = Ok (nr_ext r) /\
      opt_bit hb (Z.of_nat k) = Ok (nr_empty r)) ->
  (forall k r, rs !! k = Some r ->
      slice hd (Z.of_nat k * HashBytes opts) ((Z.of_nat k + 1) * HashBytes opts) = Ok (nr_hash r)) ->
  exists out, decode_nodes
    {| dc_pkgDict := e_pkgDict ds; dc_nameDict := e_nameDict ds; dc_pkgIDs := e_pkgIDs ds;
       dc_nameIDs := nr_name <$> rs; dc_rtIDs := nr_rt <$> rs; dc_depLists := nr_deps <$> rs;
       dc_tagLists := nr_tags <$> rs; dc_attrNames := (fun r => (nr_attrs r).*1) <$> rs;
       dc_attrVals := (fun r => (nr_attrs r).*2) <$> rs; dc_rootBits := rb; dc_extBits := xb;
       dc_emptyBits := hb; dc_hb := HashBytes opts; dc_hashData := hd |}
    (zlen (e_nodes e)) = Ok out /\ decoded_nodes out.
Proof.
  intros Hbits Hhash. set (dc := {| dc_pkgDict := e_pkgDict ds; dc_nameDict := e_nameDict ds; dc_pkgIDs := e_pkgIDs ds;
       dc_nameIDs := nr_name <$> rs; dc_rtIDs := nr_rt <$> rs; dc_depLists := nr_deps <$> rs;
       dc_tagLists := nr_tags <$> rs; dc_attrNames := (fun r => (nr_attrs r).*1) <$> rs;
       dc_attrVals := (fun r => (nr_attrs r).*2) <$> rs; dc_rootBits := rb; dc_extBits := xb;
       dc_emptyBits := hb; dc_hb := HashBytes opts; dc_hashData := hd |}).
  pose proof (Forall2_length _ _ _ Hts) as Hlt. pose proof rs_length as Hlr.
  unfold decode_nodes. rewrite to_nat_zlen.
  destruct (for_each_total (fun i (_ : unit) => decode_node dc i) 0
              (replicate (length (e_nodes e)) ())) as [out Hout].
  { intros k x Hk. apply lookup_replicate in Hk as [_ Hk].
    destruct (lookup_lt_is_Some_2 (e_nodes e) k Hk) as [nd Hnd].
    destruct (lookup_lt_is_Some_2 ts k ltac:(lia)) as [t Ht].
    destruct (lookup_lt_is_Some_2 rs k ltac:(lia)) as [r Hr].
    destruct (decode_node_encoded rb xb hb hd k nd t r Hbits Hhash Hnd Ht Hr) as (attrs & _ & E).
    rewrite Z.add_0_l. eexists. exact E. }
  exists out. split; [done|]. split.
  - rewrite (for_each_length _ _ _ _ Hout), length_replicate. lia.
  - intros k nd t r Hnd Ht Hr.
    destruct (decode_node_encoded rb xb hb hd k nd t r Hbits Hhash Hnd Ht Hr) as (attrs & Hp & E).
    exists attrs. split; [done|].
    destruct (for_each_lookup _ _ _ _ k () Hout) as (y & Hy & Ey).
    { apply lookup_replicate. split; [done|]. by apply lookup_lt_Some in Hnd. }
    rewrite Z.add_0_l in Ey. fold dc in E. rewrite E in Ey. injection Ey as <-. done.
Qed.

Lemma DecodeGraph_encoded :
  exists out, decoded_nodes out /\ computes zstd fcore (DecodeGraph zstd) (Ok (decoded_graph out)).
Proof.
  destruct flags_encoded as (rb & xb & hb & Hsplit & Hbits).
  destruct hashes_encoded as (hd & Hhd & Hhash).
  destruct dict_in_all as (D1 & D2 & D3 & D4 & D5 & D6).
  destruct decoded_ints as (I1 & I2 & I3).
  destruct (decode_nodes_encoded rb xb hb hd Hbits Hhash) as (out & Hout & Hdn).
  exists out. split; [done|]. unfold DecodeGraph.
  eapply computes_step.
  { unfold expandAllDicts, ensurePkgDict, ensureNameDict, ensureRuleTypeDict, ensureTagDict,
      ensureAttrNameDict, ensureAttrValDict.
    do 6 (eapply computes_step; [apply dict_encoded; [col_in|assumption]|]). apply computes_ret. }
  apply computes_core. eapply computes_step.
  { unfold decompressAll. cbn [get_columns].
    do 12 (eapply computes_step; [eapply column_encoded; col_in|]). apply computes_ret. }
  eapply computes_step.
  { unfold decodePkgIDs. eapply computes_step; [eapply column_encoded; col_in|]. apply computes_ret. }
  rewrite I1. eapply computes_step.
  { unfold read_nameIDs. eapply computes_step; [eapply column_encoded; col_in|]. apply computes_ret. }
  rewrite I2. eapply computes_step.
  { unfold decodeRuleTypeIDs. eapply computes_step; [eapply column_encoded; col_in|]. apply computes_ret. }
  rewrite I3. eapply computes_step.
  { unfold read_dep_columns. do 2 (eapply computes_step; [eapply column_encoded; col_in|]).
    rewrite decoded_deps. apply computes_lift. }
  eapply computes_step.
  { unfold read_tag_columns. do 2 (eapply computes_step; [eapply column_encoded; col_in|]).
    rewrite decoded_tags. apply computes_lift. }
  eapply computes_step.
  { unfold read_attr_columns. do 3 (eapply computes_step; [eapply column_encoded; col_in|]).
    rewrite decoded_attrs. apply computes_lift. }
  eapply computes_step.
  { unfold decodeFlags. eapply computes_step; [eapply column_encoded; col_in|].
    apply computes_core. rewrite Hsplit. apply computes_ret. }
  eapply computes_lifted; [exact Hhd|]. eapply computes_lifted.
  { rewrite stride_encoded, node_count_encoded. exact Hout. }
  eapply computes_step; [apply file_hashes_encoded|].
  assert (default ∅ (if decide (AllTargetsFileHashes (Meta g) = ∅) then None
            else Some (AllTargetsFileHashes (Meta g))) = AllTargetsFileHashes (Meta g)) as ->
    by (by case_decide).
  apply computes_ret.
Qed.

(** ** The decoded graph says what the graph said *)

Lemma Forall2_fmap_eq {A B C} (P : A -> B -> Prop) (f : A -> C) (h : B -> C) l l' :
  Forall2 P l l' -> (forall x y, P x y -> f x = h y) -> f <$> l = h <$> l'.
Proof. induction 1; intros Heq; [done|]. rewrite !fmap_cons. f_equal; auto. Qed.

Lemma dict_lookup d i s : d ∈ all_dicts ds -> names_in d i s -> dict_map d !! i = Some s.
Proof. intros Hd. apply dict_map_lookup. by apply dicts_fit. Qed.

Lemma label_lookup out k nd :
  decoded_nodes out -> e_nodes e !! k = Some nd ->
  dict_map out.*1 !! Z.of_nat k = Some (ni_label nd).
Proof.
  intros [Hlen Hout] Hnd. pose proof nodes_short. pose proof rs_length as Hlr.
  pose proof (lookup_lt_Some _ _ _ Hnd) as Hlt.
  destruct (Forall2_lookup_l _ _ _ _ _ Hts Hnd) as (t & Ht & _).
  destruct (lookup_lt_is_Some_2 rs k ltac:(lia)) as [r Hr].
  destruct (Hout k nd t r Hnd Ht Hr) as (attrs & _ & Hk). apply dict_map_lookup.
  - unfold zlen in *. rewrite length_fmap. lia.
  - split; [unfold zlen in *; lia|]. by rewrite Nat2Z.id, list_lookup_fmap, Hk.
Qed.

Lemma truncate_target_fields n t :
  ot_ID (truncate_target n t) = ot_ID t /\
  ot_DirectDependencies (truncate_target n t) = ot_DirectDependencies t /\
  ot_RuleType (truncate_target n t) = ot_RuleType t /\ ot_Tags (truncate_target n t) = ot_Tags t /\
  ot_Root (truncate_target n t) = ot_Root t /\ ot_External (truncate_target n t) = ot_External t /\
  ot_Attributes (truncate_target n t) = ot_Attributes t /\
  ot_Hash (truncate_target n t) =
    (if decide (ot_Hash t <> []) then hexEncode (decodeHashHex (ot_Hash t) n) else []).
Proof. unfold truncate_target. case_decide as H; [done|]. by rewrite H. Qed.

Lemma decoded_target_equiv out k nd t r attrs :
  decoded_nodes out -> e_nodes e !! k = Some nd -> ts !! k = Some t -> rs !! k = Some r ->
  map_to_list attrs ≡ₚ nr_attrs r ->
  resolve_target (Meta g) (truncate_target (HashBytes opts) t) ≡
  resolve_target (Meta (decoded_graph out)) (decoded_target k r attrs).
Proof.
  intros Hdn Hnd Ht Hr Hattrs. pose proof (node_resolved k nd t r Hnd Ht Hr) as Hres.
  destruct (truncate_target_fields (HashBytes opts) t) as (E1 & E2 & E3 & E4 & E5 & E6 & E7 & E8).
  destruct (Forall2_lookup_lr _ _ _ _ _ _ Hts Hnd Ht) as (_ & _ & Hlab & _ & _).
  destruct dict_in_all as (D1 & D2 & D3 & D4 & D5 & D6).
  pose proof nodes_short. pose proof (lookup_lt_Some _ _ _ Hnd) as Hlt.
  unfold equiv, rtarget_equiv, resolve_target, decoded_target.
  cbn [v_label v_hash v_deps v_ruleType v_tags v_root v_external v_attrs decoded_graph Meta
       TargetIDMapping RuleTypeMapping TagMapping AttributeNameMapping AttributeStringValueMapping
       ot_ID ot_Hash ot_DirectDependencies ot_RuleType ot_Tags ot_Root ot_External ot_Attributes].
  rewrite E1, E2, E3, E4, E5, E6, E7, E8.
  split; [|split; [|split; [|split; [|split; [|split; [|split]]]]]].
  - rewrite i32_small by (unfold zlen in *; lia). by rewrite (label_lookup out k nd).
  - destruct (nr_empty r) eqn:Ee.
    + rewrite (rv_empty _ _ _ _ _ _ _ Hres Ee). by rewrite decide_False by (intros []; done).
    + destruct (rv_full _ _ _ _ _ _ _ Hres Ee) as [Hne Hd]. by rewrite decide_True, Hd.
  - destruct (rv_deps _ _ _ _ _ _ _ Hres) as (js & Hp & HF). rewrite Hp.
    erewrite Forall2_fmap_eq; [done|exact HF|]. intros id j [Hj (nd' & Hnd' & Hid)].
    rewrite <- (Z2Nat.id j), (label_lookup out _ nd') by (done || lia).
    destruct (Forall2_lookup_l _ _ _ _ _ Hts Hnd') as (t' & _ & _ & _ & Hl & _ & Ho).
    by rewrite <- Hid, Ho.
  - destruct (rv_rt _ _ _ _ _ _ _ Hres) as (s & -> & Hs). by rewrite (dict_lookup _ _ _ D3 Hs).
  - destruct (rv_tags _ _ _ _ _ _ _ Hres) as (js & Hp & HF). rewrite Hp.
    erewrite Forall2_fmap_eq; [done|exact HF|]. intros id j (s & -> & Hs).
    by rewrite (dict_lookup _ _ _ D4 Hs).
  - by rewrite (rv_root _ _ _ _ _ _ _ Hres).
  - by rewrite (rv_ext _ _ _ _ _ _ _ Hres).
  - rewrite Hattrs. destruct (rv_attrs _ _ _ _ _ _ _ Hres) as (kvs & Hp & HF). rewrite Hp.
    erewrite Forall2_fmap_eq; [done|exact HF|].
    intros old new [(s1 & -> & Hs1) (s2 & -> & Hs2)].
    by rewrite (dict_lookup _ _ _ D5 Hs1), (dict_lookup _ _ _ D6 Hs2).
Qed.

Lemma decoded_graph_equiv out :
  ts ≡ₚ Targets g -> decoded_nodes out ->
  graph_equiv (TruncateHashes g (HashBytes opts)) (decoded_graph out).
Proof.
  intros Hperm Hdn. pose proof (Forall2_length _ _ _ Hts) as Hlt. pose proof rs_length as Hlr.
  pose proof Hdn as [Hlen Hout]. split; [|done].
  exists (truncate_target (HashBytes opts) <$> ts). split; [cbn; by rewrite Hperm|].
  apply Forall2_same_length_lookup_2; [cbn; rewrite !length_fmap; lia|].
  intros k t' t2 Ht' Ht2. rewrite list_lookup_fmap in Ht'.
  destruct (ts !! k) as [t|] eqn:Ht; [|done]. injection Ht' as <-.
  destruct (Forall2_lookup_r _ _ _ _ _ Hts Ht) as (nd & Hnd & _).
  destruct (lookup_lt_is_Some_2 rs k) as [r Hr]; [apply lookup_lt_Some in Ht; lia|].
  destruct (Hout k nd t r Hnd Ht Hr) as (attrs & Hp & Hk).
  cbn [decoded_graph Targets] in Ht2. rewrite list_lookup_fmap, Hk in Ht2. injection Ht2 as <-.
  by eapply decoded_target_equiv.
Qed.
End encoded.

(** * Properties *)

(** The statement below, for other files. *)
Lemma decode_encoded (env : encode_env) (zstd : Z -> bytes -> res bytes)
  (g : Graph) (opts : EncodeOptions) (blob : bytes) :
  EncodeEnvOk env -> ZstdLaws (zstd_compress env) zstd -> graph_ok g ->
  Encode env g opts = Ok blob ->
  (forall e, newEncoder env g (fillDefaults opts) = Ok e -> fits env e) ->
  exists g', Decode zstd blob = Ok g' /\
    graph_equiv (TruncateHashes g (HashBytes (fillDefaults opts))) g'.
Proof.
  intros Henv Hz Hg Henc Hfit. unfold Encode in Henc.
  apply bind_Ok in Henc as ([] & Hhb & Henc). apply bind_Ok in Henc as ([] & Hbs & Henc).
  apply bind_Ok in Henc as (e & He & [= <-]). apply guard_err_Ok in Hhb, Hbs.
  apply bool_decide_eq_false in Hhb, Hbs. set (o := fillDefaults opts) in *.
  assert (HashBytes o = 8 \/ HashBytes o = 16 \/ HashBytes o = 20) as Hhb'.
  { destruct (decide (HashBytes o = 8)), (decide (HashBytes o = 16)), (decide (HashBytes o = 20)); tauto. }
  assert (0 < BlockSize o /\ Z.land (BlockSize o) (BlockSize o - 1) = 0) as Hbs'.
  { split; [lia|]. destruct (decide (Z.land (BlockSize o) (BlockSize o - 1) = 0)); tauto. }
  specialize (Hfit e He).
  destruct (newEncoder_stages env g o e env_procs He) as (tabs & rs & Hst).
  destruct (buildNodes_spec env g _ Henv (sg_nodes _ _ _ _ _ _ Hst)) as (ts & Hperm & Hts).
  destruct (DecodeGraph_encoded env g o e tabs rs ts Henv Hst Hfit Hhb' Hts zstd Hz Hbs' Hg)
    as (out & Hout & Hrun).
  eexists. split; [|eapply decoded_graph_equiv; eauto].
  unfold Decode. rewrite (open_encoded env g o e tabs rs ts Henv Hst Hfit Hhb' Hts zstd Hz Hbs').
  cbn [mbind res_bind].
  destruct (Hrun _ (coherent_fresh zstd _) eq_refl) as (-> & _). reflexivity.
Qed.

(** C1: TGB is lossless.  For every graph the encoder accepts -- with labels that
    do not start with their last colon, no target with two attributes of the
    same name, and within the reader's size limits -- the reader decodes the
    blob, and the decoded graph says what the graph with truncated hashes says:
    the same targets with the same labels, hashes (the empty cycle sentinel
    included), dependencies, rule types, tags, flags and attributes, and the same
    file hashes, whatever the number of processors, the order in which Go visits
    maps or sorts equal elements, and whatever the IDs were. *)
Theorem encode_decode_roundtrip (env : encode_env) (zstd : Z -> bytes -> res bytes)
  (g : Graph) (opts : EncodeOptions) (blob : bytes) :
  EncodeEnvOk env -> ZstdLaws (zstd_compress env) zstd -> graph_ok g ->
  Encode env g opts = Ok blob ->
  (forall e, newEncoder env g (fillDefaults opts) = Ok e -> fits env e) ->
  exists g', Decode zstd blob = Ok g' /\
    graph_equiv (TruncateHashes g (HashBytes (fillDefaults opts))) g'.
Proof. exact (decode_encoded env zstd g opts blob). Qed.

#[export] Instance toy_env_ok : EncodeEnvOk toy_env.
Proof.
  split; [cbn; lia|intros l; apply sort_func_perm|intros m; reflexivity].
Qed.

(** Two targets in nested packages, the second depending on the first. *)
Definition sample_graph : Graph :=
  {| Targets :=
       [ {| ot_ID := 2; ot_Hash := bs "00112233445566778899"; ot_DirectDependencies := [];
            ot_RuleType := 1; ot_Tags := [7; 5]; ot_Root := true; ot_External := false;
            ot_Attributes := {[ 1 := 4 ]} |};
         {| ot_ID := 1; ot_Hash := []; ot_DirectDependencies := [2];
            ot_RuleType := 3; ot_Tags := []; ot_Root := false; ot_External := true;
            ot_Attributes := ∅ |} ];
     Meta := {| TargetIDMapping := {[ 1 := bs "//a/b:x"; 2 := bs "//a:y" ]};
                RuleTypeMapping := {[ 1 := bs "go_library"; 3 := bs "go_test" ]};
                TagMapping := {[ 5 := bs "slow"; 7 := bs "manual" ]};
                AttributeNameMapping := {[ 1 := bs "size" ]};
                AttributeStringValueMapping := {[ 4 := bs "small" ]};
                AllTargetsFileHashes := {[ bs ".bazelrc" := bs "ab" ]} |} |}.

Definition sample_opts : EncodeOptions :=
  {| ZstdLevel := 0; HashBytes := 0; BlockSize := 0; Serial := false |}.

Definition sample_encoder : encoder :=
  match newEncoder toy_env sample_graph (fillDefaults sample_opts) with
  | Ok e => e
  | _ => {| e_opts := sample_opts; e_meta := Meta sample_graph; e_nodes := [];
            e_dicts := buildDicts toy_env (Meta sample_graph) []; e_columns := assemble [];
            e_blockStarts := []; e_blockDigests := [] |}
  end.

Lemma encode_decode_roundtrip_witness :
  exists blob g', Encode toy_env sample_graph sample_opts = Ok blob /\
    Decode toy_decompress blob = Ok g' /\ graph_equiv (TruncateHashes sample_graph 8) g'.
Proof.
  exists (write toy_env sample_encoder).
  assert (He : newEncoder toy_env sample_graph (fillDefaults sample_opts) = Ok sample_encoder)
    by (vm_compute; reflexivity).
  assert (Hb : Encode toy_env sample_graph sample_opts = Ok (write toy_env sample_encoder))
    by (vm_compute; reflexivity).
  destruct (encode_decode_roundtrip toy_env toy_decompress sample_graph sample_opts
              (write toy_env sample_encoder)) as (g' & Hd & Heq).
  - apply toy_env_ok.
  - apply toy_zstd_laws.
  - split.
    + intros t label Ht. repeat (apply elem_of_cons in Ht as [->|Ht]);
        [intros [= <-]; apply (bool_decide_unpack _); vm_compute; exact I..|].
      apply elem_of_nil in Ht. destruct Ht.
    + intros t Ht. repeat (apply elem_of_cons in Ht as [->|Ht]);
        [apply (bool_decide_unpack _); vm_compute; exact I..|].
      apply elem_of_nil in Ht. destruct Ht.
  - exact Hb.
  - intros e He'. rewrite He in He'. injection He' as <-. split.
    + vm_compute. reflexivity.
    + apply (bool_decide_unpack _). vm_compute. exact I.
    + vm_compute. discriminate.
    + vm_compute. reflexivity.
    + apply Forall_forall. intros d Hd. unfold all_dicts in Hd.
      repeat (apply elem_of_cons in Hd as [->|Hd];
        [split; [apply (bool_decide_unpack _); vm_compute; exact I|vm_compute; discriminate]|]).
      apply elem_of_nil in Hd. destruct Hd.
    + apply (bool_decide_unpack _). vm_compute. exact I.
  - exists g'. split; [exact Hb|]. split; [exact Hd|exact Heq].
Defined.
