(* ===== verification/EncodeAccepts.v ===== *)
(** Which graphs the encoder accepts: it refuses rather than drop anything. *)
From Stdlib Require Import ZArith Lia ZifyNat.
From S2P Require Import Prelude Varint Format Dict Columns Psort Entity Encode EncodeSpec Reader ReaderSafe ReaderCache Container RoundTripAux RoundTrip.

Local Open Scope Z_scope.

(** * Success of loops and lookups *)

Definition succeeds {A} (x : res A) : Prop := exists a, x = Ok a.

Lemma for_each_succeeds {A B} (f : A -> res B) i s :
  succeeds (for_each (fun _ => f) i s) <-> Forall (fun x => succeeds (f x)) s.
Proof.
  revert i. induction s as [|x s IH]; intros i; cbn [for_each].
  { split; [by constructor|by eexists]. }
  rewrite Forall_cons, <- (IH (i + 1)). split.
  - intros (ys & (y & Hy & (ys' & Hys & _)%bind_Ok)%bind_Ok). split; by eexists.
  - intros [(y & Hy) (ys & Hys)]. rewrite Hy. cbn. rewrite Hys. cbn. by eexists.
Qed.

(** Numbering the outputs and assembling them cannot fail. *)
Lemma for_each_pure_succeeds env g hb tabs nodes :
  succeeds (outs ← for_each (encode_node env g hb tabs) 0 nodes; Ok (assemble [outs])) <->
  succeeds (for_each (fun _ => resolve_node env g hb tabs) 0 nodes).
Proof.
  transitivity (succeeds (for_each (encode_node env g hb tabs) 0 nodes)).
  { split; [intros (c & (outs & -> & _)%bind_Ok); by eexists|intros [outs ->]; by eexists]. }
  generalize 0 at 1. generalize 0. induction nodes as [|nd nodes IH]; intros j i; cbn [for_each].
  { split; intros _; by eexists. }
  specialize (IH (j + 1) (i + 1)). unfold succeeds in *.
  change (encode_node env g hb tabs i nd) with
    (r ← resolve_node env g hb tabs nd; Ok (node_output i r)).
  destruct (resolve_node env g hb tabs nd) as [r| |]; cbn [mbind res_bind].
  2-3: by split; intros [? ?].
  split.
  - intros (x & (outs & Ho & _)%bind_Ok). destruct IH as [[ys ->] _]; by eexists.
  - intros (x & (outs & Ho & _)%bind_Ok). destruct IH as [_ [ys ->]]; by eexists.
Qed.

Lemma comma_ok_succeeds {A} (o : option A) m : succeeds (comma_ok o m) <-> is_Some o.
Proof. destruct o; cbn; split; intros [? H]; try done; by eexists. Qed.

Lemma remapTable_is_Some m idx id : is_Some (remapTable m idx !! id) <-> is_Some (m !! id).
Proof. unfold remapTable. by rewrite lookup_fmap, fmap_is_Some. Qed.

(** A hash the encoder stores: none, or an even number of hex digits for at
    least [hb] bytes. *)
Definition hash_ok (hb : Z) (h : bytes) : Prop :=
  h = [] \/ (zlen h mod 2 = 0 /\ hb <= zlen h / 2 /\
             forallb (fun c => bool_decide (is_Some (hexNibble c))) h = true).

#[export] Instance hash_ok_dec hb h : Decision (hash_ok hb h).
Proof. unfold hash_ok. apply _. Defined.

Lemma hexDecodeInto_succeeds hb h :
  0 <= hb -> succeeds (hexDecodeInto hb h) <->
    (zlen h mod 2 = 0 /\ hb <= zlen h / 2 /\
     forallb (fun c => bool_decide (is_Some (hexNibble c))) h = true).
Proof.
  intros Hhb. unfold hexDecodeInto. split.
  - intros (raw & H). apply bind_Ok in H as ([] & H1 & H). apply bind_Ok in H as ([] & H2 & H).
    apply bind_Ok in H as (dst & H3 & H). apply bind_Ok in H as ([] & H4 & _).
    apply guard_err_Ok in H1, H2, H4. apply bool_decide_eq_false in H1, H2.
    apply negb_false_iff in H4. apply dec_stable in H1.
    split; [done|]. split; [lia|].
    rewrite <- (take_drop (2 * Z.to_nat hb) h), forallb_app, H4.
    by rewrite (hex_pairs_valid _ _ _ H3).
  - intros (H1 & H2 & H3). guard_pass by (intros Hne; by apply Hne). guard_pass.
    assert (forallb (fun c => bool_decide (is_Some (hexNibble c))) (take (2 * Z.to_nat hb) h) = true /\
            forallb (fun c => bool_decide (is_Some (hexNibble c))) (drop (2 * Z.to_nat hb) h) = true)
      as [Ht Hd].
    { rewrite <- (take_drop (2 * Z.to_nat hb) h), forallb_app in H3. by apply andb_prop in H3. }
    destruct (hex_pairs_total (Nat.div (length h) 2) h) as [full Hfull]; [unfold zlen in H1; lia|done|].
    rewrite (hex_pairs_take _ (Z.to_nat hb) _ _ Hfull) by (unfold zlen in *; lia).
    cbn [mbind res_bind]. rewrite Hd. by eexists.
Qed.

Lemma encode_hash_succeeds hb h : 0 <= hb -> succeeds (encode_hash hb h) <-> hash_ok hb h.
Proof.
  intros Hhb. unfold encode_hash, hash_ok. destruct h as [|b h].
  { split; [by left|intros _; by eexists]. }
  rewrite <- hexDecodeInto_succeeds by done. split.
  - intros (x & (raw & Hraw & _)%bind_Ok). right. by eexists.
  - intros [?|(raw & Hraw)]; [done|]. rewrite Hraw. by eexists.
Qed.

(** * ID resolution is complete *)

Lemma max_orig_id_spec nodes m0 :
  let m := foldl (fun maxID n => if decide (maxID < ni_origID n) then ni_origID n else maxID) m0 nodes in
  m0 <= m /\ Forall (fun n => ni_origID n <= m) nodes /\
  (m = m0 \/ exists n, n ∈ nodes /\ ni_origID n = m).
Proof.
  revert m0. induction nodes as [|n nodes IH]; intros m0; cbn [foldl]; [split; [done|split; [constructor|by left]]|].
  destruct (IH (if decide (m0 < ni_origID n) then ni_origID n else m0)) as (H1 & H2 & H3).
  split; [case_decide; lia|]. split; [constructor; [case_decide; lia|done]|].
  destruct H3 as [H3|(n' & Hin & H3)]; [|right; exists n'; split; [by right|done]].
  rewrite H3. case_decide; [right; exists n; split; [left|done]|by left].
Qed.

Lemma id_slice_complete nodes i (s : list Z) id :
  0 <= i -> i + zlen nodes < 2^31 -> 0 <= id -> (Z.to_nat id < length s)%nat ->
  (exists nd, nd ∈ nodes /\ ni_origID nd = id) \/ (exists j, s !! Z.to_nat id = Some j /\ 0 <= j) ->
  exists j,
    (foldl (fun '(i, s) n =>
       (i + 1, if decide (0 <= ni_origID n) then <[Z.to_nat (ni_origID n) := i32 i]> s else s))
      (i, s) nodes).2 !! Z.to_nat id = Some j /\ 0 <= j.
Proof.
  revert i s. induction nodes as [|n nodes IH]; intros i s Hi Hlen Hid Hs H; cbn [foldl].
  { destruct H as [(nd & Hin & _)|H]; [by apply elem_of_nil in Hin|done]. }
  rewrite zlen_cons in Hlen. pose proof (zlen_nonneg nodes).
  apply IH; [lia|lia|done|by case_decide; rewrite ?length_insert|].
  destruct (decide (ni_origID n = id)) as [Heq|Hne].
  - right. rewrite decide_True by lia. rewrite Heq, list_lookup_insert_eq by done.
    exists (i32 i). rewrite i32_small by lia. auto.
  - destruct H as [(nd & [->|Hin]%elem_of_cons & Hnd)|(j & Hj & ?)]; [done|left; eauto|right].
    exists j. split; [|done]. case_decide; [|done]. by rewrite list_lookup_insert_ne by lia.
Qed.

Lemma id_map_complete nodes i (m : gmap Z Z) id :
  (exists nd, nd ∈ nodes /\ ni_origID nd = id) \/ is_Some (m !! id) ->
  is_Some ((foldl (fun '(i, m) n => (i + 1, <[ni_origID n := i32 i]> m)) (i, m) nodes).2 !! id).
Proof.
  revert i m. induction nodes as [|n nodes IH]; intros i m H; cbn [foldl].
  { destruct H as [(nd & Hin & _)|H]; [by apply elem_of_nil in Hin|done]. }
  apply IH. destruct (decide (ni_origID n = id)) as [->|Hne].
  - right. by rewrite lookup_insert_eq.
  - rewrite lookup_insert_ne by done.
    destruct H as [(nd & [->|Hin]%elem_of_cons & Hnd)|?]; [done|left; eauto|by right].
Qed.

(** With non-negative [int32] IDs, the table resolves exactly the IDs of the nodes. *)
Lemma id_table_complete nodes :
  zlen nodes <= 2^29 -> Forall (fun n => 0 <= ni_origID n < 2^31) nodes ->
  exists tab, build_id_table nodes = Ok tab /\
    forall id, is_Some (resolveID tab id) <-> exists nd, nd ∈ nodes /\ ni_origID nd = id.
Proof.
  intros Hlen Hids. unfold build_id_table.
  destruct (max_orig_id_spec nodes 0) as (Hm0 & Hle & _). fold (max_orig_id nodes) in *.
  pose proof (zlen_nonneg nodes).
  assert (forall tab, build_id_table nodes = Ok tab -> forall id,
    is_Some (resolveID tab id) -> exists nd, nd ∈ nodes /\ ni_origID nd = id) as Hsound.
  { intros tab Htab id [j Hj]. destruct (resolveID_spec nodes tab id j ltac:(lia) Htab Hj) as (_ & nd & Hnd & <-).
    exists nd. split; [by eapply list_elem_of_lookup_2|done]. }
  unfold build_id_table in Hsound. case_decide as Hdense.
  - rewrite (i32_small (max_orig_id nodes + 1)) in * by lia.
    destruct (decide (max_orig_id nodes + 1 < 0)); [lia|].
    eexists. split; [done|]. intros id. split; [by apply Hsound|].
    intros (nd & Hin & Hnd). rewrite Forall_forall in Hids, Hle.
    pose proof (Hids nd Hin). pose proof (Hle nd Hin). cbn [resolveID].
    rewrite decide_False by lia.
    destruct (id_slice_complete nodes 0 (replicate (Z.to_nat (max_orig_id nodes + 1)) (-1)) id)
      as (j & -> & Hj); [lia|lia|lia|rewrite length_replicate; lia|left; eauto|].
    rewrite decide_False by lia. by eexists.
  - eexists. split; [done|]. intros id. split; [by apply Hsound|].
    intros H'. cbn [resolveID]. apply id_map_complete. by left.
Qed.

(** * The encoder's domain *)

(** Everything a target refers to is defined, and its hash is well formed. *)
Record target_ok (g : Graph) (hb : Z) (t : OptimizedTarget) : Prop := {
  to_label : is_Some (TargetIDMapping (Meta g) !! ot_ID t);
  to_rt : is_Some (RuleTypeMapping (Meta g) !! ot_RuleType t);
  to_hash : hash_ok hb (ot_Hash t);
  to_deps : Forall (fun d => exists t', t' ∈ Targets g /\ ot_ID t' = d) (ot_DirectDependencies t);
  to_tags : Forall (fun d => is_Some (TagMapping (Meta g) !! d)) (ot_Tags t);
  to_attrs : map_Forall (fun k v => is_Some (AttributeNameMapping (Meta g) !! k) /\
                is_Some (AttributeStringValueMapping (Meta g) !! v)) (ot_Attributes t);
}.

Lemma buildNodes_succeeds env g :
  succeeds (buildNodes env g) <-> Forall (fun t => is_Some (TargetIDMapping (Meta g) !! ot_ID t)) (Targets g).
Proof.
  unfold buildNodes.
  assert (forall i ts, succeeds (for_each (build_node (Meta g)) i ts) <->
    Forall (fun t => is_Some (TargetIDMapping (Meta g) !! ot_ID t)) ts) as H.
  { intros i ts. revert i. induction ts as [|t ts IH]; intros i; cbn [for_each].
    { split; [by constructor|by eexists]. }
    rewrite Forall_cons, <- (IH (i + 1)). split.
    - intros (ys & (y & Hy & (ys' & Hys & _)%bind_Ok)%bind_Ok). split; [|by eexists].
      unfold build_node in Hy. apply bind_Ok in Hy as (l & Hl & _). apply comma_ok_Ok in Hl. by eexists.
    - intros [[l Hl] (ys & Hys)].
      assert (exists y, build_node (Meta g) i t = Ok y) as [y Hy].
      { unfold build_node. rewrite Hl. cbn. destruct (splitLabel l). by eexists. }
      rewrite Hy. cbn [mbind res_bind]. rewrite Hys. by eexists. }
  rewrite <- (H 0). split.
  - intros (x & (ys & Hys & _)%bind_Ok). by eexists.
  - intros (ys & ->). by eexists.
Qed.

Lemma Forall_attrs env g t :
  EncodeEnvOk env ->
  Forall (fun kv : Z * Z => is_Some (AttributeNameMapping (Meta g) !! kv.1) /\
                is_Some (AttributeStringValueMapping (Meta g) !! kv.2))
    (range_attrs env (ot_Attributes t)) <->
  map_Forall (fun k v => is_Some (AttributeNameMapping (Meta g) !! k) /\
                is_Some (AttributeStringValueMapping (Meta g) !! v)) (ot_Attributes t).
Proof.
  intros Henv. rewrite (env_range (ot_Attributes t)), Forall_forall. split.
  - intros H k v Hkv. apply (H (k, v)). by apply elem_of_map_to_list.
  - intros H [k v] Hin%elem_of_map_to_list. by apply (H k v).
Qed.

Lemma resolve_node_succeeds env g hb d nodes tabs nd t :
  EncodeEnvOk env -> 0 <= hb -> build_tables (Meta g) d nodes = Ok tabs -> node_of g nd t ->
  (forall id, is_Some (resolveID (t_ids tabs) id) <-> exists t', t' ∈ Targets g /\ ot_ID t' = id) ->
  succeeds (resolve_node env g hb tabs nd) <-> target_ok g hb t.
Proof.
  intros Henv Hhb Htabs (Hidx & Hpos & Hlab & _) Hres.
  unfold build_tables in Htabs. apply bind_Ok in Htabs as (ids & _ & [= <-]). cbn [t_ids] in Hres.
  unfold resolve_node. cbn [t_rt t_tag t_ids].
  rewrite <- (Z2Nat.id (ni_origIdx nd)) by done. rewrite index_lookup, Hidx. cbn [mbind res_bind].
  set (deps := for_each _ 0 (ot_DirectDependencies t)). set (tags := for_each _ 0 (ot_Tags t)).
  set (attrs := for_each _ 0 (range_attrs env _)).
  assert (succeeds deps <-> Forall (fun d => exists t', t' ∈ Targets g /\ ot_ID t' = d) (ot_DirectDependencies t)) as Hd.
  { unfold deps. rewrite for_each_succeeds. apply Forall_iff. intros id.
    by rewrite comma_ok_succeeds, Hres. }
  assert (succeeds tags <-> Forall (fun d => is_Some (TagMapping (Meta g) !! d)) (ot_Tags t)) as Ht.
  { unfold tags. rewrite for_each_succeeds. apply Forall_iff. intros id.
    by rewrite comma_ok_succeeds, remapTable_is_Some. }
  assert (succeeds attrs <-> map_Forall (fun k v => is_Some (AttributeNameMapping (Meta g) !! k) /\
                is_Some (AttributeStringValueMapping (Meta g) !! v)) (ot_Attributes t)) as Ha.
  { rewrite <- (Forall_attrs env g t Henv). unfold attrs, encode_attr. rewrite for_each_succeeds.
    apply Forall_iff. intros kv. cbn [t_an t_av]. split.
    - intros (x & (n & H1 & (v & H2 & _)%bind_Ok)%bind_Ok). apply comma_ok_Ok in H1, H2.
      split; eapply remapTable_is_Some; by eexists.
    - intros [H1 H2]. apply (remapTable_is_Some _ (buildStrIndex (e_attrNameDict d))) in H1 as [n ->].
      apply (remapTable_is_Some _ (buildStrIndex (e_attrValDict d))) in H2 as [v ->]. by eexists. }
  split.
  - intros (r & H). apply bind_Ok in H as (rt & Hrt & H). apply bind_Ok in H as ([h b] & Hh & H).
    apply bind_Ok in H as (x & Hx & H). apply bind_Ok in H as (y & Hy & H).
    apply bind_Ok in H as (z & Hz & _). apply comma_ok_Ok in Hrt.
    split; [by eexists|eapply remapTable_is_Some; by eexists|apply encode_hash_succeeds; [done|by eexists]
           |apply Hd; by eexists|apply Ht; by eexists|apply Ha; by eexists].
  - intros [_ Hrt Hh Hdd Htt Haa].
    apply (remapTable_is_Some _ (buildStrIndex (e_ruleTypeDict d))) in Hrt as [rt ->].
    apply encode_hash_succeeds in Hh as [[h b] ->]; [|done].
    apply Hd in Hdd as [x ->]. apply Ht in Htt as [y ->]. apply Ha in Haa as [z ->]. by eexists.
Qed.

(** * Property *)

Lemma buildColumns_succeeds env g hb d nodes ts :
  EncodeEnvOk env -> 0 <= hb -> zlen (Targets g) <= 2^29 ->
  Forall (fun t => 0 <= ot_ID t < 2^31) (Targets g) ->
  ts ≡ₚ Targets g -> Forall2 (node_of g) nodes ts ->
  succeeds (buildColumns env g hb nodes d) <-> Forall (target_ok g hb) (Targets g).
Proof.
  intros Henv Hhb Hlen Hids Hperm HF. rewrite buildColumns_sequential by apply Henv.
  destruct (id_table_complete nodes) as (ids & Hids' & Hres).
  { apply Forall2_length in HF. unfold zlen in *. by rewrite HF, Hperm. }
  { rewrite <- Hperm in Hids. clear -HF Hids. induction HF as [|nd t nodes ts Hnd HF IH]; [done|].
    apply Forall_cons in Hids as [Ht Hts]. constructor; [|by apply IH].
    destruct Hnd as (_ & _ & _ & _ & ->). done. }
  assert (forall id, is_Some (resolveID ids id) <-> exists t', t' ∈ Targets g /\ ot_ID t' = id) as Hres'.
  { intros id. rewrite Hres. clear -HF Hperm. split.
    - intros (nd & [k Hk]%list_elem_of_lookup_1 & <-).
      destruct (Forall2_lookup_l _ _ _ _ _ HF Hk) as (t & Ht & Hnd). exists t.
      split; [rewrite <- Hperm; by eapply list_elem_of_lookup_2|by destruct Hnd as (_ & _ & _ & _ & ->)].
    - intros (t & Ht & <-). rewrite <- Hperm in Ht. apply list_elem_of_lookup_1 in Ht as [k Hk].
      destruct (Forall2_lookup_r _ _ _ _ _ HF Hk) as (nd & Hnd & Hof). exists nd.
      split; [by eapply list_elem_of_lookup_2|by destruct Hof as (_ & _ & _ & _ & ->)]. }
  assert (build_tables (Meta g) d nodes = Ok {| t_nameIdx := buildStrIndex (e_nameDict d);
        t_rt := remapTable (RuleTypeMapping (Meta g)) (buildStrIndex (e_ruleTypeDict d));
        t_tag := remapTable (TagMapping (Meta g)) (buildStrIndex (e_tagDict d));
        t_an := remapTable (AttributeNameMapping (Meta g)) (buildStrIndex (e_attrNameDict d));
        t_av := remapTable (AttributeStringValueMapping (Meta g)) (buildStrIndex (e_attrValDict d));
        t_ids := ids |}) as Htabs by (unfold build_tables; by rewrite Hids').
  rewrite Htabs. cbn [mbind res_bind]. set (tabs := {| t_nameIdx := _ |}) in *.
  transitivity (succeeds (for_each (fun _ => resolve_node env g hb tabs) 0 nodes)).
  { apply for_each_pure_succeeds. }
  rewrite for_each_succeeds, <- Hperm. clear Hlen Hids.
  assert (forall nd t, node_of g nd t ->
    succeeds (resolve_node env g hb tabs nd) <-> target_ok g hb t) as Hiff
    by (intros nd t Hof; by eapply resolve_node_succeeds).
  clear -HF Hiff. induction HF as [|nd t nodes ts Hnd _ IH]; [done|].
  by rewrite !Forall_cons, IH, (Hiff nd t).
Qed.

Lemma newEncoder_succeeds env g opts :
  EncodeEnvOk env -> 0 <= HashBytes opts -> zlen (Targets g) <= 2^29 ->
  Forall (fun t => 0 <= ot_ID t < 2^31) (Targets g) ->
  succeeds (newEncoder env g opts) <-> Forall (target_ok g (HashBytes opts)) (Targets g).
Proof.
  intros Henv Hhb Hlen Hids. unfold newEncoder. split.
  - intros (e & (nodes & Hn & (c & Hc & _)%bind_Ok)%bind_Ok).
    destruct (buildNodes_spec env g nodes Henv Hn) as (ts & Hperm & HF).
    eapply (buildColumns_succeeds env g _ (buildDicts env (Meta g) nodes)); [done..|]. by eexists.
  - intros Hok. assert (succeeds (buildNodes env g)) as [nodes Hn].
    { apply buildNodes_succeeds. eapply Forall_impl; [exact Hok|]. by intros t []. }
    rewrite Hn. cbn [mbind res_bind].
    destruct (buildNodes_spec env g nodes Henv Hn) as (ts & Hperm & HF).
    eapply (buildColumns_succeeds env g _ (buildDicts env (Meta g) nodes)) in Hok as [c ->]; [|done..].
    cbn [mbind res_bind]. destruct (buildBlocks _ _ _). by eexists.
Qed.

(** The options [Encode] accepts: a hash width of 8, 16 or 20 bytes and a power
    of two nodes per block, zero standing for the defaults 8 and 512. *)
Definition opts_ok (opts : EncodeOptions) : Prop :=
  (HashBytes opts = 0 \/ HashBytes opts = 8 \/ HashBytes opts = 16 \/ HashBytes opts = 20) /\
  (BlockSize opts = 0 \/ 0 < BlockSize opts /\ Z.land (BlockSize opts) (BlockSize opts - 1) = 0).

Lemma opts_ok_spec opts :
  opts_ok opts <->
  bool_decide (HashBytes (fillDefaults opts) <> 8 /\ HashBytes (fillDefaults opts) <> 16 /\
               HashBytes (fillDefaults opts) <> 20) = false /\
  bool_decide (BlockSize (fillDefaults opts) <= 0 \/
    Z.land (BlockSize (fillDefaults opts)) (BlockSize (fillDefaults opts) - 1) <> 0) = false.
Proof.
  unfold opts_ok, fillDefaults; cbn. rewrite !bool_decide_eq_false.
  destruct (decide (HashBytes opts = 0)) as [->|]; destruct (decide (BlockSize opts = 0)) as [->|];
    cbn; change (Z.land 512 (512 - 1)) with 0; lia.
Qed.

(** C40: [Encode] accepts exactly the graphs whose options are valid and in which every
    target has a label, a rule type, a hash of the right shape, and dependencies,
    tags and attributes that are defined: nothing dangling is dropped or
    renumbered, whatever the number of processors and the sort and range orders. *)
Theorem Encode_accepts (env : encode_env) (g : Graph) (opts : EncodeOptions) :
  EncodeEnvOk env -> zlen (Targets g) <= 2^29 ->
  Forall (fun t => 0 <= ot_ID t < 2^31) (Targets g) ->
  succeeds (Encode env g opts) <->
    opts_ok opts /\ Forall (target_ok g (HashBytes (fillDefaults opts))) (Targets g).
Proof.
  intros Henv Hlen Hids. rewrite opts_ok_spec. unfold Encode, succeeds.
  destruct (bool_decide (HashBytes _ <> 8 /\ _)) eqn:E1; cbn [guard_err mbind res_bind].
  { split; [by intros (? & ?)|by intros [[? _] _]]. }
  destruct (bool_decide (BlockSize _ <= 0 \/ _)) eqn:E2; cbn [guard_err mbind res_bind].
  { split; [by intros (? & ?)|by intros [[_ ?] _]]. }
  apply bool_decide_eq_false in E1. set (hb := HashBytes (fillDefaults opts)) in *.
  assert (0 <= hb) as Hhb by lia. transitivity (succeeds (newEncoder env g (fillDefaults opts))).
  { unfold succeeds. split; [intros (b & (e & He & _)%bind_Ok); by eexists|].
    intros (e & ->). by eexists. }
  rewrite newEncoder_succeeds by done. tauto.
Qed.

(** The sample graph is accepted; with its second target removed, the first one's
    dependency dangles and the graph is refused. *)
Definition dangling_graph : Graph :=
  {| Targets := drop 1 (Targets sample_graph); Meta := Meta sample_graph |}.

Lemma Encode_accepts_witness :
  Forall (target_ok sample_graph 8) (Targets sample_graph) /\
  ~ succeeds (Encode toy_env dangling_graph sample_opts).
Proof.
  assert (Hs : succeeds (Encode toy_env sample_graph sample_opts)).
  { exists (write toy_env sample_encoder). vm_compute. reflexivity. }
  split.
  - apply (Encode_accepts toy_env sample_graph sample_opts).
    + apply toy_env_ok.
    + vm_compute. discriminate.
    + apply (bool_decide_unpack _). vm_compute. exact I.
    + exact Hs.
  - intros Hd. apply (Encode_accepts toy_env dangling_graph sample_opts) in Hd as [_ Hd].
    + inversion_clear Hd as [|t ts Ht _]. destruct Ht as [_ _ _ Hdeps _ _].
      inversion_clear Hdeps as [|d ds Hex _]. destruct Hex as (t' & Hin & Hid).
      apply list_elem_of_singleton in Hin as ->. vm_compute in Hid. discriminate Hid.
    + apply toy_env_ok.
    + vm_compute. discriminate.
    + apply (bool_decide_unpack _). vm_compute. exact I.
Defined.

Lemma buildColumns_sharding_witness :
  exists nodes, buildNodes toy_env sample_graph = Ok nodes /\
    buildColumns toy_env sample_graph 8 nodes (buildDicts toy_env (Meta sample_graph) nodes) =
      Ok (e_columns sample_encoder).
Proof.
  eexists. split; [vm_compute; reflexivity|].
  rewrite (proj1 (buildColumns_sharding toy_env sample_graph 8 _ _ ltac:(cbn; lia))).
  vm_compute. reflexivity.
Defined.
