(* ===== verification/Bfs.v ===== *)
(** The breadth-first search that both comparisons run from the seed targets
    ([internal/targetdiff/compare.go], [internal/tgbdiff/compare.go]), and why its
    distances are the shortest ones. *)
From Stdlib Require Import ZArith Lia.
From stdpp Require Import gmap fin_maps sorting.
From S2P Require Import Prelude.

Local Open Scope Z_scope.

(** What a call returns that finds its context done. *)
Definition cancelled_err : string := "context canceled".

(** [if i%4096 == 0 { if ctx.Err() != nil { return context.Cause(ctx) } }]: [ctx i]
    says whether the context is done when it is polled at iteration [i]. *)
Definition _cancelCheckInteral : Z := 4096.
Definition poll (ctx : Z -> bool) (i : Z) : res unit :=
  if decide (i mod _cancelCheckInteral = 0) then guard_err (ctx i) cancelled_err else Ok ().

(** ** Results of a run that polls

    [ctx s i] says whether the context is done when place [s] polls it for the [i]-th
    time. *)
Section unless_done.
Context {S : Type} (ctx : S -> Z -> bool).

(** The context was found done. *)
Definition observed_done : Prop := exists s i, ctx s i = true.

(** [x] is a result with the property [P], unless the context was found done. *)
Definition unless_done {A} (x : res A) (P : A -> Prop) : Prop :=
  (x = Err cancelled_err /\ observed_done) \/ exists a, x = Ok a /\ P a.

Lemma unless_done_ok {A} (a : A) (P : A -> Prop) : P a -> unless_done (Ok a) P.
Proof. intros H. right. by exists a. Qed.

Lemma unless_done_bind {A B} (x : res A) (f : A -> res B) P Q :
  unless_done x P -> (forall a, P a -> unless_done (f a) Q) -> unless_done (x ≫= f) Q.
Proof. intros [[-> H]|(a & -> & Ha)] Hf; [by left|]. cbn. by apply Hf. Qed.

Lemma unless_done_mono {A} (x : res A) (P Q : A -> Prop) :
  unless_done x P -> (forall a, P a -> Q a) -> unless_done x Q.
Proof. intros [?|(a & ? & ?)] HPQ; [by left|right; eauto]. Qed.

Lemma unless_done_guard s i : unless_done (guard_err (ctx s i) cancelled_err) (fun _ => True).
Proof.
  destruct (ctx s i) eqn:E; [left; split; [done|by exists s, i]|right; by exists ()].
Qed.

Lemma unless_done_poll s i : unless_done (poll (ctx s) i) (fun _ => True).
Proof. unfold poll. case_decide; [apply unless_done_guard|by apply unless_done_ok]. Qed.
End unless_done.

Section bfs.
Context `{Countable V}.
(** The reverse neighbours of a node; reading them may panic. *)
Context (dependents : V -> res (list V)).
(** Which nodes the search may enter. *)
Context (enter : V -> bool).
Context (maxDistance : Z) (ctx : Z -> bool).

(** The loop over the neighbours: a node is visited when it has a distance.
    Returns the distances and the nodes appended to the queue. *)
Fixpoint visit (distance : Z) (ns : list V) (dist : gmap V Z) : gmap V Z * list V :=
  match ns with
  | [] => (dist, [])
  | n :: ns =>
      if decide (is_Some (dist !! n)) then visit distance ns dist
      else if negb (enter n) then visit distance ns dist
      else if decide (0 <= maxDistance /\ maxDistance < distance) then visit distance ns dist
      else
        let '(dist, pushed) := visit distance ns (<[n := distance]> dist) in
        (dist, n :: pushed)
  end.

(** Each iteration takes one node from the queue and every node enters it at most
    once, so the number of nodes bounds the iterations. *)
Fixpoint bfs_loop (fuel : nat) (i : Z) (queue : list V) (dist : gmap V Z) : res (gmap V Z) :=
  match queue, fuel with
  | [], _ | _, O => Ok dist
  | current :: queue, S fuel =>
      _ ← poll ctx i;
      ns ← dependents current;
      let '(dist, pushed) := visit (i32 (default 0 (dist !! current) + 1)) ns dist in
      bfs_loop fuel (i + 1) (queue ++ pushed) dist
  end.

Lemma poll_cases i : (poll ctx i = Err cancelled_err /\ exists j, ctx j = true) \/ poll ctx i = Ok ().
Proof.
  unfold poll. case_decide; [|by right]. destruct (ctx i) eqn:Hc; [left; eauto|by right].
Qed.

(** * Shortest distances *)

Definition edge (u v : V) : Prop :=
  exists ns, dependents u = Ok ns /\ v ∈ ns /\ enter v = true.

Inductive reach (seeds : V -> Prop) : Z -> V -> Prop :=
  | reach_seed v : seeds v -> reach seeds 0 v
  | reach_step k u v : reach seeds k u -> edge u v -> reach seeds (k + 1) v.

(** [d] is the length of a shortest path to [v], and within the limit. *)
Definition shortest (seeds : V -> Prop) (v : V) (d : Z) : Prop :=
  reach seeds d v /\ (forall k, reach seeds k v -> d <= k) /\ (0 <= maxDistance -> d <= maxDistance).

(** [dist] holds the shortest distances of the nodes within the limit, and of no
    others. *)
Definition shortest_dists (seeds : V -> Prop) (dist : gmap V Z) : Prop :=
  (forall v d, dist !! v = Some d -> shortest seeds v d) /\
  (forall k v, reach seeds k v -> (0 <= maxDistance -> k <= maxDistance) -> is_Some (dist !! v)).

Lemma reach_nonneg seeds k v : reach seeds k v -> 0 <= k.
Proof. induction 1; lia. Qed.

Lemma visit_spec distance ns dist dist' pushed :
  visit distance ns dist = (dist', pushed) ->
  (forall v, v ∈ pushed <-> v ∈ ns /\ dist !! v = None /\ enter v = true /\
     (0 <= maxDistance -> distance <= maxDistance)) /\
  (forall v, dist' !! v = if decide (v ∈ pushed) then Some distance else dist !! v) /\
  size dist' = (size dist + length pushed)%nat.
Proof.
  revert dist dist' pushed. induction ns as [|n ns IH]; intros dist dist' pushed; cbn [visit].
  { intros [= <- <-]. split; [|split].
    - intros v. rewrite elem_of_nil. naive_solver.
    - intros v. rewrite decide_False; [done|apply not_elem_of_nil].
    - cbn. lia. }
  assert (forall c : Prop, ~ c ->
    (c <-> dist !! n = None /\ enter n = true /\ (0 <= maxDistance -> distance <= maxDistance)) ->
    visit distance ns dist = (dist', pushed) ->
    (forall v, v ∈ pushed <-> v ∈ n :: ns /\ dist !! v = None /\ enter v = true /\
       (0 <= maxDistance -> distance <= maxDistance)) /\
    (forall v, dist' !! v = if decide (v ∈ pushed) then Some distance else dist !! v) /\
    size dist' = (size dist + length pushed)%nat) as Hskip.
  { intros c Hc Hiff Hv. destruct (IH _ _ _ Hv) as (H1 & H2 & H3).
    split; [|done]. intros v. rewrite H1, elem_of_cons.
    split; [naive_solver|]. intros ([->|?] & ?); [|done]. exfalso. by apply Hc, Hiff. }
  destruct (decide (is_Some (dist !! n))) as [[x Hx]|Hn].
  { apply (Hskip False); [tauto|]. split; [done|]. intros [? _]. congruence. }
  apply eq_None_not_Some in Hn.
  destruct (enter n) eqn:En; cbn [negb]; [|apply (Hskip False); [tauto|]; naive_solver].
  destruct (decide _) as [Hm|Hm].
  { apply (Hskip False); [tauto|]. split; [done|]. intros (_ & _ & ?). lia. }
  destruct (visit distance ns (<[n := distance]> dist)) as [dist1 pushed1] eqn:Hv.
  intros [= <- <-]. destruct (IH _ _ _ Hv) as (H1 & H2 & H3). split; [|split].
  - intros v. rewrite !elem_of_cons, H1. destruct (decide (v = n)) as [->|Hne].
    + split; [|by left]. intros _. split; [by left|]. split_and!; [done..|lia].
    + rewrite lookup_insert_ne by done. naive_solver.
  - intros v. rewrite H2. destruct (decide (v = n)) as [->|Hne].
    + rewrite lookup_insert_eq. destruct (decide (n ∈ n :: pushed1)) as [|Hn1]; [by case_decide|].
      destruct Hn1. by left.
    + rewrite lookup_insert_ne by done.
      destruct (decide (v ∈ pushed1)), (decide (v ∈ n :: pushed1)); set_solver.
  - rewrite H3, map_size_insert_None by done. cbn. lia.
Qed.

(** * The invariant of the loop *)

Section run.
Context (seeds : V -> Prop) (U : gset V).
Context (dependents_total : forall u, u ∈ U -> exists ns, dependents u = Ok ns /\
  forall v, v ∈ ns -> enter v = true -> v ∈ U).
Context (U_small : Z.of_nat (size U) < 2^31).

(** The distances are those of paths; the queue is sorted by distance and no
    distance exceeds its head's by more than one; and nodes that have left the
    queue have passed their distance on. *)
Record bfs_inv (queue : list V) (dist : gmap V Z) : Prop := {
  inv_queue : forall v, v ∈ queue -> is_Some (dist !! v);
  inv_dom : dom dist ⊆ U;
  inv_sound : forall v d, dist !! v = Some d ->
    reach seeds d v /\ d < Z.of_nat (size dist) /\ (0 <= maxDistance -> d <= maxDistance);
  inv_seeds : forall v, seeds v -> dist !! v = Some 0;
  inv_sorted : StronglySorted Z.le ((fun v => default 0 (dist !! v)) <$> queue);
  inv_head : forall h t v d, queue = h :: t -> dist !! v = Some d -> d <= default 0 (dist !! h) + 1;
  inv_done : forall v d w, dist !! v = Some d -> v ∉ queue -> edge v w ->
    (0 <= maxDistance -> d + 1 <= maxDistance) -> exists d', dist !! w = Some d' /\ d' <= d + 1;
}.

Lemma sorted_app_repeat (l : list Z) (m : list Z) c :
  StronglySorted Z.le l -> Forall (fun x => x <= c) l -> Forall (fun x => x = c) m ->
  StronglySorted Z.le (l ++ m).
Proof.
  intros Hl Hc Hm. induction Hl as [|x l Hl IH Hx]; cbn [app].
  - clear Hc. induction Hm as [|x m -> Hm IH]; [constructor|]. constructor; [done|].
    eapply Forall_impl; [exact Hm|]. cbn; intros; lia.
  - apply Forall_cons in Hc as [Hxc Hc]. constructor; [by apply IH|]. apply Forall_app. split; [done|].
    eapply Forall_impl; [exact Hm|]. cbn. intros; lia.
Qed.

(** What is pushed leaves the unvisited nodes. *)
Lemma unvisited_size (D : gset V) (pushed : list V) : D ⊆ U -> (forall v, v ∈ pushed -> v ∈ U) ->
  size (D ∪ list_to_set pushed) = (size D + length pushed)%nat ->
  size (U ∖ D) = (size (U ∖ (D ∪ list_to_set pushed)) + length pushed)%nat.
Proof.
  intros HD Hp Hs. assert (D ∪ list_to_set pushed ⊆ U) as Hsub.
  { apply union_subseteq. split; [done|]. intros v. rewrite elem_of_list_to_set. apply Hp. }
  pose proof (subseteq_size _ _ Hsub). rewrite !size_difference by done. lia.
Qed.

(** The queue stays sorted by distance when nodes of the largest distance are pushed. *)
Lemma pushed_sorted (dist dist' : gmap V Z) (queue pushed : list V) c :
  StronglySorted Z.le ((fun v => default 0 (dist !! v)) <$> queue) ->
  (forall v d, dist !! v = Some d -> dist' !! v = Some d) -> (forall v, v ∈ pushed -> dist' !! v = Some c) ->
  (forall v d, dist' !! v = Some d -> d <= c) -> (forall v, v ∈ queue -> is_Some (dist !! v)) ->
  StronglySorted Z.le (((fun v => default 0 (dist' !! v)) <$> queue) ++ ((fun v => default 0 (dist' !! v)) <$> pushed)).
Proof.
  intros Hs Hkeep Hnew Hbound Hq.
  assert (((fun v => default 0 (dist' !! v)) <$> queue) = ((fun v => default 0 (dist !! v)) <$> queue)) as ->.
  { apply list_fmap_ext. intros k v Hk. destruct (Hq v) as [d Hd]; [by eapply list_elem_of_lookup_2|]. by rewrite Hd, (Hkeep v d Hd). }
  apply (sorted_app_repeat _ _ c); [done|apply Forall_fmap, Forall_forall..]; intros v Hv; cbn; [|by rewrite Hnew].
  destruct (Hq v Hv) as [d Hd]. rewrite Hd. cbn. eauto.
Qed.

Lemma bfs_step current queue dist ns dist' pushed :
  bfs_inv (current :: queue) dist -> dependents current = Ok ns ->
  visit (i32 (default 0 (dist !! current) + 1)) ns dist = (dist', pushed) ->
  bfs_inv (queue ++ pushed) dist' /\
  (length (queue ++ pushed) + size (U ∖ dom dist') < length (current :: queue) + size (U ∖ dom dist))%nat.
Proof.
  intros [Hq HU Hsound Hseeds Hsorted Hhead Hdone] Hns Hv.
  destruct (Hq current) as [dc Hdc]; [by left|]. rewrite Hdc in Hv.
  destruct (Hsound current dc Hdc) as (Hrc & Hsz & Hmax). pose proof (reach_nonneg _ _ _ Hrc) as Hdc0.
  assert (size dist <= size U)%nat as Hle.
  { rewrite <- size_dom. by apply subseteq_size. }
  change (default 0 (Some dc)) with dc in Hv. rewrite i32_small in Hv by lia.
  destruct (visit_spec _ _ _ _ _ Hv) as (Hp & Hd' & Hsize).
  destruct (dependents_total current) as (ns' & Hns' & Hin).
  { apply HU. by apply elem_of_dom. }
  rewrite Hns in Hns'. injection Hns' as <-.
  assert (forall v d, dist !! v = Some d -> v ∉ pushed) as Hfresh.
  { intros v d Hd Hpv. apply Hp in Hpv as (_ & Hn & _). congruence. }
  assert (forall v d, dist !! v = Some d -> dist' !! v = Some d) as Hkeep.
  { intros v d Hd. rewrite Hd', decide_False; eauto. }
  assert (forall v, v ∈ pushed -> dist' !! v = Some (dc + 1)) as Hnew.
  { intros v Hpv. by rewrite Hd', decide_True. }
  assert (forall v d, dist' !! v = Some d -> dist !! v = Some d \/ v ∈ pushed /\ d = dc + 1) as Hinv.
  { intros v d. rewrite Hd'. case_decide; [|by left]. intros [= <-]. by right. }
  assert (forall v d, dist' !! v = Some d -> d <= dc + 1) as Hbound.
  { intros v d [Hd|[_ ->]]%Hinv; [|lia].
    specialize (Hhead current queue v d eq_refl Hd). rewrite Hdc in Hhead. done. }
  assert (dom dist' = dom dist ∪ list_to_set pushed) as Hdom.
  { apply set_eq. intros v. rewrite elem_of_union, elem_of_list_to_set, !elem_of_dom, Hd'.
    case_decide; [split; eauto|]. split; [by left|]. by intros [?|?]. }
  split; [split|].
  - intros v [Hvq|Hvp]%elem_of_app; [|eauto]. destruct (Hq v) as [d Hd]; [by right|]. eauto.
  - rewrite Hdom. apply union_subseteq. split; [done|]. intros v.
    rewrite elem_of_list_to_set. intros (Hvn & _ & He & _)%Hp. eauto.
  - rewrite Hsize. intros v d [Hd|[Hvp ->]]%Hinv.
    + destruct (Hsound v d Hd) as (? & ? & ?). split_and!; [done|lia|done].
    + pose proof (proj1 (Hp v) Hvp) as (Hvn & _ & He & Hm). split_and!.
      * apply (reach_step _ _ current); [done|]. by exists ns.
      * apply list_elem_of_split in Hvp as (p1 & p2 & ->). rewrite length_app. cbn. lia.
      * done.
  - eauto.
  - rewrite fmap_app. apply (pushed_sorted dist dist' queue pushed (dc + 1)); [by inversion_clear Hsorted|by eauto..|intros v Hvq; apply Hq; by right].
  - intros h t v d Hht Hd. transitivity (dc + 1); [eauto|].
    destruct queue as [|h' queue]; cbn in Hht.
    + assert (h ∈ pushed) as Hh by (rewrite Hht; by left). rewrite (Hnew h Hh). cbn. lia.
    + injection Hht as -> _. destruct (Hq h) as [dh Hdh]; [right; by left|].
      rewrite (Hkeep h dh Hdh). cbn. inversion_clear Hsorted as [|? ? _ Hall].
      cbn [fmap list_fmap] in Hall. rewrite Hdc, Hdh in Hall. apply Forall_cons in Hall as [Hch _]. cbn in Hch. lia.
  - intros v d w Hd Hvq Hedge Hm. rewrite not_elem_of_app in Hvq. destruct Hvq as [Hvq Hvp].
    destruct (Hinv v d Hd) as [Hd0|[? _]]; [|done]. destruct (decide (v = current)) as [->|Hne].
    + assert (d = dc) as -> by congruence. destruct Hedge as (ns' & Hns' & Hwn & He).
      rewrite Hns in Hns'. injection Hns' as <-. destruct (decide (w ∈ pushed)) as [Hw|Hw].
      * exists (dc + 1). split; [by apply Hnew|lia].
      * destruct (dist !! w) as [dw|] eqn:Hdw.
        -- exists dw. split; [eauto|]. eapply Hbound. eauto.
        -- exfalso. apply Hw, Hp. done.
    + destruct (Hdone v d w Hd0) as (d' & ? & ?); [|done..|eauto].
      rewrite not_elem_of_cons. done.
  - rewrite Hdom. cbn [length]. rewrite length_app.
    assert (size (U ∖ dom dist) = size (U ∖ (dom dist ∪ list_to_set pushed)) + length pushed)%nat as ->; [|lia].
    apply unvisited_size; [done| |by rewrite <- Hdom, !size_dom]. intros v (Hvn & _ & He & _)%Hp. eauto.
Qed.

Lemma bfs_inv_done dist :
  bfs_inv [] dist -> shortest_dists seeds dist.
Proof.
  intros [_ _ Hsound Hseeds _ _ Hdone].
  assert (forall k v, reach seeds k v -> (0 <= maxDistance -> k <= maxDistance) ->
    exists d, dist !! v = Some d /\ d <= k) as Hcomplete.
  { intros k v Hr. induction Hr as [v Hs|k u v Hr IH He]; intros Hm.
    - exists 0. split; [by apply Hseeds|done].
    - destruct IH as (d & Hd & Hle); [lia|].
      destruct (Hdone u d v Hd) as (d' & ? & ?); [apply not_elem_of_nil|done|lia|].
      exists d'. split; [done|lia]. }
  split.
  - intros v d Hd. destruct (Hsound v d Hd) as (Hr & _ & Hm). split_and!; [done| |done].
    intros k Hk. destruct (decide (d <= k)); [done|].
    destruct (Hcomplete k v Hk) as (d' & Hd' & ?); [lia|]. rewrite Hd in Hd'. injection Hd' as <-. done.
  - intros k v Hr Hm. destruct (Hcomplete k v Hr Hm) as (d & Hd & _). by exists d.
Qed.

Lemma bfs_loop_spec fuel i queue dist :
  bfs_inv queue dist -> (length queue + size (U ∖ dom dist) <= fuel)%nat ->
  (bfs_loop fuel i queue dist = Err cancelled_err /\ exists j, ctx j = true) \/
  exists dist', bfs_loop fuel i queue dist = Ok dist' /\
    shortest_dists seeds dist'.
Proof.
  revert i queue dist. induction fuel as [|fuel IH]; intros i queue dist Hinv Hf.
  { destruct queue; cbn in Hf; [|lia]. right. exists dist. split; [done|by apply bfs_inv_done]. }
  destruct queue as [|current queue].
  { right. exists dist. split; [done|by apply bfs_inv_done]. }
  cbn [bfs_loop]. destruct (poll_cases i) as [[-> Hc]| ->]; [by left|].
  cbn [mbind res_bind].
  destruct (inv_queue _ _ Hinv current) as [dc Hdc]; [by left|].
  destruct (dependents_total current) as (ns & Hns & _).
  { apply (inv_dom _ _ Hinv), elem_of_dom. eauto. }
  rewrite Hns. cbn [mbind res_bind]. destruct (visit _ ns dist) as [dist' pushed] eqn:Hv.
  destruct (bfs_step current queue dist ns dist' pushed Hinv Hns Hv) as [Hinv' Hdec].
  apply IH; [done|lia].
Qed.

(** Started from the seeds, the search finds exactly the shortest distances within
    the limit, unless the context is found done. *)
Lemma bfs_correct fuel i queue dist :
  (forall v, seeds v <-> v ∈ queue) -> (forall v, dist !! v = if decide (v ∈ queue) then Some 0 else None) ->
  list_to_set queue ⊆ U -> (length queue + size U <= fuel)%nat ->
  (bfs_loop fuel i queue dist = Err cancelled_err /\ exists j, ctx j = true) \/
  exists dist', bfs_loop fuel i queue dist = Ok dist' /\
    shortest_dists seeds dist'.
Proof.
  intros Hs Hd HU Hf. apply bfs_loop_spec; [split|].
  - intros v Hv. rewrite Hd, decide_True by done. by eexists.
  - intros v [d Hv]%elem_of_dom. apply HU, elem_of_list_to_set. rewrite Hd in Hv. by case_decide.
  - intros v d Hv. assert (0 < size dist)%nat.
    { rewrite <- size_dom. assert (v ∈ dom dist) as Hin by (by apply elem_of_dom).
      destruct (size (dom dist)) eqn:E; [|lia]. apply size_empty_inv in E. set_solver. }
    rewrite Hd in Hv. case_decide as Hq; [|done]. injection Hv as <-.
    split_and!; [constructor; by apply Hs|lia|done].
  - intros v Hv%Hs. by rewrite Hd, decide_True.
  - assert (Forall (fun x => x = 0) ((fun v => default 0 (dist !! v)) <$> queue)) as H0.
    { apply Forall_fmap, Forall_forall. intros v Hv. cbn. by rewrite Hd, decide_True. }
    induction H0 as [|x l -> Hl IH]; constructor; [done|]. eapply Forall_impl; [done|]. cbn; intros; lia.
  - intros h t v d -> Hv. rewrite Hd in Hv. case_decide; [|done]. injection Hv as <-.
    rewrite Hd, decide_True by by left. change (0 <= 0 + 1). lia.
  - intros v d w Hv Hq. rewrite Hd, decide_False in Hv by done. done.
  - pose proof (subseteq_size (U ∖ dom dist) U ltac:(set_solver)). lia.
Qed.
End run.
End bfs.
