(* ===== verification/TargetDiff.v ===== *)
(** The comparison of two semantic target graphs ([internal/targetdiff/compare.go]),
    the reference of the TGB-native one: which targets changed, which changes are
    direct, and how far the others are from a direct one. *)
From Stdlib Require Import ZArith Lia.
From stdpp Require Import gmap fin_maps.
From S2P Require Import Prelude Bfs.

Local Open Scope Z_scope.

(** * Data *)

Definition _sourceFileRuleType : bytes := bs "source file".

Record Target := {
  tg_Name : bytes;
  tg_Hash : bytes;
  tg_RuleType : bytes;
  tg_Dependencies : list bytes;
  tg_Tags : list bytes;
  tg_Attributes : gmap bytes bytes;
  tg_Root : bool;
  tg_External : bool;
}.

#[export] Instance Target_eq_dec : EqDecision Target.
Proof. solve_decision. Defined.

(** Targets by name; no pointer of a graph is nil. *)
Abbreviation Graph := (gmap bytes Target).

Inductive ChangeType :=
  | ChangeTypeInvalid | ChangeTypeNew | ChangeTypeDeleted | ChangeTypeChanged.

#[export] Instance ChangeType_eq_dec : EqDecision ChangeType.
Proof. solve_decision. Defined.

Record ChangedTarget := {
  td_ChangeType : ChangeType;
  td_Before : option Target;
  td_After : option Target;
  td_Distance : Z;
}.

#[export] Instance ChangedTarget_eq_dec : EqDecision ChangedTarget.
Proof. solve_decision. Defined.

Record Request := { Before : Graph; After : Graph; MaxDistance : Z }.

(** The places that poll the context or range over a map. *)
Inductive site :=
  | AtStart | OverAfter | OverChanged | AtMiddle | OverBefore
  | OverReverse | OverSeeds | InQueue | OverResult.

(** * Operations *)

Section compare.
(** Go visits the entries of a map in an order of its own for each loop. *)
Context (range : forall A, site -> gmap bytes A -> list (bytes * A)).
Context (ctx : site -> Z -> bool).

Definition new_change (a : Target) : ChangedTarget :=
  {| td_ChangeType := ChangeTypeNew; td_Before := None; td_After := Some a; td_Distance := 0 |}.
Definition deleted_change (b : Target) : ChangedTarget :=
  {| td_ChangeType := ChangeTypeDeleted; td_Before := Some b; td_After := None; td_Distance := 0 |}.
Definition changed_change (b a : Target) : ChangedTarget :=
  {| td_ChangeType := ChangeTypeChanged; td_Before := Some b; td_After := Some a; td_Distance := 0 |}.

(** The body of the loop over [request.After]. *)
Definition after_step (before : Graph) (name : bytes) (afterTarget : Target)
  (st : gmap bytes ChangedTarget * gset bytes) : gmap bytes ChangedTarget * gset bytes :=
  let '(changedByName, seeds) := st in
  match before !! name with
  | None => (<[name := new_change afterTarget]> changedByName, {[ name ]} ∪ seeds)
  | Some beforeTarget =>
      if decide (tg_Hash beforeTarget = tg_Hash afterTarget) then (changedByName, seeds)
      else
        let seeds := if decide (tg_RuleType afterTarget = _sourceFileRuleType)
                     then {[ name ]} ∪ seeds else seeds in
        (<[name := changed_change beforeTarget afterTarget]> changedByName, seeds)
  end.

(** The body of the loop over [request.Before]. *)
Definition before_step (after : Graph) (name : bytes) (beforeTarget : Target)
  (st : gmap bytes ChangedTarget * gset bytes) : gmap bytes ChangedTarget * gset bytes :=
  let '(changedByName, seeds) := st in
  match after !! name with
  | Some _ => (changedByName, seeds)
  | None => (<[name := deleted_change beforeTarget]> changedByName, {[ name ]} ∪ seeds)
  end.

(** [for name, x := range m { poll; step }] *)
Fixpoint range_loop {A S} (s : site) (step : bytes -> A -> S -> S) (i : Z) (l : list (bytes * A))
  (st : S) : res S :=
  match l with
  | [] => Ok st
  | (name, x) :: l => _ ← poll (ctx s) i; range_loop s step (i + 1) l (step name x st)
  end.

(** A nil before target has no dependencies; a nil after target has no status.  A set
    that was not made, because the lengths differ or there is nothing to put in it,
    is read as empty. *)
Definition changedDependencyStatus (beforeTarget afterTarget : option Target)
  (changedByName : gmap bytes ChangedTarget) : bool * bool :=
  match afterTarget with
  | None => (false, false)
  | Some a =>
      let beforeDependencies := match beforeTarget with Some b => tg_Dependencies b | None => [] end in
      let lengthsMatch := bool_decide (length beforeDependencies = length (tg_Dependencies a)) in
      let anyChanged := existsb (fun d =>
        match changedByName !! d with
        | Some c => bool_decide (td_ChangeType c = ChangeTypeChanged)
        | None => false
        end) (tg_Dependencies a) in
      let afterDependencies : gset bytes := list_to_set (tg_Dependencies a) in
      if negb lengthsMatch then (anyChanged, true)
      else (anyChanged, existsb (fun d => bool_decide (d ∉ afterDependencies)) beforeDependencies)
  end.

Definition hasChangedSourceFileDependency (target : option Target)
  (changedByName : gmap bytes ChangedTarget) (targetsByName : Graph) : bool :=
  match target with
  | None => false
  | Some t =>
      existsb (fun d =>
        match changedByName !! d with
        | None => false
        | Some _ =>
            match targetsByName !! d with
            | Some dependency => bool_decide (tg_RuleType dependency = _sourceFileRuleType)
            | None => false
            end
        end) (tg_Dependencies t)
  end.

Definition attributesChanged (before after : gmap bytes bytes) : bool :=
  if decide (size before <> size after) then true
  else existsb (fun kv : bytes * bytes => bool_decide (after !! kv.1 <> Some kv.2)) (map_to_list before).

(** The body of the seed-classification loop. *)
Definition seed_step (before after : Graph) (changedByName : gmap bytes ChangedTarget)
  (name : bytes) (changed : ChangedTarget) (seeds : gset bytes) : res (gset bytes) :=
  if decide (name ∈ seeds \/ td_ChangeType changed <> ChangeTypeChanged) then Ok seeds
  else
    let afterTarget := after !! name in
    let beforeTarget := before !! name in
    let '(anyChanged, dependenciesChanged) :=
      changedDependencyStatus beforeTarget afterTarget changedByName in
    if negb anyChanged || dependenciesChanged then Ok ({[ name ]} ∪ seeds)
    else if hasChangedSourceFileDependency afterTarget changedByName after then
      Ok ({[ name ]} ∪ seeds)
    else
      match beforeTarget, afterTarget with
      | Some b, Some a =>
          Ok (if attributesChanged (tg_Attributes b) (tg_Attributes a)
              then {[ name ]} ∪ seeds else seeds)
      | _, _ => Panic
      end.

Fixpoint seed_loop (before after : Graph) (changedByName : gmap bytes ChangedTarget)
  (l : list (bytes * ChangedTarget)) (seeds : gset bytes) : res (gset bytes) :=
  match l with
  | [] => Ok seeds
  | (name, changed) :: l =>
      seeds ← seed_step before after changedByName name changed seeds;
      seed_loop before after changedByName l seeds
  end.

(** [reverseDependencies[d] = append(reverseDependencies[d], name)] *)
Definition reverse_step (name : bytes) (target : Target) (rev : gmap bytes (list bytes)) :
  gmap bytes (list bytes) :=
  foldl (fun rev d => if decide (d <> []) then <[d := default [] (rev !! d) ++ [name]]> rev else rev)
    rev (tg_Dependencies target).

(** The seeds, queued with distance zero. *)
Fixpoint queue_seeds (seeds : gset bytes) (l : list (bytes * ChangedTarget)) :
  list bytes * gmap bytes Z :=
  match l with
  | [] => ([], ∅)
  | (name, _) :: l =>
      let '(queue, dist) := queue_seeds seeds l in
      if decide (name ∈ seeds) then (name :: queue, <[name := 0]> dist) else (queue, dist)
  end.

Definition set_distance (d : Z) (c : ChangedTarget) : ChangedTarget :=
  {| td_ChangeType := td_ChangeType c; td_Before := td_Before c; td_After := td_After c;
     td_Distance := d |}.

(** A name has been visited when it has a distance; the others keep -1. *)
Definition computeDistances (changedByName : gmap bytes ChangedTarget) (targetsByName : Graph)
  (seeds : gset bytes) (maxDistance : Z) : res (gmap bytes ChangedTarget) :=
  rev ← range_loop OverReverse reverse_step 0 (range _ OverReverse targetsByName) ∅;
  let '(queue, dist) := queue_seeds seeds (range _ OverSeeds changedByName) in
  dist ← bfs_loop (fun current => Ok (default [] (rev !! current)))
           (fun dependent => bool_decide (is_Some (changedByName !! dependent)))
           maxDistance (ctx InQueue) (length queue + size changedByName) 0 queue dist;
  Ok (map_imap (fun name c => Some (set_distance (default (-1) (dist !! name)) c)) changedByName).

Definition Compare (request : Request) : res (list ChangedTarget) :=
  _ ← guard_err (ctx AtStart 0) cancelled_err;
  '(changedByName, seeds) ← range_loop OverAfter (after_step (Before request)) 0
                              (range _ OverAfter (After request)) (∅, ∅);
  seeds ← seed_loop (Before request) (After request) changedByName
            (range _ OverChanged changedByName) seeds;
  _ ← guard_err (ctx AtMiddle 0) cancelled_err;
  '(changedByName, seeds) ← range_loop OverBefore (before_step (After request)) 0
                              (range _ OverBefore (Before request)) (changedByName, seeds);
  changedByName ← computeDistances changedByName (After request) seeds (MaxDistance request);
  Ok ((range _ OverResult changedByName).*2).
End compare.

(** * Specification *)

Section spec.
Context (before after : Graph).

(** The change of a name, before distances. *)
Definition change_of (name : bytes) : option ChangedTarget :=
  match before !! name, after !! name with
  | None, None => None
  | None, Some a => Some (new_change a)
  | Some b, None => Some (deleted_change b)
  | Some b, Some a => if decide (tg_Hash b = tg_Hash a) then None else Some (changed_change b a)
  end.

(** A dependency of [a] is in both graphs with different hashes. *)
Definition any_dep_changed (a : Target) : Prop :=
  exists d c, d ∈ tg_Dependencies a /\ change_of d = Some c /\ td_ChangeType c = ChangeTypeChanged.

Definition dep_set_changed (b a : Target) : Prop :=
  length (tg_Dependencies b) <> length (tg_Dependencies a) \/
  exists d, d ∈ tg_Dependencies b /\ d ∉ tg_Dependencies a.

(** A dependency of [a] is a source file that is new or changed. *)
Definition source_dep_changed (a : Target) : Prop :=
  exists d t, d ∈ tg_Dependencies a /\ after !! d = Some t /\
    tg_RuleType t = _sourceFileRuleType /\ is_Some (change_of d).

(** The target itself changed, rather than only something it depends on. *)
Definition direct_change (b a : Target) : Prop :=
  tg_RuleType a = _sourceFileRuleType \/ ~ any_dep_changed a \/ dep_set_changed b a \/
  source_dep_changed a \/ tg_Attributes b <> tg_Attributes a.

Definition is_seed (name : bytes) : Prop :=
  exists c, change_of name = Some c /\
    match td_Before c, td_After c with
    | Some b, Some a => direct_change b a
    | _, _ => True
    end.

(** [v] depends on [u] and has itself changed. *)
Definition dep_edge (u v : bytes) : Prop :=
  u <> [] /\ is_Some (change_of v) /\ exists t, after !! v = Some t /\ u ∈ tg_Dependencies t.

Inductive dep_reach : Z -> bytes -> Prop :=
  | dep_seed v : is_seed v -> dep_reach 0 v
  | dep_step k u v : dep_reach k u -> dep_edge u v -> dep_reach (k + 1) v.

(** The distance of a name: the length of a shortest path of changed dependents
    from a seed, when it is within the limit, and -1 when there is none. *)
Definition distance_ok (maxDistance : Z) (name : bytes) (d : Z) : Prop :=
  dep_reach d name /\ (forall k, dep_reach k name -> d <= k) /\ (0 <= maxDistance -> d <= maxDistance) \/
  d = -1 /\ ~ exists k, dep_reach k name /\ (0 <= maxDistance -> k <= maxDistance).
End spec.

(** * Lemmas *)

(** A step that sets at most the entry of its own name and adds at most that name. *)
Definition own_step {A} (f : bytes -> A -> option ChangedTarget) (g : bytes -> A -> bool)
  (step : bytes -> A -> gmap bytes ChangedTarget * gset bytes -> gmap bytes ChangedTarget * gset bytes) : Prop :=
  forall n a st, step n a st =
    (match f n a with Some c => <[n := c]> st.1 | None => st.1 end,
     if g n a then {[ n ]} ∪ st.2 else st.2).

Lemma own_step_fold {A} f g (step : bytes -> A -> _ -> _) (l : list (bytes * A)) st :
  own_step f g step -> NoDup l.*1 ->
  let st' := foldl (fun st x => step x.1 x.2 st) st l in
  (forall n, st'.1 !! n = match (list_to_map l : gmap bytes A) !! n with
                          | Some a => match f n a with Some c => Some c | None => st.1 !! n end
                          | None => st.1 !! n
                          end) /\
  (forall n, n ∈ st'.2 <-> n ∈ st.2 \/ exists a, (list_to_map l : gmap bytes A) !! n = Some a /\ g n a = true).
Proof.
  intros Hstep. revert st. induction l as [|[n a] l IH]; intros st Hnd; cbn zeta.
  { cbn. split; [done|]. intros n. rewrite lookup_empty. naive_solver. }
  cbn [fmap list_fmap fst] in Hnd. apply NoDup_cons in Hnd as [Hn Hnd].
  destruct (IH (step n a st) Hnd) as [H1 H2]. cbn [foldl fst snd].
  assert ((list_to_map l : gmap bytes A) !! n = None) as Hnone by by apply not_elem_of_list_to_map_1.
  rewrite Hstep in H1, H2. cbn [fst snd] in H1, H2. rewrite Hstep. cbn [list_to_map foldr fst snd].
  split; intros k.
  - rewrite H1. destruct (decide (k = n)) as [->|Hne].
    + rewrite Hnone, lookup_insert_eq. destruct (f n a); [by rewrite lookup_insert_eq|done].
    + rewrite lookup_insert_ne by done.
      destruct (f n a); [by rewrite lookup_insert_ne|done].
  - rewrite H2. destruct (decide (k = n)) as [->|Hne].
    + rewrite Hnone, lookup_insert_eq. split.
      * intros [Hin|(? & ? & _)]; [|done]. destruct (g n a) eqn:Eg; [right; eauto|by left].
      * intros [Hin|(a' & [= <-] & ->)]; left; [|by apply elem_of_union_l, elem_of_singleton].
        destruct (g n a); [by apply elem_of_union_r|done].
    + rewrite lookup_insert_ne by done. destruct (g n a); [|done].
      rewrite elem_of_union, elem_of_singleton. tauto.
Qed.

Lemma after_own before : own_step
  (fun n a => match before !! n with
              | None => Some (new_change a)
              | Some b => if decide (tg_Hash b = tg_Hash a) then None else Some (changed_change b a)
              end)
  (fun n a => match before !! n with
              | None => true
              | Some b => if decide (tg_Hash b = tg_Hash a) then false
                          else bool_decide (tg_RuleType a = _sourceFileRuleType)
              end) (after_step before).
Proof.
  intros n a [m s]. unfold after_step. destruct (before !! n) as [b|]; [|done].
  case_decide; [done|]. cbn. by case_decide; [rewrite bool_decide_true|rewrite bool_decide_false].
Qed.

Lemma before_own after : own_step
  (fun n b => match after !! n with Some _ => None | None => Some (deleted_change b) end)
  (fun n b => match after !! n with Some _ => false | None => true end) (before_step after).
Proof. intros n b [m s]. unfold before_step. by destruct (after !! n). Qed.

Lemma attributesChanged_spec b a : attributesChanged b a = true <-> b <> a.
Proof.
  unfold attributesChanged. case_decide as Hsize.
  { split; [|done]. intros _ ->. done. }
  rewrite existsb_exists. split.
  - intros ([k v] & Hin & Hkv%bool_decide_eq_true) ->. apply list_elem_of_In, elem_of_map_to_list in Hin.
    done.
  - intros Hne. destruct (decide (map_Forall (fun k v => a !! k = Some v) b)) as [Hall|Hno].
    + exfalso. apply Hne, map_subseteq_size_eq; [by apply map_subseteq_spec|lia].
    + apply map_not_Forall in Hno as (k & v & Hk & Hv); [|apply _]. exists (k, v).
      split; [by apply list_elem_of_In, elem_of_map_to_list|by apply bool_decide_eq_true].
Qed.

Section classify.
Context (before after : Graph).
(** The changes the first loop finds: those of the targets of the after graph. *)
Context (m : gmap bytes ChangedTarget).
Context (Hm : forall n, m !! n = match after !! n with Some _ => change_of before after n | None => None end).

Lemma changed_live d c :
  m !! d = Some c /\ td_ChangeType c = ChangeTypeChanged <->
  change_of before after d = Some c /\ td_ChangeType c = ChangeTypeChanged.
Proof.
  rewrite Hm. unfold change_of. destruct (before !! d), (after !! d); try done.
  split; [intros [? _]; done|intros [[= <-] ?]; done].
Qed.

Lemma changedDependencyStatus_spec b a :
  exists x y, changedDependencyStatus (Some b) (Some a) m = (x, y) /\
    (x = true <-> any_dep_changed before after a) /\ (y = true <-> dep_set_changed b a).
Proof.
  unfold changedDependencyStatus. set (x := existsb _ (tg_Dependencies a)).
  assert (x = true <-> any_dep_changed before after a) as Hx.
  { unfold x. rewrite existsb_exists. split.
    - intros (d & Hd%list_elem_of_In & H). destruct (m !! d) as [c|] eqn:E; [|done].
      apply bool_decide_eq_true in H. destruct (proj1 (changed_live d c) (conj E H)) as [? _].
      by exists d, c.
    - intros (d & c & Hd & Hc & Ht). exists d. split; [by apply list_elem_of_In|].
      destruct (proj2 (changed_live d c) (conj Hc Ht)) as [-> _]. by apply bool_decide_eq_true. }
  destruct (decide (length (tg_Dependencies b) = length (tg_Dependencies a))) as [Hl|Hl].
  - rewrite bool_decide_true by done. do 2 eexists. split; [reflexivity|]. split; [done|].
    unfold dep_set_changed. rewrite existsb_exists. split.
    + intros (d & Hd%list_elem_of_In & H%bool_decide_eq_true). right. exists d.
      by rewrite elem_of_list_to_set in H.
    + intros [?|(d & Hd & Hn)]; [done|]. exists d. split; [by apply list_elem_of_In|].
      apply bool_decide_eq_true. by rewrite elem_of_list_to_set.
  - rewrite bool_decide_false by done. do 2 eexists. split; [reflexivity|]. split; [done|].
    split; [by left|done].
Qed.

Lemma hasChangedSourceFileDependency_spec a :
  hasChangedSourceFileDependency (Some a) m after = true <-> source_dep_changed before after a.
Proof.
  unfold hasChangedSourceFileDependency, source_dep_changed. rewrite existsb_exists. split.
  - intros (d & Hd%list_elem_of_In & H). destruct (m !! d) as [c|] eqn:E; [|done].
    destruct (after !! d) as [t|] eqn:Et; [|done]. apply bool_decide_eq_true in H.
    exists d, t. rewrite Hm, Et in E. eauto.
  - intros (d & t & Hd & Ht & Hr & [c Hc]). exists d. split; [by apply list_elem_of_In|].
    rewrite Hm, Ht, Hc. by apply bool_decide_eq_true.
Qed.

(** What the seed-classification loop adds for a changed target. *)
Definition late_seed (n : bytes) : Prop :=
  exists b a, before !! n = Some b /\ after !! n = Some a /\ tg_Hash b <> tg_Hash a /\
    (~ any_dep_changed before after a \/ dep_set_changed b a \/ source_dep_changed before after a \/
     tg_Attributes b <> tg_Attributes a).

Lemma seed_step_spec n c seeds :
  m !! n = Some c ->
  exists seeds', seed_step before after m n c seeds = Ok seeds' /\
    forall k, k ∈ seeds' <-> k ∈ seeds \/ k = n /\ late_seed n.
Proof.
  intros Hc. unfold seed_step.
  assert (forall P : Prop, ~ P -> forall k, k ∈ seeds <-> k ∈ seeds \/ k = n /\ P) as Hno.
  { intros P HP k. tauto. }
  assert (forall P : Prop, P -> forall k, k ∈ {[ n ]} ∪ seeds <-> k ∈ seeds \/ k = n /\ P) as Hyes.
  { intros P HP k. rewrite elem_of_union, elem_of_singleton. tauto. }
  rewrite Hm in Hc. unfold change_of in Hc.
  destruct (after !! n) as [a|] eqn:Ea; [|done]. destruct (before !! n) as [b|] eqn:Eb.
  - case_decide as Hh; [done|]. injection Hc as <-. cbn [td_ChangeType changed_change].
    case_decide as Hin.
    { destruct Hin as [Hin|?]; [|done]. eexists. split; [reflexivity|].
      intros k. split; [by left|]. by intros [?|[-> _]]. }
    assert (late_seed n <-> ~ any_dep_changed before after a \/ dep_set_changed b a \/
      source_dep_changed before after a \/ tg_Attributes b <> tg_Attributes a) as Hl.
    { unfold late_seed. rewrite Ea, Eb. split; [|eauto 10]. by intros (? & ? & [= <-] & [= <-] & _ & ?). }
    destruct (changedDependencyStatus_spec b a) as (x & y & -> & Hx & Hy).
    destruct (negb x || y) eqn:Exy.
    { eexists. split; [reflexivity|]. apply Hyes, Hl. apply orb_true_iff in Exy as [Ex|Ey]; [left|right; left; by apply Hy].
      intros Ha%Hx. by rewrite Ha in Ex. }
    apply orb_false_iff in Exy as [Ex%negb_false_iff Ey].
    destruct (hasChangedSourceFileDependency (Some a) m after) eqn:Es.
    { eexists. split; [reflexivity|]. apply Hyes, Hl. right; right; left.
      by apply hasChangedSourceFileDependency_spec. }
    eexists. split; [reflexivity|]. destruct (attributesChanged _ _) eqn:Eat.
    + apply Hyes, Hl. do 3 right. by apply attributesChanged_spec.
    + apply Hno. rewrite Hl. intros [H|[H|[H|H]]].
      * by apply H, Hx.
      * apply Hy in H. congruence.
      * apply hasChangedSourceFileDependency_spec in H. congruence.
      * apply attributesChanged_spec in H. congruence.
  - injection Hc as <-. cbn [td_ChangeType new_change]. rewrite decide_True by by right.
    eexists. split; [reflexivity|]. apply Hno. intros (b & ? & Hb & _). congruence.
Qed.

Lemma seed_loop_spec l seeds :
  (forall n c, (n, c) ∈ l -> m !! n = Some c) ->
  exists seeds', seed_loop before after m l seeds = Ok seeds' /\
    forall k, k ∈ seeds' <-> k ∈ seeds \/ k ∈ l.*1 /\ late_seed k.
Proof.
  revert seeds. induction l as [|[n c] l IH]; intros seeds Hl; cbn [seed_loop].
  { eexists. split; [reflexivity|]. intros k. cbn. rewrite elem_of_nil. tauto. }
  destruct (seed_step_spec n c seeds) as (s1 & -> & H1); [apply Hl; by left|]. cbn [mbind res_bind].
  destruct (IH s1) as (s2 & -> & H2); [intros; apply Hl; by right|]. eexists. split; [reflexivity|].
  intros k. rewrite H2, H1. cbn. rewrite elem_of_cons. naive_solver.
Qed.
End classify.

(** The three loops together find exactly the seeds. *)
Lemma all_seeds before after n :
  ((exists a, after !! n = Some a /\
     match before !! n with
     | Some b => if decide (tg_Hash b = tg_Hash a) then false
                 else bool_decide (tg_RuleType a = _sourceFileRuleType)
     | None => true
     end = true) \/ late_seed before after n \/
   (exists b, before !! n = Some b /\ match after !! n with Some _ => false | None => true end = true)) <->
  is_seed before after n.
Proof.
  unfold is_seed, change_of, late_seed. split.
  - intros [(a & Ha & H)|[(b & a & Hb & Ha & Hh & H)|(b & Hb & H)]].
    + rewrite Ha. destruct (before !! n) as [b|]; [|by eexists].
      destruct (decide (tg_Hash b = tg_Hash a)); [done|].
      apply bool_decide_eq_true in H. eexists. split; [done|]. by left.
    + rewrite Hb, Ha, decide_False by done. eexists. split; [done|]. by right.
    + rewrite Hb. destruct (after !! n); [done|]. by eexists.
  - intros (c & Hc & H). destruct (before !! n) as [b|], (after !! n) as [a|]; try done.
    + case_decide as Hh; [done|]. injection Hc as <-. destruct H as [H|H].
      * left. exists a. split; [done|]. rewrite decide_False by done. by apply bool_decide_eq_true.
      * right; left. by exists b, a.
    + right; right. by exists b.
    + left. by exists a.
Qed.

(** The reverse dependencies: who depends on [u]. *)
Lemma reverse_deps_spec (name : bytes) (deps : list bytes) (rev : gmap bytes (list bytes)) (u v : bytes) :
  v ∈ default [] (foldl (fun rev d => if decide (d <> []) then <[d := default [] (rev !! d) ++ [name]]> rev else rev)
    rev deps !! u) <-> v ∈ default [] (rev !! u) \/ v = name /\ u ∈ deps /\ u <> [].
Proof.
  revert rev. induction deps as [|d deps IH]; intros rev; cbn [foldl].
  { rewrite elem_of_nil. tauto. }
  rewrite IH, elem_of_cons. case_decide as Hd.
  - destruct (decide (u = d)) as [->|Hne].
    + rewrite lookup_insert_eq. cbn. rewrite elem_of_app, list_elem_of_singleton. tauto.
    + rewrite lookup_insert_ne by done. naive_solver.
  - naive_solver.
Qed.

Lemma reverse_fold_spec (l : list (bytes * Target)) (rev : gmap bytes (list bytes)) (u v : bytes) :
  v ∈ default [] (foldl (fun st x => reverse_step x.1 x.2 st) rev l !! u) <->
  v ∈ default [] (rev !! u) \/ exists t, (v, t) ∈ l /\ u ∈ tg_Dependencies t /\ u <> [].
Proof.
  revert rev. induction l as [|[n t] l IH]; intros rev; cbn [foldl fst snd].
  { split; [by left|]. intros [?|(t & Hin & _)]; [done|]. by apply elem_of_nil in Hin. }
  rewrite IH. unfold reverse_step. rewrite reverse_deps_spec. split.
  - intros [[?|(-> & ? & ?)]|(t' & ? & ? & ?)]; [by left|..]; right.
    + exists t. split_and!; [by left|done..].
    + exists t'. split_and!; [by right|done..].
  - intros [?|(t' & Hin & Hu & Hne)]; [by left; left|].
    apply elem_of_cons in Hin as [[= -> ->]|Hin]; [left; right; done|right; eauto].
Qed.

Lemma queue_seeds_spec seeds l queue dist :
  queue_seeds seeds l = (queue, dist) ->
  (forall n, n ∈ queue <-> n ∈ seeds /\ n ∈ l.*1) /\
  (forall n, dist !! n = if decide (n ∈ queue) then Some 0 else None).
Proof.
  revert queue dist. induction l as [|[n c] l IH]; intros queue dist; cbn [queue_seeds].
  { intros [= <- <-]. split; intros n; [cbn; rewrite elem_of_nil; tauto|].
    rewrite decide_False; [done|apply not_elem_of_nil]. }
  destruct (queue_seeds seeds l) as [q d]. destruct (IH q d eq_refl) as [H1 H2].
  cbn. case_decide as Hn; intros [= <- <-]; (split; [intros k; rewrite !elem_of_cons, H1; naive_solver|]).
  - intros k. destruct (decide (k = n)) as [->|Hne].
    + rewrite lookup_insert_eq, decide_True; [done|by left].
    + rewrite lookup_insert_ne, H2 by done.
      destruct (decide (k ∈ q)), (decide (k ∈ n :: q)); set_solver.
  - done.
Qed.

Section correct.
Context (range : forall A, site -> gmap bytes A -> list (bytes * A)).
Context (ctx : site -> Z -> bool).
Context (range_perm : forall A s (m : gmap bytes A), range A s m ≡ₚ map_to_list m).

Lemma range_nodup {A} (s : site) (m : gmap bytes A) : NoDup (range A s m).*1.
Proof. rewrite (range_perm A s m). apply NoDup_fst_map_to_list. Qed.

Lemma range_map {A} (s : site) (m : gmap bytes A) : list_to_map (range A s m) = m.
Proof.
  transitivity (list_to_map (map_to_list m) : gmap bytes A); [|apply list_to_map_to_list].
  apply list_to_map_proper; [apply range_nodup|apply range_perm].
Qed.

Lemma elem_of_range {A} (s : site) (m : gmap bytes A) n a :
  (n, a) ∈ range A s m <-> m !! n = Some a.
Proof. rewrite (range_perm A s m). apply elem_of_map_to_list. Qed.

Lemma range_loop_fold {A S} s (step : bytes -> A -> S -> S) i l st :
  unless_done ctx (range_loop ctx s step i l st) (fun st' => st' = foldl (fun st x => step x.1 x.2 st) st l).
Proof.
  revert i st. induction l as [|[n a] l IH]; intros i st; cbn [range_loop]; [by apply unless_done_ok|].
  eapply unless_done_bind; [apply unless_done_poll|]. intros _ _. apply IH.
Qed.

Lemma computeDistances_spec before after m seeds maxDistance :
  (forall n, m !! n = change_of before after n) ->
  (forall n, n ∈ seeds <-> is_seed before after n) ->
  Z.of_nat (size m) < 2^31 ->
  unless_done ctx (computeDistances range ctx m after seeds maxDistance) (fun m' =>
    forall n, match m' !! n with
              | None => change_of before after n = None
              | Some c => exists c0, change_of before after n = Some c0 /\
                  c = set_distance (td_Distance c) c0 /\
                  distance_ok before after maxDistance n (td_Distance c)
              end).
Proof.
  intros Hm Hs Hsize. unfold computeDistances.
  eapply unless_done_bind; [apply range_loop_fold|]. intros rev ->.
  set (rev := foldl _ _ _). destruct (queue_seeds seeds (range _ OverSeeds m)) as [queue dist] eqn:Eq.
  destruct (queue_seeds_spec _ _ _ _ Eq) as [Hq Hd].
  set (dependents := fun current : bytes => Ok (default [] (rev !! current))).
  set (enter := fun dependent : bytes => bool_decide (is_Some (m !! dependent))).
  assert (forall u v, edge dependents enter u v <-> dep_edge before after u v) as Hedge.
  { intros u v. unfold edge, dep_edge, dependents, enter. split.
    - intros (ns & [= <-] & Hv & He%bool_decide_eq_true). rewrite Hm in He.
      apply reverse_fold_spec in Hv as [Hv|(t & Ht & Hu & Hne)].
      { rewrite lookup_empty in Hv. by apply elem_of_nil in Hv. }
      apply elem_of_range in Ht. eauto.
    - intros (Hne & He & t & Ht & Hu). eexists. split; [reflexivity|]. split.
      + apply reverse_fold_spec. right. exists t. split; [by apply elem_of_range|done].
      + apply bool_decide_eq_true. by rewrite Hm. }
  assert (forall k v, reach dependents enter (is_seed before after) k v <-> dep_reach before after k v) as Hreach.
  { intros k v. split; induction 1; econstructor; eauto; by apply Hedge. }
  assert (forall n, n ∈ queue <-> is_seed before after n) as Hqs.
  { intros n. rewrite Hq, Hs. split; [tauto|]. intros Hn. split; [done|].
    destruct Hn as (c & Hc & _). apply list_elem_of_fmap. exists (n, c).
    split; [done|]. apply elem_of_range. by rewrite Hm. }
  assert (forall n, dist !! n = if decide (n ∈ queue) then Some 0 else None) as Hd' by done.
  assert (forall n, is_seed before after n -> n ∈ dom m) as Hsd.
  { intros n (c & Hc & _). apply elem_of_dom. rewrite Hm. by exists c. }
  eapply unless_done_bind with (P := fun dist' =>
    shortest_dists dependents enter maxDistance (is_seed before after) dist').
  - destruct (bfs_correct dependents enter maxDistance (ctx InQueue) (is_seed before after) (dom m)
      ) with (fuel := (length queue + size m)%nat) (i := 0) (queue := queue) (dist := dist)
      as [[-> [j Hj]]|H].
    + intros u _. eexists. split; [reflexivity|]. intros v _ Hv%bool_decide_eq_true. by apply elem_of_dom.
    + by rewrite size_dom.
    + intros v. by rewrite Hqs.
    + done.
    + intros v Hv%elem_of_list_to_set. by apply Hsd, Hqs.
    + by rewrite size_dom.
    + left. split; [done|by exists InQueue, j].
    + by right.
  - intros dist' [Hshort Hall]. apply unless_done_ok. intros n. rewrite map_lookup_imap, Hm.
    destruct (change_of before after n) as [c0|] eqn:Ec; [|done]. cbn.
    exists c0. split; [done|]. split; [done|]. unfold distance_ok.
    destruct (dist' !! n) as [d|] eqn:Ed; cbn.
    + left. apply Hshort in Ed as (Hr & Hmin & Hmax). split_and!; [by apply Hreach| |done].
      intros k Hk. by apply Hmin, Hreach.
    + right. split; [done|]. intros (k & Hk & Hmax).
      destruct (Hall k n) as [d Hd'']; [by apply Hreach|done|congruence].
Qed.

(** The result holds one change per changed name, classified and with its distance. *)
Definition changes_ok (before after : Graph) (maxDistance : Z) (m : gmap bytes ChangedTarget) : Prop :=
  forall n, match m !! n with
            | None => change_of before after n = None
            | Some c => exists c0, change_of before after n = Some c0 /\
                c = set_distance (td_Distance c) c0 /\
                distance_ok before after maxDistance n (td_Distance c)
            end.

Lemma Compare_spec before after maxDistance :
  Z.of_nat (size before + size after) < 2^31 ->
  unless_done ctx (Compare range ctx {| Before := before; After := after; MaxDistance := maxDistance |})
    (fun r => exists m, r ≡ₚ (map_to_list m).*2 /\ changes_ok before after maxDistance m).
Proof.
  intros Hsize. unfold Compare. cbn [Before After MaxDistance].
  eapply unless_done_bind; [apply unless_done_guard|]. intros _ _.
  eapply unless_done_bind; [apply range_loop_fold|]. intros [m1 s1] Hf.
  destruct (own_step_fold _ _ _ (range _ OverAfter after) (∅, ∅) (after_own before) (range_nodup _ _)) as [Hm1 Hs1].
  rewrite <- Hf in Hm1, Hs1. cbn [fst snd] in Hm1, Hs1. rewrite range_map in Hm1.
  setoid_rewrite range_map in Hs1.
  assert (forall n, m1 !! n = match after !! n with Some _ => change_of before after n | None => None end) as Hm.
  { intros n. rewrite Hm1. unfold change_of. destruct (after !! n), (before !! n); try done; by case_decide. }
  destruct (seed_loop_spec before after m1 Hm (range _ OverChanged m1) s1) as (s2 & -> & Hs2).
  { intros n c. apply elem_of_range. }
  cbn [mbind res_bind]. eapply unless_done_bind; [apply unless_done_guard|]. intros _ _.
  eapply unless_done_bind; [apply range_loop_fold|]. intros [m2 s3] Hf3.
  destruct (own_step_fold _ _ _ (range _ OverBefore before) (m1, s2) (before_own after) (range_nodup _ _)) as [Hm2 Hs3].
  rewrite <- Hf3 in Hm2, Hs3. cbn [fst snd] in Hm2, Hs3. rewrite range_map in Hm2.
  setoid_rewrite range_map in Hs3.
  assert (forall n, m2 !! n = change_of before after n) as Hchange.
  { intros n. rewrite Hm2, Hm. unfold change_of. by destruct (before !! n), (after !! n). }
  eapply unless_done_bind.
  - apply (computeDistances_spec before after m2 s3 maxDistance Hchange).
    + intros n. rewrite Hs3, Hs2, Hs1, <- all_seeds. rewrite elem_of_empty.
      assert (late_seed before after n -> n ∈ (range _ OverChanged m1).*1) as Hin.
      { intros (b & a & Hb & Ha & Hh & _). apply list_elem_of_fmap.
        exists (n, changed_change b a). split; [done|]. apply elem_of_range.
        rewrite Hm, Ha. unfold change_of. by rewrite Hb, Ha, decide_False. }
      tauto.
    + assert (size m2 <= size before + size after)%nat; [|lia].
      rewrite <- !size_dom. etransitivity; [apply (subseteq_size _ (dom before ∪ dom after))|].
      * intros n [c Hc]%elem_of_dom. rewrite Hchange in Hc. unfold change_of in Hc.
        rewrite elem_of_union, !elem_of_dom.
        destruct (before !! n), (after !! n); try done; eauto.
      * rewrite size_union_alt. pose proof (subseteq_size (dom after ∖ dom before) (dom after) ltac:(set_solver)). lia.
  - intros m3 Hm3. apply unless_done_ok. exists m3. split; [|exact Hm3].
    by rewrite (range_perm _ OverResult m3).
Qed.
End correct.

(** * Property *)

(** C3: The comparison is complete and exact.  In whatever order Go visits the maps, and
    unless the context is found done (then, and only then, the cancellation is
    returned), [Compare] returns one entry for each name whose target is new, deleted
    or has another hash, with its classification and targets; its distance is the length
    of a shortest chain of changed dependents from a target whose own state changed
    (0 for such a target), or -1 when there is none within the limit. *)
Theorem Compare_correct (range : forall A, site -> gmap bytes A -> list (bytes * A))
  (ctx : site -> Z -> bool) (before after : Graph) (maxDistance : Z) :
  (forall A s (m : gmap bytes A), range A s m ≡ₚ map_to_list m) ->
  Z.of_nat (size before + size after) < 2^31 ->
  unless_done ctx
    (Compare range ctx {| Before := before; After := after; MaxDistance := maxDistance |})
    (fun r => exists m, r ≡ₚ (map_to_list m).*2 /\ changes_ok before after maxDistance m).
Proof. intros Hr Hs. by apply Compare_spec. Qed.

(** A library and its source file change; a test depends on the library and an
    unrelated tool is removed. *)
Definition sample_target (name hash rt : bytes) (deps : list bytes) : Target :=
  {| tg_Name := name; tg_Hash := hash; tg_RuleType := rt; tg_Dependencies := deps;
     tg_Tags := []; tg_Attributes := ∅; tg_Root := false; tg_External := false |}.

Definition sample_before : Graph :=
  {[ bs "//a:src" := sample_target (bs "//a:src") (bs "1") _sourceFileRuleType [];
     bs "//a:lib" := sample_target (bs "//a:lib") (bs "2") (bs "go_library") [bs "//a:src"];
     bs "//a:test" := sample_target (bs "//a:test") (bs "3") (bs "go_test") [bs "//a:lib"];
     bs "//b:tool" := sample_target (bs "//b:tool") (bs "4") (bs "go_binary") [] ]}.
Definition sample_after : Graph :=
  {[ bs "//a:src" := sample_target (bs "//a:src") (bs "1x") _sourceFileRuleType [];
     bs "//a:lib" := sample_target (bs "//a:lib") (bs "2x") (bs "go_library") [bs "//a:src"];
     bs "//a:test" := sample_target (bs "//a:test") (bs "3x") (bs "go_test") [bs "//a:lib"] ]}.

Lemma Compare_correct_witness :
  exists r,
    Compare (fun _ _ m => map_to_list m) (fun _ _ => false)
      {| Before := sample_before; After := sample_after; MaxDistance := -1 |} = Ok r /\
    sort_func Z.compare (td_Distance <$> r) = [0; 0; 0; 1] /\
    exists m, r ≡ₚ (map_to_list m).*2 /\ changes_ok sample_before sample_after (-1) m.
Proof.
  destruct (Compare_correct (fun _ _ m => map_to_list m) (fun _ _ => false)
    sample_before sample_after (-1)) as [[_ (s & i & H)]|(r & Hr & m & Hp & Hok)].
  - reflexivity.
  - vm_compute. reflexivity.
  - discriminate H.
  - exists r. split; [exact Hr|]. split; [|exists m; split; [exact Hp|exact Hok]].
    vm_compute in Hr. injection Hr as <-. vm_compute. reflexivity.
Defined.
