(* ===== verification/GraphReader.v ===== *)
(** What the comparison of two blobs uses of a reader ([internal/tgb/reader.go]): the
    methods as values, which the caching of a [Reader] allows
    ([ReaderCache.reader_caching_transparent]), and the laws of a reader that presents
    a graph. *)
From Stdlib Require Import ZArith Lia.
From S2P Require Import Prelude Varint Columns Entity Encode Reader.

Local Open Scope Z_scope.

(** * The methods *)

Record GraphReader := {
  gr_NodeCount : Z;
  gr_HashBytes : Z;
  gr_Hashes : res bytes;
  gr_HashEmptyBits : res (option bytes);
  gr_BlockCount : Z;
  gr_BlockDigests : res (list Z);
  gr_BlockStart : Z -> res Z;
  gr_Label : Z -> res bytes;
  gr_SplitLabel : Z -> res (bytes * bytes);
  gr_FindNode : bytes -> bytes -> res Z;
  gr_Hash : Z -> res bytes;
  gr_RuleType : Z -> res bytes;
  gr_RuleTypeIDs : res (list Z);
  gr_RuleTypeDictID : bytes -> res Z;
  gr_Deps : Z -> res (list Z);
  gr_DepsCSR : res (list Z * list Z);
  gr_Tags : Z -> res (list Z);
  gr_TagName : Z -> res bytes;
  gr_Attrs : Z -> res (gmap bytes bytes);
  gr_Root : Z -> res bool;
  gr_External : Z -> res bool;
}.

(** The methods of the reader of a blob.  A buffer given to [Deps] or [Tags] is always
    emptied first. *)
Definition reader_of (zstd : Z -> bytes -> res bytes) (c : core) : GraphReader :=
  let run {A} (m : RM A) : res A := (m (fresh c)).1 in
  {| gr_NodeCount := NodeCount c; gr_HashBytes := HashStride c; gr_Hashes := Hashes c;
     gr_HashEmptyBits := run (HashEmptyBits zstd);
     gr_BlockCount := BlockCount c; gr_BlockDigests := BlockDigests c;
     gr_BlockStart i := run (BlockStart zstd i);
     gr_Label i := run (Label zstd i); gr_SplitLabel i := run (SplitLabel zstd i);
     gr_FindNode p n := run (FindNode zstd p n); gr_Hash i := run (Hash zstd i);
     gr_RuleType i := run (RuleType zstd i); gr_RuleTypeIDs := run (RuleTypeIDs zstd);
     gr_RuleTypeDictID s := run (RuleTypeDictID zstd s);
     gr_Deps i := run (Deps zstd i []); gr_DepsCSR := run (DepsCSR zstd);
     gr_Tags i := run (Tags zstd i []); gr_TagName id := run (TagName zstd id);
     gr_Attrs i := run (Attrs zstd i); gr_Root i := run (Root zstd i);
     gr_External i := run (External zstd i) |}.

(** * Presented graphs *)

(** The order of the encoder on (package, name). *)
Definition label_cmp : bytes * bytes -> bytes * bytes -> comparison := lex_cmp bcompare bcompare.
Definition label_lt (x y : bytes * bytes) : Prop := label_cmp x y = Lt.

Lemma label_lt_irrefl x : ~ label_lt x x.
Proof. unfold label_lt, label_cmp. by rewrite cmp_refl. Qed.

Lemma label_lt_trans x y z : label_lt x y -> label_lt y z -> label_lt x z.
Proof. apply cmp_lt_trans. Qed.


(** One node of a presented graph; dependencies are node indices. *)
Record gnode := {
  gn_pkg : bytes;
  gn_name : bytes;
  gn_hash : bytes;
  gn_empty : bool;
  gn_rt : bytes;
  gn_deps : list Z;
  gn_tags : list bytes;
  gn_attrs : gmap bytes bytes;
  gn_root : bool;
  gn_external : bool;
}.

Definition gn_key (n : gnode) : bytes * bytes := (gn_pkg n, gn_name n).
Definition gn_label (n : gnode) : bytes := joinLabel (gn_pkg n) (gn_name n).

(** The hash of a node as the string upstream stores. *)
Definition gn_hash_string (n : gnode) : bytes := if gn_empty n then [] else hexEncode (gn_hash n).

(** The digest blocks of a graph with the given labels: block [k] holds the nodes from
    [starts[k]] to the next start. *)
Record blocks_ok (R : GraphReader) (n : Z) (starts digests : list Z) : Prop := {
  bo_count : gr_BlockCount R = zlen digests;
  bo_digests : gr_BlockDigests R = Ok digests;
  bo_starts : forall k s, at_ starts k = Some s -> gr_BlockStart R k = Ok s;
  bo_length : zlen starts = zlen digests;
  bo_mono : forall k s e, at_ (starts ++ [n]) k = Some s -> at_ (starts ++ [n]) (k + 1) = Some e -> 0 <= s < e;
}.

(** What a reader promises of the graph [ns], whose hashes have [hb] bytes. *)
Record presents (R : GraphReader) (hb : Z) (ns : list gnode) : Prop := {
  pr_count : gr_NodeCount R = zlen ns;
  pr_small : zlen ns < 2^31;
  pr_stride : gr_HashBytes R = hb /\ 0 < hb;
  pr_hash_len : Forall (fun n => zlen (gn_hash n) = hb /\
    (gn_empty n = true -> gn_hash n = replicate (Z.to_nat hb) x00)) ns;
  pr_hashes : gr_Hashes R = Ok (concat (gn_hash <$> ns));
  pr_empty : exists bits, gr_HashEmptyBits R = Ok bits /\
    forall i n, at_ ns i = Some n ->
    match bits with
    | None => gn_empty n = false
    | Some bits => i / 8 < zlen bits /\ test_bit bits i = Ok (gn_empty n)
    end;
  pr_split : forall i n, at_ ns i = Some n -> gr_SplitLabel R i = Ok (gn_key n);
  pr_label : forall i n, at_ ns i = Some n -> gr_Label R i = Ok (gn_label n);
  pr_sorted : forall i j x y, at_ ns i = Some x -> at_ ns j = Some y -> i < j -> label_lt (gn_key x) (gn_key y);
  pr_names : Forall (fun n => (colon ∉ gn_name n) /\ gn_label n <> []) ns;
  pr_deps : forall i n, at_ ns i = Some n -> gr_Deps R i = Ok (gn_deps n) /\
    Forall (fun d => 0 <= d < zlen ns) (gn_deps n);
  pr_csr : exists offs, gr_DepsCSR R = Ok (offs, concat (gn_deps <$> ns)) /\
    zlen offs = zlen ns + 1 /\ zlen (concat (gn_deps <$> ns)) < 2^31 /\
    forall i n, at_ ns i = Some n -> exists lo,
      at_ offs i = Some lo /\ at_ offs (i + 1) = Some (lo + zlen (gn_deps n)) /\
      lo = zlen (concat (gn_deps <$> take (Z.to_nat i) ns));
  pr_types : exists ids, gr_RuleTypeIDs R = Ok ids /\ forall s, exists id, gr_RuleTypeDictID R s = Ok id /\
    forall i n, at_ ns i = Some n -> ((0 <= id /\ at_ ids i = Some id) <-> gn_rt n = s);
  pr_attrs : forall i n, at_ ns i = Some n -> gr_Attrs R i = Ok (gn_attrs n);
  pr_scalars : forall i n, at_ ns i = Some n -> gr_Hash R i = Ok (gn_hash_string n) /\
    gr_RuleType R i = Ok (gn_rt n) /\ gr_Root R i = Ok (gn_root n) /\ gr_External R i = Ok (gn_external n);
  pr_tags : forall i n, at_ ns i = Some n -> exists ids, gr_Tags R i = Ok ids /\
    each (gr_TagName R) ids = Ok (gn_tags n);
  pr_find : forall i n, at_ ns i = Some n -> gr_FindNode R (gn_pkg n) (gn_name n) = Ok i;
  pr_blocks : exists starts digests, blocks_ok R (zlen ns) starts digests;
}.

(** Blocks of one digest and one length hold the same labels: what xxhash64 is relied
    on for. *)
Definition digests_honest (Rb Ra : GraphReader) (nb na : list gnode) : Prop :=
  forall bs bd as_ ad k l d s e s' e' x,
  blocks_ok Rb (zlen nb) bs bd -> blocks_ok Ra (zlen na) as_ ad ->
  at_ bd k = Some d -> at_ ad l = Some d ->
  at_ (bs ++ [zlen nb]) k = Some s -> at_ (bs ++ [zlen nb]) (k + 1) = Some e ->
  at_ (as_ ++ [zlen na]) l = Some s' -> at_ (as_ ++ [zlen na]) (l + 1) = Some e' ->
  e' - s' = e - s -> 0 <= x < e - s ->
  exists y, at_ (gn_key <$> nb) (s + x) = Some y /\ at_ (gn_key <$> na) (s' + x) = Some y.

(** A graph without digest blocks is compared with one that has some only when it is
    empty. *)
Definition blocks_comparable (Rb Ra : GraphReader) (nb na : list gnode) : Prop :=
  (gr_BlockCount Rb = 0 -> gr_BlockCount Ra = 0 \/ nb = []) /\
  (gr_BlockCount Ra = 0 -> gr_BlockCount Rb = 0 \/ na = []).
