(* ===== verification/TgbDiff.v ===== *)
(** The comparison of two TGB blobs without decoding them
    ([internal/tgbdiff/compare.go]).  Timings and diagnostic counters are left out. *)
From Stdlib Require Import ZArith Lia.
From stdpp Require Import gmap fin_maps.
From S2P Require Import Prelude Bfs TargetDiff Entity Reader GraphReader.

Local Open Scope Z_scope.

(** * Data *)

Definition sourceFileRuleType : bytes := bs "source file".

(** [ChangedTarget]: one entry of a result. *)
Record LabelChange := {
  lc_Label : bytes;
  lc_ChangeType : ChangeType;
  lc_Distance : Z;
  lc_Seed : bool;
}.

Record Options := { opt_MaxDistance : Z; opt_SeedAttrs : option (gset bytes) }.

Record alignedRun := { beforeStart : Z; afterStart : Z; run_length : Z }.

Inductive changeKind := changeKindNew | changeKindChanged | changeKindDeleted.

#[export] Instance changeKind_eq_dec : EqDecision changeKind.
Proof. solve_decision. Defined.

Record changedNode := {
  cn_label : bytes;
  cn_kind : changeKind;
  cn_distance : Z;
  cn_seed : bool;
  cn_afterIndex : Z;
  cn_beforeIndex : Z;
}.

Record blockRange := { br_start : Z; br_end : Z }.
Record matchedPair := { bStart : Z; bEnd : Z; aStart : Z; aEnd : Z }.

(** * Phase 0: alignment *)

(** The order of the encoder: [bPkg < aPkg || (bPkg == aPkg && bName < aName)]. *)
Definition label_before (b a : bytes * bytes) : bool :=
  bltb b.1 a.1 || bool_decide (b.1 = a.1) && bltb b.2 a.2.

(** The extension of the last run by one node on each side. *)
Definition extend_runs (runs : list alignedRun) (bi ai : Z) : list alignedRun :=
  match reverse runs with
  | r :: rs =>
      if decide (beforeStart r + run_length r = bi /\ afterStart r + run_length r = ai)
      then reverse rs ++ [{| beforeStart := beforeStart r; afterStart := afterStart r;
                             run_length := run_length r + 1 |}]
      else runs ++ [{| beforeStart := bi; afterStart := ai; run_length := 1 |}]
  | [] => [{| beforeStart := bi; afterStart := ai; run_length := 1 |}]
  end.

(** The merge-join of [alignFallback] over the labels from [bi] and [ai] on. *)
Fixpoint join_labels (bl : list (bytes * bytes)) (bi : Z) :
  forall (al : list (bytes * bytes)) (ai : Z) (runs : list alignedRun),
  list alignedRun * list Z * list Z :=
  fix go al ai runs :=
    match bl, al with
    | [], _ => (runs, [], zrange ai (ai + zlen al))
    | _, [] => (runs, zrange bi (bi + zlen bl), [])
    | b :: bl', a :: al' =>
        if decide (b = a) then
          join_labels bl' (bi + 1) al' (ai + 1) (extend_runs runs bi ai)
        else if label_before b a then
          let '(runs, del, ins) := join_labels bl' (bi + 1) al ai runs in (runs, bi :: del, ins)
        else
          let '(runs, del, ins) := go al' (ai + 1) runs in (runs, del, ai :: ins)
    end.

Definition alignFallback (before after : GraphReader) (bN aN : Z) :
  res (list alignedRun * list Z * list Z) :=
  bLabels ← each (gr_SplitLabel before) (zrange 0 bN);
  aLabels ← each (gr_SplitLabel after) (zrange 0 aN);
  Ok (join_labels bLabels 0 aLabels 0 []).

(** The starts of the blocks, and the end of the last one. *)
Definition block_starts (r : GraphReader) (count n : Z) : res (list Z) :=
  starts ← each (gr_BlockStart r) (zrange 0 count);
  Ok (starts ++ [n]).

(** [aDigestMap[d] = append(aDigestMap[d], blockRange{...})] *)
Fixpoint digest_map (i : Z) (digests starts : list Z) (m : gmap Z (list blockRange)) :
  res (gmap Z (list blockRange)) :=
  match digests with
  | [] => Ok m
  | d :: digests =>
      s ← index starts i;
      e ← index starts (i + 1);
      digest_map (i + 1) digests starts
        (<[d := default [] (m !! d) ++ [{| br_start := s; br_end := e |}]]> m)
  end.

(** The inner loop over the candidates [queue[ptr:]]: the first one that starts at
    or after [afterPos] and has the right length, and how far the pointer moved. *)
Fixpoint scan_queue (afterPos bLen : Z) (queue : list blockRange) (ptr : nat) :
  option blockRange * nat :=
  match queue with
  | [] => (None, ptr)
  | br :: queue =>
      if decide (br_start br < afterPos \/ br_end br - br_start br <> bLen)
      then scan_queue afterPos bLen queue (S ptr)
      else (Some br, S ptr)
  end.

(** The loop over the blocks of the before graph from [bi] on. *)
Fixpoint match_blocks (aDigestMap : gmap Z (list blockRange)) (bBlockStarts : list Z)
  (bDigests : list Z) (fuel : nat) (bi : Z) (aQueuePtr : gmap Z nat) (afterPos : Z) :
  res (list matchedPair) :=
  match fuel with
  | O => Ok []
  | S fuel =>
      bS ← index bBlockStarts bi;
      bE ← index bBlockStarts (bi + 1);
      d ← index bDigests bi;
      match aDigestMap !! d with
      | None => match_blocks aDigestMap bBlockStarts bDigests fuel (bi + 1) aQueuePtr afterPos
      | Some queue =>
          let ptr := default 0%nat (aQueuePtr !! d) in
          let '(found, ptr) := scan_queue afterPos (bE - bS) (drop ptr queue) ptr in
          let aQueuePtr := <[d := ptr]> aQueuePtr in
          match found with
          | Some br =>
              rest ← match_blocks aDigestMap bBlockStarts bDigests fuel (bi + 1) aQueuePtr (br_end br);
              Ok ({| bStart := bS; bEnd := bE; aStart := br_start br; aEnd := br_end br |} :: rest)
          | None => match_blocks aDigestMap bBlockStarts bDigests fuel (bi + 1) aQueuePtr afterPos
          end
      end
  end.

(** [mergeGap]: each round passes at least one node of either side. *)
Fixpoint mergeGap (before after : GraphReader) (fuel : nat) (bi gb1 ai ga1 : Z) :
  res (list matchedPair * list Z * list Z) :=
  match fuel with
  | O => Ok ([], [], [])
  | S fuel =>
      if decide (bi < gb1 /\ ai < ga1) then
        b ← gr_SplitLabel before bi;
        a ← gr_SplitLabel after ai;
        if decide (b = a) then
          '(pairs, del, ins) ← mergeGap before after fuel (bi + 1) gb1 (ai + 1) ga1;
          Ok ({| bStart := bi; bEnd := bi + 1; aStart := ai; aEnd := ai + 1 |} :: pairs, del, ins)
        else if label_before b a then
          '(pairs, del, ins) ← mergeGap before after fuel (bi + 1) gb1 ai ga1;
          Ok (pairs, bi :: del, ins)
        else
          '(pairs, del, ins) ← mergeGap before after fuel bi gb1 (ai + 1) ga1;
          Ok (pairs, del, ai :: ins)
      else Ok ([], zrange bi gb1, zrange ai ga1)
  end.

Definition gap (before after : GraphReader) (gb0 gb1 ga0 ga1 : Z) :
  res (list matchedPair * list Z * list Z) :=
  mergeGap before after (S (Z.to_nat (gb1 - gb0) + Z.to_nat (ga1 - ga0))) gb0 gb1 ga0 ga1.

(** The walk over the digest matches that merges the gaps between them. *)
Fixpoint merge_gaps (before after : GraphReader) (matched : list matchedPair)
  (prevB prevA bN aN : Z) : res (list matchedPair * list Z * list Z) :=
  match matched with
  | [] => gap before after prevB bN prevA aN
  | p :: matched =>
      '(pairs1, del1, ins1) ← gap before after prevB (bStart p) prevA (aStart p);
      '(pairs2, del2, ins2) ← merge_gaps before after matched (bEnd p) (aEnd p) bN aN;
      Ok (pairs1 ++ pairs2, del1 ++ del2, ins1 ++ ins2)
  end.

(** Adjacent pairs merged into maximal runs; [prev] is the last pair of [run]. *)
Fixpoint merge_runs (prev : matchedPair) (run : alignedRun) (pairs : list matchedPair) :
  list alignedRun :=
  match pairs with
  | [] => [run]
  | cur :: pairs =>
      if decide (bStart cur = bEnd prev /\ aStart cur = aEnd prev) then
        merge_runs cur {| beforeStart := beforeStart run; afterStart := afterStart run;
                          run_length := run_length run + (bEnd cur - bStart cur) |} pairs
      else
        run :: merge_runs cur {| beforeStart := bStart cur; afterStart := aStart cur;
                                 run_length := bEnd cur - bStart cur |} pairs
  end.

Definition runs_of_pairs (pairs : list matchedPair) : list alignedRun :=
  match pairs with
  | [] => []
  | p :: pairs =>
      merge_runs p {| beforeStart := bStart p; afterStart := aStart p;
                      run_length := bEnd p - bStart p |} pairs
  end.

Section compare.
(** [sort.Slice] leaves the order of equal keys open. *)
Context (sort_pairs : list matchedPair -> list matchedPair).
Context (sort_labels : list LabelChange -> list LabelChange).

Definition align (before after : GraphReader) : res (list alignedRun * list Z * list Z) :=
  let bN := gr_NodeCount before in
  let aN := gr_NodeCount after in
  let bBlockCount := gr_BlockCount before in
  let aBlockCount := gr_BlockCount after in
  if decide (bBlockCount = 0 /\ aBlockCount = 0) then
    if decide (0 < bN \/ 0 < aN) then alignFallback before after bN aN else Ok ([], [], [])
  else if decide (bBlockCount = 0) then Ok ([], [], zrange 0 aN)
  else if decide (aBlockCount = 0) then Ok ([], zrange 0 bN, [])
  else
    bDigests ← gr_BlockDigests before;
    aDigests ← gr_BlockDigests after;
    bBlockStarts ← block_starts before bBlockCount bN;
    aBlockStarts ← block_starts after aBlockCount aN;
    aDigestMap ← digest_map 0 aDigests aBlockStarts ∅;
    matched ← match_blocks aDigestMap bBlockStarts bDigests (Z.to_nat bBlockCount) 0 ∅ 0;
    '(pairs, deletedBefore, insertedAfter) ← merge_gaps before after matched 0 0 bN aN;
    Ok (runs_of_pairs (sort_pairs (matched ++ pairs)), deletedBefore, insertedAfter).

(** * Phase 1: hashes *)

Definition changed_at (bi ai : Z) : changedNode :=
  {| cn_label := []; cn_kind := changeKindChanged; cn_distance := 0; cn_seed := false;
     cn_afterIndex := i32 ai; cn_beforeIndex := i32 bi |}.

(** [if changedByAfter[ai] == nil { changedByAfter[ai] = &changedNode{...} }] *)
Definition record_changed (bi ai : Z) (changedByAfter : list (option changedNode)) :
  res (list (option changedNode)) :=
  old ← index changedByAfter ai;
  match old with
  | Some _ => Ok changedByAfter
  | None => set_index changedByAfter ai (Some (changed_at bi ai))
  end.

(** Each call at least halves the length. *)
Fixpoint bisectHashRun (bHashes aHashes : bytes) (stride : Z) (fuel : nat)
  (bStart aStart length : Z) (changedByAfter : list (option changedNode)) :
  res (list (option changedNode)) :=
  match fuel with
  | O => Ok changedByAfter
  | S fuel =>
      if decide (length = 0) then Ok changedByAfter
      else if decide (length = 1) then record_changed bStart aStart changedByAfter
      else
        let half := length / 2 in
        bLeft ← slice bHashes (bStart * stride) ((bStart + half) * stride);
        aLeft ← slice aHashes (aStart * stride) ((aStart + half) * stride);
        changedByAfter ←
          (if decide (bLeft = aLeft) then Ok changedByAfter
           else bisectHashRun bHashes aHashes stride fuel bStart aStart half changedByAfter);
        bRight ← slice bHashes ((bStart + half) * stride) ((bStart + length) * stride);
        aRight ← slice aHashes ((aStart + half) * stride) ((aStart + length) * stride);
        if decide (bRight = aRight) then Ok changedByAfter
        else bisectHashRun bHashes aHashes stride fuel (bStart + half) (aStart + half)
               (length - half) changedByAfter
  end.

Definition hash_run (bHashes aHashes : bytes) (hashStride : Z)
  (changedByAfter : list (option changedNode)) (run : alignedRun) : res (list (option changedNode)) :=
  let bs := beforeStart run in
  let as_ := afterStart run in
  let len := run_length run in
  bSlice ← slice bHashes (bs * hashStride) ((bs + len) * hashStride);
  aSlice ← slice aHashes (as_ * hashStride) ((as_ + len) * hashStride);
  if decide (bSlice = aSlice) then Ok changedByAfter
  else bisectHashRun bHashes aHashes hashStride (S (Z.to_nat len)) bs as_ len changedByAfter.

(** [bits != nil && i/8 < len(bits) && bits[i/8]&(1<<(uint(i)%8)) != 0] *)
Definition empty_bit (bits : option bytes) (i : Z) : res bool :=
  match bits with
  | None => Ok false
  | Some bits => if decide (i / 8 < zlen bits) then test_bit bits i else Ok false
  end.

(** The tie-break of the empty hash over one run. *)
Definition empty_run (bEmptyBits aEmptyBits : option bytes)
  (changedByAfter : list (option changedNode)) (run : alignedRun) : res (list (option changedNode)) :=
  fold_res (fun changedByAfter k =>
    let ai := afterStart run + k in
    let bi := beforeStart run + k in
    old ← index changedByAfter ai;
    match old with
    | Some _ => Ok changedByAfter
    | None =>
        b ← empty_bit bEmptyBits bi;
        a ← empty_bit aEmptyBits ai;
        if decide (b = a) then Ok changedByAfter
        else set_index changedByAfter ai (Some (changed_at bi ai))
    end) changedByAfter (zrange 0 (run_length run)).

Definition deleted_node (bi : Z) : changedNode :=
  {| cn_label := []; cn_kind := changeKindDeleted; cn_distance := 0; cn_seed := false;
     cn_afterIndex := -1; cn_beforeIndex := i32 bi |}.
Definition inserted_node (ai : Z) : changedNode :=
  {| cn_label := []; cn_kind := changeKindNew; cn_distance := 0; cn_seed := false;
     cn_afterIndex := i32 ai; cn_beforeIndex := -1 |}.

(** [beforeToAfter[run.beforeStart+k] = int32(run.afterStart + k)] *)
Definition map_run (beforeToAfter : list Z) (run : alignedRun) : res (list Z) :=
  fold_res (fun m k => set_index m (beforeStart run + k) (i32 (afterStart run + k)))
    beforeToAfter (zrange 0 (run_length run)).

(** Phases 0 and 1: the correspondence of the nodes, the deleted ones, and the new
    and changed ones by their index in the after graph. *)
Definition hash_diff (before after : GraphReader) (runs : list alignedRun)
  (deletedBefore insertedAfter : list Z) :
  res (list Z * list changedNode * list (option changedNode)) :=
  bHashes ← gr_Hashes before;
  aHashes ← gr_Hashes after;
  let hashStride := gr_HashBytes before in
  _ ← guard_err (bool_decide (gr_HashBytes after <> hashStride)) "tgbdiff: hash stride mismatch";
  changedByAfter ← make_slice (gr_NodeCount after) None;
  beforeToAfter ← make_slice (gr_NodeCount before) (-1);
  beforeToAfter ← fold_res map_run beforeToAfter runs;
  let deletedNodes := deleted_node <$> deletedBefore in
  changedByAfter ← fold_res (fun c ai => set_index c ai (Some (inserted_node ai)))
                     changedByAfter insertedAfter;
  changedByAfter ← fold_res (hash_run bHashes aHashes hashStride) changedByAfter runs;
  bEmptyBits ← gr_HashEmptyBits before;
  aEmptyBits ← gr_HashEmptyBits after;
  changedByAfter ←
    (match bEmptyBits, aEmptyBits with
     | None, None => Ok changedByAfter
     | _, _ => fold_res (empty_run bEmptyBits aEmptyBits) changedByAfter runs
     end);
  Ok (beforeToAfter, deletedNodes, changedByAfter).

(** * Phase 2: seeds *)

Definition is_changed_kind (c : option changedNode) : bool :=
  match c with Some e => bool_decide (cn_kind e = changeKindChanged) | None => false end.

(** [changedByAfter[di]] for an index in range, nil otherwise. *)
Definition entry_at (changedByAfter : list (option changedNode)) (di : Z) : option changedNode :=
  if decide (0 <= di) then mjoin (changedByAfter !! Z.to_nat di) else None.

Definition changedDepStatusIdx (beforeDeps afterDeps : list Z)
  (changedByAfter : list (option changedNode)) : bool * bool :=
  let lengthsMatch := bool_decide (length beforeDeps = length afterDeps) in
  let depSet : gset Z := list_to_set afterDeps in
  let anyChanged := existsb (fun di => is_changed_kind (entry_at changedByAfter di)) afterDeps in
  if negb lengthsMatch then (anyChanged, true)
  else (anyChanged, existsb (fun di => bool_decide (di < 0 \/ di ∉ depSet)) beforeDeps).

Definition hasChangedSrcFileDepIdx (afterDeps : list Z) (changedByAfter : list (option changedNode))
  (afterRuleTypeIDs : list Z) (srcFileTypeID : Z) : bool :=
  if decide (srcFileTypeID < 0) then false
  else existsb (fun di =>
    match entry_at changedByAfter di with
    | None => false
    | Some _ => bool_decide (afterRuleTypeIDs !! Z.to_nat di = Some srcFileTypeID)
    end) afterDeps.

(** An allowlist that is nil keeps every attribute. *)
Definition filter_attrs (seedAttrs : option (gset bytes)) (raw : gmap bytes bytes) : gmap bytes bytes :=
  match seedAttrs with
  | None => raw
  | Some allowed => filter (fun kv => kv.1 ∈ allowed) raw
  end.

Definition decodeAttrs (r : GraphReader) (node : Z) (seedAttrs : option (gset bytes)) :
  res (gmap bytes bytes) :=
  raw ← gr_Attrs r node;
  Ok (if decide (raw = ∅) then ∅ else filter_attrs seedAttrs raw).

Definition attrsChanged (before after : gmap bytes bytes) : bool :=
  if decide (size before <> size after) then true
  else existsb (fun kv : bytes * bytes => bool_decide (after !! kv.1 <> Some kv.2)) (map_to_list before).

(** The projection of a before dependency into the indices of the after graph. *)
Definition project (beforeToAfter : list Z) (bd : Z) : res Z :=
  if decide (bd < zlen beforeToAfter) then index beforeToAfter bd else Ok (-1).

(** The two passes over one changed node: whether it is a seed. *)
Definition classify_node (before after : GraphReader) (seedAttrs : option (gset bytes))
  (beforeToAfter : list Z) (changedByAfter : list (option changedNode))
  (afterRuleTypeIDs : list Z) (srcFileTypeID : Z) (node : changedNode) : res bool :=
  if decide (cn_kind node <> changeKindChanged) then Ok true
  else if decide (0 <= cn_afterIndex node /\ 0 <= srcFileTypeID /\
                  afterRuleTypeIDs !! Z.to_nat (cn_afterIndex node) = Some srcFileTypeID) then Ok true
  else
    afterDepBuf ← gr_Deps after (cn_afterIndex node);
    beforeDepBuf ← gr_Deps before (cn_beforeIndex node);
    mappedBuf ← each (project beforeToAfter) beforeDepBuf;
    let '(anyChanged, depsChanged) := changedDepStatusIdx mappedBuf afterDepBuf changedByAfter in
    if negb anyChanged || depsChanged then Ok true
    else if hasChangedSrcFileDepIdx afterDepBuf changedByAfter afterRuleTypeIDs srcFileTypeID then Ok true
    else
      afterAttrs ← decodeAttrs after (cn_afterIndex node) seedAttrs;
      beforeAttrs ← decodeAttrs before (cn_beforeIndex node) seedAttrs;
      Ok (attrsChanged beforeAttrs afterAttrs).

Definition set_seed (node : changedNode) (seed : bool) : changedNode :=
  {| cn_label := cn_label node; cn_kind := cn_kind node; cn_distance := cn_distance node;
     cn_seed := seed; cn_afterIndex := cn_afterIndex node; cn_beforeIndex := cn_beforeIndex node |}.

Definition seed_nodes (before after : GraphReader) (seedAttrs : option (gset bytes))
  (beforeToAfter : list Z) (changedByAfter : list (option changedNode))
  (changedList : list changedNode) : res (list changedNode) :=
  afterRuleTypeIDs ← gr_RuleTypeIDs after;
  srcFileTypeID ← gr_RuleTypeDictID after sourceFileRuleType;
  each (fun node =>
    seed ← classify_node before after seedAttrs beforeToAfter changedByAfter afterRuleTypeIDs
             srcFileTypeID node;
    Ok (set_seed node seed)) changedList.

(** * Phase 3: distances *)

(** [inDeg[d]++] *)
Definition count_edge (n : Z) (inDeg : list Z) (d : Z) : list Z :=
  if decide (0 <= d < n) then alter (fun x => i32 (x + 1)) (Z.to_nat d) inDeg else inDeg.

(** The offsets from [total] on, and the final total. *)
Fixpoint prefix_sums (total : Z) (inDeg : list Z) : list Z :=
  match inDeg with
  | [] => [total]
  | x :: inDeg => total :: prefix_sums (i32 (total + x)) inDeg
  end.

(** [targets[pos[d]] = int32(i); pos[d]++] *)
Definition scatter_edge (n i : Z) (fwdTgt : list Z) (st : list Z * list Z) (k : Z) : res (list Z * list Z) :=
  let '(targets, pos) := st in
  d ← index fwdTgt k;
  if decide (0 <= d < n) then
    p ← index pos d;
    targets ← set_index targets p (i32 i);
    pos ← set_index pos d (i32 (p + 1));
    Ok (targets, pos)
  else Ok st.

Definition scatter_node (n : Z) (fwdOff fwdTgt : list Z) (st : list Z * list Z) (i : Z) :
  res (list Z * list Z) :=
  if decide (i + 1 < zlen fwdOff) then
    lo ← index fwdOff i;
    hi ← index fwdOff (i + 1);
    fold_res (scatter_edge n i fwdTgt) st (zrange lo hi)
  else Ok st.

Definition buildReverseCSR (after : GraphReader) (n : Z) : res (list Z * list Z) :=
  '(fwdOff, fwdTgt) ← gr_DepsCSR after;
  inDeg ← make_slice n 0;
  let inDeg := foldl (count_edge n) inDeg fwdTgt in
  let offsets := prefix_sums 0 inDeg in
  total ← index offsets n;
  targets ← make_slice total 0;
  '(targets, _) ← fold_res (scatter_node n fwdOff fwdTgt) (targets, take (Z.to_nat n) offsets) (zrange 0 n);
  Ok (offsets, targets).

(** The reverse neighbours of [cur]. *)
Definition csr_row (offsets targets : list Z) (cur : Z) : res (list Z) :=
  lo ← index offsets cur;
  hi ← index offsets (cur + 1);
  slice targets lo hi.

(** The initial queue: the seeds of the after graph, each once. *)
Fixpoint queue_nodes (l : list changedNode) (dist : gmap Z Z) : list Z * gmap Z Z :=
  match l with
  | [] => ([], dist)
  | node :: l =>
      let ai := cn_afterIndex node in
      if decide (cn_seed node = true /\ 0 <= ai /\ dist !! ai = None) then
        let '(queue, dist) := queue_nodes l (<[ai := 0]> dist) in (ai :: queue, dist)
      else queue_nodes l dist
  end.

(** The distance a changed node ends with: 0 for a seed; the search writes the
    distance of each other node of the after graph that it visits. *)
Definition final_distance (dist : gmap Z Z) (node : changedNode) : Z :=
  if cn_seed node then 0
  else if decide (0 <= cn_afterIndex node) then default (-1) (dist !! cn_afterIndex node) else -1.

(** * Result *)

Definition change_type (k : changeKind) : ChangeType :=
  match k with
  | changeKindNew => ChangeTypeNew
  | changeKindDeleted => ChangeTypeDeleted
  | changeKindChanged => ChangeTypeChanged
  end.

Definition result_of (before after : GraphReader) (dist : gmap Z Z) (node : changedNode) : res LabelChange :=
  label ← (if decide (cn_label node = []) then
             if decide (0 <= cn_afterIndex node) then gr_Label after (cn_afterIndex node)
             else gr_Label before (cn_beforeIndex node)
           else Ok (cn_label node));
  Ok {| lc_Label := label; lc_ChangeType := change_type (cn_kind node);
        lc_Distance := final_distance dist node; lc_Seed := cn_seed node |}.

(** The places that poll the context. *)
Inductive phase := BeforeAlign | BeforeHash | BeforeSeeds | BeforeCSR | InBFS.
Context (ctx : phase -> Z -> bool).

Definition compareInternal (before after : GraphReader) (opts : Options) : res (list LabelChange) :=
  _ ← guard_err (ctx BeforeAlign 0) cancelled_err;
  '(runs, deletedBefore, insertedAfter) ← align before after;
  _ ← guard_err (ctx BeforeHash 0) cancelled_err;
  '(beforeToAfter, deletedNodes, changedByAfter) ← hash_diff before after runs deletedBefore insertedAfter;
  let changedList := deletedNodes ++ omap id changedByAfter in
  _ ← guard_err (ctx BeforeSeeds 0) cancelled_err;
  changedList ← seed_nodes before after (opt_SeedAttrs opts) beforeToAfter changedByAfter changedList;
  _ ← guard_err (ctx BeforeCSR 0) cancelled_err;
  '(csrOffsets, csrTargets) ← buildReverseCSR after (gr_NodeCount after);
  let '(queue, dist) := queue_nodes changedList ∅ in
  dist ← bfs_loop (csr_row csrOffsets csrTargets) (fun _ => true) (opt_MaxDistance opts) (ctx InBFS)
           (length queue + Z.to_nat (gr_NodeCount after)) 0 queue dist;
  changed ← each (result_of before after dist) changedList;
  Ok (sort_labels changed).
End compare.
