(* ===== verification/TgbAlign.v ===== *)
(** Phase 0 of the blob comparison is exact: [align] pairs the nodes with equal labels
    and finds the others, whichever blocks were matched by digest. *)
From Stdlib Require Import ZArith Lia.
From stdpp Require Import gmap.
From S2P Require Import Prelude Bfs TargetDiff Entity Reader GraphReader TgbDiff.

Local Open Scope Z_scope.

(** * Label sequences *)

Lemma label_before_lt b a : label_before b a = true <-> label_lt b a.
Proof.
  unfold label_before, label_lt, label_cmp, lex_cmp, bltb. destruct b as [p1 n1], a as [p2 n2]; cbn.
  destruct (bcompare p1 p2) eqn:E.
  - apply bcompare_eq in E as ->. rewrite bool_decide_true by done. cbn.
    destruct (bcompare n1 n2); naive_solver.
  - naive_solver.
  - rewrite bool_decide_false by (intros ->; by rewrite bcompare_refl in E). done.
Qed.

Lemma label_not_before b a : b <> a -> label_before b a = false -> label_lt a b.
Proof.
  intros Hne Hb. unfold label_lt. destruct (label_cmp b a) eqn:E.
  - by apply (cmp_eq (cmp := lex_cmp bcompare bcompare)) in E.
  - apply label_before_lt in E. congruence.
  - unfold label_cmp in *. by rewrite (cmp_anti b a), E.
Qed.

Definition sorted_labels (l : list (bytes * bytes)) : Prop :=
  forall i j x y, at_ l i = Some x -> at_ l j = Some y -> i < j -> label_lt x y.

Section align.
Context (bl al : list (bytes * bytes)).
Context (bl_sorted : sorted_labels bl) (al_sorted : sorted_labels al).

(** Node [i] of the before graph and node [j] of the after graph have one label. *)
Definition same_label (i j : Z) : Prop := exists x, at_ bl i = Some x /\ at_ al j = Some x.

Lemma same_label_mono i j i' j' : same_label i j -> same_label i' j' -> i < i' <-> j < j'.
Proof.
  intros (x & Hx1 & Hx2) (y & Hy1 & Hy2). split; intros Hlt.
  - pose proof (bl_sorted _ _ _ _ Hx1 Hy1 Hlt) as Hxy.
    destruct (Z.lt_trichotomy j j') as [?|[->|?]]; [done|..].
    + assert (x = y) as -> by congruence. by apply label_lt_irrefl in Hxy.
    + pose proof (al_sorted _ _ _ _ Hy2 Hx2 ltac:(done)).
      exfalso. eapply label_lt_irrefl, label_lt_trans; eauto.
  - pose proof (al_sorted _ _ _ _ Hx2 Hy2 Hlt) as Hxy.
    destruct (Z.lt_trichotomy i i') as [?|[->|?]]; [done|..].
    + assert (x = y) as -> by congruence. by apply label_lt_irrefl in Hxy.
    + pose proof (bl_sorted _ _ _ _ Hy1 Hx1 ltac:(done)).
      exfalso. eapply label_lt_irrefl, label_lt_trans; eauto.
Qed.

Lemma same_label_inj i j j' : same_label i j -> same_label i j' -> j = j'.
Proof.
  intros H1 H2. pose proof (same_label_mono _ _ _ _ H1 H2). pose proof (same_label_mono _ _ _ _ H2 H1).
  lia.
Qed.

Lemma same_label_inj' i i' j : same_label i j -> same_label i' j -> i = i'.
Proof.
  intros H1 H2. pose proof (same_label_mono _ _ _ _ H1 H2). pose proof (same_label_mono _ _ _ _ H2 H1).
  lia.
Qed.

(** * The join of two regions *)

Definition in_pair (p : matchedPair) (i j : Z) : Prop :=
  bStart p <= i < bEnd p /\ j = aStart p + (i - bStart p).

Definition pair_ok (p : matchedPair) : Prop :=
  bStart p < bEnd p /\ aEnd p - aStart p = bEnd p - bStart p.

(** [pairs], [del] and [ins] are the join of the nodes [b0, b1) and [a0, a1). *)
Record joined (b0 b1 a0 a1 : Z) (pairs : list matchedPair) (del ins : list Z) : Prop := {
  j_ok : Forall pair_ok pairs;
  j_pairs : forall i j, (exists p, p ∈ pairs /\ in_pair p i j) <->
    b0 <= i < b1 /\ a0 <= j < a1 /\ same_label i j;
  j_del : forall i, i ∈ del <-> b0 <= i < b1 /\ forall j, a0 <= j < a1 -> ~ same_label i j;
  j_ins : forall j, j ∈ ins <-> a0 <= j < a1 /\ forall i, b0 <= i < b1 -> ~ same_label i j;
  j_once : NoDup del /\ NoDup ins;
}.

Lemma joined_app b0 m b1 a0 n a1 P1 D1 I1 P2 D2 I2 :
  b0 <= m <= b1 -> a0 <= n <= a1 ->
  joined b0 m a0 n P1 D1 I1 -> joined m b1 n a1 P2 D2 I2 ->
  (forall i j, same_label i j -> i < m -> n <= j < a1 -> b0 <= i -> False) ->
  (forall i j, same_label i j -> m <= i -> j < n -> i < b1 -> a0 <= j -> False) ->
  joined b0 b1 a0 a1 (P1 ++ P2) (D1 ++ D2) (I1 ++ I2).
Proof.
  intros Hm Hn [O1 HP1 HD1 HI1 [ND1 NI1]] [O2 HP2 HD2 HI2 [ND2 NI2]] Hx1 Hx2. split.
  - by apply Forall_app.
  - intros i j. split.
    + intros (p & [Hp|Hp]%elem_of_app & Hin).
      * destruct (proj1 (HP1 i j)) as (? & ? & ?); [eauto|]. split_and!; [lia..|done].
      * destruct (proj1 (HP2 i j)) as (? & ? & ?); [eauto|]. split_and!; [lia..|done].
    + intros (Hi & Hj & Hs). destruct (decide (i < m)) as [Him|Him], (decide (j < n)) as [Hjn|Hjn].
      * destruct (proj2 (HP1 i j)) as (p & ? & ?); [split_and!; [lia..|done]|].
        exists p. split; [apply elem_of_app; by left|done].
      * exfalso. apply (Hx1 i j); [done|lia..].
      * exfalso. apply (Hx2 i j); [done|lia..].
      * destruct (proj2 (HP2 i j)) as (p & ? & ?); [split_and!; [lia..|done]|].
        exists p. split; [apply elem_of_app; by right|done].
  - intros i. rewrite elem_of_app, HD1, HD2. split.
    + intros [[Hi Hno]|[Hi Hno]]; (split; [lia|]; intros j Hj Hs).
      * destruct (decide (j < n)); [by apply (Hno j); [lia|]|]. apply (Hx1 i j); [done|lia..].
      * destruct (decide (j < n)); [apply (Hx2 i j); [done|lia..]|]. by apply (Hno j); [lia|].
    + intros [Hi Hno]. destruct (decide (i < m)); [left|right]; (split; [lia|]);
        intros j Hj; apply Hno; lia.
  - intros j. rewrite elem_of_app, HI1, HI2. split.
    + intros [[Hj Hno]|[Hj Hno]]; (split; [lia|]; intros i Hi Hs).
      * destruct (decide (i < m)); [by apply (Hno i); [lia|]|]. apply (Hx2 i j); [done|lia..].
      * destruct (decide (i < m)); [apply (Hx1 i j); [done|lia..]|]. by apply (Hno i); [lia|].
    + intros [Hj Hno]. destruct (decide (j < n)); [left|right]; (split; [lia|]);
        intros i Hi; apply Hno; lia.
  - split; apply NoDup_app; split_and!; try done.
    + intros i [? _]%HD1 [? _]%HD2. lia.
    + intros j [? _]%HI1 [? _]%HI2. lia.
Qed.

Lemma joined_deleted b0 b1 a0 a1 : a1 <= a0 -> joined b0 b1 a0 a1 [] (zrange b0 b1) (zrange a0 a1).
Proof.
  intros Ha. split; [done|..].
  - intros i j. split; [|lia]. intros (p & Hp & _). by apply elem_of_nil in Hp.
  - intros i. rewrite elem_of_zrange. split; [|tauto]. intros Hi. split; [done|]. lia.
  - intros j. rewrite elem_of_zrange. lia.
  - split; apply zrange_nodup.
Qed.

Lemma joined_inserted b0 b1 a0 a1 : b1 <= b0 -> joined b0 b1 a0 a1 [] (zrange b0 b1) (zrange a0 a1).
Proof.
  intros Hb. split; [done|..].
  - intros i j. split; [|lia]. intros (p & Hp & _). by apply elem_of_nil in Hp.
  - intros i. rewrite elem_of_zrange. lia.
  - intros j. rewrite elem_of_zrange. split; [|tauto]. intros Hj. split; [done|]. lia.
  - split; apply zrange_nodup.
Qed.

Lemma joined_block p :
  pair_ok p -> (forall i j, in_pair p i j -> same_label i j) ->
  joined (bStart p) (bEnd p) (aStart p) (aEnd p) [p] [] [].
Proof.
  intros [Hlt Hlen] Hsame. split; [by repeat constructor| | | |split; constructor].
  - intros i j. split.
    + intros (p' & Hp'%list_elem_of_singleton & Hin). subst p'. pose proof Hin as [? ?].
      split_and!; [lia..|by apply Hsame].
    + intros (Hi & Hj & Hs). exists p. split; [by left|]. split; [done|].
      apply (same_label_inj i); [done|]. by apply Hsame.
  - intros i. split; [intros Hi; by apply elem_of_nil in Hi|]. intros [Hi Hno].
    exfalso. apply (Hno (aStart p + (i - bStart p))); [lia|]. by apply Hsame.
  - intros j. split; [intros Hj; by apply elem_of_nil in Hj|]. intros [Hj Hno].
    exfalso. apply (Hno (bStart p + (j - aStart p))); [lia|]. apply Hsame. split; lia.
Qed.

(** A pair with equal labels separates what is before it from what is after it. *)
Lemma separates_before m n i j : same_label m n -> same_label i j -> i < m <-> j < n.
Proof. intros H1 H2. by apply same_label_mono. Qed.

(** * The merge of the gaps *)

Context (before after : GraphReader).
Context (before_labels : forall i, 0 <= i < zlen bl -> exists x, at_ bl i = Some x /\ gr_SplitLabel before i = Ok x).
Context (after_labels : forall j, 0 <= j < zlen al -> exists x, at_ al j = Some x /\ gr_SplitLabel after j = Ok x).

Lemma joined_cons_del b0 b1 a0 a1 P D I :
  b0 < b1 -> (forall j, a0 <= j < a1 -> ~ same_label b0 j) ->
  joined (b0 + 1) b1 a0 a1 P D I -> joined b0 b1 a0 a1 P (b0 :: D) I.
Proof.
  intros Hlt Hno [O HP HD HI [ND NI]]. split; [done|..].
  - intros i j. rewrite HP. split; [intros (? & ? & ?); split_and!; [lia..|done]|].
    intros (Hi & Hj & Hs). destruct (decide (i = b0)) as [->|]; [by destruct (Hno j)|].
    split_and!; [lia..|done].
  - intros i. rewrite elem_of_cons, HD. split.
    + intros [->|[Hi Hn]]; [split; [lia|done]|split; [lia|done]].
    + intros [Hi Hn]. destruct (decide (i = b0)) as [->|]; [by left|right; split; [lia|done]].
  - intros j. rewrite HI. split; intros [Hj Hn]; (split; [done|]); intros i Hi.
    + destruct (decide (i = b0)) as [->|]; [by apply Hno|apply Hn; lia].
    + apply Hn. lia.
  - split; [|done]. apply NoDup_cons. split; [|done]. intros [? _]%HD. lia.
Qed.

Lemma joined_cons_ins b0 b1 a0 a1 P D I :
  a0 < a1 -> (forall i, b0 <= i < b1 -> ~ same_label i a0) ->
  joined b0 b1 (a0 + 1) a1 P D I -> joined b0 b1 a0 a1 P D (a0 :: I).
Proof.
  intros Hlt Hno [O HP HD HI [ND NI]]. split; [done|..].
  - intros i j. rewrite HP. split; [intros (? & ? & ?); split_and!; [lia..|done]|].
    intros (Hi & Hj & Hs). destruct (decide (j = a0)) as [->|]; [by destruct (Hno i)|].
    split_and!; [lia..|done].
  - intros i. rewrite HD. split; intros [Hi Hn]; (split; [done|]); intros j Hj.
    + destruct (decide (j = a0)) as [->|]; [by apply Hno|apply Hn; lia].
    + apply Hn. lia.
  - intros j. rewrite elem_of_cons, HI. split.
    + intros [->|[Hj Hn]]; [split; [lia|done]|split; [lia|done]].
    + intros [Hj Hn]. destruct (decide (j = a0)) as [->|]; [by left|right; split; [lia|done]].
  - split; [done|]. apply NoDup_cons. split; [|done]. intros [? _]%HI. lia.
Qed.

Lemma joined_cons_pair b0 b1 a0 a1 P D I :
  b0 < b1 -> a0 < a1 -> same_label b0 a0 -> joined (b0 + 1) b1 (a0 + 1) a1 P D I ->
  joined b0 b1 a0 a1 ({| bStart := b0; bEnd := b0 + 1; aStart := a0; aEnd := a0 + 1 |} :: P) D I.
Proof.
  intros Hb Ha Hs HJ. set (p := {| bStart := b0; bEnd := _; aStart := _; aEnd := _ |}).
  apply (joined_app b0 (b0 + 1) b1 a0 (a0 + 1) a1 [p] [] []); [lia..| |done| |].
  - apply (joined_block p); [split; cbn; lia|]. intros i j [Hi ->]. cbn in Hi |- *.
    assert (i = b0) as -> by lia. by replace (a0 + (b0 - b0)) with a0 by lia.
  - intros i j H1 Hi Hj Hi'. assert (i = b0) as -> by lia.
    pose proof (same_label_inj _ _ _ Hs H1). lia.
  - intros i j H1 Hi Hj Hi' Hj'. assert (j = a0) as -> by lia.
    pose proof (same_label_inj' _ _ _ Hs H1). lia.
Qed.

Lemma mergeGap_spec fuel bi gb1 ai ga1 :
  0 <= bi -> gb1 <= zlen bl -> 0 <= ai -> ga1 <= zlen al ->
  (Z.to_nat (gb1 - bi) + Z.to_nat (ga1 - ai) < fuel)%nat ->
  exists P D I, mergeGap before after fuel bi gb1 ai ga1 = Ok (P, D, I) /\
    joined bi gb1 ai ga1 P D I.
Proof.
  revert bi ai. induction fuel as [|fuel IH]; intros bi ai Hb Hb1 Ha Ha1 Hf; [lia|]. cbn [mergeGap].
  destruct (decide (bi < gb1 /\ ai < ga1)) as [[Hbi Hai]|Hend].
  - destruct (before_labels bi) as (b & Hlb & ->); [lia|].
    destruct (after_labels ai) as (a & Hla & ->); [lia|]. cbn [mbind res_bind].
    destruct (decide (b = a)) as [<-|Hne].
    + destruct (IH (bi + 1) (ai + 1)) as (P & D & I & -> & HJ); [lia..|]. do 3 eexists.
      split; [reflexivity|]. apply joined_cons_pair; [done..| |done]. by exists b.
    + destruct (label_before b a) eqn:Eb.
      * apply label_before_lt in Eb. destruct (IH (bi + 1) ai) as (P & D & I & -> & HJ); [lia..|].
        do 3 eexists. split; [reflexivity|]. apply joined_cons_del; [done| |done].
        intros j Hj (x & Hx & Hxa). rewrite Hlb in Hx. injection Hx as ->.
        destruct (decide (j = ai)) as [->|]; [congruence|].
        pose proof (al_sorted _ _ _ _ Hla Hxa ltac:(lia)).
        eapply label_lt_irrefl, label_lt_trans; eauto.
      * apply label_not_before in Eb; [|done]. destruct (IH bi (ai + 1)) as (P & D & I & -> & HJ); [lia..|].
        do 3 eexists. split; [reflexivity|]. apply joined_cons_ins; [done| |done].
        intros i Hi (x & Hx & Hxa). rewrite Hla in Hxa. injection Hxa as ->.
        destruct (decide (i = bi)) as [->|]; [congruence|].
        pose proof (bl_sorted _ _ _ _ Hlb Hx ltac:(lia)).
        eapply label_lt_irrefl, label_lt_trans; eauto.
  - do 3 eexists. split; [reflexivity|]. destruct (decide (bi < gb1)).
    + apply joined_deleted. lia.
    + apply joined_inserted. lia.
Qed.

Lemma gap_spec b0 b1 a0 a1 :
  0 <= b0 -> b1 <= zlen bl -> 0 <= a0 -> a1 <= zlen al ->
  exists P D I, gap before after b0 b1 a0 a1 = Ok (P, D, I) /\ joined b0 b1 a0 a1 P D I.
Proof. intros. apply mergeGap_spec; [done..|lia]. Qed.

(** Digest matches in order, each between equal label runs. *)
Fixpoint chain (prevB prevA : Z) (ms : list matchedPair) : Prop :=
  match ms with
  | [] => prevB <= zlen bl /\ prevA <= zlen al
  | p :: ms =>
      prevB <= bStart p /\ prevA <= aStart p /\ pair_ok p /\
      (forall i j, in_pair p i j -> same_label i j) /\ chain (bEnd p) (aEnd p) ms
  end.

Lemma chain_bounds prevB prevA ms : chain prevB prevA ms -> prevB <= zlen bl /\ prevA <= zlen al.
Proof.
  revert prevB prevA. induction ms as [|p ms IH]; intros prevB prevA; [done|].
  intros (? & ? & [? ?] & _ & Hc). apply IH in Hc. lia.
Qed.

Lemma joined_perm b0 b1 a0 a1 P P' D I : P ≡ₚ P' -> joined b0 b1 a0 a1 P D I -> joined b0 b1 a0 a1 P' D I.
Proof.
  intros Hp [O HP HD HI N]. split; [by rewrite <- Hp| |done..]. intros i j. rewrite <- HP.
  split; intros (p & ? & ?); exists p; (split; [|done]); by rewrite Hp || by rewrite <- Hp.
Qed.

Lemma merge_gaps_spec ms prevB prevA :
  0 <= prevB -> 0 <= prevA -> chain prevB prevA ms ->
  exists P D I, merge_gaps before after ms prevB prevA (zlen bl) (zlen al) = Ok (P, D, I) /\
    joined prevB (zlen bl) prevA (zlen al) (ms ++ P) D I.
Proof.
  revert prevB prevA. induction ms as [|p ms IH]; intros prevB prevA Hb Ha; cbn [merge_gaps chain].
  { intros [? ?]. apply gap_spec; lia. }
  intros (Hpb & Hpa & [Hlt Hlen] & Hsame & Hc). pose proof (chain_bounds _ _ _ Hc) as [? ?].
  destruct (gap_spec prevB (bStart p) prevA (aStart p)) as (P1 & D1 & I1 & -> & HJ1); [lia..|].
  cbn [mbind res_bind].
  destruct (IH (bEnd p) (aEnd p)) as (P2 & D2 & I2 & -> & HJ2); [lia..|done|]. cbn [mbind res_bind].
  do 3 eexists. split; [reflexivity|].
  assert (same_label (bStart p) (aStart p)) as Hfirst.
  { apply Hsame. split; lia. }
  assert (same_label (bEnd p - 1) (aEnd p - 1)) as Hlast.
  { apply Hsame. split; lia. }
  apply (joined_perm _ _ _ _ (P1 ++ [p] ++ ms ++ P2)).
  { cbn [app]. rewrite (Permutation_app_comm P1). cbn [app]. apply Permutation_skip.
    rewrite <- app_assoc. apply Permutation_app_head, Permutation_app_comm. }
  apply (joined_app _ (bStart p) _ _ (aStart p) _ P1 D1 I1 ([p] ++ ms ++ P2) D2 I2); [lia..|done| | |].
  - apply (joined_app _ (bEnd p) _ _ (aEnd p) _ [p] [] [] (ms ++ P2) D2 I2); [lia..| |done| |].
    + by apply joined_block.
    + intros i j Hs Hi Hj _. pose proof (same_label_mono _ _ _ _ Hlast Hs). lia.
    + intros i j Hs Hi Hj _ _. pose proof (same_label_mono _ _ _ _ Hlast Hs). lia.
  - intros i j Hs Hi Hj _. pose proof (same_label_mono _ _ _ _ Hs Hfirst). lia.
  - intros i j Hs Hi Hj _ _. pose proof (same_label_mono _ _ _ _ Hs Hfirst). lia.
Qed.

(** * Digest matches *)

Lemma scan_queue_Some afterPos bLen queue ptr br ptr' :
  scan_queue afterPos bLen queue ptr = (Some br, ptr') ->
  br ∈ queue /\ afterPos <= br_start br /\ br_end br - br_start br = bLen.
Proof.
  revert ptr. induction queue as [|q queue IH]; intros ptr; [done|]. cbn [scan_queue].
  destruct (decide _) as [Hskip|Hskip].
  - intros H. apply IH in H as (? & ? & ?). split_and!; [by right|done..].
  - intros [= <- _]. split_and!; [by left|lia..].
Qed.

Lemma digest_map_spec i digests starts m :
  0 <= i -> i + zlen digests < zlen starts ->
  exists m', digest_map i digests starts m = Ok m' /\
    forall d br, br ∈ default [] (m' !! d) ->
      br ∈ default [] (m !! d) \/
      exists k, i <= k /\ at_ digests (k - i) = Some d /\
        at_ starts k = Some (br_start br) /\ at_ starts (k + 1) = Some (br_end br).
Proof.
  revert i m. induction digests as [|d0 digests IH]; intros i m Hi Hl; cbn [digest_map].
  { exists m. split; [done|]. intros d br H. by left. }
  rewrite zlen_cons in Hl. pose proof (zlen_nonneg digests).
  destruct (at_is_Some starts i) as [s Hs]; [lia|].
  destruct (at_is_Some starts (i + 1)) as [e He]; [lia|].
  rewrite !index_at, Hs, He. cbn [mbind res_bind].
  destruct (IH (i + 1) (<[d0 := default [] (m !! d0) ++ [{| br_start := s; br_end := e |}]]> m))
    as (m' & -> & Hm'); [lia..|].
  exists m'. split; [done|]. intros d br Hbr.
  destruct (Hm' d br Hbr) as [Hin|(k & Hk & Hd & ? & ?)].
  - destruct (decide (d = d0)) as [->|Hne].
    + rewrite lookup_insert_eq in Hin. cbn in Hin.
      apply elem_of_app in Hin as [?|Hbr'%list_elem_of_singleton]; [by left|right]. subst br.
      exists i. cbn. rewrite Z.sub_diag. done.
    + rewrite lookup_insert_ne in Hin by done. by left.
  - right. exists k. split_and!; [lia| |done..]. revert Hd. unfold at_.
    rewrite !decide_True by lia. by replace (Z.to_nat (k - i)) with (S (Z.to_nat (k - (i + 1)))) by lia.
Qed.

Section blocks.
Context (aDigestMap : gmap Z (list blockRange)) (bStarts bDigests : list Z).
Context (bStarts_length : zlen bStarts = zlen bDigests + 1).
Context (bStarts_mono : forall k s e, at_ bStarts k = Some s -> at_ bStarts (k + 1) = Some e -> 0 <= s < e).
Context (bStarts_bound : forall k s, at_ bStarts k = Some s -> s <= zlen bl).
Context (map_ok : forall d br, br ∈ default [] (aDigestMap !! d) ->
  0 <= br_start br < br_end br /\ br_end br <= zlen al).
(** Blocks with one digest and one length have the same labels. *)
Context (honest : forall k d s e br, at_ bDigests k = Some d -> at_ bStarts k = Some s ->
  at_ bStarts (k + 1) = Some e -> br ∈ default [] (aDigestMap !! d) ->
  br_end br - br_start br = e - s ->
  forall x, 0 <= x < e - s -> same_label (s + x) (br_start br + x)).

Lemma match_blocks_spec fuel bi ptrs afterPos prevB s :
  0 <= bi -> bi + Z.of_nat fuel = zlen bDigests ->
  at_ bStarts bi = Some s -> prevB <= s -> afterPos <= zlen al ->
  exists ms, match_blocks aDigestMap bStarts bDigests fuel bi ptrs afterPos = Ok ms /\
    chain prevB afterPos ms.
Proof.
  revert bi ptrs afterPos prevB s. induction fuel as [|fuel IH]; intros bi ptrs afterPos prevB s Hbi Hf Hs Hp Ha;
    cbn [match_blocks].
  { exists []. split; [done|]. cbn. pose proof (bStarts_bound _ _ Hs). lia. }
  destruct (at_is_Some bStarts (bi + 1)) as [e He]; [lia|].
  destruct (at_is_Some bDigests bi) as [d Hd]; [lia|].
  rewrite !index_at, Hs, He, Hd. cbn [mbind res_bind].
  pose proof (bStarts_mono _ _ _ Hs He) as Hse.
  destruct (aDigestMap !! d) as [queue|] eqn:Eq; [|by apply (IH _ _ _ _ e); [lia..| |lia|]].
  destruct (scan_queue afterPos (e - s) _ _) as [[br|] ptr] eqn:Esc; [|by apply (IH _ _ _ _ e); [lia..| |lia|]].
  apply scan_queue_Some in Esc as (Hin & Hpos & Hlen). apply list_elem_of_lookup_1 in Hin as [k Hk]. rewrite lookup_drop in Hk.
  assert (br ∈ default [] (aDigestMap !! d)) as Hbr.
  { rewrite Eq. cbn. by eapply list_elem_of_lookup_2. }
  pose proof (map_ok d br Hbr) as [? ?].
  destruct (IH (bi + 1) (<[d := ptr]> ptrs) (br_end br) e e) as (ms & -> & Hc); [lia..|done|lia|lia|].
  cbn [mbind res_bind]. eexists. split; [reflexivity|]. cbn [chain bStart bEnd aStart aEnd].
  split_and!; [done|done|split; cbn; lia| |done].
  intros i j [Hi ->]; cbn in Hi |- *. replace i with (s + (i - s)) at 1 by lia.
  apply (honest bi d s e br); [done..|lia].
Qed.
End blocks.

(** * Maximal runs *)

Definition in_run (r : alignedRun) (i j : Z) : Prop :=
  beforeStart r <= i < beforeStart r + run_length r /\ j = afterStart r + (i - beforeStart r).

Lemma merge_runs_spec prev run pairs :
  0 < run_length run -> beforeStart run + run_length run = bEnd prev ->
  afterStart run + run_length run = aEnd prev -> Forall pair_ok pairs ->
  Forall (fun r => 0 < run_length r) (merge_runs prev run pairs) /\
  forall i j, (exists r, r ∈ merge_runs prev run pairs /\ in_run r i j) <->
    in_run run i j \/ exists p, p ∈ pairs /\ in_pair p i j.
Proof.
  revert prev run. induction pairs as [|cur pairs IH]; intros prev run Hpos Hb Ha Hok; cbn [merge_runs].
  { split; [by repeat constructor|]. intros i j. split.
    - intros (r & Hr%list_elem_of_singleton & ?). subst r. by left.
    - intros [?|(p & Hp & _)]; [exists run; split; [by left|done]|by apply elem_of_nil in Hp]. }
  apply Forall_cons in Hok as [[Hlt Hlen] Hok]. case_decide as Hadj.
  - destruct (IH cur {| beforeStart := beforeStart run; afterStart := afterStart run;
      run_length := run_length run + (bEnd cur - bStart cur) |}) as [H1 H2]; [cbn; lia..|done|].
    split; [done|]. intros i j. rewrite H2. unfold in_run; cbn. split.
    + intros [[Hi ->]|(p & ? & ?)]; [|right; exists p; split; [by right|done]].
      destruct (decide (i < bEnd prev)); [left; lia|right]. exists cur. split; [by left|]. split; lia.
    + intros [?|(p & [->|Hp]%elem_of_cons & Hin)]; [left; lia|left; destruct Hin; lia|right; eauto].
  - destruct (IH cur {| beforeStart := bStart cur; afterStart := aStart cur;
      run_length := bEnd cur - bStart cur |}) as [H1 H2]; [cbn; lia..|done|].
    split; [by constructor|]. intros i j. split.
    + intros (r & [->|Hr]%elem_of_cons & Hin); [by left|right].
      destruct (proj1 (H2 i j)) as [[? ?]|(p & ? & ?)]; [eauto|exists cur|exists p];
        (split; [by constructor|]); [split; cbn in *; lia|done].
    + intros [Hin|(p & [->|Hp]%elem_of_cons & Hin)].
      * exists run. split; [by left|done].
      * destruct (proj2 (H2 i j)) as (r & ? & ?); [left; destruct Hin; split; cbn; lia|].
        exists r. split; [by right|done].
      * destruct (proj2 (H2 i j)) as (r & ? & ?); [right; eauto|]. exists r. split; [by right|done].
Qed.

Lemma runs_of_pairs_spec pairs :
  Forall pair_ok pairs ->
  Forall (fun r => 0 < run_length r) (runs_of_pairs pairs) /\
  forall i j, (exists r, r ∈ runs_of_pairs pairs /\ in_run r i j) <-> exists p, p ∈ pairs /\ in_pair p i j.
Proof.
  destruct pairs as [|p pairs]; intros Hok; cbn [runs_of_pairs].
  { split; [done|]. intros i j. split; intros (? & H & _); by apply elem_of_nil in H. }
  apply Forall_cons in Hok as [[Hlt Hlen] Hok].
  destruct (merge_runs_spec p {| beforeStart := bStart p; afterStart := aStart p;
    run_length := bEnd p - bStart p |} pairs) as [H1 H2]; [cbn; lia..|done|].
  split; [done|]. intros i j. rewrite H2. split.
  - intros [[? ?]|(q & ? & ?)]; [exists p|exists q]; (split; [by constructor|]); [split; cbn in *; lia|done].
  - intros (q & [->|Hq]%elem_of_cons & Hin); [left; destruct Hin; split; cbn; lia|right; eauto].
Qed.

(** What alignment promises: the runs pair exactly the nodes with equal labels, and
    the other nodes are reported, each once, on their side. *)
Record aligned (runs : list alignedRun) (del ins : list Z) : Prop := {
  al_pos : Forall (fun r => 0 < run_length r) runs;
  al_runs : forall i j, (exists r, r ∈ runs /\ in_run r i j) <-> same_label i j;
  al_del : forall i, i ∈ del <-> 0 <= i < zlen bl /\ forall j, ~ same_label i j;
  al_ins : forall j, j ∈ ins <-> 0 <= j < zlen al /\ forall i, ~ same_label i j;
  al_once : NoDup del /\ NoDup ins;
}.

Lemma same_label_range i j : same_label i j -> 0 <= i < zlen bl /\ 0 <= j < zlen al.
Proof. intros (x & Hb & Ha). split; by eapply at_Some_range. Qed.

Lemma joined_aligned sort_pairs P D I :
  (forall l, sort_pairs l ≡ₚ l) -> joined 0 (zlen bl) 0 (zlen al) P D I ->
  aligned (runs_of_pairs (sort_pairs P)) D I.
Proof.
  intros Hsort [O HP HD HI N].
  destruct (runs_of_pairs_spec (sort_pairs P)) as [H1 H2]; [by rewrite Hsort|].
  split; [done|..].
  - intros i j. rewrite H2. transitivity (exists p, p ∈ P /\ in_pair p i j).
    { split; intros (p & ? & ?); exists p; (split; [|done]); revert H; by rewrite (Hsort P). }
    rewrite HP. split; [tauto|]. intros Hs. pose proof (same_label_range _ _ Hs). tauto.
  - intros i. rewrite HD. split; intros [Hi Hno]; (split; [done|]); intros j; [|intros _; apply Hno].
    intros Hs. apply (Hno j); [by apply same_label_range in Hs as [_ ?]|done].
  - intros j. rewrite HI. split; intros [Hj Hno]; (split; [done|]); intros i; [|intros _; apply Hno].
    intros Hs. apply (Hno i); [by apply same_label_range in Hs as [? _]|done].
  - done.
Qed.

(** * Without digests *)

Lemma extend_runs_spec runs bi ai :
  Forall (fun r => 0 < run_length r) runs ->
  Forall (fun r => 0 < run_length r) (extend_runs runs bi ai) /\
  forall i j, (exists r, r ∈ extend_runs runs bi ai /\ in_run r i j) <->
    (exists r, r ∈ runs /\ in_run r i j) \/ i = bi /\ j = ai.
Proof.
  intros Hpos. unfold extend_runs.
  set (one := {| beforeStart := bi; afterStart := ai; run_length := 1 |}).
  assert (forall i j, in_run one i j <-> i = bi /\ j = ai) as Hone by (intros i j; unfold in_run; cbn; lia).
  destruct (reverse runs) as [|r rs] eqn:Er.
  { assert (runs = []) as -> by (by rewrite <- (reverse_involutive runs), Er). split; [by repeat constructor|].
    intros i j. rewrite <- Hone. split.
    - intros (r & Hr%list_elem_of_singleton & ?). subst r. by right.
    - intros [(r & Hr & _)|?]; [by apply elem_of_nil in Hr|]. exists one. split; [by left|done]. }
  assert (runs = reverse rs ++ [r]) as ->.
  { by rewrite <- (reverse_involutive runs), Er, reverse_cons. }
  apply Forall_app in Hpos as [Hrs [Hr _]%Forall_cons]. case_decide as Hadj.
  - split; [apply Forall_app; split; [done|repeat constructor; cbn; lia]|].
    set (r' := {| beforeStart := _; afterStart := _; run_length := _ |}).
    assert (forall i j, in_run r' i j <-> in_run r i j \/ i = bi /\ j = ai) as Hr'
      by (intros i j; unfold in_run; cbn; lia).
    intros i j. split.
    + intros (q & [Hq|Hq%list_elem_of_singleton]%elem_of_app & Hin).
      * left. exists q. split; [apply elem_of_app; by left|done].
      * subst q. apply Hr' in Hin as [?|?]; [left; exists r|by right].
        split; [apply elem_of_app; right; by left|done].
    + intros [(q & [Hq|Hq%list_elem_of_singleton]%elem_of_app & Hin)|Hin].
      * exists q. split; [apply elem_of_app; by left|done].
      * subst q. exists r'. split; [apply elem_of_app; right; by left|apply Hr'; by left].
      * exists r'. split; [apply elem_of_app; right; by left|apply Hr'; by right].
  - split; [repeat (apply Forall_app; split); repeat constructor; done|].
    intros i j. rewrite <- Hone. split.
    + intros (q & [Hq|Hq%list_elem_of_singleton]%elem_of_app & Hin); [left; eauto|subst q; by right].
    + intros [(q & Hq & Hin)|Hin]; [exists q|exists one]; (split; [apply elem_of_app|done]);
        [by left|right; by left].
Qed.

Lemma at_drop_cons {A} (l : list A) i x l' :
  0 <= i -> drop (Z.to_nat i) l = x :: l' ->
  at_ l i = Some x /\ drop (Z.to_nat (i + 1)) l = l' /\ i < zlen l.
Proof.
  intros Hi Hd. assert (l !! Z.to_nat i = Some x) as Hx.
  { rewrite <- (Nat.add_0_r (Z.to_nat i)), <- lookup_drop, Hd. done. }
  split_and!.
  - unfold at_. by rewrite decide_True.
  - replace (Z.to_nat (i + 1)) with (Z.to_nat i + 1)%nat by lia. by rewrite <- drop_drop, Hd.
  - apply lookup_lt_Some in Hx. unfold zlen. lia.
Qed.

Lemma drop_nil_zlen {A} (l : list A) i : 0 <= i -> drop (Z.to_nat i) l = [] -> zlen l <= i.
Proof. intros Hi Hd. apply (f_equal length) in Hd. rewrite length_drop in Hd. cbn in Hd. unfold zlen. lia. Qed.

Lemma zlen_drop {A} (l : list A) i : 0 <= i <= zlen l -> i + zlen (drop (Z.to_nat i) l) = zlen l.
Proof. intros Hi. unfold zlen in *. rewrite length_drop. lia. Qed.

Lemma join_labels_nil_l bi l2 ai runs :
  join_labels [] bi l2 ai runs = (runs, [], zrange ai (ai + zlen l2)).
Proof. by destruct l2. Qed.

Lemma join_labels_nil_r l1 bi ai runs :
  join_labels l1 bi [] ai runs = (runs, zrange bi (bi + zlen l1), []).
Proof.
  destruct l1; [|done]. cbn. unfold zrange. rewrite !Z.add_0_r, !Z.sub_diag. done.
Qed.

Lemma join_labels_cons b l1 bi a l2 ai runs :
  join_labels (b :: l1) bi (a :: l2) ai runs =
    if decide (b = a) then join_labels l1 (bi + 1) l2 (ai + 1) (extend_runs runs bi ai)
    else if label_before b a then
      let '(runs, del, ins) := join_labels l1 (bi + 1) (a :: l2) ai runs in (runs, bi :: del, ins)
    else
      let '(runs, del, ins) := join_labels (b :: l1) bi l2 (ai + 1) runs in (runs, del, ai :: ins).
Proof. done. Qed.

Lemma join_labels_spec l1 l2 bi ai runs :
  0 <= bi <= zlen bl -> 0 <= ai <= zlen al ->
  drop (Z.to_nat bi) bl = l1 -> drop (Z.to_nat ai) al = l2 ->
  Forall (fun r => 0 < run_length r) runs ->
  exists runs' P D I, join_labels l1 bi l2 ai runs = (runs', D, I) /\
    joined bi (zlen bl) ai (zlen al) P D I /\ Forall (fun r => 0 < run_length r) runs' /\
    forall i j, (exists r, r ∈ runs' /\ in_run r i j) <->
      (exists r, r ∈ runs /\ in_run r i j) \/ exists p, p ∈ P /\ in_pair p i j.
Proof.
  revert l2 bi ai runs. induction l1 as [|b l1 IH1]; intros l2 bi ai runs Hbi Hai Hl1.
  { intros Hl2 Hpos. apply drop_nil_zlen in Hl1; [|lia].
    exists runs, [], (zrange bi (zlen bl)), (zrange ai (zlen al)). split_and!; [|by apply joined_inserted|done|].
    - rewrite join_labels_nil_l, (zrange_empty bi) by lia. subst l2. by rewrite zlen_drop by lia.
    - intros i j. split; [by left|]. intros [?|(p & Hp & _)]; [done|by apply elem_of_nil in Hp]. }
  destruct (at_drop_cons bl bi b l1 ltac:(lia) Hl1) as (Hb & Hl1' & Hblt).
  revert ai runs Hai. induction l2 as [|a l2 IH2]; intros ai runs Hai Hl2 Hpos.
  { apply drop_nil_zlen in Hl2; [|lia].
    exists runs, [], (zrange bi (zlen bl)), (zrange ai (zlen al)). split_and!; [|by apply joined_deleted|done|].
    - rewrite join_labels_nil_r, (zrange_empty ai) by lia. rewrite <- Hl1. by rewrite zlen_drop by lia.
    - intros i j. split; [by left|]. intros [?|(p & Hp & _)]; [done|by apply elem_of_nil in Hp]. }
  destruct (at_drop_cons al ai a l2 ltac:(lia) Hl2) as (Ha & Hl2' & Halt).
  rewrite join_labels_cons. destruct (decide (b = a)) as [<-|Hne].
  - destruct (extend_runs_spec runs bi ai Hpos) as [He1 He2].
    destruct (IH1 l2 (bi + 1) (ai + 1) (extend_runs runs bi ai)) as (runs' & P & D & I & -> & HJ & Hp & Hr);
      [lia..|done|done|done|].
    exists runs', ({| bStart := bi; bEnd := bi + 1; aStart := ai; aEnd := ai + 1 |} :: P), D, I.
    split_and!; [done|apply joined_cons_pair; [done..|by exists b|done]|done|].
    intros i j. rewrite Hr, He2. split.
    + intros [[?|[-> ->]]|(p & ? & ?)]; [by left|right; eexists; split; [by left|split; cbn; lia]|].
      right. exists p. split; [by right|done].
    + intros [?|(p & [->|Hin]%elem_of_cons & Hij)]; [by left; left|left; right|right; eauto].
      destruct Hij; cbn in *; lia.
  - destruct (label_before b a) eqn:Eb.
    + apply label_before_lt in Eb.
      destruct (IH1 (a :: l2) (bi + 1) ai runs) as (runs' & P & D & I & -> & HJ & Hp & Hr); [lia..|done|done|done|].
      exists runs', P, (bi :: D), I. split_and!; [done| |done|done]. apply joined_cons_del; [done| |done].
      intros j Hj (x & Hx & Hxa). rewrite Hb in Hx. injection Hx as ->.
      destruct (decide (j = ai)) as [->|]; [congruence|].
      pose proof (al_sorted _ _ _ _ Ha Hxa ltac:(lia)). eapply label_lt_irrefl, label_lt_trans; eauto.
    + apply label_not_before in Eb; [|done].
      destruct (IH2 (ai + 1) runs) as (runs' & P & D & I & -> & HJ & Hp & Hr); [lia|done|done|].
      exists runs', P, D, (ai :: I).
      split_and!; [done| |done|done]. apply joined_cons_ins; [done| |done].
      intros i Hi (x & Hx & Hxa). rewrite Ha in Hxa. injection Hxa as ->.
      destruct (decide (i = bi)) as [->|]; [congruence|].
      pose proof (bl_sorted _ _ _ _ Hb Hx ltac:(lia)). eapply label_lt_irrefl, label_lt_trans; eauto.
Qed.

Lemma each_labels (f : Z -> res (bytes * bytes)) (l : list (bytes * bytes)) :
  (forall i, 0 <= i < zlen l -> exists x, at_ l i = Some x /\ f i = Ok x) ->
  each f (zrange 0 (zlen l)) = Ok l.
Proof.
  intros H. apply each_at, Forall2_same_length_lookup_2.
  - unfold zrange. rewrite length_fmap, length_seq. unfold zlen. lia.
  - intros k i y Hk Hy. unfold zrange in Hk. rewrite list_lookup_fmap in Hk.
    destruct (seq 0 _ !! k) as [k'|] eqn:E; [|done]. injection Hk as <-.
    apply lookup_seq in E as [-> Hlt]. destruct (H (0 + Z.of_nat (0 + k))) as (x & Hx & Hf).
    { apply lookup_lt_Some in Hy. unfold zlen. lia. }
    rewrite Hf. f_equal. unfold at_ in Hx. rewrite decide_True in Hx by lia.
    replace (Z.to_nat (0 + Z.of_nat (0 + k))) with k in Hx by lia. congruence.
Qed.

Lemma alignFallback_spec :
  exists runs D I, alignFallback before after (zlen bl) (zlen al) = Ok (runs, D, I) /\ aligned runs D I.
Proof.
  unfold alignFallback. rewrite (each_labels (gr_SplitLabel before) bl), (each_labels (gr_SplitLabel after) al)
    by done. cbn [mbind res_bind].
  destruct (join_labels_spec bl al 0 0 []) as (runs & P & D & I & -> & [O HP HD HI N] & Hpos & Hr);
    [pose proof (zlen_nonneg bl); lia|pose proof (zlen_nonneg al); lia|done..|].
  exists runs, D, I. split; [done|]. split; [done|..].
  - intros i j. rewrite Hr, HP. split.
    + intros [(r & Hin & _)|?]; [by apply elem_of_nil in Hin|tauto].
    + intros Hs. right. pose proof (same_label_range _ _ Hs). tauto.
  - intros i. rewrite HD. split; intros [Hi Hno]; (split; [done|]); intros j; [|intros _; apply Hno].
    intros Hs. apply (Hno j); [by apply same_label_range in Hs as [_ ?]|done].
  - intros j. rewrite HI. split; intros [Hj Hno]; (split; [done|]); intros i; [|intros _; apply Hno].
    intros Hs. apply (Hno i); [by apply same_label_range in Hs as [? _]|done].
  - done.
Qed.
End align.

(** * The contract of [align] *)

Lemma presents_labels R hb ns i :
  presents R hb ns -> 0 <= i < zlen (gn_key <$> ns) ->
  exists x, at_ (gn_key <$> ns) i = Some x /\ gr_SplitLabel R i = Ok x.
Proof.
  intros HR Hi. destruct (at_is_Some (gn_key <$> ns) i Hi) as [x Hx]. exists x. split; [done|].
  rewrite at_fmap in Hx. destruct (at_ ns i) as [n|] eqn:E; [|done]. injection Hx as <-.
  by apply (pr_split _ _ _ HR).
Qed.

Lemma presents_sorted R hb ns : presents R hb ns -> sorted_labels (gn_key <$> ns).
Proof.
  intros HR i j x y Hx Hy Hlt. rewrite at_fmap in Hx, Hy.
  destruct (at_ ns i) as [n|] eqn:E1; [|done]. destruct (at_ ns j) as [m|] eqn:E2; [|done].
  injection Hx as <-. injection Hy as <-. by apply (pr_sorted _ _ _ HR i j).
Qed.

Lemma block_starts_ok R n starts digests :
  blocks_ok R n starts digests -> block_starts R (gr_BlockCount R) n = Ok (starts ++ [n]).
Proof.
  intros HB. unfold block_starts. rewrite (bo_count _ _ _ _ HB), <- (bo_length _ _ _ _ HB).
  rewrite (each_at (gr_BlockStart R) (zrange 0 (zlen starts)) starts); [done|].
  apply Forall2_same_length_lookup_2.
  - pose proof (zlen_zrange 0 (zlen starts) ltac:(apply zlen_nonneg)). unfold zlen in *. lia.
  - intros k i s Hi Hs. apply (bo_starts _ _ _ _ HB). unfold at_.
    pose proof (at_zrange 0 (zlen starts) (Z.of_nat k)) as Hz. unfold at_ in Hz.
    apply lookup_lt_Some in Hs as Hlt. rewrite decide_True, Nat2Z.id in Hz by lia.
    rewrite Hz in Hi by (unfold zlen; lia). injection Hi as <-.
    rewrite decide_True by lia. by replace (Z.to_nat (0 + Z.of_nat k)) with k by lia.
Qed.

Lemma blocks_bound R n starts digests k s :
  blocks_ok R n starts digests -> at_ (starts ++ [n]) k = Some s -> s <= n.
Proof.
  intros HB Hs. pose proof (at_Some_range _ _ _ Hs) as Hk. rewrite zlen_app in Hk.
  change (zlen [n]) with 1 in Hk. pose proof (zlen_nonneg starts).
  remember (zlen starts - k) as m. assert (0 <= m) as Hm by lia. revert k s Hs Hk Heqm.
  apply (natlike_ind (fun m => forall k s, at_ (starts ++ [n]) k = Some s ->
    0 <= k < zlen starts + 1 -> m = zlen starts - k -> s <= n)); [| |done].
  - intros k s Hs Hk Heq. assert (k = zlen starts) as -> by lia. unfold at_ in Hs.
    rewrite decide_True, to_nat_zlen, list_lookup_middle in Hs by done. injection Hs as <-. lia.
  - intros m' Hm' IH k s Hs Hk Heq.
    destruct (at_is_Some (starts ++ [n]) (k + 1)) as [e He].
    { rewrite zlen_app. change (zlen [n]) with 1. lia. }
    pose proof (bo_mono _ _ _ _ HB _ _ _ Hs He). specialize (IH _ _ He ltac:(lia) ltac:(lia)). lia.
Qed.

Lemma empty_aligned_l al :
  aligned [] al [] [] (zrange 0 (zlen al)).
Proof.
  assert (forall i j, ~ same_label [] al i j) as Hno.
  { intros i j (x & Hx & _). apply at_Some_range in Hx. change (zlen []) with 0 in Hx. lia. }
  split; [done|..].
  - intros i j. split; [|by intros ?%Hno]. intros (r & Hr & _). by apply elem_of_nil in Hr.
  - intros i. split; [intros Hi; by apply elem_of_nil in Hi|]. change (zlen []) with 0. lia.
  - intros j. rewrite elem_of_zrange. split; [intros; split; [done|]; intros i; apply Hno|tauto].
  - split; [constructor|apply zrange_nodup].
Qed.

Lemma empty_aligned_r bl :
  aligned bl [] [] (zrange 0 (zlen bl)) [].
Proof.
  assert (forall i j, ~ same_label bl [] i j) as Hno.
  { intros i j (x & _ & Hx). apply at_Some_range in Hx. change (zlen []) with 0 in Hx. lia. }
  split; [done|..].
  - intros i j. split; [|by intros ?%Hno]. intros (r & Hr & _). by apply elem_of_nil in Hr.
  - intros i. rewrite elem_of_zrange. split; [intros; split; [done|]; intros j; apply Hno|tauto].
  - intros j. split; [intros Hj; by apply elem_of_nil in Hj|]. change (zlen []) with 0. lia.
  - split; [apply zrange_nodup|constructor].
Qed.

Section contract.
Context (sort_pairs : list matchedPair -> list matchedPair).
Context (sort_pairs_perm : forall l, sort_pairs l ≡ₚ l).
Context (Rb Ra : GraphReader) (hb : Z) (nb na : list gnode).
Context (Hb : presents Rb hb nb) (Ha : presents Ra hb na).

Lemma digests_align :
  gr_BlockCount Rb <> 0 -> gr_BlockCount Ra <> 0 -> digests_honest Rb Ra nb na ->
  exists runs D I, align sort_pairs Rb Ra = Ok (runs, D, I) /\ aligned (gn_key <$> nb) (gn_key <$> na) runs D I.
Proof.
  intros Hcb Hca Hhonest. unfold align.
  rewrite decide_False by tauto. rewrite !decide_False by done.
  destruct (pr_blocks _ _ _ Hb) as (bs & bd & HBb). destruct (pr_blocks _ _ _ Ha) as (as_ & ad & HBa).
  rewrite (bo_digests _ _ _ _ HBb), (bo_digests _ _ _ _ HBa). cbn [mbind res_bind].
  rewrite (pr_count _ _ _ Hb), (pr_count _ _ _ Ha).
  rewrite (block_starts_ok _ _ _ _ HBb), (block_starts_ok _ _ _ _ HBa). cbn [mbind res_bind].
  destruct (digest_map_spec 0 ad (as_ ++ [zlen na]) ∅) as (m & -> & Hm); [done| |].
  { rewrite zlen_app. change (zlen [_]) with 1. pose proof (bo_length _ _ _ _ HBa). lia. }
  cbn [mbind res_bind].
  assert (forall d br, br ∈ default [] (m !! d) -> exists l, at_ ad l = Some d /\
    at_ (as_ ++ [zlen na]) l = Some (br_start br) /\ at_ (as_ ++ [zlen na]) (l + 1) = Some (br_end br)) as Hm'.
  { intros d br Hbr. destruct (Hm d br Hbr) as [Hin|(l & _ & Hl & Hs & He)].
    - rewrite lookup_empty in Hin. by apply elem_of_nil in Hin.
    - exists l. by rewrite Z.sub_0_r in Hl. }
  pose proof (bo_count _ _ _ _ HBb) as Hcount. pose proof (bo_length _ _ _ _ HBb) as Hlen.
  pose proof (zlen_nonneg bd).
  destruct (at_is_Some (bs ++ [zlen nb]) 0) as [s0 Hs0].
  { rewrite zlen_app. change (zlen [_]) with 1. lia. }
  destruct (match_blocks_spec (gn_key <$> nb) (gn_key <$> na) m (bs ++ [zlen nb]) bd)
    with (fuel := Z.to_nat (gr_BlockCount Rb)) (bi := 0) (ptrs := (∅ : gmap Z nat)) (afterPos := 0)
      (prevB := 0) (s := s0) as (ms & -> & Hchain).
  - rewrite zlen_app. change (zlen [_]) with 1. lia.
  - apply (bo_mono _ _ _ _ HBb).
  - intros k s Hs. rewrite zlen_fmap. by eapply blocks_bound.
  - intros d br Hbr. destruct (Hm' d br Hbr) as (l & _ & Hs & He). rewrite zlen_fmap.
    split; [by eapply (bo_mono _ _ _ _ HBa)|by eapply blocks_bound].
  - intros k d s e br Hd Hs He Hbr Hl x Hx. destruct (Hm' d br Hbr) as (l & Hld & Hs' & He').
    by eapply (Hhonest bs bd as_ ad k l d).
  - done.
  - lia.
  - done.
  - destruct (at_is_Some (bs ++ [zlen nb]) 1) as [e0 He0].
    { rewrite zlen_app. change (zlen [_]) with 1. lia. }
    by apply (bo_mono _ _ _ _ HBb 0 _ e0).
  - apply zlen_nonneg.
  - cbn [mbind res_bind]. rewrite <- (zlen_fmap gn_key nb), <- (zlen_fmap gn_key na).
    destruct (merge_gaps_spec (gn_key <$> nb) (gn_key <$> na) (presents_sorted _ _ _ Hb)
      (presents_sorted _ _ _ Ha) Rb Ra) with (ms := ms) (prevB := 0) (prevA := 0)
      as (P & D & I & -> & HJ).
    + intros i. by apply (presents_labels Rb hb).
    + intros i. by apply (presents_labels Ra hb).
    + done.
    + done.
    + done.
    + cbn [mbind res_bind]. do 3 eexists. split; [reflexivity|]. by apply joined_aligned.
Qed.

(** [align] finds exactly the nodes with one label, the deleted and the inserted ones. *)
Lemma align_spec :
  blocks_comparable Rb Ra nb na -> digests_honest Rb Ra nb na ->
  exists runs D I, align sort_pairs Rb Ra = Ok (runs, D, I) /\ aligned (gn_key <$> nb) (gn_key <$> na) runs D I.
Proof.
  intros [Hc1 Hc2] Hhonest.
  destruct (decide (gr_BlockCount Rb = 0)) as [Eb|Eb], (decide (gr_BlockCount Ra = 0)) as [Ea|Ea];
    [| | |by apply digests_align].
  - unfold align. rewrite decide_True by done. rewrite (pr_count _ _ _ Hb), (pr_count _ _ _ Ha).
    pose proof (zlen_nonneg nb). pose proof (zlen_nonneg na). destruct (decide _) as [Hne|Hne].
    + rewrite <- (zlen_fmap gn_key nb), <- (zlen_fmap gn_key na).
      apply alignFallback_spec; [by eapply presents_sorted..| |]; intros i; by apply (presents_labels _ hb).
    + assert (nb = []) as -> by (destruct nb as [|n l]; [done|]; rewrite zlen_cons in *;
        pose proof (zlen_nonneg l); lia).
      assert (na = []) as -> by (destruct na as [|n l]; [done|]; rewrite zlen_cons in *;
        pose proof (zlen_nonneg l); lia).
      do 3 eexists. split; [reflexivity|]. apply (empty_aligned_l []).
  - destruct (Hc1 Eb) as [?| ->]; [done|]. unfold align. rewrite decide_False by tauto.
    rewrite decide_True by done. do 3 eexists. split; [reflexivity|].
    rewrite (pr_count _ _ _ Ha), <- (zlen_fmap gn_key na). apply empty_aligned_l.
  - destruct (Hc2 Ea) as [?| ->]; [done|]. unfold align. rewrite decide_False by tauto.
    rewrite decide_False, decide_True by done. do 3 eexists. split; [reflexivity|].
    rewrite (pr_count _ _ _ Hb), <- (zlen_fmap gn_key nb). apply empty_aligned_r.
Qed.
End contract.

(** * Property *)

(** C6: Alignment is exact.  For the readers of two graphs, both with digest blocks or both
    without (or empty), and digests that identify label runs, [align] succeeds and its
    runs pair precisely the nodes of the two graphs with one label; each other node is
    reported once, as deleted or inserted.  It does so whatever order the sort of the
    pairs leaves equal keys in, and wherever the digest blocks are cut. *)
Theorem align_correct (sort_pairs : list matchedPair -> list matchedPair)
  (Rb Ra : GraphReader) (hb : Z) (nb na : list gnode) :
  (forall l, sort_pairs l ≡ₚ l) -> presents Rb hb nb -> presents Ra hb na ->
  blocks_comparable Rb Ra nb na -> digests_honest Rb Ra nb na ->
  exists runs del ins, align sort_pairs Rb Ra = Ok (runs, del, ins) /\
    aligned (gn_key <$> nb) (gn_key <$> na) runs del ins.
Proof. intros Hs Hb Ha. by apply (align_spec sort_pairs Hs Rb Ra hb). Qed.
