(* ===== verification/TgbHash.v ===== *)
(** Phase 1 of the blob comparison is exact: among the paired nodes it marks those
    whose hash strings differ, and no others. *)
From Stdlib Require Import ZArith Lia.
From stdpp Require Import gmap.
From S2P Require Import Prelude Bfs TargetDiff Entity Encode Reader RoundTripAux GraphReader TgbDiff TgbAlign.

Local Open Scope Z_scope.

(** * Hash strings *)

Lemma hex_byte (c : byte) (s : bytes) n :
  hex_pairs (S n) (hex_digit (Z.shiftr (b2z c) 4) :: hex_digit (Z.land (b2z c) 15) :: s) =
  (rest ← hex_pairs n s; Ok (c :: rest)).
Proof.
  cbn [hex_pairs].
  assert (exists hi lo, hexNibble (hex_digit (Z.shiftr (b2z c) 4)) = Some hi /\
    hexNibble (hex_digit (Z.land (b2z c) 15)) = Some lo /\ z2b (Z.lor (Z.shiftl hi 4) lo) = c)
    as (hi & lo & -> & -> & ->); [|done].
  exists (Z.shiftr (b2z c) 4), (Z.land (b2z c) 15). destruct c; vm_compute; repeat split.
Qed.

Lemma hex_encode_decode b : hex_pairs (length b) (hexEncode b) = Ok b.
Proof.
  induction b as [|c b IH]; [done|]. unfold hexEncode. rewrite fmap_cons. cbn [concat app length].
  rewrite hex_byte. fold (hexEncode b). by rewrite IH.
Qed.

Lemma hexEncode_length b : length (hexEncode b) = (2 * length b)%nat.
Proof.
  induction b as [|c b IH]; [done|]. unfold hexEncode in *. rewrite fmap_cons. cbn [concat app length].
  rewrite IH. lia.
Qed.

Lemma hexEncode_inj a b : hexEncode a = hexEncode b -> a = b.
Proof.
  intros H. pose proof (hexEncode_length a) as Ha. rewrite H, hexEncode_length in Ha.
  pose proof (hex_encode_decode a) as Hd. rewrite H in Hd.
  replace (length a) with (length b) in Hd by lia. rewrite hex_encode_decode in Hd. congruence.
Qed.

Definition hash_len_ok (hb : Z) (n : gnode) : Prop :=
  zlen (gn_hash n) = hb /\ (gn_empty n = true -> gn_hash n = replicate (Z.to_nat hb) x00).

(** Two hash strings are equal when the stored bytes and the empty bits are. *)
Lemma hash_string_eq hb m n :
  0 < hb -> hash_len_ok hb m -> hash_len_ok hb n ->
  gn_hash_string m = gn_hash_string n <-> gn_hash m = gn_hash n /\ gn_empty m = gn_empty n.
Proof.
  intros Hhb [Hm Hme] [Hn Hne]. unfold gn_hash_string.
  assert (forall h : bytes, zlen h = hb -> hexEncode h <> []) as Hnonempty.
  { intros h Hh Hnil. apply (f_equal length) in Hnil. rewrite hexEncode_length in Hnil.
    cbn in Hnil. unfold zlen in Hh. lia. }
  destruct (gn_empty m), (gn_empty n).
  - rewrite Hme, Hne by done. done.
  - split; [|by intros []]. intros H. symmetry in H. by apply Hnonempty in H.
  - split; [|by intros []]. intros H. by apply Hnonempty in H.
  - split; [|by intros [-> _]]. intros H%hexEncode_inj. done.
Qed.

(** * Slices of a HASH column *)

Lemma zlen_concat_stride (hs : list bytes) hb : Forall (fun h => zlen h = hb) hs -> zlen (concat hs) = zlen hs * hb.
Proof.
  induction 1 as [|h hs Hh _ IH]; [done|]. cbn [concat]. rewrite zlen_app, zlen_cons. lia.
Qed.

Lemma slice_strides (hs : list bytes) hb lo len :
  0 <= hb -> Forall (fun h => zlen h = hb) hs -> 0 <= lo -> 0 <= len -> lo + len <= zlen hs ->
  slice (concat hs) (lo * hb) ((lo + len) * hb) = Ok (concat (take (Z.to_nat len) (drop (Z.to_nat lo) hs))).
Proof.
  intros Hhb Hs Hlo Hlen Hle. set (p := take (Z.to_nat lo) hs).
  set (m := take (Z.to_nat len) (drop (Z.to_nat lo) hs)). set (t := drop (Z.to_nat len) (drop (Z.to_nat lo) hs)).
  assert (hs = p ++ m ++ t) as E by (unfold p, m, t; by rewrite !take_drop).
  assert (zlen p = lo) as Hp by (unfold p, zlen in *; rewrite length_take; lia).
  assert (zlen m = len) as Hm by (unfold m, zlen in *; rewrite length_take, length_drop; lia).
  rewrite E in Hs. apply Forall_app in Hs as [Hsp [Hsm _]%Forall_app].
  pose proof (zlen_concat_stride p hb Hsp) as Hcp. pose proof (zlen_concat_stride m hb Hsm) as Hcm.
  rewrite E, !concat_app. replace (lo * hb) with (zlen (concat p)) by lia.
  replace ((lo + len) * hb) with (zlen (concat p) + zlen (concat m)) by lia. apply slice_app_mid.
Qed.

Lemma concat_stride_inj (hs hs' : list bytes) hb :
  0 < hb -> Forall (fun h => zlen h = hb) hs -> Forall (fun h => zlen h = hb) hs' ->
  concat hs = concat hs' -> hs = hs'.
Proof.
  intros Hhb Hs. revert hs'. induction Hs as [|h hs Hh Hs IH]; intros hs' [|h' hs'' Hh' Hs'].
  - done.
  - intros H. apply (f_equal zlen) in H. cbn [concat] in H. rewrite zlen_app in H.
    pose proof (zlen_nonneg (concat hs'')). change (zlen []) with 0 in H. lia.
  - intros H. apply (f_equal zlen) in H. cbn [concat] in H. rewrite zlen_app in H.
    pose proof (zlen_nonneg (concat hs)). change (zlen []) with 0 in H. lia.
  - cbn [concat]. intros H. apply app_inj_1 in H as [-> H]; [|unfold zlen in *; lia].
    f_equal. by apply IH.
Qed.

(** * Updates of [changedByAfter] along a run *)

(** [c'] is [c] with the nodes of the run that [differ] marked as changed, unless they
    are marked already. *)
Definition marks (differ : Z -> Z -> bool) (bs as_ len : Z) (c c' : list (option changedNode)) : Prop :=
  zlen c' = zlen c /\
  forall j, at_ c' j =
    match at_ c j with
    | Some None => if decide (as_ <= j < as_ + len /\ differ (bs + (j - as_)) j = true)
                   then Some (Some (changed_at (bs + (j - as_)) j)) else Some None
    | x => x
    end.

Lemma marks_none differ bs as_ len c :
  (forall k, 0 <= k < len -> differ (bs + k) (as_ + k) = false) -> marks differ bs as_ len c c.
Proof.
  intros Hno. split; [done|]. intros j. destruct (at_ c j) as [[]|]; [done| |done].
  rewrite decide_False; [done|]. intros [Hj Hd]. specialize (Hno (j - as_) ltac:(lia)).
  replace (as_ + (j - as_)) with j in Hno by lia. congruence.
Qed.

Lemma marks_app differ bs as_ l1 l2 c c' c'' :
  0 <= l1 -> 0 <= l2 -> marks differ bs as_ l1 c c' -> marks differ (bs + l1) (as_ + l1) l2 c' c'' ->
  marks differ bs as_ (l1 + l2) c c''.
Proof.
  intros H1 H2 [L1 A1] [L2 A2]. split; [congruence|]. intros j. rewrite A2, A1.
  replace (bs + l1 + (j - (as_ + l1))) with (bs + (j - as_)) by lia.
  destruct (at_ c j) as [[]|]; [done| |done].
  destruct (decide (as_ <= j < as_ + l1 /\ _)) as [Hin|Hout].
  - rewrite decide_True; [done|]. destruct Hin. split; [lia|done].
  - destruct (decide (as_ + l1 <= j < _ /\ _)) as [Hin|Hout'].
    + rewrite decide_True; [done|]. destruct Hin. split; [lia|done].
    + rewrite decide_False; [done|]. intros [Hj Hd]. destruct (decide (j < as_ + l1)); [apply Hout|apply Hout']; (split; [lia|done]).
Qed.

Lemma record_changed_marks differ bi ai c :
  0 <= ai < zlen c -> differ bi ai = true ->
  exists c', record_changed bi ai c = Ok c' /\ marks differ bi ai 1 c c'.
Proof.
  intros Hai Hd. unfold record_changed. rewrite index_at.
  destruct (at_is_Some c ai Hai) as [old Hold]. rewrite Hold. cbn [mbind res_bind].
  destruct old as [e|].
  - exists c. split; [done|]. split; [done|]. intros j. destruct (at_ c j) as [[]|] eqn:E; [done| |done].
    rewrite decide_False; [done|]. intros [Hj _]. assert (j = ai) as -> by lia. congruence.
  - destruct (set_index_Ok c ai (Some (changed_at bi ai)) Hai) as (c' & -> & Hl & Hat).
    exists c'. split; [done|]. split; [done|]. intros j. rewrite Hat.
    destruct (decide (j = ai)) as [->|Hne].
    + rewrite Hold, Z.sub_diag, Z.add_0_r, decide_True; [done|]. split; [lia|done].
    + destruct (at_ c j) as [[]|]; [done| |done]. rewrite decide_False; [done|]. intros [Hj _]. lia.
Qed.

Section hashes.
Context (hb : Z) (hsb hsa : list bytes).
Context (hb_pos : 0 < hb).
Context (hsb_len : Forall (fun h => zlen h = hb) hsb) (hsa_len : Forall (fun h => zlen h = hb) hsa).

Definition hash_differs (i j : Z) : bool := bool_decide (at_ hsb i <> at_ hsa j).

Lemma equal_slices bs as_ len :
  0 <= bs -> 0 <= as_ -> bs + len <= zlen hsb -> as_ + len <= zlen hsa ->
  take (Z.to_nat len) (drop (Z.to_nat bs) hsb) = take (Z.to_nat len) (drop (Z.to_nat as_) hsa) ->
  forall k, 0 <= k < len -> hash_differs (bs + k) (as_ + k) = false.
Proof.
  intros Hb Ha Hlb Hla E k Hk. unfold hash_differs. apply bool_decide_eq_false.
  intros Hne. apply Hne. unfold at_. rewrite !decide_True by lia.
  apply (f_equal (fun l => l !! Z.to_nat k)) in E. rewrite !lookup_take_lt, !lookup_drop in E by lia.
  rewrite !Z2Nat.inj_add by lia. done.
Qed.

(** The column slices of a run are equal, or differ somewhere. *)
Lemma run_slices bs as_ len :
  0 <= bs -> 0 <= as_ -> 0 <= len -> bs + len <= zlen hsb -> as_ + len <= zlen hsa ->
  exists x y, slice (concat hsb) (bs * hb) ((bs + len) * hb) = Ok x /\
    slice (concat hsa) (as_ * hb) ((as_ + len) * hb) = Ok y /\
    (x = y -> forall k, 0 <= k < len -> hash_differs (bs + k) (as_ + k) = false) /\
    (len = 1 -> x <> y -> hash_differs bs as_ = true).
Proof.
  intros Hb Ha Hl Hlb Hla. do 2 eexists. split; [apply slice_strides; done || lia|].
  split; [apply slice_strides; done || lia|]. split.
  - intros E. apply (concat_stride_inj _ _ hb) in E; [by apply equal_slices|done|..];
      by apply Forall_take, Forall_drop.
  - intros -> Hne. unfold hash_differs. apply bool_decide_eq_true. intros Hat. apply Hne.
    unfold at_ in Hat. rewrite !decide_True in Hat by done.
    change (Z.to_nat 1) with 1%nat. f_equal.
    destruct (drop (Z.to_nat bs) hsb) as [|h l] eqn:E1; destruct (drop (Z.to_nat as_) hsa) as [|h' l'] eqn:E2; cbn; [done|..].
    + apply (f_equal length) in E1. rewrite length_drop in E1. cbn in E1. unfold zlen in Hlb. lia.
    + apply (f_equal length) in E2. rewrite length_drop in E2. cbn in E2. unfold zlen in Hla. lia.
    + rewrite <- (Nat.add_0_r (Z.to_nat bs)), <- (Nat.add_0_r (Z.to_nat as_)), <- !lookup_drop, E1, E2 in Hat.
      injection Hat as ->. done.
Qed.

Lemma bisect_marks fuel bs as_ len c :
  0 <= bs -> 0 <= as_ -> 0 <= len -> bs + len <= zlen hsb -> as_ + len <= zlen hsa -> as_ + len <= zlen c ->
  (Z.to_nat len < fuel)%nat ->
  (len = 1 -> hash_differs bs as_ = true) ->
  exists c', bisectHashRun (concat hsb) (concat hsa) hb fuel bs as_ len c = Ok c' /\
    marks hash_differs bs as_ len c c'.
Proof.
  revert bs as_ len c. induction fuel as [|fuel IH]; intros bs as_ len c Hb Ha Hl Hlb Hla Hlc Hf H1; [lia|].
  cbn [bisectHashRun]. destruct (decide (len = 0)) as [->|H0].
  { exists c. split; [done|]. apply marks_none. lia. }
  destruct (decide (len = 1)) as [->|Hne1].
  { apply record_changed_marks; [lia|by apply H1]. }
  set (half := len / 2). assert (0 < half < len) as Hhalf.
  { unfold half. split; [apply Z.div_str_pos; lia|apply Z.div_lt; lia]. }
  assert (forall bs as_ l c, 0 <= bs -> 0 <= as_ -> 0 < l < len -> bs + l <= zlen hsb -> as_ + l <= zlen hsa ->
    as_ + l <= zlen c -> exists x y c',
    slice (concat hsb) (bs * hb) ((bs + l) * hb) = Ok x /\ slice (concat hsa) (as_ * hb) ((as_ + l) * hb) = Ok y /\
    (if decide (x = y) then Ok c else bisectHashRun (concat hsb) (concat hsa) hb fuel bs as_ l c) = Ok c' /\
    marks hash_differs bs as_ l c c') as Hside.
  { clear bs as_ c Hb Ha Hlb Hla Hlc H1. intros bs as_ l c Hb Ha Hl' Hlb Hla Hlc.
    destruct (run_slices bs as_ l) as (x & y & Hx & Hy & Heq & Hone); [lia..|]. exists x, y.
    destruct (decide (x = y)) as [E|E].
    - exists c. split_and!; [done..|]. apply marks_none. by apply Heq.
    - destruct (IH bs as_ l c) as (c' & Hc' & Hm); [lia..|intros ->; by apply Hone|].
      by exists c'. }
  destruct (Hside bs as_ half c) as (x & y & c1 & Hx & Hy & Hc1 & Hm1); [lia..|].
  rewrite Hx, Hy. cbn [mbind res_bind]. rewrite Hc1. cbn [mbind res_bind].
  destruct (Hside (bs + half) (as_ + half) (len - half) c1) as (x2 & y2 & c2 & Hx2 & Hy2 & Hc2 & Hm2);
    [lia..|destruct Hm1 as [-> _]; lia|].
  replace (bs + half + (len - half)) with (bs + len) in Hx2 by lia.
  replace (as_ + half + (len - half)) with (as_ + len) in Hy2 by lia.
  rewrite Hx2, Hy2. cbn [mbind res_bind]. exists c2. split; [done|].
  replace len with (half + (len - half)) by lia. apply (marks_app _ _ _ _ _ _ c1); [lia..|done|done].
Qed.

Lemma hash_run_marks r c :
  0 <= beforeStart r -> 0 <= afterStart r -> 0 < run_length r ->
  beforeStart r + run_length r <= zlen hsb -> afterStart r + run_length r <= zlen hsa ->
  zlen c = zlen hsa ->
  exists c', hash_run (concat hsb) (concat hsa) hb c r = Ok c' /\
    marks hash_differs (beforeStart r) (afterStart r) (run_length r) c c'.
Proof.
  intros Hb Ha Hl Hlb Hla Hlc. unfold hash_run.
  destruct (run_slices (beforeStart r) (afterStart r) (run_length r)) as (x & y & -> & -> & Heq & Hone); [lia..|].
  cbn [mbind res_bind]. destruct (decide (x = y)) as [E|E].
  - exists c. split; [done|]. apply marks_none. by apply Heq.
  - apply bisect_marks; [lia..|]. intros H1. by apply Hone.
Qed.
End hashes.

(** [c'] is [c] with the pairs of the [runs] that [differ] marked. *)
Definition marked_by (differ : Z -> Z -> bool) (runs : list alignedRun) (c c' : list (option changedNode)) : Prop :=
  zlen c' = zlen c /\
  forall j,
    (at_ c j <> Some None -> at_ c' j = at_ c j) /\
    (at_ c j = Some None ->
       (exists r i, r ∈ runs /\ in_run r i j /\ differ i j = true /\ at_ c' j = Some (Some (changed_at i j))) \/
       ((forall r i, r ∈ runs -> in_run r i j -> differ i j = false) /\ at_ c' j = Some None)).

Lemma marked_by_nil differ c : marked_by differ [] c c.
Proof.
  split; [done|]. intros j. split; [done|]. intros Hj. right. split; [|done].
  intros r i Hr. by apply elem_of_nil in Hr.
Qed.

Lemma marked_by_unchanged differ runs c :
  (forall r i j, r ∈ runs -> in_run r i j -> differ i j = false) -> marked_by differ runs c c.
Proof. intros Hno. split; [done|]. intros j. split; [done|]. intros Hj. right. split; [eauto|done]. Qed.

Lemma marked_by_snoc differ runs r c c1 c2 :
  marked_by differ runs c c1 ->
  marks differ (beforeStart r) (afterStart r) (run_length r) c1 c2 ->
  marked_by differ (runs ++ [r]) c c2.
Proof.
  intros [L1 A1] [L2 A2]. split; [congruence|]. intros j. destruct (A1 j) as [H1 H2].
  rewrite A2. split.
  - intros Hj. rewrite (H1 Hj). by destruct (at_ c j) as [[]|].
  - intros Hj. destruct (H2 Hj) as [(q & i & Hq & Hin & Hd & ->)|[Hno ->]].
    + left. exists q, i. split_and!; [apply elem_of_app; by left|done..].
    + destruct (decide _) as [[Hj' Hd]|Hout].
      * left. exists r, (beforeStart r + (j - afterStart r)).
        split_and!; [apply elem_of_app; right; by left|split; lia|done..].
      * right. split; [|done]. intros q i [Hq|Hq%list_elem_of_singleton]%elem_of_app Hin; [by eapply Hno|].
        subst q. destruct (differ i j) eqn:E; [|done]. exfalso. apply Hout. destruct Hin as [Hi ->].
        split; [lia|]. by replace (beforeStart r + (afterStart r + (i - beforeStart r) - afterStart r)) with i by lia.
Qed.

Lemma marked_by_fold differ (f : list (option changedNode) -> alignedRun -> res (list (option changedNode))) runs c :
  (forall r c1, r ∈ runs -> zlen c1 = zlen c -> exists c2, f c1 r = Ok c2 /\
     marks differ (beforeStart r) (afterStart r) (run_length r) c1 c2) ->
  exists c', fold_res f c runs = Ok c' /\ marked_by differ runs c c'.
Proof.
  intros Hf. apply (fold_res_inv f (fun past c' => marked_by differ past c c')).
  - apply marked_by_nil.
  - intros past r later c1 Hs Hm. destruct (Hf r c1) as (c2 & -> & Hmk).
    + rewrite Hs. apply elem_of_app. right. by left.
    + by destruct Hm.
    + exists c2. split; [done|]. by eapply marked_by_snoc.
Qed.

(** * The phase *)

#[export] Instance same_label_dec bl al i j : Decision (same_label bl al i j).
Proof.
  refine (cast_if (decide (is_Some (at_ bl i) /\ at_ bl i = at_ al j))); unfold same_label.
  - destruct a as [[x Hx] E]. exists x. by rewrite <- E.
  - intros (x & Hb & Ha). apply n. split; [by exists x|congruence].
Defined.

Section phase.
Context (Rb Ra : GraphReader) (hb : Z) (nb na : list gnode).
Context (Hb : presents Rb hb nb) (Ha : presents Ra hb na).
Context (runs : list alignedRun) (D I : list Z).
Context (Hal : aligned (gn_key <$> nb) (gn_key <$> na) runs D I).

Abbreviation same := (same_label (gn_key <$> nb) (gn_key <$> na)).

Lemma keys_sorted_b : sorted_labels (gn_key <$> nb).
Proof. by eapply presents_sorted. Qed.
Lemma keys_sorted_a : sorted_labels (gn_key <$> na).
Proof. by eapply presents_sorted. Qed.

Lemma run_bounds r : r ∈ runs ->
  0 < run_length r /\ 0 <= beforeStart r /\ 0 <= afterStart r /\
  beforeStart r + run_length r <= zlen nb /\ afterStart r + run_length r <= zlen na.
Proof.
  intros Hr. pose proof (al_pos _ _ _ _ _ Hal) as Hpos. rewrite Forall_forall in Hpos.
  specialize (Hpos r Hr). rewrite <- (zlen_fmap gn_key nb), <- (zlen_fmap gn_key na).
  assert (forall k, 0 <= k < run_length r -> same (beforeStart r + k) (afterStart r + k)) as Hs.
  { intros k Hk. apply (al_runs _ _ _ _ _ Hal). exists r. split; [done|]. split; lia. }
  pose proof (same_label_range _ _ _ _ (Hs 0 ltac:(lia))).
  pose proof (same_label_range _ _ _ _ (Hs (run_length r - 1) ltac:(lia))). lia.
Qed.

Lemma map_run_spec m r :
  r ∈ runs -> zlen m = zlen nb ->
  exists m', map_run m r = Ok m' /\ zlen m' = zlen nb /\
    forall i, at_ m' i = if decide (beforeStart r <= i < beforeStart r + run_length r)
                         then Some (afterStart r + (i - beforeStart r)) else at_ m i.
Proof.
  intros Hr Hm. destruct (run_bounds r Hr) as (H1 & H2 & H3 & H4 & H5).
  pose proof (pr_small _ _ _ Ha). unfold map_run.
  destruct (fold_res_inv (fun m k => set_index m (beforeStart r + k) (i32 (afterStart r + k)))
    (fun past m' => zlen m' = zlen nb /\ forall i, at_ m' i =
       if decide (beforeStart r <= i < beforeStart r + zlen past)
       then Some (afterStart r + (i - beforeStart r)) else at_ m i)
    (zrange 0 (run_length r)) m) as (m' & -> & Hl & Hat).
  - split; [done|]. intros i. rewrite decide_False; [done|]. change (zlen []) with 0. lia.
  - intros past k later m1 Hs [Hl Hat].
    assert (k = zlen past) as ->.
    { pose proof (at_zrange 0 (run_length r) (zlen past)) as Hz. rewrite Hs in Hz. unfold at_ in Hz.
      pose proof (zlen_nonneg past). rewrite decide_True, to_nat_zlen, list_lookup_middle in Hz by done.
      pose proof (zlen_zrange 0 (run_length r) ltac:(lia)) as Hlen. rewrite Hs, zlen_app, zlen_cons in Hlen.
      pose proof (zlen_nonneg later). specialize (Hz ltac:(lia)). by injection Hz. }
    pose proof (zlen_nonneg past).
    assert (zlen past < run_length r).
    { pose proof (zlen_zrange 0 (run_length r) ltac:(lia)) as Hlen. rewrite Hs, zlen_app, zlen_cons in Hlen.
      pose proof (zlen_nonneg later). lia. }
    destruct (set_index_Ok m1 (beforeStart r + zlen past) (i32 (afterStart r + zlen past)))
      as (m2 & -> & Hl2 & Hat2); [lia|].
    exists m2. split; [done|]. split; [lia|]. intros i. rewrite Hat2, zlen_app. change (zlen [_]) with 1.
    rewrite i32_small by lia. destruct (decide (i = beforeStart r + zlen past)) as [->|Hne].
    + rewrite decide_True by lia. f_equal. lia.
    + rewrite Hat. destruct (decide (beforeStart r <= i < beforeStart r + zlen past)).
      * by rewrite decide_True by lia.
      * by rewrite decide_False by lia.
  - exists m'. split; [done|]. split; [done|]. intros i. rewrite Hat, zlen_zrange by lia.
    by replace (run_length r - 0) with (run_length r) by lia.
Qed.

(** [beforeToAfter] maps a before node to the after node of its label, or to -1. *)
Definition b2a_ok (m : list Z) : Prop :=
  zlen m = zlen nb /\ forall i, 0 <= i < zlen nb -> exists j, at_ m i = Some j /\
    (same i j \/ j = -1 /\ forall j', ~ same i j').

Lemma beforeToAfter_spec :
  exists m, (m0 ← make_slice (zlen nb) (-1); fold_res map_run m0 runs) = Ok m /\ b2a_ok m.
Proof.
  unfold make_slice. rewrite decide_True by apply zlen_nonneg. cbn [mbind res_bind].
  destruct (fold_res_inv map_run (fun past m => zlen m = zlen nb /\
    forall i, 0 <= i < zlen nb -> exists j, at_ m i = Some j /\
      ((exists r, r ∈ past /\ in_run r i j) \/ j = -1 /\ forall r j', r ∈ past -> ~ in_run r i j'))
    runs (replicate (Z.to_nat (zlen nb)) (-1))) as (m & -> & Hl & Hat).
  - split; [unfold zlen; rewrite length_replicate; lia|]. intros i Hi. exists (-1).
    rewrite at_replicate, decide_True by lia. split; [done|]. right. split; [done|].
    intros r j' Hr. by apply elem_of_nil in Hr.
  - intros past r later m1 Hs [Hl Hat]. destruct (map_run_spec m1 r) as (m2 & -> & Hl2 & Hat2);
      [rewrite Hs; apply elem_of_app; right; by left|done|].
    exists m2. split; [done|]. split; [done|]. intros i Hi. rewrite Hat2. case_decide as Hin.
    + eexists. split; [done|]. left. exists r. split; [apply elem_of_app; right; by left|done].
    + destruct (Hat i Hi) as (j & Hj & Hcase). exists j. split; [done|].
      destruct Hcase as [(q & ? & ?)|[-> Hno]]; [left; exists q; split; [apply elem_of_app; by left|done]|right].
      split; [done|]. intros q j' [Hq|Hq%list_elem_of_singleton]%elem_of_app Hin'; [by eapply Hno|].
      subst q. by destruct Hin'.
  - exists m. split; [done|]. split; [done|]. intros i Hi. destruct (Hat i Hi) as (j & Hj & Hcase).
    exists j. split; [done|]. destruct Hcase as [Hin|[-> Hno]]; [left; by apply (al_runs _ _ _ _ _ Hal)|right].
    split; [done|]. intros j' Hs. apply (al_runs _ _ _ _ _ Hal) in Hs as (r & Hr & Hin). by eapply Hno.
Qed.

Lemma inserted_spec :
  exists c, (c0 ← make_slice (zlen na) None;
             fold_res (fun c ai => set_index c ai (Some (inserted_node ai))) c0 I) = Ok c /\
    zlen c = zlen na /\ forall j, 0 <= j < zlen na ->
      at_ c j = if decide (j ∈ I) then Some (Some (inserted_node j)) else Some None.
Proof.
  unfold make_slice. rewrite decide_True by apply zlen_nonneg. cbn [mbind res_bind].
  destruct (fold_res_inv (fun c ai => set_index c ai (Some (inserted_node ai)))
    (fun past c => zlen c = zlen na /\ forall j, 0 <= j < zlen na ->
      at_ c j = if decide (j ∈ past) then Some (Some (inserted_node j)) else Some None)
    I (replicate (Z.to_nat (zlen na)) None)) as (c & -> & H).
  - split; [unfold zlen; rewrite length_replicate; lia|]. intros j Hj.
    rewrite at_replicate, decide_True by lia. rewrite decide_False; [done|apply not_elem_of_nil].
  - intros past ai later c Hs [Hl Hat].
    assert (0 <= ai < zlen na) as Hai.
    { rewrite <- (zlen_fmap gn_key na). apply (al_ins _ _ _ _ _ Hal). rewrite Hs.
      apply elem_of_app. right. by left. }
    destruct (set_index_Ok c ai (Some (inserted_node ai))) as (c' & -> & Hl' & Hat'); [lia|].
    exists c'. split; [done|]. split; [lia|]. intros j Hj. rewrite Hat', Hat by done.
    destruct (decide (j = ai)) as [->|Hne].
    + rewrite decide_True; [done|]. apply elem_of_app. right. by left.
    + destruct (decide (j ∈ past)).
      * rewrite decide_True; [done|]. apply elem_of_app. by left.
      * rewrite decide_False; [done|]. rewrite elem_of_app, list_elem_of_singleton. tauto.
  - eauto.
Qed.

Definition hash_diff_at : Z -> Z -> bool := hash_differs (gn_hash <$> nb) (gn_hash <$> na).
Definition empty_diff_at (i j : Z) : bool :=
  bool_decide (gn_empty <$> at_ nb i <> gn_empty <$> at_ na j).

Lemma hashes_len R ns : presents R hb ns -> Forall (fun h => zlen h = hb) (gn_hash <$> ns).
Proof.
  intros HR. apply Forall_fmap. eapply Forall_impl; [apply (pr_hash_len _ _ _ HR)|]. by intros n [? _].
Qed.

Lemma hash_fold_spec c :
  zlen c = zlen na ->
  exists c', fold_res (hash_run (concat (gn_hash <$> nb)) (concat (gn_hash <$> na)) hb) c runs = Ok c' /\
    marked_by hash_diff_at runs c c'.
Proof.
  intros Hc. apply marked_by_fold. intros r c1 Hr Hc1. destruct (run_bounds r Hr) as (? & ? & ? & ? & ?).
  destruct (pr_stride _ _ _ Hb) as [_ Hpos].
  apply hash_run_marks; [done|by apply (hashes_len Rb)|by apply (hashes_len Ra)|done..| | |];
    rewrite ?zlen_fmap; done || lia.
Qed.

Lemma empty_bit_ok R ns bits i n :
  gr_HashEmptyBits R = Ok bits -> presents R hb ns -> at_ ns i = Some n -> empty_bit bits i = Ok (gn_empty n).
Proof.
  intros Hbits HR Hn. destruct (pr_empty _ _ _ HR) as (bits' & Hb' & H). rewrite Hbits in Hb'.
  injection Hb' as <-. specialize (H i n Hn). unfold empty_bit. destruct bits as [bits|].
  - destruct H as [Hlt ->]. by rewrite decide_True.
  - by rewrite H.
Qed.

Lemma empty_run_marks bb ab r c :
  gr_HashEmptyBits Rb = Ok bb -> gr_HashEmptyBits Ra = Ok ab -> r ∈ runs -> zlen c = zlen na ->
  exists c', empty_run bb ab c r = Ok c' /\
    marks empty_diff_at (beforeStart r) (afterStart r) (run_length r) c c'.
Proof.
  intros Hbb Hab Hr Hc. destruct (run_bounds r Hr) as (Hp & H0b & H0a & Hlb & Hla). unfold empty_run.
  set (step := fun _ _ => _).
  destruct (fold_res_inv step (fun past c' => marks empty_diff_at (beforeStart r) (afterStart r) (zlen past) c c')
    (zrange 0 (run_length r)) c) as (c' & Hc' & Hm).
  - apply marks_none. change (zlen []) with 0. lia.
  - intros past k later c1 Hs Hm.
    pose proof (zlen_zrange 0 (run_length r) ltac:(lia)) as Hlen. rewrite Hs, zlen_app, zlen_cons in Hlen.
    pose proof (zlen_nonneg later). pose proof (zlen_nonneg past).
    assert (k = zlen past) as ->.
    { pose proof (at_zrange 0 (run_length r) (zlen past) ltac:(lia)) as Hz. rewrite Hs in Hz. unfold at_ in Hz.
      rewrite decide_True, to_nat_zlen, list_lookup_middle in Hz by done. by injection Hz. }
    set (k := zlen past) in *. rewrite zlen_app. change (zlen [_]) with 1. fold k.
    enough (exists c', step c1 k = Ok c' /\ marks empty_diff_at (beforeStart r + k) (afterStart r + k) 1 c1 c')
      as (c' & -> & Hm') by (exists c'; split; [done|]; apply (marks_app _ _ _ _ _ _ c1); [lia..|done|done]).
    unfold step. destruct Hm as [Hl1 _].
    destruct (at_is_Some nb (beforeStart r + k)) as [m Hnm]; [lia|].
    destruct (at_is_Some na (afterStart r + k)) as [n Hnn]; [lia|].
    destruct (at_is_Some c1 (afterStart r + k)) as [old Hold]; [lia|].
    rewrite index_at, Hold. cbn [mbind res_bind].
    assert (empty_diff_at (beforeStart r + k) (afterStart r + k) = bool_decide (gn_empty m <> gn_empty n)) as Hd.
    { unfold empty_diff_at. rewrite Hnm, Hnn. apply bool_decide_ext. cbn. split; congruence. }
    destruct old as [e|].
    + exists c1. split; [done|]. split; [done|]. intros j. destruct (at_ c1 j) as [[]|] eqn:E; [done| |done].
      rewrite decide_False; [done|]. intros [Hj _]. assert (j = afterStart r + k) as -> by lia. congruence.
    + rewrite (empty_bit_ok Rb nb bb _ m Hbb Hb Hnm), (empty_bit_ok Ra na ab _ n Hab Ha Hnn). cbn [mbind res_bind].
      case_decide as Heq.
      * exists c1. split; [done|]. apply marks_none. intros x Hx. assert (x = 0) as -> by lia.
        rewrite !Z.add_0_r, Hd, Heq. apply bool_decide_eq_false. tauto.
      * destruct (record_changed_marks empty_diff_at (beforeStart r + k) (afterStart r + k) c1) as (c' & Hc' & Hmk);
          [lia|rewrite Hd; by apply bool_decide_eq_true|].
        unfold record_changed in Hc'. rewrite index_at, Hold in Hc'. by exists c'.
  - exists c'. split; [done|]. by rewrite zlen_zrange, Z.sub_0_r in Hm by lia.
Qed.

Lemma empty_fold_spec bb ab c :
  gr_HashEmptyBits Rb = Ok bb -> gr_HashEmptyBits Ra = Ok ab -> zlen c = zlen na ->
  exists c', (match bb, ab with
              | None, None => Ok c
              | _, _ => fold_res (empty_run bb ab) c runs
              end) = Ok c' /\ marked_by empty_diff_at runs c c'.
Proof.
  intros Hbb Hab Hc.
  assert (exists c', fold_res (empty_run bb ab) c runs = Ok c' /\ marked_by empty_diff_at runs c c') as Hfold.
  { apply marked_by_fold. intros r c1 Hr Hc1. apply empty_run_marks; [done..|congruence]. }
  destruct bb as [|], ab as [|]; try exact Hfold. exists c. split; [done|].
  apply marked_by_unchanged. intros r i j Hr Hin. unfold empty_diff_at. apply bool_decide_eq_false.
  assert (same i j) as Hs by (apply (al_runs _ _ _ _ _ Hal); eauto).
  pose proof (same_label_range _ _ _ _ Hs) as [Hi Hj]. rewrite !zlen_fmap in Hi, Hj.
  destruct (at_is_Some nb i Hi) as [m Hm]. destruct (at_is_Some na j Hj) as [n Hn]. rewrite Hm, Hn. cbn.
  pose proof (empty_bit_ok Rb nb None i m Hbb Hb Hm) as E1. pose proof (empty_bit_ok Ra na None j n Hab Ha Hn) as E2.
  cbn in E1, E2. injection E1 as <-. injection E2 as <-. tauto.
Qed.

(** The entry of an after node: nil when a before node has its label and hash string,
    a change when the hash strings differ, and new when no before node has its label. *)
Definition entry_ok (j : Z) (n : gnode) (e : option changedNode) : Prop :=
  match e with
  | None => exists i m, same i j /\ at_ nb i = Some m /\ gn_hash_string m = gn_hash_string n
  | Some cn =>
      (exists i m, cn = changed_at i j /\ same i j /\ at_ nb i = Some m /\ gn_hash_string m <> gn_hash_string n) \/
      (cn = inserted_node j /\ forall i, ~ same i j)
  end.

Lemma hash_diff_spec :
  exists b2a c, hash_diff Rb Ra runs D I = Ok (b2a, deleted_node <$> D, c) /\ b2a_ok b2a /\
    zlen c = zlen na /\ forall j n, at_ na j = Some n -> exists e, at_ c j = Some e /\ entry_ok j n e.
Proof.
  unfold hash_diff. rewrite (pr_hashes _ _ _ Hb), (pr_hashes _ _ _ Ha). cbn [mbind res_bind].
  destruct (pr_stride _ _ _ Hb) as [-> Hpos]. destruct (pr_stride _ _ _ Ha) as [-> _].
  rewrite bool_decide_false by tauto. cbn [guard_err mbind res_bind].
  rewrite (pr_count _ _ _ Hb), (pr_count _ _ _ Ha).
  destruct beforeToAfter_spec as (b2a & Hb2a & Hb2ok). destruct inserted_spec as (c1 & Hc1 & Hl1 & Hat1).
  apply bind_Ok in Hc1 as (c0 & -> & Hc1). apply bind_Ok in Hb2a as (m0 & -> & Hb2a).
  cbn [mbind res_bind]. rewrite Hb2a. cbn [mbind res_bind]. rewrite Hc1. cbn [mbind res_bind].
  destruct (hash_fold_spec c1 Hl1) as (c2 & -> & [Hl2 Hm2]). cbn [mbind res_bind].
  destruct (pr_empty _ _ _ Hb) as (bb & Hbb & _). destruct (pr_empty _ _ _ Ha) as (ab & Hab & _).
  rewrite Hbb, Hab. cbn [mbind res_bind].
  destruct (empty_fold_spec bb ab c2 Hbb Hab) as (c3 & -> & [Hl3 Hm3]); [lia|]. cbn [mbind res_bind].
  exists b2a, c3. split; [done|]. split; [done|]. split; [lia|]. intros j n Hn.
  pose proof (at_Some_range _ _ _ Hn) as Hj. destruct (Hm2 j) as [Hk2 Hn2]. destruct (Hm3 j) as [Hk3 Hn3].
  specialize (Hat1 j Hj).
  assert (forall i, same i j -> exists m, at_ nb i = Some m /\
    (gn_hash_string m = gn_hash_string n <-> hash_diff_at i j = false /\ empty_diff_at i j = false)) as Hstr.
  { intros i Hs. pose proof (same_label_range _ _ _ _ Hs) as [Hi _]. rewrite zlen_fmap in Hi.
    destruct (at_is_Some nb i Hi) as [m Hm]. exists m. split; [done|].
    pose proof (pr_hash_len _ _ _ Hb) as Hlb. pose proof (pr_hash_len _ _ _ Ha) as Hla.
    rewrite Forall_forall in Hlb, Hla.
    rewrite (hash_string_eq hb m n Hpos (Hlb m (at_elem _ _ _ Hm)) (Hla n (at_elem _ _ _ Hn))).
    unfold hash_diff_at, hash_differs, empty_diff_at. rewrite !at_fmap, Hm, Hn. cbn.
    rewrite !bool_decide_eq_false. split; [intros [-> ->]; tauto|]. intros [H1 H2].
    split; [destruct (decide (gn_hash m = gn_hash n)); [done|exfalso; apply H1; congruence]
           |destruct (decide (gn_empty m = gn_empty n)); [done|exfalso; apply H2; congruence]]. }
  destruct (decide (j ∈ I)) as [Hin|Hnin].
  - exists (Some (inserted_node j)). rewrite Hk3, Hk2, Hat1; [|congruence|rewrite Hk2, Hat1; congruence].
    split; [done|]. right. split; [done|]. by apply (al_ins _ _ _ _ _ Hal) in Hin as [_ ?].
  - destruct (Hn2 Hat1) as [(r & i & Hr & Hir & Hd & H2)|[Hno2 H2]].
    + exists (Some (changed_at i j)). rewrite Hk3, H2 by congruence. split; [done|]. left.
      assert (same i j) as Hs by (apply (al_runs _ _ _ _ _ Hal); eauto).
      destruct (Hstr i Hs) as (m & Hm & Hiff). exists i, m. split_and!; [done..|].
      intros [E _]%Hiff. congruence.
    + destruct (Hn3 H2) as [(r & i & Hr & Hir & Hd & H3)|[Hno3 H3]].
      * exists (Some (changed_at i j)). split; [done|]. left.
        assert (same i j) as Hs by (apply (al_runs _ _ _ _ _ Hal); eauto).
        destruct (Hstr i Hs) as (m & Hm & Hiff). exists i, m. split_and!; [done..|].
        intros [_ E]%Hiff. congruence.
      * exists None. split; [done|].
        assert (exists i, same i j) as [i Hs].
        { destruct (decide (Exists (fun i => same i j) (zrange 0 (zlen nb)))) as [He|He].
          - apply Exists_exists in He as (i & _ & ?). eauto.
          - exfalso. apply Hnin, (al_ins _ _ _ _ _ Hal). rewrite zlen_fmap. split; [done|].
            intros i Hs. apply He, Exists_exists. exists i. split; [|done]. apply elem_of_zrange.
            pose proof (same_label_range _ _ _ _ Hs) as [Hi _]. by rewrite zlen_fmap in Hi. }
        destruct (Hstr i Hs) as (m & Hm & Hiff). exists i, m. split_and!; [done..|].
        apply (al_runs _ _ _ _ _ Hal) in Hs as (r & Hr & Hir).
        apply Hiff. split; [by eapply Hno2|by eapply Hno3].
Qed.
End phase.

(** * Property *)

(** The bulk comparison of the hash columns finds the changed nodes.  For an alignment
    of the two graphs it reports every node without a partner as deleted or new, and
    records an entry for a paired node exactly when the two hash strings differ,
    although it compares slices of raw hashes, bisects only where they differ, and
    sees an empty hash as zero bytes.  The index map sends each node to its partner. *)
Theorem hash_diff_correct (Rb Ra : GraphReader) (hb : Z) (nb na : list gnode)
  (runs : list alignedRun) (del ins : list Z) :
  presents Rb hb nb -> presents Ra hb na -> aligned (gn_key <$> nb) (gn_key <$> na) runs del ins ->
  exists b2a c, hash_diff Rb Ra runs del ins = Ok (b2a, deleted_node <$> del, c) /\ b2a_ok nb na b2a /\
    zlen c = zlen na /\ forall j n, at_ na j = Some n -> exists e, at_ c j = Some e /\ entry_ok nb na j n e.
Proof. intros Hb Ha Hal. by apply (hash_diff_spec Rb Ra hb nb na Hb Ha runs). Qed.
