(* ===== verification/TgbReverse.v ===== *)
(** The reverse adjacency of [buildReverseCSR] ([internal/tgbdiff/compare.go]): row [v]
    lists, in order, the nodes that depend on [v]. *)
From Stdlib Require Import ZArith Lia.
From stdpp Require Import gmap.
From S2P Require Import Prelude Columns Entity Reader GraphReader TgbDiff.

Local Open Scope Z_scope.

(** * Sums and positions *)

Lemma zsum_app l1 l2 : zsum (l1 ++ l2) = zsum l1 + zsum l2.
Proof. unfold zsum. induction l1 as [|x l1 IH]; cbn; [done|]. rewrite IH. lia. Qed.

Lemma zsum_bounds l k : Forall (fun x => 0 <= x) l -> 0 <= zsum (take k l) <= zsum l.
Proof.
  intros Hl. revert k. induction Hl as [|x l Hx _ IH]; intros [|k]; cbn; try lia.
  - specialize (IH 0%nat). cbn in IH. unfold zsum in *. lia.
  - specialize (IH k). unfold zsum in *. lia.
Qed.

Lemma prefix_sums_at total l k :
  0 <= total -> Forall (fun x => 0 <= x) l -> total + zsum l < 2^31 -> 0 <= k <= zlen l ->
  at_ (prefix_sums total l) k = Some (total + zsum (take (Z.to_nat k) l)).
Proof.
  intros Ht Hl. revert total k Ht. induction Hl as [|x l Hx Hl IH]; intros total k Ht Hs Hk; cbn [prefix_sums];
    rewrite at_cons by lia.
  - change (zlen []) with 0 in Hk. rewrite decide_True, take_nil by lia. by rewrite Z.add_0_r.
  - rewrite zlen_cons in Hk. pose proof (zsum_bounds l 0 Hl) as Hz. change (zsum (take 0 l)) with 0 in Hz.
    change (zsum (x :: l)) with (x + zsum l) in Hs. case_decide as Hk0.
    + subst. by rewrite Z.add_0_r.
    + rewrite i32_small, IH by lia. replace (Z.to_nat k) with (S (Z.to_nat (k - 1))) by lia.
      cbn [take]. change (zsum (x :: ?l)) with (x + zsum l). f_equal. lia.
Qed.

(** * Edges *)

(** The edges of a graph in the order of the forward adjacency, and the sources of
    those into [v]. *)
Definition edges_of (rows : list (list Z)) : list (Z * Z) :=
  concat (imap (fun i r => (fun d => (Z.of_nat i, d)) <$> r) rows).
Definition sources_of (es : list (Z * Z)) (v : Z) : list Z := fst <$> filter (fun e => e.2 = v) es.

Lemma sources_app es es' v : sources_of (es ++ es') v = sources_of es v ++ sources_of es' v.
Proof. unfold sources_of. by rewrite filter_app, fmap_app. Qed.

Lemma sources_one i d v : sources_of [(i, d)] v = if decide (d = v) then [i] else [].
Proof. unfold sources_of. rewrite filter_cons. cbn. by case_decide. Qed.

Lemma elem_of_sources es i v : i ∈ sources_of es v <-> (i, v) ∈ es.
Proof.
  unfold sources_of. rewrite list_elem_of_fmap. split.
  - intros ([i' v'] & -> & H). by apply list_elem_of_filter in H as [<- ?].
  - intros H. exists (i, v). split; [done|]. by apply list_elem_of_filter.
Qed.

Lemma edges_snd rows : (edges_of rows).*2 = concat rows.
Proof.
  unfold edges_of. assert (forall (f : nat -> Z), (concat (imap (fun i r => (fun d => (f i, d)) <$> r) rows)).*2 = concat rows)
    as H; [|apply H].
  induction rows as [|r rows IH]; intros f; [done|]. rewrite imap_cons. cbn [concat]. rewrite fmap_app.
  f_equal; [|apply (IH (f ∘ S))]. rewrite <- list_fmap_compose. apply list_fmap_id.
Qed.

Lemma edges_zlen rows : zlen (edges_of rows) = zlen (concat rows).
Proof. unfold zlen. by rewrite <- edges_snd, length_fmap. Qed.

Lemma edges_app rows r rows' :
  exists rest, edges_of (rows ++ r :: rows') = edges_of rows ++ ((fun d => (zlen rows, d)) <$> r) ++ rest.
Proof.
  unfold edges_of. rewrite imap_app, concat_app, imap_cons. cbn [concat]. rewrite Nat.add_0_r. by eexists.
Qed.

Lemma elem_of_edges rows i d : (i, d) ∈ edges_of rows <-> exists r, at_ rows i = Some r /\ d ∈ r.
Proof.
  split.
  - unfold edges_of. rewrite list_elem_of_In, in_concat. intros (es & Hes%list_elem_of_In & Hin%list_elem_of_In).
    apply list_elem_of_lookup_1 in Hes as [k Hk]. rewrite list_lookup_imap in Hk.
    destruct (rows !! k) as [r|] eqn:Er; [|done]. injection Hk as <-.
    apply list_elem_of_fmap in Hin as (d' & [= -> ->] & Hd). exists r. unfold at_.
    by rewrite decide_True, Nat2Z.id by lia.
  - intros (r & Hr & Hd). pose proof (at_Some_range _ _ _ Hr). unfold at_ in Hr. rewrite decide_True in Hr by lia.
    apply list_elem_of_split_length in Hr as (l1 & l2 & -> & Hl). destruct (edges_app l1 r l2) as [rest ->].
    rewrite elem_of_app, elem_of_app. right; left. apply list_elem_of_fmap. exists d.
    split; [|done]. f_equal. unfold zlen. lia.
Qed.

(** The edges of node [i] follow those of the nodes before it. *)
Lemma edges_at rows i r k :
  at_ rows i = Some r -> zlen (concat (take (Z.to_nat i) rows)) <= k < zlen (concat (take (Z.to_nat i) rows)) + zlen r ->
  exists d, at_ (edges_of rows) k = Some (i, d).
Proof.
  intros Hr Hk. pose proof (at_Some_range _ _ _ Hr) as Hi. unfold at_ in Hr. rewrite decide_True in Hr by lia.
  apply list_elem_of_split_length in Hr as (l1 & l2 & -> & Hl). rewrite Hl, take_app_length in Hk.
  destruct (edges_app l1 r l2) as [rest ->]. rewrite at_app, edges_zlen, decide_False by lia.
  rewrite at_app, zlen_fmap, decide_True by lia. rewrite at_fmap.
  destruct (at_is_Some r (k - zlen (concat l1))) as [d ->]; [lia|]. exists d. cbn. f_equal. f_equal. unfold zlen. lia.
Qed.

(** * Counting and offsets *)

Lemma zsum_add {A} (f g : A -> Z) l : zsum ((fun x => f x + g x) <$> l) = zsum (f <$> l) + zsum (g <$> l).
Proof. induction l as [|x l IH]; [done|]. rewrite !fmap_cons. unfold zsum in *. cbn. lia. Qed.

Lemma zsum_indicator (l : list Z) d :
  NoDup l -> zsum ((fun x => if decide (d = x) then 1 else 0) <$> l) = if decide (d ∈ l) then 1 else 0.
Proof.
  induction 1 as [|x l Hx _ IH]; [done|]. rewrite fmap_cons.
  change (zsum (?y :: ?l)) with (y + zsum l). rewrite IH.
  destruct (decide (d = x)) as [->|Hne].
  - rewrite decide_False, decide_True; [done|by left|done].
  - destruct (decide (d ∈ l)); [rewrite decide_True by (by right)|rewrite decide_False by (by rewrite not_elem_of_cons)]; lia.
Qed.

Definition counts (n : Z) (es : list (Z * Z)) : list Z := (fun d => zlen (sources_of es d)) <$> zrange 0 n.

Lemma zlen_sources_snoc es i d v :
  zlen (sources_of (es ++ [(i, d)]) v) = zlen (sources_of es v) + if decide (d = v) then 1 else 0.
Proof. rewrite sources_app, sources_one, zlen_app. by case_decide. Qed.

Lemma counts_snoc n es i d :
  0 <= d < n -> counts n (es ++ [(i, d)]) = alter (fun x => x + 1) (Z.to_nat d) (counts n es).
Proof.
  intros Hd. apply list_eq. intros k. unfold counts. rewrite list_lookup_fmap.
  destruct (decide (k = Z.to_nat d)) as [->|Hne].
  - rewrite list_lookup_alter_eq, list_lookup_fmap. destruct (zrange 0 n !! Z.to_nat d) as [x|] eqn:E; [|done].
    apply lookup_zrange_Some in E as [-> _]. cbn. rewrite zlen_sources_snoc, decide_True by lia. done.
  - rewrite list_lookup_alter_ne, list_lookup_fmap by done. destruct (zrange 0 n !! k) as [x|] eqn:E; [|done].
    apply lookup_zrange_Some in E as [-> _]. cbn. rewrite zlen_sources_snoc, decide_False by lia. by rewrite Z.add_0_r.
Qed.

Lemma counts_nonneg n es : Forall (fun x => 0 <= x) (counts n es).
Proof. apply Forall_fmap, Forall_true. intros d. apply zlen_nonneg. Qed.

Lemma zlen_counts n es : 0 <= n -> zlen (counts n es) = n.
Proof. intros Hn. unfold counts. rewrite zlen_fmap, zlen_zrange; lia. Qed.

Lemma counts_at n es d : 0 <= d < n -> at_ (counts n es) d = Some (zlen (sources_of es d)).
Proof. intros Hd. unfold counts. rewrite at_fmap, at_zrange by lia. done. Qed.

Definition dests_in (n : Z) (es : list (Z * Z)) : Prop := Forall (fun e => 0 <= e.2 < n) es.

Lemma zsum_counts n es : dests_in n es -> zsum (counts n es) = zlen es.
Proof.
  induction es as [|[i d] es IH] using rev_ind; intros Hes.
  { unfold counts. induction (zrange 0 n) as [|x l IH]; [done|exact IH]. }
  apply Forall_app in Hes as [Hes [Hd _]%Forall_cons]. cbn in Hd. rewrite zlen_app, <- IH by done.
  change (zlen [(i, d)]) with 1. unfold counts.
  rewrite (list_fmap_ext _ (fun v => zlen (sources_of es v) + (if decide (d = v) then 1 else 0))
    (zrange 0 n) (fun _ v _ => zlen_sources_snoc es i d v)).
  rewrite zsum_add, (zsum_indicator (zrange 0 n) d (zrange_nodup 0 n)).
  rewrite decide_True; [done|by apply elem_of_zrange].
Qed.

Lemma count_edges n es :
  0 <= n -> dests_in n es -> zlen es < 2^31 ->
  foldl (count_edge n) (replicate (Z.to_nat n) 0) es.*2 = counts n es.
Proof.
  intros Hn. induction es as [|[i d] es IH] using rev_ind; intros Hes Hl.
  - cbn. apply list_eq. intros k. unfold counts. rewrite list_lookup_fmap.
    destruct (decide (k < Z.to_nat n)%nat) as [Hk|Hk].
    + rewrite lookup_replicate_2 by done. unfold zrange. rewrite list_lookup_fmap, lookup_seq_lt by lia. done.
    + rewrite (proj1 (lookup_replicate_None (Z.to_nat n) 0 k)) by lia. unfold zrange.
      rewrite list_lookup_fmap, lookup_seq_ge by lia. done.
  - apply Forall_app in Hes as [Hes [Hd _]%Forall_cons]. cbn in Hd. rewrite zlen_app in Hl. change (zlen [_]) with 1 in Hl.
    rewrite fmap_app, foldl_app, IH by (done || lia). cbn [fmap list_fmap foldl fst snd].
    rewrite counts_snoc by done. unfold count_edge. rewrite decide_True by done.
    apply list_alter_ext; [|done]. intros x Hx. apply i32_small.
    pose proof (zsum_counts n es Hes) as Hz. pose proof (counts_nonneg n es) as Hnn.
    apply list_elem_of_split_length in Hx as (l1 & l2 & Heq & _). rewrite Heq in Hz, Hnn.
    apply Forall_app in Hnn as [Hn1 [Hx Hn2]%Forall_cons]. rewrite zsum_app in Hz.
    change (zsum (x :: l2)) with (x + zsum l2) in Hz.
    pose proof (zsum_bounds l1 0 Hn1). pose proof (zsum_bounds l2 0 Hn2). lia.
Qed.

(** Where the row of [d] starts. *)
Definition off (n : Z) (es : list (Z * Z)) (d : Z) : Z := zsum (take (Z.to_nat d) (counts n es)).

Lemma off_succ n es d : 0 <= d < n -> off n es (d + 1) = off n es d + zlen (sources_of es d).
Proof.
  intros Hd. unfold off. replace (Z.to_nat (d + 1)) with (S (Z.to_nat d)) by lia.
  pose proof (counts_at n es d Hd) as Hat. unfold at_ in Hat. rewrite decide_True in Hat by lia.
  rewrite (take_S_r _ _ _ Hat), zsum_app. unfold zsum at 2. cbn. lia.
Qed.

Lemma zsum_take_mono l j k : Forall (fun x => 0 <= x) l -> (j <= k)%nat -> zsum (take j l) <= zsum (take k l).
Proof.
  intros Hl Hjk. replace (take j l) with (take j (take k l)) by (rewrite take_take; f_equal; lia).
  apply zsum_bounds. by apply Forall_take.
Qed.

Lemma off_mono n es d d' : d <= d' -> off n es d <= off n es d'.
Proof. intros Hd. apply zsum_take_mono; [apply counts_nonneg|lia]. Qed.

Lemma off_total n es : 0 <= n -> dests_in n es -> off n es n = zlen es.
Proof.
  intros Hn Hes. unfold off. rewrite take_ge; [by apply zsum_counts|].
  pose proof (zlen_counts n es Hn). unfold zlen in *. lia.
Qed.

(** * Scattering *)

Section scatter.
Context (n : Z) (es : list (Z * Z)).
Context (n_small : 0 <= n < 2^31) (Hes : dests_in n es) (es_small : zlen es < 2^31).

Abbreviation passed k := (take (Z.to_nat k) es).

(** The first [k] edges are scattered: each went to the next free place of its row. *)
Definition scattered (k : Z) (st : list Z * list Z) : Prop :=
  zlen st.1 = zlen es /\ zlen st.2 = n /\ forall d, 0 <= d < n ->
    at_ st.2 d = Some (off n es d + zlen (sources_of (passed k) d)) /\
    forall q x, at_ (sources_of (passed k) d) q = Some x -> at_ st.1 (off n es d + q) = Some x.

Lemma passed_prefix k d : zlen (sources_of (passed k) d) <= zlen (sources_of es d).
Proof.
  rewrite <- (take_drop (Z.to_nat k) es) at 2. rewrite sources_app, zlen_app.
  pose proof (zlen_nonneg (sources_of (drop (Z.to_nat k) es) d)). lia.
Qed.

Lemma passed_succ k i d : at_ es k = Some (i, d) -> passed (k + 1) = passed k ++ [(i, d)].
Proof.
  intros Hat. pose proof (at_Some_range _ _ _ Hat). unfold at_ in Hat. rewrite decide_True in Hat by lia.
  replace (Z.to_nat (k + 1)) with (S (Z.to_nat k)) by lia. by apply take_S_r.
Qed.

Lemma off_row d : 0 <= d < n -> 0 <= off n es d /\ off n es d + zlen (sources_of es d) <= zlen es.
Proof.
  intros Hd. rewrite <- off_succ by done. rewrite <- (off_total n es) by (done || lia).
  split; [apply (zsum_bounds _ _ (counts_nonneg n es))|apply off_mono; lia].
Qed.

(** Rows do not overlap. *)
Lemma rows_apart d d' q q' :
  0 <= d < n -> 0 <= d' < n -> d <> d' -> 0 <= q < zlen (sources_of es d) -> 0 <= q' < zlen (sources_of es d') ->
  off n es d + q <> off n es d' + q'.
Proof.
  intros Hd Hd' Hne Hq Hq'. pose proof (off_succ n es d Hd). pose proof (off_succ n es d' Hd').
  destruct (decide (d < d')).
  - pose proof (off_mono n es (d + 1) d' ltac:(lia)). lia.
  - pose proof (off_mono n es (d' + 1) d ltac:(lia)). lia.
Qed.

Lemma scatter_edge_spec k i d st :
  at_ es k = Some (i, d) -> 0 <= i < n -> scattered k st ->
  exists st', scatter_edge n i es.*2 st k = Ok st' /\ scattered (k + 1) st'.
Proof.
  intros Hat Hi (Hl1 & Hl2 & Hinv). destruct st as [targets pos]. cbn [fst snd] in *.
  assert (0 <= d < n) as Hd.
  { unfold dests_in in Hes. rewrite Forall_forall in Hes. apply (Hes (i, d)). by eapply at_elem. }
  unfold scatter_edge. rewrite index_at, at_fmap, Hat. cbn [fmap option_fmap option_map snd mbind res_bind].
  rewrite decide_True by done. destruct (Hinv d Hd) as [Hpos _]. rewrite index_at, Hpos. cbn [mbind res_bind].
  pose proof (passed_prefix (k + 1) d) as Hlt. rewrite (passed_succ k i d Hat), zlen_sources_snoc, decide_True in Hlt by done.
  pose proof (zlen_nonneg (sources_of (passed k) d)). pose proof (off_row d Hd).
  set (p := off n es d + zlen (sources_of (passed k) d)) in *.
  destruct (set_index_Ok targets p (i32 i)) as (targets' & -> & Hl1' & Hat1); [lia|]. cbn [mbind res_bind].
  destruct (set_index_Ok pos d (i32 (p + 1))) as (pos' & -> & Hl2' & Hat2); [lia|]. cbn [mbind res_bind].
  rewrite !i32_small in * by lia. eexists. split; [done|]. split; [cbn; lia|]. split; [cbn; lia|].
  intros d' Hd'. cbn [fst snd]. rewrite Hat2, (passed_succ k i d Hat), zlen_sources_snoc, sources_app, sources_one.
  destruct (Hinv d' Hd') as [Hpos' Hrow]. destruct (decide (d' = d)) as [->|Hne].
  - rewrite !decide_True by done. split; [f_equal; lia|]. intros q x. rewrite at_app, Hat1. case_decide as Hq.
    + intros Hx. rewrite decide_False by lia. by apply Hrow.
    + intros Hx. pose proof (at_Some_range _ _ _ Hx) as Hr. change (zlen [i]) with 1 in Hr.
      rewrite decide_True by lia. rewrite (at_cons i []), decide_True in Hx by lia. done.
  - rewrite !decide_False by done. rewrite app_nil_r, Z.add_0_r. split; [done|]. intros q x Hx.
    pose proof (at_Some_range _ _ _ Hx). pose proof (passed_prefix k d'). rewrite Hat1, decide_False; [by apply Hrow|].
    apply rows_apart; [done..|lia|lia].
Qed.

Lemma scatter_node_spec i fwdOff lo hi st :
  at_ fwdOff i = Some lo -> at_ fwdOff (i + 1) = Some hi -> 0 <= i < n -> lo <= hi ->
  (forall k, lo <= k < hi -> exists d, at_ es k = Some (i, d)) -> scattered lo st ->
  exists st', scatter_node n fwdOff es.*2 st i = Ok st' /\ scattered hi st'.
Proof.
  intros Hlo Hhi Hi Hle Hedge Hst. unfold scatter_node. pose proof (at_Some_range _ _ _ Hhi).
  rewrite decide_True by lia. rewrite !index_at, Hlo, Hhi. cbn [mbind res_bind].
  destruct (fold_res_inv (scatter_edge n i es.*2) (fun past st => scattered (lo + zlen past) st) (zrange lo hi) st)
    as (st' & Hst' & Hinv).
  - by rewrite zlen_nil, Z.add_0_r.
  - intros past k later st1 Hs H1. pose proof (at_zrange lo hi (zlen past)) as Hz.
    pose proof (zlen_zrange lo hi Hle) as Hl. rewrite Hs, zlen_app, zlen_cons in Hl.
    pose proof (zlen_nonneg past). pose proof (zlen_nonneg later). specialize (Hz ltac:(lia)).
    rewrite Hs, at_app, decide_False, Z.sub_diag, at_cons, decide_True in Hz by lia. injection Hz as ->.
    destruct (Hedge (lo + zlen past)) as [d Hd]; [lia|].
    destruct (scatter_edge_spec _ _ _ _ Hd Hi H1) as (st2 & ? & ?). exists st2. split; [done|].
    rewrite zlen_app, Z.add_assoc. done.
  - exists st'. split; [done|]. rewrite zlen_zrange in Hinv by done. by replace (lo + (hi - lo)) with hi in Hinv by lia.
Qed.
End scatter.

(** * The reverse adjacency *)

Section reverse.
Context (R : GraphReader) (hb : Z) (ns : list gnode) (HR : presents R hb ns).

Abbreviation n := (zlen ns).
Abbreviation rows := (gn_deps <$> ns).
Abbreviation es := (edges_of (gn_deps <$> ns)).

Lemma n_bounds : 0 <= n < 2^31.
Proof. split; [apply zlen_nonneg|apply (pr_small _ _ _ HR)]. Qed.

Lemma edges_in : dests_in n es.
Proof.
  apply Forall_forall. intros [i d] (r & Hr & Hd)%elem_of_edges. rewrite at_fmap in Hr.
  destruct (at_ ns i) as [m|] eqn:Em; [|done]. injection Hr as <-.
  destruct (pr_deps _ _ _ HR i m Em) as [_ Hf]. rewrite Forall_forall in Hf. by apply Hf.
Qed.

Lemma elem_of_row i v : i ∈ sources_of es v <-> exists m, at_ ns i = Some m /\ v ∈ gn_deps m.
Proof.
  rewrite elem_of_sources, (elem_of_edges rows). split.
  - intros (r & Hr & Hv). rewrite at_fmap in Hr. destruct (at_ ns i) as [m|]; [|done].
    injection Hr as <-. by exists m.
  - intros (m & Hm & Hv). exists (gn_deps m). by rewrite at_fmap, Hm.
Qed.

(** All edges are scattered when the loop over the nodes ends. *)
Lemma scatter_all offs st :
  (forall i m, at_ ns i = Some m -> exists lo, at_ offs i = Some lo /\
     at_ offs (i + 1) = Some (lo + zlen (gn_deps m)) /\ lo = zlen (concat (gn_deps <$> take (Z.to_nat i) ns))) ->
  zlen es < 2^31 -> scattered n es 0 st ->
  exists st', fold_res (scatter_node n offs es.*2) st (zrange 0 n) = Ok st' /\ scattered n es (zlen es) st'.
Proof.
  intros Hoffs Hsmall Hst. pose proof n_bounds as Hn.
  destruct (fold_res_inv (scatter_node n offs es.*2)
    (fun past st => scattered n es (zlen (concat (take (length past) rows))) st) (zrange 0 n) st)
    as (st' & Hst' & Hinv).
  - exact Hst.
  - intros past i later st1 Hs Hst1.
    assert (i = zlen past /\ 0 <= i < n) as [-> Hi].
    { pose proof (lookup_zrange_Some 0 n (length past) i) as H. rewrite Hs, list_lookup_middle in H by done.
      destruct H as [-> ?]; [done|]. unfold zlen in *. lia. }
    destruct (at_is_Some ns (zlen past) Hi) as [m Hm]. destruct (Hoffs _ m Hm) as (lo & Hlo & Hhi & Elo).
    rewrite to_nat_zlen, fmap_take in Elo.
    assert (at_ rows (zlen past) = Some (gn_deps m)) as Hr by by rewrite at_fmap, Hm.
    destruct (scatter_node_spec n es ltac:(lia) edges_in ltac:(lia) (zlen past) offs lo (lo + zlen (gn_deps m)) st1)
      as (st' & ? & Hst'); [done..|pose proof (zlen_nonneg (gn_deps m)); lia| |by rewrite Elo|].
    { intros k Hk. apply (edges_at rows (zlen past) (gn_deps m) k Hr). rewrite to_nat_zlen. lia. }
    exists st'. split; [done|]. rewrite length_app, Nat.add_1_r.
    unfold at_ in Hr. rewrite decide_True, to_nat_zlen in Hr by lia.
    rewrite (take_S_r _ _ _ Hr), concat_app, zlen_app. cbn [concat]. by rewrite app_nil_r, <- Elo.
  - exists st'. split; [done|]. rewrite take_ge, <- edges_zlen in Hinv; [done|].
    pose proof (zlen_zrange 0 n). unfold zlen in *. rewrite length_fmap. lia.
Qed.

Lemma row_offsets k :
  zlen es < 2^31 -> 0 <= k <= n -> at_ (prefix_sums 0 (counts n es)) k = Some (off n es k).
Proof.
  intros Hs Hk. pose proof n_bounds. rewrite prefix_sums_at; [done|done|apply counts_nonneg| |].
  - rewrite zsum_counts by apply edges_in. lia.
  - rewrite zlen_counts; lia.
Qed.

(** Row [v] lists the nodes that depend on [v]. *)
Lemma buildReverseCSR_spec :
  exists offsets targets, buildReverseCSR R n = Ok (offsets, targets) /\
  forall v, 0 <= v < n -> exists row, csr_row offsets targets v = Ok row /\
    forall i, i ∈ row <-> exists m, at_ ns i = Some m /\ v ∈ gn_deps m.
Proof.
  destruct (pr_csr _ _ _ HR) as (offs & Hcsr & _ & Hsmall & Hoffs). pose proof n_bounds as Hn.
  pose proof edges_in as Hes. rewrite <- edges_zlen in Hsmall. pose proof (fun k => row_offsets k Hsmall) as Hoff.
  unfold buildReverseCSR. rewrite Hcsr. cbn [mbind res_bind]. unfold make_slice.
  rewrite decide_True by lia. cbn [mbind res_bind]. rewrite <- edges_snd, count_edges by (done || lia).
  set (offsets := prefix_sums 0 (counts n es)) in *.
  rewrite index_at, Hoff, off_total by (done || lia). cbn [mbind res_bind].
  rewrite decide_True by apply zlen_nonneg. cbn [mbind res_bind].
  destruct (scatter_all offs (replicate (Z.to_nat (zlen es)) 0, take (Z.to_nat n) offsets) Hoffs Hsmall)
    as ([targets pos] & -> & Hlt & _ & Hrow).
  { split; [cbn; unfold zlen; rewrite length_replicate; lia|]. split.
    - cbn. pose proof (Hoff n ltac:(lia)) as H. apply at_Some_range in H. unfold zlen in *. rewrite length_take. lia.
    - intros d Hd. cbn [fst snd]. split; [|by intros q x Hx%at_Some_range; change (zlen (sources_of (take (Z.to_nat 0) es) d)) with 0 in Hx; lia].
      pose proof (Hoff d ltac:(lia)) as H. unfold at_ in H |- *. rewrite decide_True in H |- * by lia.
      rewrite lookup_take_lt, H by lia. f_equal. change (zlen (sources_of (take (Z.to_nat 0) es) d)) with 0. lia. }
  cbn [mbind res_bind]. exists offsets, targets. split; [done|]. intros v Hv. exists (sources_of es v).
  split; [|intros i; apply elem_of_row]. destruct (Hrow v Hv) as [_ Hat]. cbn [fst snd] in *.
  rewrite to_nat_zlen, firstn_all in Hat. destruct (off_row n es ltac:(lia) Hes v Hv) as [? ?].
  unfold csr_row. rewrite !index_at, !Hoff, off_succ by lia. cbn [mbind res_bind].
  apply slice_at; [lia|lia|]. intros k Hk. destruct (at_is_Some (sources_of es v) k Hk) as [x Hx].
  rewrite Hx. by apply Hat.
Qed.
End reverse.

(** * Property *)

(** The counting, prefix-sum and scatter passes build the reverse adjacency: every row
    can be sliced out, and row [v] holds exactly the nodes that list [v] among their
    dependencies. *)
Theorem buildReverseCSR_correct (R : GraphReader) (hb : Z) (ns : list gnode) :
  presents R hb ns ->
  exists offsets targets, buildReverseCSR R (zlen ns) = Ok (offsets, targets) /\
  forall v, 0 <= v < zlen ns -> exists row, csr_row offsets targets v = Ok row /\
    forall i, i ∈ row <-> exists m, at_ ns i = Some m /\ v ∈ gn_deps m.
Proof. apply buildReverseCSR_spec. Qed.
