(* ===== verification/TgbCompare.v ===== *)
(** The comparison of two blobs finds what the comparison of their semantic graphs
    finds: phases 2 and 3 of [internal/tgbdiff/compare.go], and the whole. *)
From Stdlib Require Import ZArith Lia.
From stdpp Require Import gmap.
From S2P Require Import Prelude Bfs TargetDiff Entity Encode Reader GraphReader TgbDiff TgbAlign TgbHash.

Local Open Scope Z_scope.

(** * Semantic graphs *)

Definition node_label (ns : list gnode) (d : Z) : bytes :=
  match at_ ns d with Some n => gn_label n | None => [] end.

(** The semantic target of a node, with the attributes of the allowlist and the tags
    that have a name. *)
Definition sem_target (seedAttrs : option (gset bytes)) (ns : list gnode) (n : gnode) : Target :=
  {| tg_Name := gn_label n; tg_Hash := gn_hash_string n; tg_RuleType := gn_rt n;
     tg_Dependencies := node_label ns <$> gn_deps n; tg_Tags := filter (fun s => s <> []) (gn_tags n);
     tg_Attributes := filter_attrs seedAttrs (gn_attrs n);
     tg_Root := gn_root n; tg_External := gn_external n |}.

Definition sem_graph (seedAttrs : option (gset bytes)) (ns : list gnode) : TargetDiff.Graph :=
  list_to_map ((fun n => (gn_label n, sem_target seedAttrs ns n)) <$> ns).

Lemma splitLabel_joinLabel p n : colon ∉ n -> splitLabel (joinLabel p n) = (p, n).
Proof.
  intros Hn. destruct p as [|c p].
  - unfold splitLabel, joinLabel. by apply split_last_colon_None in Hn as ->.
  - unfold joinLabel, splitLabel. pose proof (split_app_colon (c :: p) n Hn) as E. cbn [app] in *. by rewrite E.
Qed.

Lemma joinLabel_inj p n p' n' :
  colon ∉ n -> colon ∉ n' -> joinLabel p n = joinLabel p' n' -> (p, n) = (p', n').
Proof. intros H1 H2 E. by rewrite <- (splitLabel_joinLabel p n), E, splitLabel_joinLabel. Qed.

Section graph.
Context (R : GraphReader) (hb : Z) (ns : list gnode) (HR : presents R hb ns).
Context (seedAttrs : option (gset bytes)).

Lemma name_ok i n : at_ ns i = Some n -> (colon ∉ gn_name n) /\ gn_label n <> [].
Proof.
  intros Hn. pose proof (pr_names _ _ _ HR) as H. rewrite Forall_forall in H. by apply H, (at_elem _ i).
Qed.

Lemma label_inj i j n m :
  at_ ns i = Some n -> at_ ns j = Some m -> gn_label n = gn_label m -> i = j.
Proof.
  intros Hn Hm E. apply joinLabel_inj in E; [|by eapply name_ok..].
  destruct (Z.lt_trichotomy i j) as [Hlt|[->|Hlt]]; [|done|].
  - pose proof (pr_sorted _ _ _ HR _ _ _ _ Hn Hm Hlt) as Hs. unfold gn_key in Hs. rewrite E in Hs.
    by apply label_lt_irrefl in Hs.
  - pose proof (pr_sorted _ _ _ HR _ _ _ _ Hm Hn Hlt) as Hs. unfold gn_key in Hs. rewrite E in Hs.
    by apply label_lt_irrefl in Hs.
Qed.

Lemma labels_nodup : NoDup (gn_label <$> ns).
Proof.
  apply NoDup_alt. intros k k' l Hk Hk'. rewrite list_lookup_fmap in Hk, Hk'.
  destruct (ns !! k) as [n|] eqn:E; [|done]. destruct (ns !! k') as [m|] eqn:E'; [|done].
  injection Hk as <-. injection Hk' as Hl.
  assert (at_ ns (Z.of_nat k) = Some n) as H1 by (unfold at_; by rewrite decide_True, Nat2Z.id by lia).
  assert (at_ ns (Z.of_nat k') = Some m) as H2 by (unfold at_; by rewrite decide_True, Nat2Z.id by lia).
  pose proof (label_inj _ _ _ _ H1 H2 (eq_sym Hl)). lia.
Qed.

Lemma sem_lookup l t :
  sem_graph seedAttrs ns !! l = Some t <->
  exists i n, at_ ns i = Some n /\ l = gn_label n /\ t = sem_target seedAttrs ns n.
Proof.
  unfold sem_graph. rewrite <- elem_of_list_to_map.
  - rewrite list_elem_of_fmap. split.
    + intros (n & [= -> ->] & [i Hi]%elem_at). eauto.
    + intros (i & n & Hn & -> & ->). exists n. split; [done|]. by eapply at_elem.
  - rewrite <- list_fmap_compose. apply labels_nodup.
Qed.

Lemma sem_lookup_at i n : at_ ns i = Some n -> sem_graph seedAttrs ns !! gn_label n = Some (sem_target seedAttrs ns n).
Proof. intros Hn. apply sem_lookup. eauto. Qed.

Lemma sem_dom l : sem_graph seedAttrs ns !! l = None <-> forall i n, at_ ns i = Some n -> gn_label n <> l.
Proof.
  split.
  - intros H i n Hn <-. by rewrite (sem_lookup_at _ _ Hn) in H.
  - intros H. destruct (sem_graph seedAttrs ns !! l) as [t|] eqn:E; [|done].
    apply sem_lookup in E as (i & n & Hn & -> & _). by destruct (H i n).
Qed.

Lemma dep_node i n d : at_ ns i = Some n -> d ∈ gn_deps n -> exists m, at_ ns d = Some m /\ node_label ns d = gn_label m.
Proof.
  intros Hn Hd. destruct (pr_deps _ _ _ HR i n Hn) as [_ Hr]. rewrite Forall_forall in Hr.
  destruct (at_is_Some ns d (Hr d Hd)) as [m Hm]. exists m. split; [done|]. unfold node_label. by rewrite Hm.
Qed.

(** The labels a node depends on are the labels of the nodes it depends on. *)
Lemma dep_label i n d m :
  at_ ns i = Some n -> at_ ns d = Some m -> gn_label m ∈ tg_Dependencies (sem_target seedAttrs ns n) <-> d ∈ gn_deps n.
Proof.
  intros Hn Hm. cbn [sem_target tg_Dependencies]. rewrite list_elem_of_fmap. split.
  - intros (d' & E & Hd'). destruct (dep_node i n d' Hn Hd') as (m' & Hm' & El). rewrite El in E.
    by rewrite (label_inj _ _ _ _ Hm Hm' E).
  - intros Hd. exists d. split; [|done]. unfold node_label. by rewrite Hm.
Qed.

Lemma sem_size : Z.of_nat (size (sem_graph seedAttrs ns)) = zlen ns.
Proof.
  unfold sem_graph. rewrite map_size_list_to_map.
  - unfold zlen. by rewrite length_fmap.
  - rewrite <- list_fmap_compose. apply labels_nodup.
Qed.
End graph.

(** * The changes, by node *)

Section compare.
Context (Rb Ra : GraphReader) (hb : Z) (nb na : list gnode).
Context (Hb : presents Rb hb nb) (Ha : presents Ra hb na).
Context (seedAttrs : option (gset bytes)).

Abbreviation same := (same_label (gn_key <$> nb) (gn_key <$> na)).
Abbreviation SB := (sem_graph seedAttrs nb).
Abbreviation SA := (sem_graph seedAttrs na).
Abbreviation tb := (sem_target seedAttrs nb).
Abbreviation ta := (sem_target seedAttrs na).

Lemma same_iff i j m n :
  at_ nb i = Some m -> at_ na j = Some n -> same i j <-> gn_label m = gn_label n.
Proof.
  intros Hm Hn. unfold same_label. rewrite !at_fmap, Hm, Hn. cbn. split.
  - intros (x & Hx & Hy). rewrite <- Hx in Hy. unfold gn_key in Hy. injection Hy as Hp Hq.
    unfold gn_label. by rewrite Hp, Hq.
  - intros E. apply joinLabel_inj in E; [|apply (name_ok Rb hb nb Hb i m Hm)|apply (name_ok Ra hb na Ha j n Hn)].
    exists (gn_key m). split; [done|]. unfold gn_key. by rewrite E.
Qed.

Lemma same_nodes i j : same i j -> exists m n, at_ nb i = Some m /\ at_ na j = Some n /\ gn_label m = gn_label n.
Proof.
  intros Hs. pose proof (same_label_range _ _ _ _ Hs) as [Hi Hj]. rewrite !zlen_fmap in Hi, Hj.
  destruct (at_is_Some nb i Hi) as [m Hm]. destruct (at_is_Some na j Hj) as [n Hn].
  exists m, n. split_and!; [done..|]. by eapply same_iff.
Qed.

Lemma before_none j n : at_ na j = Some n -> (forall i, ~ same i j) -> SB !! gn_label n = None.
Proof.
  intros Hn Hno. apply (sem_dom Rb hb nb Hb). intros i m Hm E. apply (Hno i). by apply (same_iff i j m n).
Qed.

Lemma after_none i m : at_ nb i = Some m -> (forall j, ~ same i j) -> SA !! gn_label m = None.
Proof.
  intros Hm Hno. apply (sem_dom Ra hb na Ha). intros j n Hn E. apply (Hno j). by apply (same_iff i j m n).
Qed.

(** The change of the label of an after node is that of its entry. *)
Lemma change_of_entry j n e :
  at_ na j = Some n -> entry_ok nb na j n e ->
  change_of SB SA (gn_label n) =
    match e with
    | None => None
    | Some cn =>
        match cn_kind cn, at_ nb (cn_beforeIndex cn) with
        | changeKindChanged, Some m => Some (changed_change (tb m) (ta n))
        | _, _ => Some (new_change (ta n))
        end
    end.
Proof.
  intros Hn He. unfold change_of. rewrite (sem_lookup_at Ra hb na Ha seedAttrs _ _ Hn).
  destruct e as [cn|]; cbn [entry_ok] in He.
  - destruct He as [(i & m & -> & Hs & Hm & Hne)|[-> Hno]].
    + cbn [changed_at cn_kind cn_beforeIndex]. pose proof (at_Some_range _ _ _ Hm). pose proof (pr_small _ _ _ Hb).
      rewrite i32_small, Hm by lia. apply (same_iff i j m n Hm Hn) in Hs. rewrite <- Hs.
      rewrite (sem_lookup_at Rb hb nb Hb seedAttrs _ _ Hm). by rewrite decide_False.
    + cbn [inserted_node cn_kind]. by rewrite (before_none j n Hn Hno).
  - destruct He as (i & m & Hs & Hm & E). apply (same_iff i j m n Hm Hn) in Hs. rewrite <- Hs.
    rewrite (sem_lookup_at Rb hb nb Hb seedAttrs _ _ Hm). by rewrite decide_True.
Qed.

Lemma change_of_deleted i m :
  at_ nb i = Some m -> (forall j, ~ same i j) -> change_of SB SA (gn_label m) = Some (deleted_change (tb m)).
Proof.
  intros Hm Hno. unfold change_of.
  by rewrite (sem_lookup_at Rb hb nb Hb seedAttrs _ _ Hm), (after_none i m Hm Hno).
Qed.

(** * Phase 2 *)

Section classify.
Context (b2a : list Z) (c : list (option changedNode)).
Context (Hb2a : b2a_ok nb na b2a).
Context (Hc : forall j n, at_ na j = Some n -> exists e, at_ c j = Some e /\ entry_ok nb na j n e).

Lemma entry_at_ok j n : at_ na j = Some n -> entry_ok nb na j n (entry_at c j).
Proof.
  intros Hn. destruct (Hc j n Hn) as (e & He & Hok). pose proof (at_Some_range _ _ _ Hn).
  unfold entry_at. unfold at_ in He. rewrite decide_True in He by lia. rewrite decide_True by lia. by rewrite He.
Qed.

Lemma is_changed_entry j n :
  at_ na j = Some n ->
  is_changed_kind (entry_at c j) = true <->
  exists ch, change_of SB SA (gn_label n) = Some ch /\ td_ChangeType ch = ChangeTypeChanged.
Proof.
  intros Hn. pose proof (entry_at_ok j n Hn) as He. rewrite (change_of_entry j n _ Hn He).
  destruct (entry_at c j) as [cn|]; cbn [is_changed_kind]; [|naive_solver].
  destruct He as [(i & m & -> & Hs & Hm & _)|[-> _]].
  - cbn [changed_at cn_kind cn_beforeIndex]. pose proof (at_Some_range _ _ _ Hm). pose proof (pr_small _ _ _ Hb).
    rewrite i32_small, Hm by lia. split; [eauto|done].
  - cbn. naive_solver.
Qed.

Lemma entry_is_change j n :
  at_ na j = Some n -> is_Some (entry_at c j) <-> is_Some (change_of SB SA (gn_label n)).
Proof.
  intros Hn. pose proof (entry_at_ok j n Hn) as He. rewrite (change_of_entry j n _ Hn He).
  destruct (entry_at c j) as [cn|]; [|done]. destruct (cn_kind cn), (at_ nb (cn_beforeIndex cn)); split; by eexists.
Qed.

(** Rule types are tested by dictionary ID. *)
Lemma source_type_id j n ids sid :
  gr_RuleTypeIDs Ra = Ok ids -> gr_RuleTypeDictID Ra sourceFileRuleType = Ok sid -> at_ na j = Some n ->
  0 <= sid /\ ids !! Z.to_nat j = Some sid <-> tg_RuleType (ta n) = _sourceFileRuleType.
Proof.
  intros Hids Hsid Hn. destruct (pr_types _ _ _ Ha) as (ids' & Hids' & Ht). rewrite Hids in Hids'.
  injection Hids' as <-. destruct (Ht sourceFileRuleType) as (sid' & Hsid' & Hat). rewrite Hsid in Hsid'.
  injection Hsid' as <-. specialize (Hat j n Hn). unfold at_ in Hat. pose proof (at_Some_range _ _ _ Hn).
  rewrite decide_True in Hat by lia. exact Hat.
Qed.

(** The projection of a dependency of a before node. *)
Lemma project_dep i m d :
  at_ nb i = Some m -> d ∈ gn_deps m ->
  project b2a d = Ok (default (-1) (at_ b2a d)) /\
  exists m', at_ nb d = Some m' /\ node_label nb d = gn_label m' /\
    ((exists n', at_ na (default (-1) (at_ b2a d)) = Some n' /\ gn_label m' = gn_label n') \/
     default (-1) (at_ b2a d) = -1 /\ SA !! gn_label m' = None).
Proof.
  intros Hm Hd. destruct (dep_node Rb hb nb Hb i m d Hm Hd) as (m' & Hm' & El).
  destruct Hb2a as [Hl Hat]. destruct (Hat d (at_Some_range _ _ _ Hm')) as (j & Hj & Hcase).
  unfold project. rewrite decide_True, index_at, Hj by (rewrite Hl; by eapply at_Some_range).
  cbn [default from_option]. split; [done|]. exists m'. split; [done|]. split; [done|].
  change (id j) with j in *. destruct Hcase as [Hs|[-> Hno]].
  - left. destruct (same_nodes d j Hs) as (m2 & n' & Hm2 & Hn' & E). exists n'. split; [done|]. congruence.
  - right. split; [done|]. by apply (after_none d m').
Qed.

Lemma changedDepStatusIdx_spec i j m n :
  at_ nb i = Some m -> at_ na j = Some n ->
  exists x y, changedDepStatusIdx ((fun d => default (-1) (at_ b2a d)) <$> gn_deps m) (gn_deps n) c = (x, y) /\
    (x = true <-> any_dep_changed SB SA (ta n)) /\ (y = true <-> dep_set_changed (tb m) (ta n)).
Proof.
  intros Hm Hn. unfold changedDepStatusIdx. set (x := existsb _ (gn_deps n)).
  assert (x = true <-> any_dep_changed SB SA (ta n)) as Hx.
  { unfold x, any_dep_changed. cbn [sem_target tg_Dependencies]. rewrite existsb_exists. split.
    - intros (d & Hd%list_elem_of_In & Hk). destruct (dep_node Ra hb na Ha j n d Hn Hd) as (n' & Hn' & El).
      destruct (proj1 (is_changed_entry d n' Hn') Hk) as (ch & Hch & Ht). exists (gn_label n'), ch.
      split; [|done]. rewrite <- El. by apply list_elem_of_fmap_2.
    - intros (l & ch & Hl & Hch & Ht). apply list_elem_of_fmap in Hl as (d & -> & Hd). exists d. split; [by apply list_elem_of_In|].
      destruct (dep_node Ra hb na Ha j n d Hn Hd) as (n' & Hn' & El). rewrite El in Hch.
      apply (is_changed_entry d n' Hn'). eauto. }
  rewrite length_fmap.
  assert (length (tg_Dependencies (tb m)) = length (gn_deps m)) as Elm by apply length_fmap.
  assert (length (tg_Dependencies (ta n)) = length (gn_deps n)) as Eln by apply length_fmap.
  destruct (decide (length (gn_deps m) = length (gn_deps n))) as [Hl|Hl].
  2:{ rewrite bool_decide_false by done. do 2 eexists. split; [reflexivity|]. split; [done|].
      split; [|done]. intros _. left. by rewrite Elm, Eln. }
  rewrite bool_decide_true by done. do 2 eexists. split; [reflexivity|]. split; [done|].
  rewrite existsb_exists. split.
  - intros (p & Hp%list_elem_of_In & Hk%bool_decide_eq_true). apply list_elem_of_fmap in Hp as (d & -> & Hd).
    destruct (project_dep i m d Hm Hd) as (_ & m' & Hm' & El & Hcase). right. exists (gn_label m').
    split; [cbn; rewrite <- El; by apply list_elem_of_fmap_2|]. rewrite elem_of_list_to_set in Hk.
    destruct Hcase as [(n' & Hn' & E)|[_ Hno]].
    + rewrite E, (dep_label Ra hb na Ha seedAttrs j n _ n' Hn Hn'). pose proof (at_Some_range _ _ _ Hn').
      destruct Hk; [lia|done].
    + intros Hin. apply list_elem_of_fmap in Hin as (d' & E & Hd'). destruct (dep_node Ra hb na Ha j n d' Hn Hd') as (n' & Hn' & El').
      rewrite E, El', (sem_lookup_at Ra hb na Ha seedAttrs _ _ Hn') in Hno. done.
  - intros [Hne|(l & Hl' & Hnin)]; [by rewrite Elm, Eln in Hne|]. apply list_elem_of_fmap in Hl' as (d & -> & Hd).
    exists (default (-1) (at_ b2a d)). split; [by apply list_elem_of_In, (list_elem_of_fmap_2 (fun d => default (-1) (at_ b2a d)))|].
    apply bool_decide_eq_true. destruct (project_dep i m d Hm Hd) as (_ & m' & Hm' & El & Hcase).
    destruct Hcase as [(n' & Hn' & E)|[-> _]]; [right|left; lia].
    rewrite elem_of_list_to_set. intros Hin. apply Hnin. rewrite El, E.
    by apply (dep_label Ra hb na Ha seedAttrs j n _ n' Hn Hn').
Qed.

Lemma hasChangedSrcFileDepIdx_spec j n ids sid :
  gr_RuleTypeIDs Ra = Ok ids -> gr_RuleTypeDictID Ra sourceFileRuleType = Ok sid -> at_ na j = Some n ->
  hasChangedSrcFileDepIdx (gn_deps n) c ids sid = true <-> source_dep_changed SB SA (ta n).
Proof.
  intros Hids Hsid Hn. unfold hasChangedSrcFileDepIdx, source_dep_changed. case_decide as Hneg.
  - split; [done|]. intros (l & t & _ & Ht & Hrt & _).
    apply (sem_lookup Ra hb na Ha) in Ht as (d & n' & Hn' & -> & ->).
    apply (source_type_id _ _ _ _ Hids Hsid Hn') in Hrt. lia.
  - rewrite existsb_exists. split.
    + intros (d & Hd%list_elem_of_In & Hk). destruct (dep_node Ra hb na Ha j n d Hn Hd) as (n' & Hn' & El).
      destruct (entry_at c d) as [e|] eqn:He; [|done]. apply bool_decide_eq_true in Hk.
      exists (gn_label n'), (ta n'). split_and!.
      * by apply (dep_label Ra hb na Ha seedAttrs j n d n').
      * exact (sem_lookup_at Ra hb na Ha seedAttrs d n' Hn').
      * apply (source_type_id d n' ids sid); [done..|]. split; [lia|done].
      * apply (entry_is_change d n' Hn'). by rewrite He.
    + intros (l & t & Hl & Ht & Hrt & Hch). apply (sem_lookup Ra hb na Ha) in Ht as (d & n' & Hn' & -> & ->).
      apply (dep_label Ra hb na Ha seedAttrs j n d n' Hn Hn') in Hl. exists d. split; [by apply list_elem_of_In|].
      destruct (proj2 (entry_is_change d n' Hn') Hch) as [e ->]. apply bool_decide_eq_true.
      by apply (source_type_id d n' ids sid).
Qed.

Lemma decodeAttrs_spec R ns i n :
  presents R hb ns -> at_ ns i = Some n -> decodeAttrs R i seedAttrs = Ok (filter_attrs seedAttrs (gn_attrs n)).
Proof.
  intros HR Hn. unfold decodeAttrs. rewrite (pr_attrs _ _ _ HR i n Hn). cbn [mbind res_bind].
  case_decide as He; [|done]. rewrite He. unfold filter_attrs. by destruct seedAttrs.
Qed.

(** A changed node becomes a seed exactly when its target changed directly. *)
Lemma classify_node_spec i j m n ids sid :
  gr_RuleTypeIDs Ra = Ok ids -> gr_RuleTypeDictID Ra sourceFileRuleType = Ok sid ->
  at_ nb i = Some m -> at_ na j = Some n ->
  exists b, classify_node Rb Ra seedAttrs b2a c ids sid (changed_at i j) = Ok b /\
    (b = true <-> direct_change SB SA (tb m) (ta n)).
Proof.
  intros Hids Hsid Hm Hn. unfold classify_node. cbn [changed_at cn_kind cn_afterIndex cn_beforeIndex].
  pose proof (at_Some_range _ _ _ Hm). pose proof (at_Some_range _ _ _ Hn).
  pose proof (pr_small _ _ _ Hb). pose proof (pr_small _ _ _ Ha). rewrite !i32_small by lia.
  rewrite decide_False by tauto. unfold direct_change.
  pose proof (source_type_id j n ids sid Hids Hsid Hn) as Hsrc. case_decide as Hs.
  { exists true. split; [done|]. split; [|done]. intros _. left. apply Hsrc. tauto. }
  rewrite (proj1 (pr_deps _ _ _ Ha j n Hn)), (proj1 (pr_deps _ _ _ Hb i m Hm)). cbn [mbind res_bind].
  rewrite (each_fmap _ (fun d => default (-1) (at_ b2a d)) (gn_deps m))
    by (intros d Hd; by apply (project_dep i m d)).
  cbn [mbind res_bind]. destruct (changedDepStatusIdx_spec i j m n Hm Hn) as (x & y & -> & Hx & Hy).
  destruct (negb x || y) eqn:Exy.
  { exists true. split; [done|]. split; [|done]. intros _. right. apply orb_true_iff in Exy as [Ex|Ey].
    - left. intros Hany%Hx. by rewrite Hany in Ex.
    - right; left. by apply Hy. }
  apply orb_false_iff in Exy as [Ex%negb_false_iff Ey].
  pose proof (hasChangedSrcFileDepIdx_spec j n ids sid Hids Hsid Hn) as Hsd.
  destruct (hasChangedSrcFileDepIdx _ _ _ _).
  { exists true. split; [done|]. split; [|done]. intros _. right; right; right; left. by apply Hsd. }
  rewrite (decodeAttrs_spec Ra na j n Ha Hn), (decodeAttrs_spec Rb nb i m Hb Hm). cbn [mbind res_bind].
  eexists. split; [done|]. change attrsChanged with attributesChanged. rewrite attributesChanged_spec.
  split; [intros ?; by do 4 right|]. intros [Hd|[Hd|[Hd|[Hd|Hd]]]]; [..|done]; exfalso.
  - apply Hs. tauto.
  - by apply Hd, Hx.
  - apply Hy in Hd. congruence.
  - apply Hsd in Hd. congruence.
Qed.
End classify.
End compare.
