(* ===== verification/TgbResult.v ===== *)
(** The TGB-native comparison as a whole ([compareInternal] of
    [internal/tgbdiff/compare.go]): what it returns, and when that is what the comparison
    of the semantic graphs returns. *)
From Stdlib Require Import ZArith Lia.
From stdpp Require Import gmap fin_maps sorting.
From S2P Require Import Prelude Bfs TargetDiff Entity Encode Reader GraphReader TgbDiff TgbAlign TgbHash TgbReverse TgbCompare.

Local Open Scope Z_scope.

(** * Specification *)

Section spec.
Context (before after : TargetDiff.Graph).

(** [v] depends on [u], changed or not. *)
Definition any_edge (u v : bytes) : Prop := exists t, after !! v = Some t /\ u ∈ tg_Dependencies t.

Inductive any_reach : Z -> bytes -> Prop :=
  | any_seed v : is_seed before after v -> any_reach 0 v
  | any_step k u v : any_reach k u -> any_edge u v -> any_reach (k + 1) v.

(** The length of a shortest path of dependents from a direct change, when it is within
    the limit, and -1 when there is none. *)
Definition any_distance_ok (maxDistance : Z) (name : bytes) (d : Z) : Prop :=
  any_reach d name /\ (forall k, any_reach k name -> d <= k) /\ (0 <= maxDistance -> d <= maxDistance) \/
  d = -1 /\ ~ exists k, any_reach k name /\ (0 <= maxDistance -> k <= maxDistance).

Definition label_sorted : list LabelChange -> Prop :=
  StronglySorted (fun x y => bcompare (lc_Label x) (lc_Label y) = Lt).

(** One entry for each changed label, in the order of the labels. *)
Definition result_ok (maxDistance : Z) (r : list LabelChange) : Prop :=
  label_sorted r /\
  (forall l, is_Some (change_of before after l) -> l ∈ lc_Label <$> r) /\
  forall lc, lc ∈ r -> exists ch, change_of before after (lc_Label lc) = Some ch /\
    lc_ChangeType lc = td_ChangeType ch /\
    (lc_Seed lc = true <-> is_seed before after (lc_Label lc)) /\
    any_distance_ok maxDistance (lc_Label lc) (lc_Distance lc).

Lemma any_reach_nonneg k v : any_reach k v -> 0 <= k.
Proof. induction 1; lia. Qed.
End spec.

(** The initial queue: the after indices of the seeds, each once and at distance 0. *)
Lemma queue_nodes_spec l dist q dist' :
  queue_nodes l dist = (q, dist') ->
  (forall j, j ∈ q <-> dist !! j = None /\ exists x, x ∈ l /\ cn_seed x = true /\ cn_afterIndex x = j /\ 0 <= j) /\
  (forall j, dist' !! j = if decide (j ∈ q) then Some 0 else dist !! j).
Proof.
  revert dist q dist'. induction l as [|x l IH]; intros dist q dist'; cbn [queue_nodes].
  { intros [= <- <-]. split; [|intros j; by rewrite decide_False by apply not_elem_of_nil].
    intros j. split; [intros Hj; by apply elem_of_nil in Hj|]. intros (_ & x & Hx & _). by apply elem_of_nil in Hx. }
  case_decide as Hx.
  - destruct Hx as (Hs & Hr & Hn). destruct (queue_nodes l _) as [q1 d1] eqn:E. intros [= <- <-].
    apply IH in E as [H1 H2]. split; intros j; rewrite elem_of_cons || rewrite H2; [rewrite H1|].
    + destruct (decide (j = cn_afterIndex x)) as [->|Hne].
      * split; [|by left]. intros _. split; [done|]. exists x. split_and!; [by left|done..].
      * rewrite lookup_insert_ne by done. split.
        -- intros [?|(? & y & ? & ?)]; [done|]. split; [done|]. exists y. split; [by right|done].
        -- intros (? & y & [->|?]%elem_of_cons & ? & ? & ?); [congruence|]. right. split; [done|]. by exists y.
    + destruct (decide (j = cn_afterIndex x)) as [->|Hne].
      * rewrite lookup_insert_eq. rewrite (decide_True (P := _ ∈ _ :: _)) by by left. by case_decide.
      * rewrite lookup_insert_ne by done. destruct (decide (j ∈ q1)).
        -- by rewrite decide_True by by right.
        -- rewrite decide_False; [done|]. rewrite elem_of_cons. tauto.
  - intros E. apply IH in E as [H1 H2]. split; [|done]. intros j. rewrite H1. split.
    + intros (? & y & ? & ?). split; [done|]. exists y. split; [by right|done].
    + intros (Hn & y & [->|?]%elem_of_cons & Hs & Hi & Hr); [|split; [done|]; by exists y].
      exfalso. apply Hx. subst j. done.
Qed.

(** Run a loop over the images of a list. *)
Lemma each_via {A B C} (R : A -> B -> Prop) (f : B -> res C) (g : A -> B -> C) xs ys :
  Forall2 R xs ys -> (forall x y, x ∈ xs -> R x y -> f y = Ok (g x y)) ->
  exists r, each f ys = Ok r /\ Forall2 (fun x z => exists y, R x y /\ z = g x y) xs r.
Proof.
  induction 1 as [|x y xs ys HR _ IH]; intros Hf; [by exists []|].
  destruct IH as (r & Hr & HF); [intros ? ? ?; apply Hf; by right|]. cbn [each].
  rewrite (Hf x y), Hr by (done || by left). eexists. split; [done|]. constructor; [by exists y|done].
Qed.

Section compare.
Context (Rb Ra : GraphReader) (hb : Z) (nb na : list gnode).
Context (Hb : presents Rb hb nb) (Ha : presents Ra hb na).
Context (seedAttrs : option (gset bytes)).

Abbreviation same := (same_label (gn_key <$> nb) (gn_key <$> na)).
Abbreviation SB := (sem_graph seedAttrs nb).
Abbreviation SA := (sem_graph seedAttrs na).

(** The label of a changed node. *)
Definition label_of (x : changedNode) : bytes :=
  if decide (0 <= cn_afterIndex x) then node_label na (cn_afterIndex x)
  else node_label nb (cn_beforeIndex x).

(** * The list of the changed nodes *)

Section listed.
Context (runs : list alignedRun) (D I : list Z) (b2a : list Z) (c : list (option changedNode)).
Context (Hal : aligned (gn_key <$> nb) (gn_key <$> na) runs D I).
Context (Hb2a : b2a_ok nb na b2a) (Hlc : zlen c = zlen na).
Context (Hc : forall j n, at_ na j = Some n -> exists e, at_ c j = Some e /\ entry_ok nb na j n e).

Definition listed : list changedNode := (deleted_node <$> D) ++ omap id c.

(** A listed node is a deleted one, or the entry of an after node. *)
Inductive listed_node : changedNode -> Prop :=
  | listed_deleted i m : i ∈ D -> at_ nb i = Some m -> (forall j, ~ same i j) ->
      listed_node (deleted_node i)
  | listed_entry j n x : at_ na j = Some n -> at_ c j = Some (Some x) -> entry_ok nb na j n (Some x) ->
      cn_afterIndex x = j -> listed_node x.

Lemma entry_index j n x : at_ na j = Some n -> entry_ok nb na j n (Some x) -> cn_afterIndex x = j.
Proof.
  intros Hn Hx. pose proof (at_Some_range _ _ _ Hn). pose proof (pr_small _ _ _ Ha).
  destruct Hx as [(i & m & -> & _)|[-> _]]; cbn; by rewrite i32_small by lia.
Qed.

Lemma deleted_at i : i ∈ D -> exists m, at_ nb i = Some m /\ forall j, ~ same i j.
Proof.
  intros [Hr Hno]%(al_del _ _ _ _ _ Hal). rewrite zlen_fmap in Hr.
  destruct (at_is_Some nb i Hr) as [m Hm]. by exists m.
Qed.

Lemma entry_of j x :
  at_ c j = Some (Some x) -> exists n, at_ na j = Some n /\ entry_ok nb na j n (Some x) /\ cn_afterIndex x = j.
Proof.
  intros Hj. pose proof (at_Some_range _ _ _ Hj) as Hr. rewrite Hlc in Hr.
  destruct (at_is_Some na j Hr) as [n Hn]. destruct (Hc j n Hn) as (e & He & Hok).
  rewrite Hj in He. injection He as <-. exists n. split_and!; [done..|by eapply entry_index].
Qed.

Lemma elem_of_listed x : x ∈ listed <-> listed_node x.
Proof.
  unfold listed. rewrite elem_of_app, list_elem_of_fmap, list_elem_of_omap. split.
  - intros [(i & -> & Hi)|(e & He & Hx)].
    + destruct (deleted_at i Hi) as (m & ? & ?). by eapply listed_deleted.
    + cbn in Hx. subst e. apply elem_at in He as [j Hj]. destruct (entry_of j x Hj) as (n & ? & ? & ?).
      by eapply listed_entry.
  - intros [i m Hi _ _|j n x' Hn Hj _ _]; [left; eauto|right]. exists (Some x'). split; [by eapply at_elem|done].
Qed.

Lemma label_of_deleted i m : at_ nb i = Some m -> label_of (deleted_node i) = gn_label m.
Proof.
  intros Hm. pose proof (at_Some_range _ _ _ Hm). pose proof (pr_small _ _ _ Hb).
  unfold label_of. cbn [deleted_node cn_afterIndex cn_beforeIndex]. rewrite decide_False by lia.
  rewrite i32_small by lia. unfold node_label. by rewrite Hm.
Qed.

Lemma label_of_entry j n x : at_ na j = Some n -> cn_afterIndex x = j -> label_of x = gn_label n.
Proof.
  intros Hn <-. unfold label_of. rewrite decide_True by (by eapply at_Some_range).
  unfold node_label. by rewrite Hn.
Qed.

Lemma deleted_labels_nodup : NoDup (label_of <$> (deleted_node <$> D)).
Proof.
  rewrite <- list_fmap_compose. apply NoDup_fmap_2_strong; [|apply (al_once _ _ _ _ _ Hal)].
  intros i j Hi Hj E. destruct (deleted_at i Hi) as (m & Hm & _). destruct (deleted_at j Hj) as (m' & Hm' & _).
  unfold compose in E. rewrite (label_of_deleted i m Hm), (label_of_deleted j m' Hm') in E.
  by apply (label_inj Rb hb nb Hb i j m m').
Qed.

Lemma omap_nodup {A B} (f : A -> B) (l : list (option A)) :
  (forall j j' x x', at_ l j = Some (Some x) -> at_ l j' = Some (Some x') -> f x = f x' -> j = j') ->
  NoDup (f <$> omap id l).
Proof.
  induction l as [|y l IH]; intros Hinj; [constructor|].
  assert (NoDup (f <$> omap id l)) as Hl.
  { apply IH. intros j j' x x' Hj Hj' E. pose proof (at_Some_range _ _ _ Hj). pose proof (at_Some_range _ _ _ Hj').
    enough (j + 1 = j' + 1) by lia. apply (Hinj _ _ x x'); [..|done]; rewrite at_cons, decide_False by lia.
    - by rewrite Z.add_simpl_r.
    - by rewrite Z.add_simpl_r. }
  destruct y as [x|]; [|exact Hl]. cbn. apply NoDup_cons. split; [|exact Hl].
  intros Hx. apply list_elem_of_fmap in Hx as (x' & E & Hx'). apply list_elem_of_omap in Hx' as (e & He & Hx').
  cbn in Hx'. subst e. apply elem_at in He as [j Hj]. pose proof (at_Some_range _ _ _ Hj).
  enough (0 = j + 1) by lia. apply (Hinj _ _ x x'); [done| |done].
  rewrite at_cons, decide_False by lia. by rewrite Z.add_simpl_r.
Qed.

Lemma listed_labels_nodup : NoDup (label_of <$> listed).
Proof.
  unfold listed. rewrite fmap_app. apply NoDup_app. split_and!; [apply deleted_labels_nodup|..].
  - intros l Hl Hl'. apply list_elem_of_fmap in Hl as (x & -> & Hx). apply list_elem_of_fmap in Hl' as (y & E & Hy).
    apply list_elem_of_fmap in Hx as (i & -> & Hi). destruct (deleted_at i Hi) as (m & Hm & Hno).
    apply list_elem_of_omap in Hy as (e & He & Hye). cbn in Hye. subst e.
    apply elem_at in He as [j Hj]. destruct (entry_of j y Hj) as (n & Hn & _ & Hix).
    rewrite (label_of_deleted i m Hm), (label_of_entry j n y Hn Hix) in E.
    apply (Hno j). by apply (same_iff Rb Ra hb nb na Hb Ha i j m n).
  - apply omap_nodup. intros j j' x x' Hj Hj' E. destruct (entry_of j x Hj) as (n & Hn & _ & Hix).
    destruct (entry_of j' x' Hj') as (n' & Hn' & _ & Hix').
    rewrite (label_of_entry j n x Hn Hix), (label_of_entry j' n' x' Hn' Hix') in E.
    by apply (label_inj Ra hb na Ha j j' n n').
Qed.

(** * Seeds of listed nodes *)

Context (ids : list Z) (sid : Z).
Context (Hids : gr_RuleTypeIDs Ra = Ok ids) (Hsid : gr_RuleTypeDictID Ra sourceFileRuleType = Ok sid).

(** What the seed classification makes of a listed node. *)
Definition seeded (x y : changedNode) : Prop :=
  exists b, y = set_seed x b /\ (b = true <-> is_seed SB SA (label_of x)).

Lemma listed_change x :
  listed_node x ->
  exists ch, change_of SB SA (label_of x) = Some ch /\ change_type (cn_kind x) = td_ChangeType ch /\
  exists b, classify_node Rb Ra seedAttrs b2a c ids sid x = Ok b /\ (b = true <-> is_seed SB SA (label_of x)).
Proof.
  intros [i m Hi Hm Hno|j n x' Hn Hj Hok Hix].
  - rewrite (label_of_deleted i m Hm).
    pose proof (change_of_deleted Rb Ra hb nb na Hb Ha seedAttrs i m Hm Hno) as Hch.
    eexists. split; [exact Hch|]. split; [done|]. exists true. split; [done|]. split; [|done].
    intros _. eexists. split; [exact Hch|done].
  - rewrite (label_of_entry j n x' Hn Hix).
    pose proof (change_of_entry Rb Ra hb nb na Hb Ha seedAttrs j n _ Hn Hok) as Hch. cbn beta iota in Hch.
    destruct Hok as [(i & m & -> & Hs & Hm & Hne)|[-> Hno]].
    + pose proof (at_Some_range _ _ _ Hm). pose proof (pr_small _ _ _ Hb).
      cbn [changed_at cn_kind cn_beforeIndex] in Hch. rewrite i32_small, Hm in Hch by lia.
      eexists. split; [exact Hch|]. split; [done|].
      destruct (classify_node_spec Rb Ra hb nb na Hb Ha seedAttrs b2a c Hb2a Hc i j m n ids sid Hids Hsid Hm Hn)
        as (b & Hcl & Hiff). exists b. split; [done|]. rewrite Hiff. unfold is_seed. rewrite Hch. split.
      * intros Hd. eexists. split; [reflexivity|done].
      * intros (ch & [= <-] & Hd). done.
    + cbn [inserted_node cn_kind] in Hch. eexists. split; [exact Hch|]. split; [done|]. exists true.
      split; [done|]. split; [|done]. intros _. eexists. split; [exact Hch|done].
Qed.

Lemma seed_nodes_spec :
  exists l, seed_nodes Rb Ra seedAttrs b2a c listed = Ok l /\ Forall2 seeded listed l.
Proof.
  unfold seed_nodes. rewrite Hids, Hsid. cbn [mbind res_bind]. apply each_Forall2. intros x Hx.
  apply elem_of_listed, listed_change in Hx as (ch & _ & _ & b & -> & Hb'). cbn [mbind res_bind].
  eexists. split; [done|]. by exists b.
Qed.

(** Every change is listed. *)
Lemma change_listed l : is_Some (change_of SB SA l) -> l ∈ label_of <$> listed.
Proof.
  intros [ch Hch]. rewrite list_elem_of_fmap. destruct (SA !! l) as [t|] eqn:Ea.
  - apply (sem_lookup Ra hb na Ha) in Ea as (j & n & Hn & -> & _). destruct (Hc j n Hn) as (e & He & Hok).
    pose proof (change_of_entry Rb Ra hb nb na Hb Ha seedAttrs j n _ Hn Hok) as Hch'. destruct e as [x|]; [|congruence].
    pose proof (entry_index j n x Hn Hok) as Hix. exists x. split; [symmetry; by apply (label_of_entry j)|].
    apply elem_of_listed. by eapply listed_entry.
  - destruct (SB !! l) as [t|] eqn:Eb; [|unfold change_of in Hch; by rewrite Ea, Eb in Hch].
    apply (sem_lookup Rb hb nb Hb) in Eb as (i & m & Hm & -> & _).
    assert (forall j, ~ same i j) as Hno.
    { intros j Hs. destruct (same_nodes Rb Ra hb nb na Hb Ha i j Hs) as (m' & n & Hm' & Hn & E).
      rewrite Hm in Hm'. injection Hm' as <-. rewrite E in Ea.
      by rewrite (sem_lookup_at Ra hb na Ha seedAttrs j n Hn) in Ea. }
    exists (deleted_node i). split; [symmetry; by apply label_of_deleted|]. apply elem_of_listed.
    eapply listed_deleted; [|done..]. apply (al_del _ _ _ _ _ Hal). rewrite zlen_fmap.
    split; [by eapply at_Some_range|done].
Qed.

(** * Distances *)

Section distances.
Context (l : list changedNode) (Hl : Forall2 seeded listed l).
Context (dependents : Z -> res (list Z)).
Context (Hdep : forall v, 0 <= v < zlen na -> exists row, dependents v = Ok row /\
  forall i, i ∈ row <-> exists m, at_ na i = Some m /\ v ∈ gn_deps m).
Context (maxDistance : Z).

(** The seeds of the search. *)
Definition seed_at (j : Z) : Prop := exists n, at_ na j = Some n /\ is_seed SB SA (gn_label n).

Lemma seed_change lb : is_seed SB SA lb -> is_Some (change_of SB SA lb).
Proof. intros (ch & Hch & _). by exists ch. Qed.

Lemma seeded_fields x y : seeded x y ->
  cn_label y = cn_label x /\ cn_kind y = cn_kind x /\ cn_afterIndex y = cn_afterIndex x /\
  cn_beforeIndex y = cn_beforeIndex x /\ label_of y = label_of x /\ (cn_seed y = true <-> is_seed SB SA (label_of x)).
Proof. by intros (b & -> & Hb'). Qed.

Lemma queued_seeds j : (exists y, y ∈ l /\ cn_seed y = true /\ cn_afterIndex y = j /\ 0 <= j) <-> seed_at j.
Proof.
  split.
  - intros (y & Hy & Hs & Hi & Hr). destruct (Forall2_elem_r _ _ _ _ Hl Hy) as (x & Hx & Hxy).
    apply seeded_fields in Hxy as (_ & _ & Ei & _ & _ & Hiff). apply elem_of_listed in Hx.
    destruct Hx as [i m Hd Hm Hno|j' n x Hn Hj Hok Hix].
    + rewrite Ei in Hi. cbn in Hi. lia.
    + assert (j' = j) as -> by congruence. exists n. split; [done|].
      rewrite <- (label_of_entry j n x Hn Hix). by apply Hiff.
  - intros (n & Hn & Hs). pose proof (change_listed _ (seed_change _ Hs)) as Hin.
    apply list_elem_of_fmap in Hin as (x & Elb & Hx). destruct (Forall2_elem_l _ _ _ _ Hl Hx) as (y & Hy & Hxy).
    apply seeded_fields in Hxy as (_ & _ & Ei & _ & _ & Hiff). exists y.
    assert (cn_afterIndex x = j) as Hxj.
    { apply elem_of_listed in Hx. destruct Hx as [i m Hd Hm Hno|j' n' x Hn' Hj Hok Hix].
      - rewrite (label_of_deleted i m Hm) in Elb. destruct (Hno j).
        by apply (same_iff Rb Ra hb nb na Hb Ha i j m n).
      - rewrite (label_of_entry j' n' x Hn' Hix) in Elb. rewrite Hix.
        by apply (label_inj Ra hb na Ha j' j n' n). }
    split_and!; [done|apply Hiff; by rewrite <- Elb|congruence|by eapply at_Some_range].
Qed.

Abbreviation reach_at := (reach dependents (fun _ => true) seed_at).

Lemma reach_label k j : reach_at k j -> exists n, at_ na j = Some n /\ any_reach SB SA k (gn_label n).
Proof.
  induction 1 as [j (n & Hn & Hs)|k u v _ (m & Hm & IH) (row & Hrow & Hv & _)].
  - exists n. split; [done|]. by constructor.
  - destruct (Hdep u) as (row' & Hrow' & Hiff); [by eapply at_Some_range|]. rewrite Hrow in Hrow'.
    injection Hrow' as <-. apply Hiff in Hv as (n & Hn & Hd). exists n. split; [done|].
    eapply any_step; [exact IH|]. eexists. split; [by apply (sem_lookup_at Ra hb na Ha seedAttrs v)|].
    by apply (dep_label Ra hb na Ha seedAttrs v n u m).
Qed.

Lemma label_reach k lb :
  any_reach SB SA k lb ->
  forall j n, at_ na j = Some n -> lb = gn_label n -> reach_at k j.
Proof.
  induction 1 as [lb Hs|k u v _ IH (t & Ht & Hu)]; intros j n Hn ->.
  - constructor. by exists n.
  - rewrite (sem_lookup_at Ra hb na Ha seedAttrs j n Hn) in Ht. injection Ht as <-.
    cbn in Hu. apply list_elem_of_fmap in Hu as (d & -> & Hd).
    destruct (dep_node Ra hb na Ha j n d Hn Hd) as (m & Hm & El).
    eapply (reach_step _ _ _ k d); [by eapply IH|]. destruct (Hdep d) as (row & Hrow & Hiff); [by eapply at_Some_range|].
    exists row. split_and!; [done| |done]. apply Hiff. by exists n.
Qed.

Lemma distance_of_listed x y dist :
  x ∈ listed -> seeded x y -> shortest_dists dependents (fun _ => true) maxDistance seed_at dist ->
  any_distance_ok SB SA maxDistance (label_of x) (final_distance dist y).
Proof.
  intros Hx Hxy [Hsound Hall]. apply seeded_fields in Hxy as (_ & _ & Ei & _ & _ & Hiff).
  unfold final_distance. destruct (cn_seed y) eqn:Es.
  { left. split_and!; [constructor; by apply Hiff|intros k; apply any_reach_nonneg|lia]. }
  rewrite Ei. apply elem_of_listed in Hx. destruct Hx as [i m Hd Hm Hno|j n x Hn Hj Hok Hix].
  - exfalso. rewrite (label_of_deleted i m Hm) in Hiff.
    pose proof (change_of_deleted Rb Ra hb nb na Hb Ha seedAttrs i m Hm Hno) as Hch.
    assert (false = true) by (apply Hiff; eexists; split; [exact Hch|done]). done.
  - rewrite Hix, (label_of_entry j n x Hn Hix). rewrite decide_True by (by eapply at_Some_range).
    destruct (dist !! j) as [d|] eqn:Ed.
    + left. apply Hsound in Ed as (Hr & Hmin & Hmax). change (default (-1) (Some d)) with d. split_and!; [|..|done].
      * apply reach_label in Hr as (n' & Hn' & Hr). congruence.
      * intros k Hk. apply Hmin. by eapply label_reach.
    + right. split; [done|]. intros (k & Hk & Hmax). destruct (Hall k j) as [d Hd]; [by eapply label_reach|done|].
      congruence.
Qed.

(** The search from the queued seeds. *)
Lemma search_spec (ctx : Z -> bool) q dist :
  queue_nodes l ∅ = (q, dist) ->
  unless_done (fun _ : unit => ctx) (bfs_loop dependents (fun _ => true) maxDistance ctx
    (length q + Z.to_nat (zlen na)) 0 q dist)
    (fun dist' => shortest_dists dependents (fun _ => true) maxDistance seed_at dist').
Proof.
  intros Eq. apply queue_nodes_spec in Eq as [Hq Hd].
  assert (forall j, j ∈ q <-> seed_at j) as Hqs.
  { intros j. rewrite Hq, lookup_empty, <- queued_seeds. naive_solver. }
  pose proof (pr_small _ _ _ Ha) as Hsmall. pose proof (zlen_nonneg na).
  assert (size (list_to_set (zrange 0 (zlen na)) : gset Z) = Z.to_nat (zlen na)) as HU.
  { rewrite size_list_to_set by apply zrange_nodup. pose proof (zlen_zrange 0 (zlen na) ltac:(done)) as Hz.
    unfold zlen in *. lia. }
  destruct (bfs_correct dependents (fun _ => true) maxDistance ctx seed_at (list_to_set (zrange 0 (zlen na))))
    with (fuel := (length q + Z.to_nat (zlen na))%nat) (i := 0) (queue := q) (dist := dist) as [[-> [j Hj]]|H'].
  - intros u Hu%elem_of_list_to_set%elem_of_zrange. destruct (Hdep u Hu) as (row & Hrow & Hiff).
    exists row. split; [done|]. intros v (m & Hm & _)%Hiff _. apply elem_of_list_to_set, elem_of_zrange.
    by eapply at_Some_range.
  - rewrite HU. lia.
  - intros v. by rewrite Hqs.
  - intros v. by rewrite Hd, lookup_empty.
  - intros v Hv%elem_of_list_to_set%Hqs. destruct Hv as (n & Hn & _). apply elem_of_list_to_set, elem_of_zrange.
    by eapply at_Some_range.
  - rewrite HU. done.
  - left. split; [done|]. by exists (), j.
  - by right.
Qed.

Lemma result_of_seeded dist x y :
  x ∈ listed -> seeded x y ->
  result_of Rb Ra dist y = Ok {| lc_Label := label_of x; lc_ChangeType := change_type (cn_kind x);
    lc_Distance := final_distance dist y; lc_Seed := cn_seed y |}.
Proof.
  intros Hx Hxy. apply seeded_fields in Hxy as (E1 & E2 & E3 & E4 & _ & _). unfold result_of.
  rewrite E1, E2, E3, E4. apply elem_of_listed in Hx. destruct Hx as [i m Hd Hm Hno|j n x Hn Hj Hok Hix].
  - rewrite (label_of_deleted i m Hm). pose proof (at_Some_range _ _ _ Hm). pose proof (pr_small _ _ _ Hb).
    cbn [deleted_node cn_label cn_afterIndex cn_beforeIndex cn_kind]. rewrite decide_True by done.
    rewrite decide_False by lia. rewrite i32_small by lia. by rewrite (pr_label _ _ _ Hb i m Hm).
  - rewrite (label_of_entry j n x Hn Hix).
    assert (cn_label x = []) as -> by (by destruct Hok as [(? & ? & -> & _)|[-> _]]).
    rewrite decide_True by done. rewrite Hix, decide_True by (by eapply at_Some_range).
    by rewrite (pr_label _ _ _ Ha j n Hn).
Qed.

(** The entries of the result, before they are sorted. *)
Lemma entries_spec dist :
  shortest_dists dependents (fun _ => true) maxDistance seed_at dist ->
  exists r, each (result_of Rb Ra dist) l = Ok r /\ lc_Label <$> r = label_of <$> listed /\
    forall lc, lc ∈ r -> exists ch, change_of SB SA (lc_Label lc) = Some ch /\
      lc_ChangeType lc = td_ChangeType ch /\
      (lc_Seed lc = true <-> is_seed SB SA (lc_Label lc)) /\
      any_distance_ok SB SA maxDistance (lc_Label lc) (lc_Distance lc).
Proof.
  intros Hdist.
  assert (exists r, each (result_of Rb Ra dist) l = Ok r /\ Forall2 (fun x lc => exists y, seeded x y /\
    lc = {| lc_Label := label_of x; lc_ChangeType := change_type (cn_kind x);
            lc_Distance := final_distance dist y; lc_Seed := cn_seed y |}) listed r) as (r & Hr & HF).
  { apply each_via; [done|]. intros x y Hx Hxy. by apply result_of_seeded. }
  exists r. split; [done|]. split.
  - symmetry. apply list_eq_Forall2, Forall2_fmap_2. eapply Forall2_impl; [exact HF|]. by intros x lc (y & _ & ->).
  - intros lc Hlc'. destruct (Forall2_elem_r _ _ _ _ HF Hlc') as (x & Hx & y & Hxy & ->).
    cbn [lc_Label lc_ChangeType lc_Seed lc_Distance].
    pose proof (proj1 (elem_of_listed x) Hx) as Hn. apply listed_change in Hn as (ch & Hch & Ht & _).
    exists ch. split_and!; [done|done|by apply seeded_fields in Hxy as (_ & _ & _ & _ & _ & ?)|].
    by apply distance_of_listed.
Qed.
End distances.
End listed.

(** * The whole *)

Section run.
Context (sort_pairs : list matchedPair -> list matchedPair).
Context (sort_labels : list LabelChange -> list LabelChange).
Context (sort_pairs_perm : forall l, sort_pairs l ≡ₚ l).
Context (sort_labels_ok : forall l, sort_labels l ≡ₚ l /\
  StronglySorted (fun x y => bcompare (lc_Label x) (lc_Label y) <> Gt) (sort_labels l)).

Lemma sorted_labels_strict (r : list LabelChange) :
  StronglySorted (fun x y => bcompare (lc_Label x) (lc_Label y) <> Gt) r -> NoDup (lc_Label <$> r) ->
  label_sorted r.
Proof.
  induction 1 as [|x r Hr IH Hx]; intros Hnd; [constructor|]. apply NoDup_cons in Hnd as [Hnx Hnd].
  constructor; [by apply IH|]. rewrite Forall_forall in Hx |- *. intros y Hy. specialize (Hx y Hy).
  destruct (bcompare (lc_Label x) (lc_Label y)) eqn:E; [|done|done].
  apply bcompare_eq in E. destruct Hnx. rewrite E. by apply list_elem_of_fmap_2.
Qed.

(** The entries, sorted. *)
Lemma sorted_result r maxDistance listed :
  lc_Label <$> r = label_of <$> listed -> NoDup (label_of <$> listed) ->
  (forall l, is_Some (change_of SB SA l) -> l ∈ label_of <$> listed) ->
  (forall lc, lc ∈ r -> exists ch, change_of SB SA (lc_Label lc) = Some ch /\
     lc_ChangeType lc = td_ChangeType ch /\ (lc_Seed lc = true <-> is_seed SB SA (lc_Label lc)) /\
     any_distance_ok SB SA maxDistance (lc_Label lc) (lc_Distance lc)) ->
  result_ok SB SA maxDistance (sort_labels r).
Proof.
  intros El Hnd Hall Hok. destruct (sort_labels_ok r) as [Hp Hs]. split_and!.
  - apply sorted_labels_strict; [done|]. rewrite (fmap_Permutation lc_Label _ _ Hp), El. done.
  - intros l Hl. rewrite (fmap_Permutation lc_Label _ _ Hp), El. by apply Hall.
  - intros lc. rewrite Hp. apply Hok.
Qed.

Lemma compareInternal_spec (ctx : phase -> Z -> bool) maxDistance :
  blocks_comparable Rb Ra nb na -> digests_honest Rb Ra nb na ->
  unless_done ctx
    (compareInternal sort_pairs sort_labels ctx Rb Ra {| opt_MaxDistance := maxDistance; opt_SeedAttrs := seedAttrs |})
    (result_ok SB SA maxDistance).
Proof.
  intros Hcmp Hhonest. unfold compareInternal. cbn [opt_MaxDistance opt_SeedAttrs].
  eapply unless_done_bind; [apply unless_done_guard|]. intros _ _.
  destruct (align_spec sort_pairs sort_pairs_perm Rb Ra hb nb na Hb Ha Hcmp Hhonest) as (runs & D & I & -> & Hal).
  cbn [mbind res_bind]. eapply unless_done_bind; [apply unless_done_guard|]. intros _ _.
  destruct (hash_diff_spec Rb Ra hb nb na Hb Ha runs D I Hal) as (b2a & c & -> & Hb2a & Hlc & Hc).
  cbn [mbind res_bind]. eapply unless_done_bind; [apply unless_done_guard|]. intros _ _.
  destruct (pr_types _ _ _ Ha) as (ids & Hids & Ht). destruct (Ht sourceFileRuleType) as (sid & Hsid & _).
  change ((deleted_node <$> D) ++ omap id c) with (listed D c).
  destruct (seed_nodes_spec runs D I b2a c Hal Hb2a Hlc Hc ids sid Hids Hsid) as (l & -> & Hl).
  cbn [mbind res_bind]. eapply unless_done_bind; [apply unless_done_guard|]. intros _ _.
  rewrite (pr_count _ _ _ Ha). destruct (buildReverseCSR_spec Ra hb na Ha) as (offs & tgts & -> & Hdep).
  cbn [mbind res_bind]. destruct (queue_nodes l ∅) as [q dist] eqn:Eq.
  eapply unless_done_bind.
  - destruct (search_spec runs D I c Hal Hlc Hc l Hl _ Hdep maxDistance (ctx InBFS) q dist Eq)
      as [[-> (_ & j & Hj)]|H]; [left; split; [done|by exists InBFS, j]|by right].
  - intros dist' Hdist. destruct (entries_spec runs D I b2a c Hal Hb2a Hlc Hc ids sid Hids Hsid l Hl _ Hdep
      maxDistance dist' Hdist) as (r & -> & El & Hok). cbn [mbind res_bind]. apply unless_done_ok.
    apply (sorted_result r maxDistance (listed D c)); [done| | |done].
    + by apply (listed_labels_nodup runs D I).
    + by apply (change_listed runs D I).
Qed.
End run.
End compare.

(** * Property *)

(** C5: The comparison of two blobs is complete and exact.  Unless the context is found
    done, it returns, strictly sorted by label, one entry for each label whose target
    is new, deleted or has another hash string, with its type; the entry is a seed
    exactly when the target changed directly under the rules of
    [internal/targetdiff]; and its distance is the length of a shortest path of
    dependents from a direct change, or -1 when there is none within the limit. *)
Theorem compareInternal_correct (sort_pairs : list matchedPair -> list matchedPair)
  (sort_labels : list LabelChange -> list LabelChange) (ctx : phase -> Z -> bool)
  (Rb Ra : GraphReader) (hb : Z) (nb na : list gnode) (opts : Options) :
  (forall l, sort_pairs l ≡ₚ l) ->
  (forall l, sort_labels l ≡ₚ l /\
     StronglySorted (fun x y => bcompare (lc_Label x) (lc_Label y) <> Gt) (sort_labels l)) ->
  presents Rb hb nb -> presents Ra hb na ->
  blocks_comparable Rb Ra nb na -> digests_honest Rb Ra nb na ->
  unless_done ctx (compareInternal sort_pairs sort_labels ctx Rb Ra opts)
    (result_ok (sem_graph (opt_SeedAttrs opts) nb) (sem_graph (opt_SeedAttrs opts) na) (opt_MaxDistance opts)).
Proof.
  intros Hsp Hsl Hb Ha Hc Hh. destruct opts as [d s].
  apply (compareInternal_spec Rb Ra hb nb na Hb Ha s sort_pairs sort_labels Hsp Hsl ctx d Hc Hh).
Qed.
