(* ===== verification/TgbAgree.v ===== *)
(** The two comparisons agree ([internal/tgbdiff/compare.go] against
    [internal/targetdiff/compare.go]) on graphs whose hashes propagate changes to
    dependents, and may give other distances on others. *)
From Stdlib Require Import ZArith Lia.
From stdpp Require Import gmap fin_maps sorting.
From S2P Require Import Prelude Bfs TargetDiff Entity Encode Reader GraphReader TgbDiff TgbAlign TgbHash TgbReverse TgbCompare TgbResult.

Local Open Scope Z_scope.

(** * Propagation of changes *)

(** The hash of a target covers its dependencies: a dependent of a changed target has
    changed. *)
Definition changes_propagate (before after : TargetDiff.Graph) : Prop :=
  forall u v, is_Some (change_of before after u) -> any_edge after u v -> is_Some (change_of before after v).

(** Names are those of the entries, and no dependency is the empty name. *)
Definition names_ok (g : TargetDiff.Graph) : Prop :=
  forall l t, g !! l = Some t -> tg_Name t = l /\ [] ∉ tg_Dependencies t.

Section agree.
Context (before after : TargetDiff.Graph).

Lemma dep_reach_any k v : dep_reach before after k v -> any_reach before after k v.
Proof.
  induction 1 as [v Hs|k u v _ IH (_ & _ & t & Ht & Hu)]; [by constructor|].
  eapply any_step; [exact IH|]. by exists t.
Qed.

Lemma any_reach_dep k v :
  changes_propagate before after -> names_ok after ->
  any_reach before after k v -> dep_reach before after k v /\ is_Some (change_of before after v).
Proof.
  intros Hp Hn. induction 1 as [v Hs|k u v _ [IH Hu] He].
  - split; [by constructor|]. destruct Hs as (c & Hc & _). by exists c.
  - pose proof (Hp u v Hu He) as Hv. split; [|done]. eapply dep_step; [exact IH|].
    destruct He as (t & Ht & Hin). split; [|split; [done|by exists t]].
    intros ->. by apply (Hn v t Ht).
Qed.

Lemma distances_agree maxDistance v d :
  changes_propagate before after -> names_ok after ->
  any_distance_ok before after maxDistance v d <-> distance_ok before after maxDistance v d.
Proof.
  intros Hp Hn.
  assert (forall k, any_reach before after k v <-> dep_reach before after k v) as Hr.
  { intros k. split; [intros H; by apply any_reach_dep|apply dep_reach_any]. }
  unfold any_distance_ok, distance_ok. setoid_rewrite Hr. done.
Qed.

Lemma distance_unique maxDistance v d d' :
  distance_ok before after maxDistance v d -> distance_ok before after maxDistance v d' -> d = d'.
Proof.
  intros [(H1 & H2 & H3)|[-> H1]] [(G1 & G2 & G3)|[-> G1]].
  - specialize (H2 _ G1). specialize (G2 _ H1). lia.
  - destruct G1. by exists d.
  - destruct H1. by exists d'.
  - done.
Qed.

(** What the results have in common: the label, the type and the distance. *)
Definition summary_of_label (lc : LabelChange) : bytes * (ChangeType * Z) :=
  (lc_Label lc, (lc_ChangeType lc, lc_Distance lc)).
Definition summary_of_target (c : TargetDiff.ChangedTarget) : bytes * (ChangeType * Z) :=
  (match td_After c, td_Before c with Some t, _ | None, Some t => tg_Name t | None, None => [] end,
   (td_ChangeType c, td_Distance c)).

Lemma target_name n c d :
  names_ok before -> names_ok after -> change_of before after n = Some c ->
  summary_of_target (set_distance d c) = (n, (td_ChangeType c, d)).
Proof.
  intros Hb Ha Hc. unfold change_of in Hc.
  destruct (before !! n) as [b|] eqn:Eb, (after !! n) as [a|] eqn:Ea; [case_decide; [done|]|..|done];
    injection Hc as <-; unfold summary_of_target; cbn.
  - by rewrite (proj1 (Ha n a Ea)).
  - by rewrite (proj1 (Hb n b Eb)).
  - by rewrite (proj1 (Ha n a Ea)).
Qed.

(** The full entry behind the entry of a label. *)
Definition full_change (lc : LabelChange) : TargetDiff.ChangedTarget :=
  match change_of before after (lc_Label lc) with
  | Some ch => set_distance (lc_Distance lc) ch
  | None => {| td_ChangeType := ChangeTypeInvalid; td_Before := None; td_After := None; td_Distance := 0 |}
  end.

Lemma label_sorted_nodup r : label_sorted r -> NoDup (lc_Label <$> r).
Proof.
  induction 1 as [|x r Hr IH Hx]; [constructor|]. rewrite fmap_cons. apply NoDup_cons. split; [|exact IH].
  intros Hin. apply list_elem_of_fmap in Hin as (y & E & Hy). rewrite Forall_forall in Hx. specialize (Hx y Hy).
  rewrite E, bcompare_refl in Hx. done.
Qed.

(** Two results that meet their specifications have the same entries. *)
Lemma full_results_agree maxDistance r r' m :
  changes_propagate before after -> names_ok after ->
  result_ok before after maxDistance r -> r' ≡ₚ (map_to_list m).*2 -> changes_ok before after maxDistance m ->
  full_change <$> r ≡ₚ r'.
Proof.
  intros Hp Hna (Hsorted & Hall & Hok) Hr' Hm.
  enough ((fun lc => (lc_Label lc, full_change lc)) <$> r ≡ₚ map_to_list m) as H.
  { rewrite Hr', <- H, <- list_fmap_compose. done. }
  apply NoDup_Permutation.
  - apply (NoDup_fmap_1 fst). rewrite <- list_fmap_compose. by apply label_sorted_nodup.
  - apply NoDup_map_to_list.
  - intros [n c]. rewrite elem_of_map_to_list, list_elem_of_fmap. split.
    + intros (lc & [= -> ->] & Hlc). destruct (Hok lc Hlc) as (ch & Hch & Ht & _ & Hd).
      specialize (Hm (lc_Label lc)). destruct (m !! lc_Label lc) as [c|]; [|congruence].
      destruct Hm as (c0 & Hc0 & -> & Hd0). rewrite Hch in Hc0. injection Hc0 as <-.
      unfold full_change. rewrite Hch. apply distances_agree in Hd; [|done..].
      by rewrite (distance_unique _ _ _ _ Hd Hd0).
    + intros Hc. specialize (Hm n). rewrite Hc in Hm. destruct Hm as (c0 & Hc0 & Ec & Hd0).
      assert (n ∈ lc_Label <$> r) as Hn by (apply Hall; by exists c0).
      apply list_elem_of_fmap in Hn as (lc & -> & Hlc). exists lc. split; [|done]. f_equal.
      destruct (Hok lc Hlc) as (ch & Hch & _ & _ & Hd). rewrite Hch in Hc0. injection Hc0 as <-.
      unfold full_change. rewrite Hch, Ec. apply distances_agree in Hd; [|done..].
      by rewrite (distance_unique _ _ _ _ Hd Hd0).
Qed.
End agree.

Lemma sem_names R hb ns seedAttrs : presents R hb ns -> names_ok (sem_graph seedAttrs ns).
Proof.
  intros HR l t (i & n & Hn & -> & ->)%(sem_lookup R hb ns HR). split; [done|].
  cbn. intros (d & E & Hd)%list_elem_of_fmap. destruct (dep_node R hb ns HR i n d Hn Hd) as (m & Hm & El).
  rewrite El in E. by apply (name_ok R hb ns HR d m Hm).
Qed.
