(* ===== verification/TgbAdapt.v ===== *)
(** Semantic targets from blobs, full results, and the shadow oracle
    ([internal/tgbdiff/adapt.go]). *)
From Stdlib Require Import ZArith Lia.
From stdpp Require Import gmap fin_maps sorting.
From S2P Require Import Prelude Bfs TargetDiff Entity Encode Reader GraphReader TgbDiff TgbAlign TgbHash TgbReverse TgbCompare TgbResult TgbAgree.

Local Open Scope Z_scope.

(** * Semantic targets *)

Definition materializeTarget (r : GraphReader) (node : Z) (seedAttrs : option (gset bytes)) : res Target :=
  name ← gr_Label r node;
  hash ← gr_Hash r node;
  ruleType ← gr_RuleType r node;
  root ← gr_Root r node;
  external ← gr_External r node;
  deps ← gr_Deps r node;
  dependencies ← each (gr_Label r) deps;
  tags ← gr_Tags r node;
  tagNames ← each (gr_TagName r) tags;
  attrs ← gr_Attrs r node;
  Ok {| tg_Name := name; tg_Hash := hash; tg_RuleType := ruleType; tg_Dependencies := dependencies;
        tg_Tags := filter (fun name => name <> []) tagNames; tg_Attributes := filter_attrs seedAttrs attrs;
        tg_Root := root; tg_External := external |}.

Definition SemanticGraph (r : GraphReader) (seedAttrs : option (gset bytes)) : res TargetDiff.Graph :=
  fold_res (fun (g : TargetDiff.Graph) i =>
    t ← materializeTarget r i seedAttrs; Ok (<[tg_Name t := t]> g)) ∅ (zrange 0 (gr_NodeCount r)).

(** * Full results *)

(** The target of a changed label on one side. *)
Definition materialize_side (r : GraphReader) (seedAttrs : option (gset bytes)) (pkg name : bytes)
  (wanted : bool) (missing : string) : res (option Target) :=
  if wanted then
    node ← gr_FindNode r pkg name;
    _ ← guard_err (bool_decide (node < 0)) missing;
    t ← materializeTarget r node seedAttrs;
    Ok (Some t)
  else Ok None.

Definition materialize_change (before after : GraphReader) (seedAttrs : option (gset bytes))
  (c : LabelChange) : res TargetDiff.ChangedTarget :=
  let '(pkg, name) := SplitLabelString (lc_Label c) in
  let ct := lc_ChangeType c in
  a ← materialize_side after seedAttrs pkg name (bool_decide (ct = ChangeTypeNew \/ ct = ChangeTypeChanged))
        "tgbdiff: changed label %q not found in after graph";
  b ← materialize_side before seedAttrs pkg name (bool_decide (ct = ChangeTypeDeleted \/ ct = ChangeTypeChanged))
        "tgbdiff: changed label %q not found in before graph";
  Ok {| td_ChangeType := ct; td_Before := b; td_After := a; td_Distance := lc_Distance c |}.

Definition Materialize (before after : GraphReader) (result : list LabelChange)
  (seedAttrs : option (gset bytes)) : res (list TargetDiff.ChangedTarget) :=
  each (materialize_change before after seedAttrs) result.

(** * Equivalence of results *)

Definition sortedTarget (t : Target) : Target :=
  {| tg_Name := tg_Name t; tg_Hash := tg_Hash t; tg_RuleType := tg_RuleType t;
     tg_Dependencies := sort_func bcompare (tg_Dependencies t); tg_Tags := sort_func bcompare (tg_Tags t);
     tg_Attributes := tg_Attributes t; tg_Root := tg_Root t; tg_External := tg_External t |}.

Definition changedLabel (ct : TargetDiff.ChangedTarget) : bytes :=
  match td_After ct, td_Before ct with
  | Some t, _ | None, Some t => tg_Name t
  | None, None => []
  end.

Definition slicesEqual (a b : list bytes) : bool :=
  if decide (length a <> length b) then false
  else forallb (fun ab : bytes * bytes => bool_decide (ab.1 = ab.2)) (zip a b).

Definition mapsEqual (a b : gmap bytes bytes) : bool :=
  if decide (size a <> size b) then false
  else forallb (fun kv : bytes * bytes => bool_decide (b !! kv.1 = Some kv.2)) (map_to_list a).

Definition targetsEqual (a b : option Target) : bool :=
  match a, b with
  | None, None => true
  | Some a, Some b =>
      bool_decide (tg_Name a = tg_Name b) && bool_decide (tg_Hash a = tg_Hash b) &&
      bool_decide (tg_RuleType a = tg_RuleType b) && bool_decide (tg_Root a = tg_Root b) &&
      bool_decide (tg_External a = tg_External b) &&
      slicesEqual (tg_Dependencies a) (tg_Dependencies b) && slicesEqual (tg_Tags a) (tg_Tags b) &&
      mapsEqual (tg_Attributes a) (tg_Attributes b)
  | _, _ => false
  end.

Definition changedTargetsEqual (a b : TargetDiff.ChangedTarget) : bool :=
  bool_decide (td_ChangeType a = td_ChangeType b) && bool_decide (td_Distance a = td_Distance b) &&
  targetsEqual (td_Before a) (td_Before b) && targetsEqual (td_After a) (td_After b).

Section equivalent.
(** [sort.Slice] leaves the order of equal labels open. *)
Context (sort_changed : list TargetDiff.ChangedTarget -> list TargetDiff.ChangedTarget).

Definition normalizeResult (res : list TargetDiff.ChangedTarget) : list TargetDiff.ChangedTarget :=
  sort_changed ((fun ct =>
    {| td_ChangeType := td_ChangeType ct; td_Before := sortedTarget <$> td_Before ct;
       td_After := sortedTarget <$> td_After ct; td_Distance := td_Distance ct |}) <$> res).

(** The first divergence is described by the constant part of its message. *)
Definition ResultsEquivalent (a b : list TargetDiff.ChangedTarget) : bool * string :=
  let an := normalizeResult a in
  let bn := normalizeResult b in
  if decide (length an <> length bn) then (false, "changed-target counts differ: %d vs %d")
  else if forallb (fun ab => changedTargetsEqual ab.1 ab.2) (zip an bn) then (true, "")
  else (false, "changed target %q differs: %+v vs %+v").
End equivalent.

(** * Semantic graphs of presented blobs *)

Section present.
Context (R : GraphReader) (hb : Z) (ns : list gnode) (HR : presents R hb ns).
Context (seedAttrs : option (gset bytes)).

Lemma dep_labels i n : at_ ns i = Some n -> each (gr_Label R) (gn_deps n) = Ok (node_label ns <$> gn_deps n).
Proof.
  intros Hn. apply each_fmap. intros d Hd.
  destruct (dep_node R hb ns HR i n d Hn Hd) as (m & Hm & ->). by apply (pr_label _ _ _ HR).
Qed.

Lemma materializeTarget_spec i n :
  at_ ns i = Some n -> materializeTarget R i seedAttrs = Ok (sem_target seedAttrs ns n).
Proof.
  intros Hn. unfold materializeTarget. destruct (pr_scalars _ _ _ HR i n Hn) as (-> & -> & -> & ->).
  rewrite (pr_label _ _ _ HR i n Hn), (proj1 (pr_deps _ _ _ HR i n Hn)), (pr_attrs _ _ _ HR i n Hn).
  cbn [mbind res_bind]. rewrite (dep_labels i n Hn). cbn [mbind res_bind].
  destruct (pr_tags _ _ _ HR i n Hn) as (ids & -> & Htags). cbn [mbind res_bind]. by rewrite Htags.
Qed.

Lemma SemanticGraph_spec : SemanticGraph R seedAttrs = Ok (sem_graph seedAttrs ns).
Proof.
  unfold SemanticGraph. rewrite (pr_count _ _ _ HR).
  set (step := fun (g : TargetDiff.Graph) i => _).
  destruct (fold_res_inv step (fun past (g : TargetDiff.Graph) => forall l t, g !! l = Some t <->
      exists i n, i ∈ past /\ at_ ns i = Some n /\ l = gn_label n /\ t = sem_target seedAttrs ns n)
    (zrange 0 (zlen ns)) ∅) as (g & -> & Hg).
  - intros l t. rewrite lookup_empty. split; [done|]. intros (i & n & Hi & _). by apply elem_of_nil in Hi.
  - intros past i later g Hs Hg. assert (0 <= i < zlen ns) as Hi.
    { apply elem_of_zrange. rewrite Hs. apply elem_of_app. right; by left. }
    destruct (at_is_Some ns i Hi) as [n Hn]. unfold step. rewrite (materializeTarget_spec i n Hn).
    cbn [mbind res_bind]. eexists. split; [done|]. intros l t. cbn [tg_Name sem_target].
    destruct (decide (gn_label n = l)) as [<-|Hne].
    + rewrite lookup_insert_eq. split.
      * intros [= <-]. exists i, n. split_and!; [apply elem_of_app; right; by left|done..].
      * intros (i' & n' & _ & Hn' & El & ->). assert (i = i') as -> by (by eapply (label_inj R hb ns HR)). congruence.
    + rewrite lookup_insert_ne, Hg by done. split.
      * intros (i' & n' & Hi' & ?). exists i', n'. split; [apply elem_of_app; by left|done].
      * intros (i' & n' & [?|Hi'%list_elem_of_singleton]%elem_of_app & Hn' & -> & ->); [by exists i', n'|].
        subst i'. rewrite Hn in Hn'. by injection Hn' as <-.
  - f_equal. apply map_eq. intros l. apply option_eq. intros t. rewrite Hg, (sem_lookup R hb ns HR).
    split; intros (i & n & H); exists i, n; [tauto|]. split; [|done]. apply elem_of_zrange.
    destruct H as [H _]. by eapply at_Some_range.
Qed.

(** A label leads back to its node. *)
Lemma materialize_side_spec l t missing :
  sem_graph seedAttrs ns !! l = Some t ->
  materialize_side R seedAttrs (SplitLabelString l).1 (SplitLabelString l).2 true missing = Ok (Some t).
Proof.
  intros (i & n & Hn & -> & ->)%(sem_lookup R hb ns HR). unfold SplitLabelString, gn_label.
  rewrite splitLabel_joinLabel by apply (name_ok R hb ns HR i n Hn). cbn [fst snd].
  unfold materialize_side. rewrite (pr_find _ _ _ HR i n Hn). cbn [mbind res_bind].
  pose proof (at_Some_range _ _ _ Hn). guard_pass. by rewrite (materializeTarget_spec i n Hn).
Qed.
End present.

(** [Materialize] turns the entry of a label into the full entry. *)
Lemma Materialize_spec Rb Ra hb nb na seedAttrs maxDistance r :
  presents Rb hb nb -> presents Ra hb na ->
  result_ok (sem_graph seedAttrs nb) (sem_graph seedAttrs na) maxDistance r ->
  Materialize Rb Ra r seedAttrs = Ok (full_change (sem_graph seedAttrs nb) (sem_graph seedAttrs na) <$> r).
Proof.
  intros Hb Ha (_ & _ & Hok). apply each_fmap. intros lc Hlc. destruct (Hok lc Hlc) as (ch & Hch & Ht & _). unfold materialize_change, full_change.
  rewrite (surjective_pairing (SplitLabelString (lc_Label lc))), Hch, Ht.
  pose proof (materialize_side_spec Rb hb nb Hb seedAttrs (lc_Label lc)) as HB.
  pose proof (materialize_side_spec Ra hb na Ha seedAttrs (lc_Label lc)) as HA.
  unfold change_of in Hch.
  destruct (sem_graph seedAttrs nb !! lc_Label lc) as [b|], (sem_graph seedAttrs na !! lc_Label lc) as [a|];
    [case_decide; [done|]|..|done]; injection Hch as <-; cbn [td_ChangeType changed_change deleted_change new_change];
    repeat (rewrite bool_decide_true by tauto) || (rewrite bool_decide_false by (intros [?|?]; done));
    rewrite ?(HA _ _ eq_refl), ?(HB _ _ eq_refl); done.
Qed.

(** * The equality of results *)

Lemma slicesEqual_spec a b : slicesEqual a b = true <-> a = b.
Proof.
  unfold slicesEqual. case_decide as Hl; [split; [done|congruence]|].
  assert (length a = length b) as Hlen by lia. clear Hl. revert b Hlen.
  induction a as [|x a IH]; intros [|y b] Hlen; cbn in *; try done. injection Hlen as Hlen.
  rewrite andb_true_iff, (IH b Hlen), bool_decide_eq_true. split; [intros [-> ->]; done|intros [= -> ->]; done].
Qed.

Lemma mapsEqual_spec a b : mapsEqual a b = true <-> a = b.
Proof.
  assert (mapsEqual a b = negb (attributesChanged a b)) as ->.
  { unfold mapsEqual, attributesChanged. case_decide; [done|]. induction (map_to_list a) as [|x l IH]; [done|].
    cbn. rewrite IH, negb_orb. f_equal. by rewrite bool_decide_not, negb_involutive. }
  pose proof (attributesChanged_spec a b) as H. destruct (attributesChanged a b); cbn.
  - split; [done|]. intros E. by destruct (proj1 H eq_refl).
  - split; [|done]. intros _. destruct (decide (a = b)) as [|Hne]; [done|]. by apply H in Hne.
Qed.

Lemma targetsEqual_spec a b : targetsEqual a b = true <-> a = b.
Proof.
  destruct a as [a|], b as [b|]; cbn; [|done..].
  rewrite !andb_true_iff, !bool_decide_eq_true, !slicesEqual_spec, mapsEqual_spec. split.
  - intros [[[[[[[H1 H2] H3] H4] H5] H6] H7] H8]. destruct a, b. cbn in *. congruence.
  - intros [= ->]. tauto.
Qed.

Lemma changedTargetsEqual_spec a b : changedTargetsEqual a b = true <-> a = b.
Proof.
  unfold changedTargetsEqual. rewrite !andb_true_iff, !bool_decide_eq_true, !targetsEqual_spec. split.
  - intros [[[H1 H2] H3] H4]. destruct a, b. cbn in *. congruence.
  - intros ->. tauto.
Qed.

(** * Equivalence *)

(** The same target up to the order of its dependencies and tags. *)
Definition target_equiv (a b : Target) : Prop := sortedTarget a = sortedTarget b.

Lemma target_equiv_iff a b :
  target_equiv a b <->
  tg_Name a = tg_Name b /\ tg_Hash a = tg_Hash b /\ tg_RuleType a = tg_RuleType b /\
  tg_Dependencies a ≡ₚ tg_Dependencies b /\ tg_Tags a ≡ₚ tg_Tags b /\
  tg_Attributes a = tg_Attributes b /\ tg_Root a = tg_Root b /\ tg_External a = tg_External b.
Proof.
  assert (forall l1 l2 : list bytes, sort_func bcompare l1 = sort_func bcompare l2 <-> l1 ≡ₚ l2) as Hs.
  { intros l1 l2. split.
    - intros E. by rewrite <- (sort_func_perm bcompare l1), E, sort_func_perm.
    - intros Hp. apply sort_func_unique; [apply sort_func_sorted, _|]. by rewrite (sort_func_perm bcompare l2). }
  unfold target_equiv, sortedTarget. split.
  - intros [= H1 H2 H3 H4 H5 H6 H7 H8]. rewrite <- !Hs. tauto.
  - rewrite <- !Hs. intros (-> & -> & -> & -> & -> & -> & -> & ->). done.
Qed.

Definition norm1 (ct : TargetDiff.ChangedTarget) : TargetDiff.ChangedTarget :=
  {| td_ChangeType := td_ChangeType ct; td_Before := sortedTarget <$> td_Before ct;
     td_After := sortedTarget <$> td_After ct; td_Distance := td_Distance ct |}.

(** The same change, with targets equal up to the order of dependencies and tags. *)
Definition change_equiv (a b : TargetDiff.ChangedTarget) : Prop :=
  td_ChangeType a = td_ChangeType b /\ td_Distance a = td_Distance b /\
  option_Forall2 target_equiv (td_Before a) (td_Before b) /\ option_Forall2 target_equiv (td_After a) (td_After b).

Lemma norm1_equiv a b : norm1 a = norm1 b <-> change_equiv a b.
Proof.
  assert (forall x y : option Target, sortedTarget <$> x = sortedTarget <$> y <-> option_Forall2 target_equiv x y) as Ho.
  { intros [x|] [y|]; cbn; split; intros H; try done; try constructor; try (by inversion H).
    - injection H as E. unfold target_equiv, sortedTarget. congruence.
    - inversion_clear H as [? ? E|]. by rewrite E. }
  unfold change_equiv. rewrite <- !Ho. unfold norm1. split.
  - intros [= H1 H2 H3 H4]. tauto.
  - intros (-> & -> & -> & ->). done.
Qed.

Lemma changedLabel_norm1 ct : changedLabel (norm1 ct) = changedLabel ct.
Proof. by destruct ct as [? [b|] [a|] ?]. Qed.

Section equivalence.
Context (sort_changed : list TargetDiff.ChangedTarget -> list TargetDiff.ChangedTarget).
Context (sort_changed_ok : forall l, sort_changed l ≡ₚ l /\
  StronglySorted (fun x y => bcompare (changedLabel x) (changedLabel y) <> Gt) (sort_changed l)).

Lemma normalize_labels_nodup l :
  NoDup (changedLabel <$> l) -> NoDup (changedLabel <$> sort_changed (norm1 <$> l)).
Proof.
  intros Hnd. destruct (sort_changed_ok (norm1 <$> l)) as [Hp _]. rewrite (fmap_Permutation changedLabel _ _ Hp).
  rewrite <- list_fmap_compose.
  rewrite (list_fmap_ext (changedLabel ∘ norm1) changedLabel l (fun _ ct _ => changedLabel_norm1 ct)). done.
Qed.

(** With distinct labels the sort has one result. *)
Lemma normalize_eq a b :
  NoDup (changedLabel <$> a) -> NoDup (changedLabel <$> b) ->
  normalizeResult sort_changed a = normalizeResult sort_changed b <-> norm1 <$> a ≡ₚ norm1 <$> b.
Proof.
  intros Ha Hb. unfold normalizeResult. change (fun ct => _) with norm1.
  destruct (sort_changed_ok (norm1 <$> a)) as [Hpa Hsa]. destruct (sort_changed_ok (norm1 <$> b)) as [Hpb Hsb]. split.
  - intros E. by rewrite <- Hpa, E, Hpb.
  - intros Hp. apply (sorted_by_key_unique changedLabel); [done|done|by apply normalize_labels_nodup|].
    by rewrite Hpa, Hp, Hpb.
Qed.

Lemma perm_fmap_inv {A B} (f : A -> B) (l : list A) (k : list B) :
  k ≡ₚ f <$> l -> exists l', k = f <$> l' /\ l' ≡ₚ l.
Proof.
  revert k. induction l as [|x l IH]; intros k Hk.
  { apply Permutation_nil_r in Hk as ->. by exists []. }
  apply Permutation_cons_inv_r in Hk as (k1 & k2 & -> & Hp). symmetry in Hp.
  destruct (IH _ Hp) as (l' & E & Hl'). symmetry in E. apply fmap_app_inv in E as (l1 & l2 & -> & -> & ->).
  exists (l1 ++ x :: l2). split; [by rewrite fmap_app|]. by rewrite <- Permutation_middle, Hl'.
Qed.

Lemma perm_fmap_equiv (a b : list TargetDiff.ChangedTarget) :
  norm1 <$> a ≡ₚ norm1 <$> b <-> exists a', a' ≡ₚ a /\ Forall2 change_equiv a' b.
Proof.
  split.
  - intros Hp. symmetry in Hp. apply perm_fmap_inv in Hp as (a' & E & Hp').
    exists a'. split; [done|]. clear Hp'. symmetry in E. revert b E.
    induction a' as [|x a' IH]; intros [|y b] E; try discriminate; constructor.
    + apply norm1_equiv, (inj Some). exact (f_equal head E).
    + apply IH. exact (f_equal tail E).
  - intros (a' & Hp & HF). rewrite <- Hp. apply Permutation_refl', list_eq_Forall2, Forall2_fmap_2.
    eapply Forall2_impl; [exact HF|]. intros x y. apply norm1_equiv.
Qed.

Lemma ResultsEquivalent_eq a b :
  ResultsEquivalent sort_changed a b = (true, ""%string) <->
  normalizeResult sort_changed a = normalizeResult sort_changed b.
Proof.
  unfold ResultsEquivalent. set (an := normalizeResult _ a). set (bn := normalizeResult _ b).
  case_decide as Hl; [split; [done|congruence]|].
  assert (forallb (fun ab => changedTargetsEqual ab.1 ab.2) (zip an bn) = true <-> an = bn) as H.
  { assert (length an = length bn) as Hlen by lia. clear Hl. revert Hlen. generalize an bn. clear.
    induction an as [|x an IH]; intros [|y bn] Hlen; cbn in *; try done. injection Hlen as Hlen.
    rewrite andb_true_iff, (IH bn Hlen), changedTargetsEqual_spec.
    split; [intros [-> ->]; done|intros [= -> ->]; done]. }
  rewrite <- H. destruct (forallb _ _); split; done.
Qed.
End equivalence.

(** The reference has one entry per label. *)
Lemma reference_labels_nodup before after maxDistance r' m :
  names_ok before -> names_ok after -> r' ≡ₚ (map_to_list m).*2 -> changes_ok before after maxDistance m ->
  NoDup (changedLabel <$> r').
Proof.
  intros Hb Ha Hr' Hm. rewrite (fmap_Permutation changedLabel _ _ Hr'), <- list_fmap_compose.
  rewrite (list_fmap_ext (changedLabel ∘ snd) fst (map_to_list m)); [apply NoDup_fst_map_to_list|].
  intros k [n c] Hk. apply list_elem_of_lookup_2, elem_of_map_to_list in Hk. specialize (Hm n). rewrite Hk in Hm.
  destruct Hm as (c0 & Hc0 & -> & _). pose proof (target_name before after n c0 (td_Distance c) Hb Ha Hc0) as E.
  by injection E.
Qed.

(** * Properties *)

(** The equivalence check is exact.  For results with one entry per label it answers
    true, and gives no reason, exactly when the entries of one can be paired with the
    entries of the other so that type, distance and targets are equal, up to the order
    of dependencies and tags. *)
Theorem ResultsEquivalent_correct (sort_changed : list TargetDiff.ChangedTarget -> list TargetDiff.ChangedTarget)
  (a b : list TargetDiff.ChangedTarget) :
  (forall l, sort_changed l ≡ₚ l /\
     StronglySorted (fun x y => bcompare (changedLabel x) (changedLabel y) <> Gt) (sort_changed l)) ->
  NoDup (changedLabel <$> a) -> NoDup (changedLabel <$> b) ->
  ResultsEquivalent sort_changed a b = (true, ""%string) <-> exists a', a' ≡ₚ a /\ Forall2 change_equiv a' b.
Proof.
  intros Hs Ha Hb. rewrite ResultsEquivalent_eq, (normalize_eq sort_changed Hs a b Ha Hb). apply perm_fmap_equiv.
Qed.

(** C4: The shadow oracle never reports a divergence.  On two blobs that present graphs
    whose hashes cover the dependencies, the result of the comparison of the blobs,
    materialized, is equivalent to the result of the reference comparison of the two
    semantic graphs read from the blobs; no step fails, but for the context being
    found done. *)
Theorem shadow_compare_equivalent (sort_pairs : list matchedPair -> list matchedPair)
  (sort_labels : list LabelChange -> list LabelChange)
  (sort_changed : list TargetDiff.ChangedTarget -> list TargetDiff.ChangedTarget)
  (ctx : phase -> Z -> bool)
  (range : forall A, site -> gmap bytes A -> list (bytes * A)) (ctx' : site -> Z -> bool)
  (Rb Ra : GraphReader) (hb : Z) (nb na : list gnode) (opts : Options) :
  (forall l, sort_pairs l ≡ₚ l) ->
  (forall l, sort_labels l ≡ₚ l /\
     StronglySorted (fun x y => bcompare (lc_Label x) (lc_Label y) <> Gt) (sort_labels l)) ->
  (forall l, sort_changed l ≡ₚ l /\
     StronglySorted (fun x y => bcompare (changedLabel x) (changedLabel y) <> Gt) (sort_changed l)) ->
  (forall A s (m : gmap bytes A), range A s m ≡ₚ map_to_list m) ->
  presents Rb hb nb -> presents Ra hb na -> zlen nb + zlen na < 2^31 ->
  blocks_comparable Rb Ra nb na -> digests_honest Rb Ra nb na ->
  changes_propagate (sem_graph (opt_SeedAttrs opts) nb) (sem_graph (opt_SeedAttrs opts) na) ->
  unless_done ctx (r ← compareInternal sort_pairs sort_labels ctx Rb Ra opts;
                   Materialize Rb Ra r (opt_SeedAttrs opts)) (fun native =>
    exists b a, SemanticGraph Rb (opt_SeedAttrs opts) = Ok b /\ SemanticGraph Ra (opt_SeedAttrs opts) = Ok a /\
    unless_done ctx' (Compare range ctx' {| Before := b; After := a; MaxDistance := opt_MaxDistance opts |})
      (fun reference => ResultsEquivalent sort_changed native reference = (true, ""%string))).
Proof.
  intros Hsp Hsl Hsc Hr Hb Ha Hn Hc Hh Hp. destruct opts as [d s]. cbn [opt_SeedAttrs opt_MaxDistance] in *.
  eapply unless_done_bind.
  { apply (compareInternal_spec Rb Ra hb nb na Hb Ha s sort_pairs sort_labels Hsp Hsl ctx d Hc Hh). }
  intros r Hok. rewrite (Materialize_spec Rb Ra hb nb na s d r Hb Ha Hok). apply unless_done_ok.
  exists (sem_graph s nb), (sem_graph s na).
  split; [by apply (SemanticGraph_spec Rb hb)|]. split; [by apply (SemanticGraph_spec Ra hb)|].
  eapply unless_done_mono.
  { apply (Compare_spec range ctx' Hr). pose proof (sem_size Rb hb nb Hb s). pose proof (sem_size Ra hb na Ha s). lia. }
  intros r' (m & Hr' & Hm). pose proof (sem_names Rb hb nb s Hb) as Hnb. pose proof (sem_names Ra hb na s Ha) as Hna.
  pose proof (full_results_agree _ _ d r r' m Hp Hna Hok Hr' Hm) as Hperm.
  apply ResultsEquivalent_eq, (normalize_eq sort_changed Hsc).
  - rewrite (fmap_Permutation changedLabel _ _ Hperm). by apply (reference_labels_nodup (sem_graph s nb) (sem_graph s na) d r' m).
  - by apply (reference_labels_nodup (sem_graph s nb) (sem_graph s na) d r' m).
  - by rewrite Hperm.
Qed.
