(* ===== verification/TgbSample.v ===== *)
(** Sample graphs for the TGB-native comparison, read through an in-memory
    [GraphReader] that presents any well-formed list of nodes. *)
From Stdlib Require Import ZArith Lia.
From stdpp Require Import gmap.
From S2P Require Import Prelude Bfs TargetDiff Columns Entity Encode EncodeSpec Reader RoundTripAux GraphReader TgbDiff TgbAlign TgbHash TgbReverse TgbCompare TgbResult TgbAgree TgbAdapt.

Local Open Scope Z_scope.

(** * A reader over a list of nodes *)

Section mem.
Context (hb : Z) (ns : list gnode) (starts digests : list Z).

Definition node_field {A} (f : gnode -> A) (i : Z) : res A :=
  match at_ ns i with Some n => Ok (f n) | None => Panic end.

(** A rule type is identified by the first node that has it. *)
Definition type_id (s : bytes) : Z :=
  match list_find (fun n => gn_rt n = s) ns with Some (k, _) => Z.of_nat k | None => -1 end.

(** A tag is identified by its first occurrence. *)
Definition all_tags : list bytes := concat (gn_tags <$> ns).
Definition tag_id (s : bytes) : Z :=
  match list_find (fun x => x = s) all_tags with Some (k, _) => Z.of_nat k | None => -1 end.

Definition mem_reader : GraphReader :=
  {| gr_NodeCount := zlen ns; gr_HashBytes := hb; gr_Hashes := Ok (concat (gn_hash <$> ns));
     gr_HashEmptyBits := Ok (Some (bitset gn_empty ns));
     gr_BlockCount := zlen digests; gr_BlockDigests := Ok digests;
     gr_BlockStart := index starts;
     gr_Label := node_field gn_label; gr_SplitLabel := node_field gn_key;
     gr_FindNode p n := Ok match list_find (fun x => gn_key x = (p, n)) ns with
                           | Some (k, _) => Z.of_nat k | None => -1 end;
     gr_Hash := node_field gn_hash_string; gr_RuleType := node_field gn_rt;
     gr_RuleTypeIDs := Ok (type_id ∘ gn_rt <$> ns); gr_RuleTypeDictID s := Ok (type_id s);
     gr_Deps := node_field gn_deps;
     gr_DepsCSR := Ok (csr_offs 0 (gn_deps <$> ns), concat (gn_deps <$> ns));
     gr_Tags := node_field (fun n => tag_id <$> gn_tags n); gr_TagName := index all_tags;
     gr_Attrs := node_field gn_attrs;
     gr_Root := node_field gn_root; gr_External := node_field gn_external |}.

(** Well-formedness, decidable. *)
Fixpoint sorted_keys (l : list gnode) : bool :=
  match l with
  | [] => true
  | n :: l => forallb (fun m => bool_decide (label_cmp (gn_key n) (gn_key m) = Lt)) l && sorted_keys l
  end.

Fixpoint sorted_starts (l : list Z) (n : Z) : bool :=
  match l with
  | [] => true
  | s :: l => bool_decide (0 <= s < match l with e :: _ => e | [] => n end) && sorted_starts l n
  end.

Definition well_formed : Prop :=
  zlen ns < 2^31 /\ 0 < hb /\
  Forall (fun n => zlen (gn_hash n) = hb /\ (gn_empty n = true -> gn_hash n = replicate (Z.to_nat hb) x00)) ns /\
  sorted_keys ns = true /\ Forall (fun n => (colon ∉ gn_name n) /\ gn_label n <> []) ns /\
  Forall (fun n => Forall (fun d => 0 <= d < zlen ns) (gn_deps n)) ns /\
  zlen (concat (gn_deps <$> ns)) < 2^31 /\
  zlen starts = zlen digests /\ sorted_starts starts (zlen ns) = true.

Lemma sorted_keys_lt l : sorted_keys l = true ->
  forall i j x y, at_ l i = Some x -> at_ l j = Some y -> i < j -> label_lt (gn_key x) (gn_key y).
Proof.
  induction l as [|n l IH]; cbn [sorted_keys]; intros H i j x y Hi Hj Hlt.
  { apply at_Some_range in Hi. change (zlen []) with 0 in Hi. lia. }
  apply andb_true_iff in H as [Hall Hl]. pose proof (at_Some_range _ _ _ Hi). pose proof (at_Some_range _ _ _ Hj).
  rewrite at_cons in Hi, Hj by lia. rewrite decide_False in Hj by lia.
  destruct (decide (i = 0)) as [->|Hne].
  - injection Hi as <-. rewrite forallb_forall in Hall. apply at_elem, list_elem_of_In in Hj.
    specialize (Hall y Hj). by apply bool_decide_eq_true in Hall.
  - by apply (IH Hl (i - 1) (j - 1)); [..|lia].
Qed.

Lemma sorted_starts_lt l n : sorted_starts l n = true ->
  forall k s e, at_ (l ++ [n]) k = Some s -> at_ (l ++ [n]) (k + 1) = Some e -> 0 <= s < e.
Proof.
  induction l as [|s0 l IH]; cbn [sorted_starts]; intros H k s e Hs He.
  - apply at_Some_range in Hs, He. change (zlen ([] ++ [n])) with 1 in *. lia.
  - apply andb_true_iff in H as [H0%bool_decide_eq_true Hl]. pose proof (at_Some_range _ _ _ Hs).
    cbn [app] in Hs, He. rewrite at_cons in Hs, He by lia. rewrite decide_False, Z.add_simpl_r in He by lia.
    destruct (decide (k = 0)) as [->|Hne].
    + injection Hs as <-. destruct l as [|s1 l]; cbn [app] in He; rewrite at_cons, decide_True in He by lia;
        by injection He as <-.
    + apply (IH Hl (k - 1)); [done|]. by replace (k - 1 + 1) with k by lia.
Qed.

Context (Hok : well_formed).

Lemma mem_blocks : blocks_ok mem_reader (zlen ns) starts digests.
Proof.
  destruct Hok as (_ & _ & _ & _ & _ & _ & _ & Hl & Hs). split; [done|done|..|done|].
  - intros k s Hk. cbn. by rewrite index_at, Hk.
  - by apply sorted_starts_lt.
Qed.

(** The blocks are those given. *)
Lemma mem_blocks_unique starts' digests' :
  blocks_ok mem_reader (zlen ns) starts' digests' -> starts' = starts /\ digests' = digests.
Proof.
  intros HB. pose proof mem_blocks as HM. pose proof (bo_digests _ _ _ _ HB) as E. cbn in E. injection E as <-.
  split; [|done]. apply at_ext. intros k.
  pose proof (bo_length _ _ _ _ HB) as L1. pose proof (bo_length _ _ _ _ HM) as L2.
  destruct (decide (0 <= k < zlen digests)) as [Hk|Hk].
  - destruct (at_is_Some starts' k) as [s Hs]; [lia|]. destruct (at_is_Some starts k) as [s2 Hs2]; [lia|].
    pose proof (bo_starts _ _ _ _ HB _ _ Hs) as E1. pose proof (bo_starts _ _ _ _ HM _ _ Hs2) as E2. congruence.
  - destruct (at_ starts' k) eqn:E1; [apply at_Some_range in E1; lia|].
    destruct (at_ starts k) eqn:E2; [apply at_Some_range in E2; lia|done].
Qed.

Lemma type_id_spec i n s : at_ ns i = Some n -> (0 <= type_id s /\ type_id (gn_rt n) = type_id s) <-> gn_rt n = s.
Proof.
  intros Hn%at_elem. unfold type_id. split.
  - intros [H0 E]. destruct (list_find (fun m => gn_rt m = s) ns) as [[k m]|] eqn:Es; [|lia].
    destruct (list_find (fun m => gn_rt m = gn_rt n) ns) as [[k' m']|] eqn:En; [|lia].
    apply list_find_Some in Es as (Hk & <- & _). apply list_find_Some in En as (Hk' & <- & _).
    assert (k = k') as <- by lia. congruence.
  - intros <-. split; [|done]. destruct (list_find (fun m => gn_rt m = gn_rt n) ns) as [[k m]|] eqn:En; [lia|].
    apply list_find_None in En. rewrite Forall_forall in En. by destruct (En n Hn).
Qed.

Lemma tag_names l : (forall s, s ∈ l -> s ∈ all_tags) -> each (index all_tags) (tag_id <$> l) = Ok l.
Proof.
  intros Hl. apply each_at. apply Forall2_fmap_l, Forall_Forall2_diag, Forall_forall. intros s Hs.
  change (index all_tags (tag_id s) = Ok s). unfold tag_id. destruct (list_find (fun x => x = s) all_tags) as [[k x]|] eqn:E.
  - apply list_find_Some in E as (Hk & -> & _). by rewrite index_lookup, Hk.
  - apply list_find_None in E. rewrite Forall_forall in E. by destruct (E s (Hl s Hs)).
Qed.

Lemma node_tags i n s : at_ ns i = Some n -> s ∈ gn_tags n -> s ∈ all_tags.
Proof.
  intros Hn Hs. unfold all_tags. apply list_elem_of_In, in_concat. exists (gn_tags n).
  split; apply list_elem_of_In; [|done]. apply list_elem_of_fmap_2. by eapply at_elem.
Qed.

Lemma find_key i n :
  sorted_keys ns = true -> at_ ns i = Some n ->
  match list_find (fun x => gn_key x = (gn_pkg n, gn_name n)) ns with Some (k, _) => Z.of_nat k | None => -1 end = i.
Proof.
  intros Hs Hn. pose proof (at_Some_range _ _ _ Hn) as Hi.
  destruct (list_find (fun x => gn_key x = (gn_pkg n, gn_name n)) ns) as [[k m]|] eqn:E.
  - apply list_find_Some in E as (Hk & Hm & _).
    assert (at_ ns (Z.of_nat k) = Some m) as Hk' by (unfold at_; rewrite decide_True, Nat2Z.id by lia; done).
    pose proof (sorted_keys_lt ns Hs) as Hlt. change (gn_pkg n, gn_name n) with (gn_key n) in Hm.
    destruct (Z.lt_trichotomy (Z.of_nat k) i) as [Hki|[?|Hki]]; [|done|]; exfalso.
    + apply (label_lt_irrefl (gn_key n)). rewrite <- Hm at 1. by eapply Hlt.
    + apply (label_lt_irrefl (gn_key n)). rewrite <- Hm at 2. by eapply Hlt.
  - apply list_find_None in E. rewrite Forall_forall in E. by destruct (E n (at_elem _ _ _ Hn)).
Qed.

Lemma mem_presents : presents mem_reader hb ns.
Proof.
  pose proof mem_blocks as HB.
  destruct Hok as (Hn & Hhb & Hlen & Hsort & Hnames & Hdeps & Hedges & _).
  assert (forall {A} (f : gnode -> A) i n, at_ ns i = Some n -> node_field f i = Ok (f n)) as Hf.
  { intros A f i n Hi. unfold node_field. by rewrite Hi. }
  split; try done.
  - exists (Some (bitset gn_empty ns)). split; [done|]. intros i n Hi. pose proof (at_Some_range _ _ _ Hi) as Hr.
    unfold at_ in Hi. rewrite decide_True in Hi by lia. split.
    + rewrite bitset_length. apply Z.div_lt_upper_bound; [lia|].
      pose proof (Z.div_mod (zlen ns + 7) 8 ltac:(lia)). pose proof (Z.mod_pos_bound (zlen ns + 7) 8 eq_refl). lia.
    + pose proof (test_bitset gn_empty ns _ _ Hi) as Ht. by rewrite Z2Nat.id in Ht by lia.
  - intros i n. apply Hf.
  - intros i n. apply Hf.
  - by apply sorted_keys_lt.
  - intros i n Hi. split; [by apply Hf|]. rewrite Forall_forall in Hdeps. by eapply Hdeps, at_elem.
  - eexists. split; [done|]. split; [|split; [done|]].
    + assert (forall t ls, zlen (csr_offs t ls) = zlen ls + 1) as Hl; [|rewrite Hl; by rewrite zlen_fmap].
      intros t ls. revert t. induction ls as [|l ls IH]; intros t; [done|]. cbn [csr_offs].
      rewrite !zlen_cons, IH. lia.
    + intros i n Hi. pose proof (at_Some_range _ _ _ Hi) as Hr. exists (zlen (concat (gn_deps <$> take (Z.to_nat i) ns))).
      assert (forall k, (k <= length ns)%nat -> 0 <= zlen (concat (take k (gn_deps <$> ns))) < 2^31) as Hk.
      { intros k _. split; [apply zlen_nonneg|]. rewrite <- (take_drop k (gn_deps <$> ns)), concat_app, zlen_app in Hedges.
        pose proof (zlen_nonneg (concat (drop k (gn_deps <$> ns)))). lia. }
      unfold zlen at 1 in Hr.
      assert (forall k, 0 <= k <= zlen ns -> at_ (csr_offs 0 (gn_deps <$> ns)) k =
        Some (zlen (concat (take (Z.to_nat k) (gn_deps <$> ns))))) as Hoff.
      { intros k Hkr. unfold zlen in Hkr. unfold at_. rewrite decide_True, csr_offs_lookup by (rewrite ?length_fmap; lia).
        f_equal. specialize (Hk (Z.to_nat k) ltac:(lia)). rewrite Z.add_0_l. apply i32_small. lia. }
      rewrite !Hoff by (unfold zlen; lia). rewrite fmap_take. split; [done|]. split; [|done]. f_equal.
      replace (Z.to_nat (i + 1)) with (S (Z.to_nat i)) by lia. unfold at_ in Hi. rewrite decide_True in Hi by lia.
      rewrite (take_S_r _ _ (gn_deps n)) by (by rewrite list_lookup_fmap, Hi).
      rewrite concat_app, zlen_app. cbn [concat]. by rewrite app_nil_r.
  - exists (type_id ∘ gn_rt <$> ns). split; [done|]. intros s. exists (type_id s). split; [done|].
    intros i n Hi. rewrite at_fmap, Hi. rewrite <- (type_id_spec i n s Hi). cbn. split; intros [? E]; (split; [done|]); congruence.
  - intros i n. apply Hf.
  - intros i n Hi. split_and!; by apply Hf.
  - intros i n Hi. exists (tag_id <$> gn_tags n). split; [apply (Hf _ (fun n => tag_id <$> gn_tags n) i n Hi)|].
    apply tag_names. intros s. by eapply node_tags.
  - intros i n Hi. cbn. f_equal. by apply find_key.
  - by exists starts, digests.
Qed.
End mem.

(** * Checks for concrete graphs *)

Section honest.
Context (hb : Z) (nb : list gnode) (bs bd : list Z) (na : list gnode) (as_ ad : list Z).

Definition blocks_match (k l : Z) : bool :=
  match at_ bd k, at_ ad l, at_ (bs ++ [zlen nb]) k, at_ (bs ++ [zlen nb]) (k + 1),
        at_ (as_ ++ [zlen na]) l, at_ (as_ ++ [zlen na]) (l + 1) with
  | Some d, Some d', Some s, Some e, Some s', Some e' =>
      if decide (d = d' /\ e' - s' = e - s) then
        forallb (fun x => match at_ (gn_key <$> nb) (s + x), at_ (gn_key <$> na) (s' + x) with
                          | Some y, Some y' => bool_decide (y = y')
                          | _, _ => false
                          end) (zrange 0 (e - s))
      else true
  | _, _, _, _, _, _ => true
  end.

Definition honest_check : bool :=
  forallb (fun k => forallb (blocks_match k) (zrange 0 (zlen ad))) (zrange 0 (zlen bd)).

Lemma honest_check_ok :
  well_formed hb nb bs bd -> well_formed hb na as_ ad -> honest_check = true ->
  digests_honest (mem_reader hb nb bs bd) (mem_reader hb na as_ ad) nb na.
Proof.
  intros Hb Ha Hcheck bs' bd' as' ad' k l d s e s' e' x HBb HBa Hk Hl Hs He Hs' He' Hlen Hx.
  apply (mem_blocks_unique hb nb bs bd Hb) in HBb as [-> ->].
  apply (mem_blocks_unique hb na as_ ad Ha) in HBa as [-> ->].
  unfold honest_check in Hcheck. rewrite forallb_forall in Hcheck.
  specialize (Hcheck k). rewrite <- list_elem_of_In, elem_of_zrange in Hcheck.
  specialize (Hcheck (at_Some_range _ _ _ Hk)). rewrite forallb_forall in Hcheck.
  specialize (Hcheck l). rewrite <- list_elem_of_In, elem_of_zrange in Hcheck.
  specialize (Hcheck (at_Some_range _ _ _ Hl)). unfold blocks_match in Hcheck.
  rewrite Hk, Hl, Hs, He, Hs', He' in Hcheck. rewrite decide_True in Hcheck by done.
  rewrite forallb_forall in Hcheck. specialize (Hcheck x). rewrite <- list_elem_of_In, elem_of_zrange in Hcheck.
  specialize (Hcheck Hx). destruct (at_ (gn_key <$> nb) (s + x)) as [y|]; [|done].
  destruct (at_ (gn_key <$> na) (s' + x)) as [y'|]; [|done]. apply bool_decide_eq_true in Hcheck as ->. by exists y'.
Qed.
End honest.

Definition propagate_check (before after : TargetDiff.Graph) : bool :=
  forallb (fun vt : bytes * Target =>
    forallb (fun u => match change_of before after u, change_of before after vt.1 with
                      | Some _, None => false
                      | _, _ => true
                      end) (tg_Dependencies vt.2)) (map_to_list after).

Lemma propagate_check_ok before after : propagate_check before after = true -> changes_propagate before after.
Proof.
  intros Hc u v [cu Hu] (t & Ht & Hin). unfold propagate_check in Hc. rewrite forallb_forall in Hc.
  specialize (Hc (v, t)). rewrite <- list_elem_of_In, elem_of_map_to_list in Hc. specialize (Hc Ht).
  rewrite forallb_forall in Hc. specialize (Hc u). rewrite <- list_elem_of_In in Hc. specialize (Hc Hin).
  cbn in Hc. rewrite Hu in Hc. by destruct (change_of before after v).
Qed.

(** The sort of the result by label. *)
Definition by_label (x y : LabelChange) : comparison := bcompare (lc_Label x) (lc_Label y).

#[export] Instance by_label_total : TotalCmp by_label.
Proof. split; intros *; unfold by_label; [apply cmp_anti|apply cmp_eq_l|apply cmp_lt_trans]. Qed.

Lemma sort_by_label_ok l :
  sort_func by_label l ≡ₚ l /\
  StronglySorted (fun x y => bcompare (lc_Label x) (lc_Label y) <> Gt) (sort_func by_label l).
Proof.
  split; [apply sort_func_perm|]. exact (sort_func_sorted by_label l).
Qed.

(** * The samples

    A source file, the library built from it and its test change; a tool is removed, a
    binary is new, and the hash of a target in a dependency cycle becomes empty. *)

Definition sample_node (pkg name rt : string) (hash : list Z) (empty : bool) (deps : list Z) : gnode :=
  {| gn_pkg := bs pkg; gn_name := bs name; gn_hash := z2b <$> hash; gn_empty := empty; gn_rt := bs rt;
     gn_deps := deps; gn_tags := [bs "manual"; []]; gn_attrs := ∅; gn_root := false; gn_external := false |}.

Definition before_nodes : list gnode :=
  [ sample_node "//a" "lib" "go_library" [2; 0] false [1];
    sample_node "//a" "src" "source file" [1; 0] false [];
    sample_node "//a" "test" "go_test" [3; 0] false [0];
    sample_node "//b" "tool" "go_binary" [4; 0] false [];
    sample_node "//d" "cycle" "go_library" [0; 0] false [] ].
Definition after_nodes : list gnode :=
  [ sample_node "//a" "lib" "go_library" [2; 1] false [1];
    sample_node "//a" "src" "source file" [1; 1] false [];
    sample_node "//a" "test" "go_test" [3; 1] false [0];
    sample_node "//c" "bin" "go_binary" [5; 0] false [0];
    sample_node "//d" "cycle" "go_library" [0; 0] true [] ].

Definition before_reader : GraphReader := mem_reader 2 before_nodes [0; 3; 4] [7; 8; 9].
Definition after_reader : GraphReader := mem_reader 2 after_nodes [0; 3; 4] [7; 10; 9].
Definition sample_opts : Options := {| opt_MaxDistance := -1; opt_SeedAttrs := None |}.

Lemma before_well_formed : well_formed 2 before_nodes [0; 3; 4] [7; 8; 9].
Proof. unfold well_formed. split_and!; (apply (bool_decide_unpack _); vm_compute; exact Logic.I). Qed.

Lemma after_well_formed : well_formed 2 after_nodes [0; 3; 4] [7; 10; 9].
Proof. unfold well_formed. split_and!; (apply (bool_decide_unpack _); vm_compute; exact Logic.I). Qed.

Lemma before_presents : presents before_reader 2 before_nodes.
Proof. apply mem_presents, before_well_formed. Qed.

Lemma after_presents : presents after_reader 2 after_nodes.
Proof. apply mem_presents, after_well_formed. Qed.

Lemma sample_comparable : blocks_comparable before_reader after_reader before_nodes after_nodes.
Proof. split; intros H; discriminate H. Qed.

Lemma sample_honest : digests_honest before_reader after_reader before_nodes after_nodes.
Proof.
  apply honest_check_ok; [apply before_well_formed|apply after_well_formed|]. vm_compute. reflexivity.
Qed.

(** * Witnesses *)

Definition no_cancel {A} (_ : A) (_ : Z) : bool := false.

Lemma align_correct_witness :
  align id before_reader after_reader =
    Ok ([{| beforeStart := 0; afterStart := 0; run_length := 3 |};
         {| beforeStart := 4; afterStart := 4; run_length := 1 |}], [3], [3]) /\
  exists runs del ins, align id before_reader after_reader = Ok (runs, del, ins) /\
    aligned (gn_key <$> before_nodes) (gn_key <$> after_nodes) runs del ins.
Proof.
  split; [vm_compute; reflexivity|]. apply (align_correct id before_reader after_reader 2).
  - intros l. reflexivity.
  - exact before_presents.
  - exact after_presents.
  - exact sample_comparable.
  - exact sample_honest.
Defined.

(** The alignment of the samples, as a constant. *)
Lemma sample_aligned :
  aligned (gn_key <$> before_nodes) (gn_key <$> after_nodes)
    [{| beforeStart := 0; afterStart := 0; run_length := 3 |};
     {| beforeStart := 4; afterStart := 4; run_length := 1 |}] [3] [3].
Proof.
  destruct (align_spec id (fun l => Permutation_refl l) before_reader after_reader 2 before_nodes after_nodes
    before_presents after_presents sample_comparable sample_honest) as (runs & D & I & Hal & H).
  vm_compute in Hal. injection Hal as <- <- <-. exact H.
Qed.

Lemma hash_diff_correct_witness :
  exists b2a c, hash_diff before_reader after_reader
      [{| beforeStart := 0; afterStart := 0; run_length := 3 |};
       {| beforeStart := 4; afterStart := 4; run_length := 1 |}] [3] [3] = Ok (b2a, deleted_node <$> [3], c) /\
    b2a_ok before_nodes after_nodes b2a /\ b2a = [0; 1; 2; -1; 4] /\
    zlen c = zlen after_nodes /\
    forall j n, at_ after_nodes j = Some n -> exists e, at_ c j = Some e /\ entry_ok before_nodes after_nodes j n e.
Proof.
  destruct (hash_diff_correct before_reader after_reader 2 before_nodes after_nodes _ _ _
    before_presents after_presents sample_aligned) as (b2a & c & Hr & H1 & H2).
  exists b2a, c. split; [exact Hr|]. split; [exact H1|]. split; [|exact H2].
  vm_compute in Hr. injection Hr as <- _. reflexivity.
Defined.

Lemma buildReverseCSR_correct_witness :
  buildReverseCSR after_reader 5 = Ok ([0; 2; 3; 3; 3; 3], [2; 3; 0]) /\
  exists offsets targets, buildReverseCSR after_reader (zlen after_nodes) = Ok (offsets, targets) /\
  forall v, 0 <= v < zlen after_nodes -> exists row, csr_row offsets targets v = Ok row /\
    forall i, i ∈ row <-> exists m, at_ after_nodes i = Some m /\ v ∈ gn_deps m.
Proof.
  split; [vm_compute; reflexivity|]. exact (buildReverseCSR_correct after_reader 2 after_nodes after_presents).
Defined.

Lemma compareInternal_correct_witness :
  exists r, compareInternal id (sort_func by_label) no_cancel before_reader after_reader sample_opts = Ok r /\
    ((fun lc => (lc_Label lc, lc_ChangeType lc, lc_Distance lc, lc_Seed lc)) <$> r) =
      [(bs "//a:lib", ChangeTypeChanged, 0, true); (bs "//a:src", ChangeTypeChanged, 0, true);
       (bs "//a:test", ChangeTypeChanged, 1, false); (bs "//b:tool", ChangeTypeDeleted, 0, true);
       (bs "//c:bin", ChangeTypeNew, 0, true); (bs "//d:cycle", ChangeTypeChanged, 0, true)] /\
    result_ok (sem_graph None before_nodes) (sem_graph None after_nodes) (-1) r.
Proof.
  destruct (compareInternal_correct id (sort_func by_label) no_cancel before_reader after_reader 2
    before_nodes after_nodes sample_opts) as [[_ (s & i & H)]|(r & Hr & Hok)].
  - intros l. reflexivity.
  - exact sort_by_label_ok.
  - exact before_presents.
  - exact after_presents.
  - exact sample_comparable.
  - exact sample_honest.
  - discriminate H.
  - exists r. split; [exact Hr|]. split; [|exact Hok]. vm_compute in Hr. injection Hr as <-. vm_compute. reflexivity.
Defined.

(** The sort of full results by label. *)
Definition by_changed_label (x y : TargetDiff.ChangedTarget) : comparison :=
  bcompare (changedLabel x) (changedLabel y).

#[export] Instance by_changed_label_total : TotalCmp by_changed_label.
Proof. split; intros *; unfold by_changed_label; [apply cmp_anti|apply cmp_eq_l|apply cmp_lt_trans]. Qed.

Lemma sort_by_changed_label_ok l :
  sort_func by_changed_label l ≡ₚ l /\
  StronglySorted (fun x y => bcompare (changedLabel x) (changedLabel y) <> Gt) (sort_func by_changed_label l).
Proof. split; [apply sort_func_perm|]. exact (sort_func_sorted by_changed_label l). Qed.

(** One change, with its dependencies and tags in two orders, and an unrelated one. *)
Definition change_of_target (tags deps : list string) : TargetDiff.ChangedTarget :=
  new_change {| tg_Name := bs "//a:lib"; tg_Hash := bs "1"; tg_RuleType := bs "go_library";
    tg_Dependencies := bs <$> deps; tg_Tags := bs <$> tags; tg_Attributes := ∅; tg_Root := false; tg_External := false |}.
Definition other_change : TargetDiff.ChangedTarget := deleted_change (sample_target (bs "//b:tool") (bs "2") (bs "go_binary") []).

Lemma ResultsEquivalent_correct_witness :
  ResultsEquivalent (sort_func by_changed_label)
    [change_of_target ["t"; "s"]%string ["//a:x"; "//a:y"]%string; other_change]
    [other_change; change_of_target ["s"; "t"]%string ["//a:y"; "//a:x"]%string] = (true, ""%string) /\
  exists a', a' ≡ₚ [change_of_target ["t"; "s"]%string ["//a:x"; "//a:y"]%string; other_change] /\
    Forall2 change_equiv a' [other_change; change_of_target ["s"; "t"]%string ["//a:y"; "//a:x"]%string].
Proof.
  assert (ResultsEquivalent (sort_func by_changed_label)
    [change_of_target ["t"; "s"]%string ["//a:x"; "//a:y"]%string; other_change]
    [other_change; change_of_target ["s"; "t"]%string ["//a:y"; "//a:x"]%string] = (true, ""%string)) as E
    by (vm_compute; reflexivity).
  split; [exact E|]. apply (ResultsEquivalent_correct (sort_func by_changed_label)); [| | |exact E].
  - exact sort_by_changed_label_ok.
  - apply (bool_decide_unpack _). vm_compute. exact Logic.I.
  - apply (bool_decide_unpack _). vm_compute. exact Logic.I.
Defined.

Lemma shadow_compare_equivalent_witness :
  exists native b a reference,
    (r ← compareInternal id (sort_func by_label) no_cancel before_reader after_reader sample_opts;
     Materialize before_reader after_reader r None) = Ok native /\
    length native = 6%nat /\
    SemanticGraph before_reader None = Ok b /\ SemanticGraph after_reader None = Ok a /\
    Compare (fun _ _ m => map_to_list m) no_cancel {| Before := b; After := a; MaxDistance := -1 |} = Ok reference /\
    ResultsEquivalent (sort_func by_changed_label) native reference = (true, ""%string).
Proof.
  destruct (shadow_compare_equivalent id (sort_func by_label) (sort_func by_changed_label) no_cancel
    (fun _ _ m => map_to_list m) no_cancel before_reader after_reader 2 before_nodes after_nodes sample_opts)
    as [[_ (s & i & H)]|(native & Hn & b & a & Hb & Ha & [[_ (s & i & H)]|(reference & Hr & Heq)])].
  - intros l. reflexivity.
  - exact sort_by_label_ok.
  - exact sort_by_changed_label_ok.
  - intros A s m. reflexivity.
  - exact before_presents.
  - exact after_presents.
  - reflexivity.
  - exact sample_comparable.
  - exact sample_honest.
  - apply propagate_check_ok. vm_compute. reflexivity.
  - discriminate H.
  - discriminate H.
  - exists native, b, a, reference. split; [exact Hn|]. split; [|split; [exact Hb|split; [exact Ha|split; [exact Hr|exact Heq]]]].
    vm_compute in Hn. injection Hn as <-. reflexivity.
Defined.

(** * Without propagation

    [//x:b] depends on the changed [//x:a] with the same hash, and [//x:c] on [//x:b]
    and, over two changed targets, on the changed [//x:e]. *)

Definition unpropagated (v : Z) : list gnode :=
  [ sample_node "//x" "a" "go_library" [1; v] false [];
    sample_node "//x" "b" "go_library" [2; 0] false [0];
    sample_node "//x" "c" "go_library" [3; v] false [1; 4];
    sample_node "//x" "d1" "go_library" [4; v] false [5];
    sample_node "//x" "d2" "go_library" [5; v] false [3];
    sample_node "//x" "e" "go_library" [6; v] false [] ].

(** The hypothesis on propagation is needed: on graphs whose hashes do not cover the
    dependencies, the comparison of the blobs walks through an unchanged dependent and
    gives the distance 2 to [//x:c], where the comparison of the semantic graphs only
    follows changed targets and gives 3. *)
Theorem distances_differ_without_propagation :
  (exists r, compareInternal id (sort_func by_label) no_cancel
      (mem_reader 2 (unpropagated 0) [] []) (mem_reader 2 (unpropagated 1) [] []) sample_opts = Ok r /\
    (bs "//x:c", (ChangeTypeChanged, 2)) ∈ summary_of_label <$> r) /\
  (exists r, Compare (fun _ _ m => map_to_list m) no_cancel
      {| Before := sem_graph None (unpropagated 0); After := sem_graph None (unpropagated 1);
         MaxDistance := -1 |} = Ok r /\
    (bs "//x:c", (ChangeTypeChanged, 3)) ∈ summary_of_target <$> r).
Proof.
  split; (eexists; split; [vm_compute; reflexivity|]);
    (apply (bool_decide_unpack _); vm_compute; exact Logic.I).
Qed.
