(* ===== verification/IdMapper.v ===== *)
(** Names to dense IDs and back ([internal/mapper/idmapper/idmapper.go]). *)
From Stdlib Require Import ZArith Lia.
From stdpp Require Import gmap fin_maps.
From S2P Require Import Prelude.

Local Open Scope Z_scope.

(** * Operations *)

Record Mapper := { nameToID : gmap bytes Z; nextID : Z }.

(** Zero is left out: it is the unset value on the wire. *)
Definition NewMapper : Mapper := {| nameToID := ∅; nextID := 1 |}.

(** Returns the ID and the mapper after the call. *)
Definition ID (name : bytes) (a : Mapper) : Z * Mapper :=
  match nameToID a !! name with
  | Some id => (id, a)
  | None =>
      let id := nextID a in
      (id, {| nameToID := <[name := id]> (nameToID a); nextID := i32 (nextID a + 1) |})
  end.

(** A loop that appends the ID of each name. *)
Fixpoint IDs (names : list bytes) (a : Mapper) : list Z * Mapper :=
  match names with
  | [] => ([], a)
  | name :: names =>
      let '(id, a) := ID name a in
      let '(ids, a) := IDs names a in
      (id :: ids, a)
  end.

Section invert.
(** Go visits the entries of a map in an order of its own. *)
Context (range : gmap bytes Z -> list (bytes * Z)).

Definition Invert (a : Mapper) : gmap Z bytes :=
  foldl (fun out (ni : bytes * Z) => <[ni.2 := ni.1]> out) ∅ (range (nameToID a)).
End invert.

(** * The invariant *)

(** The IDs are exactly [1..n] for the [n] names seen, each of one name. *)
Record mapper_ok (a : Mapper) : Prop := {
  mo_next : nextID a = 1 + Z.of_nat (size (nameToID a));
  mo_room : nextID a < 2^31;
  mo_range : forall n id, nameToID a !! n = Some id -> 1 <= id < nextID a;
  mo_inj : forall n n' id, nameToID a !! n = Some id -> nameToID a !! n' = Some id -> n = n';
}.

(** Names keep their IDs. *)
Definition extends (a a' : Mapper) : Prop := nameToID a ⊆ nameToID a'.

#[export] Instance extends_preorder : PreOrder extends.
Proof. split; [intros a; by unfold extends|intros a b c H1 H2; unfold extends in *; by etrans]. Qed.

Lemma NewMapper_ok : mapper_ok NewMapper.
Proof. split; cbn; [by rewrite map_size_empty|lia|done..]. Qed.

(** There is room for one more name, unless it has been seen. *)
Definition room_for (k : Z) (a : Mapper) : Prop := nextID a + k < 2^31.

Lemma ID_spec name a :
  mapper_ok a -> room_for 1 a ->
  let '(id, a') := ID name a in
  mapper_ok a' /\ extends a a' /\ nameToID a' !! name = Some id /\ 1 <= id < 2^31 /\ nextID a' <= nextID a + 1.
Proof.
  intros Hok Hroom. unfold ID. destruct (nameToID a !! name) as [id|] eqn:E.
  { pose proof (mo_range _ Hok _ _ E). pose proof (mo_room _ Hok). split_and!; [done|reflexivity|done|lia..]. }
  pose proof (mo_next _ Hok) as Hn. pose proof (mo_room _ Hok) as Hr. unfold room_for in Hroom.
  split_and!; cbn [nameToID nextID]; rewrite ?i32_small by lia.
  - split; cbn [nameToID nextID]; rewrite ?i32_small by lia.
    + rewrite map_size_insert_None by done. lia.
    + lia.
    + intros n id [[-> <-]|[Hne H]]%lookup_insert_Some; [lia|]. apply (mo_range _ Hok) in H. lia.
    + intros n n' id [[-> <-]|[Hne H]]%lookup_insert_Some [[-> E']|[Hne' H']]%lookup_insert_Some; [done|..].
      * apply (mo_range _ Hok) in H'. lia.
      * apply (mo_range _ Hok) in H. lia.
      * by eapply (mo_inj _ Hok).
  - by apply insert_subseteq.
  - by rewrite lookup_insert_eq.
  - lia.
  - lia.
  - lia.
Qed.

Lemma IDs_spec names a :
  mapper_ok a -> room_for (zlen names) a ->
  let '(ids, a') := IDs names a in
  mapper_ok a' /\ extends a a' /\ Forall2 (fun n id => nameToID a' !! n = Some id) names ids /\
  nextID a' <= nextID a + zlen names.
Proof.
  revert a. induction names as [|n names IH]; intros a Hok Hroom; cbn [IDs].
  { split_and!; [done|reflexivity|constructor|]. rewrite zlen_nil. lia. }
  unfold room_for in *. rewrite zlen_cons in Hroom. pose proof (zlen_nonneg names).
  pose proof (ID_spec n a Hok) as H1. destruct (ID n a) as [id a1].
  destruct H1 as (Hok1 & Hext1 & Hid & _ & Hn1); [unfold room_for; lia|].
  specialize (IH a1 Hok1). destruct (IDs names a1) as [ids a2]. destruct IH as (Hok2 & Hext2 & HF & Hn2); [lia|].
  split_and!; [done|by etrans| |rewrite zlen_cons; lia]. constructor; [|done].
  by eapply lookup_weaken.
Qed.

Lemma IDs_names names a : dom (nameToID (IDs names a).2) = dom (nameToID a) ∪ list_to_set names.
Proof.
  revert a. induction names as [|n names IH]; intros a; cbn [IDs].
  { cbn. by rewrite (right_id_L ∅ _). }
  assert (dom (nameToID (ID n a).2) = dom (nameToID a) ∪ {[ n ]}) as H1.
  { unfold ID. destruct (nameToID a !! n) as [id|] eqn:E; cbn.
    - apply elem_of_dom_2 in E. set_solver.
    - rewrite dom_insert_L. by rewrite (comm_L (∪)). }
  destruct (ID n a) as [id a1]. specialize (IH a1). destruct (IDs names a1) as [ids a2]. cbn in *.
  rewrite IH, H1. by rewrite (assoc_L (∪)).
Qed.

Section invert_spec.
Context (range : gmap bytes Z -> list (bytes * Z)).
Context (range_perm : forall m, range m ≡ₚ map_to_list m).

(** [Invert] is the inverse map. *)
Lemma Invert_spec a id n :
  mapper_ok a -> Invert range a !! id = Some n <-> nameToID a !! n = Some id.
Proof.
  intros Hok. unfold Invert. rewrite <- (elem_of_map_to_list (nameToID a)), <- (range_perm (nameToID a)).
  assert (forall n n' id, (n, id) ∈ range (nameToID a) -> (n', id) ∈ range (nameToID a) -> n = n') as Hinj.
  { intros m m' i. rewrite range_perm, !elem_of_map_to_list. apply (mo_inj _ Hok). }
  enough (forall l (out : gmap Z bytes), (forall n n' id, (n, id) ∈ l -> (n', id) ∈ l -> n = n') ->
    foldl (fun out (ni : bytes * Z) => <[ni.2 := ni.1]> out) out l !! id = Some n <->
    (n, id) ∈ l \/ (forall n', (n', id) ∉ l) /\ out !! id = Some n) as H.
  { rewrite H by done. rewrite lookup_empty. naive_solver. }
  clear. intros l. induction l as [|[n1 i1] l IH]; intros out Hinj; cbn [foldl fst snd].
  { rewrite elem_of_nil. split; [intros ?; right; split; [intros n'; apply not_elem_of_nil|done]|].
    intros [?|[_ ?]]; done. }
  rewrite IH by (intros ? ? ? ? ?; eapply Hinj; by right).
  rewrite elem_of_cons. destruct (decide (i1 = id)) as [->|Hne].
  - rewrite lookup_insert_eq. split.
    + intros [?|[_ [= ->]]]; left; [by right|by left].
    + intros [[[= ->]|?]|[Hno _]]; [|by left|].
      * destruct (decide ((n1, id) ∈ l)); [by left|right]. split; [|done]. intros n' Hn'.
        assert (n' = n1) as -> by (eapply Hinj; [by right|by left]). done.
      * exfalso. apply (Hno n1). by left.
  - rewrite lookup_insert_ne by done. split.
    + intros [?|[Hno ?]]; [left; by right|right]. split; [|done]. intros n' [[= -> ->]|?]%elem_of_cons; [done|].
      by apply (Hno n').
    + intros [[[= -> ->]|?]|[Hno ?]]; [done|by left|right]. split; [|done]. intros n' Hn'. apply (Hno n'). by right.
Qed.
End invert_spec.

(** * Property *)

(** The mapper hands out dense, stable, unique IDs.  After any sequence of names, of
    fewer than 2^31 - 1, every call has returned an ID from [1..n] for the [n] distinct
    names, never the unset value 0; two calls return one ID exactly when they were
    given one name; and the inverted map takes each ID back to the name of its call. *)
Theorem mapper_sequence (range : gmap bytes Z -> list (bytes * Z)) (names : list bytes) (ids : list Z) (a : Mapper) :
  (forall m, range m ≡ₚ map_to_list m) -> zlen names < 2^31 - 1 ->
  IDs names NewMapper = (ids, a) ->
  length ids = length names /\ size (nameToID a) = length (remove_dups names) /\
  Forall (fun id => 1 <= id <= zlen (remove_dups names)) ids /\
  forall i j n n' id id', names !! i = Some n -> names !! j = Some n' -> ids !! i = Some id -> ids !! j = Some id' ->
    (id = id' <-> n = n') /\ Invert range a !! id = Some n.
Proof.
  intros Hr Hlen Erun. pose proof (IDs_spec names NewMapper NewMapper_ok) as H.
  pose proof (IDs_names names NewMapper) as Hdom. rewrite Erun in H, Hdom. destruct H as (Hok & _ & HF & _); [unfold room_for; cbn; lia|].
  assert (size (nameToID a) = length (remove_dups names)) as Hsize.
  { cbn [snd] in Hdom. rewrite <- size_dom, Hdom. cbn [nameToID NewMapper]. rewrite dom_empty_L, (left_id_L ∅ _).
    rewrite <- (size_list_to_set (C := gset bytes) (remove_dups names) (NoDup_remove_dups names)). f_equal.
    apply set_eq. intros x. rewrite !elem_of_list_to_set, elem_of_remove_dups. done. }
  split_and!; [by apply Forall2_length in HF|done| |].
  - apply Forall_forall. intros id Hid. destruct (Forall2_elem_r _ _ _ _ HF Hid) as (n & _ & Hn).
    apply (mo_range _ Hok) in Hn. rewrite (mo_next _ Hok), Hsize in Hn. unfold zlen. lia.
  - intros i j n n' id id' Hn Hn' Hid Hid'. pose proof (Forall2_lookup_lr _ _ _ _ _ _ HF Hn Hid) as E.
    pose proof (Forall2_lookup_lr _ _ _ _ _ _ HF Hn' Hid') as E'. cbn in E, E'. split.
    + split; [intros <-; by eapply (mo_inj _ Hok)|intros <-; congruence].
    + by apply (Invert_spec range Hr).
Qed.

Lemma mapper_sequence_witness :
  IDs [bs "//a:x"; bs "//a:y"; bs "//a:x"] NewMapper =
    ([1; 2; 1], {| nameToID := {[ bs "//a:x" := 1; bs "//a:y" := 2 ]}; nextID := 3 |}) /\
  forall i j n n' id id', [bs "//a:x"; bs "//a:y"; bs "//a:x"] !! i = Some n ->
    [bs "//a:x"; bs "//a:y"; bs "//a:x"] !! j = Some n' -> [1; 2; 1] !! i = Some id -> [1; 2; 1] !! j = Some id' ->
    (id = id' <-> n = n') /\
    Invert map_to_list {| nameToID := {[ bs "//a:x" := 1; bs "//a:y" := 2 ]}; nextID := 3 |} !! id = Some n.
Proof.
  assert (IDs [bs "//a:x"; bs "//a:y"; bs "//a:x"] NewMapper =
    ([1; 2; 1], {| nameToID := {[ bs "//a:x" := 1; bs "//a:y" := 2 ]}; nextID := 3 |})) as E
    by (vm_compute; reflexivity).
  split; [exact E|].
  destruct (mapper_sequence map_to_list [bs "//a:x"; bs "//a:y"; bs "//a:x"] [1; 2; 1]
    {| nameToID := {[ bs "//a:x" := 1; bs "//a:y" := 2 ]}; nextID := 3 |}) as (_ & _ & _ & H).
  - intros m. reflexivity.
  - reflexivity.
  - exact E.
  - exact H.
Defined.
