(* ===== verification/Streaming.v ===== *)
(** Splitting of targets and metadata into messages of bounded size
    ([internal/streaming/streaming.go]). *)
From Stdlib Require Import ZArith Lia.
From stdpp Require Import gmap fin_maps.
From S2P Require Import Prelude Varint Entity.

Local Open Scope Z_scope.

(** * Items *)

Section split.
Context {T : Type} (Size : T -> Z) (maxBytes : Z).

(** The loop, with the current group and its size. *)
Fixpoint split_loop (current : list T) (currentBytes : Z) (items : list T) : list (list T) :=
  match items with
  | [] => [current]
  | item :: items =>
      let itemBytes := Size item in
      if decide (0 < zlen current /\ maxBytes < i64 (currentBytes + itemBytes)) then
        current :: split_loop [item] (i64 (0 + itemBytes)) items
      else split_loop (current ++ [item]) (i64 (currentBytes + itemBytes)) items
  end.

Definition SplitBySize (items : list T) : res (list (list T)) :=
  match items with
  | [] => Ok [[]]
  | _ =>
      let groups := split_loop [] 0 items in
      if existsb (fun g => bool_decide (zlen g = 0)) (tail groups)
      then Err "internal error: group %d of %d is empty" else Ok groups
  end.

(** * Its groups *)

Definition total (g : list T) : Z := foldr (fun x s => Size x + s) 0 g.

Lemma total_app g h : total (g ++ h) = total g + total h.
Proof. unfold total. induction g as [|x g IH]; cbn; lia. Qed.

(** Whatever the sizes, even if their sum wraps around, nothing is lost and no group but
    the only one of no items is empty. *)
Lemma split_loop_concat current b items :
  current ++ items <> [] ->
  exists g groups, split_loop current b items = g :: groups /\ concat (g :: groups) = current ++ items /\
    Forall (fun g => g <> []) (g :: groups) /\ exists more, g = current ++ more.
Proof.
  revert current b. induction items as [|x items IH]; intros current b Hne; cbn [split_loop].
  { exists current, []. rewrite app_nil_r in *. split; [done|]. split; [cbn; by rewrite app_nil_r|].
    split; [by constructor|]. exists []. by rewrite app_nil_r. }
  case_decide as Hd.
  - destruct (IH [x] (i64 (0 + Size x)) ltac:(done)) as (g & groups & -> & Hcat & HF & _).
    exists current, (g :: groups). split; [done|]. split; [cbn [concat] in Hcat |- *; by rewrite Hcat|].
    split; [|exists []; by rewrite app_nil_r]. constructor; [|done]. destruct Hd as [Hd _]. by destruct current.
  - destruct (IH (current ++ [x]) (i64 (b + Size x))) as (g & groups & -> & Hcat & HF & more & ->); [by rewrite <- app_assoc|].
    rewrite <- !app_assoc in *. exists (current ++ [x] ++ more), groups. split; [done|]. split; [done|].
    split; [done|]. by exists ([x] ++ more).
Qed.

(** A group is within the budget, or is one item that is not. *)
Definition group_fits (g : list T) : Prop := g <> [] /\ (total g <= maxBytes \/ length g = 1%nat).

(** No group could have taken the first item of the next one. *)
Fixpoint greedy (groups : list (list T)) : Prop :=
  match groups with
  | [] => True
  | g :: rest => match rest with (x :: _) :: _ => maxBytes < total g + Size x | _ => True end /\ greedy rest
  end.

Lemma split_loop_spec current items :
  Forall (fun x => 0 <= Size x) (current ++ items) -> total (current ++ items) < 2^63 ->
  (current = [] -> items <> []) -> (current <> [] -> group_fits current) ->
  exists g groups, split_loop current (total current) items = g :: groups /\
    concat (g :: groups) = current ++ items /\ Forall group_fits (g :: groups) /\ greedy (g :: groups) /\
    exists more, g = current ++ more.
Proof.
  revert current. induction items as [|x items IH]; intros current Hpos Hsum Hne Hfit; cbn [split_loop].
  { exists current, []. split; [done|]. split; [cbn; by rewrite !app_nil_r|]. split.
    - constructor; [|constructor]. apply Hfit. intros E. by destruct (Hne E).
    - split; [done|]. exists []. by rewrite app_nil_r. }
  assert (0 <= total current /\ 0 <= Size x /\ 0 <= total items) as (Hc & Hx & Hi).
  { apply Forall_app in Hpos as [H1 [H2 H3]%Forall_cons].
    assert (forall l, Forall (fun x => 0 <= Size x) l -> 0 <= total l) as Ht.
    { induction 1; cbn; [lia|]. unfold total in *. lia. }
    split_and!; [by apply Ht|done|by apply Ht]. }
  rewrite total_app in Hsum. change (total (x :: items)) with (Size x + total items) in Hsum.
  rewrite !i64_small by lia. case_decide as Hd.
  - destruct Hd as [Hcur Hover]. destruct (IH [x]) as (g & groups & E & Hcat & HF & Hg & more & ->).
    + by apply Forall_app in Hpos as [_ ?].
    + rewrite total_app. cbn. unfold total in *. lia.
    + done.
    + intros _. split; [done|by right].
    + exists current, (([x] ++ more) :: groups). replace (total [x]) with (0 + Size x) in E by (cbn; lia). rewrite E.
      assert (current <> []) as Hcne by (intros ->; done).
      split; [done|]. split; [cbn [concat] in Hcat |- *; by rewrite Hcat|].
      split; [constructor; [by apply Hfit|done]|]. split; [split; [cbn; lia|done]|]. exists []. by rewrite app_nil_r.
  - destruct (IH (current ++ [x])) as (g & groups & E & Hcat & HF & Hg & more & ->).
    + by rewrite <- app_assoc.
    + rewrite <- app_assoc, total_app. cbn. unfold total in *. lia.
    + by destruct current.
    + intros _. split; [by destruct current|]. destruct current as [|y current]; [by right|left].
      rewrite total_app. rewrite zlen_cons in Hd. pose proof (zlen_nonneg current).
      replace (total [x]) with (Size x) by (cbn; lia). lia.
    + exists (current ++ [x] ++ more), groups. rewrite total_app in E. replace (total [x]) with (Size x) in E by (cbn; lia).
      rewrite <- !app_assoc in *. split; [done|]. split; [done|]. split; [done|]. split; [done|]. by exists ([x] ++ more).
Qed.
End split.

Lemma no_empty_group {T} (groups : list (list T)) :
  Forall (fun g => g <> []) groups -> existsb (fun g : list T => bool_decide (zlen g = 0)) groups = false.
Proof.
  induction 1 as [|h groups Hh _ IH]; [done|]. cbn. rewrite IH, orb_false_r. apply bool_decide_eq_false.
  destruct h as [|x h]; [done|]. rewrite zlen_cons. pose proof (zlen_nonneg h). lia.
Qed.

(** [SplitBySize] never reports an empty group, and loses nothing. *)
Lemma SplitBySize_total {T} (Size : T -> Z) maxBytes items :
  exists groups, SplitBySize Size maxBytes items = Ok groups /\ groups <> [] /\ concat groups = items.
Proof.
  destruct items as [|x items]; [by exists [[]]|].
  destruct (split_loop_concat Size maxBytes [] 0 (x :: items) ltac:(done)) as (g & groups & E & Hc & HF & _).
  unfold SplitBySize. rewrite E. cbn [tail]. apply Forall_cons in HF as [_ HF]. rewrite no_empty_group by done.
  by exists (g :: groups).
Qed.

(** The groups, when the sizes do not overflow. *)
Lemma SplitBySize_spec {T} (Size : T -> Z) maxBytes items :
  Forall (fun x => 0 <= Size x) items -> total Size items < 2^63 ->
  exists groups, SplitBySize Size maxBytes items = Ok groups /\ groups <> [] /\ concat groups = items /\
    (items <> [] -> Forall (group_fits Size maxBytes) groups) /\ greedy Size maxBytes groups.
Proof.
  intros Hpos Hsum. destruct (SplitBySize_total Size maxBytes items) as (groups & E & Hne & Hc).
  exists groups. split; [done|]. split; [done|]. split; [done|].
  destruct items as [|x items]; [by injection E as <-|].
  destruct (split_loop_spec Size maxBytes [] (x :: items) Hpos Hsum) as (g & gs & El & _ & HF & Hg & _); [done..|].
  change (total Size []) with 0 in El. unfold SplitBySize in E. rewrite El in E. case_match; [done|].
  by injection E as <-.
Qed.

(** * Metadata *)

Definition mapEntryWireSize (k : Z) (v : bytes) : Z :=
  let mapEntrySize := 1 + VarintSize (u64 k) + 1 + zlen v + VarintSize (u64 (zlen v)) in
  mapEntrySize + 1 + VarintSize (u64 mapEntrySize).

Section metadata.
(** Go visits the entries of a map in an order of its own. *)
Context (range : gmap Z bytes -> list (Z * bytes)).
Context (maxBytes : Z).

(** The loop, with the current map and its size. *)
Fixpoint split_map_loop (current : gmap Z bytes) (currentBytes : Z) (l : list (Z * bytes)) : list (gmap Z bytes) :=
  match l with
  | [] => if decide (0 < Z.of_nat (size current)) then [current] else []
  | (k, v) :: l =>
      let entryBytes := mapEntryWireSize k v in
      if decide (0 < Z.of_nat (size current) /\ maxBytes < i64 (currentBytes + entryBytes)) then
        current :: split_map_loop {[ k := v ]} (i64 (0 + entryBytes)) l
      else split_map_loop (<[k := v]> current) (i64 (currentBytes + entryBytes)) l
  end.

Definition splitMapByBytes (m : gmap Z bytes) : list (gmap Z bytes) :=
  if decide (size m = 0%nat) then [] else split_map_loop ∅ 0 (range m).

Definition empty_metadata : Metadata :=
  {| TargetIDMapping := ∅; RuleTypeMapping := ∅; TagMapping := ∅; AttributeNameMapping := ∅;
     AttributeStringValueMapping := ∅; AllTargetsFileHashes := ∅ |}.
Definition target_metadata (g : gmap Z bytes) : Metadata :=
  {| TargetIDMapping := g; RuleTypeMapping := ∅; TagMapping := ∅; AttributeNameMapping := ∅;
     AttributeStringValueMapping := ∅; AllTargetsFileHashes := ∅ |}.
Definition attr_val_metadata (g : gmap Z bytes) : Metadata :=
  {| TargetIDMapping := ∅; RuleTypeMapping := ∅; TagMapping := ∅; AttributeNameMapping := ∅;
     AttributeStringValueMapping := g; AllTargetsFileHashes := ∅ |}.

(** The small maps are set on the first message. *)
Definition set_small_maps (ruleTypes tags attrNames : gmap Z bytes) (m : Metadata) : Metadata :=
  {| TargetIDMapping := TargetIDMapping m; RuleTypeMapping := ruleTypes; TagMapping := tags;
     AttributeNameMapping := attrNames; AttributeStringValueMapping := AttributeStringValueMapping m;
     AllTargetsFileHashes := AllTargetsFileHashes m |}.

Definition metadata_empty (m : Metadata) : bool :=
  bool_decide (size (TargetIDMapping m) = 0%nat /\ size (RuleTypeMapping m) = 0%nat /\ size (TagMapping m) = 0%nat /\
    size (AttributeNameMapping m) = 0%nat /\ size (AttributeStringValueMapping m) = 0%nat).

Definition SplitMetadata (targetIDToName ruleTypeIDToName tagIDToName attrNameIDToName attrStrValIDToVal : gmap Z bytes) :
  res (list Metadata) :=
  let targetGroups := splitMapByBytes targetIDToName in
  let attrValGroups := splitMapByBytes attrStrValIDToVal in
  let metas := (target_metadata <$> targetGroups) ++ (attr_val_metadata <$> attrValGroups) in
  match (if decide (length metas = 0%nat) then [empty_metadata] else metas) with
  | [] => Panic
  | m :: metas =>
      if existsb metadata_empty metas then Err "internal error: metadata group %d of %d is empty"
      else Ok (set_small_maps ruleTypeIDToName tagIDToName attrNameIDToName m :: metas)
  end.
End metadata.

(** * Splitting a map is splitting the list of its entries *)

Definition entry_size (kv : Z * bytes) : Z := mapEntryWireSize kv.1 kv.2.

Lemma varint_size_loop_ge fuel x n : n <= varint_size_loop fuel x n.
Proof. revert x n. induction fuel as [|fuel IH]; intros x n; cbn; [lia|]. case_decide; [|lia]. specialize (IH (Z.shiftr x 7) (n + 1)). lia. Qed.

Lemma VarintSize_pos x : 1 <= VarintSize x.
Proof. apply varint_size_loop_ge. Qed.

Abbreviation entries_map l := (list_to_map l : gmap Z bytes).

Lemma entries_map_snoc (l : list (Z * bytes)) k v :
  k ∉ l.*1 -> entries_map (l ++ [(k, v)]) = <[k := v]> (entries_map l).
Proof.
  intros Hk. rewrite list_to_map_app. cbn. rewrite insert_empty.
  symmetry. rewrite insert_union_singleton_l. apply map_union_comm. apply map_disjoint_singleton_l_2.
  by apply not_elem_of_list_to_map_1.
Qed.

Lemma split_map_loop_eq maxBytes cur b l :
  NoDup (cur ++ l).*1 -> cur ++ l <> [] ->
  split_map_loop maxBytes (entries_map cur) b l =
    (fun g => entries_map g) <$> split_loop entry_size maxBytes cur b l.
Proof.
  revert cur b. induction l as [|[k v] l IH]; intros cur b Hnd Hne; cbn [split_map_loop split_loop].
  - rewrite app_nil_r in *. rewrite map_size_list_to_map by done. destruct cur; [done|]. by rewrite decide_True by (cbn; lia).
  - rewrite map_size_list_to_map by (rewrite fmap_app in Hnd; by apply NoDup_app in Hnd as [? _]).
    change (mapEntryWireSize k v) with (entry_size (k, v)). case_decide.
    + rewrite decide_True by done. cbn [fmap list_fmap]. f_equal. rewrite <- (IH [(k, v)]); [done| |done].
      rewrite fmap_app in Hnd. by apply NoDup_app in Hnd as (_ & _ & ?).
    + rewrite decide_False by done. rewrite <- IH; [|by rewrite <- app_assoc|by rewrite <- app_assoc].
      f_equal. symmetry. apply entries_map_snoc. intros Hk. rewrite fmap_app in Hnd.
      apply NoDup_app in Hnd as (_ & Hdis & _). apply (Hdis _ Hk). by left.
Qed.

Section metadata_spec.
Context (range : gmap Z bytes -> list (Z * bytes)).
Context (range_perm : forall m, range m ≡ₚ map_to_list m).
Context (maxBytes : Z).

(** The wire size of the entries of a map. *)
Definition map_size (m : gmap Z bytes) : Z := total entry_size (map_to_list m).

(** A part is within the budget, or is one entry that is not. *)
Definition part_fits (g : gmap Z bytes) : Prop := g <> ∅ /\ (map_size g <= maxBytes \/ size g = 1%nat).

Lemma total_perm {T} (Size : T -> Z) l l' : l ≡ₚ l' -> total Size l = total Size l'.
Proof. induction 1; cbn; unfold total in *; lia. Qed.

Lemma entry_size_nonneg kv : 0 <= entry_size kv.
Proof.
  unfold entry_size, mapEntryWireSize. pose proof (zlen_nonneg kv.2).
  pose proof (VarintSize_pos (u64 kv.1)). pose proof (VarintSize_pos (u64 (zlen kv.2))).
  pose proof (VarintSize_pos (u64 (1 + VarintSize (u64 kv.1) + 1 + zlen kv.2 + VarintSize (u64 (zlen kv.2))))). lia.
Qed.

Lemma range_entries (m : gmap Z bytes) : NoDup (range m).*1 /\ entries_map (range m) = m.
Proof.
  assert (NoDup (range m).*1) as Hnd by (rewrite (fmap_Permutation fst _ _ (range_perm m)); apply NoDup_fst_map_to_list).
  split; [done|]. transitivity (entries_map (map_to_list m)); [|apply list_to_map_to_list].
  by apply list_to_map_proper.
Qed.

(** The union of parts, later ones first. *)
Definition union_parts (parts : list (gmap Z bytes)) : gmap Z bytes := foldl (fun acc g => g ∪ acc) ∅ parts.

Lemma union_parts_entries groups acc :
  NoDup (concat groups).*1 -> (forall k, k ∈ (concat groups).*1 -> acc !! k = None) ->
  foldl (fun acc g => g ∪ acc) acc ((fun g => entries_map g) <$> groups) = entries_map (concat groups) ∪ acc.
Proof.
  revert acc. induction groups as [|g groups IH]; intros acc Hnd Hacc; cbn.
  { by rewrite (left_id_L ∅ _). }
  cbn in Hnd, Hacc. rewrite fmap_app in Hnd, Hacc. apply NoDup_app in Hnd as (Hg & Hdis & Hgs).
  rewrite IH; [|done|].
  - rewrite list_to_map_app, (assoc_L (∪)). f_equal. apply map_union_comm, map_disjoint_list_to_map_l, Forall_forall.
    intros kv Hkv. apply not_elem_of_list_to_map_1. intros Hk. apply (Hdis kv.1 Hk). by apply list_elem_of_fmap_2.
  - intros k Hk. rewrite lookup_union_r; [apply Hacc, elem_of_app; by right|].
    apply not_elem_of_list_to_map_1. intros Hk'. by apply (Hdis k).
Qed.

(** The groups of entries behind the parts of a map. *)
Lemma splitMapByBytes_groups m : m <> ∅ ->
  exists groups, splitMapByBytes range maxBytes m = (fun g => entries_map g) <$> groups /\
    groups = split_loop entry_size maxBytes [] 0 (range m) /\ range m <> [] /\
    concat groups = range m /\ Forall (fun g => g <> [] /\ NoDup g.*1) groups.
Proof.
  intros Hm. destruct (range_entries m) as [Hnd Hmap].
  assert (range m <> []) as Hne by (intros E; rewrite E in Hmap; by subst).
  pose proof (split_map_loop_eq maxBytes [] 0 (range m) Hnd Hne) as Heq. change (entries_map []) with (∅ : gmap Z bytes) in Heq.
  destruct (split_loop_concat entry_size maxBytes [] 0 (range m) Hne) as (g & groups & E & Hcat & HF & _).
  cbn [app] in Hcat. exists (g :: groups). unfold splitMapByBytes.
  rewrite decide_False by (intros H; by apply Hm, map_size_empty_inv). rewrite Heq, E. split; [done|]. split; [done|].
  split; [done|]. split; [done|]. rewrite <- Hcat in Hnd. clear -HF Hnd. revert HF Hnd. generalize (g :: groups). intros l.
  induction l as [|x l IH]; intros HF Hnd; [constructor|]. apply Forall_cons in HF as [Hx HF].
  cbn in Hnd. rewrite fmap_app in Hnd. apply NoDup_app in Hnd as (? & _ & ?). constructor; [done|by apply IH].
Qed.

(** No part of a map is empty, and their union is the map. *)
Lemma splitMapByBytes_union m :
  Forall (fun g => g <> ∅) (splitMapByBytes range maxBytes m) /\ union_parts (splitMapByBytes range maxBytes m) = m.
Proof.
  destruct (decide (m = ∅)) as [->|Hm].
  { unfold splitMapByBytes. rewrite decide_True by apply map_size_empty. split; [constructor|done]. }
  destruct (splitMapByBytes_groups m Hm) as (groups & -> & _ & _ & Hcat & HF). split.
  - apply Forall_fmap. eapply Forall_impl; [exact HF|]. intros [|[k v] h] [Hh _]; [done|]. unfold compose. cbn.
    apply insert_non_empty.
  - destruct (range_entries m) as [Hnd Hmap]. rewrite <- Hcat in Hnd. unfold union_parts.
    rewrite union_parts_entries; [|done|intros; apply lookup_empty]. by rewrite Hcat, Hmap, (right_id_L ∅ _).
Qed.

(** The parts of a map fit. *)
Lemma splitMapByBytes_fits m : map_size m < 2^63 -> Forall part_fits (splitMapByBytes range maxBytes m).
Proof.
  intros Hsum. destruct (decide (m = ∅)) as [->|Hm].
  { unfold splitMapByBytes. rewrite decide_True by apply map_size_empty. constructor. }
  pose proof (proj1 (splitMapByBytes_union m)) as Hne.
  destruct (splitMapByBytes_groups m Hm) as (groups & E & El & Hr & Hcat & HF). rewrite E in *.
  destruct (split_loop_spec entry_size maxBytes [] (range m)) as (g & gs & E' & _ & HF' & _ & _); [| |done..|].
  { apply Forall_true, entry_size_nonneg. }
  { cbn [app]. by rewrite (total_perm _ _ _ (range_perm m)). }
  change (total entry_size []) with 0 in E'. rewrite E' in El. subst groups.
  rewrite Forall_fmap in Hne |- *. rewrite Forall_forall in HF, HF', Hne |- *. intros h Hh.
  destruct (HF h Hh) as [_ Hndh]. destruct (HF' h Hh) as [_ Hfit]. specialize (Hne h Hh). unfold compose in *. cbn in Hne.
  unfold part_fits, map_size. rewrite (total_perm _ _ _ (map_to_list_to_map h Hndh)), map_size_list_to_map by done.
  split; [done|]. exact Hfit.
Qed.

(** [SplitMetadata] never reports an empty message: the target parts come first, then
    the attribute values, and the small maps ride on the first message. *)
Lemma SplitMetadata_spec t r g n v :
  exists m metas, SplitMetadata range maxBytes t r g n v = Ok (set_small_maps r g n m :: metas) /\
    (m :: metas = (target_metadata <$> splitMapByBytes range maxBytes t) ++
                  (attr_val_metadata <$> splitMapByBytes range maxBytes v) \/
     (m = empty_metadata /\ metas = [] /\ t = ∅ /\ v = ∅)).
Proof.
  unfold SplitMetadata. destruct (splitMapByBytes_union t) as [Hft Hut]. destruct (splitMapByBytes_union v) as [Hfv Huv].
  set (tg := splitMapByBytes range maxBytes t) in *. set (vg := splitMapByBytes range maxBytes v) in *.
  assert (Forall (fun m => metadata_empty m = false) ((target_metadata <$> tg) ++ (attr_val_metadata <$> vg))) as Hne.
  { apply Forall_app. split; apply Forall_fmap; (eapply Forall_impl; [eassumption|]); intros h Hh; cbn;
      unfold metadata_empty; apply bool_decide_eq_false; cbn; intros H; apply Hh, map_size_empty_inv; tauto. }
  destruct ((target_metadata <$> tg) ++ (attr_val_metadata <$> vg)) as [|m metas] eqn:E.
  - rewrite decide_True by done. cbn. exists empty_metadata, []. split; [done|]. right.
    apply app_eq_nil in E as [E1%fmap_nil_inv E2%fmap_nil_inv]. rewrite E1 in Hut. rewrite E2 in Huv. done.
  - rewrite decide_False by done.
    assert (existsb metadata_empty metas = false) as ->.
    { apply Forall_cons in Hne as [_ Hne]. clear -Hne. induction Hne as [|x l Hx _ IH]; [done|]. cbn. by rewrite Hx. }
    exists m, metas. split; [done|by left].
Qed.
End metadata_spec.

(** * Property *)

(** C39: Splitting loses nothing and bounds every message.  Given sizes that do not overflow,
    [SplitBySize] always succeeds; its groups concatenate to the input in order; for a
    non-empty input every group is non-empty and within the budget, or is a single item
    that alone exceeds it; and no group could have taken the first item of the next. *)
Theorem SplitBySize_correct {T} (Size : T -> Z) (maxBytes : Z) (items : list T) :
  Forall (fun x => 0 <= Size x) items -> total Size items < 2^63 ->
  exists groups, SplitBySize Size maxBytes items = Ok groups /\ groups <> [] /\ concat groups = items /\
    (items <> [] -> Forall (group_fits Size maxBytes) groups) /\ greedy Size maxBytes groups.
Proof. apply SplitBySize_spec. Qed.

Lemma SplitBySize_correct_witness :
  SplitBySize (fun x : Z => x) 10 [4; 5; 20; 3; 3; 5] = Ok [[4; 5]; [20]; [3; 3]; [5]] /\
  exists groups, SplitBySize (fun x : Z => x) 10 [4; 5; 20; 3; 3; 5] = Ok groups /\ groups <> [] /\
    concat groups = [4; 5; 20; 3; 3; 5] /\
    ([4; 5; 20; 3; 3; 5] <> [] -> Forall (group_fits (fun x : Z => x) 10) groups) /\ greedy (fun x : Z => x) 10 groups.
Proof.
  split; [vm_compute; reflexivity|]. apply (SplitBySize_correct (fun x : Z => x) 10).
  - apply (bool_decide_unpack _). vm_compute. exact Logic.I.
  - reflexivity.
Defined.
