(* ===== verification/Chunks.v ===== *)
(** Target graphs as streams of chunks: the split of the producer ([mapper/mapper.go]),
    the split of the reader of a stored blob ([core/storage/tgbgraph.go]), and the two
    merges of the consumers ([internal/tgbdiff/adapt.go],
    [controller/getchangedtargets.go]). *)
From Stdlib Require Import ZArith Lia.
From stdpp Require Import gmap fin_maps.
From S2P Require Import Prelude Bfs Varint Entity Encode Streaming.

Local Open Scope Z_scope.

(** [GetTargetGraphResponse] *)
Record GraphChunk := { gc_Targets : list OptimizedTarget; gc_Metadata : option Metadata }.

#[export] Instance GraphChunk_eq_dec : EqDecision GraphChunk.
Proof. solve_decision. Defined.

Definition target_chunk (ts : list OptimizedTarget) : GraphChunk := {| gc_Targets := ts; gc_Metadata := None |}.
Definition metadata_chunk (m : Metadata) : GraphChunk := {| gc_Targets := []; gc_Metadata := Some m |}.

(** * Merging *)

(** [for k, v := range m.X { merged.X[k] = v }] for every map. *)
Definition merge_metadata (merged m : Metadata) : Metadata :=
  {| TargetIDMapping := TargetIDMapping m ∪ TargetIDMapping merged;
     RuleTypeMapping := RuleTypeMapping m ∪ RuleTypeMapping merged;
     TagMapping := TagMapping m ∪ TagMapping merged;
     AttributeNameMapping := AttributeNameMapping m ∪ AttributeNameMapping merged;
     AttributeStringValueMapping := AttributeStringValueMapping m ∪ AttributeStringValueMapping merged;
     AllTargetsFileHashes := AllTargetsFileHashes m ∪ AllTargetsFileHashes merged |}.

Definition merge_chunk_metadata (merged : Metadata) (chunk : GraphChunk) : Metadata :=
  match gc_Metadata chunk with Some m => merge_metadata merged m | None => merged end.

(** One target of [MergeChunks]: the slice keeps the first position of an ID. *)
Definition merge_target (st : gmap Z Z * list OptimizedTarget) (t : OptimizedTarget) :
  res (gmap Z Z * list OptimizedTarget) :=
  let '(byID, targets) := st in
  match byID !! ot_ID t with
  | Some idx => targets ← set_index targets idx t; Ok (byID, targets)
  | None => Ok (<[ot_ID t := zlen targets]> byID, targets ++ [t])
  end.

Definition merge_chunk (st : gmap Z Z * list OptimizedTarget * Metadata) (chunk : GraphChunk) :
  res (gmap Z Z * list OptimizedTarget * Metadata) :=
  let '(byID, targets, metadata) := st in
  '(byID, targets) ← fold_res merge_target (byID, targets) (gc_Targets chunk);
  Ok (byID, targets, merge_chunk_metadata metadata chunk).

Definition MergeChunks (chunks : list GraphChunk) : res Graph :=
  '(_, targets, metadata) ← fold_res merge_chunk (∅, [], empty_metadata) chunks;
  Ok {| Targets := targets; Meta := metadata |}.

(** Full SHA-1 hashes, blocks of 512 nodes; the other options are the default ones. *)
Definition encodeHashBytes : Z := 20.
Definition encodeBlockSize : Z := 512.

Definition EncodeChunks (env : encode_env) (chunks : list GraphChunk) : res bytes :=
  g ← MergeChunks chunks;
  Encode env g {| ZstdLevel := 0; HashBytes := encodeHashBytes; BlockSize := encodeBlockSize; Serial := false |}.

Section controller.
(** Whether the context is done before the [i]-th chunk. *)
Context (ctx : Z -> bool).

Fixpoint merge_loop (i : Z) (chunks : list GraphChunk) (targets : gmap Z OptimizedTarget) (merged : Metadata) :
  res (gmap Z OptimizedTarget * Metadata) :=
  match chunks with
  | [] => Ok (targets, merged)
  | chunk :: chunks =>
      _ ← guard_err (ctx i) cancelled_err;
      merge_loop (i + 1) chunks (foldl (fun targets t => <[ot_ID t := t]> targets) targets (gc_Targets chunk))
        (merge_chunk_metadata merged chunk)
  end.

Definition getTargetsAndMetadata (graph : list GraphChunk) : res (gmap Z OptimizedTarget * Metadata) :=
  merge_loop 0 graph ∅ empty_metadata.
End controller.

(** * Splitting *)

Section split.
Context (range : gmap Z bytes -> list (Z * bytes)).

Definition split_metadata (m : Metadata) (maxBytes : Z) : res (list Metadata) :=
  SplitMetadata range maxBytes (TargetIDMapping m) (RuleTypeMapping m) (TagMapping m) (AttributeNameMapping m)
    (AttributeStringValueMapping m).

(** [build] of [TGBGraphReader]. *)
Definition rechunk (graph : Graph) (maxBytes : Z) : res (list GraphChunk) :=
  targetGroups ← SplitBySize OptimizedTarget_Size maxBytes (Targets graph);
  metaGroups ← split_metadata (Meta graph) maxBytes;
  Ok ((target_chunk <$> targetGroups) ++ (metadata_chunk <$> metaGroups)).

Definition set_file_hashes (h : gmap bytes bytes) (m : Metadata) : Metadata :=
  {| TargetIDMapping := TargetIDMapping m; RuleTypeMapping := RuleTypeMapping m; TagMapping := TagMapping m;
     AttributeNameMapping := AttributeNameMapping m; AttributeStringValueMapping := AttributeStringValueMapping m;
     AllTargetsFileHashes := h |}.

(** The second half of [ResultToGraphChunks]. *)
Definition graph_chunks (targets : list OptimizedTarget) (meta : Metadata) (maxBytes : Z) : res (list GraphChunk) :=
  targetGroups ← SplitBySize OptimizedTarget_Size maxBytes targets;
  metaGroups ← split_metadata meta maxBytes;
  metaGroups ← (if decide (0 < Z.of_nat (size (AllTargetsFileHashes meta))) then
                  match metaGroups with
                  | [] => Panic
                  | m :: ms => Ok (set_file_hashes (AllTargetsFileHashes meta) m :: ms)
                  end
                else Ok metaGroups);
  Ok ((target_chunk <$> targetGroups) ++ (metadata_chunk <$> metaGroups)).
End split.

(** * The merged targets *)

(** Each element at its first occurrence. *)
Definition first_seen {A} `{EqDecision A} (l : list A) : list A :=
  foldl (fun acc x => if decide (x ∈ acc) then acc else acc ++ [x]) [] l.

Lemma first_seen_snoc {A} `{EqDecision A} (l : list A) x :
  first_seen (l ++ [x]) = if decide (x ∈ first_seen l) then first_seen l else first_seen l ++ [x].
Proof. unfold first_seen. by rewrite foldl_app. Qed.

Lemma elem_of_first_seen {A} `{EqDecision A} (l : list A) x : x ∈ first_seen l <-> x ∈ l.
Proof.
  induction l as [|y l IH] using rev_ind; [done|]. rewrite first_seen_snoc, elem_of_app, list_elem_of_singleton.
  case_decide; [|rewrite elem_of_app, list_elem_of_singleton]; rewrite IH in *; [|tauto].
  split; [by left|]. intros [?|Hx]; [done|]. subst. by apply IH.
Qed.

Lemma first_seen_nodup {A} `{EqDecision A} (l : list A) : NoDup (first_seen l).
Proof.
  induction l as [|y l IH] using rev_ind; [constructor|]. rewrite first_seen_snoc. case_decide; [done|].
  apply NoDup_app. split_and!; [done| |apply NoDup_singleton]. intros x Hx ->%list_elem_of_singleton. done.
Qed.

Lemma first_seen_id {A} `{EqDecision A} (l : list A) : NoDup l -> first_seen l = l.
Proof.
  induction l as [|y l IH] using rev_ind; intros Hnd; [done|]. apply NoDup_app in Hnd as (Hl & Hd & _).
  rewrite first_seen_snoc, IH by done. rewrite decide_False; [done|]. intros Hy. apply (Hd y Hy). by left.
Qed.

Lemma nodup_at_inj {A} (l : list A) i j x : NoDup l -> at_ l i = Some x -> at_ l j = Some x -> i = j.
Proof.
  intros Hnd Hi Hj. pose proof (at_Some_range _ _ _ Hi). pose proof (at_Some_range _ _ _ Hj). unfold at_ in *.
  rewrite decide_True in Hi by lia. rewrite decide_True in Hj by lia. rewrite NoDup_alt in Hnd.
  pose proof (Hnd _ _ _ Hi Hj). lia.
Qed.

(** The last target of each ID. *)
Definition last_targets (ts : list OptimizedTarget) : gmap Z OptimizedTarget :=
  foldl (fun m t => <[ot_ID t := t]> m) ∅ ts.

Lemma last_targets_snoc ts t : last_targets (ts ++ [t]) = <[ot_ID t := t]> (last_targets ts).
Proof. unfold last_targets. by rewrite foldl_app. Qed.

Lemma last_targets_id ts id t : last_targets ts !! id = Some t -> ot_ID t = id /\ t ∈ ts.
Proof.
  induction ts as [|s ts IH] using rev_ind; [done|]. rewrite last_targets_snoc, elem_of_app, list_elem_of_singleton.
  intros [[<- <-]|[_ H]]%lookup_insert_Some; [tauto|]. apply IH in H. tauto.
Qed.

Lemma last_targets_some ts id : is_Some (last_targets ts !! id) <-> id ∈ ot_ID <$> ts.
Proof.
  induction ts as [|s ts IH] using rev_ind.
  { split; [intros [? H]; done|intros H; by apply elem_of_nil in H]. }
  rewrite last_targets_snoc, fmap_app, elem_of_app, lookup_insert_is_Some', IH. cbn.
  rewrite list_elem_of_singleton. split; intros [?|?]; auto.
Qed.

(** The state of [MergeChunks] after the targets [ts]. *)
Record merged_ok (ts : list OptimizedTarget) (byID : gmap Z Z) (targets : list OptimizedTarget) : Prop := {
  mg_len : zlen targets = zlen (first_seen (ot_ID <$> ts));
  mg_targets : forall k t, at_ targets k = Some t <->
    exists id, at_ (first_seen (ot_ID <$> ts)) k = Some id /\ last_targets ts !! id = Some t;
  mg_index : forall id idx, byID !! id = Some idx <-> at_ (first_seen (ot_ID <$> ts)) idx = Some id;
}.

Lemma at_snoc {A} (l : list A) x k :
  at_ (l ++ [x]) k = if decide (k = zlen l) then Some x else at_ l k.
Proof.
  rewrite at_app. destruct (decide (k = zlen l)) as [->|Hne].
  - rewrite decide_False by lia. by rewrite Z.sub_diag.
  - case_decide; [done|]. destruct (at_ l k) eqn:E; [apply at_Some_range in E; lia|].
    destruct (at_ [x] (k - zlen l)) eqn:E'; [|done]. apply at_Some_range in E'. change (zlen [x]) with 1 in E'. lia.
Qed.

Lemma merge_target_spec ts byID targets t :
  merged_ok ts byID targets ->
  exists byID' targets', merge_target (byID, targets) t = Ok (byID', targets') /\ merged_ok (ts ++ [t]) byID' targets'.
Proof.
  intros [Hlen Htg Hix]. set (ids := first_seen (ot_ID <$> ts)) in *.
  assert (NoDup ids) as Hnd by apply first_seen_nodup.
  unfold merge_target. destruct (byID !! ot_ID t) as [idx|] eqn:E.
  - apply Hix in E. pose proof (at_Some_range _ _ _ E) as Hr.
    destruct (set_index_Ok targets idx t) as (targets' & -> & Hl' & Hat'); [lia|]. cbn [mbind res_bind].
    exists byID, targets'. split; [done|].
    assert (first_seen (ot_ID <$> ts ++ [t]) = ids) as Eids.
    { rewrite fmap_app. cbn. rewrite first_seen_snoc, decide_True; [done|by eapply at_elem]. }
    split; rewrite Eids; [lia| |done]. intros k s. rewrite Hat', last_targets_snoc. case_decide as Hk.
    + subst k. split.
      * intros [= <-]. exists (ot_ID t). split; [done|apply lookup_insert_eq].
      * intros (id & Hid & Hs). rewrite E in Hid. injection Hid as <-. by rewrite lookup_insert_eq in Hs.
    + rewrite Htg. split; intros (id & Hid & Hs); exists id; (split; [done|]);
        assert (ot_ID t <> id) by (intros <-; by apply Hk, (nodup_at_inj ids _ _ _ Hnd Hid E)).
      * by rewrite lookup_insert_ne.
      * by rewrite lookup_insert_ne in Hs.
  - do 2 eexists. split; [done|].
    assert (ot_ID t ∉ ids) as Hnew.
    { intros [k Hk]%elem_at. apply Hix in Hk. congruence. }
    assert (first_seen (ot_ID <$> ts ++ [t]) = ids ++ [ot_ID t]) as Eids.
    { rewrite fmap_app. cbn. by rewrite first_seen_snoc, decide_False. }
    split; rewrite Eids.
    + rewrite !zlen_app, Hlen. done.
    + intros k s. rewrite !at_snoc, Hlen, last_targets_snoc. case_decide.
      * split; [intros [= <-]; exists (ot_ID t); split; [done|apply lookup_insert_eq]|].
        intros (id & [= <-] & Hs). by rewrite lookup_insert_eq in Hs.
      * rewrite Htg. split; intros (id & Hid & Hs); exists id; (split; [done|]);
          assert (ot_ID t <> id) by (intros <-; by apply Hnew, (at_elem _ k)).
        -- by rewrite lookup_insert_ne.
        -- by rewrite lookup_insert_ne in Hs.
    + intros id idx. rewrite at_snoc, <- Hlen. split.
      * intros [[<- <-]|[Hne H]]%lookup_insert_Some; [by rewrite decide_True|].
        apply Hix in H. pose proof (at_Some_range _ _ _ H). rewrite decide_False; [done|]. lia.
      * case_decide as Hk; [intros [= <-]; subst; apply lookup_insert_eq|]. intros H.
        rewrite lookup_insert_ne; [by apply Hix|]. intros <-. by apply Hnew, (at_elem _ idx).
Qed.

Lemma merge_targets_spec ts past byID targets :
  merged_ok past byID targets ->
  exists byID' targets', fold_res merge_target (byID, targets) ts = Ok (byID', targets') /\
    merged_ok (past ++ ts) byID' targets'.
Proof.
  revert past byID targets. induction ts as [|t ts IH]; intros past byID targets H; cbn [fold_res].
  { exists byID, targets. by rewrite app_nil_r. }
  destruct (merge_target_spec past byID targets t H) as (byID1 & targets1 & -> & H1). cbn [mbind res_bind].
  destruct (IH (past ++ [t]) byID1 targets1 H1) as (byID2 & targets2 & ? & H2). exists byID2, targets2.
  by rewrite <- app_assoc in H2.
Qed.

(** The targets of a stream, and its metadata. *)
Definition all_targets (chunks : list GraphChunk) : list OptimizedTarget := concat (gc_Targets <$> chunks).
Definition all_metadata (chunks : list GraphChunk) : Metadata := foldl merge_chunk_metadata empty_metadata chunks.

Lemma merge_chunks_spec chunks past byID targets metadata :
  merged_ok past byID targets ->
  exists byID' targets', fold_res merge_chunk (byID, targets, metadata) chunks =
      Ok (byID', targets', foldl merge_chunk_metadata metadata chunks) /\
    merged_ok (past ++ all_targets chunks) byID' targets'.
Proof.
  revert past byID targets metadata. induction chunks as [|c chunks IH]; intros past byID targets metadata H; cbn [fold_res].
  { exists byID, targets. unfold all_targets. cbn. by rewrite app_nil_r. }
  destruct (merge_targets_spec (gc_Targets c) past byID targets H) as (byID1 & targets1 & E1 & H1).
  assert (merge_chunk (byID, targets, metadata) c = Ok (byID1, targets1, merge_chunk_metadata metadata c)) as ->.
  { unfold merge_chunk. by rewrite E1. }
  cbn [mbind res_bind]. destruct (IH _ byID1 targets1 (merge_chunk_metadata metadata c) H1) as (byID2 & targets2 & -> & H2).
  exists byID2, targets2. split; [done|]. unfold all_targets in *. cbn. by rewrite app_assoc.
Qed.

Lemma MergeChunks_spec chunks :
  exists byID targets, MergeChunks chunks = Ok {| Targets := targets; Meta := all_metadata chunks |} /\
    merged_ok (all_targets chunks) byID targets.
Proof.
  destruct (merge_chunks_spec chunks [] ∅ [] empty_metadata) as (byID & targets & E & H).
  { split; [done| |].
    - intros k t. unfold at_. split; [by case_decide|]. intros (id & H & _). by case_decide.
    - intros id idx. rewrite lookup_empty. unfold at_. by case_decide. }
  exists byID, targets. split; [|done]. unfold MergeChunks. rewrite E. done.
Qed.

Lemma merge_loop_spec ctx i chunks targets merged :
  unless_done (fun _ : unit => ctx) (merge_loop ctx i chunks targets merged) (fun r =>
    r = (foldl (fun m t => <[ot_ID t := t]> m) targets (all_targets chunks),
         foldl merge_chunk_metadata merged chunks)).
Proof.
  revert i targets merged. induction chunks as [|c chunks IH]; intros i targets merged; cbn [merge_loop].
  { by apply unless_done_ok. }
  eapply unless_done_bind; [apply (unless_done_guard (fun _ => ctx) () i)|]. intros _ _.
  eapply unless_done_mono; [apply IH|]. intros r ->. unfold all_targets. cbn. by rewrite foldl_app.
Qed.

(** The merged targets, when IDs are distinct. *)
Lemma merged_distinct ts byID targets : NoDup (ot_ID <$> ts) -> merged_ok ts byID targets -> targets = ts.
Proof.
  intros Hnd [_ Htg _]. rewrite (first_seen_id _ Hnd) in Htg. apply at_ext. intros k. apply option_eq. intros t.
  rewrite Htg. split.
  - intros (id & Hid & Ht). rewrite at_fmap in Hid. destruct (at_ ts k) as [s|] eqn:E; [|done]. injection Hid as <-.
    destruct (last_targets_id _ _ _ Ht) as [Hid Hin]. apply elem_at in Hin as [j Hj].
    assert (k = j) as -> by (apply (nodup_at_inj _ _ _ (ot_ID t) Hnd); rewrite at_fmap; [by rewrite E, Hid|by rewrite Hj]).
    congruence.
  - intros Hk. exists (ot_ID t). rewrite at_fmap, Hk. split; [done|].
    destruct (proj2 (last_targets_some ts (ot_ID t))) as [s Hs].
    { apply list_elem_of_fmap_2. by eapply at_elem. }
    rewrite Hs. destruct (last_targets_id _ _ _ Hs) as [Hid Hin]. apply elem_at in Hin as [j Hj].
    assert (k = j) as -> by (apply (nodup_at_inj _ _ _ (ot_ID t) Hnd); rewrite at_fmap; [by rewrite Hk|by rewrite Hj, <- Hid]).
    congruence.
Qed.

Lemma merged_nodup ts byID targets : merged_ok ts byID targets ->
  ot_ID <$> targets = first_seen (ot_ID <$> ts) /\
  list_to_map ((fun t => (ot_ID t, t)) <$> targets) = last_targets ts.
Proof.
  intros [Hlen Htg _].
  assert (ot_ID <$> targets = first_seen (ot_ID <$> ts)) as Eids.
  { apply at_ext. intros k. apply option_eq. intros id. rewrite at_fmap, fmap_Some. split.
    - intros (t & Ht & ->). apply Htg in Ht as (id & Hid & Ht). by apply last_targets_id in Ht as [-> _].
    - intros Hid. destruct (proj2 (last_targets_some ts id)) as [t Ht].
      { apply elem_of_first_seen. by eapply at_elem. }
      exists t. split; [apply Htg; by exists id|]. by apply last_targets_id in Ht as [-> _]. }
  split; [done|]. apply map_eq. intros id. apply option_eq. intros t.
  rewrite <- elem_of_list_to_map by (rewrite <- list_fmap_compose; change (ot_ID <$> targets) with (fst ∘ (fun t => (ot_ID t, t)) <$> targets) in Eids;
    rewrite Eids; apply first_seen_nodup).
  rewrite list_elem_of_fmap. split.
  - intros (s & [= -> ->] & [k Hk]%elem_at). apply Htg in Hk as (id & _ & Hs).
    by destruct (last_targets_id _ _ _ Hs) as [-> _].
  - intros Ht. destruct (last_targets_id _ _ _ Ht) as [<- _]. exists t. split; [done|].
    assert (ot_ID t ∈ first_seen (ot_ID <$> ts)) as [k Hk]%elem_at by (apply elem_of_first_seen, last_targets_some; by exists t).
    apply (at_elem _ k), Htg. by exists (ot_ID t).
Qed.

(** * The merged metadata *)

Lemma all_metadata_chunks groups metas :
  all_metadata ((target_chunk <$> groups) ++ (metadata_chunk <$> metas)) = foldl merge_metadata empty_metadata metas.
Proof.
  unfold all_metadata. rewrite foldl_app. assert (foldl merge_chunk_metadata empty_metadata (target_chunk <$> groups) = empty_metadata) as ->.
  { induction groups as [|g groups IH]; [done|exact IH]. }
  generalize empty_metadata. induction metas as [|m metas IH]; intros acc; [done|]. exact (IH (merge_metadata acc m)).
Qed.

Lemma all_targets_chunks groups metas :
  all_targets ((target_chunk <$> groups) ++ (metadata_chunk <$> metas)) = concat groups.
Proof.
  unfold all_targets. rewrite fmap_app, concat_app, <- !list_fmap_compose.
  assert (concat (gc_Targets ∘ metadata_chunk <$> metas) = []) as ->.
  { induction metas as [|m metas IH]; [done|exact IH]. }
  rewrite app_nil_r. f_equal. change (gc_Targets ∘ target_chunk) with (@id (list OptimizedTarget)). apply list_fmap_id.
Qed.

(** A part of a large map leaves the small maps alone. *)
Definition large_only (m : Metadata) : Prop :=
  RuleTypeMapping m = ∅ /\ TagMapping m = ∅ /\ AttributeNameMapping m = ∅ /\ AllTargetsFileHashes m = ∅.

Lemma merge_small_first r g n h m metas :
  large_only m -> Forall large_only metas ->
  foldl merge_metadata empty_metadata (set_file_hashes h (set_small_maps r g n m) :: metas) =
  set_file_hashes h (set_small_maps r g n (foldl merge_metadata empty_metadata (m :: metas))).
Proof.
  intros Hm Hms. cbn [foldl].
  assert (merge_metadata empty_metadata (set_file_hashes h (set_small_maps r g n m)) =
    set_file_hashes h (set_small_maps r g n (merge_metadata empty_metadata m))) as ->.
  { unfold merge_metadata, set_file_hashes, set_small_maps. cbn. f_equal; apply (right_id_L ∅ _). }
  generalize (merge_metadata empty_metadata m). induction Hms as [|m' metas (H1 & H2 & H3 & H4) _ IH]; intros acc; [done|].
  cbn [foldl]. rewrite <- IH. f_equal. unfold merge_metadata, set_file_hashes, set_small_maps. cbn.
  rewrite H1, H2, H3, H4. f_equal; apply (left_id_L ∅ _).
Qed.

Lemma merge_target_parts parts acc :
  foldl merge_metadata acc (target_metadata <$> parts) =
  {| TargetIDMapping := foldl (fun a g => g ∪ a) (TargetIDMapping acc) parts;
     RuleTypeMapping := RuleTypeMapping acc; TagMapping := TagMapping acc;
     AttributeNameMapping := AttributeNameMapping acc; AttributeStringValueMapping := AttributeStringValueMapping acc;
     AllTargetsFileHashes := AllTargetsFileHashes acc |}.
Proof.
  revert acc. induction parts as [|g parts IH]; intros acc; [by destruct acc|]. cbn [fmap list_fmap foldl].
  rewrite IH. unfold merge_metadata, target_metadata. cbn. f_equal; apply (left_id_L ∅ _).
Qed.

Lemma merge_attr_parts parts acc :
  foldl merge_metadata acc (attr_val_metadata <$> parts) =
  {| TargetIDMapping := TargetIDMapping acc;
     RuleTypeMapping := RuleTypeMapping acc; TagMapping := TagMapping acc;
     AttributeNameMapping := AttributeNameMapping acc;
     AttributeStringValueMapping := foldl (fun a g => g ∪ a) (AttributeStringValueMapping acc) parts;
     AllTargetsFileHashes := AllTargetsFileHashes acc |}.
Proof.
  revert acc. induction parts as [|g parts IH]; intros acc; [by destruct acc|]. cbn [fmap list_fmap foldl].
  rewrite IH. unfold merge_metadata, attr_val_metadata. cbn. f_equal; apply (left_id_L ∅ _).
Qed.

Section roundtrip.
Context (range : gmap Z bytes -> list (Z * bytes)).
Context (range_perm : forall m, range m ≡ₚ map_to_list m).

(** Merging the parts gives the maps back; the file hashes are not among the parts. *)
Lemma split_metadata_merge meta maxBytes :
  exists m metas, split_metadata range meta maxBytes = Ok (m :: metas) /\
    foldl merge_metadata empty_metadata (m :: metas) = set_file_hashes ∅ meta /\
    forall h, foldl merge_metadata empty_metadata (set_file_hashes h m :: metas) = set_file_hashes h meta.
Proof.
  unfold split_metadata.
  destruct (SplitMetadata_spec range range_perm maxBytes (TargetIDMapping meta) (RuleTypeMapping meta) (TagMapping meta)
    (AttributeNameMapping meta) (AttributeStringValueMapping meta)) as (m & metas & -> & Hparts).
  do 2 eexists. split; [done|].
  assert (forall h, foldl merge_metadata empty_metadata (set_file_hashes h
      (set_small_maps (RuleTypeMapping meta) (TagMapping meta) (AttributeNameMapping meta) m) :: metas) =
      set_file_hashes h meta) as H.
  2:{ split; [|exact H]. rewrite <- (H ∅). f_equal. f_equal.
      destruct Hparts as [E|(-> & _)]; [|done].
      destruct (splitMapByBytes range maxBytes (TargetIDMapping meta)) as [|g gs]; [|by injection E as -> _].
      destruct (splitMapByBytes range maxBytes (AttributeStringValueMapping meta)) as [|g gs]; [done|by injection E as -> _]. }
  intros h. destruct Hparts as [E|(-> & -> & Et & Ev)].
  - assert (Forall large_only (m :: metas)) as Hlarge.
    { rewrite E. apply Forall_app. split; apply Forall_fmap, Forall_true; done. }
    apply Forall_cons in Hlarge as [Hm Hms]. rewrite merge_small_first by done.
    rewrite E, foldl_app, merge_target_parts, merge_attr_parts. cbn.
    destruct (splitMapByBytes_union range range_perm maxBytes (TargetIDMapping meta)) as [_ Hut].
    destruct (splitMapByBytes_union range range_perm maxBytes (AttributeStringValueMapping meta)) as [_ Huv].
    unfold union_parts in Hut, Huv. rewrite Hut, Huv. by destruct meta.
  - rewrite merge_small_first by done. cbn. unfold set_file_hashes, set_small_maps, merge_metadata. cbn.
    rewrite Et, Ev. f_equal; apply (left_id_L ∅ (∪)).
Qed.
End roundtrip.

(** * Round trips *)

Lemma merge_chunk_stream groups metas :
  NoDup (ot_ID <$> concat groups) ->
  MergeChunks ((target_chunk <$> groups) ++ (metadata_chunk <$> metas)) =
    Ok {| Targets := concat groups; Meta := foldl merge_metadata empty_metadata metas |}.
Proof.
  intros Hnd. destruct (MergeChunks_spec ((target_chunk <$> groups) ++ (metadata_chunk <$> metas))) as (byID & ts & -> & Hok).
  rewrite all_targets_chunks in Hok. rewrite all_metadata_chunks. by rewrite (merged_distinct _ _ _ Hnd Hok).
Qed.

(** The chunks of a graph: all its targets, then parts of its metadata that merge to it. *)
Lemma graph_chunks_spec (range : gmap Z bytes -> list (Z * bytes)) (range_perm : forall m, range m ≡ₚ map_to_list m)
    targets meta maxBytes :
  exists groups metas, graph_chunks range targets meta maxBytes =
      Ok ((target_chunk <$> groups) ++ (metadata_chunk <$> metas)) /\
    concat groups = targets /\ foldl merge_metadata empty_metadata metas = meta.
Proof.
  unfold graph_chunks.
  destruct (SplitBySize_total OptimizedTarget_Size maxBytes targets) as (groups & -> & _ & Hg). cbn [mbind res_bind].
  destruct (split_metadata_merge range range_perm meta maxBytes) as (m & metas & -> & H0 & Hh). cbn [mbind res_bind].
  case_decide as Hd; cbn [mbind res_bind]; do 2 eexists; (split; [done|]); (split; [exact Hg|]).
  - rewrite Hh. by destruct meta.
  - rewrite H0. destruct meta as [? ? ? ? ? h]. cbn in Hd |- *. assert (h = ∅) as -> by (apply map_size_empty_inv; lia). done.
Qed.

(** * Properties *)

(** The two merges of a chunk stream agree.  [MergeChunks] never fails; the controller's
    merge fails only when the context is done, and otherwise returns the same metadata
    and, keyed by ID, the same targets: of each ID the last target streamed.  The merged
    targets have distinct IDs, in the order the IDs were first seen. *)
Theorem merges_agree (ctx : Z -> bool) (chunks : list GraphChunk) :
  exists g, MergeChunks chunks = Ok g /\
    unless_done (fun _ : unit => ctx) (getTargetsAndMetadata ctx chunks) (fun r =>
      r = (list_to_map ((fun t => (ot_ID t, t)) <$> Targets g), Meta g)) /\
    ot_ID <$> Targets g = first_seen (ot_ID <$> all_targets chunks) /\
    (forall t, t ∈ Targets g <-> last_targets (all_targets chunks) !! ot_ID t = Some t).
Proof.
  destruct (MergeChunks_spec chunks) as (byID & ts & E & Hok). eexists. split; [exact E|]. cbn [Targets Meta].
  destruct (merged_nodup _ _ _ Hok) as [Hids Hmap]. split; [|split; [done|]].
  - rewrite Hmap. apply merge_loop_spec.
  - intros t. rewrite <- Hmap, <- elem_of_list_to_map, list_elem_of_fmap.
    + split; [intros H; by exists t|by intros (s & [= _ ->] & Hs)].
    + rewrite <- list_fmap_compose. change (NoDup (ot_ID <$> ts)). rewrite Hids. apply first_seen_nodup.
Qed.

(** Streaming a graph loses nothing.  For a graph with distinct IDs, whatever the message
    budget and the order Go visits the maps in, the producer's chunks exist and merging them gives the graph back: the same targets in
    the same order and every metadata map, the file hashes included. *)
Theorem graph_chunks_roundtrip (range : gmap Z bytes -> list (Z * bytes)) (targets : list OptimizedTarget)
    (meta : Metadata) (maxBytes : Z) :
  (forall m, range m ≡ₚ map_to_list m) -> NoDup (ot_ID <$> targets) ->
  exists chunks, graph_chunks range targets meta maxBytes = Ok chunks /\
    MergeChunks chunks = Ok {| Targets := targets; Meta := meta |}.
Proof.
  intros Hrange Hnd. destruct (graph_chunks_spec range Hrange targets meta maxBytes) as (groups & metas & -> & Hg & Hm).
  eexists. split; [done|]. by rewrite merge_chunk_stream, Hg, Hm by (by rewrite Hg).
Qed.

(** The chunk view of a stored blob loses the file hashes, and only them: merging the
    chunks of [TGBGraphReader] gives the decoded graph with [AllTargetsFileHashes] empty. *)
Theorem rechunk_drops_file_hashes (range : gmap Z bytes -> list (Z * bytes)) (g : Graph) (maxBytes : Z) :
  (forall m, range m ≡ₚ map_to_list m) -> NoDup (ot_ID <$> Targets g) ->
  exists chunks, rechunk range g maxBytes = Ok chunks /\
    MergeChunks chunks = Ok {| Targets := Targets g; Meta := set_file_hashes ∅ (Meta g) |}.
Proof.
  intros Hrange Hnd. unfold rechunk.
  destruct (SplitBySize_total OptimizedTarget_Size maxBytes (Targets g)) as (groups & -> & _ & Hg). cbn [mbind res_bind].
  destruct (split_metadata_merge range Hrange (Meta g) maxBytes) as (m & metas & -> & H0 & _). cbn [mbind res_bind].
  rewrite <- Hg in Hnd. eexists. split; [done|]. by rewrite merge_chunk_stream, Hg, H0.
Qed.

Definition sample_targets : list OptimizedTarget :=
  [ {| ot_ID := 1; ot_Hash := bs "0a"; ot_DirectDependencies := [2]; ot_RuleType := 1; ot_Tags := []; ot_Root := false;
       ot_External := false; ot_Attributes := {[ 1 := 1 ]} |};
    {| ot_ID := 2; ot_Hash := bs "0b"; ot_DirectDependencies := []; ot_RuleType := 1; ot_Tags := []; ot_Root := false;
       ot_External := false; ot_Attributes := ∅ |} ].
Definition sample_meta : Metadata :=
  {| TargetIDMapping := {[ 1 := bs "//a:a"; 2 := bs "//b:b" ]}; RuleTypeMapping := {[ 1 := bs "go_library" ]};
     TagMapping := ∅; AttributeNameMapping := {[ 1 := bs "size" ]}; AttributeStringValueMapping := {[ 1 := bs "small" ]};
     AllTargetsFileHashes := {[ bs "WORKSPACE" := bs "ff" ]} |}.

Lemma graph_chunks_roundtrip_witness : exists chunks,
  graph_chunks map_to_list sample_targets sample_meta 12 = Ok chunks /\
    MergeChunks chunks = Ok {| Targets := sample_targets; Meta := sample_meta |}.
Proof.
  apply (graph_chunks_roundtrip map_to_list).
  - reflexivity.
  - apply (bool_decide_unpack _). vm_compute. exact Logic.I.
Defined.

Lemma rechunk_drops_file_hashes_witness : exists chunks,
  rechunk map_to_list {| Targets := sample_targets; Meta := sample_meta |} 12 = Ok chunks /\
    MergeChunks chunks = Ok {| Targets := sample_targets; Meta := set_file_hashes ∅ sample_meta |}.
Proof.
  apply (rechunk_drops_file_hashes map_to_list {| Targets := sample_targets; Meta := sample_meta |}).
  - reflexivity.
  - apply (bool_decide_unpack _). vm_compute. exact Logic.I.
Defined.
