(* ===== verification/DiffGraph.v ===== *)
(** From ID-mapped streams to semantic graphs and the all-targets rule
    ([toDiffGraph], [allTargetsFileChanged] and [allTargetsChanged] of
    [controller/getchangedtargets.go]). *)
From Stdlib Require Import ZArith Lia.
From stdpp Require Import gmap fin_maps.
From S2P Require Import Prelude Bfs Entity TargetDiff.

Local Open Scope Z_scope.

(** * Semantic targets *)

(** [m[id]] of a Go map: the empty string when there is no entry. *)
Definition name_of (m : gmap Z bytes) (id : Z) : bytes := default [] (m !! id).

(** The names of a list of IDs; those that do not resolve are dropped. *)
Definition names_of (m : gmap Z bytes) (ids : list Z) : list bytes :=
  filter (fun n => n <> []) (name_of m <$> ids).

(** [seedAttrs != nil && !seedAttrs[attrName]], negated. *)
Definition allowed (seedAttrs : option (gset bytes)) (attrName : bytes) : Prop :=
  match seedAttrs with Some s => attrName ∈ s | None => True end.

#[export] Instance allowed_dec seedAttrs n : Decision (allowed seedAttrs n).
Proof. unfold allowed. destruct seedAttrs; apply _. Defined.

Section diff.
(** Go visits the entries of a map in an order of its own. *)
Context (attr_range : gmap Z Z -> list (Z * Z)).
Context (meta : Metadata) (seedAttrs : option (gset bytes)).

Definition attr_step (out : gmap bytes bytes) (kv : Z * Z) : gmap bytes bytes :=
  let attrName := name_of (AttributeNameMapping meta) kv.1 in
  if decide (attrName = []) then out
  else if decide (allowed seedAttrs attrName)
       then <[attrName := name_of (AttributeStringValueMapping meta) kv.2]> out
       else out.

Definition diff_target (name : bytes) (t : OptimizedTarget) : Target :=
  {| tg_Name := name; tg_Hash := ot_Hash t; tg_RuleType := name_of (RuleTypeMapping meta) (ot_RuleType t);
     tg_Dependencies := names_of (TargetIDMapping meta) (ot_DirectDependencies t);
     tg_Tags := names_of (TagMapping meta) (ot_Tags t);
     tg_Attributes := foldl attr_step ∅ (attr_range (ot_Attributes t));
     tg_Root := ot_Root t; tg_External := ot_External t |}.

Definition diff_step (id : Z) (t : OptimizedTarget) (graph : Graph) : Graph :=
  let name := name_of (TargetIDMapping meta) id in
  if decide (name = []) then graph else <[name := diff_target name t]> graph.

Section loop.
Context (ctx : Z -> bool).

Fixpoint diff_loop (i : Z) (l : list (Z * OptimizedTarget)) (graph : Graph) : res Graph :=
  match l with
  | [] => Ok graph
  | (id, t) :: l => _ ← poll ctx i; diff_loop (i + 1) l (diff_step id t graph)
  end.

Definition toDiffGraph (target_range : gmap Z OptimizedTarget -> list (Z * OptimizedTarget))
  (targetsByID : gmap Z OptimizedTarget) : res Graph :=
  diff_loop 0 (target_range targetsByID) ∅.
End loop.
End diff.

Definition seedAttributesFor (SeedAttributes : list bytes) : option (gset bytes) :=
  if decide (zlen SeedAttributes = 0) then None else Some (foldl (fun s a => {[ a ]} ∪ s) ∅ SeedAttributes).

(** * The all-targets rule *)

Definition allTargetsFileChanged (first second : Metadata) : bool :=
  negb (bool_decide (AllTargetsFileHashes first = AllTargetsFileHashes second)).

Section all_targets.
Context (before after : Graph) (ctx : Z -> bool).

Fixpoint all_before (i : Z) (l : list (bytes * Target)) (changed : list ChangedTarget) : res (list ChangedTarget) :=
  match l with
  | [] => Ok changed
  | (name, beforeTarget) :: l =>
      _ ← poll ctx i;
      all_before (i + 1) l
        (changed ++ [match after !! name with
                     | None => deleted_change beforeTarget
                     | Some afterTarget => changed_change beforeTarget afterTarget
                     end])
  end.

Fixpoint all_after (i : Z) (l : list (bytes * Target)) (changed : list ChangedTarget) : res (list ChangedTarget) :=
  match l with
  | [] => Ok changed
  | (name, afterTarget) :: l =>
      _ ← poll ctx i;
      all_after (i + 1) l
        match before !! name with Some _ => changed | None => changed ++ [new_change afterTarget] end
  end.
End all_targets.

Definition allTargetsChanged (graph_range : Graph -> list (bytes * Target)) (ctx : bool -> Z -> bool)
  (before after : Graph) : res (list ChangedTarget) :=
  changed ← all_before after (ctx false) 0 (graph_range before) [];
  all_after before (ctx true) 0 (graph_range after) changed.

(** * Their behaviour *)

(** A loop that inserts the entry of each element that has one. *)
Definition insert_all {A K V} `{Countable K} (f : A -> option (K * V)) (out : gmap K V) (l : list A) : gmap K V :=
  foldl (fun out x => match f x with Some kv => <[kv.1 := kv.2]> out | None => out end) out l.

Lemma insert_all_some {A K V} `{Countable K} (f : A -> option (K * V)) out l k v :
  insert_all f out l !! k = Some v -> (exists x, x ∈ l /\ f x = Some (k, v)) \/ out !! k = Some v.
Proof.
  revert out. induction l as [|x l IH]; intros out; cbn; [by right|]. intros [(y & Hy & E)|Hout]%IH.
  { left. exists y. split; [by right|done]. }
  destruct (f x) as [[k' v']|] eqn:E; [|by right]. apply lookup_insert_Some in Hout as [[<- <-]|[_ ?]]; [|by right].
  left. exists x. split; [by left|done].
Qed.

Lemma insert_all_in {A K V} `{Countable K} (f : A -> option (K * V)) out l x k v :
  x ∈ l -> f x = Some (k, v) -> is_Some (insert_all f out l !! k).
Proof.
  assert (forall l out, is_Some (out !! k) -> is_Some (insert_all f out l !! k)) as Hkeep.
  { clear. induction l as [|y l IH]; intros out Ho; [done|]. apply IH. destruct (f y) as [[k' v']|]; [|done]. cbn.
    apply lookup_insert_is_Some'. by right. }
  revert out. induction l as [|y l IH]; intros out Hx E; [by apply elem_of_nil in Hx|].
  apply elem_of_cons in Hx as [Hx|Hx]; [subst y|by apply IH].
  apply (Hkeep l). rewrite E. cbn. rewrite lookup_insert_eq. by eexists.
Qed.

(** When an entry determines the element, the order does not matter. *)
Lemma insert_all_iff {A K V} `{Countable K} (f : A -> option (K * V)) l k v :
  (forall x y v v', x ∈ l -> y ∈ l -> f x = Some (k, v) -> f y = Some (k, v') -> x = y) ->
  insert_all f ∅ l !! k = Some v <-> exists x, x ∈ l /\ f x = Some (k, v).
Proof.
  intros Hinj. split.
  - intros [?|Ho]%insert_all_some; [done|]. by rewrite lookup_empty in Ho.
  - intros (x & Hx & E). destruct (insert_all_in f ∅ l x k v Hx E) as [w Hw]. rewrite Hw.
    destruct (insert_all_some _ _ _ _ _ Hw) as [(y & Hy & Ey)|Ho]; [|by rewrite lookup_empty in Ho].
    assert (x = y) as -> by (by eapply Hinj). congruence.
Qed.

(** The names of the IDs of a map are unique, up to unresolved ones. *)
Definition unique_names {A} (names : gmap Z bytes) (m : gmap Z A) : Prop :=
  map_Forall (fun i _ => map_Forall (fun j _ =>
    name_of names i = name_of names j -> name_of names i <> [] -> i = j) m) m.

Section attrs.
Context (attr_range : gmap Z Z -> list (Z * Z)).
Context (attr_range_perm : forall m, attr_range m ≡ₚ map_to_list m).
Context (meta : Metadata) (seedAttrs : option (gset bytes)).

Definition attr_entry (kv : Z * Z) : option (bytes * bytes) :=
  let n := name_of (AttributeNameMapping meta) kv.1 in
  if decide (n = []) then None
  else if decide (allowed seedAttrs n) then Some (n, name_of (AttributeStringValueMapping meta) kv.2) else None.

Lemma attr_step_insert_all out l : foldl (attr_step meta seedAttrs) out l = insert_all attr_entry out l.
Proof.
  unfold insert_all. revert out. induction l as [|kv l IH]; intros out; [done|]. cbn. rewrite IH. f_equal.
  unfold attr_step, attr_entry. by repeat case_decide.
Qed.

Lemma attr_entry_Some k w n v : attr_entry (k, w) = Some (n, v) <->
  name_of (AttributeNameMapping meta) k = n /\ n <> [] /\ allowed seedAttrs n /\
  name_of (AttributeStringValueMapping meta) w = v.
Proof. unfold attr_entry. cbn. repeat case_decide; naive_solver. Qed.

Lemma diff_attrs_spec name t s v :
  unique_names (AttributeNameMapping meta) (ot_Attributes t) ->
  tg_Attributes (diff_target attr_range meta seedAttrs name t) !! s = Some v <->
  s <> [] /\ allowed seedAttrs s /\ exists k w, ot_Attributes t !! k = Some w /\
    name_of (AttributeNameMapping meta) k = s /\ name_of (AttributeStringValueMapping meta) w = v.
Proof.
  intros Hu. cbn [tg_Attributes diff_target]. rewrite attr_step_insert_all, insert_all_iff.
  - split.
    + intros ([k w] & Hin & (Hk & Hs & Ha & Hv)%attr_entry_Some).
      rewrite attr_range_perm, elem_of_map_to_list in Hin. split; [done|]. split; [done|]. by exists k, w.
    + intros (Hs & Ha & k & w & Hin & Hk & Hv). exists (k, w).
      rewrite attr_range_perm, elem_of_map_to_list, attr_entry_Some. done.
  - intros [k w] [k' w'] x x' Hin Hin' (Hk & Hs & _)%attr_entry_Some (Hk' & _)%attr_entry_Some.
    rewrite attr_range_perm, elem_of_map_to_list in Hin, Hin'.
    assert (k = k') as <- by (apply (Hu k w Hin k' w' Hin'); congruence). congruence.
Qed.
End attrs.

(** The attributes that a repository reports. *)
Definition seeded (seedAttrs : option (gset bytes)) (t : Target) : Target :=
  {| tg_Name := tg_Name t; tg_Hash := tg_Hash t; tg_RuleType := tg_RuleType t; tg_Dependencies := tg_Dependencies t;
     tg_Tags := tg_Tags t; tg_Attributes := filter (fun kv => allowed seedAttrs kv.1) (tg_Attributes t);
     tg_Root := tg_Root t; tg_External := tg_External t |}.

(** The order in which the attributes are visited does not matter. *)
Lemma diff_target_seeded (r r' : gmap Z Z -> list (Z * Z)) meta seedAttrs name t :
  (forall m, r m ≡ₚ map_to_list m) -> (forall m, r' m ≡ₚ map_to_list m) ->
  unique_names (AttributeNameMapping meta) (ot_Attributes t) ->
  diff_target r meta seedAttrs name t = seeded seedAttrs (diff_target r' meta None name t).
Proof.
  intros Hr Hr' Hu. unfold seeded. cbn [tg_Name tg_Hash tg_RuleType tg_Dependencies tg_Tags tg_Root tg_External diff_target].
  pose proof (diff_attrs_spec r Hr meta seedAttrs name t) as H1. pose proof (diff_attrs_spec r' Hr' meta None name t) as H2.
  unfold diff_target in *. cbn [tg_Attributes] in *. f_equal. apply map_eq. intros s. apply option_eq. intros v.
  rewrite (H1 s v Hu), map_lookup_filter_Some, (H2 s v Hu). cbn. tauto.
Qed.

Section graph.
Context (attr_range : gmap Z Z -> list (Z * Z)).
Context (target_range : gmap Z OptimizedTarget -> list (Z * OptimizedTarget)).
Context (target_range_perm : forall m, target_range m ≡ₚ map_to_list m).
Context (meta : Metadata) (seedAttrs : option (gset bytes)).

Definition diff_entry (it : Z * OptimizedTarget) : option (bytes * Target) :=
  let name := name_of (TargetIDMapping meta) it.1 in
  if decide (name = []) then None else Some (name, diff_target attr_range meta seedAttrs name it.2).

Lemma diff_loop_spec ctx i l g :
  unless_done (fun _ : unit => ctx) (diff_loop attr_range meta seedAttrs ctx i l g) (fun r =>
    r = insert_all diff_entry g l).
Proof.
  revert i g. induction l as [|[id t] l IH]; intros i g; cbn [diff_loop]; [by apply unless_done_ok|].
  eapply unless_done_bind; [apply (unless_done_poll (fun _ => ctx) () i)|]. intros _ _.
  eapply unless_done_mono; [apply IH|]. intros r ->. unfold insert_all. cbn. f_equal.
  unfold diff_step, diff_entry. cbn. by case_decide.
Qed.

(** The semantic graph has a target for each named ID. *)
Definition diff_graph_ok (targetsByID : gmap Z OptimizedTarget) (g : Graph) : Prop :=
  forall name tg, g !! name = Some tg <->
    name <> [] /\ exists id t, targetsByID !! id = Some t /\ name_of (TargetIDMapping meta) id = name /\
      tg = diff_target attr_range meta seedAttrs name t.

Lemma toDiffGraph_spec ctx targetsByID :
  unless_done (fun _ : unit => ctx) (toDiffGraph attr_range meta seedAttrs ctx target_range targetsByID) (fun g =>
    (forall name tg, g !! name = Some tg -> name <> [] /\ exists id t, targetsByID !! id = Some t /\
       name_of (TargetIDMapping meta) id = name /\ tg = diff_target attr_range meta seedAttrs name t) /\
    (forall id t, targetsByID !! id = Some t -> name_of (TargetIDMapping meta) id <> [] ->
       is_Some (g !! name_of (TargetIDMapping meta) id)) /\
    (unique_names (TargetIDMapping meta) targetsByID -> diff_graph_ok targetsByID g)).
Proof.
  unfold toDiffGraph. eapply unless_done_mono; [apply diff_loop_spec|]. intros g ->.
  assert (forall name tg, (exists x, x ∈ target_range targetsByID /\ diff_entry x = Some (name, tg)) <->
    name <> [] /\ exists id t, targetsByID !! id = Some t /\ name_of (TargetIDMapping meta) id = name /\
      tg = diff_target attr_range meta seedAttrs name t) as Hex.
  { intros name tg. split.
    - intros ([id t] & Hin & E). rewrite target_range_perm, elem_of_map_to_list in Hin. unfold diff_entry in E. cbn in E.
      case_decide; [done|]. injection E as <- <-. split; [done|]. by exists id, t.
    - intros (Hn & id & t & Hin & <- & ->). exists (id, t). rewrite target_range_perm, elem_of_map_to_list.
      split; [done|]. unfold diff_entry. cbn. by rewrite decide_False. }
  split; [|split].
  - intros name tg [H|H]%insert_all_some; [by apply Hex|by rewrite lookup_empty in H].
  - intros id t Hin Hn. destruct (proj2 (Hex (name_of (TargetIDMapping meta) id)
      (diff_target attr_range meta seedAttrs (name_of (TargetIDMapping meta) id) t))) as (x & Hx & E).
    { split; [done|]. by exists id, t. }
    by eapply insert_all_in.
  - intros Hu name tg. rewrite <- Hex. apply insert_all_iff. intros [id t] [id' t'] v v' Hin Hin' E E'.
    rewrite target_range_perm, elem_of_map_to_list in Hin, Hin'. unfold diff_entry in E, E'. cbn in E, E'.
    repeat case_decide; try done. injection E as En _. injection E' as En' _.
    assert (id = id') as <- by (apply (Hu id t Hin id' t' Hin'); congruence). congruence.
Qed.
End graph.

(** Every name once: new and deleted targets as usual, the others changed. *)
Definition all_change (before after : Graph) (name : bytes) : option ChangedTarget :=
  match before !! name, after !! name with
  | None, Some a => Some (new_change a)
  | Some b, None => Some (deleted_change b)
  | Some b, Some a => Some (changed_change b a)
  | None, None => None
  end.

Section all_targets_spec.
Context (before after : Graph) (ctx : Z -> bool).

Lemma all_before_spec i l changed :
  unless_done (fun _ : unit => ctx) (all_before after ctx i l changed) (fun r =>
    r = changed ++ ((fun nb : bytes * Target => match after !! nb.1 with
                     | None => deleted_change nb.2 | Some a => changed_change nb.2 a end) <$> l)).
Proof.
  revert i changed. induction l as [|[n b] l IH]; intros i changed; cbn [all_before].
  { apply unless_done_ok. by rewrite app_nil_r. }
  eapply unless_done_bind; [apply (unless_done_poll (fun _ => ctx) () i)|]. intros _ _.
  eapply unless_done_mono; [apply IH|]. intros r ->. by rewrite <- app_assoc.
Qed.

Lemma all_after_spec i l changed :
  unless_done (fun _ : unit => ctx) (all_after before ctx i l changed) (fun r =>
    r = changed ++ omap (fun na : bytes * Target => match before !! na.1 with
                     | None => Some (new_change na.2) | Some _ => None end) l).
Proof.
  revert i changed. induction l as [|[n a] l IH]; intros i changed; cbn [all_after].
  { apply unless_done_ok. by rewrite app_nil_r. }
  eapply unless_done_bind; [apply (unless_done_poll (fun _ => ctx) () i)|]. intros _ _.
  eapply unless_done_mono; [apply IH|]. intros r ->. cbn. destruct (before !! n); cbn; [done|]. by rewrite <- app_assoc.
Qed.
End all_targets_spec.

(** The changes of [all_change] as a map. *)
Definition all_changes (before after : Graph) : gmap bytes ChangedTarget :=
  merge (fun b a => match b, a with
    | None, None => None
    | None, Some a => Some (new_change a)
    | Some b, None => Some (deleted_change b)
    | Some b, Some a => Some (changed_change b a)
    end) before after.

Lemma all_changes_lookup before after n : all_changes before after !! n = all_change before after n.
Proof. unfold all_changes, all_change. rewrite lookup_merge. by destruct (before !! n), (after !! n). Qed.

Lemma all_targets_list before after lb la :
  lb ≡ₚ map_to_list before -> la ≡ₚ map_to_list after ->
  ((fun nb : bytes * Target => match after !! nb.1 with
      | None => deleted_change nb.2 | Some a => changed_change nb.2 a end) <$> lb) ++
  omap (fun na : bytes * Target => match before !! na.1 with
      | None => Some (new_change na.2) | Some _ => None end) la ≡ₚ
  (map_to_list (all_changes before after)).*2.
Proof.
  intros Hlb Hla.
  set (P := ((fun nb : bytes * Target => (nb.1, match after !! nb.1 with
      | None => deleted_change nb.2 | Some a => changed_change nb.2 a end)) <$> lb) ++
    omap (fun na : bytes * Target => match before !! na.1 with
      | None => Some (na.1, new_change na.2) | Some _ => None end) la).
  transitivity (P.*2).
  { unfold P. rewrite fmap_app, <- list_fmap_compose. apply Permutation_app; [done|]. clear Hla. induction la as [|[n a] la IH]; [done|].
    cbn. destruct (before !! n); cbn; [done|]. by rewrite IH. }
  apply fmap_Permutation, NoDup_Permutation.
  - assert (NoDup lb.*1 /\ NoDup la.*1) as [Hb Ha].
    { split; [rewrite Hlb|rewrite Hla]; apply NoDup_fst_map_to_list. }
    apply (NoDup_fmap_1 fst). unfold P. rewrite fmap_app, <- list_fmap_compose. apply NoDup_app. split; [exact Hb|].
    assert (forall n, n ∈ (omap (fun na : bytes * Target => match before !! na.1 with
      | None => Some (na.1, new_change na.2) | Some _ => None end) la).*1 -> n ∈ la.*1 /\ before !! n = None) as Hin.
    { intros n (x & -> & ([m a] & Hm & E)%list_elem_of_omap)%list_elem_of_fmap. cbn in E.
      destruct (before !! m) eqn:Em; [done|]. injection E as <-. split; [|done]. by apply (list_elem_of_fmap_2 fst _ (m, a)). }
    split.
    + intros n ([m b] & -> & Hm)%list_elem_of_fmap [_ Hn]%Hin. rewrite Hlb, elem_of_map_to_list in Hm. cbn in Hn. congruence.
    + clear Hlb Hla P Hin Hb. induction la as [|[n a] la IH]; [constructor|]. cbn in Ha. apply NoDup_cons in Ha as [Hn Ha].
      cbn. destruct (before !! n); cbn; [by apply IH|]. constructor; [|by apply IH].
      intros (x & -> & ([m b] & Hm & E)%list_elem_of_omap)%list_elem_of_fmap. cbn in E.
      destruct (before !! m); [done|]. injection E as <-. apply Hn. by apply (list_elem_of_fmap_2 fst _ (m, b)).
  - apply NoDup_map_to_list.
  - intros [n c]. rewrite elem_of_map_to_list, all_changes_lookup. unfold P, all_change.
    rewrite elem_of_app, list_elem_of_fmap, list_elem_of_omap. split.
    + intros [([m b] & E & Hm)|([m a] & Hm & E)].
      * rewrite Hlb, elem_of_map_to_list in Hm. cbn in E. injection E as -> ->. rewrite Hm. by destruct (after !! m).
      * rewrite Hla, elem_of_map_to_list in Hm. cbn in E. destruct (before !! m) eqn:Em; [done|]. injection E as <- <-.
        by rewrite Hm, Em.
    + destruct (before !! n) as [b|] eqn:Eb.
      * intros H. left. exists (n, b). rewrite Hlb, elem_of_map_to_list. split; [|done]. cbn. destruct (after !! n); congruence.
      * destruct (after !! n) as [a|] eqn:Ea; [|done]. intros [= <-]. right. exists (n, a).
        rewrite Hla, elem_of_map_to_list. split; [done|]. cbn. by rewrite Eb.
Qed.

Lemma allTargetsChanged_spec graph_range ctx before after :
  (forall m, graph_range m ≡ₚ map_to_list m) ->
  unless_done ctx (allTargetsChanged graph_range ctx before after) (fun r =>
    r ≡ₚ (map_to_list (all_changes before after)).*2).
Proof.
  intros Hr. assert (forall b A (x : res A) P, unless_done (fun _ : unit => ctx b) x P -> unless_done ctx x P) as Hlift.
  { intros b A x P [[-> (_ & i & H)]|H]; [left; split; [done|by exists b, i]|by right]. }
  unfold allTargetsChanged. eapply unless_done_bind; [apply (Hlift false), all_before_spec|]. intros changed ->.
  eapply unless_done_mono; [apply (Hlift true), all_after_spec|]. intros r ->. cbn [app]. by apply all_targets_list.
Qed.
