(* ===== verification/Responses.v ===== *)
(** From changes to response messages: the canonical IDs of a call and the chunks of its
    result ([canonicalMappers], [transpose] and [resultToResponses] of
    [controller/getchangedtargets.go]). *)
From Stdlib Require Import ZArith Lia.
From stdpp Require Import gmap fin_maps.
From S2P Require Import Prelude Bfs Varint Entity TargetDiff IdMapper Streaming Chunks DiffGraph.

Local Open Scope Z_scope.

(** * Canonical IDs *)

Record canonicalMappers := {
  cm_target : Mapper;
  cm_ruleType : Mapper;
  cm_tag : Mapper;
  cm_attrName : Mapper;
  cm_attrVal : Mapper;
}.

Definition newCanonicalMappers : canonicalMappers :=
  {| cm_target := NewMapper; cm_ruleType := NewMapper; cm_tag := NewMapper; cm_attrName := NewMapper;
     cm_attrVal := NewMapper |}.

Section transpose.
(** Go visits the entries of a map in an order of its own. *)
Context (attr_range : gmap bytes bytes -> list (bytes * bytes)).

(** The loop over the attributes. *)
Fixpoint transpose_attrs (l : list (bytes * bytes)) (attrName attrVal : Mapper) (out : gmap Z Z) :
  gmap Z Z * Mapper * Mapper :=
  match l with
  | [] => (out, attrName, attrVal)
  | (name, val) :: l =>
      let '(k, attrName) := ID name attrName in
      let '(v, attrVal) := ID val attrVal in
      transpose_attrs l attrName attrVal (<[k := v]> out)
  end.

Definition transpose_target (src : Target) (m : canonicalMappers) : OptimizedTarget * canonicalMappers :=
  let '(id, target) := ID (tg_Name src) (cm_target m) in
  let '(deps, target) := IDs (tg_Dependencies src) target in
  let '(ruleType, rt) :=
    if decide (tg_RuleType src <> []) then ID (tg_RuleType src) (cm_ruleType m) else (0, cm_ruleType m) in
  let '(tags, tag) := IDs (tg_Tags src) (cm_tag m) in
  let '(attrs, attrName, attrVal) := transpose_attrs (attr_range (tg_Attributes src)) (cm_attrName m) (cm_attrVal m) ∅ in
  ({| ot_ID := id; ot_Hash := tg_Hash src; ot_DirectDependencies := deps; ot_RuleType := ruleType; ot_Tags := tags;
      ot_Root := tg_Root src; ot_External := tg_External src; ot_Attributes := attrs |},
   {| cm_target := target; cm_ruleType := rt; cm_tag := tag; cm_attrName := attrName; cm_attrVal := attrVal |}).

Definition transpose (src : option Target) (m : canonicalMappers) : option OptimizedTarget * canonicalMappers :=
  match src with
  | None => (None, m)
  | Some src => let '(dst, m) := transpose_target src m in (Some dst, m)
  end.

Definition toChangeType (ct : ChangeType) : Z :=
  match ct with
  | ChangeTypeNew => 1
  | ChangeTypeDeleted => 2
  | ChangeTypeChanged => 3
  | ChangeTypeInvalid => 0
  end.

(** The loop of [resultToResponses]. *)
Fixpoint transpose_changes (l : list ChangedTarget) (m : canonicalMappers) :
  list Entity.ChangedTarget * canonicalMappers :=
  match l with
  | [] => ([], m)
  | ct :: l =>
      let '(old, m) := transpose (td_Before ct) m in
      let '(new, m) := transpose (td_After ct) m in
      let c := {| ct_ChangeType := toChangeType (td_ChangeType ct); ct_OldTarget := old; ct_NewTarget := new;
                  ct_Distance := td_Distance ct |} in
      let '(cs, m) := transpose_changes l m in
      (c :: cs, m)
  end.

(** [GetChangedTargetsResponse] *)
Record Response := { rs_ChangedTargets : list Entity.ChangedTarget; rs_Metadata : option Metadata }.

Definition changes_response (g : list Entity.ChangedTarget) : Response :=
  {| rs_ChangedTargets := g; rs_Metadata := None |}.
Definition metadata_response (m : Metadata) : Response := {| rs_ChangedTargets := []; rs_Metadata := Some m |}.

Context (id_range : gmap bytes Z -> list (bytes * Z)).
Context (range : gmap Z bytes -> list (Z * bytes)).

Definition resultToResponses (maxMessageBytes : Z) (result : list ChangedTarget) : res (list Response) :=
  let '(changed, mappers) := transpose_changes result newCanonicalMappers in
  changedGroups ← SplitBySize ChangedTarget_Size maxMessageBytes changed;
  metaGroups ← SplitMetadata range maxMessageBytes (Invert id_range (cm_target mappers))
    (Invert id_range (cm_ruleType mappers)) (Invert id_range (cm_tag mappers))
    (Invert id_range (cm_attrName mappers)) (Invert id_range (cm_attrVal mappers));
  Ok ((changes_response <$> changedGroups) ++ (metadata_response <$> metaGroups)).
End transpose.

(** * What a client reads back

    A client merges the metadata of all messages, as the controller does for graphs, and
    resolves IDs. *)

Definition response_changes (rs : list Response) : list Entity.ChangedTarget := concat (rs_ChangedTargets <$> rs).

Definition response_metadata (rs : list Response) : Metadata :=
  foldl (fun acc r => match rs_Metadata r with Some m => merge_metadata acc m | None => acc end) empty_metadata rs.

Definition resolve (meta : Metadata) (t : OptimizedTarget) : Target :=
  diff_target map_to_list meta None (name_of (TargetIDMapping meta) (ot_ID t)) t.

(** A target without empty names. *)
Definition target_named (t : Target) : Prop :=
  tg_Name t <> [] /\ ([] ∉ tg_Dependencies t) /\ ([] ∉ tg_Tags t) /\ tg_Attributes t !! [] = None.

(** An entry of a message stands for a change. *)
Definition stands_for (meta : Metadata) (e : Entity.ChangedTarget) (c : ChangedTarget) : Prop :=
  ct_ChangeType e = toChangeType (td_ChangeType c) /\ ct_Distance e = td_Distance c /\
  (resolve meta <$> ct_OldTarget e) = td_Before c /\ (resolve meta <$> ct_NewTarget e) = td_After c.

(** * The mappers *)

(** An upper bound of the names that a target gives to one mapper. *)
Definition target_load (t : Target) : Z :=
  1 + zlen (tg_Dependencies t) + zlen (tg_Tags t) + Z.of_nat (size (tg_Attributes t)).

Definition change_load (c : ChangedTarget) : Z :=
  (match td_Before c with Some t => target_load t | None => 0 end) +
  (match td_After c with Some t => target_load t | None => 0 end).

Definition result_load (l : list ChangedTarget) : Z := foldr (fun c n => change_load c + n) 0 l.

Record mappers_ok (m : canonicalMappers) : Prop := {
  mk_target : mapper_ok (cm_target m);
  mk_ruleType : mapper_ok (cm_ruleType m);
  mk_tag : mapper_ok (cm_tag m);
  mk_attrName : mapper_ok (cm_attrName m);
  mk_attrVal : mapper_ok (cm_attrVal m);
}.

Record mappers_extend (m m' : canonicalMappers) : Prop := {
  mx_target : extends (cm_target m) (cm_target m');
  mx_ruleType : extends (cm_ruleType m) (cm_ruleType m');
  mx_tag : extends (cm_tag m) (cm_tag m');
  mx_attrName : extends (cm_attrName m) (cm_attrName m');
  mx_attrVal : extends (cm_attrVal m) (cm_attrVal m');
}.

#[export] Instance mappers_extend_preorder : PreOrder mappers_extend.
Proof. split; [intros m; by split|intros a b c [] []; split; by etrans]. Qed.

(** Every mapper has room for [k] more names. *)
Record mappers_room (k : Z) (m : canonicalMappers) : Prop := {
  mr_target : room_for k (cm_target m);
  mr_ruleType : room_for k (cm_ruleType m);
  mr_tag : room_for k (cm_tag m);
  mr_attrName : room_for k (cm_attrName m);
  mr_attrVal : room_for k (cm_attrVal m);
}.

Section spec.
Context (id_range : gmap bytes Z -> list (bytes * Z)).
Context (id_range_perm : forall m, id_range m ≡ₚ map_to_list m).

(** The metadata of a set of mappers. *)
Definition mappers_metadata (m : canonicalMappers) : Metadata :=
  {| TargetIDMapping := Invert id_range (cm_target m); RuleTypeMapping := Invert id_range (cm_ruleType m);
     TagMapping := Invert id_range (cm_tag m); AttributeNameMapping := Invert id_range (cm_attrName m);
     AttributeStringValueMapping := Invert id_range (cm_attrVal m); AllTargetsFileHashes := ∅ |}.

Lemma name_of_Invert a id n : mapper_ok a -> nameToID a !! n = Some id -> name_of (Invert id_range a) id = n.
Proof. intros Hok H. unfold name_of. by rewrite (proj2 (Invert_spec id_range id_range_perm a id n Hok) H). Qed.

Lemma name_of_zero a : mapper_ok a -> name_of (Invert id_range a) 0 = [].
Proof.
  intros Hok. unfold name_of. destruct (Invert id_range a !! 0) as [n|] eqn:E; [|done].
  apply (Invert_spec id_range id_range_perm) in E; [|done]. apply (mo_range _ Hok) in E. lia.
Qed.

Lemma names_of_Invert a names ids : mapper_ok a -> [] ∉ names ->
  Forall2 (fun n id => nameToID a !! n = Some id) names ids -> names_of (Invert id_range a) ids = names.
Proof.
  intros Hok Hne HF. unfold names_of. induction HF as [|n id names ids Hn _ IH]; [done|].
  apply not_elem_of_cons in Hne as [Hn0 Hne]. cbn [fmap list_fmap]. rewrite (name_of_Invert a id n Hok Hn).
  rewrite filter_cons_True by done. f_equal. by apply IH.
Qed.

(** The IDs of the attributes [A]. *)
Record attrs_rep (an av : Mapper) (out : gmap Z Z) (A : gmap bytes bytes) : Prop := {
  ar_all : forall n v, A !! n = Some v ->
    exists k w, nameToID an !! n = Some k /\ nameToID av !! v = Some w /\ out !! k = Some w;
  ar_only : forall k w, out !! k = Some w ->
    exists n v, A !! n = Some v /\ nameToID an !! n = Some k /\ nameToID av !! v = Some w;
}.

Lemma attrs_rep_extends an av an' av' out A :
  extends an an' -> extends av av' -> attrs_rep an av out A -> attrs_rep an' av' out A.
Proof.
  intros Hn Hv [Hall Honly]. split.
  - intros n v (k & w & Hk & Hw & Ho)%Hall. exists k, w. split_and!; [by eapply lookup_weaken..|done].
  - intros k w (n & v & Ha & Hk & Hw)%Honly. exists n, v. split_and!; [done|by eapply lookup_weaken..].
Qed.

Lemma attrs_rep_insert an av out A n v k w :
  mapper_ok an -> nameToID an !! n = Some k -> nameToID av !! v = Some w ->
  attrs_rep an av out A -> attrs_rep an av (<[k := w]> out) (<[n := v]> A).
Proof.
  intros Hok Hk Hw [Hall Honly]. split.
  - intros n' v' [[<- <-]|[Hne Ha]]%lookup_insert_Some.
    + exists k, w. by rewrite lookup_insert_eq.
    + destruct (Hall _ _ Ha) as (k' & w' & Hk' & Hw' & Ho). exists k', w'. split_and!; [done..|].
      rewrite lookup_insert_ne; [done|]. intros <-. by apply Hne, (mo_inj _ Hok _ _ k).
  - intros k' w' [[<- <-]|[Hne Ho]]%lookup_insert_Some.
    + exists n, v. by rewrite lookup_insert_eq.
    + destruct (Honly _ _ Ho) as (n' & v' & Ha & Hk' & Hw'). exists n', v'. rewrite lookup_insert_ne; [done|]. congruence.
Qed.

Lemma transpose_attrs_spec l an av out A :
  mapper_ok an -> mapper_ok av -> room_for (zlen l) an -> room_for (zlen l) av ->
  attrs_rep an av out A -> NoDup l.*1 -> (forall n, n ∈ l.*1 -> A !! n = None) ->
  let '(out', an', av') := transpose_attrs l an av out in
  mapper_ok an' /\ mapper_ok av' /\ extends an an' /\ extends av av' /\
  nextID an' <= nextID an + zlen l /\ nextID av' <= nextID av + zlen l /\
  attrs_rep an' av' out' (list_to_map l ∪ A).
Proof.
  unfold room_for. revert an av out A. induction l as [|[n v] l IH]; intros an av out A Hn Hv Hrn Hrv Hrep Hnd HA; cbn [transpose_attrs].
  { rewrite zlen_nil. split_and!; [done..|reflexivity|reflexivity|lia|lia|]. cbn. by rewrite (left_id_L ∅ _). }
  rewrite zlen_cons in *. pose proof (zlen_nonneg l). cbn [fmap list_fmap fst] in Hnd, HA. apply NoDup_cons in Hnd as [Hnl Hnd].
  pose proof (ID_spec n an Hn) as H1. destruct (ID n an) as [k an1].
  destruct H1 as (Hn1 & Hen1 & Hk & _ & Hb1); [unfold room_for; lia|].
  pose proof (ID_spec v av Hv) as H2. destruct (ID v av) as [w av1].
  destruct H2 as (Hv1 & Hev1 & Hw & _ & Hb2); [unfold room_for; lia|].
  assert (attrs_rep an1 av1 (<[k := w]> out) (<[n := v]> A)) as Hrep1.
  { apply attrs_rep_insert; [done|done|done|]. by eapply attrs_rep_extends. }
  specialize (IH an1 av1 _ _ Hn1 Hv1 ltac:(lia) ltac:(lia) Hrep1 Hnd).
  destruct (transpose_attrs l an1 av1 (<[k := w]> out)) as [[out' an'] av'].
  destruct IH as (Hn' & Hv' & Hen & Hev & Hb1' & Hb2' & Hrep').
  { intros n' Hn'. rewrite lookup_insert_ne; [apply HA; by right|]. intros <-. done. }
  split_and!; [done|done|by etrans|by etrans|lia|lia|].
  assert (list_to_map ((n, v) :: l) ∪ A = list_to_map l ∪ <[n := v]> A) as ->; [|done].
  cbn. rewrite <- insert_union_l, insert_union_r; [done|]. by apply not_elem_of_list_to_map_1.
Qed.

(** Attribute names resolve to one ID each. *)
Lemma attrs_rep_unique an av out A :
  mapper_ok an -> attrs_rep an av out A -> unique_names (Invert id_range an) out.
Proof.
  intros Hn [_ Honly] i w Hi j w' Hj E _. destruct (Honly _ _ Hi) as (n & v1 & _ & Hk & _).
  destruct (Honly _ _ Hj) as (n' & v2 & _ & Hk' & _).
  rewrite (name_of_Invert _ _ _ Hn Hk), (name_of_Invert _ _ _ Hn Hk') in E. subst. congruence.
Qed.

Lemma resolve_attrs an av out A meta t :
  mapper_ok an -> mapper_ok av -> attrs_rep an av out A -> A !! [] = None ->
  AttributeNameMapping meta = Invert id_range an -> AttributeStringValueMapping meta = Invert id_range av ->
  ot_Attributes t = out -> tg_Attributes (resolve meta t) = A.
Proof.
  intros Hn Hv Hrep Hne En Ev Eo. pose proof (attrs_rep_unique _ _ _ _ Hn Hrep) as Hu. destruct Hrep as [Hall Honly]. unfold resolve. apply map_eq. intros s. apply option_eq. intros v.
  rewrite diff_attrs_spec.
  - rewrite En, Ev, Eo. split.
    + intros (_ & _ & k & w & Ho & <- & <-). destruct (Honly _ _ Ho) as (n & v' & Ha & Hk & Hw).
      by rewrite (name_of_Invert _ _ _ Hn Hk), (name_of_Invert _ _ _ Hv Hw).
    + intros Ha. destruct (Hall _ _ Ha) as (k & w & Hk & Hw & Ho). split; [intros ->; congruence|]. split; [done|].
      exists k, w. split; [done|]. by rewrite (name_of_Invert _ _ _ Hn Hk), (name_of_Invert _ _ _ Hv Hw).
  - done.
  - by rewrite En, Eo.
Qed.

Section transpose_spec.
Context (attr_range : gmap bytes bytes -> list (bytes * bytes)).
Context (attr_range_perm : forall m, attr_range m ≡ₚ map_to_list m).

(** After a step of cost [k], in which the mappers [m] became [m']. *)
Definition mappers_step (k : Z) (m m' : canonicalMappers) : Prop :=
  mappers_ok m' /\ mappers_extend m m' /\
  forall r, mappers_room (k + r) m -> mappers_room r m'.

Lemma transpose_target_spec src m :
  mappers_ok m -> mappers_room (target_load src) m -> target_named src ->
  let '(dst, m') := transpose_target attr_range src m in
  mappers_step (target_load src) m m' /\
  forall mf, mappers_ok mf -> mappers_extend m' mf -> resolve (mappers_metadata mf) dst = src.
Proof.
  intros [Ht Hr Hg Hn Hv] [Rt Rr Rg Rn Rv] (Nn & Nd & Ng & Na). unfold target_load, room_for in *.
  set (d := zlen (tg_Dependencies src)) in *. set (g := zlen (tg_Tags src)) in *.
  set (a := Z.of_nat (size (tg_Attributes src))) in *.
  assert (0 <= d /\ 0 <= g /\ 0 <= a) as (Hd0 & Hg0 & Ha0) by (subst d g a; split_and!; first [apply zlen_nonneg|lia]).
  unfold transpose_target.
  pose proof (ID_spec (tg_Name src) (cm_target m) Ht) as H1. destruct (ID (tg_Name src) (cm_target m)) as [id target1].
  destruct H1 as (Ht1 & Et1 & Hid & _ & Bt1); [unfold room_for; lia|].
  pose proof (IDs_spec (tg_Dependencies src) target1 Ht1) as H2. destruct (IDs (tg_Dependencies src) target1) as [deps target].
  destruct H2 as (Ht2 & Et2 & Hdeps & Bt2); [unfold room_for; fold d; lia|]. fold d in Bt2.
  assert (exists ruleType rt, (if decide (tg_RuleType src <> []) then ID (tg_RuleType src) (cm_ruleType m)
      else (0, cm_ruleType m)) = (ruleType, rt) /\ mapper_ok rt /\ extends (cm_ruleType m) rt /\
      nextID rt <= nextID (cm_ruleType m) + 1 /\
      ((tg_RuleType src = [] /\ ruleType = 0) \/ nameToID rt !! tg_RuleType src = Some ruleType))
    as (ruleType & rt & -> & Hrt & Ert & Brt & Hrule).
  { case_decide as Hne.
    - pose proof (ID_spec (tg_RuleType src) (cm_ruleType m) Hr) as H3. destruct (ID (tg_RuleType src) (cm_ruleType m)) as [i rt].
      destruct H3 as (? & ? & ? & _ & ?); [unfold room_for; lia|]. exists i, rt. split_and!; auto.
    - exists 0, (cm_ruleType m). split_and!; [done|done|reflexivity|lia|by left]. }
  pose proof (IDs_spec (tg_Tags src) (cm_tag m) Hg) as H4. destruct (IDs (tg_Tags src) (cm_tag m)) as [tags tag].
  destruct H4 as (Hg1 & Eg1 & Htags & Bg1); [unfold room_for; fold g; lia|]. fold g in Bg1.
  assert (zlen (attr_range (tg_Attributes src)) = a) as Hlen.
  { unfold zlen. rewrite attr_range_perm, length_map_to_list. done. }
  pose proof (transpose_attrs_spec (attr_range (tg_Attributes src)) (cm_attrName m) (cm_attrVal m) ∅ ∅ Hn Hv) as H5.
  rewrite Hlen in H5. unfold room_for in H5. specialize (H5 ltac:(lia) ltac:(lia)).
  destruct (transpose_attrs (attr_range (tg_Attributes src)) (cm_attrName m) (cm_attrVal m) ∅) as [[attrs an] av].
  destruct H5 as (Hn1 & Hv1 & En1 & Ev1 & Bn1 & Bv1 & Hrep).
  { split; intros ? ? H; by rewrite lookup_empty in H. }
  { rewrite attr_range_perm. apply NoDup_fst_map_to_list. }
  { intros; apply lookup_empty. }
  assert (list_to_map (attr_range (tg_Attributes src)) ∪ ∅ = tg_Attributes src) as E.
  { rewrite (right_id_L ∅ (∪)). transitivity (list_to_map (map_to_list (tg_Attributes src)) : gmap bytes bytes);
      [|apply list_to_map_to_list]. apply list_to_map_proper; [|done]. rewrite attr_range_perm. apply NoDup_fst_map_to_list. }
  rewrite E in Hrep. split.
  - split; [by split|]. split; [split; cbn; first [done|etrans; [exact Et1|exact Et2]]|].
    intros r [? ? ? ? ?]. unfold room_for in *. split; unfold room_for; cbn; lia.
  - intros mf [Ft Fr Fg Fn Fv] [Xt Xr Xg Xn Xv]. cbn in *.
    pose proof (resolve_attrs _ _ _ _ (mappers_metadata mf)
      {| ot_ID := id; ot_Hash := tg_Hash src; ot_DirectDependencies := deps; ot_RuleType := ruleType; ot_Tags := tags;
         ot_Root := tg_Root src; ot_External := tg_External src; ot_Attributes := attrs |} Fn Fv
      (attrs_rep_extends _ _ _ _ _ _ Xn Xv Hrep) Na eq_refl eq_refl eq_refl) as Ea.
    unfold resolve, diff_target in *. cbn in *. rewrite Ea. destruct src as [sn sh sr sd st sa so se]. cbn in *. f_equal.
    + apply name_of_Invert; [done|]. eapply lookup_weaken; [exact Hid|]. by etrans.
    + destruct Hrule as [[-> ->]|Hrule]; [by apply name_of_zero|]. apply name_of_Invert; [done|].
      eapply lookup_weaken; [exact Hrule|done].
    + apply names_of_Invert; [done|done|]. eapply Forall2_impl; [exact Hdeps|]. intros n i Hi. eapply lookup_weaken; [exact Hi|done].
    + apply names_of_Invert; [done|done|]. eapply Forall2_impl; [exact Htags|]. intros n i Hi. eapply lookup_weaken; [exact Hi|done].
Qed.

Lemma mappers_step_refl m : mappers_ok m -> mappers_step 0 m m.
Proof. intros H. split; [done|]. split; [reflexivity|]. by intros r. Qed.

Lemma mappers_step_trans k k' m m' m'' :
  mappers_step k m m' -> mappers_step k' m' m'' -> mappers_step (k + k') m m''.
Proof.
  intros (_ & E1 & R1) (O2 & E2 & R2). split; [done|]. split; [by etrans|]. intros r Hr. apply R2, R1.
  by rewrite Z.add_assoc.
Qed.

Lemma mappers_room_mono k k' m : k' <= k -> mappers_room k m -> mappers_room k' m.
Proof. intros Hk [? ? ? ? ?]. unfold room_for in *. split; unfold room_for; lia. Qed.

Definition side_load (t : option Target) : Z := match t with Some t => target_load t | None => 0 end.

Lemma target_load_nonneg t : 0 <= target_load t.
Proof. unfold target_load. pose proof (zlen_nonneg (tg_Dependencies t)). pose proof (zlen_nonneg (tg_Tags t)). lia. Qed.

Lemma side_load_nonneg t : 0 <= side_load t.
Proof. destruct t; [apply target_load_nonneg|done]. Qed.

Lemma transpose_spec src m :
  mappers_ok m -> mappers_room (side_load src) m -> from_option target_named True src ->
  let '(dst, m') := transpose attr_range src m in
  mappers_step (side_load src) m m' /\
  forall mf, mappers_ok mf -> mappers_extend m' mf -> (resolve (mappers_metadata mf) <$> dst) = src.
Proof.
  intros Hok Hroom Hn. destruct src as [src|]; cbn [transpose].
  - pose proof (transpose_target_spec src m Hok Hroom Hn) as H.
    destruct (transpose_target attr_range src m) as [dst m']. destruct H as [Hstep H]. split; [done|].
    intros mf Hmf Hext. cbn. f_equal. by apply H.
  - split; [by apply mappers_step_refl|done].
Qed.

Definition change_named (c : ChangedTarget) : Prop :=
  from_option target_named True (td_Before c) /\ from_option target_named True (td_After c).

Lemma transpose_changes_spec l m :
  mappers_ok m -> mappers_room (result_load l) m -> Forall change_named l ->
  let '(cs, m') := transpose_changes attr_range l m in
  mappers_step (result_load l) m m' /\
  forall mf, mappers_ok mf -> mappers_extend m' mf -> Forall2 (stands_for (mappers_metadata mf)) cs l.
Proof.
  revert m. induction l as [|c l IH]; intros m Hok Hroom HF; cbn [transpose_changes].
  { split; [by apply mappers_step_refl|constructor]. }
  apply Forall_cons in HF as [[Hb Ha] HF].
  change (result_load (c :: l)) with (side_load (td_Before c) + side_load (td_After c) + result_load l) in *.
  pose proof (side_load_nonneg (td_Before c)) as Pb. pose proof (side_load_nonneg (td_After c)) as Pa.
  assert (0 <= result_load l) as Pl.
  { clear. induction l as [|c l IH]; [done|]. change (result_load (c :: l)) with (change_load c + result_load l).
    pose proof (side_load_nonneg (td_Before c)). pose proof (side_load_nonneg (td_After c)).
    change (change_load c) with (side_load (td_Before c) + side_load (td_After c)). lia. }
  pose proof (transpose_spec (td_Before c) m Hok) as H1. destruct (transpose attr_range (td_Before c) m) as [old m1].
  destruct H1 as [S1 R1]; [eapply mappers_room_mono; [|exact Hroom]; lia|done|].
  destruct S1 as (Hok1 & E1 & Room1).
  assert (mappers_room (side_load (td_After c) + result_load l) m1) as Hroom1 by (apply Room1; by rewrite Z.add_assoc).
  pose proof (transpose_spec (td_After c) m1 Hok1) as H2. destruct (transpose attr_range (td_After c) m1) as [new m2].
  destruct H2 as [S2 R2]; [eapply mappers_room_mono; [|exact Hroom1]; lia|done|].
  destruct S2 as (Hok2 & E2 & Room2). specialize (IH m2 Hok2 (Room2 _ Hroom1) HF).
  destruct (transpose_changes attr_range l m2) as [cs m']. destruct IH as [S3 R3]. split.
  - apply (mappers_step_trans _ _ _ m2); [|exact S3]. apply (mappers_step_trans _ _ _ m1); by split.
  - intros mf Hmf Hext. constructor; [|by apply R3]. destruct S3 as (_ & E3 & _). unfold stands_for. cbn.
    split; [done|]. split; [done|]. split; [apply R1; [done|]; etrans; [exact E2|]; etrans; [exact E3|exact Hext]|].
    apply R2; [done|]. etrans; [exact E3|exact Hext].
Qed.

Context (range : gmap Z bytes -> list (Z * bytes)).
Context (range_perm : forall m, range m ≡ₚ map_to_list m).

Lemma resultToResponses_spec maxMessageBytes result :
  Forall change_named result -> result_load result < 2^31 - 1 ->
  exists rs, resultToResponses attr_range id_range range maxMessageBytes result = Ok rs /\
    Forall2 (stands_for (response_metadata rs)) (response_changes rs) result.
Proof.
  intros HF Hload. unfold resultToResponses.
  pose proof (transpose_changes_spec result newCanonicalMappers) as H.
  destruct (transpose_changes attr_range result newCanonicalMappers) as [cs m].
  destruct H as [(Hok & _) Hst].
  { split; apply NewMapper_ok. }
  { split; unfold room_for; cbn; lia. }
  { done. }
  specialize (Hst m Hok ltac:(reflexivity)).
  destruct (SplitBySize_total ChangedTarget_Size maxMessageBytes cs) as (groups & -> & _ & Hgroups).
  cbn [mbind res_bind].
  destruct (split_metadata_merge range range_perm (mappers_metadata m) maxMessageBytes) as (m0 & metas & E & Hmeta & _).
  unfold split_metadata in E. cbn [TargetIDMapping RuleTypeMapping TagMapping AttributeNameMapping
    AttributeStringValueMapping mappers_metadata] in E. rewrite E. cbn [mbind res_bind].
  eexists. split; [done|].
  assert (response_metadata ((changes_response <$> groups) ++ (metadata_response <$> m0 :: metas)) = mappers_metadata m) as ->.
  { transitivity (set_file_hashes ∅ (mappers_metadata m)); [|done]. rewrite <- Hmeta. unfold response_metadata.
    rewrite foldl_app. clear. assert (forall acc, foldl (fun acc r => match rs_Metadata r with
      | Some m => merge_metadata acc m | None => acc end) acc (changes_response <$> groups) = acc) as ->.
    { induction groups as [|g groups IH]; intros acc; [done|apply IH]. }
    generalize empty_metadata. generalize (m0 :: metas). intros l. induction l as [|x l IH]; intros acc; [done|apply IH]. }
  assert (response_changes ((changes_response <$> groups) ++ (metadata_response <$> m0 :: metas)) = cs) as ->; [|done].
  rewrite <- Hgroups. unfold response_changes. rewrite fmap_app, concat_app. clear.
  assert (forall l, concat (rs_ChangedTargets <$> (metadata_response <$> l)) = []) as ->.
  { induction l as [|x l IH]; [done|exact IH]. }
  rewrite app_nil_r. f_equal. induction groups as [|g groups IH]; [done|]. cbn. by f_equal.
Qed.
End transpose_spec.
End spec.
