(* ===== verification/CompareGraphs.v ===== *)
(** The comparison paths of the controller ([compareTargetGraphs],
    [compareTargetGraphsTGB], [allTargetsChangedFromGraph], [allTargetsChangedFromTGB],
    [compareFetchedGraphs], [materializeChunks] of [controller/getchangedtargets.go])
    and the chunk view of a stored blob ([TGBGraphReader] of
    [core/storage/tgbgraph.go]). *)
From Stdlib Require Import ZArith Lia.
From stdpp Require Import gmap fin_maps.
From S2P Require Import Prelude Bfs Entity TargetDiff IdMapper Streaming Chunks DiffGraph Responses GraphReader TgbDiff TgbCompare TgbResult TgbAgree TgbAdapt.

Local Open Scope Z_scope.

(** * The chunk view of a blob *)

(** The methods of a [*tgb.Reader] that the controller and the storage layer call. *)
Record TGB := {
  tgb_reader : GraphReader;
  tgb_hashes : res (gmap bytes bytes);
  tgb_decode : res Entity.Graph;
}.

Record TGBGraphReader := {
  tr_r : TGB;
  tr_maxBytes : Z;
  tr_chunks : list GraphChunk;
  tr_built : bool;
  tr_next : Z;
}.

(** The state [NewTGBGraphReader] returns for an opened blob. *)
Definition open_reader (r : TGB) (maxBytes : Z) : TGBGraphReader :=
  {| tr_r := r; tr_maxBytes := maxBytes; tr_chunks := []; tr_built := false; tr_next := 0 |}.

Section reader.
(** Go visits the entries of a map in an order of its own. *)
Context (range : gmap Z bytes -> list (Z * bytes)).

Definition build (g : TGBGraphReader) : res TGBGraphReader :=
  graph ← tgb_decode (tr_r g);
  chunks ← rechunk range graph (tr_maxBytes g);
  Ok {| tr_r := tr_r g; tr_maxBytes := tr_maxBytes g; tr_chunks := chunks; tr_built := true; tr_next := tr_next g |}.

(** [None] is [io.EOF]. *)
Definition Read (g : TGBGraphReader) : res (option GraphChunk * TGBGraphReader) :=
  g ← (if tr_built g then Ok g else build g);
  if decide (zlen (tr_chunks g) <= tr_next g) then Ok (None, g)
  else
    chunk ← index (tr_chunks g) (tr_next g);
    Ok (Some chunk, {| tr_r := tr_r g; tr_maxBytes := tr_maxBytes g; tr_chunks := tr_chunks g;
                       tr_built := tr_built g; tr_next := tr_next g + 1 |}).

Definition Close (g : TGBGraphReader) : TGBGraphReader :=
  {| tr_r := tr_r g; tr_maxBytes := tr_maxBytes g; tr_chunks := []; tr_built := tr_built g; tr_next := tr_next g |}.

(** [fetchedGraph] *)
Record fetchedGraph := { fg_tgb : option TGBGraphReader; fg_chunks : list GraphChunk }.

(** The loop of [materializeChunks]; [None] when the fuel runs out. *)
Fixpoint read_loop (fuel : nat) (g : TGBGraphReader) (chunks : list GraphChunk) : option (res (list GraphChunk)) :=
  match fuel with
  | O => None
  | S fuel =>
      match Read g with
      | Ok (Some chunk, g) => read_loop fuel g (chunks ++ [chunk])
      | Ok (None, _) => Some (Ok chunks)
      | Err e => Some (Err e)
      | Panic => Some Panic
      end
  end.

Definition materializeChunks (fuel : nat) (f : fetchedGraph) : option (res (list GraphChunk)) :=
  match fg_tgb f with
  | None => Some (Ok (fg_chunks f))
  | Some g => read_loop fuel g []
  end.

(** ** It terminates with the chunks of the decoded graph *)

Lemma read_loop_built fuel g acc :
  tr_built g = true -> 0 <= tr_next g <= zlen (tr_chunks g) -> zlen (tr_chunks g) - tr_next g < Z.of_nat fuel ->
  read_loop fuel g acc = Some (Ok (acc ++ drop (Z.to_nat (tr_next g)) (tr_chunks g))).
Proof.
  revert g acc. induction fuel as [|fuel IH]; intros g acc Hb Hn Hf; cbn [read_loop].
  { exfalso. lia. }
  unfold Read. rewrite Hb. cbn [mbind res_bind]. case_decide as Hd.
  { rewrite drop_ge, app_nil_r by (unfold zlen in *; lia). done. }
  destruct (tr_chunks g !! Z.to_nat (tr_next g)) as [c|] eqn:E; [|apply lookup_ge_None in E; unfold zlen in *; lia].
  assert (index (tr_chunks g) (tr_next g) = Ok c) as ->.
  { unfold index, at_. rewrite decide_True by (unfold zlen in *; lia). by rewrite E. }
  cbn [mbind res_bind]. rewrite IH; cbn; [|done|lia|lia]. rewrite <- app_assoc. do 2 f_equal.
  rewrite (drop_S _ _ _ E). cbn. do 2 f_equal. replace (Z.to_nat (tr_next g + 1)) with (S (Z.to_nat (tr_next g))) by lia. done.
Qed.

Lemma materialize_blob r maxBytes :
  exists fuel, materializeChunks fuel {| fg_tgb := Some (open_reader r maxBytes); fg_chunks := [] |} =
    Some (graph ← tgb_decode r; rechunk range graph maxBytes).
Proof.
  unfold materializeChunks. cbn [fg_tgb]. destruct (tgb_decode r) as [graph|e|] eqn:Ed; cbn [mbind res_bind].
  2,3: exists 1%nat; cbn; unfold Read; cbn; unfold build; cbn; rewrite Ed; done.
  destruct (rechunk range graph maxBytes) as [chunks|e|] eqn:Ec.
  2,3: exists 1%nat; cbn; unfold Read; cbn; unfold build; cbn; rewrite Ed; cbn; rewrite Ec; done.
  set (g := {| tr_r := r; tr_maxBytes := maxBytes; tr_chunks := chunks; tr_built := true; tr_next := 0 |}).
  exists (S (length chunks)). transitivity (read_loop (S (length chunks)) g []).
  - cbn [read_loop]. assert (Read (open_reader r maxBytes) = Read g) as ->; [|done].
    unfold Read. cbn. unfold build. cbn. rewrite Ed. cbn. by rewrite Ec.
  - by rewrite read_loop_built by (cbn; unfold zlen; lia).
Qed.
End reader.

(** * The comparison paths *)

(** The places that poll the context. *)
Inductive csite :=
  | MergeFirst | MergeSecond | DiffBefore | DiffAfter | AllTargets (after : bool)
  | Comparing (s : site) | ComparingBlobs (p : phase) | BeforeResponses.

(** What Go leaves open: the orders of maps, and of equal elements in unstable sorts. *)
Record Orders := {
  o_ids : gmap Z Z -> list (Z * Z);
  o_targets : gmap Z OptimizedTarget -> list (Z * OptimizedTarget);
  o_graph : Graph -> list (bytes * Target);
  o_sites : forall A, site -> gmap bytes A -> list (bytes * A);
  o_attrs : gmap bytes bytes -> list (bytes * bytes);
  o_names : gmap bytes Z -> list (bytes * Z);
  o_strings : gmap Z bytes -> list (Z * bytes);
  o_sort_pairs : list matchedPair -> list matchedPair;
  o_sort_labels : list LabelChange -> list LabelChange;
}.

Record orders_ok (o : Orders) : Prop := {
  oo_ids : forall m, o_ids o m ≡ₚ map_to_list m;
  oo_targets : forall m, o_targets o m ≡ₚ map_to_list m;
  oo_graph : forall m, o_graph o m ≡ₚ map_to_list m;
  oo_sites : forall A s (m : gmap bytes A), o_sites o A s m ≡ₚ map_to_list m;
  oo_attrs : forall m, o_attrs o m ≡ₚ map_to_list m;
  oo_names : forall m, o_names o m ≡ₚ map_to_list m;
  oo_strings : forall m, o_strings o m ≡ₚ map_to_list m;
  oo_sort_pairs : forall l, o_sort_pairs o l ≡ₚ l;
  oo_sort_labels : forall l, o_sort_labels o l ≡ₚ l /\
    StronglySorted (fun x y => bcompare (lc_Label x) (lc_Label y) <> Gt) (o_sort_labels o l);
}.

Section compare.
Context (o : Orders) (ctx : csite -> Z -> bool) (maxMessageBytes : Z).

Definition responses (result : list ChangedTarget) : res (list Response) :=
  resultToResponses (o_attrs o) (o_names o) (o_strings o) maxMessageBytes result.

Definition allTargetsChangedFromGraph (beforeTargetsByID : gmap Z OptimizedTarget) (beforeMeta : Metadata)
  (afterTargetsByID : gmap Z OptimizedTarget) (afterMeta : Metadata) : res (list Response) :=
  before ← toDiffGraph (o_ids o) beforeMeta None (ctx DiffBefore) (o_targets o) beforeTargetsByID;
  after ← toDiffGraph (o_ids o) afterMeta None (ctx DiffAfter) (o_targets o) afterTargetsByID;
  result ← allTargetsChanged (o_graph o) (fun b => ctx (AllTargets b)) before after;
  responses result.

Definition compareTargetGraphs (firstGraph secondGraph : list GraphChunk) (seedAttrs : option (gset bytes)) :
  res (list Response) :=
  '(firstTargetsByID, firstMetadata) ← getTargetsAndMetadata (ctx MergeFirst) firstGraph;
  '(secondTargetsByID, secondMetadata) ← getTargetsAndMetadata (ctx MergeSecond) secondGraph;
  if allTargetsFileChanged firstMetadata secondMetadata then
    allTargetsChangedFromGraph firstTargetsByID firstMetadata secondTargetsByID secondMetadata
  else
    before ← toDiffGraph (o_ids o) firstMetadata seedAttrs (ctx DiffBefore) (o_targets o) firstTargetsByID;
    after ← toDiffGraph (o_ids o) secondMetadata seedAttrs (ctx DiffAfter) (o_targets o) secondTargetsByID;
    result ← Compare (o_sites o) (fun s => ctx (Comparing s)) {| Before := before; After := after; MaxDistance := -1 |};
    _ ← guard_err (ctx BeforeResponses 0) cancelled_err;
    responses result.

Definition compareTargetGraphsTGB (before after : GraphReader) (seedAttrs : option (gset bytes)) : res (list Response) :=
  r ← compareInternal (o_sort_pairs o) (o_sort_labels o) (fun p => ctx (ComparingBlobs p)) before after
        {| opt_MaxDistance := -1; opt_SeedAttrs := seedAttrs |};
  result ← Materialize before after r seedAttrs;
  _ ← guard_err (ctx BeforeResponses 0) cancelled_err;
  responses result.

Definition targets_by_id (ts : list OptimizedTarget) : gmap Z OptimizedTarget :=
  foldl (fun m t => <[ot_ID t := t]> m) ∅ ts.

Definition allTargetsChangedFromTGB (beforeReader afterReader : TGB) : res (list Response) :=
  beforeGraph ← tgb_decode beforeReader;
  afterGraph ← tgb_decode afterReader;
  allTargetsChangedFromGraph (targets_by_id (Targets beforeGraph)) (Meta beforeGraph)
    (targets_by_id (Targets afterGraph)) (Meta afterGraph).

(** [None] when the fuel for reading chunks runs out. *)
Definition compareFetchedGraphs (fuel : nat) (first second : fetchedGraph) (seedAttrs : option (gset bytes)) :
  option (res (list Response)) :=
  match fg_tgb first, fg_tgb second with
  | Some first, Some second =>
      Some (firstATFH ← tgb_hashes (tr_r first);
            secondATFH ← tgb_hashes (tr_r second);
            if allTargetsFileChanged (set_file_hashes firstATFH empty_metadata) (set_file_hashes secondATFH empty_metadata)
            then allTargetsChangedFromTGB (tr_r first) (tr_r second)
            else compareTargetGraphsTGB (tgb_reader (tr_r first)) (tgb_reader (tr_r second)) seedAttrs)
  | _, _ =>
      match materializeChunks (o_strings o) fuel first, materializeChunks (o_strings o) fuel second with
      | Some firstChunks, Some secondChunks =>
          Some (firstChunks ← firstChunks; secondChunks ← secondChunks;
                compareTargetGraphs firstChunks secondChunks seedAttrs)
      | _, _ => None
      end
  end.
End compare.

(** * Bounds on the names of a result *)

Definition sum_of {A} (f : A -> Z) (l : list A) : Z := foldr (fun x s => f x + s) 0 l.

Lemma sum_of_perm {A} (f : A -> Z) l l' : l ≡ₚ l' -> sum_of f l = sum_of f l'.
Proof. unfold sum_of. induction 1; cbn; lia. Qed.

(** Elements with distinct keys, each bounded by an element with its key. *)
Lemma sum_of_le {A B K} (f : A -> Z) (g : B -> Z) (key : A -> K) (key' : B -> K) (l : list A) (k : list B) :
  NoDup (key <$> l) -> (forall y, 0 <= g y) ->
  (forall x, x ∈ l -> exists y, y ∈ k /\ key' y = key x /\ f x <= g y) ->
  sum_of f l <= sum_of g k.
Proof.
  intros Hnd Hg. revert k. induction l as [|x l IH]; intros k Hk.
  { cbn. induction k as [|y k IHk]; cbn; [lia|]. specialize (Hg y).
    assert (0 <= sum_of g k) as H by (apply IHk; intros x Hx; by apply elem_of_nil in Hx). unfold sum_of in *. lia. }
  cbn in Hnd. apply NoDup_cons in Hnd as [Hx Hnd]. destruct (Hk x) as (y & Hy & Ey & Hle); [by left|].
  apply list_elem_of_split in Hy as (k1 & k2 & ->).
  rewrite (sum_of_perm g _ (y :: k1 ++ k2)) by (symmetry; apply Permutation_middle).
  assert (sum_of f l <= sum_of g (k1 ++ k2)) as H.
  { apply IH; [done|]. intros x' Hx'. destruct (Hk x') as (y' & Hy' & Ey' & Hle'); [by right|]. exists y'.
    split; [|done]. apply elem_of_app in Hy' as [Hy'|Hy']; [apply elem_of_app; by left|].
    apply elem_of_cons in Hy' as [->|Hy']; [|apply elem_of_app; by right].
    exfalso. apply Hx. rewrite <- Ey, Ey'. by apply list_elem_of_fmap_2. }
  unfold sum_of in *. cbn. lia.
Qed.

(** The names of one target of a stream. *)
Definition opt_load (t : OptimizedTarget) : Z :=
  1 + zlen (ot_DirectDependencies t) + zlen (ot_Tags t) + Z.of_nat (size (ot_Attributes t)).

Definition stream_load (chunks : list GraphChunk) : Z := sum_of opt_load (all_targets chunks).

(** * What the chunk path reports *)

Section spec.
Context (o : Orders) (Ho : orders_ok o).

(** The semantic graph of a stream. *)
Definition stream_graph (seedAttrs : option (gset bytes)) (chunks : list GraphChunk) (g : Graph) : Prop :=
  diff_graph_ok (o_ids o) (all_metadata chunks) seedAttrs (last_targets (all_targets chunks)) g.

(** The targets of a stream have distinct names. *)
Definition stream_named (chunks : list GraphChunk) : Prop :=
  unique_names (TargetIDMapping (all_metadata chunks)) (last_targets (all_targets chunks)).

Definition same_hashes (first second : list GraphChunk) : Prop :=
  AllTargetsFileHashes (all_metadata first) = AllTargetsFileHashes (all_metadata second).

(** The changes of two streams: those of the comparison, or all targets when the
    watched files differ. *)
Definition reported (seedAttrs : option (gset bytes)) (first second : list GraphChunk) (result : list ChangedTarget) : Prop :=
  exists before after m, result ≡ₚ (map_to_list m).*2 /\
    ((same_hashes first second /\ stream_graph seedAttrs first before /\ stream_graph seedAttrs second after /\
        changes_ok before after (-1) m) \/
     (~ same_hashes first second /\ stream_graph None first before /\ stream_graph None second after /\
        m = all_changes before after)).

Lemma names_of_nonempty m ids : [] ∉ names_of m ids.
Proof. unfold names_of. rewrite list_elem_of_filter. naive_solver. Qed.

Lemma names_of_length m ids : zlen (names_of m ids) <= zlen ids.
Proof. unfold names_of, zlen. pose proof (length_filter (fun n => n <> []) (name_of m <$> ids)) as H. rewrite length_fmap in H. lia. Qed.

Lemma insert_all_size {A K V} `{Countable K} (f : A -> option (K * V)) out l :
  (size (insert_all f out l) <= size out + length l)%nat.
Proof.
  revert out. induction l as [|x l IH]; intros out; cbn; [lia|]. specialize (IH (match f x with
    | Some kv => <[kv.1 := kv.2]> out | None => out end)). unfold insert_all in *.
  assert (size (match f x with Some kv => <[kv.1 := kv.2]> out | None => out end) <= S (size out))%nat; [|lia].
  destruct (f x) as [[k v]|]; [|lia]. cbn. rewrite map_size_insert. destruct (out !! k); cbn; lia.
Qed.

Lemma diff_target_named meta seedAttrs name t : name <> [] -> target_named (diff_target (o_ids o) meta seedAttrs name t).
Proof.
  intros Hn. split; [done|]. split; [apply names_of_nonempty|]. split; [apply names_of_nonempty|].
  cbn [tg_Attributes diff_target]. rewrite attr_step_insert_all.
  destruct (insert_all _ ∅ _ !! []) as [v|] eqn:E; [|done]. exfalso.
  apply insert_all_some in E as [([k w] & _ & (_ & Hs & _)%attr_entry_Some)|E]; [done|]. by rewrite lookup_empty in E.
Qed.

Lemma diff_target_load meta seedAttrs name t :
  target_load (diff_target (o_ids o) meta seedAttrs name t) <= opt_load t.
Proof.
  unfold target_load, opt_load, diff_target. cbn [tg_Dependencies tg_Tags tg_Attributes].
  pose proof (names_of_length (TargetIDMapping meta) (ot_DirectDependencies t)).
  pose proof (names_of_length (TagMapping meta) (ot_Tags t)).
  rewrite attr_step_insert_all. pose proof (insert_all_size (attr_entry meta seedAttrs) ∅ (o_ids o (ot_Attributes t))) as H1.
  pose proof (Permutation_length (oo_ids o Ho (ot_Attributes t))) as H2. rewrite length_map_to_list in H2.
  rewrite map_size_empty in H1. lia.
Qed.

(** The targets of one side of a result. *)
Definition side_targets (side : ChangedTarget -> option Target) (result : list ChangedTarget) : list Target :=
  omap side result.

Lemma result_load_sides result :
  result_load result = sum_of target_load (side_targets td_Before result) + sum_of target_load (side_targets td_After result).
Proof.
  induction result as [|c l IH]; [done|]. change (result_load (c :: l)) with (change_load c + result_load l).
  rewrite IH. unfold change_load, side_targets, sum_of. cbn. destruct (td_Before c), (td_After c); cbn; lia.
Qed.

(** One entry per name, each side the target of the name. *)
Definition sides_of (before after : Graph) (m : gmap bytes ChangedTarget) : Prop :=
  forall n c, m !! n = Some c ->
    (forall b, td_Before c = Some b -> before !! n = Some b) /\ (forall a, td_After c = Some a -> after !! n = Some a).

Lemma side_names (side : ChangedTarget -> option Target) (l : list (bytes * ChangedTarget)) :
  NoDup l.*1 -> (forall n c t, (n, c) ∈ l -> side c = Some t -> tg_Name t = n) ->
  NoDup (tg_Name <$> omap side l.*2).
Proof.
  intros Hnd Hside.
  enough (NoDup (tg_Name <$> omap side l.*2) /\ forall n, n ∈ (tg_Name <$> omap side l.*2) -> n ∈ l.*1) by tauto.
  induction l as [|[n c] l IH]; [by split; [constructor|]|].
  cbn in Hnd. apply NoDup_cons in Hnd as [Hn Hnd]. destruct IH as [IH1 IH2]; [done| |].
  { intros n' c' t Hin. apply Hside. by right. }
  cbn. destruct (side c) as [t|] eqn:E; cbn.
  - pose proof (Hside n c t ltac:(by left) E) as Et. split.
    + constructor; [|done]. rewrite Et. intros Hin. by apply Hn, IH2.
    + intros n' [->|Hin]%elem_of_cons; [rewrite Et; by left|right; by apply IH2].
  - split; [done|]. intros n' Hin. right. by apply IH2.
Qed.

Lemma side_load_le (seedAttrs : option (gset bytes)) (chunks : list GraphChunk) (g : Graph) (side : ChangedTarget -> option Target) (result : list ChangedTarget) (m : gmap bytes ChangedTarget) :
  stream_graph seedAttrs chunks g -> result ≡ₚ (map_to_list m).*2 ->
  (forall n c t, m !! n = Some c -> side c = Some t -> g !! n = Some t) ->
  sum_of target_load (side_targets side result) <= stream_load chunks /\
  Forall target_named (side_targets side result).
Proof.
  intros Hg Hr Hside.
  assert (forall t, t ∈ side_targets side result -> exists n, g !! n = Some t) as Hin.
  { intros t (c & Hc & E)%list_elem_of_omap. rewrite Hr in Hc. apply list_elem_of_fmap in Hc as ([n c'] & -> & Hc).
    apply elem_of_map_to_list in Hc. exists n. by eapply Hside. }
  split.
  - unfold stream_load. apply (sum_of_le _ _ tg_Name (fun t => name_of (TargetIDMapping (all_metadata chunks)) (ot_ID t))).
    + unfold side_targets. assert (omap side result ≡ₚ omap side (map_to_list m).*2) as -> by (by rewrite Hr).
      apply side_names; [apply NoDup_fst_map_to_list|]. intros n c t Hm%elem_of_map_to_list Ht.
      pose proof (Hside n c t Hm Ht) as Hgt. apply Hg in Hgt as (_ & id & s & _ & _ & ->). done.
    + intros t. unfold opt_load. pose proof (zlen_nonneg (ot_DirectDependencies t)). pose proof (zlen_nonneg (ot_Tags t)). lia.
    + intros t (n & Ht)%Hin. apply Hg in Ht as (_ & id & s & Hs & Hn & ->). apply last_targets_id in Hs as [<- Hs].
      exists s. split; [done|]. split; [done|]. apply diff_target_load.
  - apply Forall_forall. intros t (n & Ht)%Hin. apply Hg in Ht as (Hn & id & s & _ & _ & ->). by apply diff_target_named.
Qed.

Lemma result_named_small (first second : list GraphChunk) (seedAttrs : option (gset bytes)) (before after : Graph) (m : gmap bytes ChangedTarget) (result : list ChangedTarget) :
  stream_graph seedAttrs first before -> stream_graph seedAttrs second after ->
  result ≡ₚ (map_to_list m).*2 -> sides_of before after m ->
  result_load result <= stream_load first + stream_load second /\ Forall change_named result.
Proof.
  intros Hb Ha Hr Hm.
  destruct (side_load_le _ _ _ td_Before _ _ Hb Hr) as [L1 N1]; [intros n c t Hc; by apply (Hm n c Hc)|].
  destruct (side_load_le _ _ _ td_After _ _ Ha Hr) as [L2 N2]; [intros n c t Hc; by apply (Hm n c Hc)|].
  split; [rewrite result_load_sides; lia|]. rewrite Forall_forall in N1. rewrite Forall_forall in N2. apply Forall_forall. intros c Hc.
  assert (forall side t, side c = Some t -> t ∈ side_targets side result) as Hin.
  { intros side t Ht. apply list_elem_of_omap. by exists c. }
  split; [destruct (td_Before c) eqn:E|destruct (td_After c) eqn:E]; cbn; [|done| |done].
  - by apply N1, (Hin td_Before).
  - by apply N2, (Hin td_After).
Qed.

Lemma changes_sides before after d m : changes_ok before after d m -> sides_of before after m.
Proof.
  intros H n c Hc. specialize (H n). rewrite Hc in H. destruct H as (c0 & Hc0 & -> & _). unfold change_of in Hc0.
  destruct (before !! n) as [b|], (after !! n) as [a|]; try case_decide; try done; injection Hc0 as <-; cbn; naive_solver.
Qed.

Lemma all_changes_sides before after : sides_of before after (all_changes before after).
Proof.
  intros n c Hc. rewrite all_changes_lookup in Hc. unfold all_change in Hc.
  destruct (before !! n) as [b|], (after !! n) as [a|]; try done; injection Hc as <-; cbn; naive_solver.
Qed.

Lemma unless_done_site {A} (ctx : csite -> Z -> bool) {S} (f : S -> csite) (x : res A) (P : A -> Prop) :
  unless_done (fun s : S => ctx (f s)) x P -> unless_done ctx x P.
Proof. intros [[-> (s & i & H)]|H]; [left; split; [done|by exists (f s), i]|by right]. Qed.

Lemma unless_done_here {A} (ctx : csite -> Z -> bool) (s : csite) (x : res A) (P : A -> Prop) :
  unless_done (fun _ : unit => ctx s) x P -> unless_done ctx x P.
Proof. apply (unless_done_site ctx (fun _ => s)). Qed.

Lemma diff_stream (ctx : csite -> Z -> bool) s seedAttrs chunks : stream_named chunks ->
  unless_done ctx (toDiffGraph (o_ids o) (all_metadata chunks) seedAttrs (ctx s) (o_targets o) (last_targets (all_targets chunks)))
    (stream_graph seedAttrs chunks).
Proof.
  intros Hn. apply (unless_done_here ctx s). eapply unless_done_mono; [apply toDiffGraph_spec, Ho|].
  intros g (_ & _ & H). by apply H.
Qed.

Lemma stream_graph_size seedAttrs chunks g : stream_graph seedAttrs chunks g -> Z.of_nat (size g) <= stream_load chunks.
Proof.
  intros Hg. assert (Z.of_nat (size g) = sum_of (fun _ => 1) (map_to_list g)) as ->.
  { rewrite <- length_map_to_list. generalize (map_to_list g). intros l. induction l as [|x l IH]; [done|]. cbn in *.
    unfold sum_of in *. cbn. lia. }
  apply (sum_of_le _ _ fst (fun t => name_of (TargetIDMapping (all_metadata chunks)) (ot_ID t))).
  - apply NoDup_fst_map_to_list.
  - intros t. unfold opt_load. pose proof (zlen_nonneg (ot_DirectDependencies t)). pose proof (zlen_nonneg (ot_Tags t)). lia.
  - intros [n t] Hin%elem_of_map_to_list. apply Hg in Hin as (_ & id & s & Hs & Hn & _).
    apply last_targets_id in Hs as [<- Hs]. exists s. split; [done|]. split; [done|]. unfold opt_load.
    pose proof (zlen_nonneg (ot_DirectDependencies s)). pose proof (zlen_nonneg (ot_Tags s)). lia.
Qed.

Lemma responses_spec (maxMessageBytes : Z) (first second : list GraphChunk) (seedAttrs : option (gset bytes)) (before after : Graph)
    (m : gmap bytes ChangedTarget) (result : list ChangedTarget) :
  stream_graph seedAttrs first before -> stream_graph seedAttrs second after ->
  stream_load first + stream_load second < 2^31 - 1 -> result ≡ₚ (map_to_list m).*2 -> sides_of before after m ->
  exists rs, responses o maxMessageBytes result = Ok rs /\
    Forall2 (stands_for (response_metadata rs)) (response_changes rs) result.
Proof.
  intros Hb Ha Hload Hr Hm. destruct (result_named_small _ _ _ _ _ _ _ Hb Ha Hr Hm) as [Hl Hn].
  apply (resultToResponses_spec _ (oo_names o Ho) _ (oo_attrs o Ho) _ (oo_strings o Ho)); [done|lia].
Qed.

Lemma compareTargetGraphs_spec (ctx : csite -> Z -> bool) (maxMessageBytes : Z) (first second : list GraphChunk) (seedAttrs : option (gset bytes)) :
  stream_named first -> stream_named second -> stream_load first + stream_load second < 2^31 - 1 ->
  unless_done ctx (compareTargetGraphs o ctx maxMessageBytes first second seedAttrs) (fun rs =>
    exists result, reported seedAttrs first second result /\
      Forall2 (stands_for (response_metadata rs)) (response_changes rs) result).
Proof.
  intros Hn1 Hn2 Hload. unfold compareTargetGraphs.
  eapply unless_done_bind; [apply (unless_done_here ctx MergeFirst), merge_loop_spec|]. intros [t1 m1] [= -> ->].
  eapply unless_done_bind; [apply (unless_done_here ctx MergeSecond), merge_loop_spec|]. intros [t2 m2] [= -> ->].
  fold (all_metadata first). fold (all_metadata second). fold (last_targets (all_targets first)).
  fold (last_targets (all_targets second)). unfold allTargetsFileChanged. case_bool_decide as Hsame; cbn [negb].
  - eapply unless_done_bind; [by apply diff_stream|]. intros before Hb.
    eapply unless_done_bind; [by apply diff_stream|]. intros after Ha.
    pose proof (stream_graph_size _ _ _ Hb). pose proof (stream_graph_size _ _ _ Ha).
    eapply unless_done_bind.
    { apply (unless_done_site ctx Comparing), (Compare_spec _ _ (oo_sites o Ho)). lia. }
    intros result (m & Hr & Hm). eapply unless_done_bind; [apply unless_done_guard|]. intros _ _.
    destruct (responses_spec maxMessageBytes _ _ _ _ _ m result Hb Ha Hload Hr) as (rs & -> & Hrs); [by eapply changes_sides|].
    apply unless_done_ok. exists result. split; [|done]. exists before, after, m. split; [done|]. by left.
  - unfold allTargetsChangedFromGraph.
    eapply unless_done_bind; [by apply diff_stream|]. intros before Hb.
    eapply unless_done_bind; [by apply diff_stream|]. intros after Ha.
    eapply unless_done_bind.
    { apply (unless_done_site ctx AllTargets), (allTargetsChanged_spec _ _ _ _ (oo_graph o Ho)). }
    intros result Hr.
    destruct (responses_spec maxMessageBytes _ _ _ _ _ _ result Hb Ha Hload Hr) as (rs & -> & Hrs); [apply all_changes_sides|].
    apply unless_done_ok. exists result. split; [|done]. exists before, after, (all_changes before after). split; [done|]. by right.
Qed.
End spec.

(** * Properties *)

(** C8: Building messages from changes loses nothing.  For changes without empty names that
    refer to fewer than 2^31 - 1 names, whatever the message budget and the orders of
    maps, the messages exist, and a client that merges their metadata and resolves
    their IDs reads back the changes in order: type, distance, and on both sides name,
    hash, rule type, dependencies, tags and attributes. *)
Theorem responses_lossless (o : Orders) (maxMessageBytes : Z) (result : list ChangedTarget) :
  orders_ok o -> Forall change_named result -> result_load result < 2^31 - 1 ->
  exists rs, responses o maxMessageBytes result = Ok rs /\
    Forall2 (stands_for (response_metadata rs)) (response_changes rs) result.
Proof. intros Ho. apply (resultToResponses_spec _ (oo_names o Ho) _ (oo_attrs o Ho) _ (oo_strings o Ho)). Qed.

(** C7: The comparison of two chunk streams answers with the right changes.  For streams
    whose targets have distinct names, fewer than 2^31 - 1 in all, the messages stand
    for exactly the changes between the semantic graphs of the streams: those of the
    reference comparison when the watched files have equal hashes, and otherwise every
    target of either stream, as new, deleted or changed at distance 0; unless the
    context is found done. *)
Theorem compareTargetGraphs_correct (o : Orders) (ctx : csite -> Z -> bool) (maxMessageBytes : Z)
    (first second : list GraphChunk) (seedAttrs : option (gset bytes)) :
  orders_ok o -> stream_named first -> stream_named second -> stream_load first + stream_load second < 2^31 - 1 ->
  unless_done ctx (compareTargetGraphs o ctx maxMessageBytes first second seedAttrs) (fun rs =>
    exists result, reported o seedAttrs first second result /\
      Forall2 (stands_for (response_metadata rs)) (response_changes rs) result).
Proof. intros Ho. by apply compareTargetGraphs_spec. Qed.
