(* ===== verification/CompareSample.v ===== *)
(** Two small streams on which the theorems of [CompareGraphs] apply, and the comparison
    of a stored blob with a stream of the same graph. *)
From Stdlib Require Import ZArith Lia.
From stdpp Require Import gmap fin_maps.
From S2P Require Import Prelude Bfs Entity TargetDiff IdMapper Streaming Chunks DiffGraph Responses GraphReader TgbDiff TgbSample CompareGraphs.

Local Open Scope Z_scope.

(** Every loop over a map in the order of its keys. *)
Definition key_orders : Orders :=
  {| o_ids := map_to_list; o_targets := map_to_list; o_graph := map_to_list; o_sites := fun _ _ m => map_to_list m;
     o_attrs := map_to_list; o_names := map_to_list; o_strings := map_to_list; o_sort_pairs := id;
     o_sort_labels := sort_func by_label |}.

Lemma key_orders_ok : orders_ok key_orders.
Proof. split; cbn; try reflexivity. exact sort_by_label_ok. Qed.

Definition no_ctx : csite -> Z -> bool := fun _ _ => false.

(** A library with a source file; the file may change, with the library's hash. *)
Definition sample_stream (v file : string) : list GraphChunk :=
  [ target_chunk
      [ {| ot_ID := 1; ot_Hash := bs v; ot_DirectDependencies := [2; 9]; ot_RuleType := 1; ot_Tags := [1]; ot_Root := true;
           ot_External := false; ot_Attributes := {[ 1 := 1 ]} |} ];
    metadata_chunk
      {| TargetIDMapping := {[ 1 := bs "//a:lib" ]}; RuleTypeMapping := {[ 1 := bs "go_library"; 2 := bs "source file" ]};
         TagMapping := {[ 1 := bs "manual" ]}; AttributeNameMapping := {[ 1 := bs "size" ]};
         AttributeStringValueMapping := ∅; AllTargetsFileHashes := {[ bs "WORKSPACE" := bs file ]} |};
    target_chunk
      [ {| ot_ID := 2; ot_Hash := bs v; ot_DirectDependencies := []; ot_RuleType := 2; ot_Tags := []; ot_Root := false;
           ot_External := false; ot_Attributes := ∅ |} ];
    metadata_chunk
      {| TargetIDMapping := {[ 2 := bs "//a:lib.go" ]}; RuleTypeMapping := ∅; TagMapping := ∅; AttributeNameMapping := ∅;
         AttributeStringValueMapping := {[ 1 := bs "small" ]}; AllTargetsFileHashes := ∅ |} ].

(** What a client reads. *)
Definition read_changes (rs : list Response) : list (Z * bytes * Z) :=
  (fun e => (ct_ChangeType e,
             match ct_NewTarget e, ct_OldTarget e with
             | Some t, _ | None, Some t => tg_Name (resolve (response_metadata rs) t)
             | None, None => []
             end, ct_Distance e)) <$> response_changes rs.

Lemma responses_lossless_witness :
  exists rs, responses key_orders 20 [new_change (sample_target (bs "//a:lib") (bs "0a") (bs "go_library") [bs "//a:lib.go"]);
      deleted_change (sample_target (bs "//b:tool") (bs "0b") [] [])] = Ok rs /\
    read_changes rs = [(1, bs "//a:lib", 0); (2, bs "//b:tool", 0)] /\
    Forall2 (stands_for (response_metadata rs)) (response_changes rs)
      [new_change (sample_target (bs "//a:lib") (bs "0a") (bs "go_library") [bs "//a:lib.go"]);
       deleted_change (sample_target (bs "//b:tool") (bs "0b") [] [])].
Proof.
  destruct (responses_lossless key_orders 20
    [new_change (sample_target (bs "//a:lib") (bs "0a") (bs "go_library") [bs "//a:lib.go"]);
     deleted_change (sample_target (bs "//b:tool") (bs "0b") [] [])]) as (rs & E & H).
  - exact key_orders_ok.
  - repeat constructor; cbn; try discriminate; apply (bool_decide_unpack _); vm_compute; exact Logic.I.
  - reflexivity.
  - exists rs. split; [exact E|]. split; [|exact H]. vm_compute in E. injection E as <-. vm_compute. reflexivity.
Defined.

Lemma compareTargetGraphs_correct_witness :
  exists rs, compareTargetGraphs key_orders no_ctx 40 (sample_stream "0a" "ff") (sample_stream "0b" "ff") None = Ok rs /\
    read_changes rs = [(3, bs "//a:lib.go", 0); (3, bs "//a:lib", 0)] /\
    exists result, reported key_orders None (sample_stream "0a" "ff") (sample_stream "0b" "ff") result /\
      Forall2 (stands_for (response_metadata rs)) (response_changes rs) result.
Proof.
  destruct (compareTargetGraphs_correct key_orders no_ctx 40 (sample_stream "0a" "ff") (sample_stream "0b" "ff") None)
    as [[_ (s & i & H)]|(rs & E & H)].
  - exact key_orders_ok.
  - apply (bool_decide_unpack _). vm_compute. exact Logic.I.
  - apply (bool_decide_unpack _). vm_compute. exact Logic.I.
  - reflexivity.
  - discriminate H.
  - exists rs. split; [exact E|]. split; [|exact H]. vm_compute in E. injection E as <-. vm_compute. reflexivity.
Defined.

(** * A blob against a stream of the same graph *)

Definition same_graph : Entity.Graph := {| Targets := sample_targets; Meta := sample_meta |}.

Definition same_blob : fetchedGraph :=
  {| fg_tgb := Some (open_reader {| tgb_reader := mem_reader 2 [] [] []; tgb_hashes := Ok (AllTargetsFileHashes sample_meta);
                                    tgb_decode := Ok same_graph |} 1000); fg_chunks := [] |}.

Definition same_stream : fetchedGraph :=
  {| fg_tgb := None; fg_chunks := match graph_chunks map_to_list sample_targets sample_meta 1000 with
                                  | Ok chunks => chunks | _ => [] end |}.

(** A revision stored as a blob and the same revision fetched as a stream differ in
    everything.  The chunk view of a blob has lost the hashes of the watched files, so
    the comparison of the two takes them for changed and reports both targets of the
    graph; comparing the stream with itself reports none. *)
Theorem mixed_formats_report_everything :
  (exists rs, compareFetchedGraphs key_orders no_ctx 1000 9 same_blob same_stream None = Some (Ok rs) /\
     read_changes rs = [(3, bs "//b:b", 0); (3, bs "//a:a", 0)]) /\
  exists rs, compareFetchedGraphs key_orders no_ctx 1000 9 same_stream same_stream None = Some (Ok rs) /\
     read_changes rs = [].
Proof. split; (eexists; split; [vm_compute; reflexivity|vm_compute; reflexivity]). Qed.
