(* ===== verification/Race.v ===== *)
(** Two goroutines that report to one collector over a buffered channel: the shape of
    [fetchTargetGraphs] and [readTreehashParallel] in
    [controller/getchangedtargets.go], as a step relation. *)
From Stdlib Require Import ZArith Lia.
From stdpp Require Import relations list.
From S2P Require Import Prelude.

Local Open Scope nat_scope.

Section race.
(** Results, with the goroutine they come from ([false] is the first), and the state of
    the collector. *)
Context {R C : Type} (order : R -> bool).
(** What goroutine [i] reports when its context is never done, and what it may report
    instead once it is. *)
Context (natural : bool -> R) (induced : bool -> R -> Prop).
(** What the deferred calls of goroutine [i] send after its result, if anything. *)
Context (late : bool -> option R).
(** The collector: its start, its loop body, and the contexts it has cancelled. *)
Context (start : C) (collect : R -> C -> C) (cancels : C -> bool -> bool).

Record state := {
  st_parent : bool;        (** the caller's context is done *)
  st_running : list bool;  (** goroutines that have not reported *)
  st_closing : list bool;  (** goroutines in their deferred calls *)
  st_chan : list R;        (** the channel, with room for two results *)
  st_received : list R;    (** what the collector has received, in order *)
}.

Definition collector (received : list R) : C := foldl (fun c r => collect r c) start received.

(** The context of goroutine [i] is done. *)
Definition ctx_done (s : state) (i : bool) : Prop :=
  st_parent s = true \/ cancels (collector (st_received s)) i = true.

Definition init : state :=
  {| st_parent := false; st_running := [false; true]; st_closing := []; st_chan := []; st_received := [] |}.

(** The collector receives as many results as there are goroutines. *)
Definition finished (s : state) : Prop := length (st_received s) = 2.

Inductive step : state -> state -> Prop :=
  | step_disconnect s : st_parent s = false -> ~ finished s ->
      step s {| st_parent := true; st_running := st_running s; st_closing := st_closing s;
                st_chan := st_chan s; st_received := st_received s |}
  | step_report s i before after r :
      st_running s = before ++ i :: after -> (r = natural i \/ (ctx_done s i /\ induced i r)) ->
      length (st_chan s) < 2 ->
      step s {| st_parent := st_parent s; st_running := before ++ after; st_closing := i :: st_closing s;
                st_chan := st_chan s ++ [r]; st_received := st_received s |}
  | step_close s i before after :
      st_closing s = before ++ i :: after -> late i = None ->
      step s {| st_parent := st_parent s; st_running := st_running s; st_closing := before ++ after;
                st_chan := st_chan s; st_received := st_received s |}
  | step_late s i before after r :
      st_closing s = before ++ i :: after -> late i = Some r -> length (st_chan s) < 2 ->
      step s {| st_parent := st_parent s; st_running := st_running s; st_closing := before ++ after;
                st_chan := st_chan s ++ [r]; st_received := st_received s |}
  | step_receive s r rest :
      st_chan s = r :: rest -> ~ finished s ->
      step s {| st_parent := st_parent s; st_running := st_running s; st_closing := st_closing s;
                st_chan := rest; st_received := st_received s ++ [r] |}.

Definition reachable : state -> Prop := rtc step init.

(** ** Termination *)

(** Steps left: a disconnect, and for each goroutine a report, a close and two receives. *)
Definition weight (s : state) : nat :=
  (if st_parent s then 0 else 1) + 4 * length (st_running s) + 2 * length (st_closing s) + length (st_chan s).

Lemma step_weight s s' : step s s' -> weight s' < weight s.
Proof.
  unfold weight. destruct 1 as [s Hp|s i b a r E|s i b a E|s i b a r E|s r rest E]; cbn; try rewrite E;
    rewrite ?Hp, ?length_app; cbn; rewrite ?length_app; lia.
Qed.

(** Every run is finite. *)
Lemma step_terminates s : sn step s.
Proof.
  remember (weight s) as n eqn:E. revert s E. induction n as [n IH] using lt_wf_ind. intros s ->.
  constructor. intros s' H. eapply IH; [by apply step_weight|done].
Qed.

(** ** Without late results *)

Context (natural_order : forall i, order (natural i) = i) (induced_order : forall i r, induced i r -> order r = i).
Context (no_late : forall i, late i = None).

(** A result is natural, or was induced by the caller or by what the collector had
    received before. *)
Definition justified (parent : bool) (received : list R) (r : R) : Prop :=
  r = natural (order r) \/
  (induced (order r) r /\
   (parent = true \/ exists n, n <= length received /\ cancels (collector (take n received)) (order r) = true)).

Record run_ok (s : state) : Prop := {
  rk_each : st_running s ++ (order <$> st_chan s) ++ (order <$> st_received s) ≡ₚ [false; true];
  rk_chan : forall r, r ∈ st_chan s -> justified (st_parent s) (st_received s) r;
  rk_received : forall k r, st_received s !! k = Some r -> justified (st_parent s) (take k (st_received s)) r;
}.

Lemma justified_more parent parent' received more r :
  (parent = true -> parent' = true) -> justified parent received r -> justified parent' (received ++ more) r.
Proof.
  intros Hp [?|[Hi [?|(n & Hn & Hc)]]]; [by left|right; split; [done|]; left; by apply Hp|].
  right. split; [done|]. right. exists n. rewrite length_app. split; [lia|]. by rewrite take_app_le by lia.
Qed.

Lemma init_ok : run_ok init.
Proof. split; cbn; [done|intros r Hr; by apply elem_of_nil in Hr|done]. Qed.

Lemma step_ok s s' : step s s' -> run_ok s -> run_ok s'.
Proof.
  destruct 1 as [s Hp Hf|s i b a r E Hr Hl|s i b a E Hl|s i b a r E Hl Hc|s r rest E Hf]; intros [He Hc' Hrec].
  - split; cbn; [done| |].
    + intros r Hr. pose proof (justified_more _ true _ [] r (fun _ => eq_refl) (Hc' r Hr)) as H. by rewrite app_nil_r in H.
    + intros k r Hk. pose proof (justified_more _ true _ [] r (fun _ => eq_refl) (Hrec k r Hk)) as H. by rewrite app_nil_r in H.
  - assert (order r = i) as Ho by (destruct Hr as [->|[_ Hr]]; [apply natural_order|by apply induced_order]).
    split; cbn; [|intros r'|done].
    + rewrite <- He, E, fmap_app, <- !app_assoc. cbn. rewrite Ho. rewrite <- !Permutation_middle. solve_Permutation.
    + rewrite elem_of_app, list_elem_of_singleton. intros [Hr'| ->]; [by apply Hc'|].
      destruct Hr as [->|[Hd Hi]]; [left; by rewrite natural_order|]. right. rewrite Ho. split; [done|].
      destruct Hd as [Hd|Hd]; [by left|right]. exists (length (st_received s)). split; [done|]. by rewrite firstn_all.
  - split; cbn; done.
  - rewrite no_late in Hl. done.
  - split; cbn.
    + rewrite <- He, E, fmap_app. cbn. solve_Permutation.
    + intros r' Hr'. apply (justified_more (st_parent s)); [done|]. apply Hc'. rewrite E. by right.
    + intros k r' [Hk|[Hk Hr']]%lookup_app_Some.
      * rewrite take_app_le by (apply lookup_lt_Some in Hk; lia). by apply Hrec.
      * destruct (k - length (st_received s)) as [|m] eqn:Ek; [|by destruct m]. injection Hr' as <-.
        assert (k = length (st_received s)) as -> by lia. rewrite take_app_length. apply Hc'. rewrite E. by left.
Qed.

Lemma reachable_ok s : reachable s -> run_ok s.
Proof.
  unfold reachable. intros H. remember init as s0 eqn:E. assert (run_ok s0) as H0 by (subst; apply init_ok).
  clear E. induction H as [s|s s1 s2 Hs _ IH]; [done|]. by apply IH, (step_ok _ _ Hs).
Qed.

(** No reachable state is stuck before the collector is finished. *)
Lemma progress s : reachable s -> ~ finished s -> exists s', step s s'.
Proof.
  intros Hs Hf. destruct (reachable_ok s Hs) as [He _ _]. destruct (st_chan s) as [|r rest] eqn:Ec.
  - apply Permutation_length in He. rewrite !length_app, !length_fmap in He. cbn in He. unfold finished in Hf.
    destruct (st_running s) as [|i l] eqn:Er.
    + cbn in He. lia.
    + eexists. apply (step_report s i [] l (natural i)); [done|by left|rewrite Ec; cbn; lia].
  - eexists. by eapply step_receive.
Qed.

(** A finished collector has one result of each goroutine, and each is justified by what
    was received before it. *)
Lemma finished_results s : reachable s -> finished s ->
  exists r1 r2, st_received s = [r1; r2] /\ order r2 = negb (order r1) /\
    justified (st_parent s) [] r1 /\ justified (st_parent s) [r1] r2.
Proof.
  intros Hs Hf. destruct (reachable_ok s Hs) as [He _ Hrec]. unfold finished in Hf.
  destruct (st_received s) as [|r1 [|r2 [|]]] eqn:E; try done. exists r1, r2. split; [done|].
  assert (length (st_running s) = 0 /\ length (st_chan s) = 0) as [H1 H2].
  { apply Permutation_length in He. rewrite !length_app, !length_fmap in He. cbn in He. lia. }
  apply nil_length_inv in H1, H2. rewrite H1, H2 in He. cbn in He. split.
  - destruct (order r1), (order r2); try done; apply Permutation_sym in He;
      [pose proof (Permutation_in false He ltac:(by left)) as Hin|pose proof (Permutation_in true He ltac:(by right; left)) as Hin];
      cbn in Hin; naive_solver.
  - split; [apply (Hrec 0); done|apply (Hrec 1); done].
Qed.
End race.
