(* ===== verification/Fetch.v ===== *)
(** Fetching both revisions concurrently: [fetchTargetGraphs], [readTreehashParallel] and
    [readTreehash] of [controller/getchangedtargets.go]. *)
From Stdlib Require Import ZArith Lia.
From stdpp Require Import gmap relations list.
From S2P Require Import Prelude Entity Chunks Race CompareGraphs.

Local Open Scope Z_scope.

(** * The goroutines of [fetchTargetGraphs] *)

(** What [c.getGraph] and the reader it returns do in one goroutine. *)
Inductive outcome :=
  | GetFailed (e : string)
  | GetNil
  | GotTGB (r : TGBGraphReader)
  | GotStream (chunks : list GraphChunk) (err : option string)
  | Panicked (e : string).

Record graphResult := { gr_order : bool; gr_graph : fetchedGraph; gr_err : option string }.

Definition empty_graph : fetchedGraph := {| fg_tgb := None; fg_chunks := [] |}.

(** The loop that reads the chunks until [io.EOF] or an error. *)
Fixpoint drain (idx : bool) (chunks reads : list GraphChunk) (err : option string) : graphResult :=
  match reads with
  | chunk :: reads => drain idx (chunks ++ [chunk]) reads err
  | [] => match err with
          | None => {| gr_order := idx; gr_graph := {| fg_tgb := None; fg_chunks := chunks |}; gr_err := None |}
          | Some e => {| gr_order := idx; gr_graph := empty_graph; gr_err := Some e |}
          end
  end.

Definition report (idx : bool) (o : outcome) : graphResult :=
  match o with
  | GetFailed e => {| gr_order := idx; gr_graph := empty_graph; gr_err := Some e |}
  | GetNil => {| gr_order := idx; gr_graph := empty_graph; gr_err := None |}
  | GotTGB r => {| gr_order := idx; gr_graph := {| fg_tgb := Some r; fg_chunks := [] |}; gr_err := None |}
  | GotStream chunks err => drain idx [] chunks err
  | Panicked e => {| gr_order := idx; gr_graph := empty_graph; gr_err := Some ("panic in graph fetch: " +:+ e) |}
  end.

(** * The collector *)

Record job := { jb_graph : fetchedGraph; jb_err : option string; jb_cancelled : bool; jb_completed : bool }.

Definition new_job : job := {| jb_graph := empty_graph; jb_err := None; jb_cancelled := false; jb_completed := false |}.

(** [jobs[0]] and [jobs[1]] *)
Definition jobs := bool -> job.
Definition set_job (i : bool) (j : job) (js : jobs) : jobs := fun k => if decide (k = i) then j else js k.

(** No graph and no error is an error. *)
Definition job_err (r : graphResult) : option string :=
  match fg_chunks (gr_graph r), fg_tgb (gr_graph r), gr_err r with
  | [], None, None => Some "no chunks returned"%string
  | _, _, e => e
  end.

(** The body of the loop that waits for the results. *)
Definition on_result (r : graphResult) (js : jobs) : jobs :=
  let js := set_job (gr_order r) {| jb_graph := gr_graph r; jb_err := job_err r;
                                    jb_cancelled := jb_cancelled (js (gr_order r)); jb_completed := true |} js in
  match job_err r with
  | None => js
  | Some _ =>
      let other := negb (gr_order r) in
      if jb_completed (js other) then js
      else set_job other {| jb_graph := jb_graph (js other); jb_err := jb_err (js other); jb_cancelled := true;
                            jb_completed := jb_completed (js other) |} js
  end.

Inductive fetch_result :=
  | Fetched (first second : fetchedGraph)
  | Failed (errs : list (bool * string))  (** [errors.Join] of the errors of the graphs *)
  | CallerDone.

Definition own_error (js : jobs) (i : bool) : list (bool * string) :=
  match jb_err (js i) with
  | Some e => if jb_cancelled (js i) then [] else [(i, e)]
  | None => []
  end.

(** What [fetchTargetGraphs] returns after the loop. *)
Definition fetch_end (ctx_done : bool) (js : jobs) : fetch_result :=
  if ctx_done then CallerDone
  else match own_error js false ++ own_error js true with
       | [] => Fetched (jb_graph (js false)) (jb_graph (js true))
       | errs => Failed errs
       end.

(** ** Its runs *)

Section fetch.
(** What each fetch does when nothing cancels it, and what the deferred [Close] of its
    reader sends when it panics. *)
Context (outcomes : bool -> outcome) (close_panic : bool -> option string).

Definition fetch_natural (i : bool) : graphResult := report i (outcomes i).

(** A fetch whose context is done fails with some error, or succeeds all the same. *)
Definition fetch_induced (i : bool) (r : graphResult) : Prop := gr_order r = i /\ is_Some (gr_err r).

Definition fetch_late (i : bool) : option graphResult :=
  (fun e => {| gr_order := i; gr_graph := empty_graph; gr_err := Some ("panic in graph fetch: " +:+ e) |}) <$> close_panic i.

Definition fetch_cancels (js : jobs) (i : bool) : bool := jb_cancelled (js i).

Definition fetch_step := step fetch_natural fetch_induced fetch_late (fun _ => new_job) on_result fetch_cancels.

Definition fetchTargetGraphs (s : state) : fetch_result :=
  fetch_end (st_parent s) (collector (fun _ => new_job) on_result (st_received s)).

Lemma drain_spec i acc reads err : gr_order (drain i acc reads err) = i /\
  (gr_err (drain i acc reads err) = err) /\
  (err = None -> gr_graph (drain i acc reads err) = {| fg_tgb := None; fg_chunks := acc ++ reads |}).
Proof.
  revert acc. induction reads as [|c reads IH]; intros acc; cbn [drain].
  - destruct err; cbn; (split; [done|]; split; [done|]); [done|]. by rewrite app_nil_r.
  - destruct (IH (acc ++ [c])) as (? & ? & H). split; [done|]. split; [done|]. intros He. by rewrite (H He), <- app_assoc.
Qed.

Lemma natural_order i : gr_order (fetch_natural i) = i.
Proof. unfold fetch_natural, report. destruct (outcomes i); try done. apply drain_spec. Qed.

(** The failure of fetch [i], when nothing cancels it. *)
Definition natural_error (i : bool) : option string := job_err (fetch_natural i).

Lemma induced_error i r : fetch_induced i r -> is_Some (job_err r).
Proof. intros [_ [e He]]. unfold job_err. rewrite He. destruct (fg_chunks (gr_graph r)); [|by eexists]. destruct (fg_tgb (gr_graph r)); by eexists. Qed.

(** The jobs after both results. *)
Lemma two_results r1 r2 : gr_order r2 = negb (gr_order r1) ->
  forall js, js = on_result r2 (on_result r1 (fun _ => new_job)) ->
  js (gr_order r1) = {| jb_graph := gr_graph r1; jb_err := job_err r1; jb_cancelled := false; jb_completed := true |} /\
  js (gr_order r2) = {| jb_graph := gr_graph r2; jb_err := job_err r2;
                        jb_cancelled := bool_decide (is_Some (job_err r1)); jb_completed := true |}.
Proof.
  intros Ho js ->. unfold on_result. rewrite Ho.
  destruct (gr_order r1); destruct (job_err r1) eqn:E1; destruct (job_err r2) eqn:E2; split; reflexivity.
Qed.

Lemma fetch_finished s :
  (forall i, close_panic i = None) -> rtc fetch_step init s -> finished s -> st_parent s = false ->
  match natural_error false, natural_error true with
  | None, None => fetchTargetGraphs s = Fetched (gr_graph (fetch_natural false)) (gr_graph (fetch_natural true))
  | _, _ => exists errs, fetchTargetGraphs s = Failed errs /\ errs <> [] /\
              forall i e, (i, e) ∈ errs -> natural_error i = Some e
  end.
Proof.
  intros Hclose Hs Hf Hp.
  destruct (finished_results gr_order fetch_natural fetch_induced fetch_late (fun _ => new_job) on_result fetch_cancels
    natural_order (fun i r H => proj1 H)) with (s := s) as (r1 & r2 & E & Ho & J1 & J2); [|done|done|].
  { intros i. unfold fetch_late. by rewrite Hclose. }
  rewrite Hp in J1, J2. unfold fetchTargetGraphs. rewrite Hp, E. unfold fetch_end.
  assert (r1 = fetch_natural (gr_order r1)) as E1.
  { destruct J1 as [?|[_ [?|(n & Hn & Hc)]]]; [done|done|]. destruct n; [done|cbn in Hn; lia]. }
  assert (natural_error (gr_order r1) = job_err r1) as N1 by (unfold natural_error; by rewrite <- E1).
  assert (r2 = fetch_natural (gr_order r2) \/ (is_Some (job_err r1) /\ is_Some (job_err r2))) as J2'.
  { destruct J2 as [?|[Hi [?|(n & Hn & Hc)]]]; [by left|done|]. destruct (job_err r1) as [e|] eqn:Ee.
    - right. split; [by eexists|]. by eapply induced_error.
    - exfalso. destruct n as [|[|n]]; [done| |cbn in Hn; lia]. unfold collector, fetch_cancels in Hc. cbn in Hc.
      unfold on_result in Hc. rewrite Ee in Hc. unfold set_job in Hc. rewrite Ho in Hc.
      by destruct (gr_order r1). }
  change (collector (fun _ => new_job) on_result [r1; r2]) with (on_result r2 (on_result r1 (fun _ => new_job))).
  destruct (two_results r1 r2 Ho _ eq_refl) as [Ej1 Ej2]. set (js := on_result r2 (on_result r1 (fun _ => new_job))) in *.
  clearbody js. unfold own_error. destruct (job_err r1) as [e1|] eqn:Ee1.
  - (* the first result is a failure, and the only one kept *)
    assert (exists errs, (match (match jb_err (js false) with Some e => if jb_cancelled (js false) then [] else [(false, e)] | None => [] end) ++
        (match jb_err (js true) with Some e => if jb_cancelled (js true) then [] else [(true, e)] | None => [] end) with
      | [] => Fetched (jb_graph (js false)) (jb_graph (js true)) | errs => Failed errs end) = Failed errs /\ errs <> [] /\
      forall i e, (i, e) ∈ errs -> natural_error i = Some e) as Hres.
    { exists [(gr_order r1, e1)]. split; [|split; [done|]].
      - rewrite Ho in Ej2. rewrite bool_decide_true in Ej2 by (by eexists).
        destruct (gr_order r1); cbn in Ej2; rewrite Ej1, Ej2; cbn; by destruct (job_err r2).
      - intros i e [= -> ->]%list_elem_of_singleton. done. }
    destruct (gr_order r1); rewrite N1; [by destruct (natural_error false)|done].
  - (* the first result is a graph: nothing is cancelled *)
    destruct J2' as [E2|[[? ?] _]]; [|done].
    assert (natural_error (gr_order r2) = job_err r2) as N2 by (unfold natural_error; by rewrite <- E2).
    rewrite Ho in Ej2, E2, N2. rewrite bool_decide_false in Ej2 by (by intros [? ?]).
    destruct (gr_order r1); cbn in Ej2, E2, N2; rewrite N1, N2, Ej1, Ej2; cbn; destruct (job_err r2) as [e2|] eqn:Ee2;
      rewrite ?E1, ?E2; try done;
      (eexists; split; [done|]; split; [done|]; intros i e [= -> ->]%list_elem_of_singleton; done).
Qed.
End fetch.

(** * [readTreehashParallel] *)

(** What the storage answers: the key is missing, another failure, or a body that may
    fail to be read. *)
Inductive get_result := NotFound | GetErr (e : string) | GotBody (data : bytes) (err : option string).

Definition readTreehash (r : get_result) : bytes * option string :=
  match r with
  | NotFound => ([], None)
  | GetErr e => ([], Some ("treehash read failed for key %q: " +:+ e))
  | GotBody data None => (data, None)
  | GotBody _ (Some e) => ([], Some ("treehash body read failed for key %q: " +:+ e))
  end.

Record treehash := { th_idx : bool; th_hash : bytes; th_err : option string }.
Record treehashes := { ts_hashes : bool -> bytes; ts_firstErr : option string }.

Definition no_hashes : treehashes := {| ts_hashes := fun _ => []; ts_firstErr := None |}.

(** The body of the loop that waits for the results; the shared context is cancelled
    with the first error. *)
Definition on_treehash (r : treehash) (st : treehashes) : treehashes :=
  {| ts_hashes := fun k => if decide (k = th_idx r) then th_hash r else ts_hashes st k;
     ts_firstErr := match th_err r, ts_firstErr st with Some e, None => Some e | _, firstErr => firstErr end |}.

Definition treehash_end (st : treehashes) : bytes * bytes * option string :=
  match ts_firstErr st with
  | Some e => ([], [], Some e)
  | None => (ts_hashes st false, ts_hashes st true, None)
  end.

Section treehash.
Context (answers : bool -> get_result).

Definition read_natural (i : bool) : treehash :=
  {| th_idx := i; th_hash := (readTreehash (answers i)).1; th_err := (readTreehash (answers i)).2 |}.
Definition read_induced (i : bool) (r : treehash) : Prop := th_idx r = i /\ is_Some (th_err r).
Definition read_cancels (st : treehashes) (i : bool) : bool := bool_decide (is_Some (ts_firstErr st)).

Definition read_step := step read_natural read_induced (fun _ => None) no_hashes on_treehash read_cancels.

Definition readTreehashParallel (s : state) : bytes * bytes * option string :=
  treehash_end (collector no_hashes on_treehash (st_received s)).

Lemma read_finished s :
  rtc read_step init s -> finished s -> st_parent s = false ->
  match (readTreehash (answers false)).2, (readTreehash (answers true)).2 with
  | None, None => readTreehashParallel s = ((readTreehash (answers false)).1, (readTreehash (answers true)).1, None)
  | _, _ => exists i e, readTreehashParallel s = ([], [], Some e) /\ (readTreehash (answers i)).2 = Some e
  end.
Proof.
  intros Hs Hf Hp.
  destruct (finished_results th_idx read_natural read_induced (fun _ => None) no_hashes on_treehash read_cancels
    (fun i => eq_refl) (fun i r H => proj1 H) (fun i => eq_refl) s Hs Hf) as (r1 & r2 & E & Ho & J1 & J2).
  rewrite Hp in J1, J2. unfold readTreehashParallel. rewrite E. unfold collector. cbn [foldl].
  assert (r1 = read_natural (th_idx r1)) as E1.
  { destruct J1 as [?|[_ [?|(n & Hn & Hc)]]]; [done|done|]. destruct n; [done|cbn in Hn; lia]. }
  assert (r2 = read_natural (th_idx r2) \/ is_Some (th_err r1)) as J2'.
  { destruct J2 as [?|[_ [?|(n & Hn & Hc)]]]; [by left|done|right]. destruct n as [|[|n]]; [done| |cbn in Hn; lia].
    cbn in Hc. unfold read_cancels in Hc. apply bool_decide_eq_true in Hc. cbn in Hc. by destruct (th_err r1). }
  destruct r1 as [i1 h1 err1], r2 as [i2 h2 err2]. cbn in *. subst i2. injection E1 as Eh1 Ee1.
  destruct err1 as [e1|].
  - assert (exists i e, treehash_end (on_treehash {| th_idx := negb i1; th_hash := h2; th_err := err2 |}
      (on_treehash {| th_idx := i1; th_hash := h1; th_err := Some e1 |} no_hashes)) = ([], [], Some e) /\
      (readTreehash (answers i)).2 = Some e) as H.
    { exists i1, e1. split; [|done]. by destruct err2. }
    destruct i1; rewrite <- Ee1; [by destruct ((readTreehash (answers false)).2)|exact H].
  - destruct J2' as [[= Eh2 Ee2]|[? ?]]; [|done].
    destruct i1; cbn in *; rewrite <- Ee1, <- Ee2; destruct err2 as [e2|]; cbn; rewrite <- ?Eh1, <- ?Eh2; try done;
      first [by exists true, e2|by exists false, e2].
Qed.
End treehash.

(** * Properties *)

(** C11: Fetching two graphs always ends, and well.  Whatever the scheduler does, no run of
    the two goroutines and the collector is infinite, and none is stuck before both
    results are in; then, if the caller is gone, its cancellation is returned; if both
    fetches succeed, their graphs are, in order; and otherwise the errors returned are
    not empty and are all failures that the fetches have of themselves, never the
    cancellation of one because the other had failed.  (No deferred [Close] panics.) *)
Theorem fetch_returns (outcomes : bool -> outcome) (close_panic : bool -> option string) :
  (forall i, close_panic i = None) ->
  (forall s, sn (fetch_step outcomes close_panic) s) /\
  (forall s, rtc (fetch_step outcomes close_panic) init s ->
    (finished s \/ exists s', fetch_step outcomes close_panic s s') /\
    (finished s -> if st_parent s then fetchTargetGraphs s = CallerDone else
      match natural_error outcomes false, natural_error outcomes true with
      | None, None => fetchTargetGraphs s =
          Fetched (gr_graph (fetch_natural outcomes false)) (gr_graph (fetch_natural outcomes true))
      | _, _ => exists errs, fetchTargetGraphs s = Failed errs /\ errs <> [] /\
                  forall i e, (i, e) ∈ errs -> natural_error outcomes i = Some e
      end)).
Proof.
  intros Hclose. assert (forall i, fetch_late close_panic i = None) as Hlate by (intros i; unfold fetch_late; by rewrite Hclose).
  split; [intros s; apply step_terminates|]. intros s Hs. split.
  - destruct (decide (length (st_received s) = 2%nat)) as [?|Hf]; [by left|right].
    apply (progress gr_order (fetch_natural outcomes) fetch_induced (fetch_late close_panic) (fun _ => new_job) on_result
      fetch_cancels (natural_order outcomes) (fun i r H => proj1 H) Hlate s Hs Hf).
  - intros Hf. destruct (st_parent s) eqn:Hp; [unfold fetchTargetGraphs; by rewrite Hp|].
    by apply (fetch_finished outcomes close_panic).
Qed.

(** Reading two treehashes concurrently returns both, or an error that one of the reads
    has of itself, as long as the caller stays; a missing key reads as the empty
    treehash, not as an error.  No run is infinite or stuck. *)
Theorem readTreehashParallel_correct (answers : bool -> get_result) :
  (forall s, sn (read_step answers) s) /\
  forall s, rtc (read_step answers) init s ->
    (finished s \/ exists s', read_step answers s s') /\
    (finished s -> st_parent s = false ->
      match (readTreehash (answers false)).2, (readTreehash (answers true)).2 with
      | None, None => readTreehashParallel s = ((readTreehash (answers false)).1, (readTreehash (answers true)).1, None)
      | _, _ => exists i e, readTreehashParallel s = ([], [], Some e) /\ (readTreehash (answers i)).2 = Some e
      end).
Proof.
  split; [intros s; apply step_terminates|]. intros s Hs. split; [|by apply read_finished].
  destruct (decide (length (st_received s) = 2%nat)) as [?|Hf]; [by left|right].
  apply (progress th_idx (read_natural answers) read_induced (fun _ => None) no_hashes on_treehash
    read_cancels (fun i => eq_refl) (fun i r H => proj1 H) (fun i => eq_refl) s Hs Hf).
Qed.

(** The second fetch fails first; the first one is cancelled and reports an error. *)
Definition failing (i : bool) : outcome := if i then GetFailed "no such revision" else GotStream [target_chunk []] None.

Definition failing_run : state :=
  {| st_parent := false; st_running := []; st_closing := [false; true]; st_chan := [];
     st_received := [report true (failing true);
                     {| gr_order := false; gr_graph := empty_graph; gr_err := Some "context canceled"%string |}] |}.

Lemma failing_run_reachable : rtc (fetch_step failing (fun _ => None)) init failing_run.
Proof.
  eapply rtc_l; [apply (step_report _ _ _ _ _ _ init true [false] [] (report true (failing true))); [done|by left|cbn; lia]|].
  eapply rtc_l; [eapply step_receive; [cbn; reflexivity|cbn; unfold finished; cbn; lia]|].
  eapply rtc_l.
  { apply (step_report _ _ _ _ _ _ _ false [] []
      {| gr_order := false; gr_graph := empty_graph; gr_err := Some "context canceled"%string |});
      [cbn; reflexivity| |cbn; lia].
    right. split; [right; vm_compute; reflexivity|split; [done|by eexists]]. }
  eapply rtc_l; [eapply step_receive; [cbn; reflexivity|cbn; unfold finished; cbn; lia]|].
  apply rtc_refl.
Qed.

Lemma fetch_returns_witness :
  fetchTargetGraphs failing_run = Failed [(true, "no such revision"%string)] /\
  exists errs, fetchTargetGraphs failing_run = Failed errs /\ errs <> [] /\
    forall i e, (i, e) ∈ errs -> natural_error failing i = Some e.
Proof.
  split; [reflexivity|].
  destruct (fetch_returns failing (fun _ => None) (fun _ => eq_refl)) as [_ H].
  exact (proj2 (H failing_run failing_run_reachable) eq_refl).
Defined.
