(* ===== verification/RuleHash.v ===== *)
(** The canonical encoding of rules that target hashes are computed from
    ([HashRuleCommon] and the encoders of [core/targethasher/sourcehasher.go]). *)
From Stdlib Require Import ZArith Lia.
From S2P Require Import Prelude Varint.

Local Open Scope Z_scope.

(** * Bazel's messages

    The fields of the [buildpb] messages that the hasher reads.  An optional field is a
    pointer, and the elements of a repeated message field may be nil. *)

Record StringPair := { sp_Key : option bytes; sp_Value : option bytes }.
Record StringListEntry := { sl_Key : option bytes; sl_Value : list bytes }.

Record FilesetEntry := {
  fe_Source : option bytes;
  fe_DestinationDirectory : option bytes;
  fe_FilesPresent : option bool;
  fe_File : list bytes;
  fe_Exclude : list bytes;
  fe_SymlinkBehavior : option Z;
  fe_StripPrefix : option bytes;
}.

Record Attribute := {
  at_Name : option bytes;
  at_ExplicitlySpecified : option bool;
  at_Nodep : option bool;
  at_Type : option Z;
  at_IntValue : option Z;
  at_StringValue : option bytes;
  at_BooleanValue : option bool;
  at_TristateValue : option Z;
  at_StringListValue : list bytes;
  at_StringDictValue : list (option StringPair);
  at_FilesetListValue : list (option FilesetEntry);
  at_LabelListDictValue : list (option StringListEntry);
  at_StringListDictValue : list (option StringListEntry);
  at_IntListValue : list Z;
  at_LabelDictUnaryValue : list (option StringPair);
  at_LabelKeyedStringDictValue : list (option StringPair);
}.

Record Rule := {
  ru_Name : option bytes;
  ru_RuleClass : option bytes;
  ru_Attribute : list (option Attribute);
  ru_RuleInput : list bytes;
  ru_RuleOutput : list bytes;
  ru_DefaultSetting : list bytes;
  ru_SkylarkEnvironmentHashCode : option bytes;
}.

#[export] Instance StringPair_eq_dec : EqDecision StringPair. Proof. solve_decision. Defined.
#[export] Instance StringListEntry_eq_dec : EqDecision StringListEntry. Proof. solve_decision. Defined.
#[export] Instance FilesetEntry_eq_dec : EqDecision FilesetEntry. Proof. solve_decision. Defined.
#[export] Instance Attribute_eq_dec : EqDecision Attribute. Proof. solve_decision. Defined.
#[export] Instance Rule_eq_dec : EqDecision Rule. Proof. solve_decision. Defined.

(** [GetName] of a string pointer. *)
Definition get_string (s : option bytes) : bytes := default [] s.

(** * The encoder

    A buffer is the list of bytes written to it; an encoder is what it appends. *)

Inductive canonicalValueType :=
  | canonicalMessage | canonicalString | canonicalBool | canonicalInt32 | canonicalEnum | canonicalList.

Definition type_byte (t : canonicalValueType) : byte :=
  match t with
  | canonicalMessage => x01 | canonicalString => x02 | canonicalBool => x03
  | canonicalInt32 => x04 | canonicalEnum => x05 | canonicalList => x06
  end.

Definition writeUvarint (value : Z) : bytes := appendUvarint [] value.

Definition writeBytes (value : bytes) : bytes := writeUvarint (u64 (zlen value)) ++ value.

(** A payload that is not present is [None]. *)
Record field := { fd_name : bytes; fd_type : canonicalValueType; fd_payload : option bytes }.

Definition writeField (f : field) : bytes :=
  writeBytes (fd_name f) ++ [type_byte (fd_type f)] ++
  match fd_payload f with None => [x00] | Some payload => x01 :: writeBytes payload end.

(** [binary.BigEndian.PutUint32] of the two's complement. *)
Definition encodeInt32 (value : Z) : bytes := rev (put_le 4 (value mod 2^32)).

Definition writeOptionalString (name : string) (value : option bytes) : field :=
  {| fd_name := bs name; fd_type := canonicalString; fd_payload := value |}.
Definition writeOptionalBool (name : string) (value : option bool) : field :=
  {| fd_name := bs name; fd_type := canonicalBool; fd_payload := (fun b : bool => [if b then x01 else x00]) <$> value |}.
Definition writeOptionalInt32 (name : string) (value : option Z) : field :=
  {| fd_name := bs name; fd_type := canonicalInt32; fd_payload := encodeInt32 <$> value |}.
Definition writeOptionalEnum (name : string) (value : option Z) : field :=
  {| fd_name := bs name; fd_type := canonicalEnum; fd_payload := encodeInt32 <$> value |}.

Definition list_payload (elementType : canonicalValueType) (elements : list bytes) : bytes :=
  [type_byte elementType] ++ writeUvarint (u64 (zlen elements)) ++
  concat ((fun element => x01 :: writeBytes element) <$> elements).

Definition writeList (name : string) (elementType : canonicalValueType) (elements : list bytes) : field :=
  {| fd_name := bs name; fd_type := canonicalList; fd_payload := Some (list_payload elementType elements) |}.

Definition sortElements (elements : list bytes) : list bytes := sort_func bcompare elements.

Definition writeSortedStrings (name : string) (values : list bytes) : field :=
  writeList name canonicalString (sort_func bcompare values).
Definition writeSortedInt32s (name : string) (values : list Z) : field :=
  writeList name canonicalInt32 (encodeInt32 <$> sort_func Z.compare values).

(** Nil messages are skipped. *)
Definition writeSortedMessages {T} (name : string) (values : list (option T)) (encode : T -> bytes) : field :=
  writeList name canonicalMessage (sortElements (encode <$> omap id values)).

Definition encodeMessage (typeName : string) (fields : list field) : bytes :=
  concat (writeField <$> {| fd_name := bs "message_type"; fd_type := canonicalString; fd_payload := Some (bs typeName) |} :: fields).

(** * Messages *)

Definition encodeStringDictEntry (entry : StringPair) : bytes :=
  encodeMessage "StringDictEntry" [writeOptionalString "key" (sp_Key entry); writeOptionalString "value" (sp_Value entry)].

Definition encodeFilesetEntry (entry : FilesetEntry) : bytes :=
  encodeMessage "FilesetEntry"
    [ writeOptionalString "source" (fe_Source entry);
      writeOptionalString "destination_directory" (fe_DestinationDirectory entry);
      writeOptionalBool "files_present" (fe_FilesPresent entry);
      writeSortedStrings "file" (fe_File entry);
      writeSortedStrings "exclude" (fe_Exclude entry);
      writeOptionalEnum "symlink_behavior" (fe_SymlinkBehavior entry);
      writeOptionalString "strip_prefix" (fe_StripPrefix entry) ].

Definition encodeLabelListDictEntry (entry : StringListEntry) : bytes :=
  encodeMessage "LabelListDictEntry" [writeOptionalString "key" (sl_Key entry); writeSortedStrings "value" (sl_Value entry)].

Definition encodeStringListDictEntry (entry : StringListEntry) : bytes :=
  encodeMessage "StringListDictEntry" [writeOptionalString "key" (sl_Key entry); writeSortedStrings "value" (sl_Value entry)].

Definition encodeLabelDictUnaryEntry (entry : StringPair) : bytes :=
  encodeMessage "LabelDictUnaryEntry" [writeOptionalString "key" (sp_Key entry); writeOptionalString "value" (sp_Value entry)].

Definition encodeLabelKeyedStringDictEntry (entry : StringPair) : bytes :=
  encodeMessage "LabelKeyedStringDictEntry" [writeOptionalString "key" (sp_Key entry); writeOptionalString "value" (sp_Value entry)].

Definition attribute_fields (attribute : Attribute) : list field :=
  [ writeOptionalString "name" (at_Name attribute);
    writeOptionalBool "explicitly_specified" (at_ExplicitlySpecified attribute);
    writeOptionalBool "nodep" (at_Nodep attribute);
    writeOptionalEnum "type" (at_Type attribute);
    writeOptionalInt32 "int_value" (at_IntValue attribute);
    writeOptionalString "string_value" (at_StringValue attribute);
    writeOptionalBool "boolean_value" (at_BooleanValue attribute);
    writeOptionalEnum "tristate_value" (at_TristateValue attribute);
    writeSortedStrings "string_list_value" (at_StringListValue attribute);
    writeSortedMessages "string_dict_value" (at_StringDictValue attribute) encodeStringDictEntry;
    writeSortedMessages "fileset_list_value" (at_FilesetListValue attribute) encodeFilesetEntry;
    writeSortedMessages "label_list_dict_value" (at_LabelListDictValue attribute) encodeLabelListDictEntry;
    writeSortedMessages "string_list_dict_value" (at_StringListDictValue attribute) encodeStringListDictEntry;
    writeSortedInt32s "int_list_value" (at_IntListValue attribute);
    writeSortedMessages "label_dict_unary_value" (at_LabelDictUnaryValue attribute) encodeLabelDictUnaryEntry;
    writeSortedMessages "label_keyed_string_dict_value" (at_LabelKeyedStringDictValue attribute) encodeLabelKeyedStringDictEntry ].

Definition encodeAttribute (attribute : Attribute) : bytes := encodeMessage "Attribute" (attribute_fields attribute).

(** The attributes that count: macro call sites do not affect the rule. *)
Definition kept_attributes (r : Rule) : list Attribute :=
  filter (fun a => get_string (at_Name a) <> bs "generator_location") (omap id (ru_Attribute r)).

Section rule.
(** [sort.Slice] by name leaves the order of attributes of one name open. *)
Context (sort_attrs : list Attribute -> list Attribute).

Definition rule_fields (r : Rule) : list field :=
  [ writeOptionalString "name" (ru_Name r);
    writeOptionalString "rule_class" (ru_RuleClass r);
    writeList "attribute" canonicalMessage (encodeAttribute <$> sort_attrs (kept_attributes r));
    writeSortedStrings "rule_input" (ru_RuleInput r);
    writeSortedStrings "rule_output" (ru_RuleOutput r);
    writeSortedStrings "default_setting" (ru_DefaultSetting r);
    writeOptionalString "skylark_environment_hash_code" (ru_SkylarkEnvironmentHashCode r) ].

Definition encodeRule (r : Rule) : bytes := encodeMessage "Rule" (rule_fields r).

(** What [HashRuleCommon] writes to the hash. *)
Definition HashRuleCommon (r : option Rule) : bytes :=
  writeField {| fd_name := bs "rule"; fd_type := canonicalMessage; fd_payload := encodeRule <$> r |}.
End rule.

(** * Unique decoding

    Every piece tells its own length, so equal outputs have equal pieces.  The lengths
    are written as [uint64]: a buffer of 2^64 bytes or more could not exist. *)

Lemma writeUvarint_inj a b x y :
  0 <= a < 2^64 -> 0 <= b < 2^64 -> writeUvarint a ++ x = writeUvarint b ++ y -> a = b /\ x = y.
Proof.
  intros Ha Hb E. unfold writeUvarint, appendUvarint, AppendUvarint in E. cbn [app] in E.
  pose proof (Uvarint_bytes a x Ha) as H1. pose proof (Uvarint_bytes b y Hb) as H2. rewrite E, H2 in H1.
  injection H1 as -> _. split; [done|]. by apply app_inv_head in E.
Qed.

Lemma writeBytes_inj a b x y :
  zlen a < 2^64 -> zlen b < 2^64 -> writeBytes a ++ x = writeBytes b ++ y -> a = b /\ x = y.
Proof.
  intros Ha Hb E. pose proof (zlen_nonneg a). pose proof (zlen_nonneg b). unfold writeBytes in E.
  rewrite !u64_small, <- !app_assoc in E by lia. apply writeUvarint_inj in E as [El E]; [|lia..].
  assert (length a = length b) as Hl by (unfold zlen in El; lia). by apply app_inj_1 in E.
Qed.

(** The length of the payload of a field. *)
Definition payload_small (f : field) : Prop := match fd_payload f with Some p => zlen p < 2^64 | None => True end.

Lemma writeField_inj f g x y :
  fd_name f = fd_name g -> fd_type f = fd_type g -> payload_small f -> payload_small g ->
  writeField f ++ x = writeField g ++ y -> fd_payload f = fd_payload g /\ x = y.
Proof.
  destruct f as [n t p], g as [n' t' p']. unfold payload_small, writeField.
  cbn [fd_name fd_type fd_payload]. intros <- <- Hp Hp' E.
  rewrite <- !app_assoc in E. apply app_inv_head in E. cbn [app] in E. injection E as E.
  destruct p as [p|], p' as [p'|]; cbn [app] in E; try done; injection E as E; [|done].
  apply writeBytes_inj in E as [-> ->]; done.
Qed.

Lemma zlen_writeBytes a : zlen a <= zlen (writeBytes a).
Proof. unfold writeBytes. rewrite zlen_app. pose proof (zlen_nonneg (writeUvarint (u64 (zlen a)))). lia. Qed.

Lemma writeField_payload f p : fd_payload f = Some p -> zlen p <= zlen (writeField f).
Proof.
  intros E. unfold writeField. rewrite E, !zlen_app, !zlen_cons. pose proof (zlen_writeBytes p).
  pose proof (zlen_nonneg (writeBytes (fd_name f))). pose proof (zlen_nonneg (@nil byte)). lia.
Qed.

Definition same_shape (f g : field) : Prop := fd_name f = fd_name g /\ fd_type f = fd_type g.

Definition write_all (fs : list field) : bytes := concat (writeField <$> fs).

Lemma write_all_payload fs f p : f ∈ fs -> fd_payload f = Some p -> zlen p <= zlen (write_all fs).
Proof.
  intros Hf Hp. induction fs as [|g fs IH]; [by apply elem_of_nil in Hf|]. unfold write_all in *. cbn [fmap list_fmap concat].
  rewrite zlen_app. pose proof (zlen_nonneg (writeField g)). pose proof (zlen_nonneg (concat (writeField <$> fs))).
  apply elem_of_cons in Hf as [->|Hf]; [|specialize (IH Hf); lia]. pose proof (writeField_payload g p Hp). lia.
Qed.

Lemma write_all_inj fs gs :
  Forall2 same_shape fs gs -> zlen (write_all fs) < 2^64 -> zlen (write_all gs) < 2^64 ->
  write_all fs = write_all gs -> fd_payload <$> fs = fd_payload <$> gs.
Proof.
  intros HF. induction HF as [|f g fs gs [Hn Ht] _ IH]; [done|]. intros Hf Hg E.
  assert (forall h hs, zlen (write_all (h :: hs)) < 2^64 -> payload_small h /\ zlen (write_all hs) < 2^64) as Hsmall.
  { intros h hs Hh. split.
    - unfold payload_small. destruct (fd_payload h) as [p|] eqn:Ep; [|done].
      pose proof (write_all_payload (h :: hs) h p ltac:(by left) Ep). lia.
    - unfold write_all in *. cbn [fmap list_fmap concat] in Hh. rewrite zlen_app in Hh.
      pose proof (zlen_nonneg (writeField h)). lia. }
  apply Hsmall in Hf as [Hf Hfs]. apply Hsmall in Hg as [Hg Hgs].
  unfold write_all in E. cbn [fmap list_fmap concat] in E. apply writeField_inj in E as [Ep E]; [|done..].
  cbn [fmap list_fmap]. rewrite Ep. f_equal. by apply IH.
Qed.

(** A message and a decoder of its fields: equal messages have equal payloads. *)
Lemma encodeMessage_inj t fs gs :
  Forall2 same_shape fs gs -> zlen (encodeMessage t fs) < 2^64 -> encodeMessage t fs = encodeMessage t gs ->
  fd_payload <$> fs = fd_payload <$> gs.
Proof.
  intros HF Hs E. assert (zlen (encodeMessage t gs) < 2^64) as Hs' by (by rewrite <- E).
  apply (write_all_inj (_ :: fs) (_ :: gs)) in E; [by injection E|by constructor|done|done].
Qed.

Lemma list_payload_elements t l e : e ∈ l -> zlen e <= zlen (list_payload t l).
Proof.
  intros He. unfold list_payload. rewrite !zlen_app. pose proof (zlen_nonneg (writeUvarint (u64 (zlen l)))).
  change (zlen [type_byte t]) with 1. clear t. enough (zlen e <= zlen (concat ((fun e => x01 :: writeBytes e) <$> l))) by lia. clear -He.
  induction l as [|x l IH]; [by apply elem_of_nil in He|]. cbn [fmap list_fmap concat]. rewrite zlen_app, zlen_cons.
  pose proof (zlen_nonneg (concat ((fun e => x01 :: writeBytes e) <$> l))). pose proof (zlen_writeBytes x).
  pose proof (zlen_nonneg x). apply elem_of_cons in He as [->|He]; [lia|]. specialize (IH He). lia.
Qed.

Lemma list_payload_count t l : zlen l <= zlen (list_payload t l).
Proof.
  unfold list_payload. rewrite !zlen_app. pose proof (zlen_nonneg (writeUvarint (u64 (zlen l)))).
  change (zlen [type_byte t]) with 1. enough (zlen l <= zlen (concat ((fun e => x01 :: writeBytes e) <$> l))) by lia. clear.
  induction l as [|x l IH]; [done|]. cbn [fmap list_fmap concat]. rewrite zlen_app, !zlen_cons.
  pose proof (zlen_nonneg (writeBytes x)). lia.
Qed.

Lemma elements_inj (l k : list bytes) x y :
  length l = length k -> Forall (fun e => zlen e < 2^64) l -> Forall (fun e => zlen e < 2^64) k ->
  concat ((fun e => x01 :: writeBytes e) <$> l) ++ x = concat ((fun e => x01 :: writeBytes e) <$> k) ++ y -> l = k.
Proof.
  revert k. induction l as [|a l IH]; intros [|b k] Hlen Hl Hk E; try done.
  apply Forall_cons in Hl as [Ha Hl]. apply Forall_cons in Hk as [Hb Hk]. cbn [fmap list_fmap concat] in E.
  rewrite <- !app_assoc in E. cbn [app] in E. injection E as E. rewrite <- !app_assoc in E || idtac.
  apply writeBytes_inj in E as [-> E]; [|done..]. f_equal. apply IH; [by injection Hlen|done..].
Qed.

Lemma list_payload_inj t l k : zlen (list_payload t l) < 2^64 -> list_payload t l = list_payload t k -> l = k.
Proof.
  intros Hs E. assert (zlen (list_payload t k) < 2^64) as Hs' by (by rewrite <- E).
  assert (forall l, zlen (list_payload t l) < 2^64 -> Forall (fun e => zlen e < 2^64) l /\ 0 <= zlen l < 2^64) as Hsmall.
  { clear. intros l Hl. pose proof (list_payload_count t l). pose proof (zlen_nonneg l). split; [|lia].
    apply Forall_forall. intros e He. pose proof (list_payload_elements t l e He). lia. }
  apply Hsmall in Hs as [Hl Hll]. apply Hsmall in Hs' as [Hk Hkl].
  unfold list_payload in E. apply app_inv_head in E. rewrite !u64_small in E by lia.
  apply writeUvarint_inj in E as [Hlen E]; [|lia..].
  apply (elements_inj l k [] []); [unfold zlen in Hlen; lia|done|done|by rewrite !app_nil_r].
Qed.

Lemma encodeInt32_inj a b : -2^31 <= a < 2^31 -> -2^31 <= b < 2^31 -> encodeInt32 a = encodeInt32 b -> a = b.
Proof.
  intros Ha Hb E. unfold encodeInt32 in E. apply (f_equal (@rev byte)) in E. rewrite !rev_involutive in E.
  apply (f_equal get_le) in E. rewrite !get_put_le in E.
  assert (forall z, -2^31 <= z < 2^31 -> z mod 2^32 = if decide (0 <= z) then z else z + 2^32) as Hm.
  { intros z Hz. case_decide; [apply Z.mod_small; lia|]. rewrite <- (Z.mod_add z 1) by lia. rewrite Z.mul_1_l. apply Z.mod_small. lia. }
  change (256 ^ Z.of_nat 4) with (2^32) in E. rewrite !Z.mod_mod in E by done. rewrite !Hm in E by done.
  repeat case_decide; lia.
Qed.

(** * What the encoding distinguishes *)

Lemma sort_strings_eq l k : sort_func bcompare l = sort_func bcompare k <-> l ≡ₚ k.
Proof.
  split; intros H.
  - by rewrite <- (sort_func_perm bcompare l), H, sort_func_perm by apply _.
  - symmetry. apply sort_func_unique; [apply sort_func_sorted, _|]. rewrite sort_func_perm by apply _. by symmetry.
Qed.

Lemma sort_ints_eq l k : sort_func Z.compare l = sort_func Z.compare k <-> l ≡ₚ k.
Proof.
  split; intros H.
  - by rewrite <- (sort_func_perm Z.compare l), H, sort_func_perm by apply _.
  - symmetry. apply sort_func_unique; [apply sort_func_sorted, _|]. rewrite sort_func_perm by apply _. by symmetry.
Qed.

(** The messages of two lists, paired in some order; nil ones do not count. *)
Definition same_messages {T} (R : T -> T -> Prop) (l k : list (option T)) : Prop :=
  exists k', k' ≡ₚ omap id k /\ Forall2 R (omap id l) k'.

Definition same_list_entry (a b : StringListEntry) : Prop := sl_Key a = sl_Key b /\ sl_Value a ≡ₚ sl_Value b.

Record same_fileset (a b : FilesetEntry) : Prop := {
  sf_source : fe_Source a = fe_Source b;
  sf_destination : fe_DestinationDirectory a = fe_DestinationDirectory b;
  sf_present : fe_FilesPresent a = fe_FilesPresent b;
  sf_file : fe_File a ≡ₚ fe_File b;
  sf_exclude : fe_Exclude a ≡ₚ fe_Exclude b;
  sf_symlink : fe_SymlinkBehavior a = fe_SymlinkBehavior b;
  sf_prefix : fe_StripPrefix a = fe_StripPrefix b;
}.

Record same_attribute (a b : Attribute) : Prop := {
  sa_name : at_Name a = at_Name b;
  sa_explicit : at_ExplicitlySpecified a = at_ExplicitlySpecified b;
  sa_nodep : at_Nodep a = at_Nodep b;
  sa_type : at_Type a = at_Type b;
  sa_int : at_IntValue a = at_IntValue b;
  sa_string : at_StringValue a = at_StringValue b;
  sa_bool : at_BooleanValue a = at_BooleanValue b;
  sa_tristate : at_TristateValue a = at_TristateValue b;
  sa_strings : at_StringListValue a ≡ₚ at_StringListValue b;
  sa_dict : same_messages eq (at_StringDictValue a) (at_StringDictValue b);
  sa_filesets : same_messages same_fileset (at_FilesetListValue a) (at_FilesetListValue b);
  sa_label_lists : same_messages same_list_entry (at_LabelListDictValue a) (at_LabelListDictValue b);
  sa_string_lists : same_messages same_list_entry (at_StringListDictValue a) (at_StringListDictValue b);
  sa_ints : at_IntListValue a ≡ₚ at_IntListValue b;
  sa_unary : same_messages eq (at_LabelDictUnaryValue a) (at_LabelDictUnaryValue b);
  sa_keyed : same_messages eq (at_LabelKeyedStringDictValue a) (at_LabelKeyedStringDictValue b);
}.

(** Rules that Bazel could tell apart only by the order of their lists, by macro call
    sites, or by fields that do not count. *)
Record same_rule (r s : Rule) : Prop := {
  sr_name : ru_Name r = ru_Name s;
  sr_class : ru_RuleClass r = ru_RuleClass s;
  sr_attributes : exists l, l ≡ₚ kept_attributes s /\ Forall2 same_attribute (kept_attributes r) l;
  sr_input : ru_RuleInput r ≡ₚ ru_RuleInput s;
  sr_output : ru_RuleOutput r ≡ₚ ru_RuleOutput s;
  sr_default : ru_DefaultSetting r ≡ₚ ru_DefaultSetting s;
  sr_environment : ru_SkylarkEnvironmentHashCode r = ru_SkylarkEnvironmentHashCode s;
}.

(** The integers of a message are 32 bits wide. *)
Definition is_int32 (z : Z) : Prop := -2^31 <= z < 2^31.
Definition opt_int32 (z : option Z) : Prop := match z with Some z => is_int32 z | None => True end.
Definition fileset_typed (e : FilesetEntry) : Prop := opt_int32 (fe_SymlinkBehavior e).
Definition attribute_typed (a : Attribute) : Prop :=
  opt_int32 (at_Type a) /\ opt_int32 (at_IntValue a) /\ opt_int32 (at_TristateValue a) /\
  Forall is_int32 (at_IntListValue a) /\ Forall fileset_typed (omap id (at_FilesetListValue a)).
Definition rule_typed (r : Rule) : Prop := Forall attribute_typed (kept_attributes r).

(** ** Equal encodings *)

(** What a payload means is settled by its bytes. *)
Lemma strings_payload l k :
  zlen (list_payload canonicalString (sort_func bcompare l)) < 2^64 ->
  list_payload canonicalString (sort_func bcompare l) = list_payload canonicalString (sort_func bcompare k) -> l ≡ₚ k.
Proof. intros Hs E%list_payload_inj; [by apply sort_strings_eq|done]. Qed.

Lemma int32_payload a b : opt_int32 a -> opt_int32 b -> encodeInt32 <$> a = encodeInt32 <$> b -> a = b.
Proof. destruct a as [a|], b as [b|]; cbn; intros Ha Hb E; try done. apply (inj Some), encodeInt32_inj in E; [by subst|done..]. Qed.

Lemma bool_payload (a b : option bool) :
  (fun b : bool => [if b then x01 else x00]) <$> a = (fun b : bool => [if b then x01 else x00]) <$> b -> a = b.
Proof. destruct a as [[]|], b as [[]|]; cbn; congruence. Qed.

Lemma ints_payload l k :
  Forall is_int32 l -> Forall is_int32 k -> zlen (list_payload canonicalInt32 (encodeInt32 <$> sort_func Z.compare l)) < 2^64 ->
  list_payload canonicalInt32 (encodeInt32 <$> sort_func Z.compare l) =
  list_payload canonicalInt32 (encodeInt32 <$> sort_func Z.compare k) -> l ≡ₚ k.
Proof.
  intros Hl Hk Hs E%list_payload_inj; [|done]. apply sort_ints_eq.
  rewrite <- (sort_func_perm Z.compare l) in Hl. rewrite <- (sort_func_perm Z.compare k) in Hk.
  revert Hl Hk E. generalize (sort_func Z.compare l) (sort_func Z.compare k). clear.
  intros l. induction l as [|a l IH]; intros [|b k] Hl Hk E; try done. cbn in E. apply Forall_cons in Hl as [Ha Hl].
  apply Forall_cons in Hk as [Hb Hk]. assert (encodeInt32 a = encodeInt32 b) as Ea by (by apply (f_equal head), (inj Some) in E).
  apply (f_equal tail) in E. cbn in E. rewrite (encodeInt32_inj a b) by done. f_equal. by apply IH.
Qed.

Lemma perm_map_inv {A} (enc : A -> bytes) (l k : list A) :
  enc <$> l ≡ₚ enc <$> k -> exists k', k' ≡ₚ k /\ enc <$> l = enc <$> k'.
Proof. intros H. destruct (Permutation_map_inv _ _ H) as (k' & E & Hk). exists k'. split; [by symmetry|done]. Qed.

Lemma Forall2_of_encodings {T} (valid : T -> Prop) (enc : T -> bytes) (R : T -> T -> Prop) l k :
  (forall a b, valid a -> valid b -> zlen (enc a) < 2^64 -> enc a = enc b -> R a b) ->
  Forall valid l -> Forall valid k -> Forall (fun e => zlen e < 2^64) (enc <$> l) -> enc <$> l = enc <$> k -> Forall2 R l k.
Proof.
  intros Henc. revert k. induction l as [|a l IH]; intros [|b k] Hl Hk Hs E; try done.
  cbn in E, Hs. apply Forall_cons in Hl as [Ha Hl]. apply Forall_cons in Hk as [Hb Hk]. apply Forall_cons in Hs as [Hsa Hs].
  pose proof (f_equal head E) as E1. apply (f_equal tail) in E. cbn in E1, E. apply (inj Some) in E1.
  constructor; [by apply Henc|by apply IH].
Qed.

Lemma messages_payload {T} (valid : T -> Prop) (enc : T -> bytes) (R : T -> T -> Prop) (l k : list (option T)) :
  (forall a b, valid a -> valid b -> zlen (enc a) < 2^64 -> enc a = enc b -> R a b) ->
  Forall valid (omap id l) -> Forall valid (omap id k) ->
  zlen (list_payload canonicalMessage (sortElements (enc <$> omap id l))) < 2^64 ->
  list_payload canonicalMessage (sortElements (enc <$> omap id l)) =
  list_payload canonicalMessage (sortElements (enc <$> omap id k)) -> same_messages R l k.
Proof.
  intros Henc Hl Hk Hs E. apply list_payload_inj in E; [|done]. apply sort_strings_eq, perm_map_inv in E as (k' & Hk' & E).
  exists k'. split; [done|]. rewrite <- Hk' in Hk. apply (Forall2_of_encodings valid enc); [done|done|done| |done].
  apply Forall_forall. intros e He. rewrite <- (sort_func_perm bcompare (enc <$> omap id l)) in He.
  pose proof (list_payload_elements canonicalMessage _ e He). unfold sortElements in *. lia.
Qed.

(** ** Messages *)

Ltac shapes := repeat (constructor; [by split|]); constructor.

(** The payload of field [k] of two equal messages. *)
Lemma field_payload (fs gs : list field) (k : nat) f g :
  fd_payload <$> fs = fd_payload <$> gs -> fs !! k = Some f -> gs !! k = Some g -> fd_payload f = fd_payload g.
Proof.
  intros E Hf Hg. apply (f_equal (fun l : list (option bytes) => l !! k)) in E. rewrite !list_lookup_fmap, Hf, Hg in E.
  by injection E.
Qed.

Lemma list_field_payload (fs gs : list field) (k : nat) f g p q :
  fd_payload <$> fs = fd_payload <$> gs -> fs !! k = Some f -> gs !! k = Some g ->
  fd_payload f = Some p -> fd_payload g = Some q -> p = q.
Proof. intros E Hf Hg Hp Hq. pose proof (field_payload _ _ _ _ _ E Hf Hg) as H. rewrite Hp, Hq in H. by apply (inj Some). Qed.

(** [E : fd_payload <$> fs = fd_payload <$> gs]; the statement for field [k]. *)
Ltac field E k := exact (field_payload _ _ k _ _ E eq_refl eq_refl).
Ltac list_field E k := exact (list_field_payload _ _ k _ _ _ _ E eq_refl eq_refl eq_refl eq_refl).

Lemma message_payload_small t fs k f p :
  zlen (encodeMessage t fs) < 2^64 -> fs !! k = Some f -> fd_payload f = Some p -> zlen p < 2^64.
Proof.
  intros Hs Hk Hp. pose proof (write_all_payload
    ({| fd_name := bs "message_type"; fd_type := canonicalString; fd_payload := Some (bs t) |} :: fs) f p) as H.
  unfold encodeMessage in Hs. unfold write_all in H. specialize (H ltac:(right; by eapply list_elem_of_lookup_2) Hp). lia.
Qed.

Ltac small Hs k := exact (message_payload_small _ _ k _ _ Hs eq_refl eq_refl).

Lemma StringPair_ext (a b : StringPair) : sp_Key a = sp_Key b -> sp_Value a = sp_Value b -> a = b.
Proof. destruct a, b. cbn. by intros -> ->. Qed.

Lemma pair_inj t (enc : StringPair -> bytes) (a b : StringPair) :
  (forall e, enc e = encodeMessage t [writeOptionalString "key" (sp_Key e); writeOptionalString "value" (sp_Value e)]) ->
  zlen (enc a) < 2^64 -> enc a = enc b -> a = b.
Proof.
  intros Henc. rewrite !Henc. intros Hs E. apply encodeMessage_inj in E; [|shapes|done].
  apply StringPair_ext; [field E 0%nat|field E 1%nat].
Qed.

Lemma list_entry_inj t (enc : StringListEntry -> bytes) (a b : StringListEntry) :
  (forall e, enc e = encodeMessage t [writeOptionalString "key" (sl_Key e); writeSortedStrings "value" (sl_Value e)]) ->
  zlen (enc a) < 2^64 -> enc a = enc b -> same_list_entry a b.
Proof.
  intros Henc. rewrite !Henc. intros Hs E. apply encodeMessage_inj in E; [|shapes|done].
  split; [field E 0%nat|]. apply strings_payload; [small Hs 1%nat|list_field E 1%nat].
Qed.

Lemma fileset_inj (a b : FilesetEntry) :
  fileset_typed a -> fileset_typed b -> zlen (encodeFilesetEntry a) < 2^64 ->
  encodeFilesetEntry a = encodeFilesetEntry b -> same_fileset a b.
Proof.
  intros Ha Hb Hs E. unfold encodeFilesetEntry in Hs, E. apply encodeMessage_inj in E; [|shapes|done]. split.
  - field E 0%nat.
  - field E 1%nat.
  - apply bool_payload. field E 2%nat.
  - apply strings_payload; [small Hs 3%nat|list_field E 3%nat].
  - apply strings_payload; [small Hs 4%nat|list_field E 4%nat].
  - apply int32_payload; [done..|field E 5%nat].
  - field E 6%nat.
Qed.

Lemma attribute_inj (a b : Attribute) :
  attribute_typed a -> attribute_typed b -> zlen (encodeAttribute a) < 2^64 ->
  encodeAttribute a = encodeAttribute b -> same_attribute a b.
Proof.
  intros (Ta & Ia & Sa & La & Fa) (Tb & Ib & Sb & Lb & Fb) Hs E. unfold encodeAttribute, attribute_fields in Hs, E.
  apply encodeMessage_inj in E; [|shapes|done].
  assert (forall T (l : list T), Forall (fun _ => True) l) as Htrue by (intros; by apply Forall_true).
  split.
  - field E 0%nat.
  - apply bool_payload. field E 1%nat.
  - apply bool_payload. field E 2%nat.
  - apply int32_payload; [done..|field E 3%nat].
  - apply int32_payload; [done..|field E 4%nat].
  - field E 5%nat.
  - apply bool_payload. field E 6%nat.
  - apply int32_payload; [done..|field E 7%nat].
  - apply strings_payload; [small Hs 8%nat|list_field E 8%nat].
  - eapply (messages_payload (fun _ => True)); [|done|done|small Hs 9%nat|list_field E 9%nat].
    intros x y _ _. exact (pair_inj "StringDictEntry" encodeStringDictEntry x y (fun _ => eq_refl)).
  - eapply (messages_payload fileset_typed); [exact fileset_inj|done|done|small Hs 10%nat|list_field E 10%nat].
  - eapply (messages_payload (fun _ => True)); [|done|done|small Hs 11%nat|list_field E 11%nat].
    intros x y _ _. exact (list_entry_inj "LabelListDictEntry" encodeLabelListDictEntry x y (fun _ => eq_refl)).
  - eapply (messages_payload (fun _ => True)); [|done|done|small Hs 12%nat|list_field E 12%nat].
    intros x y _ _. exact (list_entry_inj "StringListDictEntry" encodeStringListDictEntry x y (fun _ => eq_refl)).
  - apply ints_payload; [done|done|small Hs 13%nat|list_field E 13%nat].
  - eapply (messages_payload (fun _ => True)); [|done|done|small Hs 14%nat|list_field E 14%nat].
    intros x y _ _. exact (pair_inj "LabelDictUnaryEntry" encodeLabelDictUnaryEntry x y (fun _ => eq_refl)).
  - eapply (messages_payload (fun _ => True)); [|done|done|small Hs 15%nat|list_field E 15%nat].
    intros x y _ _. exact (pair_inj "LabelKeyedStringDictEntry" encodeLabelKeyedStringDictEntry x y (fun _ => eq_refl)).
Qed.

(** ** The converse *)

Lemma same_messages_encode {T} (enc : T -> bytes) (R : T -> T -> Prop) (l k : list (option T)) :
  (forall a b, R a b -> enc a = enc b) -> same_messages R l k ->
  sortElements (enc <$> omap id l) = sortElements (enc <$> omap id k).
Proof.
  intros Henc (k' & Hk & HF). apply sort_strings_eq. rewrite <- Hk.
  assert (enc <$> omap id l = enc <$> k') as ->; [|done]. clear Hk. induction HF as [|a b l' k' Hab _ IH]; [done|].
  cbn. rewrite (Henc a b Hab). by f_equal.
Qed.

Lemma same_list_entry_encode t (enc : StringListEntry -> bytes) (a b : StringListEntry) :
  (forall e, enc e = encodeMessage t [writeOptionalString "key" (sl_Key e); writeSortedStrings "value" (sl_Value e)]) ->
  same_list_entry a b -> enc a = enc b.
Proof.
  intros Henc [Hk Hv]. rewrite !Henc, Hk. unfold writeSortedStrings. by rewrite (proj2 (sort_strings_eq _ _) Hv).
Qed.

Lemma same_fileset_encode a b : same_fileset a b -> encodeFilesetEntry a = encodeFilesetEntry b.
Proof.
  intros [H1 H2 H3 H4 H5 H6 H7]. unfold encodeFilesetEntry, writeSortedStrings.
  by rewrite H1, H2, H3, H6, H7, (proj2 (sort_strings_eq _ _) H4), (proj2 (sort_strings_eq _ _) H5).
Qed.

Lemma same_attribute_encode a b : same_attribute a b -> encodeAttribute a = encodeAttribute b.
Proof.
  intros [H1 H2 H3 H4 H5 H6 H7 H8 H9 H10 H11 H12 H13 H14 H15 H16].
  unfold encodeAttribute, attribute_fields, writeSortedStrings, writeSortedInt32s, writeSortedMessages.
  rewrite H1, H2, H3, H4, H5, H6, H7, H8, (proj2 (sort_strings_eq _ _) H9), (proj2 (sort_ints_eq _ _) H14).
  rewrite (same_messages_encode encodeStringDictEntry eq _ _ ltac:(by intros ? ? ->) H10).
  rewrite (same_messages_encode _ _ _ _ same_fileset_encode H11).
  rewrite (same_messages_encode encodeLabelListDictEntry _ _ _ (fun a b => same_list_entry_encode _ _ a b (fun _ => eq_refl)) H12).
  rewrite (same_messages_encode encodeStringListDictEntry _ _ _ (fun a b => same_list_entry_encode _ _ a b (fun _ => eq_refl)) H13).
  rewrite (same_messages_encode encodeLabelDictUnaryEntry eq _ _ ltac:(by intros ? ? ->) H15).
  by rewrite (same_messages_encode encodeLabelKeyedStringDictEntry eq _ _ ltac:(by intros ? ? ->) H16).
Qed.

(** ** Rules *)

Section rule_spec.
Context (sort_attrs : list Attribute -> list Attribute).
Context (sort_attrs_ok : forall l, sort_attrs l ≡ₚ l /\
  StronglySorted (fun x y => bcompare (get_string (at_Name x)) (get_string (at_Name y)) <> Gt) (sort_attrs l)).

Lemma rule_inj (r s : Rule) :
  rule_typed r -> rule_typed s -> zlen (encodeRule sort_attrs r) < 2^64 ->
  encodeRule sort_attrs r = encodeRule sort_attrs s -> same_rule r s.
Proof.
  intros Hr Hs Hl E. unfold encodeRule, rule_fields in Hl, E. apply encodeMessage_inj in E; [|shapes|done]. split.
  - field E 0%nat.
  - field E 1%nat.
  - assert (list_payload canonicalMessage (encodeAttribute <$> sort_attrs (kept_attributes r)) =
      list_payload canonicalMessage (encodeAttribute <$> sort_attrs (kept_attributes s))) as Ea by list_field E 2%nat.
    assert (zlen (list_payload canonicalMessage (encodeAttribute <$> sort_attrs (kept_attributes r))) < 2^64) as Hsm by small Hl 2%nat.
    apply list_payload_inj in Ea; [|done]. destruct (sort_attrs_ok (kept_attributes r)) as [Pr _].
    destruct (sort_attrs_ok (kept_attributes s)) as [Ps _].
    assert (Forall2 same_attribute (sort_attrs (kept_attributes r)) (sort_attrs (kept_attributes s))) as HF.
    { apply (Forall2_of_encodings attribute_typed encodeAttribute); [exact attribute_inj|by unfold rule_typed in *; rewrite Pr|
        by unfold rule_typed in *; rewrite Ps| |done].
      apply Forall_forall. intros e He. pose proof (list_payload_elements canonicalMessage _ e He). lia. }
    destruct (Forall2_perm_l _ _ _ _ (symmetry Pr) HF) as (l & Hpl & HF'). exists l. split; [by rewrite Hpl|done].
  - apply strings_payload; [small Hl 3%nat|list_field E 3%nat].
  - apply strings_payload; [small Hl 4%nat|list_field E 4%nat].
  - apply strings_payload; [small Hl 5%nat|list_field E 5%nat].
  - field E 6%nat.
Qed.

(** Bazel keeps attribute names unique. *)
Definition unique_attributes (r : Rule) : Prop := NoDup ((fun a => get_string (at_Name a)) <$> kept_attributes r).

Lemma same_rule_encode (r s : Rule) :
  unique_attributes r -> same_rule r s -> encodeRule sort_attrs r = encodeRule sort_attrs s.
Proof.
  intros Hu [H1 H2 (l & Hl & HF) H4 H5 H6 H7]. unfold encodeRule, rule_fields, writeSortedStrings.
  rewrite H1, H2, H7, (proj2 (sort_strings_eq _ _) H4), (proj2 (sort_strings_eq _ _) H5), (proj2 (sort_strings_eq _ _) H6).
  assert (encodeAttribute <$> sort_attrs (kept_attributes r) = encodeAttribute <$> sort_attrs (kept_attributes s)) as ->; [|done].
  destruct (sort_attrs_ok (kept_attributes r)) as [Pr Sr]. destruct (sort_attrs_ok (kept_attributes s)) as [Ps Ss].
  destruct (Forall2_perm_l _ _ _ _ Pr HF) as (k & Hk & HF').
  assert ((fun a => get_string (at_Name a)) <$> sort_attrs (kept_attributes r) = (fun a => get_string (at_Name a)) <$> k) as En.
  { clear -HF'. induction HF' as [|a b l k [Hn] _ IH]; [done|]. cbn. rewrite Hn. by f_equal. }
  assert (k = sort_attrs (kept_attributes s)) as <-.
  { apply (sorted_by_key_unique (fun a => get_string (at_Name a))); [|done| |by rewrite Hk, Hl, Ps].
    - clear -Sr En. revert k En. induction Sr as [|a l Hl IH Ha]; intros [|b k] En; try done; [constructor|].
      cbn in En. pose proof (f_equal head En) as E1. apply (inj Some) in E1. apply (f_equal tail) in En. cbn in En.
      constructor; [by apply IH|]. rewrite <- E1. apply Forall_forall. intros c Hc.
      apply (list_elem_of_fmap_2 (fun a => get_string (at_Name a))) in Hc. rewrite <- En in Hc.
      apply list_elem_of_fmap in Hc as (d & -> & Hd). rewrite Forall_forall in Ha. by apply Ha.
    - rewrite <- En. unfold unique_attributes in Hu. rewrite Pr. exact Hu. }
  clear -HF'. induction HF' as [|a b l k Hab _ IH]; [done|]. cbn [fmap list_fmap].
  rewrite (same_attribute_encode a b Hab). f_equal. exact IH.
Qed.

Lemma HashRuleCommon_Some_inj r s :
  zlen (HashRuleCommon sort_attrs (Some r)) < 2^64 ->
  HashRuleCommon sort_attrs (Some r) = HashRuleCommon sort_attrs s ->
  exists s', s = Some s' /\ encodeRule sort_attrs r = encodeRule sort_attrs s' /\ zlen (encodeRule sort_attrs r) < 2^64.
Proof.
  intros Hl E. unfold HashRuleCommon in *.
  set (f := {| fd_name := bs "rule"; fd_type := canonicalMessage; fd_payload := encodeRule sort_attrs <$> Some r |}) in *.
  set (g := {| fd_name := bs "rule"; fd_type := canonicalMessage; fd_payload := encodeRule sort_attrs <$> s |}) in *.
  pose proof (writeField_payload f (encodeRule sort_attrs r) eq_refl) as Hp.
  destruct (writeField_inj f g [] []) as [E' _]; [done|done| | |by rewrite !app_nil_r|].
  - change (zlen (encodeRule sort_attrs r) < 2^64). lia.
  - unfold payload_small. destruct (fd_payload g) as [p|] eqn:Eg; [|done]. pose proof (writeField_payload g p Eg). rewrite <- E in *. lia.
  - destruct s as [s|]; [|done]. change (Some (encodeRule sort_attrs r) = Some (encodeRule sort_attrs s)) in E'.
    apply (inj Some) in E'. exists s. split; [done|]. split; [done|]. lia.
Qed.
End rule_spec.

(** * Property *)

(** C24: The canonical encoding is exact: two rules with unique attribute names give the
    hash the same bytes exactly when they differ in nothing that counts -- only in the
    order of their lists and dictionaries, in macro call sites, and in nil entries.  In
    particular a change of an attribute, an input or a flag always changes the bytes,
    wherever the boundary of two strings falls. *)
Theorem encodeRule_canonical (sort_attrs : list Attribute -> list Attribute) (r s : Rule) :
  (forall l, sort_attrs l ≡ₚ l /\
     StronglySorted (fun x y => bcompare (get_string (at_Name x)) (get_string (at_Name y)) <> Gt) (sort_attrs l)) ->
  rule_typed r -> rule_typed s -> unique_attributes r -> zlen (HashRuleCommon sort_attrs (Some r)) < 2^64 ->
  HashRuleCommon sort_attrs (Some r) = HashRuleCommon sort_attrs (Some s) <-> same_rule r s.
Proof.
  intros Hs Hr Hs' Hu Hl. split.
  - intros E. destruct (HashRuleCommon_Some_inj sort_attrs r (Some s) Hl E) as (s' & [= <-] & E' & Hl'). by apply (rule_inj sort_attrs Hs).
  - intros H. unfold HashRuleCommon. cbn [fmap option_fmap option_map].
    by rewrite (same_rule_encode sort_attrs Hs r s Hu H).
Qed.

Definition by_name (x y : Attribute) : comparison := bcompare (get_string (at_Name x)) (get_string (at_Name y)).

#[export] Instance by_name_total : TotalCmp by_name.
Proof. split; intros *; unfold by_name; [apply cmp_anti|apply cmp_eq_l|apply cmp_lt_trans]. Qed.

Definition sample_attribute (name value : string) (tags : list bytes) : Attribute :=
  {| at_Name := Some (bs name); at_ExplicitlySpecified := Some true; at_Nodep := None; at_Type := Some 2; at_IntValue := None;
     at_StringValue := Some (bs value); at_BooleanValue := None; at_TristateValue := None; at_StringListValue := tags;
     at_StringDictValue := []; at_FilesetListValue := []; at_LabelListDictValue := []; at_StringListDictValue := [];
     at_IntListValue := []; at_LabelDictUnaryValue := []; at_LabelKeyedStringDictValue := [] |}.

Definition sample_rule (attrs : list Attribute) (inputs : list bytes) : Rule :=
  {| ru_Name := Some (bs "//a:lib"); ru_RuleClass := Some (bs "go_library"); ru_Attribute := Some <$> attrs;
     ru_RuleInput := inputs; ru_RuleOutput := []; ru_DefaultSetting := []; ru_SkylarkEnvironmentHashCode := None |}.

(** One rule, with its attributes and inputs in another order and another call site. *)
Definition rule_one : Rule :=
  sample_rule [sample_attribute "size" "small" []; sample_attribute "generator_location" "BUILD:3" [];
    sample_attribute "tags" "" [bs "x"; bs "y"]] [bs "//a:a.go"; bs "//a:b.go"].
Definition rule_other : Rule :=
  sample_rule [sample_attribute "tags" "" [bs "y"; bs "x"]; sample_attribute "size" "small" []] [bs "//a:b.go"; bs "//a:a.go"].

Lemma encodeRule_canonical_witness :
  HashRuleCommon (sort_func by_name) (Some rule_one) = HashRuleCommon (sort_func by_name) (Some rule_other) /\
  same_rule rule_one rule_other.
Proof.
  assert (HashRuleCommon (sort_func by_name) (Some rule_one) = HashRuleCommon (sort_func by_name) (Some rule_other)) as E
    by (vm_compute; reflexivity).
  split; [exact E|]. destruct (encodeRule_canonical (sort_func by_name) rule_one rule_other) as [H _].
  - intros l. split; [apply sort_func_perm|exact (sort_func_sorted by_name l)].
  - repeat constructor; cbn; done.
  - repeat constructor; cbn; done.
  - apply (bool_decide_unpack _). vm_compute. exact Logic.I.
  - vm_compute. reflexivity.
  - exact (H E).
Defined.
