(* ===== verification/SourceHash.v ===== *)
(** Hashes of source files and of directories ([HashSourceFile], [hashFile] and [hashDir]
    of [core/targethasher/sourcehasher.go]). *)
From Stdlib Require Import ZArith Lia.
From stdpp Require Import gmap pretty.
From S2P Require Import Prelude Bfs Varint.

Local Open Scope Z_scope.

(** * A file system

    What a path leads to; the entries of a directory are in the lexical order in which
    [WalkDir] visits them. *)
#[warnings="-register-all"]
Inductive entry :=
  | EDir (entries : list (bytes * entry))
  | EFile (content : bytes)
  | ELink (target : bytes)
  | EOther.

(** [os.Stat] follows links. *)
Inductive stat_result := NotExist | StatErr (e : string) | IsDir (entries : list (bytes * entry)) | IsFile (content : bytes).

(** [SourceFile] *)
Record SourceFile := { so_Name : option bytes; so_Location : option bytes; so_VisibilityLabel : list bytes }.

#[export] Instance SourceFile_eq_dec : EqDecision SourceFile. Proof. solve_decision. Defined.

(** [cancelCheckInterval] of this package. *)
Definition walkCheckInterval : Z := 1024.

Section hash.
Context (sha1 : bytes -> bytes).

(** The content hash git gives a file. *)
Definition hashFile (content : bytes) : bytes :=
  sha1 (bs "blob " ++ bs (pretty (Z.to_N (zlen content))) ++ [x00] ++ content).

(** What the functions append to the digest of a directory. *)
Definition writeDirectoryUint64 (value : Z) : bytes := rev (put_le 8 value).
Definition writeFramedDirectoryBytes (value : bytes) : bytes := writeDirectoryUint64 (u64 (zlen value)) ++ value.

Inductive marker := directoryEntryMarker | regularFileEntryMarker | symlinkEntryMarker.
Definition marker_byte (m : marker) : byte :=
  match m with directoryEntryMarker => x00 | regularFileEntryMarker => x01 | symlinkEntryMarker => x02 end.

Definition writeDirectoryEntryHeader (m : marker) (name : bytes) : bytes :=
  [marker_byte m] ++ writeFramedDirectoryBytes name.

Section walk.
(** [stableSymlinkTarget], for a link at a path below the root. *)
Context (stableSymlinkTarget : list bytes -> bytes -> res bytes).
Context (ctx : Z -> bool).

(** [walkDirFunc] on one entry, then the walk below it; the state is the entry count and
    the bytes written. *)
Fixpoint walk_entry (path : list bytes) (name : bytes) (e : entry) (st : Z * bytes) : res (Z * bytes) :=
  let '(entryCount, written) := st in
  _ ← (if decide (entryCount mod walkCheckInterval = 0) then guard_err (ctx entryCount) cancelled_err else Ok ());
  let path := path ++ [name] in
  match e with
  | ELink target =>
      target ← stableSymlinkTarget path target;
      Ok (entryCount + 1, written ++ writeDirectoryEntryHeader symlinkEntryMarker name ++ writeFramedDirectoryBytes target)
  | EDir entries =>
      (fix walk_entries (l : list (bytes * entry)) (st : Z * bytes) : res (Z * bytes) :=
         match l with
         | [] => Ok st
         | (n, e) :: l => st ← walk_entry path n e st; walk_entries l st
         end) entries (entryCount + 1, written ++ writeDirectoryEntryHeader directoryEntryMarker name)
  | EFile content =>
      Ok (entryCount + 1, written ++ writeDirectoryEntryHeader regularFileEntryMarker name ++ hashFile content)
  | EOther => Err "unsupported directory entry %q with mode %s"
  end.

Definition walk_entries (path : list bytes) : list (bytes * entry) -> Z * bytes -> res (Z * bytes) :=
  fix walk_entries l st :=
    match l with
    | [] => Ok st
    | (n, e) :: l => st ← walk_entry path n e st; walk_entries l st
    end.

(** The root itself is not written. *)
Definition hashDir (cancelled : bool) (entries : list (bytes * entry)) : res bytes :=
  _ ← guard_err cancelled cancelled_err;
  '(_, written) ← walk_entries [] entries (0, []);
  Ok (sha1 written).
End walk.

(** * Source files *)

Definition _defaultSourceFileVisibility : bytes := bs "//visibility:private".

Definition filterVisibilityLabels (labels : list bytes) : list bytes :=
  filter (fun v => v <> _defaultSourceFileVisibility) labels.

(** [strings.Cut(location, ":")], what comes before. *)
Fixpoint before_colon (l : bytes) : bytes :=
  match l with
  | [] => []
  | c :: l => if decide (c = x3a) then [] else c :: before_colon l
  end.

(** [strings.TrimPrefix] *)
Definition trim_prefix (prefix s : bytes) : bytes :=
  if decide (take (length prefix) s = prefix) then drop (length prefix) s else s.

Section source_file.
Context (stableSymlinkTarget : list bytes -> bytes -> res bytes).
(** [filepath.Clean(workspaceroot)] with the separator, the known hashes, and the disk. *)
Context (root_prefix : bytes) (knownFileHashes : gmap bytes bytes) (stat : bytes -> stat_result).
Context (ctx : Z -> bool) (cancelled : bool).

Definition HashSourceFile (sourceFile : SourceFile) : res bytes :=
  let nonDefaultVisibilities := filterVisibilityLabels (so_VisibilityLabel sourceFile) in
  let location := before_colon (default [] (so_Location sourceFile)) in
  match knownFileHashes !! trim_prefix root_prefix location, nonDefaultVisibilities with
  | Some h, [] => Ok h
  | _, _ =>
      let finish contentHash := sha1 (default [] (so_Name sourceFile) ++ contentHash ++ concat nonDefaultVisibilities) in
      match stat location with
      | NotExist => Ok (sha1 (default [] (so_Name sourceFile)))
      | StatErr e => Err e
      | IsDir entries => contentHash ← hashDir stableSymlinkTarget ctx cancelled entries; Ok (finish contentHash)
      | IsFile content => Ok (finish (hashFile content))
      end
  end.
End source_file.

(** * What the hash of a directory distinguishes *)

(** The walk as a flat list: kind and name of each entry, in order. *)
Inductive flat := FDir (name : bytes) | FFile (name content : bytes) | FLink (name target : bytes).

Section flatten.
Context (stableSymlinkTarget : list bytes -> bytes -> res bytes).

Fixpoint flatten_entry (path : list bytes) (name : bytes) (e : entry) : res (list flat) :=
  let path := path ++ [name] in
  match e with
  | ELink target => target ← stableSymlinkTarget path target; Ok [FLink name target]
  | EDir entries =>
      below ← (fix flatten_entries (l : list (bytes * entry)) : res (list flat) :=
                 match l with
                 | [] => Ok []
                 | (n, e) :: l => x ← flatten_entry path n e; y ← flatten_entries l; Ok (x ++ y)
                 end) entries;
      Ok (FDir name :: below)
  | EFile content => Ok [FFile name content]
  | EOther => Err "unsupported directory entry %q with mode %s"
  end.

Definition flatten (path : list bytes) : list (bytes * entry) -> res (list flat) :=
  fix flatten_entries l :=
    match l with
    | [] => Ok []
    | (n, e) :: l => x ← flatten_entry path n e; y ← flatten_entries l; Ok (x ++ y)
    end.
End flatten.

Definition write_flat (f : flat) : bytes :=
  match f with
  | FDir name => writeDirectoryEntryHeader directoryEntryMarker name
  | FFile name content => writeDirectoryEntryHeader regularFileEntryMarker name ++ hashFile content
  | FLink name target => writeDirectoryEntryHeader symlinkEntryMarker name ++ writeFramedDirectoryBytes target
  end.

(** Induction over the entries of directories. *)
Lemma entry_ind' (P : entry -> Prop) :
  (forall es, Forall (fun ne => P ne.2) es -> P (EDir es)) -> (forall c, P (EFile c)) -> (forall t, P (ELink t)) -> P EOther ->
  forall e, P e.
Proof.
  intros Hd Hf Hl Ho. fix IH 1. intros [es|c|t|]; [|apply Hf|apply Hl|apply Ho].
  apply Hd. revert es. fix IHl 1. intros [|[n e] es]; [constructor|]. constructor; [apply IH|apply IHl].
Qed.

Section walk_spec.
Context (stableSymlinkTarget : list bytes -> bytes -> res bytes) (ctx : Z -> bool).

Definition written_flat (l : list flat) : bytes := concat (write_flat <$> l).

Lemma walk_entry_spec e path name l c w :
  flatten_entry stableSymlinkTarget path name e = Ok l ->
  unless_done (fun _ : unit => ctx) (walk_entry stableSymlinkTarget ctx path name e (c, w)) (fun st =>
    st = (c + zlen l, w ++ written_flat l)).
Proof.
  revert path name l c w. induction e as [es IH|content|target|] using entry_ind'; intros path name l c w E;
    cbn [walk_entry]; (eapply unless_done_bind; [|intros _ _]);
    try (case_decide; [apply (unless_done_guard (fun _ => ctx) () c)|by apply unless_done_ok]).
  - cbn [flatten_entry] in E. apply bind_Ok in E as (below & E & [= <-]).
    enough (forall es, Forall (fun ne : bytes * entry => forall path name l c w,
        flatten_entry stableSymlinkTarget path name ne.2 = Ok l ->
        unless_done (fun _ : unit => ctx) (walk_entry stableSymlinkTarget ctx path name ne.2 (c, w)) (fun st =>
          st = (c + zlen l, w ++ written_flat l))) es ->
      forall path l c w, flatten stableSymlinkTarget path es = Ok l ->
      unless_done (fun _ : unit => ctx) (walk_entries stableSymlinkTarget ctx path es (c, w)) (fun st =>
        st = (c + zlen l, w ++ written_flat l))) as H.
    { eapply unless_done_mono; [apply (H es IH (path ++ [name]) below _ _ E)|]. intros st ->.
      unfold written_flat. cbn [fmap list_fmap concat write_flat]. rewrite zlen_cons, <- app_assoc. f_equal. lia. }
    clear. intros es HF. induction HF as [|[n e] es He _ IH]; intros path l c w E; cbn in E.
    { injection E as <-. apply unless_done_ok. rewrite zlen_nil, app_nil_r. f_equal. lia. }
    apply bind_Ok in E as (x & Ex & E). apply bind_Ok in E as (y & Ey & [= <-]).
    cbn [walk_entries]. eapply unless_done_bind; [by apply He|]. intros st ->.
    eapply unless_done_mono; [by apply IH|]. intros st ->. unfold written_flat.
    rewrite fmap_app, concat_app, zlen_app, <- app_assoc. f_equal. lia.
  - injection E as <-. apply unless_done_ok. unfold written_flat. cbn [fmap list_fmap concat write_flat]. by rewrite app_nil_r.
  - cbn in E. apply bind_Ok in E as (t & -> & [= <-]). cbn [mbind res_bind]. apply unless_done_ok. unfold written_flat.
    cbn [fmap list_fmap concat write_flat]. by rewrite app_nil_r.
  - done.
Qed.

Lemma walk_entries_spec es path l c w :
  flatten stableSymlinkTarget path es = Ok l ->
  unless_done (fun _ : unit => ctx) (walk_entries stableSymlinkTarget ctx path es (c, w)) (fun st =>
    st = (c + zlen l, w ++ written_flat l)).
Proof.
  revert l c w. induction es as [|[n e] es IH]; intros l c w E; cbn in E.
  { injection E as <-. apply unless_done_ok. rewrite zlen_nil, app_nil_r. f_equal. lia. }
  apply bind_Ok in E as (x & Ex & E). apply bind_Ok in E as (y & Ey & [= <-]).
  cbn [walk_entries]. eapply unless_done_bind; [by apply walk_entry_spec|]. intros st ->.
  eapply unless_done_mono; [by apply IH|]. intros st ->. unfold written_flat.
  rewrite fmap_app, concat_app, zlen_app, <- app_assoc. f_equal. lia.
Qed.
End walk_spec.

(** ** The bytes written decode uniquely *)

Definition flat_small (f : flat) : Prop :=
  match f with FDir n => zlen n < 2^64 | FFile n _ => zlen n < 2^64 | FLink n t => zlen n < 2^64 /\ zlen t < 2^64 end.

Lemma framed_inj a b x y : zlen a < 2^64 -> zlen b < 2^64 ->
  writeFramedDirectoryBytes a ++ x = writeFramedDirectoryBytes b ++ y -> a = b /\ x = y.
Proof.
  intros Ha Hb E. unfold writeFramedDirectoryBytes, writeDirectoryUint64 in E. rewrite <- !app_assoc in E.
  apply app_inj_1 in E as [El E]; [|by rewrite !length_rev, !length_put_le].
  apply (f_equal (@rev byte)) in El. rewrite !rev_involutive in El. apply (f_equal get_le) in El.
  pose proof (zlen_nonneg a). pose proof (zlen_nonneg b). rewrite !u64_small in El by lia.
  rewrite !get_put_le_small in El by (change (256 ^ Z.of_nat 8) with (2^64); lia).
  apply app_inj_1 in E; [done|unfold zlen in El; lia].
Qed.

Context (sha1_length : forall x, zlen (sha1 x) = 20).

Lemma written_flat_inj l k :
  Forall flat_small l -> Forall flat_small k ->
  (forall n n' c c', FFile n c ∈ l -> FFile n' c' ∈ k -> hashFile c = hashFile c' -> c = c') ->
  written_flat l = written_flat k -> l = k.
Proof.
  revert k. induction l as [|f l IH]; intros [|g k] Hl Hk Hc E; [done|..].
  - destruct g; cbn in E; discriminate E.
  - destruct f; cbn in E; discriminate E.
  - apply Forall_cons in Hl as [Hf Hl]. apply Forall_cons in Hk as [Hg Hk].
    assert (l = k -> f = g -> f :: l = g :: k) as Hcons by congruence.
    unfold written_flat in E. cbn [fmap list_fmap concat] in E.
    assert (forall n n' c c', FFile n c ∈ l -> FFile n' c' ∈ k -> hashFile c = hashFile c' -> c = c') as Hc'.
    { intros n n' c c' H1 H2. apply (Hc n n'); by right. }
    destruct f as [n|n c|n t], g as [n'|n' c'|n' t']; cbn [write_flat] in E; unfold writeDirectoryEntryHeader in E;
      rewrite <- !app_assoc in E; cbn [app marker_byte] in E; try discriminate E;
      apply (f_equal (@tail byte)) in E; cbn [tail] in E; cbn [flat_small] in Hf, Hg.
    + apply framed_inj in E as [-> E]; [|done..]. apply Hcons; [by apply IH|done].
    + apply framed_inj in E as [-> E]; [|done..]. apply app_inj_1 in E as [Eh E].
      2:{ pose proof (sha1_length (bs "blob " ++ bs (pretty (Z.to_N (zlen c))) ++ [x00] ++ c)) as H1.
          pose proof (sha1_length (bs "blob " ++ bs (pretty (Z.to_N (zlen c'))) ++ [x00] ++ c')) as H2.
          unfold hashFile, zlen in *. lia. }
      apply Hcons; [by apply IH|]. rewrite (Hc n' n' c c'); [done|by left|by left|done].
    + destruct Hf, Hg. apply framed_inj in E as [-> E]; [|done..]. apply framed_inj in E as [-> E]; [|done..].
      apply Hcons; [by apply IH|done].
Qed.

Lemma hashDir_spec stable ctx es l : flatten stable [] es = Ok l ->
  unless_done (fun _ : unit => ctx) (hashDir stable ctx false es) (fun h => h = sha1 (written_flat l)).
Proof.
  intros E. unfold hashDir. cbn [guard_err mbind res_bind].
  eapply unless_done_bind; [by apply walk_entries_spec|]. intros st ->. by apply unless_done_ok.
Qed.
End hash.

(** * Properties *)

(** The hash of a directory is exact about the flattened walk, and about nothing else.
    Without collisions of the digest, two directories get one hash exactly when their
    walks list the same kinds, names, contents and link targets in the same order --
    wherever the boundary of two names falls, but whatever directory each entry is in. *)
Theorem hashDir_flat (sha1 : bytes -> bytes) (stable : list bytes -> bytes -> res bytes) (ctx : Z -> bool)
    (es es' : list (bytes * entry)) (l l' : list flat) :
  (forall x, zlen (sha1 x) = 20) -> flatten stable [] es = Ok l -> flatten stable [] es' = Ok l' ->
  Forall flat_small l -> Forall flat_small l' ->
  (forall n n' c c', FFile n c ∈ l -> FFile n' c' ∈ l' -> hashFile sha1 c = hashFile sha1 c' -> c = c') ->
  (sha1 (written_flat sha1 l) = sha1 (written_flat sha1 l') -> written_flat sha1 l = written_flat sha1 l') ->
  unless_done (fun _ : unit => ctx)
    (h ← hashDir sha1 stable ctx false es; h' ← hashDir sha1 stable ctx false es'; Ok (h, h'))
    (fun hh => hh.1 = hh.2 <-> l = l').
Proof.
  intros Hlen El El' Hl Hl' Hc Hw. eapply unless_done_bind; [by apply hashDir_spec|]. intros h ->.
  eapply unless_done_bind; [by apply hashDir_spec|]. intros h' ->. apply unless_done_ok. cbn. split; [|by intros ->].
  intros E. apply (written_flat_inj sha1 Hlen l l' Hl Hl' Hc). by apply Hw.
Qed.

(** A digest for the samples: a polynomial of the bytes. *)
Definition toy_sha1 (x : bytes) : bytes := put_le 20 (foldl (fun acc b => (acc * 257 + b2z b + 1) mod 2^160) 0 x).

Lemma toy_sha1_length x : zlen (toy_sha1 x) = 20.
Proof. unfold toy_sha1, zlen. by rewrite length_put_le. Qed.

Definition tree_one : list (bytes * entry) := [(bs "a", EDir [(bs "b", EFile (bs "1")); (bs "c", EFile (bs "2"))])].
Definition tree_other : list (bytes * entry) := [(bs "a", EDir [(bs "b", EFile (bs "1"))]); (bs "d", EFile (bs "2"))].
Definition keep_target (_ : list bytes) (t : bytes) : res bytes := Ok t.

Lemma hashDir_flat_witness : exists h h',
  hashDir toy_sha1 keep_target (fun _ => false) false tree_one = Ok h /\
  hashDir toy_sha1 keep_target (fun _ => false) false tree_other = Ok h' /\ h = h' ->
  [FDir (bs "a"); FFile (bs "b") (bs "1"); FFile (bs "c") (bs "2")] = [FDir (bs "a"); FFile (bs "b") (bs "1"); FFile (bs "d") (bs "2")].
Proof.
  destruct (hashDir_flat toy_sha1 keep_target (fun _ => false) tree_one tree_other
    [FDir (bs "a"); FFile (bs "b") (bs "1"); FFile (bs "c") (bs "2")]
    [FDir (bs "a"); FFile (bs "b") (bs "1"); FFile (bs "d") (bs "2")]) as [[_ (s & i & H)]|([h h'] & E & H)].
  - exact toy_sha1_length.
  - reflexivity.
  - reflexivity.
  - repeat constructor.
  - repeat constructor.
  - intros n n' c c' H H'.
    repeat (apply elem_of_cons in H as [H|H]; [try discriminate H; injection H as -> ->|]); [..|by apply elem_of_nil in H];
    repeat (apply elem_of_cons in H' as [H'|H']; [try discriminate H'; injection H' as -> ->|]); try (by apply elem_of_nil in H');
      intros E; vm_compute in E; first [reflexivity|discriminate E].
  - intros E. vm_compute in E. discriminate E.
  - discriminate H.
  - exists h, h'. intros (_ & _ & Ehh). exact (proj1 H Ehh).
Defined.

(** Moving a file out of a subdirectory, to a place that sorts after it, leaves the hash
    of a directory as it was: [a/b a/c] and [a/b c] hash alike, with any digest. *)
Theorem hashDir_ignores_nesting (sha1 : bytes -> bytes) (stable : list bytes -> bytes -> res bytes) (ctx : Z -> bool)
    (cancelled : bool) (b c : bytes) :
  hashDir sha1 stable ctx cancelled [(bs "a", EDir [(bs "b", EFile b); (bs "c", EFile c)])] =
  hashDir sha1 stable ctx cancelled [(bs "a", EDir [(bs "b", EFile b)]); (bs "c", EFile c)].
Proof.
  unfold hashDir. f_equal. cbn. destruct (ctx 0); cbn; [done|]. reflexivity.
Qed.
