(* ===== verification/TargetHasher.v ===== *)
(** The graph of target hashes ([core/targethasher/graph.go]): from Bazel's query result
    to targets with Merkle hashes in topological order. *)
From Stdlib Require Import ZArith Lia.
From stdpp Require Import gmap fin_maps.
From S2P Require Import Prelude Bfs RuleHash SourceHash.

Local Open Scope Z_scope.

(** * Data *)

Definition externalWorkspaceRulePrefix : bytes := bs "//external:".
Definition externalWorkspaceFilePrefix : bytes := bs "@".
Definition SourceFileType : bytes := bs "source file".
Definition ExternalRuleType : bytes := bs "external rule".
Definition PackageGroup : bytes := bs "package group".
Definition GeneratedFileType : bytes := bs "generated file".
Definition UnknownRuleType : bytes := bs "unknown rule".

(** A target of Bazel's query result; [*t.Type] selects one of the fields. *)
Inductive discriminator := RULE | SOURCE_FILE | GENERATED_FILE | PACKAGE_GROUP | ENVIRONMENT_GROUP.

Record QueryTarget := {
  qt_Type : option discriminator;
  qt_Rule : option Rule;
  qt_SourceFile : option SourceFile;
  qt_GeneratedFile : option (bytes * bytes);  (** its name and generating rule *)
  qt_PackageGroup : option bytes;
}.

(** [Target]; a nil hash is [None]. *)
Record HTarget := {
  h_Name : bytes;
  h_Hash : option bytes;
  h_HashWithoutDeps : option bytes;
  h_RuleType : bytes;
  h_Deps : list bytes;
  h_Tags : list bytes;
  h_Root : bool;
  h_External : bool;
  h_SourceFile : option SourceFile;
  h_Rule : option Rule;
  h_Attributes : list (option Attribute);
}.

(** What [labels.Parse] of buildtools splits a label into. *)
Record BazelLabel := { lb_Repository : bytes; lb_Package : bytes; lb_Target : bytes }.

Abbreviation HTargets := (gmap bytes HTarget).

Definition has_prefix (prefix s : bytes) : bool := bool_decide (take (length prefix) s = prefix).

Definition isExternalTarget (targetName : bytes) : bool := has_prefix externalWorkspaceFilePrefix targetName.

(** [strings.Index(s, "//")] and what comes before it. *)
Fixpoint before_slashes (s : bytes) : option bytes :=
  match s with
  | x2f :: x2f :: _ => Some []
  | c :: s => cons c <$> before_slashes s
  | [] => None
  end.

(** [strings.TrimLeft(s, "@")] *)
Fixpoint trim_at (s : bytes) : bytes :=
  match s with
  | x40 :: s => trim_at s
  | s => s
  end.

Definition externalTargetForRule (t : bytes) : bytes :=
  externalWorkspaceRulePrefix ++ trim_at (default t (before_slashes t)).

Definition CanBeRoot (ruleType : bytes) : bool :=
  negb (bool_decide (ruleType = SourceFileType)) && negb (bool_decide (ruleType = PackageGroup)).

Definition set_hash (h hwd : option bytes) (t : HTarget) : HTarget :=
  {| h_Name := h_Name t; h_Hash := h; h_HashWithoutDeps := hwd; h_RuleType := h_RuleType t; h_Deps := h_Deps t;
     h_Tags := h_Tags t; h_Root := h_Root t; h_External := h_External t; h_SourceFile := h_SourceFile t;
     h_Rule := h_Rule t; h_Attributes := h_Attributes t |}.
Definition set_root (t : HTarget) : HTarget :=
  {| h_Name := h_Name t; h_Hash := h_Hash t; h_HashWithoutDeps := h_HashWithoutDeps t; h_RuleType := h_RuleType t;
     h_Deps := h_Deps t; h_Tags := h_Tags t; h_Root := true; h_External := h_External t; h_SourceFile := h_SourceFile t;
     h_Rule := h_Rule t; h_Attributes := h_Attributes t |}.
Definition set_deps (deps : list bytes) (t : HTarget) : HTarget :=
  {| h_Name := h_Name t; h_Hash := h_Hash t; h_HashWithoutDeps := h_HashWithoutDeps t; h_RuleType := h_RuleType t;
     h_Deps := deps; h_Tags := h_Tags t; h_Root := h_Root t; h_External := h_External t; h_SourceFile := h_SourceFile t;
     h_Rule := h_Rule t; h_Attributes := h_Attributes t |}.

(** A target made up during hashing. *)
Definition made_target (name ruleType : bytes) (hash hwd : option bytes) (external : bool)
  (sf : option SourceFile) : HTarget :=
  {| h_Name := name; h_Hash := hash; h_HashWithoutDeps := hwd; h_RuleType := ruleType; h_Deps := []; h_Tags := [];
     h_Root := false; h_External := external; h_SourceFile := sf; h_Rule := None; h_Attributes := [] |}.

(** * From the query result to targets *)

Section convert.
Context (parse : bytes -> BazelLabel) (sha1 : bytes -> bytes) (sort_attrs : list Attribute -> list Attribute).
(** [Attribute_STRING_LIST] *)
Context (attribute_string_list : Z).

Definition attr_name (a : option Attribute) : bytes := match a with Some a => get_string (at_Name a) | None => [] end.

Definition urlAttrs : list bytes := [bs "url"; bs "urls"].

Definition removeURLAttrs (rule : option Rule) : option Rule :=
  match rule with
  | None => None
  | Some r =>
      if existsb (fun a => bool_decide (attr_name a = bs "sha256" \/ attr_name a = bs "integrity")) (ru_Attribute r) then
        Some {| ru_Name := ru_Name r; ru_RuleClass := ru_RuleClass r;
                ru_Attribute := filter (fun a => attr_name a ∉ urlAttrs) (ru_Attribute r);
                ru_RuleInput := ru_RuleInput r; ru_RuleOutput := ru_RuleOutput r; ru_DefaultSetting := ru_DefaultSetting r;
                ru_SkylarkEnvironmentHashCode := ru_SkylarkEnvironmentHashCode r |}
      else rule
  end.

Definition isDoubledPackageLabel (label : bytes) : bool :=
  let l := parse label in
  negb (bool_decide (lb_Package l = [])) && has_prefix (lb_Package l ++ bs "/") (lb_Target l).

(** The first list attribute called "tags"; a nil attribute has no name, a nil rule is
    dereferenced. *)
Fixpoint first_tags (attrs : list (option Attribute)) : list bytes :=
  match attrs with
  | [] => []
  | Some a :: attrs =>
      if decide (at_Type a = Some attribute_string_list /\ get_string (at_Name a) = bs "tags") then at_StringListValue a
      else first_tags attrs
  | None :: attrs => first_tags attrs
  end.
Definition TagsFromRule (r : option Rule) : res (list bytes) :=
  match r with None => Panic | Some r => Ok (first_tags (ru_Attribute r)) end.

Definition rule_name (r : option Rule) : bytes := match r with Some r => get_string (ru_Name r) | None => [] end.
Definition rule_deps (r : option Rule) : list bytes :=
  sort_func bcompare (filter (fun d => isDoubledPackageLabel d = false) (match r with Some r => ru_RuleInput r | None => [] end)).

Definition toTarget (t : QueryTarget) : res HTarget :=
  match qt_Type t with
  | None => Panic
  | Some RULE =>
      let targetName := rule_name (qt_Rule t) in
      let deps := rule_deps (qt_Rule t) in
      if has_prefix externalWorkspaceRulePrefix targetName then
        let rule := removeURLAttrs (qt_Rule t) in
        Ok {| h_Name := targetName; h_Hash := None; h_HashWithoutDeps := Some (sha1 (HashRuleCommon sort_attrs rule));
              h_RuleType := ExternalRuleType; h_Deps := deps; h_Tags := []; h_Root := false; h_External := true;
              h_SourceFile := None; h_Rule := rule; h_Attributes := [] |}
      else
        tags ← TagsFromRule (qt_Rule t);
        Ok {| h_Name := targetName; h_Hash := None; h_HashWithoutDeps := Some (sha1 (HashRuleCommon sort_attrs (qt_Rule t)));
              h_RuleType := match qt_Rule t with Some r => get_string (ru_RuleClass r) | None => [] end; h_Deps := deps;
              h_Tags := tags; h_Root := false; h_External := isExternalTarget targetName; h_SourceFile := None;
              h_Rule := qt_Rule t; h_Attributes := match qt_Rule t with Some r => ru_Attribute r | None => [] end |}
  | Some SOURCE_FILE =>
      let targetName := match qt_SourceFile t with Some f => get_string (so_Name f) | None => [] end in
      Ok (made_target targetName SourceFileType None None (isExternalTarget targetName) (qt_SourceFile t))
  | Some GENERATED_FILE =>
      let '(targetName, rule) := default ([], []) (qt_GeneratedFile t) in
      Ok (set_deps [rule] (made_target targetName GeneratedFileType None None (isExternalTarget targetName) None))
  | Some PACKAGE_GROUP =>
      let targetName := default [] (qt_PackageGroup t) in
      Ok (made_target targetName PackageGroup None None (isExternalTarget targetName) None)
  | Some ENVIRONMENT_GROUP => Err "cannot handle target type %q"
  end.

(** [toTarget] is pure, so the goroutines do not interact; of several failures the model
    takes the first. *)
Definition convertProtosToTargets (cancelled : bool) (protos : list QueryTarget) : res (list HTarget) :=
  each (fun t => _ ← guard_err cancelled cancelled_err; toTarget t) protos.

(** [t.GetRule() != nil && strings.HasPrefix(t.GetRule().GetName(), "//external:")] *)
Definition external_rule (t : QueryTarget) : Prop :=
  is_Some (qt_Rule t) /\ has_prefix externalWorkspaceRulePrefix (rule_name (qt_Rule t)) = true.

#[export] Instance external_rule_dec t : Decision (external_rule t).
Proof. unfold external_rule. apply _. Defined.

Definition add_targets (targets : HTargets) (l : list HTarget) : HTargets :=
  foldl (fun m t => <[h_Name t := t]> m) targets l.

Definition GetInternalTargetsWithoutHashAndRootInfo (cancelled : bool) (r : list QueryTarget) : res HTargets :=
  results ← convertProtosToTargets cancelled (filter (fun t => ~ external_rule t) r);
  Ok (add_targets ∅ results).
End convert.

(** * Hashing *)

(** [HashRecursively] changes the targets; the number of its calls tells when the
    context is polled. *)
Record hstate := { hs_targets : HTargets; hs_calls : Z }.

Definition set_targets (f : HTargets -> HTargets) (s : hstate) : hstate :=
  {| hs_targets := f (hs_targets s); hs_calls := hs_calls s |}.

(** Computations on the state; [None] when the fuel runs out. *)
Definition HM (A : Type) : Type := hstate -> option (res A * hstate).

#[export] Instance HM_ret : MRet HM := fun A a s => Some (Ok a, s).
#[export] Instance HM_bind : MBind HM := fun A B f m s =>
  match m s with
  | Some (Ok a, s) => f a s
  | Some (Err e, s) => Some (Err e, s)
  | Some (Panic, s) => Some (Panic, s)
  | None => None
  end.

Definition lift_res {A} (r : res A) : HM A := fun s => Some (r, s).
Definition out_of_fuel {A} : HM A := fun _ => None.
Definition get_targets : HM HTargets := fun s => Some (Ok (hs_targets s), s).
Definition update (f : HTargets -> HTargets) : HM () := fun s => Some (Ok (), set_targets f s).

Record HashParam := {
  hp_noOp : bool;  (** the hasher is a [*noOpHasher] *)
  hp_FullHashRepos : gset bytes;
  hp_Excluded : bytes -> bool;  (** some excluded regex matches *)
  hp_UseBzlmod : bool;
}.

Section hashing.
Context (parse : bytes -> BazelLabel) (sha1 : bytes -> bytes) (sort_attrs : list Attribute -> list Attribute).
(** [HashSourceFile] of the hasher; a nil hash is [None]. *)
Context (hash_source : option SourceFile -> res (option bytes)).
(** [filepath.Join(workspaceRoot, package, target)] *)
Context (join_path : bytes -> bytes -> bytes).
Context (ctx : Z -> bool) (p : HashParam).

Definition poll_ctx : HM () := fun s =>
  Some (guard_err (ctx (hs_calls s)) cancelled_err, {| hs_targets := hs_targets s; hs_calls := hs_calls s + 1 |}).

(** The name a label is external to, unless its files are hashed one by one. *)
Definition collapsible (name : bytes) : bool :=
  negb (hp_UseBzlmod p) && isExternalTarget name && negb (bool_decide (lb_Repository (parse name) = [])) &&
  negb (bool_decide (lb_Repository (parse name) ∈ hp_FullHashRepos p)).

(** The external targets without a rule of their own. *)
Definition collapsed_type (ruleType : bytes) : bool :=
  bool_decide (ruleType = SourceFileType \/ ruleType = GeneratedFileType \/ ruleType = PackageGroup).

Definition synthetic (name : bytes) : HTarget :=
  made_target name SourceFileType None None false
    (Some {| so_Name := Some name; so_Location := Some (join_path (lb_Package (parse name)) (lb_Target (parse name)));
             so_VisibilityLabel := [] |}).

(** The key of the target to hash for a name, or the hash when there is nothing to do. *)
Definition find_target (name : bytes) : HM (bytes + bytes) :=
  targets ← get_targets;
  if collapsible name && match targets !! name with None => true | Some t => collapsed_type (h_RuleType t) end then
    let ext := externalTargetForRule name in
    match targets !! ext with
    | Some _ => mret (inl ext)
    | None =>
        if hp_Excluded p name then
          _ ← update (insert name (made_target name ExternalRuleType (Some []) (Some []) false None));
          mret (inr [])
        else lift_res (Err "cannot find external repository %s from external target %s")
    end
  else
    match targets !! name with
    | Some _ => mret (inl name)
    | None =>
        _ ← lift_res (guard_err (negb (bool_decide (lb_Repository (parse name) = []))) "unexpected repository from target %s");
        _ ← update (insert name (synthetic name));
        mret (inl name)
    end.

(** Writes the hash of the target at [key] to the target called [name] when that is
    another one. *)
Definition copy_hash (name hash : bytes) (hwd : option bytes) (external : bool) : HTargets -> HTargets :=
  insert name (made_target name UnknownRuleType (Some hash) hwd external None).

(** [h.Write] of the hash of each dependency. *)
Fixpoint write_deps (hash_recursively : bytes -> HM (option bytes)) (deps : list bytes) (written : bytes) : HM bytes :=
  match deps with
  | [] => mret written
  | dep :: deps => dephash ← hash_recursively dep; write_deps hash_recursively deps (written ++ default [] dephash)
  end.

(** The [switch] on the rule type: the hash, and the hash without dependencies. *)
Definition hash_target (hash_recursively : bytes -> HM (option bytes)) (name : bytes) (target : HTarget) :
  HM (option bytes * option bytes) :=
  if decide (h_RuleType target = SourceFileType) then
    h ← lift_res (hash_source (h_SourceFile target)); mret (h, None)
  else if decide (h_RuleType target = GeneratedFileType) then
    match h_Deps target with
    | [] => lift_res Panic
    | dep :: _ => h ← hash_recursively dep; mret (h, None)
    end
  else if decide (h_RuleType target = PackageGroup) then mret (Some (sha1 name), None)
  else
    let hashWithoutDeps := match default [] (h_HashWithoutDeps target) with
                           | [] => sha1 (HashRuleCommon sort_attrs (h_Rule target)) | h => h end in
    written ← write_deps hash_recursively (h_Deps target) hashWithoutDeps;
    mret (Some (sha1 written), Some hashWithoutDeps).

(** What is stored for a new hash; the target at [key] is called [key]. *)
Definition store_hash (name key : bytes) (hash hwd : option bytes) : HM () :=
  match hash with
  | None => mret ()
  | Some hash =>
      let '(hash, hwd) := if hp_noOp p then ([], Some []) else (hash, hwd) in
      _ ← update (alter (set_hash (Some hash) hwd) key);
      targets ← get_targets;
      if decide (name <> key) then
        update (copy_hash name hash hwd (match targets !! key with Some t => h_External t | None => false end))
      else mret ()
  end.

(** The rest of [HashRecursively], for a target found at [key]. *)
Definition hash_found (hash_recursively : bytes -> HM (option bytes)) (name key : bytes) : HM (option bytes) :=
  targets ← get_targets;
  match targets !! key with
  | None => lift_res Panic
  | Some target =>
      match h_Hash target with
      | Some h =>
          let hwd := h_HashWithoutDeps target in
          _ ← (match targets !! name with
               | Some _ => update (alter (set_hash (Some h) hwd) name)
               | None => update (copy_hash name h hwd (h_External target))
               end);
          mret (Some h)
      | None =>
          if hp_Excluded p name then
            match targets !! name with
            | None => lift_res Panic
            | Some _ => _ ← update (alter (set_hash (Some []) (Some [])) name); mret (Some [])
            end
          else
            _ ← update (alter (fun t => set_hash (Some []) (h_HashWithoutDeps t) t) key);
            '(hash, hwd) ← hash_target hash_recursively name target;
            _ ← store_hash name key hash hwd;
            mret hash
      end
  end.

Fixpoint HashRecursively (fuel : nat) (name : bytes) : HM (option bytes) :=
  match fuel with
  | O => out_of_fuel
  | S fuel =>
      _ ← poll_ctx;
      targets ← get_targets;
      match targets !! name ≫= h_Hash with
      | Some h => mret (Some h)
      | None =>
          found ← find_target name;
          match found with
          | inr h => mret (Some h)
          | inl key => hash_found (HashRecursively fuel) name key
          end
      end
  end.
End hashing.

(** * The order of the result *)

Record tstate := { ts_targets : HTargets; ts_order : list bytes; ts_visited : gset bytes; ts_calls : Z }.

Section toposort.
Context (ctx : Z -> bool).

(** The dependencies of a target are sorted in place. *)
Fixpoint ToposortRecursively (fuel : nat) (name : bytes) (s : tstate) : option (res tstate) :=
  match fuel with
  | O => None
  | S fuel =>
      if ctx (ts_calls s) then Some (Err cancelled_err)
      else
        let s := {| ts_targets := ts_targets s; ts_order := ts_order s; ts_visited := ts_visited s; ts_calls := ts_calls s + 1 |} in
        if decide (name ∈ ts_visited s) then Some (Ok s)
        else
          let s := {| ts_targets := ts_targets s; ts_order := ts_order s; ts_visited := {[ name ]} ∪ ts_visited s;
                      ts_calls := ts_calls s |} in
          match ts_targets s !! name with
          | None => Some (Ok s)
          | Some target =>
              let deps := sort_func bcompare (h_Deps target) in
              let s := {| ts_targets := <[name := set_deps deps target]> (ts_targets s); ts_order := ts_order s;
                          ts_visited := ts_visited s; ts_calls := ts_calls s |} in
              match (fix visit_deps (deps : list bytes) (s : tstate) : option (res tstate) :=
                       match deps with
                       | [] => Some (Ok s)
                       | dep :: deps =>
                           match ToposortRecursively fuel dep s with
                           | Some (Ok s) => visit_deps deps s
                           | r => r
                           end
                       end) deps s with
              | Some (Ok s) => Some (Ok {| ts_targets := ts_targets s; ts_order := ts_order s ++ [name];
                                           ts_visited := ts_visited s; ts_calls := ts_calls s |})
              | r => r
              end
          end
  end.
End toposort.

(** * External repositories under bzlmod *)

(** What follows the "@@" of a canonical label, up to "//". *)
Definition bzlmodRepoName (targetName : bytes) : bytes :=
  if has_prefix (bs "@@") targetName then default [] (before_slashes (drop 2 targetName)) else [].

(** The canonical name, and the apparent one it was mapped from. *)
Definition resolveBzlmodRepo (targetName : bytes) (repoMapping : gmap bytes bytes) : bytes * bytes :=
  match bzlmodRepoName targetName with
  | [] =>
      if negb (has_prefix (bs "@") targetName) || has_prefix (bs "@@") targetName then ([], [])
      else match before_slashes (drop 1 targetName) with
           | None => ([], [])
           | Some name => match default [] (repoMapping !! name) with [] => ([], []) | repo => (repo, name) end
           end
  | repo => (repo, [])
  end.

Section bzlmod.
Context (sha1 : bytes -> bytes) (excluded : bytes -> bool) (fullHashRepos : gset bytes).
Context (repoMarkerHashes repoMapping : gmap bytes bytes).

Definition shouldCollapseToBzlmodRepo (target : HTarget) (repo : bytes) : bool :=
  negb (bool_decide (repo = [])) && negb (bool_decide (repo ∈ fullHashRepos)) &&
  bool_decide (h_RuleType target = SourceFileType \/ h_RuleType target = GeneratedFileType) &&
  bool_decide (h_Hash target = None) && negb (excluded (h_Name target)).

(** The body of the loop over the targets. *)
Definition collapse_target (st : HTargets * gmap bytes bytes) (nt : bytes * HTarget) : res (HTargets * gmap bytes bytes) :=
  let '(targets, repoHashes) := st in
  let '(repo, mappedFrom) := resolveBzlmodRepo (h_Name nt.2) repoMapping in
  if negb (shouldCollapseToBzlmodRepo nt.2 repo) then Ok st
  else if negb (bool_decide (mappedFrom = [])) && bool_decide (mappedFrom ∈ fullHashRepos) then Ok st
  else match repoHashes !! repo with
       | Some h => Ok (<[nt.1 := set_hash (Some h) (Some h) nt.2]> targets, repoHashes)
       | None =>
           match default [] (repoMarkerHashes !! repo) with
           | [] => if decide (mappedFrom <> []) then Ok st else Err "bzlmod repo %q has targets in query but no marker file"
           | markerHash =>
               let h := sha1 markerHash in
               Ok (<[nt.1 := set_hash (Some h) (Some h) nt.2]> targets, <[repo := h]> repoHashes)
           end
       end.

(** Go visits the targets in an order of its own. *)
Definition HashExternalTargetsBzlmod (range : HTargets -> list (bytes * HTarget)) (targets : HTargets) : res HTargets :=
  if decide (size repoMarkerHashes = 0%nat) then Ok targets
  else '(targets, _) ← fold_res collapse_target (targets, ∅) (range targets); Ok targets.
End bzlmod.

(** * The whole graph *)

Definition not_roots (targets : list (bytes * HTarget)) : gset bytes :=
  foldl (fun s nt => foldl (fun s dep => {[ dep ]} ∪ s) s (h_Deps nt.2)) ∅ targets.

Definition GetTopologicalRootsAndIdentifyBuildableRoots (range : HTargets -> list (bytes * HTarget)) (targets : HTargets) :
  list bytes * HTargets :=
  let notRoots := not_roots (range targets) in
  let '(roots, targets) :=
    foldl (fun '(roots, targets) nt =>
      if decide (nt.1 ∈ notRoots) then (roots, targets)
      else (roots ++ [nt.1], if CanBeRoot (h_RuleType nt.2) then <[nt.1 := set_root nt.2]> targets else targets))
      ([], targets) (range targets) in
  (sort_func bcompare roots, targets).

(** [Result]; the warnings are never written. *)
Record Result := {
  rt_TargetNames : list bytes;
  rt_Targets : HTargets;
  rt_AllTargetsFileHashes : gmap bytes bytes;
}.

Section graph.
Context (parse : bytes -> BazelLabel) (sha1 : bytes -> bytes) (sort_attrs : list Attribute -> list Attribute).
Context (attribute_string_list : Z).
Context (hash_source : option SourceFile -> res (option bytes)).
Context (join_path : bytes -> bytes -> bytes).
Context (range : HTargets -> list (bytes * HTarget)).
(** The context, as the hashing and the sorting poll it and as the conversions do. *)
Context (ctx order_ctx : Z -> bool) (cancelled : bool).

Definition no_exclusions (p : HashParam) : HashParam :=
  {| hp_noOp := hp_noOp p; hp_FullHashRepos := hp_FullHashRepos p; hp_Excluded := fun _ => false;
     hp_UseBzlmod := hp_UseBzlmod p |}.

(** [for _, name := range names { HashRecursively(...) }] *)
Fixpoint hash_all (p : HashParam) (fuel : nat) (names : list bytes) : HM () :=
  match names with
  | [] => mret ()
  | name :: names =>
      _ ← HashRecursively parse sha1 sort_attrs hash_source join_path ctx p fuel name;
      hash_all p fuel names
  end.

Definition HashExternalTargets (p : HashParam) (fuel : nat) (r : list QueryTarget) : HM () :=
  results ← lift_res (convertProtosToTargets parse sha1 sort_attrs attribute_string_list cancelled
                        (filter external_rule r));
  _ ← update (fun targets => add_targets targets results);
  hash_all (no_exclusions p) fuel (h_Name <$> filter (fun t => h_RuleType t = ExternalRuleType) results).

(** The sequential targets that exist are hashed first; [ToSlice] has an order of its own. *)
Fixpoint hash_existing (p : HashParam) (fuel : nat) (names : list bytes) : HM () :=
  match names with
  | [] => mret ()
  | name :: names =>
      targets ← get_targets;
      match targets !! name with
      | None => hash_existing p fuel names
      | Some _ =>
          _ ← HashRecursively parse sha1 sort_attrs hash_source join_path ctx p fuel name;
          hash_existing p fuel names
      end
  end.

Fixpoint toposort_all (fuel : nat) (names : list bytes) (s : tstate) : option (res tstate) :=
  match names with
  | [] => Some (Ok s)
  | name :: names =>
      match ToposortRecursively order_ctx fuel name s with
      | Some (Ok s) => toposort_all fuel names s
      | r => r
      end
  end.

(** Targets in cycles that no root reaches become roots themselves. *)
Fixpoint hash_cyclic (p : HashParam) (fuel : nat) (names : list bytes) : HM () :=
  match names with
  | [] => mret ()
  | name :: names =>
      _ ← update (alter set_root name);
      _ ← HashRecursively parse sha1 sort_attrs hash_source join_path ctx p fuel name;
      hash_cyclic p fuel names
  end.

Definition fromProto (p : HashParam) (sequential : list bytes) (repoMarkerHashes repoMapping : gmap bytes bytes)
  (fuel : nat) (r : list QueryTarget) : HM Result :=
  targets ← lift_res (GetInternalTargetsWithoutHashAndRootInfo parse sha1 sort_attrs attribute_string_list cancelled r);
  _ ← update (fun _ => targets);
  _ ← (if hp_UseBzlmod p then
         targets ← get_targets;
         targets ← lift_res (HashExternalTargetsBzlmod sha1 (hp_Excluded p) (hp_FullHashRepos p) repoMarkerHashes repoMapping range targets);
         update (fun _ => targets)
       else HashExternalTargets p fuel r);
  targets ← get_targets;
  let '(roots, targets) := GetTopologicalRootsAndIdentifyBuildableRoots range targets in
  _ ← update (fun _ => targets);
  _ ← hash_existing p fuel sequential;
  _ ← hash_all p fuel roots;
  targets ← get_targets;
  '{| ts_targets := targets; ts_order := targetNames; ts_visited := visited |} ←
    (fun s => match toposort_all fuel roots {| ts_targets := targets; ts_order := []; ts_visited := ∅; ts_calls := 0 |} with
              | Some r => Some (r, s) | None => None end);
  _ ← update (fun _ => targets);
  if decide (length targetNames = size targets) then
    mret {| rt_TargetNames := targetNames; rt_Targets := targets; rt_AllTargetsFileHashes := ∅ |}
  else
    let cyclicTargets := sort_func bcompare (filter (fun n => n ∉ visited) (range targets).*1) in
    _ ← hash_cyclic p fuel cyclicTargets;
    targets ← get_targets;
    mret {| rt_TargetNames := targetNames ++ cyclicTargets; rt_Targets := targets; rt_AllTargetsFileHashes := ∅ |}.
End graph.

(** The hashes of the watched files. *)
Definition all_targets_hashes (knownSourceHashes : gmap bytes bytes) (hexEncode : bytes -> bytes) (files : list bytes) :
  gmap bytes bytes :=
  foldl (fun m f => <[f := match knownSourceHashes !! f with Some h => hexEncode h | None => [] end]> m) ∅ files.
