(* ===== verification/HasherSpec.v ===== *)
(** What the hashing of the target graph computes: it always ends, and on acyclic graphs
    every hash is the Merkle hash of the target, whatever the order of the visits. *)
From Stdlib Require Import ZArith Lia.
From stdpp Require Import gmap fin_maps.
From S2P Require Import Prelude Bfs RuleHash SourceHash TargetHasher.

Local Open Scope nat_scope.

(** * Termination *)

(** The targets that are not hashed yet. *)
Definition unhashed (T : HTargets) : nat := size (filter (fun nt => h_Hash nt.2 = None) T).

Lemma filter_insert_Some (T : HTargets) k t :
  is_Some (h_Hash t) -> filter (fun nt => h_Hash nt.2 = None) (<[k := t]> T) = delete k (filter (fun nt => h_Hash nt.2 = None) T).
Proof.
  intros [h Hh]. apply map_eq. intros n. apply option_eq. intros x. rewrite lookup_delete_Some, !map_lookup_filter_Some.
  destruct (decide (k = n)) as [->|Hne].
  - rewrite lookup_insert_eq. cbn. split; [intros [[= <-] H]; congruence|tauto].
  - rewrite lookup_insert_ne by done. tauto.
Qed.

Lemma unhashed_insert T k t : is_Some (h_Hash t) -> unhashed (<[k := t]> T) <= unhashed T.
Proof. intros Ht. unfold unhashed. rewrite filter_insert_Some by done. rewrite map_size_delete. case_match; unfold id; lia. Qed.

Lemma unhashed_mark T k t t' :
  T !! k = Some t -> h_Hash t = None -> is_Some (h_Hash t') -> unhashed (<[k := t']> T) + 1 = unhashed T.
Proof.
  intros Hk Ht Ht'. unfold unhashed. rewrite filter_insert_Some by done. rewrite map_size_delete.
  rewrite (map_lookup_filter_Some_2 _ T k t Hk Ht).
  assert (size (filter (fun nt => h_Hash nt.2 = None) T) <> 0); [|lia].
  apply map_size_non_empty_iff. intros E.
  pose proof (map_lookup_filter_Some_2 (fun nt : bytes * HTarget => h_Hash nt.2 = None) T k t Hk Ht) as H. by rewrite E in H.
Qed.

Lemma unhashed_synthetic T k t : T !! k = None -> h_Hash t = None -> unhashed (<[k := t]> T) = unhashed T + 1.
Proof.
  intros Hk Ht. unfold unhashed. rewrite map_filter_insert_True by done. rewrite map_size_insert_None; [lia|].
  apply map_lookup_filter_None. by left.
Qed.

Lemma alter_insert (T : HTargets) (f : HTarget -> HTarget) k t : T !! k = Some t -> alter f k T = <[k := f t]> T.
Proof. intros H. apply map_eq. intros n. destruct (decide (k = n)) as [<-|Hne]; [by rewrite lookup_alter_eq, H, lookup_insert_eq|].
  by rewrite lookup_alter_ne, lookup_insert_ne. Qed.

Lemma unhashed_alter T (f : HTarget -> HTarget) k : (forall t, is_Some (h_Hash (f t))) -> unhashed (alter f k T) <= unhashed T.
Proof.
  intros Hf. destruct (T !! k) as [t|] eqn:E; [rewrite (alter_insert _ _ _ _ E); by apply unhashed_insert|].
  rewrite alter_id; [done|]. intros t Ht. congruence.
Qed.

(** A computation that ends, with no more unhashed targets than [n]. *)
Definition ends {A} (n : nat) (m : HM A) (s : hstate) (Q : A -> hstate -> Prop) : Prop :=
  match m s with
  | None => False
  | Some (r, s') => unhashed (hs_targets s') <= n /\ forall a, r = Ok a -> Q a s'
  end.

Lemma ends_bind {A B} n (m : HM A) (f : A -> HM B) s Q R :
  ends n m s Q -> (forall a s', Q a s' -> unhashed (hs_targets s') <= n -> ends n (f a) s' R) -> ends n (m ≫= f) s R.
Proof.
  unfold ends, mbind, HM_bind. destruct (m s) as [[[a|e|] s']|]; [|by intros [? _] _; split|by intros [? _] _; split|done].
  intros [Hn HQ] Hf. apply Hf; [by apply HQ|done].
Qed.

Lemma ends_ret {A} n (a : A) s (Q : A -> hstate -> Prop) : unhashed (hs_targets s) <= n -> Q a s -> ends n (mret a) s Q.
Proof. intros Hn HQ. split; [done|]. by intros ? [= <-]. Qed.

Lemma ends_lift {A} n (r : res A) s : unhashed (hs_targets s) <= n -> ends n (lift_res r) s (fun _ s' => s' = s).
Proof. intros Hn. by split. Qed.

Lemma ends_update n f s : unhashed (f (hs_targets s)) <= n -> ends n (update f) s (fun _ s' => s' = set_targets f s).
Proof. intros Hn. by split. Qed.

Lemma ends_get n s : unhashed (hs_targets s) <= n -> ends n get_targets s (fun T s' => s' = s /\ T = hs_targets s).
Proof. intros Hn. split; [done|]. by intros ? [= <-]. Qed.

Lemma ends_mono {A} n n' (m : HM A) s (Q Q' : A -> hstate -> Prop) :
  ends n m s Q -> n <= n' -> (forall a s', Q a s' -> Q' a s') -> ends n' m s Q'.
Proof. unfold ends. destruct (m s) as [[r s']|]; [|done]. intros [H1 H2] Hn HQ. split; [lia|]. intros a Ha. by apply HQ, H2. Qed.

Section hashing.
Context (parse : bytes -> BazelLabel) (sha1 : bytes -> bytes) (sort_attrs : list Attribute -> list Attribute).
Context (hash_source : option SourceFile -> res (option bytes)).
Context (join_path : bytes -> bytes -> bytes).
Context (ctx : Z -> bool) (p : HashParam).

Abbreviation hash := (HashRecursively parse sha1 sort_attrs hash_source join_path ctx p).
Abbreviation synth := (synthetic parse join_path).

(** The name is hashed as its repository. *)
Definition collapses (T : HTargets) (name : bytes) : bool :=
  collapsible parse p name && match T !! name with None => true | Some t => collapsed_type (h_RuleType t) end.

(** What [find_target] finds. *)
Inductive found (T : HTargets) (name : bytes) : option (bytes + bytes) -> HTargets -> Prop :=
  | found_repo t : collapses T name = true -> T !! externalTargetForRule name = Some t ->
      found T name (Some (inl (externalTargetForRule name))) T
  | found_excluded : collapses T name = true -> T !! externalTargetForRule name = None -> hp_Excluded p name = true ->
      found T name (Some (inr [])) (<[name := made_target name ExternalRuleType (Some []) (Some []) false None]> T)
  | found_no_repo : collapses T name = true -> T !! externalTargetForRule name = None -> hp_Excluded p name = false ->
      found T name None T
  | found_target t : collapses T name = false -> T !! name = Some t -> found T name (Some (inl name)) T
  | found_synthetic : collapses T name = false -> T !! name = None -> lb_Repository (parse name) = [] ->
      found T name (Some (inl name)) (<[name := synth name]> T)
  | found_unexpected : collapses T name = false -> T !! name = None -> lb_Repository (parse name) <> [] ->
      found T name None T.

Lemma find_target_found name s : exists r T',
  found (hs_targets s) name r T' /\
  match r with
  | Some x => find_target parse join_path p name s = Some (Ok x, set_targets (fun _ => T') s)
  | None => exists e, find_target parse join_path p name s = Some (Err e, set_targets (fun _ => T') s)
  end.
Proof.
  destruct s as [T c]. unfold find_target, get_targets, mbind, HM_bind. cbn [hs_targets].
  fold (collapses T name). destruct (collapses T name) eqn:Hc.
  - destruct (T !! externalTargetForRule name) as [t|] eqn:He.
    + exists (Some (inl (externalTargetForRule name))), T. split; [by econstructor|done].
    + destruct (hp_Excluded p name) eqn:Hx.
      * eexists (Some (inr [])), _. split; [by apply found_excluded|done].
      * exists None, T. split; [by apply found_no_repo|by eexists].
  - destruct (T !! name) as [t|] eqn:Hn.
    + exists (Some (inl name)), T. split; [by eapply found_target|done].
    + destruct (decide (lb_Repository (parse name) = [])) as [Hr|Hr].
      * rewrite bool_decide_true by done. cbn. eexists (Some (inl name)), _. split; [|done].
        by apply found_synthetic.
      * rewrite bool_decide_false by done. cbn. exists None, T. split; [|by eexists].
        by apply found_unexpected.
Qed.

Lemma write_deps_ends n h deps written s :
  (forall d s, unhashed (hs_targets s) <= n -> ends n (h d) s (fun _ _ => True)) ->
  unhashed (hs_targets s) <= n -> ends n (write_deps h deps written) s (fun _ _ => True).
Proof.
  intros Hh. revert written s. induction deps as [|d deps IH]; intros written s Hs; cbn [write_deps]; [by apply ends_ret|].
  eapply ends_bind; [by apply Hh|]. intros hd s' _ Hs'. by apply IH.
Qed.

Lemma hash_target_ends n h name target s :
  (h_RuleType target <> SourceFileType ->
     forall d s, unhashed (hs_targets s) <= n -> ends n (h d) s (fun _ _ => True)) ->
  unhashed (hs_targets s) <= n -> ends n (hash_target sha1 sort_attrs hash_source h name target) s (fun _ _ => True).
Proof.
  intros Hh Hs. unfold hash_target. case_decide as H1.
  { eapply ends_bind; [by apply ends_lift|]. intros x s' -> _. by apply ends_ret. }
  case_decide.
  { destruct (h_Deps target) as [|d ds]; [by apply (ends_mono n n _ _ _ _ (ends_lift n Panic s Hs))|].
    eapply ends_bind; [by apply Hh|]. intros x s' _ Hs'. by apply ends_ret. }
  case_decide; [by apply ends_ret|].
  eapply ends_bind; [apply write_deps_ends; [by apply Hh|done]|]. intros w s' _ Hs'. by apply ends_ret.
Qed.

Lemma store_hash_ends n name key h hwd s :
  unhashed (hs_targets s) <= n -> ends n (store_hash p name key h hwd) s (fun _ _ => True).
Proof.
  intros Hs. unfold store_hash. destruct h as [h|]; [|by apply ends_ret].
  assert (forall h hwd, ends n (_ ← update (alter (set_hash (Some h) hwd) key);
      targets ← get_targets;
      if decide (name <> key) then
        update (copy_hash name h hwd (match targets !! key with Some t => h_External t | None => false end))
      else mret ()) s (fun _ _ => True)) as H; [|destruct (hp_noOp p); apply H].
  intros h' hwd'. assert (unhashed (alter (set_hash (Some h') hwd') key (hs_targets s)) <= n) as Hu.
  { etrans; [apply unhashed_alter; by eexists|done]. }
  eapply ends_bind; [by apply ends_update|]. intros [] s' -> Hs'.
  eapply ends_bind; [by apply ends_get|]. intros T s'' [-> ->] _. case_decide.
  - eapply ends_mono; [apply ends_update; etrans; [apply unhashed_insert; by eexists|exact Hs']|done|done].
  - by apply ends_ret.
Qed.

(** The target found is one of those counted, or the one more made up for a file. *)
Definition countable (n : nat) (T : HTargets) (name key : bytes) (target : HTarget) : Prop :=
  unhashed T <= n \/
  (unhashed T = n + 1 /\ key = name /\ h_Hash target = None /\ h_RuleType target = SourceFileType).

(** The recursion marks the target before it goes deeper. *)
Lemma hash_found_ends n h name key target s :
  (forall m d s', m < n -> unhashed (hs_targets s') <= m -> ends m (h d) s' (fun _ _ => True)) ->
  hs_targets s !! key = Some target -> countable n (hs_targets s) name key target ->
  ends n (hash_found sha1 sort_attrs hash_source p h name key) s (fun _ _ => True).
Proof.
  intros Hh Hk Hc. unfold hash_found. unfold ends, mbind at 1, HM_bind at 1, get_targets at 1. rewrite Hk.
  destruct (h_Hash target) as [hash|] eqn:Eh.
  { destruct Hc as [Hc|(? & ? & ? & ?)]; [|congruence].
    change (ends n (_ ← match hs_targets s !! name with
      | Some _ => update (alter (set_hash (Some hash) (h_HashWithoutDeps target)) name)
      | None => update (copy_hash name hash (h_HashWithoutDeps target) (h_External target)) end;
      mret (Some hash)) s (fun _ _ => True)).
    eapply ends_bind with (Q := fun _ _ => True); [|intros; by apply ends_ret].
    destruct (hs_targets s !! name); split; cbn; try done; (etrans; [|exact Hc]).
    - apply unhashed_alter. intros t. by eexists.
    - apply unhashed_insert. by eexists. }
  destruct (hp_Excluded p name).
  { destruct (hs_targets s !! name) as [t|] eqn:En; [|destruct Hc as [Hc|(? & -> & ?)]; [done|congruence]].
    change (ends n (_ ← update (alter (set_hash (Some []) (Some [])) name); mret (Some ([] : bytes))) s (fun _ _ => True)).
    eapply ends_bind; [apply ends_update|intros; by apply ends_ret]. destruct Hc as [Hc|(Hc & -> & _)].
    - etrans; [apply unhashed_alter|exact Hc]. intros t'. by eexists.
    - rewrite (alter_insert _ _ _ _ En). pose proof (unhashed_mark (hs_targets s) name t (set_hash (Some []) (Some []) t) En).
      assert (t = target) as -> by congruence. specialize (H Eh (ex_intro _ _ eq_refl)). lia. }
  set (marked := alter (fun t => set_hash (Some []) (h_HashWithoutDeps t) t) key).
  assert (unhashed (marked (hs_targets s)) + 1 = unhashed (hs_targets s)) as Hm.
  { unfold marked. rewrite (alter_insert _ _ _ _ Hk). apply unhashed_mark with (t := target); [done|done|by eexists]. }
  change (ends n (_ ← update marked; '(hash, hwd) ← hash_target sha1 sort_attrs hash_source h name target;
    _ ← store_hash p name key hash hwd; mret hash) s (fun _ _ => True)).
  eapply ends_bind; [apply ends_update; destruct Hc as [?|[? _]]; lia|]. intros [] s' -> Hs'.
  eapply ends_bind.
  { destruct Hc as [Hc|(Hc & -> & _ & Ht)].
    - eapply ends_mono; [apply (hash_target_ends (unhashed (marked (hs_targets s)))); [|done]|lia|done].
      intros _ d s' Hs''. apply Hh; [lia|done].
    - apply hash_target_ends; [done|exact Hs']. }
  intros [hash hwd] s' _ Hs''. eapply ends_bind; [by apply store_hash_ends|]. intros [] s'' _ ?. by apply ends_ret.
Qed.

Lemma HashRecursively_ends fuel n name s :
  unhashed (hs_targets s) <= n -> n + 2 <= fuel -> ends n (hash fuel name) s (fun _ _ => True).
Proof.
  revert n name s. induction fuel as [|fuel IH]; intros n name s Hn Hf; [lia|]. cbn [HashRecursively].
  eapply ends_bind with (Q := fun _ s' => hs_targets s' = hs_targets s).
  { unfold poll_ctx, ends. cbn. by destruct (ctx (hs_calls s)). }
  intros [] s1 E1 _. eapply ends_bind; [apply ends_get; by rewrite E1|]. intros T s2 [-> ->] _.
  destruct (hs_targets s1 !! name ≫= h_Hash) as [h|] eqn:Eh; [apply ends_ret; [by rewrite E1|done]|].
  rewrite <- E1 in Hn. clear E1 s.
  assert (forall m d s', m < n -> unhashed (hs_targets s') <= m -> ends m (hash fuel d) s' (fun _ _ => True)) as Hrec.
  { intros m d s' Hm Hs'. apply IH; lia. }
  destruct (find_target_found name s1) as (r & T' & Hfound & Er).
  unfold ends, mbind at 1, HM_bind at 1. destruct r as [r|].
  2:{ destruct Er as [e ->]. split; [|done]. cbn. by inversion Hfound; subst. }
  rewrite Er. destruct r as [key|h].
  2:{ cbn. split; [|done]. inversion Hfound; subst; cbn. etrans; [|exact Hn]. apply unhashed_insert. by eexists. }
  apply (hash_found_ends n) with (target := default (synth name) (T' !! key)); [done|cbn|cbn].
  - inversion Hfound; subst; simplify_map_eq; done.
  - inversion Hfound as [t Hc Ht|Hc Ht|Hc Ht|t Hc Ht|Hc Ht Hr|Hc Ht]; subst; [by left|by left|].
    rewrite lookup_insert_eq. pose proof (unhashed_synthetic _ _ (synth key) Ht eq_refl) as E. unfold countable. cbn in *.
    rewrite E. destruct (decide (unhashed (hs_targets s1) = n)) as [->|?]; [by right|left; lia].
Qed.

(** * The Merkle hash

    What the hashes are meant to be: a function of the targets alone, with neither marks
    nor an order of visits.  It has no value where a source or a repository cannot be
    hashed, nor for a target that reaches a cycle. *)

Definition target_hash (merkle : bytes -> option bytes) (name : bytes) (target : HTarget) : option bytes :=
  if decide (h_RuleType target = SourceFileType) then
    match hash_source (h_SourceFile target) with Ok h => h | _ => None end
  else if decide (h_RuleType target = GeneratedFileType) then head (h_Deps target) ≫= merkle
  else if decide (h_RuleType target = PackageGroup) then Some (sha1 name)
  else
    let hashWithoutDeps := match default [] (h_HashWithoutDeps target) with
                           | [] => sha1 (HashRuleCommon sort_attrs (h_Rule target)) | h => h end in
    hs ← mapM merkle (h_Deps target); Some (sha1 (hashWithoutDeps ++ concat hs)).

(** The target of a name: its own, or one made up for a file of the workspace.  (The hash
    of an excluded external file would depend on whether a target has been made up for
    its missing repository, so none is.) *)
Definition target_of (T : HTargets) (name : bytes) : option HTarget :=
  match T !! name with
  | Some t => Some t
  | None => if decide (lb_Repository (parse name) = [] /\ has_prefix externalWorkspaceRulePrefix name = false)
            then Some (synth name) else None
  end.

Fixpoint merkle (T : HTargets) (depth : nat) (name : bytes) : option bytes :=
  match depth with
  | O => None
  | S depth =>
      match T !! name ≫= h_Hash with
      | Some h => Some h
      | None =>
          if collapses T name then
            match T !! externalTargetForRule name with
            | Some t => h_Hash t
            | None => if hp_Excluded p name then Some [] else None
            end
          else target ← target_of T name;
               if hp_Excluded p name then Some [] else target_hash (merkle T depth) name target
      end
  end.

Lemma mapM_mono {A B} (f g : A -> option B) l ys :
  (forall x y, f x = Some y -> g x = Some y) -> mapM f l = Some ys -> mapM g l = Some ys.
Proof. intros Hfg. rewrite !mapM_Some. intros H. eapply Forall2_impl; [exact H|]. auto. Qed.

Lemma target_hash_mono f g name t h :
  (forall x y, f x = Some y -> g x = Some y) -> target_hash f name t = Some h -> target_hash g name t = Some h.
Proof.
  intros Hfg. unfold target_hash. case_decide; [done|]. case_decide; [destruct (h_Deps t); [done|apply Hfg]|].
  case_decide; [done|]. intros (hs & Hhs & <-)%bind_Some. by rewrite (mapM_mono _ _ _ _ Hfg Hhs).
Qed.

Lemma merkle_S T k name h : merkle T k name = Some h -> merkle T (S k) name = Some h.
Proof.
  revert name h. induction k as [|k IH]; intros name h; [done|].
  change (merkle T (S (S k)) name) with (
      match T !! name ≫= h_Hash with
      | Some h => Some h
      | None =>
          if collapses T name then
            match T !! externalTargetForRule name with
            | Some t => h_Hash t
            | None => if hp_Excluded p name then Some [] else None
            end
          else target ← target_of T name;
               if hp_Excluded p name then Some [] else target_hash (merkle T (S k)) name target
      end).
  cbn [merkle]. destruct (T !! name ≫= h_Hash); [done|]. destruct (collapses T name); [done|].
  destruct (target_of T name) as [t|]; [|done]. unfold mbind, option_bind. destruct (hp_Excluded p name); [done|].
  by apply target_hash_mono.
Qed.

Lemma merkle_mono T j k name h : j <= k -> merkle T j name = Some h -> merkle T k name = Some h.
Proof. induction 1; [done|]. intros. apply merkle_S. auto. Qed.

Lemma merkle_functional T j k name h h' : merkle T j name = Some h -> merkle T k name = Some h' -> h = h'.
Proof.
  intros Hj Hk. apply (merkle_mono T j (j + k)) in Hj; [|lia]. apply (merkle_mono T k (j + k)) in Hk; [|lia]. congruence.
Qed.

(** The least depth: a target is not hashed below itself. *)
Lemma merkle_least T k name h :
  merkle T k name = Some h -> exists j, j < k /\ merkle T j name = None /\ merkle T (S j) name = Some h.
Proof.
  induction k as [|k IH]; [done|]. intros H. destruct (merkle T k name) as [x|] eqn:E.
  - destruct IH as (j & ? & ? & ?); [by rewrite <- (merkle_functional T k (S k) name x h E H)|]. exists j. split_and!; [lia|done|done].
  - exists k. split_and!; [lia|done|done].
Qed.

(** * The recursion computes it *)

(** Hashes once written stay. *)
Definition keeps (T T' : HTargets) : Prop := forall n t, T !! n = Some t -> is_Some (h_Hash t) -> T' !! n = Some t.

#[local] Instance keeps_preorder : PreOrder keeps.
Proof. split; unfold keeps; [by eauto|]. intros T1 T2 T3 H1 H2 n t Hn Ht. by apply H2; [apply H1|]. Qed.

(** The dependencies whose hashes are written, and the hash without dependencies. *)
Definition written_deps (t : HTarget) : list bytes :=
  if decide (h_RuleType t = SourceFileType) then []
  else if decide (h_RuleType t = GeneratedFileType) then take 1 (h_Deps t)
  else if decide (h_RuleType t = PackageGroup) then [] else h_Deps t.

Definition own_hash (t : HTarget) : option bytes :=
  if decide (h_RuleType t = SourceFileType \/ h_RuleType t = GeneratedFileType \/ h_RuleType t = PackageGroup) then None
  else Some (match default [] (h_HashWithoutDeps t) with [] => sha1 (HashRuleCommon sort_attrs (h_Rule t)) | h => h end).

Definition is_hashed (T : HTargets) (n : bytes) : Prop := is_Some (T !! n ≫= h_Hash).

(** What [T] has for a name that was hashed from [T0]: its target with the hashes set, and
    the dependencies hashed too. *)
Definition made_from (T0 T : HTargets) (n : bytes) (t' : HTarget) : Prop :=
  exists t, target_of T0 n = Some t /\ t' = set_hash (h_Hash t') (own_hash t) t /\ Forall (is_hashed T) (written_deps t).

(** The targets while those of [busy] are being hashed, from the targets [T0]: what is
    not hashed is as it was, and every hash is the Merkle hash. *)
Record hashing_ok (T0 : HTargets) (busy : gset bytes) (T : HTargets) : Prop := {
  ho_unhashed : forall n t, T !! n = Some t -> h_Hash t = None -> T0 !! n = Some t;
  ho_absent : forall n, T !! n = None -> T0 !! n = None;
  ho_hashed : forall n t h, T !! n = Some t -> h_Hash t = Some h -> n ∈ busy \/ exists k, merkle T0 k n = Some h;
  ho_kept : keeps T0 T;
  ho_external : forall n, T0 !! n = None -> has_prefix externalWorkspaceRulePrefix n = true -> T !! n = None;
  ho_made : forall n t, T !! n = Some t -> is_Some (h_Hash t) -> T0 !! n ≫= h_Hash = None ->
    collapses T0 n = false -> hp_Excluded p n = false -> n ∈ busy \/ made_from T0 T n t;
}.

Lemma is_hashed_keeps T T' n : keeps T T' -> is_hashed T n -> is_hashed T' n.
Proof. intros Hk (h & (t & Ht & Hh)%bind_Some). exists h. by rewrite (Hk n t Ht (ex_intro _ h Hh)). Qed.

Lemma made_from_keeps T0 T T' n t : keeps T T' -> made_from T0 T n t -> made_from T0 T' n t.
Proof.
  intros Hk (u & Hu & E & Hd). exists u. split; [done|]. split; [done|]. eapply Forall_impl; [exact Hd|]. intros d. by apply is_hashed_keeps.
Qed.

Definition cancelled_err_of {A} (r : res A) : Prop := r = Err cancelled_err /\ exists i, ctx i = true.

(** As long as the fuel lasts, the computation returns with [Q], or is cancelled. *)
Definition runs {A} (m : HM A) (s : hstate) (Q : A -> hstate -> Prop) : Prop :=
  match m s with
  | None => True
  | Some (Ok a, s') => Q a s'
  | Some (r, s') => cancelled_err_of r
  end.

Lemma runs_bind {A B} (m : HM A) (f : A -> HM B) s Q R :
  runs m s Q -> (forall a s', Q a s' -> runs (f a) s' R) -> runs (m ≫= f) s R.
Proof.
  unfold runs, mbind, HM_bind. destruct (m s) as [[[a|e|] s']|]; [|by intros [[= ->] ?] _|by intros [? _]|done].
  intros HQ Hf. exact (Hf a s' HQ).
Qed.

Lemma runs_ret {A} (a : A) s (Q : A -> hstate -> Prop) : Q a s -> runs (mret a) s Q.
Proof. done. Qed.

Lemma runs_update f s (Q : () -> hstate -> Prop) : Q () (set_targets f s) -> runs (update f) s Q.
Proof. done. Qed.

Lemma runs_mono {A} (m : HM A) s (Q R : A -> hstate -> Prop) : runs m s Q -> (forall a s', Q a s' -> R a s') -> runs m s R.
Proof. unfold runs. destruct (m s) as [[[a|e|] s']|]; auto. Qed.

(** The state is as good as before, and has kept its hashes. *)
Definition still_ok (T0 : HTargets) (busy : gset bytes) (s s' : hstate) : Prop :=
  hashing_ok T0 busy (hs_targets s') /\ keeps (hs_targets s) (hs_targets s').

(** What recursive calls at depth [k] do. *)
Definition hashes_below (T0 : HTargets) (busy : gset bytes) (k : nat) (h : bytes -> HM (option bytes)) : Prop :=
  forall d x s, merkle T0 k d = Some x -> hashing_ok T0 busy (hs_targets s) ->
    runs (h d) s (fun r s' => r = Some x /\ still_ok T0 busy s s' /\ hs_targets s' !! d ≫= h_Hash = Some x).

Lemma write_deps_runs T0 busy k h deps xs written s :
  hashes_below T0 busy k h -> mapM (merkle T0 k) deps = Some xs -> hashing_ok T0 busy (hs_targets s) ->
  runs (write_deps h deps written) s (fun w s' => w = written ++ concat xs /\ still_ok T0 busy s s' /\ Forall (is_hashed (hs_targets s')) deps).
Proof.
  intros Hh Hxs%mapM_Some. revert written s. induction Hxs as [|d x deps xs Hx _ IH]; intros written s Hs; cbn [write_deps].
  - apply runs_ret. split; [by rewrite app_nil_r|]. split; [by split|constructor].
  - eapply runs_bind; [by apply Hh|]. intros r s' (-> & [Hs' Hk] & Hd). eapply runs_mono; [by apply IH|].
    intros w s'' (-> & [Hs'' Hk'] & Hds). split; [by rewrite <- app_assoc|]. split; [split; [done|by etrans]|].
    constructor; [|done]. apply (is_hashed_keeps (hs_targets s')); [done|]. by exists x.
Qed.

Lemma hash_target_runs T0 busy k h name target x s :
  hashes_below T0 busy k h -> target_hash (merkle T0 k) name target = Some x -> hashing_ok T0 busy (hs_targets s) ->
  runs (hash_target sha1 sort_attrs hash_source h name target) s
    (fun r s' => r = (Some x, own_hash target) /\ still_ok T0 busy s s' /\ Forall (is_hashed (hs_targets s')) (written_deps target)).
Proof.
  intros Hh Hx Hs. unfold hash_target, own_hash, written_deps. unfold target_hash in Hx. case_decide.
  { unfold runs, mbind, HM_bind, lift_res. rewrite decide_True by auto.
    destruct (hash_source (h_SourceFile target)); [|done..]. subst. split; [done|]. split; [by split|constructor]. }
  case_decide.
  { rewrite decide_True by auto. destruct (h_Deps target) as [|d ds]; [done|]. eapply runs_bind; [by apply Hh|]. intros r s' (-> & Hs' & Hd).
    apply runs_ret. split; [done|]. split; [done|]. constructor; [by exists x|by constructor]. }
  case_decide; [rewrite decide_True by auto; injection Hx as <-; split; [done|]; split; [by split|constructor]|].
  rewrite decide_False by tauto. apply bind_Some in Hx as (xs & Hxs & [= <-]).
  eapply runs_bind; [by eapply write_deps_runs|]. intros w s' (-> & Hs'). by split.
Qed.

Lemma has_prefix_app x y : has_prefix x (x ++ y) = true.
Proof. unfold has_prefix. apply bool_decide_true. by rewrite take_app_length. Qed.

Lemma external_not_prefixed T name : collapses T name = true -> has_prefix externalWorkspaceRulePrefix name = false.
Proof.
  unfold collapses, collapsible, isExternalTarget, has_prefix. rewrite !andb_true_iff. intros [[[[_ H] _] _] _].
  apply bool_decide_eq_true in H. apply bool_decide_false. intros H'. destruct name as [|c name]; [done|].
  cbn in H, H'. congruence.
Qed.

(** Writing the hash of a target that has none. *)
Lemma hashing_ok_insert T0 busy T n t h :
  hashing_ok T0 busy T -> T !! n ≫= h_Hash = None -> h_Hash t = Some h ->
  (n ∈ busy \/ exists k, merkle T0 k n = Some h) ->
  (T0 !! n = None -> has_prefix externalWorkspaceRulePrefix n = false) ->
  n ∈ busy \/ collapses T0 n = true \/ hp_Excluded p n = true ->
  hashing_ok T0 busy (<[n := t]> T) /\ keeps T (<[n := t]> T).
Proof.
  intros HT Hn Ht Hh Hp Hb.
  assert (keeps T (<[n := t]> T)) as Hk.
  { intros m u Hm [x Hx]. destruct (decide (n = m)) as [->|Hne]; [|by rewrite lookup_insert_ne].
    rewrite Hm in Hn. cbn in Hn. congruence. }
  split; [split|exact Hk].
  - intros m u. rewrite lookup_insert_Some. intros [[-> ->]|[_ Hm]]; [congruence|by apply HT].
  - intros m. rewrite lookup_insert_None. intros [Hm _]. by apply HT.
  - intros m u x. rewrite lookup_insert_Some. intros [[-> ->]|[_ Hm]] Hu; [|by apply (ho_hashed _ _ _ HT m u x)].
    by replace x with h by congruence.
  - transitivity T; [apply HT|exact Hk].
  - intros m Hm Hpm. rewrite lookup_insert_ne; [by apply HT|]. intros ->. by rewrite Hp in Hpm.
  - intros m u. rewrite lookup_insert_Some. intros [[-> ->]|[_ Hm]] Hu H0 Hc Hx.
    + destruct Hb as [?|[?|?]]; [by left|congruence..].
    + destruct (ho_made _ _ _ HT m u Hm Hu H0 Hc Hx) as [?|H]; [by left|right]. by apply (made_from_keeps T0 T).
Qed.

(** The target is no longer busy. *)
Lemma hashing_ok_done T0 busy T n t u h :
  hashing_ok T0 ({[n]} ∪ busy) T -> T !! n = Some u -> T0 !! n ≫= h_Hash = None -> h_Hash t = Some h ->
  (exists k, merkle T0 k n = Some h) -> made_from T0 T n t -> hashing_ok T0 busy (<[n := t]> T).
Proof.
  intros HT Hn H0 Ht Hh Hmade.
  assert (forall m v, made_from T0 T m v -> made_from T0 (<[n := t]> T) m v) as Hins.
  { intros m v (w & Hw & E & Hd). exists w. split; [done|]. split; [done|]. eapply Forall_impl; [exact Hd|]. intros d [x Hx]. unfold is_hashed.
    destruct (decide (n = d)) as [<-|]; [rewrite lookup_insert_eq; by exists h|rewrite lookup_insert_ne by done; by exists x]. }
  split.
  - intros m v. rewrite lookup_insert_Some. intros [[-> ->]|[_ Hm]]; [congruence|by apply HT].
  - intros m. rewrite lookup_insert_None. intros [Hm _]. by apply HT.
  - intros m v x. rewrite lookup_insert_Some. intros [[-> ->]|[Hne Hm]] Hv; [right; by replace x with h by congruence|].
    destruct (ho_hashed _ _ _ HT m v x Hm Hv) as [Hb|Hb]; [left; set_solver|by right].
  - intros m v Hm [x Hx]. rewrite lookup_insert_ne; [by apply HT; [|eexists]|]. intros ->. rewrite Hm in H0. cbn in H0. congruence.
  - intros m Hm Hpm. rewrite lookup_insert_ne; [by apply HT|]. intros ->. pose proof (ho_external _ _ _ HT m Hm Hpm). congruence.
  - intros m v. rewrite lookup_insert_Some. intros [[-> ->]|[Hne Hm]] Hv Hm0 Hc Hx; [right; by apply Hins|].
    destruct (ho_made _ _ _ HT m v Hm Hv Hm0 Hc Hx) as [Hb|H]; [left; set_solver|right; by apply Hins].
Qed.

(** What is not hashed yet is as it was. *)
Lemma unhashed_same T0 busy T n : hashing_ok T0 busy T -> T !! n ≫= h_Hash = None -> T !! n = T0 !! n.
Proof.
  intros HT Hn. destruct (T !! n) as [t|] eqn:E; [|symmetry; by apply HT]. symmetry. by apply HT.
Qed.

Context (exact : hp_noOp p = false).

Lemma store_hash_eq name h hwd s t :
  hs_targets s !! name = Some t ->
  store_hash p name name (Some h) hwd s = Some (Ok (), set_targets (insert name (set_hash (Some h) hwd t)) s).
Proof.
  intros Hn. unfold store_hash. rewrite exact. cbn. unfold mbind, HM_bind, update, get_targets. cbn.
  rewrite decide_False by (by intros []). unfold set_targets. cbn. by rewrite (alter_insert _ _ _ _ Hn).
Qed.

(** Hashing a target that has a hash at depth [S j] and not at depth [j]. *)
Lemma hash_found_runs T0 busy j h name t x s T :
  hashes_below T0 ({[name]} ∪ busy) j h -> merkle T0 (S j) name = Some x ->
  (if hp_Excluded p name then Some [] else target_hash (merkle T0 j) name t) = Some x ->
  hashing_ok T0 busy T -> T !! name ≫= h_Hash = None ->
  (T0 !! name = None -> has_prefix externalWorkspaceRulePrefix name = false) -> target_of T0 name = Some t ->
  hs_targets s !! name = Some t -> h_Hash t = None -> (forall f, alter f name (hs_targets s) = <[name := f t]> T) ->
  runs (hash_found sha1 sort_attrs hash_source p h name name) s
    (fun r s' => r = Some x /\ hashing_ok T0 busy (hs_targets s') /\ keeps T (hs_targets s') /\
                 hs_targets s' !! name ≫= h_Hash = Some x).
Proof.
  intros Hh Hx Hval HT Hn Hp Hof Ht Hnone Halter.
  unfold hash_found. unfold runs, mbind at 1, HM_bind at 1, get_targets at 1. rewrite Ht, Hnone.
  destruct (hp_Excluded p name) eqn:Hex.
  { injection Hval as <-. change (runs (_ ← update (alter (set_hash (Some []) (Some [])) name); mret (Some ([] : bytes))) s
      (fun r s' => r = Some [] /\ hashing_ok T0 busy (hs_targets s') /\ keeps T (hs_targets s') /\
        hs_targets s' !! name ≫= h_Hash = Some [])).
    eapply runs_bind; [apply (runs_update _ _ (fun _ s' => s' = set_targets (alter (set_hash (Some []) (Some [])) name) s)); done|]. intros [] s' ->. apply runs_ret.
    change (hs_targets (set_targets ?f s)) with (f (hs_targets s)). rewrite Halter.
    destruct (hashing_ok_insert T0 busy T name (set_hash (Some []) (Some []) t) []) as [H1 H2]; [done..|by eauto|done|by auto|].
    split_and!; [done|exact H1|exact H2|by rewrite lookup_insert_eq]. }
  set (mark := fun t => set_hash (Some []) (h_HashWithoutDeps t) t).
  change (runs (_ ← update (alter mark name); '(hash, hwd) ← hash_target sha1 sort_attrs hash_source h name t;
    _ ← store_hash p name name hash hwd; mret hash) s (fun r s' => r = Some x /\ hashing_ok T0 busy (hs_targets s') /\
      keeps T (hs_targets s') /\ hs_targets s' !! name ≫= h_Hash = Some x)).
  destruct (hashing_ok_insert T0 ({[name]} ∪ busy) T name (mark t) []) as [H1 H2].
  { destruct HT as [HT1 HT2 HT3 HT4 HT5 HT6]. split; [done..| |done|done|].
    - intros m u y Hm Hu. destruct (HT3 m u y Hm Hu); [left; set_solver|by right].
    - intros m u Hm Hu H0 Hc He. destruct (HT6 m u Hm Hu H0 Hc He); [left; set_solver|by right]. }
  { done. } { done. } { left. set_solver. } { done. } { left. set_solver. }
  eapply runs_bind with (Q := fun _ s' => hs_targets s' = <[name := mark t]> T); [apply runs_update; by apply Halter|].
  intros [] s1 E1. rewrite <- E1 in H1, H2.
  eapply runs_bind; [by eapply hash_target_runs|]. intros ? s2 (-> & [Hs2 Hk2] & Hdeps).
  assert (hs_targets s2 !! name = Some (mark t)) as Hn2.
  { apply Hk2; [rewrite E1; by rewrite lookup_insert_eq|by eexists]. }
  unfold runs, mbind at 1, HM_bind at 1. rewrite (store_hash_eq name x (own_hash t) s2 (mark t) Hn2). cbn.
  assert (T0 !! name ≫= h_Hash = None) as H0 by (by rewrite <- (unhashed_same T0 busy T name HT Hn)).
  split_and!; [done|..].
  - apply (hashing_ok_done T0 busy _ name _ (mark t) x); [done..|by eexists|]. by exists t.
  - intros m u Hm Hu. rewrite lookup_insert_ne; [apply Hk2; [by apply H2|done]|].
    intros ->. destruct Hu as [y Hy]. rewrite Hm in Hn. cbn in Hn. congruence.
  - by rewrite lookup_insert_eq.
Qed.

(** What a call ends with. *)
Definition hashed_as (T0 : HTargets) (busy : gset bytes) (s : hstate) (name x : bytes) (r : option bytes) (s' : hstate) : Prop :=
  r = Some x /\ still_ok T0 busy s s' /\ hs_targets s' !! name ≫= h_Hash = Some x.

(** The name is hashed as its repository, which is hashed. *)
Lemma hash_found_repo T0 busy h name key t x s k :
  hashing_ok T0 busy (hs_targets s) -> hs_targets s !! key = Some t -> h_Hash t = Some x ->
  hs_targets s !! name ≫= h_Hash = None -> merkle T0 k name = Some x -> has_prefix externalWorkspaceRulePrefix name = false ->
  collapses T0 name = true ->
  runs (hash_found sha1 sort_attrs hash_source p h name key) s (hashed_as T0 busy s name x).
Proof.
  intros Hs Ht Hx Hn Hm Hp Hc. unfold hash_found. unfold runs, mbind at 1, HM_bind at 1, get_targets at 1. rewrite Ht, Hx.
  set (new := match hs_targets s !! name with
              | Some u => set_hash (Some x) (h_HashWithoutDeps t) u
              | None => made_target name UnknownRuleType (Some x) (h_HashWithoutDeps t) (h_External t) None end).
  change (runs (_ ← match hs_targets s !! name with
      | Some _ => update (alter (set_hash (Some x) (h_HashWithoutDeps t)) name)
      | None => update (copy_hash name x (h_HashWithoutDeps t) (h_External t)) end;
      mret (Some x)) s (hashed_as T0 busy s name x)).
  eapply runs_bind with (Q := fun _ s' => hs_targets s' = <[name := new]> (hs_targets s)).
  { unfold new. destruct (hs_targets s !! name) as [u|] eqn:E; apply runs_update; [by apply alter_insert|done]. }
  intros [] s' E. assert (h_Hash new = Some x) as Hnew by (unfold new; by destruct (hs_targets s !! name)).
  destruct (hashing_ok_insert T0 busy (hs_targets s) name new x) as [H1 H2]; [done..|by eauto|done|by auto|].
  apply runs_ret. unfold hashed_as, still_ok. rewrite E. split_and!; [done..|]. by rewrite lookup_insert_eq.
Qed.

Lemma HashRecursively_merkle T0 fuel k name x busy s :
  merkle T0 k name = Some x -> hashing_ok T0 busy (hs_targets s) -> (forall q, q ∈ busy -> merkle T0 k q = None) ->
  runs (hash fuel name) s (hashed_as T0 busy s name x).
Proof.
  revert k name x busy s. induction fuel as [|fuel IH]; intros k name x busy s Hx Hs Hbusy; [done|].
  cbn [HashRecursively]. eapply runs_bind with (Q := fun _ s' => hs_targets s' = hs_targets s).
  { unfold poll_ctx, runs. destruct (ctx (hs_calls s)) eqn:E; cbn; [split; [done|by eexists]|done]. }
  intros [] s1 E1. eapply runs_bind with (Q := fun T s' => T = hs_targets s1 /\ s' = s1); [done|]. intros ? ? [-> ->].
  assert (forall r s', hashed_as T0 busy s1 name x r s' -> hashed_as T0 busy s name x r s') as Hsame.
  { unfold hashed_as, still_ok. by rewrite E1. }
  rewrite <- E1 in Hs. destruct (hs_targets s1 !! name ≫= h_Hash) as [h|] eqn:Hn.
  { (* hashed already *)
    apply bind_Some in Hn as (t & Ht & Hh). apply runs_ret, Hsame.
    assert (h = x) as ->.
    { destruct (ho_hashed _ _ _ Hs name t h Ht Hh) as [Hb|[k' Hk']]; [by rewrite (Hbusy _ Hb) in Hx|].
      by eapply merkle_functional. }
    split_and!; [done|by split|]. by rewrite Ht. }
  pose proof (unhashed_same T0 busy _ name Hs Hn) as Hsm.
  apply merkle_least in Hx as (j & Hj & Hjn & Hx). assert (forall q, q ∈ busy -> merkle T0 j q = None) as Hbj.
  { intros q Hq. destruct (merkle T0 j q) as [y|] eqn:Ey; [|done]. apply (merkle_mono T0 j k) in Ey; [|lia]. by rewrite Hbusy in Ey. }
  pose proof Hx as Hval. cbn [merkle] in Hval. rewrite <- Hsm, Hn in Hval.
  assert (collapses T0 name = collapses (hs_targets s1) name) as Hcol by (unfold collapses; by rewrite Hsm).
  rewrite Hcol in Hval.
  destruct (find_target_found name s1) as (r & T' & Hfound & Er).
  eapply runs_bind with (Q := fun key s' => Some key = r /\ s' = set_targets (fun _ => T') s1).
  { unfold runs. destruct r as [r|]; [by rewrite Er|]. destruct Er as [e Er]. rewrite Er. exfalso.
    inversion Hfound as [| |Hc Ht Hex| | |Hc Ht Hr]; subst.
    - rewrite Hc in Hval. rewrite (ho_absent _ _ _ Hs _ Ht), Hex in Hval. done.
    - rewrite Hc in Hval. unfold target_of in Hval. rewrite <- Hsm, Ht in Hval. by rewrite decide_False in Hval by tauto. }
  intros key s' [Hr ->]. subst r.
  assert (hashes_below T0 ({[name]} ∪ busy) j (hash fuel)) as Hrec.
  { intros d y s' Hy Hs'. eapply runs_mono; [apply (IH j d y ({[name]} ∪ busy) s' Hy Hs')|done].
    intros q [->%elem_of_singleton|Hq]%elem_of_union; [done|by apply Hbj]. }
  inversion Hfound as [t Hc Ht|Hc Ht Hex|Hc Ht|t Hc Ht|Hc Ht Hrep|Hc Ht]; subst; rewrite Hc in Hval.
  - (* its repository *)
    destruct (T0 !! externalTargetForRule name) as [t0|] eqn:E0.
    2:{ rewrite (ho_external _ _ _ Hs _ E0) in Ht; [done|apply has_prefix_app]. }
    pose proof (ho_kept _ _ _ Hs _ t0 E0 (ex_intro _ x Hval)) as Hkept.
    eapply runs_mono; [|apply Hsame]. apply (hash_found_repo T0 busy _ name _ t0 x (set_targets (fun _ => hs_targets s1) s1) (S j)); try done.
    + by apply (external_not_prefixed (hs_targets s1)).
    + by rewrite Hcol.
  - rewrite (ho_absent _ _ _ Hs _ Ht), Hex in Hval. injection Hval as <-. apply runs_ret, Hsame.
    destruct (hashing_ok_insert T0 busy (hs_targets s1) name (made_target name ExternalRuleType (Some []) (Some []) false None) [])
      as [H1 H2]; [done..|by eauto|intros _; by eapply external_not_prefixed|rewrite Hcol; by auto|].
    split_and!; [done|by split|]. cbn. by rewrite lookup_insert_eq.
  - (* its own target *)
    unfold target_of in Hval. rewrite <- Hsm, Ht in Hval. rewrite Ht in Hn. cbn [mbind option_bind] in Hval, Hn.
    eapply runs_mono; [apply (hash_found_runs T0 busy j _ name t x _ (hs_targets s1)); try done|].
    + by rewrite Ht.
    + rewrite <- Hsm, Ht. done.
    + unfold target_of. by rewrite <- Hsm, Ht.
    + intros f. by apply alter_insert.
    + intros r s' (H1 & H2 & H3 & H4). by apply Hsame.
  - (* a target made up *)
    unfold target_of in Hval. rewrite <- Hsm, Ht in Hval. case_decide as Hd; [|done]. cbn [mbind option_bind] in Hval.
    eapply runs_mono; [apply (hash_found_runs T0 busy j _ name (synth name) x _ (hs_targets s1)); try done|].
    + intros _. apply Hd.
    + unfold target_of. rewrite <- Hsm, Ht. by rewrite decide_True by apply Hd.
    + cbn. by rewrite lookup_insert_eq.
    + intros f. rewrite (alter_insert _ _ _ (synth name)); cbn; [by rewrite insert_insert_eq|by rewrite lookup_insert_eq].
    + intros r s' (H1 & H2 & H3 & H4). by apply Hsame.
Qed.

Lemma hashing_ok_start T : hashing_ok T ∅ T.
Proof. split; [done..| | |done|]; [|by intros n t Hn _|by intros n t Hn [h Hh]; rewrite Hn; cbn; rewrite Hh]. intros n t h Hn Hh. right. exists 1%nat. cbn. by rewrite Hn; cbn; rewrite Hh. Qed.

Lemma hash_all_merkle T0 k fuel names s :
  Forall (fun n => is_Some (merkle T0 k n)) names -> hashing_ok T0 ∅ (hs_targets s) ->
  runs (hash_all parse sha1 sort_attrs hash_source join_path ctx p fuel names) s (fun _ s' =>
    still_ok T0 ∅ s s' /\ Forall (fun n => hs_targets s' !! n ≫= h_Hash = merkle T0 k n) names).
Proof.
  intros Hn. revert s. induction Hn as [|n names [x Hx] _ IH]; intros s Hs; cbn [hash_all]; [by apply runs_ret|].
  eapply runs_bind; [by apply (HashRecursively_merkle T0 fuel k n x ∅)|]. intros r s' (_ & [Hs' Hk] & Hnx).
  eapply runs_mono; [by apply IH|]. intros [] s'' [[Hs'' Hk'] HF]. split; [split; [done|by etrans]|].
  constructor; [|done]. rewrite Hx. apply bind_Some in Hnx as (t & Ht & Hh). by rewrite (Hk' n t Ht (ex_intro _ x Hh)).
Qed.

Lemma hash_all_ends fuel n names s :
  unhashed (hs_targets s) <= n -> n + 2 <= fuel ->
  ends n (hash_all parse sha1 sort_attrs hash_source join_path ctx p fuel names) s (fun _ _ => True).
Proof.
  intros Hs Hf. revert s Hs. induction names as [|name names IH]; intros s Hs; cbn [hash_all]; [by apply ends_ret|].
  eapply ends_bind; [by apply HashRecursively_ends|]. intros _ s' _ Hs'. by apply IH.
Qed.
End hashing.

(** * What a Merkle hash covers *)

Section covers.
Context (parse : bytes -> BazelLabel) (sha1 : bytes -> bytes) (sort_attrs : list Attribute -> list Attribute).
Context (hash_source : option SourceFile -> res (option bytes)) (join_path : bytes -> bytes -> bytes) (p : HashParam).
Context (sort_attrs_ok : forall l, sort_attrs l ≡ₚ l /\
  StronglySorted (fun x y => bcompare (get_string (at_Name x)) (get_string (at_Name y)) <> Gt) (sort_attrs l)).

Abbreviation merkle_of := (merkle parse sha1 sort_attrs hash_source join_path p).

(** The target that [toTarget] makes of a rule, to be hashed as a rule. *)
Record hashed_rule (T : HTargets) (name : bytes) (r : Rule) (t : HTarget) : Prop := {
  hr_target : T !! name = Some t;
  hr_unhashed : h_Hash t = None;
  hr_included : hp_Excluded p name = false;
  hr_kind : collapsed_type (h_RuleType t) = false;
  hr_deps : h_Deps t = rule_deps parse (Some r);
  hr_body : h_HashWithoutDeps t = Some (sha1 (HashRuleCommon sort_attrs (Some r)));
  hr_typed : rule_typed r;
  hr_small : (zlen (HashRuleCommon sort_attrs (Some r)) < 2^64)%Z;
}.

(** The hashes of two inputs do not collide. *)
Definition no_collision (x y : bytes) : Prop := sha1 x = sha1 y -> x = y.

Lemma merkle_rule T k name r t h :
  hashed_rule T name r t -> sha1 (HashRuleCommon sort_attrs (Some r)) <> [] -> merkle_of T (S k) name = Some h ->
  exists hs, mapM (merkle_of T k) (h_Deps t) = Some hs /\ h = sha1 (sha1 (HashRuleCommon sort_attrs (Some r)) ++ concat hs).
Proof.
  intros [Ht Hn Hi Hk Hd Hb _ _] Hne.
  assert (collapses parse p T name = false) as Ho by (unfold collapses; by rewrite Ht, Hk, andb_false_r).
  cbn [merkle]. rewrite Ht. cbn [mbind option_bind]. rewrite Hn, Ho. unfold target_of. rewrite Ht. cbn [mbind option_bind]. rewrite Hi.
  unfold collapsed_type in Hk. apply bool_decide_eq_false in Hk. unfold target_hash. rewrite !decide_False by tauto. rewrite Hb.
  cbn [default]. remember (sha1 (HashRuleCommon sort_attrs (Some r))) as w.
  intros (hs & Hhs & [= <-])%bind_Some. exists hs. split; [done|]. by destruct w.
Qed.

Lemma rule_deps_same r r' : same_rule r r' -> rule_deps parse (Some r) = rule_deps parse (Some r').
Proof.
  intros H. unfold rule_deps. apply sort_strings_eq. apply filter_Permutation. apply H.
Qed.

Lemma concat_same_lengths (xs ys : list bytes) :
  Forall2 (fun x y => length x = length y) xs ys -> concat xs = concat ys -> xs = ys.
Proof.
  induction 1 as [|x y xs ys Hl _ IH]; [done|]. cbn. intros E. apply app_inj_1 in E as [-> E]; [|done]. f_equal. by apply IH.
Qed.

Lemma mapM_same_lengths (f g : bytes -> option bytes) l xs ys :
  mapM f l = Some xs -> mapM g l = Some ys ->
  (forall d x y, d ∈ l -> f d = Some x -> g d = Some y -> length x = length y) ->
  Forall2 (fun x y => length x = length y) xs ys.
Proof.
  intros Hx%mapM_Some. revert ys. induction Hx as [|d x l xs Hd _ IH]; intros ys Hy%mapM_Some Hl; inversion Hy; subst; constructor.
  - eapply Hl; [by left|done|done].
  - apply IH; [by apply mapM_Some|]. intros e ? ? He. apply Hl. by right.
Qed.

Lemma mapM_same_values (f g : bytes -> option bytes) l xs :
  mapM f l = Some xs -> mapM g l = Some xs -> Forall (fun d => f d = g d) l.
Proof.
  intros Hx%mapM_Some Hy%mapM_Some. induction Hx as [|d x l xs Hd _ IH]; inversion Hy; subst; constructor; [congruence|]. by apply IH.
Qed.

Lemma hash_covers T T' k name r r' t t' h :
  (forall x, zlen (sha1 x) = 20)%Z -> hashed_rule T name r t -> hashed_rule T' name r' t' ->
  (forall d x y, d ∈ h_Deps t -> merkle_of T k d = Some x -> merkle_of T' k d = Some y -> length x = length y) ->
  no_collision (HashRuleCommon sort_attrs (Some r)) (HashRuleCommon sort_attrs (Some r')) ->
  (forall hs hs', mapM (merkle_of T k) (h_Deps t) = Some hs -> mapM (merkle_of T' k) (h_Deps t') = Some hs' ->
     no_collision (default [] (h_HashWithoutDeps t) ++ concat hs) (default [] (h_HashWithoutDeps t') ++ concat hs')) ->
  merkle_of T (S k) name = Some h -> merkle_of T' (S k) name = Some h ->
  same_rule r r' /\ h_Deps t = h_Deps t' /\ Forall (fun d => merkle_of T k d = merkle_of T' k d) (h_Deps t).
Proof.
  intros Hlen Hr Hr' Hl Hbody Hall Hh Hh'.
  assert (forall x, sha1 x <> []) as Hne by (intros x E; by specialize (Hlen x); rewrite E in Hlen).
  apply (merkle_rule T k name r t h Hr (Hne _)) in Hh as (hs & Hhs & E).
  apply (merkle_rule T' k name r' t' h Hr' (Hne _)) in Hh' as (hs' & Hhs' & E').
  specialize (Hall hs hs' Hhs Hhs'). rewrite (hr_body _ _ _ _ Hr), (hr_body _ _ _ _ Hr') in Hall. cbn [from_option id] in Hall.
  rewrite E in E'. apply Hall in E'.
  pose proof (Hlen (HashRuleCommon sort_attrs (Some r))) as H1. pose proof (Hlen (HashRuleCommon sort_attrs (Some r'))) as H2.
  apply app_inj_1 in E' as [Eb Ec]; [|unfold zlen in *; lia]. apply Hbody in Eb.
  destruct (HashRuleCommon_Some_inj sort_attrs r (Some r') (hr_small _ _ _ _ Hr) Eb) as (? & [= <-] & Ee & Hs).
  assert (same_rule r r') as Hsame.
  { apply (rule_inj sort_attrs sort_attrs_ok); [by eapply hr_typed|by eapply hr_typed|done|done]. }
  assert (h_Deps t = h_Deps t') as Ed by (rewrite (hr_deps _ _ _ _ Hr), (hr_deps _ _ _ _ Hr'); by apply rule_deps_same).
  split; [done|]. split; [done|]. rewrite <- Ed in Hhs'.
  assert (hs = hs') as <- by (apply concat_same_lengths; [by eapply mapM_same_lengths|done]).
  by eapply mapM_same_values.
Qed.
End covers.

(** * Properties *)

(** C38: Hashing always ends, on any graph of targets, with cycles or without, whatever the
    sources, the context and the exclusions are: with as much fuel as there are targets
    without a hash, and two, the call returns, and leaves no more targets without a hash
    than there were. *)
Theorem HashRecursively_terminates (parse : bytes -> BazelLabel) (sha1 : bytes -> bytes)
    (sort_attrs : list Attribute -> list Attribute) (hash_source : option SourceFile -> res (option bytes))
    (join_path : bytes -> bytes -> bytes) (ctx : Z -> bool) (p : HashParam) (extra : nat) (name : bytes) (s : hstate) :
  exists r s', HashRecursively parse sha1 sort_attrs hash_source join_path ctx p
                 (unhashed (hs_targets s) + 2 + extra) name s = Some (r, s') /\
               unhashed (hs_targets s') <= unhashed (hs_targets s).
Proof.
  pose proof (HashRecursively_ends parse sha1 sort_attrs hash_source join_path ctx p
    (unhashed (hs_targets s) + 2 + extra) (unhashed (hs_targets s)) name s) as H.
  unfold ends in H. destruct (HashRecursively _ _ _ _ _ _ _ _ _ _) as [[r s']|]; [|exfalso; apply H; lia].
  exists r, s'. split; [done|]. apply H; lia.
Qed.

(** C25: The hashes are the Merkle hashes.  Hashing a list of targets by recursion with marks,
    with a store of hashes and with targets made up on the way, gives every one of them
    the hash that the pure recursive definition has for it; every hash stored for any
    target is its Merkle hash, and what is not hashed is left alone.  So the hashes do
    not depend on the order of the roots.  Only the context can stop it.  (Targets that
    reach a cycle or a source that cannot be hashed have no Merkle hash.) *)
Theorem hash_all_is_merkle (parse : bytes -> BazelLabel) (sha1 : bytes -> bytes)
    (sort_attrs : list Attribute -> list Attribute) (hash_source : option SourceFile -> res (option bytes))
    (join_path : bytes -> bytes -> bytes) (ctx : Z -> bool) (p : HashParam) (depth fuel : nat) (names : list bytes) (s : hstate) :
  hp_noOp p = false -> unhashed (hs_targets s) + 2 <= fuel ->
  Forall (fun n => is_Some (merkle parse sha1 sort_attrs hash_source join_path p (hs_targets s) depth n)) names ->
  match hash_all parse sha1 sort_attrs hash_source join_path ctx p fuel names s with
  | Some (Ok (), s') =>
      Forall (fun n => hs_targets s' !! n ≫= h_Hash =
                       merkle parse sha1 sort_attrs hash_source join_path p (hs_targets s) depth n) names /\
      forall n t, hs_targets s' !! n = Some t ->
        match h_Hash t with
        | Some h => exists k, merkle parse sha1 sort_attrs hash_source join_path p (hs_targets s) k n = Some h
        | None => hs_targets s !! n = Some t
        end
  | Some (r, _) => r = Err cancelled_err /\ exists i, ctx i = true
  | None => False
  end.
Proof.
  intros Hx Hf Hn.
  pose proof (hash_all_ends parse sha1 sort_attrs hash_source join_path ctx p fuel _ names s (Nat.le_refl _) Hf) as He.
  pose proof (hash_all_merkle parse sha1 sort_attrs hash_source join_path ctx p Hx (hs_targets s) depth fuel names s Hn
    (hashing_ok_start _ _ _ _ _ _ _)) as Hr.
  unfold ends in He. unfold runs in Hr. destruct (hash_all _ _ _ _ _ _ _ _ _ _) as [[[[]|e|] s']|]; try done.
  destruct Hr as [[Hok _] HF]. split; [done|]. intros n t Ht. destruct (h_Hash t) as [h|] eqn:E; [|by apply Hok].
  by destruct (ho_hashed _ _ _ _ _ _ _ _ _ Hok n t h Ht E).
Qed.

(** A hash covers the rule and all its dependencies: when a rule has one hash in two
    graphs, and SHA-1 does not collide on the inputs concerned, then the rules agree on
    every field that counts, they have the same dependencies, and each of those has the
    same hash in both graphs.  So a change of a rule, or of the hash of anything it
    depends on, changes its hash.  (The hashes of one dependency have one length: 20
    bytes, or none for an excluded one.) *)
Theorem rule_hash_covers (parse : bytes -> BazelLabel) (sha1 : bytes -> bytes)
    (sort_attrs : list Attribute -> list Attribute) (hash_source : option SourceFile -> res (option bytes))
    (join_path : bytes -> bytes -> bytes) (p : HashParam) (T T' : HTargets) (k : nat) (name : bytes)
    (r r' : Rule) (t t' : HTarget) (h : bytes) :
  (forall l, sort_attrs l ≡ₚ l /\
     StronglySorted (fun x y => bcompare (get_string (at_Name x)) (get_string (at_Name y)) <> Gt) (sort_attrs l)) ->
  (forall x, zlen (sha1 x) = 20)%Z ->
  hashed_rule parse sha1 sort_attrs p T name r t -> hashed_rule parse sha1 sort_attrs p T' name r' t' ->
  (forall d x y, d ∈ h_Deps t -> merkle parse sha1 sort_attrs hash_source join_path p T k d = Some x ->
     merkle parse sha1 sort_attrs hash_source join_path p T' k d = Some y -> length x = length y) ->
  no_collision sha1 (HashRuleCommon sort_attrs (Some r)) (HashRuleCommon sort_attrs (Some r')) ->
  (forall hs hs', mapM (merkle parse sha1 sort_attrs hash_source join_path p T k) (h_Deps t) = Some hs ->
     mapM (merkle parse sha1 sort_attrs hash_source join_path p T' k) (h_Deps t') = Some hs' ->
     no_collision sha1 (default [] (h_HashWithoutDeps t) ++ concat hs) (default [] (h_HashWithoutDeps t') ++ concat hs')) ->
  merkle parse sha1 sort_attrs hash_source join_path p T (S k) name = Some h ->
  merkle parse sha1 sort_attrs hash_source join_path p T' (S k) name = Some h ->
  same_rule r r' /\ h_Deps t = h_Deps t' /\
  Forall (fun d => merkle parse sha1 sort_attrs hash_source join_path p T k d =
                   merkle parse sha1 sort_attrs hash_source join_path p T' k d) (h_Deps t).
Proof. intros Hs. by apply hash_covers. Qed.

(** ** Concrete graphs *)

Definition local_label (name : bytes) : BazelLabel := {| lb_Repository := []; lb_Package := []; lb_Target := name |}.

Definition sample_source (f : option SourceFile) : res (option bytes) :=
  Ok ((fun f => toy_sha1 (default [] (so_Name f))) <$> f).

Definition sample_param : HashParam :=
  {| hp_noOp := false; hp_FullHashRepos := ∅; hp_Excluded := fun _ => false; hp_UseBzlmod := true |}.

Definition query_rule (r : Rule) : QueryTarget :=
  {| qt_Type := Some RULE; qt_Rule := Some r; qt_SourceFile := None; qt_GeneratedFile := None; qt_PackageGroup := None |}.

(** The targets of a rule, its sources being files that the query does not list. *)
Definition sample_targets (r : Rule) : HTargets :=
  match GetInternalTargetsWithoutHashAndRootInfo local_label toy_sha1 (sort_func by_name) 5 false [query_rule r] with
  | Ok T => T
  | _ => ∅
  end.

Definition sample_state : hstate := {| hs_targets := sample_targets rule_one; hs_calls := 0 |}.

Lemma hash_all_is_merkle_witness :
  merkle local_label toy_sha1 (sort_func by_name) sample_source (fun _ n => n) sample_param (sample_targets rule_one) 2
    (bs "//a:lib") <> None /\
  match hash_all local_label toy_sha1 (sort_func by_name) sample_source (fun _ n => n) (fun _ => false) sample_param 3
          [bs "//a:lib"] sample_state with
  | Some (Ok (), s') => Forall (fun n => hs_targets s' !! n ≫= h_Hash =
      merkle local_label toy_sha1 (sort_func by_name) sample_source (fun _ n => n) sample_param (sample_targets rule_one) 2 n)
      [bs "//a:lib"]
  | _ => False
  end.
Proof.
  split; [by vm_compute|].
  pose proof (hash_all_is_merkle local_label toy_sha1 (sort_func by_name) sample_source (fun _ n => n) (fun _ => false)
    sample_param 2 3 [bs "//a:lib"] sample_state eq_refl) as H.
  assert (unhashed (hs_targets sample_state) + 2 <= 3) as Hf by (apply (bool_decide_unpack _); vm_compute; exact Logic.I).
  assert (Forall (fun n => is_Some (merkle local_label toy_sha1 (sort_func by_name) sample_source (fun _ n => n) sample_param
    (hs_targets sample_state) 2 n)) [bs "//a:lib"]) as Hn by (apply (bool_decide_unpack _); vm_compute; exact Logic.I).
  specialize (H Hf Hn).
  destruct (hash_all _ _ _ _ _ _ _ _ _ _) as [[[[]|e|] s']|]; [apply H|by destruct H as [_ [? ?]]|by destruct H|done].
Defined.

Lemma mapM_agree {A B} (f g : A -> option B) l : Forall (fun x => f x = g x) l -> mapM f l = mapM g l.
Proof. induction 1 as [|x l Hx _ IH]; [done|]. cbn. by rewrite Hx, IH. Qed.

Abbreviation sample_merkle := (merkle local_label toy_sha1 (sort_func by_name) sample_source (fun _ n => n) sample_param).

Definition sample_target (r : Rule) : HTarget := default (synthetic local_label (fun _ n => n) []) (sample_targets r !! bs "//a:lib").

Lemma sample_hashed_rule r :
  rule_typed r -> sample_targets r !! bs "//a:lib" = Some (sample_target r) ->
  h_Hash (sample_target r) = None -> collapsed_type (h_RuleType (sample_target r)) = false ->
  h_Deps (sample_target r) = rule_deps local_label (Some r) ->
  h_HashWithoutDeps (sample_target r) = Some (toy_sha1 (HashRuleCommon (sort_func by_name) (Some r))) ->
  (zlen (HashRuleCommon (sort_func by_name) (Some r)) < 2^64)%Z ->
  hashed_rule local_label toy_sha1 (sort_func by_name) sample_param (sample_targets r) (bs "//a:lib") r (sample_target r).
Proof. intros. by split. Qed.

Lemma rule_hash_covers_witness :
  exists h, sample_merkle (sample_targets rule_one) 2 (bs "//a:lib") = Some h /\
    sample_merkle (sample_targets rule_other) 2 (bs "//a:lib") = Some h /\ same_rule rule_one rule_other.
Proof.
  assert (exists h, sample_merkle (sample_targets rule_one) 2 (bs "//a:lib") = Some h /\
    sample_merkle (sample_targets rule_other) 2 (bs "//a:lib") = Some h) as (h & H1 & H2).
  { eexists. split; vm_compute; reflexivity. }
  assert (h_Deps (sample_target rule_one) = h_Deps (sample_target rule_other)) as Ed by (vm_compute; reflexivity).
  assert (Forall (fun d => sample_merkle (sample_targets rule_one) 1 d = sample_merkle (sample_targets rule_other) 1 d)
    (h_Deps (sample_target rule_one))) as Hd by (apply (bool_decide_unpack _); vm_compute; exact Logic.I).
  exists h. split; [exact H1|]. split; [exact H2|].
  apply (rule_hash_covers local_label toy_sha1 (sort_func by_name) sample_source (fun _ n => n) sample_param
    (sample_targets rule_one) (sample_targets rule_other) 1 (bs "//a:lib") rule_one rule_other
    (sample_target rule_one) (sample_target rule_other) h).
  - intros l. split; [apply sort_func_perm|exact (sort_func_sorted by_name l)].
  - exact toy_sha1_length.
  - apply sample_hashed_rule; [repeat constructor; cbn; done|(vm_compute; reflexivity)..].
  - apply sample_hashed_rule; [repeat constructor; cbn; done|(vm_compute; reflexivity)..].
  - intros d x y Hin Hx Hy. rewrite Forall_forall in Hd. rewrite (Hd d Hin) in Hx. congruence.
  - intros _. vm_compute. reflexivity.
  - intros hs hs' Hhs Hhs' _. assert (hs = hs') as <-.
    { rewrite <- Ed in Hhs'. rewrite (mapM_agree _ _ _ Hd) in Hhs. congruence. }
    vm_compute. reflexivity.
  - exact H1.
  - exact H2.
Defined.
