(* ===== verification/Mapper.v ===== *)
(** From the result of the hasher to the ID-mapped graph that is streamed and stored
    ([mapper/mapper.go]). *)
From Stdlib Require Import ZArith Lia.
From stdpp Require Import gmap fin_maps.
From S2P Require Import Prelude Bfs Entity Encode IdMapper Streaming Chunks TargetDiff DiffGraph Responses CompareGraphs RuleHash SourceHash TargetHasher HasherSpec CompareSample.

Local Open Scope Z_scope.

(** * [ResultToTargetGraph] *)

(** The IDs of the targets: their positions, from 1. *)
Fixpoint target_ids (i : Z) (names : list bytes) (ids : gmap bytes Z) : gmap bytes Z :=
  match names with
  | [] => ids
  | name :: names => target_ids (i + 1) names (<[name := i32 (i + 1)]> ids)
  end.

Record resultMappers := { rm_ruleType : Mapper; rm_tag : Mapper; rm_attrName : Mapper; rm_attrStrVal : Mapper }.

Definition newResultMappers : resultMappers :=
  {| rm_ruleType := NewMapper; rm_tag := NewMapper; rm_attrName := NewMapper; rm_attrStrVal := NewMapper |}.

Section mapper.
(** [Attribute_STRING], the order in which Go visits the entries of a map, and the
    context. *)
Context (attribute_string : Z) (range : gmap bytes Z -> list (bytes * Z)) (ctx : Z -> bool).

(** Only attributes that are strings are kept. *)
Definition string_attr (attr : option Attribute) : option (bytes * bytes) :=
  match attr with
  | None => None
  | Some a => if decide (at_Type a = Some attribute_string)
              then match at_Name a, at_StringValue a with Some n, Some v => Some (n, v) | _, _ => None end
              else None
  end.

Fixpoint map_attrs (l : list (option Attribute)) (attrNameMapper attrStrValMapper : Mapper) (attrs : gmap Z Z) :
  gmap Z Z * Mapper * Mapper :=
  match l with
  | [] => (attrs, attrNameMapper, attrStrValMapper)
  | attr :: l =>
      match string_attr attr with
      | Some (name, val) =>
          let '(k, attrNameMapper) := ID name attrNameMapper in
          let '(w, attrStrValMapper) := ID val attrStrValMapper in
          map_attrs l attrNameMapper attrStrValMapper (<[k := w]> attrs)
      | None => map_attrs l attrNameMapper attrStrValMapper attrs
      end
  end.

(** One target; dependencies without an ID are dropped. *)
Definition map_target (ids : gmap bytes Z) (name : bytes) (t : HTarget) (m : resultMappers) : OptimizedTarget * resultMappers :=
  let depIDs := omap (fun dep => ids !! dep) (h_Deps t) in
  let '(ruleType, ruleTypeMapper) := if decide (h_RuleType t <> []) then ID (h_RuleType t) (rm_ruleType m) else (0, rm_ruleType m) in
  let '(tagIDs, tagMapper) := IDs (h_Tags t) (rm_tag m) in
  let '(attrs, attrNameMapper, attrStrValMapper) := map_attrs (h_Attributes t) (rm_attrName m) (rm_attrStrVal m) ∅ in
  ({| ot_ID := default 0 (ids !! name); ot_Hash := hexEncode (default [] (h_Hash t)); ot_DirectDependencies := depIDs;
      ot_RuleType := ruleType; ot_Tags := tagIDs; ot_Root := h_Root t; ot_External := h_External t; ot_Attributes := attrs |},
   {| rm_ruleType := ruleTypeMapper; rm_tag := tagMapper; rm_attrName := attrNameMapper; rm_attrStrVal := attrStrValMapper |}).

(** The loop over the names; those without a target are skipped. *)
Fixpoint map_targets (ids : gmap bytes Z) (targets : gmap bytes HTarget) (n : Z) (names : list bytes) (m : resultMappers) :
  res (list OptimizedTarget * resultMappers) :=
  match names with
  | [] => Ok ([], m)
  | name :: names =>
      match targets !! name with
      | None => map_targets ids targets n names m
      | Some t =>
          _ ← poll ctx n;
          let '(idt, m) := map_target ids name t m in
          '(ts, m) ← map_targets ids targets (n + 1) names m;
          Ok (idt :: ts, m)
      end
  end.

(** [targetIDToName[id] = s] for every entry. *)
Definition invert_ids (ids : gmap bytes Z) : gmap Z bytes := foldl (fun out ni => <[ni.2 := ni.1]> out) ∅ (range ids).

Definition ResultToTargetGraph (result : Result) : res (list OptimizedTarget * Metadata) :=
  let targetNamesMapping := target_ids 0 (rt_TargetNames result) ∅ in
  '(targets, m) ← map_targets targetNamesMapping (rt_Targets result) 0 (rt_TargetNames result) newResultMappers;
  Ok (targets,
      {| TargetIDMapping := invert_ids targetNamesMapping; RuleTypeMapping := Invert range (rm_ruleType m);
         TagMapping := Invert range (rm_tag m); AttributeNameMapping := Invert range (rm_attrName m);
         AttributeStringValueMapping := Invert range (rm_attrStrVal m);
         AllTargetsFileHashes := rt_AllTargetsFileHashes result |}).

(** [ResultToGraphChunks] *)
Definition ResultToGraphChunks (id_range : gmap Z bytes -> list (Z * bytes)) (result : Result) (maxBytes : Z) : res (list GraphChunk) :=
  '(targets, meta) ← ResultToTargetGraph result;
  graph_chunks id_range targets meta maxBytes.
End mapper.

(** * What it maps to *)

Section spec.
Context (attribute_string : Z) (range : gmap bytes Z -> list (bytes * Z)).
Context (range_perm : forall m, range m ≡ₚ map_to_list m).

(** The last value given to each string attribute. *)
Definition attr_values (A : gmap bytes bytes) (l : list (option Attribute)) : gmap bytes bytes :=
  foldl (fun A nv => <[nv.1 := nv.2]> A) A (omap (string_attr attribute_string) l).

(** The semantic target of a target of the hasher; dependencies outside of the graph are
    dropped. *)
Definition hasher_target (names : list bytes) (name : bytes) (t : HTarget) : Target :=
  {| tg_Name := name; tg_Hash := hexEncode (default [] (h_Hash t)); tg_RuleType := h_RuleType t;
     tg_Dependencies := filter (fun d => d ∈ names) (h_Deps t); tg_Tags := h_Tags t;
     tg_Attributes := attr_values ∅ (h_Attributes t); tg_Root := h_Root t; tg_External := h_External t |}.

Definition no_empty_names (t : HTarget) : Prop := ([] ∉ h_Tags t) /\ attr_values ∅ (h_Attributes t) !! [] = None.

(** An upper bound of the names that a target gives to one mapper. *)
Definition hasher_load (t : HTarget) : Z := 1 + zlen (h_Tags t) + zlen (h_Attributes t).

(** The ID of each name is what a mapper would give it. *)
Lemma target_ids_IDs i names ids :
  NoDup names -> (forall n, n ∈ names -> ids !! n = None) -> 0 <= i -> i + zlen names < 2^31 - 1 ->
  (IDs names {| nameToID := ids; nextID := i + 1 |}).2 =
    {| nameToID := target_ids i names ids; nextID := i + 1 + zlen names |}.
Proof.
  revert i ids. induction names as [|n names IH]; intros i ids Hnd Hfresh Hi Hlen; cbn [IDs target_ids].
  { cbn. f_equal. rewrite zlen_nil. lia. }
  rewrite zlen_cons in Hlen. pose proof (zlen_nonneg names). apply NoDup_cons in Hnd as [Hn Hnd].
  unfold ID at 1. cbn [nameToID nextID]. rewrite (Hfresh n) by (by left). rewrite !i32_small by lia.
  specialize (IH (i + 1) (<[n := i + 1]> ids) Hnd).
  destruct (IDs names _) as [l a] eqn:E. cbn [snd] in *. rewrite IH; [f_equal; rewrite zlen_cons; lia| |lia|lia].
  intros m Hm. rewrite lookup_insert_ne; [apply Hfresh; by right|]. by intros <-.
Qed.

(** The mapper of the target names. *)
Definition names_mapper (names : list bytes) : Mapper :=
  {| nameToID := target_ids 0 names ∅; nextID := 1 + zlen names |}.

Lemma names_mapper_spec names :
  NoDup names -> zlen names < 2^31 - 1 ->
  mapper_ok (names_mapper names) /\ forall n, is_Some (target_ids 0 names ∅ !! n) <-> n ∈ names.
Proof.
  intros Hnd Hlen. pose proof (target_ids_IDs 0 names ∅ Hnd ltac:(intros; apply lookup_empty) ltac:(lia) ltac:(lia)) as E.
  change {| nameToID := ∅; nextID := 0 + 1 |} with NewMapper in E.
  pose proof (IDs_spec names NewMapper NewMapper_ok) as H. pose proof (IDs_names names NewMapper) as Hdom.
  destruct (IDs names NewMapper) as [l a]. cbn [snd] in *. subst a.
  destruct H as (Hok & _ & _ & _); [unfold room_for; cbn; lia|]. split; [exact Hok|].
  intros n. rewrite <- elem_of_dom. cbn [nameToID] in Hdom. rewrite Hdom. cbn. rewrite dom_empty_L. set_solver.
Qed.

Lemma map_attrs_spec l an av out A :
  mapper_ok an -> mapper_ok av -> room_for (zlen l) an -> room_for (zlen l) av -> attrs_rep an av out A ->
  let '(out', an', av') := map_attrs attribute_string l an av out in
  mapper_ok an' /\ mapper_ok av' /\ extends an an' /\ extends av av' /\
  nextID an' <= nextID an + zlen l /\ nextID av' <= nextID av + zlen l /\
  attrs_rep an' av' out' (attr_values A l).
Proof.
  unfold room_for. revert an av out A. induction l as [|a l IH]; intros an av out A Hn Hv Hrn Hrv Hrep; cbn [map_attrs].
  { rewrite zlen_nil. split_and!; [done..|reflexivity|reflexivity|lia|lia|done]. }
  rewrite zlen_cons in *. pose proof (zlen_nonneg l). unfold attr_values. cbn [omap list_omap].
  destruct (string_attr attribute_string a) as [[n v]|]; cbn [foldl fst snd].
  - pose proof (ID_spec n an Hn) as H1. destruct (ID n an) as [k an1].
    destruct H1 as (Hn1 & Hen1 & Hk & _ & Hb1); [unfold room_for; lia|].
    pose proof (ID_spec v av Hv) as H2. destruct (ID v av) as [w av1].
    destruct H2 as (Hv1 & Hev1 & Hw & _ & Hb2); [unfold room_for; lia|].
    specialize (IH an1 av1 (<[k := w]> out) (<[n := v]> A) Hn1 Hv1 ltac:(lia) ltac:(lia)).
    destruct (map_attrs _ l an1 av1 _) as [[out' an'] av'].
    destruct IH as (Hn' & Hv' & Hen & Hev & Hb1' & Hb2' & Hrep').
    { apply attrs_rep_insert; [done..|]. by eapply attrs_rep_extends. }
    split_and!; [done|done|by etrans|by etrans|lia|lia|done].
  - specialize (IH an av out A Hn Hv ltac:(lia) ltac:(lia) Hrep). destruct (map_attrs _ l an av out) as [[out' an'] av'].
    destruct IH as (? & ? & ? & ? & ? & ? & ?). split_and!; [done..|lia|lia|done].
Qed.

(** The mappers of the result with that of the names. *)
Definition with_names (tm : Mapper) (m : resultMappers) : canonicalMappers :=
  {| cm_target := tm; cm_ruleType := rm_ruleType m; cm_tag := rm_tag m; cm_attrName := rm_attrName m;
     cm_attrVal := rm_attrStrVal m |}.

Lemma deps_of_names (tm : Mapper) (names deps : list bytes) :
  (forall n, is_Some (nameToID tm !! n) <-> n ∈ names) ->
  Forall2 (fun n id => nameToID tm !! n = Some id) (filter (fun d => d ∈ names) deps) (omap (fun d => nameToID tm !! d) deps).
Proof.
  intros Hn. induction deps as [|d deps IH]; [constructor|]. cbn [omap list_omap].
  destruct (nameToID tm !! d) as [id|] eqn:E.
  - rewrite filter_cons_True by (apply Hn; by eexists). by constructor.
  - rewrite filter_cons_False; [done|]. rewrite <- Hn, E. by intros [? ?].
Qed.

Lemma map_target_spec tm names name t m id :
  mappers_ok (with_names tm m) -> mappers_room (hasher_load t) (with_names tm m) ->
  (forall n, is_Some (nameToID tm !! n) <-> n ∈ names) -> [] ∉ names -> nameToID tm !! name = Some id -> no_empty_names t ->
  let '(idt, m') := map_target attribute_string (nameToID tm) name t m in
  (mappers_ok (with_names tm m') /\ mappers_extend (with_names tm m) (with_names tm m') /\
   forall r, mappers_room (hasher_load t + r) (with_names tm m) -> mappers_room r (with_names tm m')) /\ ot_ID idt = id /\
  forall mf, mappers_ok mf -> mappers_extend (with_names tm m') mf ->
    resolve (mappers_metadata range mf) idt = hasher_target names name t /\
    unique_names (AttributeNameMapping (mappers_metadata range mf)) (ot_Attributes idt).
Proof.
  intros [Ht Hr Hg Hn Hv] [_ Rr Rg Rn Rv] Htm Hne Hid [Htags Hattrs]. unfold hasher_load, room_for in *. cbn in Ht, Hr, Hg, Hn, Hv, Rr, Rg, Rn, Rv.
  set (g := zlen (h_Tags t)) in *. set (a := zlen (h_Attributes t)) in *.
  assert (0 <= g /\ 0 <= a) as [Hg0 Ha0] by (split; apply zlen_nonneg). unfold map_target.
  assert (exists ruleType rt, (if decide (h_RuleType t <> []) then ID (h_RuleType t) (rm_ruleType m)
      else (0, rm_ruleType m)) = (ruleType, rt) /\ mapper_ok rt /\ extends (rm_ruleType m) rt /\
      nextID rt <= nextID (rm_ruleType m) + 1 /\
      ((h_RuleType t = [] /\ ruleType = 0) \/ nameToID rt !! h_RuleType t = Some ruleType))
    as (ruleType & rt & -> & Hrt & Ert & Brt & Hrule).
  { case_decide as Hrn.
    - pose proof (ID_spec (h_RuleType t) (rm_ruleType m) Hr) as H3. destruct (ID (h_RuleType t) (rm_ruleType m)) as [i rt].
      destruct H3 as (? & ? & ? & _ & ?); [unfold room_for; lia|]. exists i, rt. split_and!; auto.
    - exists 0, (rm_ruleType m). split_and!; [done|done|reflexivity|lia|left]. split; [|done]. by destruct (h_RuleType t); [|destruct Hrn]. }
  pose proof (IDs_spec (h_Tags t) (rm_tag m) Hg) as H4. destruct (IDs (h_Tags t) (rm_tag m)) as [tags tag].
  destruct H4 as (Hg1 & Eg1 & Htg & Bg1); [unfold room_for; fold g; lia|]. fold g in Bg1.
  pose proof (map_attrs_spec (h_Attributes t) (rm_attrName m) (rm_attrStrVal m) ∅ ∅ Hn Hv) as H5. fold a in H5.
  unfold room_for in H5. specialize (H5 ltac:(lia) ltac:(lia)).
  destruct (map_attrs attribute_string (h_Attributes t) (rm_attrName m) (rm_attrStrVal m) ∅) as [[attrs an] av].
  destruct H5 as (Hn1 & Hv1 & En1 & Ev1 & Bn1 & Bv1 & Hrep).
  { split; intros ? ? H; by rewrite lookup_empty in H. }
  split; [|split; [cbn; by rewrite Hid|]].
  - split; [by split|]. split; [by split|]. intros r [? ? ? ? ?]. unfold room_for in *. cbn in *. split; unfold room_for; cbn; lia.
  - intros mf [Ft Fr Fg Fn Fv] [Xt Xr Xg Xn Xv]. cbn in Xt, Xr, Xg, Xn, Xv.
    pose proof (resolve_attrs range range_perm _ _ _ _ (mappers_metadata range mf)
      {| ot_ID := default 0 (nameToID tm !! name); ot_Hash := hexEncode (default [] (h_Hash t));
         ot_DirectDependencies := omap (fun dep => nameToID tm !! dep) (h_Deps t); ot_RuleType := ruleType; ot_Tags := tags;
         ot_Root := h_Root t; ot_External := h_External t; ot_Attributes := attrs |} Fn Fv
      (attrs_rep_extends _ _ _ _ _ _ Xn Xv Hrep) Hattrs eq_refl eq_refl eq_refl) as Ea.
    split; [|by apply (attrs_rep_unique range range_perm _ _ _ _ Fn (attrs_rep_extends _ _ _ _ _ _ Xn Xv Hrep))].
    unfold resolve, diff_target, hasher_target in *. cbn [tg_Attributes ot_ID ot_Hash ot_DirectDependencies ot_RuleType ot_Tags
      ot_Root ot_External ot_Attributes mappers_metadata TargetIDMapping RuleTypeMapping TagMapping AttributeNameMapping
      AttributeStringValueMapping] in *. rewrite Ea, Hid. cbn [default]. f_equal.
    + apply (name_of_Invert range range_perm); [done|]. by eapply lookup_weaken.
    + destruct Hrule as [[-> ->]|Hrule]; [by apply (name_of_zero range range_perm)|]. apply (name_of_Invert range range_perm); [done|].
      by eapply lookup_weaken.
    + apply (names_of_Invert range range_perm); [done| |].
      * intros [Hin _]%list_elem_of_filter. done.
      * eapply Forall2_impl; [exact (deps_of_names tm names (h_Deps t) Htm)|]. intros n i Hi. exact (lookup_weaken _ _ _ _ Hi Xt).
    + apply (names_of_Invert range range_perm); [done|done|]. eapply Forall2_impl; [exact Htg|]. intros n i Hi. exact (lookup_weaken _ _ _ _ Hi Xg).
Qed.

(** The names that have a target. *)
Definition present (targets : gmap bytes HTarget) (names : list bytes) : list (bytes * HTarget) :=
  omap (fun n => pair n <$> targets !! n) names.

Definition total_load (l : list (bytes * HTarget)) : Z := foldr (fun nt k => hasher_load nt.2 + k) 0 l.

Lemma hasher_load_nonneg t : 0 <= hasher_load t.
Proof. unfold hasher_load. pose proof (zlen_nonneg (h_Tags t)). pose proof (zlen_nonneg (h_Attributes t)). lia. Qed.

Lemma total_load_nonneg l : 0 <= total_load l.
Proof. unfold total_load. induction l as [|[n t] l IH]; cbn [foldr snd]; [done|]. pose proof (hasher_load_nonneg t). lia. Qed.

Lemma mappers_room_le k k' m : k' <= k -> mappers_room k m -> mappers_room k' m.
Proof. unfold room_for. intros Hk [? ? ? ? ?]. unfold room_for in *. split; unfold room_for; lia. Qed.

Lemma map_targets_spec tm all targets ctx n names m :
  (forall n, is_Some (nameToID tm !! n) <-> n ∈ all) -> [] ∉ all -> (forall n, n ∈ names -> n ∈ all) ->
  (forall n t, targets !! n = Some t -> no_empty_names t) ->
  mappers_ok (with_names tm m) -> mappers_room (total_load (present targets names)) (with_names tm m) ->
  unless_done (fun _ : unit => ctx) (map_targets attribute_string ctx (nameToID tm) targets n names m) (fun r =>
    mappers_ok (with_names tm r.2) /\ mappers_extend (with_names tm m) (with_names tm r.2) /\
    (fun t => Some (ot_ID t)) <$> r.1 = (fun nt => nameToID tm !! nt.1) <$> present targets names /\
    forall mf, mappers_ok mf -> mappers_extend (with_names tm r.2) mf ->
      resolve (mappers_metadata range mf) <$> r.1 = (fun nt => hasher_target all nt.1 nt.2) <$> present targets names /\
      Forall (fun t => unique_names (AttributeNameMapping (mappers_metadata range mf)) (ot_Attributes t)) r.1).
Proof.
  intros Htm Hne Hall Hemp. revert n m. induction names as [|name names IH]; intros n m Hok Hroom; cbn [map_targets].
  { apply unless_done_ok. split; [done|]. split; [reflexivity|]. split; [done|]. by split. }
  unfold present in *. cbn [omap list_omap] in *. destruct (targets !! name) as [t|] eqn:Et; cbn [fmap option_fmap option_map] in *.
  2:{ apply IH; [intros k Hk; apply Hall; by right|done|done]. }
  eapply unless_done_bind; [apply (unless_done_poll (fun _ => ctx) () n)|]. intros _ _.
  destruct (proj2 (Htm name) (Hall name ltac:(by left))) as [id Hid].
  cbn [total_load foldr snd] in Hroom. fold (total_load (omap (fun n => pair n <$> targets !! n) names)) in Hroom.
  set (rest := total_load _) in Hroom. assert (0 <= rest) by apply total_load_nonneg.
  pose proof (map_target_spec tm all name t m id Hok) as H1. pose proof (hasher_load_nonneg t).
  destruct (map_target attribute_string (nameToID tm) name t m) as [idt m1].
  destruct H1 as ((Hok1 & Hext1 & Hroom1) & Eid & Hres1); [eapply mappers_room_le; [|exact Hroom]; lia|done|done|done|by eapply Hemp|].
  eapply unless_done_bind.
  { apply (IH ltac:(intros k Hk; apply Hall; by right) (n + 1) m1 Hok1). by apply Hroom1. }
  intros [ts m2] (Hok2 & Hext2 & Eids & Hres2). apply unless_done_ok. cbn [fst snd] in *.
  split; [done|]. split; [by etrans|]. split.
  - cbn [fmap list_fmap fst]. rewrite Eid, Hid. by f_equal.
  - intros mf Hmf Hxf. cbn [fmap list_fmap fst snd]. destruct (Hres1 mf Hmf) as [-> Hu]; [by etrans|].
    destruct (Hres2 mf Hmf Hxf) as [-> Hus]. split; [done|by constructor].
Qed.

Lemma NoDup_present targets names : NoDup names -> NoDup (present targets names).*1.
Proof.
  unfold present. induction 1 as [|n names Hn _ IH]; [constructor|]. cbn [omap list_omap].
  destruct (targets !! n) as [t|]; cbn; [|done]. constructor; [|done].
  intros ([m u] & -> & Hm)%list_elem_of_fmap. apply list_elem_of_omap in Hm as (k & Hk & E).
  destruct (targets !! k); cbn in E; [|done]. injection E as -> _. done.
Qed.

Lemma elem_of_present (targets : gmap bytes HTarget) (names : list bytes) (n : bytes) (t : HTarget) :
  (n, t) ∈ present targets names <-> n ∈ names /\ targets !! n = Some t.
Proof.
  unfold present. rewrite list_elem_of_omap. split.
  - intros (k & Hk & E). destruct (targets !! k) as [u|] eqn:Eu; cbn in E; [|done]. by injection E as -> ->.
  - intros [Hn Ht]. exists n. by rewrite Ht.
Qed.

(** What the code relies on in a result of the hasher: names once each, none empty. *)
Record result_named (result : Result) : Prop := {
  rn_nodup : NoDup (rt_TargetNames result);
  rn_names : [] ∉ rt_TargetNames result;
  rn_targets : forall n t, rt_Targets result !! n = Some t -> no_empty_names t;
  rn_small : zlen (rt_TargetNames result) + total_load (present (rt_Targets result) (rt_TargetNames result)) < 2^31 - 1;
}.

Definition result_targets (result : Result) : list Target :=
  (fun nt => hasher_target (rt_TargetNames result) nt.1 nt.2) <$> present (rt_Targets result) (rt_TargetNames result).

Lemma ResultToTargetGraph_spec ctx result : result_named result ->
  unless_done (fun _ : unit => ctx) (ResultToTargetGraph attribute_string range ctx result) (fun r =>
    resolve r.2 <$> r.1 = result_targets result /\ NoDup (ot_ID <$> r.1) /\
    Forall (fun t => unique_names (AttributeNameMapping r.2) (ot_Attributes t)) r.1 /\
    AllTargetsFileHashes r.2 = rt_AllTargetsFileHashes result).
Proof.
  intros [Hnd Hne Hemp Hsmall]. pose proof (total_load_nonneg (present (rt_Targets result) (rt_TargetNames result))).
  destruct (names_mapper_spec (rt_TargetNames result) Hnd ltac:(lia)) as [Hok Hdom].
  set (tm := names_mapper (rt_TargetNames result)) in *. pose proof NewMapper_ok as Hnew.
  unfold ResultToTargetGraph. eapply unless_done_bind.
  { apply (map_targets_spec tm (rt_TargetNames result) _ _ 0 _ newResultMappers); try done.
    pose proof (zlen_nonneg (rt_TargetNames result)). set (k := total_load _) in *. clearbody k. subst tm.
    unfold names_mapper. split; unfold room_for; cbn [cm_target cm_ruleType cm_tag cm_attrName cm_attrVal with_names
      rm_ruleType rm_tag rm_attrName rm_attrStrVal newResultMappers NewMapper nextID]; lia. }
  intros [ts m] (Hmok & _ & Eids & Hres). cbn [fst snd] in *. apply unless_done_ok. cbn [fst snd].
  destruct (Hres (with_names tm m) Hmok ltac:(reflexivity)) as [Ets Hu]. split; [exact Ets|].
  split; [|by split].
  apply (NoDup_fmap_1 Some). rewrite <- list_fmap_compose. change (NoDup ((fun t => Some (ot_ID t)) <$> ts)). rewrite Eids.
  apply NoDup_fmap_2_strong; [|eapply NoDup_fmap_1, NoDup_present; exact Hnd].
  intros [n t] [n' t'] [Hn Ht]%elem_of_present [Hn' Ht']%elem_of_present E. cbn in E.
  destruct (proj2 (Hdom n) Hn) as [id Hid]. assert (n = n') as <-.
  { eapply (mo_inj _ Hok); [exact Hid|]. etrans; [symmetry; exact E|exact Hid]. }
  by replace t' with t by congruence.
Qed.
End spec.

(** * The graph of a stream *)

(** The semantic graph of a result, with the attributes that the repository reports. *)
Definition hasher_graph (attribute_string : Z) (seedAttrs : option (gset bytes)) (result : Result) : TargetDiff.Graph :=
  list_to_map ((fun t => (tg_Name t, seeded seedAttrs t)) <$> result_targets attribute_string result).

Lemma result_targets_names attribute_string result :
  NoDup (rt_TargetNames result) -> NoDup (tg_Name <$> result_targets attribute_string result).
Proof.
  intros H. unfold result_targets. rewrite <- list_fmap_compose.
  change (NoDup (fst <$> present (rt_Targets result) (rt_TargetNames result))). by apply NoDup_present.
Qed.

Section stream.
Context (o : Orders) (o_ok : orders_ok o) (attribute_string : Z) (result : Result) (named : result_named attribute_string result).
Context (ts : list OptimizedTarget) (meta : Metadata).
Context (resolved : resolve meta <$> ts = result_targets attribute_string result).
Context (distinct : NoDup (ot_ID <$> ts)).
Context (attr_names : Forall (fun t => unique_names (AttributeNameMapping meta) (ot_Attributes t)) ts).

Lemma resolved_name t : tg_Name (resolve meta t) = name_of (TargetIDMapping meta) (ot_ID t).
Proof. done. Qed.

Lemma resolved_in t : t ∈ ts -> resolve meta t ∈ result_targets attribute_string result.
Proof. intros H. rewrite <- resolved. by apply list_elem_of_fmap_2. Qed.

Lemma last_of_stream id t : last_targets ts !! id = Some t <-> t ∈ ts /\ ot_ID t = id.
Proof.
  split; [intros H%last_targets_id; tauto|]. intros [Ht <-].
  destruct (proj2 (last_targets_some ts (ot_ID t))) as [u Hu]; [by apply list_elem_of_fmap_2|].
  destruct (last_targets_id _ _ _ Hu) as [Ei Hin]. by rewrite (NoDup_fmap_inj ot_ID ts u t distinct Hin Ht Ei) in Hu.
Qed.

Lemma stream_unique : unique_names (TargetIDMapping meta) (last_targets ts).
Proof.
  intros i t [Ht <-]%last_of_stream j u [Hu <-]%last_of_stream E _. f_equal.
  apply (NoDup_fmap_inj (fun t => tg_Name (resolve meta t)) ts); [|done|done|exact E].
  change (NoDup ((tg_Name ∘ resolve meta) <$> ts)). rewrite list_fmap_compose, resolved.
  apply result_targets_names, named.
Qed.

Lemma stream_is_graph seedAttrs :
  diff_graph_ok (o_ids o) meta seedAttrs (last_targets ts) (hasher_graph attribute_string seedAttrs result).
Proof.
  intros name tg. unfold hasher_graph. rewrite <- elem_of_list_to_map.
  2:{ rewrite <- list_fmap_compose. apply (result_targets_names attribute_string result), named. }
  assert (forall t, t ∈ ts -> diff_target (o_ids o) meta seedAttrs (tg_Name (resolve meta t)) t = seeded seedAttrs (resolve meta t)) as Hd.
  { intros t Ht. apply diff_target_seeded; [apply o_ok|done|]. rewrite Forall_forall in attr_names. by apply attr_names. }
  rewrite list_elem_of_fmap. split.
  - intros (r & [= -> ->] & Hr). rewrite <- resolved in Hr. apply list_elem_of_fmap in Hr as (t & -> & Ht). split.
    + pose proof (resolved_in t Ht) as Hin. unfold result_targets in Hin. apply list_elem_of_fmap in Hin as ([n u] & E & Hin).
      apply elem_of_present in Hin as [Hn _]. rewrite E. cbn. intros ->. by apply (rn_names _ _ named).
    + exists (ot_ID t), t. split; [by apply last_of_stream|]. split; [done|]. by rewrite Hd.
  - intros (Hne & id & t & [Ht <-]%last_of_stream & <- & ->). exists (resolve meta t). split; [|by apply resolved_in].
    by rewrite <- Hd.
Qed.
End stream.

(** * Property *)

(** C27: The chunks made of a result of the hasher carry exactly its graph.  Whatever the
    message budget and the orders in which maps are visited, the stream exists unless the
    context is done; its targets have distinct names; and the graph that the comparison
    reads from it, for any choice of reported attributes, has for each named target of
    the result its hash in hexadecimal, its rule type, tags and flags, the last value of
    each string attribute, and the dependencies that are themselves in the result, in
    order.  The hashes of the watched files survive too. *)
Theorem hasher_graph_streams (o : Orders) (attribute_string : Z) (ctx : Z -> bool) (result : Result) (maxBytes : Z) :
  orders_ok o -> result_named attribute_string result ->
  unless_done (fun _ : unit => ctx)
    (ResultToGraphChunks attribute_string (o_names o) ctx (o_strings o) result maxBytes) (fun chunks =>
    stream_named chunks /\
    (forall seedAttrs, stream_graph o seedAttrs chunks (hasher_graph attribute_string seedAttrs result)) /\
    AllTargetsFileHashes (all_metadata chunks) = rt_AllTargetsFileHashes result).
Proof.
  intros Ho Hn. unfold ResultToGraphChunks. eapply unless_done_bind; [by apply ResultToTargetGraph_spec, Hn; apply Ho|].
  intros [ts meta] (Hres & Hnd & Hu & Hh). cbn [fst snd] in *.
  destruct (graph_chunks_spec (o_strings o) (oo_strings o Ho) ts meta maxBytes) as (groups & metas & E & Hg & Hm).
  rewrite E. apply unless_done_ok. unfold stream_named, stream_graph. rewrite all_metadata_chunks, all_targets_chunks, Hg, Hm.
  split; [by apply (stream_unique attribute_string result Hn)|]. split; [|exact Hh].
  intros seedAttrs. by apply stream_is_graph.
Qed.

(** The result of hashing a rule with two sources, streamed in chunks of 20 bytes. *)
Definition sample_result : Result :=
  match fromProto local_label toy_sha1 (sort_func by_name) 5 sample_source (fun _ n => n) map_to_list
          (fun _ => false) (fun _ => false) false sample_param [] ∅ ∅ 10 [query_rule rule_one]
          {| hs_targets := ∅; hs_calls := 0 |} with
  | Some (Ok r, _) => r
  | _ => {| rt_TargetNames := []; rt_Targets := ∅; rt_AllTargetsFileHashes := ∅ |}
  end.

#[export] Instance no_empty_names_dec attribute_string t : Decision (no_empty_names attribute_string t).
Proof. unfold no_empty_names. apply _. Defined.

Lemma hasher_graph_streams_witness :
  rt_TargetNames sample_result = [bs "//a:a.go"; bs "//a:b.go"; bs "//a:lib"] /\
  exists chunks, ResultToGraphChunks 2 map_to_list (fun _ => false) map_to_list sample_result 20 = Ok chunks /\
    stream_named chunks /\ stream_graph key_orders None chunks (hasher_graph 2 None sample_result) /\
    (2 < length chunks)%nat.
Proof.
  split; [vm_compute; reflexivity|].
  destruct (hasher_graph_streams key_orders 2 (fun _ => false) sample_result 20) as [[_ (s & i & H)]|(chunks & E & H1 & H2 & _)].
  - exact key_orders_ok.
  - split.
    + apply (bool_decide_unpack _). vm_compute. exact Logic.I.
    + apply (bool_decide_unpack _). vm_compute. exact Logic.I.
    + change (map_Forall (fun _ t => no_empty_names 2 t) (rt_Targets sample_result)). apply (bool_decide_unpack _). vm_compute. exact Logic.I.
    + vm_compute. reflexivity.
  - discriminate H.
  - exists chunks. split; [exact E|]. split; [exact H1|]. split; [exact (H2 None)|].
    vm_compute in E. injection E as <-. apply (bool_decide_unpack _). vm_compute. exact Logic.I.
Defined.
