(* ===== verification/Toposort.v ===== *)
(** The topological order of the targets ([GetTopologicalRootsAndIdentifyBuildableRoots] and
    [ToposortRecursively] of [core/targethasher/graph.go]). *)
From Stdlib Require Import ZArith Lia.
From stdpp Require Import gmap fin_maps.
From S2P Require Import Prelude Bfs TargetHasher.

Local Open Scope nat_scope.

(** * What does not change *)

(** Dependencies are sorted, and roots are flagged. *)
Record same_target (t t' : HTarget) : Prop := {
  st_Name : h_Name t' = h_Name t;
  st_Hash : h_Hash t' = h_Hash t;
  st_HashWithoutDeps : h_HashWithoutDeps t' = h_HashWithoutDeps t;
  st_RuleType : h_RuleType t' = h_RuleType t;
  st_Deps : h_Deps t' ≡ₚ h_Deps t;
}.

#[export] Instance same_target_preorder : PreOrder same_target.
Proof.
  split.
  - intros t. by constructor.
  - intros t1 t2 t3 [] []. constructor; [congruence..|]. by etrans.
Qed.

Definition same_targets (T T' : HTargets) : Prop := forall n, option_Forall2 same_target (T !! n) (T' !! n).

#[export] Instance same_targets_preorder : PreOrder same_targets.
Proof.
  split.
  - intros T n. reflexivity.
  - intros T1 T2 T3 H1 H2 n. etrans; [apply H1|apply H2].
Qed.

Lemma same_targets_insert (T : HTargets) n t t' : T !! n = Some t -> same_target t t' -> same_targets T (<[n := t']> T).
Proof.
  intros Hn Ht m. destruct (decide (n = m)) as [<-|Hne].
  - rewrite lookup_insert_eq, Hn. by constructor.
  - by rewrite lookup_insert_ne.
Qed.

Lemma same_targets_lookup T T' n t' : same_targets T T' -> T' !! n = Some t' -> exists t, T !! n = Some t /\ same_target t t'.
Proof. intros H Hn. specialize (H n). rewrite Hn in H. inversion H; subst. eauto. Qed.

Lemma same_targets_is_Some T T' n : same_targets T T' -> is_Some (T' !! n) <-> is_Some (T !! n).
Proof. intros H. specialize (H n). by inversion H. Qed.

(** ** Roots *)

Section roots.
Context (range : HTargets -> list (bytes * HTarget)).
Context (range_perm : forall m, range m ≡ₚ map_to_list m).

Lemma elem_of_table_range n t T : (n, t) ∈ range T <-> T !! n = Some t.
Proof. by rewrite range_perm, elem_of_map_to_list. Qed.

Lemma elem_of_not_roots l n : n ∈ not_roots l <-> exists m t, (m, t) ∈ l /\ n ∈ h_Deps t.
Proof.
  unfold not_roots. assert (forall s : gset bytes, n ∈ foldl (fun s nt => foldl (fun s dep => {[ dep ]} ∪ s) s (h_Deps nt.2)) s l <->
    n ∈ s \/ exists m t, (m, t) ∈ l /\ n ∈ h_Deps t) as H; [|rewrite H; set_solver].
  assert (forall ds (s : gset bytes), n ∈ foldl (fun s dep => {[ dep ]} ∪ s) s ds <-> n ∈ s \/ n ∈ ds) as Hds.
  { induction ds as [|d ds IH]; intros s; cbn [foldl]; [set_solver|]. rewrite IH, elem_of_cons. set_solver. }
  induction l as [|[m t] l IH]; intros s; cbn [foldl]; [set_solver|]. rewrite IH, Hds. cbn [snd]. split.
  - intros [[?|?]|(m' & t' & ? & ?)]; [by left|right; exists m, t|right; exists m', t']; by (split; [|done]; set_solver).
  - intros [?|(m' & t' & [[= -> ->]|?]%elem_of_cons & ?)]; [by left; left|by left; right|by right; eauto].
Qed.

Lemma topological_roots T roots T' :
  GetTopologicalRootsAndIdentifyBuildableRoots range T = (roots, T') ->
  same_targets T T' /\ forall n, n ∈ roots <-> is_Some (T !! n) /\ forall m t, T !! m = Some t -> n ∉ h_Deps t.
Proof.
  unfold GetTopologicalRootsAndIdentifyBuildableRoots. set (nr := not_roots (range T)).
  set (f := fun '(roots, targets) nt => _).
  assert (forall l rs (M : HTargets), (forall n t, (n, t) ∈ l -> T !! n = Some t) -> same_targets T M ->
    same_targets T (foldl f (rs, M) l).2 /\ forall n, n ∈ (foldl f (rs, M) l).1 <-> n ∈ rs \/ (n ∈ l.*1 /\ n ∉ nr)) as Hf.
  { induction l as [|[n t] l IH]; intros rs M Hl HM; cbn [foldl]; [set_solver|]. unfold f at 2 4. cbn [fst snd].
    case_decide as Hn.
    - destruct (IH rs M ltac:(set_solver) HM) as [Hs Hr]. split; [done|]. intros m. rewrite Hr, fmap_cons, elem_of_cons. cbn [fst]. naive_solver.
    - destruct (IH (rs ++ [n]) (if CanBeRoot (h_RuleType t) then <[n := set_root t]> M else M)) as [Hs Hr].
      + intros m u Hm. apply Hl. by right.
      + destruct (CanBeRoot (h_RuleType t)); [|done].
        intros m. destruct (decide (n = m)) as [<-|Hne]; [|by rewrite lookup_insert_ne].
        rewrite lookup_insert_eq, (Hl n t) by by left. constructor. by constructor.
      + split; [done|]. intros m. rewrite Hr, elem_of_app, list_elem_of_singleton, fmap_cons, elem_of_cons. cbn [fst]. naive_solver. }
  destruct (foldl f ([], T) (range T)) as [rs M] eqn:E. intros [= <- <-].
  destruct (Hf (range T) [] T) as [Hs Hr]; [intros n t; apply elem_of_table_range|done|]. rewrite E in Hs, Hr. cbn [fst snd] in *. split; [done|].
  intros n. rewrite elem_of_sort_func, Hr by apply _. unfold nr. rewrite elem_of_not_roots. split.
  - intros [?|[([m t] & -> & Hm%elem_of_table_range)%list_elem_of_fmap Hn]]; [set_solver|]. split; [by exists t|].
    intros m' t' Hm' Hd. apply Hn. exists m', t'. by rewrite elem_of_table_range.
  - intros [[t Ht] Hn]. right. split.
    + apply list_elem_of_fmap. exists (n, t). by rewrite elem_of_table_range.
    + intros (m & u & Hm%elem_of_table_range & Hd). by apply (Hn m u).
Qed.
End roots.

(** * The visit *)

Section visit.
Context (ctx : Z -> bool).

Definition visit_deps (visit : bytes -> tstate -> option (res tstate)) : list bytes -> tstate -> option (res tstate) :=
  fix visit_deps deps s :=
    match deps with
    | [] => Some (Ok s)
    | dep :: deps => match visit dep s with Some (Ok s) => visit_deps deps s | r => r end
    end.

Definition mark_visited (name : bytes) (s : tstate) : tstate :=
  {| ts_targets := ts_targets s; ts_order := ts_order s; ts_visited := {[ name ]} ∪ ts_visited s; ts_calls := (ts_calls s + 1)%Z |}.
Definition sort_deps (name : bytes) (t : HTarget) (s : tstate) : tstate :=
  {| ts_targets := <[name := set_deps (sort_func bcompare (h_Deps t)) t]> (ts_targets s); ts_order := ts_order s;
     ts_visited := ts_visited s; ts_calls := ts_calls s |}.
Definition append (name : bytes) (s : tstate) : tstate :=
  {| ts_targets := ts_targets s; ts_order := ts_order s ++ [name]; ts_visited := ts_visited s; ts_calls := ts_calls s |}.

Lemma ToposortRecursively_S fuel name s :
  ToposortRecursively ctx (S fuel) name s =
  if ctx (ts_calls s) then Some (Err cancelled_err)
  else if decide (name ∈ ts_visited s) then
    Some (Ok {| ts_targets := ts_targets s; ts_order := ts_order s; ts_visited := ts_visited s; ts_calls := (ts_calls s + 1)%Z |})
  else match ts_targets s !! name with
       | None => Some (Ok (mark_visited name s))
       | Some t =>
           match visit_deps (ToposortRecursively ctx fuel) (sort_func bcompare (h_Deps t)) (sort_deps name t (mark_visited name s)) with
           | Some (Ok s) => Some (Ok (append name s))
           | r => r
           end
       end.
Proof. reflexivity. Qed.

(** What is visited grows. *)
Record grows (s s' : tstate) : Prop := {
  gr_targets : same_targets (ts_targets s) (ts_targets s');
  gr_visited : ts_visited s ⊆ ts_visited s';
  gr_order : forall n, n ∈ ts_order s -> n ∈ ts_order s';
}.

#[export] Instance grows_preorder : PreOrder grows.
Proof.
  split.
  - intros s. by constructor.
  - intros s1 s2 s3 [T1 V1 O1] [T2 V2 O2]. constructor; [by etrans|by etrans|auto].
Qed.

(** The fuel that a visit needs: the targets not visited. *)
Definition unvisited (s : tstate) : nat := size (dom (ts_targets s) ∖ ts_visited s).

Lemma unvisited_grows s s' : grows s s' -> unvisited s' <= unvisited s.
Proof.
  intros [T V _]. unfold unvisited. apply subseteq_size. intros n. rewrite !elem_of_difference, !elem_of_dom, (same_targets_is_Some _ _ n T). set_solver.
Qed.

Lemma unvisited_mark name t s : ts_targets s !! name = Some t -> name ∉ ts_visited s ->
  grows s (sort_deps name t (mark_visited name s)) /\ S (unvisited (sort_deps name t (mark_visited name s))) = unvisited s.
Proof.
  intros Ht Hn. split.
  - constructor; cbn; [|set_solver|done]. eapply same_targets_insert; [done|]. constructor; cbn; [done..|]. apply sort_func_perm.
  - unfold unvisited. cbn [sort_deps mark_visited ts_targets ts_visited].
    assert (dom (<[name := set_deps (sort_func bcompare (h_Deps t)) t]> (ts_targets s)) = dom (ts_targets s)) as ->.
    { rewrite dom_insert_L. assert (name ∈ dom (ts_targets s)) by (apply elem_of_dom; by eexists). set_solver. }
    assert (dom (ts_targets s) ∖ ts_visited s = {[ name ]} ∪ (dom (ts_targets s) ∖ ({[ name ]} ∪ ts_visited s))) as ->.
    { assert (name ∈ dom (ts_targets s)) by (apply elem_of_dom; by eexists). apply set_eq. intros n.
      destruct (decide (n = name)) as [->|]; set_solver. }
    rewrite (size_union (C:=gset bytes) {[ name ]} (dom (ts_targets s) ∖ ({[ name ]} ∪ ts_visited s))) by set_solver.
    by rewrite size_singleton.
Qed.

(** The visit ends; only the context can stop it. *)
Definition visits (r : option (res tstate)) (Q : tstate -> Prop) : Prop :=
  match r with
  | Some (Ok s) => Q s
  | Some (Err e) => e = cancelled_err /\ exists i, ctx i = true
  | Some Panic => False
  | None => False
  end.

Lemma visits_mono r (Q R : tstate -> Prop) : visits r Q -> (forall s, Q s -> R s) -> visits r R.
Proof. destruct r as [[s|e|]|]; cbn; auto. Qed.

(** ** The order *)

Section order.
Context (T0 : HTargets) (rank : bytes -> nat).
(** Dependencies among the targets are acyclic. *)
Context (Hrank : forall n t d, T0 !! n = Some t -> d ∈ h_Deps t -> is_Some (T0 !! d) -> rank d < rank n).

Definition deps_first (order : list bytes) : Prop := forall l1 n l2 t d,
  order = l1 ++ n :: l2 -> T0 !! n = Some t -> d ∈ h_Deps t -> is_Some (T0 !! d) -> d ∈ l1.

(** The names that are visited but not in the order yet are [busy]. *)
Record sorting (busy : gset bytes) (s : tstate) : Prop := {
  so_targets : same_targets T0 (ts_targets s);
  so_nodup : NoDup (ts_order s);
  so_order : forall n, n ∈ ts_order s -> n ∈ ts_visited s /\ is_Some (T0 !! n);
  so_visited : forall n, n ∈ ts_visited s -> is_Some (T0 !! n) -> n ∈ ts_order s \/ n ∈ busy;
  so_busy : forall n, n ∈ busy -> n ∈ ts_visited s /\ n ∉ ts_order s;
  so_deps : deps_first (ts_order s);
}.

Lemma deps_first_snoc order name t : deps_first order -> T0 !! name = Some t ->
  (forall d, d ∈ h_Deps t -> is_Some (T0 !! d) -> d ∈ order) -> deps_first (order ++ [name]).
Proof.
  intros Hf Ht Hd l1 n l2 u d E Hu Hdu Hs. destruct l2 as [|x l2 _] using rev_ind.
  - apply app_inj_tail in E as [-> ->]. assert (u = t) as -> by congruence. by apply Hd.
  - rewrite app_comm_cons, app_assoc in E. apply app_inj_tail in E as [-> _]. by eapply Hf.
Qed.

Lemma sorting_known busy name s : sorting busy s -> ts_targets s !! name = None -> sorting busy (mark_visited name s).
Proof.
  intros [] Et. assert (T0 !! name = None) as Hn.
  { apply eq_None_not_Some. rewrite <- (same_targets_is_Some _ _ name so_targets0), Et. by intros []. }
  constructor; cbn; [done|done|..|done].
  - intros n Hno. destruct (so_order0 n Hno). set_solver.
  - intros n [->%elem_of_singleton|?]%elem_of_union; [rewrite Hn; by intros []|auto].
  - intros n Hno. destruct (so_busy0 n Hno). set_solver.
Qed.

Lemma sorting_mark busy name t s : sorting busy s -> ts_targets s !! name = Some t -> name ∉ ts_visited s ->
  sorting ({[ name ]} ∪ busy) (sort_deps name t (mark_visited name s)).
Proof.
  intros Hs Et Hv. destruct (unvisited_mark name t s Et Hv) as [Hg _]. destruct Hs. constructor; cbn.
  - etrans; [done|apply Hg].
  - done.
  - intros n Hno. destruct (so_order0 n Hno). set_solver.
  - intros n [->%elem_of_singleton|?]%elem_of_union Hp; [set_solver|]. destruct (so_visited0 n); set_solver.
  - intros n [->%elem_of_singleton|Hno]%elem_of_union; [|destruct (so_busy0 n Hno); set_solver].
    split; [set_solver|]. intros Hno. by destruct (so_order0 _ Hno).
  - done.
Qed.

Lemma sorting_append busy name t s : name ∉ busy -> T0 !! name = Some t -> sorting ({[ name ]} ∪ busy) s ->
  (forall d, d ∈ h_Deps t -> is_Some (T0 !! d) -> d ∈ ts_order s) -> sorting busy (append name s).
Proof.
  intros Hb Ht [] Hd. destruct (so_busy0 name ltac:(set_solver)) as [Hv Hno]. constructor; cbn.
  - done.
  - apply NoDup_app. split; [done|]. split; [|apply NoDup_singleton]. intros n Hn ->%list_elem_of_singleton. done.
  - intros n [Hn| ->%list_elem_of_singleton]%elem_of_app; [auto|]. split; [done|by exists t].
  - intros n Hn Hp. rewrite elem_of_app, list_elem_of_singleton. destruct (so_visited0 n Hn Hp) as [?|[->%elem_of_singleton|?]%elem_of_union]; auto.
  - intros n Hn. destruct (so_busy0 n ltac:(set_solver)) as [? Hn']. split; [done|].
    intros [?| ->%list_elem_of_singleton]%elem_of_app; done.
  - by eapply deps_first_snoc.
Qed.

(** The visit of the dependencies, each of which is visited below [busy]. *)
Lemma visit_deps_sorting visit fuel busy ds s :
  Forall (fun d => forall s, unvisited s < fuel -> sorting busy s ->
    visits (visit d s) (fun s' => sorting busy s' /\ grows s s' /\ (is_Some (T0 !! d) -> d ∈ ts_order s'))) ds ->
  unvisited s < fuel -> sorting busy s ->
  visits (visit_deps visit ds s) (fun s' => sorting busy s' /\ grows s s' /\ forall d, d ∈ ds -> is_Some (T0 !! d) -> d ∈ ts_order s').
Proof.
  intros Hds. revert s. induction Hds as [|d ds Hd Hds IH]; intros s Hf Hs; cbn [visit_deps].
  { split; [done|]. split; [done|]. set_solver. }
  specialize (Hd s Hf Hs). destruct (visit d s) as [[s2|e|]|]; [|exact Hd..]. destruct Hd as (Hs2 & Hg2 & Hd2).
  eapply visits_mono; [apply (IH s2); [pose proof (unvisited_grows _ _ Hg2); lia|done]|]. cbn beta.
  intros s3 (Hs3 & Hg3 & Hd3). split; [done|]. split; [by etrans|]. intros x [->|Hx]%elem_of_cons Hp; [|by apply Hd3].
  apply (gr_order _ _ Hg3). by apply Hd2.
Qed.

Lemma ToposortRecursively_sorting fuel busy name s :
  unvisited s < fuel -> sorting busy s -> (forall b, b ∈ busy -> is_Some (T0 !! name) -> rank name < rank b) ->
  visits (ToposortRecursively ctx fuel name s) (fun s' => sorting busy s' /\ grows s s' /\ (is_Some (T0 !! name) -> name ∈ ts_order s')).
Proof.
  revert busy name s. induction fuel as [|fuel IH]; intros busy name s Hf Hs Hb; [lia|]. rewrite ToposortRecursively_S.
  destruct (ctx (ts_calls s)) eqn:Ec; [by split; [|eauto]|]. case_decide as Hv.
  { split; [by destruct Hs|]. split; [done|]. intros Hn. destruct (so_visited _ _ Hs name Hv Hn) as [?|Hx]; [done|]. pose proof (Hb name Hx Hn). lia. }
  destruct (ts_targets s !! name) as [t|] eqn:Et.
  2:{ split; [by apply sorting_known|]. split; [constructor; cbn; [done|set_solver|done]|].
      rewrite <- (same_targets_is_Some _ _ name (so_targets _ _ Hs)), Et. by intros []. }
  destruct (same_targets_lookup _ _ _ _ (so_targets _ _ Hs) Et) as (t0 & Ht0 & Hst).
  destruct (unvisited_mark name t s Et Hv) as [Hg Hu]. pose proof (sorting_mark _ _ _ _ Hs Et Hv) as Hs1.
  set (s1 := sort_deps name t (mark_visited name s)) in *.
  assert (forall d, d ∈ sort_func bcompare (h_Deps t) <-> d ∈ h_Deps t0) as Hdeps.
  { intros d. by rewrite sort_func_perm, (st_Deps _ _ Hst) by apply _. }
  assert (visits (visit_deps (ToposortRecursively ctx fuel) (sort_func bcompare (h_Deps t)) s1) (fun s' =>
    sorting ({[ name ]} ∪ busy) s' /\ grows s1 s' /\ forall d, d ∈ sort_func bcompare (h_Deps t) -> is_Some (T0 !! d) -> d ∈ ts_order s')) as Hd.
  { apply (visit_deps_sorting _ fuel); [|lia|done]. apply Forall_forall. intros d Hd%Hdeps s' Hf' Hs'. apply IH; [done|done|].
    intros b Hbb Hp. pose proof (Hrank name t0 d Ht0 Hd Hp) as Hlt. apply elem_of_union in Hbb as [->%elem_of_singleton|Hbb]; [done|].
    pose proof (Hb b Hbb ltac:(by eexists)). lia. }
  destruct (visit_deps _ _ s1) as [[s2|e|]|]; [|exact Hd..]. destruct Hd as (Hs2 & Hg2 & Hd2). cbn [visits].
  split; [|split].
  - eapply sorting_append; [|done|done|intros d Hdd; by apply Hd2, Hdeps]. intros Hn. by apply Hv, (so_busy _ _ Hs).
  - etrans; [exact Hg|]. etrans; [exact Hg2|]. constructor; cbn; [done|done|]. intros n Hn. apply elem_of_app. by left.
  - intros _. cbn. apply elem_of_app. right. by left.
Qed.

Lemma toposort_all_sorting fuel names s : unvisited s < fuel -> sorting ∅ s ->
  visits (toposort_all ctx fuel names s) (fun s' => sorting ∅ s' /\ grows s s' /\ forall n, n ∈ names -> is_Some (T0 !! n) -> n ∈ ts_order s').
Proof.
  revert s. induction names as [|n names IH]; intros s Hf Hs; cbn [toposort_all].
  { split; [done|]. split; [done|]. set_solver. }
  pose proof (ToposortRecursively_sorting fuel ∅ n s Hf Hs ltac:(set_solver)) as Hn.
  destruct (ToposortRecursively ctx fuel n s) as [[s2|e|]|]; [|exact Hn..]. destruct Hn as (Hs2 & Hg2 & Hn2).
  eapply visits_mono; [apply (IH s2); [pose proof (unvisited_grows _ _ Hg2); lia|done]|]. cbn beta.
  intros s3 (Hs3 & Hg3 & Hd3). split; [done|]. split; [by etrans|]. intros x [->|Hx]%elem_of_cons Hp; [|by apply Hd3].
  apply (gr_order _ _ Hg3). by apply Hn2.
Qed.
End order.
End visit.

(** On any graph the targets stay the same. *)
Lemma ToposortRecursively_same ctx fuel name s s' :
  ToposortRecursively ctx fuel name s = Some (Ok s') -> same_targets (ts_targets s) (ts_targets s').
Proof.
  revert name s s'. induction fuel as [|fuel IH]; intros name s s'; [done|]. rewrite ToposortRecursively_S.
  destruct (ctx (ts_calls s)); [done|]. case_decide as Hv; [by intros [= <-]|].
  destruct (ts_targets s !! name) as [t|] eqn:Et; [|by intros [= <-]].
  assert (forall ds s1 s2, visit_deps (ToposortRecursively ctx fuel) ds s1 = Some (Ok s2) -> same_targets (ts_targets s1) (ts_targets s2)) as Hds.
  { induction ds as [|d ds IHd]; intros s1 s2; cbn [visit_deps]; [by intros [= <-]|].
    destruct (ToposortRecursively ctx fuel d s1) as [[s3|e|]|] eqn:E; [|done..]. intros H%IHd. etrans; [by eapply IH|done]. }
  destruct (visit_deps _ _ _) as [[s2|e|]|] eqn:E; [|done..]. intros [= <-]. etrans; [|exact (Hds _ _ _ E)].
  eapply same_targets_insert; [exact Et|]. constructor; cbn; [done..|]. apply sort_func_perm.
Qed.

Lemma toposort_all_same ctx fuel names s s' :
  toposort_all ctx fuel names s = Some (Ok s') -> same_targets (ts_targets s) (ts_targets s').
Proof.
  revert s. induction names as [|n names IH]; intros s; cbn [toposort_all]; [by intros [= <-]|].
  destruct (ToposortRecursively ctx fuel n s) as [[s2|e|]|] eqn:E; [|done..]. intros H%IH.
  etrans; [by eapply ToposortRecursively_same|done].
Qed.

(** * Properties *)

Section complete.
Context (T : HTargets) (rank : bytes -> nat).
Context (Hrank : forall n t d, T !! n = Some t -> d ∈ h_Deps t -> is_Some (T !! d) -> rank d < rank n).

Lemma rank_bound : exists M, forall n, is_Some (T !! n) -> rank n <= M.
Proof.
  exists (max_list (rank <$> (map_to_list T).*1)). intros n [t Ht]. apply max_list_elem_of_le.
  apply list_elem_of_fmap. exists n. split; [done|]. apply list_elem_of_fmap. exists (n, t). by rewrite elem_of_map_to_list.
Qed.

(** A set that has the roots and is closed under dependencies has every target. *)
Lemma roots_reach (P : bytes -> Prop) (roots : list bytes) :
  (forall n, n ∈ roots <-> is_Some (T !! n) /\ forall m t, T !! m = Some t -> n ∉ h_Deps t) ->
  (forall n, n ∈ roots -> P n) -> (forall n t d, T !! n = Some t -> P n -> d ∈ h_Deps t -> is_Some (T !! d) -> P d) ->
  forall n, is_Some (T !! n) -> P n.
Proof.
  intros Hroots Hr Hdep. destruct rank_bound as [M HM].
  assert (forall k n, M - rank n < k -> is_Some (T !! n) -> P n) as Hall; [|intros n Hn; apply (Hall (S (M - rank n))); [lia|done]].
  induction k as [|k IH]; intros n Hk Hn; [lia|].
  destruct (decide (Exists (fun mt => n ∈ h_Deps mt.2) (map_to_list T))) as [Hex|Hno].
  - apply Exists_exists in Hex as ([m t] & Hm & Hd). apply elem_of_map_to_list in Hm. cbn [snd] in Hd. apply (Hdep m t n Hm); [|done|done].
    pose proof (Hrank m t n Hm Hd Hn). pose proof (HM m ltac:(by eexists)). apply IH; [lia|by eexists].
  - apply Hr, Hroots. split; [done|]. intros m t Hm Hd. apply Hno, Exists_exists. exists (m, t). by rewrite elem_of_map_to_list.
Qed.
End complete.

(** C37: The order of the result is topological.  From the roots that
    [GetTopologicalRootsAndIdentifyBuildableRoots] finds, the recursive visit ends, and
    when the context does not stop it the order holds every target of an acyclic graph
    exactly once, each after the dependencies that are targets.  Roots and visit only
    flag targets and sort their dependencies. *)
Theorem order_is_topological (range : HTargets -> list (bytes * HTarget)) (ctx : Z -> bool) (fuel : nat) (T T' : HTargets)
    (roots : list bytes) (rank : bytes -> nat) :
  (forall m, range m ≡ₚ map_to_list m) ->
  (forall n t d, T !! n = Some t -> d ∈ h_Deps t -> is_Some (T !! d) -> rank d < rank n) ->
  GetTopologicalRootsAndIdentifyBuildableRoots range T = (roots, T') -> size T < fuel ->
  match toposort_all ctx fuel roots {| ts_targets := T'; ts_order := []; ts_visited := ∅; ts_calls := 0 |} with
  | Some (Ok s) => ts_order s ≡ₚ (map_to_list T).*1 /\ deps_first T (ts_order s) /\ same_targets T (ts_targets s)
  | Some (Err e) => e = cancelled_err /\ exists i, ctx i = true
  | _ => False
  end.
Proof.
  intros Hp Hrank Hroots Hf. destruct (topological_roots range Hp T roots T' Hroots) as [Hs Hr].
  assert (dom T' = dom T) as Hdom. { apply set_eq. intros n. by rewrite !elem_of_dom, (same_targets_is_Some T T' n). }
  assert (sorting T ∅ {| ts_targets := T'; ts_order := []; ts_visited := ∅; ts_calls := 0 |}) as H0.
  { constructor; cbn; [done|constructor|set_solver|set_solver|set_solver|]. intros [] n l2 t d E; discriminate E. }
  eapply (visits_mono ctx _ _ (fun s => ts_order s ≡ₚ (map_to_list T).*1 /\ deps_first T (ts_order s) /\ same_targets T (ts_targets s))).
  { apply (toposort_all_sorting ctx T rank Hrank); [|exact H0].
    unfold unvisited. cbn [ts_targets ts_visited]. by rewrite difference_empty_L, Hdom, size_dom. }
  cbn beta. intros s (Hso & _ & Hin). split; [|split; [apply Hso|apply Hso]].
  apply NoDup_Permutation; [apply Hso|apply NoDup_fst_map_to_list|]. intros n.
  assert (n ∈ (map_to_list T).*1 <-> is_Some (T !! n)) as ->.
  { rewrite list_elem_of_fmap. split.
    - intros ([m t] & -> & Hm%elem_of_map_to_list). by exists t.
    - intros [t Ht]. exists (n, t). by rewrite elem_of_map_to_list. }
  split; [by intros [_ ?]%(so_order _ _ _ Hso)|]. apply (roots_reach T rank Hrank (fun n => n ∈ ts_order s) roots Hr).
  - intros m Hm. apply Hin; [done|]. by apply Hr.
  - intros m t d Hm Hmo Hd Hds. apply list_elem_of_split in Hmo as (l1 & l2 & E).
    rewrite E. apply elem_of_app. left. by eapply (so_deps _ _ _ Hso).
Qed.

(** A binary that depends on a library and on a file, which the library depends on too. *)
Definition three_targets : HTargets :=
  list_to_map ((fun nd => (nd.1, set_deps nd.2 (made_target nd.1 (bs "go_library") None None false None))) <$>
    [(bs "//a:bin", [bs "//a:lib"; bs "//a:f.go"; bs "//a:absent"]); (bs "//a:lib", [bs "//a:f.go"]); (bs "//a:f.go", [])]).

Definition three_ranks (n : bytes) : nat :=
  if decide (n = bs "//a:bin") then 2 else if decide (n = bs "//a:lib") then 1 else 0.

Lemma order_is_topological_witness :
  match toposort_all (fun _ => false) 4 [bs "//a:bin"]
          {| ts_targets := (GetTopologicalRootsAndIdentifyBuildableRoots map_to_list three_targets).2;
             ts_order := []; ts_visited := ∅; ts_calls := 0 |} with
  | Some (Ok s) => ts_order s = [bs "//a:f.go"; bs "//a:lib"; bs "//a:bin"] /\ ts_order s ≡ₚ (map_to_list three_targets).*1
  | _ => False
  end.
Proof.
  pose proof (order_is_topological map_to_list (fun _ => false) 4 three_targets
    (GetTopologicalRootsAndIdentifyBuildableRoots map_to_list three_targets).2 [bs "//a:bin"] three_ranks) as H.
  assert (forall n t d, three_targets !! n = Some t -> d ∈ h_Deps t -> is_Some (three_targets !! d) -> three_ranks d < three_ranks n) as Hrank.
  { intros n t d Ht Hd Hs. apply elem_of_map_to_list in Ht.
    assert (Forall (fun nt => Forall (fun d => three_targets !! d = None \/ three_ranks d < three_ranks nt.1) (h_Deps nt.2))
              (map_to_list three_targets)) as Hall by (apply (bool_decide_unpack _); vm_compute; exact Logic.I).
    rewrite Forall_forall in Hall. specialize (Hall _ Ht). cbn [fst snd] in Hall. rewrite Forall_forall in Hall.
    destruct (Hall d Hd) as [E|?]; [rewrite E in Hs; by destruct Hs|done]. }
  assert (GetTopologicalRootsAndIdentifyBuildableRoots map_to_list three_targets =
    ([bs "//a:bin"], (GetTopologicalRootsAndIdentifyBuildableRoots map_to_list three_targets).2)) as Hroots.
  { apply injective_projections; [|reflexivity]. vm_compute. reflexivity. }
  specialize (H (fun m => reflexivity _) Hrank Hroots).
  assert (size three_targets < 4) as Hsize by (apply (bool_decide_unpack _); vm_compute; exact Logic.I).
  specialize (H Hsize).
  assert (match toposort_all (fun _ => false) 4 [bs "//a:bin"]
          {| ts_targets := (GetTopologicalRootsAndIdentifyBuildableRoots map_to_list three_targets).2;
             ts_order := []; ts_visited := ∅; ts_calls := 0 |} with
          | Some (Ok s) => ts_order s | _ => [] end = [bs "//a:f.go"; bs "//a:lib"; bs "//a:bin"]) as Hrun by (vm_compute; reflexivity).
  destruct (toposort_all _ _ _ _) as [[s|e|]|];
    [|destruct H as [_ [i Hi]]; discriminate Hi|exact H|exact H].
  split; [exact Hrun|exact (proj1 H)].
Defined.
