(* ===== verification/Itg.v ===== *)
(** The incremental target graph ([core/itg/graph]): targets by ID with reverse
    dependencies, updates that invalidate hashes, and the hashing of what was
    invalidated. *)
From Stdlib Require Import ZArith Lia.
From stdpp Require Import gmap fin_maps.
From S2P Require Import Prelude Bfs RuleHash SourceHash TargetHasher Mapper.

Local Open Scope Z_scope.

(** * The graph ([graph.go]) *)

(** [OptimizedTarget]; a nil hash is [None], the integer sets are maps to [struct{}]. *)
Record ITarget := {
  it_ID : Z;
  it_Hash : option bytes;
  it_HashWithoutDeps : option bytes;
  it_RuleType : Z;
  it_Deps : gset Z;
  it_ReverseDeps : gset Z;
  it_Tags : list Z;
  it_Root : bool;
  it_External : bool;
  it_Attributes : gmap Z Z;
}.

(** An entry of [ExternalRuleTargets] points to the very object that [OptimizedTargets] has
    for its ID, or to an object of its own; no other references to targets are kept. *)
Inductive ext_ref := Shared | Own (t : ITarget).

(** A table of names with its reverse. *)
Record Table := { tb_ToID : gmap bytes Z; tb_IDToString : gmap Z bytes }.

Record OptimizedGraph := {
  OptimizedTargets : gmap Z ITarget;
  ExternalRuleTargets : gmap Z ext_ref;
  NextTargetID : Z;
  TargetNames : Table;
  RuleTypes : Table;
  Tags : Table;
  AttrNames : Table;
  AttrValues : Table;
}.

#[export] Instance ITarget_eq_dec : EqDecision ITarget. Proof. solve_decision. Defined.
#[export] Instance ext_ref_eq_dec : EqDecision ext_ref. Proof. solve_decision. Defined.

(** ** Updates of a field *)

Definition set_it_hash (h : option bytes) (t : ITarget) : ITarget :=
  {| it_ID := it_ID t; it_Hash := h; it_HashWithoutDeps := it_HashWithoutDeps t; it_RuleType := it_RuleType t;
     it_Deps := it_Deps t; it_ReverseDeps := it_ReverseDeps t; it_Tags := it_Tags t; it_Root := it_Root t;
     it_External := it_External t; it_Attributes := it_Attributes t |}.
Definition set_it_deps (deps : gset Z) (t : ITarget) : ITarget :=
  {| it_ID := it_ID t; it_Hash := it_Hash t; it_HashWithoutDeps := it_HashWithoutDeps t; it_RuleType := it_RuleType t;
     it_Deps := deps; it_ReverseDeps := it_ReverseDeps t; it_Tags := it_Tags t; it_Root := it_Root t;
     it_External := it_External t; it_Attributes := it_Attributes t |}.
(** The reverse dependencies and the root flag. *)
Definition set_it_links (rdeps : gset Z) (root : bool) (t : ITarget) : ITarget :=
  {| it_ID := it_ID t; it_Hash := it_Hash t; it_HashWithoutDeps := it_HashWithoutDeps t; it_RuleType := it_RuleType t;
     it_Deps := it_Deps t; it_ReverseDeps := rdeps; it_Tags := it_Tags t; it_Root := root;
     it_External := it_External t; it_Attributes := it_Attributes t |}.

Definition set_targets (T : gmap Z ITarget) (g : OptimizedGraph) : OptimizedGraph :=
  {| OptimizedTargets := T; ExternalRuleTargets := ExternalRuleTargets g; NextTargetID := NextTargetID g;
     TargetNames := TargetNames g; RuleTypes := RuleTypes g; Tags := Tags g; AttrNames := AttrNames g; AttrValues := AttrValues g |}.
Definition set_externals (E : gmap Z ext_ref) (g : OptimizedGraph) : OptimizedGraph :=
  {| OptimizedTargets := OptimizedTargets g; ExternalRuleTargets := E; NextTargetID := NextTargetID g;
     TargetNames := TargetNames g; RuleTypes := RuleTypes g; Tags := Tags g; AttrNames := AttrNames g; AttrValues := AttrValues g |}.
Definition set_names (next : Z) (names : Table) (g : OptimizedGraph) : OptimizedGraph :=
  {| OptimizedTargets := OptimizedTargets g; ExternalRuleTargets := ExternalRuleTargets g; NextTargetID := next;
     TargetNames := names; RuleTypes := RuleTypes g; Tags := Tags g; AttrNames := AttrNames g; AttrValues := AttrValues g |}.
Definition set_tables (ruleTypes tags attrNames attrValues : Table) (g : OptimizedGraph) : OptimizedGraph :=
  {| OptimizedTargets := OptimizedTargets g; ExternalRuleTargets := ExternalRuleTargets g; NextTargetID := NextTargetID g;
     TargetNames := TargetNames g; RuleTypes := ruleTypes; Tags := tags; AttrNames := attrNames; AttrValues := attrValues |}.

(** [g.OptimizedTargets[id].f = ...] *)
Definition modify (f : ITarget -> ITarget) (id : Z) (g : OptimizedGraph) : OptimizedGraph :=
  set_targets (alter f id (OptimizedTargets g)) g.

(** [g.OptimizedTargets[id] = t], a new object: [ExternalRuleTargets] keeps the old one. *)
Definition put_target (id : Z) (t : ITarget) (g : OptimizedGraph) : OptimizedGraph :=
  let E := match ExternalRuleTargets g !! id, OptimizedTargets g !! id with
           | Some Shared, Some old => <[id := Own old]> (ExternalRuleTargets g)
           | _, _ => ExternalRuleTargets g
           end in
  set_externals E (set_targets (<[id := t]> (OptimizedTargets g)) g).

(** [g.ExternalRuleTargets[id]] *)
Definition external_target (g : OptimizedGraph) (id : Z) : option ITarget :=
  match ExternalRuleTargets g !! id with
  | Some Shared => OptimizedTargets g !! id
  | Some (Own t) => Some t
  | None => None
  end.

Definition is_external (g : OptimizedGraph) (id : Z) : Prop := is_Some (ExternalRuleTargets g !! id).

#[export] Instance is_external_dec g id : Decision (is_external g id).
Proof. unfold is_external. apply _. Defined.

Definition name_string (g : OptimizedGraph) (id : Z) : bytes := default [] (tb_IDToString (TargetNames g) !! id).
Definition rule_type (g : OptimizedGraph) (id : Z) : bytes := default [] (tb_IDToString (RuleTypes g) !! id).

Definition getOrGenerate (key : bytes) (m : gmap bytes Z) : Z * gmap bytes Z :=
  match m !! key with
  | Some val => (val, m)
  | None => (Z.of_nat (size m), <[key := Z.of_nat (size m)]> m)
  end.

Definition getOrGenerateRecordReverse (key : bytes) (tb : Table) : Z * Table :=
  let '(id, m) := getOrGenerate key (tb_ToID tb) in
  (id, {| tb_ToID := m; tb_IDToString := <[id := key]> (tb_IDToString tb) |}).

(** An [int] does not overflow by counting the names in memory. *)
Definition getOrGenerateTargetID (targetName : bytes) (g : OptimizedGraph) : Z * OptimizedGraph :=
  match tb_ToID (TargetNames g) !! targetName with
  | Some id => (id, g)
  | None =>
      let id := NextTargetID g in
      (id, set_names (id + 1)
             {| tb_ToID := <[targetName := id]> (tb_ToID (TargetNames g));
                tb_IDToString := <[id := targetName]> (tb_IDToString (TargetNames g)) |} g)
  end.

(** [depIDs.Insert(g.getOrGenerateTargetID(dep))] for each dependency. *)
Fixpoint generate_deps (deps : list bytes) (ids : gset Z) (g : OptimizedGraph) : gset Z * OptimizedGraph :=
  match deps with
  | [] => (ids, g)
  | dep :: deps => let '(id, g) := getOrGenerateTargetID dep g in generate_deps deps ({[ id ]} ∪ ids) g
  end.

Fixpoint generate_tags (tags : list bytes) (tb : Table) : list Z * Table :=
  match tags with
  | [] => ([], tb)
  | tag :: tags =>
      let '(id, tb) := getOrGenerateRecordReverse tag tb in
      let '(ids, tb) := generate_tags tags tb in
      (id :: ids, tb)
  end.

Section itg.
(** [Attribute_STRING]; the orders in which Go visits sets and maps. *)
Context (attribute_string : Z) (set_range : gset Z -> list Z).

Fixpoint generate_attrs (attrs : list (option Attribute)) (ids : gmap Z Z) (names values : Table) : gmap Z Z * Table * Table :=
  match attrs with
  | [] => (ids, names, values)
  | attr :: attrs =>
      match string_attr attribute_string attr with
      | None => generate_attrs attrs ids names values
      | Some (name, value) =>
          let '(nameID, names) := getOrGenerateRecordReverse name names in
          let '(valueID, values) := getOrGenerateRecordReverse value values in
          generate_attrs attrs (<[nameID := valueID]> ids) names values
      end
  end.

Definition AddTarget (target : HTarget) (g : OptimizedGraph) : OptimizedGraph :=
  let '(id, g) := getOrGenerateTargetID (h_Name target) g in
  let '(depIDs, g) := generate_deps (h_Deps target) ∅ g in
  let '(ruleType, ruleTypes) := getOrGenerateRecordReverse (h_RuleType target) (RuleTypes g) in
  if decide (h_RuleType target = ExternalRuleType) then
    let t := {| it_ID := id; it_Hash := h_Hash target; it_HashWithoutDeps := h_HashWithoutDeps target; it_RuleType := ruleType;
                it_Deps := depIDs; it_ReverseDeps := ∅; it_Tags := []; it_Root := false; it_External := h_External target;
                it_Attributes := ∅ |} in
    let g := put_target id t (set_tables ruleTypes (Tags g) (AttrNames g) (AttrValues g) g) in
    set_externals (<[id := Shared]> (ExternalRuleTargets g)) g
  else
    let '(tagIDs, tags) := generate_tags (h_Tags target) (Tags g) in
    let '(attributes, attrNames, attrValues) := generate_attrs (h_Attributes target) ∅ (AttrNames g) (AttrValues g) in
    put_target id
      {| it_ID := id; it_Hash := h_Hash target; it_HashWithoutDeps := h_HashWithoutDeps target; it_RuleType := ruleType;
         it_Deps := depIDs; it_ReverseDeps := ∅; it_Tags := tagIDs; it_Root := h_Root target; it_External := h_External target;
         it_Attributes := attributes |} (set_tables ruleTypes tags attrNames attrValues g).

Definition empty_table : Table := {| tb_ToID := ∅; tb_IDToString := ∅ |}.
Definition empty_graph : OptimizedGraph :=
  {| OptimizedTargets := ∅; ExternalRuleTargets := ∅; NextTargetID := 0; TargetNames := empty_table; RuleTypes := empty_table;
     Tags := empty_table; AttrNames := empty_table; AttrValues := empty_table |}.

(** [child.ReverseDeps.Insert(id)] *)
Definition add_rdep (id : Z) (t : ITarget) : ITarget := set_it_links ({[ id ]} ∪ it_ReverseDeps t) (it_Root t) t.

Definition link_target (g : OptimizedGraph) (it : Z * ITarget) : OptimizedGraph :=
  foldl (fun g depID => modify (add_rdep it.1) depID g) g (set_range (it_Deps it.2)).

Section optimize.
Context (targets_range : gmap bytes HTarget -> list (bytes * HTarget)).
Context (ids_range : gmap Z ITarget -> list (Z * ITarget)).

Definition OptimizeGraph (targets : gmap bytes HTarget) : OptimizedGraph :=
  let g := foldl (fun g nt => AddTarget nt.2 g) empty_graph (targets_range targets) in
  foldl link_target g (ids_range (OptimizedTargets g)).
End optimize.

(** A deep copy: the objects of the two maps are copied one by one. *)
Definition Copy (g : OptimizedGraph) : OptimizedGraph :=
  set_externals (map_imap (fun id _ => Own <$> external_target g id) (ExternalRuleTargets g)) g.

(** Back to a target of the hasher; an attribute is made for each pair of IDs. *)
Definition string_attribute (name value : bytes) : Attribute :=
  {| at_Name := Some name; at_ExplicitlySpecified := None; at_Nodep := None; at_Type := Some attribute_string;
     at_IntValue := None; at_StringValue := Some value; at_BooleanValue := None; at_TristateValue := None;
     at_StringListValue := []; at_StringDictValue := []; at_FilesetListValue := []; at_LabelListDictValue := [];
     at_StringListDictValue := []; at_IntListValue := []; at_LabelDictUnaryValue := []; at_LabelKeyedStringDictValue := [] |}.

Definition OptimizedTargetToTarget (attr_range : gmap Z Z -> list (Z * Z)) (g : OptimizedGraph) (targetID : Z) : HTarget :=
  match tb_IDToString (TargetNames g) !! targetID with
  | None => made_target [] [] None None false None
  | Some name =>
      match OptimizedTargets g !! targetID with
      | None => made_target name [] None None false None
      | Some t =>
          {| h_Name := name; h_Hash := it_Hash t; h_HashWithoutDeps := it_HashWithoutDeps t;
             h_RuleType := rule_type g (it_RuleType t); h_Deps := name_string g <$> set_range (it_Deps t);
             h_Tags := (fun id => default [] (tb_IDToString (Tags g) !! id)) <$> it_Tags t; h_Root := it_Root t;
             h_External := it_External t; h_SourceFile := None; h_Rule := None;
             h_Attributes := (fun nv => Some (string_attribute (default [] (tb_IDToString (AttrNames g) !! nv.1))
                                               (default [] (tb_IDToString (AttrValues g) !! nv.2)))) <$> attr_range (it_Attributes t) |}
      end
  end.
End itg.
