(* ===== verification/ItgUpdate.v ===== *)
(** Updating the incremental graph ([core/itg/graph/invalidate.go] and [update.go]): what
    changed is replaced and invalidated, then hashed again. *)
From Stdlib Require Import ZArith Lia.
From stdpp Require Import gmap fin_maps.
From S2P Require Import Prelude Bfs RuleHash SourceHash TargetHasher Mapper Itg.

Local Open Scope Z_scope.

(** The graph and the set of invalidated IDs that the updates share. *)
Record ustate := { us_graph : OptimizedGraph; us_invalidated : gset Z }.

Definition with_graph (g : OptimizedGraph) (s : ustate) : ustate := {| us_graph := g; us_invalidated := us_invalidated s |}.

(** [getTargetByID] *)
Definition getTargetByID (g : OptimizedGraph) (id : Z) : option ITarget :=
  match OptimizedTargets g !! id with Some t => Some t | None => external_target g id end.

(** A change of the object that [getTargetByID] returns. *)
Definition modify_by_id (f : ITarget -> ITarget) (id : Z) (g : OptimizedGraph) : OptimizedGraph :=
  match OptimizedTargets g !! id, ExternalRuleTargets g !! id with
  | Some _, _ => modify f id g
  | None, Some (Own t) => set_externals (<[id := Own (f t)]> (ExternalRuleTargets g)) g
  | None, _ => g
  end.

Section update.
Context (parse : bytes -> BazelLabel) (sha1 : bytes -> bytes) (sort_attrs : list Attribute -> list Attribute).
Context (attribute_string attribute_string_list : Z).
Context (hash_source : option SourceFile -> res (option bytes)) (join_path : bytes -> bytes -> bytes).
(** The orders in which Go visits sets and maps. *)
Context (set_range : gset Z -> list Z) (names_range : gset bytes -> list bytes).
Context (targets_range : gmap bytes HTarget -> list (bytes * HTarget)) (ids_range : gmap Z ITarget -> list (Z * ITarget)).
Context (externals_range : gmap Z ext_ref -> list (Z * ext_ref)).

(** * Invalidation *)

(** The loop over the candidates, with the fuel that it cannot exhaust: a candidate is
    dropped in each step, and the reverse dependencies of a target are added once. *)
Fixpoint invalidate_loop (fuel : nat) (candidates : list Z) (s : ustate) : ustate :=
  match fuel, candidates with
  | O, _ => s
  | S _, [] => s
  | S fuel, targetID :: candidates =>
      match OptimizedTargets (us_graph s) !! targetID with
      | Some t =>
          match it_Hash t with
          | None => invalidate_loop fuel candidates s
          | Some _ =>
              invalidate_loop fuel (candidates ++ set_range (it_ReverseDeps t))
                {| us_graph := modify (set_it_hash None) targetID (us_graph s);
                   us_invalidated := {[ targetID ]} ∪ us_invalidated s |}
          end
      | None => invalidate_loop fuel candidates s
      end
  end.

(** The reverse dependencies of the targets with a hash. *)
Definition hashed_rdeps (T : gmap Z ITarget) : nat :=
  map_fold (fun _ t n => match it_Hash t with Some _ => (size (it_ReverseDeps t) + n)%nat | None => n end) 0%nat T.

Definition invalidateHashRecursively (ids : gset Z) (s : ustate) : ustate :=
  invalidate_loop (size ids + hashed_rdeps (OptimizedTargets (us_graph s)))%nat (set_range ids) s.

(** ** Removal *)

(** [ReverseDeps.Delete(id)]; a target without dependents may become a root. *)
Definition drop_rdep (g : OptimizedGraph) (id : Z) (t : ITarget) : ITarget :=
  let rdeps := it_ReverseDeps t ∖ {[ id ]} in
  set_it_links rdeps (if decide (rdeps = ∅ /\ CanBeRoot (rule_type g (it_RuleType t)) = true) then true else it_Root t) t.

Definition drop_dep (id : Z) (t : ITarget) : ITarget := set_it_deps (it_Deps t ∖ {[ id ]}) t.

Definition remove_names (id : Z) (g : OptimizedGraph) : OptimizedGraph :=
  set_names (NextTargetID g)
    {| tb_ToID := delete (name_string g id) (tb_ToID (TargetNames g));
       tb_IDToString := delete id (tb_IDToString (TargetNames g)) |} g.

(** [removeTarget], of the target that [OptimizedTargets] has for its ID; a nil target is
    dereferenced.  The first loop may change the dependencies of the target itself. *)
Definition removeTarget (target : option ITarget) (s : ustate) : res ustate :=
  match target with
  | None => Panic
  | Some target =>
      let id := it_ID target in
      g ← fold_res (fun g r => match OptimizedTargets g !! r with
                               | None => Err "target %d not found"
                               | Some _ => Ok (modify (drop_dep id) r g)
                               end) (us_graph s) (set_range (it_ReverseDeps target));
      let deps := match OptimizedTargets g !! id with Some t => it_Deps t | None => it_Deps target end in
      g ← fold_res (fun g d => match OptimizedTargets g !! d with
                               | None => Err "target %d not found"
                               | Some _ => Ok (modify (drop_rdep g id) d g)
                               end) g (set_range deps);
      let rdeps := match OptimizedTargets g !! id with Some t => it_ReverseDeps t | None => it_ReverseDeps target end in
      let g := remove_names id (set_externals (delete id (ExternalRuleTargets g)) (set_targets (delete id (OptimizedTargets g)) g)) in
      Ok (invalidateHashRecursively rdeps {| us_graph := g; us_invalidated := us_invalidated s ∖ {[ id ]} |})
  end.

(** [strings.Cut(targetName, ":")], and the package before it. *)
Definition getPackage (targetName : bytes) : bytes := trim_prefix (bs "//") (before_colon targetName).

(** A target that an iteration has removed is not visited any more. *)
Definition checkDeletedTargets (changedPkgs deletedPkgs : gset bytes) (targets : gmap bytes HTarget) (s : ustate) : res ustate :=
  let targetIDsInQuery : gset Z :=
    list_to_set (omap (fun nt => tb_ToID (TargetNames (us_graph s)) !! nt.1) (targets_range targets)) in
  fold_res (fun s it =>
      match OptimizedTargets (us_graph s) !! it.1 with
      | None => Ok s
      | Some target =>
          let pkgName := getPackage (name_string (us_graph s) (it_ID target)) in
          if decide (pkgName ∈ deletedPkgs \/ (pkgName ∈ changedPkgs /\ it_ID target ∉ targetIDsInQuery))
          then removeTarget (Some target) s else Ok s
      end) s (ids_range (OptimizedTargets (us_graph s))).

(** ** Insertion *)

(** The loop over the dependencies: each gets a reverse dependency. *)
Definition link_dep (id : Z) (st : gset Z * OptimizedGraph) (dep : bytes) : res (gset Z * OptimizedGraph) :=
  let '(depIDs, g) := st in
  match tb_ToID (TargetNames g) !! dep with
  | None => Err "dependency %s of target %s not found"
  | Some depID =>
      match getTargetByID g depID with
      | None => Err "dependency target %s (id=%d) not found in graph"
      | Some _ =>
          Ok ({[ depID ]} ∪ depIDs,
              modify_by_id (fun t => set_it_links ({[ id ]} ∪ it_ReverseDeps t) false t) depID g)
      end
  end.

(** What a new version leaves of the old target: its ID, links and root flag. *)
Definition renew (hash hwd : option bytes) (ruleType : Z) (deps : gset Z) (tags : list Z) (external : bool)
  (attributes : gmap Z Z) (t : ITarget) : ITarget :=
  {| it_ID := it_ID t; it_Hash := hash; it_HashWithoutDeps := hwd; it_RuleType := ruleType; it_Deps := deps;
     it_ReverseDeps := it_ReverseDeps t; it_Tags := tags; it_Root := it_Root t; it_External := external;
     it_Attributes := attributes |}.

Definition upsertTarget (target : HTarget) (s : ustate) : res ustate :=
  let '(id, g) := getOrGenerateTargetID (h_Name target) (us_graph s) in
  let '(ruleType, ruleTypes) := getOrGenerateRecordReverse (h_RuleType target) (RuleTypes g) in
  let g := set_tables ruleTypes (Tags g) (AttrNames g) (AttrValues g) g in
  '(depIDs, g) ← fold_res (link_dep id) (∅, g) (h_Deps target);
  let '(tagIDs, tags) := generate_tags (h_Tags target) (Tags g) in
  let '(attributes, attrNames, attrValues) := generate_attrs attribute_string (h_Attributes target) ∅ (AttrNames g) (AttrValues g) in
  let g := set_tables (RuleTypes g) tags attrNames attrValues g in
  let g := match OptimizedTargets g !! id with
           | Some oldTarget =>
               let g := foldl (fun g oldDep => if decide (oldDep ∈ depIDs) then g else modify_by_id (drop_rdep g id) oldDep g)
                          g (set_range (it_Deps oldTarget)) in
               modify (renew (h_Hash target) (h_HashWithoutDeps target) ruleType depIDs tagIDs (h_External target) attributes) id g
           | None =>
               put_target id
                 {| it_ID := id; it_Hash := h_Hash target; it_HashWithoutDeps := h_HashWithoutDeps target; it_RuleType := ruleType;
                    it_Deps := depIDs; it_ReverseDeps := ∅; it_Tags := tagIDs; it_Root := CanBeRoot (h_RuleType target);
                    it_External := h_External target; it_Attributes := attributes |} g
           end in
  match OptimizedTargets g !! id with
  | None => Panic
  | Some t =>
      let s := invalidateHashRecursively (it_ReverseDeps t) (with_graph g s) in
      Ok (if decide (h_Hash target = None) then {| us_graph := us_graph s; us_invalidated := {[ id ]} ∪ us_invalidated s |} else s)
  end.

(** The dependencies of an external rule are recorded without links to it. *)
Definition upsertExternalRuleTarget (target : HTarget) (s : ustate) : ustate :=
  let '(id, g) := getOrGenerateTargetID (h_Name target) (us_graph s) in
  let '(ruleType, ruleTypes) := getOrGenerateRecordReverse (h_RuleType target) (RuleTypes g) in
  let g := set_tables ruleTypes (Tags g) (AttrNames g) (AttrValues g) g in
  let '(depIDs, g) := generate_deps (h_Deps target) ∅ g in
  match OptimizedTargets g !! id with
  | Some oldTarget =>
      let g := modify (fun t => renew (h_Hash target) (h_HashWithoutDeps target) (it_RuleType t) depIDs (it_Tags t)
                                  (h_External target) (it_Attributes t) t) id g in
      invalidateHashRecursively (it_ReverseDeps oldTarget) (with_graph g s)
  | None =>
      let t := {| it_ID := id; it_Hash := h_Hash target; it_HashWithoutDeps := h_HashWithoutDeps target; it_RuleType := ruleType;
                  it_Deps := depIDs; it_ReverseDeps := ∅; it_Tags := []; it_Root := false; it_External := h_External target;
                  it_Attributes := ∅ |} in
      let g := put_target id t g in
      with_graph (set_externals (<[id := Shared]> (ExternalRuleTargets g)) g) s
  end.

(** * Sorting the query's targets *)

(** The names that [ToposortRecursively] appends; those without a target are nil in the
    result of [topoSort] and are dereferenced, but it appends none. *)
Definition topoSort (order_ctx : Z -> bool) (fuel : nat) (targets : gmap bytes HTarget) : option (res (list HTarget)) :=
  let '(roots, targets) := GetTopologicalRootsAndIdentifyBuildableRoots targets_range targets in
  match toposort_all order_ctx fuel roots {| ts_targets := targets; ts_order := []; ts_visited := ∅; ts_calls := 0 |} with
  | Some (Ok s) => Some (Ok (omap (fun n => ts_targets s !! n) (ts_order s)))
  | Some (Err e) => Some (Err e)
  | Some Panic => Some Panic
  | None => None
  end.

Definition updateInvalidateTargets (deletedSrcFileTargets changedPkgs deletedPkgs : gset bytes) (order_ctx : Z -> bool) (fuel : nat)
  (targets : gmap bytes HTarget) (s : ustate) : option (res ustate) :=
  match (s ← fold_res (fun s name => match tb_ToID (TargetNames (us_graph s)) !! name with
                                     | Some id => removeTarget (OptimizedTargets (us_graph s) !! id) s
                                     | None => Ok s
                                     end) s (names_range deletedSrcFileTargets);
         checkDeletedTargets changedPkgs deletedPkgs targets s) with
  | Ok s =>
      match topoSort order_ctx fuel targets with
      | Some (Ok sorted) => Some (fold_res (fun s t => upsertTarget t s) s sorted)
      | Some (Err e) => Some (Err e)
      | Some Panic => Some Panic
      | None => None
      end
  | r => Some r
  end.

(** * Hashing *)

(** The hashes that need no dependency; an error of a source file ends the loop. *)
Definition computeAvailableHashes (targets : gmap bytes HTarget) : res (gmap bytes HTarget) :=
  fold_res (fun targets nt =>
      let t := nt.2 in
      if decide (h_RuleType t = GeneratedFileType \/ h_RuleType t = ExternalRuleType) then Ok targets
      else if decide (h_RuleType t = PackageGroup) then
        Ok (<[nt.1 := set_hash (Some (sha1 nt.1)) (h_HashWithoutDeps t) t]> targets)
      else if decide (h_RuleType t = SourceFileType) then
        h ← hash_source (h_SourceFile t);
        Ok (match h with Some h => <[nt.1 := set_hash (Some h) (h_HashWithoutDeps t) t]> targets | None => targets end)
      else Ok (<[nt.1 := set_hash (h_Hash t) (Some (sha1 (HashRuleCommon sort_attrs (h_Rule t)))) t]> targets))
    targets (targets_range targets).

(** The graph, and the number of calls, which tells when the context is polled. *)
Record cstate := { cs_graph : OptimizedGraph; cs_calls : Z }.

(** Computations on it; [None] when the fuel runs out. *)
Definition CM (A : Type) : Type := cstate -> option (res A * cstate).

#[export] Instance CM_ret : MRet CM := fun A a s => Some (Ok a, s).
#[export] Instance CM_bind : MBind CM := fun A B f m s =>
  match m s with
  | Some (Ok a, s) => f a s
  | Some (Err e, s) => Some (Err e, s)
  | Some (Panic, s) => Some (Panic, s)
  | None => None
  end.

Definition fails {A} (msg : string) : CM A := fun s => Some (Err msg, s).
Definition the_graph : CM OptimizedGraph := fun s => Some (Ok (cs_graph s), s).
Definition set_hash_of (id : Z) (h : option bytes) : CM () := fun s =>
  Some (Ok (), {| cs_graph := modify (set_it_hash h) id (cs_graph s); cs_calls := cs_calls s |}).

Section hashing.
Context (ctx : Z -> bool).

Definition poll_hashing : CM () := fun s =>
  Some (guard_err (ctx (cs_calls s)) cancelled_err, {| cs_graph := cs_graph s; cs_calls := cs_calls s + 1 |}).

(** The dependencies in the order of their names. *)
Definition sorted_deps (g : OptimizedGraph) (deps : gset Z) : list Z :=
  sort_func (fun i j => bcompare (name_string g i) (name_string g j)) (set_range deps).

Fixpoint write_dep_hashes (compute : Z -> CM (option bytes)) (deps : list Z) (written : bytes) : CM bytes :=
  match deps with
  | [] => mret written
  | dep :: deps => dephash ← compute dep; write_dep_hashes compute deps (written ++ default [] dephash)
  end.

(** The hash of a target marked as visited; with no dependency, a generated file gets
    the hash of the target 0. *)
Definition hash_marked (compute : Z -> CM (option bytes)) (g : OptimizedGraph) (t : ITarget) : CM (option bytes) :=
  let ruleType := rule_type g (it_RuleType t) in
  if decide (ruleType = SourceFileType \/ ruleType = PackageGroup) then
    fails "source file or package group target %s should already have hash"
  else if decide (ruleType = GeneratedFileType) then compute (default 0 (head (set_range (it_Deps t))))
  else match it_HashWithoutDeps t with
       | None => fails "rule target %s should already have rule hash"
       | Some hwd => written ← write_dep_hashes compute (sorted_deps g (it_Deps t)) hwd; mret (Some (sha1 written))
       end.

Fixpoint computeHashes (fuel : nat) (id : Z) : CM (option bytes) :=
  match fuel with
  | O => fun _ => None
  | S fuel =>
      _ ← poll_hashing;
      g ← the_graph;
      match external_target g id with
      | Some t => mret (it_Hash t)
      | None =>
          match OptimizedTargets g !! id with
          | None => fails "target %d not found in graph"
          | Some t =>
              match it_Hash t with
              | Some h => mret (Some h)
              | None =>
                  _ ← set_hash_of id (Some []);
                  hash ← hash_marked (computeHashes fuel) g t;
                  _ ← (match hash with Some h => set_hash_of id (Some h) | None => mret () end);
                  mret hash
              end
          end
      end
  end.

Fixpoint compute_all (fuel : nat) (ids : list Z) : CM () :=
  match ids with
  | [] => mret ()
  | id :: ids => _ ← computeHashes fuel id; compute_all fuel ids
  end.

Definition sequentialHashTargets : list bytes := [bs "@io_bazel_rules_go//:go_context_data"].

(** The targets configured to come first, then the roots, then the rest, by name. *)
Definition computeInvalidatedHashes (fuel : nat) (invalidated : gset Z) : CM () :=
  g ← the_graph;
  _ ← compute_all fuel (filter (fun id => id ∈ invalidated) (omap (fun n => tb_ToID (TargetNames g) !! n) sequentialHashTargets));
  let ids := sort_func (fun i j => bcompare (name_string g i) (name_string g j)) (set_range invalidated) in
  _ ← compute_all fuel (filter (fun id => (it_ReverseDeps <$> OptimizedTargets g !! id) = Some ∅) ids);
  compute_all fuel ids.
End hashing.

(** * The whole update *)

Record UpdateGraphInput := {
  DeletedSrcFiles : gset bytes;
  ChangedPkgs : gset bytes;
  DeletedPkgs : gset bytes;
  QueryResult : list QueryTarget;
  ParamOfHashing : HashParam;  (** the hasher, [FullHashRepos] and [UseBzlmod] *)
}.

(** The external rules the query does not list, as the hasher needs them. *)
Definition external_targets (g : OptimizedGraph) (targets : gmap bytes HTarget) : gmap bytes HTarget :=
  foldl (fun targets ie =>
      let name := name_string g ie.1 in
      match targets !! name, external_target g ie.1 with
      | None, Some t =>
          <[name := {| h_Name := name; h_Hash := it_Hash t; h_HashWithoutDeps := it_HashWithoutDeps t; h_RuleType := ExternalRuleType;
                       h_Deps := name_string g <$> set_range (it_Deps t); h_Tags := []; h_Root := false;
                       h_External := it_External t; h_SourceFile := None; h_Rule := None; h_Attributes := [] |}]> targets
      | _, _ => targets
      end) targets (externals_range (ExternalRuleTargets g)).

Definition upsert_externals (targets : gmap bytes HTarget) (s : ustate) : ustate :=
  foldl (fun s nt => if decide (h_RuleType nt.2 = ExternalRuleType) then upsertExternalRuleTarget nt.2 s else s) s
    (targets_range targets).

(** [updateInvalidateTargets] and [computeInvalidatedHashes].  What a failed update leaves
    of the graph is not modelled. *)
Definition update_and_hash (deletedSrcFileTargets changedPkgs deletedPkgs : gset bytes) (order_ctx ctx : Z -> bool) (fuel : nat)
  (targets : gmap bytes HTarget) (s : ustate) : option (res OptimizedGraph) :=
  match updateInvalidateTargets deletedSrcFileTargets changedPkgs deletedPkgs order_ctx fuel targets s with
  | Some (Ok s) =>
      match computeInvalidatedHashes ctx fuel (us_invalidated s) {| cs_graph := us_graph s; cs_calls := 0 |} with
      | Some (Ok (), c) => Some (Ok (cs_graph c))
      | Some (Err e, _) => Some (Err e)
      | Some (Panic, _) => Some Panic
      | None => None
      end
  | Some (Err e) => Some (Err e)
  | Some Panic => Some Panic
  | None => None
  end.

(** What [UpdateGraph] does once the query's targets are converted and the external rules
    among them are hashed. *)
Definition update_with (input : UpdateGraphInput) (order_ctx ctx : Z -> bool) (fuel : nat) (targets : gmap bytes HTarget)
  (g : OptimizedGraph) : option (res OptimizedGraph) :=
  let s := upsert_externals targets {| us_graph := g; us_invalidated := ∅ |} in
  match computeAvailableHashes (external_targets (us_graph s) targets) with
  | Ok targets => update_and_hash (DeletedSrcFiles input) (ChangedPkgs input) (DeletedPkgs input) order_ctx ctx fuel targets s
  | Err e => Some (Err e)
  | Panic => Some Panic
  end.

(** The contexts are those of the conversions, of the two hashings and of the sort. *)
Definition UpdateGraph (cancelled : bool) (external_ctx order_ctx ctx : Z -> bool) (fuel : nat) (input : UpdateGraphInput)
  (g : OptimizedGraph) : option (res OptimizedGraph) :=
  match GetInternalTargetsWithoutHashAndRootInfo parse sha1 sort_attrs attribute_string_list cancelled (QueryResult input) with
  | Ok targets =>
      match HashExternalTargets parse sha1 sort_attrs attribute_string_list hash_source join_path external_ctx cancelled
              (ParamOfHashing input) fuel (QueryResult input) {| hs_targets := targets; hs_calls := 0 |} with
      | Some (Ok (), hs) => update_with input order_ctx ctx fuel (hs_targets hs) g
      | Some (Err e, _) => Some (Err e)
      | Some (Panic, _) => Some Panic
      | None => None
      end
  | Err e => Some (Err e)
  | Panic => Some Panic
  end.
End update.
