(* ===== verification/ItgInvalidate.v ===== *)
(** What invalidation does to the incremental graph: exactly the targets that reach a
    changed one through hashed targets lose their hash. *)
From Stdlib Require Import ZArith Lia.
From stdpp Require Import gmap fin_maps.
From S2P Require Import Prelude TargetHasher Itg ItgUpdate.

Local Open Scope Z_scope.

Section invalidate.
Context (set_range : gset Z -> list Z).
Context (set_range_perm : forall s, set_range s ≡ₚ elements s).

Lemma elem_of_set_range x s : x ∈ set_range s <-> x ∈ s.
Proof. by rewrite set_range_perm, elem_of_elements. Qed.

Lemma set_range_length s : length (set_range s) = size s.
Proof. by rewrite set_range_perm. Qed.

(** * The set of targets to invalidate *)

Definition hashed (T : gmap Z ITarget) (n : Z) : Prop := exists t h, T !! n = Some t /\ it_Hash t = Some h.

Inductive invalid (T : gmap Z ITarget) (ids : gset Z) : Z -> Prop :=
  | invalid_start n : n ∈ ids -> hashed T n -> invalid T ids n
  | invalid_step m t n : invalid T ids m -> T !! m = Some t -> n ∈ it_ReverseDeps t -> hashed T n -> invalid T ids n.

Lemma invalid_hashed T ids n : invalid T ids n -> hashed T n.
Proof. by destruct 1. Qed.

(** The targets [D] have lost their hash. *)
Definition without (D : gset Z) (T : gmap Z ITarget) : gmap Z ITarget :=
  map_imap (fun n t => Some (if decide (n ∈ D) then set_it_hash None t else t)) T.

Lemma lookup_without D T n : without D T !! n = (fun t => if decide (n ∈ D) then set_it_hash None t else t) <$> T !! n.
Proof. unfold without. rewrite map_lookup_imap. by destruct (T !! n). Qed.

Lemma without_alter D T n t : T !! n = Some t -> n ∉ D -> alter (set_it_hash None) n (without D T) = without ({[ n ]} ∪ D) T.
Proof.
  intros Hn HD. apply map_eq. intros m. rewrite lookup_without. destruct (decide (n = m)) as [<-|Hne].
  - rewrite lookup_alter_eq, lookup_without, Hn. cbn. rewrite decide_False by done. by rewrite decide_True by set_solver.
  - rewrite lookup_alter_ne, lookup_without by done. destruct (T !! m); cbn; [|done]. f_equal.
    destruct (decide (m ∈ D)); [rewrite decide_True by set_solver; done|]. by rewrite decide_False by set_solver.
Qed.

Lemma without_empty T : without ∅ T = T.
Proof. apply map_eq. intros n. rewrite lookup_without. destruct (T !! n); cbn; [|done]. by rewrite decide_False by set_solver. Qed.

(** ** The fuel *)

Lemma hashed_rdeps_alter T n t h :
  T !! n = Some t -> it_Hash t = Some h ->
  (hashed_rdeps (alter (set_it_hash None) n T) + size (it_ReverseDeps t) = hashed_rdeps T)%nat.
Proof.
  intros Hn Hh. unfold hashed_rdeps.
  assert (alter (set_it_hash None) n T = <[n := set_it_hash None t]> (delete n T)) as ->.
  { apply map_eq. intros m. destruct (decide (n = m)) as [<-|Hne].
    - by rewrite lookup_alter_eq, Hn, lookup_insert_eq.
    - by rewrite lookup_alter_ne, lookup_insert_ne, lookup_delete_ne. }
  rewrite (map_fold_delete_L _ _ n t T); [| |done].
  - rewrite map_fold_insert_L; [| |apply lookup_delete_eq].
    + cbn. rewrite Hh. lia.
    + intros j1 j2 z1 z2 y _ _ _. destruct (it_Hash z1), (it_Hash z2); lia.
  - intros j1 j2 z1 z2 y _ _ _. destruct (it_Hash z1), (it_Hash z2); lia.
Qed.

(** * The loop *)

Lemma set_targets_id g : set_targets (OptimizedTargets g) g = g.
Proof. by destruct g. Qed.

Lemma modify_targets f n g : OptimizedTargets (modify f n g) = alter f n (OptimizedTargets g).
Proof. done. Qed.

(** The state after the targets [D] have been invalidated. *)
Definition invalidated (D : gset Z) (s : ustate) : ustate :=
  {| us_graph := set_targets (without D (OptimizedTargets (us_graph s))) (us_graph s); us_invalidated := D ∪ us_invalidated s |}.

Lemma invalidate_loop_spec s ids fuel candidates D :
  (length candidates + hashed_rdeps (without D (OptimizedTargets (us_graph s))) <= fuel)%nat ->
  (forall n, n ∈ D -> invalid (OptimizedTargets (us_graph s)) ids n) ->
  (forall n, n ∈ candidates -> n ∈ ids \/ exists m t, m ∈ D /\ OptimizedTargets (us_graph s) !! m = Some t /\ n ∈ it_ReverseDeps t) ->
  (forall n, n ∈ ids \/ (exists m t, m ∈ D /\ OptimizedTargets (us_graph s) !! m = Some t /\ n ∈ it_ReverseDeps t) ->
     hashed (OptimizedTargets (us_graph s)) n -> n ∈ D \/ n ∈ candidates) ->
  exists D', invalidate_loop set_range fuel candidates (invalidated D s) = invalidated D' s /\
    forall n, n ∈ D' <-> invalid (OptimizedTargets (us_graph s)) ids n.
Proof.
  set (T := OptimizedTargets (us_graph s)). revert candidates D.
  induction fuel as [|fuel IH]; intros candidates D Hf HD Hc Hcl.
  { destruct candidates; [|cbn in Hf; lia]. exists D. split; [done|]. intros n. split; [apply HD|].
    induction 1 as [n Hn Hh|m t n _ IHm Hm Hn Hh].
    - destruct (Hcl n (or_introl Hn) Hh) as [?|Hx]; [done|]. by apply elem_of_nil in Hx.
    - destruct (Hcl n) as [?|Hx]; [right; by exists m, t|done|done|]. by apply elem_of_nil in Hx. }
  destruct candidates as [|c cs]; cbn [invalidate_loop].
  { exists D. split; [done|]. intros n. split; [apply HD|].
    induction 1 as [n Hn Hh|m t n _ IHm Hm Hn Hh].
    - destruct (Hcl n (or_introl Hn) Hh) as [?|Hx]; [done|]. by apply elem_of_nil in Hx.
    - destruct (Hcl n) as [?|Hx]; [right; by exists m, t|done|done|]. by apply elem_of_nil in Hx. }
  cbn [us_graph invalidated OptimizedTargets set_targets]. fold T. rewrite lookup_without. cbn [length] in Hf.
  (* a candidate without a hash, or seen before, is dropped *)
  assert (~ hashed T c \/ c ∈ D ->
    exists D', invalidate_loop set_range fuel cs (invalidated D s) = invalidated D' s /\ forall n, n ∈ D' <-> invalid T ids n) as Hskip.
  { intros Hno. apply (IH cs D); [lia|done|intros n Hn; apply Hc; by right|].
    intros n Hn Hh. destruct (Hcl n Hn Hh) as [?|[->|?]%elem_of_cons]; [by left| |by right]. destruct Hno as [Hno|?]; [|by left].
    by destruct Hno. }
  destruct (T !! c) as [t|] eqn:Et; cbn [fmap option_fmap option_map].
  2:{ apply Hskip. left. intros (t & h & Ht & _). congruence. }
  destruct (decide (c ∈ D)) as [Hin|Hin]; [cbn [it_Hash set_it_hash]; apply Hskip; by right|].
  destruct (it_Hash t) as [h|] eqn:Eh.
  2:{ apply Hskip. left. intros (t' & h & Ht & Hh). congruence. }
  match goal with |- context [invalidate_loop _ _ _ ?x] => assert (x = invalidated ({[c]} ∪ D) s) as -> end.
  { unfold invalidated, modify. cbn [us_graph us_invalidated]. f_equal; [|set_solver]. cbn. fold T.
    by rewrite (without_alter D T c t). }
  assert (invalid T ids c) as Hinv.
  { destruct (Hc c ltac:(by left)) as [Hi|(m & u & Hm & Hu & Hr)].
    - apply invalid_start; [done|by exists t, h].
    - eapply invalid_step; [by apply HD|done|done|by exists t, h]. }
  apply IH.
  - rewrite <- (without_alter D T c t) by done. assert (without D T !! c = Some t) as Hw.
    { rewrite lookup_without, Et. cbn. by rewrite decide_False. }
    pose proof (hashed_rdeps_alter _ _ _ _ Hw Eh). rewrite length_app, set_range_length. lia.
  - intros n [->%elem_of_singleton|Hn]%elem_of_union; [done|by apply HD].
  - intros n [Hn|Hn]%elem_of_app.
    + destruct (Hc n ltac:(by right)) as [?|(m & u & Hm & ?)]; [by left|right]. exists m, u. split; [set_solver|done].
    + right. exists c, t. apply elem_of_set_range in Hn. split; [set_solver|done].
  - intros n Hn Hh. destruct (decide (n = c)) as [->|Hne]; [left; set_solver|].
    assert (n ∈ D \/ n ∈ c :: cs \/ n ∈ it_ReverseDeps t) as [?|[[?|?]%elem_of_cons|?]].
    { destruct Hn as [Hi|(m & u & [->%elem_of_singleton|Hm]%elem_of_union & Hu & Hr)].
      - destruct (Hcl n (or_introl Hi) Hh); tauto.
      - right. right. congruence.
      - destruct (Hcl n) as [?|?]; [right; by exists m, u|done|by left|by right; left]. }
    + left. set_solver.
    + done.
    + right. apply elem_of_app. by left.
    + right. apply elem_of_app. right. by apply elem_of_set_range.
Qed.

Lemma invalidateHashRecursively_spec ids s :
  exists D, invalidateHashRecursively set_range ids s = invalidated D s /\
    forall n, n ∈ D <-> invalid (OptimizedTargets (us_graph s)) ids n.
Proof.
  assert (invalidated ∅ s = s) as E.
  { unfold invalidated. rewrite without_empty, set_targets_id. destruct s as [g i]. cbn. f_equal. set_solver. }
  assert (exists D, invalidate_loop set_range (size ids + hashed_rdeps (OptimizedTargets (us_graph s))) (set_range ids) (invalidated ∅ s)
            = invalidated D s /\ forall n, n ∈ D <-> invalid (OptimizedTargets (us_graph s)) ids n) as H;
    [|unfold invalidateHashRecursively; by rewrite E in H].
  apply invalidate_loop_spec.
  - rewrite without_empty, set_range_length. done.
  - set_solver.
  - intros n Hn. left. by apply elem_of_set_range.
  - intros n [Hn|(m & t & Hm & _)] _; [right; by apply elem_of_set_range|set_solver].
Qed.

Lemma invalidateHashRecursively_eq ids s (D : gset Z) :
  (forall n, n ∈ D <-> invalid (OptimizedTargets (us_graph s)) ids n) -> invalidateHashRecursively set_range ids s = invalidated D s.
Proof.
  intros HD. destruct (invalidateHashRecursively_spec ids s) as (D' & -> & HD'). f_equal. apply set_eq. intros n. by rewrite HD, HD'.
Qed.

Lemma invalidateHashRecursively_empty s : invalidateHashRecursively set_range ∅ s = s.
Proof.
  unfold invalidateHashRecursively. rewrite size_empty. assert (set_range ∅ = []) as ->.
  { apply Permutation_nil_r. by rewrite set_range_perm, elements_empty. }
  by destruct (0 + _)%nat.
Qed.

(** More invalidated targets make no difference. *)
Lemma invalidateHashRecursively_more ids X s :
  {| us_graph := us_graph (invalidateHashRecursively set_range ids s);
     us_invalidated := X ∪ us_invalidated (invalidateHashRecursively set_range ids s) |} =
  invalidateHashRecursively set_range ids {| us_graph := us_graph s; us_invalidated := X ∪ us_invalidated s |}.
Proof.
  destruct (invalidateHashRecursively_spec ids s) as (D & -> & HD).
  rewrite (invalidateHashRecursively_eq ids {| us_graph := us_graph s; us_invalidated := X ∪ us_invalidated s |} D) by done.
  unfold invalidated. cbn [us_graph us_invalidated]. f_equal. set_solver.
Qed.
End invalidate.
