(* ===== verification/ItgInvariant.v ===== *)
(** What the incremental graph keeps true: its tables are bijections, dependencies of its
    internal targets are present and linked back, and a hash that is there is the digest
    of what the target reaches.  Invalidation restores the last part after a change. *)
From Stdlib Require Import ZArith Lia.
From stdpp Require Import gmap fin_maps.
From S2P Require Import Prelude TargetHasher Itg ItgUpdate ItgInvalidate.

Local Open Scope Z_scope.

(** * Digests

    What the hashes are meant to be: a function of the nodes of a graph alone.  A node
    has a digest of its own, that of another node, or one that combines its own digest
    with those of its dependencies. *)

Inductive Node (K : Type) :=
  | Fixed (h : option bytes)
  | Same (dep : K)
  | Combined (hwd : option bytes) (deps : list K).
Arguments Fixed {K}. Arguments Same {K}. Arguments Combined {K}.

Definition node_deps {K} (n : Node K) : list K :=
  match n with Fixed _ => [] | Same d => [d] | Combined _ deps => deps end.

Definition node_map {K L} (f : K -> L) (n : Node K) : Node L :=
  match n with Fixed h => Fixed h | Same d => Same (f d) | Combined hwd deps => Combined hwd (f <$> deps) end.

Section digest.
Context {K : Type} (sha1 : bytes -> bytes) (node : K -> option (Node K)).

Definition node_digest (digest : K -> option bytes) (n : Node K) : option bytes :=
  match n with
  | Fixed h => h
  | Same d => digest d
  | Combined hwd deps => hwd ← hwd; hs ← mapM digest deps; Some (sha1 (hwd ++ concat hs))
  end.

(** It has no value for a node that reaches a cycle, or one without a digest. *)
Fixpoint digest (depth : nat) (k : K) : option bytes :=
  match depth with O => None | S depth => node k ≫= node_digest (digest depth) end.

Lemma node_digest_ext (f g : K -> option bytes) n :
  (forall d h, d ∈ node_deps n -> f d = Some h -> g d = Some h) -> forall h, node_digest f n = Some h -> node_digest g n = Some h.
Proof.
  intros Hfg h. destruct n as [h'|d|hwd deps]; cbn [node_digest]; [done|apply Hfg; set_solver|].
  intros (w & -> & (hs & Hhs & [= <-])%bind_Some)%bind_Some. cbn [node_deps] in Hfg.
  apply bind_Some. exists w. split; [done|]. apply bind_Some. exists hs. split; [|done].
  apply mapM_Some. apply mapM_Some in Hhs. revert Hfg. clear -Hhs. induction Hhs as [|x y l k Hxy Hl IH]; constructor.
  - apply Hfg; [by left|done].
  - apply IH. intros d h Hd. apply Hfg. by right.
Qed.

Lemma digest_S depth k h : digest depth k = Some h -> digest (S depth) k = Some h.
Proof.
  revert k h. induction depth as [|depth IH]; intros k h; [done|].
  intros (n & Hn & H)%bind_Some. change (node k ≫= node_digest (digest (S depth)) = Some h). rewrite Hn. cbn [mbind option_bind].
  eapply node_digest_ext; [|exact H]. intros d h' _. apply IH.
Qed.

Lemma digest_mono i j k h : (i <= j)%nat -> digest i k = Some h -> digest j k = Some h.
Proof. induction 1; [done|]. intros. by apply digest_S, IHle. Qed.

Lemma digest_functional i j k h h' : digest i k = Some h -> digest j k = Some h' -> h = h'.
Proof.
  intros Hi Hj. apply (digest_mono i (i `max` j)%nat) in Hi; [|lia]. apply (digest_mono j (i `max` j)%nat) in Hj; [|lia]. congruence.
Qed.

(** A dependency has a digest that takes less depth. *)
Lemma digest_dep depth k h n d :
  digest (S depth) k = Some h -> node k = Some n -> d ∈ node_deps n -> is_Some (digest depth d).
Proof.
  cbn [digest]. intros H Hn. rewrite Hn in H. cbn in H. clear Hn. destruct n as [h'|d'|hwd deps]; cbn [node_digest node_deps] in *.
  - by intros ?%elem_of_nil.
  - intros ->%list_elem_of_singleton. by exists h.
  - apply bind_Some in H as (w & _ & (hs & Hhs & _)%bind_Some). intros Hd. apply mapM_Some in Hhs.
    apply list_elem_of_lookup in Hd as [i Hi]. destruct (Forall2_lookup_l _ _ _ _ _ Hhs Hi) as (y & _ & Hy). by exists y.
Qed.
End digest.

(** Nodes that agree on a closed set have the same digests there. *)
Lemma digest_agree {K} sha1 (node node' : K -> option (Node K)) (P : K -> Prop) :
  (forall k, P k -> node' k = node k) -> (forall k n d, P k -> node k = Some n -> d ∈ node_deps n -> P d) ->
  forall depth k h, P k -> digest sha1 node depth k = Some h -> digest sha1 node' depth k = Some h.
Proof.
  intros Hsame Hcl. induction depth as [|depth IH]; intros k h Hk; [done|]. cbn [digest]. rewrite (Hsame k Hk).
  intros (n & Hn & H)%bind_Some. rewrite Hn. cbn [mbind option_bind]. refine (node_digest_ext _ node _ _ _ _ h H).
  intros d h' Hd. apply IH. by eapply Hcl.
Qed.

(** * The nodes of an incremental graph *)

Section invariant.
Context (sha1 : bytes -> bytes) (set_range : gset Z -> list Z).
Context (set_range_perm : forall s, set_range s ≡ₚ elements s).

(** Its hash is given by the source; the others are computed. *)
Definition given (g : OptimizedGraph) (t : ITarget) : Prop :=
  rule_type g (it_RuleType t) = SourceFileType \/ rule_type g (it_RuleType t) = PackageGroup.

#[export] Instance given_dec g t : Decision (given g t).
Proof. unfold given. apply _. Defined.

Definition node_of (g : OptimizedGraph) (t : ITarget) : Node Z :=
  if decide (given g t) then Fixed (it_Hash t)
  else if decide (rule_type g (it_RuleType t) = GeneratedFileType) then
    match set_range (it_Deps t) with d :: _ => Same d | [] => Fixed None end
  else Combined (it_HashWithoutDeps t) (sorted_deps set_range g (it_Deps t)).

(** External rules come with their hash. *)
Definition node (g : OptimizedGraph) (id : Z) : option (Node Z) :=
  match external_target g id with
  | Some t => Some (Fixed (it_Hash t))
  | None => node_of g <$> OptimizedTargets g !! id
  end.

(** * The invariants *)

(** The two maps of a table are inverse to each other. *)
Definition bijective (tb : Table) : Prop := forall n i, tb_ToID tb !! n = Some i <-> tb_IDToString tb !! i = Some n.

Definition internal (g : OptimizedGraph) (id : Z) (t : ITarget) : Prop := OptimizedTargets g !! id = Some t /\ ~ is_external g id.

(** The tables, and the targets in them. *)
Record wf_tables (g : OptimizedGraph) : Prop := {
  wf_ids : forall id t, OptimizedTargets g !! id = Some t -> it_ID t = id;
  wf_names : bijective (TargetNames g);
  wf_named : forall id, is_Some (OptimizedTargets g !! id) -> is_Some (tb_IDToString (TargetNames g) !! id);
  wf_next : forall id, is_Some (tb_IDToString (TargetNames g) !! id) -> id < NextTargetID g;
  wf_rules : bijective (RuleTypes g);
  wf_rule_ids : forall i, is_Some (tb_IDToString (RuleTypes g) !! i) -> i < Z.of_nat (size (tb_ToID (RuleTypes g)));
  wf_rule : forall id t, OptimizedTargets g !! id = Some t -> is_Some (tb_IDToString (RuleTypes g) !! it_RuleType t);
  wf_shared : forall id r, ExternalRuleTargets g !! id = Some r -> r = Shared /\ is_Some (OptimizedTargets g !! id);
}.

(** The dependencies of the internal targets are there and linked back. *)
Record wf (g : OptimizedGraph) : Prop := {
  wf_t :> wf_tables g;
  wf_links : forall id t d, internal g id t -> d ∈ it_Deps t ->
    exists td, OptimizedTargets g !! d = Some td /\ id ∈ it_ReverseDeps td;
}.

(** The hashes that are there are right, and those that are not are in [invalidated]. *)
Record fresh (g : OptimizedGraph) (invalidated : gset Z) : Prop := {
  fr_present : forall id, id ∈ invalidated -> is_Some (OptimizedTargets g !! id);
  fr_missing : forall id t, internal g id t -> it_Hash t = None -> id ∈ invalidated;
  fr_down : forall id t d, internal g id t -> is_Some (it_Hash t) -> ~ given g t -> d ∈ it_Deps t ->
    is_external g d \/ hashed (OptimizedTargets g) d;
  fr_hash : forall id t h k h', internal g id t -> it_Hash t = Some h -> digest sha1 (node g) k id = Some h' -> h = h';
}.

Lemma external_target_None g id : ~ is_external g id -> external_target g id = None.
Proof. unfold is_external, external_target. destruct (ExternalRuleTargets g !! id) as [r|]; [|done]. intros []. by exists r. Qed.

Lemma node_external g id : is_external g id -> wf_tables g -> exists t, OptimizedTargets g !! id = Some t /\ node g id = Some (Fixed (it_Hash t)).
Proof.
  intros [r Hr] W. destruct (wf_shared g W id r Hr) as [-> [t Ht]]. exists t. split; [done|].
  unfold node, external_target. by rewrite Hr, Ht.
Qed.

Lemma node_internal g id t : internal g id t -> node g id = Some (node_of g t).
Proof.
  intros [Ht He]. unfold node, external_target. destruct (ExternalRuleTargets g !! id) as [r|] eqn:E.
  - destruct He. by exists r.
  - by rewrite Ht.
Qed.

Lemma node_of_deps g t d : d ∈ node_deps (node_of g t) -> ~ given g t /\ d ∈ it_Deps t.
Proof.
  unfold node_of. case_decide; [by intros ?%elem_of_nil|]. intros Hd. split; [done|]. revert Hd. case_decide.
  - destruct (set_range (it_Deps t)) as [|d' l] eqn:E; [by intros ?%elem_of_nil|]. intros ->%list_elem_of_singleton.
    apply (elem_of_set_range set_range set_range_perm). rewrite E. by left.
  - unfold sorted_deps. cbn [node_deps]. rewrite sort_func_perm. by apply elem_of_set_range.
Qed.

(** * Invalidation *)

Lemma lookup_invalidated D s n t :
  OptimizedTargets (us_graph (invalidated D s)) !! n = Some t <->
  exists u, OptimizedTargets (us_graph s) !! n = Some u /\ t = if decide (n ∈ D) then set_it_hash None u else u.
Proof.
  change (OptimizedTargets (us_graph (invalidated D s))) with (without D (OptimizedTargets (us_graph s))).
  by rewrite lookup_without, fmap_Some.
Qed.

Lemma wf_tables_invalidated D s : wf_tables (us_graph s) -> wf_tables (us_graph (invalidated D s)).
Proof.
  intros W. constructor.
  - intros id t (u & Hu & ->)%lookup_invalidated. pose proof (wf_ids _ W _ _ Hu). by case_decide.
  - apply W.
  - intros id [t (u & Hu & _)%lookup_invalidated]. apply (wf_named _ W). by exists u.
  - apply W.
  - apply W.
  - apply W.
  - intros id t (u & Hu & ->)%lookup_invalidated. pose proof (wf_rule _ W _ _ Hu). by case_decide.
  - intros id r Hr. destruct (wf_shared _ W id r Hr) as [-> [t Ht]]. split; [done|].
    eexists. apply lookup_invalidated. by exists t.
Qed.

Lemma wf_invalidated D s : wf (us_graph s) -> wf (us_graph (invalidated D s)).
Proof.
  intros W. constructor.
  - apply wf_tables_invalidated, W.
  - intros id t d [(u & Hu & ->)%lookup_invalidated He] Hd.
    destruct (wf_links _ W id u d) as (td & Htd & Hr); [done|by case_decide|].
    exists (if decide (d ∈ D) then set_it_hash None td else td).
    split; [apply lookup_invalidated; by exists td|]. by destruct (decide (d ∈ D)).
Qed.

Lemma node_invalidated D s n : n ∉ D -> node (us_graph (invalidated D s)) n = node (us_graph s) n.
Proof.
  intros Hn. unfold node, external_target.
  change (OptimizedTargets (us_graph (invalidated D s))) with (without D (OptimizedTargets (us_graph s))).
  change (ExternalRuleTargets (us_graph (invalidated D s))) with (ExternalRuleTargets (us_graph s)).
  rewrite lookup_without. destruct (OptimizedTargets (us_graph s) !! n); cbn [fmap option_fmap option_map]; [|done].
  by rewrite decide_False.
Qed.

(** The nodes of [s] are those of [g] but for [C]; the targets with a hash that depend on
    one of [C], and those of [C] themselves, are among what is invalidated. *)
Record changed (C : Z -> Prop) (g : OptimizedGraph) (ids : gset Z) (s : ustate) : Prop := {
  ch_same : forall id t, internal (us_graph s) id t -> ~ C id ->
    exists u, internal g id u /\ it_Hash u = it_Hash t /\ it_Deps u = it_Deps t /\ (given g u -> given (us_graph s) t);
  ch_node : forall id, ~ C id -> is_Some (OptimizedTargets (us_graph s) !! id) -> node (us_graph s) id = node g id;
  ch_external : forall id, ~ C id -> is_external (us_graph s) id -> is_external g id;
  ch_itself : forall id t, internal (us_graph s) id t -> C id ->
    it_Hash t = None \/ given (us_graph s) t \/ invalid (OptimizedTargets (us_graph s)) ids id;
  ch_rdeps : forall id t c, internal (us_graph s) id t -> is_Some (it_Hash t) -> ~ given (us_graph s) t -> c ∈ it_Deps t -> C c ->
    invalid (OptimizedTargets (us_graph s)) ids id;
  ch_missing : forall id t, internal (us_graph s) id t -> it_Hash t = None -> id ∈ us_invalidated s;
  ch_present : forall id, id ∈ us_invalidated s -> is_Some (OptimizedTargets (us_graph s) !! id);
}.

Section refresh.
Context (C : Z -> Prop) (C_dec : forall id, Decision (C id)) (g : OptimizedGraph) (inv : gset Z) (ids : gset Z) (s : ustate) (D : gset Z).
Context (F : fresh g inv) (W : wf (us_graph s)) (H : changed C g ids s).
Context (HD : forall n, n ∈ D <-> invalid (OptimizedTargets (us_graph s)) ids n).

(** What still has its hash depends on nothing that has changed or lost its hash. *)
Lemma kept id t d :
  internal (us_graph s) id t -> is_Some (it_Hash t) -> id ∉ D -> ~ given (us_graph s) t -> d ∈ it_Deps t -> ~ C id /\ ~ C d /\ d ∉ D.
Proof.
  intros Hi [h Hh] Hn Hg Hd. split; [|split].
  - intros Hc. destruct (ch_itself _ _ _ _ H id t Hi Hc) as [?|[?|?%HD]]; [congruence|done|done].
  - intros Hc. apply Hn, HD. by eapply (ch_rdeps _ _ _ _ H id t d).
  - intros Hdd%HD. apply Hn, HD. destruct (wf_links _ W id t d Hi Hd) as (td & Htd & Hr).
    eapply invalid_step; [exact Hdd|exact Htd|done|]. destruct Hi. by exists t, h.
Qed.

Lemma internal_invalidated id t :
  internal (us_graph (invalidated D s)) id t ->
  exists u, internal (us_graph s) id u /\ t = if decide (id ∈ D) then set_it_hash None u else u.
Proof. intros [(u & Hu & ->)%lookup_invalidated He]. by exists u. Qed.

Lemma fresh_invalidated : fresh (us_graph (invalidated D s)) (us_invalidated (invalidated D s)).
Proof.
  constructor.
  - intros id Hid. assert (is_Some (OptimizedTargets (us_graph s) !! id)) as [t Ht].
    { cbn [invalidated us_invalidated] in Hid. apply elem_of_union in Hid as [Hid%HD|Hid].
      - destruct (invalid_hashed _ _ _ Hid) as (t & _ & Ht & _). by exists t.
      - by apply (ch_present _ _ _ _ H). }
    eexists. apply lookup_invalidated. by exists t.
  - intros id t (u & Hu & ->)%internal_invalidated Hh. cbn [invalidated us_invalidated]. apply elem_of_union.
    destruct (decide (id ∈ D)); [by left|right]. by eapply (ch_missing _ _ _ _ H).
  - intros id t d (u & Hu & ->)%internal_invalidated [h Hh] Hg Hd.
    destruct (decide (id ∈ D)) as [?|Hn]; [done|].
    destruct (kept id u d) as (Hc & Hcd & Hdd); [done|by exists h|done|done|done|].
    destruct (ch_same _ _ _ _ H id u Hu Hc) as (v & Hv & Eh & Ed & Eg).
    destruct (wf_links _ W id u d Hu Hd) as (td & Htd & _).
    destruct (decide (is_external (us_graph s) d)) as [|Hx]; [by left|right].
    destruct (ch_same _ _ _ _ H d td ltac:(done) Hcd) as (vd & Hvd & Ehd & _).
    destruct (fr_down _ _ F id v d) as [Hx'|(t' & h' & Ht' & Hh')]; [done|rewrite Eh; by exists h|intros ?; by apply Hg, Eg|by rewrite Ed|..].
    + by destruct Hvd.
    + exists td, h'. split.
      * apply lookup_invalidated. exists td. by rewrite decide_False.
      * destruct Hvd. congruence.
  - intros id t h k h' (u & Hu & ->)%internal_invalidated Hh Hk.
    destruct (decide (id ∈ D)) as [?|Hn]; [done|].
    destruct (decide (given (us_graph s) u)) as [Hg|Hg].
    { destruct k as [|k]; [done|]. cbn [digest] in Hk. rewrite node_invalidated, (node_internal _ id u) in Hk by done.
      unfold node_of in Hk. rewrite decide_True in Hk by done. cbn in Hk. congruence. }
    destruct (decide (C id)) as [Hc|Hc].
    { destruct (ch_itself _ _ _ _ H id u Hu Hc) as [?|[?|?%HD]]; [congruence|done|done]. }
    destruct (ch_same _ _ _ _ H id u Hu Hc) as (v & Hv & Eh & Ed & Eg).
    apply (fr_hash _ _ F id v h k); [done|congruence|].
    refine (digest_agree sha1 _ _ (fun n => (~ C n) /\ (n ∉ D) /\ is_Some (OptimizedTargets (us_graph s) !! n) /\
      (is_external (us_graph s) n \/ hashed (OptimizedTargets (us_graph s)) n)) _ _ k id h' _ Hk).
    + intros n (Hcn & Hdn & Hpn & _). rewrite node_invalidated by done. symmetry. by apply (ch_node _ _ _ _ H).
    + intros n nd d (Hcn & Hdn & [tn Htn] & Hxn) Hnd Hd. rewrite node_invalidated in Hnd by done.
      destruct (decide (is_external (us_graph s) n)) as [Hx|Hx].
      { destruct (node_external _ n Hx W) as (t' & _ & E). rewrite E in Hnd. injection Hnd as <-. by apply elem_of_nil in Hd. }
      destruct Hxn as [?|(tn' & hn & Htn' & Hhn)]; [done|]. simplify_eq.
      rewrite (node_internal _ n tn) in Hnd by done. injection Hnd as <-. apply node_of_deps in Hd as [Hgn Hd].
      destruct (kept n tn d) as (_ & Hcd & Hdd); [done|by exists hn|done|done|done|]. split; [done|]. split; [done|].
      destruct (wf_links _ W n tn d ltac:(done) Hd) as (td & Htd & _). split; [by exists td|].
      destruct (decide (is_external (us_graph s) d)) as [|Hxd]; [by left|right].
      destruct (ch_same _ _ _ _ H n tn ltac:(done) Hcn) as (vn & Hvn & Ehn & Edn & Egn).
      destruct (ch_same _ _ _ _ H d td ltac:(done) Hcd) as (vd & Hvd & Ehd & _).
      destruct (fr_down _ _ F n vn d) as [Hx'|(t' & h'' & Ht' & Hh')]; [done|rewrite Ehn; by exists hn|intros ?; by apply Hgn, Egn|by rewrite Edn|..].
      * by destruct Hvd.
      * exists td, h''. destruct Hvd. split; congruence.
    + split; [done|]. split; [done|]. destruct Hu as [Hu Hx]. split; [by exists u|]. right. by exists u, h.
Qed.
End refresh.
End invariant.
