(* ===== verification/ItgNames.v ===== *)
(** An incremental graph described by the names of its targets: the IDs are an encoding,
    and the hash of a target is the digest of what its name describes. *)
From Stdlib Require Import ZArith Lia.
From stdpp Require Import gmap fin_maps.
From S2P Require Import Prelude Bfs TargetHasher Itg ItgUpdate ItgInvalidate ItgInvariant.

Local Open Scope Z_scope.

Section names.
Context (sha1 : bytes -> bytes) (set_range : gset Z -> list Z).
Context (set_range_perm : forall s, set_range s ≡ₚ elements s).

(** The node of a name. *)
Definition describe (g : OptimizedGraph) (name : bytes) : option (Node bytes) :=
  id ← tb_ToID (TargetNames g) !! name; node_map (name_string g) <$> node set_range g id.

(** The hash that the graph has for a name. *)
Definition hash_by_name (g : OptimizedGraph) (name : bytes) : option bytes :=
  id ← tb_ToID (TargetNames g) !! name;
  match external_target g id with Some t => it_Hash t | None => OptimizedTargets g !! id ≫= it_Hash end.

Section described.
Context (g : OptimizedGraph) (W : wf g).

Lemma name_string_ToID id : is_Some (OptimizedTargets g !! id) -> tb_ToID (TargetNames g) !! name_string g id = Some id.
Proof. intros [n Hn]%(wf_named _ W). unfold name_string. rewrite Hn. by apply (wf_names _ W). Qed.

Lemma node_present id n : node set_range g id = Some n -> is_Some (OptimizedTargets g !! id).
Proof.
  unfold node, external_target. destruct (ExternalRuleTargets g !! id) as [r|] eqn:E.
  - intros _. by destruct (wf_shared _ W id r E).
  - destruct (OptimizedTargets g !! id); [by eexists|done].
Qed.

Lemma node_deps_present id n d : node set_range g id = Some n -> d ∈ node_deps n -> is_Some (OptimizedTargets g !! d).
Proof.
  intros Hn Hd. destruct (node_present id n Hn) as [t Ht]. destruct (decide (is_external g id)) as [He|He].
  - destruct (node_external set_range g id He W) as (t' & _ & E). rewrite E in Hn. injection Hn as <-. by apply elem_of_nil in Hd.
  - rewrite (node_internal _ g id t ltac:(done)) in Hn. injection Hn as <-.
    apply (node_of_deps set_range set_range_perm) in Hd as [_ Hd]. destruct (wf_links _ W id t d ltac:(done) Hd) as (td & Htd & _). by exists td.
Qed.

(** The digests by name are those by ID. *)
Lemma digest_describe k id : is_Some (OptimizedTargets g !! id) ->
  digest sha1 (describe g) k (name_string g id) = digest sha1 (node set_range g) k id.
Proof.
  revert id. induction k as [|k IH]; intros id Hid; [done|]. cbn [digest]. 
  assert (describe g (name_string g id) = node_map (name_string g) <$> node set_range g id) as ->.
  { unfold describe. by rewrite name_string_ToID. }
  destruct (node set_range g id) as [n|] eqn:En; [|done]. cbn [fmap option_fmap option_map mbind option_bind].
  assert (forall d, d ∈ node_deps n -> digest sha1 (describe g) k (name_string g d) = digest sha1 (node set_range g) k d) as Hd.
  { intros d Hd. apply IH. by eapply node_deps_present. }
  destruct n as [h|d|hwd deps]; cbn [node_map node_digest node_deps] in *; [done|by apply Hd, list_elem_of_singleton|].
  destruct hwd as [hwd|]; [|done]. cbn [mbind option_bind]. f_equal.
  clear En. induction deps as [|d deps IHd]; [done|]. cbn [fmap list_fmap mapM].
  rewrite Hd by by left. destruct (digest sha1 (node set_range g) k d); [|done]. cbn [mbind option_bind].
  rewrite IHd; [done|]. intros d' Hd'. apply Hd. by right.
Qed.

(** In a graph whose hashes are right, every name with a digest has it for a hash. *)
Lemma hash_is_digest inv name k h : fresh sha1 set_range g inv -> (forall id t, internal g id t -> is_Some (it_Hash t)) ->
  digest sha1 (describe g) k name = Some h -> hash_by_name g name = Some h.
Proof.
  intros F Hall Hk. assert (exists id, tb_ToID (TargetNames g) !! name = Some id /\ is_Some (OptimizedTargets g !! id)) as (id & Hid & Hp).
  { destruct k as [|k]; [done|]. cbn [digest] in Hk. apply bind_Some in Hk as (n & Hn & _). unfold describe in Hn.
    apply bind_Some in Hn as (id & Hid & (n' & Hn' & _)%fmap_Some). exists id. split; [done|]. by eapply node_present. }
  assert (name = name_string g id) as ->. { unfold name_string. pose proof (proj1 (wf_names _ W name id) Hid) as En. rewrite En. done. }
  rewrite digest_describe in Hk by done. unfold hash_by_name. rewrite Hid. cbn [mbind option_bind]. destruct Hp as [t Ht].
  destruct (decide (is_external g id)) as [He|He].
  - destruct (node_external set_range g id He W) as (t' & Ht' & En). destruct k as [|k]; [done|]. cbn [digest] in Hk. rewrite En in Hk.
    destruct He as [r Hr]. destruct (wf_shared _ W id r Hr) as [-> _]. unfold external_target. by rewrite Hr, Ht'.
  - rewrite (external_target_None g id) by done.
    rewrite Ht. cbn [mbind option_bind]. destruct (Hall id t ltac:(done)) as [h' Hh']. rewrite Hh'. f_equal.
    by apply (fr_hash _ _ _ _ F id t h' k).
Qed.
End described.
End names.

(** * Targets of the hasher *)

(** A target of the graph for a target of the hasher. *)
Record translated (g : OptimizedGraph) (ht : HTarget) (t : ITarget) : Prop := {
  tr_Hash : it_Hash t = h_Hash ht;
  tr_HashWithoutDeps : it_HashWithoutDeps t = h_HashWithoutDeps ht;
  tr_RuleType : tb_IDToString (RuleTypes g) !! it_RuleType t = Some (h_RuleType ht);
  tr_Deps : forall i, i ∈ it_Deps t <-> exists d, d ∈ h_Deps ht /\ tb_ToID (TargetNames g) !! d = Some i;
  tr_named : forall d, d ∈ h_Deps ht -> is_Some (tb_ToID (TargetNames g) !! d);
}.

(** The node of a target of the hasher; a generated file has its rule for a dependency. *)
Definition target_node (ht : HTarget) : Node bytes :=
  if decide (h_RuleType ht = ExternalRuleType \/ h_RuleType ht = SourceFileType \/ h_RuleType ht = PackageGroup) then Fixed (h_Hash ht)
  else if decide (h_RuleType ht = GeneratedFileType) then match h_Deps ht with [d] => Same d | _ => Fixed None end
  else Combined (h_HashWithoutDeps ht) (sort_func bcompare (remove_dups (h_Deps ht))).

Section translated.
Context (set_range : gset Z -> list Z) (set_range_perm : forall s, set_range s ≡ₚ elements s).
Context (g : OptimizedGraph) (W : wf_tables g).

Lemma name_string_of n id : tb_ToID (TargetNames g) !! n = Some id -> name_string g id = n.
Proof. intros Hn. unfold name_string. by rewrite (proj1 (wf_names _ W n id) Hn). Qed.

(** The dependencies sorted by name are the sorted names. *)
Lemma sorted_deps_of ht t : translated g ht t ->
  name_string g <$> sorted_deps set_range g (it_Deps t) = sort_func bcompare (remove_dups (h_Deps ht)).
Proof.
  intros Htr. symmetry. unfold sorted_deps. apply sort_func_unique.
  - apply (StronglySorted_fmap _ (cle (fun i j => bcompare (name_string g i) (name_string g j)))); [done|].
    apply sort_func_sorted, _.
  - rewrite sort_func_perm, set_range_perm. apply NoDup_Permutation; [apply NoDup_remove_dups| |].
    + apply NoDup_fmap_2_strong; [|apply NoDup_elements]. intros x y.
      rewrite !elem_of_elements, !(tr_Deps _ _ _ Htr). intros (dx & _ & Hx) (dy & _ & Hy).
      rewrite (name_string_of _ _ Hx), (name_string_of _ _ Hy). congruence.
    + intros n. rewrite elem_of_remove_dups, list_elem_of_fmap. setoid_rewrite elem_of_elements. setoid_rewrite (tr_Deps _ _ _ Htr). split.
      * intros Hn. destruct (tr_named _ _ _ Htr n Hn) as [i Hi]. exists i. split; [by rewrite (name_string_of _ _ Hi)|]. by exists n.
      * intros (i & -> & d & Hd & Hi). by rewrite (name_string_of _ _ Hi).
Qed.

Lemma node_translated ht t : translated g ht t -> h_RuleType ht <> ExternalRuleType ->
  (h_RuleType ht = GeneratedFileType -> exists d, h_Deps ht = [d]) -> node_map (name_string g) (node_of set_range g t) = target_node ht.
Proof.
  intros Htr He Hgd. assert (rule_type g (it_RuleType t) = h_RuleType ht) as Er by (unfold rule_type; by rewrite (tr_RuleType _ _ _ Htr)).
  unfold node_of, target_node. destruct (decide (given g t)) as [Hg|Hg]; unfold given in Hg; rewrite Er in Hg.
  { rewrite decide_True by tauto. cbn. by rewrite (tr_Hash _ _ _ Htr). }
  rewrite Er. rewrite (decide_False (P := _ \/ _)) by tauto. case_decide as Hgen.
  - destruct (Hgd Hgen) as [d Ed]. rewrite Ed. destruct (tr_named _ _ _ Htr d) as [i Hi]; [rewrite Ed; by left|].
    assert (it_Deps t = {[ i ]}) as ->.
    { apply set_eq. intros j. rewrite (tr_Deps _ _ _ Htr), Ed, elem_of_singleton. setoid_rewrite list_elem_of_singleton. naive_solver. }
    assert (set_range {[ i ]} = [i]) as ->.
    { apply Permutation_singleton_r. by rewrite set_range_perm, elements_singleton. }
    cbn. by rewrite (name_string_of _ _ Hi).
  - cbn [node_map]. by rewrite (sorted_deps_of ht t Htr), (tr_HashWithoutDeps _ _ _ Htr).
Qed.
End translated.
