(* ===== verification/ItgOps.v ===== *)
(** The updates of the incremental graph keep its invariants: removing a target, inserting
    or replacing one, and the same for an external rule. *)
From Stdlib Require Import ZArith Lia.
From stdpp Require Import gmap fin_maps.
From S2P Require Import Prelude TargetHasher Mapper Itg ItgUpdate ItgInvalidate ItgInvariant ItgNames.

Local Open Scope Z_scope.

(** * Names that are added *)

(** [g'] is [g] with more names and rule types. *)
Record extends (g g' : OptimizedGraph) : Prop := {
  ex_targets : OptimizedTargets g' = OptimizedTargets g;
  ex_externals : ExternalRuleTargets g' = ExternalRuleTargets g;
  ex_names : tb_IDToString (TargetNames g) ⊆ tb_IDToString (TargetNames g');
  ex_rules : tb_IDToString (RuleTypes g) ⊆ tb_IDToString (RuleTypes g');
}.

#[export] Instance extends_preorder : PreOrder extends.
Proof.
  split.
  - intros g. by constructor.
  - intros g1 g2 g3 H1 H2. constructor.
    + etrans; [apply (ex_targets _ _ H2)|apply H1].
    + etrans; [apply (ex_externals _ _ H2)|apply H1].
    + etrans; [apply (ex_names _ _ H1)|apply H2].
    + etrans; [apply (ex_rules _ _ H1)|apply H2].
Qed.

Lemma bijective_insert tb n i :
  bijective tb -> tb_ToID tb !! n = None -> tb_IDToString tb !! i = None ->
  bijective {| tb_ToID := <[n := i]> (tb_ToID tb); tb_IDToString := <[i := n]> (tb_IDToString tb) |}.
Proof.
  intros B Hn Hi m j. cbn [tb_ToID tb_IDToString]. rewrite !lookup_insert_Some. specialize (B m j).
  split; (intros [[<- <-]|[Hne H]]; [by left|right]); apply B in H; split; (done || (intros <-; congruence)).
Qed.

(** Links are not touched by more names. *)
Lemma extends_wf g g' : wf g -> wf_tables g' -> extends g g' -> wf g'.
Proof.
  intros W Wt [HT HE _ _]. constructor; [done|]. intros id t d [Ht He] Hd. rewrite HT in *. unfold is_external in He. rewrite HE in He.
  by apply (wf_links _ W id t d).
Qed.

Lemma getOrGenerateTargetID_tables n g id g' :
  wf_tables g -> getOrGenerateTargetID n g = (id, g') ->
  wf_tables g' /\ extends g g' /\ tb_ToID (TargetNames g') !! n = Some id /\ RuleTypes g' = RuleTypes g.
Proof.
  intros W. unfold getOrGenerateTargetID. destruct (tb_ToID (TargetNames g) !! n) as [i|] eqn:E.
  { intros [= <- <-]. done. }
  intros [= <- <-]. assert (tb_IDToString (TargetNames g) !! NextTargetID g = None) as Hf.
  { apply eq_None_not_Some. intros Hs%(wf_next _ W). lia. }
  split; [|split; [|split; [apply lookup_insert_eq|done]]].
  - destruct W. constructor; [done| | | |done..].
    + by apply bijective_insert.
    + intros id' Hid. cbn [TargetNames set_names tb_IDToString]. apply lookup_insert_is_Some. destruct (decide (NextTargetID g = id')); [by left|right]. split; [done|].
      by apply wf_named.
    + intros id'. cbn [TargetNames set_names tb_IDToString NextTargetID].
      intros [Hid|[Hne Hid]]%lookup_insert_is_Some; [lia|]. apply wf_next in Hid. lia.
  - constructor; [done..| |done]. by apply insert_subseteq.
Qed.

Lemma getOrGenerateTargetID_spec n g id g' :
  wf g -> getOrGenerateTargetID n g = (id, g') ->
  wf g' /\ extends g g' /\ tb_ToID (TargetNames g') !! n = Some id /\ RuleTypes g' = RuleTypes g.
Proof.
  intros W H. destruct (getOrGenerateTargetID_tables _ _ _ _ W H) as (Wt & X & ? & ?). split; [by eapply extends_wf|done].
Qed.

(** The table of rule types after a rule type has been looked up. *)
Lemma rule_type_tables rt g ruleType tb :
  wf_tables g -> getOrGenerateRecordReverse rt (RuleTypes g) = (ruleType, tb) ->
  forall tags names values, wf_tables (set_tables tb tags names values g) /\
  extends g (set_tables tb tags names values g) /\ tb_IDToString tb !! ruleType = Some rt.
Proof.
  intros W H tags names values. unfold getOrGenerateRecordReverse, getOrGenerate in H.
  destruct (tb_ToID (RuleTypes g) !! rt) as [i|] eqn:E.
  - injection H as <- <-. cbn [tb_IDToString].
    assert (<[i := rt]> (tb_IDToString (RuleTypes g)) = tb_IDToString (RuleTypes g)) as ->.
    { apply insert_id. by apply (wf_rules _ W). }
    destruct W, (RuleTypes g) eqn:Er. split; [|split; [|by apply wf_rules]].
    + constructor; cbn; try done; by rewrite ?Er.
    + constructor; cbn; try done; by rewrite ?Er.
  - injection H as <- <-. cbn [tb_IDToString]. assert (tb_IDToString (RuleTypes g) !! Z.of_nat (size (tb_ToID (RuleTypes g))) = None) as Hf.
    { apply eq_None_not_Some. intros Hs%(wf_rule_ids _ W). lia. }
    split; [|split; [|apply lookup_insert_eq]].
    + destruct W. constructor; [done..| | | |done].
      * by apply bijective_insert.
      * intros i. cbn [RuleTypes set_tables tb_ToID tb_IDToString]. rewrite map_size_insert_None by done.
        intros [Hi|[_ Hi]]%lookup_insert_is_Some; [lia|]. apply wf_rule_ids in Hi. lia.
      * intros id t Ht%wf_rule. cbn [RuleTypes set_tables tb_IDToString]. apply lookup_insert_is_Some.
        destruct (decide (Z.of_nat (size (tb_ToID (RuleTypes g))) = it_RuleType t)); [by left|by right].
    + constructor; [done..|]. by apply insert_subseteq.
Qed.

Lemma rule_type_spec rt g ruleType tb :
  wf g -> getOrGenerateRecordReverse rt (RuleTypes g) = (ruleType, tb) ->
  wf (set_tables tb (Tags g) (AttrNames g) (AttrValues g) g) /\
  extends g (set_tables tb (Tags g) (AttrNames g) (AttrValues g) g) /\ tb_IDToString tb !! ruleType = Some rt.
Proof.
  intros W H. destruct (rule_type_tables _ _ _ _ W H (Tags g) (AttrNames g) (AttrValues g)) as (Wt & X & ?).
  split; [by eapply extends_wf|done].
Qed.

Lemma generate_deps_tables deps (ids : gset Z) g (ids' : gset Z) g' : wf_tables g -> generate_deps deps ids g = (ids', g') ->
  wf_tables g' /\ extends g g' /\ RuleTypes g' = RuleTypes g /\
  (forall i, i ∈ ids' <-> i ∈ ids \/ exists d, d ∈ deps /\ tb_ToID (TargetNames g') !! d = Some i) /\
  forall d, d ∈ deps -> is_Some (tb_ToID (TargetNames g') !! d).
Proof.
  revert ids g. induction deps as [|d deps IH]; intros ids g W; cbn [generate_deps].
  { intros [= <- <-]. split; [done|]. split; [done|]. split; [done|]. split; set_solver. }
  destruct (getOrGenerateTargetID d g) as [id g1] eqn:E. intros H.
  destruct (getOrGenerateTargetID_tables _ _ _ _ W E) as (W1 & X1 & N1 & R1). destruct (IH _ _ W1 H) as (W' & X' & R' & Hids & Hn).
  assert (tb_ToID (TargetNames g') !! d = Some id) as Nd.
  { apply (wf_names _ W'). apply (lookup_weaken (tb_IDToString (TargetNames g1))); [by apply (wf_names _ W1)|apply X']. }
  split; [done|]. split; [by etrans|]. split; [congruence|]. split.
  - intros i. rewrite Hids, elem_of_union, elem_of_singleton. setoid_rewrite elem_of_cons. split.
    + intros [[->|?]|(d' & ? & ?)]; [right; by eauto|by left|right; by eauto].
    + intros [?|(d' & [->|?] & Hd')]; [by left; right|left; left; congruence|right; by eauto].
  - intros d' [->|Hd']%elem_of_cons; [by exists id|by apply Hn].
Qed.

Lemma generate_deps_spec deps ids g ids' g' : wf g -> generate_deps deps ids g = (ids', g') ->
  wf g' /\ extends g g' /\ RuleTypes g' = RuleTypes g.
Proof. intros W H. destruct (generate_deps_tables _ _ _ _ _ W H) as (Wt & X & ? & _). split; [by eapply extends_wf|done]. Qed.

(** * Everything but one target is kept *)

Section ops.
Context (sha1 : bytes -> bytes) (set_range : gset Z -> list Z).
Context (set_range_perm : forall s, set_range s ≡ₚ elements s).

(** The reverse dependencies and the root flag change, but for links from [id] none is lost. *)
Record link_change (id : Z) (t t' : ITarget) : Prop := {
  lc_eq : t' = set_it_links (it_ReverseDeps t') (it_Root t') t;
  lc_keep : forall x, x ∈ it_ReverseDeps t -> x <> id -> x ∈ it_ReverseDeps t';
}.

#[export] Instance link_change_preorder id : PreOrder (link_change id).
Proof.
  split.
  - intros []. by constructor.
  - intros t1 t2 t3 [E1 K1] [E2 K2]. constructor; [rewrite E2, E1; done|]. intros x Hx Hne. apply K2; [|done]. by apply K1.
Qed.

Record kept_but (id : Z) (g g' : OptimizedGraph) : Prop := {
  kb_targets : forall i, i <> id -> option_Forall2 (link_change id) (OptimizedTargets g !! i) (OptimizedTargets g' !! i);
  kb_externals : forall i, i <> id -> ExternalRuleTargets g' !! i = ExternalRuleTargets g !! i;
  kb_names : tb_IDToString (TargetNames g) ⊆ tb_IDToString (TargetNames g');
  kb_rules : tb_IDToString (RuleTypes g) ⊆ tb_IDToString (RuleTypes g');
}.

#[export] Instance kept_but_preorder id : PreOrder (kept_but id).
Proof.
  split.
  - intros g. constructor; done.
  - intros g1 g2 g3 H1 H2. constructor.
    + intros i Hi. etrans; [by apply H1|by apply H2].
    + intros i Hi. etrans; [by apply (kb_externals _ _ _ H2)|by apply H1].
    + etrans; [apply (kb_names _ _ _ H1)|apply H2].
    + etrans; [apply (kb_rules _ _ _ H1)|apply H2].
Qed.

Lemma extends_kept id g g' : extends g g' -> kept_but id g g'.
Proof. intros [HT HE Hn Hr]. constructor; [|by rewrite HE|done|done]. intros i _. by rewrite HT. Qed.

Lemma modify_kept id (f : ITarget -> ITarget) i g :
  (i <> id -> forall t, link_change id t (f t)) -> kept_but id g (modify f i g).
Proof.
  intros Hf. constructor; [|done..]. intros j Hj. rewrite modify_targets. destruct (decide (i = j)) as [<-|Hne].
  - rewrite lookup_alter_eq. destruct (OptimizedTargets g !! i); constructor. by apply Hf.
  - by rewrite lookup_alter_ne.
Qed.

(** ** The nodes *)

Lemma node_agree g g' i t t' :
  wf g -> internal g i t -> internal g' i t' -> it_Hash t' = it_Hash t -> it_HashWithoutDeps t' = it_HashWithoutDeps t ->
  it_RuleType t' = it_RuleType t -> it_Deps t' = it_Deps t ->
  (forall d, d ∈ it_Deps t -> name_string g' d = name_string g d) ->
  tb_IDToString (RuleTypes g) ⊆ tb_IDToString (RuleTypes g') ->
  node set_range g' i = node set_range g i /\ (given g' t' <-> given g t).
Proof.
  intros W Ht Ht' Eh Ew Er Ed Hn Hr.
  assert (rule_type g' (it_RuleType t') = rule_type g (it_RuleType t)) as Et.
  { destruct Ht as [Ht _]. destruct (wf_rule _ W _ _ Ht) as [n Hi]. unfold rule_type. rewrite Er.
    by rewrite Hi, (lookup_weaken _ _ _ _ Hi Hr). }
  assert (given g' t' <-> given g t) as Eg by (unfold given; by rewrite Et). split; [|done].
  rewrite (node_internal _ g i t), (node_internal _ g' i t') by done. f_equal. unfold node_of. rewrite Et, Eh, Ew, Ed.
  destruct (decide (given g' t')), (decide (given g t)); [done|tauto|tauto|]. case_decide; [done|]. f_equal. unfold sorted_deps. apply sort_func_agree.
  intros x y Hx Hy. rewrite !Hn by (by apply (elem_of_set_range set_range set_range_perm)). done.
Qed.

Lemma name_string_kept g g' d : tb_IDToString (TargetNames g) ⊆ tb_IDToString (TargetNames g') -> wf_tables g ->
  is_Some (OptimizedTargets g !! d) -> name_string g' d = name_string g d.
Proof. intros Hs W Hd. destruct (wf_named _ W d Hd) as [n Hn]. unfold name_string. by rewrite Hn, (lookup_weaken _ _ _ _ Hn Hs). Qed.

Section kept.
Context (id : Z) (g g' : OptimizedGraph) (W : wf g) (W' : wf g') (K : kept_but id g g').

Lemma kept_target i t' : i <> id -> OptimizedTargets g' !! i = Some t' -> exists t, OptimizedTargets g !! i = Some t /\ link_change id t t'.
Proof. intros Hi Ht. pose proof (kb_targets _ _ _ K i Hi) as H. rewrite Ht in H. inversion H; subst. eauto. Qed.

Lemma kept_internal i t' : i <> id -> internal g' i t' -> exists t, internal g i t /\ link_change id t t'.
Proof.
  intros Hi [Ht He]. destruct (kept_target i t' Hi Ht) as (t & Ht0 & Hl). exists t. split; [|done]. split; [done|].
  unfold is_external in *. by rewrite <- (kb_externals _ _ _ K).
Qed.

Lemma kept_node i : i <> id -> is_Some (OptimizedTargets g' !! i) -> node set_range g' i = node set_range g i.
Proof.
  intros Hi [t' Ht']. destruct (kept_target i t' Hi Ht') as (t & Ht & Hl). pose proof (lc_eq _ _ _ Hl) as El.
  destruct (decide (is_external g' i)) as [He|He].
  - assert (is_external g i) as He'. { unfold is_external in *. by rewrite <- (kb_externals _ _ _ K). }
    destruct (node_external set_range _ _ He W') as (u' & Hu' & ->), (node_external set_range _ _ He' W) as (u & Hu & ->).
    do 2 f_equal. assert (u' = t') as -> by congruence. rewrite El. assert (u = t) as -> by congruence. done.
  - destruct (kept_internal i t' Hi ltac:(done)) as (t0 & Ht0 & _).
    assert (t0 = t) as -> by (destruct Ht0; congruence).
    apply (node_agree g g' i t t'); [done|done|done|by rewrite El..| |apply K].
    intros d Hd. apply name_string_kept; [apply K|apply W|]. destruct (wf_links _ W i t d Ht0 Hd) as (td & Htd & _). by exists td.
Qed.

(** The freshness of a graph that changes at one target. *)
Lemma kept_changed inv inv' :
  fresh sha1 set_range g inv -> inv ⊆ inv' -> inv' ⊆ {[ id ]} ∪ inv -> is_Some (OptimizedTargets g' !! id) ->
  (forall t, internal g' id t -> (it_Hash t = None /\ id ∈ inv') \/ (is_Some (it_Hash t) /\ given g' t)) ->
  forall ids, (forall t, OptimizedTargets g' !! id = Some t -> it_ReverseDeps t ⊆ ids) ->
  changed set_range (fun x => x = id) g ids {| us_graph := g'; us_invalidated := inv' |}.
Proof.
  intros F Hinv Hinv' Hp Hid ids Hids. constructor; cbn [us_graph us_invalidated].
  - intros i t' Ht' Hi. destruct (kept_internal i t' Hi Ht') as (t & Ht & Hl). pose proof (lc_eq _ _ _ Hl) as El.
    exists t. split; [done|]. split; [by rewrite El|]. split; [by rewrite El|]. destruct (wf_rule _ W i t (proj1 Ht)) as [rt Hrt].
    unfold given, rule_type. rewrite El. cbn [it_RuleType set_it_links].
    by rewrite Hrt, (lookup_weaken _ _ _ _ Hrt (kb_rules _ _ _ K)).
  - apply kept_node.
  - intros i Hi. unfold is_external. by rewrite (kb_externals _ _ _ K).
  - intros i t Ht ->. destruct (Hid t Ht) as [[? _]|[_ ?]]; [by left|by right; left].
  - intros i t c Ht [h Hh] Hg Hc ->. destruct (wf_links _ W' i t id Ht Hc) as (td & Htd & Hr).
    apply invalid_start; [by apply (Hids td)|]. destruct Ht. by exists t, h.
  - intros i t Ht Hh. destruct (decide (i = id)) as [->|Hi].
    + destruct (Hid t Ht) as [[_ ?]|[[h ?] _]]; [done|congruence].
    + destruct (kept_internal i t Hi Ht) as (u & Hu & Hl). pose proof (lc_eq _ _ _ Hl) as El. apply Hinv.
      apply (fr_missing _ _ _ _ F i u Hu). rewrite El in Hh. done.
  - intros i Hi. destruct (decide (i = id)) as [->|Hne]; [done|]. assert (i ∈ inv) as Hii by set_solver.
    destruct (fr_present _ _ _ _ F i Hii) as [t Ht]. pose proof (kb_targets _ _ _ K i Hne) as Ho. rewrite Ht in Ho.
    inversion Ho; subst. by eexists.
Qed.
End kept.

(** * External rules *)

Lemma wf_tables_modify (f : ITarget -> ITarget) i g :
  (forall t, OptimizedTargets g !! i = Some t -> it_ID (f t) = it_ID t /\ is_Some (tb_IDToString (RuleTypes g) !! it_RuleType (f t))) ->
  wf_tables g -> wf_tables (modify f i g).
Proof.
  intros Hf []. assert (forall j, is_Some (OptimizedTargets (modify f i g) !! j) <-> is_Some (OptimizedTargets g !! j)) as Hs.
  { intros j. rewrite modify_targets, lookup_alter. case_decide; [|done]. subst. destruct (OptimizedTargets g !! j); split; intros []; eauto; done. }
  constructor; [|done| |done..| |].
  - intros id t. rewrite modify_targets, lookup_alter. case_decide; [subst|by apply wf_ids].
    intros (u & Hu & ->)%fmap_Some. destruct (Hf u Hu) as [-> _]. by apply wf_ids.
  - intros id. rewrite Hs. apply wf_named.
  - intros id t. rewrite modify_targets, lookup_alter. case_decide; [subst|by apply wf_rule].
    intros (u & Hu & ->)%fmap_Some. by apply Hf.
  - intros id r Hr. rewrite Hs. by apply wf_shared.
Qed.

Lemma put_target_absent id t g : wf_tables g -> OptimizedTargets g !! id = None ->
  put_target id t g = set_targets (<[id := t]> (OptimizedTargets g)) g.
Proof.
  intros W Hid. unfold put_target. destruct (ExternalRuleTargets g !! id) as [r|] eqn:E; [|by destruct g].
  destruct (wf_shared _ W id r E) as [_ [? ?]]. congruence.
Qed.

Lemma wf_tables_put id t g :
  wf_tables g -> it_ID t = id -> is_Some (tb_IDToString (RuleTypes g) !! it_RuleType t) ->
  is_Some (tb_IDToString (TargetNames g) !! id) -> wf_tables (set_targets (<[id := t]> (OptimizedTargets g)) g).
Proof.
  intros [] Hi Hr Hn. constructor; [|done| |done..| |].
  - intros j u. cbn [OptimizedTargets set_targets]. intros [[<- <-]|[_ ?]]%lookup_insert_Some; [done|by apply wf_ids].
  - intros j. cbn [OptimizedTargets set_targets]. intros [<-|[_ ?]]%lookup_insert_is_Some; [done|by apply wf_named].
  - intros j u. cbn [OptimizedTargets set_targets]. intros [[<- <-]|[_ ?]]%lookup_insert_Some; [done|by apply (wf_rule j)].
  - intros j r Hj. destruct (wf_shared j r Hj) as [-> ?]. split; [done|]. apply lookup_insert_is_Some.
    destruct (decide (id = j)); [by left|by right].
Qed.

Lemma extends_lookup g g' : extends g g' -> forall i n, tb_IDToString (TargetNames g) !! i = Some n -> tb_IDToString (TargetNames g') !! i = Some n.
Proof. intros X i n Hi. exact (lookup_weaken _ _ _ _ Hi (ex_names _ _ X)). Qed.

(** The links of the others are kept when the dependents of [id] are. *)
Lemma wf_kept id g g' :
  wf g -> wf_tables g' -> kept_but id g g' ->
  (forall t, OptimizedTargets g !! id = Some t -> exists t', OptimizedTargets g' !! id = Some t' /\ it_ReverseDeps t ∖ {[ id ]} ⊆ it_ReverseDeps t') ->
  (forall t d, internal g' id t -> d ∈ it_Deps t -> exists td, OptimizedTargets g' !! d = Some td /\ id ∈ it_ReverseDeps td) -> wf g'.
Proof.
  intros W W' K Hid Hlinks. constructor; [done|]. intros i t' d Ht' Hd. destruct (decide (i = id)) as [->|Hi]; [by apply (Hlinks t')|].
  destruct (kept_internal id g g' K i t' Hi Ht') as (t & Ht & Hl). pose proof (lc_eq _ _ _ Hl) as El. rewrite El in Hd.
  destruct (wf_links _ W i t d Ht Hd) as (td & Htd & Hr). destruct (decide (d = id)) as [->|Hdi].
  - destruct (Hid td Htd) as (td' & Htd' & Hsub). exists td'. split; [done|]. set_solver.
  - pose proof (kb_targets _ _ _ K d Hdi) as Ho. rewrite Htd in Ho. inversion Ho as [? td' Hlc Eq1 Eq2|]; subst. exists td'. split; [done|].
    by apply (lc_keep _ _ _ Hlc).
Qed.

Definition good (s : ustate) : Prop := wf (us_graph s) /\ fresh sha1 set_range (us_graph s) (us_invalidated s).

(** Invalidating the dependents of the one target that has changed makes the graph fresh. *)
Lemma kept_fresh id g g' inv inv' ids :
  wf g -> wf g' -> kept_but id g g' -> fresh sha1 set_range g inv -> inv ⊆ inv' -> inv' ⊆ {[ id ]} ∪ inv ->
  is_Some (OptimizedTargets g' !! id) ->
  (forall t, internal g' id t -> (it_Hash t = None /\ id ∈ inv') \/ (is_Some (it_Hash t) /\ given g' t)) ->
  (forall t, OptimizedTargets g' !! id = Some t -> it_ReverseDeps t ⊆ ids) ->
  good (invalidateHashRecursively set_range ids {| us_graph := g'; us_invalidated := inv' |}).
Proof.
  intros W W' K F Hinv Hinv' Hp Hid Hids.
  destruct (invalidateHashRecursively_spec set_range set_range_perm ids {| us_graph := g'; us_invalidated := inv' |}) as (D & -> & HD).
  split; [by apply wf_invalidated|].
  apply (fresh_invalidated sha1 set_range set_range_perm (fun x => x = id) _ g inv ids {| us_graph := g'; us_invalidated := inv' |} D F W'); [|done].
  by apply (kept_changed id g g' W W' K inv).
Qed.

(** The target of its name, if there is one, is external. *)
Definition names_external (g : OptimizedGraph) (name : bytes) : Prop :=
  forall id, tb_ToID (TargetNames g) !! name = Some id -> is_Some (OptimizedTargets g !! id) -> is_external g id.

(** The graph with the new version of an external rule in it. *)
Record new_external (name : bytes) (id : Z) (g g' : OptimizedGraph) (t' : ITarget) : Prop := {
  ne_wf : wf g';
  ne_kept : kept_but id g g';
  ne_name : tb_IDToString (TargetNames g') !! id = Some name;
  ne_external : is_external g' id;
  ne_target : OptimizedTargets g' !! id = Some t';
}.

Section new_external.
Context (name : bytes) (id : Z) (g g3 : OptimizedGraph) (W : wf g) (W3 : wf g3) (X : extends g g3).
Context (N3 : tb_IDToString (TargetNames g3) !! id = Some name).

Lemma modify_external (f : ITarget -> ITarget) old :
  OptimizedTargets g3 !! id = Some old -> names_external g name ->
  (forall t, it_ID (f t) = it_ID t /\ it_RuleType (f t) = it_RuleType t /\ it_ReverseDeps (f t) = it_ReverseDeps t) ->
  new_external name id g (modify f id g3) (f old).
Proof.
  intros Eo Hext Hf. assert (is_external g3 id) as He3.
  { rewrite (ex_targets _ _ X) in Eo. unfold is_external. rewrite (ex_externals _ _ X). apply Hext; [|by exists old].
    apply (wf_names _ W). destruct (wf_named _ W id (mk_is_Some _ _ Eo)) as [n Hn]. rewrite Hn.
    apply (extends_lookup _ _ X) in Hn. congruence. }
  assert (wf_tables (modify f id g3)) as Wt.
  { apply wf_tables_modify; [|apply W3]. intros u Hu. destruct (Hf u) as (-> & -> & _). split; [done|]. exact (wf_rule _ W3 id u Hu). }
  assert (kept_but id g (modify f id g3)) as K'.
  { etrans; [by apply extends_kept|by apply modify_kept]. }
  assert (OptimizedTargets (modify f id g3) !! id = Some (f old)) as El.
  { by rewrite modify_targets, lookup_alter_eq, Eo. }
  constructor; [|done|done|done|done]. apply (wf_kept id g); [done..| |].
  - intros u Hu. exists (f old). split; [done|]. rewrite <- (ex_targets _ _ X) in Hu. assert (u = old) as -> by congruence.
    destruct (Hf old) as (_ & _ & ->). set_solver.
  - intros u d [_ []]. done.
Qed.

Lemma put_external t :
  OptimizedTargets g3 !! id = None -> it_ID t = id -> is_Some (tb_IDToString (RuleTypes g3) !! it_RuleType t) ->
  new_external name id g (set_externals (<[id := Shared]> (ExternalRuleTargets (put_target id t g3))) (put_target id t g3)) t.
Proof.
  intros Eo Hid Hr. rewrite put_target_absent by (done || apply W3). set (g4 := set_targets _ g3).
  assert (kept_but id g (set_externals (<[id:=Shared]> (ExternalRuleTargets g4)) g4)) as K'.
  { etrans; [by apply extends_kept|]. constructor; [|intros i Hi; by apply lookup_insert_ne|done..].
    intros i Hi. cbn [OptimizedTargets set_externals set_targets g4]. by rewrite lookup_insert_ne. }
  assert (wf_tables (set_externals (<[id:=Shared]> (ExternalRuleTargets g4)) g4)) as Wt.
  { assert (wf_tables g4) as [] by (apply wf_tables_put; [apply W3|done|done|by exists name]).
    constructor; [done..|]. intros i r. cbn [ExternalRuleTargets set_externals]. intros [[<- <-]|[_ ?]]%lookup_insert_Some; [|by apply wf_shared].
    split; [done|]. cbn [OptimizedTargets set_externals set_targets g4]. rewrite lookup_insert_eq. by eexists. }
  assert (is_external (set_externals (<[id:=Shared]> (ExternalRuleTargets g4)) g4) id) as He.
  { unfold is_external. cbn [ExternalRuleTargets set_externals]. rewrite lookup_insert_eq. by eexists. }
  constructor; [|done|done|done|apply lookup_insert_eq]. apply (wf_kept id g); [done..| |].
  - intros v Hv. rewrite <- (ex_targets _ _ X) in Hv. congruence.
  - intros v d [_ []]. done.
Qed.
End new_external.

Lemma upsertExternalRuleTarget_new t g inv :
  wf g -> names_external g (h_Name t) ->
  exists id g' t', new_external (h_Name t) id g g' t' /\ upsertExternalRuleTarget set_range t {| us_graph := g; us_invalidated := inv |} =
    invalidateHashRecursively set_range (it_ReverseDeps t') {| us_graph := g'; us_invalidated := inv |}.
Proof.
  intros W Hext. unfold upsertExternalRuleTarget. cbn [us_graph].
  destruct (getOrGenerateTargetID (h_Name t) g) as [id g1] eqn:E1.
  destruct (getOrGenerateTargetID_spec _ _ _ _ W E1) as (W1 & X1 & N1 & _).
  destruct (getOrGenerateRecordReverse (h_RuleType t) (RuleTypes g1)) as [ruleType ruleTypes] eqn:E2.
  destruct (rule_type_spec _ _ _ _ W1 E2) as (W2 & X2 & N2). set (g2 := set_tables _ _ _ _ g1) in *.
  destruct (generate_deps (h_Deps t) ∅ g2) as [depIDs g3] eqn:E3.
  destruct (generate_deps_spec _ _ _ _ _ W2 E3) as (W3 & X3 & R3).
  assert (extends g g3) as X by (etrans; [exact X1|by etrans]).
  assert (tb_IDToString (TargetNames g3) !! id = Some (h_Name t)) as N3.
  { apply (extends_lookup g1); [by etrans|]. by apply (wf_names _ W1). }
  destruct (OptimizedTargets g3 !! id) as [old|] eqn:Eo; unfold with_graph; cbn [us_invalidated].
  - set (f := fun t0 => renew (h_Hash t) (h_HashWithoutDeps t) (it_RuleType t0) depIDs (it_Tags t0) (h_External t) (it_Attributes t0) t0).
    exists id, (modify f id g3), (f old). split; [|done]. by apply modify_external.
  - match goal with |- context [put_target id ?u _] => set (new := u) end. exists id. eexists. exists new. split.
    { apply (put_external (h_Name t) id g g3); [done|done|done|done|done|done|]. rewrite R3. by exists (h_RuleType t). }
    cbn [it_ReverseDeps]. by rewrite (invalidateHashRecursively_empty set_range set_range_perm).
Qed.

Lemma upsertExternalRuleTarget_good t s :
  good s -> names_external (us_graph s) (h_Name t) -> good (upsertExternalRuleTarget set_range t s).
Proof.
  destruct s as [g inv]. intros [W F] Hext. cbn [us_graph us_invalidated] in *.
  destruct (upsertExternalRuleTarget_new t g inv W Hext) as (id & g' & t' & [W' K _ He Ht] & ->).
  apply (kept_fresh id g _ inv); [done|done|done|done|set_solver|set_solver|by exists t'|by intros u [_ []]|].
  intros u Hu. assert (u = t') as -> by congruence. done.
Qed.

(** * Insertion *)

(** Only links change, and none is lost but from [id]. *)
Record relinks (id : Z) (g g' : OptimizedGraph) : Prop := {
  re_targets : forall i, option_Forall2 (link_change id) (OptimizedTargets g !! i) (OptimizedTargets g' !! i);
  re_externals : ExternalRuleTargets g' = ExternalRuleTargets g;
  re_names : TargetNames g' = TargetNames g;
  re_next : NextTargetID g' = NextTargetID g;
  re_rules : RuleTypes g' = RuleTypes g;
}.

#[export] Instance relinks_preorder id : PreOrder (relinks id).
Proof.
  split.
  - intros g. by constructor.
  - intros g1 g2 g3 [] []. constructor; [|congruence..]. intros i. etrans; [apply re_targets0|apply re_targets1].
Qed.

Lemma relinks_kept id g g' : relinks id g g' -> kept_but id g g'.
Proof. intros [HT HE Hn Hx Hr]. constructor; [intros; apply HT|intros; by rewrite HE|by rewrite Hn|by rewrite Hr]. Qed.

Lemma relinks_target id g g' i t' : relinks id g g' -> OptimizedTargets g' !! i = Some t' ->
  exists t, OptimizedTargets g !! i = Some t /\ link_change id t t'.
Proof. intros R Ht. pose proof (re_targets _ _ _ R i) as H. rewrite Ht in H. inversion H; subst. eauto. Qed.

Lemma relinks_is_Some id g g' i : relinks id g g' -> is_Some (OptimizedTargets g' !! i) <-> is_Some (OptimizedTargets g !! i).
Proof. intros R. pose proof (re_targets _ _ _ R i) as H. by inversion H. Qed.

Lemma relinks_tables id g g' : relinks id g g' -> wf_tables g -> wf_tables g'.
Proof.
  intros R []. constructor; [|by rewrite (re_names _ _ _ R)| | |by rewrite (re_rules _ _ _ R)|by rewrite (re_rules _ _ _ R)| |].
  - intros i t' (t & Ht & Hl)%(relinks_target _ _ _ _ _ R). rewrite (lc_eq _ _ _ Hl). exact (wf_ids i t Ht).
  - intros i. rewrite (relinks_is_Some id g), (re_names _ _ _ R) by done. apply wf_named.
  - intros i. rewrite (re_names _ _ _ R), (re_next _ _ _ R). apply wf_next.
  - intros i t' (t & Ht & Hl)%(relinks_target _ _ _ _ _ R). rewrite (lc_eq _ _ _ Hl), (re_rules _ _ _ R). exact (wf_rule i t Ht).
  - intros i r. rewrite (relinks_is_Some id g), (re_externals _ _ _ R) by done. apply wf_shared.
Qed.

Lemma modify_relinks id (f : ITarget -> ITarget) i g : (forall t, link_change id t (f t)) -> relinks id g (modify f i g).
Proof.
  intros Hf. constructor; [|done..]. intros j. rewrite modify_targets. destruct (decide (i = j)) as [<-|Hne].
  - rewrite lookup_alter_eq. destruct (OptimizedTargets g !! i); constructor. by apply Hf.
  - by rewrite lookup_alter_ne.
Qed.

Lemma modify_by_id_eq f i g : wf_tables g -> modify_by_id f i g = modify f i g.
Proof.
  intros W. unfold modify_by_id, modify. destruct (OptimizedTargets g !! i) eqn:Et; [done|].
  rewrite alter_id by (intros; congruence). rewrite set_targets_id.
  destruct (ExternalRuleTargets g !! i) as [r|] eqn:E; [|done]. destruct (wf_shared _ W i r E) as [-> _]. done.
Qed.

Lemma getTargetByID_eq g i : wf_tables g -> getTargetByID g i = OptimizedTargets g !! i.
Proof.
  intros W. unfold getTargetByID, external_target. destruct (OptimizedTargets g !! i) eqn:Et; [done|].
  destruct (ExternalRuleTargets g !! i) as [r|] eqn:E; [|done]. destruct (wf_shared _ W i r E) as [-> _]. done.
Qed.

Definition linked (id : Z) (g : OptimizedGraph) (d : Z) : Prop := exists td, OptimizedTargets g !! d = Some td /\ id ∈ it_ReverseDeps td.

Lemma linked_modify id f i d g : linked id g d -> (forall t, i = d -> id ∈ it_ReverseDeps t -> id ∈ it_ReverseDeps (f t)) ->
  linked id (modify f i g) d.
Proof.
  intros (td & Htd & Hr) Hf. unfold linked. rewrite modify_targets. destruct (decide (i = d)) as [->|Hne].
  - rewrite lookup_alter_eq, Htd. exists (f td). split; [done|]. by apply Hf.
  - rewrite lookup_alter_ne by done. eauto.
Qed.

Lemma link_deps_spec id deps g (ids depIDs : gset Z) g' :
  wf_tables g -> Forall (linked id g) (elements ids) -> fold_res (link_dep id) (ids, g) deps = Ok (depIDs, g') ->
  relinks id g g' /\ Forall (linked id g') (elements depIDs) /\
  (forall i, i ∈ depIDs <-> i ∈ ids \/ exists d, d ∈ deps /\ tb_ToID (TargetNames g) !! d = Some i) /\
  forall d, d ∈ deps -> is_Some (tb_ToID (TargetNames g) !! d).
Proof.
  revert ids g. induction deps as [|dep deps IH]; intros ids g W Hl; cbn [fold_res].
  { intros [= <- <-]. split; [done|]. split; [done|]. split; set_solver. }
  intros H. destruct (link_dep id (ids, g) dep) as [[ids1 g1]| |] eqn:E; [|done..]. cbn [mbind res_bind] in H.
  cbn [link_dep] in E. destruct (tb_ToID (TargetNames g) !! dep) as [d|] eqn:Hd; [|done].
  rewrite getTargetByID_eq in E by done. destruct (OptimizedTargets g !! d) as [td|] eqn:Ed; [|done].
  rewrite modify_by_id_eq in E by done. injection E as <- <-.
  set (f := fun t => set_it_links _ _ t) in H.
  assert (relinks id g (modify f d g)) as R.
  { apply modify_relinks. intros t. constructor; [done|]. cbn. set_solver. }
  assert (Forall (linked id (modify f d g)) (elements ({[ d ]} ∪ ids))) as Hl1.
  { apply Forall_forall. intros x. rewrite elem_of_elements. intros [->%elem_of_singleton|Hx]%elem_of_union.
    - exists (f td). rewrite modify_targets, lookup_alter_eq, Ed. split; [done|]. cbn. set_solver.
    - apply linked_modify.
      + rewrite Forall_forall in Hl. apply Hl. by apply elem_of_elements.
      + intros t _. cbn. set_solver. }
  destruct (IH _ _ (relinks_tables _ _ _ R W) Hl1 H) as (R' & Hl' & Hi & Hn). change (TargetNames (modify f d g)) with (TargetNames g) in *.
  split; [by etrans|]. split; [done|]. split.
  - intros i. rewrite Hi, elem_of_union, elem_of_singleton. setoid_rewrite elem_of_cons. split.
    + intros [[->|?]|(d' & ? & ?)]; [right; by eauto|by left|right; by eauto].
    + intros [?|(d' & [->|?] & Hd')]; [by left; right|left; left; congruence|right; by eauto].
  - intros d' [->|Hd']%elem_of_cons; [by exists d|by apply Hn].
Qed.

(** The dependencies that are no more lose their link. *)
Lemma unlink_deps_spec id (depIDs : gset Z) old g :
  wf_tables g -> Forall (linked id g) (elements depIDs) ->
  relinks id g (foldl (fun g oldDep => if decide (oldDep ∈ depIDs) then g else modify_by_id (drop_rdep g id) oldDep g) g old) /\
  Forall (linked id (foldl (fun g oldDep => if decide (oldDep ∈ depIDs) then g else modify_by_id (drop_rdep g id) oldDep g) g old)) (elements depIDs).
Proof.
  revert g. induction old as [|d old IH]; intros g W Hl; cbn [foldl]; [done|]. case_decide as Hd; [by apply IH|].
  rewrite modify_by_id_eq by done.
  assert (relinks id g (modify (drop_rdep g id) d g)) as R.
  { apply modify_relinks. intros t. constructor; [done|]. cbn. set_solver. }
  destruct (IH (modify (drop_rdep g id) d g)) as [R' Hl']; [by eapply relinks_tables| |split; [by etrans|done]].
  rewrite Forall_forall in Hl. apply Forall_forall. intros x Hx. apply linked_modify; [by apply Hl|].
  intros t -> _. destruct Hd. by apply elem_of_elements.
Qed.

(** Tags and attributes have tables of their own. *)
Lemma set_tables_relinks id tags names values g : relinks id g (set_tables (RuleTypes g) tags names values g).
Proof. by constructor. Qed.

(** What a target brings: no hash, a hash of a source, or it is an external rule already. *)
Definition insertable (g : OptimizedGraph) (t : HTarget) : Prop :=
  h_Hash t = None \/ h_RuleType t = SourceFileType \/ h_RuleType t = PackageGroup \/
  exists id, tb_ToID (TargetNames g) !! h_Name t = Some id /\ is_external g id.

(** Putting the new version, or the new target, where all its dependencies are linked. *)
Lemma put_version id g0 g t rt (deps : gset Z) tags attrs :
  wf g0 -> wf_tables g -> kept_but id g0 g -> Forall (linked id g) (elements deps) ->
  (forall u, OptimizedTargets g0 !! id = Some u -> exists v, OptimizedTargets g !! id = Some v /\ link_change id u v) ->
  is_Some (tb_IDToString (TargetNames g) !! id) -> tb_IDToString (RuleTypes g) !! rt = Some (h_RuleType t) ->
  let g' := match OptimizedTargets g !! id with
            | Some _ => modify (renew (h_Hash t) (h_HashWithoutDeps t) rt deps tags (h_External t) attrs) id g
            | None => put_target id
                 {| it_ID := id; it_Hash := h_Hash t; it_HashWithoutDeps := h_HashWithoutDeps t; it_RuleType := rt;
                    it_Deps := deps; it_ReverseDeps := ∅; it_Tags := tags; it_Root := CanBeRoot (h_RuleType t);
                    it_External := h_External t; it_Attributes := attrs |} g
            end in
  wf g' /\ kept_but id g0 g' /\ ExternalRuleTargets g' = ExternalRuleTargets g /\ RuleTypes g' = RuleTypes g /\ TargetNames g' = TargetNames g /\
  exists t', OptimizedTargets g' !! id = Some t' /\ it_Hash t' = h_Hash t /\ it_HashWithoutDeps t' = h_HashWithoutDeps t /\
    it_RuleType t' = rt /\ it_Deps t' = deps.
Proof.
  intros W0 W K Hl Hid Hn Hrt. destruct (OptimizedTargets g !! id) as [old|] eqn:Eo; cbn zeta.
  - set (f := renew _ _ _ _ _ _ _).
    assert (wf_tables (modify f id g)) as Wt.
    { apply wf_tables_modify; [|done]. intros u Hu. split; [done|]. by exists (h_RuleType t). }
    assert (kept_but id g0 (modify f id g)) as K' by (etrans; [exact K|by apply modify_kept]).
    assert (OptimizedTargets (modify f id g) !! id = Some (f old)) as El by by rewrite modify_targets, lookup_alter_eq, Eo.
    split; [|split; [done|split; [done|split; [done|split; [done|by exists (f old)]]]]].
    apply (wf_kept id g0); [done..| |].
    + intros u Hu. exists (f old). split; [done|]. destruct (Hid u Hu) as (v & Hv & Hlc). assert (v = old) as -> by congruence.
      intros x [Hx Hne]%elem_of_difference. apply (lc_keep _ _ _ Hlc x Hx). set_solver.
    + intros u d [Hu _] Hd. assert (u = f old) as -> by congruence. change (d ∈ deps) in Hd.
      rewrite Forall_forall in Hl. apply linked_modify; [|done]. apply Hl. by apply elem_of_elements.
  - rewrite put_target_absent by done. set (new := {| it_ID := id |}). set (g' := set_targets _ g).
    assert (wf_tables g') as Wt by (apply wf_tables_put; [done|done|by exists (h_RuleType t)|done]).
    assert (kept_but id g0 g') as K'.
    { etrans; [exact K|]. constructor; [|done..]. intros i Hi. cbn [OptimizedTargets set_targets g']. by rewrite lookup_insert_ne. }
    assert (OptimizedTargets g' !! id = Some new) as El by apply lookup_insert_eq.
    split; [|split; [done|split; [done|split; [done|split; [done|by exists new]]]]].
    apply (wf_kept id g0); [done..| |].
    + intros u Hu. destruct (Hid u Hu) as (v & Hv & _). congruence.
    + intros u d [Hu _] Hd. assert (u = new) as -> by congruence. change (d ∈ deps) in Hd. rewrite Forall_forall in Hl.
      destruct (Hl d) as (td & Htd & Hr); [by apply elem_of_elements|]. exists td. split; [|done].
      cbn [OptimizedTargets set_targets g']. rewrite lookup_insert_ne; [done|congruence].
Qed.

(** The graph with the new version in it: all but its target is kept, and its
    dependencies are linked. *)
Record versioned (t : HTarget) (id : Z) (g g' : OptimizedGraph) (t' : ITarget) : Prop := {
  ve_wf : wf g';
  ve_kept : kept_but id g g';
  ve_externals : ExternalRuleTargets g' = ExternalRuleTargets g;
  ve_name : tb_ToID (TargetNames g') !! h_Name t = Some id;
  ve_target : OptimizedTargets g' !! id = Some t';
  ve_translated : translated g' t t';
}.

Lemma put_versioned g g2 g5 t id rt deps tags attrs :
  wf g -> wf g2 -> extends g g2 -> tb_IDToString (TargetNames g2) !! id = Some (h_Name t) ->
  tb_IDToString (RuleTypes g2) !! rt = Some (h_RuleType t) -> relinks id g2 g5 -> Forall (linked id g5) (elements deps) ->
  (forall i, i ∈ deps <-> exists d, d ∈ h_Deps t /\ tb_ToID (TargetNames g2) !! d = Some i) ->
  (forall d, d ∈ h_Deps t -> is_Some (tb_ToID (TargetNames g2) !! d)) ->
  exists t', versioned t id g
    (match OptimizedTargets g5 !! id with
     | Some _ => modify (renew (h_Hash t) (h_HashWithoutDeps t) rt deps tags (h_External t) attrs) id g5
     | None => put_target id
          {| it_ID := id; it_Hash := h_Hash t; it_HashWithoutDeps := h_HashWithoutDeps t; it_RuleType := rt;
             it_Deps := deps; it_ReverseDeps := ∅; it_Tags := tags; it_Root := CanBeRoot (h_RuleType t);
             it_External := h_External t; it_Attributes := attrs |} g5
     end) t'.
Proof.
  intros W W2 X N2 Hr2 R5 Hl5 Hdeps Hnamed.
  destruct (put_version id g g5 t rt deps tags attrs) as (Wp & Kp & Ep & Rp & Np & t' & Ht' & Hh & Hw & Hr & Hd).
  - done.
  - eapply relinks_tables; [done|apply W2].
  - etrans; [by apply extends_kept|by apply relinks_kept].
  - done.
  - intros u Hu. pose proof (re_targets _ _ _ R5 id) as Ho. rewrite (ex_targets _ _ X), Hu in Ho. inversion Ho; subst. eauto.
  - rewrite (re_names _ _ _ R5). by exists (h_Name t).
  - by rewrite (re_rules _ _ _ R5).
  - exists t'. assert (TargetNames (match OptimizedTargets g5 !! id with Some _ => _ | None => _ end) = TargetNames g2) as Np'
      by (etrans; [exact Np|apply R5]).
    constructor; [done|done|by rewrite Ep, (re_externals _ _ _ R5), (ex_externals _ _ X)| |done|].
    + rewrite Np'. by apply (wf_names _ W2).
    + constructor; [done|done|by rewrite Hr, Rp, (re_rules _ _ _ R5)|rewrite Hd|]; by rewrite Np'.
Qed.

Lemma upsertTarget_versioned attribute_string t g inv s' :
  wf g -> upsertTarget attribute_string set_range t {| us_graph := g; us_invalidated := inv |} = Ok s' ->
  exists id g' t', fst (getOrGenerateTargetID (h_Name t) g) = id /\ versioned t id g g' t' /\
    s' = let s := invalidateHashRecursively set_range (it_ReverseDeps t') {| us_graph := g'; us_invalidated := inv |} in
         if decide (h_Hash t = None) then {| us_graph := us_graph s; us_invalidated := {[ id ]} ∪ us_invalidated s |} else s.
Proof.
  intros W. unfold upsertTarget. cbn [us_graph us_invalidated].
  destruct (getOrGenerateTargetID (h_Name t) g) as [id g1] eqn:E1.
  destruct (getOrGenerateTargetID_spec _ _ _ _ W E1) as (W1 & X1 & N1 & _).
  destruct (getOrGenerateRecordReverse (h_RuleType t) (RuleTypes g1)) as [rt ruleTypes] eqn:E2.
  destruct (rule_type_spec _ _ _ _ W1 E2) as (W2 & X2 & N2). set (g2 := set_tables _ _ _ _ g1) in *.
  destruct (fold_res (link_dep id) (∅, g2) (h_Deps t)) as [[depIDs g3]| |] eqn:E3; [|done..].
  cbn [mbind res_bind]. apply link_deps_spec in E3 as (R3 & Hl3 & Hi3 & Hn3); [|apply W2|by rewrite elements_empty].
  destruct (generate_tags (h_Tags t) (Tags g3)) as [tagIDs tags].
  destruct (generate_attrs attribute_string (h_Attributes t) ∅ (AttrNames g3) (AttrValues g3)) as [[attributes attrNames] attrValues].
  set (g4 := set_tables (RuleTypes g3) tags attrNames attrValues g3).
  assert (relinks id g2 g4) as R4 by (etrans; [exact R3|apply set_tables_relinks]).
  assert (Forall (linked id g4) (elements depIDs)) as Hl4 by exact Hl3.
  assert (wf_tables g4) as W4 by (eapply relinks_tables; [done|apply W2]).
  assert (tb_IDToString (TargetNames g2) !! id = Some (h_Name t)) as N2'.
  { apply (extends_lookup _ _ X2). by apply (wf_names _ W1). }
  assert (forall i, i ∈ depIDs <-> exists d, d ∈ h_Deps t /\ tb_ToID (TargetNames g2) !! d = Some i) as Hi3' by (intros i; rewrite Hi3; set_solver).
  assert (forall g5, relinks id g2 g5 -> Forall (linked id g5) (elements depIDs) -> exists t', versioned t id g _ t') as Hput
    by (intros g5 R5 Hl5; exact (put_versioned g g2 g5 t id rt depIDs tagIDs attributes W W2 (transitivity X1 X2) N2' N2 R5 Hl5 Hi3' Hn3)).
  match goal with |- (match OptimizedTargets ?G !! id with _ => _ end) = _ -> _ =>
    assert (exists t', versioned t id g G t') as (t' & V) end.
  { destruct (OptimizedTargets g4 !! id) as [old|] eqn:Eo.
    - destruct (unlink_deps_spec id depIDs (set_range (it_Deps old)) g4 W4 Hl4) as [R5 Hl5].
      specialize (Hput _ (transitivity R4 R5) Hl5). pose proof (re_targets _ _ _ R5 id) as Ho. rewrite Eo in Ho.
      inversion Ho as [? v Hv Eu Ev|]. rewrite <- Ev in Hput. exact Hput.
    - specialize (Hput _ R4 Hl4). rewrite Eo in Hput. exact Hput. }
  rewrite (ve_target _ _ _ _ _ V). intros [= <-].
  exists id. eexists. exists t'. split; [done|]. split; [exact V|done].
Qed.

Lemma upsertTarget_good attribute_string t s s' :
  good s -> insertable (us_graph s) t -> upsertTarget attribute_string set_range t s = Ok s' -> good s'.
Proof.
  destruct s as [g inv]. intros [W F] Hin H. cbn [us_graph us_invalidated] in *.
  apply upsertTarget_versioned in H as (id & g' & t' & Hid & V & ->); [|done].
  assert (forall inv', inv ⊆ inv' -> inv' ⊆ {[ id ]} ∪ inv -> (h_Hash t = None -> id ∈ inv') ->
    good (invalidateHashRecursively set_range (it_ReverseDeps t') {| us_graph := g'; us_invalidated := inv' |})) as Hgood.
  { intros inv' Hsub Hsub' Hnone. destruct V as [W6 K6 X6 _ Ht' [Hh _ Hr _ _]]. apply (kept_fresh id g _ inv); [done..|by exists t'| |].
    - intros u [Hu He]. assert (u = t') as -> by congruence. rewrite Hh. destruct (h_Hash t) as [h|] eqn:Eh; [right|by left; auto].
      split; [by eexists|]. unfold given, rule_type. rewrite Hr. destruct Hin as [?|[?|[?|(id' & Hid' & Hx)]]]; [congruence|by left|by right|].
      exfalso. apply He. unfold is_external. rewrite X6. unfold getOrGenerateTargetID in Hid. rewrite Hid' in Hid. by rewrite <- Hid.
    - intros u Hu. assert (u = t') as -> by congruence. done. }
  cbn zeta. case_decide as Eh.
  - rewrite (invalidateHashRecursively_more set_range set_range_perm). cbn [us_graph us_invalidated]. apply Hgood; set_solver.
  - apply Hgood; [done|set_solver|done].
Qed.
End ops.
