(* ===== verification/ItgRemove.v ===== *)
(** Removing a target keeps the invariants of the incremental graph. *)
From Stdlib Require Import ZArith Lia.
From stdpp Require Import gmap fin_maps.
From S2P Require Import Prelude TargetHasher Mapper Itg ItgUpdate ItgInvalidate ItgInvariant ItgOps.

Local Open Scope Z_scope.

Section remove.
Context (sha1 : bytes -> bytes) (set_range : gset Z -> list Z).
Context (set_range_perm : forall s, set_range s ≡ₚ elements s).

(** The target [id] may go from the dependencies and from the reverse dependencies. *)
Record drop_change (id : Z) (t t' : ITarget) : Prop := {
  dc_eq : t' = set_it_deps (it_Deps t') (set_it_links (it_ReverseDeps t') (it_Root t') t);
  dc_keep : forall x, x ∈ it_ReverseDeps t -> x <> id -> x ∈ it_ReverseDeps t';
  dc_deps : it_Deps t' = it_Deps t \/ it_Deps t' = it_Deps t ∖ {[ id ]};
}.

#[export] Instance drop_change_preorder id : PreOrder (drop_change id).
Proof.
  split.
  - intros []. constructor; [done|done|by left].
  - intros t1 t2 t3 [E1 K1 D1] [E2 K2 D2]. constructor; [rewrite E2, E1; done| |].
    + intros x Hx Hne. apply K2; [|done]. by apply K1.
    + destruct D1 as [D1|D1], D2 as [D2|D2]; rewrite D1 in D2; [by left|by right|by right|right; rewrite D2; set_solver].
Qed.

Record drops (id : Z) (g g' : OptimizedGraph) : Prop := {
  dr_targets : forall i, option_Forall2 (drop_change id) (OptimizedTargets g !! i) (OptimizedTargets g' !! i);
  dr_externals : ExternalRuleTargets g' = ExternalRuleTargets g;
  dr_names : TargetNames g' = TargetNames g;
  dr_next : NextTargetID g' = NextTargetID g;
  dr_rules : RuleTypes g' = RuleTypes g;
}.

#[export] Instance drops_preorder id : PreOrder (drops id).
Proof.
  split.
  - intros g. by constructor.
  - intros g1 g2 g3 [] []. constructor; [|congruence..]. intros i. etrans; [apply dr_targets0|apply dr_targets1].
Qed.

Lemma modify_drops id (f : ITarget -> ITarget) i g : (forall t, drop_change id t (f t)) -> drops id g (modify f i g).
Proof.
  intros Hf. constructor; [|done..]. intros j. rewrite modify_targets. destruct (decide (i = j)) as [<-|Hne].
  - rewrite lookup_alter_eq. destruct (OptimizedTargets g !! i); constructor. by apply Hf.
  - by rewrite lookup_alter_ne.
Qed.

Lemma drop_dep_change id t : drop_change id t (drop_dep id t).
Proof. constructor; [by destruct t|done|by right]. Qed.

Lemma drop_rdep_change g id t : drop_change id t (drop_rdep g id t).
Proof. constructor; [by destruct t|cbn; set_solver|by left]. Qed.

(** A loop that changes targets one by one, and fails where there is none. *)
Lemma drop_loop id (f : OptimizedGraph -> ITarget -> ITarget) l g g' :
  (forall g t, drop_change id t (f g t)) ->
  fold_res (fun g r => match OptimizedTargets g !! r with
                       | None => Err "target %d not found"
                       | Some _ => Ok (modify (f g) r g)
                       end) g l = Ok g' ->
  drops id g g' /\ (forall (P : ITarget -> Prop), (forall g t, P (f g t)) -> (forall t t', drop_change id t t' -> P t -> P t') ->
                    forall r t, r ∈ l -> OptimizedTargets g' !! r = Some t -> P t).
Proof.
  intros Hf. revert g. induction l as [|r l IH]; intros g; cbn [fold_res].
  { intros [= <-]. split; [done|]. intros P _ _ r t Hr. by apply elem_of_nil in Hr. }
  destruct (OptimizedTargets g !! r) as [u|] eqn:Er; [|done]. cbn [mbind res_bind]. intros H.
  destruct (IH _ H) as [Hd HP]. split; [etrans; [by apply modify_drops|exact Hd]|].
  intros P Hp Hmono i t [->|Hi]%elem_of_cons Ht; [|by eapply HP].
  pose proof (dr_targets _ _ _ Hd r) as Ho. rewrite modify_targets, lookup_alter_eq, Er, Ht in Ho.
  inversion Ho as [? ? Hc|]; subst. by eapply Hmono.
Qed.

(** * The graph without a target *)

Definition removed (id : Z) (g : OptimizedGraph) : OptimizedGraph :=
  remove_names id (set_externals (delete id (ExternalRuleTargets g)) (set_targets (delete id (OptimizedTargets g)) g)).

Section removed.
Context (id : Z) (target : ITarget) (g g2 : OptimizedGraph) (W : wf g) (Ht : OptimizedTargets g !! id = Some target).
Context (Dr : drops id g g2).
Context (Hdeps : forall r t, r ∈ it_ReverseDeps target -> OptimizedTargets g2 !! r = Some t -> id ∉ it_Deps t).

Lemma removed_target i t' : OptimizedTargets (removed id g2) !! i = Some t' ->
  i <> id /\ OptimizedTargets g2 !! i = Some t' /\ exists t, OptimizedTargets g !! i = Some t /\ drop_change id t t'.
Proof.
  cbn [OptimizedTargets removed remove_names set_names set_externals set_targets].
  intros [Hne Hi]%lookup_delete_Some. split; [congruence|]. split; [done|].
  pose proof (dr_targets _ _ _ Dr i) as Ho. rewrite Hi in Ho. inversion Ho; subst. eauto.
Qed.

Lemma removed_external i : i <> id -> ExternalRuleTargets (removed id g2) !! i = ExternalRuleTargets g !! i.
Proof. intros Hi. cbn. by rewrite lookup_delete_ne, (dr_externals _ _ _ Dr). Qed.

(** The dependencies of an internal target are those of before without [id]. *)
Lemma removed_internal i t' : internal (removed id g2) i t' ->
  i <> id /\ exists t, internal g i t /\ drop_change id t t' /\ it_Deps t' = it_Deps t ∖ {[ id ]}.
Proof.
  intros [Hi He]. destruct (removed_target i t' Hi) as (Hne & Hi2 & t & Hti & Hc). split; [done|]. exists t.
  assert (internal g i t) as Hint. { split; [done|]. unfold is_external in *. by rewrite <- removed_external. }
  split; [done|]. split; [done|]. destruct (dc_deps _ _ _ Hc) as [E|E]; [|done].
  destruct (decide (id ∈ it_Deps t)) as [Hd|Hd]; [|rewrite E; set_solver].
  destruct (wf_links _ W i t id Hint Hd) as (td & Htd & Hr). assert (td = target) as -> by congruence.
  exfalso. apply (Hdeps i t' Hr Hi2). by rewrite E.
Qed.

Lemma removed_name i : i <> id -> tb_IDToString (TargetNames (removed id g2)) !! i = tb_IDToString (TargetNames g) !! i.
Proof. intros Hi. cbn. by rewrite lookup_delete_ne, (dr_names _ _ _ Dr). Qed.

Lemma removed_present i : i <> id -> is_Some (OptimizedTargets (removed id g2) !! i) <-> is_Some (OptimizedTargets g !! i).
Proof.
  intros Hi. cbn [OptimizedTargets removed remove_names set_names set_externals set_targets]. rewrite lookup_delete_ne by done.
  pose proof (dr_targets _ _ _ Dr i) as Ho. by inversion Ho.
Qed.

Lemma removed_tables : wf_tables (removed id g2).
Proof.
  destruct (wf_named _ W id) as [n Hn]; [by exists target|]. pose proof W as [[] _]. constructor.
  - intros i t' (_ & _ & t & Hi & Hc)%removed_target. rewrite (dc_eq _ _ _ Hc). exact (wf_ids i t Hi).
  - intros m i. cbn. unfold name_string. cbn. rewrite !(dr_names _ _ _ Dr), Hn. cbn.
    rewrite !lookup_delete_Some. specialize (wf_names m i) as Hmi. split.
    + intros [Hne Hm]. split; [|by apply Hmi]. intros <-. apply Hne. apply Hmi in Hm. congruence.
    + intros [Hne Hm]. apply Hmi in Hm. split; [|done]. intros <-. apply wf_names in Hn. congruence.
  - intros i Hi. assert (i <> id) as Hne. { destruct Hi as [t' Hi]. by apply removed_target in Hi as [? _]. }
    rewrite removed_name by done. apply wf_named. by apply removed_present.
  - intros i Hi. cbn [NextTargetID removed remove_names set_names]. change (i < NextTargetID g2). rewrite (dr_next _ _ _ Dr). apply wf_next.
    cbn in Hi. rewrite (dr_names _ _ _ Dr) in Hi. by apply lookup_delete_is_Some in Hi as [_ ?].
  - cbn. by rewrite (dr_rules _ _ _ Dr).
  - cbn. by rewrite (dr_rules _ _ _ Dr).
  - intros i t' (_ & _ & t & Hi & Hc)%removed_target. cbn. rewrite (dr_rules _ _ _ Dr), (dc_eq _ _ _ Hc). exact (wf_rule i t Hi).
  - intros i r. cbn [ExternalRuleTargets removed remove_names set_names set_externals].
    intros [Hne Hi]%lookup_delete_Some. rewrite (dr_externals _ _ _ Dr) in Hi. destruct (wf_shared i r Hi) as [-> Hs].
    split; [done|]. by apply removed_present.
Qed.

Lemma removed_wf : wf (removed id g2).
Proof.
  constructor; [apply removed_tables|]. intros i t' d (Hne & t & Hi & _ & E)%removed_internal Hd. rewrite E in Hd.
  apply elem_of_difference in Hd as [Hd Hdi%not_elem_of_singleton].
  destruct (wf_links _ W i t d Hi Hd) as (td & Htd & Hr).
  destruct (proj2 (removed_present d Hdi) (mk_is_Some _ _ Htd)) as [td' Htd'].
  exists td'. split; [done|]. destruct (removed_target _ _ Htd') as (_ & _ & u & Hu & Hc). assert (u = td) as -> by congruence.
  by apply (dc_keep _ _ _ Hc).
Qed.

(** ** What has changed *)

Definition lost_dep (i : Z) : Prop := i = id \/ (i ∈ it_ReverseDeps target /\ ~ is_external g i).

#[export] Instance lost_dep_dec i : Decision (lost_dep i).
Proof. unfold lost_dep. apply _. Defined.

Lemma removed_same i t' : internal (removed id g2) i t' -> ~ lost_dep i ->
  exists t, internal g i t /\ drop_change id t t' /\ it_Deps t' = it_Deps t /\ id ∉ it_Deps t.
Proof.
  intros (Hne & t & Hi & Hc & E)%removed_internal Hl. exists t. split; [done|]. split; [done|].
  assert (id ∉ it_Deps t) as Hd; [|split; [rewrite E; set_solver|done]].
  intros Hd. destruct (wf_links _ W i t id Hi Hd) as (td & Htd & Hr). assert (td = target) as -> by congruence.
  apply Hl. right. split; [done|]. apply Hi.
Qed.

Lemma given_removed t t' : drop_change id t t' -> given (removed id g2) t' <-> given g t.
Proof. intros Hc. unfold given, rule_type. rewrite (dc_eq _ _ _ Hc). cbn. by rewrite (dr_rules _ _ _ Dr). Qed.

Lemma removed_node i : ~ lost_dep i -> is_Some (OptimizedTargets (removed id g2) !! i) -> node set_range (removed id g2) i = node set_range g i.
Proof.
  intros Hl [t' Hi]. destruct (removed_target i t' Hi) as (Hne & _ & t & Hti & Hc).
  pose proof removed_tables as Wt. destruct (decide (is_external (removed id g2) i)) as [He|He].
  - assert (is_external g i) as He'. { unfold is_external in *. by rewrite <- removed_external. }
    destruct (node_external set_range _ _ He Wt) as (u' & Hu' & ->), (node_external set_range _ _ He' W) as (u & Hu & ->).
    do 2 f_equal. assert (u' = t') as -> by congruence. assert (u = t) as -> by congruence. by rewrite (dc_eq _ _ _ Hc).
  - destruct (removed_same i t' ltac:(done) Hl) as (t0 & Ht0 & _ & E & Hd). assert (t0 = t) as -> by (destruct Ht0; congruence).
    apply (node_agree set_range set_range_perm g (removed id g2) i t t'); [done|done|done|by rewrite (dc_eq _ _ _ Hc)..|done| |].
    + intros d Hdd. unfold name_string. rewrite removed_name; [done|]. by intros ->.
    + cbn. by rewrite (dr_rules _ _ _ Dr).
Qed.

Lemma removed_changed inv ids :
  fresh sha1 set_range g inv -> it_ReverseDeps target ∖ {[ id ]} ⊆ ids ->
  changed set_range lost_dep g ids {| us_graph := removed id g2; us_invalidated := inv ∖ {[ id ]} |}.
Proof.
  intros F Hids. pose proof removed_wf as W'. constructor; cbn [us_graph us_invalidated].
  - intros i t' Ht' Hl. destruct (removed_same i t' Ht' Hl) as (t & Hi & Hc & E & _). exists t.
    split; [done|]. split; [by rewrite (dc_eq _ _ _ Hc)|]. split; [done|]. by apply given_removed.
  - apply removed_node.
  - intros i Hl. unfold is_external. rewrite removed_external; [done|]. intros ->. apply Hl. by left.
  - intros i t' Ht' Hl. destruct (it_Hash t') as [h|] eqn:Eh; [right; right|by left].
    destruct (removed_internal i t' Ht') as (Hne & _). destruct Hl as [?|[Hr _]]; [done|].
    apply invalid_start; [apply Hids; set_solver|]. destruct Ht'. by exists t', h.
  - intros i t' c Ht' [h Hh] Hg Hc Hl. destruct (removed_internal i t' Ht') as (Hne & t & Hi & Hdc & E).
    rewrite E in Hc. apply elem_of_difference in Hc as [Hc Hcid%not_elem_of_singleton].
    destruct Hl as [?|[Hr Hx]]; [done|].
    destruct (fr_down _ _ _ _ F i t c Hi) as [?|(tc & hc & Htc & Hhc)]; [|by rewrite <- (given_removed t t')|done|done|].
    { rewrite (dc_eq _ _ _ Hdc) in Hh. cbn in Hh. by exists h. }
    destruct (wf_links _ W' i t' c Ht') as (tc' & Htc' & Hr'). { rewrite E. set_solver. }
    destruct (removed_target c tc' Htc') as (_ & _ & u & Hu & Hcc). assert (u = tc) as -> by congruence.
    eapply invalid_step; [|exact Htc'|exact Hr'|destruct Ht'; by exists t', h].
    apply invalid_start; [apply Hids; set_solver|]. exists tc', hc. split; [done|]. by rewrite (dc_eq _ _ _ Hcc).
  - intros i t' Ht' Hh. destruct (removed_internal i t' Ht') as (Hne & t & Hi & Hdc & _).
    rewrite (dc_eq _ _ _ Hdc) in Hh. pose proof (fr_missing _ _ _ _ F i t Hi Hh). set_solver.
  - intros i [Hi Hne%not_elem_of_singleton]%elem_of_difference. apply removed_present; [done|]. by apply (fr_present _ _ _ _ F).
Qed.
End removed.

(** What [removeTarget] does: links to the target go, the target goes, its dependents are
    invalidated. *)
Lemma removeTarget_removed target g inv s' :
  OptimizedTargets g !! it_ID target = Some target ->
  removeTarget set_range (Some target) {| us_graph := g; us_invalidated := inv |} = Ok s' ->
  exists g2 ids, drops (it_ID target) g g2 /\
    (forall r t, r ∈ it_ReverseDeps target -> OptimizedTargets g2 !! r = Some t -> it_ID target ∉ it_Deps t) /\
    it_ReverseDeps target ∖ {[ it_ID target ]} ⊆ ids /\
    s' = invalidateHashRecursively set_range ids {| us_graph := removed (it_ID target) g2; us_invalidated := inv ∖ {[ it_ID target ]} |}.
Proof.
  intros Ht. unfold removeTarget. cbn [us_graph us_invalidated]. set (id := it_ID target) in *.
  destruct (fold_res _ g (set_range (it_ReverseDeps target))) as [g1| |] eqn:E1; [|done..]. cbn [mbind res_bind].
  apply (drop_loop id (fun _ => drop_dep id)) in E1 as [D1 P1]; [|intros; apply drop_dep_change].
  destruct (fold_res _ g1 _) as [g2| |] eqn:E2; [|done..]. cbn [mbind res_bind].
  apply (drop_loop id (fun g => drop_rdep g id)) in E2 as [D2 _]; [|intros; apply drop_rdep_change].
  assert (drops id g g2) as D by by etrans. change (remove_names id _) with (removed id g2).
  intros [= <-]. eexists g2, _. split; [done|]. split; [|split; [|reflexivity]].
  - intros r t Hr Hrt. pose proof (dr_targets _ _ _ D2 r) as Ho. rewrite Hrt in Ho. inversion Ho as [t1 ? Hc Et1 Et|]; subst.
    assert (id ∉ it_Deps t1) as Hn.
    { apply (P1 (fun t => id ∉ it_Deps t)) with r; [cbn; set_solver| |by apply (elem_of_set_range set_range set_range_perm)|done].
      intros u u' Hu. destruct (dc_deps _ _ _ Hu) as [->| ->]; set_solver. }
    destruct (dc_deps _ _ _ Hc) as [->| ->]; set_solver.
  - pose proof (dr_targets _ _ _ D id) as Ho. rewrite Ht in Ho. inversion Ho as [? t2 Hc|]; subst.
    intros x [Hx Hne]%elem_of_difference. apply (dc_keep _ _ _ Hc); [done|]. set_solver.
Qed.

Lemma removeTarget_good target s s' :
  good sha1 set_range s -> OptimizedTargets (us_graph s) !! it_ID target = Some target ->
  removeTarget set_range (Some target) s = Ok s' -> good sha1 set_range s'.
Proof.
  destruct s as [g inv]. intros [W F] Ht H. cbn [us_graph us_invalidated] in *.
  destruct (removeTarget_removed target g inv s' Ht H) as (g2 & ids & D & Hdeps & Hids & ->). set (id := it_ID target) in *.
  destruct (invalidateHashRecursively_spec set_range set_range_perm ids {| us_graph := removed id g2; us_invalidated := inv ∖ {[ id ]} |})
    as (Dn & -> & HD).
  split; [apply wf_invalidated; by apply (removed_wf id target g g2)|].
  apply (fresh_invalidated sha1 set_range set_range_perm (lost_dep id target g) _ g inv ids
    {| us_graph := removed id g2; us_invalidated := inv ∖ {[ id ]} |} Dn F); [| |done].
  - by apply (removed_wf id target g g2).
  - by apply (removed_changed id target g g2).
Qed.

(** ** External rules stay *)

(** The name has the ID of an external rule. *)
Definition external_at (n : bytes) (i : Z) (g : OptimizedGraph) : Prop := tb_ToID (TargetNames g) !! n = Some i /\ is_external g i.

Lemma invalidate_external_at n i ids s :
  external_at n i (us_graph s) -> external_at n i (us_graph (invalidateHashRecursively set_range ids s)).
Proof. destruct (invalidateHashRecursively_spec set_range set_range_perm ids s) as (D & -> & _). done. Qed.

Lemma removeTarget_external_at n i target s s' :
  wf (us_graph s) -> OptimizedTargets (us_graph s) !! it_ID target = Some target -> i <> it_ID target ->
  removeTarget set_range (Some target) s = Ok s' -> external_at n i (us_graph s) -> external_at n i (us_graph s').
Proof.
  destruct s as [g inv]. intros W Ht Hi H [Hn He]. cbn [us_graph] in *.
  destruct (removeTarget_removed target g inv s' Ht H) as (g2 & ids & D & Hdeps & _ & ->). apply invalidate_external_at. cbn [us_graph].
  pose proof (removed_tables (it_ID target) target g g2 W Ht D) as Wt. split.
  - apply (wf_names _ Wt). rewrite (removed_name (it_ID target) g g2 D) by done. by apply (wf_names _ W).
  - unfold is_external. by rewrite (removed_external (it_ID target) g g2 D).
Qed.

Lemma upsertTarget_external_at attribute_string n i t s s' :
  wf (us_graph s) -> upsertTarget attribute_string set_range t s = Ok s' -> external_at n i (us_graph s) -> external_at n i (us_graph s').
Proof.
  destruct s as [g inv]. intros W H [Hn He]. cbn [us_graph] in *.
  apply (upsertTarget_versioned sha1 set_range set_range_perm) in H as (id & g' & t' & _ & V & ->); [|done].
  assert (external_at n i g') as Hg'.
  { split; [|unfold is_external; by rewrite (ve_externals _ _ _ _ _ V)].
    apply (wf_names _ (ve_wf _ _ _ _ _ V)). apply (lookup_weaken (tb_IDToString (TargetNames g))).
    - by apply (wf_names _ W).
    - apply (kb_names _ _ _ (ve_kept _ _ _ _ _ V)). }
  cbn zeta. case_decide; apply (invalidate_external_at n i (it_ReverseDeps t') {| us_graph := g'; us_invalidated := inv |} Hg').
Qed.
End remove.
