(* ===== verification/ItgBuild.v ===== *)
(** The incremental graph of a full hashing ([OptimizeGraph]): it describes the targets it
    is built from, and keeps the invariants of the updates. *)
From Stdlib Require Import ZArith Lia.
From stdpp Require Import gmap fin_maps.
From S2P Require Import Prelude Bfs TargetHasher Toposort Mapper Itg ItgUpdate ItgInvalidate ItgInvariant ItgNames ItgOps.

Local Open Scope Z_scope.

Section build.
Context (sha1 : bytes -> bytes) (attribute_string : Z) (set_range : gset Z -> list Z).
Context (set_range_perm : forall s, set_range s ≡ₚ elements s).

(** * Adding the targets *)

Definition more_names (g g' : OptimizedGraph) : Prop :=
  tb_IDToString (TargetNames g) ⊆ tb_IDToString (TargetNames g') /\ tb_IDToString (RuleTypes g) ⊆ tb_IDToString (RuleTypes g').

Lemma more_names_ToID g g' n i : wf_tables g -> wf_tables g' -> more_names g g' ->
  tb_ToID (TargetNames g) !! n = Some i -> tb_ToID (TargetNames g') !! n = Some i.
Proof.
  intros W W' [Hn _] H. apply (wf_names _ W'). apply (lookup_weaken (tb_IDToString (TargetNames g))); [by apply (wf_names _ W)|done].
Qed.

Lemma translated_more g g' ht t : wf_tables g -> wf_tables g' -> more_names g g' -> translated g ht t -> translated g' ht t.
Proof.
  intros W W' M [Th Tw Tr Td Tn]. pose proof (more_names_ToID g g') as Hm. constructor; [done|done| | |].
  - exact (lookup_weaken _ _ _ _ Tr (proj2 M)).
  - intros i. rewrite Td. split; intros (d & Hd & Hi); exists d; (split; [done|]); [by apply Hm|].
    destruct (Tn d Hd) as [j Hj]. pose proof (Hm d j W W' M Hj). congruence.
  - intros d Hd. destruct (Tn d Hd) as [j Hj]. exists j. by apply Hm.
Qed.

(** What [AddTarget] adds to a graph without the target. *)
Record added (ht : HTarget) (g g' : OptimizedGraph) (id : Z) (t : ITarget) : Prop := {
  ad_tables : wf_tables g';
  ad_more : more_names g g';
  ad_name : tb_ToID (TargetNames g') !! h_Name ht = Some id;
  ad_targets : OptimizedTargets g' = <[id := t]> (OptimizedTargets g);
  ad_externals : ExternalRuleTargets g' =
    if decide (h_RuleType ht = ExternalRuleType) then <[id := Shared]> (ExternalRuleTargets g) else ExternalRuleTargets g;
  ad_translated : translated g' ht t;
}.

Section put.
Context (ht : HTarget) (g g2 : OptimizedGraph) (id : Z) (t : ITarget).
Context (W2 : wf_tables g2) (X : extends g g2) (Hno : OptimizedTargets g !! id = None) (Hid : it_ID t = id).
Context (Hn : tb_ToID (TargetNames g2) !! h_Name ht = Some id) (Htr : translated g2 ht t).

Lemma put_tables : put_target id t g2 = set_targets (<[id := t]> (OptimizedTargets g2)) g2 /\
  wf_tables (set_targets (<[id := t]> (OptimizedTargets g2)) g2).
Proof.
  split; [apply put_target_absent; [done|by rewrite (ex_targets _ _ X)]|].
  apply wf_tables_put; [done|done|by exists (h_RuleType ht); apply Htr|]. exists (h_Name ht). by apply (wf_names _ W2).
Qed.

Lemma put_added_internal : h_RuleType ht <> ExternalRuleType -> added ht g (put_target id t g2) id t.
Proof.
  intros Hext. destruct put_tables as [-> W3]. constructor; [done|by split; apply X|done|by cbn; rewrite (ex_targets _ _ X)| |by destruct Htr].
  rewrite decide_False by done. apply X.
Qed.

Lemma put_added_external : h_RuleType ht = ExternalRuleType ->
  added ht g (set_externals (<[id := Shared]> (ExternalRuleTargets (put_target id t g2))) (put_target id t g2)) id t.
Proof.
  intros Hext. destruct put_tables as [-> []]. constructor; [|by split; apply X|done|by cbn; rewrite (ex_targets _ _ X)| |by destruct Htr].
  - constructor; [done..|]. intros i r. cbn [ExternalRuleTargets set_externals].
    intros [[<- <-]|[_ ?]]%lookup_insert_Some; [|by apply wf_shared].
    split; [done|]. cbn [OptimizedTargets set_externals set_targets]. rewrite lookup_insert_eq. by eexists.
  - rewrite decide_True by done. cbn. by rewrite (ex_externals _ _ X).
Qed.
End put.

Lemma AddTarget_added ht g :
  wf_tables g -> (forall id, tb_ToID (TargetNames g) !! h_Name ht = Some id -> OptimizedTargets g !! id = None) ->
  exists id t, added ht g (AddTarget attribute_string ht g) id t /\ OptimizedTargets g !! id = None.
Proof.
  intros W Hno. unfold AddTarget. destruct (getOrGenerateTargetID (h_Name ht) g) as [id g1] eqn:E1.
  destruct (getOrGenerateTargetID_tables _ _ _ _ W E1) as (W1 & X1 & N1 & _).
  destruct (generate_deps (h_Deps ht) ∅ g1) as [depIDs g2] eqn:E2.
  destruct (generate_deps_tables _ _ _ _ _ W1 E2) as (W2 & X2 & _ & Hdeps & Hnamed).
  destruct (getOrGenerateRecordReverse (h_RuleType ht) (RuleTypes g2)) as [rt tb] eqn:E3.
  pose proof (rule_type_tables _ _ _ _ W2 E3) as H3.
  assert (OptimizedTargets g !! id = None) as Hid.
  { unfold getOrGenerateTargetID in E1. destruct (tb_ToID (TargetNames g) !! h_Name ht) as [i|] eqn:Ei.
    - injection E1 as -> _. by apply Hno.
    - injection E1 as <- _. apply eq_None_not_Some. intros [n Hn]%(wf_named _ W). pose proof (wf_next _ W _ (mk_is_Some _ _ Hn)). lia. }
  assert (forall tags names values, extends g (set_tables tb tags names values g2)) as X.
  { intros tags names values. etrans; [exact X1|]. etrans; [exact X2|]. apply H3. }
  assert (forall tags names values t, it_Hash t = h_Hash ht -> it_HashWithoutDeps t = h_HashWithoutDeps ht -> it_RuleType t = rt ->
            it_Deps t = depIDs -> translated (set_tables tb tags names values g2) ht t) as Htr.
  { intros tags names values t Hh Hw Hr Hd. constructor; [done|done|by rewrite Hr; apply (H3 tags names values)| |done].
    intros i. rewrite Hd, Hdeps. cbn [TargetNames set_tables]. set_solver. }
  assert (tb_ToID (TargetNames g2) !! h_Name ht = Some id) as N2.
  { eapply (more_names_ToID g1 g2); [done|done|split; apply X2|done]. }
  case_decide as Hext.
  - eexists id, _. split; [|done].
    apply put_added_external; [apply H3|apply X|done|done|done|by apply Htr|done].
  - destruct (generate_tags (h_Tags ht) (Tags g2)) as [tagIDs tags].
    destruct (generate_attrs attribute_string (h_Attributes ht) ∅ (AttrNames g2) (AttrValues g2)) as [[attributes attrNames] attrValues].
    eexists id, _. split; [|done].
    apply put_added_internal; [apply H3|apply X|done|done|done|by apply Htr|done].
Qed.

(** ** All of them *)

(** The graph has exactly the targets of the list. *)
Record built (l : list (bytes * HTarget)) (g : OptimizedGraph) : Prop := {
  bu_tables : wf_tables g;
  bu_in : forall n ht, (n, ht) ∈ l -> exists id t, tb_ToID (TargetNames g) !! n = Some id /\ OptimizedTargets g !! id = Some t /\
    translated g ht t /\ (is_external g id <-> h_RuleType ht = ExternalRuleType);
  bu_out : forall id t, OptimizedTargets g !! id = Some t -> exists n ht, (n, ht) ∈ l /\ tb_ToID (TargetNames g) !! n = Some id;
}.

Lemma built_add l n ht g : built l g -> h_Name ht = n -> n ∉ l.*1 -> built (l ++ [(n, ht)]) (AddTarget attribute_string ht g).
Proof.
  intros [W Hin Hout] Hn Hl.
  assert (forall id, tb_ToID (TargetNames g) !! n = Some id -> OptimizedTargets g !! id = None) as Hno.
  { intros id Hid. apply eq_None_not_Some. intros [t Ht]. destruct (Hout id t Ht) as (m & hm & Hm & Hmid).
    assert (m = n) as -> by (apply (wf_names _ W) in Hid, Hmid; congruence). apply Hl, list_elem_of_fmap. by exists (n, hm). }
  destruct (AddTarget_added ht g W) as (id & t & A & Hid); [rewrite Hn; exact Hno|]. rewrite <- Hn in Hno |- *. destruct A as [W' M N T E Tr].
  assert (forall i, i <> id -> is_external (AddTarget attribute_string ht g) i <-> is_external g i) as Hx.
  { intros i Hi. unfold is_external. rewrite E. case_decide; [|done]. by rewrite lookup_insert_ne. }
  constructor; [done|..].
  - intros m hm [Hm|[= -> ->]%list_elem_of_singleton]%elem_of_app.
    + destruct (Hin m hm Hm) as (i & u & Hi & Hu & Htr & He). assert (i <> id) as Hne by (intros ->; congruence).
      exists i, u. split; [exact (more_names_ToID g _ m i W W' M Hi)|]. split; [by rewrite T, lookup_insert_ne|].
      split; [exact (translated_more g _ hm u W W' M Htr)|]. by rewrite Hx.
    + exists id, t. split; [done|]. split; [by rewrite T, lookup_insert_eq|]. split; [done|]. unfold is_external. rewrite E. case_decide as Hext.
      * rewrite lookup_insert_eq. split; [done|by eexists].
      * split; [|done]. intros [r Hr]. destruct (wf_shared _ W id r Hr) as [_ [? ?]]. congruence.
  - intros i u. rewrite T. intros [[<- <-]|[_ Hi]]%lookup_insert_Some.
    + exists (h_Name ht), ht. split; [apply elem_of_app; right; by left|done].
    + destruct (Hout i u Hi) as (m & hm & Hm & Hmi). exists m, hm. split; [apply elem_of_app; by left|exact (more_names_ToID g _ m i W W' M Hmi)].
Qed.

Lemma built_all l : NoDup l.*1 -> Forall (fun nt => h_Name nt.2 = nt.1) l ->
  built l (foldl (fun g nt => AddTarget attribute_string nt.2 g) empty_graph l).
Proof.
  induction l as [|[n ht] l IH] using rev_ind; intros Hnd Hnames.
  - constructor; cbn; [|set_solver|done]. constructor; cbn; try (by intros; simplify_map_eq); try (by intros ? []; simplify_map_eq).
  - rewrite foldl_snoc. cbn [snd]. rewrite fmap_app, NoDup_app in Hnd. destruct Hnd as (Hnd & Hd & _).
    apply Forall_app in Hnames as [Hnames [Hn _]%Forall_cons]. apply built_add; [by apply IH|done|].
    intros Hin. apply (Hd n Hin). by left.
Qed.

(** * Linking them *)

(** Only links are added. *)
Definition adds_links (g g' : OptimizedGraph) : Prop := forall x, relinks x g g'.

#[export] Instance adds_links_preorder : PreOrder adds_links.
Proof.
  split.
  - intros g x. reflexivity.
  - intros g1 g2 g3 H1 H2 x. etrans; [apply H1|apply H2].
Qed.

Lemma linked_adds x g g' d : adds_links g g' -> linked x g d -> linked x g' d.
Proof.
  intros A (td & Htd & Hr). pose proof (re_targets _ _ _ (A (x + 1)) d) as Ho. rewrite Htd in Ho.
  inversion Ho as [? td' Hc|]; subst. exists td'. split; [done|]. apply (lc_keep _ _ _ Hc); [done|lia].
Qed.

Lemma add_rdep_links x d g : adds_links g (modify (add_rdep x) d g).
Proof. intros y. apply modify_relinks. intros t. constructor; [done|]. cbn. set_solver. Qed.

Lemma add_rdeps_links x ds g :
  adds_links g (foldl (fun g d => modify (add_rdep x) d g) g ds) /\
  forall d, d ∈ ds -> is_Some (OptimizedTargets g !! d) -> linked x (foldl (fun g d => modify (add_rdep x) d g) g ds) d.
Proof.
  revert g. induction ds as [|d ds IH]; intros g; cbn [foldl]; [split; [done|set_solver]|].
  destruct (IH (modify (add_rdep x) d g)) as [A L]. pose proof (add_rdep_links x d g) as A1. split; [by etrans|].
  intros e [->|He]%elem_of_cons Hp.
  - apply (linked_adds x (modify (add_rdep x) d g)); [done|]. destruct Hp as [t Ht]. exists (add_rdep x t).
    rewrite modify_targets, lookup_alter_eq, Ht. split; [done|]. cbn. set_solver.
  - apply L; [done|]. by apply (relinks_is_Some x g _ e (A1 x)).
Qed.

Lemma link_all l g :
  adds_links g (foldl (link_target set_range) g l) /\
  forall it d, it ∈ l -> d ∈ it_Deps it.2 -> is_Some (OptimizedTargets g !! d) -> linked it.1 (foldl (link_target set_range) g l) d.
Proof.
  revert g. induction l as [|it l IH]; intros g; cbn [foldl]; [split; [done|set_solver]|].
  destruct (IH (link_target set_range g it)) as [A L]. destruct (add_rdeps_links it.1 (set_range (it_Deps it.2)) g) as [A1 L1].
  split; [by etrans|]. intros jt d [->|Hj]%elem_of_cons Hd Hp.
  - apply (linked_adds it.1 (link_target set_range g it)); [done|]. apply L1; [|done]. by apply elem_of_set_range.
  - apply L; [done|done|]. by apply (relinks_is_Some it.1 g _ d (A1 it.1)).
Qed.

(** * The graph of a result of hashing *)

(** What a name is among the targets. *)
Definition describe_target (T : HTargets) (n : bytes) : option (Node bytes) := target_node <$> T !! n.

(** Targets whose hashes are digests: every target and dependency is there, and each hash
    is the digest of its node when the dependencies are digested.  ItgFull proves it of
    the results of the full hashings it calls regular; a target with the hash of its
    repository that is not a file of the source tree, or of an excluded one, is not. *)
Record settled (T : HTargets) : Prop := {
  se_name : forall n t, T !! n = Some t -> h_Name t = n;
  se_deps : forall n t d, T !! n = Some t -> h_RuleType t <> ExternalRuleType -> d ∈ h_Deps t -> is_Some (T !! d);
  se_generated : forall n t, T !! n = Some t -> h_RuleType t = GeneratedFileType -> exists d, h_Deps t = [d];
  se_hash : forall n t, T !! n = Some t -> is_Some (h_Hash t);
  se_digest : forall n t k h, T !! n = Some t -> digest sha1 (describe_target T) k n = Some h -> h_Hash t = Some h;
}.

Section optimized.
Context (targets_range : gmap bytes HTarget -> list (bytes * HTarget)) (ids_range : gmap Z ITarget -> list (Z * ITarget)).
Context (targets_range_perm : forall m, targets_range m ≡ₚ map_to_list m) (ids_range_perm : forall m, ids_range m ≡ₚ map_to_list m).
Context (T : HTargets) (S : settled T).

Definition optimized : OptimizedGraph := OptimizeGraph attribute_string set_range targets_range ids_range T.
Definition unlinked : OptimizedGraph := foldl (fun g nt => AddTarget attribute_string nt.2 g) empty_graph (targets_range T).

Lemma unlinked_built : built (targets_range T) unlinked.
Proof.
  apply built_all.
  - rewrite targets_range_perm. apply NoDup_fst_map_to_list.
  - apply Forall_forall. intros [n t]. rewrite targets_range_perm, elem_of_map_to_list. apply (se_name _ S).
Qed.

Lemma optimized_links : adds_links unlinked optimized /\
  forall id t d, OptimizedTargets unlinked !! id = Some t -> d ∈ it_Deps t -> is_Some (OptimizedTargets unlinked !! d) -> linked id optimized d.
Proof.
  destruct (link_all (ids_range (OptimizedTargets unlinked)) unlinked) as [A L]. split; [exact A|].
  intros id t d Ht. apply (L (id, t) d). by rewrite ids_range_perm, elem_of_map_to_list.
Qed.

Lemma optimized_tables : wf_tables optimized.
Proof. eapply relinks_tables; [apply (proj1 optimized_links 0)|apply unlinked_built]. Qed.

(** The target of a name. *)
Lemma optimized_target n ht : T !! n = Some ht -> exists id t, tb_ToID (TargetNames optimized) !! n = Some id /\
  OptimizedTargets optimized !! id = Some t /\ translated optimized ht t /\ (is_external optimized id <-> h_RuleType ht = ExternalRuleType).
Proof.
  intros Hn. destruct unlinked_built as [W Hin _]. destruct (Hin n ht) as (id & t & Hid & Ht & Htr & Hx).
  { by rewrite targets_range_perm, elem_of_map_to_list. }
  pose proof (proj1 optimized_links 0) as R. pose proof (re_targets _ _ _ R id) as Ho. rewrite Ht in Ho.
  inversion Ho as [? t' Hc Eu Et|]; subst. pose proof (lc_eq _ _ _ Hc) as El. exists id, t'. rewrite (re_names _ _ _ R).
  split; [done|]. split; [done|]. split.
  - destruct Htr. constructor; [by rewrite El|by rewrite El|rewrite El; by rewrite (re_rules _ _ _ R)|rewrite El|];
      by rewrite (re_names _ _ _ R).
  - unfold is_external. by rewrite (re_externals _ _ _ R).
Qed.

Lemma optimized_named id t : OptimizedTargets optimized !! id = Some t ->
  exists n ht, T !! n = Some ht /\ tb_ToID (TargetNames optimized) !! n = Some id /\ translated optimized ht t /\
    (is_external optimized id <-> h_RuleType ht = ExternalRuleType).
Proof.
  intros Ht. pose proof (proj1 optimized_links 0) as R. destruct (relinks_target _ _ _ _ _ R Ht) as (u & Hu & _).
  destruct (bu_out _ _ unlinked_built id u Hu) as (n & ht & Hn & Hid). rewrite targets_range_perm, elem_of_map_to_list in Hn.
  destruct (optimized_target n ht Hn) as (id' & t' & Hid' & Ht' & Htr & Hx). rewrite (re_names _ _ _ R) in Hid' |- *.
  assert (id' = id) as -> by congruence. assert (t' = t) as -> by congruence. by exists n, ht.
Qed.

Lemma optimized_wf : wf optimized.
Proof.
  constructor; [apply optimized_tables|]. intros id t d [Ht He] Hd. destruct (optimized_named id t Ht) as (n & ht & Hn & Hid & Htr & Hx).
  rewrite Hx in He. apply (tr_Deps _ _ _ Htr) in Hd as Hd'. destruct Hd' as (dn & Hdn & Hdid).
  destruct (se_deps _ S n ht dn Hn He Hdn) as [hd Hhd]. destruct (optimized_target dn hd Hhd) as (d' & td & Hd' & Htd & _).
  assert (d' = d) as -> by congruence. pose proof (proj1 optimized_links 0) as R.
  destruct (relinks_target _ _ _ _ _ R Ht) as (u & Hu & Hc). destruct (relinks_target _ _ _ _ _ R Htd) as (v & Hv & _).
  apply (proj2 optimized_links id u d Hu); [|by exists v]. rewrite (lc_eq _ _ _ Hc) in Hd. exact Hd.
Qed.

Lemma name_of n id : tb_ToID (TargetNames optimized) !! n = Some id -> name_string optimized id = n.
Proof. apply name_string_of, optimized_tables. Qed.

Lemma describe_optimized n : describe set_range optimized n = describe_target T n.
Proof.
  unfold describe, describe_target. destruct (T !! n) as [ht|] eqn:Hn; cbn [fmap option_fmap option_map].
  - destruct (optimized_target n ht Hn) as (id & t & Hid & Ht & Htr & Hx). rewrite Hid. cbn [mbind option_bind].
    destruct (decide (is_external optimized id)) as [He|He].
    { destruct (node_external set_range _ _ He optimized_tables) as (t' & Ht' & ->). assert (t' = t) as -> by congruence.
      unfold target_node. rewrite decide_True by (left; by apply Hx). cbn. by rewrite (tr_Hash _ _ _ Htr). }
    rewrite (node_internal set_range _ id t) by done. rewrite Hx in He. cbn [fmap option_fmap option_map]. f_equal.
    apply (node_translated set_range set_range_perm _ optimized_tables); [done|done|]. by apply (se_generated _ S n).
  - destruct (tb_ToID (TargetNames optimized) !! n) as [id|] eqn:Hid; [|done]. cbn [mbind option_bind].
    destruct (node set_range optimized id) as [nd|] eqn:En; [|done]. exfalso.
    destruct (node_present set_range _ optimized_wf id nd En) as [t Ht]. destruct (optimized_named id t Ht) as (m & ht & Hm & Hmid & _).
    pose proof (name_of _ _ Hid). pose proof (name_of _ _ Hmid). congruence.
Qed.

Lemma optimized_good : wf optimized /\ fresh sha1 set_range optimized ∅.
Proof.
  split; [apply optimized_wf|]. constructor.
  - intros id Hid. by apply elem_of_empty in Hid.
  - intros id t [Ht _] Hh. destruct (optimized_named id t Ht) as (n & ht & Hn & _ & Htr & _).
    rewrite (tr_Hash _ _ _ Htr) in Hh. destruct (se_hash _ S n ht Hn). congruence.
  - intros id t d Hi _ _ Hd. right. destruct (wf_links _ optimized_wf id t d Hi Hd) as (td & Htd & _).
    destruct (optimized_named d td Htd) as (n & ht & Hn & _ & Htr & _). destruct (se_hash _ S n ht Hn) as [h Hh].
    exists td, h. split; [done|]. by rewrite (tr_Hash _ _ _ Htr).
  - intros id t h k h' [Ht _] Hh Hk. destruct (optimized_named id t Ht) as (n & ht & Hn & Hid & Htr & _).
    rewrite <- (digest_describe sha1 set_range set_range_perm optimized optimized_wf k id), (name_of _ _ Hid) in Hk by by exists t.
    assert (digest sha1 (describe_target T) k n = Some h') as Hk'.
    { refine (digest_agree sha1 _ _ (fun _ => True) _ _ k n h' Logic.I Hk); [|done]. intros m _. symmetry. apply describe_optimized. }
    pose proof (se_digest _ S n ht k h' Hn Hk'). rewrite (tr_Hash _ _ _ Htr) in Hh. congruence.
Qed.
End optimized.
End build.
