(* ===== verification/ItgHash.v ===== *)
(** Hashing what was invalidated: the recursion with its marks ends, and gives every
    target that has a digest that digest. *)
From Stdlib Require Import ZArith Lia.
From stdpp Require Import gmap fin_maps.
From S2P Require Import Prelude Bfs TargetHasher Itg ItgUpdate ItgInvalidate ItgInvariant.

Local Open Scope Z_scope.

(** * More fuel *)

(** What a computation returns, a longer one returns. *)
Definition extended {A} (m m' : CM A) : Prop := forall s x, m s = Some x -> m' s = Some x.

Lemma extended_bind {A B} (m m' : CM A) (f f' : A -> CM B) :
  extended m m' -> (forall a, extended (f a) (f' a)) -> extended (m ≫= f) (m' ≫= f').
Proof.
  intros Hm Hf s x. unfold mbind, CM_bind. destruct (m s) as [y|] eqn:E; [|done]. rewrite (Hm s y E).
  destruct y as [[a|e|] s']; [apply Hf|done|done].
Qed.

Lemma extended_refl {A} (m : CM A) : extended m m.
Proof. by intros s x. Qed.

Section fuel.
Context (sha1 : bytes -> bytes) (set_range : gset Z -> list Z) (ctx : Z -> bool).

Lemma write_dep_hashes_more f f' deps w : (forall d, extended (f d) (f' d)) -> extended (write_dep_hashes f deps w) (write_dep_hashes f' deps w).
Proof.
  intros Hf. revert w. induction deps as [|d deps IH]; intros w; cbn [write_dep_hashes]; [apply extended_refl|].
  apply extended_bind; [done|]. intros h. apply IH.
Qed.

Lemma computeHashes_more fuel fuel' id : (fuel <= fuel')%nat ->
  extended (computeHashes sha1 set_range ctx fuel id) (computeHashes sha1 set_range ctx fuel' id).
Proof.
  revert fuel' id. induction fuel as [|fuel IH]; intros fuel' id Hle; [done|]. destruct fuel' as [|fuel']; [lia|]. cbn [computeHashes].
  apply extended_bind; [apply extended_refl|]. intros _. apply extended_bind; [apply extended_refl|]. intros g.
  destruct (external_target g id); [apply extended_refl|]. destruct (OptimizedTargets g !! id) as [t|]; [|apply extended_refl].
  destruct (it_Hash t); [apply extended_refl|]. apply extended_bind; [apply extended_refl|]. intros _.
  apply extended_bind; [|intros h; apply extended_refl]. unfold hash_marked.
  case_decide; [apply extended_refl|]. case_decide; [apply IH; lia|]. destruct (it_HashWithoutDeps t); [|apply extended_refl].
  apply extended_bind; [|intros w; apply extended_refl]. apply write_dep_hashes_more. intros d. apply IH. lia.
Qed.

Lemma compute_all_more fuel fuel' ids : (fuel <= fuel')%nat ->
  extended (compute_all sha1 set_range ctx fuel ids) (compute_all sha1 set_range ctx fuel' ids).
Proof.
  intros Hle. induction ids as [|id ids IH]; cbn [compute_all]; [apply extended_refl|].
  apply extended_bind; [by apply computeHashes_more|]. intros _. apply IH.
Qed.

Lemma computeInvalidatedHashes_more fuel fuel' inv : (fuel <= fuel')%nat ->
  extended (computeInvalidatedHashes sha1 set_range ctx fuel inv) (computeInvalidatedHashes sha1 set_range ctx fuel' inv).
Proof.
  intros Hle. unfold computeInvalidatedHashes. apply extended_bind; [apply extended_refl|]. intros g.
  apply extended_bind; [by apply compute_all_more|]. intros _. cbn zeta.
  apply extended_bind; [by apply compute_all_more|]. intros _. by apply compute_all_more.
Qed.
End fuel.

Section hash.
Context (sha1 : bytes -> bytes) (set_range : gset Z -> list Z).
Context (set_range_perm : forall s, set_range s ≡ₚ elements s).
Context (ctx : Z -> bool).
(** The graph before hashing. *)
Context (g0 : OptimizedGraph) (W : wf g0).

Definition digest0 (depth : nat) (id : Z) : option bytes := digest sha1 (node set_range g0) depth id.

(** What the code needs of the targets without a hash. *)
Definition complete : Prop := forall id t, internal g0 id t -> it_Hash t = None ->
  ~ given g0 t /\ (if decide (rule_type g0 (it_RuleType t) = GeneratedFileType) then it_Deps t <> ∅ else is_Some (it_HashWithoutDeps t)).

(** * What holds during hashing *)

(** Only the hashes differ from [g0], of internal targets that had none. *)
Definition hash_change (external : Prop) (t t' : ITarget) : Prop :=
  t' = set_it_hash (it_Hash t') t /\ (is_Some (it_Hash t) \/ external -> t' = t).

(** The targets to hash, which bound the fuel. *)

Definition unhashed_ids (g : OptimizedGraph) : gset Z := dom (filter (fun it => it_Hash it.2 = None) (OptimizedTargets g)).

Lemma elem_of_unhashed g i : i ∈ unhashed_ids g <-> exists t, OptimizedTargets g !! i = Some t /\ it_Hash t = None.
Proof.
  unfold unhashed_ids. rewrite elem_of_dom. split.
  - intros [t [Ht Hh]%map_lookup_filter_Some]. eauto.
  - intros (t & Ht & Hh). exists t. by apply map_lookup_filter_Some.
Qed.

Lemma unhashed_modify g id h : unhashed_ids (modify (set_it_hash (Some h)) id g) = unhashed_ids g ∖ {[ id ]}.
Proof.
  apply set_eq. intros i. rewrite elem_of_difference, not_elem_of_singleton, !elem_of_unhashed. setoid_rewrite modify_targets.
  destruct (decide (id = i)) as [<-|Hne].
  - rewrite lookup_alter_eq. split; [|by intros []]. intros (t & (u & _ & ->)%fmap_Some & Hh). done.
  - rewrite lookup_alter_ne by done. naive_solver.
Qed.

(** The targets [busy] are being hashed, and carry a mark for a hash. *)
Record computing (busy : gset Z) (g : OptimizedGraph) : Prop := {
  co_rest : set_targets (OptimizedTargets g0) g = g0;
  co_targets : forall i, option_Forall2 (hash_change (is_external g0 i)) (OptimizedTargets g0 !! i) (OptimizedTargets g !! i);
  co_done : forall i t t' h k h', internal g0 i t -> OptimizedTargets g !! i = Some t' -> it_Hash t' = Some h -> i ∉ busy ->
    digest0 k i = Some h' -> h = h';
  co_given : forall i t, internal g0 i t -> it_Hash t = None -> i ∉ busy -> i ∉ unhashed_ids g -> ~ given g0 t;
}.

(** A busy target has no digest, or one of more depth than the target [id]. *)
Definition below (busy : gset Z) (id : Z) : Prop :=
  forall b k, b ∈ busy -> is_Some (digest0 k b) -> exists j, (j < k)%nat /\ is_Some (digest0 j id).

Lemma below_dep busy id n d : below busy id -> node set_range g0 id = Some n -> d ∈ node_deps n -> below ({[ id ]} ∪ busy) d.
Proof.
  intros Hb Hn Hd b k Hbb Hk.
  assert (exists j, (j <= k)%nat /\ is_Some (digest0 j id)) as (j & Hj & [h Hh]).
  { apply elem_of_union in Hbb as [->%elem_of_singleton|Hbb]; [by exists k|].
    destruct (Hb b k Hbb Hk) as (j & Hj & Hs). exists j. split; [lia|done]. }
  destruct j as [|j]; [done|]. exists j. split; [lia|]. by eapply digest_dep.
Qed.

Lemma below_undefined busy id : below busy id -> (forall k, digest0 k id = None) -> forall d, below ({[ id ]} ∪ busy) d.
Proof.
  intros Hb Hn d b k Hbb [h Hh]. apply elem_of_union in Hbb as [->%elem_of_singleton|Hbb]; [congruence|].
  destruct (Hb b k Hbb (mk_is_Some _ _ Hh)) as (j & _ & [? Hj]). congruence.
Qed.

(** A target with a digest is not busy. *)
Lemma below_not_busy busy id k : below busy id -> is_Some (digest0 k id) -> id ∉ busy.
Proof.
  intros Hb Hk Hid. revert Hk. induction k as [k IH] using lt_wf_ind. intros Hk.
  destruct (Hb id k Hid Hk) as (j & Hj & Hs). by apply (IH j).
Qed.

(** ** The parts of the graph that do not change *)

Section computing.
Context (busy : gset Z) (g : OptimizedGraph) (C : computing busy g).

Lemma co_names : TargetNames g = TargetNames g0. Proof. by rewrite <- (co_rest _ _ C). Qed.
Lemma co_rules : RuleTypes g = RuleTypes g0. Proof. by rewrite <- (co_rest _ _ C). Qed.
Lemma co_externals : ExternalRuleTargets g = ExternalRuleTargets g0. Proof. by rewrite <- (co_rest _ _ C). Qed.

Lemma co_target i t' : OptimizedTargets g !! i = Some t' ->
  exists t, OptimizedTargets g0 !! i = Some t /\ hash_change (is_external g0 i) t t'.
Proof. intros Ht. pose proof (co_targets _ _ C i) as H. rewrite Ht in H. inversion H; subst. eauto. Qed.

Lemma co_present i t : OptimizedTargets g0 !! i = Some t -> exists t', OptimizedTargets g !! i = Some t' /\ hash_change (is_external g0 i) t t'.
Proof. intros Ht. pose proof (co_targets _ _ C i) as H. rewrite Ht in H. inversion H; subst. eauto. Qed.

Lemma co_external_target i : is_external g0 i -> exists t, external_target g i = Some t /\ node set_range g0 i = Some (Fixed (it_Hash t)).
Proof.
  intros He. destruct (node_external set_range g0 i He W) as (t & Ht & Hn). exists t. split; [|done].
  destruct He as [r Hr]. destruct (wf_shared _ W i r Hr) as [-> _]. unfold external_target. rewrite co_externals, Hr.
  destruct (co_present i t Ht) as (t' & -> & [_ Hx]). f_equal. apply Hx. right. by eexists.
Qed.

Lemma co_not_external i : ~ is_external g0 i -> external_target g i = None.
Proof. unfold is_external, external_target. rewrite co_externals. destruct (_ !! i); [|done]. intros []. by eexists. Qed.
End computing.

(** A target is marked, and then gets its hash. *)
Lemma computing_mark busy g id t x :
  computing busy g -> internal g0 id t -> OptimizedTargets g !! id = Some x -> it_Hash x = None -> forall h,
  computing ({[ id ]} ∪ busy) (modify (set_it_hash (Some h)) id g).
Proof.
  intros C [Ht He] Hx Hxh h. constructor.
  - etrans; [|apply (co_rest _ _ C)]. by destruct g.
  - intros i. rewrite modify_targets. destruct (decide (id = i)) as [<-|Hne].
    + rewrite lookup_alter_eq. pose proof (co_targets _ _ C id) as Ho. rewrite Hx, Ht in *. inversion Ho as [? ? [E K]|]; subst.
      constructor. split; [cbn; rewrite E; done|]. intros [Hs|?]; [|done]. rewrite (K (or_introl Hs)) in Hxh. destruct Hs. congruence.
    + rewrite lookup_alter_ne by done. apply (co_targets _ _ C).
  - intros i u u' h1 k h2 Hu Hu' Hh Hi Hd. rewrite modify_targets, lookup_alter_ne in Hu' by set_solver.
    apply (co_done _ _ C i u u' h1 k); [done..|set_solver|done].
  - intros i u Hu Hh Hi. rewrite unhashed_modify. intros Hn. apply (co_given _ _ C i u Hu Hh); set_solver.
Qed.

Lemma computing_set busy g id t h :
  computing ({[ id ]} ∪ busy) g -> internal g0 id t -> it_Hash t = None -> ~ given g0 t -> (forall k h', digest0 k id = Some h' -> h = h') ->
  computing busy (modify (set_it_hash (Some h)) id g).
Proof.
  intros C [Ht He] Hth Hg Hd. constructor.
  - etrans; [|apply (co_rest _ _ C)]. by destruct g.
  - intros i. rewrite modify_targets. destruct (decide (id = i)) as [<-|Hne].
    + rewrite lookup_alter_eq. pose proof (co_targets _ _ C id) as Ho. rewrite Ht in *. inversion Ho as [? ? [E K]|]; subst.
      constructor. split; [cbn; rewrite E; done|]. intros [[? ?]|?]; [congruence|done].
    + rewrite lookup_alter_ne by done. apply (co_targets _ _ C).
  - intros i u u' h1 k h2 Hu Hu' Hh Hi Hk. rewrite modify_targets in Hu'. destruct (decide (id = i)) as [<-|Hne].
    + rewrite lookup_alter_eq in Hu'. apply fmap_Some in Hu' as (v & _ & ->). injection Hh as <-. by eapply Hd.
    + rewrite lookup_alter_ne in Hu' by done. apply (co_done _ _ C i u u' h1 k); [done..|set_solver|done].
  - intros i u Hu Hh Hi. rewrite unhashed_modify. intros Hn. destruct (decide (i = id)) as [->|Hne].
    + destruct Hu as [Hu _]. assert (u = t) as -> by congruence. done.
    + apply (co_given _ _ C i u Hu Hh); set_solver.
Qed.

Lemma computing_leave busy g id t :
  computing ({[ id ]} ∪ busy) g -> internal g0 id t -> ~ given g0 t -> (forall k, digest0 k id = None) -> computing busy g.
Proof.
  intros C Ht Hg Hd. constructor; [apply (co_rest _ _ C)|apply (co_targets _ _ C)|..].
  - intros i u u' h1 k h2 Hu Hu' Hh Hi Hk. destruct (decide (i = id)) as [->|Hne]; [congruence|].
    apply (co_done _ _ C i u u' h1 k); [done..|set_solver|done].
  - intros i u Hu Hh Hi Hn. destruct (decide (i = id)) as [->|Hne].
    + destruct Hu as [Hu _], Ht as [Ht _]. assert (u = t) as -> by congruence. done.
    + apply (co_given _ _ C i u Hu Hh); set_solver.
Qed.

(** * Runs *)

(** A run ends, and fails only when it is cancelled or the graph lacks something. *)
Definition runs {A} (m : CM A) (s : cstate) (Q : A -> cstate -> Prop) : Prop :=
  match m s with
  | Some (Ok a, s') => Q a s'
  | Some (Err e, _) => (e = cancelled_err /\ exists i, ctx i = true) \/ ~ complete
  | Some (Panic, _) => False
  | None => False
  end.

Lemma compute_runs_bind {A B} (m : CM A) (f : A -> CM B) s Q R :
  runs m s Q -> (forall a s', Q a s' -> runs (f a) s' R) -> runs (m ≫= f) s R.
Proof. unfold runs, mbind, CM_bind. destruct (m s) as [[[a|e|] s']|]; intros H Hf; [by apply Hf|done|done|done]. Qed.

Lemma compute_runs_ret {A} (a : A) s (Q : A -> cstate -> Prop) : Q a s -> runs (mret a) s Q.
Proof. done. Qed.

Lemma runs_fails {A} e s (Q : A -> cstate -> Prop) : ~ complete -> runs (fails e) s Q.
Proof. by right. Qed.

Lemma runs_set id h s (Q : () -> cstate -> Prop) :
  Q () {| cs_graph := modify (set_it_hash h) id (cs_graph s); cs_calls := cs_calls s |} -> runs (set_hash_of id h) s Q.
Proof. done. Qed.

Lemma runs_poll s (Q : () -> cstate -> Prop) : (forall c, Q () {| cs_graph := cs_graph s; cs_calls := c |}) -> runs (poll_hashing ctx) s Q.
Proof. intros H. unfold runs, poll_hashing, guard_err. destruct (ctx (cs_calls s)) eqn:E; [left; eauto|apply H]. Qed.

Lemma compute_runs_mono {A} (m : CM A) s (Q R : A -> cstate -> Prop) : runs m s Q -> (forall a s', Q a s' -> R a s') -> runs m s R.
Proof. unfold runs. destruct (m s) as [[[a|e|] s']|]; auto. Qed.

(** The state after a run. *)
Definition computed (busy : gset Z) (s s' : cstate) : Prop :=
  computing busy (cs_graph s') /\ unhashed_ids (cs_graph s') ⊆ unhashed_ids (cs_graph s).

Definition hash_of (id : Z) (r : option bytes) : Prop := forall k h, digest0 k id = Some h -> r = Some h.

(** The recursive calls on the dependencies [deps] of a busy target. *)
Definition computes (busy : gset Z) (n : nat) (compute : Z -> CM (option bytes)) (d : Z) : Prop := forall s,
  (size (unhashed_ids (cs_graph s)) < n)%nat -> computing busy (cs_graph s) ->
  runs (compute d) s (fun r s' => computed busy s s' /\ hash_of d r).

Lemma write_dep_hashes_runs busy n compute deps written s :
  Forall (computes busy n compute) deps -> (size (unhashed_ids (cs_graph s)) < n)%nat -> computing busy (cs_graph s) ->
  runs (write_dep_hashes compute deps written) s (fun r s' => computed busy s s' /\
    forall k hs, mapM (digest0 k) deps = Some hs -> r = written ++ concat hs).
Proof.
  intros Hd. revert written s. induction Hd as [|d deps Hd Hds IH]; intros written s Hn C; cbn [write_dep_hashes].
  { apply compute_runs_ret. split; [done|]. intros k hs [= <-]. cbn. by rewrite app_nil_r. }
  eapply compute_runs_bind; [by apply Hd|]. cbn beta. intros r s1 [[C1 U1] Hr].
  eapply compute_runs_mono; [apply IH; [|done]|].
  { eapply Nat.le_lt_trans; [by apply subseteq_size|done]. }
  intros w s2 [[C2 U2] Hw]. split; [split; [done|by etrans]|]. intros k hs Hhs.
  cbn [mapM] in Hhs. apply bind_Some in Hhs as (h & Hh & (hs' & Hhs' & [= <-])%bind_Some).
  rewrite (Hw k hs' Hhs'), (Hr k h Hh). cbn. by rewrite <- app_assoc.
Qed.

(** The targets that the hash of a target is computed from. *)
Definition called (t : ITarget) : list Z :=
  if decide (rule_type g0 (it_RuleType t) = GeneratedFileType) then [default 0 (head (set_range (it_Deps t)))]
  else sorted_deps set_range g0 (it_Deps t).

Lemma sorted_deps_names g g' deps : TargetNames g = TargetNames g' -> sorted_deps set_range g deps = sorted_deps set_range g' deps.
Proof. intros E. unfold sorted_deps. apply sort_func_agree. intros x y _ _. unfold name_string. by rewrite E. Qed.

Lemma hash_marked_runs busy n compute g id t s :
  internal g0 id t -> it_Hash t = None -> TargetNames g = TargetNames g0 -> RuleTypes g = RuleTypes g0 ->
  (~ given g0 t -> Forall (computes busy n compute) (called t)) -> (size (unhashed_ids (cs_graph s)) < n)%nat -> computing busy (cs_graph s) ->
  runs (hash_marked sha1 set_range compute g t) s (fun r s' => computed busy s s' /\ hash_of id r /\ ~ given g0 t).
Proof.
  intros Ht Hh En Er Hc Hn C. unfold hash_marked, called in *. assert (forall rt, rule_type g rt = rule_type g0 rt) as Ert by (intros rt; unfold rule_type; by rewrite Er).
  rewrite Ert. destruct (decide (given g0 t)) as [Hg|Hg].
  { rewrite decide_True by exact Hg. apply runs_fails. intros Hcm. by destruct (Hcm id t Ht Hh). }
  rewrite decide_False by exact Hg.
  assert (forall k h, digest0 k id = Some h -> exists j, node_digest sha1 (digest0 j) (node_of set_range g0 t) = Some h) as Hdig.
  { intros [|k] h Hk; [done|]. unfold digest0 in Hk. cbn [digest] in Hk. rewrite (node_internal _ g0 id t Ht) in Hk. by exists k. }
  unfold node_of in Hdig. rewrite decide_False in Hdig by done. destruct (decide (rule_type g0 (it_RuleType t) = GeneratedFileType)) as [Hgen|Hgen].
  - eapply compute_runs_mono; [by apply (proj1 (Forall_singleton _ _) (Hc Hg))|]. cbn beta.
    intros r s' [Cs Hr]. split; [done|]. split; [|done]. intros k h Hk. destruct (Hdig k h Hk) as [j Hj].
    destruct (set_range (it_Deps t)) as [|d l]; [done|]. by apply (Hr j).
  - destruct (it_HashWithoutDeps t) as [hwd|] eqn:Ehwd.
    2:{ apply runs_fails. intros Hcm. destruct (Hcm id t Ht Hh) as [_ Hx]. rewrite decide_False in Hx by done. rewrite Ehwd in Hx. by destruct Hx. }
    eapply compute_runs_bind; [apply (write_dep_hashes_runs busy n); [rewrite (sorted_deps_names g g0) by done; by apply Hc|done..]|]. cbn beta.
    intros w s' [Cs Hw]. apply compute_runs_ret. split; [done|]. split; [|done]. intros k h Hk. destruct (Hdig k h Hk) as [j Hj].
    cbn [node_digest] in Hj. apply bind_Some in Hj as (w' & [= <-] & (hs & Hhs & [= <-])%bind_Some). do 2 f_equal.
    apply (Hw j). by rewrite (sorted_deps_names g g0).
Qed.

Lemma unhashed_original busy g id x :
  computing busy g -> OptimizedTargets g !! id = Some x -> it_Hash x = None -> OptimizedTargets g0 !! id = Some x.
Proof.
  intros C Hx Hh. destruct (co_target busy g C id x Hx) as (t & Ht & E & K). rewrite Ht. f_equal. rewrite Hh in E.
  destruct (it_Hash t) as [h|] eqn:Eh; [rewrite (K (or_introl (mk_is_Some (Some h) h eq_refl))) in Hh; congruence|].
  rewrite E. destruct t; cbn in *. by subst.
Qed.

(** The recursive calls of a target are below it. *)
Lemma called_below busy id t : internal g0 id t -> below busy id -> ~ given g0 t ->
  Forall (fun d => below ({[ id ]} ∪ busy) d /\ (is_Some (OptimizedTargets g0 !! d) \/ (it_Hash t = None -> ~ complete))) (called t).
Proof.
  intros Ht Hb Hg. apply Forall_forall. intros d Hd.
  assert (d ∈ node_deps (node_of set_range g0 t) -> below ({[ id ]} ∪ busy) d /\
            (is_Some (OptimizedTargets g0 !! d) \/ (it_Hash t = None -> ~ complete))) as Hdep.
  { intros Hn. split; [by eapply below_dep; [done|by apply node_internal|]|left].
    apply (node_of_deps set_range set_range_perm) in Hn as [_ Hn]. destruct (wf_links _ W id t d Ht Hn) as (td & Htd & _). by exists td. }
  unfold called in Hd. unfold node_of in Hdep. rewrite decide_False in Hdep by done. destruct (decide (rule_type g0 (it_RuleType t) = GeneratedFileType)) as [Hgen|Hgen].
  - apply list_elem_of_singleton in Hd as ->.
    destruct (set_range (it_Deps t)) as [|d l] eqn:E; [|by apply Hdep, list_elem_of_singleton].
    assert (it_Deps t = ∅) as Ed.
    { apply set_eq. intros x. rewrite <- (elem_of_set_range set_range set_range_perm), E. set_solver. }
    split.
    + apply below_undefined; [done|]. intros [|k]; [done|]. unfold digest0. cbn [digest]. rewrite (node_internal _ g0 id t Ht).
      unfold node_of. rewrite decide_False, decide_True by done. by rewrite E.
    + right. intros Hh Hcm. destruct (Hcm id t Ht Hh) as [_ Hx]. by rewrite decide_True in Hx.
  - by apply Hdep.
Qed.

Lemma computeHashes_runs fuel id busy s :
  (size (unhashed_ids (cs_graph s)) < fuel)%nat -> computing busy (cs_graph s) -> below busy id ->
  (is_Some (OptimizedTargets g0 !! id) \/ ~ complete) ->
  runs (computeHashes sha1 set_range ctx fuel id) s (fun r s' => computed busy s s' /\ hash_of id r /\
    (~ is_external g0 id -> id ∉ unhashed_ids (cs_graph s'))).
Proof.
  revert id busy s. induction fuel as [|fuel IH]; intros id busy s Hf C Hb Hp; [lia|]. cbn [computeHashes].
  eapply (compute_runs_bind _ _ _ (fun _ s' => cs_graph s' = cs_graph s)); [by apply runs_poll|]. intros [] s1 E1. cbn beta.
  eapply (compute_runs_bind _ _ _ (fun g s' => s' = s1 /\ g = cs_graph s1)); [done|]. intros ? ? [-> ->]. rewrite E1.
  assert (computed busy s s1) as C1 by (unfold computed; by rewrite E1).
  destruct (decide (is_external g0 id)) as [He|He].
  { destruct (co_external_target _ _ C id He) as (t & -> & Hn). apply compute_runs_ret. split; [done|]. split; [|done].
    intros [|k] h Hk; [done|]. unfold digest0 in Hk. cbn [digest] in Hk. by rewrite Hn in Hk. }
  rewrite (co_not_external _ _ C id He). destruct (OptimizedTargets (cs_graph s) !! id) as [x|] eqn:Ex.
  2:{ apply runs_fails. destruct Hp as [[t Ht]|]; [|done]. destruct (co_present _ _ C id t Ht) as (x & Hx & _). congruence. }
  destruct (it_Hash x) as [hx|] eqn:Ehx.
  { apply compute_runs_ret. split; [done|]. split.
    - intros k h Hk. f_equal. destruct (co_target _ _ C id x Ex) as (t & Ht & _).
      apply (co_done _ _ C id t x hx k); [done..| |done]. eapply below_not_busy; [done|by exists h].
    - intros _. rewrite E1, elem_of_unhashed. intros (u & Hu & Hh). congruence. }
  pose proof (unhashed_original _ _ _ _ C Ex Ehx) as Ht. assert (internal g0 id x) as Hi by done.
  eapply (compute_runs_bind _ _ _ (fun _ s' => cs_graph s' = modify (set_it_hash (Some [])) id (cs_graph s1))); [done|].
  intros [] s2 E2. rewrite E1 in E2. assert (computing ({[ id ]} ∪ busy) (cs_graph s2)) as C2 by (rewrite E2; by eapply computing_mark).
  assert (unhashed_ids (cs_graph s2) = unhashed_ids (cs_graph s) ∖ {[ id ]}) as U2 by (rewrite E2; apply unhashed_modify).
  assert (size (unhashed_ids (cs_graph s2)) < fuel)%nat as Hf2.
  { rewrite U2. assert (id ∈ unhashed_ids (cs_graph s)) as Hu by (apply elem_of_unhashed; eauto).
    rewrite size_difference, size_singleton by set_solver. pose proof (subseteq_size {[ id ]} (unhashed_ids (cs_graph s)) ltac:(set_solver)) as Hs.
    rewrite size_singleton in Hs. lia. }
  eapply compute_runs_bind.
  { apply (hash_marked_runs ({[ id ]} ∪ busy) fuel); [done|done|by apply (co_names _ _ C)|by apply (co_rules _ _ C)| |done|done].
    intros Hg. eapply Forall_impl; [by apply (called_below busy id x)|]. cbn beta. intros d [Hbd Hpd] s' Hs' Cs'.
    eapply compute_runs_mono; [apply (IH d ({[ id ]} ∪ busy)); [done|done|done|]|].
    - destruct Hpd as [?|Hpd]; [by left|right; by apply Hpd].
    - cbn beta. tauto. }
  cbn beta. intros r s3 ([C3 U3] & Hr & Hng).
  eapply (compute_runs_bind _ _ _ (fun _ s' => computed busy s s' /\ id ∉ unhashed_ids (cs_graph s'))).
  - destruct r as [h|].
    + apply runs_set. cbn [cs_graph]. unfold computed. cbn [cs_graph]. rewrite unhashed_modify. split; [split|set_solver].
      * eapply computing_set; [done|done|done|done|]. intros k h' Hk. pose proof (Hr k h' Hk). congruence.
      * set_solver.
    + apply compute_runs_ret. unfold computed. split; [split|set_solver].
      * apply (computing_leave busy _ id x); [done|done|done|]. intros k. destruct (digest0 k id) as [h|] eqn:Ek; [|done]. by pose proof (Hr k h Ek).
      * set_solver.
  - intros [] s4 [C4 U4]. apply compute_runs_ret. split; [done|]. by split.
Qed.

(** * All of them *)

Lemma below_empty id : below ∅ id.
Proof. intros b k Hb. set_solver. Qed.

Lemma compute_all_runs fuel ids s :
  (size (unhashed_ids (cs_graph s)) < fuel)%nat -> computing ∅ (cs_graph s) -> Forall (fun id => is_Some (OptimizedTargets g0 !! id)) ids ->
  runs (compute_all sha1 set_range ctx fuel ids) s (fun _ s' => computed ∅ s s' /\
    Forall (fun id => ~ is_external g0 id -> id ∉ unhashed_ids (cs_graph s')) ids).
Proof.
  intros Hf C Hids. revert s Hf C. induction Hids as [|id ids Hid Hids IH]; intros s Hf C; cbn [compute_all]; [by apply compute_runs_ret|].
  eapply compute_runs_bind; [apply (computeHashes_runs fuel id ∅); [done|done|apply below_empty|by left]|]. cbn beta.
  intros r s1 ([C1 U1] & _ & Hu). eapply compute_runs_mono; [apply IH; [|done]|].
  { eapply Nat.le_lt_trans; [by apply subseteq_size|done]. }
  intros [] s2 [[C2 U2] Hall]. split; [split; [done|by etrans]|]. constructor; [|done]. intros He. specialize (Hu He). set_solver.
Qed.

Lemma computing_start inv : fresh sha1 set_range g0 inv -> computing ∅ g0.
Proof.
  intros F. constructor; [by destruct g0|..].
  - intros i. destruct (OptimizedTargets g0 !! i) as [t|]; constructor. split; [by destruct t|done].
  - intros i t t' h k h' Hi Ht Hh _ Hk. destruct Hi as [Hi He]. assert (t' = t) as -> by congruence.
    by apply (fr_hash _ _ _ _ F i t h k).
  - intros i t [Ht _] Hh _ Hn. exfalso. apply Hn, elem_of_unhashed. eauto.
Qed.

(** After hashing every internal target has a hash, its digest if there is one. *)
Lemma computeInvalidatedHashes_runs fuel inv c :
  fresh sha1 set_range g0 inv -> (size (unhashed_ids g0) < fuel)%nat ->
  runs (computeInvalidatedHashes sha1 set_range ctx fuel inv) {| cs_graph := g0; cs_calls := c |} (fun _ s' =>
    computing ∅ (cs_graph s') /\ forall i t, internal g0 i t -> i ∉ unhashed_ids (cs_graph s')).
Proof.
  intros F Hf. pose proof (computing_start inv F) as C0.
  assert (forall l : list Z, (forall i, i ∈ l -> i ∈ inv) -> Forall (fun id => is_Some (OptimizedTargets g0 !! id)) l) as Hpres.
  { intros l Hl. apply Forall_forall. intros i Hi%Hl. by apply (fr_present _ _ _ _ F). }
  unfold computeInvalidatedHashes.
  eapply (compute_runs_bind _ _ _ (fun g s' => s' = {| cs_graph := g0; cs_calls := c |} /\ g = g0)); [done|]. intros ? ? [-> ->].
  assert (forall i, i ∈ sort_func (fun i j => bcompare (name_string g0 i) (name_string g0 j)) (set_range inv) <-> i ∈ inv) as Hin.
  { intros i. rewrite sort_func_perm. apply (elem_of_set_range set_range set_range_perm). }
  eapply compute_runs_bind; [apply compute_all_runs; [done|done|]|].
  { apply Hpres. intros i [Hi _]%list_elem_of_filter. done. }
  cbn beta. intros [] s1 [[C1 U1] _].
  assert (size (unhashed_ids (cs_graph s1)) < fuel)%nat as Hf1 by (eapply Nat.le_lt_trans; [by apply subseteq_size|done]).
  eapply compute_runs_bind; [apply compute_all_runs; [done|done|]|].
  { apply Hpres. intros i [_ Hi]%list_elem_of_filter. by apply Hin. }
  cbn beta. intros [] s2 [[C2 U2] _].
  assert (size (unhashed_ids (cs_graph s2)) < fuel)%nat as Hf2 by (eapply Nat.le_lt_trans; [by apply subseteq_size|done]).
  eapply compute_runs_mono; [apply compute_all_runs; [done|done|]|].
  { apply Hpres. intros i. apply Hin. }
  cbn beta. intros [] s3 [[C3 U3] Hall]. split; [done|]. intros i t Hi Hu.
  rewrite Forall_forall in Hall. apply (Hall i); [|apply Hi|done].
  apply Hin. apply (fr_missing _ _ _ _ F i t Hi).
  apply elem_of_unhashed in Hu as (x & Hx & Hh). pose proof (unhashed_original _ _ _ _ C3 Hx Hh) as Hx0.
  destruct Hi. assert (t = x) as -> by congruence. done.
Qed.

(** ** The graph after hashing *)

Section after.
Context (g : OptimizedGraph) (C : computing ∅ g) (Hall : forall i t, internal g0 i t -> i ∉ unhashed_ids g).

Lemma after_is_external i : is_external g i <-> is_external g0 i.
Proof. unfold is_external. by rewrite (co_externals _ _ C). Qed.

Lemma after_wf : wf g.
Proof.
  pose proof W as [[] Wl]. constructor; [constructor|].
  - intros i t' (t & Ht & E & _)%(co_target _ _ C). rewrite E. exact (wf_ids i t Ht).
  - by rewrite (co_names _ _ C).
  - intros i [t' (t & Ht & _)%(co_target _ _ C)]. rewrite (co_names _ _ C). apply wf_named. by exists t.
  - intros i. rewrite (co_names _ _ C). replace (NextTargetID g) with (NextTargetID g0) by by rewrite <- (co_rest _ _ C). apply wf_next.
  - by rewrite (co_rules _ _ C).
  - by rewrite (co_rules _ _ C).
  - intros i t' (t & Ht & E & _)%(co_target _ _ C). rewrite E, (co_rules _ _ C). exact (wf_rule i t Ht).
  - intros i r. rewrite (co_externals _ _ C). intros Hr. destruct (wf_shared i r Hr) as [-> [t Ht]]. split; [done|].
    destruct (co_present _ _ C i t Ht) as (t' & Ht' & _). by exists t'.
  - intros i t' d [(t & Ht & E & _)%(co_target _ _ C) He] Hd. rewrite after_is_external in He. rewrite E in Hd.
    destruct (Wl i t d) as (td & Htd & Hr); [done|done|]. destruct (co_present _ _ C d td Htd) as (td' & Htd' & Ed & _).
    exists td'. split; [done|]. rewrite Ed. done.
Qed.

Lemma after_node i : node set_range g i = node set_range g0 i.
Proof.
  destruct (decide (is_external g0 i)) as [He|He].
  { destruct (co_external_target _ _ C i He) as (t & Ht & ->). unfold node. by rewrite Ht. }
  unfold node. rewrite (co_not_external _ _ C i He).
  rewrite (external_target_None g0 i He).
  pose proof (co_targets _ _ C i) as Ho. destruct (OptimizedTargets g0 !! i) as [t|] eqn:Et; inversion Ho as [? t' [E K]|]; subst; [|done].
  cbn. f_equal. assert (forall rt, rule_type g rt = rule_type g0 rt) as Ert by (intros rt; unfold rule_type; by rewrite (co_rules _ _ C)).
  assert (given g t' <-> given g0 t) as Eg by (unfold given; by rewrite E, Ert).
  unfold node_of. destruct (decide (given g t')) as [Hg'|Hg'], (decide (given g0 t)) as [Hg|Hg]; [|tauto|tauto|].
  - destruct (it_Hash t) as [h|] eqn:Eh; [by rewrite (K (or_introl (mk_is_Some (Some h) h eq_refl))), Eh|].
    exfalso. apply (co_given _ _ C i t ltac:(done) Eh); [set_solver|by apply (Hall i t)|done].
  - rewrite E, Ert. cbn [it_RuleType it_Deps it_HashWithoutDeps set_it_hash]. case_decide; [done|].
    by rewrite (sorted_deps_names g g0 _ (co_names _ _ C)).
Qed.

Lemma after_fresh : fresh sha1 set_range g ∅.
Proof.
  constructor.
  - intros i Hi. by apply elem_of_empty in Hi.
  - intros i t' [Ht' He] Hh. exfalso. rewrite after_is_external in He. destruct (co_target _ _ C i t' Ht') as (t & Ht & _).
    apply (Hall i t); [done|]. apply elem_of_unhashed. eauto.
  - intros i t' d Hi _ _ Hd. destruct (decide (is_external g d)) as [|Hx]; [by left|right].
    destruct (wf_links _ after_wf i t' d Hi Hd) as (td & Htd & _). destruct (it_Hash td) as [h|] eqn:Eh; [by exists td, h|].
    exfalso. rewrite after_is_external in Hx. destruct (co_target _ _ C d td Htd) as (t & Ht & _).
    apply (Hall d t); [done|]. apply elem_of_unhashed. eauto.
  - intros i t' h k h' [Ht' He] Hh Hk. rewrite after_is_external in He. destruct (co_target _ _ C i t' Ht') as (t & Ht & _).
    apply (co_done _ _ C i t t' h k h'); [done|done|done|set_solver|].
    refine (digest_agree sha1 _ _ (fun _ => True) _ _ k i h' Logic.I Hk); [|done]. intros j _. symmetry. apply after_node.
Qed.
End after.
End hash.
