(* ===== verification/ItgRun.v ===== *)
(** A whole update of the incremental graph: what is deleted goes, the query's targets are
    inserted in topological order, and the invariants hold before the hashing. *)
From Stdlib Require Import ZArith Lia.
From stdpp Require Import gmap fin_maps.
From S2P Require Import Prelude Bfs RuleHash SourceHash TargetHasher Toposort Mapper Itg ItgUpdate ItgInvalidate ItgInvariant ItgOps ItgRemove ItgHash.

Local Open Scope Z_scope.

Section run.
Context (sha1 : bytes -> bytes) (attribute_string : Z).
Context (set_range : gset Z -> list Z) (names_range : gset bytes -> list bytes).
Context (targets_range : gmap bytes HTarget -> list (bytes * HTarget)) (ids_range : gmap Z ITarget -> list (Z * ITarget)).
Context (set_range_perm : forall s, set_range s ≡ₚ elements s) (names_range_perm : forall s, names_range s ≡ₚ elements s).
Context (targets_range_perm : forall m, targets_range m ≡ₚ map_to_list m).
Context (deletedSrc changedPkgs deletedPkgs : gset bytes).

(** The name of an external rule, of which the update does not delete anything. *)
Definition untouched (targets : HTargets) (n : bytes) : Prop :=
  is_Some (targets !! n) /\ (n ∉ deletedSrc) /\ getPackage n ∉ deletedPkgs.

(** The query's targets under their names: to be hashed, hashed sources, or external rules
    that the graph has. *)
Definition acceptable (g : OptimizedGraph) (targets : HTargets) : Prop := forall n t, targets !! n = Some t -> h_Name t = n /\
  (h_Hash t = None \/ h_RuleType t = SourceFileType \/ h_RuleType t = PackageGroup \/
   (untouched targets n /\ exists i, external_at n i g)).

Lemma fold_res_ind {A B} (P : B -> Prop) (f : B -> A -> res B) l b b' :
  P b -> (forall b a b', a ∈ l -> P b -> f b a = Ok b' -> P b') -> fold_res f b l = Ok b' -> P b'.
Proof.
  revert b. induction l as [|a l IH]; intros b Hb Hf; cbn [fold_res]; [by intros [= <-]|].
  destruct (f b a) as [b1| |] eqn:E; [|done..]. cbn [mbind res_bind]. apply IH.
  - by apply (Hf b a); [left| |].
  - intros b2 a2 b3 Ha. apply Hf. by right.
Qed.

(** The names [X] keep their external rules through the update. *)
Definition steady (targets : HTargets) (g0 : OptimizedGraph) (s : ustate) : Prop :=
  good sha1 set_range s /\ forall n i, untouched targets n -> external_at n i g0 -> external_at n i (us_graph s).

Lemma remove_steady targets g0 target s s' :
  steady targets g0 s -> OptimizedTargets (us_graph s) !! it_ID target = Some target ->
  (forall n, untouched targets n -> tb_ToID (TargetNames (us_graph s)) !! n = Some (it_ID target) -> ~ exists i, external_at n i g0) ->
  removeTarget set_range (Some target) s = Ok s' -> steady targets g0 s'.
Proof.
  intros [G X] Ht Hn H. split; [by eapply removeTarget_good|]. intros n i Hu Hx. pose proof (X n i Hu Hx) as Hxs.
  eapply (removeTarget_external_at set_range set_range_perm); [apply G|done| |done|done].
  intros ->. apply (Hn n Hu); [apply Hxs|by eexists].
Qed.

Lemma deletedSrc_steady targets g0 s s' :
  steady targets g0 s ->
  fold_res (fun s name => match tb_ToID (TargetNames (us_graph s)) !! name with
                          | Some id => removeTarget set_range (OptimizedTargets (us_graph s) !! id) s
                          | None => Ok s
                          end) s (names_range deletedSrc) = Ok s' -> steady targets g0 s'.
Proof.
  intros Hs. apply fold_res_ind; [exact Hs|]. intros s1 name s2 Hname Hs1. rewrite names_range_perm, elem_of_elements in Hname.
  destruct (tb_ToID (TargetNames (us_graph s1)) !! name) as [id|] eqn:E; [|by intros [= <-]].
  destruct (OptimizedTargets (us_graph s1) !! id) as [t|] eqn:Et; [|done]. pose proof (proj1 (proj1 Hs1)) as W.
  pose proof (wf_ids _ W id t Et) as Hid. apply remove_steady; [done|by rewrite Hid|].
  intros n (_ & Hn & _) Hn2 _. rewrite Hid in Hn2. assert (n = name) as ->; [|done].
  apply (wf_names _ W) in E, Hn2. congruence.
Qed.

Lemma checkDeleted_steady targets g0 s s' :
  steady targets g0 s -> checkDeletedTargets set_range targets_range ids_range changedPkgs deletedPkgs targets s = Ok s' -> steady targets g0 s'.
Proof.
  intros Hs. unfold checkDeletedTargets. set (ids := list_to_set _ : gset Z).
  assert (forall n i, untouched targets n -> external_at n i g0 -> i ∈ ids) as Hids.
  { intros n i Hu Hx. pose proof (proj2 Hs n i Hu Hx) as [Hn _]. destruct Hu as [[t Ht] _]. apply elem_of_list_to_set, list_elem_of_omap.
    exists (n, t). split; [|done]. by rewrite targets_range_perm, elem_of_map_to_list. }
  apply fold_res_ind; [done|]. intros s1 it s2 _ Hs1. destruct (OptimizedTargets (us_graph s1) !! it.1) as [t|] eqn:Et; [|by intros [= <-]].
  pose proof (proj1 (proj1 Hs1)) as W. pose proof (wf_ids _ W _ t Et) as Hid.
  case_decide as Hdel; [|by intros [= <-]]. apply remove_steady; [done|by rewrite Hid|].
  intros n Hu Hn [i Hx]. pose proof (proj2 Hs1 n i Hu Hx) as [Hn' _]. assert (i = it_ID t) as -> by congruence.
  assert (name_string (us_graph s1) (it_ID t) = n) as En. { unfold name_string. apply (wf_names _ W) in Hn. by rewrite Hn. }
  rewrite En in Hdel. destruct Hdel as [Hd|[_ Hd]]; [by apply Hu|]. apply Hd. by eapply Hids.
Qed.

Lemma topoSort_same order_ctx fuel targets sorted :
  topoSort targets_range order_ctx fuel targets = Some (Ok sorted) ->
  forall t, t ∈ sorted -> exists n t0, targets !! n = Some t0 /\ same_target t0 t.
Proof.
  unfold topoSort. destruct (GetTopologicalRootsAndIdentifyBuildableRoots targets_range targets) as [roots T'] eqn:E.
  destruct (topological_roots targets_range targets_range_perm targets roots T' E) as [Hs _].
  destruct (toposort_all _ _ _ _) as [[s|e|]|] eqn:Es; [|done..]. intros [= <-] t (n & _ & Ht)%list_elem_of_omap.
  apply toposort_all_same in Es. cbn [ts_targets] in Es.
  destruct (same_targets_lookup targets (ts_targets s) n t (transitivity Hs Es) Ht) as (t0 & Ht0 & Hst). by exists n, t0.
Qed.

Lemma updateInvalidateTargets_good order_ctx fuel targets s s' :
  good sha1 set_range s -> acceptable (us_graph s) targets ->
  updateInvalidateTargets attribute_string set_range names_range targets_range ids_range deletedSrc changedPkgs deletedPkgs
    order_ctx fuel targets s = Some (Ok s') -> good sha1 set_range s'.
Proof.
  intros Hg Ha. assert (steady targets (us_graph s) s) as Hs by (split; [done|auto]). unfold updateInvalidateTargets.
  destruct (fold_res _ s (names_range deletedSrc)) as [s1| |] eqn:E1; [|done..]. cbn [mbind res_bind].
  apply (deletedSrc_steady _ _ _ _ Hs) in E1. destruct (checkDeletedTargets _ _ _ _ _ _ s1) as [s2| |] eqn:E2; [|done..].
  apply (checkDeleted_steady _ _ _ _ E1) in E2.
  destruct (topoSort targets_range order_ctx fuel targets) as [[sorted|e|]|] eqn:Et; [|done..]. intros [= H].
  assert (steady targets (us_graph s) s') as [G _]; [|exact G]. revert H. apply fold_res_ind; [done|].
  intros s3 t s4 Ht Hs3 Hu. destruct (topoSort_same _ _ _ _ Et t Ht) as (n & t0 & Ht0 & Hst).
  destruct (Ha n t0 Ht0) as [Hn Hacc]. pose proof (proj1 (proj1 Hs3)) as W. split.
  - eapply (upsertTarget_good sha1 set_range set_range_perm); [apply Hs3| |exact Hu].
    unfold insertable. rewrite (st_Hash _ _ Hst), (st_RuleType _ _ Hst), (st_Name _ _ Hst), Hn.
    destruct Hacc as [?|[?|[?|(Hun & i & Hi)]]]; [tauto..|]. right. right. right. exists i. by apply (proj2 Hs3).
  - intros m i Hm Hi. eapply (upsertTarget_external_at sha1 set_range set_range_perm); [exact W|exact Hu|]. by apply (proj2 Hs3).
Qed.

(** * External rules *)

Lemma upsertExternalRuleTarget_names t s :
  wf (us_graph s) -> names_external (us_graph s) (h_Name t) ->
  let g' := us_graph (upsertExternalRuleTarget set_range t s) in
  (exists i, external_at (h_Name t) i g') /\ (forall m i, external_at m i (us_graph s) -> external_at m i g') /\
  (forall m i, external_at m i g' -> m = h_Name t \/ external_at m i (us_graph s)) /\
  forall m, names_external (us_graph s) m -> names_external g' m.
Proof.
  destruct s as [g inv]. cbn [us_graph]. intros W Hext.
  destruct (upsertExternalRuleTarget_new set_range set_range_perm t g inv W Hext) as (id & g' & t' & [W' K Hn He Ht] & ->).
  destruct (invalidateHashRecursively_spec set_range set_range_perm (it_ReverseDeps t') {| us_graph := g'; us_invalidated := inv |}) as (D & -> & _).
  cbn zeta. change (us_graph (invalidated D _)) with (set_targets (without D (OptimizedTargets g')) g').
  assert (forall m i, tb_ToID (TargetNames g) !! m = Some i -> tb_ToID (TargetNames g') !! m = Some i) as HID.
  { intros m i Hm. apply (wf_names _ W'). apply (lookup_weaken (tb_IDToString (TargetNames g))); [by apply (wf_names _ W)|apply K]. }
  split; [exists id; split; [by apply (wf_names _ W')|done]|]. split.
  - intros m i [Hm Hx]. split; [by apply HID|]. destruct (decide (i = id)) as [->|Hne]; [done|].
    unfold is_external. cbn. by rewrite (kb_externals _ _ _ K).
  - split.
    { intros m i [Hm Hx]. apply (wf_names _ W') in Hm as Hm'. destruct (decide (i = id)) as [->|Hne]; [left; congruence|right].
      unfold is_external in Hx. cbn in Hx. rewrite (kb_externals _ _ _ K) in Hx by done. destruct Hx as [r Hr]. split; [|by exists r].
      destruct (wf_shared _ W i r Hr) as [_ Hs]. destruct (wf_named _ W i Hs) as [n Hin].
      pose proof (lookup_weaken _ _ _ _ Hin (kb_names _ _ _ K)). apply (wf_names _ W). congruence. }
    intros m Hm i Hi Hp. cbn in Hi. destruct (decide (i = id)) as [->|Hne]; [done|].
    unfold is_external. cbn. rewrite (kb_externals _ _ _ K) by done. cbn in Hp. rewrite lookup_without, fmap_is_Some in Hp.
    destruct Hp as [u Hu]. destruct (kept_target id g g' K i u Hne Hu) as (v & Hv & _).
    apply Hm; [|by exists v]. apply (wf_names _ W). destruct (wf_named _ W i (mk_is_Some _ _ Hv)) as [n Hin]. rewrite Hin.
    pose proof (lookup_weaken _ _ _ _ Hin (kb_names _ _ _ K)) as Hin'. apply (wf_names _ W') in Hi. congruence.
Qed.

(** No update deletes the external rule of the name. *)
Definition spared (n : bytes) : Prop := (n ∉ deletedSrc) /\ getPackage n ∉ deletedPkgs.

(** What the conversion of a query result gives: targets under their names, that are to
    be hashed, or external rules.  (Queries whose external rules have had targets of the
    workspace hashed before the update are not; ItgFull proves it of the queries without
    external rules.) *)
Record queryable (g : OptimizedGraph) (targets : HTargets) : Prop := {
  qu_name : forall n t, targets !! n = Some t -> h_Name t = n;
  qu_hash : forall n t, targets !! n = Some t -> h_RuleType t <> ExternalRuleType -> h_Hash t = None;
  qu_external : forall n t, targets !! n = Some t -> h_RuleType t = ExternalRuleType -> names_external g n /\ spared n;
  qu_spared : forall n i, external_at n i g -> spared n;
}.

Section externals.
Context (g : OptimizedGraph) (targets : HTargets) (Q : queryable g targets).

(** The state while the external rules are updated. *)
Record externals_ok (s : ustate) : Prop := {
  eo_good : good sha1 set_range s;
  eo_spared : forall n i, external_at n i (us_graph s) -> spared n;
  eo_names : forall n t, targets !! n = Some t -> h_RuleType t = ExternalRuleType -> names_external (us_graph s) n;
}.

Definition upsert_one (s : ustate) (nt : bytes * HTarget) : ustate :=
  if decide (h_RuleType nt.2 = ExternalRuleType) then upsertExternalRuleTarget set_range nt.2 s else s.

Lemma upsert_one_ok s n t : externals_ok s -> targets !! n = Some t ->
  externals_ok (upsert_one s (n, t)) /\
  (forall m i, external_at m i (us_graph s) -> external_at m i (us_graph (upsert_one s (n, t)))) /\
  (h_RuleType t = ExternalRuleType -> exists i, external_at n i (us_graph (upsert_one s (n, t)))).
Proof.
  intros [G Hs Hn] Ht. unfold upsert_one. cbn [snd]. case_decide as Hext; [|done].
  pose proof (qu_name _ _ Q n t Ht) as En. pose proof (Hn n t Ht Hext) as Hne. rewrite <- En in Hne.
  destruct (upsertExternalRuleTarget_names t s (proj1 G) Hne) as (Hi & Hkeep & Hnew & Hnames). rewrite En in Hi.
  split; [constructor|by split].
  - by apply (upsertExternalRuleTarget_good sha1 set_range set_range_perm).
  - intros m i [->|Hm]%Hnew; [rewrite En; by apply (qu_external _ _ Q n t)|by eapply Hs].
  - intros m u Hm Hu. apply Hnames. by eapply Hn.
Qed.

Lemma upsert_all_ok l s : (forall n t, (n, t) ∈ l -> targets !! n = Some t) -> externals_ok s ->
  externals_ok (foldl upsert_one s l) /\
  (forall m i, external_at m i (us_graph s) -> external_at m i (us_graph (foldl upsert_one s l))) /\
  forall n t, (n, t) ∈ l -> h_RuleType t = ExternalRuleType -> exists i, external_at n i (us_graph (foldl upsert_one s l)).
Proof.
  revert s. induction l as [|[n t] l IH]; intros s Hl Hs; cbn [foldl]; [split; [done|split; [done|]]; intros n t H; by apply elem_of_nil in H|].
  destruct (upsert_one_ok s n t Hs ltac:(apply Hl; by left)) as (H1 & K1 & N1).
  destruct (IH (upsert_one s (n, t)) ltac:(intros; apply Hl; by right) H1) as (H2 & K2 & N2).
  split; [done|]. split; [auto|]. intros m u [[= -> ->]|Hm]%elem_of_cons Hu; [|by apply (N2 m u)].
  destruct (N1 Hu) as [i Hi]. exists i. by apply K2.
Qed.

Lemma upsert_externals_good :
  wf g -> fresh sha1 set_range g ∅ ->
  let s := upsert_externals set_range targets_range targets {| us_graph := g; us_invalidated := ∅ |} in
  externals_ok s /\ forall n t, targets !! n = Some t -> h_RuleType t = ExternalRuleType -> exists i, external_at n i (us_graph s).
Proof.
  intros W F. cbn zeta. change (upsert_externals _ _ _ _) with (foldl upsert_one {| us_graph := g; us_invalidated := ∅ |} (targets_range targets)).
  assert (forall n t, (n, t) ∈ targets_range targets <-> targets !! n = Some t) as Hr.
  { intros n t. by rewrite targets_range_perm, elem_of_map_to_list. }
  destruct (upsert_all_ok (targets_range targets) {| us_graph := g; us_invalidated := ∅ |}) as (H & _ & N).
  - intros n t. apply Hr.
  - constructor; [done|apply Q|]. intros n t Ht Hext. by apply (qu_external _ _ Q n t).
  - split; [done|]. intros n t Ht. by apply (N n t), Hr.
Qed.
End externals.

(** * The hashes that are available *)

Section available.
Context (externals_range : gmap Z ext_ref -> list (Z * ext_ref)).
Context (externals_range_perm : forall m, externals_range m ≡ₚ map_to_list m).
Context (sort_attrs : list Attribute -> list Attribute) (hash_source : option SourceFile -> res (option bytes)).

(** An external rule of the graph that the query does not list. *)
Definition graph_external (g : OptimizedGraph) (n : bytes) (t : HTarget) : Prop :=
  h_Name t = n /\ h_RuleType t = ExternalRuleType /\ exists i, external_at n i g.

Lemma external_targets_spec g targets n t : wf g ->
  external_targets set_range externals_range g targets !! n = Some t -> targets !! n = Some t \/ graph_external g n t.
Proof.
  intros W. unfold external_targets. assert (forall i r, (i, r) ∈ externals_range (ExternalRuleTargets g) -> is_external g i) as Hl.
  { intros i r. rewrite externals_range_perm, elem_of_map_to_list. by exists r. }
  revert Hl. generalize (externals_range (ExternalRuleTargets g)) as l. intros l. revert targets.
  induction l as [|[i r] l IH]; intros targets Hl; cbn [foldl]; [by left|]. intros [H|H]%IH; [|by right|intros; eapply Hl; by right].
  cbn [fst] in H. destruct (targets !! name_string g i) as [u|] eqn:E; [by left|].
  assert (is_external g i) as Hx by (eapply Hl; by left). destruct Hx as [r' Hr]. destruct (wf_shared _ W i r' Hr) as [-> [u Hu]].
  unfold external_target in H. rewrite Hr, Hu in H. apply lookup_insert_Some in H as [[<- <-]|[_ H]]; [|by left].
  right. split; [done|]. split; [done|]. exists i. split; [|by exists Shared].
  destruct (wf_named _ W i) as [m Hm]; [by exists u|]. unfold name_string. rewrite Hm. by apply (wf_names _ W).
Qed.

Lemma external_targets_keeps g targets n t : targets !! n = Some t -> external_targets set_range externals_range g targets !! n = Some t.
Proof.
  unfold external_targets. generalize (externals_range (ExternalRuleTargets g)) as l. intros l. revert targets.
  induction l as [|[i r] l IH]; intros targets H; cbn [foldl]; [done|]. apply IH. cbn [fst].
  destruct (targets !! name_string g i) as [u|] eqn:E; [done|]. destruct (external_target g i); [|done].
  rewrite lookup_insert_ne; [done|]. congruence.
Qed.

(** A target whose hash may have been computed. *)
Definition available (t t' : HTarget) : Prop := h_Name t' = h_Name t /\ h_RuleType t' = h_RuleType t /\
  (h_Hash t' = h_Hash t \/ h_RuleType t = SourceFileType \/ h_RuleType t = PackageGroup).

Lemma computeAvailableHashes_spec T T' : computeAvailableHashes sha1 sort_attrs hash_source targets_range T = Ok T' ->
  forall n, option_Forall2 available (T !! n) (T' !! n).
Proof.
  intros H. refine (fold_res_ind (fun T' => forall n, option_Forall2 available (T !! n) (T' !! n)) _ _ _ _ _ _ H).
  - intros n. destruct (T !! n); constructor. split; [done|]. split; [done|by left].
  - clear H. intros M [n t] M' Hn HM. rewrite targets_range_perm, elem_of_map_to_list in Hn. cbn [fst snd].
    assert (forall h hwd, h = h_Hash t \/ h_RuleType t = SourceFileType \/ h_RuleType t = PackageGroup ->
      forall m, option_Forall2 available (T !! m) (<[n := set_hash h hwd t]> M !! m)) as Hset.
    { intros h hwd Hh m. destruct (decide (n = m)) as [<-|Hne]; [|by rewrite lookup_insert_ne].
      rewrite lookup_insert_eq, Hn. constructor. by split. }
    case_decide; [by intros [= <-]|]. case_decide; [intros [= <-]; apply Hset; tauto|]. case_decide.
    + destruct (hash_source (h_SourceFile t)) as [[h|]| |]; [|by intros [= <-]|done..]. intros [= <-]. apply Hset. tauto.
    + intros [= <-]. apply Hset. by left.
Qed.

(** ** The whole update *)

Lemma available_acceptable g targets s T :
  queryable g targets -> externals_ok targets s ->
  (forall n t, targets !! n = Some t -> h_RuleType t = ExternalRuleType -> exists i, external_at n i (us_graph s)) ->
  computeAvailableHashes sha1 sort_attrs hash_source targets_range (external_targets set_range externals_range (us_graph s) targets) = Ok T ->
  acceptable (us_graph s) T.
Proof.
  intros Q E Hext HT n t Ht. pose proof (computeAvailableHashes_spec _ _ HT n) as Ho. rewrite Ht in Ho.
  inversion Ho as [u ? (En & Er & Eh) Hu|]; subst.
  assert (forall i, external_at n i (us_graph s) -> untouched T n) as Hun.
  { intros i Hi. destruct (eo_spared _ _ E n i Hi). split; [by exists t|done]. }
  destruct (external_targets_spec (us_graph s) targets n u (proj1 (eo_good _ _ E)) (eq_sym Hu)) as [Hn|(Hn & Hr & i & Hi)].
  - rewrite En, Er. split; [by apply (qu_name _ _ Q)|]. destruct (decide (h_RuleType u = ExternalRuleType)) as [Hr|Hr].
    + right. right. right. destruct (Hext n u Hn Hr) as [i Hi]. split; [by apply (Hun i)|by exists i].
    + destruct Eh as [Eh|[?|?]]; [left; rewrite Eh; by apply (qu_hash _ _ Q n)|by right; left|by right; right; left].
  - rewrite En. split; [done|]. right. right. right. split; [by apply (Hun i)|by exists i].
Qed.
End available.
End run.
