(* ===== verification/ItgFull.v ===== *)
(** What a full hashing ([fromProto]) gives an incremental graph: in Bzlmod mode, for a
    query without cycles, a result whose hashes are the digests of what its targets
    describe. *)
From Stdlib Require Import ZArith Lia.
From stdpp Require Import gmap fin_maps.
From S2P Require Import Prelude Bfs RuleHash SourceHash TargetHasher HasherSpec Toposort Mapper Itg ItgUpdate ItgInvalidate ItgInvariant ItgNames ItgOps ItgRemove ItgBuild ItgHash ItgRun.

Local Open Scope nat_scope.

(** * Merkle hashes and digests *)

(** A target as the conversion of a query makes it; only files have a hash already, that
    of their repository. *)
Record plain_target (n : bytes) (t : HTarget) : Prop := {
  pl_name : h_Name t = n;
  pl_kind : h_RuleType t <> ExternalRuleType;
  pl_once : NoDup (h_Deps t);
  pl_sorted : StronglySorted (cle bcompare) (h_Deps t);
  pl_generated : h_RuleType t = GeneratedFileType -> exists d, h_Deps t = [d];
  pl_leaf : h_RuleType t = SourceFileType \/ h_RuleType t = PackageGroup -> h_Deps t = [];
  pl_hash : is_Some (h_Hash t) -> h_RuleType t = SourceFileType;
}.

Lemma same_hashed T T' n : same_targets T T' -> is_hashed T n -> is_hashed T' n.
Proof.
  intros Hs [h (t & Ht & Hh)%bind_Some]. pose proof (Hs n) as Ho. rewrite Ht in Ho. inversion Ho as [? t' Hst E1 E2|].
  exists h. rewrite <- E2. cbn. by rewrite (st_Hash _ _ Hst).
Qed.

Section merkle.
Context (parse : bytes -> BazelLabel) (sha1 : bytes -> bytes) (sort_attrs : list Attribute -> list Attribute).
Context (hash_source : option SourceFile -> res (option bytes)) (join_path : bytes -> bytes -> bytes) (p : HashParam).
Context (bzlmod : hp_UseBzlmod p = true) (included : forall n, hp_Excluded p n = false).

Abbreviation merkle_of := (merkle parse sha1 sort_attrs hash_source join_path p).

Lemma no_collapse T n : collapses parse p T n = false.
Proof. unfold collapses, collapsible. by rewrite bzlmod. Qed.

Lemma merkle_unhashed T k n : T !! n ≫= h_Hash = None ->
  merkle_of T (S k) n = (t ← target_of parse join_path T n; target_hash sha1 sort_attrs hash_source (merkle_of T k) n t).
Proof. intros Hn. cbn [merkle]. by rewrite Hn, no_collapse, included. Qed.

Lemma written_leaf n t : plain_target n t -> written_deps t = h_Deps t.
Proof.
  intros P. unfold written_deps. case_decide; [symmetry; by apply (pl_leaf n t P); left|]. case_decide.
  { by destruct (pl_generated n t P) as [d ->]. } case_decide; [symmetry; by apply (pl_leaf n t P); right|done].
Qed.

Lemma synthetic_plain n : plain_target n (synthetic parse join_path n).
Proof. constructor; cbn; [done|done|apply NoDup_nil_2|constructor|done|done|by intros []]. Qed.

Lemma target_of_plain T n t : (forall n t, T !! n = Some t -> plain_target n t) -> target_of parse join_path T n = Some t -> plain_target n t.
Proof.
  intros HT. unfold target_of. destruct (T !! n) as [u|] eqn:E; [intros [= <-]; by apply HT|]. case_decide; [|done].
  intros [= <-]. apply synthetic_plain.
Qed.

(** A target with a Merkle hash has them below it. *)
Lemma merkle_below T k n t d : T !! n = Some t -> plain_target n t -> is_Some (merkle_of T (S k) n) -> d ∈ h_Deps t -> is_Some (merkle_of T k d).
Proof.
  intros Hn P Hm Hd. destruct (h_Hash t) as [h|] eqn:Eh.
  { rewrite (pl_leaf n t P) in Hd; [by apply elem_of_nil in Hd|]. left. by apply (pl_hash n t P). }
  rewrite merkle_unhashed in Hm by (by rewrite Hn). unfold target_of in Hm. rewrite Hn in Hm. cbn [mbind option_bind] in Hm. unfold target_hash in Hm.
  case_decide as H1; [rewrite (pl_leaf n t P (or_introl H1)) in Hd; by apply elem_of_nil in Hd|]. case_decide as H2.
  { destruct (pl_generated n t P H2) as [e Ee]. rewrite Ee in Hd, Hm. apply list_elem_of_singleton in Hd as ->. exact Hm. }
  case_decide as H3; [rewrite (pl_leaf n t P (or_intror H3)) in Hd; by apply elem_of_nil in Hd|].
  destruct Hm as [h (hs & Hhs%mapM_Some & _)%bind_Some]. apply list_elem_of_lookup in Hd as [i Hi].
  destruct (Forall2_lookup_l _ _ _ _ _ Hhs Hi) as (y & _ & Hy). by exists y.
Qed.

Section hashed.
(** From [T] the hashing has made [T'], whose dependencies have been sorted in [T'']. *)
Context (T T' T'' : HTargets) (plain : forall n t, T !! n = Some t -> plain_target n t).
Context (Hok : hashing_ok parse sha1 sort_attrs hash_source join_path p T ∅ T').
Context (Hall : forall n, is_Some (T !! n) -> is_hashed T' n) (Hsame : same_targets T' T'').

Lemma finished_hashed n t : T' !! n = Some t -> is_Some (h_Hash t).
Proof.
  intros Hn. destruct (h_Hash t) as [h|] eqn:E; [by exists h|]. pose proof (ho_unhashed _ _ _ _ _ _ _ _ _ Hok n t Hn E) as H0.
  destruct (Hall n) as [h Hh]; [by exists t|]. rewrite Hn in Hh. cbn in Hh. congruence.
Qed.

(** A target of the result is the one of the query with its hashes, its dependencies are hashed. *)
Lemma finished_target n t' : T' !! n = Some t' ->
  (T !! n = Some t' /\ h_RuleType t' = SourceFileType) \/
  (T !! n ≫= h_Hash = None /\ made_from parse sha1 sort_attrs join_path T T' n t').
Proof.
  intros Hn. destruct (T !! n ≫= h_Hash) as [h|] eqn:E.
  - left. apply bind_Some in E as (t & Ht & Hh). pose proof (ho_kept _ _ _ _ _ _ _ _ _ Hok n t Ht ltac:(by exists h)) as H'.
    assert (t = t') as -> by congruence. split; [done|]. apply (pl_hash n t'); [by apply plain|by exists h].
  - right. split; [done|]. destruct (ho_made _ _ _ _ _ _ _ _ _ Hok n t' Hn (finished_hashed n t' Hn) E (no_collapse T n) (included n)) as [H|H]; [|done].
    by apply elem_of_empty in H.
Qed.

Lemma finished_plain n t' : T' !! n = Some t' -> plain_target n (set_hash None None t') /\ Forall (is_hashed T') (h_Deps t').
Proof.
  intros Hn. destruct (finished_target n t' Hn) as [[Ht Hs]|[_ (t & Ht & -> & Hd)]].
  - pose proof (plain n t' Ht) as P. rewrite (pl_leaf n t' P) by by left. split; [destruct P; constructor; try done; by intros []|constructor].
  - pose proof (target_of_plain T n t plain Ht) as P. rewrite (written_leaf n t P) in Hd.
    split; [destruct P; constructor; try done; by intros []|done].
Qed.

Lemma sorted_again l l' : l' ≡ₚ l -> NoDup l -> StronglySorted (cle bcompare) l -> sort_func bcompare (remove_dups l') = l.
Proof.
  intros Hp Hn Hs. apply sort_func_unique; [done|]. apply NoDup_Permutation; [apply NoDup_remove_dups|done|].
  intros x. by rewrite elem_of_remove_dups, Hp.
Qed.

(** What the result describes has the Merkle hash for its digest. *)
Lemma merkle_digest k n h : merkle_of T k n = Some h -> is_hashed T' n -> digest sha1 (describe_target T'') k n = Some h.
Proof.
  revert n h. induction k as [|k IH]; intros n h Hm [x Hx]; [done|]. apply bind_Some in Hx as (t' & Ht' & Hx). pose proof (Hsame n) as Ho. rewrite Ht' in Ho.
  inversion Ho as [? t'' Hst E1 E2|]; subst. destruct Hst as [_ Sh Sw Sr Sd]. cbn [digest]. unfold describe_target. rewrite <- E2.
  cbn [fmap option_fmap option_map mbind option_bind]. unfold target_node. rewrite Sh, Sw, Sr.
  assert (h_Hash t' = Some h) as Hh.
  { destruct (ho_hashed _ _ _ _ _ _ _ _ _ Hok n t' x Ht' Hx) as [Hb|[j Hj]]; [by apply elem_of_empty in Hb|].
    rewrite Hx. f_equal. by eapply merkle_functional. }
  destruct (finished_plain n t' Ht') as [P Hdeps].
  destruct (finished_target n t' Ht') as [[Ht Hs]|[Hno (t & Ht & E & _)]]; [by rewrite decide_True by tauto|].
  rewrite merkle_unhashed, Ht in Hm by done. cbn [mbind option_bind] in Hm. unfold target_hash in Hm.
  assert (h_RuleType t' = h_RuleType t /\ h_Deps t' = h_Deps t /\ h_HashWithoutDeps t' = own_hash sha1 sort_attrs t) as (Er & Ed & Ew) by by rewrite E.
  pose proof (pl_kind _ _ P) as Hk. pose proof (pl_once _ _ P) as Hnd. pose proof (pl_sorted _ _ P) as Hso. pose proof (pl_generated _ _ P) as Hg.
  cbn [h_RuleType h_Deps set_hash] in Hk, Hnd, Hso, Hg. rewrite <- Er, <- Ed in Hm. rewrite Ew. unfold own_hash. rewrite <- Er.
  destruct (decide (h_RuleType t' = ExternalRuleType \/ h_RuleType t' = SourceFileType \/ h_RuleType t' = PackageGroup)) as [_|Hrule]; [done|].
  rewrite decide_False in Hm by tauto. destruct (decide (h_RuleType t' = GeneratedFileType)) as [Hgen|Hgen].
  { destruct (Hg Hgen) as [d Ed']. rewrite Ed' in Sd, Hm, Hdeps. apply Permutation_singleton_r in Sd as ->. cbn [node_digest].
    apply Forall_cons in Hdeps as [Hd _]. by apply IH. }
  rewrite decide_False in Hm by tauto. rewrite decide_False by tauto. apply bind_Some in Hm as (hs & Hhs & [= <-]).
  cbn [node_digest mbind option_bind]. rewrite (sorted_again (h_Deps t')) by done. apply bind_Some. exists hs. split; [|done].
  apply mapM_Some. apply mapM_Some in Hhs. clear -IH Hhs Hdeps. induction Hhs as [|d y l k' Hy _ IHl]; constructor.
  - apply Forall_cons in Hdeps as [Hd _]. by apply IH.
  - apply Forall_cons in Hdeps as [_ Hdeps]. by apply IHl.
Qed.

Lemma finished_lookup n t'' : T'' !! n = Some t'' -> exists t', T' !! n = Some t' /\ same_target t' t'' /\ is_Some (h_Hash t') /\
  plain_target n (set_hash None None t') /\ Forall (is_hashed T') (h_Deps t') /\ exists k, merkle_of T k n = h_Hash t'.
Proof.
  intros Hn. destruct (same_targets_lookup _ _ _ _ Hsame Hn) as (t' & Ht' & Hst). exists t'. destruct (finished_plain n t' Ht') as [P Hd].
  split_and!; [done..|by apply (finished_hashed n)|done|done|]. destruct (finished_hashed n t' Ht') as [h Hh].
  destruct (ho_hashed _ _ _ _ _ _ _ _ _ Hok n t' h Ht' Hh) as [Hb|[k Hk]]; [by apply elem_of_empty in Hb|]. exists k. by rewrite Hh.
Qed.

(** The hashes are the digests. *)
Lemma finished_digest n t'' : T'' !! n = Some t'' -> exists k h, digest sha1 (describe_target T'') k n = Some h /\ h_Hash t'' = Some h.
Proof.
  intros Hn. destruct (finished_lookup n t'' Hn) as (t' & Ht' & [_ Sh _ _ _] & [h Hh] & _ & _ & k & Hk). exists k, h.
  split; [|congruence]. apply merkle_digest; [congruence|]. exists h. by rewrite Ht'.
Qed.

Lemma finished_settled : settled sha1 T''.
Proof.
  constructor.
  - intros n t Hn. destruct (finished_lookup n t Hn) as (t' & _ & [Sn _ _ _ _] & _ & P & _). rewrite Sn. apply P.
  - intros n t d Hn _ Hd. destruct (finished_lookup n t Hn) as (t' & _ & [_ _ _ _ Sd] & _ & _ & Hds & _). rewrite Sd in Hd.
    rewrite Forall_forall in Hds. destruct (Hds d Hd) as (h & (td & Htd & _)%bind_Some). apply (same_targets_is_Some _ _ d Hsame). by exists td.
  - intros n t Hn Hg. destruct (finished_lookup n t Hn) as (t' & _ & [_ _ _ Sr Sd] & _ & P & _). rewrite Sr in Hg.
    destruct (pl_generated _ _ P Hg) as [d Ed]. cbn in Ed. rewrite Ed in Sd. exists d. by apply Permutation_singleton_r in Sd.
  - intros n t Hn. destruct (finished_digest n t Hn) as (k & h & _ & Hh). by exists h.
  - intros n t k h Hn Hk. destruct (finished_digest n t Hn) as (j & x & Hj & ->). f_equal. by eapply digest_functional.
Qed.
End hashed.
End merkle.

(** * A full hashing *)

(** What decides a full hashing; the sources, the files of the markers and the contexts
    are as it finds them. *)
Record FullHashing := {
  fh_source : option SourceFile -> res (option bytes);
  fh_param : HashParam;
  fh_sequential : list bytes;
  fh_markers : gmap bytes bytes;
  fh_mapping : gmap bytes bytes;
  fh_ctx : Z -> bool;
  fh_order_ctx : Z -> bool;
  fh_cancelled : bool;
  fh_fuel : nat;
  fh_query : list QueryTarget;
}.

(** A rule of a class of its own that lists an input once. *)
Record plain_rule (ru : Rule) : Prop := {
  pr_class : get_string (ru_RuleClass ru) ∉ [SourceFileType; GeneratedFileType; PackageGroup; ExternalRuleType];
  pr_inputs : NoDup (ru_RuleInput ru);
}.

(** A query in Bzlmod mode: without rules of a WORKSPACE file. *)
Definition plain_query (r : list QueryTarget) : Prop :=
  forall t, t ∈ r -> ~ external_rule t /\ forall ru, qt_Rule t = Some ru -> plain_rule ru.

Section convert.
Context (parse : bytes -> BazelLabel) (sha1 : bytes -> bytes) (sort_attrs : list Attribute -> list Attribute) (attribute_string_list : Z).

Abbreviation internal_targets := (GetInternalTargetsWithoutHashAndRootInfo parse sha1 sort_attrs attribute_string_list).

(** Before the hashing no target has a hash. *)
Definition converted (n : bytes) (t : HTarget) : Prop := plain_target n t /\ h_Hash t = None.

Lemma toTarget_converted t h : toTarget parse sha1 sort_attrs attribute_string_list t = Ok h ->
  ~ external_rule t -> (forall ru, qt_Rule t = Some ru -> plain_rule ru) -> converted (h_Name h) h.
Proof.
  unfold toTarget. destruct (qt_Type t) as [[]|]; [..|done].
  - intros H Hx Hp. destruct (qt_Rule t) as [ru|] eqn:Er; [|by case_match].
    rewrite (not_true_is_false (has_prefix externalWorkspaceRulePrefix (rule_name (Some ru)))) in H.
    2:{ intros E. apply Hx. unfold external_rule. by rewrite Er. }
    injection H as <-. destruct (Hp ru eq_refl) as [Hc Hn]. rewrite !not_elem_of_cons in Hc. destruct Hc as (C1 & C2 & C3 & C4 & _).
    split; [constructor; cbn [h_Name h_RuleType h_Deps h_Hash]; try done|done].
    + unfold rule_deps. rewrite sort_func_perm. by apply NoDup_filter.
    + unfold rule_deps. apply sort_func_sorted, _.
    + by intros [].
  - intros [= <-] _ _. split; [constructor; cbn; [done|done|apply NoDup_nil_2|constructor|done|done|by intros []]|done].
  - destruct (default ([], []) (qt_GeneratedFile t)) as [name rule]. intros [= <-] _ _.
    split; [constructor; cbn; [done|done|apply NoDup_singleton|repeat constructor|by eexists|by intros []|by intros []]|done].
  - intros [= <-] _ _. split; [constructor; cbn; [done|done|apply NoDup_nil_2|constructor|done|done|by intros []]|done].
  - done.
Qed.

Lemma each_elem {A B} (f : A -> res B) l ys y : each f l = Ok ys -> y ∈ ys -> exists x, x ∈ l /\ f x = Ok y.
Proof.
  revert ys. induction l as [|x l IH]; intros ys; cbn [each]; [intros [= <-]; by intros ?%elem_of_nil|].
  intros (z & Hz & H)%bind_Ok. apply bind_Ok in H as (zs & Hzs & [= <-]). intros [->|Hy]%elem_of_cons.
  - exists x. split; [by left|done].
  - destruct (IH zs Hzs Hy) as (x' & ? & ?). exists x'. split; [by right|done].
Qed.

Lemma add_targets_lookup T l n t : add_targets T l !! n = Some t -> T !! n = Some t \/ (t ∈ l /\ h_Name t = n).
Proof.
  unfold add_targets. revert T. induction l as [|u l IH]; intros T; cbn [foldl]; [by left|].
  intros [H|[H1 H2]]%IH; [|right; split; [by right|done]].
  apply lookup_insert_Some in H as [[<- <-]|[_ H]]; [right; split; [by left|done]|by left].
Qed.

Lemma internal_targets_converted cancelled r T n t : plain_query r -> internal_targets cancelled r = Ok T -> T !! n = Some t -> converted n t.
Proof.
  intros Hq. unfold GetInternalTargetsWithoutHashAndRootInfo. intros (l & Hl & [= <-])%bind_Ok.
  intros [H|[Ht <-]]%add_targets_lookup; [by apply lookup_empty_Some in H|].
  unfold convertProtosToTargets in Hl. destruct (each_elem _ _ _ _ Hl Ht) as (q & [_ Hin]%list_elem_of_filter & Hto).
  apply bind_Ok in Hto as (u & _ & Hto). destruct (Hq q Hin) as [Hx Hp]. by apply (toTarget_converted q).
Qed.

(** A query without rules of a WORKSPACE file adds none. *)
Lemma no_external_rules hash_source join_path ctx cancelled p fuel r s : plain_query r ->
  HashExternalTargets parse sha1 sort_attrs attribute_string_list hash_source join_path ctx cancelled p fuel r s = Some (Ok (), s).
Proof.
  intros Hq. assert (filter external_rule r = []) as E.
  { destruct (filter external_rule r) as [|t l] eqn:E; [done|]. exfalso. assert (t ∈ filter external_rule r) as Ht by (rewrite E; by left).
    apply list_elem_of_filter in Ht as [Hx Ht]. by apply (Hq t Ht). }
  unfold HashExternalTargets. rewrite E. by destruct s.
Qed.
End convert.

(** ** The markers of repositories *)

Section markers.
Context (sha1 : bytes -> bytes) (excluded : bytes -> bool) (repos : gset bytes) (markers mapping : gmap bytes bytes).
Context (range : HTargets -> list (bytes * HTarget)) (range_perm : forall m, range m ≡ₚ map_to_list m).

(** A target that may have got the hash of its repository. *)
Definition marked (t t' : HTarget) : Prop :=
  t' = t \/ ((h_RuleType t = SourceFileType \/ h_RuleType t = GeneratedFileType) /\ exists h, t' = set_hash (Some h) (Some h) t).

Lemma collapse_target_marked (T : HTargets) (st st' : HTargets * gmap bytes bytes) n t : T !! n = Some t -> (forall m, option_Forall2 marked (T !! m) (st.1 !! m)) ->
  collapse_target sha1 excluded repos markers mapping st (n, t) = Ok st' -> forall m, option_Forall2 marked (T !! m) (st'.1 !! m).
Proof.
  destruct st as [M hs]. cbn [fst]. intros Hn HM. unfold collapse_target. cbn [fst snd].
  destruct (resolveBzlmodRepo (h_Name t) mapping) as [repo from].
  destruct (shouldCollapseToBzlmodRepo excluded repos t repo) eqn:Es; cbn [negb]; [|by intros [= <-]].
  unfold shouldCollapseToBzlmodRepo in Es. rewrite !andb_true_iff, !bool_decide_eq_true in Es. destruct Es as [[[_ Hk] _] _].
  assert (forall h m, option_Forall2 marked (T !! m) (<[n := set_hash (Some h) (Some h) t]> M !! m)) as Hset.
  { intros h m. destruct (decide (n = m)) as [<-|Hne]; [|by rewrite lookup_insert_ne]. rewrite lookup_insert_eq, Hn. constructor. right. eauto. }
  destruct (_ && _); [by intros [= <-]|]. destruct (hs !! repo); [intros [= <-]; apply Hset|].
  destruct (default [] (markers !! repo)); [case_decide; [by intros [= <-]|done]|]. intros [= <-]. apply Hset.
Qed.

Lemma markers_marked (T T' : HTargets) : HashExternalTargetsBzlmod sha1 excluded repos markers mapping range T = Ok T' ->
  forall n, option_Forall2 marked (T !! n) (T' !! n).
Proof.
  unfold HashExternalTargetsBzlmod.
  assert (forall n, option_Forall2 marked (T !! n) (T !! n)) as Hrefl by (intros n; destruct (T !! n); constructor; by left).
  case_decide; [by intros [= <-]|]. intros ([M hs] & HM & [= <-])%bind_Ok.
  assert (forall l (st st' : HTargets * gmap bytes bytes), (forall n t, (n, t) ∈ l -> T !! n = Some t) -> (forall m, option_Forall2 marked (T !! m) (st.1 !! m)) ->
    fold_res (collapse_target sha1 excluded repos markers mapping) st l = Ok st' -> forall m, option_Forall2 marked (T !! m) (st'.1 !! m)) as Hf.
  { induction l as [|[n t] l IH]; intros st st' Hl Hst; cbn [fold_res]; [by intros [= <-]|]. intros (st1 & H1 & H2)%bind_Ok.
    apply (IH st1 st'); [intros m u Hm; apply Hl; by right| |done]. eapply collapse_target_marked; [apply Hl; by left|exact Hst|exact H1]. }
  apply (Hf (range T) (T, ∅) (M, hs)); [|done|done]. intros n t. by rewrite range_perm, elem_of_map_to_list.
Qed.
End markers.

(** ** The hashing *)

Lemma HM_bind_Ok {A B} (m : HM A) (f : A -> HM B) s b s' :
  (m ≫= f) s = Some (Ok b, s') -> exists a s1, m s = Some (Ok a, s1) /\ f a s1 = Some (Ok b, s').
Proof. unfold mbind, HM_bind. destruct (m s) as [[[a|e|] s1]|]; [|done..]. eauto. Qed.

Section full.
Context (parse : bytes -> BazelLabel) (sha1 : bytes -> bytes) (sort_attrs : list Attribute -> list Attribute).
Context (attribute_string_list : Z) (join_path : bytes -> bytes -> bytes).
Context (range : HTargets -> list (bytes * HTarget)) (range_perm : forall m, range m ≡ₚ map_to_list m).

(** The targets as the hashing finds them: converted, the files of the repositories with
    the hashes of their markers, the roots flagged. *)
Definition prepared (F : FullHashing) : res (list bytes * HTargets) :=
  targets ← GetInternalTargetsWithoutHashAndRootInfo parse sha1 sort_attrs attribute_string_list (fh_cancelled F) (fh_query F);
  targets ← HashExternalTargetsBzlmod sha1 (hp_Excluded (fh_param F)) (hp_FullHashRepos (fh_param F)) (fh_markers F) (fh_mapping F) range targets;
  Ok (GetTopologicalRootsAndIdentifyBuildableRoots range targets).

Abbreviation merkle_in F := (merkle parse sha1 sort_attrs (fh_source F) join_path (fh_param F)).

(** A full hashing that the incremental graph can continue: in Bzlmod mode, of real hashes,
    without exclusions, of a plain query; no generated file was given the hash of its
    repository, and every target has a Merkle hash: none reaches a cycle, and every source
    can be hashed. *)
Record regular (F : FullHashing) : Prop := {
  re_hashes : hp_noOp (fh_param F) = false;
  re_bzlmod : hp_UseBzlmod (fh_param F) = true;
  re_included : forall n, hp_Excluded (fh_param F) n = false;
  re_query : plain_query (fh_query F);
  re_generated : forall roots T n t, prepared F = Ok (roots, T) -> T !! n = Some t -> h_RuleType t = GeneratedFileType -> h_Hash t = None;
  re_merkle : forall roots T, prepared F = Ok (roots, T) -> exists depth, forall n, is_Some (T !! n) -> is_Some (merkle_in F T depth n);
}.

(** The full hashing returns the result. *)
Definition returns (F : FullHashing) (result : Result) : Prop :=
  exists s, fromProto parse sha1 sort_attrs attribute_string_list (fh_source F) join_path range (fh_ctx F) (fh_order_ctx F) (fh_cancelled F)
    (fh_param F) (fh_sequential F) (fh_markers F) (fh_mapping F) (fh_fuel F) (fh_query F) {| hs_targets := ∅; hs_calls := 0%Z |} = Some (Ok result, s).

Lemma same_target_plain n t t' : same_target t t' -> h_Deps t' = h_Deps t -> plain_target n t -> plain_target n t'.
Proof. intros [Sn Sh Sw Sr _] Sd []. constructor; by rewrite ?Sn, ?Sh, ?Sr, ?Sd. Qed.

(** Flagging the roots keeps the dependencies as they are. *)
Lemma roots_deps T roots T' : GetTopologicalRootsAndIdentifyBuildableRoots range T = (roots, T') ->
  forall n t', T' !! n = Some t' -> exists t, T !! n = Some t /\ h_Deps t' = h_Deps t.
Proof.
  unfold GetTopologicalRootsAndIdentifyBuildableRoots. set (f := fun '(roots, targets) nt => _).
  assert (forall l rs (M : HTargets), (forall n t, (n, t) ∈ l -> T !! n = Some t) ->
    (forall n t', M !! n = Some t' -> exists t, T !! n = Some t /\ h_Deps t' = h_Deps t) ->
    forall n t', (foldl f (rs, M) l).2 !! n = Some t' -> exists t, T !! n = Some t /\ h_Deps t' = h_Deps t) as Hf.
  { induction l as [|[n t] l IH]; intros rs M Hl HM; cbn [foldl]; [exact HM|]. unfold f at 2. cbn [fst snd].
    case_decide; [apply IH; [set_solver|done]|]. apply IH; [intros m u Hm; apply Hl; by right|].
    destruct (CanBeRoot (h_RuleType t)); [|done]. intros m t' [[<- <-]|[_ Hm]]%lookup_insert_Some; [|by apply HM].
    exists t. split; [apply Hl; by left|done]. }
  destruct (foldl f ([], T) (range T)) as [rs M] eqn:E. intros [= _ <-] n t' Hn.
  eapply (Hf (range T) [] T); [intros m t; apply (elem_of_table_range range range_perm)|by eauto|by rewrite E].
Qed.

Lemma prepared_plain F roots T : regular F -> prepared F = Ok (roots, T) ->
  (forall n t, T !! n = Some t -> plain_target n t) /\
  forall n, n ∈ roots <-> is_Some (T !! n) /\ forall m t, T !! m = Some t -> n ∉ h_Deps t.
Proof.
  intros Hr Hp. pose proof Hp as Hp'. unfold prepared in Hp'. apply bind_Ok in Hp' as (T0 & H0 & H1). apply bind_Ok in H1 as (T1 & H1 & [= H2]).
  destruct (topological_roots range range_perm T1 roots T H2) as [Hs Hroots]. split.
  - intros n t Hn. destruct (roots_deps T1 roots T H2 n t Hn) as (t1 & Ht1 & Hd). pose proof (Hs n) as Ho. rewrite Ht1, Hn in Ho.
    inversion Ho as [? ? Hst|]; subst. pose proof (markers_marked sha1 _ _ _ _ range range_perm T0 T1 H1 n) as Hm. rewrite Ht1 in Hm.
    inversion Hm as [t0 ? Hmk E0|]; subst. destruct (internal_targets_converted parse sha1 sort_attrs attribute_string_list _ _ T0 n t0 (re_query _ Hr) H0 (eq_sym E0)) as [P Hh].
    apply (same_target_plain n t1); [done|done|]. destruct Hmk as [->|[[Hk|Hk] [h E]]]; [done|..].
    + rewrite E. destruct P. by constructor.
    + pose proof (re_generated _ Hr roots T n t Hp Hn) as Hg. rewrite (st_RuleType _ _ Hst), (st_Hash _ _ Hst), E in Hg. cbn in Hg. by specialize (Hg Hk).
  - intros n. rewrite Hroots, (same_targets_is_Some _ _ n Hs). split; intros [Hn Hd]; (split; [done|]); intros m t Ht.
    + destruct (roots_deps T1 roots T H2 m t Ht) as (t1 & Ht1 & ->). by apply (Hd m t1).
    + pose proof (Hs m) as Ho. rewrite Ht in Ho. inversion Ho as [? t' Hst E1 E2|]; subst. rewrite <- (st_Deps _ _ Hst). by apply (Hd m t').
Qed.

Section hashed.
Context (F : FullHashing) (Hr : regular F) (T : HTargets) (plain : forall n t, T !! n = Some t -> plain_target n t).
Context (depth : nat) (Hm : forall n, is_Some (T !! n) -> is_Some (merkle_in F T depth n)).

Abbreviation ok := (hashing_ok parse sha1 sort_attrs (fh_source F) join_path (fh_param F) T ∅).

Lemma hash_existing_ok names s s' : ok (hs_targets s) ->
  hash_existing parse sha1 sort_attrs (fh_source F) join_path (fh_ctx F) (fh_param F) (fh_fuel F) names s = Some (Ok (), s') -> ok (hs_targets s').
Proof.
  revert s. induction names as [|n names IH]; intros s Hs; cbn [hash_existing]; [by intros [= <-]|].
  intros (M & s0 & [= <- <-] & H)%HM_bind_Ok. destruct (hs_targets s !! n) as [t|] eqn:Et; [|by apply (IH s)].
  apply HM_bind_Ok in H as (r & s1 & H1 & H2). apply (IH s1); [|exact H2].
  assert (exists k x, merkle_in F T k n = Some x) as (k & x & Hx).
  { destruct (h_Hash t) as [h|] eqn:Eh.
    - destruct (ho_hashed _ _ _ _ _ _ _ _ _ Hs n t h Et Eh) as [Hb|[k Hk]]; [by apply elem_of_empty in Hb|by exists k, h].
    - destruct (Hm n) as [x Hx]; [exists t; by apply Hs|by exists depth, x]. }
  pose proof (HashRecursively_merkle parse sha1 sort_attrs (fh_source F) join_path (fh_ctx F) (fh_param F) (re_hashes _ Hr) T (fh_fuel F) k n x ∅ s
    Hx Hs ltac:(by intros q ?%elem_of_empty)) as HR. unfold HasherSpec.runs in HR. rewrite H1 in HR. by destruct HR as (_ & [? _] & _).
Qed.

(** What is below the roots is everything. *)
Lemma all_hashed (roots : list bytes) T' : (forall n, n ∈ roots <-> is_Some (T !! n) /\ forall m t, T !! m = Some t -> n ∉ h_Deps t) ->
  ok T' -> (forall n, n ∈ roots -> is_hashed T' n) -> forall n, is_Some (T !! n) -> is_hashed T' n.
Proof.
  intros Hroots Hok Hh. assert (forall j, j <= depth -> forall n, is_Some (T !! n) -> merkle_in F T (depth - j) n = None -> is_hashed T' n) as H.
  2:{ intros n Hn. apply (H depth); [lia|done|]. by rewrite Nat.sub_diag. }
  induction j as [|j IH]; intros Hj n Hn Hnone.
  { destruct (Hm n Hn) as [x Hx]. rewrite Nat.sub_0_r in Hnone. congruence. }
  destruct (decide (n ∈ roots)) as [|Hnr]; [by apply Hh|].
  assert (exists m t, T !! m = Some t /\ n ∈ h_Deps t) as (m & t & Ht & Hd).
  { destruct (decide (Exists (fun it : bytes * HTarget => n ∈ h_Deps it.2) (map_to_list T))) as [([m t] & Hin%elem_of_map_to_list & ?)%Exists_exists|Hno]; [by exists m, t|].
    destruct Hnr. apply Hroots. split; [done|]. intros m t Ht Hd. apply Hno, Exists_exists. exists (m, t). by rewrite elem_of_map_to_list. }
  assert (merkle_in F T (depth - j) m = None) as Hmn.
  { apply eq_None_not_Some. intros Hx. replace (depth - j) with (S (depth - S j)) in Hx by lia.
    destruct (merkle_below parse sha1 sort_attrs (fh_source F) join_path (fh_param F) (re_bzlmod _ Hr) (re_included _ Hr) T _ m t n Ht (plain m t Ht) Hx Hd). congruence. }
  destruct (IH ltac:(lia) m ltac:(by exists t) Hmn) as [h (t' & Ht' & Hh')%bind_Some].
  assert (T !! m ≫= h_Hash = None) as Hun.
  { rewrite Ht. cbn. apply eq_None_not_Some. intros Hx. rewrite (pl_leaf m t (plain m t Ht)) in Hd; [by apply elem_of_nil in Hd|].
    left. by apply (pl_hash m t (plain m t Ht)). }
  destruct (ho_made _ _ _ _ _ _ _ _ _ Hok m t' Ht' (ex_intro _ h Hh') Hun (no_collapse parse (fh_param F) (re_bzlmod _ Hr) T m) (re_included _ Hr m))
    as [Hb|(u & Hu & _ & Hdeps)]; [by apply elem_of_empty in Hb|].
  unfold target_of in Hu. rewrite Ht in Hu. injection Hu as <-. rewrite (written_leaf m t (plain m t Ht)), Forall_forall in Hdeps. by apply Hdeps.
Qed.
End hashed.

(** Hashing again what is hashed changes nothing but the roots. *)
Lemma hash_cyclic_same F names s s' : (forall n, n ∈ names -> is_hashed (hs_targets s) n) ->
  hash_cyclic parse sha1 sort_attrs (fh_source F) join_path (fh_ctx F) (fh_param F) (fh_fuel F) names s = Some (Ok (), s') ->
  same_targets (hs_targets s) (hs_targets s').
Proof.
  revert s. induction names as [|n names IH]; intros s Hh; cbn [hash_cyclic]; [by intros [= <-]|].
  intros ([] & s1 & [= <-] & (r & s2 & H2 & H3)%HM_bind_Ok)%HM_bind_Ok.
  remember (TargetHasher.set_targets (alter set_root n) s) as s1 eqn:Es1.
  assert (same_targets (hs_targets s) (hs_targets s1)) as Hs1.
  { intros m. rewrite Es1. cbn [TargetHasher.set_targets hs_targets]. destruct (decide (n = m)) as [<-|Hne]; [|by rewrite lookup_alter_ne].
    rewrite lookup_alter_eq. destruct (hs_targets s !! n); constructor. by constructor. }
  assert (hs_targets s2 = hs_targets s1) as E.
  { destruct (fh_fuel F); [done|]. cbn [HashRecursively] in H2. apply HM_bind_Ok in H2 as (? & s3 & H2 & H4). unfold poll_ctx in H2.
    injection H2 as _ <-. apply HM_bind_Ok in H4 as (M & s4 & [= <- <-] & H4). cbn [hs_targets] in H4.
    destruct (same_hashed _ _ n Hs1 (Hh n ltac:(by left))) as [h Eh]. rewrite Eh in H4. by injection H4 as _ <-. }
  etrans; [exact Hs1|]. rewrite <- E. apply IH; [|exact H3]. intros m Hin. rewrite E. apply (same_hashed (hs_targets s)), Hh; [done|by right].
Qed.

(** From the prepared targets, the sequential targets and the roots are hashed, and so all are. *)
Lemma hashing_finished F roots T calls s1 s2 : regular F -> prepared F = Ok (roots, T) ->
  hash_existing parse sha1 sort_attrs (fh_source F) join_path (fh_ctx F) (fh_param F) (fh_fuel F) (fh_sequential F)
    {| hs_targets := T; hs_calls := calls |} = Some (Ok (), s1) ->
  hash_all parse sha1 sort_attrs (fh_source F) join_path (fh_ctx F) (fh_param F) (fh_fuel F) roots s1 = Some (Ok (), s2) ->
  hashing_ok parse sha1 sort_attrs (fh_source F) join_path (fh_param F) T ∅ (hs_targets s2) /\
  forall n, is_Some (T !! n) -> is_hashed (hs_targets s2) n.
Proof.
  intros Hr Hp H1 H2. destruct (prepared_plain F roots T Hr Hp) as [Hplain Hroots]. destruct (re_merkle F Hr roots T Hp) as [depth Hm].
  apply (hash_existing_ok F Hr T depth Hm) in H1; [|by apply hashing_ok_start].
  pose proof (hash_all_merkle parse sha1 sort_attrs (fh_source F) join_path (fh_ctx F) (fh_param F) (re_hashes _ Hr) T depth (fh_fuel F) roots s1) as Hall.
  unfold HasherSpec.runs in Hall. rewrite H2 in Hall. destruct Hall as [[Hok _] HF]; [apply Forall_forall; intros n Hn; apply Hm; by apply Hroots|exact H1|].
  split; [done|]. apply (all_hashed F Hr T Hplain depth Hm roots); [done|done|]. intros n Hn. rewrite Forall_forall in HF.
  unfold is_hashed. rewrite (HF n Hn). apply Hm. by apply Hroots.
Qed.

(** The targets of the result that the sorting has not visited are hashed too. *)
Lemma rest_hashed (T' M : HTargets) (visited : gset bytes) (n : bytes) : same_targets T' M -> (forall n t, T' !! n = Some t -> is_Some (h_Hash t)) ->
  n ∈ sort_func bcompare (filter (fun n => n ∉ visited) (range M).*1) -> is_hashed M n.
Proof.
  intros Hs Hh Hn. rewrite elem_of_sort_func in Hn by apply _.
  apply list_elem_of_filter in Hn as [_ ([m t] & -> & Hin)%list_elem_of_fmap]. apply (elem_of_table_range range range_perm) in Hin. cbn [fst].
  destruct (same_targets_lookup _ _ _ _ Hs Hin) as (t' & Ht' & Hst). apply (same_hashed T'); [exact Hs|].
  destruct (Hh m t' Ht') as [h Eh]. exists h. by rewrite Ht'.
Qed.

(** The targets before the hashing, after it, and in the result. *)
Lemma fromProto_finished F result : regular F -> returns F result -> exists T T',
  (forall n t, T !! n = Some t -> plain_target n t) /\
  hashing_ok parse sha1 sort_attrs (fh_source F) join_path (fh_param F) T ∅ T' /\
  (forall n, is_Some (T !! n) -> is_hashed T' n) /\ same_targets T' (rt_Targets result).
Proof.
  intros Hr (s & H). pose proof (prepared_plain F) as Hplain. pose proof (fun roots T => hashing_finished F roots T) as Hfin.
  unfold prepared in Hplain, Hfin. unfold fromProto in H.
  apply HM_bind_Ok in H as (T0 & s0 & H0 & H). injection H0 as H0 <-. rewrite H0 in Hplain, Hfin. cbn [mbind res_bind] in Hplain, Hfin.
  apply HM_bind_Ok in H as ([] & s1 & [= <-] & H). rewrite (re_bzlmod F Hr) in H.
  apply HM_bind_Ok in H as ([] & s2 & H1 & H). apply HM_bind_Ok in H1 as (T0' & s3 & [= <- <-] & H1). apply HM_bind_Ok in H1 as (T1 & s4 & H2 & H1).
  injection H2 as H2 <-. injection H1 as <-. cbn [hs_targets TargetHasher.set_targets] in H2. rewrite H2 in Hplain, Hfin. cbn [mbind res_bind] in Hplain, Hfin.
  apply HM_bind_Ok in H as (T1' & s5 & [= <- <-] & H). cbn [hs_targets TargetHasher.set_targets] in H.
  destruct (GetTopologicalRootsAndIdentifyBuildableRoots range T1) as [roots T] eqn:Eroots.
  apply HM_bind_Ok in H as ([] & s6 & [= <-] & H). apply HM_bind_Ok in H as ([] & s7 & H7 & H). apply HM_bind_Ok in H as ([] & s8 & H8 & H).
  destruct (Hfin roots T _ s7 s8 Hr eq_refl H7 H8) as [Hok Hhashed]. destruct (Hplain roots T Hr eq_refl) as [HT _].
  exists T, (hs_targets s8). split; [done|]. split; [done|]. split; [done|].
  apply HM_bind_Ok in H as (M & s9 & [= <- <-] & H). apply HM_bind_Ok in H as (ts & s10 & H10 & H).
  destruct (toposort_all _ _ _ _) as [rs|] eqn:Et; [|done]. injection H10 as -> <-. apply toposort_all_same in Et. cbn [ts_targets] in Et.
  destruct ts as [M order visited calls]. cbn [ts_targets] in Et. apply HM_bind_Ok in H as ([] & s11 & [= <-] & H).
  case_decide; [by injection H as <- <-|]. apply HM_bind_Ok in H as ([] & s12 & H12 & H). apply HM_bind_Ok in H as (M' & s13 & [= <- <-] & H).
  injection H as <- <-. cbn [rt_Targets]. etrans; [exact Et|]. apply hash_cyclic_same in H12; [exact H12|].
  intros n Hn. cbn [hs_targets TargetHasher.set_targets]. eapply rest_hashed; [exact Et| |exact Hn].
  intros m t. eapply finished_hashed; [exact Hok|exact Hhashed].
Qed.

(** The result of a regular full hashing. *)
Lemma fromProto_settled F result : regular F -> returns F result -> settled sha1 (rt_Targets result).
Proof.
  intros Hr H. destruct (fromProto_finished F result Hr H) as (T & T' & Hplain & Hok & Hall & Hsame).
  eapply finished_settled; [by apply Hr|by apply Hr|exact Hplain|exact Hok|exact Hall|exact Hsame].
Qed.

Lemma fromProto_internal F result n t : regular F -> returns F result -> rt_Targets result !! n = Some t -> h_RuleType t <> ExternalRuleType.
Proof.
  intros Hr H Hn. destruct (fromProto_finished F result Hr H) as (T & T' & Hplain & Hok & Hall & Hsame).
  destruct (same_targets_lookup _ _ _ _ Hsame Hn) as (t' & Ht' & Hst). rewrite (st_RuleType _ _ Hst).
  apply (pl_kind n (set_hash None None t')). eapply finished_plain; [by apply Hr|by apply Hr|exact Hplain|exact Hok|exact Hall|exact Ht'].
Qed.

(** Its hashes are the digests of what it describes. *)
Lemma fromProto_digest F result n t : regular F -> returns F result -> rt_Targets result !! n = Some t ->
  exists k h, digest sha1 (describe_target (rt_Targets result)) k n = Some h /\ h_Hash t = Some h.
Proof.
  intros Hr H. destruct (fromProto_finished F result Hr H) as (T & T' & Hplain & Hok & Hall & Hsame).
  eapply finished_digest; [by apply Hr|by apply Hr|exact Hplain|exact Hok|exact Hall|exact Hsame].
Qed.
End full.

(** * Updates in Bzlmod mode *)

(** The graph has no external rules. *)
Definition internal_only (g : OptimizedGraph) : Prop := ExternalRuleTargets g = ∅.

Section updates.
Context (parse : bytes -> BazelLabel) (sha1 : bytes -> bytes) (sort_attrs : list Attribute -> list Attribute).
Context (attribute_string attribute_string_list : Z) (join_path : bytes -> bytes -> bytes) (hash_source : option SourceFile -> res (option bytes)).
Context (set_range : gset Z -> list Z) (names_range : gset bytes -> list bytes).
Context (targets_range : gmap bytes HTarget -> list (bytes * HTarget)) (ids_range : gmap Z ITarget -> list (Z * ITarget)).
Context (externals_range : gmap Z ext_ref -> list (Z * ext_ref)).
Context (set_range_perm : forall s, set_range s ≡ₚ elements s) (targets_range_perm : forall m, targets_range m ≡ₚ map_to_list m).
Context (externals_range_perm : forall m, externals_range m ≡ₚ map_to_list m).

Lemma invalidate_internal_only ids s : internal_only (us_graph s) -> internal_only (us_graph (invalidateHashRecursively set_range ids s)).
Proof. destruct (invalidateHashRecursively_spec set_range set_range_perm ids s) as (D & -> & _). done. Qed.

Lemma modify_by_id_internal_only f i g : internal_only g -> internal_only (modify_by_id f i g).
Proof. unfold internal_only, modify_by_id. intros H. destruct (_ !! i); [done|]. by rewrite H, lookup_empty. Qed.

Lemma fold_modify_internal_only {A} (F : OptimizedGraph -> A -> res OptimizedGraph) l g g' :
  (forall g a g', F g a = Ok g' -> internal_only g -> internal_only g') -> fold_res F g l = Ok g' -> internal_only g -> internal_only g'.
Proof. intros HF H Hg. refine (fold_res_ind internal_only F l g g' Hg _ H). intros b a b' _ Hb Hf. by apply (HF b a). Qed.

Lemma foldl_internal_only {A} (F : OptimizedGraph -> A -> OptimizedGraph) l g :
  (forall g a, internal_only g -> internal_only (F g a)) -> internal_only g -> internal_only (foldl F g l).
Proof. intros HF. revert g. induction l as [|a l IH]; intros g Hg; [done|]. cbn [foldl]. apply IH. by apply HF. Qed.

Lemma removeTarget_internal_only t s s' : removeTarget set_range t s = Ok s' -> internal_only (us_graph s) -> internal_only (us_graph s').
Proof.
  destruct t as [t|]; [|done]. unfold removeTarget. intros (g1 & H1 & H)%bind_Ok Hs. apply bind_Ok in H as (g2 & H2 & [= <-]).
  apply (fold_modify_internal_only) in H1; [|intros g a g' ?; by case_match; simplify_eq|done].
  apply (fold_modify_internal_only) in H2; [|intros g a g' ?; by case_match; simplify_eq|done].
  apply invalidate_internal_only. unfold internal_only in *. cbn. by rewrite H2, delete_empty.
Qed.

Lemma upsertTarget_internal_only t s s' : upsertTarget attribute_string set_range t s = Ok s' -> internal_only (us_graph s) -> internal_only (us_graph s').
Proof.
  unfold upsertTarget. destruct (getOrGenerateTargetID (h_Name t) (us_graph s)) as [id g1] eqn:E1.
  destruct (getOrGenerateRecordReverse _ _) as [rt rts]. intros ([ids g2] & H2 & H)%bind_Ok Hs.
  assert (internal_only g1) as H1.
  { unfold getOrGenerateTargetID in E1. destruct (tb_ToID _ !! _); by injection E1 as <- <-. }
  assert (internal_only g2) as Hg2.
  { refine (fold_res_ind (fun st => internal_only st.2) (link_dep id) (h_Deps t) _ (ids, g2) _ _ H2); [exact H1|].
    intros [ds g] d [ds' g'] _ Hg. cbn [snd] in *. unfold link_dep. destruct (tb_ToID _ !! d); [|done]. destruct (getTargetByID _ _); [|done].
    intros [= _ <-]. by apply modify_by_id_internal_only. }
  destruct (generate_tags _ _) as [tagIDs tags]. destruct (generate_attrs _ _ _ _ _) as [[attributes attrNames] attrValues].
  set (g3 := set_tables _ _ _ _ g2) in H. set (g4 := match OptimizedTargets g3 !! id with Some _ => _ | None => _ end) in H.
  assert (internal_only g4) as Hg4.
  { unfold g4. destruct (OptimizedTargets g3 !! id) as [old|].
    - change (internal_only (foldl (fun g oldDep => if decide (oldDep ∈ ids) then g else modify_by_id (drop_rdep g id) oldDep g) g3 (set_range (it_Deps old)))).
      apply foldl_internal_only; [|exact Hg2]. intros g d Hg. destruct (decide (d ∈ ids)); [exact Hg|]. by apply modify_by_id_internal_only.
    - unfold put_target, internal_only. cbn. change (ExternalRuleTargets g3) with (ExternalRuleTargets g2). by rewrite Hg2. }
  destruct (OptimizedTargets g4 !! id); [|done]. injection H as <-. case_decide; cbn [us_graph]; by apply invalidate_internal_only.
Qed.

Lemma updateInvalidateTargets_internal_only deletedSrc changedPkgs deletedPkgs order_ctx fuel targets s s' :
  updateInvalidateTargets attribute_string set_range names_range targets_range ids_range deletedSrc changedPkgs deletedPkgs
    order_ctx fuel targets s = Some (Ok s') -> internal_only (us_graph s) -> internal_only (us_graph s').
Proof.
  unfold updateInvalidateTargets, checkDeletedTargets. intros H Hs.
  destruct (fold_res _ s (names_range deletedSrc)) as [s1| |] eqn:E1; [|done..]. cbn [mbind res_bind] in H.
  assert (internal_only (us_graph s1)) as H1.
  { refine (fold_res_ind (fun s => internal_only (us_graph s)) _ _ s s1 Hs _ E1). intros a n b _ Ha.
    destruct (_ !! n); [|by intros [= <-]]. intros Hb. by apply (removeTarget_internal_only _ _ _ Hb). }
  destruct (fold_res _ s1 (ids_range (OptimizedTargets (us_graph s1)))) as [s2| |] eqn:E2; [|done..].
  assert (internal_only (us_graph s2)) as H2.
  { refine (fold_res_ind (fun s => internal_only (us_graph s)) _ _ s1 s2 H1 _ E2). intros a n b _ Ha.
    destruct (_ !! n.1); [|by intros [= <-]]. case_decide; [|by intros [= <-]]. intros Hb. by apply (removeTarget_internal_only _ _ _ Hb). }
  destruct (topoSort targets_range order_ctx fuel targets) as [[sorted|e|]|]; [|done..]. injection H as H.
  refine (fold_res_ind (fun s => internal_only (us_graph s)) _ _ s2 s' H2 _ H). intros a t b _ Ha Hb. by apply (upsertTarget_internal_only _ _ _ Hb).
Qed.

(** Without external rules in the query, none is updated. *)
Lemma upsert_externals_none targets s : (forall n t, targets !! n = Some t -> h_RuleType t <> ExternalRuleType) ->
  upsert_externals set_range targets_range targets s = s.
Proof.
  intros Ht. unfold upsert_externals. assert (forall n t, (n, t) ∈ targets_range targets -> h_RuleType t <> ExternalRuleType) as Hl.
  { intros n t. rewrite targets_range_perm, elem_of_map_to_list. apply Ht. }
  revert Hl. induction (targets_range targets) as [|[n t] l IH]; intros Hl; [done|]. cbn [foldl snd].
  rewrite decide_False by (apply (Hl n); by left). apply IH. intros m u Hm. apply (Hl m). by right.
Qed.

(** The query's targets fit a graph without external rules. *)
Lemma converted_queryable deletedSrc deletedPkgs g targets : (forall n t, targets !! n = Some t -> converted n t) -> internal_only g ->
  queryable deletedSrc deletedPkgs g targets.
Proof.
  intros Ht Hg. constructor.
  - intros n t Hn. apply (Ht n t Hn).
  - intros n t Hn _. apply (Ht n t Hn).
  - intros n t Hn Hx. by destruct (pl_kind n t (proj1 (Ht n t Hn))).
  - intros n i [_ [r Hi]]. by rewrite Hg, lookup_empty in Hi.
Qed.

(** An update for a plain query is the one with its targets converted. *)
Lemma UpdateGraph_converted cancelled external_ctx order_ctx ctx fuel input g g' : plain_query (QueryResult input) ->
  UpdateGraph parse sha1 sort_attrs attribute_string attribute_string_list hash_source join_path set_range names_range targets_range ids_range
    externals_range cancelled external_ctx order_ctx ctx fuel input g = Some (Ok g') ->
  exists targets, (forall n t, targets !! n = Some t -> converted n t) /\
    update_with sha1 sort_attrs attribute_string hash_source set_range names_range targets_range ids_range externals_range
      input order_ctx ctx fuel targets g = Some (Ok g').
Proof.
  intros Hq. unfold UpdateGraph. destruct (GetInternalTargetsWithoutHashAndRootInfo _ _ _ _ _ _) as [targets| |] eqn:E; [|done..].
  rewrite no_external_rules by done. cbn [hs_targets]. intros H. exists targets. split; [|exact H].
  intros n t Hn. by apply (internal_targets_converted _ _ _ _ _ _ _ n t Hq E).
Qed.
End updates.

(** IDs for names do not touch the targets. *)
Lemma generate_deps_frame deps (ids : gset Z) g (ids' : gset Z) g' : generate_deps deps ids g = (ids', g') ->
  OptimizedTargets g' = OptimizedTargets g /\ ExternalRuleTargets g' = ExternalRuleTargets g.
Proof.
  revert ids g. induction deps as [|d deps IH]; intros ids g; cbn [generate_deps]; [by intros [= _ <-]|].
  unfold getOrGenerateTargetID. destruct (tb_ToID (TargetNames g) !! d); intros H%IH; exact H.
Qed.

Lemma AddTarget_internal_only attribute_string t g : h_RuleType t <> ExternalRuleType -> internal_only g -> internal_only (AddTarget attribute_string t g).
Proof.
  intros Ht Hg. unfold AddTarget, internal_only in *. destruct (getOrGenerateTargetID (h_Name t) g) as [id g1] eqn:E1.
  destruct (generate_deps _ _ _) as [ids g2] eqn:E2. destruct (getOrGenerateRecordReverse _ _) as [rt tb].
  rewrite decide_False by done. destruct (generate_tags _ _) as [tagIDs tags]. destruct (generate_attrs _ _ _ _ _) as [[at1 an] av].
  assert (ExternalRuleTargets g1 = ∅) as Hg1 by (unfold getOrGenerateTargetID in E1; destruct (tb_ToID _ !! _); by injection E1 as <- <-).
  apply generate_deps_frame in E2 as [_ E2]. unfold put_target. cbn. by rewrite E2, Hg1.
Qed.

(** The graph of targets without external rules has none. *)
Lemma optimized_internal_only (attribute_string : Z) (set_range : gset Z -> list Z) (targets_range : gmap bytes HTarget -> list (bytes * HTarget))
    (ids_range : gmap Z ITarget -> list (Z * ITarget)) (T : HTargets) :
  (forall m, targets_range m ≡ₚ map_to_list m) -> (forall n t, T !! n = Some t -> h_RuleType t <> ExternalRuleType) ->
  internal_only (OptimizeGraph attribute_string set_range targets_range ids_range T).
Proof.
  intros Hp HT. set (g0 := foldl (fun g nt => AddTarget attribute_string nt.2 g) empty_graph (targets_range T)).
  change (internal_only (foldl (link_target set_range) g0 (ids_range (OptimizedTargets g0)))).
  apply foldl_internal_only; [intros g it Hg; unfold link_target; by apply foldl_internal_only|].
  assert (forall n t, (n, t) ∈ targets_range T -> h_RuleType t <> ExternalRuleType) as Hl.
  { intros n t. rewrite Hp, elem_of_map_to_list. apply HT. }
  assert (internal_only empty_graph) as He by done. unfold g0. revert He Hl. generalize empty_graph.
  induction (targets_range T) as [|[n t] l IH]; intros g Hg Hl; [done|]. cbn [foldl snd]. apply IH; [|intros m u Hm; apply (Hl m); by right].
  apply AddTarget_internal_only; [apply (Hl n); by left|done].
Qed.
