(* ===== verification/ItgSpec.v ===== *)
(** What the incremental graph promises: after a regular full hashing and any updates for
    plain queries, every hash is the digest of what its target's name describes, which is
    what a full hashing of the same description gives; and what each part of an update does. *)
From Stdlib Require Import ZArith Lia.
From stdpp Require Import gmap fin_maps.
From S2P Require Import Prelude Bfs RuleHash SourceHash TargetHasher Toposort Mapper Itg ItgUpdate ItgInvalidate ItgInvariant ItgNames ItgOps ItgRemove ItgBuild ItgHash ItgRun ItgFull.

Local Open Scope Z_scope.

(** * The orders of Go's maps and sets *)

Record Ranges := {
  r_set : gset Z -> list Z;
  r_names : gset bytes -> list bytes;
  r_targets : gmap bytes HTarget -> list (bytes * HTarget);
  r_ids : gmap Z ITarget -> list (Z * ITarget);
  r_externals : gmap Z ext_ref -> list (Z * ext_ref);
}.

(** Each element is visited once. *)
Record ranges_ok (R : Ranges) : Prop := {
  r_set_perm : forall s, r_set R s ≡ₚ elements s;
  r_names_perm : forall s, r_names R s ≡ₚ elements s;
  r_targets_perm : forall m, r_targets R m ≡ₚ map_to_list m;
  r_ids_perm : forall m, r_ids R m ≡ₚ map_to_list m;
  r_externals_perm : forall m, r_externals R m ≡ₚ map_to_list m;
}.

Definition in_order : Ranges :=
  {| r_set := elements; r_names := elements; r_targets := map_to_list; r_ids := map_to_list; r_externals := map_to_list |}.

Lemma in_order_ok : ranges_ok in_order.
Proof. by constructor. Qed.

(** * Histories *)

(** What the programs that hash in full and that update have in common: how labels are
    parsed, SHA-1, the sorting of attributes, the constants of the protocol, the joining
    of paths, and the orders of maps and sets. *)
Record Program := {
  pg_parse : bytes -> BazelLabel;
  pg_sha1 : bytes -> bytes;
  pg_sort : list Attribute -> list Attribute;
  pg_string : Z;
  pg_string_list : Z;
  pg_join : bytes -> bytes -> bytes;
  pg_ranges : Ranges;
}.

Definition full_returns (P : Program) (F : FullHashing) (result : Result) : Prop :=
  returns (pg_parse P) (pg_sha1 P) (pg_sort P) (pg_string_list P) (pg_join P) (r_targets (pg_ranges P)) F result.
Definition full_regular (P : Program) (F : FullHashing) : Prop :=
  regular (pg_parse P) (pg_sha1 P) (pg_sort P) (pg_string_list P) (pg_join P) (r_targets (pg_ranges P)) F.
Definition optimized_graph (P : Program) (result : Result) : OptimizedGraph :=
  OptimizeGraph (pg_string P) (r_set (pg_ranges P)) (r_targets (pg_ranges P)) (r_ids (pg_ranges P)) (rt_Targets result).
Definition updated (P : Program) (hash_source : option SourceFile -> res (option bytes)) (cancelled : bool) (external_ctx order_ctx ctx : Z -> bool)
    (fuel : nat) (input : UpdateGraphInput) (g : OptimizedGraph) : option (res OptimizedGraph) :=
  UpdateGraph (pg_parse P) (pg_sha1 P) (pg_sort P) (pg_string P) (pg_string_list P) hash_source (pg_join P) (r_set (pg_ranges P)) (r_names (pg_ranges P))
    (r_targets (pg_ranges P)) (r_ids (pg_ranges P)) (r_externals (pg_ranges P)) cancelled external_ctx order_ctx ctx fuel input g.

(** The graph of a regular full hashing, updated any number of times for plain queries;
    the sources, the contexts and the fuel differ from one run to the next. *)
Inductive history (P : Program) : OptimizedGraph -> Prop :=
  | history_full F result : full_regular P F -> full_returns P F result -> history P (optimized_graph P result)
  | history_update g hash_source cancelled external_ctx order_ctx ctx fuel input g' :
      history P g -> plain_query (QueryResult input) ->
      updated P hash_source cancelled external_ctx order_ctx ctx fuel input g = Some (Ok g') -> history P g'.

Section history.
Context (sha1 : bytes -> bytes) (attribute_string : Z) (R : Ranges) (R_ok : ranges_ok R).

(** Hashing that succeeds, with whatever fuel, leaves no target to hash. *)
Lemma computed_good fuel ctx s c s' :
  good sha1 (r_set R) s ->
  computeInvalidatedHashes sha1 (r_set R) ctx fuel (us_invalidated s) {| cs_graph := us_graph s; cs_calls := c |} = Some (Ok (), s') ->
  wf (cs_graph s') /\ fresh sha1 (r_set R) (cs_graph s') ∅ /\ ExternalRuleTargets (cs_graph s') = ExternalRuleTargets (us_graph s).
Proof.
  intros [W F] H. pose proof (r_set_perm _ R_ok) as Rp. set (fuel' := (fuel + S (size (unhashed_ids (us_graph s))))%nat).
  pose proof (computeInvalidatedHashes_runs sha1 (r_set R) Rp ctx (us_graph s) W fuel' (us_invalidated s) c F ltac:(unfold fuel'; lia)) as Hr.
  apply (computeInvalidatedHashes_more sha1 (r_set R) ctx fuel fuel') in H; [|unfold fuel'; lia].
  unfold runs in Hr. rewrite H in Hr. destruct Hr as [C Hall]. split_and!.
  - by eapply after_wf.
  - eapply after_fresh; [done|exact ctx|exact W|done|done].
  - by eapply co_externals.
Qed.

Lemma update_with_good g sort_attrs hash_source input order_ctx ctx fuel targets g' :
  wf g -> fresh sha1 (r_set R) g ∅ -> queryable (DeletedSrcFiles input) (DeletedPkgs input) g targets ->
  update_with sha1 sort_attrs attribute_string hash_source (r_set R) (r_names R) (r_targets R) (r_ids R) (r_externals R)
    input order_ctx ctx fuel targets g = Some (Ok g') ->
  wf g' /\ fresh sha1 (r_set R) g' ∅ /\
  (internal_only g -> (forall n t, targets !! n = Some t -> h_RuleType t <> ExternalRuleType) -> internal_only g').
Proof.
  intros W F Q. destruct R_ok as [Rs Rn Rt Ri Re]. unfold update_with.
  destruct (upsert_externals_good sha1 (r_set R) (r_targets R) Rs Rt _ _ g targets Q W F) as [E Hext].
  set (s := upsert_externals _ _ _ _) in *.
  destruct (computeAvailableHashes _ _ _ _ _) as [T| |] eqn:ET; [|done..].
  pose proof (available_acceptable sha1 (r_set R) (r_targets R) Rt _ _ (r_externals R) Re _ _ g targets s T Q E Hext ET) as Ha.
  unfold update_and_hash. destruct (updateInvalidateTargets _ _ _ _ _ _ _ _ _ _ _ _) as [[s1| |]|] eqn:Es; [|done..].
  pose proof (updateInvalidateTargets_internal_only _ _ _ _ _ Rs _ _ _ _ _ _ _ _ Es) as Hx.
  apply (updateInvalidateTargets_good sha1) in Es; [|done|done|done|apply E|done].
  destruct (computeInvalidatedHashes _ _ _ _ _ _) as [[[[]|e|] c]|] eqn:Ec; [|done..]. intros [= <-].
  destruct (computed_good _ _ _ _ _ Es Ec) as (W' & F' & E'). split_and!; [done..|]. intros Hg Ht. unfold internal_only. rewrite E'. apply Hx.
  unfold s. by rewrite (upsert_externals_none _ _ Rt).
Qed.

Lemma fresh_hashed g id t : fresh sha1 (r_set R) g ∅ -> internal g id t -> is_Some (it_Hash t).
Proof.
  intros F Ht. destruct (it_Hash t) as [h|] eqn:Eh; [by exists h|].
  pose proof (fr_missing _ _ _ _ F id t Ht Eh) as Hi. by apply elem_of_empty in Hi.
Qed.
End history.

Section program.
Context (P : Program) (R_ok : ranges_ok (pg_ranges P)).

Lemma history_good g : history P g -> wf g /\ fresh (pg_sha1 P) (r_set (pg_ranges P)) g ∅ /\ internal_only g.
Proof.
  induction 1 as [F result Hr HF|g hash_source cancelled external_ctx order_ctx ctx fuel input g' _ (W & Fr & I) Q H].
  - pose proof (fromProto_settled _ _ _ _ _ _ (r_targets_perm _ R_ok) F result Hr HF) as S.
    destruct (optimized_good (pg_sha1 P) (pg_string P) _ (r_set_perm _ R_ok) _ _ (r_targets_perm _ R_ok) (r_ids_perm _ R_ok) _ S) as [W Fr].
    split_and!; [exact W|exact Fr|]. apply optimized_internal_only; [apply R_ok|].
    intros n t Hn. exact (fromProto_internal _ _ _ _ _ _ (r_targets_perm _ R_ok) F result n t Hr HF Hn).
  - apply UpdateGraph_converted in H as (targets & Ht & H); [|done].
    eapply update_with_good in H; [|exact R_ok|exact W|exact Fr|by apply converted_queryable].
    destruct H as (W' & F' & H). split_and!; [done..|]. apply H; [done|]. intros n t Hn. apply (pl_kind n t (proj1 (Ht n t Hn))).
Qed.

Lemma history_hashed g : history P g -> forall id t, internal g id t -> is_Some (it_Hash t).
Proof. intros Hg id t. destruct (history_good g Hg) as (_ & F & _). by apply (fresh_hashed (pg_sha1 P) (pg_ranges P)). Qed.

(** A digest of the description is the hash. *)
Lemma history_digest g depth name h : history P g -> digest (pg_sha1 P) (describe (r_set (pg_ranges P)) g) depth name = Some h -> hash_by_name g name = Some h.
Proof.
  intros Hg. destruct (history_good g Hg) as (W & F & _).
  apply (hash_is_digest (pg_sha1 P) (r_set (pg_ranges P)) (r_set_perm _ R_ok) g W ∅ name depth h F). by apply history_hashed.
Qed.
End program.

(** * What an insertion changes *)

(** A node that is given has lost its hash, or nothing has changed. *)
Definition forgets (n n' : option (Node bytes)) : Prop := n' = n \/ exists h, n = Some (Fixed h) /\ n' = Some (Fixed None).

Section describes.
Context (attribute_string : Z) (set_range : gset Z -> list Z) (set_range_perm : forall s, set_range s ≡ₚ elements s).

Lemma describe_invalidated D s m : wf (us_graph s) -> forgets (describe set_range (us_graph s) m) (describe set_range (us_graph (invalidated D s)) m).
Proof.
  intros W. unfold describe, forgets.
  change (TargetNames (us_graph (invalidated D s))) with (TargetNames (us_graph s)).
  destruct (tb_ToID (TargetNames (us_graph s)) !! m) as [i|]; [|by left]. cbn [mbind option_bind].
  assert (name_string (us_graph (invalidated D s)) = name_string (us_graph s)) as -> by done.
  destruct (decide (i ∈ D)) as [Hi|Hi]; [|left; by rewrite node_invalidated].
  destruct (OptimizedTargets (us_graph s) !! i) as [t|] eqn:Et.
  2:{ assert (OptimizedTargets (us_graph (invalidated D s)) !! i = None) as Et'.
      { change (without D (OptimizedTargets (us_graph s)) !! i = None). by rewrite lookup_without, Et. }
      assert (node set_range (us_graph (invalidated D s)) i = node set_range (us_graph s) i) as ->; [|by left].
      unfold node, external_target. rewrite Et, Et'. done. }
  assert (OptimizedTargets (us_graph (invalidated D s)) !! i = Some (set_it_hash None t)) as Et'.
  { apply lookup_invalidated. exists t. by rewrite decide_True. }
  destruct (decide (is_external (us_graph s) i)) as [He|He].
  - right. destruct (node_external set_range _ i He W) as (u & Hu & ->).
    destruct (node_external set_range (us_graph (invalidated D s)) i He (wf_tables_invalidated D s W)) as (u' & Hu' & ->).
    exists (it_Hash u). split; [done|]. rewrite Et' in Hu'. by injection Hu' as <-.
  - rewrite (node_internal set_range (us_graph s) i t), (node_internal set_range (us_graph (invalidated D s)) i (set_it_hash None t)) by done.
    unfold node_of. change (given (us_graph (invalidated D s)) (set_it_hash None t)) with (given (us_graph s) t).
    destruct (decide (given (us_graph s) t)); [right|by left]. by exists (it_Hash t).
Qed.

Section kept.
Context (id : Z) (g g' : OptimizedGraph) (W : wf g) (W' : wf g') (K : kept_but id g g').

Lemma kept_ToID m i : tb_ToID (TargetNames g) !! m = Some i -> tb_ToID (TargetNames g') !! m = Some i.
Proof. intros Hm%(wf_names _ W). apply (wf_names _ W'). exact (lookup_weaken _ _ _ _ Hm (kb_names _ _ _ K)). Qed.

Lemma kept_names i k : node set_range g i = Some k -> node_map (name_string g') k = node_map (name_string g) k.
Proof.
  intros Hk. assert (forall d, d ∈ node_deps k -> name_string g' d = name_string g d) as Hd.
  { intros d Hd. apply name_string_kept; [apply K|apply W|]. by apply (node_deps_present set_range set_range_perm g W i k d). }
  destruct k as [h|d|hwd deps]; cbn [node_map]; [done|f_equal; by apply Hd; left|f_equal].
  apply list_fmap_ext. intros j d Hj. apply Hd. cbn [node_deps]. by eapply list_elem_of_lookup_2.
Qed.

Lemma kept_present i : i <> id -> is_Some (OptimizedTargets g' !! i) <-> is_Some (OptimizedTargets g !! i).
Proof. intros Hi. pose proof (kb_targets _ _ _ K i Hi) as Ho. by inversion Ho. Qed.

(** Only the description of the one name changes. *)
Lemma kept_describe m : tb_ToID (TargetNames g') !! m <> Some id -> describe set_range g' m = describe set_range g m.
Proof.
  intros Hm. apply option_eq. intros n. unfold describe. rewrite !bind_Some. split.
  - intros (i & Hi & (k & Hk & ->)%fmap_Some). assert (i <> id) as Hne by congruence.
    pose proof (node_present set_range g' W' i k Hk) as Hp. apply kept_present in Hp as Hp0; [|done].
    destruct (wf_named _ W i Hp0) as [m' Hm']. assert (m' = m) as ->.
    { apply (wf_names _ W), kept_ToID, (wf_names _ W') in Hm'. apply (wf_names _ W') in Hi. congruence. }
    exists i. split; [by apply (wf_names _ W)|]. rewrite (kept_node set_range set_range_perm id g g' W W' K i Hne Hp) in Hk.
    rewrite Hk, (kept_names i k Hk). done.
  - intros (i & Hi & (k & Hk & ->)%fmap_Some). apply kept_ToID in Hi. assert (i <> id) as Hne by congruence. exists i. split; [done|].
    pose proof (node_present set_range g W i k Hk) as Hp. apply kept_present in Hp; [|done].
    by rewrite (kept_node set_range set_range_perm id g g' W W' K i Hne Hp), Hk, <- (kept_names i k Hk).
Qed.
End kept.

Lemma versioned_describe t id g g' t' : wf g -> versioned t id g g' t' -> h_RuleType t <> ExternalRuleType -> ~ is_external g id ->
  (h_RuleType t = GeneratedFileType -> exists d, h_Deps t = [d]) ->
  describe set_range g' (h_Name t) = Some (target_node t) /\
  forall m, m <> h_Name t -> describe set_range g' m = describe set_range g m.
Proof.
  intros W [W' K X N Ht' Htr] Hr He Hgd. split.
  - unfold describe. rewrite N. cbn [mbind option_bind].
    rewrite (node_internal set_range g' id t') by (split; [done|]; unfold is_external; by rewrite X). cbn [fmap option_fmap option_map]. f_equal.
    by apply (node_translated set_range set_range_perm g' W').
  - intros m Hm. apply (kept_describe id); [done..|]. intros Hid. apply (wf_names _ W') in Hid, N. congruence.
Qed.
End describes.

(** * Properties *)

(** C28: The hashes of the incremental graph are digests.  Take a full hashing ([fromProto]) in
    Bzlmod mode, without exclusions, of a query without WORKSPACE rules whose rules list
    no input twice, that gives no generated file the hash of its repository and meets no
    cycle and no source without a hash ([full_regular]); make the incremental graph of its
    result, and update it any number of times with [UpdateGraph] for such queries, whatever
    the sources are by then.  Then every internal target has a hash, and the hash of every
    name that has a digest (a function of what the graph describes by names: no IDs, no
    marks, no order of visits) is that digest. *)
Theorem incremental_hashes_are_digests (P : Program) g name depth h : ranges_ok (pg_ranges P) -> history P g ->
  (forall id t, internal g id t -> is_Some (it_Hash t)) /\
  (digest (pg_sha1 P) (describe (r_set (pg_ranges P)) g) depth name = Some h -> hash_by_name g name = Some h).
Proof. intros R_ok Hg. split; [by apply (history_hashed P)|by apply (history_digest P)]. Qed.

(** C29: Incremental hashing equals full hashing.  Let a graph have been brought up to date
    as above, by updates of whatever full hashing it began with, and let a full hashing of
    the same kind ([fromProto] with its sources) return a result that the graph describes:
    the same names, of the same kinds, the same hashes of files, the same rules and
    dependencies.  Then the graph has for every target the hash that the full hashing gave
    it, though the updates computed only those that were invalidated. *)
Theorem incremental_equals_full (P : Program) g F result name : ranges_ok (pg_ranges P) -> history P g ->
  full_regular P F -> full_returns P F result ->
  (forall n, describe (r_set (pg_ranges P)) g n = describe_target (rt_Targets result) n) ->
  is_Some (rt_Targets result !! name) ->
  is_Some (hash_by_name g name) /\ hash_by_name g name = rt_Targets result !! name ≫= h_Hash.
Proof.
  intros R_ok Hg Hr HF Hd [t Ht].
  destruct (fromProto_digest _ _ _ _ _ _ (r_targets_perm _ R_ok) F result name t Hr HF Ht) as (k & h & Hk & Hh).
  assert (hash_by_name g name = Some h) as ->; [|rewrite Ht; cbn; split; [by eexists|done]].
  apply (history_digest P R_ok g k name h Hg).
  refine (digest_agree (pg_sha1 P) _ _ (fun _ => True) _ _ k name h Logic.I Hk); [|done]. intros m _. apply Hd.
Qed.

Section properties.
Context (sha1 : bytes -> bytes) (attribute_string : Z) (R : Ranges) (R_ok : ranges_ok R).

(** C30: An insertion describes the target it inserts.  After [upsertTarget] the name of an
    internal target is described by the new version, whatever the graph had for it, and
    every other name as before, except that invalidation takes the hash of a node whose
    hash is given. *)
Theorem upsertTarget_describes t s s' :
  wf (us_graph s) -> upsertTarget attribute_string (r_set R) t s = Ok s' ->
  h_RuleType t <> ExternalRuleType -> ~ is_external (us_graph s) (fst (getOrGenerateTargetID (h_Name t) (us_graph s))) ->
  (h_RuleType t = GeneratedFileType -> exists d, h_Deps t = [d]) ->
  forgets (Some (target_node t)) (describe (r_set R) (us_graph s') (h_Name t)) /\
  forall m, m <> h_Name t -> forgets (describe (r_set R) (us_graph s) m) (describe (r_set R) (us_graph s') m).
Proof.
  destruct s as [g inv]. cbn [us_graph]. intros W H Hr He Hgd. pose proof (r_set_perm _ R_ok) as Rp.
  apply (upsertTarget_versioned sha1 (r_set R) Rp) in H as (id & g' & t' & Hid & V & ->); [|done]. rewrite Hid in He.
  destruct (versioned_describe (r_set R) Rp t id g g' t' W V Hr He Hgd) as [Hn Hm].
  assert (forall X : ustate, us_graph X = us_graph (invalidateHashRecursively (r_set R) (it_ReverseDeps t') {| us_graph := g'; us_invalidated := inv |}) ->
    forall m, forgets (describe (r_set R) g' m) (describe (r_set R) (us_graph X) m)) as Hf.
  { intros X -> m. destruct (invalidateHashRecursively_spec (r_set R) Rp (it_ReverseDeps t') {| us_graph := g'; us_invalidated := inv |}) as (D & -> & _).
    apply (describe_invalidated (r_set R) D {| us_graph := g'; us_invalidated := inv |}). apply V. }
  cbn zeta. rewrite <- Hn. split; [|intros m Hne; rewrite <- (Hm m Hne)]; apply Hf; by case_decide.
Qed.

(** C31: Hashing ends, and fails only for cause.  From the state that the updates leave,
    with fuel for the targets without a hash, [computeInvalidatedHashes] returns; unless
    the context is cancelled it succeeds on a graph whose unhashed targets are rules with
    a hash of their own or generated files with a rule, and then no internal target is
    left without a hash. *)
Theorem computeInvalidatedHashes_total ctx fuel s :
  good sha1 (r_set R) s -> (size (unhashed_ids (us_graph s)) < fuel)%nat ->
  match computeInvalidatedHashes sha1 (r_set R) ctx fuel (us_invalidated s) {| cs_graph := us_graph s; cs_calls := 0 |} with
  | Some (Ok (), c) => good sha1 (r_set R) {| us_graph := cs_graph c; us_invalidated := ∅ |} /\
      (forall name, describe (r_set R) (cs_graph c) name = describe (r_set R) (us_graph s) name)
  | Some (Err e, _) => (e = cancelled_err /\ exists i, ctx i = true) \/ ~ complete (us_graph s)
  | _ => False
  end.
Proof.
  intros [W F] Hf. pose proof (r_set_perm _ R_ok) as Rp.
  pose proof (computeInvalidatedHashes_runs sha1 (r_set R) Rp ctx (us_graph s) W fuel (us_invalidated s) 0 F Hf) as Hr.
  unfold runs in Hr. destruct (computeInvalidatedHashes _ _ _ _ _ _) as [[[[]|e|] c]|]; [|exact Hr..].
  destruct Hr as [C Hall]. split; [split; [by eapply after_wf|by eapply after_fresh]|].
  intros name. unfold describe. rewrite (co_names _ _ _ _ _ C). destruct (_ !! name) as [i|]; [|done]. cbn [mbind option_bind].
  rewrite (after_node sha1 (r_set R) Rp ctx (us_graph s) W (cs_graph c) C Hall i).
  assert (forall j, name_string (cs_graph c) j = name_string (us_graph s) j) as Hn.
  { intros j. unfold name_string. by rewrite (co_names _ _ _ _ _ C). }
  destruct (node (r_set R) (us_graph s) i) as [[h|d|hwd deps]|]; cbn; [done|by rewrite Hn| |done]. do 2 f_equal.
  by apply list_fmap_ext.
Qed.

(** C32: Invalidation is exact.  It ends, takes the hash of precisely the targets that are
    reached from the given IDs along reverse dependencies through targets with a hash,
    adds precisely these to the invalidated set, and changes nothing else. *)
Theorem invalidation_exact ids s n :
  (OptimizedTargets (us_graph (invalidateHashRecursively (r_set R) ids s)) !! n =
     (fun t => if decide (n ∈ us_invalidated (invalidateHashRecursively (r_set R) ids {| us_graph := us_graph s; us_invalidated := ∅ |}))
               then set_it_hash None t else t) <$> OptimizedTargets (us_graph s) !! n) /\
  (n ∈ us_invalidated (invalidateHashRecursively (r_set R) ids s) <-> n ∈ us_invalidated s \/ invalid (OptimizedTargets (us_graph s)) ids n) /\
  set_targets (OptimizedTargets (us_graph s)) (us_graph (invalidateHashRecursively (r_set R) ids s)) = us_graph s.
Proof.
  pose proof (r_set_perm _ R_ok) as Rp.
  destruct (invalidateHashRecursively_spec (r_set R) Rp ids s) as (D & E & HD).
  rewrite (invalidateHashRecursively_eq (r_set R) Rp ids {| us_graph := us_graph s; us_invalidated := ∅ |} D HD), E.
  cbn [us_graph us_invalidated invalidated OptimizedTargets set_targets].
  split; [rewrite lookup_without|split; [rewrite elem_of_union, HD; tauto|by destruct (us_graph s)]]. destruct (OptimizedTargets (us_graph s) !! n) as [t|]; [|done]. cbn. f_equal.
  destruct (decide (n ∈ D)) as [Hn|Hn]; [rewrite decide_True by set_solver|rewrite decide_False by set_solver]; done.
Qed.
End properties.

(** C36: A copied graph keeps the old hashes of external rules.  [Copy] (and likewise gob
    decoding) gives [ExternalRuleTargets] objects of its own; [upsertExternalRuleTarget]
    only updates the one in [OptimizedTargets], so that [computeHashes] goes on returning
    the old hash of the rule, and its dependents are hashed with it. *)
Theorem copied_external_stays_stale (sha1 : bytes -> bytes) (set_range : gset Z -> list Z) (ctx : Z -> bool) fuel g target id t inv calls :
  (forall s, set_range s ≡ₚ elements s) ->
  tb_ToID (TargetNames g) !! h_Name target = Some id -> external_target g id = Some t -> is_Some (OptimizedTargets g !! id) ->
  ctx calls = false ->
  exists c, computeHashes sha1 set_range ctx (S fuel) id
    {| cs_graph := us_graph (upsertExternalRuleTarget set_range target {| us_graph := Copy g; us_invalidated := inv |}); cs_calls := calls |} =
    Some (Ok (it_Hash t), c).
Proof.
  intros Rp Hn He [u Hu] Hc.
  assert (ExternalRuleTargets (Copy g) !! id = Some (Own t)) as HE.
  { cbn [Copy ExternalRuleTargets set_externals]. rewrite map_lookup_imap, He. unfold external_target in He.
    by destruct (ExternalRuleTargets g !! id). }
  assert (external_target (us_graph (upsertExternalRuleTarget set_range target {| us_graph := Copy g; us_invalidated := inv |})) id = Some t) as Hx.
  { unfold upsertExternalRuleTarget, getOrGenerateTargetID. cbn [us_graph]. change (TargetNames (Copy g)) with (TargetNames g). rewrite Hn.
    destruct (getOrGenerateRecordReverse _ _) as [rt tb]. set (g2 := set_tables _ _ _ _ (Copy g)).
    destruct (generate_deps (h_Deps target) ∅ g2) as [depIDs g3] eqn:E3. apply generate_deps_frame in E3 as [T3 X3].
    rewrite T3. change (OptimizedTargets g2) with (OptimizedTargets g). rewrite Hu. unfold with_graph. cbn [us_invalidated].
    destruct (invalidateHashRecursively_spec set_range Rp (it_ReverseDeps u) {| us_graph := modify
      (fun t => renew (h_Hash target) (h_HashWithoutDeps target) (it_RuleType t) depIDs (it_Tags t) (h_External target) (it_Attributes t) t) id g3;
      us_invalidated := inv |}) as (D & -> & _).
    unfold external_target. cbn [us_graph invalidated ExternalRuleTargets set_targets modify]. rewrite X3.
    change (ExternalRuleTargets g2) with (ExternalRuleTargets (Copy g)). by rewrite HE. }
  cbn [computeHashes]. unfold mbind, CM_bind, poll_hashing, guard_err, the_graph. cbn [cs_calls cs_graph]. rewrite Hc. cbn [cs_graph].
  rewrite Hx. by eexists.
Qed.
