(* ===== verification/ItgSample.v ===== *)
(** Concrete incremental graphs, at which the theorems of [ItgSpec] apply. *)
From Stdlib Require Import ZArith Lia.
From stdpp Require Import gmap fin_maps.
From S2P Require Import Prelude Bfs RuleHash SourceHash TargetHasher HasherSpec Toposort Mapper Itg ItgUpdate ItgInvalidate ItgInvariant ItgNames ItgOps ItgRemove ItgBuild ItgHash ItgRun ItgFull ItgSpec.

Local Open Scope Z_scope.

(** A hash function that can be read. *)
Definition no_sha1 (x : bytes) : bytes := x.

Definition lib_target (h hwd : option bytes) : HTarget := set_deps [bs "//a:f.go"] (made_target (bs "//a:lib") (bs "go_library") h hwd false None).
Definition file_target (h : option bytes) : HTarget := made_target (bs "//a:f.go") SourceFileType h None false None.
Definition external_target_of (h : bytes) : HTarget := made_target (bs "//external:x") ExternalRuleType (Some h) (Some h) true None.

Definition pair_targets (t u : HTarget) : HTargets := <[h_Name t := t]> (<[h_Name u := u]> ∅).

(** The library before, and after the file has changed. *)
Definition full_targets (file : bytes) (hwd : bytes) : HTargets :=
  pair_targets (lib_target (Some (hwd ++ file)) (Some hwd)) (file_target (Some file)).

Definition sample_graph (T : HTargets) : OptimizedGraph :=
  OptimizeGraph 1 (r_set in_order) (r_targets in_order) (r_ids in_order) T.

(** Finitely many checks settle the targets. *)
Definition settled_target (T : HTargets) (nt : bytes * HTarget) : bool :=
  bool_decide (h_Name nt.2 = nt.1) && forallb (fun d => bool_decide (is_Some (T !! d))) (h_Deps nt.2) &&
  (if decide (h_RuleType nt.2 = GeneratedFileType) then Nat.eqb (length (h_Deps nt.2)) 1 else true) &&
  match h_Hash nt.2 with Some h => bool_decide (digest no_sha1 (describe_target T) 5 nt.1 = Some h) | None => false end.

Lemma settled_by_checks T : forallb (settled_target T) (map_to_list T) = true -> settled no_sha1 T.
Proof.
  intros H. assert (forall n t, T !! n = Some t -> settled_target T (n, t) = true) as Hall.
  { intros n t Ht. rewrite forallb_forall in H. apply H, list_elem_of_In. by apply elem_of_map_to_list. }
  clear H. unfold settled_target in Hall. cbn [fst snd] in Hall. constructor.
  - intros n t Ht. pose proof (Hall n t Ht) as H. rewrite !andb_true_iff, bool_decide_eq_true in H. tauto.
  - intros n t d Ht _ Hd. pose proof (Hall n t Ht) as H. rewrite !andb_true_iff, forallb_forall in H.
    destruct H as [[[_ H] _] _]. apply list_elem_of_In, H, bool_decide_eq_true in Hd. done.
  - intros n t Ht Hg. pose proof (Hall n t Ht) as H. rewrite decide_True, !andb_true_iff, Nat.eqb_eq in H by done.
    destruct H as [[_ H] _]. destruct (h_Deps t) as [|d [|]]; [done|by exists d|done].
  - intros n t Ht. pose proof (Hall n t Ht) as H. destruct (h_Hash t); [by eexists|]. rewrite andb_false_r in H. done.
  - intros n t k h Ht Hk. pose proof (Hall n t Ht) as H. destruct (h_Hash t) as [h'|]; [|by rewrite andb_false_r in H].
    rewrite !andb_true_iff in H. destruct H as [_ H%bool_decide_eq_true]. f_equal. exact (digest_functional _ _ _ _ _ _ _ H Hk).
Qed.

Lemma no_externals g : map_to_list (ExternalRuleTargets g) = [] -> forall i, ~ is_external g i.
Proof. intros E i [r Hr]. apply elem_of_map_to_list in Hr. rewrite E in Hr. by apply elem_of_nil in Hr. Qed.

Lemma full_no_externals : forall i, ~ is_external (sample_graph (full_targets (bs "1") (bs "w"))) i.
Proof. apply no_externals. vm_compute. reflexivity. Qed.

(** ** A history *)

Definition sample_program : Program :=
  {| pg_parse := local_label; pg_sha1 := no_sha1; pg_sort := fun l => l; pg_string := 1; pg_string_list := 5; pg_join := fun _ n => n;
     pg_ranges := in_order |}.

(** A library of one file, and what it generates. *)
Definition lib_rule : Rule :=
  {| ru_Name := Some (bs "//a:lib"); ru_RuleClass := Some (bs "go_library"); ru_Attribute := []; ru_RuleInput := [bs "//a:f.go"];
     ru_RuleOutput := []; ru_DefaultSetting := []; ru_SkylarkEnvironmentHashCode := None |}.

Definition lib_query : list QueryTarget :=
  [ query_rule lib_rule;
    {| qt_Type := Some SOURCE_FILE; qt_Rule := None;
       qt_SourceFile := Some {| so_Name := Some (bs "//a:f.go"); so_Location := Some (bs "a/f.go"); so_VisibilityLabel := [] |};
       qt_GeneratedFile := None; qt_PackageGroup := None |};
    {| qt_Type := Some GENERATED_FILE; qt_Rule := None; qt_SourceFile := None; qt_GeneratedFile := Some (bs "//a:out", bs "//a:lib");
       qt_PackageGroup := None |} ].

(** The full hashing when the file has the content. *)
Definition full_of (content : bytes) : FullHashing :=
  {| fh_source := fun _ => Ok (Some content); fh_param := sample_param; fh_sequential := []; fh_markers := ∅; fh_mapping := ∅;
     fh_ctx := fun _ => false; fh_order_ctx := fun _ => false; fh_cancelled := false; fh_fuel := 10; fh_query := lib_query |}.

Definition run_full (content : bytes) : option (res Result * hstate) :=
  fromProto local_label no_sha1 (fun l => l) 5 (fh_source (full_of content)) (fun _ n => n) map_to_list (fun _ => false) (fun _ => false) false
    sample_param [] ∅ ∅ 10 lib_query {| hs_targets := ∅; hs_calls := 0 |}.

Definition full_result (content : bytes) : Result :=
  match run_full content with Some (Ok r, _) => r | _ => {| rt_TargetNames := []; rt_Targets := ∅; rt_AllTargetsFileHashes := ∅ |} end.

Lemma run_full_ok content : match run_full content with Some (Ok _, _) => true | _ => false end = true -> full_returns sample_program (full_of content) (full_result content).
Proof.
  intros H. unfold full_returns, returns, full_result. change (exists s, run_full content = Some (Ok (match run_full content with Some (Ok r, _) => r
    | _ => {| rt_TargetNames := []; rt_Targets := ∅; rt_AllTargetsFileHashes := ∅ |} end), s)).
  destruct (run_full content) as [[[r|e|] s]|]; [by exists s|discriminate H..].
Qed.

Lemma lib_query_plain : plain_query lib_query.
Proof.
  intros t Ht. apply elem_of_cons in Ht as [->|Ht]; [|apply elem_of_cons in Ht as [->|Ht%list_elem_of_singleton]; [|subst t]].
  - split; [apply (bool_decide_unpack _); vm_compute; exact Logic.I|]. intros ru [= <-].
    split; [apply (bool_decide_unpack _); vm_compute; exact Logic.I|apply NoDup_singleton].
  - split; [by intros [[? ?] _]|done].
  - split; [by intros [[? ?] _]|done].
Qed.

(** Finitely many checks make the full hashing regular. *)
Definition regular_checks (content : bytes) : bool :=
  match prepared local_label no_sha1 (fun l => l) 5 map_to_list (full_of content) with
  | Ok (_, T) => forallb (fun nt => bool_decide (h_RuleType nt.2 = GeneratedFileType -> h_Hash nt.2 = None) &&
      bool_decide (is_Some (merkle local_label no_sha1 (fun l => l) (fh_source (full_of content)) (fun _ n => n) sample_param T 5 nt.1))) (map_to_list T)
  | _ => false
  end.

Lemma regular_by_checks content : regular_checks content = true -> full_regular sample_program (full_of content).
Proof.
  unfold regular_checks. intros H. assert (forall roots T n t, prepared local_label no_sha1 (fun l => l) 5 map_to_list (full_of content) = Ok (roots, T) ->
    T !! n = Some t -> (h_RuleType t = GeneratedFileType -> h_Hash t = None) /\
    is_Some (merkle local_label no_sha1 (fun l => l) (fh_source (full_of content)) (fun _ n => n) sample_param T 5 n)) as Hall.
  { intros roots T n t E Ht. rewrite E, forallb_forall in H. apply elem_of_map_to_list, list_elem_of_In, H in Ht.
    rewrite andb_true_iff, !bool_decide_eq_true in Ht. exact Ht. }
  constructor; [done|done|done|exact lib_query_plain|..].
  - intros roots T n t E Ht. apply (Hall roots T n t E Ht).
  - intros roots T E. exists 5%nat. intros n [t Ht]. apply (Hall roots T n t E Ht).
Qed.

Definition sample_input : UpdateGraphInput :=
  {| DeletedSrcFiles := ∅; ChangedPkgs := {[ bs "a" ]}; DeletedPkgs := ∅; QueryResult := lib_query; ParamOfHashing := sample_param |}.

(** The file changes from "1" to "2". *)
Definition run_update : option (res OptimizedGraph) :=
  updated sample_program (fun _ => Ok (Some (bs "2"))) false (fun _ => false) (fun _ => false) (fun _ => false) 10 sample_input
    (optimized_graph sample_program (full_result (bs "1"))).

Definition updated_graph : OptimizedGraph := match run_update with Some (Ok g) => g | _ => empty_graph end.

Lemma run_update_ok : run_update = Some (Ok updated_graph).
Proof.
  assert (match run_update with Some (Ok _) => true | _ => false end = true) as H by (vm_compute; reflexivity).
  unfold updated_graph. destruct run_update as [[g|e|]|]; [reflexivity|discriminate H..].
Qed.

Lemma sample_history : history sample_program updated_graph.
Proof.
  eapply (history_update _ _ _ _ _ _ _ _ sample_input); [|exact lib_query_plain|exact run_update_ok].
  apply (history_full _ (full_of (bs "1"))); [apply regular_by_checks|apply run_full_ok]; vm_compute; reflexivity.
Qed.

(** * Witnesses *)

(** The hash of the rule alone. *)
Definition rule_hash : bytes := HashRuleCommon (fun l => l) (Some lib_rule).

Lemma incremental_hashes_are_digests_witness :
  hash_by_name updated_graph (bs "//a:lib") = Some (rule_hash ++ bs "2").
Proof.
  apply (proj2 (incremental_hashes_are_digests sample_program updated_graph (bs "//a:lib") 3 (rule_hash ++ bs "2") in_order_ok sample_history)).
  vm_compute. reflexivity.
Defined.

Lemma only_names {V} (m : gmap bytes V) keys n v : (map_to_list m).*1 = keys -> m !! n = Some v -> n ∈ keys.
Proof. intros <- H. apply list_elem_of_fmap. exists (n, v). split; [done|]. by apply elem_of_map_to_list. Qed.

(** Three lookups decide what is described. *)
Lemma updated_described n : describe elements updated_graph n = describe_target (rt_Targets (full_result (bs "2"))) n.
Proof.
  destruct (decide (n ∈ [bs "//a:f.go"; bs "//a:lib"; bs "//a:out"])) as [Hn|Hn].
  { apply elem_of_cons in Hn as [->|Hn]; [vm_compute; reflexivity|].
    apply elem_of_cons in Hn as [->|Hn%list_elem_of_singleton]; [|subst n]; vm_compute; reflexivity. }
  assert (forall V (m : gmap bytes V), bool_decide ((map_to_list m).*1 ⊆ [bs "//a:f.go"; bs "//a:lib"; bs "//a:out"]) = true -> m !! n = None) as Hm.
  { intros V m Hs%bool_decide_eq_true. apply eq_None_not_Some. intros [v Hv]. apply Hn, Hs. by eapply only_names. }
  unfold describe, describe_target. rewrite (Hm _ (rt_Targets _)) by (vm_compute; reflexivity).
  by rewrite (Hm _ (tb_ToID _)) by (vm_compute; reflexivity).
Qed.

Lemma incremental_equals_full_witness :
  hash_by_name updated_graph (bs "//a:out") = rt_Targets (full_result (bs "2")) !! bs "//a:out" ≫= h_Hash /\
  hash_by_name updated_graph (bs "//a:out") <> rt_Targets (full_result (bs "1")) !! bs "//a:out" ≫= h_Hash.
Proof.
  split; [|apply (bool_decide_unpack _); vm_compute; exact Logic.I].
  apply (incremental_equals_full sample_program updated_graph (full_of (bs "2")) (full_result (bs "2")) (bs "//a:out") in_order_ok sample_history).
  - apply regular_by_checks. vm_compute. reflexivity.
  - apply run_full_ok. vm_compute. reflexivity.
  - exact updated_described.
  - apply (bool_decide_unpack _). vm_compute. exact Logic.I.
Defined.

(** ** A hashing that is not regular

    A full hashing gives a generated file of an external repository the hash of the
    repository's marker.  [UpdateGraph] is not given the markers: once the file is listed
    again, it has the hash of its rule, and no longer the one a full hashing gives it. *)

Definition repo_rule : Rule :=
  {| ru_Name := Some (bs "@@r//:tool"); ru_RuleClass := Some (bs "genrule"); ru_Attribute := []; ru_RuleInput := [];
     ru_RuleOutput := []; ru_DefaultSetting := []; ru_SkylarkEnvironmentHashCode := None |}.

Definition repo_query : list QueryTarget :=
  [ query_rule repo_rule;
    {| qt_Type := Some GENERATED_FILE; qt_Rule := None; qt_SourceFile := None; qt_GeneratedFile := Some (bs "@@r//:gen", bs "@@r//:tool");
       qt_PackageGroup := None |} ].

Definition repo_targets : HTargets :=
  match fromProto local_label no_sha1 (fun l => l) 5 (fun _ => Ok None) (fun _ n => n) map_to_list (fun _ => false) (fun _ => false) false
          sample_param [] {[ bs "r" := bs "marker" ]} ∅ 10 repo_query {| hs_targets := ∅; hs_calls := 0 |} with
  | Some (Ok r, _) => rt_Targets r
  | _ => ∅
  end.

Definition repo_updated : OptimizedGraph :=
  match updated sample_program (fun _ => Ok None) false (fun _ => false) (fun _ => false) (fun _ => false) 10
          {| DeletedSrcFiles := ∅; ChangedPkgs := ∅; DeletedPkgs := ∅; QueryResult := repo_query; ParamOfHashing := sample_param |}
          (sample_graph repo_targets) with
  | Some (Ok g) => g
  | _ => empty_graph
  end.

Example marker_hash_forgotten :
  repo_targets !! bs "@@r//:gen" ≫= h_Hash = Some (bs "marker") /\
  hash_by_name (sample_graph repo_targets) (bs "@@r//:gen") = Some (bs "marker") /\
  hash_by_name repo_updated (bs "@@r//:gen") = Some (HashRuleCommon (fun l => l) (Some repo_rule)).
Proof. vm_compute. split_and!; reflexivity. Qed.

(** The full graph, and the library without its file. *)
Definition full_graph : OptimizedGraph := sample_graph (full_targets (bs "1") (bs "w")).
Definition full_state : ustate := {| us_graph := full_graph; us_invalidated := ∅ |}.
Definition smaller_lib : HTarget := set_deps [] (lib_target None (Some (bs "v"))).

Lemma full_state_good : good no_sha1 elements full_state.
Proof.
  apply (optimized_good no_sha1 1 elements (fun s => reflexivity _) map_to_list map_to_list (fun m => reflexivity _) (fun m => reflexivity _)).
  apply settled_by_checks. vm_compute. reflexivity.
Qed.

Definition upserted_state : ustate := match upsertTarget 1 elements smaller_lib full_state with Ok s => s | _ => full_state end.

Lemma upserted_ok : upsertTarget 1 elements smaller_lib full_state = Ok upserted_state.
Proof.
  assert (match upsertTarget 1 elements smaller_lib full_state with Ok _ => true | _ => false end = true) as H by (vm_compute; reflexivity).
  unfold upserted_state. destruct (upsertTarget 1 elements smaller_lib full_state) as [s|e|]; [reflexivity|discriminate H..].
Qed.

Lemma upsertTarget_describes_witness :
  forgets (Some (Combined (Some (bs "v")) [])) (describe elements (us_graph upserted_state) (bs "//a:lib")) /\
  describe elements (us_graph full_state) (bs "//a:lib") = Some (Combined (Some (bs "w")) [bs "//a:f.go"]).
Proof.
  split; [|vm_compute; reflexivity].
  apply (upsertTarget_describes no_sha1 1 in_order in_order_ok smaller_lib full_state upserted_state).
  - exact (proj1 full_state_good).
  - exact upserted_ok.
  - discriminate.
  - apply full_no_externals.
  - intros H. discriminate H.
Defined.

Lemma computeInvalidatedHashes_total_witness :
  us_invalidated upserted_state = {[ 1 ]} /\
  match computeInvalidatedHashes no_sha1 elements (fun _ => false) 5 (us_invalidated upserted_state)
          {| cs_graph := us_graph upserted_state; cs_calls := 0 |} with
  | Some (Ok (), c) => good no_sha1 elements {| us_graph := cs_graph c; us_invalidated := ∅ |} /\
      (forall name, describe elements (cs_graph c) name = describe elements (us_graph upserted_state) name)
  | Some (Err e, _) => (e = cancelled_err /\ exists i : Z, false = true) \/ ~ complete (us_graph upserted_state)
  | _ => False
  end.
Proof.
  split; [vm_compute; reflexivity|].
  apply (computeInvalidatedHashes_total no_sha1 in_order in_order_ok (fun _ => false) 5 upserted_state).
  - apply (upsertTarget_good no_sha1 elements (fun s => reflexivity _) 1 smaller_lib full_state upserted_state); [exact full_state_good|left; reflexivity|exact upserted_ok].
  - apply (bool_decide_unpack _). vm_compute. exact Logic.I.
Defined.

(** The file's dependents are invalidated with it. *)
Lemma invalidation_exact_witness :
  elements (us_invalidated (invalidateHashRecursively elements {[ 0 ]} full_state)) = [1; 0] /\
  invalid (OptimizedTargets full_graph) {[ 0 ]} 1.
Proof.
  assert (elements (us_invalidated (invalidateHashRecursively elements {[ 0 ]} full_state)) = [1; 0]) as E by (vm_compute; reflexivity).
  split; [exact E|].
  assert (1 ∈ elements (us_invalidated (invalidateHashRecursively elements {[ 0 ]} full_state))) as Hin by (rewrite E; left).
  pose proof (proj1 (elem_of_elements _ _) Hin) as Hin'.
  destruct (proj1 (proj1 (proj2 (invalidation_exact in_order in_order_ok {[ 0 ]} full_state 1))) Hin') as [Hx|Hx]; [|exact Hx].
  exfalso. exact (not_elem_of_empty (C := gset Z) 1 Hx).
Defined.

(** An external rule with a new version. *)
Definition external_graph : OptimizedGraph := sample_graph (<[bs "//external:x" := external_target_of (bs "old")]> ∅).
Definition stale_state : ustate :=
  upsertExternalRuleTarget elements (external_target_of (bs "new")) {| us_graph := Copy external_graph; us_invalidated := ∅ |}.

Lemma copied_external_stays_stale_witness :
  it_Hash <$> OptimizedTargets (us_graph stale_state) !! 0 = Some (Some (bs "new")) /\
  exists c, computeHashes no_sha1 elements (fun _ => false) 1 0 {| cs_graph := us_graph stale_state; cs_calls := 0 |} =
    Some (Ok (Some (bs "old")), c).
Proof.
  split; [vm_compute; reflexivity|].
  assert (exists t, external_target external_graph 0 = Some t /\ it_Hash t = Some (bs "old")) as (t & Ht & Hh).
  { destruct (external_target external_graph 0) as [t|] eqn:E.
    - exists t. split; [reflexivity|]. assert (it_Hash <$> external_target external_graph 0 = Some (Some (bs "old"))) as H by (vm_compute; reflexivity).
      rewrite E in H. injection H as H. exact H.
    - assert (it_Hash <$> external_target external_graph 0 = Some (Some (bs "old"))) as H by (vm_compute; reflexivity).
      rewrite E in H. discriminate H. }
  rewrite <- Hh. apply (copied_external_stays_stale no_sha1 elements (fun _ => false) 0 external_graph (external_target_of (bs "new")) 0 t ∅ 0).
  - intros s. reflexivity.
  - vm_compute. reflexivity.
  - exact Ht.
  - apply (bool_decide_unpack _). vm_compute. exact Logic.I.
  - reflexivity.
Defined.
