(* ===== verification/Text.v ===== *)
(** The text of Go's standard library that keys and paths are made of: decimal numbers
    ([strconv]), splitting ([strings]), cleaned paths ([path], and [path/filepath] on
    Unix), escaped URL segments ([net/url]), dates ([time]). *)
From Stdlib Require Import ZArith Lia.
From stdpp Require Import gmap list.
From S2P Require Import Prelude.

Local Open Scope Z_scope.

Definition all_bytes : list byte := z2b <$> zrange 0 256.

Lemma elem_of_all_bytes c : c ∈ all_bytes.
Proof.
  apply list_elem_of_fmap. exists (b2z c). split; [by rewrite z2b_b2z|]. apply elem_of_zrange. pose proof (b2z_bound c). lia.
Qed.

(** A boolean property of bytes, by cases. *)
Lemma byte_cases (p : byte -> bool) : forallb p all_bytes = true -> forall c, p c = true.
Proof. intros H c. exact (proj1 (forallb_forall _ _) H c (proj1 (list_elem_of_In _ _) (elem_of_all_bytes c))). Qed.

(** A closed decidable fact. *)
Ltac decided := refine (bool_decide_unpack _ _); vm_compute; exact Logic.I.

(** * Numbers *)

Definition digit (n : Z) : byte := z2b (48 + n).
Definition digit_value (c : byte) : option Z := let v := b2z c - 48 in if decide (0 <= v < 10) then Some v else None.

Fixpoint digits (fuel : nat) (n : Z) : bytes :=
  match fuel with
  | O => []
  | S fuel => if decide (n < 10) then [digit n] else digits fuel (n / 10) ++ [digit (n mod 10)]
  end.

(** A number has no more digits than bits. *)
Definition utoa (n : Z) : bytes := digits (S (Z.to_nat (Z.log2 n))) n.
Definition itoa (z : Z) : bytes := if decide (z < 0) then x2d :: utoa (- z) else utoa z.

Definition parse_step (acc : option Z) (c : byte) : option Z :=
  acc ← acc; v ← digit_value c; Some (acc * 10 + v).
Definition parse_uint (s : bytes) : option Z := if decide (s = []) then None else foldl parse_step (Some 0) s.

(** [strconv.ParseInt(s, 10, 64)] *)
Definition ParseInt (s : bytes) : option Z :=
  let '(neg, rest) := match s with
                      | c :: rest => if decide (c = x2d) then (true, rest) else if decide (c = x2b) then (false, rest) else (false, s)
                      | [] => (false, s)
                      end in
  un ← parse_uint rest;
  if neg then (if decide (un <= 2^63) then Some (- un) else None) else (if decide (un < 2^63) then Some un else None).

Definition is_digit (c : byte) : Prop := is_Some (digit_value c).

Lemma digit_value_digit n : 0 <= n < 10 -> digit_value (digit n) = Some n.
Proof.
  intros Hn. unfold digit_value, digit. rewrite b2z_z2b_small by lia. rewrite decide_True by lia. f_equal. lia.
Qed.

Lemma log2_div10 n : 10 <= n -> Z.to_nat (Z.log2 n) = S (Z.to_nat (Z.log2 n) - 1) /\ Z.log2 (n / 10) < Z.log2 n.
Proof.
  intros Hn. assert (3 <= Z.log2 n) as H3 by (change 3 with (Z.log2 10); by apply Z.log2_le_mono).
  split; [lia|]. apply Z.log2_lt_pow2; [by apply Z.div_str_pos|]. apply Z.div_lt_upper_bound; [lia|].
  pose proof (Z.log2_spec n ltac:(lia)) as [_ Hs]. rewrite Z.pow_succ_r in Hs by lia. lia.
Qed.

Lemma digits_spec fuel n : 0 <= n -> (Z.to_nat (Z.log2 n) < fuel)%nat ->
  Forall is_digit (digits fuel n) /\ digits fuel n <> [] /\
  forall acc, foldl parse_step (Some acc) (digits fuel n) = Some (acc * 10 ^ zlen (digits fuel n) + n).
Proof.
  revert n. induction fuel as [|fuel IH]; intros n Hn Hf; [lia|]. cbn [digits]. case_decide as Hd.
  - pose proof (digit_value_digit n ltac:(lia)) as Hv. split_and!; [constructor; [|done]; by exists n|done|].
    intros acc. cbn. unfold parse_step. rewrite Hv. cbn. done.
  - destruct (log2_div10 n ltac:(lia)) as [Hl Hdiv]. destruct (IH (n / 10)) as (Hall & Hne & Hp); [by apply Z.div_pos|lia|].
    pose proof (digit_value_digit (n mod 10) ltac:(pose proof (Z.mod_pos_bound n 10); lia)) as Hv.
    split_and!.
    + apply Forall_app. split; [done|]. constructor; [|done]. by exists (n mod 10).
    + by destruct (digits fuel (n / 10)).
    + intros acc. rewrite foldl_app, Hp. cbn. unfold parse_step. cbn. rewrite Hv. cbn. f_equal.
      rewrite zlen_app. change (zlen [digit (n mod 10)]) with 1. rewrite Z.pow_add_r by (try apply zlen_nonneg; lia).
      pose proof (Z.div_mod n 10). lia.
Qed.

Lemma utoa_digits n : 0 <= n -> Forall is_digit (utoa n) /\ utoa n <> [].
Proof. intros Hn. destruct (digits_spec (S (Z.to_nat (Z.log2 n))) n) as (?&?&_); [done|lia|]. done. Qed.

Lemma parse_utoa n : 0 <= n -> parse_uint (utoa n) = Some n.
Proof.
  intros Hn. destruct (digits_spec (S (Z.to_nat (Z.log2 n))) n) as (_&Hne&Hp); [done|lia|].
  unfold parse_uint. rewrite decide_False by done. apply (Hp 0).
Qed.

Lemma digit_not c d : is_digit c -> digit_value d = None -> c <> d.
Proof. intros [v Hv] Hd ->. congruence. Qed.

Lemma utoa_head n : 0 <= n -> exists c rest, utoa n = c :: rest /\ c <> x2d /\ c <> x2b.
Proof.
  intros Hn. destruct (utoa_digits n Hn) as [Hall Hne]. destruct (utoa n) as [|c rest]; [done|]. exists c, rest.
  apply Forall_cons in Hall as [Hc _]. split_and!; [done| |]; by apply digit_not.
Qed.

Lemma ParseInt_itoa z : -2^63 <= z < 2^63 -> ParseInt (itoa z) = Some z.
Proof.
  intros Hz. unfold itoa, ParseInt. case_decide as Hneg.
  - rewrite decide_True by done. rewrite parse_utoa by lia. cbn. rewrite decide_True by lia. f_equal. lia.
  - destruct (utoa_head z ltac:(lia)) as (c & rest & E & H1 & H2). rewrite E, decide_False, decide_False by done. rewrite <- E.
    rewrite parse_utoa by lia. cbn. by rewrite decide_True by lia.
Qed.

Lemma itoa_inj z z' : -2^63 <= z < 2^63 -> -2^63 <= z' < 2^63 -> itoa z = itoa z' -> z = z'.
Proof. intros H H' E. apply (f_equal ParseInt) in E. rewrite !ParseInt_itoa in E by done. congruence. Qed.

(** No other byte occurs in a number. *)
Lemma itoa_free c z : digit_value c = None -> c <> x2d -> c ∉ itoa z.
Proof.
  intros Hc Hm. assert (forall n, 0 <= n -> c ∉ utoa n) as Hu.
  { intros n Hn Hin. destruct (utoa_digits n Hn) as [Hall _]. rewrite Forall_forall in Hall.
    exact (digit_not _ _ (Hall c Hin) Hc eq_refl). }
  unfold itoa. case_decide; [|apply Hu; lia]. rewrite not_elem_of_cons. split; [done|]. apply Hu. lia.
Qed.

Lemma itoa_nonempty z : itoa z <> [].
Proof. unfold itoa. case_decide; [done|]. apply utoa_digits. lia. Qed.

(** * Splitting *)

(** [strings.SplitN(s, c, 2)] when it has two parts, and [strings.Cut]. *)
Fixpoint cut (c : byte) (s : bytes) : option (bytes * bytes) :=
  match s with
  | [] => None
  | b :: s => if decide (b = c) then Some ([], s) else prod_map (cons b) id <$> cut c s
  end.

Lemma cut_app c a b : c ∉ a -> cut c (a ++ c :: b) = Some (a, b).
Proof.
  induction a as [|x a IH]; cbn; [by rewrite decide_True|]. rewrite not_elem_of_cons. intros [Hx Ha].
  rewrite decide_False by congruence. by rewrite IH.
Qed.

Lemma cut_Some c s a b : cut c s = Some (a, b) -> s = a ++ c :: b /\ c ∉ a.
Proof.
  revert a b. induction s as [|x s IH]; intros a b; cbn; [done|]. case_decide as Hx.
  - intros [= <- <-]. subst x. split; [done|]. by apply not_elem_of_nil.
  - intros ([a1 b1] & E & [= -> ->])%fmap_Some. apply IH in E as [-> Ha]. split; [done|]. apply not_elem_of_cons. split; [congruence|done].
Qed.

(** A terminated prefix is determined. *)
Lemma app_sep_inj (c : byte) a a' b b' : c ∉ a -> c ∉ a' -> a ++ c :: b = a' ++ c :: b' -> a = a' /\ b = b'.
Proof. intros Ha Ha' E. apply (f_equal (cut c)) in E. rewrite !cut_app in E by done. by injection E. Qed.

(** [strings.Split] and [strings.Join], by a byte. *)
Fixpoint split_on (c : byte) (s : bytes) : list bytes :=
  match s with
  | [] => [[]]
  | b :: s =>
      if decide (b = c) then [] :: split_on c s
      else match split_on c s with h :: t => (b :: h) :: t | [] => [[b]] end
  end.

Fixpoint join_with (c : byte) (l : list bytes) : bytes :=
  match l with
  | [] => []
  | [x] => x
  | x :: l => x ++ c :: join_with c l
  end.

Lemma split_on_nonempty c s : split_on c s <> [].
Proof. destruct s as [|b s]; cbn; [done|]. case_decide; [done|]. by destruct (split_on c s). Qed.

Lemma split_on_free c s : c ∉ s -> split_on c s = [s].
Proof.
  induction s as [|b s IH]; cbn; [done|]. rewrite not_elem_of_cons. intros [Hb Hs]. rewrite decide_False by congruence.
  by rewrite IH.
Qed.

Lemma split_on_app c a b : split_on c (a ++ c :: b) = split_on c a ++ split_on c b.
Proof.
  induction a as [|x a IH]; cbn; [by rewrite decide_True|]. case_decide; [by rewrite IH|]. rewrite IH.
  by destruct (split_on c a) eqn:E; [apply split_on_nonempty in E|].
Qed.

Lemma split_on_elem c s x : x ∈ split_on c s -> c ∉ x.
Proof.
  revert x. induction s as [|b s IH]; intros x; cbn.
  - rewrite list_elem_of_singleton. intros ->. by apply not_elem_of_nil.
  - case_decide as Hb.
    + rewrite elem_of_cons. intros [->|Hx]; [by apply not_elem_of_nil|by apply IH].
    + destruct (split_on c s) as [|h t] eqn:E; [by apply split_on_nonempty in E|].
      rewrite elem_of_cons. intros [->|Hx]; [|apply IH; by right]. rewrite not_elem_of_cons. split; [congruence|]. apply IH. by left.
Qed.

Lemma join_with_cons c x l : l <> [] -> join_with c (x :: l) = x ++ c :: join_with c l.
Proof. by destruct l. Qed.

(** Splitting joined parts splits the parts. *)
Lemma split_join_parts c l : l <> [] -> split_on c (join_with c l) = concat (split_on c <$> l).
Proof.
  induction l as [|x l IH]; [done|]. intros _. destruct (decide (l = [])) as [->|Hl]; [cbn; by rewrite app_nil_r|].
  rewrite join_with_cons, split_on_app, IH by done. done.
Qed.

Lemma split_join c l : l <> [] -> Forall (fun x => c ∉ x) l -> split_on c (join_with c l) = l.
Proof.
  intros Hl Hf. rewrite split_join_parts by done. clear Hl. induction Hf as [|x l Hx Hf IH]; cbn; [done|].
  by rewrite split_on_free, IH.
Qed.

Lemma join_with_split c s : join_with c (split_on c s) = s.
Proof.
  induction s as [|b s IH]; cbn; [done|]. pose proof (split_on_nonempty c s) as Hne. case_decide as Hb.
  - rewrite join_with_cons, IH by done. by subst b.
  - destruct (split_on c s) as [|h t]; [done|]. destruct t; cbn in *; by rewrite IH.
Qed.

Lemma join_with_inj c l l' : l <> [] -> l' <> [] -> Forall (fun x => c ∉ x) l -> Forall (fun x => c ∉ x) l' ->
  join_with c l = join_with c l' -> l = l'.
Proof. intros Hl Hl' Hf Hf' E. by rewrite <- (split_join c l Hl Hf), E, split_join. Qed.

Lemma join_with_app c l l' : l <> [] -> l' <> [] -> join_with c (l ++ l') = join_with c l ++ c :: join_with c l'.
Proof.
  intros Hl Hl'. induction l as [|x l IH]; [done|]. destruct (decide (l = [])) as [->|Hne]; [by apply join_with_cons|].
  cbn [app]. rewrite !join_with_cons by (try done; by destruct l). by rewrite IH, <- app_assoc by done.
Qed.

Definition trim_prefix_of (p s : bytes) : bytes := if decide (p `prefix_of` s) then drop (length p) s else s.

Lemma trim_prefix_of_app p s : trim_prefix_of p (p ++ s) = s.
Proof. unfold trim_prefix_of. rewrite decide_True by apply prefix_app_r, reflexivity. by rewrite drop_app_length. Qed.

(** * Paths *)

Definition slash : byte := x2f.
Definition dot : bytes := [x2e].
Definition dotdot : bytes := [x2e; x2e].

(** One segment of [path.Clean]; the segments kept so far are in reverse. *)
Definition clean_step (rooted : bool) (out : list bytes) (seg : bytes) : list bytes :=
  if decide (seg = [] \/ seg = dot) then out
  else if decide (seg = dotdot) then
    match out with
    | top :: out' => if decide (top = dotdot) then seg :: out else out'
    | [] => if rooted then [] else [dotdot]
    end
  else seg :: out.

Definition Clean (path : bytes) : bytes :=
  if decide (path = []) then dot
  else
    let rooted := bool_decide (head path = Some slash) in
    let out := reverse (foldl (clean_step rooted) [] (split_on slash path)) in
    if rooted then slash :: join_with slash out
    else if decide (out = []) then dot else join_with slash out.

Fixpoint drop_empty (elems : list bytes) : list bytes :=
  match elems with [] :: elems => drop_empty elems | _ => elems end.

Definition Join (elems : list bytes) : bytes :=
  match drop_empty elems with
  | [] => []
  | elems => Clean (join_with slash elems)
  end.

(** A segment that [Clean] keeps. *)
Definition normal (seg : bytes) : Prop := seg <> [] /\ (slash ∉ seg) /\ seg <> dot /\ seg <> dotdot.
(** Text all of whose segments are kept. *)
Definition plain (s : bytes) : Prop := Forall normal (split_on slash s).

#[export] Instance normal_dec seg : Decision (normal seg). Proof. unfold normal. apply _. Defined.
#[export] Instance plain_dec s : Decision (plain s). Proof. unfold plain. apply _. Defined.

Lemma normal_plain s : normal s -> plain s.
Proof. intros Hs. unfold plain. rewrite split_on_free by apply Hs. by constructor. Qed.

Lemma clean_normal rooted out l : Forall normal l -> foldl (clean_step rooted) out l = reverse l ++ out.
Proof.
  revert out. induction l as [|x l IH]; intros out H; [done|]. apply Forall_cons in H as [(Hx & _ & Hd & Hdd) Hl].
  cbn [foldl]. unfold clean_step at 2. rewrite decide_False by tauto. rewrite decide_False by done.
  by rewrite IH, reverse_cons, <- app_assoc.
Qed.

Lemma plain_head s : plain s -> s <> [] /\ head s <> Some slash.
Proof.
  unfold plain. destruct s as [|b s]; cbn; [by intros [(?&_) _]%Forall_cons|]. intros H. split; [done|]. intros [= ->].
  rewrite decide_True in H by done. by apply Forall_cons in H as [(?&_) _].
Qed.

Lemma Clean_plain s : plain s -> Clean s = s.
Proof.
  intros Hs. destruct (plain_head s Hs) as [Hne Hh]. unfold Clean. rewrite decide_False by done.
  rewrite bool_decide_false by done. rewrite clean_normal by done. rewrite app_nil_r, reverse_involutive.
  rewrite decide_False by apply split_on_nonempty. apply join_with_split.
Qed.

Lemma plain_join l : l <> [] -> Forall plain l -> plain (join_with slash l).
Proof.
  intros Hl Hf. unfold plain. rewrite split_join_parts by done. clear Hl. induction Hf as [|x l Hx Hf IH]; [by constructor|].
  cbn. by apply Forall_app.
Qed.

Lemma Join_plain l : l <> [] -> Forall plain l -> Join l = join_with slash l.
Proof.
  intros Hl Hf. unfold Join. assert (drop_empty l = l) as ->.
  { destruct Hf as [|x l Hx Hf]; [done|]. apply plain_head in Hx as [Hx _]. by destruct x. }
  destruct l as [|x l]; [done|]. by apply Clean_plain, plain_join.
Qed.

(** What [Clean] keeps of a rooted path. *)
Definition kept (path : bytes) : list bytes := reverse (foldl (clean_step true) [] (split_on slash path)).

Lemma kept_normal path : Forall normal (kept path).
Proof.
  unfold kept. apply Forall_reverse. assert (forall l out, Forall (fun x => slash ∉ x) l -> Forall normal out -> Forall normal (foldl (clean_step true) out l)) as H.
  { induction l as [|x l IH]; intros out Hl Ho; [done|]. apply Forall_cons in Hl as [Hx Hl]. cbn [foldl]. apply IH; [done|].
    unfold clean_step. case_decide as H1; [done|]. case_decide as H2.
    - destruct Ho as [|top out Ht Ho]; [done|]. case_decide as H3; [|done]. subst top. by destruct Ht as (_ & _ & _ & ?).
    - constructor; [|done]. split_and!; [tauto|done|tauto|done]. }
  apply H; [|done]. apply Forall_forall. intros x. apply split_on_elem.
Qed.

Lemma kept_app path rest : Forall normal (split_on slash rest) -> kept (path ++ slash :: rest) = kept path ++ split_on slash rest.
Proof.
  intros H. unfold kept. rewrite split_on_app, foldl_app, clean_normal by done. by rewrite reverse_app, reverse_involutive.
Qed.

Lemma Clean_rooted path : head path = Some slash -> Clean path = slash :: join_with slash (kept path).
Proof.
  intros H. unfold Clean, kept. rewrite decide_False by (by intros ->). by rewrite bool_decide_true.
Qed.

Lemma kept_Clean path : head path = Some slash -> kept (Clean path) = kept path.
Proof.
  intros H. rewrite Clean_rooted by done. pose proof (kept_normal path) as Hn. set (l := kept path) in *. unfold kept.
  assert (split_on slash (slash :: join_with slash l) = [] :: split_on slash (join_with slash l)) as -> by (cbn; by rewrite decide_True).
  cbn [foldl]. unfold clean_step at 2. rewrite decide_True by auto.
  destruct (decide (l = [])) as [->|Hne]; [done|]. rewrite split_join; [|done|eapply Forall_impl; [exact Hn|intros x Hx; apply Hx]].
  rewrite clean_normal by done. by rewrite app_nil_r, reverse_involutive.
Qed.

(** Text appended to the last segment, as the keys do. *)
Lemma plain_app s t : plain s -> slash ∉ t -> Forall (fun b => b <> x2e) t -> plain (s ++ t).
Proof.
  intros Hs Ht Hd. destruct (decide (t = [])) as [->|Hne]; [by rewrite app_nil_r|]. unfold plain in *.
  assert (exists l x, split_on slash s = l ++ [x] /\ split_on slash (s ++ t) = l ++ [x ++ t]) as (l & x & E & ->).
  { clear Hs. induction s as [|b s IH]; cbn; [exists [], []; by rewrite split_on_free|].
    destruct IH as (l & x & E & E'). rewrite E, E'. case_decide; [by exists ([] :: l), x|].
    destruct l as [|h l]; cbn; [by exists [], (b :: x)|by exists ((b :: h) :: l), x]. }
  rewrite E in Hs. apply Forall_app in Hs as [Hl [(Hx & Hs & _ & _) _]%Forall_cons]. apply Forall_app. split; [done|].
  constructor; [|done]. split_and!; [by destruct x|by rewrite not_elem_of_app| |].
  all: destruct t as [|c t]; [done|]; apply Forall_cons in Hd as [Hc _]; intros E'.
  - destruct x as [|a [|a' x]]; [done| |]; cbn in E'; discriminate E'.
  - destruct x as [|a [|a' x]]; [done| |]; cbn in E'; [by injection E'|]. injection E' as _ _ E'. by destruct x.
Qed.

(** * URL segments *)

(** [shouldEscape(c, encodePathSegment)] *)
Definition unreserved (c : byte) : bool :=
  let v := b2z c in
  bool_decide (97 <= v <= 122 \/ 65 <= v <= 90 \/ 48 <= v <= 57 \/ c ∈ bs "-_.~$&+:=@").

Definition upper_hex (v : Z) : byte := if decide (v < 10) then z2b (48 + v) else z2b (65 + (v - 10)).

Definition escape_byte (c : byte) : bytes :=
  if unreserved c then [c] else [x25; upper_hex (Z.shiftr (b2z c) 4); upper_hex (Z.land (b2z c) 15)].

Definition PathEscape (s : bytes) : bytes := concat (escape_byte <$> s).

Lemma escape_slash c : slash ∉ escape_byte c.
Proof.
  pose proof (byte_cases (fun c => negb (bool_decide (slash ∈ escape_byte c))) ltac:(by vm_compute) c) as H. cbn beta in H.
  rewrite negb_true_iff in H. by rewrite bool_decide_eq_false in H.
Qed.

Lemma PathEscape_slash s : slash ∉ PathEscape s.
Proof.
  unfold PathEscape. rewrite list_elem_of_In, in_concat. intros (x & Hx & Hs). apply list_elem_of_In, list_elem_of_fmap in Hx as (c & -> & _).
  by apply list_elem_of_In, escape_slash in Hs.
Qed.

(** Decoding a segment: what the escape of a byte starts with tells the byte. *)
Definition unescape_step (s : bytes) : option (byte * bytes) :=
  match s with
  | a :: b :: c :: rest =>
      if decide (a = x25) then head (filter (fun x => escape_byte x = [a; b; c]) all_bytes) ≫= fun x => Some (x, rest)
      else Some (a, b :: c :: rest)
  | a :: rest => Some (a, rest)
  | [] => None
  end.

Lemma escape_prefix c r : match escape_byte c with
  | [a] => a = c /\ a <> x25
  | [a; b; d] => a = x25 /\ unescape_step (a :: b :: d :: r) = Some (c, r)
  | _ => False
  end.
Proof.
  assert (match escape_byte c with
    | [a] => a = c /\ a <> x25
    | [a; b; d] => a = x25 /\ head (filter (fun x => escape_byte x = [a; b; d]) all_bytes) = Some c
    | _ => False
    end) as H.
  { pose (p c := match escape_byte c with
      | [a] => bool_decide (a = c /\ a <> x25)
      | [a; b; d] => bool_decide (a = x25 /\ head (filter (fun x => escape_byte x = [a; b; d]) all_bytes) = Some c)
      | _ => false end).
    assert (p c = true) as H by (apply byte_cases; by vm_compute). unfold p in H.
    destruct (escape_byte c) as [|a [|b [|d [|e l]]]]; try done; by apply bool_decide_eq_true in H. }
  destruct (escape_byte c) as [|a [|b [|d [|e l]]]]; try done. destruct H as [-> H]. split; [done|].
  unfold unescape_step. by rewrite decide_True, H.
Qed.

Lemma PathEscape_inj s s' : PathEscape s = PathEscape s' -> s = s'.
Proof.
  assert (forall c s, unescape_step (PathEscape (c :: s)) = Some (c, PathEscape s)) as Hu.
  { clear. intros c s. unfold PathEscape. cbn. pose proof (escape_prefix c (PathEscape s)) as H.
    destruct (escape_byte c) as [|a [|b [|d [|e l]]]]; try done; [|by apply H]. destruct H as [-> Hc]. cbn.
    destruct (concat (escape_byte <$> s)) as [|x [|y l]]; try done. by rewrite decide_False. }
  revert s'. induction s as [|c s IH]; intros [|c' s'] E; [done|..].
  - apply (f_equal unescape_step) in E. by rewrite Hu in E.
  - apply (f_equal unescape_step) in E. by rewrite Hu in E.
  - apply (f_equal unescape_step) in E. rewrite !Hu in E. injection E as -> E. f_equal. by apply IH.
Qed.

Lemma PathEscape_normal s : s <> [] -> s <> dot -> s <> dotdot -> normal (PathEscape s).
Proof.
  intros H0 H1 H2. split_and!; [..|apply PathEscape_slash| |]; intros E.
  - by apply (PathEscape_inj s []) in E.
  - by apply (PathEscape_inj s dot) in E.
  - by apply (PathEscape_inj s dotdot) in E.
Qed.

(** * Dates *)

(** The proleptic Gregorian date of a day since 1 January 1970. *)
Definition civil (days : Z) : Z * Z * Z :=
  let z := days + 719468 in
  let era := z / 146097 in
  let doe := z mod 146097 in
  let yoe := (doe - doe / 1460 + doe / 36524 - doe / 146096) / 365 in
  let doy := doe - (365 * yoe + yoe / 4 - yoe / 100) in
  let mp := (5 * doy + 2) / 153 in
  let d := doy - (153 * mp + 2) / 5 + 1 in
  let m := if decide (mp < 10) then mp + 3 else mp - 9 in
  (yoe + era * 400 + (if decide (m <= 2) then 1 else 0), m, d).

(** [appendInt] of package time: zeros up to a width, after the sign. *)
Definition padded (width : nat) (n : Z) : bytes :=
  let s := utoa (Z.abs n) in
  (if decide (n < 0) then [x2d] else []) ++ replicate (width - length s) x30 ++ s.

(** [time.Unix(sec, 0).UTC().Format("2006-01-02")], for seconds on which Go's clock does not wrap. *)
Definition FormatDate (sec : Z) : bytes :=
  let '(y, m, d) := civil (sec / 86400) in
  padded 4 y ++ [x2d] ++ padded 2 m ++ [x2d] ++ padded 2 d.

Lemma padded_chars w n : Forall (fun c => is_digit c \/ c = x2d) (padded w n) /\ padded w n <> [].
Proof.
  unfold padded. destruct (utoa_digits (Z.abs n) ltac:(lia)) as [Hall Hne]. split.
  - apply Forall_app. split; [case_decide; [by repeat constructor; right|done]|]. apply Forall_app. split.
    + apply Forall_replicate. left. by exists 0.
    + eapply Forall_impl; [exact Hall|]. auto.
  - intros [_ [_ ?]%app_eq_nil]%app_eq_nil. done.
Qed.

Lemma FormatDate_normal sec : normal (FormatDate sec).
Proof.
  unfold FormatDate. destruct (civil (sec / 86400)) as [[y m] d].
  assert (Forall (fun c => is_digit c \/ c = x2d) (padded 4 y ++ [x2d] ++ padded 2 m ++ [x2d] ++ padded 2 d)) as Hall.
  { rewrite !Forall_app. split_and!; try apply padded_chars; repeat constructor; by right. }
  assert (forall c, digit_value c = None -> c <> x2d -> c ∉ padded 4 y ++ [x2d] ++ padded 2 m ++ [x2d] ++ padded 2 d) as Hno.
  { intros c Hc Hm Hin. rewrite Forall_forall in Hall. destruct (Hall c Hin) as [Hd| ->]; [|done]. exact (digit_not _ _ Hd Hc eq_refl). }
  destruct (padded_chars 4 y) as [_ Hne].
  split_and!; [by destruct (padded 4 y)|by apply Hno| |]; intros E; apply (Hno x2e eq_refl ltac:(done)); rewrite E; by left.
Qed.

Example dates : FormatDate 0 = bs "1970-01-01" /\ FormatDate 951782400 = bs "2000-02-29" /\ FormatDate (-1) = bs "1969-12-31" /\
  FormatDate 1735689599 = bs "2024-12-31".
Proof. by vm_compute. Qed.
