(* ===== verification/Storage.v ===== *)
(** Blob storage ([core/storage/storage.go], [memstorage.go], [ctxreader.go] and
    [core/storage/disk/disk.go]): what an implementation promises to its clients, the one
    in memory and the one on disk. *)
From Stdlib Require Import ZArith Lia.
From stdpp Require Import gmap fin_maps list.
From S2P Require Import Prelude Bfs Encode TgbHash Text.

Local Open Scope Z_scope.

(** * The interface *)

(** An [io.Reader]: what its reads return, before [io.EOF].  The context is polled by a
    count of polls. *)
Definition reader : Type := list (res bytes).

(** [io.Copy] of a [CtxReader], which polls the context before each read. *)
Fixpoint copy_reader (ctx : Z -> bool) (polls : Z) (reads : reader) : res bytes :=
  if ctx polls then Err cancelled_err
  else match reads with
       | [] => Ok []
       | r :: reads => b ← r; rest ← copy_reader ctx (polls + 1) reads; Ok (b ++ rest)
       end.

(** [storage.Storage].  [None] is a missing blob, which [IsNotFound] tells from other errors. *)
Class Storage (S : Type) := {
  st_contents : S -> gmap bytes bytes;  (** what is stored *)
  st_ok : S -> Prop;
  st_get : bool -> bytes -> S -> res (option bytes);
  st_put : (Z -> bool) -> bytes -> option reader -> S -> res () * S;
  st_exists : bool -> bytes -> S -> res bool;
  st_list : bool -> bytes -> S -> res (list bytes);
}.

(** The bytes of a reader without errors. *)
Definition read_bytes (reads : reader) : bytes := concat (omap (fun x => match x with Ok b => Some b | _ => None end) reads).

(** What the doc comments of the interface promise.  A call may fail when its context is
    cancelled. *)
Class StorageLaws (S : Type) `{Storage S} := {
  st_get_spec cancelled key s : st_ok s ->
    st_get cancelled key s = Ok (st_contents s !! key) \/ (cancelled = true /\ exists e, st_get cancelled key s = Err e);
  st_exists_spec cancelled key s : st_ok s ->
    st_exists cancelled key s = Ok (bool_decide (is_Some (st_contents s !! key))) \/
    (cancelled = true /\ exists e, st_exists cancelled key s = Err e);
  st_list_spec prefix s : st_ok s -> exists keys, st_list false prefix s = Ok keys /\ NoDup keys /\
    forall key, key ∈ keys <-> is_Some (st_contents s !! key) /\ prefix `prefix_of` key;
  st_put_ok ctx key r s : st_ok s -> st_ok (st_put ctx key r s).2;
  (** A blob is stored as a whole, or not at all. *)
  st_put_spec ctx key r s : st_ok s ->
    match (st_put ctx key r s).1 with
    | Ok _ => exists reads, r = Some reads /\ Forall (fun x => is_ok x = true) reads /\
        st_contents (st_put ctx key r s).2 = <[key := read_bytes reads]> (st_contents s)
    | _ => st_contents (st_put ctx key r s).2 = st_contents s
    end;
}.

Lemma st_get_false {T} `{!Storage T, !StorageLaws T} key (s : T) : st_ok s -> st_get false key s = Ok (st_contents s !! key).
Proof. intros Hs. by destruct (st_get_spec false key s Hs) as [?|[? _]]. Qed.

Lemma st_exists_false {T} `{!Storage T, !StorageLaws T} key (s : T) : st_ok s -> st_exists false key s = Ok (bool_decide (is_Some (st_contents s !! key))).
Proof. intros Hs. by destruct (st_exists_spec false key s Hs) as [?|[? _]]. Qed.

Lemma copy_reader_Ok ctx polls reads b : copy_reader ctx polls reads = Ok b ->
  b = read_bytes reads /\ Forall (fun x => is_ok x = true) reads.
Proof.
  revert polls b. induction reads as [|r reads IH]; intros polls b; cbn; destruct (ctx polls); try done.
  - by intros [= <-].
  - destruct r as [x| |]; cbn; [|done..]. destruct (copy_reader ctx (polls + 1) reads) as [rest| |] eqn:E; cbn; [|done..].
    intros [= <-]. apply IH in E as [-> Hall]. split; [done|]. by constructor.
Qed.

Lemma copy_reader_total ctx polls reads : (forall i, ctx i = false) -> Forall (fun x => is_ok x = true) reads ->
  copy_reader ctx polls reads = Ok (read_bytes reads).
Proof.
  intros Hc. revert polls. induction reads as [|r reads IH]; intros polls Hall; cbn; rewrite Hc; [done|].
  apply Forall_cons in Hall as [Hr Hall]. destruct r as [b| |]; [|done..]. cbn. by rewrite IH.
Qed.

(** * In memory *)

(** The order in which Go visits the keys of a map. *)
Section memory.
Context (keys_range : gmap bytes bytes -> list bytes) (keys_range_perm : forall m, keys_range m ≡ₚ (map_to_list m).*1).

Definition memory_Get (key : bytes) (data : gmap bytes bytes) : res (option bytes) := Ok (data !! key).

Definition memory_Put (ctx : Z -> bool) (key : bytes) (r : option reader) (data : gmap bytes bytes) : res () * gmap bytes bytes :=
  match r with
  | None => (Err "nil reader", data)
  | Some reads =>
      match copy_reader ctx 0 reads with
      | Ok b => (Ok (), <[key := b]> data)
      | Err e => (Err e, data)
      | Panic => (Panic, data)
      end
  end.

Definition memory_Exists (key : bytes) (data : gmap bytes bytes) : res bool := Ok (bool_decide (is_Some (data !! key))).

Definition memory_List (prefix : bytes) (data : gmap bytes bytes) : res (list bytes) :=
  Ok (filter (fun k => prefix `prefix_of` k) (keys_range data)).

(** The contexts of the methods that only look are not polled. *)
Definition memory_storage : Storage (gmap bytes bytes) :=
  {| st_contents := id; st_ok := fun _ => True; st_get := fun _ => memory_Get; st_put := memory_Put;
     st_exists := fun _ => memory_Exists; st_list := fun _ => memory_List |}.

Lemma memory_laws : @StorageLaws _ memory_storage.
Proof.
  constructor; cbn; [by left|by left| |done|].
  - intros prefix s _. eexists. split; [done|]. assert (NoDup (keys_range s)) as Hn.
    { rewrite keys_range_perm. apply NoDup_fst_map_to_list. }
    split; [by apply NoDup_filter|]. intros key. rewrite list_elem_of_filter, keys_range_perm, list_elem_of_fmap.
    split; [intros (Hp & [k v] & -> & Hk%elem_of_map_to_list); split; [by exists v|done]|].
    intros [[v Hv] Hp]. split; [done|]. exists (key, v). split; [done|]. by apply elem_of_map_to_list.
  - intros ctx key [reads|] s _; cbn; [|done]. destruct (copy_reader ctx 0 reads) as [b| |] eqn:E; cbn; [|done..].
    apply copy_reader_Ok in E as [-> Hall]. by exists reads.
Qed.
End memory.

(** * On disk *)

(** Files below the objects directory of the root, by the segments of their paths.
    Directories are not represented: [MkdirAll] makes them, and no file is in the way of
    one ([no_file_in_the_way]). *)
Abbreviation path := (list bytes).
Abbreviation Files := (gmap (list bytes) bytes).

Definition _blobFileName : bytes := bs "blob".
Definition _keyChunkSize : nat := 200.

(** The loop over what is left of the encoded key. *)
Fixpoint key_chunks (fuel : nat) (encoded : bytes) : path :=
  match fuel with
  | O => []
  | S fuel =>
      if decide (_keyChunkSize < length encoded)%nat
      then take _keyChunkSize encoded :: key_chunks fuel (drop _keyChunkSize encoded)
      else if decide (encoded = []) then [] else [encoded]
  end.

Definition keyPath (key : bytes) : path :=
  let encoded := hexEncode key in key_chunks (S (length encoded)) encoded ++ [_blobFileName].

Definition keyFromPath (p : path) : res bytes := hexDecodeString (concat (removelast p)).

(** The system calls of [Put], any of which may fail. *)
Inductive syscall := Mkdir | CreateTemp | WriteTemp (polls : Z) | CloseTemp | RenameTemp | RemoveTemp.

Section disk.
(** The walk lists files in an order of its own; temporary files get unused names. *)
Context (walk : Files -> list path) (unused : path -> Files -> bytes).
Context (walk_perm : forall f, walk f ≡ₚ (map_to_list f).*1).

Definition disk_Get (cancelled : bool) (key : bytes) (fs : Files) : res (option bytes) :=
  if cancelled then Err cancelled_err else Ok (fs !! keyPath key).

Definition disk_Exists (cancelled : bool) (key : bytes) (fs : Files) : res bool :=
  if cancelled then Err cancelled_err else Ok (bool_decide (is_Some (fs !! keyPath key))).

(** The callback of the walk, which ends at the first name that does not decode. *)
Definition list_step (prefix : bytes) (keys : list bytes) (p : path) : res (list bytes) :=
  if decide (last p = Some _blobFileName) then
    key ← keyFromPath p;
    Ok (if decide (prefix `prefix_of` key) then keys ++ [key] else keys)
  else Ok keys.

Definition disk_List (cancelled : bool) (prefix : bytes) (fs : Files) : res (list bytes) :=
  if cancelled then Err cancelled_err else fold_res (list_step prefix) [] (walk fs).

Definition temp_path (dir : path) (fs : Files) : path := dir ++ [bs ".tmp-" ++ unused dir fs].

Section put.
(** The outcome of each system call. *)
Context (fault : syscall -> option string).

(** [io.Copy] into the temporary file, with the file system after each write. *)
Fixpoint copy_to (tmp : path) (ctx : Z -> bool) (polls : Z) (reads : reader) (written : bytes) (fs : Files) : res () * list Files :=
  if ctx polls then (Err cancelled_err, [])
  else match reads with
       | [] => (Ok (), [])
       | Err e :: _ => (Err e, [])
       | Panic :: _ => (Panic, [])
       | Ok b :: reads =>
           match fault (WriteTemp polls) with
           | Some e => (Err e, [])
           | None =>
               let fs := <[tmp := written ++ b]> fs in
               let '(r, states) := copy_to tmp ctx (polls + 1) reads (written ++ b) fs in
               (r, fs :: states)
           end
       end.

Definition last_state (fs : Files) (states : list Files) : Files := default fs (last states).

(** The deferred removal; after the renaming there is nothing to remove. *)
Definition remove_temp (tmp : path) (fs : Files) : Files := match fault RemoveTemp with Some _ => fs | None => delete tmp fs end.

(** [Put], with all states of the file system that it goes through. *)
Definition disk_Put (ctx : Z -> bool) (key : bytes) (r : option reader) (fs : Files) : res () * list Files :=
  if ctx 0 then (Err cancelled_err, [])
  else match r with
       | None => (Err "nil reader", [])
       | Some reads =>
           match fault Mkdir, fault CreateTemp with
           | Some e, _ | None, Some e => (Err e, [])
           | None, None =>
               let tmp := temp_path (removelast (keyPath key)) fs in
               let fs := <[tmp := []]> fs in
               let '(r, states) := copy_to tmp ctx 1 reads [] fs in
               let states := fs :: states in
               let fs := last_state fs states in
               let fail e := (e, states ++ [remove_temp tmp fs]) in
               match r, fault CloseTemp, fault RenameTemp with
               | Ok _, None, None => (Ok (), states ++ [<[keyPath key := default [] (fs !! tmp)]> (delete tmp fs)])
               | Ok _, Some e, _ | Ok _, None, Some e => fail (Err e)
               | r, _, _ => fail r
               end
           end
       end.
End put.

(** * The disk is a storage *)

(** The blobs that the files are. *)
Definition disk_entry (pb : path * bytes) : option (bytes * bytes) :=
  if decide (last pb.1 = Some _blobFileName) then
    match keyFromPath pb.1 with Ok key => Some (key, pb.2) | _ => None end
  else None.
Definition disk_contents (fs : Files) : gmap bytes bytes := list_to_map (omap disk_entry (map_to_list fs)).

(** Every blob file is that of a key. *)
Definition disk_ok (fs : Files) : Prop := forall p b, fs !! p = Some b -> last p = Some _blobFileName -> exists key, p = keyPath key.

Lemma key_chunks_concat fuel encoded : (length encoded < fuel)%nat -> concat (key_chunks fuel encoded) = encoded.
Proof.
  revert encoded. induction fuel as [|fuel IH]; intros encoded Hf; [lia|]. cbn [key_chunks]. repeat case_decide.
  - cbn [concat]. rewrite IH by (rewrite length_drop; unfold _keyChunkSize in *; lia). apply take_drop.
  - by subst encoded.
  - cbn. apply app_nil_r.
Qed.

Lemma removelast_snoc {A} (l : list A) x : removelast (l ++ [x]) = l.
Proof. rewrite removelast_app by done. cbn. apply app_nil_r. Qed.

Lemma hexNibble_digit v : 0 <= v < 16 -> is_Some (hexNibble (hex_digit v)).
Proof.
  intros Hv. unfold hex_digit. case_decide; unfold hexNibble; rewrite b2z_z2b_small by lia.
  - rewrite decide_True by lia. by eexists.
  - rewrite decide_False by lia. rewrite decide_True by lia. by eexists.
Qed.

Lemma hexEncode_nibbles b : Forall (fun c => is_Some (hexNibble c)) (hexEncode b).
Proof.
  unfold hexEncode. induction b as [|c b IH]; cbn; [done|]. pose proof (b2z_bound c) as Hb. constructor; [|constructor; [|done]].
  - apply hexNibble_digit. rewrite Z.shiftr_div_pow2 by lia. change (2 ^ 4) with 16. pose proof (Z.div_lt_upper_bound (b2z c) 16 16).
    pose proof (Z.div_pos (b2z c) 16). lia.
  - apply hexNibble_digit. change 15 with (Z.ones 4). rewrite Z.land_ones by lia. apply Z.mod_pos_bound. lia.
Qed.

Lemma hexDecode_Encode b : hexDecodeString (hexEncode b) = Ok b.
Proof.
  unfold hexDecodeString. pose proof (hexEncode_length b) as Hl. rewrite decide_True.
  - rewrite Hl. rewrite Nat.mul_comm, Nat.div_mul by done. apply hex_encode_decode.
  - split.
    + apply forallb_forall. intros c Hc. apply bool_decide_eq_true. pose proof (hexEncode_nibbles b) as Hn.
      rewrite Forall_forall in Hn. apply Hn. by apply list_elem_of_In.
    + unfold zlen. rewrite Hl. rewrite Nat2Z.inj_mul. rewrite Z.mul_comm. apply Z.mod_mul. lia.
Qed.

Lemma keyFromPath_keyPath key : keyFromPath (keyPath key) = Ok key.
Proof. unfold keyFromPath, keyPath. rewrite removelast_snoc, key_chunks_concat by lia. apply hexDecode_Encode. Qed.

Lemma keyPath_inj key key' : keyPath key = keyPath key' -> key = key'.
Proof. intros E. apply (f_equal keyFromPath) in E. rewrite !keyFromPath_keyPath in E. congruence. Qed.

Lemma keyPath_last key : last (keyPath key) = Some _blobFileName.
Proof. apply last_snoc. Qed.

(** The directories of a key are hex, so that no file is one of them. *)
Lemma key_chunks_nibbles fuel encoded seg c : Forall (fun c => is_Some (hexNibble c)) encoded ->
  seg ∈ key_chunks fuel encoded -> c ∈ seg -> is_Some (hexNibble c).
Proof.
  revert encoded. induction fuel as [|fuel IH]; intros encoded Hn; cbn [key_chunks]; [by intros ?%elem_of_nil|]. repeat case_decide.
  - rewrite elem_of_cons. intros [->|Hs] Hc.
    + rewrite Forall_forall in Hn. apply Hn. by eapply subseteq_take.
    + eapply IH; [|exact Hs|exact Hc]. by apply Forall_drop.
  - by intros ?%elem_of_nil.
  - rewrite list_elem_of_singleton. intros -> Hc. rewrite Forall_forall in Hn. by apply Hn.
Qed.

Lemma no_file_in_the_way key p : last p = Some _blobFileName -> ~ p `prefix_of` removelast (keyPath key).
Proof.
  intros Hl Hp. unfold keyPath in Hp. rewrite removelast_snoc in Hp.
  apply last_Some in Hl as [l ->]. destruct Hp as [l' E].
  assert (_blobFileName ∈ key_chunks (S (length (hexEncode key))) (hexEncode key)) as Hin.
  { rewrite E. apply elem_of_app. left. apply elem_of_app. right. by left. }
  destruct (key_chunks_nibbles _ _ _ x6c (hexEncode_nibbles key) Hin ltac:(by right; left)) as [v Hv]. discriminate Hv.
Qed.

Lemma disk_entry_Some (p : path) (b key v : bytes) : disk_entry (p, b) = Some (key, v) -> last p = Some _blobFileName /\ keyFromPath p = Ok key /\ v = b.
Proof.
  unfold disk_entry. cbn. case_decide as Hl; [|done]. destruct (keyFromPath p) as [k| |]; [|done..]. by intros [= -> ->].
Qed.

Lemma disk_entry_key key b : disk_entry (keyPath key, b) = Some (key, b).
Proof. unfold disk_entry. cbn [fst snd]. rewrite decide_True by apply keyPath_last. by rewrite keyFromPath_keyPath. Qed.

Lemma disk_contents_lookup (fs : Files) (key : bytes) : disk_ok fs -> disk_contents fs !! key = fs !! keyPath key.
Proof.
  intros Hok. assert (forall v, (key, v) ∈ omap disk_entry (map_to_list fs) -> fs !! keyPath key = Some v) as Hin.
  { intros v ([p b] & Hp%elem_of_map_to_list & E)%list_elem_of_omap. apply disk_entry_Some in E as (Hl & Hk & ->).
    destruct (Hok p b Hp Hl) as [k ->]. rewrite keyFromPath_keyPath in Hk. by injection Hk as ->. }
  apply option_eq. intros v. unfold disk_contents. split.
  - intros Hv%elem_of_list_to_map_2. by apply Hin.
  - intros Hv. apply elem_of_list_to_map_1'.
    + intros v' Hv'%Hin. congruence.
    + apply list_elem_of_omap. exists (keyPath key, v). split; [by apply elem_of_map_to_list|apply disk_entry_key].
Qed.

Lemma disk_contents_eq (fs : Files) (m : gmap bytes bytes) : disk_ok fs -> (forall key, fs !! keyPath key = m !! key) -> disk_contents fs = m.
Proof. intros Hok H. apply map_eq. intros key. by rewrite disk_contents_lookup. Qed.

(** Other files are not blobs. *)
Lemma temp_last (dir : path) (fs : Files) : last (temp_path dir fs) <> Some _blobFileName.
Proof. unfold temp_path. rewrite last_snoc. by intros [= ?]. Qed.

Lemma temp_not_key (dir : path) (fs : Files) (key : bytes) : temp_path dir fs <> keyPath key.
Proof. intros E. apply (temp_last dir fs). rewrite E. apply keyPath_last. Qed.

Lemma insert_temp (dir : path) (fs0 : Files) (w : bytes) (fs : Files) : disk_ok fs ->
  disk_ok (<[temp_path dir fs0 := w]> fs) /\ disk_contents (<[temp_path dir fs0 := w]> fs) = disk_contents fs.
Proof.
  intros Hok. assert (disk_ok (<[temp_path dir fs0 := w]> fs)) as Hok'.
  { intros p b Hp Hl. destruct (decide (p = temp_path dir fs0)) as [->|Hne]; [by apply temp_last in Hl|].
    rewrite lookup_insert_ne in Hp by done. by eapply Hok. }
  split; [done|]. apply disk_contents_eq; [done|]. intros key.
  rewrite lookup_insert_ne by apply temp_not_key. by rewrite disk_contents_lookup.
Qed.

Lemma delete_temp (dir : path) (fs0 fs : Files) : disk_ok fs ->
  disk_ok (delete (temp_path dir fs0) fs) /\ disk_contents (delete (temp_path dir fs0) fs) = disk_contents fs.
Proof.
  intros Hok. assert (disk_ok (delete (temp_path dir fs0) fs)) as Hok'.
  { intros p b [_ Hp]%lookup_delete_Some Hl. by eapply Hok. }
  split; [done|]. apply disk_contents_eq; [done|]. intros key.
  rewrite lookup_delete_ne by apply temp_not_key. by rewrite disk_contents_lookup.
Qed.

Lemma insert_blob (key b : bytes) (fs : Files) : disk_ok fs ->
  disk_ok (<[keyPath key := b]> fs) /\ disk_contents (<[keyPath key := b]> fs) = <[key := b]> (disk_contents fs).
Proof.
  intros Hok. assert (disk_ok (<[keyPath key := b]> fs)) as Hok'.
  { intros p v Hp Hl. destruct (decide (p = keyPath key)) as [->|Hne]; [by exists key|].
    rewrite lookup_insert_ne in Hp by done. by eapply Hok. }
  split; [done|]. apply disk_contents_eq; [done|]. intros k. destruct (decide (k = key)) as [->|Hne].
  - by rewrite !lookup_insert_eq.
  - rewrite !lookup_insert_ne by (try done; intros ?%keyPath_inj; by subst). by rewrite disk_contents_lookup.
Qed.

(** ** [Put] *)

Lemma last_state_cons (fs f : Files) (states : list Files) : last_state fs (f :: states) = last_state f states.
Proof. unfold last_state. destruct states as [|f' states]; [done|]. change (last (f :: f' :: states)) with (last (f' :: states)). by destruct (last (f' :: states)) eqn:E; [|apply last_None in E]. Qed.

Lemma last_state_snoc (fs f : Files) (states : list Files) : last_state fs (states ++ [f]) = f.
Proof. unfold last_state. by rewrite last_snoc. Qed.

(** The copy only writes the temporary file, and if it succeeds all of the reader. *)
Lemma copy_to_spec (fault : syscall -> option string) (tmp : path) (ctx : Z -> bool) (polls : Z) (reads : reader) (written : bytes) (fs : Files) : fs !! tmp = Some written ->
  Forall (fun f => exists w, f = <[tmp := w]> fs) (copy_to fault tmp ctx polls reads written fs).2 /\
  match (copy_to fault tmp ctx polls reads written fs).1 with
  | Ok _ => Forall (fun x => is_ok x = true) reads /\
      last_state fs (copy_to fault tmp ctx polls reads written fs).2 = <[tmp := written ++ read_bytes reads]> fs
  | _ => True
  end.
Proof.
  revert polls written fs. induction reads as [|r reads IH]; intros polls written fs Hw; cbn [copy_to]; destruct (ctx polls); try done.
  - split; [done|]. split; [done|]. cbn. rewrite app_nil_r. by rewrite insert_id.
  - destruct r as [b|e|]; [|done..]. destruct (fault (WriteTemp polls)) as [e|]; [done|].
    specialize (IH (polls + 1) (written ++ b) (<[tmp := written ++ b]> fs) ltac:(by rewrite lookup_insert_eq)).
    destruct (copy_to fault tmp ctx (polls + 1) reads (written ++ b) (<[tmp:=written ++ b]> fs)) as [r' states]. cbn [fst snd] in *.
    destruct IH as [Hs Hr]. split.
    + constructor; [by exists (written ++ b)|]. eapply Forall_impl; [exact Hs|]. intros f [w ->]. exists w. by rewrite insert_insert_eq.
    + destruct r' as [u| |]; [|done..]. destruct Hr as [Hall Hl]. split; [by constructor|].
      rewrite last_state_cons, Hl, insert_insert_eq. unfold read_bytes. cbn. by rewrite <- app_assoc.
Qed.

Lemma last_state_temp (tmp : path) (fs : Files) (states : list Files) : is_Some (fs !! tmp) ->
  Forall (fun f => exists w, f = <[tmp := w]> fs) states -> exists w, last_state fs states = <[tmp := w]> fs.
Proof.
  intros [w0 Hw0] H. unfold last_state. destruct (last states) as [f|] eqn:E; cbn; [|exists w0; by rewrite insert_id].
  apply last_Some_elem_of in E. rewrite Forall_forall in H. by apply H.
Qed.

Lemma remove_temp_ok (fault : syscall -> option string) (dir : path) (fs0 fs : Files) : disk_ok fs ->
  disk_ok (remove_temp fault (temp_path dir fs0) fs) /\ disk_contents (remove_temp fault (temp_path dir fs0) fs) = disk_contents fs.
Proof. intros Hok. unfold remove_temp. destruct (fault RemoveTemp); [done|by apply delete_temp]. Qed.

(** States in which the blobs are still the old ones. *)
Definition unchanged (fs fs' : Files) : Prop := disk_ok fs' /\ disk_contents fs' = disk_contents fs.

Lemma disk_Put_states (fault : syscall -> option string) (ctx : Z -> bool) (key : bytes) (r : option reader) (fs : Files) : disk_ok fs ->
  exists states, Forall (unchanged fs) states /\
    match (disk_Put fault ctx key r fs).1 with
    | Ok _ => exists reads fs', r = Some reads /\ Forall (fun x => is_ok x = true) reads /\
        (disk_Put fault ctx key r fs).2 = states ++ [fs'] /\ disk_ok fs' /\ disk_contents fs' = <[key := read_bytes reads]> (disk_contents fs)
    | _ => (disk_Put fault ctx key r fs).2 = states
    end.
Proof.
  intros Hok. unfold disk_Put. destruct (ctx 0); [by exists []|]. destruct r as [reads|]; [|by exists []].
  destruct (fault Mkdir); [by exists []|]. destruct (fault CreateTemp); [by exists []|].
  set (dir := removelast (keyPath key)). set (tmp := temp_path dir fs). set (fs1 := <[tmp := []]> fs).
  destruct (insert_temp dir fs [] fs Hok) as [Hok1 Hc1]. fold tmp fs1 in Hok1, Hc1.
  pose proof (copy_to_spec fault tmp ctx 1 reads [] fs1 ltac:(by apply lookup_insert_eq)) as [Hs Hr].
  destruct (copy_to fault tmp ctx 1 reads [] fs1) as [r states]. cbn [fst snd] in *. rewrite last_state_cons.
  destruct (last_state_temp tmp fs1 states ltac:(exists []; apply lookup_insert_eq) Hs) as [w Hw].
  assert (Forall (unchanged fs) (fs1 :: states)) as Hun.
  { constructor; [by split|]. eapply Forall_impl; [exact Hs|]. intros f [v ->]. subst fs1. rewrite insert_insert_eq. by apply insert_temp. }
  assert (unchanged fs (remove_temp fault tmp (last_state fs1 states))) as Hrm.
  { rewrite Hw. subst fs1. rewrite insert_insert_eq. destruct (insert_temp dir fs w fs Hok) as [Hok2 Hc2].
    destruct (remove_temp_ok fault dir fs _ Hok2) as [? E]. split; [done|]. etrans; [exact E|exact Hc2]. }
  assert (Forall (unchanged fs) ((fs1 :: states) ++ [remove_temp fault tmp (last_state fs1 states)])) as Hfail.
  { apply Forall_app. split; [done|]. by constructor. }
  destruct r as [[]|e|]; [|by eexists..]. destruct (fault CloseTemp); [by eexists|]. destruct (fault RenameTemp); [by eexists|].
  cbn [fst snd]. exists (fs1 :: states). split; [done|]. destruct Hr as [Hall Hl]. eexists reads, _. split_and!; [done|done|done|..].
  all: rewrite Hl, lookup_insert_eq; cbn [default from_option app]; subst fs1; rewrite insert_insert_eq.
  all: destruct (insert_temp dir fs (read_bytes reads) fs Hok) as [Hok2 Hc2]; destruct (delete_temp dir fs _ Hok2) as [Hok3 Hc3].
  all: destruct (insert_blob key (read_bytes reads) _ Hok3) as [Hok4 Hc4].
  - exact Hok4.
  - etrans; [exact Hc4|]. by rewrite Hc3, Hc2.
Qed.

(** ** [List] *)

Definition listed (prefix : bytes) (p : path) : option bytes :=
  if decide (last p = Some _blobFileName) then
    match keyFromPath p with Ok key => if decide (prefix `prefix_of` key) then Some key else None | _ => None end
  else None.

Lemma listed_Some (prefix : bytes) (p : path) (k : bytes) : listed prefix p = Some k ->
  last p = Some _blobFileName /\ keyFromPath p = Ok k /\ prefix `prefix_of` k.
Proof. unfold listed. repeat case_decide; try done. destruct (keyFromPath p) as [k'| |]; try done. case_decide; [|done]. by intros [= ->]. Qed.

Lemma listed_keyPath (prefix key : bytes) : listed prefix (keyPath key) = if decide (prefix `prefix_of` key) then Some key else None.
Proof. unfold listed. rewrite decide_True by apply keyPath_last. by rewrite keyFromPath_keyPath. Qed.

Lemma disk_List_eq (prefix : bytes) (fs : Files) : disk_ok fs -> disk_List false prefix fs = Ok (omap (listed prefix) (walk fs)).
Proof.
  intros Hok. unfold disk_List.
  assert (forall p, p ∈ walk fs -> last p = Some _blobFileName -> exists key, p = keyPath key) as Hw.
  { intros p Hp Hl. rewrite walk_perm in Hp. apply list_elem_of_fmap in Hp as ([q b] & -> & Hq%elem_of_map_to_list). by eapply Hok. }
  assert (forall keys, fold_res (list_step prefix) keys (walk fs) = Ok (keys ++ omap (listed prefix) (walk fs))) as H; [|apply (H [])].
  revert Hw. induction (walk fs) as [|p ps IH]; intros Hw keys; cbn [fold_res]; [by rewrite app_nil_r|].
  specialize (IH (fun q Hq => Hw q (list_elem_of_further _ _ _ Hq))). unfold list_step at 2. case_decide as Hl.
  - destruct (Hw p ltac:(by left) Hl) as [key ->]. rewrite keyFromPath_keyPath. cbn [mbind res_bind]. rewrite IH. f_equal.
    cbn [omap list_omap]. change (list_omap _ _ _ ps) with (omap (listed prefix) ps). rewrite listed_keyPath.
    case_decide; [|done]. by rewrite <- app_assoc.
  - cbn [mbind res_bind]. rewrite IH. do 2 f_equal. cbn. unfold listed at 2. by rewrite decide_False.
Qed.

Lemma disk_List_spec (prefix : bytes) (fs : Files) : disk_ok fs -> exists keys, disk_List false prefix fs = Ok keys /\ NoDup keys /\
  forall key, key ∈ keys <-> is_Some (disk_contents fs !! key) /\ prefix `prefix_of` key.
Proof.
  intros Hok. eexists. split; [by apply disk_List_eq|].
  assert (forall p b, p ∈ walk fs -> listed prefix p = Some b -> p = keyPath b /\ is_Some (fs !! p) /\ prefix `prefix_of` b) as Hw.
  { intros p b Hp Hl%listed_Some. destruct Hl as (Hl & Hk & Hpre). rewrite walk_perm in Hp.
    apply list_elem_of_fmap in Hp as ([q v] & -> & Hq%elem_of_map_to_list). cbn [fst] in *.
    destruct (Hok q v Hq Hl) as [key ->]. rewrite keyFromPath_keyPath in Hk. injection Hk as ->. split_and!; [done|by exists v|done]. }
  split.
  - assert (NoDup (walk fs)) as Hn by (rewrite walk_perm; apply NoDup_fst_map_to_list). revert Hn Hw.
    induction (walk fs) as [|p ps IH]; intros Hn Hw; [constructor|]. apply NoDup_cons in Hn as [Hp Hn].
    specialize (IH Hn (fun q b Hq => Hw q b (list_elem_of_further _ _ _ Hq))). cbn. destruct (listed prefix p) as [b|] eqn:E; [|done].
    constructor; [|done]. intros (q & Hq & Eq)%list_elem_of_omap.
    destruct (Hw p b ltac:(by left) E) as [-> _]. destruct (Hw q b ltac:(by right) Eq) as [-> _]. done.
  - intros key. rewrite list_elem_of_omap, disk_contents_lookup by done. split.
    + intros (p & Hp & E). by destruct (Hw p key Hp E) as (-> & ? & ?).
    + intros [[v Hv] Hpre]. exists (keyPath key). rewrite listed_keyPath, decide_True by done. split; [|done].
      rewrite walk_perm. apply list_elem_of_fmap. exists (keyPath key, v). split; [done|]. by apply elem_of_map_to_list.
Qed.

Definition disk_storage (fault : syscall -> option string) : Storage Files :=
  {| st_contents := disk_contents; st_ok := disk_ok; st_get := disk_Get;
     st_put := fun ctx key r fs => let '(res, states) := disk_Put fault ctx key r fs in (res, last_state fs states);
     st_exists := disk_Exists; st_list := disk_List |}.

Lemma disk_laws fault : @StorageLaws _ (disk_storage fault).
Proof.
  assert (forall (fs : Files) states, disk_ok fs -> Forall (unchanged fs) states -> unchanged fs (last_state fs states)) as Hlast.
  { intros fs states Hok H. unfold last_state. destruct (last states) as [f|] eqn:E; cbn; [|by split].
    apply last_Some_elem_of in E. rewrite Forall_forall in H. by apply H. }
  constructor; cbn.
  - intros [] key fs Hok; [right; split; [done|by eexists]|left]. unfold disk_Get. by rewrite disk_contents_lookup.
  - intros [] key fs Hok; [right; split; [done|by eexists]|left]. unfold disk_Exists. by rewrite disk_contents_lookup.
  - intros prefix fs Hok. by apply disk_List_spec.
  - intros ctx key r fs Hok. destruct (disk_Put_states fault ctx key r fs Hok) as (states & Hs & H).
    destruct (disk_Put fault ctx key r fs) as [[u|e|] tr]; cbn [fst snd] in *; [|subst; by apply Hlast..].
    destruct H as (reads & fs' & _ & _ & -> & Hok' & _). by rewrite last_state_snoc.
  - intros ctx key r fs Hok. destruct (disk_Put_states fault ctx key r fs Hok) as (states & Hs & H).
    destruct (disk_Put fault ctx key r fs) as [[u|e|] tr]; cbn [fst snd] in *; [|subst; by apply Hlast..].
    destruct H as (reads & fs' & -> & Hall & -> & _ & Hc). rewrite last_state_snoc. by exists reads.
Qed.
End disk.

Lemma copy_to_total (fault : syscall -> option string) (tmp : path) (ctx : Z -> bool) (polls : Z) (reads : reader) (written : bytes) (fs : Files) :
  (forall c, fault c = None) -> (forall i, ctx i = false) -> Forall (fun x => is_ok x = true) reads ->
  (copy_to fault tmp ctx polls reads written fs).1 = Ok ().
Proof.
  intros Hf Hc. revert polls written fs. induction reads as [|r reads IH]; intros polls written fs Hall; cbn [copy_to]; rewrite Hc; [done|].
  apply Forall_cons in Hall as [Hr Hall]. destruct r as [b| |]; [|done..]. rewrite Hf.
  specialize (IH (polls + 1) (written ++ b) (<[tmp := written ++ b]> fs) Hall).
  by destruct (copy_to fault tmp ctx (polls + 1) reads (written ++ b) (<[tmp:=written ++ b]> fs)).
Qed.

(** C22: A blob on disk is replaced as a whole.  Whatever system call of [Put] fails, and
    whenever the context is cancelled, each state of the file system on the way (which a
    crash may leave, or another process read) has either the old blobs or the new one
    besides the others; what [Get] returns afterwards is what the result of [Put] says;
    and without failures [Put] succeeds. *)
Theorem disk_put_atomic (unused : path -> Files -> bytes) (fault : syscall -> option string) (ctx : Z -> bool) (key : bytes)
    (r : option reader) (fs : Files) : disk_ok fs ->
  Forall (fun fs' => disk_ok fs' /\ (disk_contents fs' = disk_contents fs \/
      exists reads, r = Some reads /\ disk_contents fs' = <[key := read_bytes reads]> (disk_contents fs)))
    (disk_Put unused fault ctx key r fs).2 /\
  (forall key', disk_Get false key' (last_state fs (disk_Put unused fault ctx key r fs).2) =
    match (disk_Put unused fault ctx key r fs).1 with
    | Ok _ => if decide (key' = key) then Ok (read_bytes <$> r) else disk_Get false key' fs
    | _ => disk_Get false key' fs
    end) /\
  ((forall c, fault c = None) -> (forall i, ctx i = false) ->
    forall reads, r = Some reads -> Forall (fun x => is_ok x = true) reads -> (disk_Put unused fault ctx key r fs).1 = Ok ()).
Proof.
  intros Hok. destruct (disk_Put_states unused fault ctx key r fs Hok) as (states & Hs & H).
  assert (Forall (fun fs' => disk_ok fs' /\ (disk_contents fs' = disk_contents fs \/
      exists reads, r = Some reads /\ disk_contents fs' = <[key := read_bytes reads]> (disk_contents fs))) states) as Hall.
  { eapply Forall_impl; [exact Hs|]. intros f [? ?]. split; [done|by left]. }
  assert (unchanged fs (last_state fs states)) as [Hok' Hc'].
  { unfold last_state. destruct (last states) as [f|] eqn:E; cbn; [|by split]. apply last_Some_elem_of in E.
    rewrite Forall_forall in Hs. by apply Hs. }
  split_and!.
  - destruct (disk_Put unused fault ctx key r fs) as [[u|e|] tr]; cbn [fst snd] in *; [|by subst..].
    destruct H as (reads & fs' & -> & _ & -> & Hok2 & Hc). apply Forall_app. split; [done|]. constructor; [|done].
    split; [done|]. right. by exists reads.
  - intros k. unfold disk_Get. rewrite <- (disk_contents_lookup fs) by done.
    destruct (disk_Put unused fault ctx key r fs) as [[u|e|] tr]; cbn [fst snd] in *.
    2,3: subst; by rewrite <- disk_contents_lookup, Hc'.
    destruct H as (reads & fs' & -> & _ & -> & Hok2 & Hc). rewrite last_state_snoc, <- disk_contents_lookup, Hc by done.
    case_decide as Hk; [subst; by rewrite lookup_insert_eq|by rewrite lookup_insert_ne].
  - intros Hf Hctx reads -> Hr. unfold disk_Put. rewrite Hctx, !Hf.
    pose proof (copy_to_total fault (temp_path unused (removelast (keyPath key)) fs) ctx 1 reads []
      (<[temp_path unused (removelast (keyPath key)) fs := []]> fs) Hf Hctx Hr) as Ht.
    destruct (copy_to _ _ _ _ _ _ _) as [r' tr]. cbn [fst] in Ht. by rewrite Ht.
Qed.

Lemma disk_put_atomic_witness :
  exists tr, disk_Put (fun _ _ => bs "1") (fun _ => None) (fun _ => false) (bs "k") (Some [Ok (bs "a"); Ok (bs "b")]) ∅ = (Ok (), tr) /\
    disk_Get false (bs "k") (last_state ∅ tr) = Ok (Some (bs "ab")).
Proof.
  destruct (disk_put_atomic (fun _ _ => bs "1") (fun _ => None) (fun _ => false) (bs "k") (Some [Ok (bs "a"); Ok (bs "b")]) ∅) as (_ & Hg & Ht).
  { intros p b H. by rewrite lookup_empty in H. }
  specialize (Ht (fun _ => eq_refl) (fun _ => eq_refl) _ eq_refl ltac:(by repeat constructor)). specialize (Hg (bs "k")).
  destruct (disk_Put _ _ _ _ _ _) as [r tr]. cbn [fst snd] in *. subst r. exists tr. split; [done|]. exact Hg.
Defined.
