(* ===== verification/CacheKeys.v ===== *)
(** Cache keys ([core/cachekey/cachekey.go], [internal/url/url.go],
    [entity/build_description.go], [entity/computation_strategy.go]): which inputs a key
    depends on, and that it tells them apart. *)
From Stdlib Require Import ZArith Lia.
From stdpp Require Import gmap list sorting.
From S2P Require Import Prelude Encode TgbHash Text Storage.

Local Open Scope Z_scope.

(** * Requests *)

Record ChangeRequest := { URL : bytes }.

(** A [ComputationStrategy] is an [int]. *)
Record BuildDescription := {
  bd_Remote : bytes;
  bd_BaseSha : bytes;
  bd_ChangeRequests : list ChangeRequest;
  bd_Strategy : Z;
}.

Definition ComputationStrategyUnset : Z := 0.
Definition ComputationStrategyInvalid : Z := 1.
Definition ComputationStrategyShell : Z := 2.
Definition ComputationStrategyNative : Z := 3.

Definition strategy_String (s : Z) : bytes :=
  if decide (s = ComputationStrategyUnset) then bs "COMPUTATION_STRATEGY_UNSET"
  else if decide (s = ComputationStrategyShell) then bs "COMPUTATION_STRATEGY_SHELL"
  else if decide (s = ComputationStrategyNative) then bs "COMPUTATION_STRATEGY_NATIVE"
  else bs "COMPUTATION_STRATEGY_INVALID".

(** * Digests *)

Definition writeFramedString (value : bytes) : bytes := itoa (zlen value) ++ x3a :: value.
Definition framed (values : list bytes) : bytes := concat (writeFramedString <$> values).

Lemma utoa_inj n m : 0 <= n -> 0 <= m -> utoa n = utoa m -> n = m.
Proof. intros Hn Hm E. apply (f_equal parse_uint) in E. rewrite !parse_utoa in E by done. congruence. Qed.

Lemma writeFramedString_prefix v v' r r' : writeFramedString v ++ r = writeFramedString v' ++ r' -> v = v' /\ r = r'.
Proof.
  unfold writeFramedString. rewrite <- !app_assoc. cbn [app]. intros E.
  apply app_sep_inj in E as [El Er]; [|by apply itoa_free..].
  assert (zlen v = zlen v') as Hl.
  { pose proof (zlen_nonneg v). pose proof (zlen_nonneg v'). unfold itoa in El. rewrite !decide_False in El by lia. by apply utoa_inj. }
  apply app_inj_1 in Er; [done|]. unfold zlen in Hl. lia.
Qed.

Lemma framed_values_inj l l' : framed l = framed l' -> l = l'.
Proof.
  assert (forall v (r : bytes), writeFramedString v ++ r <> []) as Hne.
  { intros v r. unfold writeFramedString. pose proof (itoa_nonempty (zlen v)). by destruct (itoa (zlen v)). }
  revert l'. induction l as [|v l IH]; intros [|v' l'] E; unfold framed in *; cbn in *; [done|by apply eq_sym, Hne in E|by apply Hne in E|].
  apply writeFramedString_prefix in E as [-> E]. f_equal. by apply IH.
Qed.

Section keys.
(** [md5.Sum], of 16 bytes. *)
Context (md5 : bytes -> bytes).

(** [fmt.Sprintf("%x", h.Sum(nil))] *)
Definition md5_hex (written : bytes) : bytes := hexEncode (md5 written).

Definition GetReqURLsHash (requests : list ChangeRequest) : bytes :=
  if decide (length requests = 0%nat) then [] else md5_hex (framed (URL <$> requests)).

Definition hashExcludeFilesRegex (excludeFilesRegex : list bytes) : bytes :=
  if decide (length excludeFilesRegex = 0%nat) then [] else md5_hex (framed (sort_func bcompare excludeFilesRegex)).

(** [ToShortRemote], and [toShortRemote] of the configuration. *)
Definition ToShortRemote (remote : bytes) : bytes := default [] (last (split_on x3a remote)).

(** * Keys *)

Definition with_options (path : bytes) (excludeFilesRegex : list bytes) : bytes :=
  let hash := hashExcludeFilesRegex excludeFilesRegex in
  if decide (hash <> []) then path ++ bs "_requests-options-" ++ hash else path.

Definition GetTGBGraphByTreeHash (repositoryID treehash : bytes) (strategy : Z) (excludeFilesRegex : list bytes) : bytes :=
  with_options (Join [repositoryID; bs "graphs"; treehash; strategy_String strategy ++ bs "-tgb"]) excludeFilesRegex.

Definition GetTreehashCachePath (repositoryID : bytes) (build : BuildDescription) : bytes :=
  let path := Join [repositoryID; bs "treehashes"; bs "base-sha-" ++ bd_BaseSha build] in
  if decide (0 < zlen (bd_ChangeRequests build)) then path ++ bs "_request-urls-" ++ GetReqURLsHash (bd_ChangeRequests build) else path.

Definition GetComparedTargetsCachePath (repositoryID treehash1 treehash2 : bytes) (excludeFilesRegex : list bytes) : bytes :=
  with_options (Join [repositoryID; bs "compared-targets"; treehash1 ++ [x5f] ++ treehash2]) excludeFilesRegex.

(** * Keys tell their inputs apart *)

(** The arguments of the three kinds of keys. *)
Inductive key_inputs :=
  | ForGraph (repositoryID treehash : bytes) (strategy : Z) (excludes : list bytes)
  | ForTreehash (repositoryID : bytes) (build : BuildDescription)
  | ForComparison (repositoryID treehash1 treehash2 : bytes) (excludes : list bytes).

Definition key_of (k : key_inputs) : bytes :=
  match k with
  | ForGraph r t s x => GetTGBGraphByTreeHash r t s x
  | ForTreehash r b => GetTreehashCachePath r b
  | ForComparison r t1 t2 x => GetComparedTargetsCachePath r t1 t2 x
  end.

(** A hash as git prints it: a path segment in hexadecimal. *)
Definition git_hash (t : bytes) : Prop := t <> [] /\ Forall (fun c => is_Some (hexNibble c)) t.

#[export] Instance git_hash_dec t : Decision (git_hash t). Proof. unfold git_hash. apply _. Defined.

Definition sane (k : key_inputs) : Prop :=
  match k with
  | ForGraph r t _ _ => plain r /\ git_hash t
  | ForTreehash r b => plain r /\ git_hash (bd_BaseSha b)
  | ForComparison r t1 t2 _ => plain r /\ git_hash t1 /\ git_hash t2
  end.

Definition collision (l l' : list bytes) : Prop := framed l <> framed l' /\ md5 (framed l) = md5 (framed l').

(** What equal keys have in common. *)
Definition same_inputs (k k' : key_inputs) : Prop :=
  match k, k' with
  | ForGraph r t s x, ForGraph r' t' s' x' => r = r' /\ t = t' /\ strategy_String s = strategy_String s' /\
      (x ≡ₚ x' \/ collision (sort_func bcompare x) (sort_func bcompare x'))
  | ForTreehash r b, ForTreehash r' b' => r = r' /\ bd_BaseSha b = bd_BaseSha b' /\
      (bd_ChangeRequests b = bd_ChangeRequests b' \/ collision (URL <$> bd_ChangeRequests b) (URL <$> bd_ChangeRequests b'))
  | ForComparison r t1 t2 x, ForComparison r' t1' t2' x' => r = r' /\ t1 = t1' /\ t2 = t2' /\
      (x ≡ₚ x' \/ collision (sort_func bcompare x) (sort_func bcompare x'))
  | _, _ => False
  end.

Context (md5_length : forall written, length (md5 written) = 16%nat).

Lemma md5_hex_nonempty w : md5_hex w <> [].
Proof. intros E. apply (f_equal length) in E. unfold md5_hex in E. rewrite hexEncode_length, md5_length in E. done. Qed.

Lemma nibble_free (c : byte) t : Forall (fun c => is_Some (hexNibble c)) t -> hexNibble c = None -> c ∉ t.
Proof. intros Ht Hc Hin. rewrite Forall_forall in Ht. destruct (Ht c Hin) as [v Hv]. congruence. Qed.

Lemma git_hash_normal t : git_hash t -> normal t.
Proof.
  intros [Hne Ht]. split_and!; [done|by apply nibble_free| |]; intros ->; by apply (nibble_free x2e) in Ht; [apply Ht; left|].
Qed.

(** What follows the path: the digest of the exclusions, or nothing. *)
Definition options_suffix (x : list bytes) : bytes :=
  if decide (length x = 0%nat) then [] else bs "_requests-options-" ++ md5_hex (framed (sort_func bcompare x)).
Definition urls_suffix (l : list ChangeRequest) : bytes :=
  if decide (length l = 0%nat) then [] else bs "_request-urls-" ++ md5_hex (framed (URL <$> l)).

Lemma with_options_eq path x : with_options path x = path ++ options_suffix x.
Proof.
  unfold with_options, options_suffix, hashExcludeFilesRegex. repeat case_decide; try done.
  - by rewrite app_nil_r.
  - exfalso. by eapply md5_hex_nonempty.
Qed.

Lemma hex_digests_eq l l' : md5_hex (framed l) = md5_hex (framed l') -> l = l' \/ collision l l'.
Proof.
  intros E%hexEncode_inj. destruct (decide (framed l = framed l')) as [H|H]; [left; by apply framed_values_inj|right; by split].
Qed.

Lemma options_suffix_eq x x' : options_suffix x = options_suffix x' ->
  x ≡ₚ x' \/ collision (sort_func bcompare x) (sort_func bcompare x').
Proof.
  unfold options_suffix. repeat case_decide; try done.
  - intros _. left. by destruct x, x'.
  - intros E. apply app_inv_head, hex_digests_eq in E as [E|E]; [left|by right].
    by rewrite <- (sort_func_perm bcompare x), E, sort_func_perm.
Qed.

Lemma urls_suffix_eq l l' : urls_suffix l = urls_suffix l' -> l = l' \/ collision (URL <$> l) (URL <$> l').
Proof.
  unfold urls_suffix. repeat case_decide; try done.
  - intros _. left. by destruct l, l'.
  - intros E. apply app_inv_head, hex_digests_eq in E as [E|E]; [left|by right].
    revert E. clear. revert l'. induction l as [|[u] l IH]; intros [|[u'] l']; cbn; try done. intros [= -> E]. f_equal. by apply IH.
Qed.

(** ** Segments of the keys *)

(** The segments after the repository. *)
Definition segments (k : key_inputs) : list bytes :=
  match k with
  | ForGraph _ t s x => [bs "graphs"; t; (strategy_String s ++ bs "-tgb") ++ options_suffix x]
  | ForTreehash _ b => [bs "treehashes"; (bs "base-sha-" ++ bd_BaseSha b) ++ urls_suffix (bd_ChangeRequests b)]
  | ForComparison _ t1 t2 x => [bs "compared-targets"; (t1 ++ [x5f] ++ t2) ++ options_suffix x]
  end.

Definition repository (k : key_inputs) : bytes :=
  match k with ForGraph r _ _ _ | ForTreehash r _ | ForComparison r _ _ _ => r end.

Lemma hexEncode_no_slash b : slash ∉ hexEncode b.
Proof. apply nibble_free; [|done]. apply hexEncode_nibbles. Qed.

Lemma options_suffix_slash x : slash ∉ options_suffix x.
Proof.
  unfold options_suffix. case_decide; [by apply not_elem_of_nil|]. rewrite not_elem_of_app. split; [decided|].
  apply hexEncode_no_slash.
Qed.

Lemma urls_suffix_slash l : slash ∉ urls_suffix l.
Proof.
  unfold urls_suffix. case_decide; [by apply not_elem_of_nil|]. rewrite not_elem_of_app. split; [decided|].
  apply hexEncode_no_slash.
Qed.

(** A hash ends where a suffix starts. *)
Definition suffix_head (s : bytes) : Prop := s = [] \/ head s = Some x5f.

Lemma options_suffix_head x : suffix_head (options_suffix x).
Proof. unfold options_suffix. case_decide; [by left|by right]. Qed.
Lemma urls_suffix_head l : suffix_head (urls_suffix l).
Proof. unfold urls_suffix. case_decide; [by left|by right]. Qed.

Lemma hash_suffix a a' s s' : Forall (fun c => is_Some (hexNibble c)) a -> Forall (fun c => is_Some (hexNibble c)) a' ->
  suffix_head s -> suffix_head s' -> a ++ s = a' ++ s' -> a = a' /\ s = s'.
Proof.
  assert (forall c (l s : bytes), is_Some (hexNibble c) -> suffix_head s -> c :: l <> s) as Hne.
  { intros c l s0 [v Hv] [->|Hs] E; [done|]. rewrite <- E in Hs. injection Hs as ->. discriminate Hv. }
  intros Ha. revert a'. induction Ha as [|c a Hc Ha IH]; intros a' Ha' Hs Hs' E; destruct Ha' as [|c' a' Hc' Ha']; cbn in E.
  - done.
  - by eapply eq_sym, Hne in E.
  - by eapply Hne in E.
  - injection E as -> E. destruct (IH a' Ha' Hs Hs' E) as [-> ->]. done.
Qed.

(** A key is its segments, none of which is changed by cleaning. *)
Lemma key_split k : sane k -> split_on slash (key_of k) = split_on slash (repository k) ++ segments k.
Proof.
  assert (forall r l x s, plain r -> Forall normal (l ++ [x]) -> slash ∉ s ->
    split_on slash (Join (r :: l ++ [x]) ++ s) = split_on slash r ++ l ++ [x ++ s]) as H.
  { intros r l x s Hr Hl Hs. rewrite Join_plain; [|done|].
    2:{ constructor; [done|]. eapply Forall_impl; [exact Hl|]. apply normal_plain. }
    assert (join_with slash (r :: l ++ [x]) ++ s = join_with slash (r :: l ++ [x ++ s])) as ->.
    { rewrite !app_comm_cons. rewrite !join_with_app by done. by rewrite <- app_assoc. }
    rewrite split_join_parts by done. cbn [fmap list_fmap concat]. f_equal.
    apply Forall_app in Hl as [Hl [(_ & Hx & _) _]%Forall_cons]. change (list_fmap _ _ (split_on slash) (l ++ [x ++ s])) with (split_on slash <$> (l ++ [x ++ s])).
    rewrite fmap_app, concat_app. cbn. rewrite split_on_free by (by rewrite not_elem_of_app). rewrite app_nil_r. f_equal.
    induction Hl as [|y l (_ & Hy & _) Hl IH]; [done|]. cbn. by rewrite split_on_free, IH. }
  assert (forall s, normal (strategy_String s ++ bs "-tgb")) as Hs.
  { intros s. unfold strategy_String. repeat case_decide; decided. }
  destruct k as [r t s x|r b|r t1 t2 x]; cbn [sane key_of repository segments].
  - intros [Hr Ht]. unfold GetTGBGraphByTreeHash. rewrite with_options_eq.
    apply (H r [bs "graphs"; t] _ _ Hr); [|apply options_suffix_slash]. apply Forall_cons; split; [decided|]. apply Forall_cons; split; [by apply git_hash_normal|]. apply Forall_singleton, Hs.
  - intros [Hr Hb]. unfold GetTreehashCachePath. set (p := Join _).
    assert ((if decide (0 < zlen (bd_ChangeRequests b)) then p ++ bs "_request-urls-" ++ GetReqURLsHash (bd_ChangeRequests b) else p) =
      p ++ urls_suffix (bd_ChangeRequests b)) as ->.
    { unfold urls_suffix, GetReqURLsHash, zlen. repeat case_decide; try lia; [done|by rewrite app_nil_r]. }
    apply (H r [bs "treehashes"] _ _ Hr); [|apply urls_suffix_slash]. apply Forall_cons; split; [decided|]. apply Forall_singleton.
    destruct (git_hash_normal _ Hb) as (_ & Hsl & _). split_and!; [done| |done|done].
    rewrite not_elem_of_app. split; [decided|done].
  - intros (Hr & H1 & H2). unfold GetComparedTargetsCachePath. rewrite with_options_eq.
    apply (H r [bs "compared-targets"] _ _ Hr); [|apply options_suffix_slash]. apply Forall_cons; split; [decided|]. apply Forall_singleton.
    destruct (git_hash_normal _ H1) as (Hne & S1 & _). destruct (git_hash_normal _ H2) as (_ & S2 & _).
    destruct H1 as [_ N1]. split_and!; [by destruct t1|rewrite !not_elem_of_app; split_and!; [done|decided|done]| |].
    all: intros E; destruct t1 as [|c t1]; [done|]; apply Forall_cons in N1 as [[v Hv] _]; injection E as -> _; discriminate Hv.
Qed.

Lemma repository_eq k k' : sane k -> sane k' -> key_of k = key_of k' -> length (segments k) = length (segments k') ->
  repository k = repository k' /\ segments k = segments k'.
Proof.
  intros Hk Hk' E Hl. apply (f_equal (split_on slash)) in E. rewrite !key_split in E by done.
  apply app_inj_2 in E as [Er Es]; [|done]. split; [|done]. by rewrite <- (join_with_split slash (repository k)), Er, join_with_split.
Qed.

(** Equal keys have equal inputs. *)
Lemma key_inputs_determined k k' : sane k -> sane k' -> key_of k = key_of k' -> same_inputs k k'.
Proof.
  intros Hk Hk' E.
  assert (forall r t X r' (Y : bytes) kind, split_on slash r ++ [bs "graphs"; t; X] = split_on slash r' ++ [kind; Y] ->
    git_hash t -> ~ git_hash kind -> False) as Hno.
  { clear. intros r t X r' Y kind E Ht Hn. change ([bs "graphs"; t; X]) with ([bs "graphs"] ++ [t; X]) in E. rewrite app_assoc in E.
    apply app_inj_2 in E as [_ [= -> _]]; [|done]. done. }
  pose proof (key_split k Hk) as Sk. pose proof (key_split k' Hk') as Sk'. rewrite E in Sk. rewrite Sk in Sk'.
  destruct k as [r t s x|r b|r t1 t2 x], k' as [r' t' s' x'|r' b'|r' t1' t2' x']; cbn [sane repository segments same_inputs] in *.
  - apply app_inj_2 in Sk' as [Er [= <- Es]]; [|done]. rewrite <- !app_assoc in Es.
    assert (forall z, x2d ∉ strategy_String z) as Hd by (intros z; unfold strategy_String; repeat case_decide; decided).
    apply (app_sep_inj x2d) in Es as [Es Eo]; [|apply Hd..]. injection Eo as Eo.
    split_and!; [by rewrite <- (join_with_split slash r), Er, join_with_split|done|done|by apply options_suffix_eq].
  - apply (Hno _ _ _ _ _ _ Sk'); [apply Hk|decided].
  - apply (Hno _ _ _ _ _ _ Sk'); [apply Hk|decided].
  - symmetry in Sk'. apply (Hno _ _ _ _ _ _ Sk'); [apply Hk'|decided].
  - apply app_inj_2 in Sk' as [Er [= Es]]; [|done]. split; [by rewrite <- (join_with_split slash r), Er, join_with_split|].
    apply hash_suffix in Es as [-> Es]; [|apply Hk|apply Hk'|apply urls_suffix_head..].
    split; [done|]. by apply urls_suffix_eq.
  - by apply app_inj_2 in Sk' as [_ [= ?]].
  - symmetry in Sk'. apply (Hno _ _ _ _ _ _ Sk'); [apply Hk'|decided].
  - by apply app_inj_2 in Sk' as [_ [= ?]].
  - apply app_inj_2 in Sk' as [Er [= Es]]; [|done]. destruct Hk as (_ & [_ H1] & [_ H2]), Hk' as (_ & [_ H1'] & [_ H2']).
    rewrite <- !app_assoc in Es. apply (app_sep_inj x5f) in Es as [-> Es]; [|by apply nibble_free..].
    apply hash_suffix in Es as [-> Es]; [|done|done|apply options_suffix_head..].
    split; [by rewrite <- (join_with_split slash r), Er, join_with_split|]. split_and!; [done|done|]. by apply options_suffix_eq.
Qed.
End keys.

(** C21: A cache key depends on nothing but its inputs and tells them apart.  When the
    repository's ID has only plain path segments and tree hashes and commits are hexadecimal, two
    equal keys are of the same kind and for the same repository, hashes, strategy (as it is
    printed), exclusions (in any order) and change requests (in order), unless MD5 collides
    on what is digested. *)
Theorem cache_keys_distinct (md5 : bytes -> bytes) (k k' : key_inputs) :
  (forall written, length (md5 written) = 16%nat) -> sane k -> sane k' -> key_of md5 k = key_of md5 k' -> same_inputs md5 k k'.
Proof. exact (fun H => key_inputs_determined md5 H k k'). Qed.

(** Sixteen bytes of the text. *)
Definition short_md5 (w : bytes) : bytes := take 16 (w ++ replicate 16 x00).

Lemma cache_keys_distinct_witness :
  same_inputs short_md5 (ForGraph (bs "uber/repo") (bs "ab12") 2 [bs "y"; bs "x"]) (ForGraph (bs "uber/repo") (bs "ab12") 2 [bs "x"; bs "y"]).
Proof.
  apply (cache_keys_distinct short_md5).
  - intros w. unfold short_md5. rewrite length_take, length_app, length_replicate. lia.
  - split; decided.
  - split; decided.
  - by vm_compute.
Defined.
