(* ===== verification/ItgCache.v ===== *)
(** The cache of incremental graphs ([core/itg/cache/cache.go]), on any blob storage: the
    graphs of a repository by commit, and the newest one up to a time. *)
From Stdlib Require Import ZArith Lia.
From stdpp Require Import gmap fin_maps list sorting.
From S2P Require Import Prelude Text Storage TargetHasher Itg.

Local Open Scope Z_scope.

(** * Keys *)

Record Key := { ky_Remote : bytes; ky_BaseCommitTimeSecond : Z; ky_BaseSha : bytes }.

#[export] Instance Key_eq_dec : EqDecision Key. Proof. solve_decision. Defined.

Definition CompareKeyFunc (a b : Key) : comparison :=
  if decide (ky_BaseCommitTimeSecond a < ky_BaseCommitTimeSecond b) then Lt
  else if decide (ky_BaseCommitTimeSecond b < ky_BaseCommitTimeSecond a) then Gt
  else bcompare (ky_BaseSha a) (ky_BaseSha b).

Definition EmptyKey : Key := {| ky_Remote := []; ky_BaseCommitTimeSecond := 0; ky_BaseSha := [] |}.

Definition keyPrefix : bytes := bs "itg".
Definition encodeRemote (remote : bytes) : bytes := PathEscape remote.

Definition toStorageKey (k : Key) : bytes :=
  Join [keyPrefix; encodeRemote (ky_Remote k); FormatDate (ky_BaseCommitTimeSecond k);
        itoa (ky_BaseCommitTimeSecond k) ++ x5f :: ky_BaseSha k].

Definition parseCacheFileName (name : bytes) : res Key :=
  match cut slash name with
  | None => Err "cache path should have form date/TIMESTAMP_SHA: %s"
  | Some (_, filename) =>
      match cut x5f filename with
      | None => Err "cache file name should have form TIMESTAMP_SHA: %s"
      | Some (ts, sha) =>
          match ParseInt ts with
          | None => Err "parse timestamp: %w"
          | Some ts => Ok {| ky_Remote := []; ky_BaseCommitTimeSecond := ts; ky_BaseSha := sha |}
          end
      end
  end.

Definition remotePrefix (remote : bytes) : bytes := Join [keyPrefix; encodeRemote remote] ++ [slash].

(** [CompareKeyFunc] is a lexicographic order of time and commit. *)
Lemma CompareKeyFunc_lex a b : CompareKeyFunc a b =
  lex_cmp Z.compare bcompare (ky_BaseCommitTimeSecond a, ky_BaseSha a) (ky_BaseCommitTimeSecond b, ky_BaseSha b).
Proof.
  unfold CompareKeyFunc, lex_cmp. cbn. repeat case_decide.
  - by rewrite (proj2 (Z.compare_lt_iff _ _)).
  - by rewrite (proj2 (Z.compare_gt_iff _ _)).
  - by rewrite (proj2 (Z.compare_eq_iff _ _)) by lia.
Qed.

#[export] Instance CompareKeyFunc_total : TotalCmp CompareKeyFunc.
Proof.
  pose proof (on_cmp_total (fun k => (ky_BaseCommitTimeSecond k, ky_BaseSha k)) (lex_cmp Z.compare bcompare)) as [Ha He Hl].
  split; intros *; rewrite !CompareKeyFunc_lex; [apply Ha|apply He|apply Hl].
Qed.

Lemma cle_time a b : cle CompareKeyFunc a b -> ky_BaseCommitTimeSecond a <= ky_BaseCommitTimeSecond b.
Proof. unfold cle, CompareKeyFunc. repeat case_decide; [lia|done|lia]. Qed.

(** * Searching *)

(** [slices.IsSortedFunc] *)
Fixpoint is_sorted (keys : list Key) : bool :=
  match keys with
  | a :: (b :: _) as keys' => match CompareKeyFunc b a with Lt => false | _ => is_sorted keys' end
  | _ => true
  end.

Definition sorted_keys (keys : list Key) : list Key := if is_sorted keys then keys else sort_func CompareKeyFunc keys.

(** The loop of [slices.BinarySearchFunc]; each round halves the range. *)
Fixpoint search_loop (fuel : nat) (keys : list Key) (target i j : Z) : res Z :=
  match fuel with
  | O => Ok i
  | S fuel =>
      if decide (i < j) then
        let h := Z.shiftr (i + j) 1 in
        k ← index keys h;
        if decide (ky_BaseCommitTimeSecond k < target) then search_loop fuel keys target (h + 1) j
        else search_loop fuel keys target i h
      else Ok i
  end.

Definition binarySearch (keys : list Key) (target : Z) : res (Z * bool) :=
  i ← search_loop (length keys) keys target 0 (zlen keys);
  if decide (i < zlen keys) then k ← index keys i; Ok (i, bool_decide (ky_BaseCommitTimeSecond k = target)) else Ok (i, false).

Lemma is_sorted_Sorted keys : is_sorted keys = true -> Sorted (cle CompareKeyFunc) keys.
Proof.
  induction keys as [|a keys IH]; [constructor|]. destruct keys as [|b keys]; [by repeat constructor|]. cbn [is_sorted].
  destruct (CompareKeyFunc b a) eqn:E; [|done|]; intros H; (constructor; [by apply IH|constructor]); unfold cle;
    rewrite (cmp_anti (cmp := CompareKeyFunc) b a), E; done.
Qed.

Lemma sorted_keys_spec keys : sorted_keys keys ≡ₚ keys /\ StronglySorted (cle CompareKeyFunc) (sorted_keys keys).
Proof.
  unfold sorted_keys. destruct (is_sorted keys) eqn:E.
  - split; [done|]. apply Sorted_StronglySorted, is_sorted_Sorted, E. apply cle_trans, _.
  - split; [apply sort_func_perm|apply sort_func_sorted, _].
Qed.

Lemma sorted_lookup_lt {A} (R : A -> A -> Prop) (l : list A) (i j : nat) a b : StronglySorted R l ->
  (i < j)%nat -> l !! i = Some a -> l !! j = Some b -> R a b.
Proof.
  intros Hs. revert i j. induction Hs as [|x l Hs IH Hx]; intros i j Hij Ha Hb; [done|]. destruct j as [|j]; [lia|]. destruct i as [|i]; cbn in *.
  - injection Ha as ->. rewrite Forall_forall in Hx. by eapply Hx, list_elem_of_lookup_2.
  - apply (IH i j); [lia|done|done].
Qed.

Definition times_sorted (keys : list Key) : Prop := forall i j a b, i <= j -> at_ keys i = Some a -> at_ keys j = Some b ->
  ky_BaseCommitTimeSecond a <= ky_BaseCommitTimeSecond b.

Lemma sorted_times keys : StronglySorted (cle CompareKeyFunc) keys -> times_sorted keys.
Proof.
  intros Hs i j a b Hij Ha Hb. unfold at_ in Ha, Hb. case_decide as Hi; [|done]. case_decide as Hj; [|done].
  apply cle_time. destruct (decide (i = j)) as [->|Hne].
  - rewrite Ha in Hb. injection Hb as ->. unfold cle. by rewrite (cmp_refl (cmp := CompareKeyFunc)).
  - apply (sorted_lookup_lt _ _ (Z.to_nat i) (Z.to_nat j) a b Hs); [lia|done|done].
Qed.

(** The search finds where the keys from the target on start. *)
Lemma search_loop_spec fuel keys target i j : times_sorted keys -> 0 <= i <= j -> j <= zlen keys -> j - i <= Z.of_nat fuel ->
  (forall h k, h < i -> at_ keys h = Some k -> ky_BaseCommitTimeSecond k < target) ->
  (forall h k, j <= h -> at_ keys h = Some k -> target <= ky_BaseCommitTimeSecond k) ->
  exists m, search_loop fuel keys target i j = Ok m /\ i <= m <= j /\
    (forall h k, h < m -> at_ keys h = Some k -> ky_BaseCommitTimeSecond k < target) /\
    (forall h k, m <= h -> at_ keys h = Some k -> target <= ky_BaseCommitTimeSecond k).
Proof.
  intros Ht. revert i j. induction fuel as [|fuel IH]; intros i j Hi Hj Hf Hlo Hhi; cbn [search_loop].
  - assert (i = j) as -> by lia. exists j. split_and!; [done|lia|lia|done|done].
  - case_decide as Hij; [|assert (i = j) as -> by lia; exists j; split_and!; [done|lia|lia|done|done]].
    set (h := Z.shiftr (i + j) 1).
    assert (i <= h < j) as Hh.
    { unfold h. rewrite Z.shiftr_div_pow2 by lia. change (2 ^ 1) with 2. pose proof (Z.div_le_lower_bound (i + j) 2 i).
      pose proof (Z.div_lt_upper_bound (i + j) 2 j). lia. }
    destruct (at_is_Some keys h ltac:(lia)) as [k Hk]. rewrite index_at, Hk. cbn [mbind res_bind]. case_decide as Hlt.
    + destruct (IH (h + 1) j) as (m & E & Hm & H1 & H2); [lia|lia|lia| |done|by exists m; split_and!; [|lia..| |]].
      intros h' k' Hh' Hk'. pose proof (Ht h' h k' k ltac:(lia) Hk' Hk). lia.
    + destruct (IH i h) as (m & E & Hm & H1 & H2); [lia|lia|lia|done| |by exists m; split_and!; [|lia..| |]].
      intros h' k' Hh' Hk'. pose proof (Ht h h' k k' ltac:(lia) Hk Hk'). lia.
Qed.

(** * Storage keys *)

(** Keys of real repositories and commits: the remote is more than dots, and the commit's
    hash has no slash. *)
Definition valid_remote (r : bytes) : Prop := r <> [] /\ r <> dot /\ r <> dotdot.
Definition valid_key (k : Key) : Prop :=
  valid_remote (ky_Remote k) /\ -2^63 <= ky_BaseCommitTimeSecond k < 2^63 /\ slash ∉ ky_BaseSha k.

#[export] Instance valid_remote_dec r : Decision (valid_remote r). Proof. unfold valid_remote. apply _. Defined.
#[export] Instance valid_key_dec k : Decision (valid_key k). Proof. unfold valid_key. apply _. Defined.

Definition file_name (k : Key) : bytes := itoa (ky_BaseCommitTimeSecond k) ++ x5f :: ky_BaseSha k.

Lemma file_name_normal k : slash ∉ ky_BaseSha k -> normal (file_name k).
Proof.
  intros Hs. unfold file_name. split_and!.
  - intros [_ ?]%app_eq_nil. done.
  - rewrite not_elem_of_app, not_elem_of_cons. split_and!; [by apply itoa_free|done|done].
  - intros E. assert (x5f ∈ dot) as H; [|revert H; decided]. rewrite <- E. apply elem_of_app. right. by left.
  - intros E. assert (x5f ∈ dotdot) as H; [|revert H; decided]. rewrite <- E. apply elem_of_app. right. by left.
Qed.

Lemma encodeRemote_normal r : valid_remote r -> normal (encodeRemote r).
Proof. intros (?&?&?). by apply PathEscape_normal. Qed.

Lemma remotePrefix_eq r : valid_remote r -> remotePrefix r = keyPrefix ++ slash :: encodeRemote r ++ [slash].
Proof.
  intros Hr. unfold remotePrefix. rewrite Join_plain; [|done|].
  - unfold join_with. by rewrite <- app_assoc.
  - apply Forall_cons; split; [decided|]. by apply Forall_singleton, normal_plain, encodeRemote_normal.
Qed.

Lemma toStorageKey_eq k : valid_key k ->
  toStorageKey k = remotePrefix (ky_Remote k) ++ FormatDate (ky_BaseCommitTimeSecond k) ++ slash :: file_name k.
Proof.
  intros (Hr & _ & Hs). rewrite remotePrefix_eq by done. unfold toStorageKey. rewrite Join_plain; [|done|].
  - unfold join_with. rewrite <- !app_assoc. cbn [app]. rewrite <- !app_assoc. done.
  - apply Forall_cons; split; [decided|]. apply Forall_cons; split; [by apply normal_plain, encodeRemote_normal|].
    apply Forall_cons; split; [apply normal_plain, FormatDate_normal|]. by apply Forall_singleton, normal_plain, file_name_normal.
Qed.

Lemma parse_file_name date k : valid_key k -> slash ∉ date ->
  parseCacheFileName (date ++ slash :: file_name k) =
    Ok {| ky_Remote := []; ky_BaseCommitTimeSecond := ky_BaseCommitTimeSecond k; ky_BaseSha := ky_BaseSha k |}.
Proof.
  intros (_ & Ht & _) Hd. unfold parseCacheFileName. rewrite cut_app by done. unfold file_name.
  rewrite cut_app by (by apply itoa_free). by rewrite ParseInt_itoa.
Qed.

(** The prefix tells the remote. *)
Lemma remotePrefix_of r k : valid_remote r -> valid_key k -> remotePrefix r `prefix_of` toStorageKey k -> r = ky_Remote k.
Proof.
  intros Hr Hk [rest E]. rewrite toStorageKey_eq, !remotePrefix_eq in E by (done || apply Hk).
  rewrite <- !app_assoc in E. apply app_inv_head in E. cbn [app] in E. injection E as E. rewrite <- !app_assoc in E. cbn [app] in E.
  apply app_sep_inj in E as [E _]; [|apply PathEscape_slash..]. symmetry. by apply PathEscape_inj.
Qed.

(** * The cache *)

Section cache.
Context {S : Type} {storage : Storage S}.
(** [gob] writes a graph, or refuses, and reads one back. *)
Context (gob_encode : OptimizedGraph -> res bytes) (gob_decode : bytes -> res OptimizedGraph).

(** The context is polled in order. *)
Definition Put (ctx : Z -> bool) (optimizedGraph : OptimizedGraph) (key : Key) (s : S) : res () * S :=
  match st_exists (ctx 0) (toStorageKey key) s with
  | Ok true => (Ok (), s)
  | Ok false =>
      match gob_encode optimizedGraph with
      | Ok buf => st_put (fun i => ctx (i + 1)) (toStorageKey key) (Some [Ok buf]) s
      | Err e => (Err e, s)
      | Panic => (Panic, s)
      end
  | Err e => (Err e, s)
  | Panic => (Panic, s)
  end.

(** [gob] does not tell an empty hash from a nil one. *)
Definition nonnil_hash (t : ITarget) : ITarget := match it_Hash t with None => set_it_hash (Some []) t | Some _ => t end.
Definition nonnil_hashes (g : OptimizedGraph) : OptimizedGraph := set_targets (nonnil_hash <$> OptimizedTargets g) g.

Definition Get (cancelled : bool) (key : Key) (s : S) : res OptimizedGraph :=
  match st_get cancelled (toStorageKey key) s with
  | Ok (Some b) => nonnil_hashes <$> gob_decode b
  | Ok None => Err "download graph %s: %w"
  | Err e => Err e
  | Panic => Panic
  end.

Definition parsed_key (remote k : bytes) : option Key :=
  match parseCacheFileName (trim_prefix_of (remotePrefix remote) k) with
  | Ok key => Some {| ky_Remote := remote; ky_BaseCommitTimeSecond := ky_BaseCommitTimeSecond key; ky_BaseSha := ky_BaseSha key |}
  | _ => None
  end.

Definition FloorKey (cancelled : bool) (remote : bytes) (targetTimeSecond : Z) (s : S) : res Key :=
  allKeys ← st_list cancelled (remotePrefix remote) s;
  let cacheKeys := omap (parsed_key remote) allKeys in
  if decide (cacheKeys = []) then Ok EmptyKey
  else
    let cacheKeys := sorted_keys cacheKeys in
    first ← index cacheKeys 0;
    if decide (targetTimeSecond < ky_BaseCommitTimeSecond first) then Ok EmptyKey
    else
      last ← index cacheKeys (zlen cacheKeys - 1);
      if decide (ky_BaseCommitTimeSecond last <= targetTimeSecond) then Ok last
      else
        r ← binarySearch cacheKeys targetTimeSecond;
        let '(idx, found) := r : Z * bool in
        index cacheKeys (if found then idx else idx - 1).

Context `{!StorageLaws S}.

(** The entries of a repository. *)
Definition entry (s : S) (remote : bytes) (k : Key) : Prop :=
  exists path, is_Some (st_contents s !! path) /\ remotePrefix remote `prefix_of` path /\ parsed_key remote path = Some k.

Lemma FloorKey_spec s remote target : st_ok s ->
  exists r, FloorKey false remote target s = Ok r /\
    ((r = EmptyKey /\ forall k, entry s remote k -> target < ky_BaseCommitTimeSecond k) \/
     (entry s remote r /\ ky_BaseCommitTimeSecond r <= target /\
      forall k, entry s remote k -> ky_BaseCommitTimeSecond k <= target -> ky_BaseCommitTimeSecond k <= ky_BaseCommitTimeSecond r)).
Proof.
  intros Hs. unfold FloorKey. destruct (st_list_spec (remotePrefix remote) s Hs) as (paths & -> & _ & Hp). cbn [mbind res_bind].
  assert (forall k, k ∈ omap (parsed_key remote) paths <-> entry s remote k) as He.
  { intros k. rewrite list_elem_of_omap. unfold entry. split; intros (p & ?); exists p; rewrite Hp in *; naive_solver. }
  revert He. generalize (omap (parsed_key remote) paths) as keys. intros keys He. case_decide as Hnil.
  { exists EmptyKey. split; [done|]. left. split; [done|]. intros k Hk%He. rewrite Hnil in Hk. by apply elem_of_nil in Hk. }
  destruct (sorted_keys_spec keys) as [Hperm Ht%sorted_times]. revert Hperm Ht. generalize (sorted_keys keys) as sorted. intros sorted Hperm Ht.
  assert (forall k, entry s remote k <-> exists i, at_ sorted i = Some k) as He'.
  { intros k. rewrite <- He, <- Hperm. split; [apply elem_at|]. intros [i Hi]. by eapply at_elem. }
  assert (0 < zlen sorted) as Hlen.
  { unfold zlen. rewrite Hperm. destruct keys; [done|]. cbn. lia. }
  assert (forall i k, at_ sorted i = Some k -> 0 <= i < zlen sorted) as Hr by (intros i k; apply at_Some_range).
  destruct (at_is_Some sorted 0 ltac:(lia)) as [first Hf]. rewrite (index_at sorted 0), Hf. cbn [mbind res_bind].
  case_decide as Hfirst.
  { exists EmptyKey. split; [done|]. left. split; [done|]. intros k [i Hi]%He'. pose proof (Hr i k Hi).
    pose proof (Ht 0 i first k ltac:(lia) Hf Hi). lia. }
  destruct (at_is_Some sorted (zlen sorted - 1) ltac:(lia)) as [last Hl]. rewrite (index_at sorted (zlen sorted - 1)), Hl. cbn [mbind res_bind].
  case_decide as Hlast.
  { exists last. split; [done|]. right. split_and!; [apply He'; eauto|done|]. intros k [i Hi]%He' _. pose proof (Hr i k Hi).
    apply (Ht i (zlen sorted - 1) k last); [lia|done|done]. }
  unfold binarySearch. destruct (search_loop_spec (length sorted) sorted target 0 (zlen sorted) Ht) as (m & -> & Hm & Hlo & Hhi);
    [lia|lia|unfold zlen; lia|intros h k Hh Hk; apply Hr in Hk; lia|intros h k Hh Hk; apply Hr in Hk; lia|]. cbn [mbind res_bind].
  assert (m < zlen sorted) as Hmlt.
  { destruct (decide (m < zlen sorted)); [done|]. pose proof (Hlo (zlen sorted - 1) last ltac:(lia) Hl). lia. }
  rewrite decide_True by done. destruct (at_is_Some sorted m ltac:(lia)) as [k Hk]. rewrite index_at, Hk. cbn [mbind res_bind].
  pose proof (Hhi m k ltac:(lia) Hk) as Hge. case_bool_decide as Hfound.
  - rewrite index_at, Hk. exists k. split; [done|]. right. split_and!; [apply He'; eauto|lia|]. intros k' _. lia.
  - assert (m <> 0) as Hm0 by (intros ->; rewrite Hf in Hk; injection Hk as ->; lia).
    destruct (at_is_Some sorted (m - 1) ltac:(lia)) as [k' Hk']. rewrite index_at, Hk'. exists k'. split; [done|]. right.
    pose proof (Hlo (m - 1) k' ltac:(lia) Hk') as Hlt. split_and!; [apply He'; eauto|lia|]. intros k'' [i Hi]%He' Hle.
    destruct (decide (i < m)) as [Him|Him].
    + apply (Ht i (m - 1) k'' k'); [lia|done|done].
    + pose proof (Ht m i k k'' ltac:(lia) Hk Hi). lia.
Qed.

Lemma parsed_toStorageKey k : valid_key k -> parsed_key (ky_Remote k) (toStorageKey k) = Some k.
Proof.
  intros Hk. unfold parsed_key. rewrite toStorageKey_eq, trim_prefix_of_app by done.
  destruct (FormatDate_normal (ky_BaseCommitTimeSecond k)) as (_ & Hd & _). rewrite parse_file_name by done. cbn. by destruct k.
Qed.

Lemma toStorageKey_inj k k' : valid_key k -> valid_key k' -> toStorageKey k = toStorageKey k' -> k = k'.
Proof.
  intros Hk Hk' E. assert (ky_Remote k = ky_Remote k') as Hr.
  { apply remotePrefix_of; [apply Hk|done|]. rewrite <- E, toStorageKey_eq by done. by apply prefix_app_r. }
  pose proof (parsed_toStorageKey k Hk) as Hp. pose proof (parsed_toStorageKey k' Hk') as Hp'. rewrite <- Hr, <- E in Hp'. congruence.
Qed.

(** Everything of the cache is below one prefix. *)
Definition cache_prefix : bytes := keyPrefix ++ [slash].

Lemma cache_prefix_of k : valid_key k -> cache_prefix `prefix_of` toStorageKey k.
Proof.
  intros Hk. rewrite toStorageKey_eq, remotePrefix_eq by (done || apply Hk). exists (encodeRemote (ky_Remote k) ++ [slash] ++ FormatDate (ky_BaseCommitTimeSecond k) ++ slash :: file_name k).
  unfold cache_prefix. rewrite <- !app_assoc. cbn [app]. by rewrite <- !app_assoc.
Qed.

(** ** Histories *)

(** Graphs are put into a storage that other clients use, too; [G] has the graph that was
    put first for each key. *)
Inductive cached : S -> (Key -> option OptimizedGraph) -> Prop :=
  | cached_init s : st_ok s -> (forall p, cache_prefix `prefix_of` p -> st_contents s !! p = None) -> cached s (fun _ => None)
  | cached_put s G ctx g k s' : cached s G -> valid_key k -> Put ctx g k s = (Ok (), s') ->
      cached s' (fun k' => if decide (k' = k) then Some (default g (G k)) else G k')
  | cached_fail s G ctx g k r s' : cached s G -> Put ctx g k s = (r, s') -> r <> Ok () -> cached s' G
  | cached_other s G ctx p r : cached s G -> ~ cache_prefix `prefix_of` p -> cached (st_put ctx p r s).2 G.

Record holds (s : S) (G : Key -> option OptimizedGraph) : Prop := {
  ho_ok : st_ok s;
  ho_valid : forall k g, G k = Some g -> valid_key k /\ exists b, gob_encode g = Ok b /\ st_contents s !! toStorageKey k = Some b;
  ho_only : forall p, cache_prefix `prefix_of` p -> is_Some (st_contents s !! p) -> exists k, is_Some (G k) /\ p = toStorageKey k;
}.

Lemma holds_contents s s' G : holds s G -> st_ok s' -> st_contents s' = st_contents s -> holds s' G.
Proof. intros [H1 H2 H3] Hs E. split; [done|..]; by rewrite E. Qed.

Lemma Put_ok ctx g k s : st_ok s -> st_ok (Put ctx g k s).2.
Proof.
  intros Hs. unfold Put. destruct (st_exists _ _ _) as [[]| |]; [done| |done..]. destruct (gob_encode g) as [b| |]; [|done..]. by apply st_put_ok.
Qed.

Lemma Put_contents ctx g k s : st_ok s ->
  match (Put ctx g k s).1 with
  | Ok _ => (is_Some (st_contents s !! toStorageKey k) /\ st_contents (Put ctx g k s).2 = st_contents s) \/
      (st_contents s !! toStorageKey k = None /\ exists b, gob_encode g = Ok b /\
        st_contents (Put ctx g k s).2 = <[toStorageKey k := b]> (st_contents s))
  | _ => st_contents (Put ctx g k s).2 = st_contents s
  end.
Proof.
  intros Hs. unfold Put. destruct (st_exists_spec (ctx 0) (toStorageKey k) s Hs) as [->|(_ & e & ->)]; [|done].
  case_bool_decide as Hx; cbn [fst snd]; [by left|]. destruct (gob_encode g) as [b| |] eqn:Eg; cbn [fst snd]; [|done..].
  pose proof (st_put_spec (fun i => ctx (i + 1)) (toStorageKey k) (Some [Ok b]) s Hs) as Hp.
  destruct (st_put _ _ _ _) as [[u| |] s']; cbn [fst snd] in *; [|done..]. destruct Hp as (reads & [= <-] & _ & Hc). right. split.
  - by apply eq_None_not_Some.
  - exists b. split; [done|]. rewrite Hc. do 2 f_equal. apply app_nil_r.
Qed.

Lemma cached_holds s G : cached s G -> holds s G.
Proof.
  induction 1 as [s Hs Hno|s G ctx g k s' _ IH Hk HP|s G ctx g k r s' _ IH HP Hr|s G ctx p r _ IH Hp].
  - split; [done|done|]. intros p Hp [b Hb]. rewrite Hno in Hb by done. done.
  - pose proof (Put_ok ctx g k s (ho_ok _ _ IH)) as Hok. pose proof (Put_contents ctx g k s (ho_ok _ _ IH)) as Hc.
    rewrite HP in Hok, Hc. cbn [fst snd] in *. destruct Hc as [[Hx Hc]|(Hx & b & Hb & Hc)].
    + destruct (ho_only _ _ IH _ (cache_prefix_of k Hk) Hx) as (k0 & [g0 Hg0] & E0).
      assert (k0 = k) as -> by (symmetry; apply toStorageKey_inj; [done|by destruct (ho_valid _ _ IH k0 g0 Hg0)|done]).
      split; [done|..].
      * intros k' g'. rewrite Hc. case_decide as Hk'; [subst k'; rewrite Hg0; cbn; intros [= <-]|]; by apply (ho_valid _ _ IH).
      * intros p Hp Hpx. rewrite Hc in Hpx. destruct (ho_only _ _ IH p Hp Hpx) as (k' & Hg' & ->). exists k'. split; [|done].
        case_decide; [by eexists|done].
    + split; [done|..].
      * intros k' g'. case_decide as Hk'; [subst k'|].
        { destruct (G k) as [g0|] eqn:Eg0.
          { destruct (ho_valid _ _ IH k g0 Eg0) as (_ & b0 & _ & Hb0). rewrite Hx in Hb0. discriminate Hb0. }
          intros [= <-]. split; [done|]. exists b. split; [done|]. rewrite Hc. apply lookup_insert_eq. }
        intros Hg'. destruct (ho_valid _ _ IH k' g' Hg') as (Hv & b' & Hb' & Hl). split; [done|]. exists b'. split; [done|].
        rewrite Hc, lookup_insert_ne; [done|]. intros E. apply Hk'. symmetry. by apply toStorageKey_inj.
      * intros p Hp Hpx. rewrite Hc in Hpx. destruct (decide (p = toStorageKey k)) as [->|Hne].
        { exists k. split; [|done]. rewrite decide_True by done. by eexists. }
        rewrite lookup_insert_ne in Hpx by done. destruct (ho_only _ _ IH p Hp Hpx) as (k' & Hg' & ->). exists k'. split; [|done].
        case_decide; [by eexists|done].
  - pose proof (Put_ok ctx g k s (ho_ok _ _ IH)) as Hok. pose proof (Put_contents ctx g k s (ho_ok _ _ IH)) as Hc.
    rewrite HP in Hok, Hc. cbn [fst snd] in *. apply (holds_contents s); [done|done|]. destruct r as [[]| |]; done.
  - pose proof (st_put_ok ctx p r s (ho_ok _ _ IH)) as Hok. pose proof (st_put_spec ctx p r s (ho_ok _ _ IH)) as Hc.
    destruct (st_put ctx p r s) as [[u|e|] s']; cbn [fst snd] in *; [|by apply (holds_contents s)..].
    destruct Hc as (reads & -> & _ & Hc). split; [done|..].
    + intros k g Hg. destruct (ho_valid _ _ IH k g Hg) as (Hv & b & Hb & Hl). split; [done|]. exists b. split; [done|].
      rewrite Hc, lookup_insert_ne; [done|]. intros ->. by apply Hp, cache_prefix_of.
    + intros p' Hp' Hpx. rewrite Hc, lookup_insert_ne in Hpx by (intros ->; done). by apply (ho_only _ _ IH).
Qed.

(** The entries of a repository are the keys put for it. *)
Lemma holds_entry s G remote k : holds s G -> valid_remote remote ->
  entry s remote k <-> is_Some (G k) /\ ky_Remote k = remote.
Proof.
  intros H Hr. split.
  - intros (p & Hp & Hpre & Hk).
    destruct (ho_only _ _ H p) as (k' & [g Hg] & ->); [|done|].
    { destruct Hpre as [rest ->]. rewrite remotePrefix_eq by done. exists (encodeRemote remote ++ [slash] ++ rest).
      unfold cache_prefix. rewrite <- !app_assoc. cbn [app]. by rewrite <- app_assoc. }
    destruct (ho_valid _ _ H k' g Hg) as [Hv _]. apply remotePrefix_of in Hpre; [|done|done]. subst remote.
    rewrite parsed_toStorageKey in Hk by done. injection Hk as ->. split; [by eexists|done].
  - intros [[g Hg] <-]. destruct (ho_valid _ _ H k g Hg) as (Hv & b & _ & Hl). exists (toStorageKey k). split_and!.
    + by eexists.
    + rewrite toStorageKey_eq by done. by apply prefix_app_r.
    + by apply parsed_toStorageKey.
Qed.
End cache.

(** C33: The cache finds the newest graph up to a time.  Through any history of puts, failed
    puts and uses of the storage by others, [FloorKey] returns the key with the greatest
    commit time up to the target among those put for the repository, or the empty key if
    there is none, and [Get] of that key returns the graph first put under it, as [gob]
    copies it, without nil hashes. *)
Theorem newest_graph_found {S : Type} `{!Storage S, !StorageLaws S} (gob_encode : OptimizedGraph -> res bytes)
    (gob_decode : bytes -> res OptimizedGraph) (gob_copy : OptimizedGraph -> OptimizedGraph) (s : S)
    (G : Key -> option OptimizedGraph) (remote : bytes) (target : Z) :
  (forall g b, gob_encode g = Ok b -> gob_decode b = Ok (gob_copy g)) ->
  cached gob_encode s G -> valid_remote remote ->
  exists r, FloorKey false remote target s = Ok r /\
    ((r = EmptyKey /\ forall k, is_Some (G k) -> ky_Remote k = remote -> target < ky_BaseCommitTimeSecond k) \/
     (ky_Remote r = remote /\ ky_BaseCommitTimeSecond r <= target /\
      (forall k, is_Some (G k) -> ky_Remote k = remote -> ky_BaseCommitTimeSecond k <= target ->
         ky_BaseCommitTimeSecond k <= ky_BaseCommitTimeSecond r) /\
      exists g, G r = Some g /\ Get gob_decode false r s = Ok (nonnil_hashes (gob_copy g)))).
Proof.
  intros Hgob Hc0 Hr. pose proof (cached_holds gob_encode s G Hc0) as Hc. pose proof (fun k => holds_entry _ s G remote k Hc Hr) as He.
  destruct (FloorKey_spec gob_decode s remote target (ho_ok _ _ _ Hc)) as (r & -> & H). exists r. split; [done|].
  destruct H as [[-> H]|(Hin & Hle & H)]; [left|right].
  - split; [done|]. intros k Hk Hkr. apply H, He. done.
  - apply He in Hin as [[g Hg] Hrr]. split_and!; [done|done| |].
    + intros k Hk Hkr. apply H, He. done.
    + exists g. split; [done|]. destruct (ho_valid _ _ _ Hc r g Hg) as (_ & b & Hb & Hl).
      unfold Get. rewrite (st_get_false (toStorageKey r) s (ho_ok _ _ _ Hc)), Hl. by rewrite (Hgob g b Hb).
Qed.

(** A codec of the one number of a graph, for examples. *)
Definition number_encode (g : OptimizedGraph) : res bytes :=
  if decide (-2^63 <= NextTargetID g < 2^63) then Ok (itoa (NextTargetID g)) else Err "out of range".
Definition number_copy (g : OptimizedGraph) : OptimizedGraph := set_names (NextTargetID g) empty_table empty_graph.
Definition number_decode (b : bytes) : res OptimizedGraph :=
  match ParseInt b with Some n => Ok (set_names n empty_table empty_graph) | None => Err "not a number" end.

Definition sample_memory : Storage (gmap bytes bytes) := memory_storage (fun m => (map_to_list m).*1).
Definition sample_key (t : Z) : Key :=
  {| ky_Remote := bs "git@github:uber/tango"; ky_BaseCommitTimeSecond := t; ky_BaseSha := bs "ab12" |}.
Definition put_sample (t : Z) (s : gmap bytes bytes) : gmap bytes bytes :=
  (@Put _ sample_memory number_encode (fun _ => false) (set_names t empty_table empty_graph) (sample_key t) s).2.
Definition two_graphs : gmap bytes bytes := put_sample 200 (put_sample 100 ∅).

Lemma newest_graph_found_witness : exists r g, @FloorKey _ sample_memory false (bs "git@github:uber/tango") 150 two_graphs = Ok r /\
  ky_BaseCommitTimeSecond r <= 150 /\ @Get _ sample_memory number_decode false r two_graphs = Ok g.
Proof.
  assert (exists G, @cached _ sample_memory number_encode two_graphs G /\ is_Some (G (sample_key 100))) as (G & Hc & Hk).
  { eexists. split.
    - refine (@cached_put _ sample_memory number_encode _ _ (fun _ => false) (set_names 200 empty_table empty_graph) (sample_key 200) two_graphs
        (@cached_put _ sample_memory number_encode _ _ (fun _ => false) (set_names 100 empty_table empty_graph) (sample_key 100) (put_sample 100 ∅)
          (@cached_init _ sample_memory number_encode ∅ Logic.I (fun p _ => lookup_empty p)) _ _) _ _); try decided; by vm_compute.
    - cbv beta. destruct (decide _) as [_|_]; [by eexists|]. rewrite decide_True by done. by eexists. }
  destruct (@newest_graph_found _ sample_memory (memory_laws _ (fun m => reflexivity _)) number_encode number_decode number_copy two_graphs G
    (bs "git@github:uber/tango") 150) as (r & Hr & H); [|exact Hc|decided|].
  { intros g b. unfold number_encode, number_decode. case_decide as Hg; [|done]. intros [= <-]. by rewrite ParseInt_itoa. }
  exists r. destruct H as [[_ H]|(_ & Hle & _ & g & _ & Hg)]; [|exists (nonnil_hashes (number_copy g)); split; [exact Hr|split; [exact Hle|exact Hg]]].
  exfalso. specialize (H (sample_key 100) Hk eq_refl). apply (Z.lt_irrefl 100). apply (Z.lt_trans _ 150); [reflexivity|exact H].
Defined.
