(* ===== verification/Config.v ===== *)
(** The service configuration ([config/config.go] and the structs of the package [config]):
    validation, defaults and lookups.  The YAML decoder is a parameter. *)
From Stdlib Require Import ZArith Lia.
From stdpp Require Import gmap fin_maps list.
From S2P Require Import Prelude Text.

Local Open Scope Z_scope.

(** * The structs *)

(** [BzlmodEnabled] is a [*bool]; integers are an [int64] and [int]s. *)
Record RepositoryConfig := {
  rc_Remote : bytes;
  rc_RepositoryID : bytes;
  rc_FullHashRepos : list bytes;
  rc_ExcludedFiles : list bytes;
  rc_BzlmodEnabled : option bool;
  rc_BazelCommandPath : bytes;
  rc_BazelExtraArgs : list bytes;
  rc_BazelStartupOptions : list bytes;
  rc_StreamBazelLogs : bool;
  rc_QueryTimeoutSeconds : Z;
  rc_SeedAttributes : list bytes;
  rc_AllTargetsFiles : list bytes;
}.

(** [Disk] is [nil] or has a [RootPath]. *)
Record StorageConfig := { sc_Type : bytes; sc_Disk : option bytes }.

Record ServiceConfig := { sv_MaxWorkerPoolSize : Z; sv_WorkspacesRootPath : bytes; sv_MaxMessageBytes : Z }.

Record GraphConfig := { gc_Format : bytes; gc_ShadowCompare : bool }.

(** [repositoryByRemote] holds pointers into [Repository]. *)
Record Config := {
  cf_Repository : list RepositoryConfig;
  cf_Storage : StorageConfig;
  cf_Service : ServiceConfig;
  cf_Graph : gmap bytes GraphConfig;
  cf_repositoryByRemote : gmap bytes nat;
}.

Definition StorageTypeMemory : bytes := bs "memory".
Definition StorageTypeDisk : bytes := bs "disk".
Definition GraphFormatTGB : bytes := bs "tgb".
Definition DefaultQueryTimeoutSeconds : Z := 600.
Definition DefaultMaxMessageBytes : Z := 4250000.
Definition _bzlmodEnabledDefault : bool := true.

(** * Lookups *)

Definition GetRepositoryConfig (c : Config) (remote : bytes) : option RepositoryConfig :=
  i ← cf_repositoryByRemote c !! remote; cf_Repository c !! i.

Definition toShortRemote (remote : bytes) : bytes := default [] (last (split_on x3a remote)).

Definition GetGraphConfig (c : Config) (remote : bytes) : res GraphConfig :=
  match cf_Graph c !! toShortRemote remote with
  | Some gc => Ok gc
  | None =>
      match cf_Graph c !! bs "default" with
      | Some gc => Ok gc
      | None => Err "no graph config for remote %q and no default entry"
      end
  end.

(** * Validation and defaults *)

Definition validate_storage (s : StorageConfig) : res StorageConfig :=
  if decide (sc_Type s = StorageTypeMemory \/ sc_Type s = []) then Ok {| sc_Type := StorageTypeMemory; sc_Disk := sc_Disk s |}
  else if decide (sc_Type s = StorageTypeDisk) then
    match sc_Disk s with
    | Some (_ :: _) => Ok s
    | _ => Err "storage.disk.root_path must be set when storage type is %q"
    end
  else Err "unsupported storage type: %q (supported: %q, %q)".

Definition validate_service (s : ServiceConfig) : res ServiceConfig :=
  _ ← guard_err (bool_decide (sv_WorkspacesRootPath s = [])) "service.workspaces_root_path must be set";
  _ ← guard_err (bool_decide (sv_MaxWorkerPoolSize s <= 0)) "service.max_worker_pool_size must be > 0, got %d";
  Ok {| sv_MaxWorkerPoolSize := sv_MaxWorkerPoolSize s; sv_WorkspacesRootPath := sv_WorkspacesRootPath s;
        sv_MaxMessageBytes := if decide (sv_MaxMessageBytes s <= 0) then DefaultMaxMessageBytes else sv_MaxMessageBytes s |}.

(** The loop over the graph formats. *)
Fixpoint check_formats (graphs : list (bytes * GraphConfig)) : res () :=
  match graphs with
  | [] => Ok ()
  | (_, gc) :: graphs =>
      if decide (gc_Format gc = GraphFormatTGB) then check_formats graphs else Err "unsupported graph.%s.format: %q (supported: %q)"
  end.

Definition default_repository (r : RepositoryConfig) : RepositoryConfig :=
  {| rc_Remote := rc_Remote r; rc_RepositoryID := rc_RepositoryID r; rc_FullHashRepos := rc_FullHashRepos r;
     rc_ExcludedFiles := rc_ExcludedFiles r;
     rc_BzlmodEnabled := match rc_BzlmodEnabled r with None => Some _bzlmodEnabledDefault | Some b => Some b end;
     rc_BazelCommandPath := rc_BazelCommandPath r; rc_BazelExtraArgs := rc_BazelExtraArgs r;
     rc_BazelStartupOptions := rc_BazelStartupOptions r; rc_StreamBazelLogs := rc_StreamBazelLogs r;
     rc_QueryTimeoutSeconds := if decide (rc_QueryTimeoutSeconds r <= 0) then DefaultQueryTimeoutSeconds else rc_QueryTimeoutSeconds r;
     rc_SeedAttributes := rc_SeedAttributes r; rc_AllTargetsFiles := rc_AllTargetsFiles r |}.

(** The loop over the repositories from the [i]-th on. *)
Fixpoint check_repositories (i : nat) (repositories : list RepositoryConfig) (byRemote : gmap bytes nat) :
    res (list RepositoryConfig * gmap bytes nat) :=
  match repositories with
  | [] => Ok ([], byRemote)
  | r :: repositories =>
      _ ← guard_err (bool_decide (rc_Remote r = [])) "repository[%d].remote must not be empty";
      _ ← guard_err (bool_decide (rc_RepositoryID r = [])) "repository[%d].repository_id must not be empty";
      _ ← guard_err (bool_decide (is_Some (byRemote !! rc_Remote r))) "duplicate repository remote %q";
      rest ← check_repositories (S i) repositories (<[rc_Remote r := i]> byRemote);
      Ok (default_repository r :: rest.1, rest.2)
  end.

Section parse.
(** The decoder, which leaves [repositoryByRemote] empty, and the order of a map. *)
Context (decode : bytes -> res Config) (range : gmap bytes GraphConfig -> list (bytes * GraphConfig)).

Definition validate (config : Config) : res Config :=
  storage ← validate_storage (cf_Storage config);
  service ← validate_service (cf_Service config);
  let graphs := if decide (cf_Graph config = ∅)
                then {[bs "default" := {| gc_Format := GraphFormatTGB; gc_ShadowCompare := false |}]} else cf_Graph config in
  _ ← check_formats (range graphs);
  repositories ← check_repositories 0 (cf_Repository config) ∅;
  Ok {| cf_Repository := repositories.1; cf_Storage := storage; cf_Service := service; cf_Graph := graphs;
        cf_repositoryByRemote := repositories.2 |}.

Definition ParseBytes (yamlBytes : bytes) : res Config := config ← decode yamlBytes; validate config.

(** [Parse] of what reading the file gives. *)
Definition Parse (file : res bytes) : res Config := yamlBytes ← file; ParseBytes yamlBytes.
End parse.

(** * What a configuration promises *)

Record repository_ok (r : RepositoryConfig) : Prop := {
  ro_remote : rc_Remote r <> [];
  ro_id : rc_RepositoryID r <> [];
  ro_bzlmod : is_Some (rc_BzlmodEnabled r);
  ro_timeout : 0 < rc_QueryTimeoutSeconds r;
}.

(** The type of a parsed configuration. *)
Record config_ok (c : Config) : Prop := {
  co_storage : sc_Type (cf_Storage c) = StorageTypeMemory \/
    sc_Type (cf_Storage c) = StorageTypeDisk /\ exists root, sc_Disk (cf_Storage c) = Some root /\ root <> [];
  co_root : sv_WorkspacesRootPath (cf_Service c) <> [];
  co_pool : 0 < sv_MaxWorkerPoolSize (cf_Service c);
  co_message : 0 < sv_MaxMessageBytes (cf_Service c);
  co_graph : cf_Graph c <> ∅;
  co_formats : map_Forall (fun _ gc => gc_Format gc = GraphFormatTGB) (cf_Graph c);
  co_repositories : Forall repository_ok (cf_Repository c);
  co_remotes : NoDup (rc_Remote <$> cf_Repository c);
  co_lookup : forall remote r, GetRepositoryConfig c remote = Some r <-> r ∈ cf_Repository c /\ rc_Remote r = remote;
}.

(** What an operator has to write. *)
Record acceptable_config (c : Config) : Prop := {
  ac_storage : sc_Type (cf_Storage c) = StorageTypeMemory \/ sc_Type (cf_Storage c) = [] \/
    sc_Type (cf_Storage c) = StorageTypeDisk /\ exists root, sc_Disk (cf_Storage c) = Some root /\ root <> [];
  ac_root : sv_WorkspacesRootPath (cf_Service c) <> [];
  ac_pool : 0 < sv_MaxWorkerPoolSize (cf_Service c);
  ac_formats : map_Forall (fun _ gc => gc_Format gc = GraphFormatTGB) (cf_Graph c);
  ac_repositories : Forall (fun r => rc_Remote r <> [] /\ rc_RepositoryID r <> []) (cf_Repository c);
  ac_remotes : NoDup (rc_Remote <$> cf_Repository c);
}.

(** ** Lemmas *)

Lemma validate_storage_spec s :
  (is_ok (validate_storage s) = true <->
    sc_Type s = StorageTypeMemory \/ sc_Type s = [] \/ sc_Type s = StorageTypeDisk /\ exists root, sc_Disk s = Some root /\ root <> []) /\
  forall s', validate_storage s = Ok s' ->
    sc_Type s' = StorageTypeMemory \/ sc_Type s' = StorageTypeDisk /\ exists root, sc_Disk s' = Some root /\ root <> [].
Proof.
  unfold validate_storage. case_decide as Hm; [|case_decide as Hd].
  - split; [split; [intros _; tauto|done]|]. intros s' [= <-]. by left.
  - destruct (sc_Disk s) as [[|b path]|] eqn:E.
    1,3: split; [split; [done|]|done]; intros [?|[?|(_ & root & Hr & Hne)]]; [by destruct Hm; left|by destruct Hm; right|congruence].
    split; [split; [intros _|done]|].
    + right. right. split; [done|]. by eexists.
    + intros s' [= <-]. right. rewrite E. split; [done|]. by eexists.
  - split; [split; [done|tauto]|done].
Qed.

Lemma validate_service_spec s :
  (is_ok (validate_service s) = true <-> sv_WorkspacesRootPath s <> [] /\ 0 < sv_MaxWorkerPoolSize s) /\
  forall s', validate_service s = Ok s' -> sv_WorkspacesRootPath s' <> [] /\ 0 < sv_MaxWorkerPoolSize s' /\ 0 < sv_MaxMessageBytes s'.
Proof.
  unfold validate_service. destruct (bool_decide_reflect (sv_WorkspacesRootPath s = [])) as [H1|H1]; [by cbn; split; [split; [done|tauto]|]|].
  destruct (bool_decide_reflect (sv_MaxWorkerPoolSize s <= 0)) as [H2|H2]; cbn; [split; [split; [done|lia]|done]|].
  split; [split; [split; [done|lia]|done]|]. intros s' [= <-]. cbn. split; [done|]. split; [lia|]. unfold DefaultMaxMessageBytes. case_decide; lia.
Qed.

Lemma check_formats_spec l : is_ok (check_formats l) = true <-> Forall (fun x => gc_Format x.2 = GraphFormatTGB) l.
Proof.
  induction l as [|[name gc] l IH]; cbn [check_formats]; [done|]. rewrite Forall_cons. cbn. case_decide; [|naive_solver]. naive_solver.
Qed.

Lemma check_repositories_spec i rs by0 :
  (is_ok (check_repositories i rs by0) = true <->
    Forall (fun r => rc_Remote r <> [] /\ rc_RepositoryID r <> []) rs /\ NoDup (rc_Remote <$> rs) /\
    Forall (fun r => by0 !! rc_Remote r = None) rs) /\
  forall out, check_repositories i rs by0 = Ok out -> out.1 = default_repository <$> rs /\
    forall remote j, out.2 !! remote = Some j -> by0 !! remote = Some j \/ exists r, (i <= j)%nat /\ rs !! (j - i)%nat = Some r /\ rc_Remote r = remote.
Proof.
  revert i by0. induction rs as [|r rs IH]; intros i by0; cbn [check_repositories].
  { split; [split; [intros _; split_and!; constructor|done]|]. intros out [= <-]. cbn. split; [done|]. by left. }
  destruct (bool_decide_reflect (rc_Remote r = [])) as [H1|H1]. { cbn. split; [split; [done|]|done]. by intros ([[? _] _]%Forall_cons & _). }
  destruct (bool_decide_reflect (rc_RepositoryID r = [])) as [H2|H2]. { cbn. split; [split; [done|]|done]. by intros ([[_ ?] _]%Forall_cons & _). }
  destruct (bool_decide_reflect (is_Some (by0 !! rc_Remote r))) as [H3|H3].
  { cbn. split; [split; [done|]|done]. intros (_ & _ & [H _]%Forall_cons). rewrite H in H3. by destruct H3. }
  cbn [mbind res_bind guard_err]. destruct (IH (S i) (<[rc_Remote r := i]> by0)) as [Hok Hout].
  apply eq_None_not_Some in H3.
  assert (Forall (fun r' => (<[rc_Remote r := i]> by0) !! rc_Remote r' = None) rs <-> 
    (rc_Remote r ∉ rc_Remote <$> rs) /\ Forall (fun r' => by0 !! rc_Remote r' = None) rs) as Hby.
  { rewrite !Forall_forall, list_elem_of_fmap. split.
    - intros H. split.
      + intros (r' & E & Hr'). specialize (H r' Hr'). by rewrite <- E, lookup_insert_eq in H.
      + intros r' Hr'. specialize (H r' Hr'). destruct (decide (rc_Remote r' = rc_Remote r)) as [E|E].
        * by rewrite E, lookup_insert_eq in H.
        * by rewrite lookup_insert_ne in H.
    - intros [Hn H] r' Hr'. rewrite lookup_insert_ne; [by apply H|]. intros E. apply Hn. by exists r'. }
  split.
  - transitivity (is_ok (check_repositories (S i) rs (<[rc_Remote r:=i]> by0)) = true).
    { by destruct (check_repositories _ _ _). }
    rewrite Hok, Hby, fmap_cons, !Forall_cons, NoDup_cons. tauto.
  - intros out Ho. apply bind_Ok in Ho as (rest & Er & [= <-]). destruct (Hout rest Er) as [E1 E2]. cbn [fst snd].
    split; [by rewrite fmap_cons, E1|]. intros remote j Hj. destruct (E2 remote j Hj) as [H|(r' & Hle & Hl & Hr')].
    + destruct (decide (remote = rc_Remote r)) as [->|Hne].
      * rewrite lookup_insert_eq in H. injection H as <-. right. exists r. by rewrite Nat.sub_diag.
      * rewrite lookup_insert_ne in H by done. by left.
    + right. exists r'. split; [lia|]. replace (j - i)%nat with (S (j - S i)) by lia. done.
Qed.

(** Every remote is in the index. *)
Lemma check_repositories_complete i rs by0 out : check_repositories i rs by0 = Ok out ->
  (forall remote j, by0 !! remote = Some j -> out.2 !! remote = Some j) /\
  forall k r, rs !! k = Some r -> out.2 !! rc_Remote r = Some (i + k)%nat.
Proof.
  revert i by0 out. induction rs as [|r rs IH]; intros i by0 out; cbn [check_repositories].
  { intros [= <-]. by split. }
  intros H. res_inv. destruct (IH _ _ _ E2) as [H1' H2']. cbn [snd].
  assert (by0 !! rc_Remote r = None) as Hn by (by apply eq_None_not_Some).
  split.
  - intros remote j Hj. apply H1'. rewrite lookup_insert_ne; [done|]. intros <-. by rewrite Hn in Hj.
  - intros [|k] r' Hk; cbn in Hk.
    + injection Hk as <-. rewrite Nat.add_0_r. apply H1'. by rewrite lookup_insert_eq.
    + rewrite (H2' _ _ Hk). f_equal. lia.
Qed.

Lemma default_repository_ok r : rc_Remote r <> [] -> rc_RepositoryID r <> [] -> repository_ok (default_repository r).
Proof.
  intros H1 H2. split; cbn; [done..| |].
  - by destruct (rc_BzlmodEnabled r).
  - unfold DefaultQueryTimeoutSeconds. case_decide; lia.
Qed.

Lemma check_repositories_lookup rs repositories byRemote remote r : check_repositories 0 rs ∅ = Ok (repositories, byRemote) ->
  ((i ← byRemote !! remote; repositories !! i) = Some r <-> r ∈ repositories /\ rc_Remote r = remote).
Proof.
  intros H. pose proof (check_repositories_complete _ _ _ _ H) as [_ Hc]. cbn [snd] in Hc.
  destruct (check_repositories_spec 0 rs ∅) as [_ Hs]. destruct (Hs _ H) as [E Hl]. cbn [fst snd] in *. subst repositories. split.
  - intros (i & Hi & Hr)%bind_Some. split; [by apply list_elem_of_lookup_2 in Hr|].
    destruct (Hl remote i Hi) as [?|(r' & _ & Hr' & <-)]; [done|]. rewrite Nat.sub_0_r in Hr'.
    rewrite list_lookup_fmap, Hr' in Hr. by injection Hr as <-.
  - intros [Hin Hr]. apply list_elem_of_fmap in Hin as (r' & -> & Hin). apply list_elem_of_lookup in Hin as [k Hk].
    apply bind_Some. exists k. cbn in Hr. subst remote. split; [by apply (Hc k)|]. by rewrite list_lookup_fmap, Hk.
Qed.

(** * Properties *)

(** C23: A parsed configuration is well formed, and only a mistake is refused.  Parsing
    succeeds exactly when the written configuration is acceptable; the result then has the
    type every other part relies on (a storage that can be opened, positive bounds, a
    supported graph format, distinct remotes, a timeout), the repositories are the written
    ones with their defaults, a lookup finds each by its remote and nothing else, and the
    lookup of a graph format succeeds whenever none or a default was written. *)
Theorem parsed_config_well_formed (decode : bytes -> res Config) (range : gmap bytes GraphConfig -> list (bytes * GraphConfig))
    (yamlBytes : bytes) (raw : Config) :
  (forall m, range m ≡ₚ map_to_list m) -> decode yamlBytes = Ok raw ->
  (is_ok (ParseBytes decode range yamlBytes) = true <-> acceptable_config raw) /\
  forall c, ParseBytes decode range yamlBytes = Ok c ->
    config_ok c /\ cf_Repository c = default_repository <$> cf_Repository raw /\
    (forall remote, cf_Graph raw = ∅ \/ is_Some (cf_Graph raw !! bs "default") -> is_ok (GetGraphConfig c remote) = true).
Proof.
  intros Hr Hd. unfold ParseBytes, validate. rewrite Hd. cbn [mbind res_bind].
  set (default := {[bs "default" := {| gc_Format := GraphFormatTGB; gc_ShadowCompare := false |}]} : gmap bytes GraphConfig).
  set (graphs := if decide (cf_Graph raw = ∅) then default else cf_Graph raw).
  destruct (validate_storage_spec (cf_Storage raw)) as [S1 S2]. destruct (validate_service_spec (cf_Service raw)) as [V1 V2].
  destruct (check_repositories_spec 0 (cf_Repository raw) ∅) as [R1 R2].
  assert (Forall (fun x => gc_Format x.2 = GraphFormatTGB) (range graphs) <-> map_Forall (fun _ gc => gc_Format gc = GraphFormatTGB) graphs) as Hg.
  { rewrite map_Forall_to_list. rewrite (Hr graphs). apply Forall_iff. by intros [? ?]. }
  assert (map_Forall (fun _ gc => gc_Format gc = GraphFormatTGB) graphs <-> map_Forall (fun _ gc => gc_Format gc = GraphFormatTGB) (cf_Graph raw)) as Hg'.
  { unfold graphs. case_decide as E; [|done]. rewrite E. split; [intros _; apply map_Forall_empty|]. intros _. by apply map_Forall_singleton. }
  assert (Forall (fun r => (∅ : gmap bytes nat) !! rc_Remote r = None) (cf_Repository raw)) as He by (by apply Forall_true).
  destruct (validate_storage (cf_Storage raw)) as [st|e|] eqn:Est; cbn [mbind res_bind is_ok] in *.
  2,3: split; [split; [done|]|done]; intros H; apply S1, (ac_storage _ H).
  destruct (validate_service (cf_Service raw)) as [sv|e|] eqn:Esv; cbn [mbind res_bind is_ok] in *.
  2,3: split; [split; [done|]|done]; intros H; apply V1; split; apply H.
  pose proof (check_formats_spec (range graphs)) as F. rewrite Hg in F.
  destruct (check_formats (range graphs)) as [u|e|]; cbn [mbind res_bind is_ok] in *.
  2,3: split; [split; [done|]|done]; intros H; apply F, Hg', (ac_formats _ H).
  destruct (check_repositories 0 (cf_Repository raw) ∅) as [[rs by']|e|] eqn:Er; cbn [mbind res_bind is_ok] in *.
  2,3: split; [split; [done|]|done]; intros H; apply R1; split_and!; [apply H..|done].
  destruct (proj1 R1 eq_refl) as (Hf & Hnd & _). destruct (R2 _ eq_refl) as [E _]. cbn [fst snd] in *.
  pose proof (proj1 F eq_refl) as Hfmt. split.
  - split; [|done]. intros _. split; [by apply S1| | |by apply Hg'|exact Hf|exact Hnd]; by apply V1.
  - intros c [= <-]. cbn. destruct (V2 sv eq_refl) as (V3 & V4 & V5). split; [|split; [done|]].
    + split; cbn; [by apply S2|done|done|done| |done| | |].
      * unfold graphs. case_decide; [|done]. unfold default. apply map_non_empty_singleton.
      * rewrite E. apply Forall_fmap. eapply Forall_impl; [exact Hf|]. intros r [? ?]. by apply default_repository_ok.
      * rewrite E, <- list_fmap_compose. exact Hnd.
      * intros remote r. by apply (check_repositories_lookup _ _ _ remote r Er).
    + intros remote Hdef. unfold GetGraphConfig. cbn [cf_Graph]. destruct (graphs !! toShortRemote remote); [done|].
      assert (is_Some (graphs !! bs "default")) as [gc ->]; [|done]. unfold graphs. case_decide as E0.
      * unfold default. rewrite lookup_singleton_eq. by eexists.
      * by destruct Hdef.
Qed.

(** * An example *)

Definition written_config : Config :=
  {| cf_Repository := [{| rc_Remote := bs "git@github:uber/tango"; rc_RepositoryID := bs "tango"; rc_FullHashRepos := []; rc_ExcludedFiles := [];
       rc_BzlmodEnabled := None; rc_BazelCommandPath := []; rc_BazelExtraArgs := []; rc_BazelStartupOptions := []; rc_StreamBazelLogs := false;
       rc_QueryTimeoutSeconds := 0; rc_SeedAttributes := []; rc_AllTargetsFiles := [] |}];
     cf_Storage := {| sc_Type := []; sc_Disk := None |};
     cf_Service := {| sv_MaxWorkerPoolSize := 4; sv_WorkspacesRootPath := bs "/var/tango"; sv_MaxMessageBytes := 0 |};
     cf_Graph := ∅; cf_repositoryByRemote := ∅ |}.

Lemma parsed_config_well_formed_witness : exists c, ParseBytes (fun _ => Ok written_config) map_to_list [] = Ok c /\ config_ok c /\
  (exists r, GetRepositoryConfig c (bs "git@github:uber/tango") = Some r /\ rc_QueryTimeoutSeconds r = 600).
Proof.
  destruct (parsed_config_well_formed (fun _ => Ok written_config) map_to_list [] written_config (fun m => reflexivity _) eq_refl) as [_ H].
  eexists. assert (forall (A : Type) (x y : A) (P : Prop), x = y -> P -> x = y /\ P) as Hsplit by (by intros).
  apply Hsplit; [vm_compute; reflexivity|]. split; [apply H; vm_compute; reflexivity|].
  eexists. split; [vm_compute; reflexivity|reflexivity].
Defined.
