(* ===== verification/ResponseCache.v ===== *)
(** The cache of comparison results ([comparedTargetsFromCache], [cacheComparedTargets] and
    [GetChangedTargets] of [controller/getchangedtargets.go], with [writeStream] and [reader]
    of [core/storage]), on any blob storage. *)
From Stdlib Require Import ZArith Lia.
From stdpp Require Import gmap fin_maps list relations.
From S2P Require Import Prelude Bfs Entity DiffGraph Responses Race CompareGraphs Fetch Text Storage CacheKeys Config.

Local Open Scope Z_scope.

Record GetChangedTargetsRequest := {
  rq_First : BuildDescription;
  rq_Second : BuildDescription;
  rq_ExcludeFilesRegex : list bytes;
  rq_BypassCache : bool;
}.

Section response_cache.
Context {S : Type} {storage : Storage S}.
Context (md5 : bytes -> bytes).
(** [gob] writes the values of a stream one by one, knowing those before, and reads values
    until the end of the blob or an error. *)
Context (gob_write : list Response -> Response -> res bytes) (gob_read : bytes -> list Response * option string).

(** * Reading and writing streams *)

(** What the goroutine of [writeStream] writes into the pipe. *)
Fixpoint stream_reads (ctx : Z -> bool) (polls : Z) (written values : list Response) : reader :=
  match values with
  | [] => []
  | v :: values =>
      if ctx polls then [Err cancelled_err]
      else match gob_write written v with
           | Ok b => Ok b :: stream_reads ctx (polls + 1) (written ++ [v]) values
           | Err e => [Err ("encode value: %w" +:+ e)]
           | Panic => [Panic]
           end
  end.

(** The writer and the storage poll the context in parallel. *)
Definition WriteChangedTargetsStream (writer_ctx ctx : Z -> bool) (key : bytes) (values : list Response) (s : S) : res () * S :=
  st_put ctx key (Some (stream_reads writer_ctx 0 [] values)) s.

(** The loop that buffers what the reader returns. *)
Fixpoint drain_cached (ctx : Z -> bool) (polls : Z) (values : list Response) (readErr : option string) (cached : list Response) :
    res (list Response) :=
  if ctx polls then Err cancelled_err
  else match values with
       | resp :: values => drain_cached ctx (polls + 1) values readErr (cached ++ [resp])
       | [] => Ok (match readErr with None => cached | Some _ => [] end)
       end.

(** * The lookup of the tree hashes *)

Definition treehash_answer (cancelled : bool) (key : bytes) (s : S) : get_result :=
  match st_get cancelled key s with
  | Ok None => NotFound
  | Ok (Some data) => GotBody data None
  | Err e => GetErr e
  | Panic => GetErr "panic"
  end.

Definition answers (request : GetChangedTargetsRequest) (repositoryID : bytes) (s : S) (i : bool) : get_result :=
  treehash_answer false (GetTreehashCachePath md5 repositoryID (if i then rq_Second request else rq_First request)) s.

(** * The cache of the controller *)

(** A miss and a blob that does not decode are both no responses. *)
Definition comparedTargetsFromCache (get_cancelled : bool) (ctx : Z -> bool) (hashes : bytes * bytes * option string)
    (request : GetChangedTargetsRequest) (repositoryID : bytes) (s : S) : res (list Response) :=
  match hashes with
  | (_, _, Some e) => Err ("read revision treehash: %w" +:+ e)
  | (treehash1, treehash2, None) =>
      if decide (treehash1 = [] \/ treehash2 = []) then Ok []
      else
        match st_get get_cancelled (GetComparedTargetsCachePath md5 repositoryID treehash1 treehash2 (rq_ExcludeFilesRegex request)) s with
        | Err _ | Ok None => Ok []
        | Ok (Some blob) => let '(values, readErr) := gob_read blob in drain_cached ctx 0 values readErr []
        | Panic => Panic
        end
  end.

(** The goroutine's effect on the storage. *)
Definition cacheComparedTargets (writer_ctx ctx : Z -> bool) (hashes : bytes * bytes * option string)
    (request : GetChangedTargetsRequest) (repositoryID : bytes) (responses : list Response) (s : S) : S :=
  match hashes with
  | (_, _, Some _) => s
  | (treehash1, treehash2, None) =>
      if decide (treehash1 <> [] /\ treehash2 <> []) then
        (WriteChangedTargetsStream writer_ctx ctx
           (GetComparedTargetsCachePath md5 repositoryID treehash1 treehash2 (rq_ExcludeFilesRegex request)) responses s).2
      else s
  end.

(** [compareFetchedGraphs], with its fuel. *)
Context (compare : fetchedGraph -> fetchedGraph -> option (gset bytes) -> res (list Response)).

(** Fetching both graphs and comparing them; [cause] is why the context is done, if it is. *)
Definition recompute (fetched : fetch_result) (cause : option string) (seedAttrs : option (gset bytes)) : res (list Response) :=
  match fetched with
  | CallerDone => Err "fetch target graphs: %w"
  | Failed errs => Err ("fetch target graphs: %w" +:+ foldr (fun e s => e.2 +:+ s) "" errs)
  | Fetched firstGraph secondGraph =>
      match compare firstGraph secondGraph seedAttrs with
      | Ok responses => Ok responses
      | Err e => Err ("compare target graphs: %w" +:+ default e cause)
      | Panic => Panic
      end
  end.

(** The handler without its writes: [Some] of responses is cached afterwards. *)
Definition GetChangedTargets (get_cancelled : bool) (ctx : Z -> bool) (hashes : bytes * bytes * option string)
    (fetched : fetch_result) (cause : option string) (entityReq : GetChangedTargetsRequest) (repoCfg : RepositoryConfig) (s : S) :
    res (list Response) * option (list Response) :=
  let cached := if rq_BypassCache entityReq then Ok []
                else comparedTargetsFromCache get_cancelled ctx hashes entityReq (rc_RepositoryID repoCfg) s in
  match cached with
  | Err e => (Err ("serve from cache: %w" +:+ e), None)
  | Panic => (Panic, None)
  | Ok ((_ :: _) as cached) => (Ok cached, None)
  | Ok [] =>
      match recompute fetched cause (seedAttributesFor (rc_SeedAttributes repoCfg)) with
      | Ok responses => (Ok responses, Some responses)
      | r => (r, None)
      end
  end.

(** ** Lemmas *)

Lemma stream_reads_ok ctx polls written values : Forall (fun x => is_ok x = true) (stream_reads ctx polls written values) ->
  stream_reads ctx polls written values = stream_reads (fun _ => false) 0 written values.
Proof.
  enough (forall polls', Forall (fun x => is_ok x = true) (stream_reads ctx polls written values) ->
    stream_reads ctx polls written values = stream_reads (fun _ => false) polls' written values) as H by apply H.
  revert polls written. induction values as [|v values IH]; intros polls written polls'; cbn [stream_reads]; [done|].
  destruct (ctx polls); [by intros [? _]%Forall_cons|]. destruct (gob_write written v) as [b|e|]; [|done..].
  intros [_ H]%Forall_cons. f_equal. by apply IH.
Qed.

(** What is cached was fetched and compared. *)
Lemma recompute_answer fetched cause seedAttrs :
  match (match recompute fetched cause seedAttrs with Ok responses => (Ok responses, Some responses) | r => (r, None) end) with
  | (r, Some responses) => r = Ok responses /\ exists first second, fetched = Fetched first second /\ compare first second seedAttrs = Ok responses
  | (r, None) => r = recompute fetched cause seedAttrs /\ is_ok r = false
  end.
Proof.
  destruct fetched as [a b|errs|]; cbn; [|done..]. destruct (compare a b seedAttrs) as [l|e|] eqn:E; [|done..]. split; [done|]. by exists a, b.
Qed.

Lemma drain_cached_eq ctx polls values readErr cached l : drain_cached ctx polls values readErr cached = Ok l -> l <> [] ->
  readErr = None /\ l = cached ++ values.
Proof.
  revert polls cached. induction values as [|v values IH]; intros polls cached; cbn [drain_cached]; destruct (ctx polls); try done.
  - destruct readErr; intros [= <-]; [done|]. by rewrite app_nil_r.
  - intros H Hl. destruct (IH _ _ H Hl) as [-> ->]. by rewrite <- app_assoc.
Qed.

Lemma drain_cached_total ctx polls values cached : (forall i, ctx i = false) -> drain_cached ctx polls values None cached = Ok (cached ++ values).
Proof.
  intros Hc. revert polls cached. induction values as [|v values IH]; intros polls cached; cbn [drain_cached]; rewrite Hc; [by rewrite app_nil_r|].
  rewrite IH. by rewrite <- app_assoc.
Qed.

Context {laws : StorageLaws S} (md5_length : forall written, length (md5 written) = 16%nat).
(** A stream is read back as it was written. *)
Context (gob_ok : forall values, Forall (fun x => is_ok x = true) (stream_reads (fun _ => false) 0 [] values) ->
  gob_read (read_bytes (stream_reads (fun _ => false) 0 [] values)) = (values, None)).

(** ** Histories *)

(** A result that was computed and handed to [cacheComparedTargets]. *)
Record computation := {
  cp_repositoryID : bytes;
  cp_treehashes : bytes * bytes;
  cp_request : GetChangedTargetsRequest;
  cp_responses : list Response;
}.

Definition comparison_key (p : bytes) : Prop := exists r t1 t2 x, sane (ForComparison r t1 t2 x) /\ p = GetComparedTargetsCachePath md5 r t1 t2 x.

Inductive cache_history : S -> list computation -> Prop :=
  | history_init s : st_ok s -> (forall p, comparison_key p -> st_contents s !! p = None) -> cache_history s []
  | history_write s log writer_ctx ctx request r t1 t2 responses : cache_history s log ->
      sane (ForComparison r t1 t2 (rq_ExcludeFilesRegex request)) ->
      cache_history (cacheComparedTargets writer_ctx ctx (t1, t2, None) request r responses s)
        ({| cp_repositoryID := r; cp_treehashes := (t1, t2); cp_request := request; cp_responses := responses |} :: log)
  | history_other s log ctx p r : cache_history s log -> ~ comparison_key p -> cache_history (st_put ctx p r s).2 log.

(** A blob at a key of a comparison holds the responses of a computation with that key. *)
Definition cache_invariant (s : S) (log : list computation) : Prop :=
  st_ok s /\ forall r t1 t2 x b, sane (ForComparison r t1 t2 x) -> st_contents s !! GetComparedTargetsCachePath md5 r t1 t2 x = Some b ->
    exists c, c ∈ log /\ cp_repositoryID c = r /\ cp_treehashes c = (t1, t2) /\
      (rq_ExcludeFilesRegex (cp_request c) ≡ₚ x \/ collision md5 (sort_func bcompare (rq_ExcludeFilesRegex (cp_request c))) (sort_func bcompare x)) /\
      gob_read b = (cp_responses c, None).

Lemma cache_invariant_mono s s' log log' : cache_invariant s log -> st_ok s' -> st_contents s' = st_contents s ->
  (forall c, c ∈ log -> c ∈ log') -> cache_invariant s' log'.
Proof.
  intros [_ H] Hs E Hl. split; [done|]. intros r t1 t2 x b Hx. rewrite E. intros Hb. destruct (H r t1 t2 x b Hx Hb) as (c & Hc & Hrest).
  exists c. split; [by apply Hl|done].
Qed.

Lemma history_invariant s log : cache_history s log -> cache_invariant s log.
Proof.
  induction 1 as [s Hs Hno|s log writer_ctx ctx request r t1 t2 responses _ IH Hk|s log ctx p r _ IH Hp].
  - split; [done|]. intros r t1 t2 x b Hx. rewrite Hno; [done|]. by exists r, t1, t2, x.
  - set (c := {| cp_repositoryID := r; cp_treehashes := (t1, t2); cp_request := request; cp_responses := responses |}).
    unfold cacheComparedTargets. case_decide as Ht.
    2:{ apply (cache_invariant_mono s s log); [done|apply IH|done|]. intros c' Hc'. by right. }
    unfold WriteChangedTargetsStream. set (key := GetComparedTargetsCachePath _ _ _ _ _).
    pose proof (st_put_ok ctx key (Some (stream_reads writer_ctx 0 [] responses)) s (proj1 IH)) as Hok.
    pose proof (st_put_spec ctx key (Some (stream_reads writer_ctx 0 [] responses)) s (proj1 IH)) as Hc.
    destruct (st_put _ _ _ _) as [[u|e|] s']; cbn [fst snd] in *.
    2,3: apply (cache_invariant_mono s s' log); [done..|]; intros c' Hc'; by right.
    destruct Hc as (reads & [= <-] & Hall & Hc). split; [done|]. intros r' t1' t2' x b Hx. rewrite Hc.
    destruct (decide (GetComparedTargetsCachePath md5 r' t1' t2' x = key)) as [E|E].
    + rewrite E, lookup_insert_eq. intros [= <-]. exists c. split; [by left|].
      pose proof (key_inputs_determined md5 md5_length (ForComparison r t1 t2 (rq_ExcludeFilesRegex request)) (ForComparison r' t1' t2' x) Hk Hx (eq_sym E)) as (-> & -> & -> & Hrest).
      split_and!; [done|done|exact Hrest|]. pose proof (stream_reads_ok _ _ _ _ Hall) as Er. rewrite Er in Hall |- *. by apply gob_ok.
    + rewrite lookup_insert_ne by done. intros Hb. destruct (proj2 IH r' t1' t2' x b Hx Hb) as (c' & Hc' & Hrest).
      exists c'. split; [by right|done].
  - pose proof (st_put_ok ctx p r s (proj1 IH)) as Hok. pose proof (st_put_spec ctx p r s (proj1 IH)) as Hc.
    destruct (st_put ctx p r s) as [[u|e|] s']; cbn [fst snd] in *; [|by apply (cache_invariant_mono s s' log)..].
    destruct Hc as (reads & -> & _ & Hc). split; [done|]. intros r' t1 t2 x b Hx. rewrite Hc, lookup_insert_ne; [by apply IH|].
    intros ->. apply Hp. by exists r', t1, t2, x.
Qed.
End response_cache.

(** * Properties *)

(** C19: The cache of comparison results is sound and never in the way.  Through any history of
    cached results and of other uses of the storage, a request (with the tree hashes that
    were read for it) returns what fetching and comparing returns, whatever the cache
    holds, or the responses of an earlier computation for the same repository, tree hashes
    and exclusions (up to a collision of MD5), or the cancellation of its context. *)
Theorem served_was_computed {S : Type} {storage : Storage S} {laws : StorageLaws S} (md5 : bytes -> bytes)
    (gob_write : list Response -> Response -> res bytes) (gob_read : bytes -> list Response * option string)
    (s : S) (log : list computation) (get_cancelled : bool) (ctx : Z -> bool) (request : GetChangedTargetsRequest)
    (repoCfg : RepositoryConfig) (treehash1 treehash2 : bytes)
    (compare : fetchedGraph -> fetchedGraph -> option (gset bytes) -> res (list Response)) (fetched : fetch_result) (cause : option string) :
  (forall written, length (md5 written) = 16%nat) ->
  (forall values, Forall (fun x => is_ok x = true) (stream_reads gob_write (fun _ => false) 0 [] values) ->
    gob_read (read_bytes (stream_reads gob_write (fun _ => false) 0 [] values)) = (values, None)) ->
  cache_history md5 gob_write s log -> sane (ForComparison (rc_RepositoryID repoCfg) treehash1 treehash2 (rq_ExcludeFilesRegex request)) ->
  match GetChangedTargets md5 gob_read compare get_cancelled ctx (treehash1, treehash2, None) fetched cause request repoCfg s with
  | (r, Some responses) => r = Ok responses /\ exists first second, fetched = Fetched first second /\
      compare first second (seedAttributesFor (rc_SeedAttributes repoCfg)) = Ok responses
  | (r, None) => (r = recompute compare fetched cause (seedAttributesFor (rc_SeedAttributes repoCfg)) /\ is_ok r = false) \/
      (exists e i, r = Err e /\ ctx i = true) \/
      (rq_BypassCache request = false /\ exists c, c ∈ log /\ r = Ok (cp_responses c) /\ cp_repositoryID c = rc_RepositoryID repoCfg /\
        cp_treehashes c = (treehash1, treehash2) /\
        (rq_ExcludeFilesRegex (cp_request c) ≡ₚ rq_ExcludeFilesRegex request \/
         collision md5 (sort_func bcompare (rq_ExcludeFilesRegex (cp_request c))) (sort_func bcompare (rq_ExcludeFilesRegex request))))
  end.
Proof.
  intros Hmd5 Hgob Hh Hk. destruct (history_invariant md5 gob_write gob_read Hmd5 Hgob s log Hh) as [Hok Hinv].
  unfold GetChangedTargets. pose proof (recompute_answer compare fetched cause (seedAttributesFor (rc_SeedAttributes repoCfg))) as Hcomp.
  set (computed := recompute _ _ _ _) in *. destruct (rq_BypassCache request) eqn:Eb.
  { destruct (match computed with Ok _ => _ | _ => _ end) as [r [w|]]; [done|by left]. }
  assert (forall ctx polls values e cached r, drain_cached ctx polls values e cached = r -> is_ok r = true \/ exists i, ctx i = true /\ r = Err cancelled_err) as Hd.
  { clear. intros ctx polls values e. revert polls. induction values as [|v values IH]; intros polls cached r; cbn [drain_cached]; destruct (ctx polls) eqn:E.
    1,3: intros <-; right; by exists polls.
    - intros <-. by left.
    - apply IH. }
  unfold comparedTargetsFromCache. case_decide as Hne.
  { destruct (match computed with Ok _ => _ | _ => _ end) as [r [w|]]; [done|by left]. }
  set (key := GetComparedTargetsCachePath _ _ _ _ _) in *.
  destruct (st_get_spec get_cancelled key s Hok) as [->|(_ & e & ->)].
  2:{ destruct (match computed with Ok _ => _ | _ => _ end) as [r [w|]]; [done|by left]. }
  destruct (st_contents s !! key) as [blob|] eqn:El.
  2:{ destruct (match computed with Ok _ => _ | _ => _ end) as [r [w|]]; [done|by left]. }
  destruct (Hinv _ _ _ _ _ Hk El) as (c & Hc & Hr & Ht & Hx & Hb). rewrite Hb.
  destruct (drain_cached ctx 0 (cp_responses c) None []) as [l|e|] eqn:Ed.
  - destruct l as [|v l].
    { destruct (match computed with Ok _ => _ | _ => _ end) as [r [w|]]; [done|by left]. }
    right. right. split; [done|]. exists c. split; [done|]. split; [|by split_and!].
    by destruct (drain_cached_eq _ _ _ _ _ _ Ed ltac:(done)) as [_ ->].
  - right. left. destruct (Hd _ _ _ _ _ _ Ed) as [?|(i & Hi & _)]; [done|]. by exists ("serve from cache: %w" +:+ e), i.
  - destruct (Hd _ _ _ _ _ _ Ed) as [?|(i & _ & ?)]; done.
Qed.

Definition with_strategy (strategy : Z) (b : BuildDescription) : BuildDescription :=
  {| bd_Remote := bd_Remote b; bd_BaseSha := bd_BaseSha b; bd_ChangeRequests := bd_ChangeRequests b; bd_Strategy := strategy |}.
Definition request_with_strategy (strategy : Z) (r : GetChangedTargetsRequest) : GetChangedTargetsRequest :=
  {| rq_First := with_strategy strategy (rq_First r); rq_Second := with_strategy strategy (rq_Second r);
     rq_ExcludeFilesRegex := rq_ExcludeFilesRegex r; rq_BypassCache := rq_BypassCache r |}.

(** C20: A cached comparison is served to requests of another strategy.  Graphs are cached by
    computation strategy, because strategies may give different graphs; the key of a
    comparison leaves it out.  Once the responses of a request are cached, the same
    request with any other strategy reads the same tree hashes and is answered with them,
    and its own comparison is not looked at. *)
Theorem comparison_ignores_strategy {S : Type} {storage : Storage S} {laws : StorageLaws S} (md5 : bytes -> bytes)
    (gob_write : list Response -> Response -> res bytes) (gob_read : bytes -> list Response * option string)
    (s s' : S) (writer_ctx ctx rctx : Z -> bool) (request : GetChangedTargetsRequest) (strategy : Z)
    (repoCfg : RepositoryConfig) (treehash1 treehash2 : bytes) (responses : list Response)
    (compare : fetchedGraph -> fetchedGraph -> option (gset bytes) -> res (list Response)) (fetched : fetch_result) (cause : option string) :
  (forall written, length (md5 written) = 16%nat) ->
  (forall values, Forall (fun x => is_ok x = true) (stream_reads gob_write (fun _ => false) 0 [] values) ->
    gob_read (read_bytes (stream_reads gob_write (fun _ => false) 0 [] values)) = (values, None)) ->
  st_ok s -> sane (ForComparison (rc_RepositoryID repoCfg) treehash1 treehash2 (rq_ExcludeFilesRegex request)) ->
  WriteChangedTargetsStream gob_write writer_ctx ctx
    (GetComparedTargetsCachePath md5 (rc_RepositoryID repoCfg) treehash1 treehash2 (rq_ExcludeFilesRegex request)) responses s = (Ok (), s') ->
  responses <> [] -> (forall i, rctx i = false) -> rq_BypassCache request = false ->
  (forall t i, answers md5 (request_with_strategy strategy request) (rc_RepositoryID repoCfg) t i = answers md5 request (rc_RepositoryID repoCfg) t i) /\
  cacheComparedTargets md5 gob_write writer_ctx ctx (treehash1, treehash2, None) request (rc_RepositoryID repoCfg) responses s = s' /\
  GetChangedTargets md5 gob_read compare false rctx (treehash1, treehash2, None) fetched cause (request_with_strategy strategy request) repoCfg s'
    = (Ok responses, None) /\
  (strategy_String strategy <> strategy_String (bd_Strategy (rq_First request)) ->
    GetTGBGraphByTreeHash md5 (rc_RepositoryID repoCfg) treehash1 strategy (rq_ExcludeFilesRegex request) <>
    GetTGBGraphByTreeHash md5 (rc_RepositoryID repoCfg) treehash1 (bd_Strategy (rq_First request)) (rq_ExcludeFilesRegex request)).
Proof.
  intros Hmd5 Hgob Hok Hk HW Hne Hctx Hby. destruct Hk as (Hr & Ht1 & Ht2).
  assert (treehash1 <> [] /\ treehash2 <> []) as Hn by (split; [apply Ht1|apply Ht2]). split; [|split; [|split]].
  - by intros t [].
  - unfold cacheComparedTargets. by rewrite decide_True, HW.
  - unfold WriteChangedTargetsStream in HW. set (key := GetComparedTargetsCachePath _ _ _ _ _) in *.
    pose proof (st_put_ok ctx key (Some (stream_reads gob_write writer_ctx 0 [] responses)) s Hok) as Hok'.
    pose proof (st_put_spec ctx key (Some (stream_reads gob_write writer_ctx 0 [] responses)) s Hok) as Hc.
    rewrite HW in Hok', Hc. cbn [fst snd] in *. destruct Hc as (reads & [= <-] & Hall & Hc).
    pose proof (stream_reads_ok gob_write _ _ _ _ Hall) as Er. rewrite Er in Hall, Hc.
    unfold GetChangedTargets, request_with_strategy. cbn [rq_BypassCache rq_ExcludeFilesRegex]. rewrite Hby.
    unfold comparedTargetsFromCache. rewrite decide_False by tauto. cbn [rq_ExcludeFilesRegex]. fold key.
    rewrite (st_get_false key s' Hok'), Hc, lookup_insert_eq, (Hgob responses Hall), drain_cached_total by done. by destruct responses.
  - intros Hs E. apply (key_inputs_determined md5 Hmd5 (ForGraph (rc_RepositoryID repoCfg) treehash1 strategy (rq_ExcludeFilesRegex request))
      (ForGraph (rc_RepositoryID repoCfg) treehash1 (bd_Strategy (rq_First request)) (rq_ExcludeFilesRegex request))) in E; [|by split..].
    by destruct E as (_ & _ & ? & _).
Qed.

(** * An example *)

(** A codec of empty responses only. *)
Definition no_change : Response := {| rs_ChangedTargets := []; rs_Metadata := None |}.
Definition one_write (written : list Response) (v : Response) : res bytes :=
  match v with {| rs_ChangedTargets := []; rs_Metadata := None |} => Ok [x01] | _ => Err "not empty" end.
Definition one_read (b : bytes) : list Response * option string := ((fun _ => no_change) <$> b, None).

Lemma one_codec values : Forall (fun x => is_ok x = true) (stream_reads one_write (fun _ => false) 0 [] values) ->
  one_read (read_bytes (stream_reads one_write (fun _ => false) 0 [] values)) = (values, None).
Proof.
  generalize 0 as polls. generalize (@nil Response) as written. induction values as [|[cs m] values IH]; intros written polls; [done|].
  cbn [stream_reads]. destruct cs as [|c cs], m as [m|]; cbn [one_write]; try by intros [? _]%Forall_cons.
  intros [_ H]%Forall_cons. specialize (IH _ _ H). unfold one_read, read_bytes in *. cbn. injection IH as IH. by rewrite IH.
Qed.

Definition sample_request : GetChangedTargetsRequest :=
  let b sha := {| bd_Remote := bs "git@github:uber/tango"; bd_BaseSha := sha; bd_ChangeRequests := []; bd_Strategy := ComputationStrategyShell |} in
  {| rq_First := b (bs "aa"); rq_Second := b (bs "bb"); rq_ExcludeFilesRegex := []; rq_BypassCache := false |}.

Definition sample_repository : RepositoryConfig :=
  {| rc_Remote := bs "git@github:uber/tango"; rc_RepositoryID := bs "tango"; rc_FullHashRepos := []; rc_ExcludedFiles := [];
     rc_BzlmodEnabled := Some true; rc_BazelCommandPath := []; rc_BazelExtraArgs := []; rc_BazelStartupOptions := []; rc_StreamBazelLogs := false;
     rc_QueryTimeoutSeconds := 600; rc_SeedAttributes := []; rc_AllTargetsFiles := [] |}.

Definition in_memory : Storage (gmap bytes bytes) := memory_storage (fun m => (map_to_list m).*1).

Definition cached_sample : gmap bytes bytes :=
  @cacheComparedTargets _ in_memory short_md5 one_write (fun _ => false) (fun _ => false) (bs "12", bs "34", None) sample_request (bs "tango") [no_change] ∅.

Lemma short_md5_length w : length (short_md5 w) = 16%nat.
Proof. unfold short_md5. rewrite length_take, length_app, length_replicate. lia. Qed.

Lemma served_was_computed_witness : exists c,
  (@GetChangedTargets _ in_memory short_md5 one_read (fun _ _ _ => Panic) false (fun _ => false) (bs "12", bs "34", None) CallerDone None sample_request sample_repository cached_sample).1
    = Ok (cp_responses c) /\ cp_request c = sample_request.
Proof.
  assert (sane (ForComparison (bs "tango") (bs "12") (bs "34") [])) as Hs by (split; [decided|split; decided]).
  pose proof (@served_was_computed _ in_memory (memory_laws _ (fun m => reflexivity _)) short_md5 one_write one_read cached_sample
    [{| cp_repositoryID := bs "tango"; cp_treehashes := (bs "12", bs "34"); cp_request := sample_request; cp_responses := [no_change] |}]
    false (fun _ => false) sample_request sample_repository (bs "12") (bs "34") (fun _ _ _ => Panic) CallerDone None short_md5_length one_codec) as H.
  specialize (H (@history_write _ in_memory short_md5 one_write ∅ [] (fun _ => false) (fun _ => false) sample_request (bs "tango") (bs "12") (bs "34") [no_change]
    (@history_init _ in_memory short_md5 one_write ∅ Logic.I (fun p _ => lookup_empty p)) Hs) Hs).
  assert (@GetChangedTargets _ in_memory short_md5 one_read (fun _ _ _ => Panic) false (fun _ => false) (bs "12", bs "34", None) CallerDone None sample_request sample_repository cached_sample
    = (Ok [no_change], None)) as E by (vm_compute; reflexivity).
  rewrite E in H |- *. destruct H as [[? _]|[(e & i & ? & _)|(_ & c & Hc & Hr & _)]]; [discriminate|discriminate|].
  exists c. split; [exact Hr|]. apply list_elem_of_singleton in Hc. by rewrite Hc.
Defined.

Lemma comparison_ignores_strategy_witness :
  (@GetChangedTargets _ in_memory short_md5 one_read (fun _ _ _ => Panic) false (fun _ => false) (bs "12", bs "34", None) CallerDone None
    (request_with_strategy ComputationStrategyNative sample_request) sample_repository cached_sample) = (Ok [no_change], None) /\
  GetTGBGraphByTreeHash short_md5 (bs "tango") (bs "12") ComputationStrategyNative [] <>
  GetTGBGraphByTreeHash short_md5 (bs "tango") (bs "12") ComputationStrategyShell [].
Proof.
  set (w := @WriteChangedTargetsStream _ in_memory one_write (fun _ => false) (fun _ => false)
    (GetComparedTargetsCachePath short_md5 (bs "tango") (bs "12") (bs "34") []) [no_change] ∅).
  assert (w.1 = Ok ()) as Ew by (vm_compute; reflexivity).
  destruct (@comparison_ignores_strategy _ in_memory (memory_laws _ (fun m => reflexivity _)) short_md5 one_write one_read ∅ w.2
    (fun _ => false) (fun _ => false) (fun _ => false) sample_request ComputationStrategyNative sample_repository (bs "12") (bs "34") [no_change] (fun _ _ _ => Panic) CallerDone None
    short_md5_length one_codec Logic.I) as (_ & Hw & H & Hk).
  - split; [decided|split; decided].
  - transitivity (w.1, w.2); [exact (surjective_pairing w)|]. rewrite Ew. reflexivity.
  - intros E. discriminate E.
  - reflexivity.
  - reflexivity.
  - split; [|apply Hk; intros E; discriminate E]. unfold cached_sample. change (bs "tango") with (rc_RepositoryID sample_repository). rewrite Hw. exact H.
Defined.
