(* ===== verification/GraphStore.v ===== *)
(** Graphs in a blob storage ([WriteTGBGraph], [NewTGBGraphReader] of
    [core/storage/tgbgraph.go]), the errors of the service ([core/errors/errors.go],
    [orchestrator/errors.go]), and the orchestrator that computes a graph or finds it in
    the cache ([GetTargetGraph], [readCachedGraph] of [orchestrator/native_orchestrator.go]). *)
From Stdlib Require Import ZArith Lia.
From stdpp Require Import gmap fin_maps list.
From S2P Require Import Prelude Bfs Entity Encode Reader Container RoundTrip Chunks TargetHasher Mapper Text Storage CacheKeys.

Local Open Scope Z_scope.

(** * Blobs of graphs *)

(** What [NewTGBGraphReader] returns; [Corrupt] wraps [ErrCorruptTGB], [Missing] is the
    storage's not-found error. *)
Inductive open_result :=
  | Opened (r : Reader)
  | Missing
  | Corrupt (e : string)
  | OpenFailed (e : string)
  | OpenPanic.

Section blobs.
Context {S : Type} {storage : Storage S}.
(** How the encoder's output arrives at the other end of the pipe. *)
Context (env : encode_env) (pieces : bytes -> list bytes).

(** What the goroutine writes into the pipe. *)
Definition encoded_reads (chunks : list GraphChunk) : reader :=
  match EncodeChunks env chunks with
  | Ok blob => Ok <$> pieces blob
  | Err e => [Err e]
  | Panic => [Panic]
  end.

Definition WriteTGBGraph (ctx : Z -> bool) (key : bytes) (chunks : list GraphChunk) (s : S) : res () * S :=
  st_put ctx key (Some (encoded_reads chunks)) s.

Definition NewTGBGraphReader (cancelled : bool) (key : bytes) (s : S) : open_result :=
  match st_get cancelled key s with
  | Err e => OpenFailed e
  | Panic => OpenPanic
  | Ok None => Missing
  | Ok (Some data) =>
      match NewReader data with
      | Ok r => Opened r
      | Err e => Corrupt e
      | Panic => OpenPanic
      end
  end.

Definition readCachedGraph (cancelled : bool) (tgbPath : bytes) (s : S) : open_result :=
  match NewTGBGraphReader cancelled tgbPath s with
  | Corrupt _ => Missing
  | r => r
  end.

Context {laws : StorageLaws S} (pieces_ok : forall b, concat (pieces b) = b).

Lemma read_pieces b : read_bytes (Ok <$> pieces b) = b.
Proof.
  rewrite <- (pieces_ok b) at 2. unfold read_bytes. induction (pieces b) as [|x l IH]; [done|]. cbn. by rewrite IH.
Qed.

(** A write that succeeds stores the encoded graph. *)
Lemma WriteTGBGraph_spec ctx key chunks s : st_ok s ->
  st_ok (WriteTGBGraph ctx key chunks s).2 /\
  match (WriteTGBGraph ctx key chunks s).1 with
  | Ok _ => exists blob, EncodeChunks env chunks = Ok blob /\ st_contents (WriteTGBGraph ctx key chunks s).2 = <[key := blob]> (st_contents s)
  | _ => st_contents (WriteTGBGraph ctx key chunks s).2 = st_contents s
  end.
Proof.
  intros Hs. unfold WriteTGBGraph. split; [by apply st_put_ok|].
  pose proof (st_put_spec ctx key (Some (encoded_reads chunks)) s Hs) as H.
  destruct (st_put _ _ _ _) as [[u|e|] s']; cbn [fst snd] in *; [|done..]. destruct H as (reads & [= <-] & Hall & Hc).
  unfold encoded_reads in *. destruct (EncodeChunks env chunks) as [blob|e|]; [|by apply Forall_cons in Hall as [? _]..].
  exists blob. split; [done|]. by rewrite Hc, read_pieces.
Qed.
End blobs.

(** * Errors *)

Inductive ErrorCode := ErrorInfra | ErrorCancelled | ErrorUser | ErrorInfraRetryable.

(** The errors that [errors.Is] looks for. *)
Inductive sentinel := ContextCanceled | PoolTimeout | GitTimeout | GitFatal | BazelNetwork.

#[export] Instance ErrorCode_eq_dec : EqDecision ErrorCode. Proof. solve_decision. Defined.
#[export] Instance sentinel_eq_dec : EqDecision sentinel. Proof. solve_decision. Defined.

(** An error by what can be asked of its chain: the code of the outermost [TangoError], and
    the sentinel it wraps. *)
Record gerror := { ge_code : option ErrorCode; ge_is : option sentinel; ge_msg : string }.

Definition newError (code : ErrorCode) (e : gerror) : gerror := {| ge_code := Some code; ge_is := ge_is e; ge_msg := ge_msg e |}.
(** [fmt.Errorf] with [%w]. *)
Definition wrap (prefix : string) (e : gerror) : gerror := {| ge_code := ge_code e; ge_is := ge_is e; ge_msg := prefix +:+ ge_msg e |}.

Definition GetErrorCode (e : gerror) : ErrorCode :=
  if decide (ge_is e = Some ContextCanceled) then ErrorCancelled else default ErrorInfra (ge_code e).

Definition classifyLeaseError (e : gerror) : gerror :=
  let wrapped := wrap "lease workspace: " e in
  if decide (ge_is e = Some PoolTimeout) then newError ErrorInfraRetryable wrapped else newError ErrorInfra wrapped.

Definition classifyGitError (e : gerror) : gerror :=
  if decide (ge_is e = Some GitTimeout \/ ge_is e = Some GitFatal) then newError ErrorInfra e else e.

Definition classifyBazelClientError (e : gerror) : gerror :=
  let wrapped := wrap "create bazel client: " e in
  if decide (ge_is e = Some BazelNetwork) then newError ErrorInfraRetryable wrapped else newError ErrorInfra wrapped.

(** * The orchestrator *)

(** What the code around it does: the repository manager, git, requests, the graph runner.
    [None] is success. *)
Record Surroundings := {
  so_repositoryID : option bytes;  (** of the configuration for the remote *)
  so_lease : option gerror;
  so_checkout : option gerror;
  so_request : bytes -> option gerror;  (** [NewRequest] of a URL *)
  so_apply : option gerror;
  so_treehash : bytes + gerror;
  so_injected : bool;  (** a graph runner was injected *)
  so_bazel : option gerror;
  so_compute : Result + gerror;
}.

Inductive event := Leased | Released | Computed.

(** A reader or an error, the storage, and what happened. *)
Definition run (S : Type) : Type := (Reader + gerror) * S * list event.

Definition plain_error (msg : string) : gerror := {| ge_code := None; ge_is := None; ge_msg := msg |}.
(** An error of the storage, or of this module. *)
Definition from_msg (prefix e : string) : gerror :=
  {| ge_code := None; ge_is := if decide (e = cancelled_err) then Some ContextCanceled else None; ge_msg := prefix +:+ e |}.

Section orchestrator.
Context {S : Type} {storage : Storage S}.
Context (env : encode_env) (pieces : bytes -> list bytes) (md5 : bytes -> bytes).
Context (attribute_string : Z) (range : gmap bytes Z -> list (bytes * Z)) (id_range : gmap Z bytes -> list (Z * bytes)).
Context (maxMessageBytes : Z).
(** The contexts of the mapper, of the reads and of the writes; that of the application. *)
Context (map_ctx : Z -> bool) (cancelled : bool) (write_ctx app_ctx : Z -> bool).
(** The background write of the tree hash comes before the graph is written, or after. *)
Context (early : bool).

Fixpoint new_requests (so : Surroundings) (requests : list ChangeRequest) : option gerror :=
  match requests with
  | [] => None
  | r :: requests =>
      match so_request so (URL r) with
      | Some e => Some (newError ErrorUser (wrap "create request for %q: " e))
      | None => new_requests so requests
      end
  end.

Definition put_treehash (repositoryID treehash : bytes) (build : BuildDescription) (s : S) : S :=
  (st_put app_ctx (GetTreehashCachePath md5 repositoryID build) (Some [Ok treehash]) s).2.

(** The choice of the graph runner. *)
Definition new_runner (so : Surroundings) (strategy : Z) : option gerror :=
  if so_injected so then None
  else if decide (strategy = ComputationStrategyShell) then None
  else if decide (strategy = ComputationStrategyUnset \/ strategy = ComputationStrategyNative) then classifyBazelClientError <$> so_bazel so
  else Some (newError ErrorUser (plain_error "unknown computation strategy: %d")).

(** From the computation on. *)
Definition compute_graph (so : Surroundings) (repositoryID treehash tgbPath : bytes) (build : BuildDescription) (s : S) : run S :=
  let s := if early then put_treehash repositoryID treehash build s else s in
  let late s := if early then s else put_treehash repositoryID treehash build s in
  match new_runner so (bd_Strategy build) with
  | Some e => (inr e, late s, [])
  | None =>
      match so_compute so with
      | inr e => (inr (wrap "compute target graph: " e), late s, [Computed])
      | inl result =>
          match ResultToGraphChunks attribute_string range map_ctx id_range result maxMessageBytes with
          | Ok chunks =>
              match WriteTGBGraph env pieces write_ctx tgbPath chunks s with
              | (Ok _, s) =>
                  match NewTGBGraphReader cancelled tgbPath s with
                  | Opened r => (inl r, late s, [Computed])
                  | Missing => (inr (plain_error "create TGB graph reader at %s: not found"), late s, [Computed])
                  | Corrupt e | OpenFailed e => (inr (from_msg "create TGB graph reader at %s: " e), late s, [Computed])
                  | OpenPanic => (inr (plain_error "panic"), late s, [Computed])
                  end
              | (Err e, s) => (inr (from_msg "write TGB graph to storage at %s: " e), late s, [Computed])
              | (Panic, s) => (inr (plain_error "panic"), late s, [Computed])
              end
          | Err e => (inr (from_msg "convert target graph: " e), late s, [Computed])
          | Panic => (inr (plain_error "panic"), late s, [Computed])
          end
      end
  end.

(** With the workspace leased. *)
Definition in_workspace (so : Surroundings) (repositoryID : bytes) (build : BuildDescription) (excludes : list bytes)
    (bypassCache : bool) (s : S) : run S :=
  match so_checkout so with
  | Some e => (inr (classifyGitError (wrap "checkout repository %s at %s: " e)), s, [])
  | None =>
      match new_requests so (bd_ChangeRequests build) with
      | Some e => (inr e, s, [])
      | None =>
          match so_apply so, so_treehash so with
          | Some e, _ => (inr (classifyGitError (wrap "apply requests for repository %s at %s: " e)), s, [])
          | None, inr e => (inr (classifyGitError (wrap "compute treehash for repository %s at %s: " e)), s, [])
          | None, inl treehash =>
              let tgbPath := GetTGBGraphByTreeHash md5 repositoryID treehash (bd_Strategy build) excludes in
              let compute := compute_graph so repositoryID treehash tgbPath build s in
              if bypassCache then compute
              else match readCachedGraph cancelled tgbPath s with
                   | Opened r => (inl r, s, [])
                   | Missing | Corrupt _ => compute
                   | OpenFailed e => (inr (from_msg "read graph at treehash %s: " e), s, [])
                   | OpenPanic => (inr (plain_error "panic"), s, [])
                   end
          end
      end
  end.

Definition GetTargetGraph (so : Surroundings) (build : BuildDescription) (excludes : list bytes) (bypassCache : bool) (s : S) : run S :=
  match so_repositoryID so with
  | None => (inr (plain_error "repository remote %q is not configured"), s, [])
  | Some repositoryID =>
      match so_lease so with
      | Some e => (inr (classifyLeaseError e), s, [])
      | None =>
          let '(r, s, events) := in_workspace so repositoryID build excludes bypassCache s in
          (r, s, Leased :: events ++ [Released])
      end
  end.

(** ** Lemmas *)

Context {laws : StorageLaws S} (pieces_ok : forall b, concat (pieces b) = b).
Context (md5_length : forall written, length (md5 written) = 16%nat).

Lemma put_treehash_other repositoryID treehash build s key : st_ok s -> key <> GetTreehashCachePath md5 repositoryID build ->
  st_ok (put_treehash repositoryID treehash build s) /\ st_contents (put_treehash repositoryID treehash build s) !! key = st_contents s !! key.
Proof.
  intros Hs Hk. unfold put_treehash. split; [by apply st_put_ok|].
  pose proof (st_put_spec app_ctx (GetTreehashCachePath md5 repositoryID build) (Some [Ok treehash]) s Hs) as H.
  destruct (st_put _ _ _ _) as [[u|e|] s']; cbn [fst snd] in *; [|by rewrite H..]. destruct H as (reads & _ & _ & ->).
  by rewrite lookup_insert_ne.
Qed.

(** What a computation returns is stored under its key. *)
Lemma compute_graph_stored so repositoryID treehash tgbPath build s r s' events : st_ok s ->
  tgbPath <> GetTreehashCachePath md5 repositoryID build ->
  compute_graph so repositoryID treehash tgbPath build s = (inl r, s', events) ->
  st_ok s' /\ exists result chunks blob, so_compute so = inl result /\
    ResultToGraphChunks attribute_string range map_ctx id_range result maxMessageBytes = Ok chunks /\
    EncodeChunks env chunks = Ok blob /\ NewReader blob = Ok r /\ st_contents s' !! tgbPath = Some blob.
Proof.
  intros Hs Hne. unfold compute_graph. set (s1 := if early then put_treehash repositoryID treehash build s else s).
  assert (st_ok s1) as Hs1 by (unfold s1; destruct early; [by apply (put_treehash_other _ _ _ _ tgbPath)|done]).
  destruct (new_runner so (bd_Strategy build)) as [e|]; [done|]. destruct (so_compute so) as [result|e]; [|done].
  destruct (ResultToGraphChunks _ _ _ _ _ _) as [chunks| |] eqn:Ec; [|done..].
  destruct (WriteTGBGraph_spec env pieces pieces_ok write_ctx tgbPath chunks s1 Hs1) as [Hs2 Hw].
  destruct (WriteTGBGraph env pieces write_ctx tgbPath chunks s1) as [[u|e|] s2]; cbn [fst snd] in *; [|done..].
  destruct Hw as (blob & Eb & Hc). unfold NewTGBGraphReader.
  destruct (st_get_spec cancelled tgbPath s2 Hs2) as [->|(_ & e & ->)]; [|done]. rewrite Hc, lookup_insert_eq.
  destruct (NewReader blob) as [r'|e|] eqn:Er; [|done..]. intros [= <- <- _].
  assert (st_ok (if early then s2 else put_treehash repositoryID treehash build s2) /\
    st_contents (if early then s2 else put_treehash repositoryID treehash build s2) !! tgbPath = Some blob) as [? ?].
  { destruct early; [split; [done|]; by rewrite Hc, lookup_insert_eq|].
    destruct (put_treehash_other repositoryID treehash build s2 tgbPath Hs2 Hne) as [? ->]. split; [done|]. by rewrite Hc, lookup_insert_eq. }
  split; [done|]. by exists result, chunks, blob.
Qed.

Lemma graph_key_not_treehash repositoryID repositoryID' treehash strategy excludes build : plain repositoryID -> plain repositoryID' ->
  git_hash treehash -> git_hash (bd_BaseSha build) ->
  GetTGBGraphByTreeHash md5 repositoryID treehash strategy excludes <> GetTreehashCachePath md5 repositoryID' build.
Proof.
  intros Hr Hr' Ht Hb E. exact (key_inputs_determined md5 md5_length (ForGraph repositoryID treehash strategy excludes) (ForTreehash repositoryID' build)
    (conj Hr Ht) (conj Hr' Hb) E).
Qed.
End orchestrator.

(** * The outcome of a run

    What a run should report, apart from how it classifies and wraps errors: the first
    step that fails decides. *)

(** The class of a failure that should have the code unless its context is cancelled. *)
Definition class_of (e : gerror) (code : ErrorCode) : ErrorCode := if decide (ge_is e = Some ContextCanceled) then ErrorCancelled else code.

Definition own_class (e : gerror) : ErrorCode := class_of e (default ErrorInfra (ge_code e)).
Definition git_class (e : gerror) : ErrorCode :=
  class_of e (if decide (ge_is e = Some GitTimeout \/ ge_is e = Some GitFatal) then ErrorInfra else default ErrorInfra (ge_code e)).
Definition retryable_class (on : sentinel) (e : gerror) : ErrorCode :=
  class_of e (if decide (ge_is e = Some on) then ErrorInfraRetryable else ErrorInfra).

(** Failures of the storage, the mapper and the encoder have no code of their own. *)
Definition text_class (e : string) : ErrorCode := if decide (e = cancelled_err) then ErrorCancelled else ErrorInfra.
Definition res_class {A} (r : res A) : option ErrorCode :=
  match r with Ok _ => None | Err e => Some (text_class e) | Panic => Some ErrorInfra end.
Definition open_class (o : open_result) : option ErrorCode :=
  match o with Opened _ => None | Corrupt e | OpenFailed e => Some (text_class e) | Missing | OpenPanic => Some ErrorInfra end.

(** The steps up to the tree hash, in order; a malformed change request is the user's. *)
Definition preparation_failure (so : Surroundings) (requests : list ChangeRequest) : option ErrorCode :=
  head (omap id
    [ git_class <$> so_checkout so;
      (fun e => class_of e ErrorUser) <$> head (omap (fun c => so_request so (URL c)) requests);
      git_class <$> so_apply so;
      match so_treehash so with inl _ => None | inr e => Some (git_class e) end ]).

(** Only a native computation that is not injected needs Bazel. *)
Definition runner_failure (so : Surroundings) (strategy : Z) : option ErrorCode :=
  if so_injected so then None
  else if decide (strategy ∈ [ComputationStrategyUnset; ComputationStrategyNative]) then retryable_class BazelNetwork <$> so_bazel so
  else if decide (strategy = ComputationStrategyShell) then None else Some ErrorUser.

Definition fails (r : Reader + gerror) (code : ErrorCode) : Prop := exists e, r = inr e /\ GetErrorCode e = code.

(** Nothing is stored under other keys. *)
Definition same_but {S : Type} {storage : Storage S} (keys : list bytes) (s s' : S) : Prop :=
  forall key, key ∉ keys -> st_contents s' !! key = st_contents s !! key.

Lemma lease_fails e : fails (inr (classifyLeaseError e)) (retryable_class PoolTimeout e).
Proof.
  eexists. split; [done|]. unfold classifyLeaseError, retryable_class, class_of, GetErrorCode.
  destruct (decide (ge_is e = Some PoolTimeout)) as [E|]; cbn [ge_is ge_code newError wrap]; [by rewrite E|]. by case_decide.
Qed.

Lemma bazel_fails e : fails (inr (classifyBazelClientError e)) (retryable_class BazelNetwork e).
Proof.
  eexists. split; [done|]. unfold classifyBazelClientError, retryable_class, class_of, GetErrorCode.
  destruct (decide (ge_is e = Some BazelNetwork)) as [E|]; cbn [ge_is ge_code newError wrap]; [by rewrite E|]. by case_decide.
Qed.

Lemma git_fails prefix e : fails (inr (classifyGitError (wrap prefix e))) (git_class e).
Proof.
  eexists. split; [done|]. unfold classifyGitError, git_class, class_of, GetErrorCode. cbn [ge_is ge_code wrap].
  destruct (decide (ge_is e = Some GitTimeout \/ ge_is e = Some GitFatal)); cbn [ge_is ge_code newError wrap]; by case_decide.
Qed.

Lemma user_fails prefix e : fails (inr (newError ErrorUser (wrap prefix e))) (class_of e ErrorUser).
Proof. eexists. split; [done|]. unfold class_of, GetErrorCode. cbn [ge_is ge_code newError wrap]. by case_decide. Qed.

Lemma own_fails prefix e : fails (inr (wrap prefix e)) (own_class e).
Proof. eexists. split; [done|]. unfold own_class, class_of, GetErrorCode. cbn [ge_is ge_code wrap]. by case_decide. Qed.

Lemma text_fails prefix e : fails (inr (from_msg prefix e)) (text_class e).
Proof. eexists. split; [done|]. unfold text_class, from_msg, GetErrorCode. cbn [ge_is ge_code]. by destruct (decide (e = cancelled_err)). Qed.

Lemma plain_fails e : fails (inr (plain_error e)) ErrorInfra.
Proof. eexists. by split. Qed.

Lemma new_requests_first so requests :
  new_requests so requests = (fun e => newError ErrorUser (wrap "create request for %q: " e)) <$> head (omap (fun c => so_request so (URL c)) requests).
Proof. induction requests as [|c requests IH]; [done|]. cbn [new_requests omap list_omap]. by destruct (so_request so (URL c)). Qed.

Lemma new_runner_fails so strategy :
  match new_runner so strategy with
  | None => runner_failure so strategy = None
  | Some e => exists code, runner_failure so strategy = Some code /\ fails (inr e) code
  end.
Proof.
  unfold new_runner, runner_failure. destruct (so_injected so); [done|]. destruct (decide (strategy = ComputationStrategyShell)) as [->|Hs].
  { by rewrite decide_False by (by intros [?|[?|[]%elem_of_nil]%elem_of_cons]%elem_of_cons). }
  destruct (decide (strategy = ComputationStrategyUnset \/ strategy = ComputationStrategyNative)) as [H|H].
  - rewrite decide_True by (by destruct H as [->| ->]; [left|right; left]).
    destruct (so_bazel so) as [e|]; cbn; [|done]. eexists. split; [done|]. apply bazel_fails.
  - rewrite decide_False by (intros [?|[?|[]%elem_of_nil]%elem_of_cons]%elem_of_cons; tauto).
    eexists. split; [done|]. eexists. by split.
Qed.

Section outcome.
Context {S : Type} {storage : Storage S} {laws : StorageLaws S}.
Context (env : encode_env) (pieces : bytes -> list bytes) (pieces_ok : forall b, concat (pieces b) = b) (md5 : bytes -> bytes).
Context (attribute_string : Z) (range : gmap bytes Z -> list (bytes * Z)) (id_range : gmap Z bytes -> list (Z * bytes)).
Context (maxMessageBytes : Z) (map_ctx : Z -> bool) (cancelled : bool) (write_ctx app_ctx : Z -> bool) (early : bool).
Context (so : Surroundings) (repositoryID treehash path : bytes) (build : BuildDescription).

Abbreviation treehash_key := (GetTreehashCachePath md5 repositoryID build).
Abbreviation put := (put_treehash md5 app_ctx repositoryID treehash build).

(** The storage when the graph is written. *)
Definition before_write (s : S) : S := if early then put s else s.

(** What a computation should lead to: the result converted, encoded, written and opened. *)
Definition computation (r : Reader + gerror) (s s' : S) : Prop :=
  match so_compute so with
  | inr e => fails r (own_class e) /\ same_but [treehash_key] s s'
  | inl result =>
      match ResultToGraphChunks attribute_string range map_ctx id_range result maxMessageBytes with
      | Ok chunks =>
          let '(written, s2) := WriteTGBGraph env pieces write_ctx path chunks (before_write s) in
          match res_class written with
          | Some code => fails r code /\ same_but [treehash_key] s s'
          | None => exists blob, EncodeChunks env chunks = Ok blob /\ same_but [treehash_key; path] s s' /\
              (path <> treehash_key -> st_contents s' !! path = Some blob) /\
              match NewTGBGraphReader cancelled path s2 with
              | Opened rd => r = inl rd /\ NewReader blob = Ok rd
              | o => exists code, open_class o = Some code /\ fails r code
              end
          end
      | c => exists code, res_class c = Some code /\ fails r code /\ same_but [treehash_key] s s'
      end
  end.

Lemma put_same s keys : st_ok s -> treehash_key ∈ keys -> st_ok (put s) /\ same_but keys s (put s).
Proof.
  intros Hs Hin. split; [by apply st_put_ok|].
  intros key Hk. refine (proj2 (put_treehash_other md5 app_ctx repositoryID treehash build s key Hs _)). by intros ->.
Qed.

(** The tree hash is stored before the graph or after it. *)
Lemma put_around s s2 keys : st_ok s -> st_ok s2 -> treehash_key ∈ keys -> same_but keys (before_write s) s2 ->
  same_but keys s (if early then s2 else put s2) /\
  forall k, k <> treehash_key -> st_contents (if early then s2 else put s2) !! k = st_contents s2 !! k.
Proof.
  intros Hs Hs2 Hin H. unfold before_write in H. destruct early.
  - split; [|done]. intros k Hk. rewrite H by done. by apply (put_same s keys).
  - split; [intros k Hk; rewrite (proj2 (put_same s2 keys Hs2 Hin)) by done; by apply H|].
    intros k Hk. exact (proj2 (put_treehash_other md5 app_ctx repositoryID treehash build s2 k Hs2 Hk)).
Qed.

Lemma before_write_ok s : st_ok s -> st_ok (before_write s).
Proof. intros Hs. unfold before_write. destruct early; [|done]. apply (put_same s [treehash_key]); [done|by left]. Qed.

(** What a write leaves, once the tree hash is stored too. *)
Lemma write_outcome chunks s : st_ok s ->
  let '(written, s2) := WriteTGBGraph env pieces write_ctx path chunks (before_write s) in
  let s' := if early then s2 else put s2 in
  match written with
  | Ok _ => exists blob, EncodeChunks env chunks = Ok blob /\ same_but [treehash_key; path] s s' /\
      (path <> treehash_key -> st_contents s' !! path = Some blob) /\
      forall rd, NewTGBGraphReader cancelled path s2 = Opened rd -> NewReader blob = Ok rd
  | _ => same_but [treehash_key] s s'
  end.
Proof.
  intros Hs. pose proof (before_write_ok s Hs) as Hs1.
  destruct (WriteTGBGraph_spec env pieces pieces_ok write_ctx path chunks (before_write s) Hs1) as [Hs2 Hw].
  destruct (WriteTGBGraph env pieces write_ctx path chunks (before_write s)) as [w s2]. cbn [fst snd] in *. destruct w as [u|e|].
  - destruct Hw as (blob & Eb & Hc). exists blob. split; [done|].
    destruct (put_around s s2 [treehash_key; path] Hs Hs2 ltac:(by left)) as [Hk Hk'].
    { intros k Hk. rewrite Hc, lookup_insert_ne; [done|]. intros <-. apply Hk. right. by left. }
    split_and!; [done|by intros Hne; rewrite Hk', Hc, lookup_insert_eq|]. intros rd. unfold NewTGBGraphReader.
    destruct (st_get_spec cancelled path s2 Hs2) as [->|(_ & e & ->)]; [|done].
    rewrite Hc, lookup_insert_eq. by destruct (NewReader blob); [intros [= <-]|..].
  - apply (put_around s s2); [done|done|by left|]. intros k _. by rewrite Hw.
  - apply (put_around s s2); [done|done|by left|]. intros k _. by rewrite Hw.
Qed.

Lemma compute_graph_outcome s : st_ok s ->
  let '(r, s', events) := compute_graph env pieces md5 attribute_string range id_range maxMessageBytes map_ctx cancelled write_ctx app_ctx early
    so repositoryID treehash path build s in
  match runner_failure so (bd_Strategy build) with
  | Some code => fails r code /\ events = [] /\ same_but [treehash_key] s s'
  | None => events = [Computed] /\ computation r s s'
  end.
Proof.
  intros Hs. unfold compute_graph. change (if early then put s else s) with (before_write s).
  assert (same_but [treehash_key] s (if early then before_write s else put (before_write s))) as Hlate.
  { apply (put_around s (before_write s)); [done|by apply before_write_ok|by left|done]. }
  pose proof (new_runner_fails so (bd_Strategy build)) as Hrun. destruct (new_runner so (bd_Strategy build)) as [e|].
  { destruct Hrun as (code & -> & ?). by split. }
  rewrite Hrun. unfold computation. destruct (so_compute so) as [result|e]; [|split; [done|split; [apply own_fails|done]]].
  destruct (ResultToGraphChunks _ _ _ _ _ _) as [chunks|e|].
  - pose proof (write_outcome chunks s Hs) as Hw. destruct (WriteTGBGraph env pieces write_ctx path chunks (before_write s)) as [w s2].
    destruct w as [u|e|]; cbn [res_class]; [|split; [done|split; [apply text_fails|done]]|split; [done|split; [apply plain_fails|done]]].
    destruct Hw as (blob & Eb & Hk & Hst & Hopen).
    destruct (NewTGBGraphReader cancelled path s2) as [rd| |e|e|]; (split; [done|]; exists blob; split_and!; [done..|]); [by auto|..];
      eexists; (split; [done|]); try apply text_fails; apply plain_fails.
  - split; [done|]. eexists. split; [done|]. split; [apply text_fails|done].
  - split; [done|]. eexists. split; [done|]. split; [apply plain_fails|done].
Qed.
End outcome.

(** * Properties *)

Definition stored_options : EncodeOptions :=
  fillDefaults {| ZstdLevel := 0; HashBytes := encodeHashBytes; BlockSize := encodeBlockSize; Serial := false |}.

(** A graph survives its storage.  When the chunks of a graph have been written to any
    lawful storage, opening the key gives a reader that decodes to a graph that says the
    same as the chunks merged, hashes in full; a failed write leaves what was stored. *)
Theorem graph_blob_roundtrip {S : Type} {storage : Storage S} {laws : StorageLaws S} (env : encode_env)
    (pieces : bytes -> list bytes) (zstd : Z -> bytes -> res bytes) (ctx : Z -> bool) (key : bytes)
    (chunks : list GraphChunk) (g : Graph) (s : S) :
  EncodeEnvOk env -> ZstdLaws (zstd_compress env) zstd -> (forall b, concat (pieces b) = b) -> st_ok s ->
  MergeChunks chunks = Ok g -> graph_ok g -> (forall e, newEncoder env g stored_options = Ok e -> fits env e) ->
  match WriteTGBGraph env pieces ctx key chunks s with
  | (Ok _, s') => exists r g', NewTGBGraphReader false key s' = Opened r /\ (DecodeGraph zstd r).1 = Ok g' /\
      graph_equiv (TruncateHashes g 20) g'
  | (_, s') => forall k, NewTGBGraphReader false k s' = NewTGBGraphReader false k s
  end.
Proof.
  intros He Hz Hp Hs Hm Hg Hf. destruct (WriteTGBGraph_spec env pieces Hp ctx key chunks s Hs) as [Hs' Hw].
  destruct (WriteTGBGraph env pieces ctx key chunks s) as [[u|e|] s']; cbn [fst snd] in *.
  2,3: intros k; unfold NewTGBGraphReader; by rewrite !st_get_false, Hw.
  destruct Hw as (blob & Eb & Hc). unfold EncodeChunks in Eb. rewrite Hm in Eb. cbn [mbind res_bind] in Eb.
  destruct (decode_encoded env zstd g _ blob He Hz Hg Eb Hf) as (g' & Hd & Heq). unfold Decode in Hd.
  apply bind_Ok in Hd as (r & Hr & Hd). exists r, g'. unfold NewTGBGraphReader. rewrite st_get_false, Hc, lookup_insert_eq by done.
  rewrite Hr. by split_and!.
Qed.

(** A graph is computed once.  When a request has computed a graph for a tree hash, a
    later request for the same tree hash, strategy and exclusions that may use the cache is
    answered with the same blob: nothing is computed, whatever the graph runner would
    have done, and the storage does not change.  The tree hash that is stored in the
    background is not in the way, early or late. *)
Theorem graph_computed_once {S : Type} {storage : Storage S} {laws : StorageLaws S} (env : encode_env)
    (pieces : bytes -> list bytes) (md5 : bytes -> bytes) (attribute_string : Z) (range : gmap bytes Z -> list (bytes * Z))
    (id_range : gmap Z bytes -> list (Z * bytes)) (maxMessageBytes : Z) (map_ctx : Z -> bool) (cancelled : bool)
    (write_ctx app_ctx : Z -> bool) (early : bool) (so so' : Surroundings) (build : BuildDescription) (excludes : list bytes)
    (bypassCache : bool) (repositoryID treehash : bytes) (s s' : S) (r : Reader) (events : list event) :
  (forall b, concat (pieces b) = b) -> (forall written, length (md5 written) = 16%nat) -> st_ok s ->
  plain repositoryID -> git_hash treehash -> git_hash (bd_BaseSha build) ->
  so_repositoryID so = Some repositoryID -> so_treehash so = inl treehash ->
  GetTargetGraph env pieces md5 attribute_string range id_range maxMessageBytes map_ctx cancelled write_ctx app_ctx early
    so build excludes bypassCache s = (inl r, s', events) -> Computed ∈ events ->
  so_repositoryID so' = Some repositoryID -> so_lease so' = None -> so_checkout so' = None ->
  new_requests so' (bd_ChangeRequests build) = None -> so_apply so' = None -> so_treehash so' = inl treehash ->
  GetTargetGraph env pieces md5 attribute_string range id_range maxMessageBytes map_ctx false write_ctx app_ctx early
    so' build excludes false s' = (inl r, s', [Leased; Released]).
Proof.
  intros Hp Hmd5 Hs Hr Ht Hb Hrepo Htree H Hin Hr' Hl' Hc' Hn' Ha' Ht'.
  assert (exists ev, compute_graph env pieces md5 attribute_string range id_range maxMessageBytes map_ctx cancelled write_ctx app_ctx early
    so repositoryID treehash (GetTGBGraphByTreeHash md5 repositoryID treehash (bd_Strategy build) excludes) build s = (inl r, s', ev)) as [ev Hcomp].
  { unfold GetTargetGraph in H. rewrite Hrepo in H. destruct (so_lease so); [done|].
    destruct (in_workspace _ _ _ _ _ _ _ _ _ _ _ _ _ _ _ _ _ _) as [[r1 s1] ev1] eqn:Ew. injection H as -> -> <-.
    assert (Computed ∈ ev1) as Hin1.
    { rewrite elem_of_cons, elem_of_app, list_elem_of_singleton in Hin. naive_solver. }
    unfold in_workspace in Ew. destruct (so_checkout so); [done|]. destruct (new_requests so _); [done|]. destruct (so_apply so); [done|].
    rewrite Htree in Ew. exists ev1. destruct bypassCache; [done|].
    destruct (readCachedGraph _ _ _); try done; injection Ew as -> -> <-; by apply elem_of_nil in Hin1. }
  apply compute_graph_stored in Hcomp as (Hs' & result & chunks & blob & _ & _ & _ & Hread & Hst); [|done..|by apply graph_key_not_treehash].
  unfold GetTargetGraph, in_workspace. rewrite Hr', Hl', Hc', Hn', Ha', Ht'. unfold readCachedGraph, NewTGBGraphReader.
  by rewrite st_get_false, Hst, Hread.
Qed.

(** C12: Every outcome of a run.  Without a configuration it fails as infrastructure and does
    nothing; a failed lease is retryable when the pool was full, and does nothing either.
    Otherwise the workspace is leased once and released at the end.  The first of checkout,
    change requests, patches and tree hash that fails decides the code (a malformed request
    is the user's, a git timeout or fatal error infrastructure, others keep their code), and
    nothing is stored.  A graph in the cache that may be used is returned without storing or
    computing anything; a read that fails, other than by a missing or corrupt blob, is the
    outcome.  Otherwise it computes, unless Bazel cannot be set up (retryable for the
    network) or the strategy is unknown (the user's): a failed computation keeps its code,
    a failed conversion, encoding, write or read is infrastructure, and of the storage only
    the tree hash changes; if all succeed, what is stored is the encoded result and the
    reader returned is of it.  A step that fails because its context is cancelled is always
    reported as cancelled. *)
Theorem GetTargetGraph_outcomes {S : Type} {storage : Storage S} {laws : StorageLaws S} (env : encode_env)
    (pieces : bytes -> list bytes) (md5 : bytes -> bytes) (attribute_string : Z) (range : gmap bytes Z -> list (bytes * Z))
    (id_range : gmap Z bytes -> list (Z * bytes)) (maxMessageBytes : Z) (map_ctx : Z -> bool) (cancelled : bool)
    (write_ctx app_ctx : Z -> bool) (early : bool) (so : Surroundings) (build : BuildDescription) (excludes : list bytes)
    (bypassCache : bool) (s : S) :
  (forall b, concat (pieces b) = b) -> st_ok s ->
  let '(r, s', events) := GetTargetGraph env pieces md5 attribute_string range id_range maxMessageBytes map_ctx cancelled write_ctx app_ctx early
    so build excludes bypassCache s in
  match so_repositoryID so with
  | None => fails r ErrorInfra /\ events = [] /\ s' = s
  | Some repositoryID =>
      match so_lease so, preparation_failure so (bd_ChangeRequests build), so_treehash so with
      | Some e, _, _ => fails r (retryable_class PoolTimeout e) /\ events = [] /\ s' = s
      | None, Some code, _ => fails r code /\ events = [Leased; Released] /\ s' = s
      | None, None, inr _ => False
      | None, None, inl treehash =>
          let path := GetTGBGraphByTreeHash md5 repositoryID treehash (bd_Strategy build) excludes in
          match (if bypassCache then Missing else NewTGBGraphReader cancelled path s) with
          | Opened rd => r = inl rd /\ events = [Leased; Released] /\ s' = s
          | OpenFailed e => fails r (text_class e) /\ events = [Leased; Released] /\ s' = s
          | OpenPanic => fails r ErrorInfra /\ events = [Leased; Released] /\ s' = s
          | Missing | Corrupt _ =>
              match runner_failure so (bd_Strategy build) with
              | Some code => fails r code /\ events = [Leased; Released] /\ same_but [GetTreehashCachePath md5 repositoryID build] s s'
              | None => events = [Leased; Computed; Released] /\
                  computation env pieces md5 attribute_string range id_range maxMessageBytes map_ctx cancelled write_ctx app_ctx early
                    so repositoryID treehash path build r s s'
              end
          end
      end
  end.
Proof.
  intros Hp Hs. unfold GetTargetGraph, in_workspace, preparation_failure. destruct (so_repositoryID so) as [repo|]; [|split_and!; [apply plain_fails|done..]].
  destruct (so_lease so) as [e|]; [split_and!; [apply lease_fails|done..]|].
  destruct (so_checkout so) as [e|]; [split_and!; [apply git_fails|done..]|].
  rewrite new_requests_first. destruct (head (omap (fun c => so_request so (URL c)) (bd_ChangeRequests build))) as [e|]; [split_and!; [apply user_fails|done..]|].
  destruct (so_apply so) as [e|]; [split_and!; [apply git_fails|done..]|].
  destruct (so_treehash so) as [treehash|e]; [|split_and!; [apply git_fails|done..]]. cbn [fmap option_fmap option_map omap list_omap head id].
  set (path := GetTGBGraphByTreeHash _ _ _ _ _).
  pose proof (compute_graph_outcome env pieces Hp md5 attribute_string range id_range maxMessageBytes map_ctx cancelled write_ctx app_ctx early
    so repo treehash path build s Hs) as Hc.
  destruct (compute_graph _ _ _ _ _ _ _ _ _ _ _ _ _ _ _ _ _ _) as [[r1 s1] ev1].
  assert (match runner_failure so (bd_Strategy build) with
    | Some code => fails r1 code /\ Leased :: ev1 ++ [Released] = [Leased; Released] /\ same_but [GetTreehashCachePath md5 repo build] s s1
    | None => Leased :: ev1 ++ [Released] = [Leased; Computed; Released] /\
        computation env pieces md5 attribute_string range id_range maxMessageBytes map_ctx cancelled write_ctx app_ctx early so repo treehash path build r1 s s1
    end) as Hrun.
  { destruct (runner_failure so (bd_Strategy build)); [destruct Hc as (? & -> & ?)|destruct Hc as (-> & ?)]; by split_and!. }
  destruct bypassCache; [exact Hrun|]. unfold readCachedGraph. destruct (NewTGBGraphReader cancelled path s) as [rd| |e|e|]; [by split_and!|exact Hrun|exact Hrun|..].
  - split_and!; [apply text_fails|done..].
  - split_and!; [apply plain_fails|done..].
Qed.

(** * Examples *)

Definition memory : Storage (gmap bytes bytes) := memory_storage (fun m => (map_to_list m).*1).
Definition whole (b : bytes) : list bytes := [b].

Definition one_chunk : list GraphChunk :=
  [ {| gc_Targets := [ {| ot_ID := 1; ot_Hash := bs "0011223344556677889900112233445566778899"; ot_DirectDependencies := [];
                          ot_RuleType := 1; ot_Tags := []; ot_Root := true; ot_External := false; ot_Attributes := ∅ |} ];
       gc_Metadata := Some {| TargetIDMapping := {[ 1 := bs "//a:x" ]}; RuleTypeMapping := {[ 1 := bs "go_library" ]}; TagMapping := ∅;
                              AttributeNameMapping := ∅; AttributeStringValueMapping := ∅; AllTargetsFileHashes := ∅ |} |} ].
Definition one_graph : Graph := match MergeChunks one_chunk with Ok g => g | _ => sample_graph end.
Definition one_encoder : encoder := match newEncoder toy_env one_graph stored_options with Ok e => e | _ => sample_encoder end.

Lemma graph_blob_roundtrip_witness : exists r g',
  @NewTGBGraphReader _ memory false (bs "k") (@WriteTGBGraph _ memory toy_env whole (fun _ => false) (bs "k") one_chunk ∅).2 = Opened r /\
  (DecodeGraph toy_decompress r).1 = Ok g' /\ graph_equiv (TruncateHashes one_graph 20) g'.
Proof.
  pose proof (@graph_blob_roundtrip _ memory (memory_laws _ (fun m => reflexivity _)) toy_env whole toy_decompress (fun _ => false) (bs "k") one_chunk
    one_graph ∅ toy_env_ok toy_zstd_laws (fun b => app_nil_r b) Logic.I) as H.
  assert ((@WriteTGBGraph _ memory toy_env whole (fun _ => false) (bs "k") one_chunk ∅).1 = Ok ()) as E by (vm_compute; reflexivity).
  destruct (@WriteTGBGraph _ memory toy_env whole (fun _ => false) (bs "k") one_chunk ∅) as [r s']. cbn [fst snd] in *. subst r.
  apply H.
  - vm_compute. reflexivity.
  - split.
    + intros t label Ht. apply list_elem_of_singleton in Ht as ->. intros [= <-]. apply (bool_decide_unpack _); vm_compute; exact I.
    + intros t Ht. apply list_elem_of_singleton in Ht as ->. apply (bool_decide_unpack _). vm_compute. exact I.
  - intros e He. assert (newEncoder toy_env one_graph stored_options = Ok one_encoder) as He' by (vm_compute; reflexivity).
    rewrite He in He'. injection He' as ->. split.
    + vm_compute. reflexivity.
    + apply (bool_decide_unpack _). vm_compute. exact I.
    + vm_compute. discriminate.
    + vm_compute. reflexivity.
    + apply Forall_forall. intros d Hd. unfold all_dicts in Hd.
      repeat (apply elem_of_cons in Hd as [->|Hd];
        [split; [apply (bool_decide_unpack _); vm_compute; exact I|vm_compute; discriminate]|]).
      apply elem_of_nil in Hd. destruct Hd.
    + apply (bool_decide_unpack _). vm_compute. exact I.
Defined.

Definition no_targets : Result := {| rt_TargetNames := []; rt_Targets := ∅; rt_AllTargetsFileHashes := ∅ |}.
Definition calm (compute : Result + gerror) : Surroundings :=
  {| so_repositoryID := Some (bs "tango"); so_lease := None; so_checkout := None; so_request := fun _ => None; so_apply := None;
     so_treehash := inl (bs "12ab"); so_injected := false; so_bazel := None; so_compute := compute |}.
Definition sample_build : BuildDescription :=
  {| bd_Remote := bs "git@github:uber/tango"; bd_BaseSha := bs "ab"; bd_ChangeRequests := []; bd_Strategy := ComputationStrategyNative |}.

Definition sample_run (compute : Result + gerror) (bypassCache : bool) (s : gmap bytes bytes) : run (gmap bytes bytes) :=
  @GetTargetGraph _ memory toy_env whole short_md5 2 map_to_list map_to_list 100 (fun _ => false) false (fun _ => false) (fun _ => false) true
    (calm compute) sample_build [] bypassCache s.
Definition first_run : run (gmap bytes bytes) := sample_run (inl no_targets) true ∅.

Lemma graph_computed_once_witness : exists r,
  first_run.1.1 = inl r /\ sample_run (inr (plain_error "bazel is gone")) false first_run.1.2 = (inl r, first_run.1.2, [Leased; Released]).
Proof.
  assert (exists r, first_run.1.1 = inl r) as [r Hr] by (vm_compute; eexists; reflexivity).
  assert (first_run.2 = [Leased; Computed; Released]) as He by (vm_compute; reflexivity).
  exists r. split; [exact Hr|].
  apply (@graph_computed_once _ memory (memory_laws _ (fun m => reflexivity _)) toy_env whole short_md5 2 map_to_list map_to_list 100 (fun _ => false)
    false (fun _ => false) (fun _ => false) true (calm (inl no_targets)) (calm (inr (plain_error "bazel is gone"))) sample_build [] true
    (bs "tango") (bs "12ab") ∅ first_run.1.2 r first_run.2 (fun b => app_nil_r b)).
  - intros w. unfold short_md5. rewrite length_take, length_app, length_replicate. lia.
  - exact Logic.I.
  - decided.
  - decided.
  - decided.
  - reflexivity.
  - reflexivity.
  - transitivity (first_run.1.1, first_run.1.2, first_run.2); [|rewrite Hr; reflexivity].
    change (first_run = (first_run.1.1, first_run.1.2, first_run.2)). by destruct first_run as [[? ?] ?].
  - rewrite He. right. left.
  - reflexivity.
  - reflexivity.
  - reflexivity.
  - reflexivity.
  - reflexivity.
  - reflexivity.
Defined.

(** The network fails when Bazel is set up, and the pool is full. *)
Definition unlucky (lease bazel : option gerror) : Surroundings :=
  {| so_repositoryID := Some (bs "tango"); so_lease := lease; so_checkout := None; so_request := fun _ => None; so_apply := None;
     so_treehash := inl (bs "12ab"); so_injected := false; so_bazel := bazel; so_compute := inl no_targets |}.
Definition sentinel_error (cause : sentinel) : gerror := {| ge_code := None; ge_is := Some cause; ge_msg := "failed" |}.

Definition unlucky_run (lease bazel : option gerror) : run (gmap bytes bytes) :=
  @GetTargetGraph _ memory toy_env whole short_md5 2 map_to_list map_to_list 100 (fun _ => false) false (fun _ => false) (fun _ => false) true
    (unlucky lease bazel) sample_build [] false ∅.

Lemma GetTargetGraph_outcomes_witness :
  (exists e, (unlucky_run (Some (sentinel_error PoolTimeout)) None).1.1 = inr e /\ GetErrorCode e = ErrorInfraRetryable) /\
  (exists e, (unlucky_run None (Some (sentinel_error BazelNetwork))).1.1 = inr e /\ GetErrorCode e = ErrorInfraRetryable) /\
  exists r, (unlucky_run None None).1.1 = inl r /\ (unlucky_run None None).2 = [Leased; Computed; Released].
Proof.
  pose proof (fun lease bazel => @GetTargetGraph_outcomes _ memory (memory_laws _ (fun m => reflexivity _)) toy_env whole short_md5 2 map_to_list map_to_list 100
    (fun _ => false) false (fun _ => false) (fun _ => false) true (unlucky lease bazel) sample_build [] false ∅ (fun b => app_nil_r b) Logic.I) as H.
  fold (unlucky_run None None) in H. split; [|split].
  - specialize (H (Some (sentinel_error PoolTimeout)) None). fold (unlucky_run (Some (sentinel_error PoolTimeout)) None) in H.
    destruct (unlucky_run (Some (sentinel_error PoolTimeout)) None) as [[r s'] ev]. apply H.
  - specialize (H None (Some (sentinel_error BazelNetwork))). fold (unlucky_run None (Some (sentinel_error BazelNetwork))) in H.
    destruct (unlucky_run None (Some (sentinel_error BazelNetwork))) as [[r s'] ev]. apply H.
  - vm_compute. eexists. split; reflexivity.
Defined.
