(* ===== verification/GetGraph.v ===== *)
(** The lookup of a graph by the controller ([getGraph] and [readCachedGraph] of
    [controller/gettargetgraph.go]) on top of the orchestrator: the tree hash and the graph
    are looked up in the storage, and the orchestrator computes what is missing. *)
From Stdlib Require Import ZArith Lia.
From stdpp Require Import gmap list.
From S2P Require Import Prelude Bfs Entity Encode Reader Container RoundTrip Chunks TargetHasher Mapper Text Storage CacheKeys GraphStore.

Local Open Scope Z_scope.

Section controller.
Context {S : Type} {storage : Storage S} (md5 : bytes -> bytes).

Definition controller_readCachedGraph (cancelled : bool) (repositoryID treehash : bytes) (strategy : Z) (excludeFilesRegex : list bytes)
    (s : S) : open_result :=
  NewTGBGraphReader cancelled (GetTGBGraphByTreeHash md5 repositoryID treehash strategy excludeFilesRegex) s.

(** [body] is the error of reading the tree hash, [looked] and [cause] are why the context is
    done after the lookup and after the computation, if it is; the orchestrator is a function
    of the storage. *)
Definition getGraph (cancelled : bool) (body : option string) (looked cause : option gerror) (orchestrate : S -> run S)
    (repositoryID : bytes) (build : BuildDescription) (excludeFilesRegex : list bytes) (bypassCache : bool) (s : S) : run S :=
  let compute :=
    match orchestrate s with
    | (inl r, s, events) => (inl r, s, events)
    | (inr e, s, events) => (inr (wrap "get target graph: " (default e cause)), s, events)
    end in
  if bypassCache then compute
  else
    match st_get cancelled (GetTreehashCachePath md5 repositoryID build) s with
    | Err e => (inr (from_msg "get treehash: " e), s, [])
    | Panic => (inr (plain_error "panic"), s, [])
    | Ok None => compute
    | Ok (Some treehash) =>
        match body with
        | Some e => (inr (from_msg "read treehash: " e), s, [])
        | None =>
            match looked, controller_readCachedGraph cancelled repositoryID treehash (bd_Strategy build) excludeFilesRegex s with
            | _, OpenPanic => (inr (plain_error "panic"), s, [])
            | Some e, _ => (inr (wrap "graph reader: " e), s, [])
            | None, Opened r => (inl r, s, [])
            | None, Missing => compute
            | None, Corrupt e | None, OpenFailed e => (inr (from_msg "graph reader: " e), s, [])
            end
        end
    end.
End controller.

(** * Histories of the storage *)

Section history.
Context {S : Type} {storage : Storage S}.
Context (env : encode_env) (pieces : bytes -> list bytes) (md5 : bytes -> bytes).
Context (attribute_string : Z) (range : gmap bytes Z -> list (bytes * Z)) (id_range : gmap Z bytes -> list (Z * bytes)).
Context (maxMessageBytes : Z).

(** The contexts of a request, and when its tree hash is written. *)
Record contexts := { cx_map : Z -> bool; cx_cancelled : bool; cx_write : Z -> bool; cx_app : Z -> bool; cx_early : bool }.

Definition orchestrate (cx : contexts) (so : Surroundings) (build : BuildDescription) (excludes : list bytes) (bypassCache : bool) (s : S) : run S :=
  GetTargetGraph env pieces md5 attribute_string range id_range maxMessageBytes (cx_map cx) (cx_cancelled cx) (cx_write cx) (cx_app cx)
    (cx_early cx) so build excludes bypassCache s.

(** A result that a graph runner returned to the orchestrator. *)
Record graph_computation := {
  gr_repositoryID : bytes;
  gr_treehash : bytes;
  gr_build : BuildDescription;
  gr_excludes : list bytes;
  gr_result : Result;
}.

Definition computed_by (so : Surroundings) (build : BuildDescription) (excludes : list bytes) : list graph_computation :=
  match so_repositoryID so, so_treehash so, so_compute so with
  | Some r, inl t, inl result => [{| gr_repositoryID := r; gr_treehash := t; gr_build := build; gr_excludes := excludes; gr_result := result |}]
  | _, _, _ => []
  end.

Definition sane_request (so : Surroundings) (build : BuildDescription) : Prop :=
  (forall r, so_repositoryID so = Some r -> plain r) /\ (forall t, so_treehash so = inl t -> git_hash t) /\ git_hash (bd_BaseSha build).

Definition graph_key (p : bytes) : Prop := exists r t st x, sane (ForGraph r t st x) /\ p = GetTGBGraphByTreeHash md5 r t st x.

Definition treehash_key (p : bytes) : Prop := exists r build, sane (ForTreehash r build) /\ p = GetTreehashCachePath md5 r build.

(** What git said about a request. *)
Definition hashed_by (so : Surroundings) (build : BuildDescription) : list (bytes * BuildDescription * bytes) :=
  match so_repositoryID so, so_treehash so with
  | Some r, inl t => [(r, build, t)]
  | _, _ => []
  end.

(** Requests to the orchestrator, and other uses of the storage. *)
Inductive graph_history : S -> list graph_computation -> list (bytes * BuildDescription * bytes) -> Prop :=
  | gh_init s : st_ok s -> (forall p, graph_key p \/ treehash_key p -> st_contents s !! p = None) -> graph_history s [] []
  | gh_request s log hashes cx so build excludes bypassCache : graph_history s log hashes -> sane_request so build ->
      graph_history (orchestrate cx so build excludes bypassCache s).1.2 (computed_by so build excludes ++ log) (hashed_by so build ++ hashes)
  | gh_other s log hashes ctx p r : graph_history s log hashes -> ~ graph_key p -> ~ treehash_key p ->
      graph_history (st_put ctx p r s).2 log hashes.

(** A blob encodes the result of a computation. *)
Definition encodes (b : bytes) (c : graph_computation) : Prop :=
  exists ctx chunks, ResultToGraphChunks attribute_string range ctx id_range (gr_result c) maxMessageBytes = Ok chunks /\
    EncodeChunks env chunks = Ok b.

(** A computation is one for the inputs of a key, as far as the key tells. *)
Definition computed_for (c : graph_computation) (r t : bytes) (strategy : Z) (excludes : list bytes) : Prop :=
  same_inputs md5 (ForGraph (gr_repositoryID c) (gr_treehash c) (bd_Strategy (gr_build c)) (gr_excludes c)) (ForGraph r t strategy excludes).

(** Git said so for the same base commit and change requests, as far as the key tells. *)
Definition hashed_for (hashes : list (bytes * BuildDescription * bytes)) (r t : bytes) (build : BuildDescription) : Prop :=
  exists build', (r, build', t) ∈ hashes /\ git_hash t /\ same_inputs md5 (ForTreehash r build') (ForTreehash r build).

Record graphs_computed (s : S) (log : list graph_computation) (hashes : list (bytes * BuildDescription * bytes)) : Prop := {
  gi_ok : st_ok s;
  gi_graphs : forall r t strategy x b, sane (ForGraph r t strategy x) -> st_contents s !! GetTGBGraphByTreeHash md5 r t strategy x = Some b ->
    exists c, c ∈ log /\ computed_for c r t strategy x /\ encodes b c;
  gi_hashes : forall r build t, sane (ForTreehash r build) -> st_contents s !! GetTreehashCachePath md5 r build = Some t -> hashed_for hashes r t build;
}.

(** ** Lemmas *)

Context {laws : StorageLaws S} (pieces_ok : forall b, concat (pieces b) = b).
Context (md5_length : forall written, length (md5 written) = 16%nat).

(** Storing a tree hash changes no other key. *)
Lemma put_treehash_effect app_ctx repositoryID treehash build s : st_ok s ->
  st_ok (put_treehash md5 app_ctx repositoryID treehash build s) /\
  forall key, st_contents (put_treehash md5 app_ctx repositoryID treehash build s) !! key = st_contents s !! key \/
    (key = GetTreehashCachePath md5 repositoryID build /\
     st_contents (put_treehash md5 app_ctx repositoryID treehash build s) !! key = Some treehash).
Proof.
  intros Hs. unfold put_treehash. split; [by apply st_put_ok|]. intros key.
  pose proof (st_put_spec app_ctx (GetTreehashCachePath md5 repositoryID build) (Some [Ok treehash]) s Hs) as H.
  destruct (st_put _ _ _ _) as [[u|e|] s']; cbn [fst snd] in *; [|left; by rewrite H..]. destruct H as (reads & [= <-] & _ & ->).
  destruct (decide (key = GetTreehashCachePath md5 repositoryID build)) as [->|Hne]; [right|left; by rewrite lookup_insert_ne].
  split; [done|]. rewrite lookup_insert_eq. unfold read_bytes. cbn. by rewrite app_nil_r.
Qed.

(** The keys that a computation may write. *)
Definition compute_writes (map_ctx : Z -> bool) (so : Surroundings) (repositoryID treehash tgbPath : bytes) (build : BuildDescription)
    (s s' : S) (key : bytes) : Prop :=
  st_contents s' !! key = st_contents s !! key \/
  (key = GetTreehashCachePath md5 repositoryID build /\ st_contents s' !! key = Some treehash) \/
  (key = tgbPath /\ exists result chunks blob, so_compute so = inl result /\
    ResultToGraphChunks attribute_string range map_ctx id_range result maxMessageBytes = Ok chunks /\
    EncodeChunks env chunks = Ok blob /\ st_contents s' !! key = Some blob).

Lemma compute_writes_put map_ctx app_ctx so repositoryID treehash tgbPath build s s' key : st_ok s' ->
  tgbPath <> GetTreehashCachePath md5 repositoryID build ->
  compute_writes map_ctx so repositoryID treehash tgbPath build s s' key ->
  compute_writes map_ctx so repositoryID treehash tgbPath build s (put_treehash md5 app_ctx repositoryID treehash build s') key.
Proof.
  intros Hs' Hne H. destruct (put_treehash_effect app_ctx repositoryID treehash build s' Hs') as [_ Hp].
  unfold compute_writes in *. destruct (Hp key) as [->|H']; [done|]. by right; left.
Qed.

Lemma compute_graph_effect cx so repositoryID treehash tgbPath build s : st_ok s -> tgbPath <> GetTreehashCachePath md5 repositoryID build ->
  let s' := (compute_graph env pieces md5 attribute_string range id_range maxMessageBytes (cx_map cx) (cx_cancelled cx) (cx_write cx) (cx_app cx)
    (cx_early cx) so repositoryID treehash tgbPath build s).1.2 in
  st_ok s' /\ forall key, compute_writes (cx_map cx) so repositoryID treehash tgbPath build s s' key.
Proof.
  intros Hs Hne s'. subst s'. unfold compute_graph.
  set (put := put_treehash md5 (cx_app cx) repositoryID treehash build).
  set (s1 := if cx_early cx then put s else s).
  assert (forall s2, st_ok s2 -> (forall key, compute_writes (cx_map cx) so repositoryID treehash tgbPath build s s2 key) ->
    st_ok (if cx_early cx then s2 else put s2) /\
    forall key, compute_writes (cx_map cx) so repositoryID treehash tgbPath build s (if cx_early cx then s2 else put s2) key) as Hlate.
  { intros s2 Hs2 H. destruct (cx_early cx); [done|]. split; [by apply put_treehash_effect|]. intros key. by apply compute_writes_put. }
  assert (st_ok s1 /\ forall key, compute_writes (cx_map cx) so repositoryID treehash tgbPath build s s1 key) as [Hs1 H1].
  { unfold s1. destruct (cx_early cx); [|split; [done|by left]]. split; [by apply put_treehash_effect|].
    intros key. by apply compute_writes_put; [..|left]. }
  destruct (new_runner so (bd_Strategy build)); [by apply Hlate|].
  destruct (so_compute so) as [result|e] eqn:Er; [|by apply Hlate].
  destruct (ResultToGraphChunks _ _ _ _ _ _) as [chunks|e|] eqn:Ec; [|by apply Hlate..].
  destruct (WriteTGBGraph_spec env pieces pieces_ok (cx_write cx) tgbPath chunks s1 Hs1) as [Hs2 Hw].
  destruct (WriteTGBGraph env pieces (cx_write cx) tgbPath chunks s1) as [[u|e|] s2]; cbn [fst snd] in *.
  2,3: apply Hlate; [done|]; intros key; specialize (H1 key); unfold compute_writes in *; by rewrite Hw.
  destruct Hw as (blob & Eb & Hc).
  assert (forall key, compute_writes (cx_map cx) so repositoryID treehash tgbPath build s s2 key) as H2.
  { intros key. unfold compute_writes. rewrite Hc. destruct (decide (key = tgbPath)) as [->|Hn].
    - right. right. split; [done|]. exists result, chunks, blob. by rewrite lookup_insert_eq.
    - rewrite lookup_insert_ne by done. apply H1. }
  destruct (Hlate s2 Hs2 H2). by destruct (NewTGBGraphReader _ _ _).
Qed.

(** A request writes the keys of its tree hash and of its graph. *)
Definition request_writes (so : Surroundings) (build : BuildDescription) (excludes : list bytes) (s s' : S) (key : bytes) : Prop :=
  st_contents s' !! key = st_contents s !! key \/
  (exists r t, hashed_by so build = [(r, build, t)] /\ st_contents s' !! key = Some t /\ key = key_of md5 (ForTreehash r build) /\
     sane (ForTreehash r build) /\ git_hash t) \/
  exists c b, computed_by so build excludes = [c] /\ encodes b c /\ st_contents s' !! key = Some b /\
    key = key_of md5 (ForGraph (gr_repositoryID c) (gr_treehash c) (bd_Strategy (gr_build c)) (gr_excludes c)) /\
    sane (ForGraph (gr_repositoryID c) (gr_treehash c) (bd_Strategy (gr_build c)) (gr_excludes c)).

Lemma orchestrate_effect cx so build excludes bypassCache s : st_ok s -> sane_request so build ->
  st_ok (orchestrate cx so build excludes bypassCache s).1.2 /\
  forall key, request_writes so build excludes s (orchestrate cx so build excludes bypassCache s).1.2 key.
Proof.
  intros Hs (Hr & Ht & Hb). unfold orchestrate, GetTargetGraph.
  destruct (so_repositoryID so) as [r|] eqn:Er; [|by split; [|left]]. destruct (so_lease so); [by split; [|left]|].
  unfold in_workspace. destruct (so_checkout so); [by split; [|left]|]. destruct (new_requests so _); [by split; [|left]|].
  destruct (so_apply so); [by split; [|left]|]. destruct (so_treehash so) as [t|e] eqn:Et; [|by split; [|left]].
  specialize (Hr r eq_refl). specialize (Ht t eq_refl). set (tgbPath := GetTGBGraphByTreeHash md5 r t (bd_Strategy build) excludes).
  assert (tgbPath <> GetTreehashCachePath md5 r build) as Hne by (by apply graph_key_not_treehash).
  destruct (compute_graph_effect cx so r t tgbPath build s Hs Hne) as [Hok Heff].
  destruct (compute_graph _ _ _ _ _ _ _ _ _ _ _ _ _ _ _ _ _ _) as [[a s1] ev]. cbn [fst snd] in *.
  assert (forall key, request_writes so build excludes s s1 key) as H1.
  { intros key. unfold request_writes, computed_by, hashed_by. rewrite Er, Et.
    destruct (Heff key) as [?|[[-> H]|(-> & result & chunks & b & Hc & Ech & Eb & Hl)]].
    - by left.
    - right. left. by exists r, t.
    - right. right. rewrite Hc. eexists _, b. split; [done|]. split; [by exists (cx_map cx), chunks|]. split; [done|]. by split. }
  destruct bypassCache; [by split|]. destruct (readCachedGraph _ _ _); (split; [done|]); first [exact H1|by left].
Qed.

Lemma graphs_computed_mono s s' log hashes : graphs_computed s log hashes -> st_ok s' ->
  (forall p, graph_key p \/ treehash_key p -> st_contents s' !! p = st_contents s !! p) -> graphs_computed s' log hashes.
Proof.
  intros H Hs E. split; [done| |].
  - intros r t st x b Hx. rewrite E by (left; by exists r, t, st, x). by apply H.
  - intros r build t Hx. rewrite E by (right; by exists r, build). by apply H.
Qed.

Lemma hashed_for_weaken hashes hashes' r t build : hashed_for hashes r t build -> hashed_for (hashes' ++ hashes) r t build.
Proof. intros (b & Hb & H). exists b. split; [apply elem_of_app; by right|done]. Qed.

Lemma history_computed s log hashes : graph_history s log hashes -> graphs_computed s log hashes.
Proof.
  induction 1 as [s Hs Hno|s log hashes cx so build excludes bypassCache _ IH Hsane|s log hashes ctx p r _ IH Hp Hp'].
  - split; [done| |].
    + intros r t st x b Hx. rewrite Hno; [done|]. left. by exists r, t, st, x.
    + intros r build t Hx. rewrite Hno; [done|]. right. by exists r, build.
  - destruct (orchestrate_effect cx so build excludes bypassCache s (gi_ok _ _ _ IH) Hsane) as [Hok Heff]. split; [done| |].
    + intros r t st x b Hx Hb.
      destruct (Heff (key_of md5 (ForGraph r t st x))) as [E|[(r' & t' & _ & _ & Ekey & Hsc & _)|(c & b' & Ec & Henc & E & Ekey & Hsc)]].
      * cbn [key_of] in E. rewrite E in Hb. destruct (gi_graphs _ _ _ IH r t st x b Hx Hb) as (c & Hc & Hrest).
        exists c. split; [apply elem_of_app; by right|done].
      * by apply (key_inputs_determined md5 md5_length _ _ Hx Hsc) in Ekey.
      * cbn [key_of] in E. rewrite E in Hb. injection Hb as ->. exists c. rewrite Ec. split; [by left|]. split; [|done].
        by apply (key_inputs_determined md5 md5_length _ _ Hsc Hx).
    + intros r build' t Hx Ht.
      destruct (Heff (key_of md5 (ForTreehash r build'))) as [E|[(r' & t' & Eh & E & Ekey & Hsc & Hg)|(c & b' & _ & _ & _ & Ekey & Hsc)]].
      * cbn [key_of] in E. rewrite E in Ht. by apply hashed_for_weaken, (gi_hashes _ _ _ IH).
      * cbn [key_of] in E. rewrite E in Ht. injection Ht as ->.
        pose proof (key_inputs_determined md5 md5_length _ _ Hsc Hx (eq_sym Ekey)) as Hsame. assert (r' = r) as -> by apply Hsame.
        exists build. rewrite Eh. split; [by left|done].
      * by apply (key_inputs_determined md5 md5_length _ _ Hx Hsc) in Ekey.
  - pose proof (st_put_ok ctx p r s (gi_ok _ _ _ IH)) as Hok. pose proof (st_put_spec ctx p r s (gi_ok _ _ _ IH)) as Hc.
    apply (graphs_computed_mono s); [done..|]. intros q Hq.
    destruct (st_put ctx p r s) as [[u|e|] s']; cbn [fst snd] in *; [|by rewrite Hc..].
    destruct Hc as (reads & -> & _ & ->). rewrite lookup_insert_ne; [done|]. intros ->. by destruct Hq.
Qed.

(** What the orchestrator returns it found in the storage, or stored. *)
Lemma orchestrate_result cx so build excludes bypassCache s r s' events : st_ok s -> sane_request so build ->
  orchestrate cx so build excludes bypassCache s = (inl r, s', events) ->
  exists repositoryID t b, so_repositoryID so = Some repositoryID /\ so_treehash so = inl t /\
    st_contents s' !! GetTGBGraphByTreeHash md5 repositoryID t (bd_Strategy build) excludes = Some b /\ NewReader b = Ok r.
Proof.
  intros Hs (Hr & Ht & Hb). unfold orchestrate, GetTargetGraph.
  destruct (so_repositoryID so) as [repositoryID|]; [|done]. destruct (so_lease so); [done|].
  unfold in_workspace. destruct (so_checkout so); [done|]. destruct (new_requests so _); [done|]. destruct (so_apply so); [done|].
  destruct (so_treehash so) as [t|e]; [|done]. specialize (Hr repositoryID eq_refl). specialize (Ht t eq_refl).
  set (tgbPath := GetTGBGraphByTreeHash md5 repositoryID t (bd_Strategy build) excludes).
  assert (tgbPath <> GetTreehashCachePath md5 repositoryID build) as Hne by (by apply graph_key_not_treehash).
  assert (forall ev, compute_graph env pieces md5 attribute_string range id_range maxMessageBytes (cx_map cx) (cx_cancelled cx) (cx_write cx) (cx_app cx)
    (cx_early cx) so repositoryID t tgbPath build s = (inl r, s', ev) ->
    exists b, st_contents s' !! tgbPath = Some b /\ NewReader b = Ok r) as Hcomp.
  { intros ev H. apply compute_graph_stored in H as (_ & result & chunks & b & _ & _ & _ & Hread & Hst); [|done..]. by exists b. }
  intros H. exists repositoryID, t. enough (exists b, st_contents s' !! tgbPath = Some b /\ NewReader b = Ok r) as (b & ? & ?) by (by exists b).
  destruct (compute_graph _ _ _ _ _ _ _ _ _ _ _ _ _ _ _ _ _ _) as [[a s1] ev].
  destruct bypassCache; [injection H as -> -> _; by apply (Hcomp ev)|].
  unfold readCachedGraph, NewTGBGraphReader in H.
  destruct (st_get_spec (cx_cancelled cx) tgbPath s Hs) as [E|(_ & e & E)]; rewrite E in H; [|done].
  destruct (st_contents s !! tgbPath) as [b|] eqn:El; [|injection H as -> -> _; by apply (Hcomp ev)].
  destruct (NewReader b) as [r'|e|] eqn:Eb; [|injection H as -> -> _; by apply (Hcomp ev)|done].
  injection H as -> -> _. by exists b.
Qed.
End history.

(** * Properties *)

(** C13: A graph that is served is one that was computed for what was asked.  Through any
    history of requests and of other uses of the storage, a graph that [getGraph] returns,
    from the cache or from the orchestrator, is the encoding of a result that a graph
    runner returned for the same repository, strategy and exclusions, and for a tree hash
    that git reported for the same base commit and change requests (up to collisions of
    MD5). *)
Theorem served_graph_was_computed {S : Type} {storage : Storage S} {laws : StorageLaws S} (env : encode_env)
    (pieces : bytes -> list bytes) (md5 : bytes -> bytes) (attribute_string : Z) (range : gmap bytes Z -> list (bytes * Z))
    (id_range : gmap Z bytes -> list (Z * bytes)) (maxMessageBytes : Z) (s s' : S) (log : list graph_computation)
    (hashes : list (bytes * BuildDescription * bytes)) (cancelled : bool) (body : option string) (looked cause : option gerror)
    (cx : contexts) (so : Surroundings) (repositoryID : bytes) (build : BuildDescription) (excludes : list bytes) (bypassCache : bool)
    (r : Reader) (events : list event) :
  (forall b, concat (pieces b) = b) -> (forall written, length (md5 written) = 16%nat) ->
  graph_history env pieces md5 attribute_string range id_range maxMessageBytes s log hashes ->
  sane_request so build -> so_repositoryID so = Some repositoryID ->
  getGraph md5 cancelled body looked cause
    (orchestrate env pieces md5 attribute_string range id_range maxMessageBytes cx so build excludes bypassCache)
    repositoryID build excludes bypassCache s = (inl r, s', events) ->
  exists t c b, c ∈ computed_by so build excludes ++ log /\ computed_for md5 c repositoryID t (bd_Strategy build) excludes /\
    encodes env attribute_string range id_range maxMessageBytes b c /\ NewReader b = Ok r /\
    hashed_for md5 (hashed_by so build ++ hashes) repositoryID t build.
Proof.
  intros Hp Hmd5 Hh Hsane Hrepo H. pose proof Hsane as (Hr & Ht & Hb). specialize (Hr repositoryID Hrepo).
  pose proof (history_computed env pieces md5 attribute_string range id_range maxMessageBytes Hp Hmd5 s log hashes Hh) as Hinv.
  pose proof (gi_ok _ _ _ _ _ _ _ _ _ Hinv) as Hs. set (o := orchestrate _ _ _ _ _ _ _ _ _ _ _ _) in H.
  assert (match o s with (inl r, s, events) => (@inl Reader gerror r, s, events) | (inr e, s, events) => (inr (wrap "get target graph: " (default e cause)), s, events) end
    = (inl r, s', events) -> exists t c b, c ∈ computed_by so build excludes ++ log /\ computed_for md5 c repositoryID t (bd_Strategy build) excludes /\
    encodes env attribute_string range id_range maxMessageBytes b c /\ NewReader b = Ok r /\
    hashed_for md5 (hashed_by so build ++ hashes) repositoryID t build) as Hcomp.
  { intros Ho. assert (o s = (inl r, s', events)) as Eo by (by destruct (o s) as [[[]]]). clear Ho.
    apply (orchestrate_result env pieces md5 attribute_string range id_range maxMessageBytes Hp Hmd5) in Eo as Hres; [|done..].
    destruct Hres as (repo & t & b & Er & Et & Hl & Hread). rewrite Hrepo in Er. injection Er as <-.
    pose proof (history_computed env pieces md5 attribute_string range id_range maxMessageBytes Hp Hmd5 _ _ _
      (gh_request env pieces md5 attribute_string range id_range maxMessageBytes s log hashes cx so build excludes bypassCache Hh Hsane)) as Hinv'.
    fold o in Hinv'. rewrite Eo in Hinv'. cbn [fst snd] in Hinv'.
    destruct (gi_graphs _ _ _ _ _ _ _ _ _ Hinv' repositoryID t (bd_Strategy build) excludes b) as (c & Hc & Hfor & Henc); [by split; auto|done|].
    exists t, c, b. split_and!; [done..|]. exists build. unfold hashed_by. rewrite Hrepo, Et. split; [by left|]. split; [by auto|]. split_and!; auto. }
  unfold getGraph in H. destruct bypassCache; [by apply Hcomp|].
  destruct (st_get_spec cancelled (GetTreehashCachePath md5 repositoryID build) s Hs) as [E|(_ & e & E)]; rewrite E in H; [|done].
  destruct (st_contents s !! GetTreehashCachePath md5 repositoryID build) as [t|] eqn:Et; [|by apply Hcomp].
  destruct body; [done|]. unfold controller_readCachedGraph, NewTGBGraphReader in H.
  destruct (st_get_spec cancelled (GetTGBGraphByTreeHash md5 repositoryID t (bd_Strategy build) excludes) s Hs) as [E'|(_ & e & E')]; rewrite E' in H.
  2:{ by destruct looked. }
  destruct (st_contents s !! GetTGBGraphByTreeHash md5 repositoryID t (bd_Strategy build) excludes) as [b|] eqn:Eb.
  2:{ destruct looked; [done|by apply Hcomp]. }
  destruct (NewReader b) as [r'|e|] eqn:Er; [|by destruct looked..]. destruct looked; [done|]. injection H as -> <- _.
  pose proof (gi_hashes _ _ _ _ _ _ _ _ _ Hinv repositoryID build t (conj Hr Hb) Et) as Hh'.
  pose proof Hh' as (build' & _ & Hg & _).
  destruct (gi_graphs _ _ _ _ _ _ _ _ _ Hinv repositoryID t (bd_Strategy build) excludes b (conj Hr Hg) Eb) as (c & Hc & Hfor & Henc).
  exists t, c, b. split_and!; [apply elem_of_app; by right|done..|by apply hashed_for_weaken].
Qed.

(** C14: A corrupt graph is not computed again.  [ErrCorruptTGB] asks its callers to treat a
    corrupt blob as a cache miss, and the orchestrator does; the controller, whose lookup
    comes first, returns it as an error.  While the tree hash of a request and a corrupt
    graph for it are stored, each request that may use the cache fails without a call of
    the orchestrator, which would have computed the graph and replaced the blob. *)
Theorem corrupt_graph_not_recomputed {S : Type} {storage : Storage S} {laws : StorageLaws S} (env : encode_env)
    (pieces : bytes -> list bytes) (md5 : bytes -> bytes) (attribute_string : Z) (range : gmap bytes Z -> list (bytes * Z))
    (id_range : gmap Z bytes -> list (Z * bytes)) (maxMessageBytes : Z) (s : S) (cx : contexts)
    (repositoryID treehash blob : bytes) (build : BuildDescription) (excludes : list bytes) (e : string) :
  st_ok s -> st_contents s !! GetTreehashCachePath md5 repositoryID build = Some treehash ->
  st_contents s !! GetTGBGraphByTreeHash md5 repositoryID treehash (bd_Strategy build) excludes = Some blob -> NewReader blob = Err e ->
  (forall cause orchestrate, getGraph md5 false None None cause orchestrate repositoryID build excludes false s =
    (inr (from_msg "graph reader: " e), s, [])) /\
  (forall so result, so_repositoryID so = Some repositoryID -> so_lease so = None -> so_checkout so = None ->
    new_requests so (bd_ChangeRequests build) = None -> so_apply so = None -> so_treehash so = inl treehash ->
    new_runner so (bd_Strategy build) = None -> so_compute so = inl result -> cx_cancelled cx = false ->
    Computed ∈ (orchestrate env pieces md5 attribute_string range id_range maxMessageBytes cx so build excludes false s).2).
Proof.
  intros Hs Ht Hb He. split.
  - intros cause o. unfold getGraph, controller_readCachedGraph, NewTGBGraphReader. by rewrite !st_get_false, Ht, st_get_false, Hb, He.
  - intros so result H1 H2 H3 H4 H5 H6 H7 H8 Hc. unfold orchestrate, GetTargetGraph, in_workspace. rewrite H1, H2, H3, H4, H5, H6.
    unfold readCachedGraph, NewTGBGraphReader. rewrite Hc, st_get_false, Hb, He by done. unfold compute_graph. rewrite H7, H8.
    destruct (ResultToGraphChunks _ _ _ _ _ _); [|right; by left..]. destruct (WriteTGBGraph _ _ _ _ _ _) as [[u|e'|] s2]; [|right; by left..].
    unfold NewTGBGraphReader. destruct (st_get _ _ _) as [[d|]| |]; [|right; by left..]. destruct (NewReader d); right; by left.
Qed.

(** * Examples *)

Definition gone : Surroundings := calm (inr (plain_error "bazel is gone")).
Definition usual : contexts :=
  {| cx_map := fun _ => false; cx_cancelled := false; cx_write := fun _ => false; cx_app := fun _ => false; cx_early := true |}.
Definition sample_orchestrate (so : Surroundings) (bypassCache : bool) (s : gmap bytes bytes) : run (gmap bytes bytes) :=
  @orchestrate _ memory toy_env whole short_md5 2 map_to_list map_to_list 100 usual so sample_build [] bypassCache s.
Definition sample_get (s : gmap bytes bytes) : run (gmap bytes bytes) :=
  @getGraph _ memory short_md5 false None None None (sample_orchestrate gone false) (bs "tango") sample_build [] false s.

Lemma sample_sane compute : sane_request (calm compute) sample_build.
Proof. split; [|split]; [intros r [= <-]|intros t [= <-]|]; decided. Qed.

Lemma run_parts {A B C : Type} (x : A * B * C) : x = (x.1.1, x.1.2, x.2).
Proof. by destruct x as [[? ?] ?]. Qed.

Lemma served_graph_was_computed_witness : exists r c, (sample_get first_run.1.2).1.1 = inl r /\ (sample_get first_run.1.2).2 = [] /\
  gr_result c = no_targets /\ exists b, encodes toy_env 2 map_to_list map_to_list 100 b c /\ NewReader b = Ok r.
Proof.
  assert (exists r, (sample_get first_run.1.2).1.1 = inl r) as [r Hr] by (vm_compute; eexists; reflexivity).
  assert ((sample_get first_run.1.2).2 = []) as He by (vm_compute; reflexivity).
  assert (forall w, length (short_md5 w) = 16%nat) as Hmd5.
  { intros w. unfold short_md5. rewrite length_take, length_app, length_replicate. lia. }
  pose proof (@gh_request _ memory toy_env whole short_md5 2 map_to_list map_to_list 100 ∅ [] [] usual (calm (inl no_targets)) sample_build [] true
    (@gh_init _ memory toy_env whole short_md5 2 map_to_list map_to_list 100 ∅ Logic.I (fun p _ => lookup_empty p)) (sample_sane _)) as Hh.
  destruct (@served_graph_was_computed _ memory (memory_laws _ (fun m => reflexivity _)) toy_env whole short_md5 2 map_to_list map_to_list 100
    first_run.1.2 (sample_get first_run.1.2).1.2 _ _ false None None None usual gone (bs "tango") sample_build [] false r
    (sample_get first_run.1.2).2 (fun b => app_nil_r b) Hmd5 Hh (sample_sane _)) as (t & c & b & Hc & _ & Henc & Hread & _).
  - reflexivity.
  - rewrite <- Hr. exact (run_parts (sample_get first_run.1.2)).
  - exists r, c. split; [exact Hr|]. split; [exact He|]. split; [|exists b; split; [exact Henc|exact Hread]].
    apply list_elem_of_singleton in Hc. rewrite Hc. reflexivity.
Defined.

(** The tree hash of the request, and a blob that is no graph. *)
Definition corrupted : gmap bytes bytes :=
  <[GetTGBGraphByTreeHash short_md5 (bs "tango") (bs "12ab") ComputationStrategyNative [] := bs "not-a-tgb-blob"]>
    {[GetTreehashCachePath short_md5 (bs "tango") sample_build := bs "12ab"]}.

Lemma corrupt_graph_not_recomputed_witness : exists e, sample_get corrupted = (inr e, corrupted, []) /\
  Computed ∈ (sample_orchestrate (calm (inl no_targets)) false corrupted).2.
Proof.
  assert (exists e, NewReader (bs "not-a-tgb-blob") = Err e) as [e He] by (vm_compute; eexists; reflexivity).
  destruct (@corrupt_graph_not_recomputed _ memory (memory_laws _ (fun m => reflexivity _)) toy_env whole short_md5 2 map_to_list map_to_list 100
    corrupted usual (bs "tango") (bs "12ab") (bs "not-a-tgb-blob") sample_build [] e Logic.I) as [H1 H2].
  - vm_compute. reflexivity.
  - vm_compute. reflexivity.
  - exact He.
  - eexists. split; [exact (H1 None _)|]. by apply (H2 (calm (inl no_targets)) no_targets).
Defined.
