(* ===== verification/RepoPool.v ===== *)
(** The pools of worker clones ([core/repomanager/repo_manager.go]) and the release of a
    workspace ([core/workspace/workspace.go]): concurrent leases as a step function on
    actions, with the outcomes of git and of the file system in the actions. *)
From Stdlib Require Import ZArith Lia.
From stdpp Require Import gmap list relations.
From S2P Require Import Prelude Text GraphStore Config.

Local Open Scope Z_scope.

(** * The pools *)

Record workerSlot := { ws_dir : bytes; ws_created : bool }.

(** The channel [avail] holds pointers to slots. *)
Record workerPool := { wp_originDir : bytes; wp_cloned : bool; wp_slots : list workerSlot; wp_avail : list nat }.

(** A call of [Lease], and what it does with its workspace. *)
Inductive client :=
  | Preparing (repo : bytes)  (** in [ensureOrigin] *)
  | Waiting (repo : bytes)  (** at the [select] *)
  | Taken (repo : bytes) (slot : nat)
  | Creating (repo : bytes) (slot : nat) (restoreErr : option gerror)
  | Leased (repo : bytes) (slot : nat)
  | Released
  | LeaseFailed (e : gerror).

Record repoManager := { rm_pools : gmap bytes workerPool; rm_clients : gmap nat client }.

Definition set_pool (repo : bytes) (p : workerPool) (s : repoManager) : repoManager :=
  {| rm_pools := <[repo := p]> (rm_pools s); rm_clients := rm_clients s |}.
Definition set_client (c : nat) (cl : client) (s : repoManager) : repoManager :=
  {| rm_pools := rm_pools s; rm_clients := <[c := cl]> (rm_clients s) |}.
Definition set_avail (avail : list nat) (p : workerPool) : workerPool :=
  {| wp_originDir := wp_originDir p; wp_cloned := wp_cloned p; wp_slots := wp_slots p; wp_avail := avail |}.
Definition set_created (slot : nat) (created : bool) (p : workerPool) : workerPool :=
  {| wp_originDir := wp_originDir p; wp_cloned := wp_cloned p;
     wp_slots := alter (fun s => {| ws_dir := ws_dir s; ws_created := created |}) slot (wp_slots p); wp_avail := wp_avail p |}.

Section manager.
Context (config : Config) (clonePath : bytes) (poolSize : nat).

Definition worker_dir (repo : bytes) (i : nat) : bytes :=
  let workersDir := Join [clonePath; bs ".workers"; repo] in
  Join [workersDir; bs "worker-" ++ itoa (Z.of_nat (S i))].

Lemma worker_dir_kept repo i : head clonePath = Some slash -> plain repo ->
  kept (worker_dir repo i) = kept clonePath ++ bs ".workers" :: split_on slash repo ++ [bs "worker-" ++ itoa (Z.of_nat (S i))].
Proof.
  intros Hc Hr. unfold worker_dir. set (name := bs "worker-" ++ itoa (Z.of_nat (S i))).
  assert (normal name) as Hname.
  { unfold name. split_and!; [done| |done|done]. rewrite not_elem_of_app. split; [decided|]. by apply itoa_free. }
  assert (plain (bs ".workers" ++ slash :: repo)) as Hp.
  { unfold plain. rewrite split_on_app. apply Forall_app. split; [decided|done]. }
  assert (Join [clonePath; bs ".workers"; repo] = Clean (clonePath ++ slash :: bs ".workers" ++ slash :: repo)) as ->.
  { unfold Join. by destruct clonePath. }
  set (path := clonePath ++ slash :: bs ".workers" ++ slash :: repo).
  assert (head path = Some slash) as Hh by (unfold path; by destruct clonePath).
  assert (Join [Clean path; name] = Clean (Clean path ++ slash :: name)) as ->.
  { unfold Join. by rewrite (Clean_rooted path). }
  rewrite kept_Clean by (by rewrite (Clean_rooted path)). rewrite kept_app by (by apply normal_plain).
  rewrite kept_Clean by done. unfold path. rewrite kept_app by done. rewrite split_on_app, (split_on_free slash name) by apply Hname.
  by rewrite <- !app_assoc.
Qed.

(** Workers of different repositories, or with different numbers, have different directories. *)
Lemma worker_dir_inj repo i repo' i' : head clonePath = Some slash -> plain repo -> plain repo' ->
  Z.of_nat (S i) < 2^63 -> Z.of_nat (S i') < 2^63 -> worker_dir repo i = worker_dir repo' i' -> repo = repo' /\ i = i'.
Proof.
  intros Hc Hr Hr' Hi Hi' E. apply (f_equal kept) in E. rewrite !worker_dir_kept in E by done. apply app_inv_head in E. injection E as E.
  apply app_inj_tail in E as [E1 E2]. injection E2 as E2. apply itoa_inj in E2; [|lia..].
  split; [|lia]. by rewrite <- (join_with_split slash repo), E1, join_with_split.
Qed.

(** [poolFor]; [has_git] tells the directories with a clone of a previous run. *)
Definition new_pool (has_git : bytes -> bool) (repo : bytes) : workerPool :=
  {| wp_originDir := Join [clonePath; repo]; wp_cloned := false;
     wp_slots := (fun i => {| ws_dir := worker_dir repo i; ws_created := has_git (worker_dir repo i) |}) <$> seq 0 poolSize;
     wp_avail := seq 0 poolSize |}.

Definition poolFor (has_git : bytes -> bool) (repo : bytes) (s : repoManager) : repoManager :=
  match rm_pools s !! repo with
  | Some _ => s
  | None => set_pool repo (new_pool has_git repo) s
  end.

(** What [ensureOrigin] finds and what its calls return. *)
Record origin_calls := { og_exists : bool; og_mkdir : option gerror; og_clone : option gerror }.

Definition ensureOrigin (o : origin_calls) (p : workerPool) : option gerror * workerPool :=
  let cloned := {| wp_originDir := wp_originDir p; wp_cloned := true; wp_slots := wp_slots p; wp_avail := wp_avail p |} in
  if wp_cloned p then (None, p)
  else if og_exists o then (None, cloned)
  else
    match og_mkdir o, og_clone o with
    | Some e, _ => (Some (wrap "mkdir origin dir: " e), p)
    | None, Some e => (Some (wrap "clone origin: " e), p)
    | None, None => (None, cloned)
    end.

(** The calls of [createWorker]. *)
Record create_calls := { cr_remove : option gerror; cr_mkdir : option gerror; cr_clone : option gerror }.

Definition createWorker (o : create_calls) : option gerror :=
  match cr_remove o with
  | Some e => Some (wrap "remove previous worker: " e)
  | None => match cr_mkdir o with Some e => Some e | None => cr_clone o end
  end.

(** [pool.avail <- slot], which blocks when the channel is full. *)
Definition push (slot : nat) (p : workerPool) : option workerPool :=
  if decide (length (wp_avail p) < poolSize)%nat then Some (set_avail (wp_avail p ++ [slot]) p) else None.

(** * Steps *)

Inductive action :=
  | Call (c : nat) (remote : bytes) (has_git : bytes -> bool)
  | Origin (c : nat) (o : origin_calls)
  | Take (c : nat)
  | GiveUp (c : nat) (deadline : bool) (cause : gerror)
  | Restore (c : nat) (err : option gerror)
  | Create (c : nat) (o : create_calls)
  | Release (c : nat).

(** One step of the call [c] of [Lease], or of [Release] of its workspace; [None] when it is
    not there, or blocks. *)
Definition act (a : action) (s : repoManager) : option repoManager :=
  match a with
  | Call c remote has_git =>
      match rm_clients s !! c with
      | Some _ => None
      | None =>
          match GetRepositoryConfig config remote with
          | None => Some (set_client c (LeaseFailed (plain_error "repository remote %q is not configured")) s)
          | Some repoCfg => Some (set_client c (Preparing (rc_RepositoryID repoCfg)) (poolFor has_git (rc_RepositoryID repoCfg) s))
          end
      end
  | Origin c o =>
      match rm_clients s !! c with
      | Some (Preparing repo) =>
          pool ← rm_pools s !! repo;
          let '(err, pool) := ensureOrigin o pool in
          Some (set_client c (match err with Some e => LeaseFailed (wrap "ensure origin: " e) | None => Waiting repo end) (set_pool repo pool s))
      | _ => None
      end
  | Take c =>
      match rm_clients s !! c with
      | Some (Waiting repo) =>
          pool ← rm_pools s !! repo;
          match wp_avail pool with
          | slot :: avail => Some (set_client c (Taken repo slot) (set_pool repo (set_avail avail pool) s))
          | [] => None
          end
      | _ => None
      end
  | GiveUp c deadline cause =>
      match rm_clients s !! c with
      | Some (Waiting repo) =>
          Some (set_client c (LeaseFailed
            (if deadline then {| ge_code := None; ge_is := Some PoolTimeout; ge_msg := "worker pool timeout" |}
             else wrap "pool for repo %s: " cause)) s)
      | _ => None
      end
  | Restore c err =>
      match rm_clients s !! c with
      | Some (Taken repo slot) =>
          pool ← rm_pools s !! repo;
          worker ← wp_slots pool !! slot;
          if ws_created worker then
            match err with
            | None => Some (set_client c (Leased repo slot) s)
            | Some e => Some (set_client c (Creating repo slot (Some e)) (set_pool repo (set_created slot false pool) s))
            end
          else Some (set_client c (Creating repo slot None) s)
      | _ => None
      end
  | Create c o =>
      match rm_clients s !! c with
      | Some (Creating repo slot restoreErr) =>
          pool ← rm_pools s !! repo;
          match createWorker o with
          | None => Some (set_client c (Leased repo slot) (set_pool repo (set_created slot true pool) s))
          | Some e =>
              pool ← push slot pool;
              Some (set_client c (LeaseFailed (match restoreErr with
                 | Some _ => wrap "restore worker failed (%v); recreate worker: " e
                 | None => wrap "create worker: " e end)) (set_pool repo pool s))
          end
      | _ => None
      end
  | Release c =>
      match rm_clients s !! c with
      | Some (Leased repo slot) =>
          pool ← rm_pools s !! repo;
          pool ← push slot pool;
          Some (set_client c Released (set_pool repo pool s))
      | Some Released => Some s
      | _ => None
      end
  end.

Definition lease_step (s s' : repoManager) : Prop := exists a, act a s = Some s'.
Definition no_pools : repoManager := {| rm_pools := ∅; rm_clients := ∅ |}.
Definition lease_reachable (s : repoManager) : Prop := rtc lease_step no_pools s.

(** The actions of a schedule, one after the other. *)
Definition schedule (actions : list action) (s : repoManager) : option repoManager :=
  foldl (fun s a => s ← s; act a s) (Some s) actions.

(** * Every slot is in the channel or with one call *)

Definition client_slot (cl : client) : option (bytes * nat) :=
  match cl with Taken r i | Creating r i _ | Leased r i => Some (r, i) | _ => None end.
Definition client_repo (cl : client) : option bytes :=
  match cl with Preparing r | Waiting r | Taken r _ | Creating r _ _ | Leased r _ => Some r | _ => None end.

Definition slot_in (repo : bytes) (cl : option client) : list nat :=
  match cl ≫= client_slot with Some (r, i) => if decide (r = repo) then [i] else [] | None => [] end.
Definition held (repo : bytes) (clients : gmap nat client) : list nat :=
  map_to_list clients ≫= fun x => slot_in repo (Some x.2).

Record pool_ok (repo : bytes) (p : workerPool) (clients : gmap nat client) : Prop := {
  po_slots : (ws_dir <$> wp_slots p) = worker_dir repo <$> seq 0 poolSize;
  po_tokens : wp_avail p ++ held repo clients ≡ₚ seq 0 poolSize;
}.

Record manager_ok (s : repoManager) : Prop := {
  mo_pools : forall repo p, rm_pools s !! repo = Some p -> pool_ok repo p (rm_clients s);
  mo_clients : forall c cl repo, rm_clients s !! c = Some cl -> client_repo cl = Some repo -> is_Some (rm_pools s !! repo);
}.

Lemma client_slot_repo cl r i : client_slot cl = Some (r, i) -> client_repo cl = Some r.
Proof. destruct cl; cbn; congruence. Qed.

Lemma held_insert repo c cl clients : held repo (<[c := cl]> clients) ≡ₚ slot_in repo (Some cl) ++ held repo (delete c clients).
Proof.
  unfold held. rewrite <- insert_delete_eq, map_to_list_insert by apply lookup_delete_eq. done.
Qed.

Lemma held_lookup repo c clients : held repo clients ≡ₚ slot_in repo (clients !! c) ++ held repo (delete c clients).
Proof.
  destruct (clients !! c) as [cl|] eqn:E.
  - rewrite <- held_insert. by rewrite insert_id.
  - by rewrite delete_id.
Qed.

Lemma elem_of_held repo i clients : i ∈ held repo clients <-> exists c cl, clients !! c = Some cl /\ client_slot cl = Some (repo, i).
Proof.
  unfold held. rewrite list_elem_of_bind. split.
  - intros ([c cl] & Hi & Hc). apply elem_of_map_to_list in Hc.
    exists c, cl. split; [done|]. unfold slot_in in Hi. cbn in Hi. destruct (client_slot cl) as [[r j]|]; [|by apply elem_of_nil in Hi].
    case_decide; [|by apply elem_of_nil in Hi]. apply list_elem_of_singleton in Hi. by subst.
  - intros (c & cl & Hc & Hs). exists (c, cl). split; [|by apply elem_of_map_to_list].
    unfold slot_in. cbn. rewrite Hs, decide_True by done. by left.
Qed.

(** A step of one call that moves at most one slot between it and the channel. *)
Lemma manager_ok_change s c cl repo p p' : manager_ok s -> rm_pools s !! repo = Some p ->
  ws_dir <$> wp_slots p' = ws_dir <$> wp_slots p ->
  wp_avail p' ++ slot_in repo (Some cl) ≡ₚ wp_avail p ++ slot_in repo (rm_clients s !! c) ->
  (forall r, r <> repo -> slot_in r (Some cl) = slot_in r (rm_clients s !! c)) ->
  (forall r, client_repo cl = Some r -> r = repo) ->
  manager_ok (set_client c cl (set_pool repo p' s)).
Proof.
  intros [Hp Hc] Hl Hd Ht Hr Hcl. split; cbn.
  - intros r q. destruct (decide (r = repo)) as [->|Hne].
    + rewrite lookup_insert_eq. intros [= <-]. destruct (Hp repo p Hl) as [H1 H2]. split; [by rewrite Hd|].
      rewrite <- H2, held_insert, (held_lookup repo c (rm_clients s)), !app_assoc. by rewrite Ht.
    + rewrite lookup_insert_ne by done. intros Hq. destruct (Hp r q Hq) as [H1 H2]. split; [done|].
      rewrite <- H2, held_insert, (held_lookup r c (rm_clients s)). by rewrite Hr.
  - intros c' cl' r. destruct (decide (c' = c)) as [->|Hne].
    + rewrite lookup_insert_eq. intros [= <-] Hr'. apply Hcl in Hr' as ->. rewrite lookup_insert_eq. by eexists.
    + rewrite lookup_insert_ne by done. intros H1 H2. destruct (Hc c' cl' r H1 H2) as [q Hq].
      destruct (decide (r = repo)) as [->|?]; [rewrite lookup_insert_eq; by eexists|rewrite lookup_insert_ne by done; by eexists].
Qed.

(** A step that leaves the pools alone. *)
Lemma manager_ok_client s c cl : manager_ok s -> (forall r, slot_in r (Some cl) = slot_in r (rm_clients s !! c)) ->
  (forall r, client_repo cl = Some r -> is_Some (rm_pools s !! r)) -> manager_ok (set_client c cl s).
Proof.
  intros [Hp Hc] Hs Hr. split; cbn.
  - intros r q Hq. destruct (Hp r q Hq) as [H1 H2]. split; [done|].
    rewrite <- H2, held_insert, (held_lookup r c (rm_clients s)). by rewrite Hs.
  - intros c' cl' r. destruct (decide (c' = c)) as [->|Hne].
    + rewrite lookup_insert_eq. intros [= <-]. apply Hr.
    + rewrite lookup_insert_ne by done. apply Hc.
Qed.

Lemma poolFor_ok has_git repo s : manager_ok s -> manager_ok (poolFor has_git repo s) /\ is_Some (rm_pools (poolFor has_git repo s) !! repo) /\
  rm_clients (poolFor has_git repo s) = rm_clients s.
Proof.
  intros [Hp Hc]. unfold poolFor. destruct (rm_pools s !! repo) as [p|] eqn:E; [split_and!; [by split|by eexists|done]|].
  split_and!; [|cbn; rewrite lookup_insert_eq; by eexists|done]. split; cbn.
  - intros r q. destruct (decide (r = repo)) as [->|Hne]; [|rewrite lookup_insert_ne by done; apply Hp].
    rewrite lookup_insert_eq. intros [= <-]. split; [cbn; by rewrite <- list_fmap_compose|].
    assert (held repo (rm_clients s) = []) as ->; [|by rewrite app_nil_r].
    destruct (held repo (rm_clients s)) as [|i l] eqn:Eh; [done|].
    assert (i ∈ held repo (rm_clients s)) as Hi by (rewrite Eh; by left). apply elem_of_held in Hi as (c & cl & H1 & H2).
    destruct (Hc c cl repo H1) as [q Hq]; [by apply (client_slot_repo _ _ i)|congruence].
  - intros c cl r H1 H2. destruct (Hc c cl r H1 H2) as [q Hq].
    destruct (decide (r = repo)) as [->|?]; [rewrite lookup_insert_eq; by eexists|rewrite lookup_insert_ne by done; by eexists].
Qed.

Lemma set_created_dirs slot created p : ws_dir <$> wp_slots (set_created slot created p) = ws_dir <$> wp_slots p.
Proof.
  apply list_eq. intros j. cbn. rewrite !list_lookup_fmap. destruct (decide (j = slot)) as [->|Hne].
  - rewrite list_lookup_alter_eq. by destruct (wp_slots p !! slot).
  - by rewrite list_lookup_alter_ne.
Qed.

Lemma push_eq slot p p' : push slot p = Some p' -> p' = set_avail (wp_avail p ++ [slot]) p.
Proof. unfold push. case_decide; [|done]. by intros [= <-]. Qed.

Lemma slot_in_none r cl : client_slot cl = None -> slot_in r (Some cl) = [].
Proof. intros E. unfold slot_in. cbn. by rewrite E. Qed.

(** Giving a slot back. *)
Lemma manager_ok_push s c cl cl' repo slot p p' : manager_ok s -> rm_clients s !! c = Some cl -> client_slot cl = Some (repo, slot) ->
  rm_pools s !! repo = Some p -> push slot p = Some p' -> client_slot cl' = None -> client_repo cl' = None ->
  manager_ok (set_client c cl' (set_pool repo p' s)).
Proof.
  intros H E Es Hl ->%push_eq En Er. apply (manager_ok_change s c _ repo p _ H Hl); [done| | |by rewrite Er].
  - rewrite E, slot_in_none by done. unfold slot_in. cbn. rewrite Es, decide_True by done. by rewrite app_nil_r.
  - intros r Hr. rewrite E, slot_in_none by done. unfold slot_in. cbn. by rewrite Es, decide_False.
Qed.

Lemma act_ok a s s' : manager_ok s -> act a s = Some s' -> manager_ok s'.
Proof.
  intros H. pose proof H as [Hp Hc]. destruct a as [c remote has_git|c o|c|c deadline cause|c err|c o|c]; cbn [act].
  - destruct (rm_clients s !! c) eqn:E; [done|]. destruct (GetRepositoryConfig config remote) as [repoCfg|]; intros [= <-].
    + destruct (poolFor_ok has_git (rc_RepositoryID repoCfg) s H) as (H1 & H2 & H3). apply manager_ok_client; [done|by rewrite H3, E|].
      cbn. by intros r [= <-].
    + apply manager_ok_client; [done|by rewrite E|done].
  - destruct (rm_clients s !! c) as [[repo| | | | | |]|] eqn:E; try done. intros (p & Hl & H')%bind_Some.
    destruct (ensureOrigin o p) as [err p'] eqn:Eo. injection H' as <-.
    assert (wp_slots p' = wp_slots p /\ wp_avail p' = wp_avail p) as [E1 E2].
    { unfold ensureOrigin in Eo. destruct (wp_cloned p), (og_exists o), (og_mkdir o), (og_clone o); by injection Eo as <- <-. }
    apply (manager_ok_change s c _ repo p p' H Hl); [by rewrite E1| | |].
    + by rewrite E2, E; destruct err.
    + rewrite E. by destruct err.
    + destruct err; [done|]. by intros r [= <-].
  - destruct (rm_clients s !! c) as [[|repo| | | | |]|] eqn:E; try done. intros (p & Hl & H')%bind_Some.
    destruct (wp_avail p) as [|slot avail] eqn:Ea; [done|]. injection H' as <-.
    apply (manager_ok_change s c _ repo p _ H Hl); [done| | |].
    + rewrite E, Ea. unfold slot_in. cbn. rewrite decide_True by done. rewrite app_nil_r. by rewrite <- Permutation_cons_append.
    + intros r Hr. rewrite E. unfold slot_in. cbn. by rewrite decide_False.
    + by intros r [= <-].
  - destruct (rm_clients s !! c) as [[|repo| | | | |]|] eqn:E; try done. intros [= <-].
    apply manager_ok_client; [done|by rewrite E|done].
  - destruct (rm_clients s !! c) as [[| |repo slot| | | |]|] eqn:E; try done. intros (p & Hl & (w & Hw & H')%bind_Some)%bind_Some.
    pose proof (Hc c _ repo E eq_refl) as Hrepo.
    destruct (ws_created w); [destruct err as [e|]|]; injection H' as <-.
    + apply (manager_ok_change s c _ repo p _ H Hl); [|by rewrite E|by rewrite E|by intros r [= <-]].
      apply set_created_dirs.
    + apply manager_ok_client; [done|by rewrite E|by intros r [= <-]].
    + apply manager_ok_client; [done|by rewrite E|by intros r [= <-]].
  - destruct (rm_clients s !! c) as [[| | |repo slot restoreErr| | |]|] eqn:E; try done. intros (p & Hl & H')%bind_Some.
    destruct (createWorker o) as [e|].
    + apply bind_Some in H' as (p' & Hp' & [= <-]). by eapply manager_ok_push.
    + injection H' as <-. apply (manager_ok_change s c _ repo p _ H Hl); [apply set_created_dirs|by rewrite E|by rewrite E|by intros r [= <-]].
  - destruct (rm_clients s !! c) as [[| | | |repo slot| |]|] eqn:E; try done; [|by intros [= <-]].
    intros (p & Hl & (p' & Hp' & [= <-])%bind_Some)%bind_Some. by eapply manager_ok_push.
Qed.

(** The other slots leave room for a slot that is held. *)
Lemma push_room s c cl repo slot p : manager_ok s -> rm_clients s !! c = Some cl -> client_slot cl = Some (repo, slot) ->
  rm_pools s !! repo = Some p -> push slot p = Some (set_avail (wp_avail p ++ [slot]) p).
Proof.
  intros [Hp _] E Es Hl. destruct (Hp repo p Hl) as [_ Ht]. rewrite (held_lookup repo c), E in Ht. unfold slot_in in Ht. cbn in Ht.
  rewrite Es, decide_True in Ht by done. apply Permutation_length in Ht. rewrite !length_app, length_seq in Ht. cbn in Ht.
  unfold push. rewrite decide_True by lia. done.
Qed.

(** A slot is with one call. *)
Lemma held_once s c c' cl cl' repo slot : manager_ok s -> rm_clients s !! c = Some cl -> rm_clients s !! c' = Some cl' ->
  client_slot cl = Some (repo, slot) -> client_slot cl' = Some (repo, slot) -> c = c'.
Proof.
  intros [Hp Hc] E E' Es Es'. destruct (decide (c = c')) as [|Hne]; [done|exfalso].
  destruct (Hc c cl repo E) as [p Hl]; [by apply (client_slot_repo _ _ slot)|]. destruct (Hp repo p Hl) as [_ Ht].
  pose proof (NoDup_seq 0 poolSize) as Hnd. rewrite <- Ht, (held_lookup repo c), E in Hnd. unfold slot_in at 1 in Hnd. cbn in Hnd.
  rewrite Es, decide_True in Hnd by done. apply NoDup_app in Hnd as (_ & _ & [Hn _]%NoDup_cons). apply Hn.
  apply elem_of_held. exists c', cl'. by rewrite lookup_delete_ne.
Qed.

(** A slot that no call has is in the channel. *)
Lemma free_or_held s repo p slot : manager_ok s -> rm_pools s !! repo = Some p -> (slot < poolSize)%nat ->
  slot ∈ wp_avail p \/ exists c cl, rm_clients s !! c = Some cl /\ client_slot cl = Some (repo, slot).
Proof.
  intros [Hp _] Hl Hs. destruct (Hp repo p Hl) as [_ Ht]. assert (slot ∈ seq 0 poolSize) as Hin by (apply elem_of_seq; lia).
  rewrite <- Ht in Hin. apply elem_of_app in Hin as [?|H]; [by left|right]. by apply elem_of_held.
Qed.

Lemma held_slot s c cl repo slot : manager_ok s -> rm_clients s !! c = Some cl -> client_slot cl = Some (repo, slot) ->
  exists p w, rm_pools s !! repo = Some p /\ wp_slots p !! slot = Some w /\ ws_dir w = worker_dir repo slot /\ (slot < poolSize)%nat.
Proof.
  intros H E Es. pose proof H as [Hp Hc]. destruct (Hc c cl repo E) as [p Hl]; [by apply (client_slot_repo _ _ slot)|]. destruct (Hp repo p Hl) as [Hs Ht].
  assert (slot ∈ seq 0 poolSize) as Hin.
  { rewrite <- Ht. apply elem_of_app. right. apply elem_of_held. by exists c, cl. }
  apply elem_of_seq in Hin. apply (f_equal (lookup slot)) in Hs. rewrite !list_lookup_fmap, (lookup_seq_lt 0 poolSize slot) in Hs by lia.
  destruct (wp_slots p !! slot) as [w|] eqn:Ew; [|done]. injection Hs as Hs. exists p, w. split_and!; [done|done|done|lia].
Qed.
(** The flag of a slot says whether its holder needs a new clone. *)
Definition flags_ok (s : repoManager) : Prop :=
  forall c cl repo p w, rm_clients s !! c = Some cl -> rm_pools s !! repo = Some p ->
    (forall i, cl = Leased repo i -> wp_slots p !! i = Some w -> ws_created w = true) /\
    (forall i e, cl = Creating repo i e -> wp_slots p !! i = Some w -> ws_created w = false).

Lemma slot_in_Some repo cl i : slot_in repo cl = [i] -> exists cl', cl = Some cl' /\ client_slot cl' = Some (repo, i).
Proof.
  unfold slot_in. destruct cl as [cl|]; [|done]. cbn. destruct (client_slot cl) as [[r j]|] eqn:E; [|done].
  case_decide; [|done]. intros [= <-]. exists cl. by subst.
Qed.

(** A step changes the flag of a slot only if its own call has it. *)
Lemma flags_ok_change s c cl repo p p' : manager_ok s -> flags_ok s -> rm_pools s !! repo = Some p ->
  wp_slots p' = wp_slots p \/
    (exists j, slot_in repo (rm_clients s !! c) = [j] /\ forall i, i <> j -> wp_slots p' !! i = wp_slots p !! i) ->
  (forall i w, wp_slots p' !! i = Some w -> (cl = Leased repo i -> ws_created w = true) /\ (forall e, cl = Creating repo i e -> ws_created w = false)) ->
  (forall r, client_repo cl = Some r -> r = repo) ->
  flags_ok (set_client c cl (set_pool repo p' s)).
Proof.
  intros Hok Hf Hl Hsame Hnew Hr c' cl' r q w. cbn. destruct (decide (c' = c)) as [->|Hne].
  { rewrite lookup_insert_eq. intros [= <-]. destruct (decide (r = repo)) as [->|Hn].
    - rewrite lookup_insert_eq. intros [= <-]. split; [intros i -> Hw|intros i e -> Hw]; by eapply Hnew.
    - intros _. split; [intros i ->|intros i e ->]; by destruct (Hn (Hr r eq_refl)). }
  rewrite lookup_insert_ne by done. intros Hc' Hq. destruct (decide (r = repo)) as [->|Hn].
  2:{ rewrite lookup_insert_ne in Hq by done. by apply (Hf c' cl' r q w). }
  rewrite lookup_insert_eq in Hq. injection Hq as <-. destruct (Hf c' cl' repo p w Hc' Hl) as [H1 H2].
  assert (forall i, client_slot cl' = Some (repo, i) -> wp_slots p' !! i = wp_slots p !! i) as E.
  { intros i Hi. destruct Hsame as [->|(j & Hj & Hsame)]; [done|]. apply Hsame. intros ->.
    apply slot_in_Some in Hj as (old & Eo & Es). apply Hne. by apply (held_once s c' c cl' old repo j). }
  split; [intros i -> Hw|intros i e -> Hw]; rewrite E in Hw by done; by eauto.
Qed.

Lemma flags_ok_client s c cl : flags_ok s -> (forall repo p i w, rm_pools s !! repo = Some p -> wp_slots p !! i = Some w ->
    (cl = Leased repo i -> ws_created w = true) /\ (forall e, cl = Creating repo i e -> ws_created w = false)) ->
  flags_ok (set_client c cl s).
Proof.
  intros Hf Hnew c' cl' r q w. cbn. destruct (decide (c' = c)) as [->|Hne].
  - rewrite lookup_insert_eq. intros [= <-] Hq. split; [intros i -> Hw|intros i e -> Hw]; by eapply Hnew.
  - rewrite lookup_insert_ne by done. by apply Hf.
Qed.

Lemma poolFor_flags has_git repo s : manager_ok s -> flags_ok s -> flags_ok (poolFor has_git repo s).
Proof.
  intros Hok Hf. unfold poolFor. destruct (rm_pools s !! repo) as [p|] eqn:E; [done|]. intros c cl r q w Hc. cbn.
  destruct (decide (r = repo)) as [->|Hne]; [|rewrite lookup_insert_ne by done; by apply (Hf c cl r q w)].
  intros _. split; [intros i -> |intros i e ->]; destruct (mo_clients _ Hok c _ repo Hc eq_refl) as [q' Hq']; congruence.
Qed.

Lemma set_created_lookup slot created p i :
  wp_slots (set_created slot created p) !! i =
    if decide (i = slot) then (fun s => {| ws_dir := ws_dir s; ws_created := created |}) <$> wp_slots p !! slot else wp_slots p !! i.
Proof. cbn. case_decide; [subst; by rewrite list_lookup_alter_eq|by rewrite list_lookup_alter_ne]. Qed.

Lemma act_flags a s s' : manager_ok s -> flags_ok s -> act a s = Some s' -> flags_ok s'.
Proof.
  intros Hok Hf. destruct a as [c remote has_git|c o|c|c deadline cause|c err|c o|c]; cbn [act].
  - destruct (rm_clients s !! c) eqn:E; [done|]. destruct (GetRepositoryConfig config remote) as [repoCfg|]; intros [= <-];
      apply flags_ok_client; [by apply poolFor_flags|done|done|done].
  - destruct (rm_clients s !! c) as [[repo| | | | | |]|] eqn:E; try done. intros (p & Hl & H')%bind_Some.
    destruct (ensureOrigin o p) as [err p'] eqn:Eo. injection H' as <-.
    apply (flags_ok_change s c _ repo p p' Hok Hf Hl); [left| |].
    + unfold ensureOrigin in Eo. destruct (wp_cloned p), (og_exists o), (og_mkdir o), (og_clone o); by injection Eo as <- <-.
    + intros i w _. by destruct err.
    + destruct err; [done|]. by intros r [= <-].
  - destruct (rm_clients s !! c) as [[|repo| | | | |]|] eqn:E; try done. intros (p & Hl & H')%bind_Some.
    destruct (wp_avail p) as [|slot avail]; [done|]. injection H' as <-.
    apply (flags_ok_change s c _ repo p _ Hok Hf Hl); [by left|done|]. by intros r [= <-].
  - destruct (rm_clients s !! c) as [[|repo| | | | |]|] eqn:E; try done. intros [= <-]. by apply flags_ok_client.
  - destruct (rm_clients s !! c) as [[| |repo slot| | | |]|] eqn:E; try done. intros (p & Hl & (w & Hw & H')%bind_Some)%bind_Some.
    assert (forall r q i w', rm_pools s !! r = Some q -> wp_slots q !! i = Some w' -> r = repo -> i = slot -> w' = w) as Hsame.
    { intros r q i w' Hq Hw' -> ->. rewrite Hq in Hl. injection Hl as ->. congruence. }
    destruct (ws_created w) eqn:Ew; [destruct err as [e|]|]; injection H' as <-.
    + apply (flags_ok_change s c _ repo p _ Hok Hf Hl); [right|..].
      * exists slot. split; [rewrite E; unfold slot_in; cbn; by rewrite decide_True|]. intros i Hi. rewrite set_created_lookup. by rewrite decide_False.
      * intros i w'. rewrite set_created_lookup. case_decide as Hi; [|by intros _; split; [|intros e' [= ]]].
        rewrite Hw. cbn. intros [= <-]. by split.
      * by intros r [= <-].
    + apply flags_ok_client; [done|]. intros r q i w' Hq Hw'. split; [|done]. intros [= -> ->]. by rewrite (Hsame _ _ _ _ Hq Hw' eq_refl eq_refl).
    + apply flags_ok_client; [done|]. intros r q i w' Hq Hw'. split; [done|]. intros e' [= -> -> _]. by rewrite (Hsame _ _ _ _ Hq Hw' eq_refl eq_refl).
  - destruct (rm_clients s !! c) as [[| | |repo slot restoreErr| | |]|] eqn:E; try done. intros (p & Hl & H')%bind_Some.
    destruct (createWorker o) as [e|].
    + apply bind_Some in H' as (p' & ->%push_eq & [= <-]). by apply (flags_ok_change s c _ repo p _ Hok Hf Hl); [left|..].
    + injection H' as <-. apply (flags_ok_change s c _ repo p _ Hok Hf Hl); [right|..|by intros r [= <-]].
      * exists slot. split; [rewrite E; unfold slot_in; cbn; by rewrite decide_True|]. intros i Hi. rewrite set_created_lookup. by rewrite decide_False.
      * intros i w. rewrite set_created_lookup. case_decide as Hi; [|by intros _; split; [intros [= ?]|]].
        destruct (wp_slots p !! slot); cbn; [|done]. intros [= <-]. by split.
  - destruct (rm_clients s !! c) as [[| | | |repo slot| |]|] eqn:E; try done; [|by intros [= <-]].
    intros (p & Hl & (p' & ->%push_eq & [= <-])%bind_Some)%bind_Some. by apply (flags_ok_change s c _ repo p _ Hok Hf Hl); [left|..].
Qed.

Lemma lease_reachable_ok s : lease_reachable s -> manager_ok s /\ flags_ok s.
Proof.
  unfold lease_reachable. intros H.
  assert (manager_ok no_pools /\ flags_ok no_pools) as H0.
  { split; [split|]; unfold no_pools; cbn [rm_pools rm_clients].
    - intros repo p E. by rewrite lookup_empty in E.
    - intros c cl repo E. by rewrite lookup_empty in E.
    - intros c cl repo p w E. cbn in E. by rewrite lookup_empty in E. }
  induction H as [s|s s1 s2 [a Ha] _ IH]; [done|]. apply IH. destruct H0. split; [by apply (act_ok a s)|by apply (act_flags a s)].
Qed.

Lemma release_leased s c repo slot : manager_ok s -> rm_clients s !! c = Some (Leased repo slot) ->
  exists p, rm_pools s !! repo = Some p /\
    act (Release c) s = Some (set_client c Released (set_pool repo (set_avail (wp_avail p ++ [slot]) p) s)).
Proof.
  intros Hok E. destruct (held_slot s c _ repo slot Hok E eq_refl) as (p & w & Hl & _). exists p. split; [done|].
  cbn. rewrite E, Hl. cbn. by rewrite (push_room s c _ repo slot p Hok E eq_refl Hl).
Qed.

(** With no slot taken all are in the channel. *)
Lemma all_available s repo p : manager_ok s -> rm_pools s !! repo = Some p ->
  (forall c cl slot, rm_clients s !! c = Some cl -> client_slot cl <> Some (repo, slot)) -> wp_avail p ≡ₚ seq 0 poolSize.
Proof.
  intros [Hp _] Hl Hno. destruct (Hp repo p Hl) as [_ <-]. destruct (held repo (rm_clients s)) as [|i l] eqn:E; [by rewrite app_nil_r|].
  assert (i ∈ held repo (rm_clients s)) as Hi by (rewrite E; by left). apply elem_of_held in Hi as (c & cl & Hc & Hs).
  by destruct (Hno c cl i Hc).
Qed.
End manager.

(** * Properties *)

(** C15: A leased worker is its client's alone, and no worker is lost.  In every state that
    concurrent leases and releases reach, with whatever failures of git: two leases have
    different directories, each holding a clone of this lease's making or restoring; a
    release never blocks, gives the slot back once, and a second release does nothing; a
    slot that no call has is available, so that with no lease of a repository left its
    whole pool is. *)
Theorem leases_exclusive (config : Config) (clonePath : bytes) (poolSize : nat) (s : repoManager) :
  lease_reachable config clonePath poolSize s -> head clonePath = Some slash -> Z.of_nat poolSize < 2^63 ->
  (forall c c' repo repo' i i', rm_clients s !! c = Some (Leased repo i) -> rm_clients s !! c' = Some (Leased repo' i') -> c <> c' ->
     plain repo -> plain repo' -> worker_dir clonePath repo i <> worker_dir clonePath repo' i') /\
  (forall c repo i, rm_clients s !! c = Some (Leased repo i) -> exists p w, rm_pools s !! repo = Some p /\ wp_slots p !! i = Some w /\
     ws_dir w = worker_dir clonePath repo i /\ ws_created w = true /\
     exists s', act config clonePath poolSize (Release c) s = Some s' /\
       rm_pools s' = <[repo := set_avail (wp_avail p ++ [i]) p]> (rm_pools s) /\ act config clonePath poolSize (Release c) s' = Some s') /\
  (forall repo p, rm_pools s !! repo = Some p ->
     (forall c cl i, rm_clients s !! c = Some cl -> client_slot cl <> Some (repo, i)) -> wp_avail p ≡ₚ seq 0 poolSize).
Proof.
  intros Hs Hc Hn. destruct (lease_reachable_ok config clonePath poolSize s Hs) as [Hok Hf]. split_and!.
  - intros c c' repo repo' i i' E E' Hne Hr Hr' Hd.
    destruct (held_slot clonePath poolSize s c _ repo i Hok E eq_refl) as (_ & _ & _ & _ & _ & Hi).
    destruct (held_slot clonePath poolSize s c' _ repo' i' Hok E' eq_refl) as (_ & _ & _ & _ & _ & Hi').
    apply worker_dir_inj in Hd as [-> ->]; [|done|done|done|lia|lia].
    apply Hne. by apply (held_once clonePath poolSize s c c' _ _ repo' i' Hok E E').
  - intros c repo i E. destruct (held_slot clonePath poolSize s c _ repo i Hok E eq_refl) as (p & w & Hl & Hw & Hd & Hi).
    destruct (release_leased config clonePath poolSize s c repo i Hok E) as (p' & Hl' & Hrel). rewrite Hl in Hl'. injection Hl' as <-.
    exists p, w. split_and!; [done..| |].
    + by apply (proj1 (Hf c _ repo p w E Hl) i).
    + eexists. split; [exact Hrel|]. split; [done|]. cbn. by rewrite lookup_insert_eq.
  - intros repo p. apply (all_available clonePath poolSize s repo p Hok).
Qed.

(** C16: A lease never gets stuck.  In every reachable state each call has a next step
    whatever git and the file system answer, except that it waits while other calls have
    all the workers of its repository; and a call that has taken a worker holds a workspace
    or has given the worker back after at most two steps of its own. *)
Theorem lease_progress (config : Config) (clonePath : bytes) (poolSize : nat) (s : repoManager) (c : nat) (cl : client) :
  lease_reachable config clonePath poolSize s -> rm_clients s !! c = Some cl ->
  match cl with
  | Preparing _ => forall o, is_Some (act config clonePath poolSize (Origin c o) s)
  | Waiting repo => is_Some (act config clonePath poolSize (Take c) s) \/
      forall i, (i < poolSize)%nat -> exists c' cl', c' <> c /\ rm_clients s !! c' = Some cl' /\ client_slot cl' = Some (repo, i)
  | Taken repo i => forall err o, exists s1, act config clonePath poolSize (Restore c err) s = Some s1 /\
      (rm_clients s1 !! c = Some (Leased repo i) \/
       exists s2, act config clonePath poolSize (Create c o) s1 = Some s2 /\
         (rm_clients s2 !! c = Some (Leased repo i) \/
          exists e p, rm_clients s2 !! c = Some (LeaseFailed e) /\ rm_pools s2 !! repo = Some p /\ i ∈ wp_avail p))
  | Creating _ _ _ => forall o, is_Some (act config clonePath poolSize (Create c o) s)
  | Leased _ _ | Released => is_Some (act config clonePath poolSize (Release c) s)
  | LeaseFailed _ => True
  end.
Proof.
  intros Hs E. destruct (lease_reachable_ok config clonePath poolSize s Hs) as [Hok _].
  assert (forall s' repo i e o, manager_ok clonePath poolSize s' -> rm_clients s' !! c = Some (Creating repo i e) ->
    exists s2, act config clonePath poolSize (Create c o) s' = Some s2 /\
      (rm_clients s2 !! c = Some (Leased repo i) \/
       exists e p, rm_clients s2 !! c = Some (LeaseFailed e) /\ rm_pools s2 !! repo = Some p /\ i ∈ wp_avail p)) as Hcreate.
  { intros s' repo i e o Hok' E'. destruct (held_slot clonePath poolSize s' c _ repo i Hok' E' eq_refl) as (p & _ & Hl & _).
    cbn. rewrite E', Hl. cbn. destruct (createWorker o) as [err|].
    - rewrite (push_room clonePath poolSize s' c _ repo i p Hok' E' eq_refl Hl). cbn. eexists. split; [done|]. right. cbn.
      do 2 eexists. rewrite !lookup_insert_eq. split_and!; [done|done|]. cbn. apply elem_of_app. right. by left.
    - eexists. split; [done|]. left. cbn. by rewrite lookup_insert_eq. }
  destruct cl as [repo|repo|repo i|repo i e|repo i| |e]; [| | | | | |done].
  - intros o. cbn. rewrite E. destruct (mo_clients _ _ _ Hok c _ repo E eq_refl) as [p Hl]. rewrite Hl. cbn.
    destruct (ensureOrigin o p). by eexists.
  - destruct (mo_clients _ _ _ Hok c _ repo E eq_refl) as [p Hl]. destruct (wp_avail p) as [|i avail] eqn:Ea.
    + right. intros i Hi. destruct (free_or_held clonePath poolSize s repo p i Hok Hl Hi) as [H|(c' & cl' & H1 & H2)].
      * rewrite Ea in H. by apply elem_of_nil in H.
      * exists c', cl'. split; [|done]. intros ->. rewrite E in H1. injection H1 as <-. done.
    + left. cbn. rewrite E, Hl. cbn. rewrite Ea. by eexists.
  - intros err o. destruct (held_slot clonePath poolSize s c _ repo i Hok E eq_refl) as (p & w & Hl & Hw & _).
    assert (exists s1, act config clonePath poolSize (Restore c err) s = Some s1 /\
      (rm_clients s1 !! c = Some (Leased repo i) \/ exists e, rm_clients s1 !! c = Some (Creating repo i e))) as (s1 & H1 & H2).
    { cbn. rewrite E, Hl. cbn. rewrite Hw. cbn. destruct (ws_created w); [destruct err|];
        (eexists; split; [done|]); cbn; rewrite lookup_insert_eq; eauto. }
    exists s1. split; [done|]. destruct H2 as [?|[e He]]; [by left|]. right.
    apply (Hcreate s1 repo i e o); [|done]. by apply (act_ok config clonePath poolSize (Restore c err) s).
  - intros o. destruct (Hcreate s repo i e o Hok E) as (s2 & H & _). by eexists.
  - destruct (release_leased config clonePath poolSize s c repo i Hok E) as (p & _ & H). by eexists.
  - cbn. rewrite E. by eexists.
Qed.

(** * Examples *)

Lemma schedule_reachable config clonePath poolSize actions s s' : schedule config clonePath poolSize actions s = Some s' ->
  lease_reachable config clonePath poolSize s -> lease_reachable config clonePath poolSize s'.
Proof.
  unfold schedule. revert s. induction actions as [|a actions IH]; intros s; cbn [foldl]; [by intros [= ->]|].
  intros H Hs. cbn in H. destruct (act config clonePath poolSize a s) as [s1|] eqn:E.
  - apply (IH s1 H). eapply rtc_r; [exact Hs|]. by exists a.
  - exfalso. clear -H. induction actions as [|a' actions IH]; cbn in H; [done|by apply IH].
Qed.

Definition pool_config : Config := match ParseBytes (fun _ => Ok written_config) map_to_list [] with Ok c => c | _ => written_config end.
Definition no_trouble : create_calls := {| cr_remove := None; cr_mkdir := None; cr_clone := None |}.
Definition fresh_origin : origin_calls := {| og_exists := false; og_mkdir := None; og_clone := None |}.

(** Two calls that each clone a worker, and a third that waits. *)
Definition two_leases : list action :=
  [Call 0 (bs "git@github:uber/tango") (fun _ => false); Origin 0 fresh_origin; Call 1 (bs "git@github:uber/tango") (fun _ => false);
   Origin 1 fresh_origin; Take 0; Take 1; Restore 1 None; Restore 0 None; Create 0 no_trouble; Create 1 no_trouble;
   Call 2 (bs "git@github:uber/tango") (fun _ => false); Origin 2 fresh_origin].
Definition leased_twice : repoManager := default no_pools (schedule pool_config (bs "/var/tango") 2 two_leases no_pools).

Lemma leased_twice_reachable : lease_reachable pool_config (bs "/var/tango") 2 leased_twice.
Proof. apply (schedule_reachable _ _ _ two_leases no_pools); [vm_compute; reflexivity|constructor]. Qed.

Lemma leases_exclusive_witness : rm_clients leased_twice !! 0%nat = Some (Leased (bs "tango") 0) /\
  worker_dir (bs "/var/tango") (bs "tango") 0 <> worker_dir (bs "/var/tango") (bs "tango") 1.
Proof.
  destruct (leases_exclusive pool_config (bs "/var/tango") 2 leased_twice leased_twice_reachable eq_refl eq_refl) as [H _].
  split; [vm_compute; reflexivity|].
  apply (H 0%nat 1%nat (bs "tango") (bs "tango") 0%nat 1%nat); [vm_compute; reflexivity|vm_compute; reflexivity|done|decided|decided].
Defined.

Lemma lease_progress_witness : rm_clients leased_twice !! 2%nat = Some (Waiting (bs "tango")) /\
  (is_Some (act pool_config (bs "/var/tango") 2 (Take 2) leased_twice) \/
   forall i, (i < 2)%nat -> exists c' cl', c' <> 2%nat /\ rm_clients leased_twice !! c' = Some cl' /\ client_slot cl' = Some (bs "tango", i)).
Proof.
  split; [vm_compute; reflexivity|].
  exact (lease_progress pool_config (bs "/var/tango") 2 leased_twice 2 (Waiting (bs "tango")) leased_twice_reachable
    ltac:(vm_compute; reflexivity)).
Defined.
