(* ===== verification/Handler.v ===== *)
(** The RPC handlers ([handler/handler.go], [handler/getchangedtargets.go],
    [handler/gettargetgraph.go], [handler/getchangedtargetgraph.go]), the filters of what is
    sent ([handler/distance_filter.go], [handler/output_filter.go]), the conversions between
    messages and entities ([internal/mapper/build_description.go], [changed_targets.go],
    [target_graph.go], [mapper/proto/changed_targets.go]) and of errors
    ([mapper/proto/errors.go]). *)
From Stdlib Require Import ZArith Lia.
From stdpp Require Import gmap fin_maps list.
From S2P Require Import Prelude Entity Chunks Responses CacheKeys GraphStore Config ResponseCache.

Local Open Scope Z_scope.

(** * Messages

    An empty list or map of a message is also a [nil] one. *)

Record PbOptimizedTarget := {
  pt_Id : Z;
  pt_Hash : bytes;
  pt_DirectDependencies : list Z;
  pt_RuleType : Z;
  pt_Tags : list Z;
  pt_Root : bool;
  pt_External : bool;
  pt_Attributes : gmap Z Z;
}.

Record PbMetadata := {
  pm_TargetIdMapping : gmap Z bytes;
  pm_RuleTypeMapping : gmap Z bytes;
  pm_TagMapping : gmap Z bytes;
  pm_AttributeNameMapping : gmap Z bytes;
  pm_AttributeStringValueMapping : gmap Z bytes;
}.

Record PbChangedTarget := {
  pc_ChangeType : Z;
  pc_OldTarget : option PbOptimizedTarget;
  pc_NewTarget : option PbOptimizedTarget;
  pc_Distance : Z;
}.

(** The item of a [GetChangedTargetsResponse], and of a [GetTargetGraphResponse]. *)
Inductive PbChanges := PbChangedTargets (l : list PbChangedTarget) | PbChangesMetadata (m : PbMetadata).
Inductive PbGraph := PbTargets (l : list PbOptimizedTarget) | PbGraphMetadata (m : PbMetadata).

Record OutputConfig := { oc_IncludeTags : bool; oc_IncludeAttributes : bool; oc_IncludeHashes : bool; oc_MaxDistance : Z }.

(** A request holds the URLs of its change requests. *)
Record PbBuildDescription := { pd_Remote : bytes; pd_BaseSha : bytes; pd_Requests : list bytes; pd_Strategy : Z }.

Record PbGetTargetGraphRequest := {
  pg_BuildDescription : option PbBuildDescription;
  pg_ExtraExcludeFilesRegex : list bytes;
  pg_BypassCache : bool;
  pg_OutputConfig : option OutputConfig;
}.

Record PbGetChangedTargetsRequest := {
  pq_FirstRevision : option PbBuildDescription;
  pq_SecondRevision : option PbBuildDescription;
  pq_ExtraExcludeFilesRegex : list bytes;
  pq_BypassCache : bool;
  pq_OutputConfig : option OutputConfig;
}.

Definition COMPUTATION_STRATEGY_UNSET : Z := 1.
Definition COMPUTATION_STRATEGY_SHELL : Z := 2.
Definition COMPUTATION_STRATEGY_NATIVE : Z := 3.

(** * Conversions of requests *)

Definition toChangeRequests (requests : list bytes) : list ChangeRequest := (fun url => {| URL := url |}) <$> requests.

Definition validateComputationStrategy (s : Z) : Z + gerror :=
  if decide (s = COMPUTATION_STRATEGY_UNSET) then inl ComputationStrategyUnset
  else if decide (s = COMPUTATION_STRATEGY_SHELL) then inl ComputationStrategyShell
  else if decide (s = COMPUTATION_STRATEGY_NATIVE) then inl ComputationStrategyNative
  else inr (newError ErrorUser (plain_error "unknown computation strategy: %d")).

Definition ProtoToBuildDescription (desc : option PbBuildDescription) : BuildDescription + gerror :=
  match desc with
  | None => inr (plain_error "build description is required")
  | Some desc =>
      if decide (pd_Remote desc = []) then inr (plain_error "build description remote is required")
      else if decide (pd_BaseSha desc = []) then inr (plain_error "build description base_sha is required")
      else
        match validateComputationStrategy (pd_Strategy desc) with
        | inr e => inr e
        | inl strategy => inl {| bd_Remote := pd_Remote desc; bd_BaseSha := pd_BaseSha desc;
                                 bd_ChangeRequests := toChangeRequests (pd_Requests desc); bd_Strategy := strategy |}
        end
  end.

Definition ProtoToGetChangedTargetsRequest (req : option PbGetChangedTargetsRequest) : GetChangedTargetsRequest + gerror :=
  match req with
  | None => inr (plain_error "get changed targets request is required")
  | Some req =>
      match ProtoToBuildDescription (pq_FirstRevision req) with
      | inr e => inr (wrap "first revision: " e)
      | inl first =>
          match ProtoToBuildDescription (pq_SecondRevision req) with
          | inr e => inr (wrap "second revision: " e)
          | inl second =>
              if decide (bd_Remote first = bd_Remote second)
              then inl {| rq_First := first; rq_Second := second; rq_ExcludeFilesRegex := pq_ExtraExcludeFilesRegex req;
                          rq_BypassCache := pq_BypassCache req |}
              else inr (plain_error "first and second revision must have the same remote")
          end
      end
  end.

Record GetTargetGraphRequest := { gq_Build : BuildDescription; gq_ExcludeFilesRegex : list bytes; gq_BypassCache : bool }.

Definition ProtoToGetTargetGraphRequest (req : option PbGetTargetGraphRequest) : GetTargetGraphRequest + gerror :=
  match req with
  | None => inr (plain_error "get target graph request is required")
  | Some req =>
      match ProtoToBuildDescription (pg_BuildDescription req) with
      | inr e => inr e
      | inl build => inl {| gq_Build := build; gq_ExcludeFilesRegex := pg_ExtraExcludeFilesRegex req; gq_BypassCache := pg_BypassCache req |}
      end
  end.

(** * Conversions of responses *)

Definition metadataToProto (m : Metadata) : PbMetadata :=
  {| pm_TargetIdMapping := TargetIDMapping m; pm_RuleTypeMapping := RuleTypeMapping m; pm_TagMapping := TagMapping m;
     pm_AttributeNameMapping := AttributeNameMapping m; pm_AttributeStringValueMapping := AttributeStringValueMapping m |}.

Definition optimizedTargetToProto (t : OptimizedTarget) : PbOptimizedTarget :=
  {| pt_Id := ot_ID t; pt_Hash := ot_Hash t; pt_DirectDependencies := ot_DirectDependencies t; pt_RuleType := ot_RuleType t;
     pt_Tags := ot_Tags t; pt_Root := ot_Root t; pt_External := ot_External t; pt_Attributes := ot_Attributes t |}.

Definition optionalTargetToProto (t : option OptimizedTarget) : option PbOptimizedTarget := optimizedTargetToProto <$> t.

Definition changedTargetToProto (ct : ChangedTarget) : PbChangedTarget :=
  {| pc_ChangeType := ct_ChangeType ct; pc_OldTarget := optionalTargetToProto (ct_OldTarget ct);
     pc_NewTarget := optionalTargetToProto (ct_NewTarget ct); pc_Distance := ct_Distance ct |}.

Definition ChangedTargetsResponseToProto (resp : Response) : PbChanges :=
  match rs_Metadata resp with
  | Some m => PbChangesMetadata (metadataToProto m)
  | None => PbChangedTargets (changedTargetToProto <$> rs_ChangedTargets resp)
  end.

Definition GetTargetGraphResponseToProto (chunk : GraphChunk) : PbGraph :=
  match gc_Metadata chunk with
  | Some m => PbGraphMetadata (metadataToProto m)
  | None => PbTargets (optimizedTargetToProto <$> gc_Targets chunk)
  end.

(** * Filters *)

Definition filterChangedTargetsByDistance (targets : list PbChangedTarget) (maxDist : Z) : list PbChangedTarget :=
  if decide (maxDist < 0) then targets else filter (fun t => 0 <= pc_Distance t /\ pc_Distance t <= maxDist) targets.

(** The flags of a [nil] configuration are off. *)
Definition include_hashes (cfg : option OutputConfig) : bool := match cfg with Some cfg => oc_IncludeHashes cfg | None => false end.
Definition include_tags (cfg : option OutputConfig) : bool := match cfg with Some cfg => oc_IncludeTags cfg | None => false end.
Definition include_attributes (cfg : option OutputConfig) : bool := match cfg with Some cfg => oc_IncludeAttributes cfg | None => false end.

Definition optimizedTargetNeedsStripping (cfg : option OutputConfig) : bool :=
  match cfg with
  | None => true
  | Some _ => negb (include_hashes cfg) || negb (include_tags cfg) || negb (include_attributes cfg)
  end.

Definition applyOptimizedTargetOutputConfig (src : PbOptimizedTarget) (cfg : option OutputConfig) : PbOptimizedTarget :=
  if negb (optimizedTargetNeedsStripping cfg) then src
  else {| pt_Id := pt_Id src; pt_Hash := if include_hashes cfg then pt_Hash src else []; pt_DirectDependencies := pt_DirectDependencies src;
          pt_RuleType := pt_RuleType src; pt_Tags := if include_tags cfg then pt_Tags src else []; pt_Root := pt_Root src;
          pt_External := pt_External src; pt_Attributes := if include_attributes cfg then pt_Attributes src else ∅ |}.

Definition applyOptimizedTargetsOutputConfig (src : list PbOptimizedTarget) (cfg : option OutputConfig) : list PbOptimizedTarget :=
  if negb (optimizedTargetNeedsStripping cfg) || bool_decide (src = []) then src
  else (fun t => applyOptimizedTargetOutputConfig t cfg) <$> src.

Definition applyChangedTargetOutputConfig (src : PbChangedTarget) (cfg : option OutputConfig) : PbChangedTarget :=
  if negb (optimizedTargetNeedsStripping cfg) then src
  else {| pc_ChangeType := pc_ChangeType src;
          pc_OldTarget := (fun t => applyOptimizedTargetOutputConfig t cfg) <$> pc_OldTarget src;
          pc_NewTarget := (fun t => applyOptimizedTargetOutputConfig t cfg) <$> pc_NewTarget src;
          pc_Distance := pc_Distance src |}.

Definition applyChangedTargetsOutputConfig (src : list PbChangedTarget) (cfg : option OutputConfig) : list PbChangedTarget :=
  if negb (optimizedTargetNeedsStripping cfg) || bool_decide (src = []) then src
  else (fun t => applyChangedTargetOutputConfig t cfg) <$> src.

Definition metadataNeedsPruning (cfg : option OutputConfig) : bool :=
  match cfg with
  | None => true
  | Some _ => negb (include_tags cfg) || negb (include_attributes cfg)
  end.

Definition applyMetadataOutputConfig (meta : PbMetadata) (cfg : option OutputConfig) : PbMetadata :=
  if negb (metadataNeedsPruning cfg) then meta
  else {| pm_TargetIdMapping := pm_TargetIdMapping meta; pm_RuleTypeMapping := pm_RuleTypeMapping meta;
          pm_TagMapping := if include_tags cfg then pm_TagMapping meta else ∅;
          pm_AttributeNameMapping := if include_attributes cfg then pm_AttributeNameMapping meta else ∅;
          pm_AttributeStringValueMapping := if include_attributes cfg then pm_AttributeStringValueMapping meta else ∅ |}.

Definition applyOptimizedTargetsOutputConfigToChunk (chunk : PbGraph) (cfg : option OutputConfig) : PbGraph :=
  match chunk with
  | PbTargets targets => if negb (optimizedTargetNeedsStripping cfg) then chunk else PbTargets (applyOptimizedTargetsOutputConfig targets cfg)
  | PbGraphMetadata m => PbGraphMetadata (applyMetadataOutputConfig m cfg)
  end.

(** * Sending *)

(** What one message of [sendTrimmedChangedTargets] becomes. *)
Definition trimmed (maxDist : Z) (outputConfig : option OutputConfig) (resp : Response) : PbChanges :=
  match ChangedTargetsResponseToProto resp with
  | PbChangedTargets targets =>
      if bool_decide (0 <= maxDist) || optimizedTargetNeedsStripping outputConfig then
        let kept := if bool_decide (0 <= maxDist) then filterChangedTargetsByDistance targets maxDist else targets in
        PbChangedTargets (applyChangedTargetsOutputConfig kept outputConfig)
      else PbChangedTargets targets
  | PbChangesMetadata m => if metadataNeedsPruning outputConfig then PbChangesMetadata (applyMetadataOutputConfig m outputConfig) else PbChangesMetadata m
  end.

(** [stream.Send] of the [k]-th message. *)
Definition sender := nat -> option gerror.

Fixpoint sendTrimmedChangedTargets (send : sender) (k : nat) (responses : list Response) (maxDist : Z) (outputConfig : option OutputConfig) :
    list PbChanges * option gerror :=
  match responses with
  | [] => ([], None)
  | resp :: responses =>
      match send k with
      | Some e => ([], Some e)
      | None =>
          let '(sent, err) := sendTrimmedChangedTargets send (S k) responses maxDist outputConfig in
          (trimmed maxDist outputConfig resp :: sent, err)
      end
  end.

(** The loop of the handler of graphs; [readErr] ends the stream instead of [io.EOF]. *)
Fixpoint send_chunks (send : sender) (k : nat) (chunks : list GraphChunk) (readErr : option gerror) (outputConfig : option OutputConfig) :
    list PbGraph * option gerror :=
  match chunks with
  | [] => ([], wrap "graph reader read: " <$> readErr)
  | chunk :: chunks =>
      match send k with
      | Some e => ([], Some (wrap "send graph: " e))
      | None =>
          let '(sent, err) := send_chunks send (S k) chunks readErr outputConfig in
          (applyOptimizedTargetsOutputConfigToChunk (GetTargetGraphResponseToProto chunk) outputConfig :: sent, err)
      end
  end.

(** * Errors on the wire *)

Inductive PbErrorCode := ERROR_INFRA | ERROR_CANCELLED | ERROR_USER | ERROR_INFRA_RETRYABLE.

(** The detail of the error; the status is always internal. *)
Record TangoError := { te_Code : PbErrorCode; te_Message : string }.

Definition toProtoErrorCode (code : ErrorCode) : PbErrorCode :=
  match code with
  | ErrorCancelled => ERROR_CANCELLED
  | ErrorUser => ERROR_USER
  | ErrorInfraRetryable => ERROR_INFRA_RETRYABLE
  | ErrorInfra => ERROR_INFRA
  end.

Definition ToProtoError (err : option gerror) : option TangoError :=
  (fun e => {| te_Code := toProtoErrorCode (GetErrorCode e); te_Message := ge_msg e |}) <$> err.

Definition toWireError := ToProtoError.

(** * Handlers *)

Section handlers.
Context (config : Config).

Definition unknownRepositoryMetricLabel : bytes := bs "unknown".

Definition resolveRequestRepository (remote : bytes) (requestErr : option gerror) : option RepositoryConfig * bytes * option gerror :=
  match requestErr with
  | Some e => (None, unknownRepositoryMetricLabel, Some e)
  | None =>
      match GetRepositoryConfig config remote with
      | None => (None, unknownRepositoryMetricLabel, Some (newError ErrorUser (plain_error "repository remote %q is not configured")))
      | Some repo => (Some repo, rc_RepositoryID repo, None)
      end
  end.

(** A handler returns the calls of the controller, what it sent, and the error. *)
Definition handle_changed_targets (controller : GetChangedTargetsRequest -> RepositoryConfig -> list Response + gerror) (send : sender)
    (request : option PbGetChangedTargetsRequest) :
    list (GetChangedTargetsRequest * RepositoryConfig) * list PbChanges * option TangoError :=
  match ProtoToGetChangedTargetsRequest request with
  | inr e => ([], [], toWireError (resolveRequestRepository [] (Some (newError ErrorUser (wrap "convert get changed targets request: " e)))).2)
  | inl entityReq =>
      match resolveRequestRepository (bd_Remote (rq_First entityReq)) None with
      | (Some repoCfg, _, None) =>
          let outputConfig := request ≫= pq_OutputConfig in
          let maxDist := match outputConfig with None => -1 | Some cfg => oc_MaxDistance cfg end in
          match controller entityReq repoCfg with
          | inr e => ([(entityReq, repoCfg)], [], toWireError (Some (wrap "get changed targets: " e)))
          | inl responses =>
              let '(sent, err) := sendTrimmedChangedTargets send 0 responses maxDist outputConfig in
              ([(entityReq, repoCfg)], sent, toWireError (wrap "send response: " <$> err))
          end
      | (_, _, err) => ([], [], toWireError err)
      end
  end.

(** The controller returns no reader, or the chunks of one and the error that ends them. *)
Definition handle_target_graph
    (controller : GetTargetGraphRequest -> RepositoryConfig -> option (list GraphChunk * option gerror) + gerror) (send : sender)
    (request : option PbGetTargetGraphRequest) :
    list (GetTargetGraphRequest * RepositoryConfig) * list PbGraph * option TangoError :=
  match ProtoToGetTargetGraphRequest request with
  | inr e => ([], [], toWireError (resolveRequestRepository [] (Some (newError ErrorUser (wrap "convert get target graph request: " e)))).2)
  | inl entityReq =>
      match resolveRequestRepository (bd_Remote (gq_Build entityReq)) None with
      | (Some repoCfg, _, None) =>
          match controller entityReq repoCfg with
          | inr e => ([(entityReq, repoCfg)], [], toWireError (Some (wrap "get graph: " e)))
          | inl None => ([(entityReq, repoCfg)], [], None)
          | inl (Some (chunks, readErr)) =>
              let '(sent, err) := send_chunks send 0 chunks readErr (request ≫= pg_OutputConfig) in
              ([(entityReq, repoCfg)], sent, toWireError err)
          end
      | (_, _, err) => ([], [], toWireError err)
      end
  end.

(** Not implemented; the error does not pass through [toWireError]. *)
Definition handle_changed_target_graph : gerror := newError ErrorInfra (plain_error "GetChangedTargetGraph is not yet implemented").
End handlers.

(** * What a client reads *)

(** A target with its IDs looked up. *)
Record resolved_target := {
  rv_name : option bytes;
  rv_hash : bytes;
  rv_deps : list (option bytes);
  rv_type : option bytes;
  rv_tags : list (option bytes);
  rv_root : bool;
  rv_external : bool;
  rv_attributes : list (option bytes * option bytes);
}.

Definition resolve_ids (m : PbMetadata) (t : PbOptimizedTarget) : resolved_target :=
  {| rv_name := pm_TargetIdMapping m !! pt_Id t; rv_hash := pt_Hash t;
     rv_deps := (fun d => pm_TargetIdMapping m !! d) <$> pt_DirectDependencies t; rv_type := pm_RuleTypeMapping m !! pt_RuleType t;
     rv_tags := (fun d => pm_TagMapping m !! d) <$> pt_Tags t; rv_root := pt_Root t; rv_external := pt_External t;
     rv_attributes := (fun kv => (pm_AttributeNameMapping m !! kv.1, pm_AttributeStringValueMapping m !! kv.2)) <$> map_to_list (pt_Attributes t) |}.

(** What a configuration asks for of a target. *)
Definition restrict (cfg : option OutputConfig) (r : resolved_target) : resolved_target :=
  {| rv_name := rv_name r; rv_hash := if include_hashes cfg then rv_hash r else []; rv_deps := rv_deps r; rv_type := rv_type r;
     rv_tags := if include_tags cfg then rv_tags r else []; rv_root := rv_root r; rv_external := rv_external r;
     rv_attributes := if include_attributes cfg then rv_attributes r else [] |}.

(** A client merges the metadata of a stream and collects its targets. *)
Definition no_metadata : PbMetadata :=
  {| pm_TargetIdMapping := ∅; pm_RuleTypeMapping := ∅; pm_TagMapping := ∅; pm_AttributeNameMapping := ∅; pm_AttributeStringValueMapping := ∅ |}.
Definition join_metadata (m m' : PbMetadata) : PbMetadata :=
  {| pm_TargetIdMapping := pm_TargetIdMapping m ∪ pm_TargetIdMapping m'; pm_RuleTypeMapping := pm_RuleTypeMapping m ∪ pm_RuleTypeMapping m';
     pm_TagMapping := pm_TagMapping m ∪ pm_TagMapping m'; pm_AttributeNameMapping := pm_AttributeNameMapping m ∪ pm_AttributeNameMapping m';
     pm_AttributeStringValueMapping := pm_AttributeStringValueMapping m ∪ pm_AttributeStringValueMapping m' |}.
Definition stream_metadata (l : list PbChanges) : PbMetadata :=
  foldr (fun x m => match x with PbChangesMetadata m' => join_metadata m' m | PbChangedTargets _ => m end) no_metadata l.
Definition stream_targets (l : list PbChanges) : list PbChangedTarget :=
  l ≫= fun x => match x with PbChangedTargets ts => ts | PbChangesMetadata _ => [] end.

Definition resolve_change (m : PbMetadata) (c : PbChangedTarget) : Z * option resolved_target * option resolved_target * Z :=
  (pc_ChangeType c, resolve_ids m <$> pc_OldTarget c, resolve_ids m <$> pc_NewTarget c, pc_Distance c).
Definition restrict_change (cfg : option OutputConfig) (c : Z * option resolved_target * option resolved_target * Z) : Z * option resolved_target * option resolved_target * Z :=
  match c with (type, old, new, distance) => (type, restrict cfg <$> old, restrict cfg <$> new, distance) end.

(** ** Lemmas *)

Lemma strip_eq t cfg : applyOptimizedTargetOutputConfig t cfg =
  {| pt_Id := pt_Id t; pt_Hash := if include_hashes cfg then pt_Hash t else []; pt_DirectDependencies := pt_DirectDependencies t;
     pt_RuleType := pt_RuleType t; pt_Tags := if include_tags cfg then pt_Tags t else []; pt_Root := pt_Root t;
     pt_External := pt_External t; pt_Attributes := if include_attributes cfg then pt_Attributes t else ∅ |}.
Proof.
  unfold applyOptimizedTargetOutputConfig, optimizedTargetNeedsStripping. destruct cfg as [cfg|]; [|done].
  destruct (include_hashes _), (include_tags _), (include_attributes _); try done. by destruct t.
Qed.

Lemma strip_change_eq c cfg : applyChangedTargetOutputConfig c cfg =
  {| pc_ChangeType := pc_ChangeType c; pc_OldTarget := (fun t => applyOptimizedTargetOutputConfig t cfg) <$> pc_OldTarget c;
     pc_NewTarget := (fun t => applyOptimizedTargetOutputConfig t cfg) <$> pc_NewTarget c; pc_Distance := pc_Distance c |}.
Proof.
  unfold applyChangedTargetOutputConfig. destruct (optimizedTargetNeedsStripping cfg) eqn:E; [done|]. cbn.
  assert (forall t, applyOptimizedTargetOutputConfig t cfg = t) as Ht by (intros t; unfold applyOptimizedTargetOutputConfig; by rewrite E).
  destruct c as [ty old new d]. cbn. f_equal; [destruct old|destruct new]; cbn; by rewrite ?Ht.
Qed.

Lemma strip_changes_eq l cfg : applyChangedTargetsOutputConfig l cfg = (fun c => applyChangedTargetOutputConfig c cfg) <$> l.
Proof.
  unfold applyChangedTargetsOutputConfig. destruct (optimizedTargetNeedsStripping cfg) eqn:E; cbn.
  - case_bool_decide as El; [by rewrite El|done].
  - induction l as [|c l IH]; [done|]. cbn. rewrite <- IH. f_equal. unfold applyChangedTargetOutputConfig. by rewrite E.
Qed.

Lemma prune_eq m cfg : applyMetadataOutputConfig m cfg =
  {| pm_TargetIdMapping := pm_TargetIdMapping m; pm_RuleTypeMapping := pm_RuleTypeMapping m;
     pm_TagMapping := if include_tags cfg then pm_TagMapping m else ∅;
     pm_AttributeNameMapping := if include_attributes cfg then pm_AttributeNameMapping m else ∅;
     pm_AttributeStringValueMapping := if include_attributes cfg then pm_AttributeStringValueMapping m else ∅ |}.
Proof.
  unfold applyMetadataOutputConfig, metadataNeedsPruning. destruct cfg as [cfg|]; [|done].
  destruct (include_tags _), (include_attributes _); try done. by destruct m.
Qed.

Definition within (maxDist : Z) (c : PbChangedTarget) : Prop := maxDist < 0 \/ 0 <= pc_Distance c <= maxDist.
#[export] Instance within_dec maxDist c : Decision (within maxDist c). Proof. unfold within. apply _. Defined.

(** A message is trimmed in the same way whether or not there is something to trim. *)
Lemma trimmed_eq maxDist cfg resp : trimmed maxDist cfg resp =
  match ChangedTargetsResponseToProto resp with
  | PbChangedTargets ts => PbChangedTargets ((fun c => applyChangedTargetOutputConfig c cfg) <$> filter (within maxDist) ts)
  | PbChangesMetadata m => PbChangesMetadata (applyMetadataOutputConfig m cfg)
  end.
Proof.
  unfold trimmed. destruct (ChangedTargetsResponseToProto resp) as [ts|m].
  - rewrite strip_changes_eq. assert (filter (within maxDist) ts = if bool_decide (0 <= maxDist) then filterChangedTargetsByDistance ts maxDist else ts) as E.
    { unfold filterChangedTargetsByDistance. case_bool_decide as Hd.
      - rewrite decide_False by lia. apply list_filter_iff. intros c. unfold within. lia.
      - clear -Hd. induction ts as [|c ts IH]; [done|]. rewrite filter_cons, decide_True by (left; lia). by rewrite IH. }
    rewrite E. destruct (bool_decide (0 <= maxDist)); [done|]. cbn. destruct (optimizedTargetNeedsStripping cfg) eqn:En; [done|].
    f_equal. clear -En. induction ts as [|c ts IH]; [done|]. cbn. rewrite <- IH. f_equal. unfold applyChangedTargetOutputConfig. by rewrite En.
  - destruct (metadataNeedsPruning cfg) eqn:E; [done|]. unfold applyMetadataOutputConfig. by rewrite E.
Qed.

Lemma stream_metadata_trimmed maxDist cfg l :
  stream_metadata (trimmed maxDist cfg <$> l) = applyMetadataOutputConfig (stream_metadata (ChangedTargetsResponseToProto <$> l)) cfg.
Proof.
  induction l as [|resp l IH].
  - rewrite prune_eq. cbn. unfold no_metadata. by destruct (include_tags cfg), (include_attributes cfg).
  - rewrite !fmap_cons. unfold stream_metadata in *. cbn [foldr]. rewrite IH, trimmed_eq. destruct (ChangedTargetsResponseToProto resp) as [ts|m]; [done|].
    rewrite !prune_eq. unfold join_metadata. cbn. destruct (include_tags cfg), (include_attributes cfg); by rewrite ?(left_id_L ∅ (∪)).
Qed.

Lemma stream_targets_trimmed maxDist cfg l :
  stream_targets (trimmed maxDist cfg <$> l) =
    (fun c => applyChangedTargetOutputConfig c cfg) <$> filter (within maxDist) (stream_targets (ChangedTargetsResponseToProto <$> l)).
Proof.
  induction l as [|resp l IH]; [done|]. rewrite !fmap_cons. unfold stream_targets in *. rewrite !bind_cons, IH, trimmed_eq, filter_app, fmap_app.
  by destruct (ChangedTargetsResponseToProto resp).
Qed.

Lemma resolve_strip m t cfg : resolve_ids (applyMetadataOutputConfig m cfg) (applyOptimizedTargetOutputConfig t cfg) = restrict cfg (resolve_ids m t).
Proof.
  rewrite strip_eq, prune_eq. unfold resolve_ids, restrict. cbn. destruct (include_hashes cfg), (include_tags cfg), (include_attributes cfg); cbn; try done;
    by rewrite map_to_list_empty.
Qed.

Lemma resolve_change_strip m c cfg :
  resolve_change (applyMetadataOutputConfig m cfg) (applyChangedTargetOutputConfig c cfg) = restrict_change cfg (resolve_change m c).
Proof.
  rewrite strip_change_eq. unfold resolve_change, restrict_change. cbn. f_equal. f_equal; [f_equal|]; rewrite <- !option_fmap_compose;
    apply option_fmap_ext; intros t; apply resolve_strip.
Qed.

Lemma sendTrimmed_prefix send k l maxDist cfg :
  match sendTrimmedChangedTargets send k l maxDist cfg with
  | (sent, None) => sent = trimmed maxDist cfg <$> l
  | (sent, Some e) => exists n, send (k + n)%nat = Some e /\ (n < length l)%nat /\ sent = trimmed maxDist cfg <$> take n l
  end.
Proof.
  revert k. induction l as [|resp l IH]; intros k; cbn [sendTrimmedChangedTargets]; [done|]. destruct (send k) as [e|] eqn:E.
  - exists 0%nat. rewrite Nat.add_0_r. split; [done|]. split; [cbn; lia|done].
  - specialize (IH (S k)). destruct (sendTrimmedChangedTargets send (S k) l maxDist cfg) as [sent [e|]].
    + destruct IH as (n & Hs & Hn & ->). exists (S n). split; [by rewrite <- plus_n_Sm|]. split; [cbn; lia|done].
    + by rewrite IH.
Qed.

(** The code survives wrapping. *)
Lemma wire_code_wrap prefix e : GetErrorCode (wrap prefix e) = GetErrorCode e.
Proof. done. Qed.

Lemma validate_user s e : validateComputationStrategy s = inr e -> ge_is e = None.
Proof. unfold validateComputationStrategy. repeat case_decide; intros Hv; try discriminate Hv. by injection Hv as <-. Qed.

Lemma build_user d e : ProtoToBuildDescription d = inr e -> ge_is e = None.
Proof.
  unfold ProtoToBuildDescription. destruct d as [d|]; [|by intros [= <-]]. repeat case_decide; [by intros [= <-]..|].
  destruct (validateComputationStrategy _) eqn:E; [done|]. intros [= <-]. by apply validate_user in E.
Qed.

(** A revision that can be used. *)
Definition valid_build (b : BuildDescription) : Prop :=
  bd_Remote b <> [] /\ bd_BaseSha b <> [] /\
  (bd_Strategy b = ComputationStrategyUnset \/ bd_Strategy b = ComputationStrategyShell \/ bd_Strategy b = ComputationStrategyNative).

Lemma build_valid d b : ProtoToBuildDescription d = inl b -> valid_build b.
Proof.
  unfold ProtoToBuildDescription. destruct d as [d|]; [|done]. case_decide; [done|]. case_decide; [done|].
  unfold validateComputationStrategy. repeat case_decide; intros Hb; try discriminate Hb; injection Hb as <-; unfold valid_build; cbn; auto.
Qed.

Lemma changed_request_user r e : ProtoToGetChangedTargetsRequest r = inr e -> ge_is e = None.
Proof.
  unfold ProtoToGetChangedTargetsRequest. destruct r as [r|]; [|by intros [= <-]].
  destruct (ProtoToBuildDescription (pq_FirstRevision r)) eqn:E1; [|intros [= <-]; by apply build_user in E1].
  destruct (ProtoToBuildDescription (pq_SecondRevision r)) eqn:E2; [|intros [= <-]; by apply build_user in E2].
  case_decide; [done|]. by intros [= <-].
Qed.

Lemma changed_request_valid r req : ProtoToGetChangedTargetsRequest r = inl req ->
  valid_build (rq_First req) /\ valid_build (rq_Second req) /\ bd_Remote (rq_First req) = bd_Remote (rq_Second req).
Proof.
  unfold ProtoToGetChangedTargetsRequest. destruct r as [r|]; [|done].
  destruct (ProtoToBuildDescription (pq_FirstRevision r)) eqn:E1; [|done]. destruct (ProtoToBuildDescription (pq_SecondRevision r)) eqn:E2; [|done].
  case_decide; [|done]. intros [= <-]. cbn. apply build_valid in E1, E2. by split_and!.
Qed.

(** * Properties *)

(** C9: What is trimmed is what was not asked for, and nothing sent dangles.  All messages
    are sent, or those before the failing one; the targets of the stream are those within
    the distance, in order, and a client that looks the IDs of a target up in the metadata
    it was sent reads what it would have read in the full stream, without the hashes, tags
    and attributes that its configuration leaves out. *)
Theorem trimmed_stream_resolves (send : sender) (responses : list Response) (maxDist : Z) (outputConfig : option OutputConfig) :
  match sendTrimmedChangedTargets send 0 responses maxDist outputConfig with
  | (sent, Some e) => exists n, send n = Some e /\ (n < length responses)%nat /\ sent = trimmed maxDist outputConfig <$> take n responses
  | (sent, None) =>
      resolve_change (stream_metadata sent) <$> stream_targets sent =
        (fun c => restrict_change outputConfig (resolve_change (stream_metadata (ChangedTargetsResponseToProto <$> responses)) c)) <$>
          filter (within maxDist) (stream_targets (ChangedTargetsResponseToProto <$> responses))
  end.
Proof.
  pose proof (sendTrimmed_prefix send 0 responses maxDist outputConfig) as H.
  destruct (sendTrimmedChangedTargets send 0 responses maxDist outputConfig) as [sent [e|]]; [done|]. subst sent.
  rewrite stream_metadata_trimmed, stream_targets_trimmed, <- list_fmap_compose. apply list_fmap_ext. intros _ c _. apply resolve_change_strip.
Qed.

(** C10: The controller sees valid requests for configured repositories, and errors keep
    their code.  With a parsed configuration, the handler of comparisons calls the
    controller at most once, with two revisions of one remote that both name a commit and a
    known strategy, and with the repository that is configured for the remote; any other
    request is refused as a user error; an error of the controller is sent with its code
    and without messages, and its responses are sent as they are trimmed. *)
Theorem handler_admits (config : Config) (controller : GetChangedTargetsRequest -> RepositoryConfig -> list Response + gerror) (send : sender)
    (request : option PbGetChangedTargetsRequest) : config_ok config ->
  match handle_changed_targets config controller send request with
  | ([], sent, err) => sent = [] /\ exists m, err = Some {| te_Code := ERROR_USER; te_Message := m |}
  | ((req, repo) :: calls, sent, err) => calls = [] /\
      valid_build (rq_First req) /\ valid_build (rq_Second req) /\ bd_Remote (rq_First req) = bd_Remote (rq_Second req) /\
      repo ∈ cf_Repository config /\ rc_Remote repo = bd_Remote (rq_First req) /\
      match controller req repo with
      | inr e => sent = [] /\ exists m, err = Some {| te_Code := toProtoErrorCode (GetErrorCode e); te_Message := m |}
      | inl responses =>
          exists maxDist sendErr, (sent, sendErr) = sendTrimmedChangedTargets send 0 responses maxDist (request ≫= pq_OutputConfig) /\
            (err = None <-> sendErr = None)
      end
  end.
Proof.
  intros Hc. unfold handle_changed_targets. destruct (ProtoToGetChangedTargetsRequest request) as [req|e] eqn:Er.
  2:{ cbn. split; [done|]. eexists. unfold ToProtoError. cbn. unfold GetErrorCode, newError, wrap. cbn.
      by rewrite (changed_request_user _ _ Er). }
  destruct (changed_request_valid _ _ Er) as (V1 & V2 & V3). unfold resolveRequestRepository.
  destruct (GetRepositoryConfig config (bd_Remote (rq_First req))) as [repo|] eqn:Eg; [|cbn; split; [done|]; by eexists].
  apply (co_lookup _ Hc) in Eg as [Hin Hr].
  destruct (controller req repo) as [responses|e] eqn:Ec.
  - set (maxDist := match request ≫= pq_OutputConfig with None => -1 | Some cfg => oc_MaxDistance cfg end).
    destruct (sendTrimmedChangedTargets send 0 responses maxDist (request ≫= pq_OutputConfig)) as [sent err] eqn:Es.
    split_and!; [done..|]. rewrite Ec. exists maxDist, err. split; [done|]. by destruct err.
  - split_and!; [done..|]. rewrite Ec. split; [done|]. by eexists.
Qed.

(** * Examples *)

Definition handled_config : Config := match ParseBytes (fun _ => Ok written_config) map_to_list [] with Ok c => c | _ => written_config end.
Definition sample_revision (sha : bytes) : PbBuildDescription :=
  {| pd_Remote := bs "git@github:uber/tango"; pd_BaseSha := sha; pd_Requests := []; pd_Strategy := COMPUTATION_STRATEGY_NATIVE |}.
Definition sample_message : PbGetChangedTargetsRequest :=
  {| pq_FirstRevision := Some (sample_revision (bs "aa")); pq_SecondRevision := Some (sample_revision (bs "bb"));
     pq_ExtraExcludeFilesRegex := []; pq_BypassCache := false; pq_OutputConfig := None |}.
Definition busy_controller (req : GetChangedTargetsRequest) (repo : RepositoryConfig) : list Response + gerror :=
  inr (newError ErrorInfraRetryable (plain_error "worker pool timeout")).

Lemma handler_admits_witness : exists call m,
  handle_changed_targets handled_config busy_controller (fun _ => None) (Some sample_message) =
    ([call], [], Some {| te_Code := ERROR_INFRA_RETRYABLE; te_Message := m |}).
Proof.
  assert (config_ok handled_config) as Hc.
  { apply (proj2 (parsed_config_well_formed (fun _ => Ok written_config) map_to_list [] written_config (fun m => reflexivity _) eq_refl)).
    vm_compute. reflexivity. }
  pose proof (handler_admits handled_config busy_controller (fun _ => None) (Some sample_message) Hc) as H.
  destruct (handle_changed_targets handled_config busy_controller (fun _ => None) (Some sample_message)) as [[[|[req repo] calls] sent] err] eqn:E.
  - exfalso. apply (f_equal (fun x => length x.1.1)) in E. vm_compute in E. discriminate E.
  - destruct H as (-> & _ & _ & _ & _ & _ & -> & m & ->). exists (req, repo), m. reflexivity.
Defined.
