(* ===== verification/Git.v ===== *)
(** The git client ([core/git/git.go]): which errors a command gives, the restoring of a
    worktree, and the parsing of what [git diff --name-status -z], [git ls-tree -z],
    [git log] and [git rev-parse] print.  Running a command is a parameter. *)
From Stdlib Require Import ZArith Lia.
From stdpp Require Import gmap fin_maps list.
From S2P Require Import Prelude Encode TgbHash Text GraphStore.

Local Open Scope Z_scope.

(** * Blanks ([strings.Fields], [strings.TrimSpace]) *)

(** The bytes of a blank that text begins with: the blanks of ASCII, and those of Unicode
    in UTF-8. *)
Definition blank (s : bytes) : nat :=
  match b2z <$> take 3 s with
  | a :: rest =>
      if decide (9 <= a <= 13 \/ a = 32) then 1%nat
      else
        match rest with
        | b :: rest =>
            if decide (a = 194 /\ (b = 133 \/ b = 160)) then 2%nat
            else
              match rest with
              | c :: _ =>
                  if decide ((a = 225 /\ b = 154 /\ c = 128) \/
                    (a = 226 /\ b = 128 /\ (128 <= c <= 138 \/ c = 168 \/ c = 169 \/ c = 175)) \/
                    (a = 226 /\ b = 129 /\ c = 159) \/ (a = 227 /\ b = 128 /\ c = 128)) then 3%nat
                  else 0%nat
              | [] => 0%nat
              end
        | [] => 0%nat
        end
  | [] => 0%nat
  end.

(** Text as blanks and other bytes. *)
Fixpoint tokens (fuel : nat) (s : bytes) : list (bool * bytes) :=
  match fuel, s with
  | S fuel, c :: s' =>
      match blank s with
      | O => (false, [c]) :: tokens fuel s'
      | n => (true, take n s) :: tokens fuel (drop n s)
      end
  | _, _ => []
  end.

Definition tokens_of (s : bytes) : list (bool * bytes) := tokens (length s) s.

Fixpoint drop_blanks (l : list (bool * bytes)) : list (bool * bytes) :=
  match l with (true, _) :: l => drop_blanks l | _ => l end.

Definition TrimSpace (s : bytes) : bytes := concat (reverse (drop_blanks (reverse (drop_blanks (tokens_of s))))).*2.

(** The runs of other bytes, [field] being the last of those before. *)
Fixpoint group (l : list (bool * bytes)) (field : bytes) : list bytes :=
  match l with
  | (false, b) :: l => group l (field ++ b)
  | (true, _) :: l => match field with [] => group l [] | _ => field :: group l [] end
  | [] => match field with [] => [] | _ => [field] end
  end.

Definition Fields (s : bytes) : list bytes := group (tokens_of s) [].

(** * Commands *)

(** How a command fails: the exit code, if it ended. *)
Record run_error := { re_exit : option Z; re_err : gerror }.

Definition isFatalExitCode (code : Z) : bool := bool_decide (code = 128 \/ code = 129).

(** [deadline] tells whether the timeout of the command has passed. *)
Definition wrapError (deadline : bool) (err : option run_error) : option gerror :=
  match err with
  | None => None
  | Some e =>
      let is_fatal := match re_exit e with Some code => isFatalExitCode code | None => false end in
      let err := if is_fatal then {| ge_code := ge_code (re_err e); ge_is := Some GitFatal; ge_msg := "git command failed fatally: " +:+ ge_msg (re_err e) |}
                 else re_err e in
      let err := if deadline then {| ge_code := ge_code err; ge_is := Some GitTimeout; ge_msg := "git command timed out: " +:+ ge_msg err |} else err in
      Some (wrap "git %s: " err)
  end.

Section commands.
(** What a command prints, and whether its timeout has passed when it fails. *)
Context (output : list bytes -> bytes + run_error) (with_stdin : bytes -> list bytes -> option run_error) (deadline : bool).

Definition command (args : list bytes) : bytes + gerror :=
  match output args with
  | inl out => inl out
  | inr e => inr (default (re_err e) (wrapError deadline (Some e)))
  end.

Definition run_command (args : list bytes) : option gerror := match command args with inl _ => None | inr e => Some e end.

Definition Checkout (ref : bytes) (options : list bytes) : option gerror := run_command ([bs "checkout"; ref] ++ options).
Definition Fetch (remote ref : bytes) (options : list bytes) : option gerror := run_command ([bs "fetch"; remote; ref] ++ options).
Definition Clone (target destination : bytes) (options : list bytes) : option gerror :=
  run_command ([bs "clone"] ++ options ++ [target; destination]).
Definition Commit (message : bytes) (options : list bytes) : option gerror := run_command ([bs "commit"; bs "-am"; message] ++ options).
Definition ApplyPatch (patch : bytes) : option gerror :=
  wrapError deadline (with_stdin patch [bs "apply"; bs "--3way"; bs "--whitespace"; bs "nowarn"; bs "--index"; bs "-"]).
Definition SubmoduleUpdate : option gerror := run_command [bs "submodule"; bs "update"; bs "--init"; bs "--recursive"].
Definition Diff (baseRef targetRef : bytes) (options : list bytes) : bytes + gerror := command ([bs "diff"; baseRef; targetRef] ++ options).

Definition RevParse (ref : bytes) : bytes + gerror :=
  match command [bs "rev-parse"; ref] with inl out => inl (TrimSpace out) | inr e => inr e end.

(** Exit code 1 says no. *)
Definition IsAncestor (ancestorRef descendantRef : bytes) : bool + gerror :=
  let args := [bs "merge-base"; bs "--is-ancestor"; ancestorRef; descendantRef] in
  match output args with
  | inl _ => inl true
  | inr e => if decide (re_exit e = Some 1) then inl false else inr (default (re_err e) (wrapError deadline (Some e)))
  end.

Definition GetCommitTimeSecond (ref : bytes) : Z + gerror :=
  match command [bs "log"; bs "-1"; bs "--format=%ct"; ref] with
  | inl out => match ParseInt (TrimSpace out) with Some t => inl t | None => inr (plain_error "strconv.ParseInt") end
  | inr e => inr e
  end.

(** The commands that restore a worktree, up to the first that fails. *)
Definition restore_commands : list (list bytes) :=
  [[bs "reset"; bs "--hard"; bs "HEAD"];
   [bs "clean"; bs "-ffdx"];
   [bs "submodule"; bs "foreach"; bs "--recursive"; bs "git"; bs "reset"; bs "--hard"; bs "HEAD"];
   [bs "submodule"; bs "foreach"; bs "--recursive"; bs "git"; bs "clean"; bs "-ffdx"];
   [bs "submodule"; bs "update"; bs "--init"; bs "--recursive"; bs "--force"]].

Fixpoint run_all (commands : list (list bytes)) : option gerror :=
  match commands with
  | [] => None
  | args :: commands => match run_command args with Some e => Some e | None => run_all commands end
  end.

Definition restoreWorktree : option gerror :=
  match command [bs "status"; bs "--porcelain"; bs "--untracked-files=all"; bs "--ignored"; bs "--ignore-submodules=none"] with
  | inr e => Some e
  | inl status => if decide (TrimSpace status = []) then None else run_all restore_commands
  end.

(** * Parsing *)

Record DiffEntry := { de_Status : bytes; de_Path : bytes }.

(** The loop over the fields; a rename or a copy has two paths. *)
Fixpoint diff_entries (fuel : nat) (fields : list bytes) : list DiffEntry :=
  match fuel, fields with
  | S fuel, [] :: fields => diff_entries fuel fields
  | S fuel, ((c :: _) as status) :: fields =>
      let pathCount := if decide (c = x52 \/ c = x43) then 2%nat else 1%nat in
      match fields !! (pathCount - 1)%nat with
      | None => []
      | Some path => {| de_Status := take 1 status; de_Path := path |} :: diff_entries fuel (drop pathCount fields)
      end
  | _, _ => []
  end.

Definition parse_diff (out : bytes) : list DiffEntry := let fields := split_on x00 out in diff_entries (length fields) fields.

Definition DiffWithStatus (baseRef targetRef : bytes) : list DiffEntry + gerror :=
  match Diff baseRef targetRef [bs "--name-status"; bs "-z"] with
  | inl out => inl (parse_diff out)
  | inr e => inr e
  end.

(** One record of [ls-tree]; [None] is skipped. *)
Definition parse_tree_record (record : bytes) : option (bytes * bytes) :=
  match cut x09 record with
  | None => None
  | Some (metadata, path) =>
      match Fields metadata !! 2%nat with
      | None => None
      | Some field => match hexDecodeString field with Ok hash => Some (path, hash) | _ => None end
      end
  end.

Definition parse_tree (out : bytes) : gmap bytes bytes :=
  foldl (fun m record => match parse_tree_record record with Some (path, hash) => <[path := hash]> m | None => m end) ∅ (split_on x00 out).

Definition FileHashes (ref : bytes) : gmap bytes bytes + gerror :=
  match command [bs "ls-tree"; bs "--full-tree"; bs "-r"; bs "-z"; ref] with
  | inl out => inl (parse_tree out)
  | inr e => inr e
  end.
End commands.

(** * What git prints *)

(** A change; a rename or a copy has a source. *)
Record git_change := { gd_status : bytes; gd_source : option bytes; gd_path : bytes }.

Definition has_source (status : bytes) : bool := match status with c :: _ => bool_decide (c = x52 \/ c = x43) | [] => false end.

Definition valid_change (ch : git_change) : Prop :=
  gd_status ch <> [] /\ (x00 ∉ gd_status ch) /\ (x00 ∉ gd_path ch) /\ Forall (fun s => x00 ∉ s) (option_list (gd_source ch)) /\
  (has_source (gd_status ch) = true <-> is_Some (gd_source ch)).

(** Text with a zero after each field ([-z]). *)
Definition zero_terminated (fields : list bytes) : bytes := concat ((fun f => f ++ [x00]) <$> fields).
Definition change_fields (ch : git_change) : list bytes := gd_status ch :: option_list (gd_source ch) ++ [gd_path ch].
Definition print_changes (l : list git_change) : bytes := zero_terminated (l ≫= change_fields).

Record tree_entry := { gt_mode : bytes; gt_type : bytes; gt_hash : bytes; gt_path : bytes }.
Definition print_tree_entry (e : tree_entry) : bytes :=
  join_with x20 [gt_mode e; gt_type e; hexEncode (gt_hash e)] ++ x09 :: gt_path e.
Definition print_tree (l : list tree_entry) : bytes := zero_terminated (print_tree_entry <$> l).

(** A word of printable ASCII characters. *)
Definition word (w : bytes) : Prop := w <> [] /\ Forall (fun c => 33 <= b2z c < 127) w.
#[export] Instance word_dec w : Decision (word w). Proof. unfold word. apply _. Defined.

Definition valid_tree_entry (e : tree_entry) : Prop := word (gt_mode e) /\ word (gt_type e) /\ gt_hash e <> [] /\ x00 ∉ gt_path e.

(** ** Lemmas *)

Lemma split_zero_terminated fields : Forall (fun f => x00 ∉ f) fields -> split_on x00 (zero_terminated fields) = fields ++ [[]].
Proof.
  unfold zero_terminated. induction 1 as [|f fields Hf _ IH]; [done|]. cbn. rewrite <- app_assoc. cbn. rewrite split_on_app, split_on_free by done.
  by rewrite IH.
Qed.

Lemma diff_entries_print l fuel : Forall valid_change l -> (length (l ≫= change_fields) < fuel)%nat ->
  diff_entries fuel ((l ≫= change_fields) ++ [[]]) = (fun ch => {| de_Status := take 1 (gd_status ch); de_Path := gd_path ch |}) <$> l.
Proof.
  revert fuel. induction l as [|[status source path] l IH]; intros fuel Hv Hf.
  { destruct fuel as [|[|fuel]]; [by apply Nat.nlt_0_r in Hf|done|done]. }
  apply Forall_cons in Hv as [(Hne & _ & _ & _ & Hs) Hv]. cbn [gd_status gd_source gd_path] in *.
  rewrite bind_cons in *. unfold change_fields at 1 in Hf. unfold change_fields at 1. cbn [gd_status gd_source gd_path] in *.
  destruct fuel as [|fuel]; [lia|]. rewrite <- app_assoc, <- app_comm_cons. destruct status as [|c status]; [done|]. cbn [diff_entries]. rewrite fmap_cons. cbn [gd_status gd_path].
  rewrite !length_app in Hf. cbn in Hf. cbn [has_source] in Hs. destruct (decide (c = x52 \/ c = x43)) as [Hc|Hc].
  - rewrite bool_decide_true in Hs by done. destruct source as [src|]; [|by destruct (proj1 Hs eq_refl)].
    cbn in Hf |- *. f_equal. rewrite drop_0. apply IH; [done|]. cbn in Hf. lia.
  - rewrite bool_decide_false in Hs by done. destruct source as [src|]; [by discriminate (proj2 Hs (ex_intro _ src eq_refl))|].
    cbn in Hf |- *. f_equal. rewrite drop_0. apply IH; [done|]. lia.
Qed.

Lemma blank_word c s : 33 <= b2z c < 127 -> blank (c :: s) = 0%nat.
Proof.
  intros Hc. unfold blank. cbn [take fmap list_fmap]. rewrite decide_False by lia. destruct s as [|d [|e s]]; cbn; [done| |].
  - by rewrite decide_False by lia.
  - by rewrite !decide_False by lia.
Qed.

Lemma tokens_word w s fuel : Forall (fun c => 33 <= b2z c < 127) w -> (length w <= fuel)%nat ->
  tokens fuel (w ++ s) = ((fun c => (false, [c])) <$> w) ++ tokens (fuel - length w) s.
Proof.
  intros Hw. revert fuel. induction Hw as [|c w Hc _ IH]; intros fuel Hf; cbn in *; [by rewrite Nat.sub_0_r|].
  destruct fuel as [|fuel]; [lia|]. cbn [tokens]. rewrite blank_word by done. by rewrite IH by lia.
Qed.

Lemma group_word w l field : group (((fun c => (false, [c])) <$> w) ++ l) field = group l (field ++ w).
Proof.
  revert field. induction w as [|c w IH]; intros field; cbn; [by rewrite app_nil_r|]. by rewrite IH, <- app_assoc.
Qed.

Lemma Fields_words l fuel : Forall word l -> (length (join_with x20 l) <= fuel)%nat -> group (tokens fuel (join_with x20 l)) [] = l.
Proof.
  intros Hl. revert fuel. induction Hl as [|w l [Hne Hw] Hl IH]; intros fuel Hf; [by destruct fuel|].
  assert (forall x, word x -> group [] x = [x]) as Hend by (by intros [|] [? ?]).
  destruct (decide (l = [])) as [->|Hl0].
  - cbn [join_with] in *. rewrite <- (app_nil_r w) at 1. rewrite tokens_word by (done || lia). rewrite group_word.
    destruct (fuel - length w)%nat; by apply Hend.
  - rewrite join_with_cons in * by done. rewrite length_app in Hf. cbn in Hf. rewrite tokens_word by (done || lia). rewrite group_word.
    destruct (fuel - length w)%nat as [|n] eqn:En; [lia|]. cbn [tokens]. assert (blank (x20 :: join_with x20 l) = 1%nat) as -> by (by destruct (join_with x20 l) as [|? [|? ?]]).
    cbn [group app drop]. destruct w as [|c w]; [done|]. rewrite drop_0. f_equal. apply IH. lia.
Qed.

Lemma word_free c w : word w -> b2z c < 33 -> c ∉ w.
Proof. intros [_ Hw] Hc Hin. rewrite Forall_forall in Hw. specialize (Hw c Hin). cbn in Hw. lia. Qed.

Lemma hex_word h : h <> [] -> word (hexEncode h).
Proof.
  intros Hne. split.
  - intros E. apply (f_equal length) in E. rewrite hexEncode_length in E. destruct h; [done|]. cbn in E. lia.
  - eapply Forall_impl; [apply Storage.hexEncode_nibbles|]. intros c.
    assert (forallb (fun c => match hexNibble c with Some _ => bool_decide (33 <= b2z c < 127) | None => true end) all_bytes = true) as Hall by (vm_compute; reflexivity).
    pose proof (byte_cases _ Hall c) as Hc. intros [v Hv]. cbn in Hc. rewrite Hv in Hc. by apply bool_decide_eq_true in Hc.
Qed.

Lemma join_with_free c d l : d <> c -> Forall (fun x => d ∉ x) l -> d ∉ join_with c l.
Proof.
  intros Hd. induction 1 as [|x l Hx Hl IH]; [by apply not_elem_of_nil|]. destruct (decide (l = [])) as [->|Hne]; [done|].
  rewrite join_with_cons by done. rewrite not_elem_of_app, not_elem_of_cons. by split_and!.
Qed.

Lemma tree_words e : valid_tree_entry e -> Forall word [gt_mode e; gt_type e; hexEncode (gt_hash e)].
Proof. intros (H1 & H2 & H3 & _). repeat (apply Forall_cons; split; [done || by apply hex_word|]). done. Qed.

Lemma parse_print_record e : valid_tree_entry e -> parse_tree_record (print_tree_entry e) = Some (gt_path e, gt_hash e).
Proof.
  intros He. pose proof (tree_words e He) as Hw. unfold parse_tree_record, print_tree_entry. rewrite cut_app.
  - unfold Fields, tokens_of. rewrite Fields_words by done. cbn [lookup list_lookup]. by rewrite Storage.hexDecode_Encode.
  - apply join_with_free; [done|]. eapply Forall_impl; [exact Hw|]. intros w Hx. by apply word_free.
Qed.

Lemma print_record_zero e : valid_tree_entry e -> x00 ∉ print_tree_entry e.
Proof.
  intros He. unfold print_tree_entry. rewrite not_elem_of_app, not_elem_of_cons. split; [|split; [done|apply He]].
  apply join_with_free; [done|]. eapply Forall_impl; [apply (tree_words e He)|]. intros w Hx. by apply word_free.
Qed.

Lemma parse_print_tree l : Forall valid_tree_entry l -> parse_tree (print_tree l) = foldl (fun m e => <[gt_path e := gt_hash e]> m) ∅ l.
Proof.
  intros Hl. unfold parse_tree, print_tree. rewrite split_zero_terminated.
  - rewrite foldl_app. cbn [foldl]. assert (parse_tree_record [] = None) as -> by (by vm_compute).
    generalize (∅ : gmap bytes bytes). induction Hl as [|e l He _ IH]; intros m; [done|]. cbn [fmap list_fmap foldl].
    rewrite parse_print_record by done. apply IH.
  - apply Forall_fmap. eapply Forall_impl; [exact Hl|]. apply print_record_zero.
Qed.

Lemma foldl_insert_lookup l path hash : NoDup (gt_path <$> l) ->
  (foldl (fun m e => <[gt_path e := gt_hash e]> m) (∅ : gmap bytes bytes) l !! path = Some hash <->
   exists e, e ∈ l /\ gt_path e = path /\ gt_hash e = hash).
Proof.
  induction l as [|e l IH] using rev_ind; intros Hnd.
  - cbn. rewrite lookup_empty. split; [done|]. by intros (e & He%elem_of_nil & _).
  - rewrite fmap_app in Hnd. apply NoDup_app in Hnd as (Hnd & Hn & _). specialize (IH Hnd). rewrite foldl_app. cbn [foldl].
    destruct (decide (path = gt_path e)) as [->|Hne].
    + rewrite lookup_insert_eq. split; [intros [= <-]; exists e; split; [apply elem_of_app; right; by left|done]|].
      intros (e' & He' & Ep & <-). apply elem_of_app in He' as [He'|He'%list_elem_of_singleton]; [|by subst].
      exfalso. apply (Hn (gt_path e')); [by apply list_elem_of_fmap_2|]. rewrite Ep. by left.
    + rewrite lookup_insert_ne by done. rewrite IH. split; intros (e' & He' & Ep & Eh); exists e'.
      * split; [apply elem_of_app; by left|done].
      * apply elem_of_app in He' as [He'|He'%list_elem_of_singleton]; [done|]. subst e'. by destruct Hne.
Qed.

(** * Properties *)

(** C35: What git prints is read back.  The changes that [git diff --name-status -z] prints
    are parsed to their statuses without scores and their paths (the new one of a rename or
    a copy), in order, whatever bytes the paths have; and the tree that [git ls-tree -z]
    prints is parsed to the map from its paths to their hashes. *)
Theorem git_output_parsed (changes : list git_change) (tree : list tree_entry) :
  Forall valid_change changes -> Forall valid_tree_entry tree -> NoDup (gt_path <$> tree) ->
  parse_diff (print_changes changes) = (fun ch => {| de_Status := take 1 (gd_status ch); de_Path := gd_path ch |}) <$> changes /\
  forall path hash, parse_tree (print_tree tree) !! path = Some hash <-> exists e, e ∈ tree /\ gt_path e = path /\ gt_hash e = hash.
Proof.
  intros Hc Ht Hnd. split.
  - unfold parse_diff, print_changes. rewrite split_zero_terminated.
    + apply diff_entries_print; [done|]. rewrite length_app. cbn. lia.
    + apply Forall_forall. intros f (ch & Hf & Hch)%list_elem_of_bind. rewrite Forall_forall in Hc.
      destruct (Hc ch Hch) as (_ & H1 & H2 & H3 & _). unfold change_fields in Hf. apply elem_of_cons in Hf as [->|Hf]; [done|].
      apply elem_of_app in Hf as [Hf|Hf%list_elem_of_singleton]; [rewrite Forall_forall in H3; by apply H3|by subst].
  - intros path hash. rewrite parse_print_tree by done. by apply foldl_insert_lookup.
Qed.

Lemma git_output_parsed_witness :
  parse_diff (print_changes [{| gd_status := bs "R100"; gd_source := Some (bs "old name.go"); gd_path := bs "new name.go" |};
                             {| gd_status := bs "M"; gd_source := None; gd_path := bs "a/b.go" |}]) =
    [{| de_Status := bs "R"; de_Path := bs "new name.go" |}; {| de_Status := bs "M"; de_Path := bs "a/b.go" |}].
Proof.
  refine (proj1 (git_output_parsed [{| gd_status := bs "R100"; gd_source := Some (bs "old name.go"); gd_path := bs "new name.go" |};
    {| gd_status := bs "M"; gd_source := None; gd_path := bs "a/b.go" |}] [] _ _ _)).
  - apply Forall_cons; split; [|apply Forall_singleton]; (split; [done|split; [decided|split; [decided|split; [decided|]]]]);
      (split; [intros H; try discriminate H; by eexists|intros [x Hx]; first [discriminate Hx|reflexivity]]).
  - constructor.
  - constructor.
Defined.
