(* ===== verification/Changes.v ===== *)
(** Classifying the changes between two commits ([core/itg/changeanalyzer/changeanalyzer.go]).  A compiled pattern is the predicate of the
    paths that it matches. *)
From Stdlib Require Import ZArith Lia.
From stdpp Require Import gmap fin_maps list.
From S2P Require Import Prelude Text GraphStore Git.

Local Open Scope Z_scope.

(** * The analyzer *)

Inductive ChangeComplexity := UnknownComplexity | NoChange | RegularFilesModificationOnly | ReparsePackagesNeeded | FullCalculationRequired.
Inductive FileCategory := UnknownCategory | RegularFile | BuildFile | ExtensionFile | CriticalFile | IgnoredFile.

#[export] Instance FileCategory_eq_dec : EqDecision FileCategory. Proof. solve_decision. Defined.
Definition category_code (c : FileCategory) : nat :=
  match c with UnknownCategory => 0 | RegularFile => 1 | BuildFile => 2 | ExtensionFile => 3 | CriticalFile => 4 | IgnoredFile => 5 end.
Definition category_of_code (n : nat) : FileCategory :=
  match n with 0 => UnknownCategory | 1 => RegularFile | 2 => BuildFile | 3 => ExtensionFile | 4 => CriticalFile | _ => IgnoredFile end%nat.

#[export] Instance FileCategory_countable : Countable FileCategory.
Proof. apply (inj_countable' category_code category_of_code). by intros []. Defined.

(** A [ChangedFileStatus] is a string. *)
Definition Added : bytes := bs "A".
Definition Deleted : bytes := bs "D".
Definition Modified : bytes := bs "M".
Definition Renamed : bytes := bs "R".

Abbreviation Summary := (gmap FileCategory (gmap bytes Z)).

Record AnalyzeChangeResponse := { ar_ChangeComplexity : ChangeComplexity; ar_Changes : list DiffEntry; ar_Summary : option Summary }.

Record analyzer := {
  buildFilePatterns : list (bytes -> bool);
  criticalFilePatterns : list (bytes -> bool);
  ignoredFilePatterns : list (bytes -> bool);
}.

Definition pattern : Type := bytes -> bool.

(** [regexp.Compile] is a parameter. *)
Fixpoint compilePatterns (compile : bytes -> res pattern) (patterns : list bytes) : res (list pattern) :=
  match patterns with
  | [] => Ok []
  | p :: patterns =>
      re ← match compile p with Ok re => Ok re | Err e => Err ("invalid pattern %q: %w" +:+ e) | Panic => Panic end;
      compiled ← compilePatterns compile patterns;
      Ok (re :: compiled)
  end.

Definition NewAnalyzer (compile : bytes -> res pattern) (build critical ignored : list bytes) : res analyzer :=
  buildPatterns ← match compilePatterns compile build with Err e => Err ("compiling build file patterns: %w" +:+ e) | r => r end;
  criticalPatterns ← match compilePatterns compile critical with Err e => Err ("compiling critical file patterns: %w" +:+ e) | r => r end;
  ignoredPatterns ← match compilePatterns compile ignored with Err e => Err ("compiling ignored file patterns: %w" +:+ e) | r => r end;
  Ok {| buildFilePatterns := buildPatterns; criticalFilePatterns := criticalPatterns; ignoredFilePatterns := ignoredPatterns |}.

Definition matchPatterns (patternsRegex : list pattern) (path : bytes) : bool := existsb (fun re => re path) patternsRegex.

(** [filepath.Ext]: the last element from its last dot on; the path is reversed. *)
Fixpoint ext_loop (path ext : bytes) : bytes :=
  match path with
  | [] => []
  | c :: path => if decide (c = slash) then [] else if decide (c = x2e) then c :: ext else ext_loop path (c :: ext)
  end.
Definition Ext (path : bytes) : bytes := ext_loop (reverse path) [].

Section analyzer.
Context (a : analyzer).

Definition GetFileCategory (path : bytes) : FileCategory :=
  if matchPatterns (criticalFilePatterns a) path then CriticalFile
  else if matchPatterns (ignoredFilePatterns a) path then IgnoredFile
  else if matchPatterns (buildFilePatterns a) path then BuildFile
  else if decide (Ext path = bs ".bzl") then ExtensionFile
  else RegularFile.

Definition summary_step (summary : Summary) (change : DiffEntry) : Summary :=
  let fileType := GetFileCategory (de_Path change) in
  let counts := default ∅ (summary !! fileType) in
  <[fileType := <[de_Status change := default 0 (counts !! de_Status change) + 1]> counts]> summary.

Definition summarize (changes : list DiffEntry) : Summary := foldl summary_step ∅ changes.

Definition hasOnlyIgnoredFiles (summary : Summary) : bool :=
  bool_decide (is_Some (summary !! IgnoredFile)) && bool_decide (size summary = 1%nat).
Definition hasCriticalFiles (summary : Summary) : bool := bool_decide (is_Some (summary !! CriticalFile)).
Definition isReparsePackagesNeeded (summary : Summary) : bool :=
  forallb (fun k => bool_decide (k = RegularFile \/ k = BuildFile \/ k = IgnoredFile)) (map_to_list summary).*1.

(** What follows the diff. *)
Definition analyze (changes : list DiffEntry) : AnalyzeChangeResponse :=
  if decide (changes = []) then {| ar_ChangeComplexity := NoChange; ar_Changes := changes; ar_Summary := None |}
  else
    let summary := summarize changes in
    let respond c := {| ar_ChangeComplexity := c; ar_Changes := changes; ar_Summary := Some summary |} in
    if hasOnlyIgnoredFiles summary then respond NoChange
    else if hasCriticalFiles summary then respond FullCalculationRequired
    else if decide (default 0 (default ∅ (summary !! RegularFile) !! Modified) = zlen changes) then respond RegularFilesModificationOnly
    else if isReparsePackagesNeeded summary then respond ReparsePackagesNeeded
    else respond UnknownComplexity.

(** The first and the second diff, a failure telling whether git ended with an exit code,
    and the fetch between them. *)
Definition AnalyzeChange (diff : bool -> list DiffEntry + bool * gerror) (fetch : option gerror) : AnalyzeChangeResponse + gerror :=
  match diff false with
  | inl changes => inl (analyze changes)
  | inr (false, e) => inr e
  | inr (true, e) =>
      match fetch with
      | Some errFetch => inr {| ge_code := ge_code e; ge_is := ge_is e; ge_msg := ge_msg e +:+ "fetch origin/main: " +:+ ge_msg errFetch |}
      | None =>
          match diff true with
          | inl changes => inl (analyze changes)
          | inr (_, e) => inr (wrap "git diff: " e)
          end
      end
  end.

(** * The classification *)

Definition category (change : DiffEntry) : FileCategory := GetFileCategory (de_Path change).

(** What the complexities mean. *)
Definition complexity_of (changes : list DiffEntry) : ChangeComplexity :=
  if forallb (fun c => bool_decide (category c = IgnoredFile)) changes then NoChange
  else if existsb (fun c => bool_decide (category c = CriticalFile)) changes then FullCalculationRequired
  else if forallb (fun c => bool_decide (category c = RegularFile /\ de_Status c = Modified)) changes then RegularFilesModificationOnly
  else if forallb (fun c => bool_decide (category c <> ExtensionFile)) changes then ReparsePackagesNeeded
  else UnknownComplexity.

Lemma GetFileCategory_known path : GetFileCategory path <> UnknownCategory.
Proof. unfold GetFileCategory. repeat case_match; done. Qed.

Definition counted (cat : FileCategory) (status : bytes) (changes : list DiffEntry) : Z :=
  zlen (filter (fun c => category c = cat /\ de_Status c = status) changes).

Lemma summarize_spec changes cat :
  (is_Some (summarize changes !! cat) <-> exists c, c ∈ changes /\ category c = cat) /\
  forall status, default 0 (default ∅ (summarize changes !! cat) !! status) = counted cat status changes.
Proof.
  unfold summarize. induction changes as [|c changes [IH1 IH2]] using rev_ind.
  { split; [|done]. cbn [foldl]. rewrite lookup_empty. split; [by intros [? ?]|]. by intros (c & Hc%elem_of_nil & _). }
  rewrite !foldl_app. cbn [foldl]. set (m := foldl summary_step ∅ changes) in *. unfold summary_step. fold (category c). split.
  - destruct (decide (category c = cat)) as [<-|Hne].
    + rewrite lookup_insert_eq. split; [|by eexists]. intros _. exists c. split; [apply elem_of_app; right; by left|done].
    + rewrite lookup_insert_ne by done. rewrite IH1. split; intros (c' & Hc & E); exists c'; (split; [|done]).
      * apply elem_of_app. by left.
      * apply elem_of_app in Hc as [Hc|Hc%list_elem_of_singleton]; [done|by subst].
  - intros status. unfold counted in *. rewrite filter_app, zlen_app. destruct (decide (category c = cat)) as [<-|Hne].
    + rewrite lookup_insert_eq. cbn [default from_option id]. destruct (decide (de_Status c = status)) as [<-|Hs].
      * rewrite lookup_insert_eq. cbn [default from_option id]. rewrite IH2, filter_cons, decide_True by done. done.
      * rewrite lookup_insert_ne by done. rewrite IH2, filter_cons, decide_False by tauto. by rewrite filter_nil, zlen_nil, Z.add_0_r.
    + rewrite lookup_insert_ne by done. rewrite IH2, filter_cons, decide_False by tauto. by rewrite filter_nil, zlen_nil, Z.add_0_r.
Qed.
End analyzer.

Section classification.
Context (a : analyzer).

Lemma forallb_Forall {A} (P : A -> Prop) `{!forall x, Decision (P x)} l : forallb (fun x => bool_decide (P x)) l = true <-> Forall P l.
Proof.
  induction l as [|x l IH]; cbn; [done|]. rewrite andb_true_iff, bool_decide_eq_true, IH, Forall_cons. done.
Qed.

Lemma only_ignored changes : changes <> [] ->
  hasOnlyIgnoredFiles (summarize a changes) = true <-> Forall (fun c => category a c = IgnoredFile) changes.
Proof.
  intros Hne. unfold hasOnlyIgnoredFiles. rewrite andb_true_iff, !bool_decide_eq_true, Forall_forall.
  assert (forall cat, is_Some (summarize a changes !! cat) <-> exists c, c ∈ changes /\ category a c = cat) as Hs by (intros cat; apply summarize_spec).
  split.
  - intros [Hi Hsize] c Hc. rewrite <- size_dom in Hsize. symmetry. eapply (size_singleton_inv _ _ _ Hsize); apply elem_of_dom; [done|].
    apply Hs. by exists c.
  - intros Hall. destruct changes as [|c0 changes]; [done|]. split; [apply Hs; exists c0; split; [by left|apply Hall; by left]|].
    rewrite <- size_dom. assert (dom (summarize a (c0 :: changes)) = {[IgnoredFile]}) as ->; [|apply size_singleton].
    apply set_eq. intros cat. rewrite elem_of_dom, Hs, elem_of_singleton. split.
    + intros (c & Hc & <-). by apply Hall.
    + intros ->. exists c0. split; [by left|apply Hall; by left].
Qed.

Lemma critical changes : hasCriticalFiles (summarize a changes) = existsb (fun c => bool_decide (category a c = CriticalFile)) changes.
Proof.
  apply eq_bool_prop_intro. unfold hasCriticalFiles. rewrite bool_decide_spec. destruct (summarize_spec a changes CriticalFile) as [-> _].
  rewrite Is_true_true, existsb_exists. split; intros (c & Hc & E); exists c; (split; [by apply list_elem_of_In|]).
  - by apply bool_decide_eq_true.
  - by apply bool_decide_eq_true in E.
Qed.

Lemma counted_all cat status changes : counted a cat status changes = zlen changes <->
  Forall (fun c => category a c = cat /\ de_Status c = status) changes.
Proof.
  unfold counted, zlen. induction changes as [|c changes IH]; [done|]. rewrite Forall_cons, filter_cons.
  pose proof (length_filter (fun c => category a c = cat /\ de_Status c = status) changes) as Hle.
  case_decide; cbn [length]; [rewrite <- IH; split; [intros; split; [done|lia]|lia]|]. split; [lia|tauto].
Qed.

Lemma regular_modified changes :
  default 0 (default ∅ (summarize a changes !! RegularFile) !! Modified) = zlen changes <->
  forallb (fun c => bool_decide (category a c = RegularFile /\ de_Status c = Modified)) changes = true.
Proof. destruct (summarize_spec a changes RegularFile) as [_ ->]. rewrite counted_all. symmetry. apply (forallb_Forall (fun c => category a c = RegularFile /\ de_Status c = Modified)). Qed.

Lemma reparse changes : existsb (fun c => bool_decide (category a c = CriticalFile)) changes = false ->
  isReparsePackagesNeeded (summarize a changes) = forallb (fun c => bool_decide (category a c <> ExtensionFile)) changes.
Proof.
  intros Hn. apply eq_bool_prop_intro. rewrite !Is_true_true. unfold isReparsePackagesNeeded.
  rewrite (forallb_Forall (fun k => k = RegularFile \/ k = BuildFile \/ k = IgnoredFile)), (forallb_Forall (fun c => category a c <> ExtensionFile)), !Forall_forall.
  assert (forall cat, cat ∈ (map_to_list (summarize a changes)).*1 <-> exists c, c ∈ changes /\ category a c = cat) as Hk.
  { intros cat. destruct (summarize_spec a changes cat) as [<- _]. rewrite list_elem_of_fmap. split.
    - intros ([k v] & -> & H). apply elem_of_map_to_list in H. by eexists.
    - intros [v Hv]. exists (cat, v). split; [done|by apply elem_of_map_to_list]. }
  assert (forall c, c ∈ changes -> category a c <> CriticalFile) as Hcrit.
  { intros c Hc E. apply not_true_iff_false in Hn. apply Hn, existsb_exists. exists c. split; [by apply list_elem_of_In|by apply bool_decide_eq_true]. }
  split.
  - intros H c Hc E. destruct (H (category a c)) as [?|[?|?]]; [apply Hk; by exists c|congruence..].
  - intros H k (c & Hc & <-)%Hk. specialize (H c Hc). specialize (Hcrit c Hc). pose proof (GetFileCategory_known a (de_Path c)) as Hu. fold (category a c) in Hu.
    destruct (category a c); tauto.
Qed.
End classification.

(** C34: Changes are classified by what they touch.  The summary by category and status
    decides the same complexity as the list of changes: no change when only ignored files
    changed, a full calculation as soon as a critical file did, the modification of
    regular files when that is all there is, a new parse of packages when no extension file
    changed, and otherwise unknown; a diff that fails with an exit code is tried again after
    a fetch, and any other failure is returned. *)
Theorem analysis_classifies (a : analyzer) (diff : bool -> list DiffEntry + bool * gerror) (fetch : option gerror) :
  match AnalyzeChange a diff fetch with
  | inl r => ar_ChangeComplexity r = complexity_of a (ar_Changes r) /\
      (diff false = inl (ar_Changes r) \/
       (exists e, diff false = inr (true, e)) /\ fetch = None /\ diff true = inl (ar_Changes r)) /\
      (forall c cat, c ∈ ar_Changes r -> category a c = cat -> exists counts, ar_Summary r ≫= (.!! cat) = Some counts /\
         default 0 (counts !! de_Status c) = counted a cat (de_Status c) (ar_Changes r))
  | inr _ => exists exited e, diff false = inr (exited, e) /\ (exited = true -> fetch <> None \/ is_Some (match diff true with inr e => Some e | inl _ => None end))
  end.
Proof.
  assert (forall changes, ar_Changes (analyze a changes) = changes /\ ar_ChangeComplexity (analyze a changes) = complexity_of a changes /\
    (forall c cat, c ∈ changes -> category a c = cat -> exists counts, ar_Summary (analyze a changes) ≫= (.!! cat) = Some counts /\
         default 0 (counts !! de_Status c) = counted a cat (de_Status c) changes)) as H.
  { intros changes. unfold analyze, complexity_of. case_decide as Hne; [subst; split_and!; [done|done|]; by intros c cat Hc%elem_of_nil|].
    assert (hasOnlyIgnoredFiles (summarize a changes) = forallb (fun c => bool_decide (category a c = IgnoredFile)) changes) as ->.
    { apply eq_bool_prop_intro. rewrite !Is_true_true, (forallb_Forall (fun c => category a c = IgnoredFile)). by apply only_ignored. }
    rewrite critical. set (respond := fun c => Build_AnalyzeChangeResponse c changes (Some (summarize a changes))).
    assert (forall co, ar_Changes (respond co) = changes /\ ar_ChangeComplexity (respond co) = co /\
      (forall c cat, c ∈ changes -> category a c = cat -> exists counts, ar_Summary (respond co) ≫= (.!! cat) = Some counts /\
         default 0 (counts !! de_Status c) = counted a cat (de_Status c) changes)) as Hr.
    { intros co. split_and!; [done|done|]. intros c cat Hc E. destruct (summarize_spec a changes cat) as [H1 H2].
      destruct (proj2 H1) as [counts Hcounts]; [by exists c|]. exists counts. split; [done|]. specialize (H2 (de_Status c)). by rewrite Hcounts in H2. }
    destruct (forallb _ changes) eqn:E1; [apply Hr|]. destruct (existsb _ changes) eqn:E2; [apply Hr|].
    rewrite (reparse a changes E2). case_decide as E3.
    - apply regular_modified in E3. rewrite E3. apply Hr.
    - destruct (forallb (fun c => bool_decide (category a c = RegularFile /\ de_Status c = Modified)) changes) eqn:E4; [by apply regular_modified in E4|].
      destruct (forallb (fun c => bool_decide (category a c <> ExtensionFile)) changes); apply Hr. }
  unfold AnalyzeChange. destruct (diff false) as [changes|[[|] e]] eqn:E1.
  - destruct (H changes) as (-> & Hco & Hs). split_and!; [done|by left|done].
  - destruct fetch as [ef|]; [exists true, e; split; [done|]; by left|]. destruct (diff true) as [changes|[b e2]] eqn:E2.
    + destruct (H changes) as (-> & Hco & Hs). split_and!; [done| |done]. right. split_and!; [by exists e|done|done].
    + exists true, e. split; [done|]. intros _. right. by eexists.
  - exists false, e. by split.
Qed.
