(* ===== verification/Packages.v ===== *)
(** The names and packages of workspace files
    ([core/itg/workspaceutils/workspaceutils.go]), with the paths of [path/filepath]. *)
From Stdlib Require Import ZArith Lia.
From stdpp Require Import gmap list.
From S2P Require Import Prelude Text.

Local Open Scope Z_scope.

(** * Target names *)

(** [strings.LastIndex] of a slash, [-1] if there is none. *)
Fixpoint last_slash (s : bytes) : Z :=
  match s with
  | [] => -1
  | c :: s => let i := last_slash s in if decide (0 <= i) then i + 1 else if decide (c = slash) then 0 else -1
  end.

Definition RelFilePathToTargetName (relFilePath : bytes) : res bytes :=
  let lastSep := last_slash relFilePath in
  dir ← slice relFilePath 0 lastSep;
  name ← slice relFilePath (lastSep + 1) (zlen relFilePath);
  Ok (bs "//" ++ dir ++ bs ":" ++ name).

Fixpoint RelFilePathsToTargetNames (relFilePaths : list bytes) : res (list bytes) :=
  match relFilePaths with
  | [] => Ok []
  | p :: ps => t ← RelFilePathToTargetName p; ts ← RelFilePathsToTargetNames ps; Ok (t :: ts)
  end.

Definition PkgNameToTargetName (pkg : bytes) : bytes := bs "//" ++ (if decide (pkg = dot) then [] else pkg) ++ bs ":*".

(** * Packages *)

(** [filepath.Dir] *)
Definition Dir (path : bytes) : bytes := Clean (take (Z.to_nat (last_slash path + 1)) path).

(** The elements of a cleaned path, and whether it is rooted. *)
Definition elements (path : bytes) : bool * list bytes :=
  let path := Clean path in
  let rooted := bool_decide (head path = Some slash) in
  let rest := if rooted then drop 1 path else path in
  (rooted, if decide (rest = [] \/ path = dot) then [] else split_on slash rest).

Fixpoint strip_common (base targ : list bytes) : list bytes * list bytes :=
  match base, targ with
  | b :: base', t :: targ' => if decide (b = t) then strip_common base' targ' else (base, targ)
  | _, _ => (base, targ)
  end.

(** [filepath.Rel] *)
Definition Rel (basepath targpath : bytes) : res bytes :=
  let '(baseRooted, base) := elements basepath in
  let '(targRooted, targ) := elements targpath in
  if decide (Clean targpath = Clean basepath) then Ok dot
  else if decide (baseRooted <> targRooted) then Err "Rel: can't make %s relative to %s"
  else
    let '(base, targ) := strip_common base targ in
    if decide (head base = Some dotdot) then Err "Rel: can't make %s relative to %s"
    else Ok (join_with slash (replicate (length base) dotdot ++ targ)).

Definition _buildFileNames : list bytes := [bs "BUILD.bazel"; bs "BUILD"].

(** What [os.Stat] returns: whether there is a directory, or an error that is or is not
    [ErrNotExist]. *)
Inductive file_status := IsFile | IsDirectory | NotExist | StatError (e : string).

Section packages.
Context (stat : bytes -> file_status) (workspaceRoot : bytes).

(** The loop over the names of build files; [None] when there is none. *)
Fixpoint find_build_file (absDir : bytes) (names : list bytes) : option (res bytes) :=
  match names with
  | [] => None
  | name :: names =>
      match stat (Join [absDir; name]) with
      | StatError e => Some (Err ("stat file for GetContainingPackage: %w" +:+ e))
      | IsFile =>
          Some (match Rel workspaceRoot absDir with
                | Ok rel => Ok (if decide (rel = dot) then [] else rel)
                | Err e => Err ("computing relative path for GetContainingPackage: %w" +:+ e)
                | Panic => Panic
                end)
      | IsDirectory | NotExist => find_build_file absDir names
      end
  end.

(** The loop over the parent directories; [None] when the fuel runs out. *)
Fixpoint containing_loop (fuel : nat) (absDir : bytes) : option (res bytes) :=
  match fuel with
  | O => None
  | S fuel =>
      match find_build_file absDir _buildFileNames with
      | Some r => Some r
      | None =>
          if decide (absDir = workspaceRoot) then Some (Err "parent package does not exist")
          else
            let parentDir := Dir absDir in
            if decide (parentDir = absDir) then Some (Err "unable to reach workspace root %q")
            else containing_loop fuel parentDir
      end
  end.

Definition GetContainingPackage (fuel : nat) (relPath : bytes) : option (res bytes) :=
  containing_loop fuel (Dir (Join [workspaceRoot; relPath])).
End packages.

(** ** Paths by their elements *)

Definition path_of (segs : list bytes) : bytes := slash :: join_with slash segs.

Lemma normal_free l : Forall normal l -> Forall (fun x => slash ∉ x) l.
Proof. intros H. eapply Forall_impl; [exact H|]. intros x Hx. apply Hx. Qed.

Lemma kept_path_of segs : Forall normal segs -> kept (path_of segs) = segs.
Proof.
  intros H. unfold kept, path_of. assert (forall s, split_on slash (slash :: s) = [] :: split_on slash s) as -> by (intros s; cbn; by rewrite decide_True).
  cbn [foldl]. unfold clean_step at 2. rewrite decide_True by auto. destruct (decide (segs = [])) as [->|Hne]; [done|].
  rewrite split_join by (done || by apply normal_free). rewrite clean_normal by done. by rewrite app_nil_r, reverse_involutive.
Qed.

Lemma Clean_path_of segs : Forall normal segs -> Clean (path_of segs) = path_of segs.
Proof. intros H. rewrite Clean_rooted by done. by rewrite kept_path_of. Qed.

Lemma path_of_inj segs segs' : Forall normal segs -> Forall normal segs' -> path_of segs = path_of segs' -> segs = segs'.
Proof. intros H H' E. by rewrite <- (kept_path_of segs), E, kept_path_of. Qed.

Lemma Join_path_of segs rel : Forall normal segs -> plain rel -> Join [path_of segs; rel] = path_of (segs ++ split_on slash rel).
Proof.
  intros H Hr. assert (Join [path_of segs; rel] = Clean (path_of segs ++ slash :: rel)) as -> by done.
  rewrite Clean_rooted by done. rewrite kept_app by done. by rewrite kept_path_of.
Qed.

Lemma last_slash_app s t : slash ∉ t -> last_slash (s ++ slash :: t) = zlen s.
Proof.
  intros Ht. assert (last_slash t = -1) as Hn.
  { induction t as [|c t IH]; [done|]. apply not_elem_of_cons in Ht as [Hc Ht]. cbn [last_slash]. rewrite (IH Ht). cbv zeta. rewrite !decide_False by (lia || congruence). done. }
  induction s as [|c s IH]; cbn [app last_slash].
  - rewrite Hn. cbv zeta. rewrite decide_False by lia. by rewrite decide_True.
  - rewrite IH, zlen_cons. cbv zeta. pose proof (zlen_nonneg s). rewrite decide_True by lia. lia.
Qed.

Lemma path_of_snoc segs x : segs <> [] -> path_of (segs ++ [x]) = path_of segs ++ slash :: x.
Proof. intros Hne. unfold path_of. by rewrite join_with_app by done. Qed.

Lemma Dir_path_of segs x : Forall normal (segs ++ [x]) -> Dir (path_of (segs ++ [x])) = path_of segs.
Proof.
  intros H. apply Forall_app in H as [Hs [(_ & Hx & _) _]%Forall_cons]. unfold Dir. destruct (decide (segs = [])) as [->|Hne].
  - change (path_of ([] ++ [x])) with ([] ++ slash :: x). rewrite last_slash_app by done. done.
  - rewrite path_of_snoc by done. rewrite last_slash_app by done.
    assert (take (Z.to_nat (zlen (path_of segs) + 1)) (path_of segs ++ slash :: x) = path_of segs ++ [slash]) as ->.
    { replace (path_of segs ++ slash :: x) with ((path_of segs ++ [slash]) ++ x) by (by rewrite <- app_assoc).
      apply take_app_length'. rewrite length_app. unfold zlen. cbn [length]. lia. }
    rewrite Clean_rooted by done. unfold kept. rewrite split_on_app, foldl_app. cbn [split_on foldl]. unfold clean_step at 1. rewrite decide_True by auto.
    pose proof (kept_path_of _ Hs) as E. unfold kept in E. by rewrite E.
Qed.

Lemma Dir_root : Dir (path_of []) = path_of [].
Proof. by vm_compute. Qed.

Lemma elements_path_of segs : Forall normal segs -> elements (path_of segs) = (true, segs).
Proof.
  intros H. unfold elements. rewrite Clean_path_of by done. unfold path_of. cbn [head]. rewrite bool_decide_true by done. cbn [drop].
  rewrite drop_0. f_equal. destruct (decide (segs = [])) as [->|Hne]; [done|]. rewrite decide_False, split_join; [done|done|by apply normal_free|].
  intros [E|E]; [|discriminate E]. apply (f_equal (split_on slash)) in E. rewrite split_join in E by (done || by apply normal_free).
  subst segs. by apply Forall_cons in H as [(? & _) _].
Qed.

Lemma strip_common_prefix base rest : strip_common base (base ++ rest) = ([], rest).
Proof. induction base as [|b base IH]; cbn; [by destruct rest|]. by rewrite decide_True. Qed.

Lemma Rel_path_of base rest : Forall normal (base ++ rest) ->
  Rel (path_of base) (path_of (base ++ rest)) = Ok (if decide (rest = []) then dot else join_with slash rest).
Proof.
  intros H. pose proof H as [Hb _]%Forall_app. unfold Rel. rewrite !elements_path_of, !Clean_path_of by done.
  destruct (decide (rest = [])) as [->|Hr]; [by rewrite decide_True by (by rewrite app_nil_r)|].
  rewrite decide_False; [rewrite decide_False by auto|].
  - rewrite strip_common_prefix. done.
  - intros E. apply path_of_inj in E; [|done..]. destruct Hr. rewrite <- (app_nil_r base) in E at 2. by apply app_inv_head in E.
Qed.

(** ** The search for a build file *)

Section search.
Context (stat : bytes -> file_status) (root : list bytes) (root_normal : Forall normal root).

Definition regular (r : file_status) : bool := match r with IsFile => true | _ => false end.

(** Whether a directory has a build file. *)
Definition has_build_file (segs : list bytes) : bool := existsb (fun name => regular (stat (Join [path_of segs; name]))) _buildFileNames.

(** The nearest directory with a build file, from a directory of the workspace upwards. *)
Definition nearest_package (segs : list bytes) (r : option (list bytes)) : Prop :=
  match r with
  | Some pkg => has_build_file (root ++ pkg) = true /\ pkg `prefix_of` segs /\
      forall d, d `prefix_of` segs -> pkg `prefix_of` d -> has_build_file (root ++ d) = true -> d = pkg
  | None => forall d, d `prefix_of` segs -> has_build_file (root ++ d) = false
  end.

Definition package_result (r : option (list bytes)) : res bytes :=
  match r with
  | Some pkg => Ok (join_with slash pkg)
  | None => Err "parent package does not exist"
  end.

Context (no_errors : forall p e, stat p <> StatError e).

Lemma find_build_file_spec segs : Forall normal (root ++ segs) ->
  find_build_file stat (path_of root) (path_of (root ++ segs)) _buildFileNames
    = if has_build_file (root ++ segs) then Some (Ok (join_with slash segs)) else None.
Proof using no_errors.
  intros H. unfold has_build_file.
  assert (forall names, find_build_file stat (path_of root) (path_of (root ++ segs)) names
    = if existsb (fun name => regular (stat (Join [path_of (root ++ segs); name]))) names then Some (Ok (join_with slash segs)) else None) as Hn; [|apply Hn].
  induction names as [|name names IH]; [done|]. cbn [find_build_file existsb]. destruct (stat _) eqn:E; cbn [regular orb]; [|done..|by destruct (no_errors _ _ E)].
  rewrite Rel_path_of by done. do 2 f_equal. destruct (decide (segs = [])) as [->|Hne]; [by rewrite decide_True|]. rewrite decide_False; [done|].
  intros Ed. apply (f_equal (split_on slash)) in Ed. apply Forall_app in H as [_ H]. rewrite split_join in Ed by (done || by apply normal_free).
  subst segs. apply Forall_cons in H as [(_ & _ & Hd & _) _]. by destruct Hd.
Qed.

Lemma path_of_parent segs x : Forall normal (root ++ segs ++ [x]) -> path_of (root ++ segs ++ [x]) <> path_of root /\ path_of (root ++ segs) <> path_of (root ++ segs ++ [x]).
Proof.
  intros H. pose proof H as [Hr [Hs _]%Forall_app]%Forall_app. split; intros E.
  - apply path_of_inj in E; [|done..]. apply (f_equal length) in E. rewrite !length_app in E. cbn in E. lia.
  - apply path_of_inj in E; [|by apply Forall_app|done]. apply (f_equal length) in E. rewrite !length_app in E. cbn in E. lia.
Qed.

Lemma containing_loop_spec segs fuel : Forall normal (root ++ segs) -> (length segs < fuel)%nat ->
  exists r, containing_loop stat (path_of root) fuel (path_of (root ++ segs)) = Some (package_result r) /\ nearest_package segs r.
Proof using no_errors.
  revert fuel. induction segs as [|x segs IH] using rev_ind; intros [|fuel] H Hf; try lia; cbn [containing_loop]; rewrite find_build_file_spec by done.
  - destruct (has_build_file (root ++ [])) eqn:Eb.
    + exists (Some []). split; [done|]. split_and!; [done|done|]. by intros d ->%prefix_nil_inv _ _.
    + exists None. split; [by rewrite app_nil_r, decide_True|]. by intros d ->%prefix_nil_inv.
  - destruct (has_build_file (root ++ segs ++ [x])) eqn:Eb.
    + exists (Some (segs ++ [x])). split; [done|]. split_and!; [done|done|]. intros d H1 H2 _. by apply (anti_symm prefix).
    + destruct (path_of_parent _ _ H) as [Hne Hne']. rewrite decide_False by done.
      replace (Dir (path_of (root ++ segs ++ [x]))) with (path_of (root ++ segs)) by (rewrite app_assoc; symmetry; apply Dir_path_of; by rewrite <- app_assoc).
      rewrite decide_False by done. rewrite length_app in Hf. cbn in Hf. rewrite app_assoc in H. pose proof H as [H' _]%Forall_app.
      destruct (IH fuel H' ltac:(lia)) as (r & Hr & Hn). exists r. split; [done|].
      assert (forall d, d `prefix_of` segs ++ [x] -> has_build_file (root ++ d) = true -> d `prefix_of` segs) as Hd.
      { intros d [rest E] Hb. destruct rest as [|y rest _] using rev_ind; [rewrite app_nil_r in E; subst d; congruence|].
        rewrite app_assoc in E. apply app_inj_tail in E as [-> _]. by exists rest. }
      destruct r as [pkg|]; cbn [nearest_package] in Hn |- *.
      * destruct Hn as (Hb & Hp & Hu). split_and!; [done|by apply prefix_app_r|]. intros d H1 H2 H3. apply Hu; [by apply Hd|done..].
      * intros d H1. destruct (has_build_file (root ++ d)) eqn:E; [|done]. pose proof (Hd _ H1 E) as H2. rewrite (Hn _ H2) in E. done.
Qed.
End search.

Lemma last_slash_none s : slash ∉ s -> last_slash s = -1.
Proof.
  induction s as [|c s IH]; intros H; [done|]. apply not_elem_of_cons in H as [Hc H]. cbn [last_slash]. rewrite (IH H). cbv zeta.
  rewrite !decide_False by (lia || congruence). done.
Qed.

(** A path is the text before its last slash and the text after it, or has no slash. *)
Lemma last_slash_split s : (slash ∉ s) \/ exists dir name, s = dir ++ slash :: name /\ (slash ∉ name).
Proof.
  destruct (decide (slash ∈ s)) as [H|H]; [right|by left]. induction s as [|c s IH]; [by apply not_elem_of_nil in H|].
  destruct (decide (slash ∈ s)) as [Hs|Hs].
  - destruct (IH Hs) as (dir & name & -> & Hn). by exists (c :: dir), name.
  - apply elem_of_cons in H as [<-|H]; [|done]. by exists [], s.
Qed.

(** The label of a file is its directory and its name, and parses back to both. *)
Lemma target_name_parts dir name : slash ∉ name ->
  RelFilePathToTargetName (dir ++ slash :: name) = Ok (bs "//" ++ dir ++ bs ":" ++ name).
Proof.
  intros H. unfold RelFilePathToTargetName. rewrite last_slash_app by done. 
  assert (slice (dir ++ slash :: name) 0 (zlen dir) = Ok dir) as E1.
  { rewrite slice_Ok by zlen_lia. rewrite drop_0, take_app_length'; [done|]. unfold zlen. lia. }
  assert (slice (dir ++ slash :: name) (zlen dir + 1) (zlen (dir ++ slash :: name)) = Ok name) as E2.
  { replace (dir ++ slash :: name) with ((dir ++ [slash]) ++ name) by (by rewrite <- app_assoc).
    replace (zlen dir + 1) with (zlen (dir ++ [slash])) by (by rewrite zlen_app). apply slice_suffix. }
  cbv zeta. rewrite E1. change (mbind ?f (Ok dir)) with (f dir). cbv beta. by rewrite E2.
Qed.

Lemma target_name_root s : slash ∉ s -> RelFilePathToTargetName s = Panic.
Proof. intros H. unfold RelFilePathToTargetName. by rewrite last_slash_none. Qed.

(** The target of a file that is in a directory. *)
Definition target_of (p t : bytes) : Prop := exists dir name, p = dir ++ [slash] ++ name /\ (slash ∉ name) /\ t = bs "//" ++ dir ++ [x3a] ++ name.

Lemma target_of_inj p p' t : x3a ∉ p -> x3a ∉ p' -> target_of p t -> target_of p' t -> p = p'.
Proof.
  intros Hp Hp' (d & n & -> & _ & ->) (d' & n' & -> & _ & E). apply app_inv_head, (f_equal (split_on x3a)) in E. cbn [app] in *. rewrite !split_on_app in E.
  rewrite !not_elem_of_app, !not_elem_of_cons in Hp, Hp'. rewrite !split_on_free in E by tauto. by simplify_eq/=.
Qed.

(** The names of the targets of a list of files: each is the file's directory and its
    base name, and two files without a colon in their paths have the same name only if they
    are the same. If one of the files is at the root of the workspace there are no names:
    the slice expression panics. *)
Theorem target_names_of_files (ps : list bytes) :
  match RelFilePathsToTargetNames ps with
  | Ok ts => Forall2 target_of ps ts /\ (Forall (fun p => x3a ∉ p) ps -> NoDup ps -> NoDup ts)
  | Err _ => False
  | Panic => Exists (fun p => slash ∉ p) ps
  end.
Proof.
  induction ps as [|p ps IH]; [done|]. cbn [RelFilePathsToTargetNames]. destruct (last_slash_split p) as [Hp|(dir & name & Hp & Hn)].
  - rewrite target_name_root by done. by left.
  - assert (target_of p (bs "//" ++ dir ++ x3a :: name)) as Ht by (by exists dir, name).
    rewrite Hp, target_name_parts, <- Hp by done. change (mbind ?f (Ok ?x)) with (f x). cbv beta.
    destruct (RelFilePathsToTargetNames ps) as [ts| |]; [|done|by right]. destruct IH as [H Hi]. change (mbind ?f (Ok ?x)) with (f x). cbv beta.
    split; [by constructor|]. intros [Hc Hcs]%Forall_cons [Hnin Hnd]%NoDup_cons. constructor; [|by apply Hi].
    intros Hin. destruct Hnin. apply list_elem_of_lookup in Hin as [i Hi']. destruct (Forall2_lookup_r _ _ _ _ _ H Hi') as (p' & Hp' & Ht').
    rewrite (target_of_inj p p' _ Hc (proj1 (Forall_lookup _ _) Hcs _ _ Hp') Ht Ht'). by apply list_elem_of_lookup_2 with i.
Qed.

(** The package of a file of the workspace is the nearest directory upwards that has a
    build file, as a path from the root of the workspace (the empty path if it is the root),
    and there is the error for a missing package exactly if no directory between the file
    and the root has one. The loop does not leave the workspace: as many rounds as the path
    has segments are enough. The root is an absolute path in the form [path.Clean] gives it, and
    the path is made of plain segments; no call of [os.Stat] fails for another reason. *)
Theorem containing_package (stat : bytes -> file_status) (root : list bytes) (relPath : bytes) (fuel : nat)
  (Hroot : Forall normal root) (Hrel : plain relPath) (Hstat : forall p e, stat p <> StatError e)
  (Hfuel : (length (split_on slash relPath) <= fuel)%nat) :
  exists r, GetContainingPackage stat (path_of root) fuel relPath = Some (package_result r)
    /\ nearest_package stat root (removelast (split_on slash relPath)) r.
Proof.
  unfold plain in Hrel. unfold GetContainingPackage. rewrite Join_path_of by done.
  pose proof (split_on_nonempty slash relPath) as Hne. destruct (exists_last Hne) as (dir & name & E). rewrite E in *. clear Hne E.
  assert (Forall normal (root ++ dir ++ [name])) as Hn by (by apply Forall_app). rewrite removelast_last.
  rewrite app_assoc, Dir_path_of by (by rewrite <- app_assoc). rewrite length_app in Hfuel. cbn in Hfuel.
  apply containing_loop_spec; [done|..|lia]. rewrite app_assoc in Hn. by apply Forall_app in Hn as [? _].
Qed.

Definition sample_stat (p : bytes) : file_status :=
  if decide (p = bs "/ws/app/BUILD") then IsFile else if decide (p = bs "/ws/app/src/BUILD.bazel") then IsDirectory else NotExist.

Lemma containing_package_witness :
  (exists r, GetContainingPackage sample_stat (path_of [bs "ws"]) 3 (bs "app/src/main.go") = Some (package_result r)
    /\ nearest_package sample_stat [bs "ws"] (removelast (split_on slash (bs "app/src/main.go"))) r)
  /\ GetContainingPackage sample_stat (path_of [bs "ws"]) 3 (bs "app/src/main.go") = Some (Ok (bs "app")).
Proof.
  split; [|by vm_compute]. apply (containing_package sample_stat [bs "ws"] (bs "app/src/main.go") 3).
  - apply (bool_decide_unpack _). vm_compute. exact I.
  - apply (bool_decide_unpack _). vm_compute. exact I.
  - intros p e. unfold sample_stat. by repeat case_decide.
  - apply (bool_decide_unpack _). vm_compute. exact I.
Defined.
