(* ===== verification/Url.v ===== *)
(** URLs of Go's standard library ([net/url]), as far as change URIs use them: parsing, and
    the escaping of paths and hosts.  A host in brackets is parsed by a parameter. *)
From Stdlib Require Import ZArith Lia.
From stdpp Require Import gmap list.
From S2P Require Import Prelude Text.

Local Open Scope Z_scope.

(** * Escaping *)

Inductive encoding := encodePath | encodeHost | encodeFragment.

#[export] Instance encoding_eq_dec : EqDecision encoding. Proof. solve_decision. Defined.

Definition alphanumeric (c : byte) : bool :=
  let v := b2z c in bool_decide (97 <= v <= 122 \/ 65 <= v <= 90 \/ 48 <= v <= 57).

Definition shouldEscape (c : byte) (mode : encoding) : bool :=
  if alphanumeric c then false
  else if bool_decide (mode = encodeHost /\ c ∈ x22 :: bs "!$&'()*+,;=:[]<>") then false
  else if bool_decide (c ∈ bs "-_.~") then false
  else if bool_decide (c ∈ bs "$&+,/:;=?@") then
    match mode with
    | encodePath => bool_decide (c = x3f)
    | encodeFragment => false
    | encodeHost => true
    end
  else if bool_decide (mode = encodeFragment /\ c ∈ bs "!()*") then false
  else true.

Definition unhex (c : byte) : option Z :=
  let v := b2z c in
  if decide (48 <= v <= 57) then Some (v - 48)
  else if decide (97 <= v <= 102) then Some (v - 87)
  else if decide (65 <= v <= 70) then Some (v - 55)
  else None.

(** In a host only bytes outside ASCII, and the percent sign, may be escaped. *)
Fixpoint unescape (s : bytes) (mode : encoding) : res bytes :=
  match s with
  | [] => Ok []
  | c :: s' =>
      if decide (c = x25) then
        match s' with
        | a :: b :: s'' =>
            match unhex a, unhex b with
            | Some hi, Some lo =>
                if decide (mode = encodeHost /\ hi < 8 /\ ~ (a = x32 /\ b = x35)) then Err "invalid URL escape"
                else r ← unescape s'' mode; Ok (z2b (hi * 16 + lo) :: r)
            | _, _ => Err "invalid URL escape"
            end
        | _ => Err "invalid URL escape"
        end
      else if decide (mode = encodeHost /\ b2z c < 128 /\ shouldEscape c mode = true) then Err "invalid character in host name"
      else r ← unescape s' mode; Ok (c :: r)
  end.

Definition escape (s : bytes) (mode : encoding) : bytes :=
  concat ((fun c => if shouldEscape c mode then [x25; upper_hex (b2z c / 16); upper_hex (b2z c mod 16)] else [c]) <$> s).

Definition validEncoded (s : bytes) (mode : encoding) : bool :=
  forallb (fun c => bool_decide (c ∈ bs "!$&'()*+,;=:@[]%") || negb (shouldEscape c mode)) s.

(** * Parsing *)

Record URL := {
  u_Scheme : bytes;
  u_Opaque : bytes;
  u_User : bool;  (** whether there is userinfo *)
  u_Host : bytes;
  u_Path : bytes;
  u_RawPath : bytes;
  u_ForceQuery : bool;
  u_RawQuery : bytes;
  u_Fragment : bytes;
}.

(** The text before and after the last [c]. *)
Fixpoint cut_last (c : byte) (s : bytes) : option (bytes * bytes) :=
  match s with
  | [] => None
  | b :: s =>
      match cut_last c s with
      | Some (x, y) => Some (b :: x, y)
      | None => if decide (b = c) then Some ([], s) else None
      end
  end.

Definition stringContainsCTLByte (s : bytes) : bool := existsb (fun c => bool_decide (b2z c < 32 \/ b2z c = 127)) s.

Definition lower (c : byte) : byte := if decide (65 <= b2z c <= 90) then z2b (b2z c + 32) else c.

(** The loop of [getScheme], [scheme] being read. *)
Fixpoint scheme_loop (rest scheme : bytes) (rawURL : bytes) : res (bytes * bytes) :=
  match rest with
  | [] => Ok ([], rawURL)
  | c :: rest =>
      let v := b2z c in
      if decide (97 <= v <= 122 \/ 65 <= v <= 90) then scheme_loop rest (scheme ++ [c]) rawURL
      else if decide (48 <= v <= 57 \/ c ∈ bs "+-.") then
        if decide (scheme = []) then Ok ([], rawURL) else scheme_loop rest (scheme ++ [c]) rawURL
      else if decide (c = x3a) then if decide (scheme = []) then Err "missing protocol scheme" else Ok (scheme, rest)
      else Ok ([], rawURL)
  end.

Definition getScheme (rawURL : bytes) : res (bytes * bytes) := scheme_loop rawURL [] rawURL.

Definition validOptionalPort (port : bytes) : bool :=
  match port with
  | [] => true
  | c :: port => bool_decide (c = x3a) && forallb (fun c => bool_decide (is_digit c)) port
  end.

Section url.
Context (ip_literal : bytes -> res bytes).

Definition parseHost (host : bytes) : res bytes :=
  if decide (head host = Some x5b) then ip_literal host
  else
    match cut_last x3a host with
    | Some (_, port) => if validOptionalPort (x3a :: port) then unescape host encodeHost else Err "invalid port %q after host"
    | None => unescape host encodeHost
    end.

(** Whether there is userinfo, and the host. *)
Definition parseAuthority (validUserinfo : bytes -> bool) (authority : bytes) : res (bool * bytes) :=
  match cut_last x40 authority with
  | None => host ← parseHost authority; Ok (false, host)
  | Some (userinfo, rest) =>
      host ← parseHost rest;
      if validUserinfo userinfo then Ok (true, host) else Err "net/url: invalid userinfo"
  end.

Definition setPath (p : bytes) : res (bytes * bytes) :=
  path ← unescape p encodePath;
  Ok (path, if decide (p = escape path encodePath) then [] else p).

(** The scheme, the query and the rest of a URL without fragment. *)
Definition split_query (rest : bytes) : bytes * bool * bytes :=
  match cut x3f rest with
  | Some (before, []) => (before, true, [])
  | Some (before, query) => (before, false, query)
  | None => (rest, false, [])
  end.

Context (validUserinfo : bytes -> bool).

Definition parse_url (rawURL : bytes) : res URL :=
  if stringContainsCTLByte rawURL then Err "net/url: invalid control character in URL"
  else if decide (rawURL = [x2a]) then
    Ok {| u_Scheme := []; u_Opaque := []; u_User := false; u_Host := []; u_Path := [x2a]; u_RawPath := []; u_ForceQuery := false;
          u_RawQuery := []; u_Fragment := [] |}
  else
    parts ← getScheme rawURL;
    let scheme := lower <$> parts.1 in
    let '(rest, forceQuery, rawQuery) := split_query parts.2 in
    let url user host path := {| u_Scheme := scheme; u_Opaque := []; u_User := user; u_Host := host; u_Path := path.1;
      u_RawPath := path.2; u_ForceQuery := forceQuery; u_RawQuery := rawQuery; u_Fragment := [] |} in
    match rest with
    | c :: rest' =>
        if decide (c = slash) then
          match rest' with
          | d :: authority =>
              if decide (d = slash /\ (scheme <> [] \/ head authority <> Some slash)) then
                let '(authority, rest) := match cut slash authority with Some (a, r) => (a, slash :: r) | None => (authority, []) end in
                user_host ← parseAuthority validUserinfo authority;
                path ← setPath rest;
                Ok (url user_host.1 user_host.2 path)
              else path ← setPath rest; Ok (url false [] path)
          | [] => path ← setPath rest; Ok (url false [] path)
          end
        else if decide (scheme <> []) then
          Ok {| u_Scheme := scheme; u_Opaque := rest; u_User := false; u_Host := []; u_Path := []; u_RawPath := [];
                u_ForceQuery := forceQuery; u_RawQuery := rawQuery; u_Fragment := [] |}
        else if decide (x3a ∈ default rest (fst <$> cut slash rest)) then Err "first path segment in URL cannot contain colon"
        else path ← setPath rest; Ok (url false [] path)
    | [] => Ok (url false [] ([], []))
    end.

Definition url_Parse (rawURL : bytes) : res URL :=
  match cut x23 rawURL with
  | None => parse_url rawURL
  | Some (u, frag) =>
      url ← parse_url u;
      fragment ← unescape frag encodeFragment;
      Ok {| u_Scheme := u_Scheme url; u_Opaque := u_Opaque url; u_User := u_User url; u_Host := u_Host url; u_Path := u_Path url;
            u_RawPath := u_RawPath url; u_ForceQuery := u_ForceQuery url; u_RawQuery := u_RawQuery url; u_Fragment := fragment |}
  end.
End url.

Definition EscapedPath (u : URL) : bytes :=
  if decide (u_RawPath u <> [] /\ validEncoded (u_RawPath u) encodePath = true /\ unescape (u_RawPath u) encodePath = Ok (u_Path u)) then u_RawPath u
  else if decide (u_Path u = [x2a]) then [x2a]
  else escape (u_Path u) encodePath.

Definition Hostname (u : URL) : bytes :=
  let host := match cut_last x3a (u_Host u) with
              | Some (host, port) => if validOptionalPort (x3a :: port) then host else u_Host u
              | None => u_Host u
              end in
  if decide (head host = Some x5b /\ last host = Some x5d /\ (1 < length host)%nat) then removelast (drop 1 host) else host.

(** ** Text that is its own escape *)

(** Characters of a path that are written as they are. *)
Definition path_char (c : byte) : Prop := alphanumeric c = true \/ c ∈ bs "-_.~$&+,:;=@".

#[export] Instance path_char_dec c : Decision (path_char c). Proof. unfold path_char. apply _. Defined.

(** Characters of a host in lower case, without a port. *)
Definition host_char (c : byte) : Prop := 97 <= b2z c <= 122 \/ 48 <= b2z c <= 57 \/ c ∈ bs "-.".

#[export] Instance host_char_dec c : Decision (host_char c). Proof. unfold host_char. apply _. Defined.

(** Check a property of characters on each of them. *)
Lemma char_cases (P Q : byte -> Prop) `{forall c, Decision (P c)} `{forall c, Decision (Q c)} :
  forallb (fun c => bool_decide (P c -> Q c)) all_bytes = true -> forall c, P c -> Q c.
Proof. intros Hall c HP. pose proof (byte_cases _ Hall c) as Hc. cbn beta in Hc. apply bool_decide_eq_true in Hc. auto. Qed.

Lemma path_char_facts c : path_char c -> shouldEscape c encodePath = false /\ c <> x25 /\ c <> x3f /\ c <> x23 /\ c <> slash /\ 32 <= b2z c < 127.
Proof. revert c. refine (char_cases path_char _ _). by vm_compute. Qed.

Lemma host_char_facts c : host_char c ->
  shouldEscape c encodeHost = false /\ c <> x25 /\ c <> x3f /\ c <> x23 /\ c <> slash /\ c <> x40 /\ c <> x3a /\ c <> x5b /\ lower c = c /\ 32 <= b2z c < 127.
Proof. revert c. refine (char_cases host_char _ _). by vm_compute. Qed.

Lemma digit_facts c : is_digit c -> host_char c.
Proof. revert c. refine (char_cases is_digit _ _). by vm_compute. Qed.

Lemma unescape_id s mode : Forall (fun c => c <> x25 /\ (mode = encodeHost -> shouldEscape c mode = false)) s -> unescape s mode = Ok s.
Proof.
  induction 1 as [|c s [Hc He] _ IH]; [done|]. cbn [unescape]. rewrite decide_False by done.
  rewrite decide_False by (intros (-> & _ & E); by rewrite He in E). by rewrite IH.
Qed.

Lemma escape_id s mode : Forall (fun c => shouldEscape c mode = false) s -> escape s mode = s.
Proof. unfold escape. induction 1 as [|c s Hc _ IH]; [done|]. cbn. by rewrite Hc, IH. Qed.

Lemma cut_none c s : c ∉ s -> cut c s = None.
Proof.
  induction s as [|b s IH]; [done|]. intros [Hb Hs]%not_elem_of_cons. cbn [cut]. rewrite decide_False by congruence. by rewrite IH.
Qed.

Lemma cut_last_app c a b : c ∉ b -> cut_last c (a ++ c :: b) = Some (a, b).
Proof.
  intros Hb. assert (cut_last c b = None) as En.
  { induction b as [|x b IH]; [done|]. apply not_elem_of_cons in Hb as [Hx Hb]. cbn [cut_last]. rewrite IH by done. by rewrite decide_False by congruence. }
  induction a as [|x a IH]; cbn [app cut_last]; [by rewrite En, decide_True|]. by rewrite IH.
Qed.

Lemma cut_last_none c s : c ∉ s -> cut_last c s = None.
Proof.
  induction s as [|b s IH]; [done|]. intros [Hb Hs]%not_elem_of_cons. cbn [cut_last]. rewrite IH by done. by rewrite decide_False by congruence.
Qed.

(** ** Parsing a URL of a scheme, a host and a path *)

(** A host in lower case with an optional port. *)
Definition plain_host (host : bytes) : Prop := exists name port,
  host = name ++ port /\ name <> [] /\ Forall host_char name /\ (port = [] \/ exists digits, port = x3a :: digits /\ digits <> [] /\ Forall is_digit digits).

Lemma plain_host_chars host : plain_host host -> Forall (fun c => host_char c \/ c = x3a) host.
Proof.
  intros (name & port & -> & _ & Hn & Hp). apply Forall_app; split; [eapply Forall_impl; [exact Hn|auto]|].
  destruct Hp as [->|(ds & -> & _ & Hd)]; [done|]. constructor; [by right|]. eapply Forall_impl; [exact Hd|]. intros c Hc. left. by apply digit_facts.
Qed.

Lemma free_of (P : byte -> Prop) c s : Forall P s -> (P c -> False) -> c ∉ s.
Proof. intros H Hc Hin. apply Hc. rewrite Forall_forall in H. by apply H. Qed.

Lemma scheme_loop_letters s acc rest raw : Forall (fun c => 97 <= b2z c <= 122) s -> acc ++ s <> [] ->
  scheme_loop (s ++ x3a :: rest) acc raw = Ok (acc ++ s, rest).
Proof.
  intros H. revert acc. induction H as [|c s Hc _ IH]; intros acc Hne; cbn [app scheme_loop]; cbv zeta.
  - rewrite app_nil_r in Hne |- *. change (b2z x3a) with 58. rewrite (decide_False (P := 97 <= 58 <= 122 \/ 65 <= 58 <= 90)) by lia.
    assert (x3a ∉ bs "+-.") as Hin by (apply (bool_decide_unpack _); vm_compute; exact I).
    assert (~ (48 <= 58 <= 57 \/ x3a ∈ bs "+-.")) as Hn by (intros [?|?]; [lia|done]).
    rewrite decide_False by done. rewrite decide_True by done. by rewrite decide_False.
  - rewrite decide_True by lia. rewrite IH by (by destruct acc). by rewrite <- app_assoc.
Qed.

Lemma digits_port ds : Forall is_digit ds -> validOptionalPort (x3a :: ds) = true.
Proof.
  intros Hds. cbn [validOptionalPort]. rewrite bool_decide_true by done. apply forallb_forall. intros c Hin. apply list_elem_of_In in Hin.
  apply bool_decide_eq_true. rewrite Forall_forall in Hds. by apply Hds.
Qed.

Section plain.
Context (ip_literal : bytes -> res bytes) (validUserinfo : bytes -> bool).

Lemma parseHost_plain host : plain_host host -> parseHost ip_literal host = Ok host.
Proof.
  intros Hh. pose proof Hh as (name & port & -> & Hne & Hn & Hp). unfold parseHost.
  assert (unescape (name ++ port) encodeHost = Ok (name ++ port)) as Hu.
  { apply unescape_id. eapply Forall_impl; [by apply plain_host_chars|]. intros c [Hc| ->]; [by apply host_char_facts in Hc as (? & ? & _)|by split; [|by vm_compute]]. }
  assert (x3a ∉ name) as Hc by (apply (free_of host_char); [done|intros H; by apply host_char_facts in H as (_ & _ & _ & _ & _ & _ & ? & _)]).
  rewrite decide_False.
  - destruct Hp as [->|(ds & -> & Hd & Hds)].
    + rewrite app_nil_r in *. by rewrite cut_last_none.
    + rewrite cut_last_app by (apply (free_of is_digit); [done|intros H; by apply digit_facts, host_char_facts in H as (_ & _ & _ & _ & _ & _ & ? & _)]).
      by rewrite digits_port.
  - destruct Hn as [|c name Hch _]; [done|]. cbn. intros [= ->]. by apply host_char_facts in Hch as (_ & _ & _ & _ & _ & _ & _ & ? & _).
Qed.

Lemma parse_plain scheme host path : Forall (fun c => 97 <= b2z c <= 122) scheme -> scheme <> [] -> plain_host host ->
  Forall (fun c => path_char c \/ c = slash) path ->
  url_Parse ip_literal validUserinfo (scheme ++ bs "://" ++ host ++ slash :: path) =
    Ok {| u_Scheme := scheme; u_Opaque := []; u_User := false; u_Host := host; u_Path := slash :: path; u_RawPath := [];
          u_ForceQuery := false; u_RawQuery := []; u_Fragment := [] |}.
Proof.
  intros Hs Hne Hh Hp. pose proof (plain_host_chars _ Hh) as Hhc.
  set (raw := scheme ++ bs "://" ++ host ++ slash :: path).
  assert (Forall (fun c => (97 <= b2z c <= 122 \/ c = x3a \/ c = slash) \/ (host_char c \/ c = x3a) \/ (path_char c \/ c = slash)) raw) as Hall.
  { unfold raw. change (bs "://") with [x3a; slash; slash]. rewrite !Forall_app. split_and!.
    - eapply Forall_impl; [exact Hs|]; naive_solver.
    - repeat constructor; naive_solver.
    - eapply Forall_impl; [exact Hhc|]; naive_solver.
    - constructor; [naive_solver|]. eapply Forall_impl; [exact Hp|]; naive_solver. }
  assert (forall c, (97 <= b2z c <= 122 \/ c = x3a \/ c = slash) \/ (host_char c \/ c = x3a) \/ (path_char c \/ c = slash) ->
    c <> x23 /\ c <> x3f /\ 32 <= b2z c < 127) as Hf.
  { refine (char_cases (fun c => (97 <= b2z c <= 122 \/ c = x3a \/ c = slash) \/ (host_char c \/ c = x3a) \/ (path_char c \/ c = slash)) _ _). by vm_compute. }
  assert (Forall (fun c => c <> x23 /\ c <> x3f /\ 32 <= b2z c < 127) raw) as Hraw by (eapply Forall_impl; [exact Hall|]; exact Hf).
  unfold url_Parse. rewrite cut_none by (apply (free_of _ _ _ Hraw); naive_solver). unfold parse_url.
  assert (stringContainsCTLByte raw = false) as ->.
  { unfold stringContainsCTLByte. apply not_true_iff_false. intros (c & Hin & Hc)%existsb_exists. apply list_elem_of_In in Hin.
    rewrite Forall_forall in Hraw. apply Hraw in Hin. apply bool_decide_eq_true in Hc. lia. }
  rewrite decide_False by (unfold raw; destruct Hs as [|c s Hc Hs]; [done|]; intros [= -> _]; change (b2z x2a) with 42 in Hc; lia).
  unfold getScheme. assert (scheme_loop raw [] raw = Ok (scheme, slash :: slash :: host ++ slash :: path)) as ->.
  { unfold raw at 1. change (bs "://" ++ host ++ slash :: path) with (x3a :: slash :: slash :: host ++ slash :: path). by rewrite scheme_loop_letters. }
  change (mbind ?f (Ok ?x)) with (f x). cbv beta. cbn [fst snd].
  assert (lower <$> scheme = scheme) as ->.
  { clear -Hs. induction Hs as [|c s Hc _ IH]; [done|]. cbn. rewrite IH. unfold lower. by rewrite decide_False by lia. }
  assert (split_query (slash :: slash :: host ++ slash :: path) = (slash :: slash :: host ++ slash :: path, false, [])) as ->.
  { unfold split_query. rewrite cut_none; [done|]. unfold raw in Hraw. apply Forall_app in Hraw as [_ Hraw].
    change (bs "://" ++ ?x) with (x3a :: slash :: slash :: x) in Hraw. apply Forall_cons in Hraw as [_ Hraw].
    apply (free_of _ _ _ Hraw). naive_solver. }
  assert (slash ∉ host) as Hsl by (apply (free_of _ _ _ Hhc); intros [H|H]; [by apply host_char_facts in H as (_ & _ & _ & _ & ? & _)|discriminate H]).
  assert (x40 ∉ host) as Hat by (apply (free_of _ _ _ Hhc); intros [H|H]; [by apply host_char_facts in H as (_ & _ & _ & _ & _ & ? & _)|discriminate H]).
  cbv zeta. rewrite decide_True by done. rewrite decide_True by auto. rewrite cut_app by done.
  unfold parseAuthority. rewrite cut_last_none, parseHost_plain by done. change (mbind ?f (Ok ?x)) with (f x). cbv beta. cbn [fst snd].
  assert (forall c, path_char c \/ c = slash -> shouldEscape c encodePath = false /\ c <> x25) as Hpc.
  { intros c [H| ->]; [apply path_char_facts in H; tauto|]. split; [by vm_compute|done]. }
  assert (Forall (fun c => path_char c \/ c = slash) (slash :: path)) as Hp' by (constructor; [by right|done]).
  assert (setPath (slash :: path) = Ok (slash :: path, [])) as ->; [|done].
  unfold setPath. rewrite unescape_id by (eapply Forall_impl; [exact Hp'|]; intros c [_ Hc]%Hpc; by split).
  change (mbind ?f (Ok ?x)) with (f x). cbv beta. rewrite escape_id by (eapply Forall_impl; [exact Hp'|]; by intros c [Hc _]%Hpc). by rewrite decide_True.
Qed.

Lemma Hostname_plain u : plain_host (u_Host u) -> exists name, Hostname u = name /\ name <> [] /\ Forall host_char name /\ last (u_Host u) <> Some x3a.
Proof.
  intros (name & port & E & Hne & Hn & Hp). exists name. rewrite E.
  assert (forall c, host_char c -> c <> x3a) as Hcol by (intros c Hc; by apply host_char_facts in Hc as (_ & _ & _ & _ & _ & _ & ? & _)).
  assert (x3a ∉ name) as Hc by (apply (free_of host_char); [done|intros H; by apply Hcol in H]).
  assert (Hostname u = if decide (head name = Some x5b /\ last name = Some x5d /\ (1 < length name)%nat) then removelast (drop 1 name) else name) as ->.
  { unfold Hostname. rewrite E. destruct Hp as [->|(ds & -> & Hd & Hds)].
    - rewrite app_nil_r. by rewrite cut_last_none.
    - rewrite cut_last_app by (apply (free_of is_digit); [done|intros H; by apply digit_facts, Hcol in H]).
      by rewrite digits_port. }
  split_and!; [|done..|].
  - rewrite decide_False; [done|]. intros (H & _). destruct Hn as [|c name Hch _]; [done|]. cbn in H. injection H as ->.
    by apply host_char_facts in Hch as (_ & _ & _ & _ & _ & _ & _ & ? & _).
  - intros H. apply last_Some in H as [l' E']. destruct Hp as [->|(ds & -> & Hd & Hds)].
    + rewrite app_nil_r in E'. subst name. apply Hc. apply elem_of_app. right. by apply list_elem_of_here.
    + destruct (exists_last Hd) as (ds' & d & ->). rewrite app_comm_cons, app_assoc in E'. apply app_inj_tail in E' as [_ ->].
      apply Forall_app in Hds as [_ [Hx _]%Forall_cons]. by apply digit_facts, Hcol in Hx.
Qed.
End plain.

Lemma cut_last_Some c s a b : cut_last c s = Some (a, b) -> s = a ++ c :: b.
Proof.
  revert a b. induction s as [|x s IH]; intros a b; [done|]. cbn [cut_last]. destruct (cut_last c s) as [[a' b']|] eqn:E.
  - intros [= <- <-]. cbn. f_equal. by apply IH.
  - case_decide as Hx; [intros [= <- <-]; by rewrite Hx|done].
Qed.

Lemma unbracketed (s : bytes) : head s = Some x5b /\ last s = Some x5d /\ (1 < length s)%nat -> s = x5b :: removelast (drop 1 s) ++ [x5d].
Proof.
  intros (Hh & Hl & Hlen). destruct s as [|x s]; [done|]. cbn in Hh. injection Hh as ->. change (drop 1 (x5b :: s)) with s.
  destruct s as [|y s _] using rev_ind; [cbn in Hlen; lia|]. rewrite app_comm_cons, last_snoc in Hl. injection Hl as ->. by rewrite removelast_last.
Qed.

(** What [Hostname] leaves out of a host are a port and brackets. *)
Lemma Hostname_covers u c : (c ∈ u_Host u -> c ∈ Hostname u \/ is_digit c \/ c ∈ [x3a; x5b; x5d]) /\ (c ∈ Hostname u -> c ∈ u_Host u).
Proof.
  unfold Hostname. set (host := match cut_last x3a (u_Host u) with Some _ => _ | None => _ end).
  assert ((c ∈ u_Host u -> c ∈ host \/ is_digit c \/ c = x3a) /\ (c ∈ host -> c ∈ u_Host u)) as [H1 H2].
  { unfold host. destruct (cut_last x3a (u_Host u)) as [[h port]|] eqn:E; [|tauto]. destruct (validOptionalPort (x3a :: port)) eqn:Ep; [|tauto].
    apply cut_last_Some in E. rewrite E, elem_of_app, elem_of_cons. split; [|tauto]. intros [Hc|[->|Hc]]; [tauto..|right; left].
    cbn [validOptionalPort] in Ep. apply andb_true_iff in Ep as [_ Ep]. rewrite forallb_forall in Ep. apply list_elem_of_In, Ep in Hc.
    by apply bool_decide_eq_true in Hc. }
  case_decide as Hb; [|set_solver]. apply unbracketed in Hb. set (name := removelast (drop 1 host)) in *.
  rewrite Hb, elem_of_cons, elem_of_app, list_elem_of_singleton in H1, H2. set_solver.
Qed.
