(* ===== verification/Workspace.v ===== *)
(** Preparing a workspace ([core/workspace/workspace.go], [request.go],
    [githubpr_request.go]) and the canonical change URIs of pull requests
    ([core/workspace/githubpr/githubpr.go]).  The git client is an interface over a state. *)
From Stdlib Require Import ZArith Lia.
From stdpp Require Import gmap list.
From S2P Require Import Prelude Text Url CacheKeys GraphStore.

Local Open Scope Z_scope.

(** * Change URIs *)

Definition Scheme : bytes := bs "github".

Record PullRequest := { pr_Host : bytes; pr_Org : bytes; pr_Repo : bytes; pr_Number : bytes; pr_HeadSHA : bytes }.

Definition pull_request_String (p : PullRequest) : bytes :=
  Scheme ++ bs "://" ++ pr_Host p ++ slash :: pr_Org p ++ slash :: pr_Repo p ++ bs "/pull/" ++ pr_Number p ++ slash :: pr_HeadSHA p.

Definition isCanonicalNumber (s : bytes) : bool :=
  match s with
  | [] => false
  | c :: rest => bool_decide (49 <= b2z c <= 57) && forallb (fun c => bool_decide (48 <= b2z c <= 57)) rest
  end.

Definition isCanonicalSHA (s : bytes) : bool :=
  bool_decide (length s = 40%nat) && forallb (fun c => bool_decide (48 <= b2z c <= 57 \/ 97 <= b2z c <= 102)) s.

Section parse.
(** Hosts in brackets, userinfo, and the lower case of text outside ASCII. *)
Context (ip_literal : bytes -> res bytes) (validUserinfo : bytes -> bool) (unicode_lower : bytes -> bytes).

Definition ToLower (s : bytes) : bytes :=
  if forallb (fun c => bool_decide (b2z c < 128)) s then lower <$> s else unicode_lower s.

Definition validateHost (u : Url.URL) : res () :=
  _ ← guard_err (bool_decide (Hostname u = [])) "change URI host is required: %q";
  _ ← guard_err (bool_decide (ToLower (Hostname u) <> Hostname u)) "change URI host must be lowercase: %q";
  guard_err (bool_decide (last (u_Host u) = Some x3a)) "change URI port must not be empty: %q".

Definition validateURL (u : Url.URL) : res () :=
  _ ← guard_err (bool_decide (u_Scheme u <> Scheme)) "unsupported scheme %q: only %q is supported";
  _ ← guard_err (bool_decide (u_Opaque u <> [])) "change URI must have an authority: %q";
  _ ← guard_err (u_User u) "change URI must not contain userinfo: %q";
  _ ← guard_err (bool_decide (u_RawQuery u <> []) || u_ForceQuery u || bool_decide (u_Fragment u <> []))
        "change URI must not contain a query or fragment: %q";
  validateHost u.

Definition parse_segments (host : bytes) (segments : list bytes) : res PullRequest :=
  _ ← guard_err (bool_decide (length segments < 5)%nat) "change URI path must be {org}/{repo}/pull/{pr}/{head_sha}: %q";
  _ ← guard_err (existsb (fun s => bool_decide (s = [])) segments) "change URI path must not contain empty segments: %q";
  let n := zlen segments in
  pull ← index segments (n - 3);
  _ ← guard_err (bool_decide (pull <> bs "pull")) "change URI path must be {org}/{repo}/pull/{pr}/{head_sha}: %q";
  number ← index segments (n - 2);
  headSHA ← index segments (n - 1);
  _ ← guard_err (negb (isCanonicalNumber number)) "pull request number must be a positive integer without leading zeros, got %q";
  _ ← guard_err (negb (isCanonicalSHA headSHA)) "head SHA must be the full 40-character lowercase hex form, got %q";
  org ← slice segments 0 (n - 4);
  repo ← index segments (n - 4);
  Ok {| pr_Host := host; pr_Org := join_with slash org; pr_Repo := repo; pr_Number := number; pr_HeadSHA := headSHA |}.

Definition githubpr_Parse (raw : bytes) : res PullRequest :=
  u ← match url_Parse ip_literal validUserinfo raw with Err e => Err ("parse change URI: %w" +:+ e) | r => r end;
  _ ← validateURL u;
  p ← parse_segments (u_Host u) (split_on slash (trim_prefix_of [slash] (EscapedPath u)));
  _ ← guard_err (bool_decide (pull_request_String p <> raw)) "change URI is not in canonical form: %q";
  Ok p.

(** [NewRequest], as far as it can fail. *)
Definition NewRequest (rawURL : bytes) : PullRequest + gerror :=
  match githubpr_Parse rawURL with
  | Ok pr => inl pr
  | Err e => inr (wrap "invalid change URI %q: " (plain_error e))
  | Panic => inr (plain_error "panic")
  end.
End parse.

(** * Commands on a workspace *)

(** The git client; a method changes the state. *)
Record Interface (W : Type) := {
  gi_RevParse : bytes -> W -> (bytes + gerror) * W;
  gi_Fetch : bytes -> bytes -> list bytes -> W -> option gerror * W;
  gi_Checkout : bytes -> list bytes -> W -> option gerror * W;
  gi_IsAncestor : bytes -> bytes -> W -> (bool + gerror) * W;
  gi_Diff : bytes -> bytes -> list bytes -> W -> (bytes + gerror) * W;
  gi_ApplyPatch : bytes -> W -> option gerror * W;
  gi_Commit : bytes -> list bytes -> W -> option gerror * W;
  gi_SubmoduleUpdate : W -> option gerror * W;
}.
Arguments gi_RevParse {W}.
Arguments gi_Fetch {W}.
Arguments gi_Checkout {W}.
Arguments gi_IsAncestor {W}.
Arguments gi_Diff {W}.
Arguments gi_ApplyPatch {W}.
Arguments gi_Commit {W}.
Arguments gi_SubmoduleUpdate {W}.

Section workspace.
Context {W : Type} (g : Interface W).

Definition workspace_Checkout (remote ref : bytes) (w : W) : option gerror * W :=
  match gi_RevParse g (ref ++ bs "^{commit}") w with
  | (inl _, w) => gi_Checkout g ref [] w
  | (inr _, w) =>
      match gi_Fetch g remote ref [] w with
      | (Some e, w) => (Some e, w)
      | (None, w) => gi_Checkout g ref [] w
      end
  end.

(** [githubPullRequest.Apply] *)
Definition Apply (remote baseRef : bytes) (pr : PullRequest) (w : W) : option gerror * W :=
  let prRef := bs "pull/" ++ pr_Number pr ++ bs "/head" in
  match gi_Fetch g remote (x2b :: prRef ++ x3a :: prRef) [bs "--force"; bs "--no-tags"] w with
  | (Some e, w) => (Some (wrap "fetch PR %s: " e), w)
  | (None, w) =>
      match gi_IsAncestor g (pr_HeadSHA pr) prRef w with
      | (inr e, w) => (Some (wrap "failed to read PR commit history: " e), w)
      | (inl false, w) => (Some (plain_error "head SHA %q is not an ancestor of PR %s"), w)
      | (inl true, w) =>
          match gi_Diff g baseRef (pr_HeadSHA pr) [bs "--binary"; bs "--merge-base"] w with
          | (inr e, w) => (Some (wrap "compute diff for PR %s: " e), w)
          | (inl patch, w) =>
              match gi_ApplyPatch g patch w with
              | (Some e, w) => (Some (wrap "apply patch for PR %s: " e), w)
              | (None, w) =>
                  match gi_Commit g (bs "Applied PR: " ++ pr_Number pr) [bs "--allow-empty"] w with
                  | (Some e, w) => (Some (wrap "commit PR %s: " e), w)
                  | (None, w) =>
                      match gi_SubmoduleUpdate g w with
                      | (Some e, w) => (Some (wrap "update submodules for PR %s: " e), w)
                      | (None, w) => (None, w)
                      end
                  end
              end
          end
      end
  end.

Fixpoint ApplyRequests (remote baseRef : bytes) (requests : list PullRequest) (w : W) : option gerror * W :=
  match requests with
  | [] => (None, w)
  | request :: requests =>
      match Apply remote baseRef request w with
      | (Some e, w) => (Some e, w)
      | (None, w) => ApplyRequests remote baseRef requests w
      end
  end.

Fixpoint create_requests (new_request : bytes -> PullRequest + gerror) (requests : list ChangeRequest) : list PullRequest + gerror :=
  match requests with
  | [] => inl []
  | req :: requests =>
      match new_request (URL req) with
      | inr e => inr (newError ErrorUser (wrap "create request for %q: " e))
      | inl request =>
          match create_requests new_request requests with
          | inr e => inr e
          | inl requests => inl (request :: requests)
          end
      end
  end.

(** What the orchestrator does with a leased workspace before it computes the graph. *)
Definition prepare (new_request : bytes -> PullRequest + gerror) (build : BuildDescription) (w : W) : option gerror * W :=
  match workspace_Checkout (bd_Remote build) (bd_BaseSha build) w with
  | (Some e, w) => (Some (classifyGitError (wrap "checkout repository %s at %s: " e)), w)
  | (None, w) =>
      match create_requests new_request (bd_ChangeRequests build) with
      | inr e => (Some e, w)
      | inl requests =>
          match ApplyRequests (bd_Remote build) (bd_BaseSha build) requests w with
          | (Some e, w) => (Some (classifyGitError (wrap "apply requests for repository %s at %s: " e)), w)
          | (None, w) => (None, w)
          end
      end
  end.
End workspace.

(** ** Change URIs: one spelling each *)

(** What the parts of a parsed URI are. *)
Record canonical (p : PullRequest) : Prop := {
  cn_host : pr_Host p <> [] /\ last (pr_Host p) <> Some x3a;
  cn_org : Forall (fun s => s <> []) (split_on slash (pr_Org p));
  cn_repo : pr_Repo p <> [] /\ slash ∉ pr_Repo p;
  cn_number : isCanonicalNumber (pr_Number p) = true;
  cn_head : isCanonicalSHA (pr_HeadSHA p) = true;
  (** No capital letter in a host of ASCII characters. *)
  cn_lower : Forall (fun c => b2z c < 128) (pr_Host p) -> Forall (fun c => ~ 65 <= b2z c <= 90) (pr_Host p);
}.

Lemma index_app {A} (l t : list A) i k x : t !! k = Some x -> i = zlen l + Z.of_nat k -> index (l ++ t) i = Ok x.
Proof.
  intros H ->. unfold index. pose proof (zlen_nonneg l). rewrite decide_True by lia.
  rewrite lookup_app_r by (unfold zlen; lia). replace (Z.to_nat _ - length l)%nat with k by (unfold zlen; lia). by rewrite H.
Qed.

Lemma parse_segments_app host org repo pull number sha : org <> [] -> Forall (fun s => s <> []) (org ++ [repo; pull; number; sha]) ->
  parse_segments host (org ++ [repo; pull; number; sha]) =
    if decide (pull = bs "pull") then
      if isCanonicalNumber number then
        if isCanonicalSHA sha then Ok {| pr_Host := host; pr_Org := join_with slash org; pr_Repo := repo; pr_Number := number; pr_HeadSHA := sha |}
        else Err "head SHA must be the full 40-character lowercase hex form, got %q"
      else Err "pull request number must be a positive integer without leading zeros, got %q"
    else Err "change URI path must be {org}/{repo}/pull/{pr}/{head_sha}: %q".
Proof.
  intros Ho Hne. unfold parse_segments. rewrite bool_decide_false by (rewrite length_app; destruct org; [done|]; cbn; lia).
  assert (existsb (fun s => bool_decide (s = [])) (org ++ [repo; pull; number; sha]) = false) as ->.
  { apply not_true_iff_false. intros (s & Hin & Hs)%existsb_exists. apply list_elem_of_In in Hin. apply bool_decide_eq_true in Hs. subst s.
    rewrite Forall_forall in Hne. by apply (Hne []). }
  cbn [guard_err mbind res_bind]. cbv zeta.
  assert (zlen (org ++ [repo; pull; number; sha]) = zlen org + 4) as En by (rewrite zlen_app; done). rewrite En.
  rewrite (index_app org _ (zlen org + 4 - 3) 1 pull) by (done || lia). rewrite (index_app org _ (zlen org + 4 - 2) 2 number) by (done || lia).
  rewrite (index_app org _ (zlen org + 4 - 1) 3 sha) by (done || lia). rewrite (index_app org _ (zlen org + 4 - 4) 0 repo) by (done || lia).
  assert (slice (org ++ [repo; pull; number; sha]) 0 (zlen org + 4 - 4) = Ok org) as ->.
  { rewrite slice_Ok by zlen_lia. rewrite drop_0, take_app_length'; [done|]. unfold zlen. lia. }
  cbn [mbind res_bind]. destruct (bool_decide_reflect (pull <> bs "pull")) as [Hp|Hp]; [by rewrite decide_False|rewrite decide_True by (by apply dec_stable)].
  destruct (isCanonicalNumber number); [|done]. by destruct (isCanonicalSHA sha).
Qed.

(** The segments of a parsed path. *)
Lemma parse_segments_Ok host segments p : parse_segments host segments = Ok p ->
  exists org, org <> [] /\ Forall (fun s => s <> []) segments /\ segments = org ++ [pr_Repo p; bs "pull"; pr_Number p; pr_HeadSHA p] /\
    pr_Host p = host /\ pr_Org p = join_with slash org /\ isCanonicalNumber (pr_Number p) = true /\ isCanonicalSHA (pr_HeadSHA p) = true.
Proof.
  intros H. unfold parse_segments in H. destruct (bool_decide_reflect (length segments < 5)%nat) as [?|Hl]; [done|].
  destruct (existsb _ segments) eqn:He; [done|].
  assert (Forall (fun s => s <> []) segments) as Hne.
  { apply Forall_forall. intros s Hin ->. apply not_true_iff_false in He. apply He, existsb_exists. exists []. by rewrite list_elem_of_In in Hin. }
  assert (exists org repo pull number sha, segments = org ++ [repo; pull; number; sha] /\ org <> []) as (org & repo & pull & number & sha & -> & Ho).
  { clear -Hl. exists (take (length segments - 4) segments).
    destruct (drop (length segments - 4) segments) as [|a [|b [|c [|d [|]]]]] eqn:E; try (apply (f_equal length) in E; rewrite length_drop in E; cbn in E; lia).
    exists a, b, c, d. rewrite <- E, take_drop. split; [done|]. intros Et. apply (f_equal length) in Et. rewrite length_take in Et. cbn in Et. lia. }
  fold (parse_segments host (org ++ [repo; pull; number; sha])) in H.
  assert (parse_segments host (org ++ [repo; pull; number; sha]) = Ok p) as Hp.
  { unfold parse_segments. rewrite bool_decide_false by done. by rewrite He. }
  rewrite parse_segments_app in Hp by done. case_decide; [|done]. destruct (isCanonicalNumber number) eqn:?; [|done].
  destruct (isCanonicalSHA sha) eqn:?; [|done]. injection Hp as <-. subst pull. by exists org.
Qed.

(** Characters of a repository that are kept as they are. *)
Definition plain_segment (s : bytes) : Prop := s <> [] /\ Forall path_char s.

#[export] Instance plain_segment_dec s : Decision (plain_segment s). Proof. unfold plain_segment. apply _. Defined.

Lemma plain_segment_slash s : plain_segment s -> slash ∉ s.
Proof. intros [_ H]. apply (free_of _ _ _ H). intros Hc. by apply path_char_facts in Hc as (_ & _ & _ & _ & ? & _). Qed.

Lemma number_chars s : isCanonicalNumber s = true -> plain_segment s.
Proof.
  destruct s as [|c s]; [done|]. cbn [isCanonicalNumber]. intros [Hc Hs]%andb_true_iff. apply bool_decide_eq_true in Hc. split; [done|].
  assert (forall c, 48 <= b2z c <= 57 -> path_char c) as Hd by (refine (char_cases (fun c => 48 <= b2z c <= 57) _ _); by vm_compute).
  constructor; [apply Hd; lia|]. apply Forall_forall. intros x Hin. apply Hd. rewrite forallb_forall in Hs. apply list_elem_of_In, Hs in Hin.
  by apply bool_decide_eq_true in Hin.
Qed.

Lemma sha_chars s : isCanonicalSHA s = true -> plain_segment s.
Proof.
  unfold isCanonicalSHA. intros [Hl Hs]%andb_true_iff. apply bool_decide_eq_true in Hl. split; [by intros ->|].
  assert (forall c, 48 <= b2z c <= 57 \/ 97 <= b2z c <= 102 -> path_char c) as Hd
    by (refine (char_cases (fun c => 48 <= b2z c <= 57 \/ 97 <= b2z c <= 102) _ _); by vm_compute).
  apply Forall_forall. intros x Hin. apply Hd. rewrite forallb_forall in Hs. apply list_elem_of_In, Hs in Hin. by apply bool_decide_eq_true in Hin.
Qed.

Section uris.
Context (ip_literal : bytes -> res bytes) (validUserinfo : bytes -> bool) (unicode_lower : bytes -> bytes).
Abbreviation Parse_uri := (githubpr_Parse ip_literal validUserinfo unicode_lower).

Lemma validateURL_plain u : u_Scheme u = Scheme -> u_Opaque u = [] -> u_User u = false -> u_RawQuery u = [] -> u_ForceQuery u = false ->
  u_Fragment u = [] -> plain_host (u_Host u) -> validateURL unicode_lower u = Ok ().
Proof.
  intros E1 E2 E3 E4 E5 E6 Hh. unfold validateURL. rewrite E1, E2, E3, E4, E5, E6. rewrite !bool_decide_false by auto. cbn [guard_err mbind res_bind orb].
  destruct (Hostname_plain u Hh) as (name & E & Hne & Hn & Hl). unfold validateHost. rewrite E. rewrite bool_decide_false by done. cbn [guard_err mbind res_bind].
  assert (ToLower unicode_lower name = name) as ->.
  { unfold ToLower. assert (forallb (fun c => bool_decide (b2z c < 128)) name = true) as ->.
    - apply forallb_forall. intros c Hin. apply list_elem_of_In in Hin. rewrite Forall_forall in Hn. apply Hn, host_char_facts in Hin.
      apply bool_decide_eq_true. lia.
    - clear -Hn. induction Hn as [|c s Hc _ IH]; [done|]. cbn. rewrite IH. by apply host_char_facts in Hc as (_ & _ & _ & _ & _ & _ & _ & _ & -> & _). }
  rewrite bool_decide_false by auto. cbn [guard_err mbind res_bind]. by rewrite bool_decide_false.
Qed.

Lemma parse_canonical p : canonical p -> plain_host (pr_Host p) -> Forall plain_segment (split_on slash (pr_Org p)) -> plain_segment (pr_Repo p) ->
  Parse_uri (pull_request_String p) = Ok p.
Proof.
  intros [Hh Ho Hr Hn Hs _] Hhost Horg Hrepo. unfold githubpr_Parse.
  set (segments := split_on slash (pr_Org p) ++ [pr_Repo p; bs "pull"; pr_Number p; pr_HeadSHA p]).
  assert (Forall plain_segment segments) as Hseg.
  { assert (plain_segment (bs "pull")) as Hpull by (apply (bool_decide_unpack _); vm_compute; exact I).
    unfold segments. apply Forall_app; split; [done|]. apply Forall_cons; split; [done|]. apply Forall_cons; split; [done|].
    apply Forall_cons; split; [by apply number_chars|]. apply Forall_singleton. by apply sha_chars. }
  assert (pull_request_String p = Scheme ++ bs "://" ++ pr_Host p ++ slash :: join_with slash segments) as Estr.
  { unfold pull_request_String, segments. rewrite join_with_app by (done || apply split_on_nonempty). by rewrite join_with_split. }
  assert (split_on slash (join_with slash segments) = segments) as Esplit.
  { apply split_join; [unfold segments; by destruct (split_on slash (pr_Org p))|]. eapply Forall_impl; [exact Hseg|]. by apply plain_segment_slash. }
  assert (Forall (fun c => path_char c \/ c = slash) (join_with slash segments)) as Hchars.
  { clear -Hseg. induction Hseg as [|s l [_ Hs] _ IH]; [done|]. destruct (decide (l = [])) as [->|Hl]; [eapply Forall_impl; [exact Hs|]; by left|].
    rewrite join_with_cons by done. apply Forall_app; split; [eapply Forall_impl; [exact Hs|]; by left|]. constructor; [by right|done]. }
  rewrite Estr at 1. rewrite parse_plain; [|unfold Scheme; by apply (bool_decide_unpack _)|done..].
  cbn [mbind res_bind]. rewrite validateURL_plain by done. cbn [mbind res_bind u_Host].
  assert (EscapedPath {| u_Scheme := Scheme; u_Opaque := []; u_User := false; u_Host := pr_Host p; u_Path := slash :: join_with slash segments; u_RawPath := [];
    u_ForceQuery := false; u_RawQuery := []; u_Fragment := [] |} = slash :: join_with slash segments) as ->.
  { unfold EscapedPath. cbn [u_RawPath u_Path]. rewrite decide_False by tauto. rewrite decide_False by done. apply escape_id. constructor; [by vm_compute|].
    eapply Forall_impl; [exact Hchars|]. intros c [Hc| ->]; [by destruct (path_char_facts _ Hc)|by vm_compute]. }
  change (slash :: join_with slash segments) with ([slash] ++ join_with slash segments). rewrite trim_prefix_of_app, Esplit.
  unfold segments. rewrite parse_segments_app; [|apply split_on_nonempty|eapply Forall_impl; [exact Hseg|]; by intros s []].
  rewrite decide_True, Hn, Hs by done. cbn [mbind res_bind]. rewrite join_with_split.
  assert ({| pr_Host := pr_Host p; pr_Org := pr_Org p; pr_Repo := pr_Repo p; pr_Number := pr_Number p; pr_HeadSHA := pr_HeadSHA p |} = p) as -> by (by destruct p).
  by rewrite bool_decide_false by auto.
Qed.

Lemma lower_fixed (s : bytes) : lower <$> s = s -> Forall (fun c => ~ 65 <= b2z c <= 90) s.
Proof.
  assert (forall c, lower c = c -> ~ 65 <= b2z c <= 90) as Hc by (refine (char_cases (fun c => lower c = c) _ _); by vm_compute).
  induction s as [|c s IH]; [constructor|]. cbn. intros [= H1 H2]. constructor; [by apply Hc|by apply IH].
Qed.

Lemma lowercase_host u : ToLower unicode_lower (Hostname u) = Hostname u -> Forall (fun c => b2z c < 128) (u_Host u) ->
  Forall (fun c => ~ 65 <= b2z c <= 90) (u_Host u).
Proof.
  intros Hl Ha. rewrite Forall_forall in Ha. unfold ToLower in Hl.
  assert (forallb (fun c => bool_decide (b2z c < 128)) (Hostname u) = true) as Ef.
  { apply forallb_forall. intros c Hin. apply list_elem_of_In in Hin. by apply bool_decide_eq_true, Ha, Hostname_covers. }
  rewrite Ef in Hl. apply lower_fixed in Hl. rewrite Forall_forall in Hl. apply Forall_forall. intros c Hc.
  assert (forall c, is_digit c \/ c ∈ [x3a; x5b; x5d] -> ~ 65 <= b2z c <= 90) as Hother.
  { refine (char_cases (fun c => is_digit c \/ c ∈ [x3a; x5b; x5d]) _ _). by vm_compute. }
  destruct (proj1 (Hostname_covers u c) Hc) as [?|Hd]; [by apply Hl|by apply Hother].
Qed.

Lemma parsed_canonical raw p : Parse_uri raw = Ok p -> pull_request_String p = raw /\ canonical p.
Proof.
  unfold githubpr_Parse. intros H. apply bind_Ok in H as (u & _ & H). apply bind_Ok in H as ([] & Hv & H). apply bind_Ok in H as (p' & Hp & H).
  apply bind_Ok in H as ([] & Hg & H). injection H as ->. apply guard_err_Ok, bool_decide_eq_false, dec_stable in Hg. split; [done|].
  apply parse_segments_Ok in Hp as (org & Hne & Hall & Eseg & Eh & Eo & Hn & Hs).
  unfold validateURL in Hv. do 4 (apply bind_Ok in Hv as ([] & _ & Hv)). unfold validateHost in Hv.
  apply bind_Ok in Hv as ([] & Hhost & Hv). apply bind_Ok in Hv as ([] & Hlow & Hv). apply guard_err_Ok, bool_decide_eq_false in Hhost, Hlow, Hv.
  assert (Forall (fun s => slash ∉ s) (org ++ [pr_Repo p; bs "pull"; pr_Number p; pr_HeadSHA p])) as Hsl.
  { rewrite <- Eseg. apply Forall_forall. intros s Hin. by eapply split_on_elem. }
  rewrite Eseg in Hall. apply Forall_app in Hall as [Hao [Har _]%Forall_cons]. apply Forall_app in Hsl as [Hso [Hsr _]%Forall_cons]. constructor; try done.
  - split; [|congruence]. rewrite Eh. intros E. apply Hhost. unfold Hostname. by rewrite E.
  - by rewrite Eo, split_join.
  - rewrite Eh. apply dec_stable in Hlow. by apply lowercase_host.
Qed.

(** C18: Each pull request has one change URI.  A URI is parsed only if it is the canonical
    spelling of what it is parsed to, byte for byte, whose number has no leading zero,
    whose head is a full hash in lower case, whose host is in lower case and whose host,
    organization and repository are not empty; so two URIs of one pull request are the
    same. And each pull request with
    such parts, of characters that a URL keeps as they are, is what its spelling is parsed
    to. *)
Theorem change_uri_roundtrip (raw raw' : bytes) (p : PullRequest) :
  (Parse_uri raw = Ok p -> pull_request_String p = raw /\ canonical p) /\
  (Parse_uri raw = Ok p -> Parse_uri raw' = Ok p -> raw = raw') /\
  (canonical p -> plain_host (pr_Host p) -> Forall plain_segment (split_on slash (pr_Org p)) -> plain_segment (pr_Repo p) ->
     Parse_uri (pull_request_String p) = Ok p).
Proof.
  split_and!; [apply parsed_canonical| |apply parse_canonical].
  intros [<- _]%parsed_canonical [<- _]%parsed_canonical. done.
Qed.
End uris.

(** ** What is done to a workspace *)

Inductive git_call :=
  | CallRevParse (ref : bytes)
  | CallFetch (remote ref : bytes) (options : list bytes)
  | CallCheckout (ref : bytes) (options : list bytes)
  | CallIsAncestor (ancestor descendant : bytes)
  | CallDiff (base target : bytes) (options : list bytes)
  | CallApplyPatch (patch : bytes)
  | CallCommit (message : bytes) (options : list bytes)
  | CallSubmoduleUpdate.

(** A client that records its calls, and answers each from those before it: with output or
    an error, and whether a commit is an ancestor. *)
Section recorded.
Context (answer : list git_call -> git_call -> bytes + gerror) (yes : list git_call -> bool).

Definition answered (r : bytes + gerror) : option gerror := match r with inl _ => None | inr e => Some e end.

Definition recorded : Interface (list git_call) :=
  let run c w := (answer w c, w ++ [c]) in
  let run_ c w := (answered (answer w c), w ++ [c]) in
  {| gi_RevParse := fun ref => run (CallRevParse ref);
     gi_Fetch := fun remote ref options => run_ (CallFetch remote ref options);
     gi_Checkout := fun ref options => run_ (CallCheckout ref options);
     gi_IsAncestor := fun a d w => (match answer w (CallIsAncestor a d) with inl _ => inl (yes w) | inr e => inr e end, w ++ [CallIsAncestor a d]);
     gi_Diff := fun base target options => run (CallDiff base target options);
     gi_ApplyPatch := fun patch => run_ (CallApplyPatch patch);
     gi_Commit := fun message options => run_ (CallCommit message options);
     gi_SubmoduleUpdate := run_ CallSubmoduleUpdate |}.

(** A call call_succeeds; the check of an ancestor also has to say yes. *)
Definition call_succeeds (w : list git_call) (c : git_call) : bool :=
  match answer w c, c with
  | inl _, CallIsAncestor _ _ => yes w
  | inl _, _ => true
  | inr _, _ => false
  end.

(** The calls from a state on, each of them succeeding. *)
Fixpoint all_succeed (w calls : list git_call) : Prop :=
  match calls with
  | [] => True
  | c :: calls => call_succeeds w c = true /\ all_succeed (w ++ [c]) calls
  end.

(** How a pull request is applied, with the patch that [git diff] printed. *)
Definition script (remote baseRef : bytes) (pr : PullRequest) (patch : bytes) : list git_call :=
  let prRef := bs "pull/" ++ pr_Number pr ++ bs "/head" in
  [CallFetch remote (x2b :: prRef ++ x3a :: prRef) [bs "--force"; bs "--no-tags"];
   CallIsAncestor (pr_HeadSHA pr) prRef;
   CallDiff baseRef (pr_HeadSHA pr) [bs "--binary"; bs "--merge-base"];
   CallApplyPatch patch;
   CallCommit (bs "Applied PR: " ++ pr_Number pr) [bs "--allow-empty"];
   CallSubmoduleUpdate].

Definition applied (remote baseRef : bytes) (w : list git_call) (pr : PullRequest) (calls : list git_call) : Prop :=
  exists patch, calls = script remote baseRef pr patch /\ all_succeed w calls /\ answer (w ++ take 2 calls) (CallDiff baseRef (pr_HeadSHA pr) [bs "--binary"; bs "--merge-base"]) = inl patch.

(** The calls of an application that fails: those before the failing one succeed. *)
Definition stopped (remote baseRef : bytes) (w : list git_call) (pr : PullRequest) (calls : list git_call) : Prop :=
  exists patch done call rest, calls = done ++ [call] /\ script remote baseRef pr patch = done ++ call :: rest /\
    all_succeed w done /\ call_succeeds (w ++ done) call = false.

(** Pull requests applied one after the other. *)
Fixpoint all_applied (remote baseRef : bytes) (w : list git_call) (prs : list PullRequest) (calls : list git_call) : Prop :=
  match prs with
  | [] => calls = []
  | pr :: prs => exists first rest, calls = first ++ rest /\ applied remote baseRef w pr first /\ all_applied remote baseRef (w ++ first) prs rest
  end.

(** Evaluate whether calls succeed from the answers to them. *)
Ltac call_results := cbn [all_succeed script]; rewrite <- ?app_assoc in *; cbn [app] in *; unfold call_succeeds;
  repeat match goal with E : answer _ _ = _ |- _ => rewrite E; clear E end;
  repeat match goal with E : yes _ = _ |- _ => rewrite E; clear E end; auto.

(** The application stops with [call], after the calls [done]. *)
Ltac stops patch done call :=
  exists (done ++ [call]); split; [by rewrite <- ?app_assoc|]; exists patch, done, call; eexists; split; [reflexivity|]; split; [reflexivity|];
  split; [by call_results|]; rewrite ?app_nil_r; by call_results.

Lemma Apply_recorded remote baseRef pr w :
  match Apply recorded remote baseRef pr w with
  | (None, w') => exists calls, w' = w ++ calls /\ applied remote baseRef w pr calls
  | (Some _, w') => exists calls, w' = w ++ calls /\ stopped remote baseRef w pr calls
  end.
Proof.
  unfold Apply. set (prRef := bs "pull/" ++ pr_Number pr ++ bs "/head"). cbn [gi_Fetch gi_IsAncestor gi_Diff gi_ApplyPatch gi_Commit gi_SubmoduleUpdate recorded].
  set (c1 := CallFetch _ _ _). destruct (answer w c1) as [o1|e1] eqn:E1; cbn [answered]; [|by stops (@nil byte) (@nil git_call) c1].
  set (c2 := CallIsAncestor _ _). destruct (answer (w ++ [c1]) c2) as [o2|e2] eqn:E2; [|by stops (@nil byte) [c1] c2].
  destruct (yes (w ++ [c1])) eqn:Ey; [|by stops (@nil byte) [c1] c2].
  set (c3 := CallDiff _ _ _). destruct (answer ((w ++ [c1]) ++ [c2]) c3) as [patch|e3] eqn:E3; [|by stops (@nil byte) [c1; c2] c3].
  set (c4 := CallApplyPatch _). destruct (answer (((w ++ [c1]) ++ [c2]) ++ [c3]) c4) as [o4|e4] eqn:E4; cbn [answered]; [|by stops patch [c1; c2; c3] c4].
  set (c5 := CallCommit _ _). destruct (answer ((((w ++ [c1]) ++ [c2]) ++ [c3]) ++ [c4]) c5) as [o5|e5] eqn:E5; cbn [answered]; [|by stops patch [c1; c2; c3; c4] c5].
  destruct (answer (((((w ++ [c1]) ++ [c2]) ++ [c3]) ++ [c4]) ++ [c5]) CallSubmoduleUpdate) as [o6|e6] eqn:E6; cbn [answered];
    [|by stops patch [c1; c2; c3; c4; c5] CallSubmoduleUpdate].
  exists (script remote baseRef pr patch). split; [by rewrite <- !app_assoc|]. exists patch. split; [done|]. split.
  - change (script remote baseRef pr patch) with [c1; c2; c3; c4; c5; CallSubmoduleUpdate]. by call_results.
  - rewrite <- app_assoc in E3. exact E3.
Qed.

Lemma ApplyRequests_recorded remote baseRef prs w :
  match ApplyRequests recorded remote baseRef prs w with
  | (None, w') => exists calls, w' = w ++ calls /\ all_applied remote baseRef w prs calls
  | (Some _, w') => exists before pr after calls last, prs = before ++ pr :: after /\ w' = w ++ calls ++ last /\
      all_applied remote baseRef w before calls /\ stopped remote baseRef (w ++ calls) pr last
  end.
Proof.
  revert w. induction prs as [|pr prs IH]; intros w; cbn [ApplyRequests]; [exists []; by rewrite app_nil_r|].
  pose proof (Apply_recorded remote baseRef pr w) as H. destruct (Apply _ _ _ _ _) as [[e|] w1]; destruct H as (calls & -> & H).
  - exists [], pr, prs, [], calls. rewrite app_nil_r. split_and!; done.
  - specialize (IH (w ++ calls)). destruct (ApplyRequests _ _ _ _ _) as [[e|] w2].
    + destruct IH as (before & pr' & after & calls' & last & -> & -> & Ha & Hs). exists (pr :: before), pr', after, (calls ++ calls'), last.
      split_and!; [done|by rewrite <- !app_assoc| |by rewrite app_assoc]. by exists calls, calls'.
    + destruct IH as (calls' & -> & Ha). exists (calls ++ calls'). split; [by rewrite app_assoc|]. by exists calls, calls'.
Qed.

(** The base is checked out, after a fetch if it is not there. *)
Definition checked_out (remote ref : bytes) (w calls : list git_call) : Prop :=
  let look := CallRevParse (ref ++ bs "^{commit}") in
  calls = [look; CallCheckout ref []] /\ all_succeed w calls \/
  calls = [look; CallFetch remote ref []; CallCheckout ref []] /\ call_succeeds w look = false /\ all_succeed (w ++ [look]) (drop 1 calls).

Definition commits (c : git_call) : bool := match c with CallApplyPatch _ | CallCommit _ _ => true | _ => false end.

Lemma Checkout_recorded remote ref w :
  match workspace_Checkout recorded remote ref w with
  | (None, w') => exists calls, w' = w ++ calls /\ checked_out remote ref w calls
  | (Some _, w') => exists calls, w' = w ++ calls /\ Forall (fun c => commits c = false) calls
  end.
Proof.
  unfold workspace_Checkout. cbn [gi_RevParse gi_Fetch gi_Checkout recorded]. 
  destruct (answer w (CallRevParse (ref ++ bs "^{commit}"))) as [o|e] eqn:E.
  - destruct (answer (w ++ [(CallRevParse (ref ++ bs "^{commit}"))]) _) as [o'|e'] eqn:E'; cbn [answered]; exists [(CallRevParse (ref ++ bs "^{commit}")); CallCheckout ref []]; (split; [by rewrite <- app_assoc|]).
    + left. split; [done|]. change (call_succeeds w (CallRevParse (ref ++ bs "^{commit}")) = true /\ call_succeeds (w ++ [(CallRevParse (ref ++ bs "^{commit}"))]) (CallCheckout ref []) = true /\ True). unfold call_succeeds. by rewrite E, E'.
    + by repeat constructor.
  - destruct (answer (w ++ [(CallRevParse (ref ++ bs "^{commit}"))]) (CallFetch remote ref [])) as [o1|e1] eqn:E1; cbn [answered];
      [|exists [(CallRevParse (ref ++ bs "^{commit}")); CallFetch remote ref []]; split; [by rewrite <- app_assoc|by repeat constructor]].
    destruct (answer ((w ++ [(CallRevParse (ref ++ bs "^{commit}"))]) ++ _) (CallCheckout ref [])) as [o2|e2] eqn:E2; cbn [answered];
      exists [(CallRevParse (ref ++ bs "^{commit}")); CallFetch remote ref []; CallCheckout ref []]; (split; [by rewrite <- !app_assoc|]).
    + right. split; [done|]. cbv zeta. unfold call_succeeds. split; [by rewrite E|]. cbn [drop all_succeed]. unfold call_succeeds. by rewrite E1, E2.
    + by repeat constructor.
Qed.

Context (ip_literal : bytes -> res bytes) (validUserinfo : bytes -> bool) (unicode_lower : bytes -> bytes).
Abbreviation new_request := (NewRequest ip_literal validUserinfo unicode_lower).
Abbreviation Parse_uri := (githubpr_Parse ip_literal validUserinfo unicode_lower).

(** A change request names its pull request. *)
Definition names (c : ChangeRequest) (pr : PullRequest) : Prop := Parse_uri (URL c) = Ok pr /\ pull_request_String pr = URL c /\ canonical pr.

Lemma create_requests_spec requests :
  match create_requests new_request requests with
  | inl prs => Forall2 names requests prs
  | inr e => GetErrorCode e = ErrorUser /\ exists c, c ∈ requests /\ forall pr, ~ names c pr
  end.
Proof.
  induction requests as [|c requests IH]; cbn [create_requests]; [done|]. unfold NewRequest at 1. destruct (Parse_uri (URL c)) as [pr|e|] eqn:E.
  - destruct (create_requests _ requests) as [prs|e].
    + constructor; [|done]. split; [done|]. by eapply parsed_canonical.
    + destruct IH as (H & c' & Hin & Hc). split; [done|]. exists c'. split; [by right|done].
  - split; [done|]. exists c. split; [left|]. intros pr [E' _]. congruence.
  - split; [done|]. exists c. split; [left|]. intros pr [E' _]. congruence.
Qed.

(** C17: Only the pinned code of the requested pull requests gets into a workspace.  When a
    workspace is prepared, its base is checked out (fetched if it is not there), and the
    pull requests that the change URIs name are applied in order: each is fetched, its
    pinned head is found to be an ancestor of the pull request, and what is applied and
    committed is the patch from the base to that head.  Otherwise nothing is applied when
    the checkout fails or, as a user error, when a URI names no pull request; and when an
    application fails, those before it are complete and it stops at the first call that
    fails. *)
Theorem only_pinned_changes_applied (build : BuildDescription) (w : list git_call) :
  match prepare recorded new_request build w with
  | (None, w') => exists checkout prs calls, w' = w ++ checkout ++ calls /\ checked_out (bd_Remote build) (bd_BaseSha build) w checkout /\
      Forall2 names (bd_ChangeRequests build) prs /\ all_applied (bd_Remote build) (bd_BaseSha build) (w ++ checkout) prs calls
  | (Some e, w') => exists checkout, Forall (fun c => commits c = false) checkout /\
      ((w' = w ++ checkout /\ is_Some (workspace_Checkout recorded (bd_Remote build) (bd_BaseSha build) w).1) \/
       (w' = w ++ checkout /\ GetErrorCode e = ErrorUser /\ exists c, c ∈ bd_ChangeRequests build /\ forall pr, ~ names c pr) \/
       exists before pr after calls last, w' = w ++ checkout ++ calls ++ last /\ Forall2 names (bd_ChangeRequests build) (before ++ pr :: after) /\
         all_applied (bd_Remote build) (bd_BaseSha build) (w ++ checkout) before calls /\
         stopped (bd_Remote build) (bd_BaseSha build) (w ++ checkout ++ calls) pr last)
  end.
Proof.
  unfold prepare. pose proof (Checkout_recorded (bd_Remote build) (bd_BaseSha build) w) as Hc.
  destruct (workspace_Checkout _ _ _ _) as [[e|] w1]; destruct Hc as (checkout & -> & Hc); [exists checkout; cbn [fst]; split; [done|]; left; by eauto|].
  assert (Forall (fun c => commits c = false) checkout) as Hno by (destruct Hc as [[-> _]|[-> _]]; by repeat constructor).
  pose proof (create_requests_spec (bd_ChangeRequests build)) as Hr. destruct (create_requests _ _) as [prs|e].
  - pose proof (ApplyRequests_recorded (bd_Remote build) (bd_BaseSha build) prs (w ++ checkout)) as Ha.
    destruct (ApplyRequests _ _ _ _ _) as [[e|] w2].
    + destruct Ha as (before & pr & after & calls & last & -> & -> & Ha & Hs). exists checkout. split; [done|]. do 2 right.
      exists before, pr, after, calls, last. rewrite <- !app_assoc in *. done.
    + destruct Ha as (calls & -> & Ha). exists checkout, prs, calls. by rewrite <- app_assoc.
  - exists checkout. naive_solver.
Qed.
End recorded.

(** A workspace with one pull request, where every command call_succeeds. *)
Definition sample_sha : bytes := bs "c3a4b5d6e7f80912a3b4c5d6e7f80912a3b4c5d6".
Definition sample_pr_build : BuildDescription :=
  {| bd_Remote := bs "git@github.com:uber/tango"; bd_BaseSha := bs "12ab";
     bd_ChangeRequests := [{| URL := bs "github://github.com/uber/frontend/webapp/pull/7/" ++ sample_sha |}]; bd_Strategy := ComputationStrategyNative |}.
Definition sample_prepare (build : BuildDescription) : option gerror * list git_call :=
  prepare (recorded (fun _ _ => inl (bs "+1")) (fun _ => true)) (NewRequest (fun _ => Err "host") (fun _ => false) (fun s => s)) build [].

Example sample_prepared :
  (sample_prepare sample_pr_build).1 = None /\ length (sample_prepare sample_pr_build).2 = 8%nat /\
  (sample_prepare sample_pr_build).2 !! 3%nat = Some (CallIsAncestor sample_sha (bs "pull/7/head")).
Proof. split_and!; vm_compute; reflexivity. Qed.
