(* ===== verification/Runner.v ===== *)
(** The native graph runner ([graphrunner/native.go]) with the commands of the Bazel client
    ([core/bazel/bazel.go], [query.go]), the marker files of external repositories
    ([core/targethasher/markers.go]) and the entry of the hasher ([FromProto] of
    [core/targethasher/graph.go]).  Running Bazel, the file system and JSON are parameters. *)
From Stdlib Require Import ZArith Lia.
From stdpp Require Import gmap list.
From S2P Require Import Prelude Encode RuleHash SourceHash TargetHasher Text Config Git.

Local Open Scope Z_scope.

(** * Commands of Bazel *)

Definition _moduleValueFlags : list bytes :=
  [bs "registry"; bs "override_module"; bs "inject_repository"; bs "repository_cache"; bs "repo_contents_cache"; bs "distdir";
   bs "vendor_dir"; bs "downloader_config"; bs "experimental_remote_downloader"; bs "credential_helper"; bs "override_repository";
   bs "module_mirrors"; bs "repo_env"].

(** A flag, its name and whether it carries its value. *)
Definition flag_name (arg : bytes) : bytes * bool :=
  let flag := trim_prefix_of (bs "--") arg in
  match cut x3d flag with Some (name, _) => (name, true) | None => (flag, false) end.

Fixpoint ModuleResolutionArgs (args : list bytes) : list bytes :=
  match args with
  | [] => []
  | arg :: args =>
      if bool_decide (bs "--" `prefix_of` arg) then
        let '(name, hasValue) := flag_name arg in
        if bool_decide (name ∈ _moduleValueFlags) then
          match hasValue, args with
          | false, value :: args => arg :: value :: ModuleResolutionArgs args
          | _, _ => arg :: ModuleResolutionArgs args
          end
        else ModuleResolutionArgs args
      else ModuleResolutionArgs args
  end.

Definition setupCommand (query : bytes) (startupOptions additionalArgs : list bytes) : list bytes :=
  startupOptions ++ [bs "query"] ++ additionalArgs ++ [bs "--output=streamed_proto"; query].

(** What a run depends on: the Bazel binary, its commands with their output, the targets that
    a query streams, git, directories and files. *)
Record Environment := {
  en_detect : bytes -> res bytes;  (** [detectBazelExecutable] *)
  en_output : bytes -> list bytes -> res bytes;
  en_query : list bytes -> res (list QueryTarget);
  en_file_hashes : bytes -> res (gmap bytes bytes);
  en_dir : bytes -> res (list bytes);
  en_file : bytes -> res bytes;
}.

(** [fmt.Errorf] with [%w]. *)
Definition wrap_err {A} (prefix : string) (r : res A) : res A := match r with Err e => Err (prefix +:+ e) | r => r end.

Section run.
Context (json_mapping : bytes -> res (gmap bytes bytes)) (newHash : bytes -> bytes).

Section environment.
Context (env : Environment).

Definition OutputBase (bazelCommand : bytes) (startupOptions : list bytes) : res bytes :=
  resolved ← wrap_err "detect bazel: " (en_detect env bazelCommand);
  out ← wrap_err "bazel info output_base: " (en_output env resolved (startupOptions ++ [bs "info"; bs "output_base"]));
  let result := TrimSpace out in
  _ ← guard_err (bool_decide (result = [])) "bazel info output_base returned empty path";
  Ok result.

Definition RepoMapping (bazelCommand : bytes) (startupOptions extraArgs : list bytes) : res (gmap bytes bytes) :=
  resolved ← wrap_err "detect bazel: " (en_detect env bazelCommand);
  out ← wrap_err "bazel mod dump_repo_mapping: "
    (en_output env resolved (startupOptions ++ [bs "mod"] ++ ModuleResolutionArgs extraArgs ++ [bs "dump_repo_mapping"; []]));
  wrap_err "parse bazel mod dump_repo_mapping output: " (json_mapping out).

(** * Marker files *)

Definition localInputPrefixes : list bytes := [bs "FILE:@@//"; bs "DIRTREE:@@//"; bs "DIRENTS:@@//"].

Definition isLocalInput (line : bytes) : bool := existsb (fun p => bool_decide (p `prefix_of` line)) localInputPrefixes.

(** The longest line that a [bufio.Scanner] reads. *)
Definition maxLine : Z := 65535.

(** The loop over the lines; the bytes hashed so far. *)
Fixpoint marker_loop (lines : list bytes) (seenHeader : bool) (hashed : option bytes) : res (option bytes) :=
  match lines with
  | [] => Ok hashed
  | l :: lines =>
      if decide (maxLine < zlen l) then Err "bufio.Scanner: token too long"
      else
        let line := TrimSpace l in
        if decide (line = []) then marker_loop lines seenHeader hashed
        else if seenHeader && negb (isLocalInput line) then marker_loop lines true hashed
        else marker_loop lines true (Some (default [] hashed ++ line))
  end.

(** A file without content has no hash. *)
Definition readMarkerHash (path : bytes) : res (option bytes) :=
  content ← en_file env path;
  hashed ← marker_loop (split_on x0a content) false None;
  Ok (match hashed with Some h => Some (newHash h) | None => None end).

Definition has_suffix (suffix s : bytes) : bool := bool_decide (suffix `suffix_of` s).

Fixpoint marker_hashes (markerDir : bytes) (entries : list bytes) (hashes : gmap bytes bytes) : res (gmap bytes bytes) :=
  match entries with
  | [] => Ok hashes
  | name :: entries =>
      if negb (has_suffix (bs ".marker") name) then marker_hashes markerDir entries hashes
      else
        let repo := trim_prefix_of (bs "@") (take (length name - 7) name) in
        if decide (repo = []) then marker_hashes markerDir entries hashes
        else
          h ← wrap_err "read marker for repo %s: " (readMarkerHash (Join [markerDir; name]));
          match h with
          | Some ((_ :: _) as h) => marker_hashes markerDir entries (<[repo := h]> hashes)
          | _ => marker_hashes markerDir entries hashes
          end
  end.

Definition ReadRepoMarkerHashes (bazelCommand : bytes) (startupOptions : list bytes) : res (gmap bytes bytes) :=
  outputBase ← wrap_err "bazel output base: " (OutputBase bazelCommand startupOptions);
  let markerDir := Join [outputBase; bs "external"] in
  entries ← wrap_err "read marker dir %s: " (en_dir env markerDir);
  marker_hashes markerDir entries ∅.
End environment.

(** * The hasher *)

Record HashConfig := {
  hc_KnownSourceHashes : gmap bytes bytes;
  hc_FullHashRepos : list bytes;
  hc_SequentialHashTargets : list bytes;
  hc_ExcludedRegex : list bytes;
  hc_UseBzlmod : bool;
  hc_AllTargetsFiles : list bytes;
  hc_RepoMarkerHashes : gmap bytes bytes;
  hc_RepoMapping : gmap bytes bytes;
}.

(** What the hasher takes from libraries, the disk under the workspace, and the orders and
    contexts of a run. *)
Context (parse : bytes -> BazelLabel) (sha1 : bytes -> bytes) (sort_attrs : list Attribute -> list Attribute) (attribute_string_list : Z).
Context (disk_hasher : gmap bytes bytes -> option SourceFile -> res (option bytes)) (join_path : bytes -> bytes -> bytes).
Context (range : HTargets -> list (bytes * HTarget)) (set_order : gset bytes -> list bytes) (compile : bytes -> res (bytes -> bool)).
Context (ctx order_ctx : Z -> bool) (cancelled : bool).

Fixpoint compile_excluded (patterns : list bytes) : res (list (bytes -> bool)) :=
  match patterns with
  | [] => Ok []
  | pattern :: patterns =>
      re ← wrap_err "failed to compile excluded regex pattern %q: " (compile pattern);
      res ← compile_excluded patterns;
      Ok (re :: res)
  end.

Definition FromProto (hashConfig : HashConfig) (fuel : nat) (r : list QueryTarget) : option (res Result) :=
  match compile_excluded (hc_ExcludedRegex hashConfig) with
  | Err e => Some (Err e)
  | Panic => Some Panic
  | Ok excludedRegex =>
      let p := {| hp_noOp := false; hp_FullHashRepos := {[ [] ]} ∪ list_to_set (hc_FullHashRepos hashConfig);
                  hp_Excluded := fun name => existsb (fun re => re name) excludedRegex; hp_UseBzlmod := hc_UseBzlmod hashConfig |} in
      match fromProto parse sha1 sort_attrs attribute_string_list (disk_hasher (hc_KnownSourceHashes hashConfig)) join_path range ctx order_ctx
              cancelled p (set_order (list_to_set (hc_SequentialHashTargets hashConfig))) (hc_RepoMarkerHashes hashConfig)
              (hc_RepoMapping hashConfig) fuel r {| hs_targets := ∅; hs_calls := 0 |} with
      | None => None
      | Some (Ok result, _) =>
          Some (Ok (if decide (hc_AllTargetsFiles hashConfig = []) then result
                    else {| rt_TargetNames := rt_TargetNames result; rt_Targets := rt_Targets result;
                            rt_AllTargetsFileHashes := all_targets_hashes (hc_KnownSourceHashes hashConfig) hexEncode (hc_AllTargetsFiles hashConfig) |}))
      | Some (r, _) => Some r
      end
  end.

(** * The runner *)

Section compute.
Context (env : Environment) (config : RepositoryConfig) (extraExcludedFiles : list bytes).

Definition bzlmodEnabled : bool := match rc_BzlmodEnabled config with None => true | Some b => b end.

Definition target_query : bytes :=
  if bzlmodEnabled then bs "deps(//...:all-targets)" else bs "//external:all-targets + deps(//...:all-targets)".

Definition query_command : list bytes :=
  setupCommand target_query (rc_BazelStartupOptions config)
    ([bs "--order_output=no"; bs "--proto:locations"; bs "--noproto:default_values"] ++ rc_BazelExtraArgs config).

(** The hashes of the marker files and the repository mapping of the external modules. *)
Definition external_modules : res (gmap bytes bytes * gmap bytes bytes) :=
  if bzlmodEnabled then
    hashes ← wrap_err "read repo marker hashes: " (ReadRepoMarkerHashes env (rc_BazelCommandPath config) (rc_BazelStartupOptions config));
    _ ← guard_err (bool_decide (hashes = ∅)) "bzlmod enabled but no repo marker hashes found";
    mapping ← wrap_err "read repo mapping: "
      (RepoMapping env (rc_BazelCommandPath config) (rc_BazelStartupOptions config) (rc_BazelExtraArgs config));
    Ok (hashes, mapping)
  else Ok (∅, ∅).

Definition hash_inputs : res (HashConfig * list QueryTarget) :=
  queryResult ← en_query env query_command;
  knownSourceHashes ← en_file_hashes env (bs "HEAD");
  external ← external_modules;
  Ok ({| hc_KnownSourceHashes := knownSourceHashes; hc_FullHashRepos := rc_FullHashRepos config; hc_SequentialHashTargets := [];
         hc_ExcludedRegex := rc_ExcludedFiles config ++ extraExcludedFiles; hc_UseBzlmod := bzlmodEnabled;
         hc_AllTargetsFiles := rc_AllTargetsFiles config; hc_RepoMarkerHashes := external.1; hc_RepoMapping := external.2 |}, queryResult).

Definition Compute (fuel : nat) : option (res Result) :=
  match hash_inputs with
  | Ok (hashConfig, queryResult) => FromProto hashConfig fuel queryResult
  | Err e => Some (Err e)
  | Panic => Some Panic
  end.
End compute.
End run.

(** * What a marker file contributes *)

(** The lines that are hashed: the first one, and those about inputs in the main repository. *)
Definition stable_lines (content : bytes) : option (list bytes) :=
  match filter (fun line => line <> []) (TrimSpace <$> split_on x0a content) with
  | [] => None
  | header :: rest => Some (header :: filter (fun line => isLocalInput line = true) rest)
  end.

Definition short_lines (content : bytes) : Prop := Forall (fun l => zlen l <= maxLine) (split_on x0a content).

Lemma marker_loop_seen lines hashed : Forall (fun l => zlen l <= maxLine) lines ->
  marker_loop lines true (Some hashed) =
    Ok (Some (hashed ++ concat (filter (fun line => isLocalInput line = true) (filter (fun line => line <> []) (TrimSpace <$> lines))))).
Proof.
  intros H. revert hashed. induction H as [|l lines Hl _ IH]; intros hashed; cbn [marker_loop fmap list_fmap]; [by rewrite app_nil_r|].
  rewrite decide_False by lia. cbv zeta. rewrite filter_cons. destruct (decide (TrimSpace l = [])) as [E|E].
  - rewrite IH. by rewrite decide_False by auto.
  - rewrite (decide_True (P := TrimSpace l <> [])) by done. rewrite filter_cons. cbn [andb]. destruct (isLocalInput (TrimSpace l)) eqn:Ei; cbn [negb].
    + rewrite IH, decide_True by done. cbn [default from_option id concat]. by rewrite <- app_assoc.
    + rewrite IH. by rewrite decide_False.
Qed.

Lemma readMarkerHash_stable newHash env path content : en_file env path = Ok content -> short_lines content ->
  readMarkerHash newHash env path = Ok (match stable_lines content with Some lines => Some (newHash (concat lines)) | None => None end).
Proof.
  intros E H. unfold readMarkerHash. rewrite E. cbn [mbind res_bind]. unfold short_lines in H. unfold stable_lines.
  induction H as [|l lines Hl Hls IH]; [done|]. cbn [marker_loop fmap list_fmap]. rewrite decide_False by lia. cbv zeta. rewrite filter_cons.
  destruct (decide (TrimSpace l = [])) as [En|En].
  - rewrite (decide_False (P := TrimSpace l <> [])) by auto. exact IH.
  - rewrite (decide_True (P := TrimSpace l <> [])) by done. cbn [andb]. rewrite marker_loop_seen by done. done.
Qed.

(** The same line contributes the same whatever the environment: two environments where the
    external modules of a configuration are the same, wherever their output bases are. *)
Record same_modules (json_mapping : bytes -> res (gmap bytes bytes)) (env env' : Environment) (config : RepositoryConfig) : Prop := {
  sm_query : en_query env (query_command config) = en_query env' (query_command config);
  sm_files : en_file_hashes env (bs "HEAD") = en_file_hashes env' (bs "HEAD");
  sm_mapping : RepoMapping json_mapping env (rc_BazelCommandPath config) (rc_BazelStartupOptions config) (rc_BazelExtraArgs config)
    = RepoMapping json_mapping env' (rc_BazelCommandPath config) (rc_BazelStartupOptions config) (rc_BazelExtraArgs config);
  sm_markers : exists base base' names,
    OutputBase env (rc_BazelCommandPath config) (rc_BazelStartupOptions config) = Ok base /\
    OutputBase env' (rc_BazelCommandPath config) (rc_BazelStartupOptions config) = Ok base' /\
    en_dir env (Join [base; bs "external"]) = Ok names /\ en_dir env' (Join [base'; bs "external"]) = Ok names /\
    forall name, name ∈ names -> has_suffix (bs ".marker") name = true -> exists content content',
      en_file env (Join [Join [base; bs "external"]; name]) = Ok content /\
      en_file env' (Join [Join [base'; bs "external"]; name]) = Ok content' /\
      short_lines content /\ short_lines content' /\ stable_lines content = stable_lines content';
}.

Lemma marker_hashes_stable newHash env env' dir dir' names hashes :
  (forall name, name ∈ names -> has_suffix (bs ".marker") name = true -> exists content content',
     en_file env (Join [dir; name]) = Ok content /\ en_file env' (Join [dir'; name]) = Ok content' /\
     short_lines content /\ short_lines content' /\ stable_lines content = stable_lines content') ->
  marker_hashes newHash env dir names hashes = marker_hashes newHash env' dir' names hashes.
Proof.
  revert hashes. induction names as [|name names IH]; intros hashes H; cbn [marker_hashes]; [done|].
  assert (forall hashes, marker_hashes newHash env dir names hashes = marker_hashes newHash env' dir' names hashes) as IH'
    by (intros hs; apply IH; intros n Hn; apply H; by right).
  destruct (has_suffix (bs ".marker") name) eqn:E; [|apply IH']. cbn [negb]. cbv zeta. case_decide; [apply IH'|].
  destruct (H name ltac:(left) E) as (content & content' & E1 & E2 & Hs & Hs' & Heq).
  rewrite (readMarkerHash_stable _ _ _ _ E1 Hs), (readMarkerHash_stable _ _ _ _ E2 Hs'), Heq.
  destruct (stable_lines content') as [lines|]; cbn [wrap_err mbind res_bind]; [|apply IH']. destruct (newHash (concat lines)); apply IH'.
Qed.

Section independence.
Context (json_mapping : bytes -> res (gmap bytes bytes)) (newHash : bytes -> bytes).
Context (parse : bytes -> BazelLabel) (sha1 : bytes -> bytes) (sort_attrs : list Attribute -> list Attribute) (attribute_string_list : Z).
Context (disk_hasher : gmap bytes bytes -> option SourceFile -> res (option bytes)) (join_path : bytes -> bytes -> bytes).
Context (range : HTargets -> list (bytes * HTarget)) (set_order : gset bytes -> list bytes) (compile : bytes -> res (bytes -> bool)).
Context (ctx order_ctx : Z -> bool) (cancelled : bool).

(** C26: A graph does not depend on where and in which environment external modules were
    fetched.  Two runs compute the same graph when the query, the files of the repository and
    the mapping of its modules are the same and the marker files, in whatever output bases,
    have the same first line and the same lines about inputs in the main repository: the
    lines about environment variables, about generated inputs and about absolute paths,
    blank lines, and the blanks around a line do not count. *)
Theorem graph_environment_independent (env env' : Environment) (config : RepositoryConfig) (extraExcludedFiles : list bytes) (fuel : nat)
    (Hsame : same_modules json_mapping env env' config) :
  Compute json_mapping newHash parse sha1 sort_attrs attribute_string_list disk_hasher join_path range set_order compile ctx order_ctx cancelled
      env config extraExcludedFiles fuel
    = Compute json_mapping newHash parse sha1 sort_attrs attribute_string_list disk_hasher join_path range set_order compile ctx order_ctx cancelled
      env' config extraExcludedFiles fuel.
Proof.
  destruct Hsame as [Hq Hf Hm (base & base' & names & E1 & E2 & E3 & E4 & Hn)].
  assert (external_modules json_mapping newHash env config = external_modules json_mapping newHash env' config) as He.
  { unfold external_modules, ReadRepoMarkerHashes. destruct (bzlmodEnabled config); [|done]. rewrite E1, E2, Hm. cbn [wrap_err mbind res_bind].
    rewrite E3, E4. cbn [wrap_err mbind res_bind]. by rewrite (marker_hashes_stable newHash env env' _ _ names ∅ Hn). }
  unfold Compute, hash_inputs. by rewrite Hq, Hf, He.
Qed.
End independence.

(** An environment with an output base, a workspace without targets, and the marker file of
    one module. *)
Definition sample_environment (base marker : bytes) : Environment :=
  {| en_detect := fun _ => Ok (bs "bazelisk");
     en_output := fun _ args => if decide (args = [bs "info"; bs "output_base"]) then Ok (base ++ [x0a]) else Ok [];
     en_query := fun _ => Ok [];
     en_file_hashes := fun _ => Ok ∅;
     en_dir := fun _ => Ok [bs "@zlib+.marker"; bs "zlib+"];
     en_file := fun path => if decide (path = Join [base; bs "external"; bs "@zlib+.marker"]) then Ok marker else Err "file does not exist" |}.

Definition sample_runner_config : RepositoryConfig :=
  {| rc_Remote := bs "git@github.com:uber/tango"; rc_RepositoryID := bs "tango"; rc_FullHashRepos := []; rc_ExcludedFiles := [];
     rc_BzlmodEnabled := None; rc_BazelCommandPath := []; rc_BazelExtraArgs := [bs "--config=ci"; bs "--registry"; bs "https://bcr.bazel.build"];
     rc_BazelStartupOptions := []; rc_StreamBazelLogs := false; rc_QueryTimeoutSeconds := 600; rc_SeedAttributes := []; rc_AllTargetsFiles := [] |}.

Definition here : Environment := sample_environment (bs "/home/a/.cache")
  (bs "4f2a" ++ [x0a] ++ bs "ENV:HOME /home/a" ++ [x0a] ++ bs "FILE:@@//third_party:zlib.patch 77aa" ++ [x0a]).
Definition there : Environment := sample_environment (bs "/ci/base")
  (bs "4f2a " ++ [x0a; x0a] ++ bs "FILE:@@//third_party:zlib.patch 77aa" ++ [x0a] ++ bs "FILE:/usr/bin/cc 12" ++ [x0a]).

Definition sample_compute (env : Environment) : option (res Result) :=
  Compute (fun _ => Ok ∅) (fun written => written) (fun l => {| lb_Repository := []; lb_Package := []; lb_Target := l |}) (fun b => b) (fun l => l) 5
    (fun _ _ => Err "no file") (fun _ l => l) map_to_list elements (fun _ => Ok (fun _ => false)) (fun _ => false) (fun _ => false) false
    env sample_runner_config [] 2.

Lemma graph_environment_independent_witness :
  sample_compute here = sample_compute there /\
  match hash_inputs (fun _ => Ok ∅) (fun written => written) there sample_runner_config [] with
  | Ok (c, _) => hc_RepoMarkerHashes c !! bs "zlib+" = Some (bs "4f2aFILE:@@//third_party:zlib.patch 77aa")
  | _ => False
  end.
Proof.
  split; [|vm_compute; reflexivity]. unfold sample_compute. apply graph_environment_independent. constructor; [reflexivity..|].
  exists (bs "/home/a/.cache"), (bs "/ci/base"), [bs "@zlib+.marker"; bs "zlib+"]. split_and!; [by vm_compute|by vm_compute|reflexivity|reflexivity|].
  intros name Hin Hs. apply elem_of_cons in Hin as [->|Hin].
  - do 2 eexists. split; [by vm_compute|]. split; [by vm_compute|]. split_and!; [apply (bool_decide_unpack _); vm_compute; exact I..|by vm_compute].
  - apply list_elem_of_singleton in Hin as ->. by vm_compute in Hs.
Defined.
